(* ===== verification/_CoqProject ===== *)
-Q . S2P
Prelude.v
Mpn.v
MpnMul.v
MpnDiv.v
Qsort.v
Search.v
StrWord.v
Str.v
MemCopy.v
StrCmp.v
MemCmp.v
TwoWay.v
Substr.v
StrCase.v
Number.v
Threads.v
LowLevelLock.v
Semaphore.v
Barrier.v
Rwlock.v
RwlockHand.v
RwlockWake.v
Environ.v
Getenv.v
Tsearch.v
Tdelete.v
Time.v
Mktime.v
Gconv.v
NsName.v
Inet.v
Getopt.v
DlSort.v
