(* ===== verification/Prelude.v ===== *)
(** * Core routines of the GNU C library, verified

    The repository is a C library: largely independent routines behind the C and
    POSIX interfaces, most of them with a portable C version and, for some
    processors, assembler versions.  This development models the portable C code
    of routines whose logic is the library's own, and proves them correct.  The
    machine is LP64 and little endian, as for the configuration the generic
    headers describe on x86-64 or AArch64.

    ** Files and the code they model

    - [Prelude]: C integers ([wrap], [swrap]), a flat memory, the option monad
      ([let?]) in which failure of an assertion, an access outside an object or
      lack of fuel is [None], and lemmas about them.
    - [Mpn], [MpnMul], [MpnDiv]: multiple-precision naturals (stdlib/add_n.c,
      sub_n.c, mul_1.c, addmul_1.c, submul_1.c, lshift.c, rshift.c, cmp.c,
      longlong.h; mul_n.c, mul.c; divmod_1.c, mod_1.c, divrem.c).  Limbs are in
      the flat memory, so operands may overlap as the code allows.  [MpnMul] and
      [MpnDiv] call the kernels of [Mpn] and use their specifications.
    - [Qsort]: qsort_r, its mergesort with the indirect variant and its heapsort
      fallback, do_swap on bytes, bsearch (stdlib/qsort.c, bits/stdlib-bsearch.h).
    - [Search]: hcreate_r, hsearch_r, hdestroy_r, lsearch, lfind, insque, remque
      (misc/hsearch_r.c, lsearch.c, insremque.c).
    - [Tsearch], [Tdelete]: the red-black trees of misc/tsearch.c with nodes and
      pointers to pointer words in memory, the colour in the low bit.
    - [StrWord]: the word-at-a-time tests of sysdeps/generic/string-fz*.h.
      [Str], [MemCopy] and [StrCmp] use them: string searching and tokenizing
      (string/strlen.c, strchr.c, memchr.c, ..., strtok_r.c), copying
      (wordcopy.c, memcpy.c, memmove.c, memset.c), comparing and concatenating
      (strcmp.c, strncmp.c, stpcpy.c, strcpy.c, strcat.c).
    - [MemCmp]: string/memcmp.c.  [TwoWay]: the Two-Way search of
      string/str-two-way.h with the theory of periods and maximal suffixes behind
      it.  [Substr] (memmem.c, strstr.c) and [StrCase] (strcasestr.c, strcasecmp.c,
      strncase.c, the short search of str-two-way.h) instantiate it through the
      classes [Available] and [Compares], which state what the macros AVAILABLE and
      CMP_FUNC promise.
    - [Number]: digits of numbers (stdio-common/_itoa.c, _fitoa_word.c) and their
      parsing (stdlib/strtol_l.c).
    - [Threads]: interleavings of threads that block on a futex.
      [LowLevelLock], [Semaphore], [Barrier] are steps over it: one per atomic
      operation of sysdeps/nptl/lowlevellock.h and nptl/lowlevellock.c, of
      nptl/sem_*.c (the 64-bit and the 32-bit algorithm) and of
      nptl/pthread_barrier_wait.c.  [Rwlock] is the read-write lock
      (nptl/pthread_rwlock_common.c, tryrdlock, trywrlock, unlock) in the same style, with its
      counts of readers and writers; [RwlockHand] follows the hand-over of the phases and
      [RwlockWake] the three futexes.
    - [Environ]: the environment, each store of stdlib/setenv.c and putenv.c and each load of
      stdlib/getenv.c a step; [Getenv]: getenv without a lock among the writers.
    - [Time], [Mktime]: time/offtime.c and gmtime's path through tzset.c; the search
      of time/mktime.c for any conversion function, and timegm.
    - [Gconv]: the conversions of iconv/gconv_simple.c between UTF-8, UCS-2, UCS-4,
      ASCII and the internal encoding, with the loops of iconv/loop.c around them
      (incomplete characters kept in the state included).
    - [NsName]: domain names, compressed and uncompressed (resolv/ns_name_*.c).
      [Inet]: numeric addresses (resolv/inet_ntop.c, inet_pton_length.c).
    - [Getopt]: posix/getopt.c, the parser of getopt, getopt_long and
      getopt_long_only with its permutation of argv.
    - [DlSort]: elf/dl-sort-maps.c, the two algorithms that sort loaded objects by their
      dependencies.

    ** What the theorems show

    - Arithmetic: each mpn routine computes the sum, product, quotient or shift of
      the numbers its operands stand for, with the carry or remainder it returns,
      and writes nothing but its result; udiv_qrnnd's two-step estimate is exact.
    - Sorting and searching: qsort_r gives a sorted permutation (stable when
      malloc gives memory), stays inside the array and the temporary buffer it
      sizes whatever the comparison function does, and the indirect sort agrees
      with the direct one; bsearch and
      lsearch find an element if there is one; hsearch_r refines a finite map;
      tsearch and tdelete keep an ordered red-black tree whose height is
      logarithmic, never overflow the pointer stack and free exactly what they
      unchain.
    - Strings: every word-at-a-time loop agrees with the definition over bytes and
      reads no word beyond the one that holds the last byte it may read; memmove
      handles every overlap; strtok_r and strsep refine splitting into tokens.
      memcmp is the comparison byte by byte.  critical_factorization cuts every
      needle at a critical position; memmem, strstr and strcasestr return the first
      occurrence, whichever of their algorithms the length selects.
    - Numbers: _itoa's multiplication by reciprocals agrees with division;
      strtol's result, errno and end pointer on every string are those of the numeral
      that the grammar of prefixes and digits finds in it; strtoul reads back what
      _itoa writes.
    - Threads: mutual exclusion, exact counting of tokens and waiters, a barrier's
      rounds with one serial thread in each, and the absence of lost wake-ups, for any
      number of threads and every interleaving.  A thread blocks on a read-write lock only
      while another thread holds it or it holds a read lock itself.  This needs that no
      timed writer gives up on a lock that prefers writers, and that the number of readers
      does not overflow; an execution in which a timed writer gives up leaves a reader
      blocked on a free lock.
    - Environment: setenv, unsetenv, putenv and clearenv refine a map; whatever a getenv
      returns that runs at the same time was so at a moment during its call.
    - Time: __offtime agrees with a calendar that counts days year by year, and
      timegm inverts it; mktime's search returns for every local clock and its
      result converts back to what it stored.
    - Encodings: the UTF-8 decoder accepts exactly the well-formed sequences and, when
      errors are not ignored, cutting its input into pieces changes nothing; decoding inverts encoding for
      every conversion.  Domain names survive packing, compression and the text
      form, and unpacking ends inside the message whatever its pointers are.  The
      address functions invert each other.
    - Options: calling getopt until -1 ends, gives the events of a specification that has
      no indices, moves nothing and states how options and their arguments are written
      ([parse]), and leaves options before operands, both in their order.
    - Loaded objects: both algorithms of _dl_sort_maps return a permutation within
      their bounds, in the order of the dependencies, link-time and, for finalization,
      those of relocations, wherever there is no cycle.

    ** Bounds and fuel

    Loops over a range take its length as a [nat] and recurse on it.  A loop that
    ends at something in the data takes fuel, and its theorem says how much is
    enough: the distance to the terminating byte, the height of the tree, the size
    of the hash table, the lengths of haystack and needle, one more than the number of characters in a conversion's
    buffers, twice the length of a message and one, the characters of an argument
    vector.  Names are packed and printed with the constant 256, more than a name's
    255 bytes.  Theorems of the form [f fuel x = Some y] say that the
    routine returns.  Integers keep their width wherever the code can overflow;
    where it relies on the absence of overflow the range is a hypothesis.

    ** Not modelled

    - Assembler versions, the floating-point mathematical library, locale data,
      generated conversion tables, and the code that is mostly system calls
      (standard I/O, dynamic loading, name services).
    - Weak memory: the steps of the synchronization primitives are sequentially
      consistent, so the memory orders of the atomics are not examined.
    - Branches that the configuration above does not compile: big-endian words,
      pre-inverted division, the padding variant of the tree node.
    - The early return of tsearch, tfind and tdelete for a null rootp; the messages of
      getopt, the pipeline of several conversion steps in iconv's
      skeleton.c, pthread_barrier_destroy, digit grouping in strtol, the
      mutexes and condition variables, malloc, regular expressions: left for extensions. *)

From Stdlib Require Import String Ascii ZArith List Lia Bool.
Import ListNotations.
#[local] Open Scope Z_scope.

(** ** Machine integers *)

(** [wrap w x] is the value of [x] converted to an unsigned [w]-bit type. *)
Definition wrap (w x : Z) : Z := x mod 2 ^ w.

(** [swrap w x] is [x] converted to a signed two's complement [w]-bit type. *)
Definition swrap (w x : Z) : Z := (x + 2 ^ (w - 1)) mod 2 ^ w - 2 ^ (w - 1).

(** The value of a C comparison. *)
Definition b2z (b : bool) : Z := if b then 1 else 0.

Lemma b2z_bit b : b2z b = 0 \/ b2z b = 1.
Proof. destruct b; auto. Qed.

Lemma wrap_range w x : 0 <= w -> 0 <= wrap w x < 2 ^ w.
Proof. intros; apply Z.mod_pos_bound; lia. Qed.

Lemma wrap_small w x : 0 <= x < 2 ^ w -> wrap w x = x.
Proof. apply Z.mod_small. Qed.

(** A bitwise or of a multiple of [2 ^ n] and a smaller number is a sum. *)
Lemma lor_add_low a b n : 0 <= n -> 0 <= b < 2 ^ n ->
  Z.lor (a * 2 ^ n) b = a * 2 ^ n + b.
Proof.
  intros Hn Hb. rewrite <- (Z.shiftl_mul_pow2 a n Hn).
  rewrite <- Z.add_lor_land. replace (Z.land (Z.shiftl a n) b) with 0; [lia|].
  symmetry. apply Z.bits_inj'. intros i Hi. rewrite Z.land_spec, Z.bits_0.
  destruct (Z.ltb_spec i n).
  - rewrite Z.shiftl_spec_low by lia. reflexivity.
  - rewrite <- (Z.mod_small b (2 ^ n)) by lia.
    rewrite Z.mod_pow2_bits_high by lia. apply andb_false_r.
Qed.

(** Masking with [2 ^ n - 1] is reduction modulo [2 ^ n]. *)
Lemma land_low_mask a n : 0 <= n -> Z.land a (2 ^ n - 1) = a mod 2 ^ n.
Proof.
  intros. rewrite <- Z.land_ones by assumption. f_equal.
  rewrite Z.ones_equiv. lia.
Qed.

(** ** A flat memory of cells

    Arrays of machine words live in a total memory from addresses to cell
    values.  Pointers are addresses counted in cells; aliasing and overlap
    between the arguments of a routine are therefore visible in the model. *)
Definition mem := Z -> Z.

Definition upd (m : mem) (a v : Z) : mem := fun x => if x =? a then v else m x.

(** [frame m m' p n]: at most the [n] cells from [p] on differ. *)
Definition frame (m m' : mem) (p : Z) (n : nat) : Prop :=
  forall a, ~ (p <= a < p + Z.of_nat n) -> m' a = m a.

Lemma upd_eq m a v : upd m a v a = v.
Proof. unfold upd; now rewrite Z.eqb_refl. Qed.

Lemma upd_ne m a v x : x <> a -> upd m a v x = m x.
Proof. unfold upd; intros; destruct (Z.eqb_spec x a); congruence. Qed.

Lemma frame_refl m p n : frame m m p n.
Proof. now intros a _. Qed.

Lemma frame_trans m1 m2 m3 p n q k r l :
  frame m1 m2 p n -> frame m2 m3 q k ->
  r <= p -> p + Z.of_nat n <= r + Z.of_nat l ->
  r <= q -> q + Z.of_nat k <= r + Z.of_nat l ->
  frame m1 m3 r l.
Proof. intros H1 H2 ? ? ? ? a Ha. rewrite H2, H1; auto; lia. Qed.

Lemma frame_upd m a v p n :
  p <= a < p + Z.of_nat n -> frame m (upd m a v) p n.
Proof. intros ? x ?; apply upd_ne; lia. Qed.

Lemma frame_upd_l m m' a v q k r l :
  frame (upd m a v) m' q k ->
  r <= a < r + Z.of_nat l -> r <= q -> q + Z.of_nat k <= r + Z.of_nat l ->
  frame m m' r l.
Proof. intros F ? ? ? x Hx. rewrite F by lia. apply upd_ne; lia. Qed.

(** ** Bytes and little-endian words *)

(** A [k]-byte little-endian load and store. *)
Fixpoint load_le (k : nat) (m : mem) (a : Z) : Z :=
  match k with
  | O => 0
  | S k => m a + 256 * load_le k m (a + 1)
  end.

Fixpoint store_le (k : nat) (m : mem) (a v : Z) : mem :=
  match k with
  | O => m
  | S k => store_le k (upd m a (v mod 256)) (a + 1) (v / 256)
  end.

Definition byte (x : Z) : Prop := 0 <= x < 256.

(** A property of all bytes, by evaluation. *)
Lemma byte_check (P : Z -> bool) : forallb P (map Z.of_nat (seq 0 256)) = true -> forall x, byte x -> P x = true.
Proof.
  intros H x Hx. rewrite forallb_forall in H. apply H. apply in_map_iff. exists (Z.to_nat x). split; [unfold byte in Hx; lia|].
  apply in_seq. unfold byte in Hx. lia.
Qed.

(** The codes of a string, and where a code is among others: what the
    specifications say about characters is written with these. *)
Definition codes (s : string) : list Z := map (fun a => Z.of_nat (nat_of_ascii a)) (list_ascii_of_string s).

Fixpoint char_index (c : Z) (l : list Z) (i : Z) : option Z :=
  match l with
  | [] => None
  | x :: l => if x =? c then Some i else char_index c l (i + 1)
  end.

Lemma char_index_none c l : forall i, Forall (fun x => 0 <= x < 256) l -> ~ byte c -> char_index c l i = None.
Proof.
  induction l as [|x l IH]; intros i F Hc; [reflexivity|]. inversion F as [|? ? Hx F']; subst. cbn [char_index].
  destruct (Z.eqb_spec x c); [unfold byte in Hc; lia | now apply IH].
Qed.

Definition bytes (m : mem) (p n : Z) : Prop := forall x, p <= x < p + n -> 0 <= m x < 256.

Lemma store_load k : forall m m' a b, bytes m b (Z.of_nat k) ->
  let m2 := store_le k m' a (load_le k m b) in
  frame m' m2 a k /\ forall i, 0 <= i < Z.of_nat k -> m2 (a + i) = m (b + i).
Proof.
  induction k as [|k IH]; intros m m' a b Hb; cbn [store_le load_le].
  { split; [apply frame_refl | lia]. }
  assert (H0 : 0 <= m b < 256) by (apply Hb; lia).
  rewrite (Z.mul_comm 256), Z.mod_add, Z.mod_small by lia.
  rewrite Z.div_add, Z.div_small, Z.add_0_l by lia.
  destruct (IH m (upd m' a (m b)) (a + 1) (b + 1)) as [F E]; [intros y ?; apply Hb; lia|].
  split; [apply (frame_upd_l _ _ _ _ _ _ _ _ F); lia|].
  intros i Hi. destruct (Z.eq_dec i 0) as [->|].
  - rewrite !Z.add_0_r, F by lia. apply upd_eq.
  - replace (a + i) with (a + 1 + (i - 1)) by lia. rewrite E by lia. f_equal; lia.
Qed.

(** ** Loops with fuel

    A loop whose length is not known beforehand takes a bound on the number of
    its iterations and is [None] when the bound is reached. *)
Declare Scope glibc_scope.
Delimit Scope glibc_scope with glibc.
Notation "'let?' x := e 'in' k" := (match e with Some x => k | None => None end)
  (at level 10, x pattern, e at level 200, k at level 200) : glibc_scope.

Create HintDb glibc.
Create Rewrite HintDb glibc_rw.
#[export] Hint Resolve frame_refl b2z_bit : glibc.
#[export] Hint Rewrite upd_eq : glibc_rw.

(** Case analysis on the comparison a definition branches on. *)
Ltac case_cmp :=
  match goal with
  | |- context [ ?x <? ?y ] => destruct (Z.ltb_spec x y)
  | |- context [ ?x <=? ?y ] => destruct (Z.leb_spec x y)
  | |- context [ ?x =? ?y ] => destruct (Z.eqb_spec x y)
  | |- context [ ?x >? ?y ] => rewrite (Z.gtb_ltb x y); destruct (Z.ltb_spec y x)
  | |- context [ ?x >=? ?y ] => rewrite (Z.geb_leb x y); destruct (Z.leb_spec y x)
  end.
