(* ===== verification/Mpn.v ===== *)
(** * Multiple-precision naturals: limb primitives (stdlib mpn kernel) *)

From Stdlib Require Import ZArith List Lia Bool.
From S2P Require Import Prelude.
Import ListNotations.
#[local] Open Scope Z_scope.

(** ** Limbs and the value of a limb array *)

Definition BITS_PER_MP_LIMB : Z := 64.
(** [B] is the number of values of an [mp_limb_t]. *)
Definition B : Z := 2 ^ BITS_PER_MP_LIMB.
Arguments B : simpl never.

Definition limb (x : Z) : Prop := 0 <= x < B.

(** Conversion of an arithmetic result to [mp_limb_t]. *)
Definition lwrap (x : Z) : Z := x mod B.

Definition limbs (m : mem) (p : Z) (n : nat) : Prop :=
  forall a, p <= a < p + Z.of_nat n -> limb (m a).

(** The natural number stored in the [n] limbs from [p] on, least significant
    limb first. *)
Fixpoint val (m : mem) (p : Z) (n : nat) : Z :=
  match n with
  | O => 0
  | S k => m p + B * val m (p + 1) k
  end.

(** The operand at [s] of a loop that writes [res] in ascending order is not
    overwritten before it is read. *)
Definition asc_ok (res s : Z) (n : nat) : Prop := res <= s \/ s + Z.of_nat n <= res.

Lemma B_gt_1 : 1 < B.
Proof. reflexivity. Qed.

Lemma Bpow_pos n : 0 < B ^ Z.of_nat n.
Proof. apply Z.pow_pos_nonneg; [pose proof B_gt_1|]; lia. Qed.

Lemma Bpow_S n : B ^ Z.of_nat (S n) = B * B ^ Z.of_nat n.
Proof. rewrite Nat2Z.inj_succ, Z.pow_succ_r; lia. Qed.

Lemma Bpow_add a b : B ^ Z.of_nat (a + b) = B ^ Z.of_nat a * B ^ Z.of_nat b.
Proof. rewrite Nat2Z.inj_add, Z.pow_add_r; lia. Qed.

Lemma lwrap_limb x : limb (lwrap x).
Proof. apply Z.mod_pos_bound; pose proof B_gt_1; lia. Qed.

Lemma lwrap_small x : limb x -> lwrap x = x.
Proof. apply Z.mod_small. Qed.

(** One carry out of an addition: the wrapped sum and whether it wrapped. *)
Lemma lwrap_add_carry x y : limb x -> limb y ->
  lwrap (x + y) + B * b2z (lwrap (x + y) <? y) = x + y.
Proof.
  unfold lwrap, limb; intros Hx Hy.
  destruct (Z.ltb_spec (x + y) B).
  - rewrite Z.mod_small by lia. case_cmp; simpl b2z; lia.
  - rewrite <- (Z.mod_unique (x + y) B 1 (x + y - B)) by lia.
    case_cmp; simpl b2z; lia.
Qed.

(** One borrow out of a subtraction. *)
Lemma lwrap_sub_borrow x y : limb x -> limb y ->
  lwrap (x - y) - B * b2z (lwrap (x - y) >? x) = x - y.
Proof.
  unfold lwrap, limb; intros Hx Hy.
  destruct (Z.leb_spec y x).
  - rewrite Z.mod_small by lia. case_cmp; simpl b2z; lia.
  - rewrite <- (Z.mod_unique (x - y) B (-1) (x - y + B)) by lia.
    case_cmp; simpl b2z; lia.
Qed.

(** ** [val] algebra *)

Lemma limbs_weaken m p n q k :
  limbs m p n -> p <= q -> q + Z.of_nat k <= p + Z.of_nat n -> limbs m q k.
Proof. intros H ? ? a ?; apply H; lia. Qed.

Lemma limbs_frame m m' p n q k :
  frame m m' p n -> limbs m q k ->
  (q + Z.of_nat k <= p \/ p + Z.of_nat n <= q) -> limbs m' q k.
Proof. intros F H ? a ?; rewrite F by lia; apply H; lia. Qed.

Lemma limbs_app m p a b :
  limbs m p a -> limbs m (p + Z.of_nat a) b -> limbs m p (a + b).
Proof.
  intros H1 H2 x Hx. destruct (Z.ltb_spec x (p + Z.of_nat a)).
  - apply H1; lia.
  - apply H2; lia.
Qed.

Lemma val_ext m m' p n :
  (forall a, p <= a < p + Z.of_nat n -> m' a = m a) -> val m' p n = val m p n.
Proof.
  revert p; induction n as [|n IH]; intros p H; cbn [val]; [reflexivity|].
  rewrite H by lia. rewrite IH; [reflexivity|]. intros; apply H; lia.
Qed.

Lemma val_frame m m' p n q k :
  frame m m' p n -> (q + Z.of_nat k <= p \/ p + Z.of_nat n <= q) ->
  val m' q k = val m q k.
Proof. intros F ?; apply val_ext; intros; apply F; lia. Qed.

Lemma val_app m p a b :
  val m p (a + b) = val m p a + B ^ Z.of_nat a * val m (p + Z.of_nat a) b.
Proof.
  revert p; induction a as [|a IH]; intros p.
  - cbn [val Nat.add]. rewrite Z.add_0_r, Z.pow_0_r; ring.
  - cbn [val Nat.add]. rewrite IH, Bpow_S.
    replace (p + 1 + Z.of_nat a) with (p + Z.of_nat (S a)) by lia. ring.
Qed.

Lemma val_S_r m p n : val m p (S n) = val m p n + B ^ Z.of_nat n * m (p + Z.of_nat n).
Proof. rewrite <- Nat.add_1_r, val_app. cbn [val]. ring. Qed.

Lemma val_bound m p n : limbs m p n -> 0 <= val m p n < B ^ Z.of_nat n.
Proof.
  revert p; induction n as [|n IH]; intros p H; cbn [val].
  - change (B ^ Z.of_nat 0) with 1; lia.
  - assert (L : limb (m p)) by (apply H; lia). red in L.
    specialize (IH (p + 1)). rewrite Bpow_S.
    assert (limbs m (p + 1) n) by (apply (limbs_weaken _ _ _ _ _ H); lia).
    specialize (IH H0). pose proof B_gt_1 as HB.
    set (V := val m (p + 1) n) in *. set (P := B ^ Z.of_nat n) in *.
    assert (B * V <= B * (P - 1)) by (apply Z.mul_le_mono_nonneg_l; lia). nia.
Qed.

Definition disjoint (p : Z) (n : nat) (q : Z) (k : nat) : Prop :=
  p + Z.of_nat n <= q \/ q + Z.of_nat k <= p.

(** At most the cells of two regions differ. *)
Definition frame2 (m m' : mem) (p : Z) (n : nat) (q : Z) (k : nat) : Prop :=
  forall a, ~ (p <= a < p + Z.of_nat n) -> ~ (q <= a < q + Z.of_nat k) -> m' a = m a.

Lemma frame2_val m m' p n q k r l : frame2 m m' p n q k ->
  disjoint r l p n -> disjoint r l q k -> val m' r l = val m r l.
Proof. intros F D1 D2. red in D1, D2. apply val_ext; intros; apply F; lia. Qed.

Lemma frame2_limbs m m' p n q k r l : frame2 m m' p n q k -> limbs m r l ->
  disjoint r l p n -> disjoint r l q k -> limbs m' r l.
Proof. intros F L D1 D2 a Ha. red in D1, D2. rewrite F by lia. apply L; lia. Qed.

Lemma limbs_split m p a b : limbs m p (a + b) ->
  limbs m p a /\ limbs m (p + Z.of_nat a) b.
Proof. intros L; split; apply (limbs_weaken _ _ _ _ _ L); lia. Qed.

#[export] Hint Resolve lwrap_limb Bpow_pos B_gt_1 : glibc.

(** ** Double-limb primitives (sysdeps/generic/gmp-arch.h) *)

Definition LL_B : Z := 2 ^ (BITS_PER_MP_LIMB / 2).
Definition ll_lowpart (t : Z) : Z := Z.land t (LL_B - 1).
Definition ll_highpart (t : Z) : Z := Z.shiftr t (BITS_PER_MP_LIMB / 2).

(** [u128] arithmetic of math_uint128.h with the compiler's 128-bit type. *)
Definition u128_high (x : Z) : Z := lwrap (Z.shiftr x 64).
Definition u128_low (x : Z) : Z := lwrap x.
Definition u128_from_hl (h l : Z) : Z := Z.lor (wrap 128 (Z.shiftl h 64)) l.
Definition u128_mul (x y : Z) : Z := wrap 128 (x * y).
Definition u128_add (x y : Z) : Z := wrap 128 (x + y).
Definition u128_sub (x y : Z) : Z := wrap 128 (x - y).

(** Returns [(w1, w0)]. *)
Definition umul_ppmm (u v : Z) : Z * Z :=
  let r := u128_mul u v in (u128_high r, u128_low r).

(** Returns [(sh, sl)]. *)
Definition add_ssaaaa (ah al bh bl : Z) : Z * Z :=
  let r := u128_add (u128_from_hl ah al) (u128_from_hl bh bl) in
  (u128_high r, u128_low r).

Definition sub_ddmmss (ah al bh bl : Z) : Z * Z :=
  let r := u128_sub (u128_from_hl ah al) (u128_from_hl bh bl) in
  (u128_high r, u128_low r).

(** ** Loop kernels

    All linear kernels walk the operands from the least significant limb on,
    with an index [j] running from [-size] to [-1] over pointers offset by
    [size].  [limb_loop] is that do-while loop with [k] limbs left ([j = -k]);
    its step is the body of the kernel: from the limb of [s1], the limb of
    [s2] and the carry it computes the limb stored at [res] and the carry
    out.  As in the code, the loop is only entered with [0 < size]. *)
Fixpoint limb_loop (step : Z -> Z -> Z -> Z * Z) (k : nat) (m : mem)
    (res_ptr s1_ptr s2_ptr cy : Z) : mem * Z :=
  match k with
  | O => (m, cy)
  | S k' =>
      let j := - Z.of_nat k in
      let '(y, cy') := step (m (s1_ptr + j)) (m (s2_ptr + j)) cy in
      limb_loop step k' (upd m (res_ptr + j) y) res_ptr s1_ptr s2_ptr cy'
  end.

Definition add_n_step (x y cy : Z) : Z * Z :=
  let y := lwrap (y + cy) in
  let cy := b2z (y <? cy) in
  let y := lwrap (x + y) in
  let cy := lwrap (b2z (y <? x) + cy) in
  (y, cy).

Definition mpn_add_n (m : mem) (res_ptr s1_ptr s2_ptr : Z) (size : nat) : mem * Z :=
  let n := Z.of_nat size in
  limb_loop add_n_step size m (res_ptr + n) (s1_ptr + n) (s2_ptr + n) 0.

Definition sub_n_step (x y cy : Z) : Z * Z :=
  let y := lwrap (y + cy) in
  let cy := b2z (y <? cy) in
  let y := lwrap (x - y) in
  let cy := lwrap (b2z (y >? x) + cy) in
  (y, cy).

Definition mpn_sub_n (m : mem) (res_ptr s1_ptr s2_ptr : Z) (size : nat) : mem * Z :=
  let n := Z.of_nat size in
  limb_loop sub_n_step size m (res_ptr + n) (s1_ptr + n) (s2_ptr + n) 0.

(** [mpn_mul_1] has no second array; [limb_loop] gets [s1] twice and the step
    ignores the copy. *)
Definition mul_1_step (s2_limb x _y cy_limb : Z) : Z * Z :=
  let '(prod_high, prod_low) := umul_ppmm x s2_limb in
  let prod_low := lwrap (prod_low + cy_limb) in
  let cy_limb := lwrap (b2z (prod_low <? cy_limb) + prod_high) in
  (prod_low, cy_limb).

Definition mpn_mul_1 (m : mem) (res_ptr s1_ptr : Z) (s1_size : nat) (s2_limb : Z)
    : mem * Z :=
  let n := Z.of_nat s1_size in
  limb_loop (mul_1_step s2_limb) s1_size m (res_ptr + n) (s1_ptr + n) (s1_ptr + n) 0.

Definition addmul_1_step (s2_limb s1 x cy_limb : Z) : Z * Z :=
  let '(prod_high, prod_low) := umul_ppmm s1 s2_limb in
  let prod_low := lwrap (prod_low + cy_limb) in
  let cy_limb := lwrap (b2z (prod_low <? cy_limb) + prod_high) in
  let prod_low := lwrap (x + prod_low) in
  let cy_limb := lwrap (cy_limb + b2z (prod_low <? x)) in
  (prod_low, cy_limb).

Definition mpn_addmul_1 (m : mem) (res_ptr s1_ptr : Z) (s1_size : nat) (s2_limb : Z)
    : mem * Z :=
  let n := Z.of_nat s1_size in
  limb_loop (addmul_1_step s2_limb) s1_size m
    (res_ptr + n) (s1_ptr + n) (res_ptr + n) 0.

Definition submul_1_step (s2_limb s1 x cy_limb : Z) : Z * Z :=
  let '(prod_high, prod_low) := umul_ppmm s1 s2_limb in
  let prod_low := lwrap (prod_low + cy_limb) in
  let cy_limb := lwrap (b2z (prod_low <? cy_limb) + prod_high) in
  let prod_low := lwrap (x - prod_low) in
  let cy_limb := lwrap (cy_limb + b2z (prod_low >? x)) in
  (prod_low, cy_limb).

Definition mpn_submul_1 (m : mem) (res_ptr s1_ptr : Z) (s1_size : nat) (s2_limb : Z)
    : mem * Z :=
  let n := Z.of_nat s1_size in
  limb_loop (submul_1_step s2_limb) s1_size m
    (res_ptr + n) (s1_ptr + n) (res_ptr + n) 0.

(** ** Step laws *)

Lemma umul_ppmm_spec u v : limb u -> limb v ->
  limb (fst (umul_ppmm u v)) /\ limb (snd (umul_ppmm u v)) /\
  B * fst (umul_ppmm u v) + snd (umul_ppmm u v) = u * v.
Proof.
  intros Hu Hv. unfold umul_ppmm, u128_mul, u128_high, u128_low; cbn [fst snd].
  split; [apply lwrap_limb|]. split; [apply lwrap_limb|].
  assert (H : 0 <= u * v < B * B) by (red in Hu, Hv; nia).
  rewrite wrap_small by (change (2 ^ 128) with (B * B); exact H).
  rewrite Z.shiftr_div_pow2 by lia. change (2 ^ 64) with B.
  rewrite (lwrap_small (u * v / B)).
  - unfold lwrap. symmetry. apply Z_div_mod_eq_full.
  - split; [apply Z.div_pos; pose proof B_gt_1; lia|].
    apply Z.div_lt_upper_bound; pose proof B_gt_1; lia.
Qed.

Definition bit (c : Z) : Prop := c = 0 \/ c = 1.

(** A kernel step with weights [a], [b] and carry sign [s]. *)
Definition step_law (step : Z -> Z -> Z -> Z * Z) (P : Z -> Prop) (a b s : Z) : Prop :=
  forall x y cy, limb x -> limb y -> P cy ->
    limb (fst (step x y cy)) /\ P (snd (step x y cy)) /\
    fst (step x y cy) + s * B * snd (step x y cy) = a * x + b * y + s * cy.

Lemma limb_bit c : bit c -> limb c.
Proof. unfold bit, limb; pose proof B_gt_1; lia. Qed.

Lemma lwrap_add_carry_l x y : limb x -> limb y ->
  lwrap (x + y) + B * b2z (lwrap (x + y) <? x) = x + y.
Proof. intros; rewrite (Z.add_comm x y); now apply lwrap_add_carry. Qed.

#[export] Hint Resolve limb_bit : glibc.

Lemma add_n_law : step_law add_n_step bit 1 1 1.
Proof.
  intros x y cy Hx Hy Hc. unfold add_n_step; cbn [fst snd].
  pose proof (lwrap_add_carry y cy Hy (limb_bit _ Hc)) as E1.
  set (y1 := lwrap (y + cy)) in *.
  assert (Hy1 : limb y1) by apply lwrap_limb.
  pose proof (lwrap_add_carry_l x y1 Hx Hy1) as E2.
  set (y2 := lwrap (x + y1)) in *.
  assert (Hy2 : limb y2) by apply lwrap_limb.
  set (c1 := b2z (y1 <? cy)) in *. set (c2 := b2z (y2 <? x)) in *.
  assert (bit (c2 + c1)).
  { destruct (b2z_bit (y1 <? cy)), (b2z_bit (y2 <? x)); fold c1 in H; fold c2 in H0;
      unfold bit, limb in *; pose proof B_gt_1; nia. }
  rewrite lwrap_small by auto with glibc. repeat split; try apply Hy2; auto. lia.
Qed.

Lemma sub_n_law : step_law sub_n_step bit 1 (-1) (-1).
Proof.
  intros x y cy Hx Hy Hc. unfold sub_n_step; cbn [fst snd].
  pose proof (lwrap_add_carry y cy Hy (limb_bit _ Hc)) as E1.
  set (y1 := lwrap (y + cy)) in *.
  assert (Hy1 : limb y1) by apply lwrap_limb.
  pose proof (lwrap_sub_borrow x y1 Hx Hy1) as E2.
  set (y2 := lwrap (x - y1)) in *.
  assert (Hy2 : limb y2) by apply lwrap_limb.
  set (c1 := b2z (y1 <? cy)) in *. set (c2 := b2z (y2 >? x)) in *.
  assert (bit (c2 + c1)).
  { destruct (b2z_bit (y1 <? cy)), (b2z_bit (y2 >? x)); fold c1 in H; fold c2 in H0;
      unfold bit, limb in *; pose proof B_gt_1; nia. }
  rewrite lwrap_small by auto with glibc. repeat split; try apply Hy2; auto. lia.
Qed.

(** The part shared by the three multiplying kernels. *)
Lemma mul_1_law v : limb v -> step_law (mul_1_step v) limb v 0 1.
Proof.
  intros Hv x y cy Hx _ Hc. unfold mul_1_step.
  destruct (umul_ppmm_spec x v Hx Hv) as (Hh & Hl & E).
  destruct (umul_ppmm x v) as [ph pl]; cbn [fst snd] in *.
  pose proof (lwrap_add_carry pl cy Hl Hc) as E1.
  set (p1 := lwrap (pl + cy)) in *.
  assert (Hp1 : limb p1) by apply lwrap_limb.
  assert (limb (b2z (p1 <? cy) + ph)).
  { destruct (b2z_bit (p1 <? cy)) as [R|R]; rewrite R in *; unfold limb in *; nia. }
  rewrite (lwrap_small _ H). repeat split; try apply Hp1; try apply H. lia.
Qed.

Lemma addmul_1_law v : limb v -> step_law (addmul_1_step v) limb v 1 1.
Proof.
  intros Hv x y cy Hx Hy Hc. pose proof (mul_1_law v Hv x y cy Hx Hy Hc) as M.
  unfold addmul_1_step, mul_1_step in *. destruct (umul_ppmm x v) as [ph pl]; cbn [fst snd] in *.
  set (p1 := lwrap (pl + cy)) in *. set (c1 := lwrap (b2z (p1 <? cy) + ph)) in *.
  destruct M as (Hp1 & Hc1 & E).
  pose proof (lwrap_add_carry_l y p1 Hy Hp1) as E2.
  set (p2 := lwrap (y + p1)) in *. assert (Hp2 : limb p2) by apply lwrap_limb.
  assert (limb (c1 + b2z (p2 <? y))).
  { destruct (b2z_bit (p2 <? y)) as [R|R]; rewrite R in *; unfold limb in *; nia. }
  rewrite (lwrap_small _ H). repeat split; try apply Hp2; try apply H. lia.
Qed.

Lemma submul_1_law v : limb v -> step_law (submul_1_step v) limb (- v) 1 (-1).
Proof.
  intros Hv x y cy Hx Hy Hc. pose proof (mul_1_law v Hv x y cy Hx Hy Hc) as M.
  unfold submul_1_step, mul_1_step in *. destruct (umul_ppmm x v) as [ph pl]; cbn [fst snd] in *.
  set (p1 := lwrap (pl + cy)) in *. set (c1 := lwrap (b2z (p1 <? cy) + ph)) in *.
  destruct M as (Hp1 & Hc1 & E).
  pose proof (lwrap_sub_borrow y p1 Hy Hp1) as E2.
  set (p2 := lwrap (y - p1)) in *. assert (Hp2 : limb p2) by apply lwrap_limb.
  assert (limb (c1 + b2z (p2 >? y))).
  { destruct (b2z_bit (p2 >? y)) as [R|R]; rewrite R in *; unfold limb in *; nia. }
  rewrite (lwrap_small _ H). repeat split; try apply Hp2; try apply H. lia.
Qed.

(** ** Correctness of the linear kernels *)

Lemma asc_ok_tail res s k :
  asc_ok res s (S k) -> asc_ok (res + 1) (s + 1) k.
Proof. unfold asc_ok; lia. Qed.

(** Storing at [res] leaves the operand limbs still to be read alone. *)
Lemma limbs_upd_tail m res s v k :
  limbs m s (S k) -> asc_ok res s (S k) -> limbs (upd m res v) (s + 1) k.
Proof.
  intros L O a Ha. red in O. rewrite upd_ne by lia. apply L; lia.
Qed.

Lemma val_upd_tail m res s v k :
  asc_ok res s (S k) -> val (upd m res v) (s + 1) k = val m (s + 1) k.
Proof. intros O; apply val_ext; intros; red in O; apply upd_ne; lia. Qed.

(** What a kernel that stores [n] limbs at [res] and returns a carry does. *)
Record kernel_post (m : mem) (r : mem * Z) (res : Z) (n : nat)
    (P : Z -> Prop) (s total : Z) : Prop := {
  kp_frame : frame m (fst r) res n;
  kp_limbs : limbs (fst r) res n;
  kp_carry : P (snd r);
  kp_value : val (fst r) res n + s * B ^ Z.of_nat n * snd r = total
}.

Lemma limb_loop_spec step P a b s : step_law step P a b s ->
  forall k m res s1 s2 cy,
  P cy -> limbs m s1 k -> limbs m s2 k -> asc_ok res s1 k -> asc_ok res s2 k ->
  kernel_post m
    (limb_loop step k m (res + Z.of_nat k) (s1 + Z.of_nat k) (s2 + Z.of_nat k) cy)
    res k P s (a * val m s1 k + b * val m s2 k + s * cy).
Proof.
  intros law. induction k as [|k IH]; intros m res s1 s2 cy Hcy L1 L2 O1 O2.
  { constructor; cbn [limb_loop fst snd val]; auto with glibc; [intros ? ?; lia|].
    rewrite Z.pow_0_r; ring. }
  cbn [limb_loop].
  replace (res + Z.of_nat (S k) + - Z.of_nat (S k)) with res by lia.
  replace (s1 + Z.of_nat (S k) + - Z.of_nat (S k)) with s1 by lia.
  replace (s2 + Z.of_nat (S k) + - Z.of_nat (S k)) with s2 by lia.
  replace (res + Z.of_nat (S k)) with (res + 1 + Z.of_nat k) by lia.
  replace (s1 + Z.of_nat (S k)) with (s1 + 1 + Z.of_nat k) by lia.
  replace (s2 + Z.of_nat (S k)) with (s2 + 1 + Z.of_nat k) by lia.
  destruct (law (m s1) (m s2) cy) as (Ly & Pc & E);
    [apply L1; lia | apply L2; lia | auto |].
  destruct (step (m s1) (m s2) cy) as [y cy'] eqn:Es; cbn [fst snd] in *.
  destruct (IH (upd m res y) (res + 1) (s1 + 1) (s2 + 1) cy') as [F L C V];
    eauto using limbs_upd_tail, asc_ok_tail.
  rewrite !val_upd_tail in V by assumption.
  assert (Hres : fst (limb_loop step k (upd m res y) (res + 1 + Z.of_nat k)
       (s1 + 1 + Z.of_nat k) (s2 + 1 + Z.of_nat k) cy') res = y).
  { rewrite F by lia. apply upd_eq. }
  constructor; cbn [val].
  - apply (frame_upd_l _ _ _ _ _ _ _ _ F); lia.
  - intros x Hx. destruct (Z.eq_dec x res) as [->|]; [rewrite Hres; exact Ly|].
    apply L; lia.
  - exact C.
  - rewrite Hres, Bpow_S. nia.
Qed.

Section Kernels.
Context (m : mem) (res s1 s2 v : Z) (n : nat).
Context (L1 : limbs m s1 n) (O1 : asc_ok res s1 n).

Lemma mpn_add_n_post : limbs m s2 n -> asc_ok res s2 n ->
  kernel_post m (mpn_add_n m res s1 s2 n) res n bit 1 (val m s1 n + val m s2 n).
Proof using L1 O1.
  intros L2 O2.
  destruct (limb_loop_spec _ _ _ _ _ add_n_law n m res s1 s2 0) as [F L C V];
    auto; [now left|].
  constructor; auto. unfold mpn_add_n; lia.
Qed.

Lemma mpn_sub_n_post : limbs m s2 n -> asc_ok res s2 n ->
  kernel_post m (mpn_sub_n m res s1 s2 n) res n bit (-1) (val m s1 n - val m s2 n).
Proof using L1 O1.
  intros L2 O2.
  destruct (limb_loop_spec _ _ _ _ _ sub_n_law n m res s1 s2 0) as [F L C V];
    auto; [now left|].
  constructor; auto. unfold mpn_sub_n; lia.
Qed.

Lemma limb_0 : limb 0.
Proof using. unfold limb; pose proof B_gt_1; lia. Qed.

Lemma mpn_mul_1_post : limb v ->
  kernel_post m (mpn_mul_1 m res s1 n v) res n limb 1 (val m s1 n * v).
Proof using L1 O1.
  intros Lv.
  destruct (limb_loop_spec _ _ _ _ _ (mul_1_law v Lv) n m res s1 s1 0) as [F L C V];
    auto; [apply limb_0|].
  constructor; auto. unfold mpn_mul_1; lia.
Qed.

Lemma mpn_addmul_1_post : limb v -> limbs m res n ->
  kernel_post m (mpn_addmul_1 m res s1 n v) res n limb 1 (val m res n + val m s1 n * v).
Proof using L1 O1.
  intros Lv L2.
  destruct (limb_loop_spec _ _ _ _ _ (addmul_1_law v Lv) n m res s1 res 0) as [F L C V];
    auto; [apply limb_0 | left; lia |].
  constructor; auto. unfold mpn_addmul_1; lia.
Qed.

Lemma mpn_submul_1_post : limb v -> limbs m res n ->
  kernel_post m (mpn_submul_1 m res s1 n v) res n limb (-1) (val m res n - val m s1 n * v).
Proof using L1 O1.
  intros Lv L2.
  destruct (limb_loop_spec _ _ _ _ _ (submul_1_law v Lv) n m res s1 res 0) as [F L C V];
    auto; [apply limb_0 | left; lia |].
  constructor; auto. unfold mpn_submul_1; lia.
Qed.
End Kernels.

(** ** Copying, clearing, comparing *)

(** [MPN_COPY_INCR], from index 0 up. *)
Fixpoint mpn_copy_incr (m : mem) (dst src : Z) (n : nat) : mem :=
  match n with
  | O => m
  | S k => mpn_copy_incr (upd m dst (m src)) (dst + 1) (src + 1) k
  end.

(** [MPN_COPY_DECR], from index [n - 1] down. *)
Fixpoint mpn_copy_decr (m : mem) (dst src : Z) (n : nat) : mem :=
  match n with
  | O => m
  | S k => mpn_copy_decr (upd m (dst + Z.of_nat k) (m (src + Z.of_nat k))) dst src k
  end.

Fixpoint mpn_zero (m : mem) (dst : Z) (n : nat) : mem :=
  match n with
  | O => m
  | S k => mpn_zero (upd m dst 0) (dst + 1) k
  end.

Fixpoint mpn_cmp (m : mem) (op1_ptr op2_ptr : Z) (size : nat) : Z :=
  match size with
  | O => 0
  | S i =>
      let op1_word := m (op1_ptr + Z.of_nat i) in
      let op2_word := m (op2_ptr + Z.of_nat i) in
      if negb (op1_word =? op2_word)
      then if op1_word >? op2_word then 1 else -1
      else mpn_cmp m op1_ptr op2_ptr i
  end.

Lemma mpn_copy_incr_spec n : forall m dst src, asc_ok dst src n ->
  frame m (mpn_copy_incr m dst src n) dst n /\
  forall i, 0 <= i < Z.of_nat n -> mpn_copy_incr m dst src n (dst + i) = m (src + i).
Proof.
  induction n as [|n IH]; intros m dst src O; cbn [mpn_copy_incr].
  { split; [apply frame_refl | lia]. }
  destruct (IH (upd m dst (m src)) (dst + 1) (src + 1)) as [F E];
    [now apply asc_ok_tail|].
  split.
  - apply (frame_upd_l _ _ _ _ _ _ _ _ F); lia.
  - intros i Hi. destruct (Z.eq_dec i 0) as [->|].
    + rewrite !Z.add_0_r, F, upd_eq; [reflexivity | lia].
    + replace (dst + i) with (dst + 1 + (i - 1)) by lia. rewrite E by lia.
      replace (src + 1 + (i - 1)) with (src + i) by lia.
      apply upd_ne. red in O; lia.
Qed.

Lemma mpn_copy_decr_spec n : forall m dst src,
  (src <= dst \/ dst + Z.of_nat n <= src) ->
  frame m (mpn_copy_decr m dst src n) dst n /\
  forall i, 0 <= i < Z.of_nat n -> mpn_copy_decr m dst src n (dst + i) = m (src + i).
Proof.
  induction n as [|n IH]; intros m dst src O; cbn [mpn_copy_decr].
  { split; [apply frame_refl | lia]. }
  destruct (IH (upd m (dst + Z.of_nat n) (m (src + Z.of_nat n))) dst src) as [F E]; [lia|].
  split.
  - apply (frame_upd_l _ _ _ _ _ _ _ _ F); lia.
  - intros i Hi. destruct (Z.eq_dec i (Z.of_nat n)) as [->|].
    + rewrite F, upd_eq; [reflexivity | lia].
    + rewrite E by lia. apply upd_ne. lia.
Qed.

Lemma mpn_zero_spec n : forall m dst,
  frame m (mpn_zero m dst n) dst n /\
  forall i, 0 <= i < Z.of_nat n -> mpn_zero m dst n (dst + i) = 0.
Proof.
  induction n as [|n IH]; intros m dst; cbn [mpn_zero].
  { split; [apply frame_refl | lia]. }
  destruct (IH (upd m dst 0) (dst + 1)) as [F E]. split.
  - apply (frame_upd_l _ _ _ _ _ _ _ _ F); lia.
  - intros i Hi. destruct (Z.eq_dec i 0) as [->|].
    + rewrite !Z.add_0_r, F, upd_eq; [reflexivity | lia].
    + replace (dst + i) with (dst + 1 + (i - 1)) by lia. apply E; lia.
Qed.

(** Arrays that agree limb by limb have the same value. *)
Lemma val_eq_at m m' p q n :
  (forall i, 0 <= i < Z.of_nat n -> m' (p + i) = m (q + i)) -> val m' p n = val m q n.
Proof.
  revert p q; induction n as [|n IH]; intros p q H; cbn [val]; [reflexivity|].
  pose proof (H 0) as H0. rewrite !Z.add_0_r in H0. rewrite H0 by lia. f_equal. f_equal.
  apply IH. intros i Hi.
  replace (p + 1 + i) with (p + (i + 1)) by lia.
  replace (q + 1 + i) with (q + (i + 1)) by lia. apply H; lia.
Qed.

Lemma limbs_eq_at m m' p q n :
  (forall i, 0 <= i < Z.of_nat n -> m' (p + i) = m (q + i)) ->
  limbs m q n -> limbs m' p n.
Proof.
  intros H L a Ha. replace a with (p + (a - p)) by lia. rewrite H by lia. apply L; lia.
Qed.

Lemma val_zero m p n : (forall i, 0 <= i < Z.of_nat n -> m (p + i) = 0) -> val m p n = 0.
Proof.
  revert p; induction n as [|n IH]; intros p H; cbn [val]; [reflexivity|].
  pose proof (H 0) as H0. rewrite Z.add_0_r in H0. rewrite H0 by lia.
  rewrite IH; [ring|]. intros i Hi.
  replace (p + 1 + i) with (p + (i + 1)) by lia. apply H; lia.
Qed.

Lemma mpn_cmp_spec m p q n : limbs m p n -> limbs m q n ->
  mpn_cmp m p q n = Z.sgn (val m p n - val m q n).
Proof.
  induction n as [|n IH]; intros Lp Lq; [reflexivity|].
  cbn [mpn_cmp]. rewrite !val_S_r.
  assert (Hp : limbs m p n) by (apply (limbs_weaken _ _ _ _ _ Lp); lia).
  assert (Hq : limbs m q n) by (apply (limbs_weaken _ _ _ _ _ Lq); lia).
  pose proof (val_bound _ _ _ Hp). pose proof (val_bound _ _ _ Hq).
  set (x := m (p + Z.of_nat n)). set (y := m (q + Z.of_nat n)).
  set (Q := B ^ Z.of_nat n) in *.
  destruct (Z.eqb_spec x y) as [->|]; cbn [negb].
  - rewrite IH by assumption. f_equal. ring.
  - rewrite Z.gtb_ltb. destruct (Z.ltb_spec y x); symmetry.
    + apply Z.sgn_pos. nia.
    + apply Z.sgn_neg. nia.
Qed.

(** ** Adding and subtracting a single limb (inline functions of gmp.h) *)

(** The code after label [fin]: copy what is left unless operating in place. *)
Definition fin_copy (m : mem) (res_ptr s1_ptr : Z) (s1_size : nat) : mem * Z :=
  if negb (res_ptr =? s1_ptr)
  then (mpn_copy_incr m res_ptr s1_ptr (s1_size - 1), 0)
  else (m, 0).

(** The [while (--s1_size != 0)] loop that propagates a carry or a borrow;
    [k] is [s1_size] after the decrement, [store] the limb written for the
    limb read and [stop] the test that jumps to [fin]. *)
Fixpoint carry_loop (store : Z -> Z) (stop : Z -> bool) (k : nat) (m : mem)
    (res_ptr s1_ptr : Z) : mem * Z :=
  match k with
  | O => (m, 1)
  | S k' =>
      let x := m s1_ptr in
      let m := upd m res_ptr (store x) in
      if stop x then fin_copy m (res_ptr + 1) (s1_ptr + 1) k
      else carry_loop store stop k' m (res_ptr + 1) (s1_ptr + 1)
  end.

Definition mpn_add_1 (m : mem) (res_ptr s1_ptr : Z) (s1_size : nat) (s2_limb : Z)
    : mem * Z :=
  let x := m s1_ptr in
  let s2_limb := lwrap (x + s2_limb) in
  let m := upd m res_ptr s2_limb in
  if s2_limb <? x
  then carry_loop (fun x => lwrap (x + 1)) (fun x => negb (lwrap (x + 1) =? 0))
         (s1_size - 1) m (res_ptr + 1) (s1_ptr + 1)
  else fin_copy m (res_ptr + 1) (s1_ptr + 1) s1_size.

Definition mpn_sub_1 (m : mem) (res_ptr s1_ptr : Z) (s1_size : nat) (s2_limb : Z)
    : mem * Z :=
  let x := m s1_ptr in
  let s2_limb := lwrap (x - s2_limb) in
  let m := upd m res_ptr s2_limb in
  if s2_limb >? x
  then carry_loop (fun x => lwrap (x - 1)) (fun x => negb (x =? 0))
         (s1_size - 1) m (res_ptr + 1) (s1_ptr + 1)
  else fin_copy m (res_ptr + 1) (s1_ptr + 1) s1_size.

Definition mpn_add (m : mem) (res_ptr s1_ptr : Z) (s1_size : nat)
    (s2_ptr : Z) (s2_size : nat) : mem * Z :=
  let '(m, cy_limb) :=
    if Nat.eqb s2_size 0 then (m, 0) else mpn_add_n m res_ptr s1_ptr s2_ptr s2_size in
  if Nat.eqb (s1_size - s2_size) 0 then (m, cy_limb)
  else mpn_add_1 m (res_ptr + Z.of_nat s2_size) (s1_ptr + Z.of_nat s2_size)
         (s1_size - s2_size) cy_limb.

Definition mpn_sub (m : mem) (res_ptr s1_ptr : Z) (s1_size : nat)
    (s2_ptr : Z) (s2_size : nat) : mem * Z :=
  let '(m, cy_limb) :=
    if Nat.eqb s2_size 0 then (m, 0) else mpn_sub_n m res_ptr s1_ptr s2_ptr s2_size in
  if Nat.eqb (s1_size - s2_size) 0 then (m, cy_limb)
  else mpn_sub_1 m (res_ptr + Z.of_nat s2_size) (s1_ptr + Z.of_nat s2_size)
         (s1_size - s2_size) cy_limb.

(** A kernel result after one more limb was stored below it. *)
Lemma kernel_post_cons m y r res n P s total total' :
  kernel_post (upd m res y) r (res + 1) n P s total -> limb y ->
  y + B * total = total' -> kernel_post m r res (S n) P s total'.
Proof.
  intros [F L C V] Ly E.
  assert (Hres : fst r res = y) by (rewrite F by lia; apply upd_eq).
  constructor; cbn [val].
  - apply (frame_upd_l _ _ _ _ _ _ _ _ F); lia.
  - intros x Hx. destruct (Z.eq_dec x res) as [->|]; [rewrite Hres; exact Ly|].
    apply L; lia.
  - exact C.
  - rewrite Hres, Bpow_S. nia.
Qed.

Lemma fin_copy_post m res s1 k s : limbs m s1 k -> asc_ok res s1 k ->
  kernel_post m (fin_copy m res s1 (S k)) res k bit s (val m s1 k).
Proof.
  intros L O. unfold fin_copy. rewrite Nat.sub_succ, Nat.sub_0_r.
  destruct (Z.eqb_spec res s1) as [->|]; cbn [negb].
  - constructor; cbn [fst snd]; auto with glibc; [now left | ring].
  - destruct (mpn_copy_incr_spec k m res s1 O) as [F E].
    constructor; cbn [fst snd]; auto; [|now left|].
    + now apply (limbs_eq_at _ _ _ _ _ E).
    + rewrite (val_eq_at _ _ _ _ _ E). ring.
Qed.

Definition carry_law (store : Z -> Z) (stop : Z -> bool) (s : Z) : Prop :=
  forall x, limb x -> limb (store x) /\
    store x + s * B * b2z (negb (stop x)) = x + s.

Lemma add_carry_law :
  carry_law (fun x => lwrap (x + 1)) (fun x => negb (lwrap (x + 1) =? 0)) 1.
Proof.
  intros x Hx. split; [apply lwrap_limb|].
  assert (limb 1) as H1 by (apply limb_bit; now right).
  pose proof (lwrap_add_carry x 1 Hx H1) as E.
  pose proof (lwrap_limb (x + 1)) as L; red in L.
  destruct (Z.eqb_spec (lwrap (x + 1)) 0); destruct (Z.ltb_spec (lwrap (x + 1)) 1);
    cbn [negb b2z] in *; lia.
Qed.

Lemma sub_carry_law : carry_law (fun x => lwrap (x - 1)) (fun x => negb (x =? 0)) (-1).
Proof.
  intros x Hx. split; [apply lwrap_limb|].
  assert (limb 1) as H1 by (apply limb_bit; now right).
  pose proof (lwrap_sub_borrow x 1 Hx H1) as E.
  pose proof (lwrap_limb (x - 1)) as L; red in L, Hx. rewrite Z.gtb_ltb in E.
  destruct (Z.eqb_spec x 0); destruct (Z.ltb_spec x (lwrap (x - 1)));
    cbn [negb b2z] in *; lia.
Qed.

Lemma carry_loop_post store stop s : carry_law store stop s ->
  forall k m res s1, limbs m s1 k -> asc_ok res s1 k ->
  kernel_post m (carry_loop store stop k m res s1) res k bit s (val m s1 k + s).
Proof.
  intros law. induction k as [|k IH]; intros m res s1 L O; cbn [carry_loop].
  { constructor; cbn [fst snd val]; auto with glibc; [intros ? ?; lia | now right |].
    rewrite Z.pow_0_r; ring. }
  destruct (law (m s1)) as [Ls E]; [apply L; lia|].
  pose proof (limbs_upd_tail _ _ _ (store (m s1)) _ L O) as L'.
  pose proof (asc_ok_tail _ _ _ O) as O'.
  pose proof (val_upd_tail m _ _ (store (m s1)) _ O) as Ev.
  destruct (stop (m s1)) eqn:Hs; cbn [b2z negb] in E; cbn [val].
  - eapply kernel_post_cons; [apply fin_copy_post; eassumption | exact Ls |].
    rewrite Ev. lia.
  - eapply kernel_post_cons; [apply IH; eassumption | exact Ls |].
    rewrite Ev. lia.
Qed.

Lemma mpn_add_1_post m res s1 n v : limbs m s1 (S n) -> asc_ok res s1 (S n) -> limb v ->
  kernel_post m (mpn_add_1 m res s1 (S n) v) res (S n) bit 1 (val m s1 (S n) + v).
Proof.
  intros L O Lv. unfold mpn_add_1. rewrite Nat.sub_succ, Nat.sub_0_r.
  assert (Lx : limb (m s1)) by (apply L; lia).
  pose proof (lwrap_add_carry_l _ _ Lx Lv) as E.
  set (y := lwrap (m s1 + v)) in *. assert (Ly : limb y) by apply lwrap_limb.
  pose proof (limbs_upd_tail _ _ _ y _ L O) as L'.
  pose proof (asc_ok_tail _ _ _ O) as O'.
  pose proof (val_upd_tail m _ _ y _ O) as Ev. cbn [val].
  destruct (y <? m s1); cbn [b2z] in E;
    (eapply kernel_post_cons;
     [ first [ apply (carry_loop_post _ _ _ add_carry_law) | apply fin_copy_post ]; eassumption
     | exact Ly | rewrite Ev; lia ]).
Qed.

Lemma mpn_sub_1_post m res s1 n v : limbs m s1 (S n) -> asc_ok res s1 (S n) -> limb v ->
  kernel_post m (mpn_sub_1 m res s1 (S n) v) res (S n) bit (-1) (val m s1 (S n) - v).
Proof.
  intros L O Lv. unfold mpn_sub_1. rewrite Nat.sub_succ, Nat.sub_0_r.
  assert (Lx : limb (m s1)) by (apply L; lia).
  pose proof (lwrap_sub_borrow _ _ Lx Lv) as E.
  set (y := lwrap (m s1 - v)) in *. assert (Ly : limb y) by apply lwrap_limb.
  pose proof (limbs_upd_tail _ _ _ y _ L O) as L'.
  pose proof (asc_ok_tail _ _ _ O) as O'.
  pose proof (val_upd_tail m _ _ y _ O) as Ev. cbn [val].
  destruct (y >? m s1); cbn [b2z] in E;
    (eapply kernel_post_cons;
     [ first [ apply (carry_loop_post _ _ _ sub_carry_law) | apply fin_copy_post ]; eassumption
     | exact Ly | rewrite Ev; lia ]).
Qed.

(** Sequencing: a kernel on the low limbs whose carry enters one on the high
    limbs. *)
Lemma kernel_post_app m r1 r2 res a b P1 P s t1 v2 total :
  kernel_post m r1 res a P1 s t1 ->
  kernel_post (fst r1) r2 (res + Z.of_nat a) b P s (v2 + s * snd r1) ->
  total = t1 + B ^ Z.of_nat a * v2 ->
  kernel_post m r2 res (a + b) P s total.
Proof.
  intros [F1 L1 _ V1] [F2 L2 C V2] ->.
  constructor.
  - apply (frame_trans _ _ _ _ _ _ _ _ _ F1 F2); lia.
  - apply limbs_app; [|exact L2]. apply (limbs_frame _ _ _ _ _ _ F2 L1). lia.
  - exact C.
  - rewrite val_app, (val_frame _ _ _ _ _ _ F2) by lia. rewrite Bpow_add. nia.
Qed.

Lemma mpn_add_post m res s1 n1 s2 n2 :
  (n2 <= n1)%nat -> limbs m s1 n1 -> limbs m s2 n2 ->
  asc_ok res s1 n1 -> asc_ok res s2 n2 ->
  kernel_post m (mpn_add m res s1 n1 s2 n2) res n1 bit 1 (val m s1 n1 + val m s2 n2).
Proof.
  intros Hn L1 L2 O1 O2. unfold mpn_add.
  assert (K : kernel_post m (if Nat.eqb n2 0 then (m, 0) else mpn_add_n m res s1 s2 n2)
                res n2 bit 1 (val m s1 n2 + val m s2 n2)).
  { destruct n2 as [|k]; cbn [Nat.eqb].
    - constructor; cbn [fst snd val]; auto with glibc; [intros ? ?; lia | now left].
    - apply mpn_add_n_post; try assumption;
        [apply (limbs_weaken _ _ _ _ _ L1); lia | red in O1 |- *; lia]. }
  destruct (if Nat.eqb n2 0 then _ else _) as [m1 c]. pose proof K as [F L C V].
  replace n1 with (n2 + (n1 - n2))%nat by lia.
  replace (n2 + (n1 - n2) - n2)%nat with (n1 - n2)%nat by lia.
  destruct (n1 - n2)%nat as [|d] eqn:D; cbn [Nat.eqb].
  - rewrite Nat.add_0_r. constructor; auto.
  - apply (kernel_post_app _ _ _ _ _ _ _ _ _ _ (val m (s1 + Z.of_nat n2) (S d)) _ K).
    + cbn [fst snd] in *. rewrite Z.mul_1_l.
      rewrite <- (val_frame _ _ _ _ (s1 + Z.of_nat n2) (S d) F) by (red in O1; lia).
      apply mpn_add_1_post; auto with glibc; [|red in O1 |- *; lia].
      apply (limbs_frame _ _ _ _ _ _ F); [apply (limbs_weaken _ _ _ _ _ L1); lia |].
      red in O1; lia.
    + rewrite val_app. ring.
Qed.

Lemma mpn_sub_post m res s1 n1 s2 n2 :
  (n2 <= n1)%nat -> limbs m s1 n1 -> limbs m s2 n2 ->
  asc_ok res s1 n1 -> asc_ok res s2 n2 ->
  kernel_post m (mpn_sub m res s1 n1 s2 n2) res n1 bit (-1) (val m s1 n1 - val m s2 n2).
Proof.
  intros Hn L1 L2 O1 O2. unfold mpn_sub.
  assert (K : kernel_post m (if Nat.eqb n2 0 then (m, 0) else mpn_sub_n m res s1 s2 n2)
                res n2 bit (-1) (val m s1 n2 - val m s2 n2)).
  { destruct n2 as [|k]; cbn [Nat.eqb].
    - constructor; cbn [fst snd val]; auto with glibc; [intros ? ?; lia | now left].
    - apply mpn_sub_n_post; try assumption;
        [apply (limbs_weaken _ _ _ _ _ L1); lia | red in O1 |- *; lia]. }
  destruct (if Nat.eqb n2 0 then _ else _) as [m1 c]. pose proof K as [F L C V].
  replace n1 with (n2 + (n1 - n2))%nat by lia.
  replace (n2 + (n1 - n2) - n2)%nat with (n1 - n2)%nat by lia.
  destruct (n1 - n2)%nat as [|d] eqn:D; cbn [Nat.eqb].
  - rewrite Nat.add_0_r. constructor; auto.
  - apply (kernel_post_app _ _ _ _ _ _ _ _ _ _ (val m (s1 + Z.of_nat n2) (S d)) _ K).
    + cbn [fst snd] in *. replace (_ + -1 * c) with (val m (s1 + Z.of_nat n2) (S d) - c) by ring.
      rewrite <- (val_frame _ _ _ _ (s1 + Z.of_nat n2) (S d) F) by (red in O1; lia).
      apply mpn_sub_1_post; auto with glibc; [|red in O1 |- *; lia].
      apply (limbs_frame _ _ _ _ _ _ F); [apply (limbs_weaken _ _ _ _ _ L1); lia |].
      red in O1; lia.
    + rewrite val_app. ring.
Qed.

(** ** Shifts *)

(** The [while (--i >= 0)] loop of [mpn_lshift] with [i] limbs left, and the
    final store; [wp] was incremented before the loop. *)
Fixpoint lshift_loop (i : nat) (m : mem) (wp up sh_1 sh_2 high_limb : Z) : mem :=
  match i with
  | O => upd m (wp + -1) (lwrap (Z.shiftl high_limb sh_1))
  | S k =>
      let low_limb := m (up + Z.of_nat k) in
      lshift_loop k
        (upd m (wp + Z.of_nat k)
           (Z.lor (lwrap (Z.shiftl high_limb sh_1)) (Z.shiftr low_limb sh_2)))
        wp up sh_1 sh_2 low_limb
  end.

Definition mpn_lshift (m : mem) (wp up : Z) (usize : nat) (cnt : Z) : mem * Z :=
  let sh_1 := cnt in
  let wp := wp + 1 in
  let sh_2 := BITS_PER_MP_LIMB - sh_1 in
  let i := (usize - 1)%nat in
  let low_limb := m (up + Z.of_nat i) in
  let retval := Z.shiftr low_limb sh_2 in
  (lshift_loop i m wp up sh_1 sh_2 low_limb, retval).

(** The [for (i = 1; i < usize; i++)] loop of [mpn_rshift] with [k] limbs
    left, and the final store; [wp] was decremented before the loop. *)
Fixpoint rshift_loop (k : nat) (i : Z) (m : mem) (wp up sh_1 sh_2 low_limb : Z) : mem :=
  match k with
  | O => upd m (wp + i) (Z.shiftr low_limb sh_1)
  | S k' =>
      let high_limb := m (up + i) in
      rshift_loop k' (i + 1)
        (upd m (wp + i)
           (Z.lor (Z.shiftr low_limb sh_1) (lwrap (Z.shiftl high_limb sh_2))))
        wp up sh_1 sh_2 high_limb
  end.

Definition mpn_rshift (m : mem) (wp up : Z) (usize : nat) (cnt : Z) : mem * Z :=
  let sh_1 := cnt in
  let wp := wp - 1 in
  let sh_2 := BITS_PER_MP_LIMB - sh_1 in
  let high_limb := m up in
  let retval := lwrap (Z.shiftl high_limb sh_2) in
  (rshift_loop (usize - 1) 1 m wp up sh_1 sh_2 high_limb, retval).

(** The two halves of a limb shifted left by [sh_1 = BITS_PER_MP_LIMB - sh_2]. *)
Lemma shift_split x sh_1 sh_2 : limb x -> 0 < sh_1 -> 0 < sh_2 -> sh_1 + sh_2 = 64 ->
  lwrap (Z.shiftl x sh_1) = x mod 2 ^ sh_2 * 2 ^ sh_1 /\
  0 <= Z.shiftr x sh_2 < 2 ^ sh_1 /\
  x * 2 ^ sh_1 = lwrap (Z.shiftl x sh_1) + B * Z.shiftr x sh_2.
Proof.
  intros Lx H1 H2 H.
  assert (EB : B = 2 ^ sh_1 * 2 ^ sh_2)
    by (rewrite <- Z.pow_add_r by lia; rewrite H; reflexivity).
  assert (0 < 2 ^ sh_1) by (apply Z.pow_pos_nonneg; lia).
  assert (0 < 2 ^ sh_2) by (apply Z.pow_pos_nonneg; lia).
  rewrite Z.shiftl_mul_pow2, Z.shiftr_div_pow2 by lia.
  assert (E : lwrap (x * 2 ^ sh_1) = x mod 2 ^ sh_2 * 2 ^ sh_1).
  { unfold lwrap. rewrite EB, (Z.mul_comm (2 ^ sh_1) (2 ^ sh_2)).
    apply Z.mul_mod_distr_r; lia. }
  rewrite E. split; [reflexivity|]. split.
  - red in Lx. split; [apply Z.div_pos; lia | apply Z.div_lt_upper_bound; lia].
  - rewrite EB. pose proof (Z_div_mod_eq_full x (2 ^ sh_2)). nia.
Qed.

Lemma shift_or x y sh_1 sh_2 : limb x -> limb y -> 0 < sh_1 -> 0 < sh_2 -> sh_1 + sh_2 = 64 ->
  Z.lor (lwrap (Z.shiftl x sh_1)) (Z.shiftr y sh_2) =
    lwrap (Z.shiftl x sh_1) + Z.shiftr y sh_2 /\
  limb (lwrap (Z.shiftl x sh_1) + Z.shiftr y sh_2).
Proof.
  intros Lx Ly H1 H2 H.
  destruct (shift_split x sh_1 sh_2) as (E & _ & _); auto.
  destruct (shift_split y sh_1 sh_2) as (_ & R & _); auto.
  rewrite E. split; [apply lor_add_low; lia|].
  assert (EB : B = 2 ^ sh_1 * 2 ^ sh_2)
    by (rewrite <- Z.pow_add_r by lia; rewrite H; reflexivity).
  assert (0 < 2 ^ sh_2) by (apply Z.pow_pos_nonneg; lia).
  pose proof (Z.mod_pos_bound x (2 ^ sh_2) H0).
  unfold limb. rewrite EB. nia.
Qed.

Section Shifts.
Context (sh_1 sh_2 : Z) (H1 : 0 < sh_1) (H2 : 0 < sh_2) (H : sh_1 + sh_2 = 64).

Lemma lshift_loop_spec i : forall m w up high, limbs m up i -> limb high ->
  (up <= w \/ w + Z.of_nat (S i) <= up) ->
  let m' := lshift_loop i m (w + 1) up sh_1 sh_2 high in
  frame m m' w (S i) /\ limbs m' w (S i) /\
  val m' w (S i) = val m up i * 2 ^ sh_1 + B ^ Z.of_nat i * lwrap (Z.shiftl high sh_1).
Proof using H1 H2 H.
  induction i as [|k IH]; intros m w up high L Lh O; cbn [lshift_loop].
  { replace (w + 1 + -1) with w by lia. cbn [val]. rewrite upd_eq, Z.pow_0_r.
    split; [apply frame_upd; lia|]. split; [|ring].
    intros a Ha. replace a with w by lia. rewrite upd_eq. apply lwrap_limb. }
  set (low := m (up + Z.of_nat k)).
  assert (Ll : limb low) by (apply L; lia).
  destruct (shift_or high low sh_1 sh_2) as [E Le]; auto. rewrite E.
  set (y := lwrap (Z.shiftl high sh_1) + Z.shiftr low sh_2) in *.
  set (m1 := upd m (w + 1 + Z.of_nat k) y).
  destruct (IH m1 w up low) as (F & L' & V); auto; [|lia|].
  { intros a Ha. unfold m1. rewrite upd_ne by lia. apply L; lia. }
  assert (Ht : lshift_loop k m1 (w + 1) up sh_1 sh_2 low (w + Z.of_nat (S k)) = y).
  { rewrite F by lia. unfold m1.
    replace (w + Z.of_nat (S k)) with (w + 1 + Z.of_nat k) by lia. apply upd_eq. }
  split; [apply (frame_upd_l _ _ _ _ _ _ _ _ F); lia|]. split.
  - intros a Ha. destruct (Z.eq_dec a (w + Z.of_nat (S k))) as [->|].
    + rewrite Ht. exact Le.
    + apply L'; lia.
  - rewrite (val_S_r _ w (S k)), Ht, V, val_S_r. fold low.
    rewrite (val_ext m m1) by (intros; unfold m1; apply upd_ne; lia).
    destruct (shift_split low sh_1 sh_2) as (_ & _ & S); auto.
    unfold y. rewrite Bpow_S. nia.
Qed.

Lemma rshift_loop_spec k : forall i m wp up low, limbs m (up + i) k -> limb low ->
  (wp < up \/ up + i + Z.of_nat k <= wp + i) ->
  let m' := rshift_loop k i m wp up sh_2 sh_1 low in
  frame m m' (wp + i) (S k) /\ limbs m' (wp + i) (S k) /\
  B * val m' (wp + i) (S k) + lwrap (Z.shiftl low sh_1) =
    (low + B * val m (up + i) k) * 2 ^ sh_1.
Proof using H1 H2 H.
  induction k as [|k IH]; intros i m wp up low L Ll O; cbn [rshift_loop].
  { destruct (shift_split low sh_1 sh_2) as (_ & R & S); auto.
    split; [apply frame_upd; lia|]. split.
    - intros a Ha. replace a with (wp + i) by lia. rewrite upd_eq.
      assert (2 ^ sh_1 <= B) by (change B with (2 ^ 64); apply Z.pow_le_mono_r; lia).
      red; lia.
    - cbn [val]. rewrite upd_eq. lia. }
  set (high := m (up + i)).
  assert (Lh : limb high) by (apply L; lia).
  destruct (shift_or high low sh_1 sh_2) as [E Le]; auto.
  rewrite Z.lor_comm, E. set (y := lwrap (Z.shiftl high sh_1) + Z.shiftr low sh_2) in *.
  set (m1 := upd m (wp + i) y).
  destruct (IH (i + 1) m1 wp up high) as (F & L' & V); auto; [|lia|].
  { intros a Ha. unfold m1. rewrite upd_ne by lia. apply L; lia. }
  set (m' := rshift_loop k (i + 1) m1 wp up sh_2 sh_1 high) in *. cbn zeta in *.
  replace (wp + (i + 1)) with (wp + i + 1) in * by lia.
  replace (up + (i + 1)) with (up + i + 1) in * by lia.
  assert (Ht : m' (wp + i) = y) by (rewrite F by lia; apply upd_eq).
  split; [apply (frame_upd_l _ _ _ _ _ _ _ _ F); lia|]. split.
  - intros a Ha. destruct (Z.eq_dec a (wp + i)) as [->|]; [rewrite Ht; exact Le|].
    apply L'; lia.
  - assert (Vt : val m' (wp + i) (S (S k)) = y + B * val m' (wp + i + 1) (S k))
      by (rewrite <- Ht; reflexivity).
    assert (Vs : val m1 (up + i + 1) k = val m (up + i + 1) k)
      by (apply val_ext; intros; apply upd_ne; lia).
    rewrite Vs in V. rewrite Vt. set (V1 := val m' (wp + i + 1) (S k)) in *.
    cbn [val]. fold high.
    destruct (shift_split low sh_1 sh_2) as (_ & _ & E2); auto.
    apply (f_equal (Z.mul B)) in V. unfold y. lia.
Qed.
End Shifts.

(** ** Two-limb by one-limb division *)

(** One half of [udiv_qrnnd_generic]: from a remainder [n1 < d] and the next
    half limb [h] to the next half limb of the quotient and the remainder. *)
Definition udiv_half (n1 h d : Z) : Z * Z :=
  let d1 := ll_highpart d in
  let d0 := ll_lowpart d in
  let r1 := n1 mod d1 in
  let q1 := n1 / d1 in
  let m := lwrap (q1 * d0) in
  let r1 := Z.lor (lwrap (r1 * LL_B)) h in
  let '(q1, r1) :=
    if r1 <? m then
      let q1 := lwrap (q1 - 1) in
      let r1 := lwrap (r1 + d) in
      if r1 >=? d then
        if r1 <? m then (lwrap (q1 - 1), lwrap (r1 + d)) else (q1, r1)
      else (q1, r1)
    else (q1, r1) in
  (q1, lwrap (r1 - m)).

Definition udiv_qrnnd (n1 n0 d : Z) : Z * Z :=
  let '(q1, r1) := udiv_half n1 (ll_highpart n0) d in
  let '(q0, r0) := udiv_half r1 (ll_lowpart n0) d in
  (Z.lor (lwrap (q1 * LL_B)) q0, r0).

Lemma LL_B_sq : LL_B * LL_B = B.
Proof. reflexivity. Qed.

Lemma lor_LL_B a h : 0 <= h < LL_B -> Z.lor (a * LL_B) h = a * LL_B + h.
Proof. exact (fun H => lor_add_low a h 32 ltac:(lia) H). Qed.

Lemma ll_parts x : limb x ->
  x = ll_highpart x * LL_B + ll_lowpart x /\
  0 <= ll_highpart x < LL_B /\ 0 <= ll_lowpart x < LL_B.
Proof.
  intros Lx. unfold ll_highpart, ll_lowpart, LL_B. change (BITS_PER_MP_LIMB / 2) with 32.
  rewrite land_low_mask, Z.shiftr_div_pow2 by lia.
  pose proof (Z_div_mod_eq_full x (2 ^ 32)).
  pose proof (Z.mod_pos_bound x (2 ^ 32) ltac:(lia)).
  assert (x / 2 ^ 32 < 2 ^ 32) by (apply Z.div_lt_upper_bound; red in Lx; unfold B, BITS_PER_MP_LIMB in Lx; lia).
  assert (0 <= x / 2 ^ 32) by (apply Z.div_pos; red in Lx; lia). lia.
Qed.

(** Normalised divisors: the most significant bit is set. *)
Definition normalized (d : Z) : Prop := B <= 2 * d /\ d < B.

Lemma udiv_half_spec n1 h d : normalized d -> 0 <= n1 < d -> 0 <= h < LL_B ->
  let r := udiv_half n1 h d in
  n1 * LL_B + h = fst r * d + snd r /\ 0 <= snd r < d /\ 0 <= fst r < LL_B.
Proof.
  intros [Hn Hd] Hn1 Hh. assert (Ld : limb d) by (red; lia).
  assert (LP : LL_B = 4294967296) by reflexivity.
  assert (BP : B = LL_B * LL_B) by reflexivity.
  destruct (ll_parts d Ld) as (Ed & Hd1 & Hd0).
  unfold udiv_half. set (d1 := ll_highpart d) in *. set (d0 := ll_lowpart d) in *.
  assert (LL_B <= 2 * d1) by nia.
  pose proof (Z_div_mod_eq_full n1 d1) as Eq.
  pose proof (Z.mod_pos_bound n1 d1 ltac:(lia)) as Hr.
  set (q := n1 / d1) in *. set (r := n1 mod d1) in *.
  assert (0 <= q <= LL_B + 1) by nia.
  assert (Hm : 0 <= q * d0 < B) by nia.
  rewrite (lwrap_small (q * d0)) by exact Hm.
  rewrite (lwrap_small (r * LL_B)) by (red; nia).
  rewrite lor_LL_B by exact Hh. set (R := r * LL_B + h). set (M := q * d0) in *.
  assert (HR : 0 <= R < B) by (unfold R; nia).
  assert (EN : n1 * LL_B + h = q * d + R - M) by (unfold R, M; nia).
  assert (Hfin : forall Q X, n1 * LL_B + h = Q * d + X -> 0 <= X < d -> 0 <= Q < LL_B).
  { clear - Hn1 Hh Hn. intros; nia. }
  assert (R < d) by (unfold R; nia).
  destruct (Z.ltb_spec R M).
  - assert (0 < q) by nia. rewrite (lwrap_small (q - 1)) by (red; nia).
    destruct (Z.ltb_spec (R + d) B) as [Hc|Hc].
    + rewrite (lwrap_small (R + d)) by (red; lia).
      rewrite Z.geb_leb. destruct (Z.leb_spec d (R + d)); [|lia].
      destruct (Z.ltb_spec (R + d) M).
      * assert (1 < q) by nia.
        rewrite (lwrap_small (q - 1 - 1)) by (red; nia).
        assert (E : lwrap (lwrap (R + d + d) - M) = R + d + d - M).
        { unfold lwrap. rewrite Zminus_mod_idemp_l. apply Z.mod_small. nia. }
        cbn zeta. cbn [fst snd]. rewrite E.
        assert (n1 * LL_B + h = (q - 1 - 1) * d + (R + d + d - M)) by lia.
        assert (0 <= R + d + d - M < d) by lia. eauto.
      * cbn zeta. cbn [fst snd]. rewrite (lwrap_small (R + d - M)) by (red; lia).
        assert (n1 * LL_B + h = (q - 1) * d + (R + d - M)) by lia.
        assert (0 <= R + d - M < d) by lia. eauto.
    + assert (E0 : lwrap (R + d) = R + d - B)
        by (symmetry; apply (Z.mod_unique _ _ 1); lia).
      rewrite E0, Z.geb_leb. destruct (Z.leb_spec d (R + d - B)); [lia|].
      assert (E : lwrap (R + d - B - M) = R + d - M).
      { symmetry; apply (Z.mod_unique _ _ (-1)); lia. }
      cbn zeta. cbn [fst snd]. rewrite E.
      assert (n1 * LL_B + h = (q - 1) * d + (R + d - M)) by lia.
      assert (0 <= R + d - M < d) by lia. eauto.
  - cbn zeta. cbn [fst snd]. rewrite (lwrap_small (R - M)) by (red; lia).
    assert (n1 * LL_B + h = q * d + (R - M)) by lia.
    assert (0 <= R - M < d) by lia. eauto.
Qed.

Lemma udiv_qrnnd_spec n1 n0 d : normalized d -> 0 <= n1 < d -> limb n0 ->
  let r := udiv_qrnnd n1 n0 d in
  n1 * B + n0 = fst r * d + snd r /\ 0 <= snd r < d /\ limb (fst r).
Proof.
  intros Hd Hn1 L0. destruct (ll_parts n0 L0) as (E0 & Hh & Hl). unfold udiv_qrnnd.
  destruct (udiv_half_spec n1 (ll_highpart n0) d Hd Hn1 Hh) as (E1 & R1 & Q1).
  destruct (udiv_half n1 (ll_highpart n0) d) as [q1 r1]; cbn [fst snd] in *.
  destruct (udiv_half_spec r1 (ll_lowpart n0) d Hd R1 Hl) as (E2 & R2 & Q2).
  destruct (udiv_half r1 (ll_lowpart n0) d) as [q0 r0]; cbn [fst snd] in *.
  pose proof LL_B_sq. rewrite (lwrap_small (q1 * LL_B)) by (red; nia).
  rewrite lor_LL_B by exact Q2. split; [nia|]. split; [exact R2 | red; nia].
Qed.

(** ** Concrete memories *)

(** The memory [m] with the limbs [l] stored from [p] on. *)
Fixpoint put (m : mem) (p : Z) (l : list Z) : mem :=
  match l with
  | nil => m
  | x :: l => put (upd m p x) (p + 1) l
  end.

Fixpoint limbsb (m : mem) (p : Z) (n : nat) : bool :=
  match n with
  | O => true
  | S k => (0 <=? m p) && (m p <? B) && limbsb m (p + 1) k
  end.

Lemma limbsb_ok m p n : limbsb m p n = true -> limbs m p n.
Proof.
  revert p; induction n as [|n IH]; intros p H a Ha; [lia|]. cbn [limbsb] in H.
  apply andb_prop in H as [H H3]. apply andb_prop in H as [H1 H2].
  destruct (Z.eq_dec a p) as [->|]; [red; lia|]. apply (IH (p + 1)); [assumption | lia].
Qed.

(** ** Addition and subtraction of operands of different sizes, in place *)

(** [mpn_add] stores the sum modulo [B ^ size1] and returns the carry, and
    [mpn_sub] stores the difference and returns the borrow, with only the
    result limbs written, for every overlap the ascending loops allow (the
    result may coincide with either operand). *)
Theorem mpn_add_sub_correct m res s1 n1 s2 n2 :
  (n2 <= n1)%nat -> limbs m s1 n1 -> limbs m s2 n2 ->
  asc_ok res s1 n1 -> asc_ok res s2 n2 ->
  let ra := mpn_add m res s1 n1 s2 n2 in
  let rs := mpn_sub m res s1 n1 s2 n2 in
  frame m (fst ra) res n1 /\ limbs (fst ra) res n1 /\ bit (snd ra) /\
  val (fst ra) res n1 + B ^ Z.of_nat n1 * snd ra = val m s1 n1 + val m s2 n2 /\
  frame m (fst rs) res n1 /\ limbs (fst rs) res n1 /\
  (snd rs = if val m s1 n1 <? val m s2 n2 then 1 else 0) /\
  val (fst rs) res n1 = (val m s1 n1 - val m s2 n2) mod B ^ Z.of_nat n1.
Proof.
  intros Hn L1 L2 O1 O2.
  destruct (mpn_add_post m res s1 n1 s2 n2) as [Fa La Ca Va]; auto.
  destruct (mpn_sub_post m res s1 n1 s2 n2) as [Fs Ls Cs Vs]; auto.
  cbn zeta. pose proof (val_bound _ _ _ Ls) as Bs.
  repeat (split; [assumption|]). split; [lia|]. repeat (split; [assumption|]). split.
  - destruct (Z.ltb_spec (val m s1 n1) (val m s2 n2)); destruct Cs as [C|C];
      rewrite C in *; auto; lia.
  - apply (Z.mod_unique _ _ (- snd (mpn_sub m res s1 n1 s2 n2))); [left; exact Bs | lia].
Qed.

(** Limbs [B - 1, B - 1, 5] and [1]; the carry runs through two limbs. *)
Definition wit_add : mem := put (put (fun _ => 0) 0 [B - 1; B - 1; 5]) 10 [1].

Lemma mpn_add_sub_correct_witness :
  (val (fst (mpn_add wit_add 0 0 3 10 1)) 0 3 + B ^ 3 * snd (mpn_add wit_add 0 0 3 10 1)
    = 6 * B * B) /\
  snd (mpn_sub wit_add 0 0 3 10 1) = 0.
Proof.
  destruct (mpn_add_sub_correct wit_add 0 0 3 10 1) as (_ & _ & _ & V & _ & _ & C & _);
    [lia | now apply limbsb_ok | now apply limbsb_ok | left; lia | left; lia|].
  split; [exact V | exact C].
Defined.

(** ** Shifts *)

(** for a shift count of 1 to 63 bits, [mpn_lshift] and [mpn_rshift]
    multiply and divide the number by [2 ^ cnt], returning the bits shifted
    out, also when the source and the result overlap in the direction each
    routine allows. *)
Theorem mpn_shift_correct m wp up n cnt :
  (0 < n)%nat -> 0 < cnt < BITS_PER_MP_LIMB -> limbs m up n ->
  ((up <= wp \/ wp + Z.of_nat n <= up) ->
   let r := mpn_lshift m wp up n cnt in
   frame m (fst r) wp n /\ limbs (fst r) wp n /\
   val (fst r) wp n = (val m up n * 2 ^ cnt) mod B ^ Z.of_nat n /\
   snd r = (val m up n * 2 ^ cnt) / B ^ Z.of_nat n) /\
  ((wp <= up \/ up + Z.of_nat n <= wp) ->
   let r := mpn_rshift m wp up n cnt in
   frame m (fst r) wp n /\ limbs (fst r) wp n /\
   val (fst r) wp n = val m up n / 2 ^ cnt /\
   snd r = (val m up n mod 2 ^ cnt) * 2 ^ (BITS_PER_MP_LIMB - cnt)).
Proof.
  intros Hn Hc L. destruct n as [|n]; [lia|]. change BITS_PER_MP_LIMB with 64 in *.
  split; intros O; unfold mpn_lshift, mpn_rshift; cbn [fst snd]; change BITS_PER_MP_LIMB with 64;
    replace (S n - 1)%nat with n by lia.
  - assert (Lh : limb (m (up + Z.of_nat n))) by (apply L; lia).
    destruct (lshift_loop_spec cnt (64 - cnt) ltac:(lia) ltac:(lia) ltac:(lia) n m wp up
                (m (up + Z.of_nat n))) as (F & L' & V); auto.
    { apply (limbs_weaken _ _ _ _ _ L); lia. }
    destruct (shift_split (m (up + Z.of_nat n)) cnt (64 - cnt)) as (_ & _ & S); auto; try lia.
    pose proof (val_bound _ _ _ L') as Bv.
    assert (E : val m up (Datatypes.S n) * 2 ^ cnt = val
        (lshift_loop n m (wp + 1) up cnt (64 - cnt) (m (up + Z.of_nat n))) wp (Datatypes.S n) +
        B ^ Z.of_nat (Datatypes.S n) * Z.shiftr (m (up + Z.of_nat n)) (64 - cnt)).
    { rewrite V, val_S_r, Bpow_S. nia. }
    split; [exact F|]. split; [exact L'|]. rewrite E.
    split; [eapply Z.mod_unique | eapply Z.div_unique]; first [left; exact Bv | apply Z.add_comm].
  - destruct (rshift_loop_spec (64 - cnt) cnt ltac:(lia) ltac:(lia) ltac:(lia) n 1 m (wp - 1) up
                (m up)) as (F & L' & V); [apply (limbs_weaken _ _ _ _ _ L); lia | apply L; lia | lia|].
    replace (wp - 1 + 1) with wp in * by lia.
    set (m' := rshift_loop n 1 m (wp - 1) up cnt (64 - cnt) (m up)) in *.
    split; [exact F|]. split; [exact L'|].
    destruct (shift_split (m up) (64 - cnt) cnt) as (E1 & _ & E2); auto; try lia; [apply L; lia|].
    change (m up + B * val m (up + 1) n) with (val m up (Datatypes.S n)) in V.
    assert (P : 0 < 2 ^ cnt) by (apply Z.pow_pos_nonneg; lia).
    assert (P' : 0 < 2 ^ (64 - cnt)) by (apply Z.pow_pos_nonneg; lia).
    assert (EB : B = 2 ^ cnt * 2 ^ (64 - cnt)).
    { rewrite <- Z.pow_add_r by lia. replace (cnt + (64 - cnt)) with 64 by lia. reflexivity. }
    assert (Rm : 0 <= m up mod 2 ^ cnt < 2 ^ cnt) by (apply Z.mod_pos_bound; lia).
    rewrite E1 in *.
    assert (V' : val m up (Datatypes.S n) = 2 ^ cnt * val m' wp (Datatypes.S n) + m up mod 2 ^ cnt).
    { apply (Z.mul_reg_r _ _ (2 ^ (64 - cnt))); [lia|]. rewrite <- V, EB. ring. }
    split.
    + apply (Z.div_unique _ _ _ (m up mod 2 ^ cnt)); [left; exact Rm | exact V'].
    + f_equal. apply (Z.mod_unique _ _ (val m' wp (Datatypes.S n))); [left; exact Rm | exact V'].
Qed.

Definition wit_shift : mem := put (fun _ => 0) 0 [B - 1; 12345].

Lemma mpn_shift_correct_witness :
  snd (mpn_lshift wit_shift 1 0 2 60) = 12345 / 2 ^ 4 /\
  val (fst (mpn_rshift wit_shift 0 0 2 7)) 0 2 = ((B - 1) + B * 12345) / 2 ^ 7.
Proof.
  destruct (mpn_shift_correct wit_shift 1 0 2 60) as [Hl _];
    [lia | split; reflexivity | now apply limbsb_ok |].
  destruct (mpn_shift_correct wit_shift 0 0 2 7) as [_ Hr];
    [lia | split; reflexivity | now apply limbsb_ok |].
  destruct Hl as (_ & _ & _ & El); [left; lia|]. destruct Hr as (_ & _ & Er & _); [left; lia|].
  split; [rewrite El | rewrite Er]; vm_compute; reflexivity.
Defined.

(** ** Two limbs by one *)

(** for a normalised divisor [d] and [n1 < d], the half-limb division of
    the generic [udiv_qrnnd] computes the exact quotient and remainder of
    [n1 * B + n0] by [d]. *)
Theorem udiv_qrnnd_correct n1 n0 d : normalized d -> 0 <= n1 < d -> limb n0 ->
  udiv_qrnnd n1 n0 d = ((n1 * B + n0) / d, (n1 * B + n0) mod d).
Proof.
  intros Hd H1 H0. destruct (udiv_qrnnd_spec n1 n0 d Hd H1 H0) as (E & R & _).
  destruct (udiv_qrnnd n1 n0 d) as [q r]; cbn [fst snd] in *.
  f_equal; [apply (Z.div_unique _ _ _ r) | apply (Z.mod_unique _ _ q)]; lia.
Qed.

Lemma udiv_qrnnd_correct_witness :
  udiv_qrnnd 5 17 (2 ^ 63 + 3) = ((5 * B + 17) / (2 ^ 63 + 3), (5 * B + 17) mod (2 ^ 63 + 3)).
Proof. apply (udiv_qrnnd_correct 5 17 (2 ^ 63 + 3)); split; vm_compute; congruence. Defined.
