(* ===== verification/MpnMul.v ===== *)
(** * Multiple-precision multiplication: schoolbook and Karatsuba
      (stdlib/mul_n.c, stdlib/mul.c) *)

From Stdlib Require Import ZArith List Lia Bool.
From S2P Require Import Prelude Mpn.
Import ListNotations.
#[local] Open Scope Z_scope.

(** ** Schoolbook multiplication

    The row loop appears, with the same text, in [impn_mul_n_basecase],
    [impn_sqr_n_basecase] and [mpn_mul]. *)

(** The first row: [up * v_limb] is stored, not added. *)
Definition basecase_first (m : mem) (prodp up : Z) (usize : nat) (v_limb : Z) : mem * Z :=
  if v_limb <=? 1 then
    ((if v_limb =? 1 then mpn_copy_incr m prodp up usize else mpn_zero m prodp usize), 0)
  else mpn_mul_1 m prodp up usize v_limb.

(** A later row: [up * v_limb] is added to [prodp]. *)
Definition basecase_row (m : mem) (prodp up : Z) (usize : nat) (v_limb : Z) : mem * Z :=
  if v_limb <=? 1 then
    (if v_limb =? 1 then mpn_add_n m prodp prodp up usize else (m, 0))
  else mpn_addmul_1 m prodp up usize v_limb.

(** [for (i = 1; i < vsize; i++)] with [k] rows left; [cy_limb] is the last
    limb stored. *)
Fixpoint basecase_loop (k : nat) (i : Z) (m : mem) (prodp up : Z) (usize : nat)
    (vp cy_limb : Z) : mem * Z :=
  match k with
  | O => (m, cy_limb)
  | S k' =>
      let v_limb := m (vp + i) in
      let '(m, cy_limb) := basecase_row m prodp up usize v_limb in
      let m := upd m (prodp + Z.of_nat usize) cy_limb in
      basecase_loop k' (i + 1) m (prodp + 1) up usize vp cy_limb
  end.

Definition mul_basecase (m : mem) (prodp up : Z) (usize : nat) (vp : Z) (vsize : nat)
    : mem * Z :=
  let v_limb := m vp in
  let '(m, cy_limb) := basecase_first m prodp up usize v_limb in
  let m := upd m (prodp + Z.of_nat usize) cy_limb in
  basecase_loop (vsize - 1) 1 m (prodp + 1) up usize vp cy_limb.

Definition impn_mul_n_basecase (m : mem) (prodp up vp : Z) (size : nat) : mem :=
  fst (mul_basecase m prodp up size vp size).

Definition impn_sqr_n_basecase (m : mem) (prodp up : Z) (size : nat) : mem :=
  fst (mul_basecase m prodp up size up size).

(** ** Karatsuba multiplication *)

Section Karatsuba.
(** The threshold is a build-time macro: 32 unless the machine's
    gmp-mparam.h defines it, and at least 2. *)
Context (KARATSUBA_THRESHOLD : nat).

(** What both recursive routines do after product M is in [tspace], from
    "Add/copy product H" to the first [mpn_add_1]; [recL] computes product L
    into [tspace]. *)
Definition karatsuba_mid (recL : mem -> mem) (negflg : bool)
    (m : mem) (prodp : Z) (size : nat) (tspace : Z) : mem :=
  let hsize := (size / 2)%nat in
  let sz := Z.of_nat size in
  let h := Z.of_nat hsize in
  (* Add/copy product H. *)
  let m := mpn_copy_incr m (prodp + h) (prodp + sz) hsize in
  let '(m, cy) := mpn_add_n m (prodp + sz) (prodp + sz) (prodp + sz + h) hsize in
  (* Add product M (if NEGFLG M is a negative number). *)
  let '(m, cy) :=
    if negflg
    then let '(m, c) := mpn_sub_n m (prodp + h) (prodp + h) tspace size in (m, lwrap (cy - c))
    else let '(m, c) := mpn_add_n m (prodp + h) (prodp + h) tspace size in (m, lwrap (cy + c)) in
  (* Product L. *)
  let m := recL m in
  (* Add/copy product L (twice). *)
  let '(m, c) := mpn_add_n m (prodp + h) (prodp + h) tspace size in
  let cy := lwrap (cy + c) in
  if negb (cy =? 0)
  then fst (mpn_add_1 m (prodp + h + sz) (prodp + h + sz) hsize cy) else m.

(** The rest of both routines. *)
Definition karatsuba_low (m : mem) (prodp : Z) (size : nat) (tspace : Z) : mem :=
  let hsize := (size / 2)%nat in
  let sz := Z.of_nat size in
  let h := Z.of_nat hsize in
  let m := mpn_copy_incr m prodp tspace hsize in
  let '(m, cy) := mpn_add_n m (prodp + h) (prodp + h) (tspace + h) hsize in
  if negb (cy =? 0) then fst (mpn_add_1 m (prodp + sz) (prodp + sz) size 1) else m.

(** [|op1 - op2|] into [res], and whether [op1 < op2]: the comparison and
    subtraction before product M. *)
Definition abs_diff (m : mem) (res op1 op2 : Z) (n : nat) : mem * bool :=
  if mpn_cmp m op1 op2 n >=? 0
  then (fst (mpn_sub_n m res op1 op2 n), false)
  else (fst (mpn_sub_n m res op2 op1 n), true).

(** The part of [impn_mul_n] for even sizes, [rec] standing for
    [MPN_MUL_N_RECURSE]. *)
Definition karatsuba_even (rec : mem -> Z -> Z -> Z -> nat -> Z -> mem)
    (m : mem) (prodp up vp : Z) (size : nat) (tspace : Z) : mem :=
  let hsize := (size / 2)%nat in
  let sz := Z.of_nat size in
  let h := Z.of_nat hsize in
  (* Product H. *)
  let m := rec m (prodp + sz) (up + h) (vp + h) hsize tspace in
  (* Product M. *)
  let '(m, negflg) := abs_diff m prodp (up + h) up hsize in
  let '(m, vneg) := abs_diff m (prodp + h) (vp + h) vp hsize in
  let negflg := if vneg then negflg else negb negflg in
  let m := rec m tspace prodp (prodp + h) hsize (tspace + sz) in
  let m := karatsuba_mid (fun m => rec m tspace up vp hsize (tspace + sz)) negflg
             m prodp size tspace in
  karatsuba_low m prodp size tspace.

(** The part of [impn_mul_n] for odd sizes. *)
Definition karatsuba_odd (rec : mem -> Z -> Z -> Z -> nat -> Z -> mem)
    (m : mem) (prodp up vp : Z) (size : nat) (tspace : Z) : mem :=
  let esize := (size - 1)%nat in
  let e := Z.of_nat esize in
  let m := rec m prodp up vp esize tspace in
  let '(m, cy_limb) := mpn_addmul_1 m (prodp + e) up esize (m (vp + e)) in
  let m := upd m (prodp + (e + e)) cy_limb in
  let '(m, cy_limb) := mpn_addmul_1 m (prodp + e) vp size (m (up + e)) in
  upd m (prodp + (e + Z.of_nat size)) cy_limb.

(** [impn_mul_n]; [fuel] bounds the recursion depth, [size] is enough. *)
Fixpoint impn_mul_n (fuel : nat) (m : mem) (prodp up vp : Z) (size : nat) (tspace : Z) : mem :=
  match fuel with
  | O => m
  | S f =>
      let recurse m prodp up vp size tspace :=
        if Nat.ltb size KARATSUBA_THRESHOLD
        then impn_mul_n_basecase m prodp up vp size
        else impn_mul_n f m prodp up vp size tspace in
      if Nat.odd size then karatsuba_odd recurse m prodp up vp size tspace
      else karatsuba_even recurse m prodp up vp size tspace
  end.

(** The part of [impn_sqr_n] for even sizes, [rec] standing for
    [MPN_SQR_N_RECURSE]; product M is always subtracted. *)
Definition karatsuba_sqr_even (rec : mem -> Z -> Z -> nat -> Z -> mem)
    (m : mem) (prodp up : Z) (size : nat) (tspace : Z) : mem :=
  let hsize := (size / 2)%nat in
  let sz := Z.of_nat size in
  let h := Z.of_nat hsize in
  let m := rec m (prodp + sz) (up + h) hsize tspace in
  let '(m, _) := abs_diff m prodp (up + h) up hsize in
  let m := rec m tspace prodp hsize (tspace + sz) in
  let m := karatsuba_mid (fun m => rec m tspace up hsize (tspace + sz)) true
             m prodp size tspace in
  karatsuba_low m prodp size tspace.

(** [impn_sqr_n]; its odd case is that of [impn_mul_n] with both operands [up]. *)
Fixpoint impn_sqr_n (fuel : nat) (m : mem) (prodp up : Z) (size : nat) (tspace : Z) : mem :=
  match fuel with
  | O => m
  | S f =>
      let recurse m prodp up size tspace :=
        if Nat.ltb size KARATSUBA_THRESHOLD
        then impn_sqr_n_basecase m prodp up size
        else impn_sqr_n f m prodp up size tspace in
      if Nat.odd size
      then karatsuba_odd (fun m p u _ n t => recurse m p u n t) m prodp up up size tspace
      else karatsuba_sqr_even recurse m prodp up size tspace
  end.

(** [TMP_ALLOC] takes storage from the stack; [sp] is the first free limb. *)
Definition mpn_mul_n (m : mem) (prodp up vp : Z) (size : nat) (sp : Z) : mem :=
  let tspace := sp in
  if up =? vp then
    if Nat.ltb size KARATSUBA_THRESHOLD then impn_sqr_n_basecase m prodp up size
    else impn_sqr_n size m prodp up size tspace
  else
    if Nat.ltb size KARATSUBA_THRESHOLD then impn_mul_n_basecase m prodp up vp size
    else impn_mul_n size m prodp up vp size tspace.

Definition MPN_MUL_N_RECURSE (m : mem) (prodp up vp : Z) (size : nat) (tspace : Z) : mem :=
  if Nat.ltb size KARATSUBA_THRESHOLD
  then impn_mul_n_basecase m prodp up vp size
  else impn_mul_n size m prodp up vp size tspace.

(** The do-while loop of [mpn_mul] over the [vsize]-limb blocks of [up];
    returns the memory and the final [prodp], [up], [usize]. *)
Fixpoint mul_blocks (fuel : nat) (m : mem) (prodp up : Z) (usize : nat)
    (vp : Z) (vsize : nat) (tspace tp : Z) : mem * (Z * Z * nat) :=
  match fuel with
  | O => (m, (prodp, up, usize))
  | S f =>
      if Nat.leb vsize usize then
        let v := Z.of_nat vsize in
        let m := MPN_MUL_N_RECURSE m tp up vp vsize tspace in
        let '(m, cy) := mpn_add_n m prodp prodp tp vsize in
        let m := fst (mpn_add_1 m (prodp + v) (tp + v) vsize cy) in
        mul_blocks f m (prodp + v) (up + v) (usize - vsize) vp vsize tspace tp
      else (m, (prodp, up, usize))
  end.

(** [mpn_mul]; the recursive call has a smaller [vsize], so [S vsize] is
    enough fuel. *)
Fixpoint mpn_mul (fuel : nat) (m : mem) (prodp up : Z) (usize : nat)
    (vp : Z) (vsize : nat) (sp : Z) : mem * Z :=
  match fuel with
  | O => (m, 0)
  | S f =>
      let prod_endp := prodp + Z.of_nat usize + Z.of_nat vsize - 1 in
      let v := Z.of_nat vsize in
      if Nat.ltb vsize KARATSUBA_THRESHOLD then
        if Nat.eqb vsize 0 then (m, 0)
        else mul_basecase m prodp up usize vp vsize
      else
        let tspace := sp in
        let tp := sp + 2 * v in
        let m := MPN_MUL_N_RECURSE m prodp up vp vsize tspace in
        let '(m, (prodp, up, usize)) :=
          mul_blocks usize m (prodp + v) (up + v) (usize - vsize) vp vsize tspace tp in
        let m :=
          if Nat.eqb usize 0 then m
          else
            let m := fst (mpn_mul f m tspace vp vsize up usize (sp + 4 * v)) in
            let '(m, cy) := mpn_add_n m prodp prodp tspace vsize in
            fst (mpn_add_1 m (prodp + v) (tspace + v) usize cy) in
        (m, m prod_endp)
  end.
End Karatsuba.

(** ** Schoolbook correctness *)

(** Storing the returned carry above the limbs of a kernel result. *)
Lemma kernel_store_carry m r res n total :
  kernel_post m r res n limb 1 total ->
  let m' := upd (fst r) (res + Z.of_nat n) (snd r) in
  frame m m' res (S n) /\ limbs m' res (S n) /\ val m' res (S n) = total.
Proof.
  intros [F L C V]. cbn zeta. split; [|split].
  - intros a Ha. rewrite upd_ne by lia. apply F; lia.
  - intros a Ha. destruct (Z.eq_dec a (res + Z.of_nat n)) as [->|];
      [rewrite upd_eq; exact C | rewrite upd_ne by assumption; apply L; lia].
  - rewrite val_S_r, upd_eq.
    rewrite (val_ext (fst r)) by (intros; apply upd_ne; lia). lia.
Qed.

Lemma kernel_post_weaken m r res n (P Q : Z -> Prop) s total :
  (forall c, P c -> Q c) -> kernel_post m r res n P s total ->
  kernel_post m r res n Q s total.
Proof. intros W [F L C V]; constructor; auto. Qed.

Section Basecase.
Context (up : Z) (usize : nat).

Lemma basecase_first_post m prodp v : limbs m up usize -> limb v ->
  disjoint prodp usize up usize ->
  kernel_post m (basecase_first m prodp up usize v) prodp usize limb 1
    (val m up usize * v).
Proof using.
  intros L Lv D. unfold basecase_first.
  assert (O : asc_ok prodp up usize) by (red in D |- *; lia).
  destruct (Z.leb_spec v 1); [|now apply mpn_mul_1_post].
  destruct (Z.eqb_spec v 1) as [->|].
  - destruct (mpn_copy_incr_spec usize m prodp up O) as [F E].
    constructor; cbn [fst snd]; auto using limb_0.
    + now apply (limbs_eq_at _ _ _ _ _ E).
    + rewrite (val_eq_at _ _ _ _ _ E). ring.
  - destruct (mpn_zero_spec usize m prodp) as [F E].
    constructor; cbn [fst snd]; auto using limb_0.
    + intros a Ha. replace a with (prodp + (a - prodp)) by lia. rewrite E by lia.
      apply limb_0.
    + rewrite (val_zero _ _ _ E). replace v with 0 by (red in Lv; lia). ring.
Qed.

Lemma basecase_row_post m prodp v : limbs m up usize -> limbs m prodp usize -> limb v ->
  disjoint prodp usize up usize ->
  kernel_post m (basecase_row m prodp up usize v) prodp usize limb 1
    (val m prodp usize + val m up usize * v).
Proof using.
  intros L Lp Lv D. unfold basecase_row.
  assert (O : asc_ok prodp up usize) by (red in D |- *; lia).
  destruct (Z.leb_spec v 1); [|now apply mpn_addmul_1_post].
  destruct (Z.eqb_spec v 1) as [->|].
  - apply (kernel_post_weaken _ _ _ _ bit); [apply limb_bit|].
    rewrite Z.mul_1_r. apply mpn_add_n_post; auto. left; lia.
  - constructor; cbn [fst snd]; auto using limb_0 with glibc.
    replace v with 0 by (red in Lv; lia). ring.
Qed.

(** Rows [k] at [prodp] are done: the frame, the product and its top limb. *)
Definition rows_post (m : mem) (r : mem * Z) (prodp : Z) (k : nat) (total : Z) : Prop :=
  frame m (fst r) prodp (usize + k) /\ limbs (fst r) prodp (usize + k) /\
  val (fst r) prodp (usize + k) = total /\
  fst r (prodp + Z.of_nat (usize + k) - 1) = snd r.

Lemma rows_cons m m2 r prodp k T :
  frame m m2 prodp (S usize) -> limbs m2 prodp (S usize) ->
  rows_post m2 r (prodp + 1) k (val m2 (prodp + 1) usize + T) ->
  rows_post m r prodp (S k) (val m2 prodp (S usize) + B * T).
Proof using.
  intros F Ls (F' & L' & V' & T'). unfold rows_post.
  replace (usize + S k)%nat with (S (usize + k)) by lia.
  assert (Hp : fst r prodp = m2 prodp) by (apply F'; lia).
  split; [|split; [|split]].
  - apply (frame_trans _ _ _ _ _ _ _ _ _ F F'); lia.
  - intros a Ha. destruct (Z.eq_dec a prodp) as [->|];
      [rewrite Hp; apply Ls; lia | apply L'; lia].
  - cbn [val]. rewrite Hp, V'. ring.
  - replace (prodp + Z.of_nat (S (usize + k)) - 1)
      with (prodp + 1 + Z.of_nat (usize + k) - 1) by lia. exact T'.
Qed.

Lemma basecase_loop_post vp k : forall i m prodp cy,
  limbs m up usize -> limbs m (vp + i) k -> limbs m prodp usize ->
  disjoint prodp (usize + k) up usize -> disjoint prodp (usize + k) (vp + i) k ->
  m (prodp + Z.of_nat usize - 1) = cy ->
  rows_post m (basecase_loop k i m prodp up usize vp cy) prodp k
    (val m prodp usize + val m up usize * val m (vp + i) k).
Proof using.
  induction k as [|k IH]; intros i m prodp cy L Lv Lp Du Dv Hc; cbn [basecase_loop].
  { unfold rows_post. cbn [val fst snd]. rewrite Nat.add_0_r.
    split; [apply frame_refl|]. split; [exact Lp|]. split; [ring | exact Hc]. }
  red in Du, Dv.
  pose proof (basecase_row_post m prodp (m (vp + i)) L Lp) as K.
  specialize (K (Lv (vp + i) ltac:(lia)) ltac:(red; lia)).
  destruct (kernel_store_carry _ _ _ _ _ K) as (F & Ls & V). cbn zeta in *.
  destruct (basecase_row m prodp up usize (m (vp + i))) as [m1 c]; cbn [fst snd] in *.
  set (m2 := upd m1 (prodp + Z.of_nat usize) c) in *.
  replace (val m prodp usize + val m up usize * val m (vp + i) (S k))
    with (val m2 prodp (S usize) + B * (val m up usize * val m (vp + (i + 1)) k))
    by (rewrite V; cbn [val]; rewrite Z.add_assoc; ring).
  apply rows_cons; [exact F | exact Ls |].
  rewrite <- (val_frame _ _ _ _ up usize F) by lia.
  rewrite <- (val_frame _ _ _ _ (vp + (i + 1)) k F) by lia.
  apply IH; try (red; lia).
  - apply (limbs_frame _ _ _ _ _ _ F L); lia.
  - apply (limbs_frame _ _ _ _ _ _ F); [apply (limbs_weaken _ _ _ _ _ Lv)|]; lia.
  - apply (limbs_weaken _ _ _ _ _ Ls); lia.
  - unfold m2. replace (prodp + 1 + Z.of_nat usize - 1) with (prodp + Z.of_nat usize) by lia.
    apply upd_eq.
Qed.

Lemma mul_basecase_post m prodp vp k :
  limbs m up usize -> limbs m vp (S k) ->
  disjoint prodp (usize + S k) up usize -> disjoint prodp (usize + S k) vp (S k) ->
  rows_post m (mul_basecase m prodp up usize vp (S k)) prodp (S k)
    (val m up usize * val m vp (S k)).
Proof using.
  intros L Lv Du Dv. unfold mul_basecase. rewrite Nat.sub_succ, Nat.sub_0_r.
  red in Du, Dv.
  pose proof (basecase_first_post m prodp (m vp) L) as K.
  specialize (K (Lv vp ltac:(lia)) ltac:(red; lia)).
  destruct (kernel_store_carry _ _ _ _ _ K) as (F & Ls & V). cbn zeta in *.
  destruct (basecase_first m prodp up usize (m vp)) as [m1 c]; cbn [fst snd] in *.
  set (m2 := upd m1 (prodp + Z.of_nat usize) c) in *.
  replace (val m up usize * val m vp (S k))
    with (val m2 prodp (S usize) + B * (val m up usize * val m (vp + 1) k))
    by (rewrite V; cbn [val]; ring).
  apply rows_cons; [exact F | exact Ls |].
  rewrite <- (val_frame _ _ _ _ up usize F) by lia.
  rewrite <- (val_frame _ _ _ _ (vp + 1) k F) by lia.
  apply basecase_loop_post; try (red; lia).
  - apply (limbs_frame _ _ _ _ _ _ F L); lia.
  - apply (limbs_frame _ _ _ _ _ _ F); [apply (limbs_weaken _ _ _ _ _ Lv)|]; lia.
  - apply (limbs_weaken _ _ _ _ _ Ls); lia.
  - unfold m2. replace (prodp + 1 + Z.of_nat usize - 1) with (prodp + Z.of_nat usize) by lia.
    apply upd_eq.
Qed.
End Basecase.

(** ** Karatsuba correctness *)

(** [if (cy) mpn_add_1 (p, p, n, cy)] when the sum fits. *)
Lemma add_1_if m p n c : (0 < n)%nat -> limbs m p n -> limb c ->
  val m p n + c < B ^ Z.of_nat n ->
  let m' := if negb (c =? 0) then fst (mpn_add_1 m p p n c) else m in
  frame m m' p n /\ limbs m' p n /\ val m' p n = val m p n + c.
Proof.
  intros Hn L Lc Hv. cbn zeta. destruct (Z.eqb_spec c 0) as [->|]; cbn [negb].
  { repeat split; auto with glibc; lia || apply L; assumption. }
  destruct n as [|n]; [lia|].
  destruct (mpn_add_1_post m p p n c L (or_introl (Z.le_refl _)) Lc) as [F L' C V].
  split; [exact F|]. split; [exact L'|].
  pose proof (val_bound _ _ _ L'). pose proof (Bpow_pos (S n)).
  destruct C as [C|C]; rewrite C in V; lia.
Qed.

Section Finish.
(** [h] is [hsize]; [b] is its weight [B ^ hsize]. *)
Context (h : nat) (Hh : (0 < h)%nat).
#[local] Abbreviation b := (B ^ Z.of_nat h).
Context (prodp tspace : Z).

(** The state after "product H" is copied and added: [P] is [prodp + hsize]. *)
Lemma finish_H m (D : disjoint prodp (h + h + (h + h)) tspace (h + h)) :
  let P := prodp + Z.of_nat h in
  limbs m (prodp + Z.of_nat (h + h)) (h + h) ->
  let m1 := mpn_copy_incr m P (prodp + Z.of_nat (h + h)) h in
  let r := mpn_add_n m1 (prodp + Z.of_nat (h + h)) (prodp + Z.of_nat (h + h))
             (prodp + Z.of_nat (h + h) + Z.of_nat h) h in
  frame m (fst r) P (h + h) /\ limbs (fst r) P (h + h) /\ bit (snd r) /\
  val (fst r) P (h + h) + b * b * snd r =
    val m (prodp + Z.of_nat (h + h)) (h + h) + b * val m (prodp + Z.of_nat (h + h)) h.
Proof using Hh.
  intros P L m1 r. red in D.
  destruct (limbs_split _ _ _ _ L) as [L0 L1].
  destruct (mpn_copy_incr_spec h m P (prodp + Z.of_nat (h + h))) as [F1 E1];
    [left; subst P; lia|]. fold m1 in F1, E1.
  destruct (mpn_add_n_post m1 (prodp + Z.of_nat (h + h)) (prodp + Z.of_nat (h + h))
     (prodp + Z.of_nat (h + h) + Z.of_nat h) h) as [F2 L2 C2 V2];
    try (red; lia); try (apply (limbs_frame _ _ _ _ _ _ F1); [assumption | subst P; lia]).
  fold r in F2, L2, C2, V2.
  split; [apply (frame_trans _ _ _ _ _ _ _ _ _ F1 F2); subst P; lia|].
  assert (Ep : val (fst r) P h = val m (prodp + Z.of_nat (h + h)) h).
  { rewrite (val_frame _ _ _ _ P h F2) by (subst P; lia). now apply val_eq_at. }
  split; [|split; [exact C2|]].
  - apply limbs_app.
    + apply (limbs_frame _ _ _ _ _ _ F2); [now apply (limbs_eq_at _ _ _ _ _ E1) | subst P; lia].
    + replace (P + Z.of_nat h) with (prodp + Z.of_nat (h + h)) by (subst P; lia). exact L2.
  - rewrite !val_app, Ep. replace (P + Z.of_nat h) with (prodp + Z.of_nat (h + h)) by (subst P; lia).
    rewrite (val_frame _ _ _ _ _ h F1) in V2 by (subst P; lia).
    rewrite (val_frame _ _ _ _ _ h F1) in V2 by (subst P; lia). nia.
Qed.

(** Product M is added to or subtracted from the middle blocks. *)
Lemma finish_M m cy (negflg : bool) P : limbs m P (h + h) -> limbs m tspace (h + h) ->
  disjoint P (h + h) tspace (h + h) ->
  let s := if negflg then -1 else 1 in
  let r := if negflg
    then let '(m, c) := mpn_sub_n m P P tspace (h + h) in (m, lwrap (cy - c))
    else let '(m, c) := mpn_add_n m P P tspace (h + h) in (m, lwrap (cy + c)) in
  frame m (fst r) P (h + h) /\ limbs (fst r) P (h + h) /\
  exists c, bit c /\ snd r = lwrap (cy + s * c) /\
  val (fst r) P (h + h) + b * b * (s * c) = val m P (h + h) + s * val m tspace (h + h).
Proof using Hh.
  intros Lp Lt D s r. red in D. assert (O : asc_ok P tspace (h + h)) by (red; lia).
  assert (Op : asc_ok P P (h + h)) by (left; lia).
  pose proof (mpn_sub_n_post m P P tspace (h + h) Lp Op Lt O) as K1.
  pose proof (mpn_add_n_post m P P tspace (h + h) Lp Op Lt O) as K2.
  subst r s.
  destruct negflg;
    [destruct (mpn_sub_n m P P tspace (h + h)) as [m' c]
    |destruct (mpn_add_n m P P tspace (h + h)) as [m' c]]; cbn [fst snd] in *.
  - destruct K1 as [F L C V]; cbn [fst snd] in *. split; [exact F|]. split; [exact L|].
    exists c. split; [exact C|]. split; [f_equal; ring|]. rewrite Bpow_add in V. nia.
  - destruct K2 as [F L C V]; cbn [fst snd] in *. split; [exact F|]. split; [exact L|].
    exists c. split; [exact C|]. split; [f_equal; ring|]. rewrite Bpow_add in V. nia.
Qed.

(** The last steps: [L] is copied below and its high half added above. *)
Lemma finish_low m : disjoint prodp (h + h + (h + h)) tspace (h + h) ->
  let P := prodp + Z.of_nat h in
  limbs m P (h + (h + h)) -> limbs m tspace (h + h) ->
  val m tspace (h + h) + b * val m P (h + (h + h)) < b * b * (b * b) ->
  let m1 := mpn_copy_incr m prodp tspace h in
  let r := mpn_add_n m1 P P (tspace + Z.of_nat h) h in
  let m' := if negb (snd r =? 0)
    then fst (mpn_add_1 (fst r) (prodp + Z.of_nat (h + h)) (prodp + Z.of_nat (h + h)) (h + h) 1)
    else fst r in
  frame m m' prodp (h + h + (h + h)) /\ limbs m' prodp (h + h + (h + h)) /\
  val m' prodp (h + h + (h + h)) = val m tspace (h + h) + b * val m P (h + (h + h)).
Proof using Hh.
  intros D P Lp Lt Hlt m1 r m'. red in D.
  destruct (limbs_split _ _ _ _ Lt) as [Lt0 Lt1].
  destruct (limbs_split _ _ _ _ Lp) as [Lp0 Lp1].
  destruct (mpn_copy_incr_spec h m prodp tspace) as [F1 E1]; [red; lia|]. fold m1 in F1, E1.
  destruct (mpn_add_n_post m1 P P (tspace + Z.of_nat h) h) as [F2 L2 C2 V2];
    try (red; subst P; lia);
    try (apply (limbs_frame _ _ _ _ _ _ F1); [assumption | subst P; lia]).
  fold r in F2, L2, C2, V2.
  set (Q := prodp + Z.of_nat (h + h)) in *.
  assert (EQ : P + Z.of_nat h = Q) by (subst P Q; lia). rewrite EQ in *.
  assert (FQ : frame m (fst r) prodp (h + h)).
  { apply (frame_trans _ _ _ _ _ _ _ _ _ F1 F2); subst P; lia. }
  assert (LQ : limbs (fst r) Q (h + h)) by (apply (limbs_frame _ _ _ _ _ _ FQ Lp1); subst Q; lia).
  rewrite (val_frame _ _ _ _ P h F1) in V2 by (subst P; lia).
  rewrite (val_frame _ _ _ _ _ h F1) in V2 by lia.
  assert (E0 : val m' prodp h = val m tspace h /\
    (frame (fst r) m' Q (h + h) /\ limbs m' Q (h + h) /\ val m' Q (h + h) = val m Q (h + h) + snd r)).
  { assert (A : frame (fst r) m' Q (h + h) /\ limbs m' Q (h + h) /\
      val m' Q (h + h) = val (fst r) Q (h + h) + snd r).
    { assert (Em : m' = if negb (snd r =? 0)
        then fst (mpn_add_1 (fst r) Q Q (h + h) (snd r)) else fst r)
        by (unfold m'; destruct C2 as [->| ->]; reflexivity).
      rewrite Em. apply add_1_if; auto with glibc; [lia|].
      rewrite (val_frame _ _ _ _ Q _ FQ) by (subst Q; lia). rewrite Bpow_add.
      rewrite !val_app, EQ in Hlt.
      pose proof (val_bound _ _ _ L2). pose proof (val_bound _ _ _ Lt0).
      pose proof (Bpow_pos h). rewrite val_app. nia. }
    rewrite (val_frame _ _ _ _ Q _ FQ) in A by (subst Q; lia). split; [|exact A].
    destruct A as (F3 & _ & _).
    rewrite (val_frame _ _ _ _ prodp h F3) by (subst Q; lia).
    rewrite (val_frame _ _ _ _ prodp h F2) by (subst P; lia). now apply val_eq_at. }
  destruct E0 as (E0 & F3 & L3 & V3).
  split; [apply (frame_trans _ _ _ _ _ _ _ _ _ FQ F3); subst Q; lia|].
  split.
  - apply limbs_app; [apply limbs_app|exact L3];
      apply (limbs_frame _ _ _ _ _ _ F3); try (subst Q P; lia); [|exact L2].
    apply (limbs_frame _ _ _ _ _ _ F2); [now apply (limbs_eq_at _ _ _ _ _ E1)|subst P; lia].
  - rewrite (val_app m' prodp (h + h)). fold Q. rewrite V3, (val_app m' prodp h), E0.
    rewrite (val_frame _ _ _ _ (prodp + Z.of_nat h) h F3) by (subst Q; lia).
    fold P. rewrite (val_app m P), EQ, (val_app m tspace), Bpow_add. nia.
Qed.
End Finish.

(** The contract of a recursive multiplication of [n]-limb operands with a
    [2 * n]-limb product and a [2 * n]-limb scratch area, for the operand
    pointers that satisfy [Q] (any, or equal ones when squaring). *)
Definition mul_ok_on (Q : Z -> Z -> Prop)
    (rec : mem -> Z -> Z -> Z -> nat -> Z -> mem) (n : nat) : Prop :=
  forall m p u v t, Q u v -> limbs m u n -> limbs m v n ->
    disjoint p (n + n) u n -> disjoint p (n + n) v n ->
    disjoint t (n + n) u n -> disjoint t (n + n) v n -> disjoint p (n + n) t (n + n) ->
    let m' := rec m p u v n t in
    frame2 m m' p (n + n) t (n + n) /\ limbs m' p (n + n) /\
    val m' p (n + n) = val m u n * val m v n.

#[local] Abbreviation mul_ok := (mul_ok_on (fun _ _ => True)).

Lemma half_double h : ((h + h) / 2)%nat = h.
Proof. replace (h + h)%nat with (h * 2)%nat by lia. apply Nat.div_mul; lia. Qed.

Section FinishSpec.
Context (h : nat) (Hh : (0 < h)%nat) (prodp tspace : Z).
#[local] Abbreviation b := (B ^ Z.of_nat h).
#[local] Abbreviation sz := (h + h)%nat.
Context (D : disjoint prodp (sz + sz) tspace (sz + sz)).
Context (recL : mem -> mem) (m : mem) (H M L : Z) (negflg : bool).
#[local] Abbreviation s := (if negflg then -1 else 1).

Hypothesis recL_ok : forall m', frame2 m m' prodp (sz + sz) tspace (sz + sz) ->
  frame m' (recL m') tspace (sz + sz) /\ limbs (recL m') tspace sz /\
  val (recL m') tspace sz = L.
Hypothesis HL : limbs m (prodp + Z.of_nat sz) sz.
Hypothesis HV : val m (prodp + Z.of_nat sz) sz = H.
Hypothesis ML : limbs m tspace sz.
Hypothesis MV : val m tspace sz = M.
Hypothesis X_pos : 0 <= H + s * M + L.
Hypothesis fits : L + b * (H + s * M + L + b * H) < b * b * (b * b).

#[local] Abbreviation P := (prodp + Z.of_nat h).

(** After [karatsuba_mid] the three upper blocks hold [X + b * H] and
    [tspace] holds [L]. *)
Lemma karatsuba_mid_spec :
  let m' := karatsuba_mid recL negflg m prodp sz tspace in
  frame2 m m' P (h + sz) tspace (sz + sz) /\ limbs m' P (h + sz) /\
  limbs m' tspace sz /\ val m' tspace sz = L /\
  val m' P (h + sz) = H + s * M + L + b * H.
Proof using Hh D recL_ok HL HV ML MV X_pos fits.
  red in D. unfold karatsuba_mid. rewrite half_double.
  assert (Ds : disjoint P sz tspace sz) by (red; lia).
  destruct (finish_H h Hh prodp tspace m ltac:(red; lia) HL) as (F1 & L1 & C1 & V1).
  destruct (mpn_add_n _ _ _ _ h) as [m1 c1]; cbn [fst snd] in *.
  assert (Mt : val m1 tspace sz = M) by (rewrite (val_frame _ _ _ _ tspace sz F1) by lia; exact MV).
  assert (Lt : limbs m1 tspace sz) by (apply (limbs_frame _ _ _ _ _ _ F1 ML); lia).
  destruct (finish_M h Hh tspace m1 c1 negflg P L1 Lt Ds) as (F2 & L2 & c2 & C2 & E2 & V2).
  match type of E2 with snd ?r = _ => destruct r as [m2 cy2] end.
  cbn [fst snd] in *. subst cy2.
  destruct (recL_ok m2) as (F3 & L3 & V3).
  { intros a A1 A2. rewrite F2, F1 by lia. reflexivity. }
  set (m3 := recL m2) in *.
  destruct (mpn_add_n_post m3 P P tspace sz) as [F4 L4 C4 V4]; try (red; lia); auto.
  { apply (limbs_frame _ _ _ _ _ _ F3 L2); lia. }
  destruct (mpn_add_n m3 P P tspace sz) as [m4 c4]; cbn [fst snd] in *.
  rewrite (val_frame _ _ _ _ P sz F3), V3 in V4 by lia. rewrite Bpow_add in V4.
  rewrite Mt in V2. rewrite HV in V1.
  (* the top block is still the high half of H *)
  assert (K4 : forall a, P + Z.of_nat sz <= a < P + Z.of_nat sz + Z.of_nat h -> m4 a = m a).
  { intros a Ha. rewrite F4, F3, F2, F1 by lia. reflexivity. }
  assert (T4 : val m4 (P + Z.of_nat sz) h = val m (prodp + Z.of_nat sz + Z.of_nat h) h).
  { rewrite (val_ext m m4) by exact K4. f_equal; lia. }
  rewrite val_app in HV.
  assert (LT : limbs m4 (P + Z.of_nat sz) h).
  { intros a Ha. rewrite K4 by exact Ha. apply HL; lia. }
  pose proof (val_bound _ _ _ L4) as B4. rewrite Bpow_add in B4.
  pose proof (val_bound m (prodp + Z.of_nat sz) h ltac:(apply (limbs_weaken _ _ _ _ _ HL); lia)) as B0.
  pose proof (val_bound _ _ _ LT) as BT. pose proof (Bpow_pos h) as Bp.
  set (c3 := c1 + s * c2 + c4). 
  assert (V5 : val m4 P sz + b * b * c3 = H + s * M + L + b * val m (prodp + Z.of_nat sz) h)
    by (unfold c3; lia).
  assert (Hc3 : 0 <= c3 < 4) by (unfold bit in *; unfold c3 in *; destruct negflg; nia).
  assert (Ec : lwrap (lwrap (c1 + s * c2) + c4) = c3).
  { unfold lwrap. rewrite Zplus_mod_idemp_l. apply Z.mod_small.
    fold c3. unfold B, BITS_PER_MP_LIMB; lia. }
  rewrite Ec. pose proof (val_bound _ _ _ L3) as B3.
  destruct (add_1_if m4 (P + Z.of_nat sz) h c3) as (F6 & L6 & V6); auto.
  { red; unfold B, BITS_PER_MP_LIMB; lia. }
  { rewrite T4. nia. }
  set (m6 := if negb (c3 =? 0) then _ else m4) in *. cbn zeta in *.
  split; [intros a A1 A2; rewrite F6, F4, F3, F2, F1 by lia; reflexivity|].
  replace (h + sz)%nat with (sz + h)%nat by lia.
  split; [apply limbs_app; [apply (limbs_frame _ _ _ _ _ _ F6 L4); lia | exact L6]|].
  split; [intros a Ha; rewrite F6, F4 by lia; apply L3; lia|].
  split; [rewrite (val_frame _ _ _ _ tspace sz F6) by lia;
          rewrite (val_frame _ _ _ _ tspace sz F4) by lia; exact V3|].
  rewrite val_app, V6, T4, (val_frame _ _ _ _ P sz F6) by lia. rewrite Bpow_add. nia.
Qed.
End FinishSpec.

Lemma abs_diff_spec m res op1 op2 n :
  limbs m op1 n -> limbs m op2 n -> disjoint res n op1 n -> disjoint res n op2 n ->
  let r := abs_diff m res op1 op2 n in
  frame m (fst r) res n /\ limbs (fst r) res n /\
  val (fst r) res n = Z.abs (val m op1 n - val m op2 n) /\
  snd r = (val m op1 n <? val m op2 n).
Proof.
  intros L1 L2 D1 D2. unfold abs_diff. rewrite mpn_cmp_spec by assumption.
  assert (O1 : asc_ok res op1 n) by (red in D1 |- *; lia).
  assert (O2 : asc_ok res op2 n) by (red in D2 |- *; lia).
  pose proof (val_bound _ _ _ L1). pose proof (val_bound _ _ _ L2).
  rewrite Z.geb_leb. destruct (Z.leb_spec 0 (Z.sgn (val m op1 n - val m op2 n))) as [E|E].
  - destruct (mpn_sub_n_post m res op1 op2 n L1 O1 L2 O2) as [F L C V].
    pose proof (val_bound _ _ _ L). cbn [fst snd].
    assert (val m op2 n <= val m op1 n) by lia.
    split; [exact F|]. split; [exact L|].
    split; [destruct C as [C|C]; rewrite C in V; lia|].
    symmetry; apply Z.ltb_ge; assumption.
  - destruct (mpn_sub_n_post m res op2 op1 n L2 O2 L1 O1) as [F L C V].
    pose proof (val_bound _ _ _ L). cbn [fst snd].
    assert (val m op1 n < val m op2 n) by lia.
    split; [exact F|]. split; [exact L|].
    split; [destruct C as [C|C]; rewrite C in V; lia|].
    symmetry; apply Z.ltb_lt; assumption.
Qed.

(** The identity the code comments give, with the sign of product M. *)
Lemma karatsuba_M U0 U1 V0 V1 :
  (if (if V1 <? V0 then U1 <? U0 else negb (U1 <? U0)) then -1 else 1)
    * (Z.abs (U1 - U0) * Z.abs (V1 - V0)) = (U1 - U0) * (V0 - V1).
Proof.
  destruct (Z.ltb_spec V1 V0), (Z.ltb_spec U1 U0); cbn [negb];
    rewrite ?(Z.abs_eq (U1 - U0)), ?(Z.abs_neq (U1 - U0)),
      ?(Z.abs_eq (V1 - V0)), ?(Z.abs_neq (V1 - V0)) by lia; ring.
Qed.

(** Products of numbers below [b ^ 2] stay below [b ^ 4]. *)
Lemma karatsuba_fits b U0 U1 V0 V1 : 0 <= U0 < b -> 0 <= U1 < b -> 0 <= V0 < b -> 0 <= V1 < b ->
  0 <= U1 * V1 + (U1 - U0) * (V0 - V1) + U0 * V0 /\
  U0 * V0 + b * (U1 * V1 + (U1 - U0) * (V0 - V1) + U0 * V0 + b * (U1 * V1)) =
    (U0 + b * U1) * (V0 + b * V1) /\
  (U0 + b * U1) * (V0 + b * V1) < b * b * (b * b).
Proof.
  intros. split; [|split; [ring|]].
  - replace (_ + _ + _) with (U1 * V0 + U0 * V1) by ring. nia.
  - assert (0 <= U0 + b * U1 < b * b) by nia. assert (0 <= V0 + b * V1 < b * b) by nia.
    apply Z.mul_lt_mono_nonneg; lia.
Qed.

Section Even.
Context (h : nat) (Hh : (0 < h)%nat).
#[local] Abbreviation sz := (h + h)%nat.
#[local] Abbreviation zh := (Z.of_nat h).
#[local] Abbreviation zs := (Z.of_nat (h + h)).
Context (m : mem) (p u v t : Z) (m4 : mem) (negflg : bool) (recL : mem -> mem).
Context (Lu : limbs m u sz) (Lv : limbs m v sz).
Context (Du : disjoint p (sz + sz) u sz) (Dv : disjoint p (sz + sz) v sz).
Context (Tu : disjoint t (sz + sz) u sz) (Tv : disjoint t (sz + sz) v sz).
Context (Dt : disjoint p (sz + sz) t (sz + sz)).
#[local] Abbreviation U0 := (val m u h).
#[local] Abbreviation U1 := (val m (u + zh) h).
#[local] Abbreviation V0 := (val m v h).
#[local] Abbreviation V1 := (val m (v + zh) h).

(** From product H and product M to the whole product. *)
Lemma karatsuba_tail :
  frame2 m m4 p (sz + sz) t (sz + sz) ->
  limbs m4 (p + zs) sz -> val m4 (p + zs) sz = U1 * V1 ->
  limbs m4 t sz ->
  (if negflg then -1 else 1) * val m4 t sz = (U1 - U0) * (V0 - V1) ->
  (forall m', frame2 m4 m' p (sz + sz) t (sz + sz) ->
    frame m' (recL m') t (sz + sz) /\ limbs (recL m') t sz /\ val (recL m') t sz = U0 * V0) ->
  let m' := karatsuba_low (karatsuba_mid recL negflg m4 p sz t) p sz t in
  frame2 m m' p (sz + sz) t (sz + sz) /\ limbs m' p (sz + sz) /\
  val m' p (sz + sz) = val m u sz * val m v sz.
Proof using Hh Lu Lv Du Dv Tu Tv Dt.
  intros F4 L4 V4 Lt Vt RL.
  destruct (limbs_split _ _ _ _ Lu) as [Lu0 Lu1].
  destruct (limbs_split _ _ _ _ Lv) as [Lv0 Lv1].
  destruct (karatsuba_fits (B ^ zh) U0 U1 V0 V1) as (Xp & Ei & Xf);
    try (apply val_bound; assumption).
  destruct (karatsuba_mid_spec h Hh p t Dt recL m4 (U1 * V1) (val m4 t sz) (U0 * V0) negflg)
    as (F5 & L5 & Lt5 & Vt5 & V5); auto; try (rewrite Vt; lia).
  rewrite Vt in V5. set (m5 := karatsuba_mid recL negflg m4 p sz t) in *. red in Dt.
  destruct (finish_low h Hh p t m5) as (F6 & L6 & V6); auto; [red; lia | |].
  { rewrite Vt5, V5. lia. }
  unfold karatsuba_low. rewrite half_double.
  destruct (mpn_add_n _ _ _ _ h) as [m6 c6]; cbn [fst snd] in *. cbn zeta.
  split; [|split; [exact L6|]].
  - intros a A1 A2. rewrite F6, F5, F4 by lia. reflexivity.
  - rewrite V6, Vt5, V5, !val_app. lia.
Qed.
End Even.

Lemma karatsuba_even_ok rec h : (0 < h)%nat -> mul_ok rec h ->
  mul_ok (fun m p u v n t => karatsuba_even rec m p u v n t) (h + h).
Proof.
  intros Hh R m p u v t _ Lu Lv Du Dv Tu Tv Dt. unfold karatsuba_even. rewrite half_double.
  destruct (limbs_split _ _ _ _ Lu) as [Lu0 Lu1].
  destruct (limbs_split _ _ _ _ Lv) as [Lv0 Lv1].
  pose proof Du as Du'; pose proof Dv as Dv'; pose proof Tu as Tu'; pose proof Tv as Tv';
    pose proof Dt as Dt'. red in Du', Dv', Tu', Tv', Dt'.
  destruct (R m (p + Z.of_nat (h + h)) (u + Z.of_nat h) (v + Z.of_nat h) t)
    as (F1 & L1 & V1); auto; try (red; lia).
  set (m1 := rec m _ _ _ h t) in *. cbn zeta in *.
  destruct (abs_diff_spec m1 p (u + Z.of_nat h) u h) as (F2 & L2 & V2 & N2);
    try (red; lia); try (apply (frame2_limbs _ _ _ _ _ _ _ _ F1); [assumption|red; lia|red; lia]).
  destruct (abs_diff m1 p _ u h) as [m2 neg2]; cbn [fst snd] in *.
  rewrite !(frame2_val _ _ _ _ _ _ _ _ F1) in V2, N2 by (red; lia).
  assert (K2 : frame2 m m2 p (h + h + (h + h)) t (h + h)).
  { intros a A1 A2. rewrite F2, F1 by lia. reflexivity. }
  destruct (abs_diff_spec m2 (p + Z.of_nat h) (v + Z.of_nat h) v h) as (F3 & L3 & V3 & N3);
    try (red; lia); try (apply (frame2_limbs _ _ _ _ _ _ _ _ K2); [assumption|red; lia|red; lia]).
  destruct (abs_diff m2 _ _ v h) as [m3 neg3]; cbn [fst snd] in *.
  rewrite !(frame2_val _ _ _ _ _ _ _ _ K2) in V3, N3 by (red; lia).
  destruct (R m3 t p (p + Z.of_nat h) (t + Z.of_nat (h + h))) as (F4 & L4 & V4);
    auto; try (red; lia).
  { apply (limbs_frame _ _ _ _ _ _ F3 L2); lia. }
  set (m4 := rec m3 t _ _ h _) in *. cbn zeta in *.
  rewrite (val_frame _ _ _ _ p h F3), V2, V3 in V4 by lia.
  assert (K4 : frame2 m m4 p (h + h + (h + h)) t (h + h + (h + h))).
  { intros a A1 A2. rewrite F4, F3, K2 by lia. reflexivity. }
  assert (E4 : forall a, p + Z.of_nat (h + h) <= a < p + Z.of_nat (h + h) + Z.of_nat (h + h) ->
      m4 a = m1 a) by (intros; rewrite F4, F3, F2 by lia; reflexivity).
  apply (karatsuba_tail h Hh m p u v t m4); auto.
  - intros a Ha. rewrite E4 by exact Ha. apply L1; exact Ha.
  - rewrite (val_ext m1 m4) by exact E4. exact V1.
  - rewrite V4, N2, N3. apply karatsuba_M.
  - intros m' F'.
    assert (K' : frame2 m m' p (h + h + (h + h)) t (h + h + (h + h))).
    { intros a A1 A2. rewrite F' by assumption. apply K4; assumption. }
    destruct (R m' t u v (t + Z.of_nat (h + h))) as (F5 & L5 & V5); try (red; lia); auto;
      try (apply (frame2_limbs _ _ _ _ _ _ _ _ K'); [assumption|red; lia|red; lia]).
    rewrite !(frame2_val _ _ _ _ _ _ _ _ K') in V5 by (red; lia).
    split; [|split; assumption].
    intros a A. apply F5; lia.
Qed.

Lemma karatsuba_odd_ok Q rec e : mul_ok_on Q rec e ->
  mul_ok_on Q (fun m p u v n t => karatsuba_odd rec m p u v n t) (S e).
Proof.
  intros R m p u v t Huv Lu Lv Du Dv Tu Tv Dt. unfold karatsuba_odd.
  rewrite Nat.sub_succ, Nat.sub_0_r. red in Du, Dv, Tu, Tv, Dt.
  assert (Lu' : limbs m u e) by (apply (limbs_weaken _ _ _ _ _ Lu); lia).
  assert (Lv' : limbs m v e) by (apply (limbs_weaken _ _ _ _ _ Lv); lia).
  destruct (R m p u v t) as (F1 & L1 & V1); auto; try (red; lia).
  set (m1 := rec m p u v e t) in *. cbn zeta in *.
  assert (E1 : m1 (v + Z.of_nat e) = m (v + Z.of_nat e)) by (apply F1; lia).
  destruct (kernel_store_carry _ _ _ _ _
    (mpn_addmul_1_post m1 (p + Z.of_nat e) u (m1 (v + Z.of_nat e)) e
       ltac:(apply (frame2_limbs _ _ _ _ _ _ _ _ F1 Lu'); red; lia) ltac:(red; lia)
       ltac:(rewrite E1; apply Lv; lia) ltac:(apply (limbs_weaken _ _ _ _ _ L1); lia)))
    as (F2 & L2 & V2). cbn zeta in *.
  destruct (mpn_addmul_1 m1 (p + Z.of_nat e) u e _) as [x1 c1]; cbn [fst snd] in *.
  replace (p + (Z.of_nat e + Z.of_nat e)) with (p + Z.of_nat e + Z.of_nat e) by lia.
  set (m2 := upd x1 _ c1) in *.
  assert (K2 : frame2 m m2 p (e + S e) t (e + e)).
  { intros a A1 A2. rewrite F2, F1 by lia. reflexivity. }
  assert (E2 : m2 (u + Z.of_nat e) = m (u + Z.of_nat e)) by (apply K2; lia).
  destruct (kernel_store_carry _ _ _ _ _
    (mpn_addmul_1_post m2 (p + Z.of_nat e) v (m2 (u + Z.of_nat e)) (S e)
       ltac:(apply (frame2_limbs _ _ _ _ _ _ _ _ K2 Lv); red; lia) ltac:(red; lia)
       ltac:(rewrite E2; apply Lu; lia) ltac:(apply (limbs_weaken _ _ _ _ _ L2); lia)))
    as (F3 & L3 & V3). cbn zeta in *.
  destruct (mpn_addmul_1 m2 (p + Z.of_nat e) v (S e) _) as [x2 c2]; cbn [fst snd] in *.
  replace (p + (Z.of_nat e + Z.of_nat (S e))) with (p + Z.of_nat e + Z.of_nat (S e)) by lia.
  set (m3 := upd x2 _ c2) in *.
  replace (S e + S e)%nat with (e + S (S e))%nat by lia.
  assert (Lo : forall a, p <= a < p + Z.of_nat e -> m3 a = m1 a)
    by (intros; rewrite F3, F2 by lia; reflexivity).
  split; [intros a A1 A2; rewrite F3, K2 by lia; reflexivity|]. split.
  - apply limbs_app; [|exact L3]. intros a Ha. rewrite Lo by exact Ha. apply L1; lia.
  - rewrite val_app, V3, V2, (val_ext m1 m3) by exact Lo. rewrite E1, E2.
    rewrite (frame2_val _ _ _ _ _ _ v (S e) K2) by (red; lia).
    rewrite (frame2_val _ _ _ _ _ _ u e F1) by (red; lia).
    rewrite val_app in V1. rewrite !val_S_r. nia.
Qed.

Lemma basecase_ok Q n : (0 < n)%nat -> mul_ok_on Q (fun m p u v n _ => impn_mul_n_basecase m p u v n) n.
Proof.
  intros Hn m p u v t _ Lu Lv Du Dv _ _ _. destruct n as [|k]; [lia|].
  destruct (mul_basecase_post u (S k) m p v k) as (F & L & V & _); auto.
  split; [|split; assumption]. intros a A _. now apply F.
Qed.

Lemma impn_mul_n_ok T fuel : (2 <= T)%nat ->
  forall n, (T <= n <= fuel)%nat -> mul_ok (impn_mul_n T fuel) n.
Proof.
  intros HT. induction fuel as [|f IH]; intros n Hn; [lia|].
  set (rec := fun m p u v n t => if Nat.ltb n T then impn_mul_n_basecase m p u v n
                                 else impn_mul_n T f m p u v n t).
  assert (R : forall k, (0 < k < n)%nat -> mul_ok rec k).
  { intros k Hk. unfold rec. destruct (Nat.ltb_spec k T) as [Hl|Hl].
    - intros m p u v t; cbn beta. rewrite (proj2 (Nat.ltb_lt k T) Hl).
      now apply (basecase_ok _ k ltac:(lia) m p u v t).
    - intros m p u v t; cbn beta. rewrite (proj2 (Nat.ltb_ge k T) Hl).
      now apply (IH k ltac:(lia) m p u v t). }
  destruct (Nat.odd n) eqn:Ho.
  - intros m p u v t. cbn [impn_mul_n]. rewrite Ho. fold rec.
    destruct n as [|e]; [lia|]. apply (karatsuba_odd_ok (fun _ _ => True) rec e). apply R. lia.
  - intros m p u v t. cbn [impn_mul_n]. rewrite Ho. fold rec.
    assert (Hev : Nat.Even n) by (apply Nat.even_spec; rewrite <- Nat.negb_odd, Ho; reflexivity).
    destruct Hev as [h Eh]. replace n with (h + h)%nat in * by lia.
    apply (karatsuba_even_ok rec h); [lia|]. apply R. lia.
Qed.

Lemma recurse_ok T n : (2 <= T)%nat -> (0 < n)%nat -> mul_ok (MPN_MUL_N_RECURSE T) n.
Proof.
  intros HT Hn m p u v t. unfold MPN_MUL_N_RECURSE. destruct (Nat.ltb_spec n T).
  - now apply (basecase_ok _ n Hn m p u v t).
  - apply (impn_mul_n_ok T n HT n); lia.
Qed.

(** ** Squaring *)

Definition sqr_ok (rec : mem -> Z -> Z -> nat -> Z -> mem) (n : nat) : Prop :=
  mul_ok_on eq (fun m p u _ n t => rec m p u n t) n.

Lemma karatsuba_sqr_even_ok rec h : (0 < h)%nat -> sqr_ok rec h ->
  sqr_ok (fun m p u n t => karatsuba_sqr_even rec m p u n t) (h + h).
Proof.
  intros Hh R m p u v t <- Lu _ Du _ Tu _ Dt. unfold karatsuba_sqr_even. rewrite half_double.
  destruct (limbs_split _ _ _ _ Lu) as [Lu0 Lu1].
  pose proof Du as Du'; pose proof Tu as Tu'; pose proof Dt as Dt'. red in Du', Tu', Dt'.
  destruct (R m (p + Z.of_nat (h + h)) (u + Z.of_nat h) (u + Z.of_nat h) t)
    as (F1 & L1 & V1); auto; try (red; lia).
  set (m1 := rec m _ _ h t) in *. cbn zeta in *.
  destruct (abs_diff_spec m1 p (u + Z.of_nat h) u h) as (F2 & L2 & V2 & N2);
    try (red; lia); try (apply (frame2_limbs _ _ _ _ _ _ _ _ F1); [assumption|red; lia|red; lia]).
  destruct (abs_diff m1 p _ u h) as [m2 neg2]; cbn [fst snd] in *.
  rewrite !(frame2_val _ _ _ _ _ _ _ _ F1) in V2, N2 by (red; lia).
  destruct (R m2 t p p (t + Z.of_nat (h + h))) as (F4 & L4 & V4); auto; try (red; lia).
  set (m4 := rec m2 t _ h _) in *. cbn zeta in *. rewrite V2 in V4.
  assert (K4 : frame2 m m4 p (h + h + (h + h)) t (h + h + (h + h))).
  { intros a A1 A2. rewrite F4, F2, F1 by lia. reflexivity. }
  assert (E4 : forall a, p + Z.of_nat (h + h) <= a < p + Z.of_nat (h + h) + Z.of_nat (h + h) ->
      m4 a = m1 a) by (intros; rewrite F4, F2 by lia; reflexivity).
  apply (karatsuba_tail h Hh m p u u t m4); auto.
  - intros a Ha. rewrite E4 by exact Ha. apply L1; exact Ha.
  - rewrite (val_ext m1 m4) by exact E4. exact V1.
  - rewrite V4. nia.
  - intros m' F'.
    assert (K' : frame2 m m' p (h + h + (h + h)) t (h + h + (h + h))).
    { intros a A1 A2. rewrite F' by assumption. apply K4; assumption. }
    destruct (R m' t u u (t + Z.of_nat (h + h))) as (F5 & L5 & V5); try (red; lia); auto;
      try (apply (frame2_limbs _ _ _ _ _ _ _ _ K'); [assumption|red; lia|red; lia]).
    rewrite !(frame2_val _ _ _ _ _ _ _ _ K') in V5 by (red; lia).
    split; [|split; assumption].
    intros a A. apply F5; lia.
Qed.

Lemma impn_sqr_n_ok T fuel : (2 <= T)%nat ->
  forall n, (T <= n <= fuel)%nat -> sqr_ok (impn_sqr_n T fuel) n.
Proof.
  intros HT. induction fuel as [|f IH]; intros n Hn; [lia|].
  set (rec := fun m p u n t => if Nat.ltb n T then impn_sqr_n_basecase m p u n
                               else impn_sqr_n T f m p u n t).
  assert (R : forall k, (0 < k < n)%nat -> sqr_ok rec k).
  { intros k Hk m p u v t. unfold rec. destruct (Nat.ltb_spec k T) as [Hl|Hl].
    - intros <-. now apply (basecase_ok eq k ltac:(lia) m p u u t).
    - apply (IH k ltac:(lia) m p u v t). }
  destruct (Nat.odd n) eqn:Ho; intros m p u v t <-; cbn [impn_sqr_n]; rewrite Ho; fold rec.
  - destruct n as [|e]; [lia|].
    apply (karatsuba_odd_ok eq (fun m p u _ n t => rec m p u n t) e); [|reflexivity].
    apply R. lia.
  - assert (Hev : Nat.Even n) by (apply Nat.even_spec; rewrite <- Nat.negb_odd, Ho; reflexivity).
    destruct Hev as [h Eh]. replace n with (h + h)%nat in * by lia.
    apply (karatsuba_sqr_even_ok rec h); [lia | | reflexivity]. apply R. lia.
Qed.

(** ** Unbalanced multiplication *)

(** Nothing below the stack pointer [sp] but the region at [p] differs. *)
Definition sframe (sp : Z) (m m' : mem) (p : Z) (n : nat) : Prop :=
  forall a, a < sp -> ~ (p <= a < p + Z.of_nat n) -> m' a = m a.

Lemma sframe_val sp m m' p n q k : sframe sp m m' p n ->
  q + Z.of_nat k <= sp -> disjoint p n q k -> val m' q k = val m q k.
Proof. intros F ? D. red in D. apply val_ext; intros; apply F; lia. Qed.

Lemma sframe_limbs sp m m' p n q k : sframe sp m m' p n -> limbs m q k ->
  q + Z.of_nat k <= sp -> disjoint p n q k -> limbs m' q k.
Proof. intros F L ? D a Ha. red in D. rewrite F by lia. apply L; lia. Qed.

(** The block at [tp] added to [prodp], whose limbs above [v] are not yet
    defined, when the sum fits. *)
Lemma add_block_spec m p tp v k : (0 < k)%nat ->
  limbs m p v -> limbs m tp (v + k) -> disjoint p (v + k) tp (v + k) ->
  val m p v + val m tp (v + k) < B ^ Z.of_nat (v + k) ->
  let r := mpn_add_n m p p tp v in
  let m' := fst (mpn_add_1 (fst r) (p + Z.of_nat v) (tp + Z.of_nat v) k (snd r)) in
  frame m m' p (v + k) /\ limbs m' p (v + k) /\
  val m' p (v + k) = val m p v + val m tp (v + k).
Proof.
  intros Hk Lp Lt D Hlt. destruct (limbs_split _ _ _ _ Lt) as [Lt0 Lt1]. red in D.
  pose proof (mpn_add_n_post m p p tp v Lp (or_introl (Z.le_refl _)) Lt0 ltac:(red; lia)) as K.
  destruct (mpn_add_n m p p tp v) as [m1 c]; cbn [fst snd]. pose proof K as [F _ C _].
  cbn [fst snd] in F, C. destruct k as [|k]; [lia|].
  pose proof (mpn_add_1_post m1 (p + Z.of_nat v) (tp + Z.of_nat v) k c
    ltac:(apply (limbs_frame _ _ _ _ _ _ F Lt1); lia) ltac:(red; lia) ltac:(auto with glibc)) as K2.
  rewrite (val_frame _ _ _ _ _ _ F) in K2 by lia.
  destruct (kernel_post_app _ _ _ _ _ _ _ _ _ _ (val m (tp + Z.of_nat v) (S k)) _ K
    ltac:(cbn [fst snd]; rewrite Z.mul_1_l; exact K2) eq_refl) as [F3 L3 C3 V3].
  split; [exact F3|]. split; [exact L3|].
  rewrite (val_app m tp) in Hlt |- *. pose proof (val_bound _ _ _ L3). pose proof (Bpow_pos (v + S k)).
  destruct C3 as [C3|C3]; rewrite C3 in V3; lia.
Qed.

(** A partial product plus a limb-array carry still fits. *)
Lemma block_fits A U V P Q : 0 <= A < Q -> 0 <= U < P -> 0 <= V < Q -> A + U * V < P * Q.
Proof.
  intros. assert (U * V <= (P - 1) * (Q - 1)) by (apply Z.mul_le_mono_nonneg; lia). lia.
Qed.

Section Blocks.
Context (T : nat) (HT : (2 <= T)%nat) (vp : Z) (vsize : nat) (Hv : (0 < vsize)%nat) (sp : Z).
#[local] Abbreviation zv := (Z.of_nat vsize).
#[local] Abbreviation tp := (sp + 2 * Z.of_nat vsize).

Lemma mul_blocks_spec fuel : forall m p u usize,
  (usize <= fuel)%nat -> limbs m u usize -> limbs m vp vsize -> limbs m p vsize ->
  u + Z.of_nat usize <= sp -> vp + zv <= sp -> p + Z.of_nat (vsize + usize) <= sp ->
  disjoint p (vsize + usize) u usize -> disjoint p (vsize + usize) vp vsize ->
  exists k us m', usize = (k * vsize + us)%nat /\ (us < vsize)%nat /\
    mul_blocks T fuel m p u usize vp vsize sp tp =
      (m', (p + Z.of_nat (k * vsize), u + Z.of_nat (k * vsize), us)) /\
    sframe sp m m' p (k * vsize + vsize) /\ limbs m' p (k * vsize + vsize) /\
    val m' p (k * vsize + vsize) = val m p vsize + val m u (k * vsize) * val m vp vsize.
Proof using HT Hv.
  induction fuel as [|f IH]; intros m p u usize Hf Lu Lv Lp Su Sv Sp Du Dv; cbn [mul_blocks].
  { exists 0%nat, 0%nat, m. replace usize with 0%nat by lia. cbn [Nat.mul Nat.add val].
    rewrite !Z.add_0_r. repeat split; try lia; auto; intros; try apply Lp; auto. }
  destruct (Nat.leb_spec vsize usize) as [Hle|Hlt].
  2:{ exists 0%nat, usize, m. cbn [Nat.mul Nat.add val].
      rewrite !Z.add_0_r. repeat split; try lia; auto; intros; try apply Lp; auto. }
  red in Du, Dv.
  assert (Lb : limbs m u vsize) by (apply (limbs_weaken _ _ _ _ _ Lu); lia).
  destruct (recurse_ok T vsize HT Hv m tp u vp sp I Lb Lv) as (F1 & L1 & V1); try (red; lia).
  set (m1 := MPN_MUL_N_RECURSE T m tp u vp vsize sp) in *. cbn zeta in *.
  destruct (add_block_spec m1 p tp vsize vsize Hv) as (F2 & L2 & V2); auto; try (red; lia).
  { apply (frame2_limbs _ _ _ _ _ _ _ _ F1 Lp); red; lia. }
  { rewrite V1, (frame2_val _ _ _ _ _ _ p vsize F1), Bpow_add by (red; lia).
    apply block_fits; apply val_bound; assumption. }
  destruct (mpn_add_n m1 p p tp vsize) as [x c]; cbn [fst snd] in *.
  set (m2 := fst (mpn_add_1 x _ _ vsize c)) in *. cbn zeta in *.
  rewrite V1, (frame2_val _ _ _ _ _ _ p vsize F1) in V2 by (red; lia).
  assert (K2 : sframe sp m m2 p (vsize + vsize)).
  { intros a A1 A2. rewrite F2, F1 by lia. reflexivity. }
  destruct (IH m2 (p + zv) (u + zv) (usize - vsize)%nat) as (k & us & m' & E1 & E2 & E3 & F & L & V);
    try lia; try (red; lia).
  { apply (sframe_limbs _ _ _ _ _ _ _ K2); [apply (limbs_weaken _ _ _ _ _ Lu)| | red]; lia. }
  { apply (sframe_limbs _ _ _ _ _ _ _ K2 Lv); [lia | red; lia]. }
  { apply (limbs_weaken _ _ _ _ _ L2); lia. }
  exists (S k), us, m'. split; [lia|]. split; [exact E2|].
  split; [rewrite E3; do 2 f_equal; f_equal; lia|].
  replace (S k * vsize + vsize)%nat with (vsize + (k * vsize + vsize))%nat by lia.
  assert (Lo : forall a, p <= a < p + zv -> m' a = m2 a) by (intros; apply F; lia).
  split; [intros a A1 A2; rewrite F, K2 by lia; reflexivity|].
  split; [apply limbs_app; [intros a Ha; rewrite Lo by exact Ha; apply L2; lia | exact L]|].
  rewrite val_app, V, (val_ext m2 m') by exact Lo.
  rewrite (sframe_val _ _ _ _ _ (u + zv) _ K2) by first [lia | red; lia].
  rewrite (sframe_val _ _ _ _ _ vp vsize K2) by first [lia | red; lia].
  rewrite val_app in V2. replace (S k * vsize)%nat with (vsize + k * vsize)%nat by lia.
  rewrite (val_app m u). lia.
Qed.
End Blocks.

(** The Karatsuba path of [mpn_mul] before the final recursion: the product by
    the [k + 1] full blocks of [u]. *)
Lemma mul_main_spec T m p u usize v vsize sp : (2 <= T)%nat -> (0 < vsize <= usize)%nat ->
  limbs m u usize -> limbs m v vsize ->
  u + Z.of_nat usize <= sp -> v + Z.of_nat vsize <= sp -> p + Z.of_nat (usize + vsize) <= sp ->
  disjoint p (usize + vsize) u usize -> disjoint p (usize + vsize) v vsize ->
  exists k us m2, usize = (k * vsize + vsize + us)%nat /\ (us < vsize)%nat /\
    mul_blocks T usize (MPN_MUL_N_RECURSE T m p u v vsize sp) (p + Z.of_nat vsize)
      (u + Z.of_nat vsize) (usize - vsize) v vsize sp (sp + 2 * Z.of_nat vsize) =
      (m2, (p + Z.of_nat (k * vsize + vsize), u + Z.of_nat (k * vsize + vsize), us)) /\
    sframe sp m m2 p (k * vsize + vsize + vsize) /\ limbs m2 p (k * vsize + vsize + vsize) /\
    val m2 p (k * vsize + vsize + vsize) = val m u (k * vsize + vsize) * val m v vsize.
Proof.
  intros HT Hs Lu Lv Su Sv Sp Du Dv. red in Du, Dv.
  assert (Lu' : limbs m u vsize) by (apply (limbs_weaken _ _ _ _ _ Lu); lia).
  destruct (recurse_ok T vsize HT ltac:(lia) m p u v sp I Lu' Lv) as (F1 & L1 & V1);
    try (red; lia).
  set (m1 := MPN_MUL_N_RECURSE T m p u v vsize sp) in *. cbn zeta in F1, L1, V1.
  assert (S1 : sframe sp m m1 p (vsize + vsize)) by (intros a A1 A2; apply F1; lia).
  destruct (mul_blocks_spec T HT v vsize ltac:(lia) sp usize m1 (p + Z.of_nat vsize)
      (u + Z.of_nat vsize) (usize - vsize)%nat)
    as (k & us & m2 & E1 & E2 & E3 & F2 & L2 & V2); try lia; try (red; lia).
  { apply (sframe_limbs _ _ _ _ _ _ _ S1); [apply (limbs_weaken _ _ _ _ _ Lu)| | red]; lia. }
  { apply (sframe_limbs _ _ _ _ _ _ _ S1 Lv); [lia | red; lia]. }
  { apply (limbs_weaken _ _ _ _ _ L1); lia. }
  exists k, us, m2. split; [lia|]. split; [exact E2|].
  split; [rewrite E3; do 2 f_equal; f_equal; lia|].
  replace (k * vsize + vsize + vsize)%nat with (vsize + (k * vsize + vsize))%nat by lia.
  assert (Lo : forall a, p <= a < p + Z.of_nat vsize -> m2 a = m1 a) by (intros; apply F2; lia).
  split; [intros a A1 A2; rewrite F2, S1 by lia; reflexivity|]. split.
  - apply limbs_app; [intros a Ha; rewrite Lo by exact Ha; apply L1; lia | exact L2].
  - rewrite val_app, V2, (val_ext m1 m2) by exact Lo.
    rewrite (sframe_val _ _ _ _ _ (u + Z.of_nat vsize) _ S1) by first [lia | red; lia].
    rewrite (sframe_val _ _ _ _ _ v vsize S1) by first [lia | red; lia].
    rewrite val_app in V1. rewrite (Nat.add_comm (k * vsize) vsize), (val_app m u). lia.
Qed.

(** [mpn_mul] on every path: operands below the stack pointer, product
    disjoint from them, [vsize <= usize]. *)
Lemma mpn_mul_spec T : (2 <= T)%nat -> forall fuel m p u usize v vsize sp,
  (vsize < fuel)%nat -> (0 < vsize <= usize)%nat ->
  limbs m u usize -> limbs m v vsize ->
  u + Z.of_nat usize <= sp -> v + Z.of_nat vsize <= sp -> p + Z.of_nat (usize + vsize) <= sp ->
  disjoint p (usize + vsize) u usize -> disjoint p (usize + vsize) v vsize ->
  let r := mpn_mul T fuel m p u usize v vsize sp in
  sframe sp m (fst r) p (usize + vsize) /\ limbs (fst r) p (usize + vsize) /\
  val (fst r) p (usize + vsize) = val m u usize * val m v vsize /\
  snd r = fst r (p + Z.of_nat (usize + vsize) - 1).
Proof.
  intros HT. induction fuel as [|f IH]; intros m p u usize v vsize sp Hf Hs Lu Lv Su Sv Sp Du Dv;
    [lia|]. cbn [mpn_mul].
  destruct (Nat.ltb_spec vsize T) as [Hsm|Hbig].
  { destruct vsize as [|k]; [lia|]. cbn [Nat.eqb].
    destruct (mul_basecase_post u usize m p v k) as (F & L & V & Top); auto.
    split; [intros a _ A; now apply F|]. auto. }
  destruct (mul_main_spec T m p u usize v vsize sp) as (k & us & m2 & E1 & E2 & E3 & S2 & L2 & V2);
    auto. rewrite E3. clear E3. cbn [fst snd]. red in Du, Dv.
  set (n := (k * vsize + vsize)%nat) in *.
  destruct (Nat.eqb_spec us 0) as [E0|E0].
  { replace usize with n by lia. split; [exact S2|]. split; [exact L2|].
    split; [exact V2|]. f_equal. lia. }
  assert (Lu2 : limbs m2 (u + Z.of_nat n) us).
  { apply (sframe_limbs _ _ _ _ _ _ _ S2); [apply (limbs_weaken _ _ _ _ _ Lu)| | red]; lia. }
  assert (Lv2 : limbs m2 v vsize) by (apply (sframe_limbs _ _ _ _ _ _ _ S2 Lv); [|red]; lia).
  destruct (IH m2 sp v vsize (u + Z.of_nat n) us (sp + 4 * Z.of_nat vsize))
    as (S3 & L3 & V3 & _); try lia; try (red; lia); auto.
  set (m3 := fst (mpn_mul T f m2 sp v vsize _ us _)) in *.
  assert (K3 : forall a, a < sp -> m3 a = m2 a) by (intros; apply S3; lia).
  assert (Lp3 : limbs m3 (p + Z.of_nat n) vsize).
  { intros a Ha. rewrite K3 by lia. apply L2; lia. }
  rewrite (sframe_val _ _ _ _ _ (u + Z.of_nat n) us S2) in V3 by first [lia | red; lia].
  rewrite (sframe_val _ _ _ _ _ v vsize S2) in V3 by first [lia | red; lia].
  assert (Vp3 : val m3 (p + Z.of_nat n) vsize = val m2 (p + Z.of_nat n) vsize)
    by (apply val_ext; intros; apply K3; lia).
  destruct (add_block_spec m3 (p + Z.of_nat n) sp vsize us) as (F4 & L4 & V4);
    auto; try lia; try (red; lia).
  { rewrite V3, Vp3, Bpow_add.
    rewrite (Z.mul_comm (val m v vsize)), (Z.mul_comm (B ^ Z.of_nat vsize)).
    apply block_fits; [|apply val_bound; apply (limbs_weaken _ _ _ _ _ Lu); lia
                       |now apply val_bound].
    apply val_bound. apply (limbs_weaken _ _ _ _ _ L2); lia. }
  destruct (mpn_add_n m3 _ _ sp vsize) as [x c]; cbn [fst snd] in *.
  set (m4 := fst (mpn_add_1 x _ _ us c)) in *. cbn zeta in *.
  replace (usize + vsize)%nat with (n + (vsize + us))%nat by lia.
  assert (Lo : forall a, p <= a < p + Z.of_nat n -> m4 a = m2 a)
    by (intros; rewrite F4, K3 by lia; reflexivity).
  split; [intros a A1 A2; rewrite F4, K3, S2 by lia; reflexivity|].
  split; [apply limbs_app; [intros a Ha; rewrite Lo by exact Ha; apply L2; lia | exact L4]|].
  split; [|f_equal; lia].
  rewrite val_app, V4, V3, Vp3, (val_ext m2 m4) by exact Lo.
  replace usize with (n + us)%nat by lia.
  rewrite val_app in V2. rewrite (val_app m u). lia.
Qed.

(** ** The promises of [mpn_mul_n] and [mpn_mul] *)

(** C2: [mpn_mul_n] stores the full product of two [n]-limb numbers, whichever
    of its four routines it chooses (schoolbook or Karatsuba, product or
    square when the operands are the same array), for every threshold the
    source accepts; besides the product only the [2 n] limbs of scratch space
    are written. *)
Theorem mpn_mul_n_correct T m p u v n sp :
  (2 <= T)%nat -> (0 < n)%nat -> limbs m u n -> limbs m v n ->
  disjoint p (n + n) u n -> disjoint p (n + n) v n ->
  disjoint sp (n + n) u n -> disjoint sp (n + n) v n -> disjoint p (n + n) sp (n + n) ->
  let m' := mpn_mul_n T m p u v n sp in
  frame2 m m' p (n + n) sp (n + n) /\ limbs m' p (n + n) /\
  val m' p (n + n) = val m u n * val m v n.
Proof.
  intros HT Hn Lu Lv Du Dv Su Sv Dp. unfold mpn_mul_n.
  destruct (Z.eqb_spec u v) as [->|Hne].
  - destruct (Nat.ltb_spec n T).
    + now apply (basecase_ok eq n Hn m p v v sp).
    + now apply (impn_sqr_n_ok T n HT n ltac:(lia) m p v v sp).
  - destruct (Nat.ltb_spec n T).
    + now apply (basecase_ok (fun _ _ => True) n Hn m p u v sp).
    + now apply (impn_mul_n_ok T n HT n ltac:(lia) m p u v sp).
Qed.

(** Operands of seven and five limbs at 0 and 20. *)
Definition wit_mul : mem :=
  put (put (fun _ => 0) 0 [B - 1; 2; B - 3; 4; 0; B - 1; 77]) 20 [B - 1; 1; 0; B - 1; 9].

(** Five limbs with threshold 2: an odd size, then an even one with a recursive
    call, then the base case. *)
Lemma mpn_mul_n_correct_witness :
  val (mpn_mul_n 2 wit_mul 100 0 20 5 200) 100 10 = val wit_mul 0 5 * val wit_mul 20 5 /\
  val (mpn_mul_n 2 wit_mul 100 0 0 5 200) 100 10 = val wit_mul 0 5 * val wit_mul 0 5.
Proof.
  split; (apply mpn_mul_n_correct; [lia | lia | now apply limbsb_ok | now apply limbsb_ok | ..]);
    unfold disjoint; lia.
Defined.

(** [mpn_mul] stores the [usize + vsize]-limb product of operands of
    different sizes and returns its most significant limb; below the stack
    pointer nothing but the product is written. *)
Lemma mpn_mul_correct T m p u usize v vsize sp :
  (2 <= T)%nat -> (0 < vsize <= usize)%nat -> limbs m u usize -> limbs m v vsize ->
  u + Z.of_nat usize <= sp -> v + Z.of_nat vsize <= sp -> p + Z.of_nat (usize + vsize) <= sp ->
  disjoint p (usize + vsize) u usize -> disjoint p (usize + vsize) v vsize ->
  let r := mpn_mul T (S vsize) m p u usize v vsize sp in
  sframe sp m (fst r) p (usize + vsize) /\ limbs (fst r) p (usize + vsize) /\
  val (fst r) p (usize + vsize) = val m u usize * val m v vsize /\
  snd r = val m u usize * val m v vsize / B ^ Z.of_nat (usize + vsize - 1).
Proof.
  intros HT Hs Lu Lv Su Sv Sp Du Dv.
  destruct (mpn_mul_spec T HT (S vsize) m p u usize v vsize sp) as (F & L & V & E); auto.
  cbn zeta. repeat (split; [assumption|]). rewrite E, <- V.
  set (m' := fst (mpn_mul T (S vsize) m p u usize v vsize sp)) in *.
  destruct (usize + vsize)%nat as [|k] eqn:Ek; [lia|].
  assert (Bk : 0 <= val m' p k < B ^ Z.of_nat k)
    by (apply val_bound; apply (limbs_weaken _ _ _ _ _ L); lia).
  replace (S k - 1)%nat with k by lia. replace (p + Z.of_nat (S k) - 1) with (p + Z.of_nat k) by lia.
  apply (Z.div_unique _ _ _ (val m' p k)); [now left|]. rewrite val_S_r. ring.
Qed.

(** Seven by three limbs with threshold 2: a full block, then a recursive call
    on the single limb left. *)
Lemma mpn_mul_correct_witness :
  val (fst (mpn_mul 2 4 wit_mul 100 0 7 20 3 200)) 100 10 = val wit_mul 0 7 * val wit_mul 20 3.
Proof.
  apply (mpn_mul_correct 2 wit_mul 100 0 7 20 3 200);
    [lia | lia | now apply limbsb_ok | now apply limbsb_ok | ..]; unfold disjoint; lia.
Defined.
