(* ===== verification/MpnDiv.v ===== *)
(** * Multiple-precision division
      (stdlib/divmod_1.c, stdlib/mod_1.c, stdlib/divrem.c) *)

From Stdlib Require Import ZArith List Lia Bool.
From S2P Require Import Prelude Mpn.
Import ListNotations.
#[local] Open Scope Z_scope.

(** ** Division by one limb

    The generic machine description has [UDIV_TIME = UMUL_TIME = 1], so the
    test [UDIV_TIME > 2 * UMUL_TIME + 6] is constantly false and the
    pre-inverted loops are not compiled; [UDIV_NEEDS_NORMALIZATION] is 1. *)

Definition stdc_leading_zeros (x : Z) : Z :=
  if x =? 0 then BITS_PER_MP_LIMB else BITS_PER_MP_LIMB - 1 - Z.log2 x.

(** [for (i = dividend_size - 2; i >= 0; i--)] of the normalising branch, with
    [k = i + 1] limbs left, and the division after it. *)
Fixpoint divmod_1_norm_loop (k : nat) (m : mem) (quot_ptr dividend_ptr : Z)
    (normalization_steps divisor_limb n1 r : Z) : mem * Z :=
  match k with
  | O =>
      let '(q, r) := udiv_qrnnd r (lwrap (Z.shiftl n1 normalization_steps)) divisor_limb in
      (upd m quot_ptr q, Z.shiftr r normalization_steps)
  | S i =>
      let n0 := m (dividend_ptr + Z.of_nat i) in
      let '(q, r) :=
        udiv_qrnnd r
          (Z.lor (lwrap (Z.shiftl n1 normalization_steps))
             (Z.shiftr n0 (BITS_PER_MP_LIMB - normalization_steps))) divisor_limb in
      divmod_1_norm_loop i (upd m (quot_ptr + Z.of_nat i + 1) q) quot_ptr dividend_ptr
        normalization_steps divisor_limb n0 r
  end.

(** [for (; i >= 0; i--)] of the other branch, with [k = i + 1] limbs left. *)
Fixpoint divmod_1_loop (k : nat) (m : mem) (quot_ptr dividend_ptr divisor_limb r : Z)
    : mem * Z :=
  match k with
  | O => (m, r)
  | S i =>
      let n0 := m (dividend_ptr + Z.of_nat i) in
      let '(q, r) := udiv_qrnnd r n0 divisor_limb in
      divmod_1_loop i (upd m (quot_ptr + Z.of_nat i) q) quot_ptr dividend_ptr divisor_limb r
  end.

Definition mpn_divmod_1 (m : mem) (quot_ptr dividend_ptr : Z) (dividend_size : nat)
    (divisor_limb : Z) : mem * Z :=
  match dividend_size with
  | O => (m, 0)
  | S i =>
      let normalization_steps := stdc_leading_zeros divisor_limb in
      if negb (normalization_steps =? 0) then
        let divisor_limb := lwrap (Z.shiftl divisor_limb normalization_steps) in
        let n1 := m (dividend_ptr + Z.of_nat i) in
        let r := Z.shiftr n1 (BITS_PER_MP_LIMB - normalization_steps) in
        divmod_1_norm_loop i m quot_ptr dividend_ptr normalization_steps divisor_limb n1 r
      else
        let r := m (dividend_ptr + Z.of_nat i) in
        if r >=? divisor_limb
        then divmod_1_loop (S i) m quot_ptr dividend_ptr divisor_limb 0
        else divmod_1_loop i (upd m (quot_ptr + Z.of_nat i) 0) quot_ptr dividend_ptr divisor_limb r
  end.

(** [mpn_mod_1] is the same without the stores. *)
Fixpoint mod_1_norm_loop (k : nat) (m : mem) (dividend_ptr : Z)
    (normalization_steps divisor_limb n1 r : Z) : Z :=
  match k with
  | O =>
      let '(_, r) := udiv_qrnnd r (lwrap (Z.shiftl n1 normalization_steps)) divisor_limb in
      Z.shiftr r normalization_steps
  | S i =>
      let n0 := m (dividend_ptr + Z.of_nat i) in
      let '(_, r) :=
        udiv_qrnnd r
          (Z.lor (lwrap (Z.shiftl n1 normalization_steps))
             (Z.shiftr n0 (BITS_PER_MP_LIMB - normalization_steps))) divisor_limb in
      mod_1_norm_loop i m dividend_ptr normalization_steps divisor_limb n0 r
  end.

Fixpoint mod_1_loop (k : nat) (m : mem) (dividend_ptr divisor_limb r : Z) : Z :=
  match k with
  | O => r
  | S i =>
      let n0 := m (dividend_ptr + Z.of_nat i) in
      let '(_, r) := udiv_qrnnd r n0 divisor_limb in
      mod_1_loop i m dividend_ptr divisor_limb r
  end.

Definition mpn_mod_1 (m : mem) (dividend_ptr : Z) (dividend_size : nat) (divisor_limb : Z) : Z :=
  match dividend_size with
  | O => 0
  | S i =>
      let normalization_steps := stdc_leading_zeros divisor_limb in
      if negb (normalization_steps =? 0) then
        let divisor_limb := lwrap (Z.shiftl divisor_limb normalization_steps) in
        let n1 := m (dividend_ptr + Z.of_nat i) in
        let r := Z.shiftr n1 (BITS_PER_MP_LIMB - normalization_steps) in
        mod_1_norm_loop i m dividend_ptr normalization_steps divisor_limb n1 r
      else
        let r := m (dividend_ptr + Z.of_nat i) in
        if r >=? divisor_limb
        then mod_1_loop (S i) m dividend_ptr divisor_limb 0
        else mod_1_loop i m dividend_ptr divisor_limb r
  end.

(** ** [mpn_divrem] *)

(** [case 1]: the two quotient loops; [low] gives the next dividend limb
    ([np[i]], then 0 for the fraction limbs). *)
Fixpoint divrem_1_loop (k : nat) (m : mem) (qp : Z) (low : mem -> Z -> Z) (d n1 : Z) : mem * Z :=
  match k with
  | O => (m, n1)
  | S i =>
      let '(q, n1) := udiv_qrnnd n1 (low m (Z.of_nat i)) d in
      divrem_1_loop i (upd m (qp + Z.of_nat i) q) qp low d n1
  end.

Definition divrem_1 (m : mem) (qp : Z) (qextra_limbs : nat) (np : Z) (nsize : nat) (dp : Z)
    : mem * Z :=
  let d := m dp in
  let n1 := m (np + Z.of_nat nsize - 1) in
  let '(n1, most_significant_q_limb) :=
    if n1 >=? d then (lwrap (n1 - d), 1) else (n1, 0) in
  let '(m, n1) :=
    divrem_1_loop (nsize - 1) m (qp + Z.of_nat qextra_limbs) (fun m i => m (np + i)) d n1 in
  let '(m, n1) := divrem_1_loop qextra_limbs m qp (fun _ _ => 0) d n1 in
  (upd m np n1, most_significant_q_limb).

(** [case 2]: the [q_test] loop; two rounds are enough for a normalised [d1]. *)
Fixpoint q_test (fuel : nat) (d1 d0 n2 q r n1 n0 : Z) : Z * Z * Z * Z :=
  match fuel with
  | O => (q, r, n1, n0)
  | S f =>
      if (n1 >? r) || ((n1 =? r) && (n0 >? n2)) then
        let q := lwrap (q - 1) in
        let '(n1, n0) := sub_ddmmss n1 n0 0 d0 in
        let r := lwrap (r + d1) in
        if r >=? d1 then q_test f d1 d0 n2 q r n1 n0 else (q, r, n1, n0)
      else (q, r, n1, n0)
  end.

(** One iteration of the [case 2] loop on the remainder [(n1, n0)] and the
    next limb [n2] ([np[0]]): the quotient limb and the new remainder. *)
Definition divrem_2_step (d1 d0 n1 n0 n2 : Z) : Z * (Z * Z) :=
  let correct q r n1 n0 :=
    let '(q, r, n1, n0) := q_test 3 d1 d0 n2 q r n1 n0 in
    (q, sub_ddmmss r n2 n1 n0) in
  if n1 =? d1 then
    let q := lwrap (Z.lnot 0) in
    let r := lwrap (n0 + d1) in
    if r <? d1 then (q, add_ssaaaa (lwrap (r - d0)) n2 0 d0)
    else correct q r (lwrap (d0 - b2z (negb (d0 =? 0)))) (lwrap (- d0))
  else
    let '(q, r) := udiv_qrnnd n1 n0 d1 in
    let '(n1, n0) := umul_ppmm d0 q in
    correct q r n1 n0.

(** The [case 2] loop over [i = k - 1 .. 0]. *)
Fixpoint divrem_2_loop (k : nat) (m : mem) (qp : Z) (qextra_limbs : nat) (np d1 d0 n1 n0 : Z)
    : mem * Z * Z * Z :=
  match k with
  | O => (m, np, n1, n0)
  | S i =>
      let '(m, np) :=
        if Nat.leb qextra_limbs i then (m, np - 1) else (upd m np 0, np) in
      let '(q, (n1, n0)) := divrem_2_step d1 d0 n1 n0 (m np) in
      divrem_2_loop i (upd m (qp + Z.of_nat i) q) qp qextra_limbs np d1 d0 n1 n0
  end.

Definition divrem_2 (m : mem) (qp : Z) (qextra_limbs : nat) (np : Z) (nsize : nat) (dp : Z)
    : mem * Z :=
  let np := np + Z.of_nat nsize - 2 in
  let d1 := m (dp + 1) in
  let d0 := m dp in
  let n1 := m (np + 1) in
  let n0 := m np in
  let '((n1, n0), most_significant_q_limb) :=
    if (n1 >=? d1) && ((n1 >? d1) || (n0 >=? d0))
    then (sub_ddmmss n1 n0 d1 d0, 1) else ((n1, n0), 0) in
  let '(m, np, n1, n0) :=
    divrem_2_loop (qextra_limbs + nsize - 2) m qp qextra_limbs np d1 d0 n1 n0 in
  (upd (upd m (np + 1) n1) np n0, most_significant_q_limb).

(** [default]: the quotient estimation loop; returns [q]. *)
Fixpoint q_estimate (fuel : nat) (dX d1 n2' q r n1 n0 : Z) : Z :=
  match fuel with
  | O => q
  | S f =>
      if (n1 >? r) || ((n1 =? r) && (n0 >? n2')) then
        let q := lwrap (q - 1) in
        let r := lwrap (r + dX) in
        if r <? dX then q
        else q_estimate f dX d1 n2' q r (lwrap (n1 - b2z (n0 <? d1))) (lwrap (n0 - d1))
      else q
  end.

(** One iteration of the default loop after [np] was moved: [n0] is the top
    limb of the last remainder, [n2] the limb above the window. *)
Definition divrem_step (m : mem) (np dp : Z) (dsize : nat) (dX d1 n0 n2 : Z) : mem * Z :=
  let z := Z.of_nat dsize in
  let q :=
    if n0 =? dX then lwrap (Z.lnot 0)
    else
      let '(q, r) := udiv_qrnnd n0 (m (np + z - 1)) dX in
      let '(n1, n0) := umul_ppmm d1 q in
      q_estimate 3 dX d1 (m (np + z - 2)) q r n1 n0 in
  let '(m, cy_limb) := mpn_submul_1 m np dp dsize q in
  if negb (n2 =? cy_limb)
  then (fst (mpn_add_n m np np dp dsize), lwrap (q - 1))
  else (m, q).

Fixpoint divrem_loop (k : nat) (m : mem) (qp : Z) (qextra_limbs : nat) (np dp : Z) (dsize : nat)
    (dX d1 n0 : Z) : mem * Z :=
  match k with
  | O => (m, np)
  | S i =>
      let z := Z.of_nat dsize in
      let '(m, np, n2) :=
        if Nat.leb qextra_limbs i then (m, np - 1, m (np - 1 + z))
        else
          let n2 := m (np + z - 1) in
          (upd (mpn_copy_decr m (np + 1) np dsize) np 0, np, n2) in
      let '(m, q) := divrem_step m np dp dsize dX d1 n0 n2 in
      let m := upd m (qp + Z.of_nat i) q in
      divrem_loop i m qp qextra_limbs np dp dsize dX d1 (m (np + z - 1))
  end.

Definition divrem_n (m : mem) (qp : Z) (qextra_limbs : nat) (np : Z) (nsize : nat)
    (dp : Z) (dsize : nat) : mem * Z :=
  let z := Z.of_nat dsize in
  let np := np + Z.of_nat nsize - z in
  let dX := m (dp + z - 1) in
  let d1 := m (dp + z - 2) in
  let n0 := m (np + z - 1) in
  let '(m, n0, most_significant_q_limb) :=
    if (n0 >=? dX) && ((n0 >? dX) || (mpn_cmp m np dp (dsize - 1) >=? 0))
    then let m := fst (mpn_sub_n m np np dp dsize) in (m, m (np + z - 1), 1)
    else (m, n0, 0) in
  let '(m, _) := divrem_loop (qextra_limbs + nsize - dsize) m qp qextra_limbs np dp dsize dX d1 n0 in
  (m, most_significant_q_limb).

(** [mpn_divrem]; [None] is the division by zero of [case 0]. *)
Definition mpn_divrem (m : mem) (qp : Z) (qextra_limbs : nat) (np : Z) (nsize : nat)
    (dp : Z) (dsize : nat) : option (mem * Z) :=
  match dsize with
  | 0%nat => None
  | 1%nat => Some (divrem_1 m qp qextra_limbs np nsize dp)
  | 2%nat => Some (divrem_2 m qp qextra_limbs np nsize dp)
  | _ => Some (divrem_n m qp qextra_limbs np nsize dp dsize)
  end.

(** ** Correctness of division by one limb *)

Lemma normalized_limb d : normalized d -> limb d.
Proof. intros [? ?]; red; pose proof B_gt_1; lia. Qed.

(** Storing above the limbs still to be read. *)
Lemma val_upd_above m a v p k : ~ (p <= a < p + Z.of_nat k) -> val (upd m a v) p k = val m p k.
Proof. intros; apply val_ext; intros; apply upd_ne; lia. Qed.

Lemma limbs_upd_above m a v p k :
  limbs m p k -> ~ (p <= a < p + Z.of_nat k) -> limbs (upd m a v) p k.
Proof. intros L ? x Hx. rewrite upd_ne by lia. apply L; lia. Qed.

(** A quotient limb stored at [q + k] on top of a result for [k] limbs. *)
Lemma quot_top m m' q k x : limb x -> frame (upd m (q + Z.of_nat k) x) m' q k -> limbs m' q k ->
  frame m m' q (S k) /\ limbs m' q (S k) /\
  val m' q (S k) = val m' q k + B ^ Z.of_nat k * x.
Proof.
  intros Lx F L. assert (E : m' (q + Z.of_nat k) = x) by (rewrite F by lia; apply upd_eq).
  split; [apply (frame_upd_l _ _ _ _ _ _ _ _ F); lia|]. split.
  - intros a Ha. destruct (Z.eq_dec a (q + Z.of_nat k)) as [->|]; [rewrite E; exact Lx|].
    apply L; lia.
  - rewrite val_S_r, E. reflexivity.
Qed.

Lemma divmod_1_loop_spec d : normalized d -> forall k m quot dv r,
  0 <= r < d -> limbs m dv k -> (dv <= quot \/ quot + Z.of_nat k <= dv) ->
  let x := divmod_1_loop k m quot dv d r in
  frame m (fst x) quot k /\ limbs (fst x) quot k /\ 0 <= snd x < d /\
  val (fst x) quot k * d + snd x = r * B ^ Z.of_nat k + val m dv k.
Proof.
  intros Hd. induction k as [|i IH]; intros m quot dv r Hr L O; cbn [divmod_1_loop].
  { cbn [fst snd val]. rewrite Z.pow_0_r. split; [apply frame_refl|].
    split; [intros ? ?; lia|]. lia. }
  destruct (udiv_qrnnd_spec r (m (dv + Z.of_nat i)) d Hd Hr) as (E & Hr' & Lq); [apply L; lia|].
  destruct (udiv_qrnnd r (m (dv + Z.of_nat i)) d) as [q r']; cbn [fst snd] in *.
  destruct (IH (upd m (quot + Z.of_nat i) q) quot dv r' Hr') as (F & L' & R & V); [|lia|].
  { apply limbs_upd_above; [apply (limbs_weaken _ _ _ _ _ L); lia | lia]. }
  destruct (quot_top _ _ _ _ _ Lq F L') as (F2 & L2 & V2). cbn zeta in *.
  split; [exact F2|]. split; [exact L2|]. split; [exact R|].
  rewrite V2, val_S_r, Bpow_S. rewrite val_upd_above in V by lia. nia.
Qed.

Lemma divmod_1_norm_loop_spec D s : normalized D -> 0 < s < 64 -> forall k m quot dv n1 r,
  0 <= r < D -> limb n1 -> limbs m dv k -> (dv <= quot \/ quot + Z.of_nat (S k) <= dv) ->
  let x := divmod_1_norm_loop k m quot dv s D n1 r in
  frame m (fst x) quot (S k) /\ limbs (fst x) quot (S k) /\
  exists r', 0 <= r' < D /\ snd x = Z.shiftr r' s /\
  val (fst x) quot (S k) * D + r' =
    r * B ^ Z.of_nat (S k) + lwrap (Z.shiftl n1 s) * B ^ Z.of_nat k + val m dv k * 2 ^ s.
Proof.
  intros HD Hs. induction k as [|i IH]; intros m quot dv n1 r Hr L1 L O; cbn [divmod_1_norm_loop].
  { destruct (udiv_qrnnd_spec r (lwrap (Z.shiftl n1 s)) D HD Hr) as (E & Hr' & Lq);
      [apply lwrap_limb|].
    destruct (udiv_qrnnd r _ D) as [q r']; cbn [fst snd] in *.
    split; [apply frame_upd; lia|].
    split; [intros a Ha; replace a with quot by lia; rewrite upd_eq; exact Lq|].
    exists r'. split; [exact Hr'|]. split; [reflexivity|].
    cbn [val]. rewrite upd_eq, Bpow_S, Z.pow_0_r. lia. }
  set (n0 := m (dv + Z.of_nat i)). assert (L0 : limb n0) by (apply L; lia).
  unfold BITS_PER_MP_LIMB.
  destruct (shift_or n1 n0 s (64 - s)) as [Eo Lo]; auto; try lia. rewrite Eo.
  destruct (shift_split n0 s (64 - s)) as (_ & _ & Es); auto; try lia.
  destruct (udiv_qrnnd_spec r _ D HD Hr Lo) as (E & Hr' & Lq).
  destruct (udiv_qrnnd r _ D) as [q r']; cbn [fst snd] in *.
  replace (quot + Z.of_nat i + 1) with (quot + Z.of_nat (S i)) by lia.
  destruct (IH (upd m (quot + Z.of_nat (S i)) q) quot dv n0 r' Hr' L0)
    as (F & L' & rf & Rf & Ef & V); [|lia|].
  { apply limbs_upd_above; [apply (limbs_weaken _ _ _ _ _ L); lia | lia]. }
  destruct (quot_top _ _ _ _ _ Lq F L') as (F2 & L2 & V2). cbn zeta in *.
  split; [exact F2|]. split; [exact L2|]. exists rf. split; [exact Rf|]. split; [exact Ef|].
  rewrite V2, (val_S_r m), (Bpow_S (S i)), Z.mul_add_distr_r. fold n0.
  rewrite val_upd_above in V by lia. rewrite (Bpow_S i) in *. nia.
Qed.

Lemma stdc_leading_zeros_spec d : 0 < d < B ->
  let s := stdc_leading_zeros d in 0 <= s < 64 /\ normalized (d * 2 ^ s).
Proof.
  intros Hd. unfold stdc_leading_zeros, BITS_PER_MP_LIMB.
  destruct (Z.eqb_spec d 0); [lia|]. cbn zeta.
  pose proof (Z.log2_spec d ltac:(lia)) as [H1 H2]. pose proof (Z.log2_nonneg d).
  assert (Z.log2 d < 64).
  { apply (Z.pow_lt_mono_r_iff 2); [lia|lia|]. change (2 ^ 64) with B. lia. }
  split; [lia|]. set (s := 64 - 1 - Z.log2 d).
  assert (E : 2 ^ Z.log2 d * 2 ^ s = 2 ^ 63) by (rewrite <- Z.pow_add_r by lia; f_equal; lia).
  assert (EB : 2 * 2 ^ 63 = B) by reflexivity.
  assert (0 < 2 ^ s) by (apply Z.pow_pos_nonneg; lia).
  rewrite Z.pow_succ_r in H2 by lia.
  red. nia.
Qed.

(** Undoing the normalisation of the remainder. *)
Lemma denormalize q d r s N : 0 <= s -> 0 < d ->
  q * (d * 2 ^ s) + r = N * 2 ^ s -> 0 <= r < d * 2 ^ s ->
  q * d + Z.shiftr r s = N /\ 0 <= Z.shiftr r s < d.
Proof.
  intros Hs Hd E Hr. assert (0 < 2 ^ s) by (apply Z.pow_pos_nonneg; lia).
  assert (Er : r = (N - q * d) * 2 ^ s) by nia.
  rewrite Z.shiftr_div_pow2 by lia. rewrite Er, Z.div_mul by lia. nia.
Qed.

Lemma mpn_divmod_1_spec m quot dv n d : 0 < d < B -> limbs m dv (S n) ->
  (dv <= quot \/ quot + Z.of_nat (S n) <= dv) ->
  let x := mpn_divmod_1 m quot dv (S n) d in
  frame m (fst x) quot (S n) /\ limbs (fst x) quot (S n) /\ 0 <= snd x < d /\
  val (fst x) quot (S n) * d + snd x = val m dv (S n).
Proof.
  intros Hd L O. unfold mpn_divmod_1.
  destruct (stdc_leading_zeros_spec d Hd) as [Hs HN].
  set (s := stdc_leading_zeros d) in *. cbn zeta in *.
  assert (Lt : limb (m (dv + Z.of_nat n))) by (apply L; lia).
  assert (L' : limbs m dv n) by (apply (limbs_weaken _ _ _ _ _ L); lia).
  destruct (Z.eqb_spec s 0) as [E0|E0]; cbn [negb].
  - rewrite E0, Z.pow_0_r, Z.mul_1_r in HN. rewrite Z.geb_leb.
    destruct (Z.leb_spec d (m (dv + Z.of_nat n))) as [Hge|Hlt].
    + destruct (divmod_1_loop_spec d HN (S n) m quot dv 0) as (F & L2 & R & V); auto; lia.
    + destruct (divmod_1_loop_spec d HN n (upd m (quot + Z.of_nat n) 0) quot dv (m (dv + Z.of_nat n)))
        as (F & L2 & R & V); [red in Lt; lia | apply limbs_upd_above; auto; lia | lia |].
      destruct (quot_top _ _ _ _ _ limb_0 F L2) as (F2 & L3 & V2).
      split; [exact F2|]. split; [exact L3|]. split; [exact R|].
      rewrite V2, val_S_r. rewrite val_upd_above in V by lia. lia.
  - rewrite Z.shiftl_mul_pow2 by lia. rewrite (lwrap_small (d * 2 ^ s)) by now apply normalized_limb.
    destruct (shift_split (m (dv + Z.of_nat n)) s (64 - s)) as (_ & Rr & Es); auto; try lia.
    change (BITS_PER_MP_LIMB - s) with (64 - s).
    destruct (divmod_1_norm_loop_spec _ s HN ltac:(lia) n m quot dv (m (dv + Z.of_nat n))
       (Z.shiftr (m (dv + Z.of_nat n)) (64 - s))) as (F & L2 & r' & Rr' & Er & V); auto.
    { nia. }
    destruct (denormalize _ d r' s (val m dv (S n)) ltac:(lia) ltac:(lia) ltac:(
      rewrite V, val_S_r, Bpow_S; nia) Rr') as [E1 E2].
    split; [exact F|]. split; [exact L2|]. rewrite Er. split; [exact E2 | exact E1].
Qed.

Lemma mod_1_loop_spec d : normalized d -> forall k m dv r, 0 <= r < d -> limbs m dv k ->
  let x := mod_1_loop k m dv d r in
  0 <= x < d /\ exists q, q * d + x = r * B ^ Z.of_nat k + val m dv k.
Proof.
  intros Hd. induction k as [|i IH]; intros m dv r Hr L; cbn [mod_1_loop].
  { split; [exact Hr|]. exists 0. cbn [val]. rewrite Z.pow_0_r. ring. }
  destruct (udiv_qrnnd_spec r (m (dv + Z.of_nat i)) d Hd Hr) as (E & Hr' & Lq); [apply L; lia|].
  destruct (udiv_qrnnd r (m (dv + Z.of_nat i)) d) as [q r']; cbn [fst snd] in *.
  destruct (IH m dv r' Hr') as (R & q' & V); [apply (limbs_weaken _ _ _ _ _ L); lia|].
  split; [exact R|]. exists (q' + q * B ^ Z.of_nat i). rewrite val_S_r, Bpow_S. nia.
Qed.

Lemma mod_1_norm_loop_spec D s : normalized D -> 0 < s < 64 -> forall k m dv n1 r,
  0 <= r < D -> limb n1 -> limbs m dv k ->
  exists r' q, 0 <= r' < D /\ mod_1_norm_loop k m dv s D n1 r = Z.shiftr r' s /\
  q * D + r' =
    r * B ^ Z.of_nat (S k) + lwrap (Z.shiftl n1 s) * B ^ Z.of_nat k + val m dv k * 2 ^ s.
Proof.
  intros HD Hs. induction k as [|i IH]; intros m dv n1 r Hr L1 L; cbn [mod_1_norm_loop].
  { destruct (udiv_qrnnd_spec r (lwrap (Z.shiftl n1 s)) D HD Hr) as (E & Hr' & Lq);
      [apply lwrap_limb|].
    destruct (udiv_qrnnd r _ D) as [q r']; cbn [fst snd] in *.
    exists r', q. split; [exact Hr'|]. split; [reflexivity|].
    cbn [val]. rewrite Bpow_S, Z.pow_0_r. lia. }
  set (n0 := m (dv + Z.of_nat i)). assert (L0 : limb n0) by (apply L; lia).
  unfold BITS_PER_MP_LIMB.
  destruct (shift_or n1 n0 s (64 - s)) as [Eo Lo]; auto; try lia. rewrite Eo.
  destruct (shift_split n0 s (64 - s)) as (_ & _ & Es); auto; try lia.
  destruct (udiv_qrnnd_spec r _ D HD Hr Lo) as (E & Hr' & Lq).
  destruct (udiv_qrnnd r _ D) as [q r']; cbn [fst snd] in *.
  destruct (IH m dv n0 r' Hr' L0) as (rf & qf & Rf & Ef & V);
    [apply (limbs_weaken _ _ _ _ _ L); lia|].
  exists rf, (qf + q * B ^ Z.of_nat (S i)). split; [exact Rf|]. split; [exact Ef|].
  rewrite (val_S_r m), (Bpow_S (S i)), Z.mul_add_distr_r. fold n0. rewrite (Bpow_S i) in *. nia.
Qed.

Lemma mpn_mod_1_spec m dv n d : 0 < d < B -> limbs m dv n ->
  mpn_mod_1 m dv n d = val m dv n mod d.
Proof.
  intros Hd L. destruct n as [|n]; [cbn [mpn_mod_1 val]; now rewrite Z.mod_0_l by lia|].
  unfold mpn_mod_1. destruct (stdc_leading_zeros_spec d Hd) as [Hs HN].
  set (s := stdc_leading_zeros d) in *. cbn zeta in *.
  assert (Lt : limb (m (dv + Z.of_nat n))) by (apply L; lia).
  assert (L' : limbs m dv n) by (apply (limbs_weaken _ _ _ _ _ L); lia).
  destruct (Z.eqb_spec s 0) as [E0|E0]; cbn [negb].
  - rewrite E0, Z.pow_0_r, Z.mul_1_r in HN. rewrite Z.geb_leb.
    destruct (Z.leb_spec d (m (dv + Z.of_nat n))) as [Hge|Hlt].
    + destruct (mod_1_loop_spec d HN (S n) m dv 0) as (R & q & V); auto; [lia|].
      apply (Z.mod_unique _ _ q); lia.
    + destruct (mod_1_loop_spec d HN n m dv (m (dv + Z.of_nat n))) as (R & q & V); auto;
        [red in Lt; lia|].
      apply (Z.mod_unique _ _ q); [lia|]. rewrite val_S_r. lia.
  - rewrite Z.shiftl_mul_pow2 by lia. rewrite (lwrap_small (d * 2 ^ s)) by now apply normalized_limb.
    destruct (shift_split (m (dv + Z.of_nat n)) s (64 - s)) as (_ & Rr & Es); auto; try lia.
    change (BITS_PER_MP_LIMB - s) with (64 - s).
    destruct (mod_1_norm_loop_spec _ s HN ltac:(lia) n m dv (m (dv + Z.of_nat n))
       (Z.shiftr (m (dv + Z.of_nat n)) (64 - s))) as (r' & q & Rr' & Er & V); auto.
    { nia. }
    destruct (denormalize q d r' s (val m dv (S n)) ltac:(lia) ltac:(lia) ltac:(
      rewrite V, val_S_r, Bpow_S; nia) Rr') as [E1 E2].
    rewrite Er. apply (Z.mod_unique _ _ q); lia.
Qed.

(** ** Two-limb arithmetic *)

Lemma u128_from_hl_spec h l : limb h -> limb l -> u128_from_hl h l = h * B + l.
Proof.
  intros Lh Ll. unfold u128_from_hl. rewrite Z.shiftl_mul_pow2 by lia.
  change (2 ^ 64) with B. rewrite wrap_small.
  - exact (lor_add_low h l 64 ltac:(lia) Ll).
  - change (2 ^ 128) with (B * B). red in Lh. pose proof B_gt_1. nia.
Qed.

(** A 128-bit value split into its limbs. *)
Lemma u128_split x : 0 <= x < B * B ->
  limb (u128_high x) /\ limb (u128_low x) /\ u128_high x * B + u128_low x = x.
Proof.
  intros Hx. unfold u128_high, u128_low. rewrite Z.shiftr_div_pow2 by lia.
  change (2 ^ 64) with B. pose proof B_gt_1.
  assert (limb (x / B)).
  { split; [apply Z.div_pos; lia | apply Z.div_lt_upper_bound; lia]. }
  rewrite (lwrap_small (x / B)) by assumption. split; [assumption|].
  split; [apply lwrap_limb|]. unfold lwrap. pose proof (Z_div_mod_eq_full x B). lia.
Qed.

Lemma sub_ddmmss_spec ah al bh bl : limb ah -> limb al -> limb bh -> limb bl ->
  let r := sub_ddmmss ah al bh bl in
  limb (fst r) /\ limb (snd r) /\
  fst r * B + snd r = (ah * B + al - (bh * B + bl)) mod (B * B).
Proof.
  intros ? ? ? ?. unfold sub_ddmmss. rewrite !u128_from_hl_spec by assumption.
  unfold u128_sub, wrap. change (2 ^ 128) with (B * B). cbn [fst snd].
  apply u128_split. apply Z.mod_pos_bound. pose proof B_gt_1; lia.
Qed.

Lemma add_ssaaaa_spec ah al bh bl : limb ah -> limb al -> limb bh -> limb bl ->
  let r := add_ssaaaa ah al bh bl in
  limb (fst r) /\ limb (snd r) /\
  fst r * B + snd r = (ah * B + al + (bh * B + bl)) mod (B * B).
Proof.
  intros ? ? ? ?. unfold add_ssaaaa. rewrite !u128_from_hl_spec by assumption.
  unfold u128_add, wrap. change (2 ^ 128) with (B * B). cbn [fst snd].
  apply u128_split. apply Z.mod_pos_bound. pose proof B_gt_1; lia.
Qed.

(** The lexicographic test on limb pairs is a comparison of the numbers. *)
Lemma pair_gt n1 n0 r x : limb n1 -> limb n0 -> limb r -> limb x ->
  ((n1 >? r) || ((n1 =? r) && (n0 >? x)))%bool = (n1 * B + n0 >? r * B + x).
Proof.
  unfold limb. intros. rewrite !Z.gtb_ltb.
  destruct (Z.ltb_spec r n1), (Z.eqb_spec n1 r), (Z.ltb_spec x n0),
    (Z.ltb_spec (r * B + x) (n1 * B + n0)); cbn; try reflexivity; nia.
Qed.

(** A wrapped sum of two limbs is below an addend exactly when it overflows. *)
Lemma lwrap_overflow r d : limb r -> limb d -> 0 < d ->
  (lwrap (r + d) <? d) = (B <=? r + d) /\ (r + d < B -> lwrap (r + d) = r + d).
Proof.
  unfold limb. intros Hr Hd H0. destruct (Z.leb_spec B (r + d)) as [E|E].
  - assert (lwrap (r + d) = r + d - B) as -> by (symmetry; apply (Z.mod_unique _ _ 1); lia).
    split; [apply Z.ltb_lt; lia | lia].
  - rewrite lwrap_small by (red; lia). split; [apply Z.ltb_ge; lia | auto].
Qed.

(** ** Quotient estimation

    [D] is the two-limb divisor [(d1, d0)] (in the default case its two top
    limbs), [W] the three-limb dividend [(q * d1 + r) * B + x]. *)
Section Estimate.
Context (d1 d0 x : Z) (Hd1 : normalized d1) (L0 : limb d0) (Lx : limb x).
#[local] Abbreviation D := (d1 * B + d0).

(** What is known about [q], [r] and the product [(n1, n0) = q * d0]. *)
Record est (W q r n1 n0 : Z) : Prop := {
  est_q : limb q; est_r : limb r; est_n1 : limb n1; est_n0 : limb n0;
  est_prod : n1 * B + n0 = q * d0;
  est_W : W = (q * d1 + r) * B + x;
  est_up : W < (q + 1) * D
}.

(** The step both loops take while [q] is too large. *)
Lemma est_step W q r n1 n0 : est W q r n1 n0 -> n1 * B + n0 > r * B + x ->
  0 < q /\ W < q * D /\
  (B <= r + d1 -> (q - 1) * D <= W).
Proof using Hd1 L0 Lx.
  intros [Hq Hr H1 H0 Ep Ew Eu] Hgt. pose proof B_gt_1. pose proof Hd1 as [Hn Hn'].
  unfold limb in *. assert (0 < q) by nia.
  split; [assumption|]. split; [nia|].
  intros Hov. assert ((q - 1) * d0 < B * B) by nia. nia.
Qed.

Lemma q_estimate_spec W f : forall q r n1 n0, est W q r n1 n0 -> B <= r + Z.of_nat f * d1 ->
  let q' := q_estimate f d1 d0 x q r n1 n0 in
  limb q' /\ q' * D <= W < (q' + 1) * D.
Proof using Hd1 L0 Lx.
  induction f as [|f IH]; intros q r n1 n0 E Hf; cbn [q_estimate].
  { destruct E as [_ Hr]. red in Hr. lia. }
  pose proof E as [Hq Hr H1 H0 Ep Ew Eu]. rewrite pair_gt by assumption.
  rewrite Z.gtb_ltb. destruct (Z.ltb_spec (r * B + x) (n1 * B + n0)) as [Hgt|Hle].
  2:{ cbn zeta. split; [exact Hq|]. split; [nia | exact Eu]. }
  destruct (est_step _ _ _ _ _ E ltac:(lia)) as (Hq0 & Hlt & Hov).
  rewrite (lwrap_small (q - 1)) by (red in Hq |- *; lia).
  pose proof (normalized_limb _ Hd1) as Ld. pose proof Hd1 as [Hn Hn'].
  destruct (lwrap_overflow r d1 Hr Ld) as [-> Hsmall]; [pose proof B_gt_1; lia|].
  destruct (Z.leb_spec B (r + d1)) as [HB|HB].
  { cbn zeta. split; [red in Hq |- *; lia|]. split; [now apply Hov | lia]. }
  rewrite Hsmall by exact HB. apply IH; [|lia].
  assert (Es : exists b, (b = 0 \/ b = 1 /\ n0 < d0) /\ b2z (n0 <? d0) = b /\
      lwrap (n0 - d0) = n0 - d0 + B * b).
  { destruct (Z.ltb_spec n0 d0); cbn [b2z]; [exists 1 | exists 0]; repeat split; auto;
      unfold limb in *.
    - symmetry. apply (Z.mod_unique _ _ (-1)); lia.
    - rewrite lwrap_small by (red; lia). lia. }
  destruct Es as (b & Hb & -> & Eb).
  assert (d0 <= q * d0) by (unfold limb in *; nia).
  assert (Ln1 : limb (n1 - b)) by (unfold limb in *; nia).
  rewrite (lwrap_small (n1 - b)) by exact Ln1.
  constructor; auto using lwrap_limb; unfold limb in *; nia.
Qed.

Lemma q_test_spec W f : forall q r n1 n0, est W q r n1 n0 -> B <= r + Z.of_nat f * d1 ->
  let '(q', r', h, l) := q_test f d1 d0 x q r n1 n0 in
  limb q' /\ limb r' /\ limb h /\ limb l /\ h * B + l = q' * d0 /\
  q' * D <= W < (q' + 1) * D /\
  exists rt, W = (q' * d1 + rt) * B + x /\ r' = lwrap rt.
Proof using Hd1 L0 Lx.
  induction f as [|f IH]; intros q r n1 n0 E Hf; cbn [q_test].
  { destruct E as [_ Hr]. red in Hr. lia. }
  pose proof E as [Hq Hr H1 H0 Ep Ew Eu]. rewrite pair_gt by assumption.
  rewrite Z.gtb_ltb. destruct (Z.ltb_spec (r * B + x) (n1 * B + n0)) as [Hgt|Hle].
  2:{ repeat (split; [assumption|]). split; [split; [nia | exact Eu]|].
      exists r. split; [exact Ew | now rewrite lwrap_small]. }
  destruct (est_step _ _ _ _ _ E ltac:(lia)) as (Hq0 & Hlt & Hov).
  rewrite (lwrap_small (q - 1)) by (red in Hq |- *; lia).
  destruct (sub_ddmmss_spec n1 n0 0 d0 H1 H0 limb_0 L0) as (Lh & Ll & Es).
  destruct (sub_ddmmss n1 n0 0 d0) as [h l]; cbn [fst snd] in *.
  rewrite Z.mod_small in Es by (unfold limb in *; nia).
  pose proof (normalized_limb _ Hd1) as Ld. pose proof Hd1 as [Hn Hn'].
  destruct (lwrap_overflow r d1 Hr Ld) as [Eo Hsmall]; [pose proof B_gt_1; lia|].
  rewrite Z.geb_leb, Z.leb_antisym, Eo.
  destruct (Z.leb_spec B (r + d1)) as [HB|HB]; cbn [negb].
  - split; [red in Hq |- *; lia|]. split; [apply lwrap_limb|].
    repeat (split; [assumption|]). split; [nia|]. split; [split; [now apply Hov | lia]|].
    exists (r + d1). split; [nia | reflexivity].
  - rewrite Hsmall by exact HB. apply IH; [|lia].
    constructor; auto; unfold limb in *; nia.
Qed.

(** The initial estimate from the two top limbs. *)
Lemma est_init n1 n0 : 0 <= n1 < d1 -> limb n0 ->
  let '(q, r) := udiv_qrnnd n1 n0 d1 in
  est ((n1 * B + n0) * B + x) q r (fst (umul_ppmm d0 q)) (snd (umul_ppmm d0 q)).
Proof using Hd1 L0 Lx.
  intros H1 H0. destruct (udiv_qrnnd_spec n1 n0 d1 Hd1 H1 H0) as (E & Hr & Lq).
  destruct (udiv_qrnnd n1 n0 d1) as [q r]; cbn [fst snd] in *.
  destruct (umul_ppmm_spec d0 q L0 Lq) as (Lh & Ll & Ep). pose proof Hd1 as [Hn Hn'].
  constructor; auto; unfold limb in *; nia.
Qed.
End Estimate.

(** ** The default case: divisors of three limbs or more *)

(** The true quotient limb of a window is the estimate or one less. *)
Lemma estimate_gap q D' W' beta delta omega W D : 0 < beta ->
  0 <= delta < beta -> 0 <= omega < beta -> limb q -> B * beta <= D ->
  D = D' * beta + delta -> W = W' * beta + omega -> q * D' <= W' < (q + 1) * D' ->
  - D <= W - q * D < D.
Proof.
  intros Hb Hd Ho Hq HD -> -> [H1 H2]. red in Hq.
  assert (q * delta < B * beta) by nia. nia.
Qed.

Section Step.
Context (np dp : Z) (k : nat).
#[local] Abbreviation dsize := (S (S k)).
#[local] Abbreviation z := (Z.of_nat (S (S k))).

Lemma val_top2 m p : val m p dsize =
  (m (p + z - 1) * B + m (p + z - 2)) * B ^ Z.of_nat k + val m p k.
Proof using.
  rewrite !val_S_r, Bpow_S.
  replace (p + Z.of_nat (S k)) with (p + z - 1) by lia.
  replace (p + Z.of_nat k) with (p + z - 2) by lia. ring.
Qed.

(** The estimate used by [divrem_step] is at most one too large. *)
Lemma divrem_estimate m n0 : limbs m np dsize -> limbs m dp dsize ->
  normalized (m (dp + z - 1)) -> limb n0 ->
  let D := val m dp dsize in let W := n0 * B ^ z + val m np dsize in
  W < D * B ->
  let dX := m (dp + z - 1) in let d1 := m (dp + z - 2) in
  let q :=
    if n0 =? dX then lwrap (Z.lnot 0)
    else
      let '(q, r) := udiv_qrnnd n0 (m (np + z - 1)) dX in
      let '(n1, n0) := umul_ppmm d1 q in
      q_estimate 3 dX d1 (m (np + z - 2)) q r n1 n0 in
  limb q /\ - D <= W - q * D < D.
Proof using.
  intros Ln Ld HX L0 D W HW dX d1 q.
  assert (L1 : limb d1) by (apply Ld; lia).
  assert (Ly : limb (m (np + z - 1))) by (apply Ln; lia).
  assert (Lx : limb (m (np + z - 2))) by (apply Ln; lia).
  assert (Bn : 0 <= val m np k < B ^ Z.of_nat k)
    by (apply val_bound; apply (limbs_weaken _ _ _ _ _ Ln); lia).
  assert (Bd : 0 <= val m dp k < B ^ Z.of_nat k)
    by (apply val_bound; apply (limbs_weaken _ _ _ _ _ Ld); lia).
  pose proof (Bpow_pos k) as Bp. pose proof B_gt_1 as HB. pose proof HX as [HX1 HX2].
  set (beta := B ^ Z.of_nat k) in *.
  assert (ED : D = (dX * B + d1) * beta + val m dp k) by apply val_top2.
  assert (EW : W = ((n0 * B + m (np + z - 1)) * B + m (np + z - 2)) * beta + val m np k).
  { unfold W. rewrite val_top2, !Bpow_S. fold beta. ring. }
  assert (HD : B * beta <= D) by (fold dX in HX1; unfold limb in *; nia).
  fold dX in HX, HX1, HX2.
  assert (Hn0 : n0 <= dX).
  { destruct (Z.le_gt_cases n0 dX) as [|Hgt]; [assumption|exfalso].
    assert ((dX + 1) * B * B * beta <= W) by (unfold limb in *; nia).
    assert (D < (dX + 1) * B * beta) by (unfold limb in *; nia). nia. }
  subst q. destruct (Z.eqb_spec n0 dX) as [En|En].
  - assert (Eq : lwrap (Z.lnot 0) = B - 1) by reflexivity. rewrite Eq.
    split; [red; lia|]. rewrite EW, En in *. unfold limb in *. nia.
  - pose proof (est_init dX d1 (m (np + z - 2)) HX L1 Lx n0 (m (np + z - 1)) ltac:(red in L0; lia) Ly) as E.
    destruct (udiv_qrnnd n0 (m (np + z - 1)) dX) as [q r].
    destruct (umul_ppmm d1 q) as [h l]; cbn [fst snd] in E.
    pose proof (est_r _ _ _ _ _ _ _ _ E) as Lr. red in Lr.
    destruct (q_estimate_spec dX d1 (m (np + z - 2)) HX L1 Lx _ 3 q r h l E ltac:(lia)) as [Lq Hq].
    split; [exact Lq|].
    exact (estimate_gap _ _ _ beta _ _ W D Bp Bd Bn Lq HD ED EW Hq).
Qed.

(** One iteration: from the window [(n2, np)] to its quotient limb and the
    remainder left at [np]. *)
Lemma divrem_step_spec m n0 : limbs m np dsize -> limbs m dp dsize ->
  disjoint np dsize dp dsize ->
  normalized (m (dp + z - 1)) -> limb n0 ->
  let D := val m dp dsize in let W := n0 * B ^ z + val m np dsize in
  W < D * B ->
  let x := divrem_step m np dp dsize (m (dp + z - 1)) (m (dp + z - 2)) n0 n0 in
  frame m (fst x) np dsize /\ limbs (fst x) np dsize /\ limb (snd x) /\
  W = snd x * D + val (fst x) np dsize /\ val (fst x) np dsize < D.
Proof using.
  intros Ln Ld Dj HX L0 D W HW.
  destruct (divrem_estimate m n0 Ln Ld HX L0 HW) as [Lq Hq]. unfold divrem_step.
  set (q := if n0 =? _ then _ else _) in *. cbn zeta in *. clearbody q.
  fold D W in Hq. red in Dj.
  destruct (mpn_submul_1_post m np dp q dsize Ld ltac:(red; lia) Lq Ln) as [F L C V].
  destruct (mpn_submul_1 m np dp dsize q) as [m1 cy]; cbn [fst snd] in *. fold D in V.
  pose proof (val_bound _ _ _ L) as Bv. pose proof (val_bound _ _ _ Ld) as BD. fold D in BD.
  pose proof (Bpow_pos dsize) as Bp. set (Bd := B ^ z) in *.
  assert (EW : W - q * D = val m1 np dsize + (n0 - cy) * Bd) by (unfold W; lia).
  destruct (Z.eqb_spec n0 cy) as [Ec|Ec]; cbn [negb fst snd].
  - split; [exact F|]. split; [exact L|]. split; [exact Lq|]. subst cy. lia.
  - assert (n0 - cy = -1) by nia.
    assert (Ld1 : limbs m1 dp dsize) by (apply (limbs_frame _ _ _ _ _ _ F Ld); lia).
    assert (VD : val m1 dp dsize = D) by (apply (val_frame _ _ _ _ _ _ F); lia).
    destruct (mpn_add_n_post m1 np np dp dsize L ltac:(left; lia) Ld1 ltac:(red; lia)) as [F2 L2 C2 V2].
    rewrite VD in V2. set (m2 := fst (mpn_add_n m1 np np dp dsize)) in *.
    pose proof (val_bound _ _ _ L2) as Bv2. fold Bd in V2, Bv2.
    assert (W0 : 0 <= W).
    { pose proof (val_bound _ _ _ Ln). unfold W. red in L0. fold Bd. nia. }
    assert (0 < q) by (destruct (Z.eq_dec q 0); [subst q; nia | red in Lq; lia]).
    rewrite (lwrap_small (q - 1)) by (red in Lq |- *; lia).
    split; [apply (frame_trans _ _ _ _ _ _ _ _ _ F F2); lia|].
    split; [exact L2|]. split; [red in Lq |- *; lia|].
    assert (val m2 np dsize = W - q * D + D) by (destruct C2 as [C2|C2]; rewrite C2 in V2; lia).
    lia.
Qed.
End Step.

(** The default loop.  [base] is the dividend array, of which [span] limbs may
    be used: the limbs left and, when fraction limbs are generated, one limb
    above the remainder (the code's [MPN_COPY_DECR (np + 1, np, dsize)] writes
    [np[dsize]]). *)
Section Loop.
Context (qp base dp : Z) (qx k span : nat) (D : Z).
#[local] Abbreviation dsize := (S (S k)).
#[local] Abbreviation z := (Z.of_nat (S (S k))).

Record loop_pre (m : mem) (n : nat) (n0 : Z) : Prop := {
  lp_span : (n - qx + dsize <= span)%nat /\ (0 < qx -> dsize < span)%nat;
  lp_limbs : limbs m base (n - qx + dsize);
  lp_dlimbs : limbs m dp dsize;
  lp_dval : val m dp dsize = D;
  lp_norm : normalized (m (dp + z - 1));
  lp_top : n0 = m (base + Z.of_nat (n - qx) + z - 1);
  lp_rem : val m (base + Z.of_nat (n - qx)) dsize < D;
  lp_d1 : disjoint base span dp dsize;
  lp_d2 : disjoint base span qp n;
  lp_d3 : disjoint dp dsize qp n
}.

(** Moving the window down by one limb (or shifting it up for a fraction
    limb) multiplies the remainder by [B] and adds the next limb. *)
Lemma divrem_window m i n0 : loop_pre m (S i) n0 ->
  let np := base + Z.of_nat (S i - qx) in
  exists m1 low,
    (if Nat.leb qx i then (m, np - 1, m (np - 1 + z))
     else (upd (mpn_copy_decr m (np + 1) np dsize) np 0, np, m (np + z - 1)))
      = (m1, base + Z.of_nat (i - qx), n0) /\
    limb low /\ frame m m1 base span /\ limbs m1 base (i - qx + dsize) /\
    val m1 base (i - qx) = val m base (i - qx) /\
    n0 * B ^ z + val m1 (base + Z.of_nat (i - qx)) dsize
      = B * val m np dsize + low /\
    val m base (S i - qx) * B ^ Z.of_nat (Nat.min (S i) qx)
      = val m base (i - qx) * B ^ Z.of_nat (Nat.min i qx) + low * B ^ Z.of_nat i.
Proof using.
  intros [[Sp1 Sp2] L _ _ _ Tp _ _ _ _] np. pose proof (Bpow_pos (S k)) as Bp.
  destruct (Nat.leb_spec qx i) as [Hq|Hq].
  - replace (S i - qx)%nat with (S (i - qx)) in * by lia.
    set (np' := base + Z.of_nat (i - qx)). assert (En : np = np' + 1) by (unfold np, np'; lia).
    exists m, (m np'). split.
    { f_equal; [f_equal; lia|]. rewrite Tp. f_equal. lia. }
    split; [apply L; lia|]. split; [apply frame_refl|].
    split; [apply (limbs_weaken _ _ _ _ _ L); lia|]. split; [reflexivity|]. split.
    + assert (E : val m np' (S dsize) = m np' + B * val m (np' + 1) dsize) by reflexivity.
      rewrite val_S_r in E. rewrite En, Tp.
      replace (base + Z.of_nat (S (i - qx)) + z - 1) with (np' + z) by lia. lia.
    + rewrite val_S_r. fold np'. replace (Nat.min (S i) qx) with qx by lia.
      replace (Nat.min i qx) with qx by lia.
      replace (Z.of_nat i) with (Z.of_nat (i - qx + qx)) by lia. rewrite Bpow_add. ring.
  - subst np. replace (S i - qx)%nat with 0%nat in * by lia.
    replace (i - qx)%nat with 0%nat in * by lia.
    change (Z.of_nat 0) with 0 in *. rewrite Z.add_0_r in *.
    destruct (mpn_copy_decr_spec dsize m (base + 1) base ltac:(lia)) as [F E].
    set (m1 := mpn_copy_decr m (base + 1) base dsize) in *.
    assert (Lm : forall a, base + 1 <= a < base + 1 + Z.of_nat dsize -> m1 a = m (a - 1)).
    { intros a Ha. replace a with (base + 1 + (a - base - 1)) by lia. rewrite E by lia. f_equal; lia. }
    exists (upd m1 base 0), 0. split; [rewrite Tp; reflexivity|].
    split; [apply limb_0|].
    split; [intros a Ha; rewrite upd_ne by lia; apply F; lia|]. split.
    { intros a Ha. destruct (Z.eq_dec a base) as [->|]; [rewrite upd_eq; apply limb_0|].
      rewrite upd_ne by assumption. rewrite Lm by lia. apply L; lia. }
    split; [reflexivity|]. split; [|cbn [val]; ring].
    assert (Vd : val (upd m1 base 0) base dsize = B * val (upd m1 base 0) (base + 1) (S k)).
    { cbn [val]. rewrite upd_eq. ring. }
    assert (Ev : val (upd m1 base 0) (base + 1) (S k) = val m base (S k)).
    { apply val_eq_at. intros j Hj. rewrite upd_ne by lia. rewrite Lm by lia. f_equal; lia. }
    rewrite Vd, Ev, (val_S_r m base (S k)), (Bpow_S (S k)), Tp.
    replace (base + z - 1) with (base + Z.of_nat (S k)) by lia. ring.
Qed.

(** One iteration of the loop keeps [loop_pre] and divides one window. *)
Lemma divrem_iter m i n0 : loop_pre m (S i) n0 ->
  exists m3 q low,
    divrem_loop (S i) m qp qx (base + Z.of_nat (S i - qx)) dp dsize
      (m (dp + z - 1)) (m (dp + z - 2)) n0
    = divrem_loop i m3 qp qx (base + Z.of_nat (i - qx)) dp dsize
        (m3 (dp + z - 1)) (m3 (dp + z - 2)) (m3 (base + Z.of_nat (i - qx) + z - 1)) /\
    limb q /\ m3 (qp + Z.of_nat i) = q /\ frame2 m m3 base span (qp + Z.of_nat i) 1 /\
    loop_pre m3 i (m3 (base + Z.of_nat (i - qx) + z - 1)) /\
    val m3 base (i - qx) = val m base (i - qx) /\
    B * val m (base + Z.of_nat (S i - qx)) dsize + low
      = q * D + val m3 (base + Z.of_nat (i - qx)) dsize /\
    val m base (S i - qx) * B ^ Z.of_nat (Nat.min (S i) qx)
      = val m base (i - qx) * B ^ Z.of_nat (Nat.min i qx) + low * B ^ Z.of_nat i.
Proof using.
  intros Pre. cbn [divrem_loop].
  destruct (divrem_window m i n0 Pre) as (m1 & low & -> & Llow & F1 & L1 & V1 & Wv & Lv).
  pose proof Pre as [Sp L Ld Dv Nm Tp Rm D1 D2 D3].
  assert (Sp' : (i - qx + dsize <= span)%nat /\ (0 < qx -> dsize < span)%nat) by lia.
  assert (L0 : limb n0) by (rewrite Tp; apply L; lia).
  assert (Hl : forall a, base <= a < base + Z.of_nat (i - qx) + z ->
    limb (m1 a)) by (intros; apply L1; lia).
  assert (Ho : base + Z.of_nat (i - qx) + z <= base + Z.of_nat span) by lia.
  assert (Hb : base <= base + Z.of_nat (i - qx)) by lia.
  red in D1, D2, D3. clear Sp L Tp L1. set (np' := base + Z.of_nat (i - qx)) in *.
  revert Wv Llow Rm Lv V1 Pre.
  assert (Kd : forall a, dp <= a < dp + z -> m1 a = m a) by (intros; apply F1; lia).
  assert (EX : m1 (dp + z - 1) = m (dp + z - 1)) by (apply Kd; lia).
  assert (E1 : m1 (dp + z - 2) = m (dp + z - 2)) by (apply Kd; lia).
  assert (Ld1 : limbs m1 dp dsize) by (intros a Ha; rewrite Kd by exact Ha; now apply Ld).
  assert (Dv1 : val m1 dp dsize = D) by (rewrite (val_ext m m1) by exact Kd; exact Dv).
  assert (Lw : limbs m1 np' dsize) by (intros a Ha; apply Hl; lia).
  assert (Dj : disjoint np' dsize dp dsize) by (red; lia).
  intros Wv Llow Rm Lv V1 Pre. rewrite <- EX in Nm.
  destruct (divrem_step_spec np' dp k m1 n0) as (F2 & L2 & Lq & E2 & R2); auto.
  { rewrite Wv, Dv1. red in Llow. pose proof B_gt_1. nia. }
  rewrite <- EX, <- E1. rewrite Dv1, Wv in *.
  destruct (divrem_step m1 np' dp dsize _ _ n0 n0) as [m2 q]; cbn [fst snd] in *.
  exists (upd m2 (qp + Z.of_nat i) q), q, low. set (m3 := upd m2 (qp + Z.of_nat i) q) in *.
  revert E2 Wv Lv R2 V1. clear Rm Llow Pre L0 Dj Lw.
  assert (K3 : forall a, ~ (np' <= a < np' + z) -> a <> qp + Z.of_nat i -> m3 a = m1 a).
  { intros a A1 A2. unfold m3. rewrite upd_ne by assumption. now apply F2. }
  assert (N3 : forall a, np' <= a < np' + z -> m3 a = m2 a) by (intros; apply upd_ne; lia).
  assert (Vl : val m3 base (i - qx) = val m1 base (i - qx)).
  { apply val_ext. intros a Ha. fold np' in Ha. apply K3; lia. }
  assert (Kd3 : forall a, dp <= a < dp + z -> m3 a = m1 a) by (intros; apply K3; lia).
  assert (L3 : limbs m3 base (i - qx + dsize)).
  { intros a Ha. rewrite Nat2Z.inj_add, Z.add_assoc in Ha. fold np' in Ha.
    destruct (Z.ltb_spec a np'); [rewrite K3 by lia; apply Hl; lia|].
    rewrite N3 by lia. apply L2; lia. }
  assert (Fr : frame2 m m3 base span (qp + Z.of_nat i) 1)
    by (intros a A1 A2; rewrite K3 by lia; apply F1; lia).
  intros E2 Wv Lv R2 V1. rewrite (Kd3 (dp + z - 1)), (Kd3 (dp + z - 2)) by (clear; lia).
  split; [reflexivity|]. split; [exact Lq|]. split; [apply upd_eq|]. split; [exact Fr|].
  split; [|split; [congruence | split; [|exact Lv]]];
    [|now rewrite (val_ext m2 m3) by exact N3].
  clear E2 Wv Lv V1. constructor; auto; try (red; lia).
  - intros a Ha. rewrite Kd3 by exact Ha. now apply Ld1.
  - rewrite (val_ext m1 m3) by exact Kd3. exact Dv1.
  - rewrite Kd3 by lia. exact Nm.
  - fold np'. rewrite (val_ext m2 m3) by exact N3. exact R2.
Qed.

Lemma divrem_loop_spec n : forall m n0, loop_pre m n n0 ->
  let x := divrem_loop n m qp qx (base + Z.of_nat (n - qx)) dp dsize
             (m (dp + z - 1)) (m (dp + z - 2)) n0 in
  frame2 m (fst x) base span qp n /\ limbs (fst x) base dsize /\ limbs (fst x) qp n /\
  val (fst x) base dsize < D /\
  val m (base + Z.of_nat (n - qx)) dsize * B ^ Z.of_nat n
    + val m base (n - qx) * B ^ Z.of_nat (Nat.min n qx)
    = val (fst x) qp n * D + val (fst x) base dsize.
Proof using.
  induction n as [|i IH]; intros m n0 Pre.
  { destruct Pre. cbn [divrem_loop fst Nat.sub Nat.min Nat.add] in *.
    change (Z.of_nat 0) with 0 in *.
    rewrite Z.add_0_r in *. rewrite Z.pow_0_r. split; [intros ? ? ?; reflexivity|].
    split; [assumption|]. split; [intros ? ?; lia|]. split; [assumption|].
    change (val m base 0) with 0. change (val m qp 0) with 0. rewrite ?Z.add_0_r. ring. }
  pose proof (lp_d2 _ _ _ Pre) as D2.
  destruct (divrem_iter m i n0 Pre) as (m3 & q & low & -> & Lq & Tq & F3 & Pre3 & V1 & E2 & Lv).
  destruct (IH m3 _ Pre3) as (F4 & L4 & Lq4 & R4 & V4). clear IH Pre Pre3.
  cbn zeta in *. set (m4 := fst (divrem_loop i m3 _ _ _ _ _ _ _ _)) in *.
  revert V1 E2 Lv V4. red in D2.
  assert (Tq4 : m4 (qp + Z.of_nat i) = q) by (rewrite F4 by lia; exact Tq).
  assert (Fr : frame2 m m4 base span qp (S i))
    by (intros a A1 A2; rewrite F4 by lia; apply F3; lia).
  assert (Lqq : limbs m4 qp (S i)).
  { intros a Ha. destruct (Z.eq_dec a (qp + Z.of_nat i)) as [->|]; [rewrite Tq4; exact Lq|].
    apply Lq4; lia. }
  intros V1 E2 Lv V4. split; [exact Fr|]. split; [exact L4|]. split; [exact Lqq|].
  split; [exact R4|].
  rewrite (val_S_r m4), Tq4, Lv, Bpow_S. rewrite V1 in V4.
  apply (f_equal (Z.mul (B ^ Z.of_nat i))) in E2. clear - V4 E2. lia.
Qed.
End Loop.

(** ** What [mpn_divrem] promises

    The quotient goes to [qp] ([qextra + nsize - dsize] limbs, its top limb is
    the result), the remainder to the low [dsize] limbs at [np].  [span] is the
    number of limbs at [np] the call may write. *)
Record divrem_post (m : mem) (qp : Z) (qx : nat) (np : Z) (nsize : nat) (dp : Z) (dsize : nat)
    (span : nat) (r : mem * Z) : Prop := {
  dr_frame : frame2 m (fst r) np span qp (qx + nsize - dsize);
  dr_rlimbs : limbs (fst r) np dsize;
  dr_qlimbs : limbs (fst r) qp (qx + nsize - dsize);
  dr_bit : bit (snd r);
  dr_lt : val (fst r) np dsize < val m dp dsize;
  dr_value : val m np nsize * B ^ Z.of_nat qx =
    (val (fst r) qp (qx + nsize - dsize) + B ^ Z.of_nat (qx + nsize - dsize) * snd r)
      * val m dp dsize + val (fst r) np dsize
}.

(** The inputs it expects. *)
Record divrem_pre (m : mem) (qp : Z) (qx : nat) (np : Z) (nsize : nat) (dp : Z) (dsize : nat)
    (span : nat) : Prop := {
  dp_sizes : (0 < dsize <= nsize)%nat /\ (nsize <= span)%nat /\ (0 < qx -> dsize < span)%nat;
  dp_nlimbs : limbs m np nsize;
  dp_dlimbs : limbs m dp dsize;
  dp_norm : normalized (m (dp + Z.of_nat dsize - 1));
  dp_np_dp : disjoint np span dp dsize;
  dp_np_qp : disjoint np span qp (qx + nsize - dsize);
  dp_dp_qp : disjoint dp dsize qp (qx + nsize - dsize)
}.

(** *** One divisor limb *)

Lemma divrem_1_loop_spec d (lo : mem) low qp : normalized d -> forall k m n1,
  (forall m', frame m m' qp k -> forall i, 0 <= i < Z.of_nat k -> low m' i = lo i) ->
  limbs lo 0 k -> 0 <= n1 < d ->
  let x := divrem_1_loop k m qp low d n1 in
  frame m (fst x) qp k /\ limbs (fst x) qp k /\ 0 <= snd x < d /\
  val (fst x) qp k * d + snd x = n1 * B ^ Z.of_nat k + val lo 0 k.
Proof.
  intros Hd. induction k as [|i IH]; intros m n1 El L Hr; cbn [divrem_1_loop].
  { cbn [fst snd val]. rewrite Z.pow_0_r. split; [apply frame_refl|].
    split; [intros ? ?; lia|]. lia. }
  rewrite (El m (frame_refl _ _ _)) by lia.
  destruct (udiv_qrnnd_spec n1 (lo (Z.of_nat i)) d Hd Hr) as (E & Hr' & Lq); [apply L; lia|].
  destruct (udiv_qrnnd n1 (lo (Z.of_nat i)) d) as [q r']; cbn [fst snd] in *.
  destruct (IH (upd m (qp + Z.of_nat i) q) r') as (F & L' & R & V); auto.
  { intros m' F j Hj. apply El; [|lia]. apply (frame_upd_l _ _ _ _ _ _ _ _ F); lia. }
  { apply (limbs_weaken _ _ _ _ _ L); lia. }
  destruct (quot_top _ _ _ _ _ Lq F L') as (F2 & L2 & V2). cbn zeta in *.
  split; [exact F2|]. split; [exact L2|]. split; [exact R|].
  rewrite V2, (val_S_r lo), Bpow_S, Z.add_0_l. nia.
Qed.

Lemma val_zeros p k : val (fun _ => 0) p k = 0.
Proof. revert p; induction k as [|k IH]; intros p; cbn [val]; [|rewrite IH]; reflexivity. Qed.

Lemma divrem_1_post m qp qx np nsize dp span : divrem_pre m qp qx np nsize dp 1 span ->
  divrem_post m qp qx np nsize dp 1 span (divrem_1 m qp qx np nsize dp).
Proof.
  intros [Sz Ln Ld Nm D1 D2 D3]. destruct nsize as [|n]; [lia|]. red in D1, D2, D3.
  replace (dp + Z.of_nat 1 - 1) with dp in Nm by lia.
  assert (Ed : val m dp 1 = m dp) by (cbn [val]; lia).
  unfold divrem_1. replace (np + Z.of_nat (S n) - 1) with (np + Z.of_nat n) by lia.
  replace (S n - 1)%nat with n by lia. set (d := m dp) in *. pose proof Nm as [Hd _].
  assert (Lt : limb (m (np + Z.of_nat n))) by (apply Ln; lia).
  assert (Hs : exists r b, (if m (np + Z.of_nat n) >=? d
      then (lwrap (m (np + Z.of_nat n) - d), 1) else (m (np + Z.of_nat n), 0)) = (r, b) /\
      bit b /\ 0 <= r < d /\ m (np + Z.of_nat n) = b * d + r).
  { rewrite Z.geb_leb. pose proof B_gt_1. red in Lt.
    destruct (Z.leb_spec d (m (np + Z.of_nat n))).
    - rewrite lwrap_small by (red; lia). eexists _, _. split; [reflexivity|]. unfold bit. lia.
    - eexists _, _. split; [reflexivity|]. unfold bit. lia. }
  destruct Hs as (r & b & -> & Hb & Hr & Et). clear Lt.
  destruct (divrem_1_loop_spec d (fun i => m (np + i)) (fun m i => m (np + i))
    (qp + Z.of_nat qx) Nm n m r) as (F1 & L1 & R1 & V1); auto.
  { intros m' F i Hi. apply F; lia. }
  { intros a Ha. apply Ln; lia. }
  destruct (divrem_1_loop n m _ _ d r) as [m1 r1]; cbn [fst snd] in *.
  destruct (divrem_1_loop_spec d (fun _ => 0) (fun _ _ => 0) qp Nm qx m1 r1)
    as (F2 & L2 & R2 & V2); auto.
  { intros a Ha. apply limb_0. }
  destruct (divrem_1_loop qx m1 qp _ d r1) as [m2 r2]; cbn [fst snd] in *.
  rewrite val_zeros in V2. replace (qx + S n - 1)%nat with (qx + n)%nat in * by lia.
  assert (Lq : limbs m2 qp (qx + n)).
  { apply limbs_app; [exact L2|]. apply (limbs_frame _ _ _ _ _ _ F2 L1); lia. }
  assert (Vq : val m2 qp (qx + n) = val m2 qp qx + B ^ Z.of_nat qx * val m1 (qp + Z.of_nat qx) n).
  { rewrite val_app. f_equal. f_equal. apply (val_frame _ _ _ _ _ _ F2); lia. }
  constructor; cbn [fst snd]; auto; replace (qx + S n - 1)%nat with (qx + n)%nat by lia.
  - intros a A1 A2. rewrite upd_ne by lia. rewrite F2 by lia. apply F1; lia.
  - intros a Ha. replace a with np by lia. rewrite upd_eq. red in Nm |- *. lia.
  - apply limbs_upd_above; [exact Lq | lia].
  - cbn [val]. rewrite upd_eq. lia.
  - rewrite val_upd_above by lia. rewrite Vq, Ed. cbn [val]. rewrite upd_eq.
    rewrite Bpow_add.
    change (m np + B * val m (np + 1) n) with (val m np (S n)). rewrite val_S_r, Et.
    rewrite (val_eq_at m (fun i => m (np + i)) 0 np n) in V1 by (intros; f_equal; lia). nia.
Qed.

(** *** Two divisor limbs *)

Lemma divrem_2_correct_spec d1 d0 n2 W q r n1 n0 : normalized d1 -> limb d0 -> limb n2 ->
  est d1 d0 n2 W q r n1 n0 ->
  let x := let '(q, r, n1, n0) := q_test 3 d1 d0 n2 q r n1 n0 in
           (q, sub_ddmmss r n2 n1 n0) in
  limb (fst x) /\ limb (fst (snd x)) /\ limb (snd (snd x)) /\
  W = fst x * (d1 * B + d0) + (fst (snd x) * B + snd (snd x)) /\
  fst (snd x) * B + snd (snd x) < d1 * B + d0.
Proof.
  intros Hd L0 L2 E. pose proof (est_r _ _ _ _ _ _ _ _ E) as Lr. red in Lr. destruct (Hd) as [Hn Hn'].
  pose proof (q_test_spec d1 d0 n2 Hd L0 L2 W 3 q r n1 n0 E ltac:(lia)) as Q.
  destruct (q_test 3 d1 d0 n2 q r n1 n0) as [[[q' r'] h] l].
  destruct Q as (Lq & Lr' & Lh & Ll & Ep & HW & rt & EW & Er).
  destruct (sub_ddmmss_spec r' n2 h l Lr' L2 Lh Ll) as (Lx & Ly & Es).
  destruct (sub_ddmmss r' n2 h l) as [x y]; cbn [fst snd] in *.
  assert (Em : x * B + y = W - q' * (d1 * B + d0)).
  { rewrite Es, Ep, Er. unfold lwrap, limb in *. pose proof (Z_div_mod_eq_full rt B) as Ert.
    symmetry. apply (Z.mod_unique _ _ (- (rt / B))); [left; nia | nia]. }
  split; [exact Lq|]. split; [exact Lx|]. split; [exact Ly|]. clear - Em HW. lia.
Qed.

Lemma divrem_2_step_spec d1 d0 n1 n0 n2 : normalized d1 -> limb d0 -> limb n1 -> limb n0 ->
  limb n2 -> n1 * B + n0 < d1 * B + d0 ->
  let x := divrem_2_step d1 d0 n1 n0 n2 in
  limb (fst x) /\ limb (fst (snd x)) /\ limb (snd (snd x)) /\
  (n1 * B + n0) * B + n2 = fst x * (d1 * B + d0) + (fst (snd x) * B + snd (snd x)) /\
  fst (snd x) * B + snd (snd x) < d1 * B + d0.
Proof.
  intros Hd L0 Ln1 Ln0 L2 Hlt. unfold divrem_2_step. cbn zeta. pose proof Hd as [Hn Hn'].
  pose proof (normalized_limb _ Hd) as Ld1. pose proof B_gt_1 as HB.
  destruct (Z.eqb_spec n1 d1) as [->|Hne].
  2:{ pose proof (est_init d1 d0 n2 Hd L0 L2 n1 n0 ltac:(unfold limb in *; nia) Ln0) as E.
      destruct (udiv_qrnnd n1 n0 d1) as [q r]. destruct (umul_ppmm d0 q) as [h l].
      now apply divrem_2_correct_spec. }
  change (lwrap (Z.lnot 0)) with (B - 1). assert (Lq : limb (B - 1)) by (red; lia).
  destruct (lwrap_overflow n0 d1 Ln0 Ld1 ltac:(lia)) as [-> Hsm].
  destruct (Z.leb_spec B (n0 + d1)) as [Hov|Hov].
  - destruct (add_ssaaaa_spec (lwrap (lwrap (n0 + d1) - d0)) n2 0 d0 (lwrap_limb _) L2 limb_0 L0)
      as (Lx & Ly & Es).
    destruct (add_ssaaaa _ n2 0 d0) as [x y]; cbn [fst snd] in *.
    assert (Em : x * B + y = (n0 + d1 - d0) * B + n2 + d0).
    { rewrite Es. unfold lwrap, limb in *. rewrite Zminus_mod_idemp_l.
      pose proof (Z_div_mod_eq_full (n0 + d1 - d0) B) as Ert. symmetry.
      apply (Z.mod_unique _ _ (- ((n0 + d1 - d0) / B))); [left; nia | nia]. }
    split; [exact Lq|]. split; [exact Lx|]. split; [exact Ly|].
    rewrite Em. unfold limb in *. split; nia.
  - rewrite Hsm by exact Hov. apply divrem_2_correct_spec; auto.
    assert (Ep : lwrap (d0 - b2z (negb (d0 =? 0))) = d0 - b2z (negb (d0 =? 0)) /\
       (d0 - b2z (negb (d0 =? 0))) * B + lwrap (- d0) = (B - 1) * d0).
    { destruct (Z.eqb_spec d0 0) as [->|H0]; cbn [negb b2z]; [split; reflexivity|].
      red in L0. rewrite lwrap_small by (red; lia).
      assert (lwrap (- d0) = B - d0) as -> by (symmetry; apply (Z.mod_unique _ _ (-1)); lia).
      split; [reflexivity|ring]. }
    destruct Ep as [Ep1 Ep2]. pose proof (lwrap_limb (d0 - b2z (negb (d0 =? 0)))).
    constructor; auto using lwrap_limb; rewrite ?Ep1; unfold limb in *; nia.
Qed.

Section Loop2.
Context (qp base d1 d0 : Z) (qx span : nat) (Hd : normalized d1) (L0 : limb d0).
#[local] Abbreviation D := (d1 * B + d0).

(** The next dividend limb, read at [np - 1] or a stored zero. *)
Lemma divrem_2_window m i : (0 < span)%nat -> limbs m base (S i - qx) ->
  (S i - qx <= span)%nat ->
  exists m1 low,
    (if Nat.leb qx i then (m, base + Z.of_nat (S i - qx) - 1)
     else (upd m (base + Z.of_nat (S i - qx)) 0, base + Z.of_nat (S i - qx)))
      = (m1, base + Z.of_nat (i - qx)) /\
    m1 (base + Z.of_nat (i - qx)) = low /\ limb low /\
    frame m m1 base span /\ val m1 base (i - qx) = val m base (i - qx) /\
    limbs m1 base (i - qx) /\
    val m base (S i - qx) * B ^ Z.of_nat (Nat.min (S i) qx)
      = val m base (i - qx) * B ^ Z.of_nat (Nat.min i qx) + low * B ^ Z.of_nat i.
Proof using.
  intros Sp L Hs. destruct (Nat.leb_spec qx i) as [Hq|Hq].
  - replace (S i - qx)%nat with (S (i - qx)) in * by lia.
    exists m, (m (base + Z.of_nat (i - qx))). split; [f_equal; lia|]. split; [reflexivity|].
    split; [apply L; lia|]. split; [apply frame_refl|]. split; [reflexivity|].
    split; [apply (limbs_weaken _ _ _ _ _ L); lia|].
    rewrite val_S_r. replace (Nat.min (S i) qx) with qx by lia.
    replace (Nat.min i qx) with qx by lia.
    replace (Z.of_nat i) with (Z.of_nat (i - qx + qx)) by lia. rewrite Bpow_add. ring.
  - replace (S i - qx)%nat with 0%nat in * by lia. replace (i - qx)%nat with 0%nat in * by lia.
    change (Z.of_nat 0) with 0. rewrite Z.add_0_r. exists (upd m base 0), 0.
    split; [reflexivity|]. split; [apply upd_eq|]. split; [apply limb_0|].
    split; [apply frame_upd; lia|]. split; [reflexivity|]. split; [intros ? ?; lia|].
    cbn [val]. ring.
Qed.

Lemma divrem_2_loop_spec n : forall m n1 n0, (0 < span)%nat -> (n - qx <= span)%nat ->
  limbs m base (n - qx) -> disjoint base span qp n ->
  limb n1 -> limb n0 -> n1 * B + n0 < D ->
  exists m' x1 x0,
    divrem_2_loop n m qp qx (base + Z.of_nat (n - qx)) d1 d0 n1 n0 = (m', base, x1, x0) /\
    frame2 m m' base span qp n /\ limbs m' qp n /\ limb x1 /\ limb x0 /\ x1 * B + x0 < D /\
    (n1 * B + n0) * B ^ Z.of_nat n + val m base (n - qx) * B ^ Z.of_nat (Nat.min n qx)
      = val m' qp n * D + (x1 * B + x0).
Proof using Hd L0.
  induction n as [|i IH]; intros m n1 n0 Sp Hs L Dj L1 L2 Hlt; cbn [divrem_2_loop].
  { exists m, n1, n0. cbn [Nat.sub Nat.min val]. change (Z.of_nat 0) with 0.
    rewrite Z.add_0_r. split; [reflexivity|]. split; [intros ? ? ?; reflexivity|].
    split; [intros ? ?; lia|]. repeat (split; [assumption|]). rewrite Z.pow_0_r. ring. }
  destruct (divrem_2_window m i Sp L Hs) as (m1 & low & -> & El & Ll & F1 & V1 & Lb & Lv).
  rewrite El.
  destruct (divrem_2_step_spec d1 d0 n1 n0 low Hd L0 L1 L2 Ll Hlt) as (Lq & Ly1 & Ly0 & Es & Hr).
  destruct (divrem_2_step d1 d0 n1 n0 low) as [q [y1 y0]]; cbn [fst snd] in *.
  set (m2 := upd m1 (qp + Z.of_nat i) q).
  revert Es Lv Hlt Hr V1. red in Dj.
  assert (Lb2 : limbs m2 base (i - qx)) by (apply limbs_upd_above; [exact Lb | lia]).
  assert (V2 : val m2 base (i - qx) = val m1 base (i - qx)) by (apply val_upd_above; lia).
  assert (Hs' : (i - qx <= span)%nat) by lia.
  assert (Dj' : disjoint base span qp i) by (red; lia). intros Es Lv Hlt Hr V1.
  destruct (IH m2 y1 y0 Sp Hs' Lb2 Dj' Ly1 Ly0 Hr)
    as (m' & x1 & x0 & E & F & Lm & Lx1 & Lx0 & Hx & V). clear IH.
  exists m', x1, x0. split; [exact E|]. revert Es Lv Hlt Hr V1 V V2 Hx.
  assert (Tq : m' (qp + Z.of_nat i) = q) by (rewrite F by lia; apply upd_eq).
  assert (Fr : frame2 m m' base span qp (S i)).
  { intros a A1 A2. rewrite F by lia. unfold m2. rewrite upd_ne by lia. apply F1; lia. }
  assert (Lqq : limbs m' qp (S i)).
  { intros a Ha. destruct (Z.eq_dec a (qp + Z.of_nat i)) as [->|]; [rewrite Tq; exact Lq|].
    apply Lm; lia. }
  intros Es Lv Hlt Hr V1 V V2 Hx. repeat (split; [assumption|]).
  rewrite (val_S_r m'), Tq, Lv, Bpow_S. rewrite V2, V1 in V.
  apply (f_equal (Z.mul (B ^ Z.of_nat i))) in Es. clear - V Es. lia.
Qed.
End Loop2.

(** Comparing top limbs first and the rest after compares the numbers. *)
Lemma lex_le P a b x y : 0 <= a < P -> 0 <= b < P ->
  ((x >=? y) && ((x >? y) || (b <=? a)))%bool = (b + P * y <=? a + P * x).
Proof.
  intros Ha Hb. rewrite Z.geb_leb, Z.gtb_ltb.
  destruct (Z.lt_trichotomy x y) as [H|[->|H]].
  - rewrite (proj2 (Z.leb_gt y x) H). symmetry. apply Z.leb_gt. nia.
  - rewrite Z.leb_refl, Z.ltb_irrefl. cbn.
    destruct (Z.leb_spec b a); symmetry; [apply Z.leb_le | apply Z.leb_gt]; lia.
  - rewrite (proj2 (Z.leb_le y x)), (proj2 (Z.ltb_lt y x)) by lia. symmetry.
    apply Z.leb_le. nia.
Qed.

Lemma divrem_2_post m qp qx np nsize dp span : divrem_pre m qp qx np nsize dp 2 span ->
  divrem_post m qp qx np nsize dp 2 span (divrem_2 m qp qx np nsize dp).
Proof.
  intros [Sz Ln Ld Nm D1 D2 D3]. destruct nsize as [|[|n]]; [lia|lia|].
  change (Z.of_nat 2) with 2 in Nm. replace (dp + 2 - 1) with (dp + 1) in Nm by lia.
  assert (Ed : val m dp 2 = m (dp + 1) * B + m dp) by (cbn [val]; lia).
  assert (Ld0 : limb (m dp)) by (apply Ld; lia).
  unfold divrem_2. replace (np + Z.of_nat (S (S n)) - 2) with (np + Z.of_nat n) by lia.
  set (d1 := m (dp + 1)) in *. set (d0 := m dp) in *.
  assert (Lt1 : limb (m (np + Z.of_nat n + 1))) by (apply Ln; lia).
  assert (Lt0 : limb (m (np + Z.of_nat n))) by (apply Ln; lia).
  set (t1 := m (np + Z.of_nat n + 1)) in *. set (t0 := m (np + Z.of_nat n)) in *.
  assert (Hs : exists r1 r0 b, (if (t1 >=? d1) && ((t1 >? d1) || (t0 >=? d0))
      then (sub_ddmmss t1 t0 d1 d0, 1) else ((t1, t0), 0)) = ((r1, r0), b) /\ bit b /\
      limb r1 /\ limb r0 /\ r1 * B + r0 < d1 * B + d0 /\
      t1 * B + t0 = b * (d1 * B + d0) + (r1 * B + r0)).
  { assert (Et : ((t1 >=? d1) && ((t1 >? d1) || (t0 >=? d0)))%bool = (d1 * B + d0 <=? t1 * B + t0)).
    { rewrite (Z.geb_leb t0 d0), (lex_le B) by assumption. f_equal; ring. }
    rewrite Et. pose proof (normalized_limb _ Nm) as Ld1. pose proof Nm as [Hn _].
    destruct (Z.leb_spec (d1 * B + d0) (t1 * B + t0)) as [Hge|Hlt].
    - destruct (sub_ddmmss_spec t1 t0 d1 d0 Lt1 Lt0 Ld1 Ld0) as (Lx & Ly & Es).
      destruct (sub_ddmmss t1 t0 d1 d0) as [x y]; cbn [fst snd] in *.
      rewrite Z.mod_small in Es by (unfold limb in *; nia).
      exists x, y, 1. split; [reflexivity|]. split; [now right|]. unfold limb in *. nia.
    - exists t1, t0, 0. split; [reflexivity|]. split; [now left|]. unfold limb in *. nia. }
  destruct Hs as (r1 & r0 & b & -> & Hb & Lr1 & Lr0 & Hr & Et).
  assert (En : (n = qx + S (S n) - 2 - qx)%nat) by lia.
  destruct (divrem_2_loop_spec qp np d1 d0 qx span Nm Ld0 (qx + S (S n) - 2) m r1 r0)
    as (m' & x1 & x0 & E & F & Lm & Lx1 & Lx0 & Hx & V); auto; try lia.
  { rewrite <- En. apply (limbs_weaken _ _ _ _ _ Ln); lia. }
  rewrite <- En in *. rewrite E. red in D1, D2, D3.
  replace (Nat.min (qx + S (S n) - 2) qx) with qx in V by lia.
  constructor; cbn [fst snd]; auto.
  - intros a A1 A2. rewrite !upd_ne by lia. apply F; lia.
  - intros a Ha. destruct (Z.eq_dec a np) as [->|]; [rewrite upd_eq; exact Lx0|].
    replace a with (np + 1) by lia. rewrite upd_ne, upd_eq by lia. exact Lx1.
  - apply limbs_upd_above; [apply limbs_upd_above; [exact Lm|]|]; lia.
  - cbn [val]. rewrite upd_eq, upd_ne, upd_eq by lia. lia.
  - rewrite !(val_upd_above _ _ _ qp) by lia. rewrite Ed. cbn [val].
    rewrite upd_eq, upd_ne, upd_eq by lia. change (m np + B * (m (np + 1) + B * val m (np + 1 + 1) n))
      with (val m np (S (S n))). rewrite !val_S_r.
    replace (np + Z.of_nat (S n)) with (np + Z.of_nat n + 1) by lia. fold t1 t0.
    replace (qx + S (S n) - 2)%nat with (n + qx)%nat in * by lia.
    rewrite Bpow_S, Bpow_add in *. clear - V Et. nia.
Qed.

(** *** The general case *)

(** The first quotient bit: the top window minus the divisor if it fits. *)
Lemma divrem_n_first m np dp k : let dsize := S (S k) in let z := Z.of_nat dsize in
  limbs m np dsize -> limbs m dp dsize -> normalized (m (dp + z - 1)) ->
  disjoint np dsize dp dsize ->
  exists m1 b,
    (if (m (np + z - 1) >=? m (dp + z - 1)) &&
        ((m (np + z - 1) >? m (dp + z - 1)) || (mpn_cmp m np dp (dsize - 1) >=? 0))
     then (fst (mpn_sub_n m np np dp dsize), fst (mpn_sub_n m np np dp dsize) (np + z - 1), 1)
     else (m, m (np + z - 1), 0)) = (m1, m1 (np + z - 1), b) /\ bit b /\
    frame m m1 np dsize /\ limbs m1 np dsize /\ val m1 np dsize < val m dp dsize /\
    val m np dsize = b * val m dp dsize + val m1 np dsize.
Proof.
  intros dsize z Ln Ld Nm Dj. replace (dsize - 1)%nat with (S k) by (unfold dsize; lia).
  assert (Ln' : limbs m np (S k)) by (apply (limbs_weaken _ _ _ _ _ Ln); unfold dsize; lia).
  assert (Ld' : limbs m dp (S k)) by (apply (limbs_weaken _ _ _ _ _ Ld); unfold dsize; lia).
  rewrite mpn_cmp_spec by assumption.
  assert (Vt : forall p, val m p dsize = val m p (S k) + B ^ Z.of_nat (S k) * m (p + z - 1)).
  { intros p. unfold dsize, z. rewrite val_S_r. f_equal. f_equal. f_equal. lia. }
  pose proof (val_bound _ _ _ Ln') as Bn. pose proof (val_bound _ _ _ Ld') as Bd.
  assert (Et : ((m (np + z - 1) >=? m (dp + z - 1)) && ((m (np + z - 1) >? m (dp + z - 1)) ||
      (Z.sgn (val m np (S k) - val m dp (S k)) >=? 0)))%bool
      = (val m dp dsize <=? val m np dsize)).
  { rewrite !Vt. rewrite <- lex_le by assumption. do 2 f_equal. rewrite Z.geb_leb.
    destruct (Z.leb_spec (val m dp (S k)) (val m np (S k)));
      [apply Z.leb_le | apply Z.leb_gt]; lia. }
  rewrite Et. pose proof (val_bound _ _ _ Ln) as BN.
  destruct (Z.leb_spec (val m dp dsize) (val m np dsize)) as [Hge|Hlt].
  2:{ exists m, 0. split; [reflexivity|]. split; [now left|]. split; [apply frame_refl|].
      split; [exact Ln|]. lia. }
  red in Dj. destruct (mpn_sub_n_post m np np dp dsize Ln ltac:(left; lia) Ld ltac:(red; lia))
    as [F L C V].
  set (m1 := fst (mpn_sub_n m np np dp dsize)) in *. exists m1, 1.
  split; [reflexivity|]. split; [now right|]. split; [exact F|]. split; [exact L|].
  pose proof (val_bound _ _ _ L) as B1. pose proof (Bpow_pos (S k)) as Bp.
  assert (H2 : B ^ z <= 2 * val m dp dsize).
  { rewrite (Vt dp). replace (B ^ z) with (B * B ^ Z.of_nat (S k)) by (symmetry; apply Bpow_S).
    destruct Nm. nia. }
  assert (snd (mpn_sub_n m np np dp dsize) = 0) as C0 by (destruct C as [->|C]; [reflexivity|];
    rewrite C in V; lia).
  rewrite C0 in V. fold z in B1, BN. lia.
Qed.

Lemma divrem_n_post m qp qx np nsize dp dsize span : (2 < dsize)%nat ->
  divrem_pre m qp qx np nsize dp dsize span ->
  divrem_post m qp qx np nsize dp dsize span (divrem_n m qp qx np nsize dp dsize).
Proof.
  intros H2 [Sz Ln Ld Nm D1 D2 D3]. destruct dsize as [|[|k]]; [lia|lia|].
  unfold divrem_n. set (dsize := S (S k)) in *. set (z := Z.of_nat dsize) in *.
  set (qn := (qx + nsize - dsize)%nat) in *.
  assert (Ew : np + Z.of_nat nsize - z = np + Z.of_nat (qn - qx)) by lia. rewrite Ew.
  set (w := np + Z.of_nat (qn - qx)) in *.
  destruct (divrem_n_first m w dp k) as (m1 & b & E & Hb & F1 & L1 & R1 & V1); auto.
  { apply (limbs_weaken _ _ _ _ _ Ln); lia. }
  { red in D1 |- *. lia. }
  fold dsize in E. fold z in E. cbn zeta. rewrite E. clear E. fold dsize in F1, L1, R1, V1.
  assert (Kd : forall a, dp <= a < dp + z -> m1 a = m a).
  { intros a Ha. red in D1. apply F1. fold z. lia. }
  assert (Vd : val m1 dp dsize = val m dp dsize) by (apply val_ext; exact Kd).
  assert (Lb : limbs m1 np (qn - qx + dsize)).
  { apply limbs_app; [|exact L1]. intros a Ha. rewrite F1 by lia. apply Ln; lia. }
  assert (Pre : loop_pre qp np dp qx k span (val m dp dsize) m1 qn (m1 (w + z - 1))).
  { constructor; auto; fold dsize; fold z.
    - split; lia.
    - intros a Ha. rewrite Kd by exact Ha. now apply Ld.
    - rewrite Kd by lia. exact Nm. }
  destruct (divrem_loop_spec qp np dp qx k span (val m dp dsize) qn m1 _ Pre)
    as (F & L & Lq & R & V). fold dsize in F, L, Lq, R, V. fold w z in F, L, Lq, R, V.
  rewrite (Kd (dp + z - 1)), (Kd (dp + z - 2)) in * by lia.
  destruct (divrem_loop qn m1 _ _ _ _ _ _ _ _) as [m' np']; cbn [fst snd] in *.
  assert (El : val m1 np (qn - qx) = val m np (qn - qx)).
  { apply (val_frame _ _ _ _ _ _ F1). lia. }
  assert (En : val m np nsize = val m np (qn - qx) + B ^ Z.of_nat (qn - qx) * val m w dsize).
  { replace nsize with (qn - qx + dsize)%nat at 1 by lia. apply val_app. }
  constructor; cbn [fst snd]; auto; fold qn.
  - intros a A1 A2. rewrite F by assumption. apply F1. lia.
  - rewrite El in V. replace (Nat.min qn qx) with qx in V by lia. rewrite En, V1.
    assert (Ep : B ^ Z.of_nat qn = B ^ Z.of_nat (qn - qx) * B ^ Z.of_nat qx)
      by (rewrite <- Bpow_add; f_equal; lia).
    rewrite Ep in *. clear - V. nia.
Qed.

(** ** The promises of the division routines *)

(** C1: dividing [nsize] limbs by [dsize] normalised limbs with [qextra]
    fraction limbs, [mpn_divrem] returns (in all three cases of its switch)
    the exact quotient, top limb separately, and leaves the remainder, smaller
    than the divisor, in the dividend's low limbs; it fails only on an empty
    divisor. *)
Theorem mpn_divrem_correct m qp qx np nsize dp dsize span :
  divrem_pre m qp qx np nsize dp dsize span ->
  exists r, mpn_divrem m qp qx np nsize dp dsize = Some r /\
    divrem_post m qp qx np nsize dp dsize span r.
Proof.
  intros Pre. pose proof (dp_sizes _ _ _ _ _ _ _ _ Pre) as [Hs _].
  destruct dsize as [|[|[|k]]]; [lia | | |]; cbn [mpn_divrem];
    eexists; (split; [reflexivity|]).
  - now apply divrem_1_post.
  - now apply divrem_2_post.
  - apply divrem_n_post; [lia | assumption].
Qed.

(** Five limbs at 0, and at 20 four limbs whose windows are the divisors. *)
Definition wit_div : mem :=
  put (put (fun _ => 0) 0 [7; 0; B - 1; 5; B - 1]) 20 [B - 1; 3; 2 ^ 63; 2 ^ 63 + 1].

Lemma mpn_divrem_correct_witness :
  (exists r, mpn_divrem wit_div 100 1 0 5 20 3 = Some r /\ divrem_post wit_div 100 1 0 5 20 3 5 r) /\
  (exists r, mpn_divrem wit_div 100 2 0 5 21 2 = Some r /\ divrem_post wit_div 100 2 0 5 21 2 5 r) /\
  (exists r, mpn_divrem wit_div 100 0 0 5 22 1 = Some r /\ divrem_post wit_div 100 0 0 5 22 1 5 r).
Proof.
  split; [|split]; apply mpn_divrem_correct; constructor;
    first [now apply limbsb_ok | unfold disjoint; lia | split; vm_compute; congruence].
Defined.

(** for every divisor limb, normalised or not, [mpn_divmod_1] stores the
    quotient (in place if asked) and returns the remainder, and [mpn_mod_1]
    returns the same remainder. *)
Lemma mpn_divmod_1_correct m quot dv n d : 0 < d < B -> (0 < n)%nat -> limbs m dv n ->
  (dv <= quot \/ quot + Z.of_nat n <= dv) ->
  let r := mpn_divmod_1 m quot dv n d in
  frame m (fst r) quot n /\ limbs (fst r) quot n /\
  val (fst r) quot n = val m dv n / d /\ snd r = val m dv n mod d /\
  mpn_mod_1 m dv n d = snd r.
Proof.
  intros Hd Hn L O. destruct n as [|n]; [lia|].
  destruct (mpn_divmod_1_spec m quot dv n d Hd L O) as (F & L' & R & V).
  rewrite mpn_mod_1_spec by assumption. cbn zeta.
  set (r := mpn_divmod_1 m quot dv (S n) d) in *.
  assert (E : snd r = val m dv (S n) mod d)
    by (apply (Z.mod_unique _ _ (val (fst r) quot (S n))); lia).
  split; [exact F|]. split; [exact L'|]. split; [|split; [exact E | symmetry; exact E]].
  apply (Z.div_unique _ _ _ (snd r)); lia.
Qed.

Lemma mpn_divmod_1_correct_witness :
  val (fst (mpn_divmod_1 wit_div 0 0 5 10)) 0 5 = val wit_div 0 5 / 10.
Proof.
  apply (mpn_divmod_1_correct wit_div 0 0 5 10); [split; reflexivity | lia | now apply limbsb_ok | lia].
Defined.

(** When fraction limbs are asked for and [nsize = dsize], the default case
    writes one limb beyond the dividend: [MPN_COPY_DECR (np + 1, np, dsize)]
    stores [np[dsize]]. *)
Example divrem_writes_above_dividend :
  let m := put (put (fun _ => 99) 0 [1; 2; 3]) 20 [0; 0; 2 ^ 63] in
  option_map (fun r => fst r 3) (mpn_divrem m 100 1 0 3 20 3) = Some 3 /\ m 3 = 99.
Proof. vm_compute. split; reflexivity. Qed.
