(* ===== verification/Qsort.v ===== *)
(** * Sorting and binary search (stdlib/qsort.c, bits/stdlib-bsearch.h)

    An array of [n] objects is the list of its elements; an address
    [base + i * size] is the index [i].  Every access to the array goes through
    a partial lookup and every write to the temporary buffer of the merge sort
    is checked against the size of that buffer in bytes, so a routine that
    returns [Some] made no access outside the array or the buffer.  The byte
    level appears in [do_swap], which is modelled on the byte memory. *)

From Stdlib Require Import ZArith Lia Sorted.
From stdpp Require Import base list option sorting gmap sets fin_sets.
From S2P Require Import Prelude.
#[local] Open Scope Z_scope.

(** ** Swapping the bytes of two objects *)

Inductive swap_type_t := SWAP_WORDS_64 | SWAP_WORDS_32 | SWAP_VOID_ARG | SWAP_BYTES.

(** [swap_words_64] ([w = 8]) and [swap_words_32] ([w = 4]): the do-while loop
    over [n = w * words] bytes, from the last word down. *)
Fixpoint swap_words (w : nat) (words : nat) (m : mem) (a b : Z) : mem :=
  match words with
  | O => m
  | S i =>
      let n := Z.of_nat w * Z.of_nat i in
      let t := load_le w m (a + n) in
      let m := store_le w m (a + n) (load_le w m (b + n)) in
      let m := store_le w m (b + n) t in
      swap_words w i m a b
  end.

(** [memcpy]: the bytes are read before any is written (the regions of the
    callers do not overlap). *)
Definition block_copy (m : mem) (dst src : Z) (n : Z) : mem :=
  fun x => if (dst <=? x) && (x <? dst + n) then m (src + (x - dst)) else m x.

Definition SWAP_GENERIC_SIZE : Z := 32.

(** The byte loop of [__memswap] with [n] bytes left. *)
Fixpoint memswap_bytes (n : nat) (m : mem) (p1 p2 : Z) : mem :=
  match n with
  | O => m
  | S k =>
      let t := m (p1 + Z.of_nat k) in
      let m := upd m (p1 + Z.of_nat k) (m (p2 + Z.of_nat k)) in
      let m := upd m (p2 + Z.of_nat k) t in
      memswap_bytes k m p1 p2
  end.

(** The block loop of [__memswap], [while (n > SWAP_GENERIC_SIZE)], with the
    local buffer at [tmp]. *)
Fixpoint memswap_blocks (fuel : nat) (m : mem) (p1 p2 n tmp : Z) : mem * Z * Z * Z :=
  match fuel with
  | O => (m, p1, p2, n)
  | S fuel =>
      if n >? SWAP_GENERIC_SIZE then
        let m := block_copy m tmp p1 SWAP_GENERIC_SIZE in
        let m := block_copy m p1 p2 SWAP_GENERIC_SIZE in
        let p1 := p1 + SWAP_GENERIC_SIZE in
        let m := block_copy m p2 tmp SWAP_GENERIC_SIZE in
        let p2 := p2 + SWAP_GENERIC_SIZE in
        memswap_blocks fuel m p1 p2 (n - SWAP_GENERIC_SIZE) tmp
      else (m, p1, p2, n)
  end.

Definition memswap (m : mem) (p1 p2 : Z) (n : Z) (tmp : Z) : mem :=
  let '(m, p1, p2, n) := memswap_blocks (Z.to_nat n) m p1 p2 n tmp in
  memswap_bytes (Z.to_nat n) m p1 p2.

Definition do_swap (m : mem) (a b size tmp : Z) (swap_type : swap_type_t) : mem :=
  match swap_type with
  | SWAP_WORDS_64 => swap_words 8 (Z.to_nat (size / 8)) m a b
  | SWAP_WORDS_32 => swap_words 4 (Z.to_nat (size / 4)) m a b
  | _ => memswap m a b size tmp
  end.

(** Alignments and sizes of [uint32_t] and [uint64_t] are 4 and 8. *)
Definition get_swap_type (pbase size : Z) : swap_type_t :=
  if (Z.land size (4 - 1) =? 0) && (pbase mod 4 =? 0) then
    if size =? 4 then SWAP_WORDS_32
    else if (size =? 8) && (pbase mod 8 =? 0) then SWAP_WORDS_64
    else SWAP_BYTES
  else SWAP_BYTES.

Definition QSORT_STACK_SIZE : Z := 1024.
Definition INDIRECT_SORT_SIZE_THRES : Z := 32.
Definition sizeof_ptr : Z := 8.

Section Sorting.
Context {A : Type} (cmp : A -> A -> Z).

(** ** Heapsort *)

(** Exchanging two elements of the array ([do_swap] on their bytes). *)
Definition swap_elts (base : list A) (i j : nat) : option (list A) :=
  x ← base !! i; y ← base !! j; Some (<[j := x]> (<[i := y]> base)).

Definition cmp_at (base : list A) (i j : nat) : option Z :=
  x ← base !! i; y ← base !! j; Some (cmp x y).

Fixpoint siftdown (fuel : nat) (base : list A) (k n : nat) : option (list A) :=
  match fuel with
  | O => None
  | S fuel =>
      if decide (2 * k + 1 <= n)%nat then
        let j := (2 * k + 1)%nat in
        j ← (if decide (j < n)%nat then
               c ← cmp_at base j (j + 1); Some (if c <? 0 then (j + 1)%nat else j)
             else Some j);
        stop ← (if decide (j = k) then Some true
                else c ← cmp_at base k j; Some (c >=? 0));
        if stop : bool then Some base
        else
          base ← swap_elts base j k;
          siftdown fuel base j n
      else Some base
  end.

(** [while (1) { siftdown (k); if (k-- == 0) break; }] *)
Fixpoint heapify_loop (base : list A) (k n : nat) : option (list A) :=
  base ← siftdown (S n) base k n;
  match k with
  | O => Some base
  | S k => heapify_loop base k n
  end.

Definition heapify (base : list A) (n : nat) : option (list A) :=
  heapify_loop base (n / 2) n.

(** The extraction loop; the heap is at the indices [0 .. n], [n > 0]. *)
Fixpoint heapsort_loop (base : list A) (n : nat) : option (list A) :=
  match n with
  | O => Some base
  | S n' =>
      base ← swap_elts base 0 n;
      match n' with
      | O => Some base
      | S _ =>
          base ← siftdown (S n') base 0 n';
          heapsort_loop base n'
      end
  end.

Definition heapsort_r (base : list A) (n : nat) : option (list A) :=
  if decide (n = 0)%nat then Some base
  else base ← heapify base n; heapsort_loop base n.

End Sorting.

(** ** Merge sort *)

(** [struct msort_param].  Of the buffer the field [t] points to, [t_size] is
    the number of bytes; what is in it is threaded through the loops.  [cmp]
    fails when it would follow a pointer out of the array. *)
Record msort_param (A : Type) := {
  s : Z;
  var : swap_type_t;
  compar : A -> A -> option Z;
  t_size : Z
}.
Arguments s {_}. Arguments var {_}. Arguments compar {_}. Arguments t_size {_}.

(** The bytes copied, and the steps of [b1], [b2] and [tmp], in the four
    merging loops. *)
Definition copy_width {A} (p : msort_param A) : Z :=
  match var p with
  | SWAP_WORDS_32 => 4
  | SWAP_WORDS_64 => 8
  | SWAP_VOID_ARG => sizeof_ptr
  | SWAP_BYTES => s p
  end.

Section MergeSort.
Context {A : Type}.

(** Copying the elements [xs], [w] bytes each, to the buffer behind the
    elements [tmp] already there.  A width other than the element size would
    tear the objects. *)
Definition tmp_write (p : msort_param A) (w : Z) (tmp xs : list A) : option (list A) :=
  if (w =? s p) && (Z.of_nat (length tmp + length xs) * s p <=? t_size p)
  then Some (tmp ++ xs) else None.

(** Reading and writing [k] consecutive elements of the array. *)
Definition read_elts (arr : list A) (i k : nat) : option (list A) :=
  if decide (i + k <= length arr)%nat then Some (take k (drop i arr)) else None.
Definition write_elts (arr : list A) (i : nat) (xs : list A) : option (list A) :=
  if decide (i + length xs <= length arr)%nat
  then Some (take i arr ++ xs ++ drop (i + length xs) arr) else None.

(** [while (n1 > 0 && n2 > 0)], once for each way to copy an element. *)
Fixpoint merge_loop (p : msort_param A) (fuel : nat) (arr : list A) (b1 n1 b2 n2 : nat)
    (tmp : list A) : option (nat * nat * nat * list A) :=
  match fuel with
  | O => None
  | S fuel =>
      if decide (0 < n1 /\ 0 < n2)%nat then
        x ← arr !! b1;
        y ← arr !! b2;
        c ← compar p x y;
        if c <=? 0 then
          tmp ← tmp_write p (copy_width p) tmp [x];
          merge_loop p fuel arr (b1 + 1) (n1 - 1) b2 n2 tmp
        else
          tmp ← tmp_write p (copy_width p) tmp [y];
          merge_loop p fuel arr b1 n1 (b2 + 1) (n2 - 1) tmp
      else Some (b1, n1, n2, tmp)
  end.

(** The code after the two recursive calls: merge into the buffer, append
    what is left of the first run, copy the buffer back over the first
    [n - n2] elements. *)
Definition msort_merge (p : msort_param A) (arr : list A) (b n : nat) : option (list A) :=
  let n1 := (n / 2)%nat in
  let n2 := (n - n1)%nat in
  '(b1, n1, n2, tmp) ← merge_loop p (S n) arr b n1 (b + n1) n2 [];
  tmp ← (if decide (0 < n1)%nat
         then xs ← read_elts arr b1 n1; tmp_write p (s p) tmp xs
         else Some tmp);
  out ← read_elts tmp 0 (n - n2);
  write_elts arr b out.

(** Sorting the [n] elements from [b] on. *)
Fixpoint msort_with_tmp (p : msort_param A) (fuel : nat) (arr : list A) (b n : nat)
    : option (list A) :=
  match fuel with
  | O => None
  | S fuel =>
      if decide (n <= 1)%nat then Some arr
      else
        let n1 := (n / 2)%nat in
        let n2 := (n - n1)%nat in
        arr ← msort_with_tmp p fuel arr b n1;
        arr ← msort_with_tmp p fuel arr (b + n1) n2;
        msort_merge p arr b n
  end.
End MergeSort.

(** ** Indirect merge sort

    The pointer [tp[i] = b + k * s] is the index [k]. *)
Section Indirect.
Context {A : Type} (cmp : A -> A -> Z).

(** The do-while loop that follows a cycle: [tp[j] = jp; memcpy (jp, kp, s);
    j = k; jp = kp; kp = tp[k];] until [kp] is the start of the cycle, then
    the saved element is stored at [jp]. *)
Fixpoint cycle_loop (fuel : nat) (ip : nat) (saved : A) (b : list A) (tp : list nat)
    (j kp : nat) : option (list A * list nat) :=
  match fuel with
  | O => None
  | S fuel =>
      x ← b !! kp;
      let tp := <[j := j]> tp in
      let b := <[j := x]> b in
      let j := kp in
      kp ← tp !! j;
      if decide (kp = ip) then Some (<[j := saved]> b, <[j := j]> tp)
      else cycle_loop fuel ip saved b tp j kp
  end.

(** [for (i = 0, ip = b; i < n; i++, ip += s)] with [k] rounds left; [room]
    are the bytes of the buffer from [tmp_storage] on. *)
Fixpoint cycle_leader (room size : Z) (k : nat) (i : nat) (b : list A) (tp : list nat)
    : option (list A * list nat) :=
  match k with
  | O => Some (b, tp)
  | S k =>
      kp ← tp !! i;
      '(b, tp) ←
        (if decide (kp = i) then Some (b, tp)
         else saved ← (if size <=? room then b !! i else None);
              cycle_loop (length b) i saved b tp i kp);
      cycle_leader room size k (S i) b tp
  end.

(** Comparing two pointers compares the objects they point to. *)
Definition ptr_cmp (b : list A) (i j : nat) : option Z :=
  x ← b !! i; y ← b !! j; Some (cmp x y).

(** The buffer holds [n] pointers of scratch space, the [n] pointers at [tp]
    and one object at [tmp_storage].  The pointers are sorted in the buffer
    itself, so their sort has the part in front of [tp] as its own buffer. *)
Definition indirect_msort_with_tmp (p : msort_param nat) (b : list A) (size : Z)
    : option (list A) :=
  let n := length b in
  let tp_off := Z.of_nat n * sizeof_ptr in
  let tmp_storage := tp_off + Z.of_nat n * sizeof_ptr in
  if tmp_storage <=? t_size p then
    tp ← msort_with_tmp
           {| s := s p; var := var p; compar := compar p; t_size := tp_off |}
           (S n) (seq 0 n) 0 n;
    '(b, _) ← cycle_leader (t_size p - tmp_storage) size n 0 b tp;
    Some b
  else None.

(** [buf] is the size in bytes of the buffer. *)
Definition qsort_r_mergesort (pbase : Z) (base : list A) (size buf : Z) : option (list A) :=
  if size >? INDIRECT_SORT_SIZE_THRES then
    indirect_msort_with_tmp
      {| s := sizeof_ptr; var := SWAP_VOID_ARG; compar := ptr_cmp base; t_size := buf |}
      base size
  else
    msort_with_tmp
      {| s := size; var := get_swap_type pbase size;
         compar := fun x y => Some (cmp x y); t_size := buf |}
      (S (length base)) base 0 (length base).

(** [malloc] is the allocator's answer for the request. *)
Definition qsort_r_malloc (malloc : Z -> bool) (pbase : Z) (base : list A) (size total_size : Z)
    : option (option (list A)) :=
  if malloc total_size then Some <$> qsort_r_mergesort pbase base size total_size else Some None.

Definition qsort_r (malloc : Z -> bool) (pbase : Z) (base : list A) (size : Z)
    : option (list A) :=
  let total_elems := Z.of_nat (length base) in
  if total_elems <=? 1 then Some base
  else
    let total_size := wrap 64 (total_elems * size) in
    let total_size :=
      if size >? INDIRECT_SORT_SIZE_THRES
      then wrap 64 (2 * total_elems * sizeof_ptr + size) else total_size in
    if total_size <=? QSORT_STACK_SIZE then qsort_r_mergesort pbase base size QSORT_STACK_SIZE
    else
      r ← qsort_r_malloc malloc pbase base size total_size;
      match r with
      | Some base => Some base
      | None => heapsort_r cmp base (length base - 1)
      end.
End Indirect.

(** ** Binary search *)

(** [bsearch]: [base] is the index of the first element of the window. *)
Fixpoint bsearch_loop {K A} (compar : K -> A -> Z) (fuel : nat) (key : K) (arr : list A)
    (base nmemb : nat) : option (option nat) :=
  match fuel with
  | O => None
  | S fuel =>
      if decide (nmemb = 0)%nat then Some None
      else
        let p := (base + nmemb / 2)%nat in
        x ← arr !! p;
        let comparison := compar key x in
        if comparison =? 0 then Some (Some p)
        else if comparison >? 0
        then bsearch_loop compar fuel key arr (p + 1) ((nmemb - 1) / 2)
        else bsearch_loop compar fuel key arr base (nmemb / 2)
  end.

Definition bsearch {K A} (compar : K -> A -> Z) (key : K) (arr : list A) : option (option nat) :=
  bsearch_loop compar (S (length arr)) key arr 0 (length arr).

(** * Swapping is exact *)

(** [m'] is [m] with the [n] bytes at [a] and at [b] exchanged; [T] is scratch
    space that may have changed. *)
Record exchanged (T : Z -> Prop) (m m' : mem) (a b n : Z) : Prop := {
  ex_a : forall i, 0 <= i < n -> m' (a + i) = m (b + i);
  ex_b : forall i, 0 <= i < n -> m' (b + i) = m (a + i);
  ex_out : forall x, ~ (a <= x < a + n) -> ~ (b <= x < b + n) -> ~ T x -> m' x = m x
}.

Lemma block_copy_in m dst src n i : 0 <= i < n -> block_copy m dst src n (dst + i) = m (src + i).
Proof.
  intros. unfold block_copy. replace (dst <=? dst + i) with true by (symmetry; lia).
  replace (dst + i <? dst + n) with true by (symmetry; lia). cbn. f_equal; lia.
Qed.

Lemma block_copy_out m dst src n x : ~ (dst <= x < dst + n) -> block_copy m dst src n x = m x.
Proof.
  intros. unfold block_copy. destruct (Z.leb_spec dst x), (Z.ltb_spec x (dst + n)); cbn; auto; lia.
Qed.

(** Exchanging two adjacent pieces, in either order, exchanges the whole. *)
Lemma exchanged_app (T : Z -> Prop) m m1 m2 a b o o' w w' :
  0 <= o -> 0 <= w -> 0 <= o' -> 0 <= w' ->
  (o = 0 /\ o' = w \/ o' = 0 /\ o = w') ->
  (a + (w + w') <= b \/ b + (w + w') <= a) ->
  (forall x, T x -> ~ (a <= x < a + (w + w')) /\ ~ (b <= x < b + (w + w'))) ->
  exchanged T m m1 (a + o) (b + o) w -> exchanged T m1 m2 (a + o') (b + o') w' ->
  exchanged T m m2 a b (w + w').
Proof.
  intros ? ? ? ? Ho D HT [A1 B1 O1] [A2 B2 O2].
  assert (K1 : forall x, ~ (a + o <= x < a + o + w) -> ~ (b + o <= x < b + o + w) ->
    (a <= x < a + (w + w') \/ b <= x < b + (w + w')) -> m1 x = m x).
  { intros x ? ? ?. apply O1; auto. intros Tx. apply HT in Tx. lia. }
  assert (K2 : forall x, ~ (a + o' <= x < a + o' + w') -> ~ (b + o' <= x < b + o' + w') ->
    (a <= x < a + (w + w') \/ b <= x < b + (w + w')) -> m2 x = m1 x).
  { intros x ? ? ?. apply O2; auto. intros Tx. apply HT in Tx. lia. }
  constructor.
  - intros i Hi. destruct (decide (o' <= i < o' + w')).
    + replace (a + i) with (a + o' + (i - o')) by lia. rewrite A2, K1 by lia. f_equal; lia.
    + rewrite K2 by lia. replace (a + i) with (a + o + (i - o)) by lia. rewrite A1 by lia.
      f_equal; lia.
  - intros i Hi. destruct (decide (o' <= i < o' + w')).
    + replace (b + i) with (b + o' + (i - o')) by lia. rewrite B2, K1 by lia. f_equal; lia.
    + rewrite K2 by lia. replace (b + i) with (b + o + (i - o)) by lia. rewrite B1 by lia.
      f_equal; lia.
  - intros x ? ? ?. rewrite O2, O1 by (assumption || lia). reflexivity.
Qed.

Lemma exchanged_nil T m a b : exchanged T m m a b 0.
Proof. constructor; intros; try lia; reflexivity. Qed.

Lemma exchanged_bytes T m m' a b n : exchanged T m m' a b n -> bytes m a n -> bytes m b n ->
  bytes m' a n /\ bytes m' b n.
Proof.
  intros [A B _] Ba Bb. split; intros x Hx.
  - replace x with (a + (x - a)) by lia. rewrite A by lia. apply Bb; lia.
  - replace x with (b + (x - b)) by lia. rewrite B by lia. apply Ba; lia.
Qed.

#[local] Abbreviation no_scratch := (fun _ : Z => False).

(** One word exchanged through a register. *)
Lemma swap_word_spec w m a b : (a + Z.of_nat w <= b \/ b + Z.of_nat w <= a) ->
  bytes m a (Z.of_nat w) -> bytes m b (Z.of_nat w) ->
  exchanged no_scratch m
    (store_le w (store_le w m a (load_le w m b)) b (load_le w m a)) a b (Z.of_nat w).
Proof.
  intros D Ba Bb. destruct (store_load w m m a b Bb) as [F1 E1].
  set (m1 := store_le w m a (load_le w m b)) in *.
  destruct (store_load w m m1 b a Ba) as [F2 E2]. cbn zeta in *. constructor.
  - intros i Hi. rewrite F2 by lia. now apply E1.
  - intros i Hi. now apply E2.
  - intros x ? ? _. rewrite F2, F1 by lia. reflexivity.
Qed.

Lemma swap_words_spec w words : forall m a b,
  let n := Z.of_nat w * Z.of_nat words in
  (a + n <= b \/ b + n <= a) -> bytes m a n -> bytes m b n ->
  exchanged no_scratch m (swap_words w words m a b) a b n.
Proof.
  induction words as [|i IH]; intros m a b n D Ba Bb; cbn [swap_words].
  { unfold n. rewrite Z.mul_0_r. apply exchanged_nil. }
  set (o := Z.of_nat w * Z.of_nat i) in *. assert (En : n = Z.of_nat w + o) by lia.
  pose proof (swap_word_spec w m (a + o) (b + o) ltac:(lia)) as X. cbn zeta.
  specialize (X ltac:(intros x ?; apply Ba; lia) ltac:(intros x ?; apply Bb; lia)).
  set (m1 := store_le w (store_le w m (a + o) _) _ _) in *. rewrite En.
  assert (Hb : bytes m1 a o /\ bytes m1 b o).
  { split; intros x Hx; rewrite (ex_out _ _ _ _ _ _ X) by (auto; lia);
      [apply Ba | apply Bb]; lia. }
  destruct Hb as [Ba1 Bb1].
  pose proof (IH m1 a b ltac:(fold o; lia) Ba1 Bb1) as Y. fold o in Y.
  apply (exchanged_app _ m m1 _ a b o 0); auto; try lia; try tauto.
  now rewrite !Z.add_0_r.
Qed.

Lemma memswap_bytes_spec k : forall m a b,
  (a + Z.of_nat k <= b \/ b + Z.of_nat k <= a) ->
  exchanged no_scratch m (memswap_bytes k m a b) a b (Z.of_nat k).
Proof.
  induction k as [|k IH]; intros m a b D; cbn [memswap_bytes]; [apply exchanged_nil|].
  set (o := Z.of_nat k). replace (Z.of_nat (S k)) with (1 + o) by lia.
  set (m1 := upd (upd m (a + o) (m (b + o))) (b + o) (m (a + o))).
  apply (exchanged_app _ m m1 _ a b o 0); try lia; try tauto.
  - constructor; unfold m1.
    + intros i Hi. replace (a + o + i) with (a + o) by lia. rewrite upd_ne by lia.
      rewrite upd_eq. f_equal; lia.
    + intros i Hi. replace (b + o + i) with (b + o) by lia. rewrite upd_eq. f_equal; lia.
    + intros x ? ? _. rewrite !upd_ne by lia. reflexivity.
  - rewrite !Z.add_0_r. apply IH. lia.
Qed.

(** The 32-byte scratch buffer at [tmp] is apart from both objects. *)
Lemma memswap_blocks_spec tmp k : forall m a b n, 0 <= n <= Z.of_nat k ->
  let T x := tmp <= x < tmp + SWAP_GENERIC_SIZE in
  (a + n <= b \/ b + n <= a) -> (forall x, T x -> ~ (a <= x < a + n) /\ ~ (b <= x < b + n)) ->
  exists m' o, memswap_blocks k m a b n tmp = (m', a + o, b + o, n - o) /\ 0 <= o <= n /\
    exchanged T m m' a b o.
Proof.
  induction k as [|k IH]; intros m a b n Hn T D HT; cbn [memswap_blocks].
  { exists m, 0. rewrite !Z.add_0_r, Z.sub_0_r.
    split; [reflexivity|]. split; [lia | apply exchanged_nil]. }
  change SWAP_GENERIC_SIZE with 32 in *. rewrite Z.gtb_ltb.
  destruct (Z.ltb_spec 32 n) as [Hl|Hl].
  2:{ exists m, 0. rewrite !Z.add_0_r, Z.sub_0_r.
      split; [reflexivity|]. split; [lia | apply exchanged_nil]. }
  set (m1 := block_copy m tmp a 32). set (m2 := block_copy m1 a b 32). set (m3 := block_copy m2 b tmp 32).
  assert (Hd : forall x, tmp <= x < tmp + 32 -> ~ (a <= x < a + n) /\ ~ (b <= x < b + n)) by exact HT.
  assert (X : exchanged T m m3 a b 32).
  { constructor; unfold m3, m2, m1.
    - intros i Hi. rewrite block_copy_out, block_copy_in by lia. apply block_copy_out.
      intros Ht. apply Hd in Ht. lia.
    - intros i Hi. rewrite block_copy_in by lia. rewrite block_copy_out; [now apply block_copy_in|].
      destruct (Hd (tmp + i)); lia.
    - intros x ? ? Nt. rewrite !block_copy_out by (assumption || lia). reflexivity. }
  destruct (IH m3 (a + 32) (b + 32) (n - 32)) as (m' & o & E & Ho & Y); [lia | lia | |].
  { intros x Hx. apply Hd in Hx. lia. }
  exists m', (32 + o). rewrite E. split; [f_equal; [f_equal; [f_equal|]|]; lia|].
  split; [lia|]. apply (exchanged_app _ m m3 _ a b 0 32); auto; try lia.
  - intros x Hx. apply Hd in Hx. lia.
  - now rewrite !Z.add_0_r.
Qed.

Lemma memswap_spec m a b n tmp : let T x := tmp <= x < tmp + SWAP_GENERIC_SIZE in
  0 <= n -> (a + n <= b \/ b + n <= a) ->
  (forall x, T x -> ~ (a <= x < a + n) /\ ~ (b <= x < b + n)) ->
  exchanged T m (memswap m a b n tmp) a b n.
Proof.
  intros T Hn D HT. unfold memswap.
  destruct (memswap_blocks_spec tmp (Z.to_nat n) m a b n) as (m' & o & -> & Ho & X);
    auto; [lia|].
  set (r := Z.to_nat (n - o)). assert (Er : n = o + Z.of_nat r) by lia.
  pose proof (memswap_bytes_spec r m' (a + o) (b + o) ltac:(lia)) as [A B O]. rewrite Er.
  apply (exchanged_app _ m m' _ a b 0 o); auto; try lia.
  - rewrite <- Er. exact HT.
  - now rewrite !Z.add_0_r.
  - constructor; auto.
Qed.

(** * Merge sort *)

(** What a comparison callback promises: swapping the arguments swaps the sign
    and "not greater" is transitive. *)
Class Comparator {A} (cmp : A -> A -> Z) : Prop := {
  cmp_anti x y : cmp x y <= 0 <-> 0 <= cmp y x;
  cmp_trans x y z : cmp x y <= 0 -> cmp y z <= 0 -> cmp x z <= 0
}.

Definition cle {A} (cmp : A -> A -> Z) (x y : A) : Prop := cmp x y <= 0.
#[global] Instance cle_dec {A} (cmp : A -> A -> Z) x y : Decision (cle cmp x y).
Proof. unfold cle. apply _. Defined.

Definition equiv_to {A} (cmp : A -> A -> Z) (x y : A) : Prop := cmp x y = 0.
#[global] Instance equiv_to_dec {A} (cmp : A -> A -> Z) x y : Decision (equiv_to cmp x y).
Proof. unfold equiv_to. apply _. Defined.

(** The sort the routine refines: halve, sort, merge. *)
Fixpoint msort_ref {A} (cmp : A -> A -> Z) (fuel : nat) (l : list A) : list A :=
  match fuel with
  | O => l
  | S fuel =>
      if decide (length l <= 1)%nat then l
      else list_merge (cle cmp) (msort_ref cmp fuel (take (length l / 2) l))
             (msort_ref cmp fuel (drop (length l / 2) l))
  end.

Section MergeRef.
Context {A : Type} (cmp : A -> A -> Z).

Lemma merge_length b1 b2 : length (list_merge (cle cmp) b1 b2) = (length b1 + length b2)%nat.
Proof using Type. rewrite merge_Permutation. apply length_app. Qed.

Lemma msort_unfold f l : (1 < length l)%nat ->
  msort_ref cmp (S f) l =
    list_merge (cle cmp) (msort_ref cmp f (take (length l / 2) l))
      (msort_ref cmp f (drop (length l / 2) l)).
Proof using Type. intros H. cbn [msort_ref]. destruct (decide _); [lia | reflexivity]. Qed.

(** Any property of lists of length at most one that merging preserves
    holds of the result. *)
Lemma msort_ind (P : list A -> list A -> Prop) :
  (forall l, (length l <= 1)%nat -> P l l) ->
  (forall l1 l2 s1 s2, P l1 s1 -> P l2 s2 ->
     P (l1 ++ l2) (list_merge (cle cmp) s1 s2)) ->
  forall f l, (length l <= f)%nat -> P l (msort_ref cmp f l).
Proof using Type.
  intros H1 H2. induction f as [|f IH]; intros l Hl; [apply (H1 l); lia|].
  destruct (decide (length l <= 1)%nat) as [H|H].
  { cbn [msort_ref]. rewrite decide_True by assumption. now apply H1. }
  rewrite msort_unfold by lia.
  pose proof (Nat.div_lt (length l) 2 ltac:(lia) ltac:(lia)).
  assert (0 < length l / 2)%nat by (apply Nat.div_str_pos; lia).
  rewrite <- (take_drop (length l / 2) l) at 1.
  apply H2; apply IH; rewrite ?length_take, ?length_drop; lia.
Qed.

Lemma msort_Permutation f l : (length l <= f)%nat -> msort_ref cmp f l ≡ₚ l.
Proof using Type.
  apply (msort_ind (fun l s => s ≡ₚ l)); [reflexivity|].
  intros l1 l2 s1 s2 E1 E2. now rewrite merge_Permutation, E1, E2.
Qed.
End MergeRef.

(** The routine and the reference, on a buffer that holds the array. *)
Section MergeImpl.
Context {A : Type} (cmp : A -> A -> Z) (p : msort_param A).
Context (Hw : copy_width p = s p) (Hs : 0 <= s p).

(** The callback answers on the elements of [l] what [cmp] answers. *)
Definition answers (l : list A) : Prop :=
  forall x y, x ∈ l -> y ∈ l -> compar p x y = Some (cmp x y).

Lemma answers_sub l l' : l' ⊆ l -> answers l -> answers l'.
Proof using Type. intros Sub H x y Hx Hy. apply H; now apply Sub. Qed.

Lemma tmp_write_ok w tmp xs : w = s p ->
  Z.of_nat (length tmp + length xs) * s p <= t_size p ->
  tmp_write p w tmp xs = Some (tmp ++ xs).
Proof using Type.
  intros -> H. unfold tmp_write. rewrite Z.eqb_refl. now apply Z.leb_le in H as ->.
Qed.

(** The loop, seen as a prefix of the reference merge of the runs [l1] and
    [l2] of the array. *)
Lemma merge_loop_spec fuel : forall arr u1 l1 v1 u2 l2 v2 tmp,
  arr = u1 ++ l1 ++ v1 -> arr = u2 ++ l2 ++ v2 -> answers (l1 ++ l2) ->
  (length l1 + length l2 < fuel)%nat ->
  Z.of_nat (length tmp + length l1 + length l2) * s p <= t_size p ->
  exists p1 p2 r1 r2 out,
    merge_loop p fuel arr (length u1) (length l1) (length u2) (length l2) tmp =
      Some (length u1 + length p1, length r1, length r2, tmp ++ out)%nat /\
    l1 = p1 ++ r1 /\ l2 = p2 ++ r2 /\ length out = (length p1 + length p2)%nat /\
    list_merge (cle cmp) l1 l2 = out ++ r1 ++ r2.
Proof using Hs Hw.
  induction fuel as [|f IH]; intros arr u1 l1 v1 u2 l2 v2 tmp E1 E2 Ha Hf Hb; [lia|].
  cbn [merge_loop].
  destruct l1 as [|x l1]; [exists [], [], [], l2, []; cbn; rewrite app_nil_r, Nat.add_0_r;
    now destruct l2|].
  destruct l2 as [|y l2]; [exists [], [], (x :: l1), [], []; cbn;
    now rewrite !app_nil_r, Nat.add_0_r|].
  rewrite decide_True by (cbn [length]; lia).
  assert (arr !! length u1 = Some x) as -> by (rewrite E1; now apply list_lookup_middle).
  assert (arr !! length u2 = Some y) as -> by (rewrite E2; now apply list_lookup_middle).
  cbn [mbind option_bind].
  rewrite Ha by set_solver. cbn [mbind option_bind]. rewrite list_merge_cons.
  cbn [length] in Hb, Hf.
  assert (Hb1 : Z.of_nat (length tmp + 1) * s p <= t_size p) by nia.
  destruct (Z.leb_spec (cmp x y) 0); destruct (decide (cle cmp x y)) as [c|c];
    unfold cle in c; try lia; rewrite tmp_write_ok by (assumption || exact Hb1);
    cbn [mbind option_bind length]; rewrite Nat.sub_succ, Nat.sub_0_r.
  - destruct (IH arr (u1 ++ [x]) l1 v1 u2 (y :: l2) v2 (tmp ++ [x]))
      as (p1 & p2 & r1 & r2 & out & E & -> & -> & L & M); auto.
    + rewrite E1, <- app_assoc. reflexivity.
    + eapply answers_sub; [|exact Ha]. set_solver.
    + cbn [length]. lia.
    + rewrite length_app. cbn [length]. etransitivity; [|exact Hb]. apply Z.eq_le_incl. f_equal. lia.
    + exists (x :: p1), p2, r1, r2, (x :: out). rewrite length_app in E. cbn [length] in E.
      rewrite E, <- (app_assoc tmp), M. cbn [length app].
      split; [f_equal; f_equal; f_equal; f_equal; lia|]. auto with lia.
  - destruct (IH arr u1 (x :: l1) v1 (u2 ++ [y]) l2 v2 (tmp ++ [y]))
      as (p1 & p2 & r1 & r2 & out & E & E1' & -> & L & M); auto.
    + rewrite E2, <- app_assoc. reflexivity.
    + eapply answers_sub; [|exact Ha]. set_solver.
    + cbn [length]. lia.
    + rewrite length_app. cbn [length]. etransitivity; [|exact Hb]. apply Z.eq_le_incl. f_equal. lia.
    + exists p1, (y :: p2), r1, r2, (y :: out). rewrite length_app in E. cbn [length] in E.
      rewrite E, <- (app_assoc tmp), M. cbn [length app]. auto with lia.
Qed.

Lemma write_elts_app (u l v xs r : list A) : (length xs + length r = length l)%nat ->
  r = drop (length xs) l ->
  write_elts (u ++ l ++ v) (length u) xs = Some (u ++ (xs ++ r) ++ v).
Proof using Type.
  intros Hl ->. unfold write_elts. rewrite !length_app in *. rewrite length_drop in Hl.
  rewrite decide_True by lia. f_equal. rewrite take_app_length, drop_app_add.
  rewrite drop_app_le by lia. now rewrite <- app_assoc.
Qed.

(** Two adjacent runs are merged in place. *)
Lemma msort_merge_spec u s1 s2 v : answers (s1 ++ s2) ->
  let n := (length s1 + length s2)%nat in length s1 = (n / 2)%nat ->
  Z.of_nat n * s p <= t_size p ->
  msort_merge p (u ++ (s1 ++ s2) ++ v) (length u) n =
    Some (u ++ list_merge (cle cmp) s1 s2 ++ v).
Proof using Hs Hw.
  intros Ha n Hn Hb. unfold msort_merge. rewrite <- Hn.
  replace (n - length s1)%nat with (length s2) by lia.
  destruct (merge_loop_spec (S n) (u ++ (s1 ++ s2) ++ v) u s1 (s2 ++ v) (u ++ s1) s2 v [])
    as (p1 & p2 & r1 & r2 & out & E & E1 & E2 & L & M); auto;
    try (now rewrite <- !app_assoc); try exact Hb.
  rewrite length_app in E. rewrite E. cbn [mbind option_bind app]. clear E.
  assert (Hl : n = (length p1 + length r1 + (length p2 + length r2))%nat)
    by (unfold n; rewrite E1, E2, !length_app; lia).
  set (m := if decide _ then _ else _). assert (m = Some (out ++ r1)) as ->.
  { unfold m. destruct (decide (0 < length r1)%nat) as [H|H].
    - unfold read_elts. rewrite decide_True by (rewrite E1, !length_app; lia).
      cbn [mbind option_bind]. rewrite drop_app_add, E1, <- !app_assoc, drop_app_length, take_app_length.
      apply tmp_write_ok; [reflexivity|]. etransitivity; [|exact Hb]. nia.
    - destruct r1; [now rewrite app_nil_r | cbn in H; lia]. }
  cbn [mbind option_bind]. unfold read_elts. rewrite length_app, decide_True by lia.
  rewrite drop_0, take_ge by (rewrite length_app; lia). cbn [mbind option_bind].
  rewrite (write_elts_app u (s1 ++ s2) v (out ++ r1) r2).
  - now rewrite M, <- !app_assoc.
  - rewrite !length_app, E1, E2, !length_app. lia.
  - rewrite E1, E2, length_app, <- app_assoc, app_assoc, app_assoc.
    symmetry. apply drop_app_length'. rewrite !length_app. lia.
Qed.

Lemma msort_with_tmp_ref fuel : forall u l v, (length l <= fuel)%nat -> answers l ->
  Z.of_nat (length l) * s p <= t_size p ->
  msort_with_tmp p (S fuel) (u ++ l ++ v) (length u) (length l) =
    Some (u ++ msort_ref cmp fuel l ++ v).
Proof using Hs Hw.
  induction fuel as [|f IH]; intros u l v Hl Ha Hb.
  { cbn [msort_with_tmp msort_ref]. rewrite decide_True by lia. reflexivity. }
  remember (S f) as f' eqn:Ef. cbn [msort_with_tmp]. subst f'.
  destruct (decide (length l <= 1)%nat) as [H|H].
  { cbn [msort_ref]. now rewrite decide_True. }
  rewrite msort_unfold by lia. set (h := (length l / 2)%nat).
  assert (h < length l)%nat by (apply Nat.div_lt; lia).
  assert (0 < h)%nat by (apply Nat.div_str_pos; lia).
  assert (Lt : length (take h l) = h) by (rewrite length_take; lia).
  assert (Ld : length (drop h l) = (length l - h)%nat) by apply length_drop.
  set (s1 := msort_ref cmp f (take h l)). set (s2 := msort_ref cmp f (drop h l)).
  assert (P1 : s1 ≡ₚ take h l) by (apply msort_Permutation; lia).
  assert (P2 : s2 ≡ₚ drop h l) by (apply msort_Permutation; lia).
  assert (L1 : length s1 = h) by (rewrite P1; lia).
  assert (L2 : length s2 = (length l - h)%nat) by (rewrite P2; lia).
  assert (C1 := IH u (take h l) (drop h l ++ v)). rewrite Lt in C1.
  replace (u ++ take h l ++ drop h l ++ v) with (u ++ l ++ v) in C1
    by now rewrite (app_assoc (take h l)), take_drop.
  rewrite C1; [|lia | eapply answers_sub; [apply subseteq_take | exact Ha] | nia].
  cbn [mbind option_bind]. fold s1.
  assert (C2 := IH (u ++ s1) (drop h l) v). rewrite Ld, length_app, L1, <- !app_assoc in C2.
  rewrite C2; [|lia | eapply answers_sub; [apply subseteq_drop | exact Ha] | nia].
  cbn [mbind option_bind]. fold s2.
  replace (u ++ s1 ++ s2 ++ v) with (u ++ (s1 ++ s2) ++ v) by now rewrite <- !app_assoc.
  replace (length l) with (length s1 + length s2)%nat by lia. apply msort_merge_spec.
  - intros x y Hx Hy. apply Ha; rewrite <- (take_drop h l); [rewrite P1, P2 in Hx | rewrite P1, P2 in Hy];
      assumption.
  - rewrite L1, L2. unfold h at 1. f_equal. lia.
  - rewrite L1, L2. etransitivity; [|exact Hb]. apply Z.eq_le_incl. f_equal. lia.
Qed.

(** The whole array. *)
Lemma msort_whole l : answers l -> Z.of_nat (length l) * s p <= t_size p ->
  msort_with_tmp p (S (length l)) l 0 (length l) = Some (msort_ref cmp (length l) l).
Proof using Hs Hw.
  intros Ha Hb. pose proof (msort_with_tmp_ref (length l) [] l [] ltac:(lia) Ha Hb) as E.
  cbn [app] in E. now rewrite !app_nil_r in E.
Qed.
End MergeImpl.

Section MergeSorted.
Context {A : Type} (cmp : A -> A -> Z) `{!Comparator cmp}.

#[local] Instance cle_total : Total (cle cmp).
Proof. intros x y. unfold cle. pose proof (cmp_anti x y). lia. Qed.

#[local] Instance cle_trans : Transitive (cle cmp).
Proof. intros x y z. apply cmp_trans. Qed.

Lemma cmp_sign x y : (cmp x y < 0 <-> 0 < cmp y x) /\ (cmp x y = 0 <-> cmp y x = 0).
Proof. pose proof (cmp_anti x y). pose proof (cmp_anti y x). lia. Qed.

(** Merging two sorted runs keeps the elements equivalent to [x] in order. *)
Lemma merge_stable x l1 : forall l2, StronglySorted (cle cmp) l1 ->
  filter (equiv_to cmp x) (list_merge (cle cmp) l1 l2)
  = filter (equiv_to cmp x) l1 ++ filter (equiv_to cmp x) l2.
Proof using Comparator0.
  induction l1 as [|x1 l1 IH1]; intros l2 S1; [now destruct l2|].
  pose proof (StronglySorted_inv S1) as [S1' F1].
  induction l2 as [|x2 l2 IH2]; [cbn; now rewrite app_nil_r|].
  rewrite list_merge_cons. destruct (decide (cle cmp x1 x2)) as [H|H].
  - rewrite !filter_cons. rewrite IH1 by assumption. rewrite filter_cons.
    destruct (decide (equiv_to cmp x x1)); reflexivity.
  - rewrite (filter_cons _ x2), IH2, (filter_cons _ x2).
    destruct (decide (equiv_to cmp x x2)) as [E|E]; [|reflexivity].
    assert (filter (equiv_to cmp x) (x1 :: l1) = []) as ->; [|reflexivity].
    assert (G : Forall (fun y => ~ equiv_to cmp x y) (x1 :: l1)).
    { assert (N : forall y, cle cmp x1 y -> ~ equiv_to cmp x y).
      { unfold cle, equiv_to in *. intros y Hy Ey. apply H.
        apply (cmp_trans x1 y x2); [assumption|].
        apply (cmp_trans y x x2); [|lia]. pose proof (cmp_sign x y). lia. }
      constructor; [apply N; unfold cle; pose proof (cmp_anti x1 x1); lia|].
      eapply Forall_impl; eauto. }
    clear -G. induction G as [|y l Hy G IH]; [reflexivity|].
    rewrite filter_cons, decide_False by assumption. exact IH.
Qed.

Lemma msort_sorted_stable f l : (length l <= f)%nat ->
  StronglySorted (cle cmp) (msort_ref cmp f l) /\
  forall x, filter (equiv_to cmp x) (msort_ref cmp f l) = filter (equiv_to cmp x) l.
Proof using Comparator0.
  apply (msort_ind cmp (fun l s => StronglySorted (cle cmp) s /\
    forall x, filter (equiv_to cmp x) s = filter (equiv_to cmp x) l)).
  - intros [|y [|z k]] H; cbn in H; [| |lia]; split; auto; repeat constructor.
  - intros l1 l2 s1 s2 [S1 F1] [S2 F2]. split.
    + apply Sorted_StronglySorted; [apply _|]. apply Sorted_list_merge; [apply _|..];
        now apply StronglySorted_Sorted.
    + intros x. rewrite merge_stable, F1, F2 by assumption. now rewrite filter_app.
Qed.
End MergeSorted.

(** * Indirect sorting *)

Lemma list_merge_map {A B} (cB : B -> B -> Z) (cA : A -> A -> Z) (f : B -> A) l1 : forall l2,
  (forall i j, i ∈ l1 -> j ∈ l2 -> cB i j = cA (f i) (f j)) ->
  f <$> list_merge (cle cB) l1 l2 = list_merge (cle cA) (f <$> l1) (f <$> l2).
Proof.
  induction l1 as [|x l1 IH1]; intros l2 H; [now destruct l2|].
  induction l2 as [|y l2 IH2]; [reflexivity|].
  rewrite !fmap_cons, !list_merge_cons.
  assert (E : cle cB x y <-> cle cA (f x) (f y)) by (unfold cle; rewrite (H x y) by set_solver; tauto).
  destruct (decide (cle cB x y)), (decide (cle cA (f x) (f y))); try tauto;
    rewrite fmap_cons; f_equal.
  - apply IH1. intros. apply H; auto using list_elem_of_further.
  - apply IH2. intros. apply H; auto using list_elem_of_further.
Qed.

(** Sorting commutes with a map that the comparisons see through. *)
Lemma msort_map {A B} (cB : B -> B -> Z) (cA : A -> A -> Z) (f : B -> A) fuel : forall l,
  (length l <= fuel)%nat ->
  (forall i j, i ∈ l -> j ∈ l -> cB i j = cA (f i) (f j)) ->
  f <$> msort_ref cB fuel l = msort_ref cA fuel (f <$> l).
Proof.
  induction fuel as [|k IH]; intros l Hl H; [reflexivity|].
  destruct (decide (length l <= 1)%nat) as [Hs|Hs].
  { cbn [msort_ref]. rewrite length_fmap, !decide_True by assumption. reflexivity. }
  rewrite !msort_unfold by (rewrite ?length_fmap; lia).
  rewrite length_fmap. set (h := (length l / 2)%nat).
  assert (h < length l)%nat by (apply Nat.div_lt; lia).
  assert (0 < h)%nat by (apply Nat.div_str_pos; lia).
  assert (Ht : forall i, i ∈ take h l -> i ∈ l) by (intros i; apply subseteq_take).
  assert (Hd : forall i, i ∈ drop h l -> i ∈ l) by (intros i; apply subseteq_drop).
  rewrite (list_merge_map cB cA f).
  - rewrite !IH by (rewrite ?length_take, ?length_drop; auto; lia).
    now rewrite fmap_take, fmap_drop.
  - intros i j. rewrite !msort_Permutation by (rewrite ?length_take, ?length_drop; lia). auto.
Qed.

(** Rearranging an array along the cycles of a permutation: [t] is the
    permutation and [a] the original contents. *)
Section Cycles.
Context {A : Type} (n : nat) (t : nat -> nat) (a : nat -> A).
Context (room size : Z) (Hroom : size <= room).
Context (t_inj : forall x y, (x < n)%nat -> (y < n)%nat -> t x = t y -> x = y).

(** [U] are the positions still to be filled, other than [j]. *)
Record cyc (U : gset nat) (hole : nat -> Prop) (b : list A) (tp : list nat) : Prop := {
  cyc_b : length b = n;
  cyc_tp : length tp = n;
  cyc_U : forall x, x ∈ U -> (x < n)%nat /\ t x <> x;
  cyc_todo : forall x, x ∈ U -> tp !! x = Some (t x) /\ b !! x = Some (a x);
  cyc_done : forall x, (x < n)%nat -> x ∉ U -> ~ hole x ->
    tp !! x = Some x /\ b !! x = Some (a (t x))
}.

#[local] Abbreviation no_hole := (fun _ : nat => False).

(** Filling the hole at [j]. *)
Lemma cyc_fill U j b tp : cyc U (eq j) b tp -> (j < n)%nat -> j ∉ U ->
  cyc U no_hole (<[j := a (t j)]> b) (<[j := j]> tp).
Proof using Type.
  intros [Lb Lt HU Ht Hd] Hj NU. constructor; rewrite ?length_insert; auto.
  - intros x Hx. assert (j <> x) by congruence. rewrite !list_lookup_insert_ne by assumption. auto.
  - intros x Hx Nx _. destruct (decide (j = x)) as [<-|].
    + rewrite !list_lookup_insert_eq by lia. auto.
    + rewrite !list_lookup_insert_ne by assumption. auto.
Qed.

(** Making a position to be filled the hole. *)
Lemma cyc_open U j b tp : cyc U no_hole b tp -> cyc (U ∖ {[j]}) (eq j) b tp.
Proof using Type.
  intros [Lb Lt HU Ht Hd]. constructor; auto.
  - intros x [Hx _]%elem_of_difference. auto.
  - intros x [Hx _]%elem_of_difference. auto.
  - intros x Hx Nx Nj. apply Hd; auto. intros HxU. apply Nx. apply elem_of_difference.
    split; [exact HxU|]. intros E%elem_of_singleton. congruence.
Qed.

(** Membership in a set with one element removed. *)
Lemma elem_of_minus (x j : nat) (U : gset nat) : x ∈ U ∖ {[j]} <-> x ∈ U /\ x <> j.
Proof using Type. rewrite elem_of_difference, elem_of_singleton. reflexivity. Qed.

Lemma cycle_loop_spec i fuel : (i < n)%nat -> forall U j b tp,
  cyc U (eq j) b tp -> (j < n)%nat -> j ∉ U -> i ∉ U -> t j <> i -> (base.size U <= fuel)%nat ->
  (forall x, x ∈ U \/ x = j -> t x ∈ U \/ t x = i) ->
  exists b' tp' U', cycle_loop fuel i (a i) b tp j (t j) = Some (b', tp') /\
    cyc U' no_hole b' tp' /\ (forall x, x ∈ U' -> x ∈ U) /\ forall x, x ∈ U' -> t x ∈ U'.
Proof using t_inj.
  intros Hi. induction fuel as [|f IH]; intros U j b tp C Hj NU NiU Nt Hf Hc;
    (assert (HkU : t j ∈ U) by (destruct (Hc j); [now right | assumption | congruence])).
  { apply Nat.le_0_r, size_empty_inv in Hf. exfalso. clear - HkU Hf. set_solver. }
  pose proof C as [Lb Lt HU Ht Hd]. destruct (Ht _ HkU) as [Etp Eb].
  cbn [cycle_loop]. rewrite Eb. cbn [mbind option_bind].
  assert (Njk : j <> t j) by congruence.
  rewrite list_lookup_insert_ne by assumption. rewrite Etp. cbn [mbind option_bind].
  pose proof (cyc_open _ (t j) _ _ (cyc_fill _ _ _ _ C Hj NU)) as C'.
  assert (HU' : forall x, x ∈ U -> t x <> t j).
  { intros x Hx E. apply NU. apply t_inj in E; [congruence | now apply HU | assumption]. }
  assert (Hk : (t j < n)%nat) by now apply HU.
  assert (Nk : t j ∉ U ∖ {[t j]}) by (rewrite elem_of_minus; tauto).
  destruct (decide (t (t j) = i)) as [E|E].
  - exists (<[t j := a i]> (<[j := a (t j)]> b)), (<[t j := t j]> (<[j := j]> tp)), (U ∖ {[t j]}).
    split; [reflexivity|]. split; [rewrite <- E at 1; now apply cyc_fill|].
    split; [intros x; rewrite elem_of_minus; tauto|].
    intros x. rewrite !elem_of_minus. intros [Hx Nx]. split; [|now apply HU'].
    destruct (Hc x (or_introl Hx)) as [G|G]; [assumption|].
    exfalso. rewrite <- E in G. apply t_inj in G; [congruence | now apply HU | assumption].
  - destruct (IH (U ∖ {[t j]}) (t j) _ _ C' Hk Nk) as (b' & tp' & U' & E1 & C1 & S1 & T1);
      [rewrite elem_of_minus; tauto | exact E | | |].
    + rewrite size_difference by (intros x ->%elem_of_singleton; exact HkU).
      rewrite size_singleton. lia.
    + intros x Hx. assert (x ∈ U) as HxU
        by (rewrite elem_of_minus in Hx; destruct Hx as [[Hx _] | ->]; assumption).
      rewrite elem_of_minus. destruct (Hc x (or_introl HxU)) as [G|G]; [|now right].
      left. split; [exact G | now apply HU'].
    + exists b', tp', U'. split; [exact E1|]. split; [exact C1|]. split; [|exact T1].
      intros x Hx. now apply S1, elem_of_minus in Hx.
Qed.

Lemma cycle_leader_spec k : forall i U b tp, cyc U no_hole b tp -> (i + k = n)%nat ->
  (forall x, x ∈ U -> t x ∈ U) -> (forall x, x ∈ U -> (i <= x)%nat) ->
  exists b' tp', cycle_leader room size k i b tp = Some (b', tp') /\ length b' = n /\
    forall x, (x < n)%nat -> b' !! x = Some (a (t x)).
Proof using t_inj Hroom.
  apply Z.leb_le in Hroom.
  induction k as [|k IH]; intros i U b tp C Hn Hc Hlow; cbn [cycle_leader]; try rewrite Hroom.
  { exists b, tp. destruct C as [Lb Lt HU Ht Hd]. split; [reflexivity|]. split; [exact Lb|].
    intros x Hx. apply Hd; auto. intros HxU. apply Hlow in HxU. lia. }
  destruct (decide (i ∈ U)) as [HiU|HiU].
  - destruct (cyc_todo _ _ _ _ C i HiU) as [-> ->]. destruct (cyc_U _ _ _ _ C i HiU) as [Hi Nt].
    cbn [mbind option_bind]. rewrite decide_False by assumption.
    assert (Ni : i ∉ U ∖ {[i]}) by (rewrite elem_of_minus; tauto).
    destruct (cycle_loop_spec i (length b) Hi (U ∖ {[i]}) i b tp)
      as (b' & tp' & U' & E & C' & S' & T'); auto.
    + now apply cyc_open.
    + rewrite (cyc_b _ _ _ _ C). rewrite <- (size_set_seq (C := gset nat) 0 n).
      apply subseteq_size. intros x [Hx _]%elem_of_minus. apply elem_of_set_seq.
      destruct (cyc_U _ _ _ _ C x Hx). lia.
    + intros x Hx. rewrite elem_of_minus in *. destruct (decide (t x = i)); [now right|left].
      split; [|assumption]. apply Hc. destruct Hx as [[Hx _] | ->]; assumption.
    + rewrite E. apply (IH (S i) U'); auto; [lia|].
      intros x [HxU Hne]%S'%elem_of_minus. apply Hlow in HxU. lia.
  - destruct (cyc_done _ _ _ _ C i ltac:(lia) HiU) as [-> Eb]; [auto|].
    cbn [mbind option_bind]. rewrite decide_True by reflexivity.
    apply (IH (S i) U); auto; [lia|]. intros x Hx. pose proof (Hlow x Hx).
    destruct (decide (x = i)); [congruence | lia].
Qed.
End Cycles.

Lemma lookup_fmap_seq {A} (d : A) (b : list A) :
  (fun i => default d (b !! i)) <$> seq 0 (length b) = b.
Proof.
  apply list_eq. intros i. rewrite list_lookup_fmap.
  destruct (decide (i < length b)%nat) as [H|H].
  - rewrite lookup_seq_lt by assumption. cbn. destruct (lookup_lt_is_Some_2 b i H) as [x ->].
    reflexivity.
  - rewrite lookup_seq_ge, lookup_ge_None_2 by lia. reflexivity.
Qed.

(** Sorting pointers and moving the objects along the cycles gives exactly
    what the direct merge sort gives, in a buffer for twice the pointers and
    one object. *)
Lemma indirect_msort_ref {A} (cmp : A -> A -> Z) (b : list A) size buf :
  2 * Z.of_nat (length b) * sizeof_ptr + size <= buf -> 0 <= size ->
  indirect_msort_with_tmp
    {| s := sizeof_ptr; var := SWAP_VOID_ARG; compar := ptr_cmp cmp b; t_size := buf |} b size
  = Some (msort_ref cmp (length b) b).
Proof.
  unfold sizeof_ptr. intros Hbuf Hsz. destruct b as [|d b0].
  { unfold indirect_msort_with_tmp. cbn [length t_size] in *.
    rewrite (proj2 (Z.leb_le _ _)) by lia. reflexivity. }
  set (b := d :: b0) in *. clearbody b.
  unfold indirect_msort_with_tmp. cbn [s var compar t_size]. unfold sizeof_ptr.
  rewrite (proj2 (Z.leb_le _ _)) by lia. set (n := length b) in *.
  set (f := fun i => default d (b !! i)).
  assert (Bl : forall x, (x < n)%nat -> b !! x = Some (f x)).
  { intros x Hx. unfold f. destruct (lookup_lt_is_Some_2 b x Hx) as [y ->]. reflexivity. }
  set (pc := fun i j => cmp (f i) (f j)).
  set (p := {| s := 8; var := _; compar := _; t_size := _ |}).
  pose proof (msort_whole pc p eq_refl ltac:(discriminate) (seq 0 n)) as Em.
  rewrite length_seq in Em. rewrite Em; clear Em; [|..].
  2:{ intros i j Hi%elem_of_seq Hj%elem_of_seq. unfold p, ptr_cmp, pc. cbn [compar].
      now rewrite !Bl by lia. }
  2:{ cbn [p s t_size]. lia. }
  cbn [mbind option_bind]. set (tp := msort_ref pc n (seq 0 n)).
  assert (P : tp ≡ₚ seq 0 n) by (apply msort_Permutation; now rewrite length_seq).
  assert (Ln : length tp = n) by (rewrite P; apply length_seq).
  set (t := fun x => default 0%nat (tp !! x)).
  assert (Tl : forall x, (x < n)%nat -> tp !! x = Some (t x)).
  { intros x Hx. unfold t. destruct (lookup_lt_is_Some_2 tp x) as [y ->]; [lia | reflexivity]. }
  assert (Tr : forall x, (x < n)%nat -> (t x < n)%nat).
  { intros x Hx. assert (t x ∈ tp) as E by (eapply list_elem_of_lookup_2; now apply Tl).
    rewrite P in E. apply elem_of_seq in E. lia. }
  assert (Ti : forall x y, (x < n)%nat -> (y < n)%nat -> t x = t y -> x = y).
  { assert (ND : NoDup tp) by (rewrite P; apply NoDup_seq).
    intros x y Hx Hy E. apply (NoDup_lookup tp x y (t x) ND); [now apply Tl|].
    rewrite E. now apply Tl. }
  destruct (cycle_leader_spec n t f (buf - (Z.of_nat n * 8 + Z.of_nat n * 8)) size
      ltac:(lia) Ti n 0 (filter (fun x => t x <> x) (set_seq 0 n)) b tp)
    as (b' & tp' & -> & Lb & E).
  - constructor; auto.
    + intros x [Ht Hx]%elem_of_filter. apply elem_of_set_seq in Hx. split; [lia | exact Ht].
    + intros x [Ht Hx]%elem_of_filter. apply elem_of_set_seq in Hx. split; [apply Tl | apply Bl]; lia.
    + intros x Hx Nx _. destruct (decide (t x = x)) as [E|E].
      * split; [rewrite Tl by assumption; congruence | rewrite E; now apply Bl].
      * exfalso. apply Nx. apply elem_of_filter. split; [exact E|]. apply elem_of_set_seq. lia.
  - reflexivity.
  - intros x [Ht Hx]%elem_of_filter. apply elem_of_set_seq in Hx. apply elem_of_filter.
    pose proof (Tr x ltac:(lia)). split; [|apply elem_of_set_seq; lia].
    intros Hx2. apply Ht. apply Ti; auto; lia.
  - intros; lia.
  - cbn [mbind option_bind]. f_equal. transitivity (f <$> tp).
    + apply list_eq. intros x. rewrite list_lookup_fmap. destruct (decide (x < n)%nat) as [Hx|Hx].
      * rewrite E, Tl by assumption. reflexivity.
      * rewrite !lookup_ge_None_2 by lia. reflexivity.
    + unfold tp. rewrite (msort_map _ cmp f).
      * f_equal. apply (lookup_fmap_seq d b).
      * now rewrite length_seq.
      * reflexivity.
Qed.

(** * Heapsort *)

Section Heap.
Context {A : Type} (cmp : A -> A -> Z).

(** [b'] is [b] with the elements at the indices up to [n] permuted. *)
Definition rearranged (n : nat) (b b' : list A) : Prop :=
  b' ≡ₚ b /\ forall i, (n < i)%nat -> b' !! i = b !! i.

Lemma rearranged_trans n b1 b2 b3 :
  rearranged n b1 b2 -> rearranged n b2 b3 -> rearranged n b1 b3.
Proof using Type.
  intros [P1 L1] [P2 L2]. split; [now transitivity b2|].
  intros i Hi. now rewrite L2, L1.
Qed.

Lemma rearranged_length n b b' : rearranged n b b' -> length b' = length b.
Proof using Type. intros [P _]. now rewrite P. Qed.

Lemma swap_elts_spec b i j x y : b !! i = Some x -> b !! j = Some y ->
  exists b', swap_elts b i j = Some b' /\ (forall n, i <= n -> j <= n -> rearranged n b b')%nat /\
    b' !! i = Some y /\ b' !! j = Some x /\
    forall l, l <> i -> l <> j -> b' !! l = b !! l.
Proof using Type.
  intros Hi Hj. unfold swap_elts. rewrite Hi, Hj. cbn [mbind option_bind].
  pose proof (lookup_lt_Some _ _ _ Hi). pose proof (lookup_lt_Some _ _ _ Hj).
  assert (O : forall l, l <> i -> l <> j -> <[j:=x]> (<[i:=y]> b) !! l = b !! l).
  { intros l ? ?. rewrite !list_lookup_insert_ne by congruence. reflexivity. }
  eexists. split; [reflexivity|]. split; [|split; [|split; [|exact O]]].
  - intros n ? ?. split; [now apply Permutation_insert_swap|]. intros l ?. apply O; lia.
  - destruct (decide (j = i)) as [->|].
    + rewrite list_lookup_insert_eq by (rewrite length_insert; lia). congruence.
    + rewrite list_lookup_insert_ne, list_lookup_insert_eq by lia. reflexivity.
  - apply list_lookup_insert_eq. rewrite length_insert. lia.
Qed.

Definition child (i j : nat) : Prop := (j = 2 * i + 1 \/ j = 2 * i + 2)%nat.

(** The element at [i] is not smaller than the one at [j]. *)
Definition hge (b : list A) (i j : nat) : Prop :=
  forall x y, b !! i = Some x -> b !! j = Some y -> 0 <= cmp x y.

Definition heap_from (b : list A) (lo n : nat) : Prop :=
  forall i j, (lo <= i)%nat -> child i j -> (j <= n)%nat -> hge b i j.

(** A heap except between [k] and its children. *)
Definition heap_but (b : list A) (lo k n : nat) : Prop :=
  (forall i j, (lo <= i)%nat -> i <> k -> child i j -> (j <= n)%nat -> hge b i j) /\
  (forall p j, (lo <= p)%nat -> child p k -> child k j -> (j <= n)%nat -> hge b p j).

Lemma heap_but_swap `{!Comparator cmp} b b1 lo k j n : heap_but b lo k n -> child k j ->
  (lo <= k)%nat -> (j <= n)%nat -> (forall j', child k j' -> (j' <= n)%nat -> hge b j j') ->
  (forall x y, b !! k = Some x -> b !! j = Some y -> cmp x y < 0) ->
  b1 !! k = b !! j -> b1 !! j = b !! k ->
  (forall l, l <> j -> l <> k -> b1 !! l = b !! l) -> heap_but b1 lo j n.
Proof using Type.
  intros [H1 H2] Hc Hlo Hj Hmax Hlt Ek Ej El. unfold heap_but, child in *. split.
  - intros i c Hi Hij Hic Hcn x y. destruct (decide (i = k)) as [->|].
    + destruct (decide (c = j)) as [->|].
      * rewrite Ek, Ej. intros Hx Hy. specialize (Hlt _ _ Hy Hx).
        pose proof (cmp_anti y x). lia.
      * rewrite Ek, (El c) by lia. apply Hmax; auto.
    + rewrite (El i) by lia. destruct (decide (c = k)) as [->|].
      * rewrite Ek. apply (H2 i j); auto.
      * rewrite El by lia. apply (H1 i c); auto.
  - intros p c Hp Hpj Hjc Hcn x y. assert (p = k) as -> by lia.
    rewrite Ek, (El c) by lia. apply (H1 j c); auto; lia.
Qed.

(** The child [siftdown] compares with: the larger one. *)
Lemma larger_child b k n : (n < length b)%nat -> (2 * k + 1 <= n)%nat ->
  let j := (2 * k + 1)%nat in
  exists j', (if decide (j < n)%nat then
                c ← cmp_at cmp b j (j + 1); Some (if c <? 0 then (j + 1)%nat else j)
              else Some j) = Some j' /\ child k j' /\ (j' <= n)%nat /\
    (Comparator cmp -> forall c, child k c -> (c <= n)%nat -> hge b j' c).
Proof using Type.
  intros Hn Hk j. unfold child.
  assert (R : forall i, Comparator cmp -> hge b i i).
  { intros i HC x y Hx Hy. assert (x = y) as -> by congruence. pose proof (cmp_anti y y). lia. }
  destruct (decide (j < n)%nat) as [Hj|Hj].
  - destruct (lookup_lt_is_Some_2 b j) as [x Ex]; [lia|].
    destruct (lookup_lt_is_Some_2 b (j + 1)) as [y Ey]; [lia|].
    unfold cmp_at. rewrite Ex, Ey. cbn [mbind option_bind].
    destruct (Z.ltb_spec (cmp x y) 0) as [Hc|Hc]; eexists; (split; [reflexivity|]);
      (split; [lia|]); (split; [lia|]); intros HC c Hcc Hcn.
    + assert (c = j \/ c = j + 1)%nat as [-> | ->] by lia; [|now apply R].
      intros u v Hu Hv. assert (u = y /\ v = x) as [-> ->] by (split; congruence).
      pose proof (cmp_anti x y). lia.
    + assert (c = j \/ c = j + 1)%nat as [-> | ->] by lia; [now apply R|].
      intros u v Hu Hv. assert (u = x /\ v = y) as [-> ->] by (split; congruence). exact Hc.
  - exists j. split; [reflexivity|]. split; [lia|]. split; [lia|].
    intros HC c Hcc Hcn. assert (c = j) as -> by lia. now apply R.
Qed.

Lemma siftdown_spec fuel : forall b k n, (n < length b)%nat -> (n - k < fuel)%nat ->
  exists b', siftdown cmp fuel b k n = Some b' /\ rearranged n b b' /\
    (Comparator cmp -> forall lo, (lo <= k)%nat -> heap_but b lo k n -> heap_from b' lo n).
Proof using Type.
  induction fuel as [|f IH]; intros b k n Hn Hf; [lia|]. cbn [siftdown].
  destruct (decide (2 * k + 1 <= n)%nat) as [Hk|Hk].
  2:{ exists b. split; [reflexivity|]. split; [now split|]. intros _ lo Hlo [H1 _] i j Hi Hc Hj.
      apply H1; auto. unfold child in Hc. lia. }
  destruct (larger_child b k n Hn Hk) as (j & E & Hc & Hj & Hmax). rewrite E. cbn [mbind option_bind].
  assert (k < j)%nat by (unfold child in Hc; lia). rewrite decide_False by lia.
  destruct (lookup_lt_is_Some_2 b k) as [x Ex]; [lia|].
  destruct (lookup_lt_is_Some_2 b j) as [y Ey]; [lia|].
  unfold cmp_at at 1. rewrite Ex, Ey. cbn [mbind option_bind].
  rewrite Z.geb_leb. destruct (Z.leb_spec 0 (cmp x y)) as [Hge|Hlt].
  - exists b. split; [reflexivity|]. split; [now split|]. intros HC lo Hlo [H1 _] i c Hi Hic Hcn.
    destruct (decide (i = k)) as [->|]; [|now apply H1].
    intros u v Hu Hv. assert (u = x) as -> by congruence.
    pose proof (Hmax HC c Hic Hcn y v Ey Hv) as Hyv. apply cmp_anti.
    apply (cmp_trans v y x); now apply cmp_anti.
  - destruct (swap_elts_spec b j k y x Ey Ex) as (b1 & -> & R1 & Ej1 & Ek1 & El1).
    cbn [mbind option_bind]. specialize (R1 n Hj ltac:(lia)).
    destruct (IH b1 j n) as (b' & E' & R' & H'); [rewrite (rearranged_length _ _ _ R1); lia | lia|].
    exists b'. split; [exact E'|]. split; [now apply (rearranged_trans n b b1)|].
    intros HC lo Hlo Hb. apply H'; [exact HC | lia|].
    apply (heap_but_swap b b1 lo k j n); auto; congruence.
Qed.

Lemma heapify_loop_spec n k : forall b, (n < length b)%nat ->
  exists b', heapify_loop cmp b k n = Some b' /\ rearranged n b b' /\
    (Comparator cmp -> heap_from b (S k) n -> heap_from b' 0 n).
Proof using Type.
  induction k as [|k IH]; intros b Hn; cbn [heapify_loop];
    match goal with |- context [ siftdown cmp (S n) b ?k n ] =>
      destruct (siftdown_spec (S n) b k n Hn ltac:(lia)) as (b1 & -> & R1 & H1) end;
    cbn [mbind option_bind].
  - exists b1. split; [reflexivity|]. split; [exact R1|]. intros HC H. apply H1; auto.
    split; [intros i j _ Hi; apply H; lia|]. unfold child. intros; lia.
  - destruct (IH b1) as (b' & -> & R' & H'); [rewrite (rearranged_length _ _ _ R1); lia|].
    exists b'. split; [reflexivity|]. split; [now apply (rearranged_trans n b b1)|].
    intros HC H. apply H'; [exact HC|]. apply H1; auto.
    split; [intros i j Hi Hne; apply H; lia|]. unfold child. intros; lia.
Qed.

Lemma heapify_spec n b : (n < length b)%nat ->
  exists b', heapify cmp b n = Some b' /\ rearranged n b b' /\
    (Comparator cmp -> heap_from b' 0 n).
Proof using Type.
  intros Hn. destruct (heapify_loop_spec n (n / 2) b Hn) as (b' & E & R & H).
  exists b'. split; [exact E|]. split; [exact R|]. intros HC. apply H; [exact HC|].
  intros i j Hi Hc Hj. exfalso. unfold child in Hc.
  pose proof (Nat.div_mod_eq n 2). pose proof (Nat.mod_upper_bound n 2). lia.
Qed.

(** The root of a heap is a greatest element. *)
Lemma heap_root `{!Comparator cmp} b n i : (n < length b)%nat -> heap_from b 0 n ->
  (i <= n)%nat -> hge b 0 i.
Proof using Type.
  intros Hn H. induction i as [i IH] using lt_wf_ind. intros Hi.
  destruct i as [|i']; [intros x y Hx Hy; assert (x = y) as -> by congruence;
                        pose proof (cmp_anti y y); lia|].
  set (p := (i' / 2)%nat). assert (Hc : child p (S i')).
  { unfold child, p. pose proof (Nat.div_mod_eq i' 2). pose proof (Nat.mod_upper_bound i' 2). lia. }
  assert (p < S i')%nat by (unfold child in Hc; lia).
  intros x y Hx Hy. destruct (lookup_lt_is_Some_2 b p) as [z Hz]; [lia|].
  pose proof (IH p ltac:(lia) ltac:(lia) x z Hx Hz). pose proof (H p (S i') ltac:(lia) Hc Hi z y Hz Hy).
  apply cmp_anti. apply (cmp_trans y z x); now apply cmp_anti.
Qed.

(** The part behind the heap is sorted and not smaller than the heap. *)
Definition sorted_after (b : list A) (n : nat) : Prop :=
  forall i j x y, (i < j)%nat -> (n < j)%nat -> b !! i = Some x -> b !! j = Some y -> cmp x y <= 0.

(** Rearranging the indices up to [n] keeps [sorted_after n]. *)
Lemma rearranged_sorted n b b' : (n < length b)%nat -> rearranged n b b' ->
  sorted_after b n -> sorted_after b' n.
Proof using Type.
  intros Hn R H i j x y Hij Hj Hx Hy. pose proof (rearranged_length _ _ _ R) as Hl.
  destruct R as [P L]. rewrite L in Hy by assumption.
  destruct (decide (n < i)%nat); [rewrite L in Hx by assumption; now apply (H i j)|].
  assert (Ed : drop (S n) b' = drop (S n) b).
  { apply list_eq. intros l. rewrite !lookup_drop. apply L. lia. }
  rewrite <- (take_drop (S n) b), <- (take_drop (S n) b'), Ed in P.
  apply Permutation_app_inv_r in P.
  assert (Hin : x ∈ take (S n) b).
  { rewrite <- P. apply (list_elem_of_lookup_2 _ i). rewrite lookup_take_lt by lia. exact Hx. }
  apply elem_of_take in Hin as (i0 & Hi0 & ?). apply (H i0 j); auto; lia.
Qed.

Lemma heapsort_loop_spec n : forall b, (n < length b)%nat ->
  exists b', heapsort_loop cmp b n = Some b' /\ rearranged n b b' /\
    (Comparator cmp -> heap_from b 0 n -> sorted_after b n -> sorted_after b' 0).
Proof using Type.
  induction n as [|n IH]; intros b Hn.
  { exists b. split; [reflexivity|]. split; [now split | auto]. }
  cbn [heapsort_loop].
  destruct (lookup_lt_is_Some_2 b 0) as [x Ex]; [lia|].
  destruct (lookup_lt_is_Some_2 b (S n)) as [y Ey]; [lia|].
  destruct (swap_elts_spec b 0 (S n) x y Ex Ey) as (b1 & -> & R1 & E0 & En & El).
  cbn [mbind option_bind]. specialize (R1 (S n) ltac:(lia) ltac:(lia)).
  pose proof (rearranged_length _ _ _ R1) as Hl1.
  assert (S1 : Comparator cmp -> heap_from b 0 (S n) -> sorted_after b (S n) -> sorted_after b1 n).
  { intros HC Hh Hs. apply (rearranged_sorted (S n) b b1) in Hs; [|lia | exact R1].
    intros i j u v Hij Hj Hu Hv. destruct (decide (j = S n)) as [->|]; [|apply (Hs i j); auto; lia].
    assert (v = x) as -> by congruence. apply cmp_anti.
    destruct (decide (i = 0)%nat) as [->|].
    - apply (heap_root b (S n) (S n) Hn Hh ltac:(lia)); congruence.
    - apply (heap_root b (S n) i Hn Hh ltac:(lia)); [congruence|].
      rewrite <- El by lia. exact Hu. }
  destruct n as [|n'].
  { exists b1. split; [reflexivity|]. split; [exact R1 | auto]. }
  destruct (siftdown_spec (S (S n')) b1 0 (S n') ltac:(lia) ltac:(lia)) as (b2 & -> & R2 & H2).
  cbn [mbind option_bind]. pose proof (rearranged_length _ _ _ R2) as Hl2.
  destruct (IH b2 ltac:(lia)) as (b' & E' & R' & H'). exists b'. split; [exact E'|].
  assert (W : forall c d, rearranged (S n') c d -> rearranged (S (S n')) c d)
    by (intros c d [P L]; split; [exact P | intros; apply L; lia]).
  split; [eauto using rearranged_trans|]. intros HC Hh Hs. apply H'; auto.
  - apply H2; auto. split; [|unfold child; intros; lia].
    intros i j Hi Hne Hc Hj u v Hu Hv. unfold child in Hc.
    rewrite El in Hu, Hv by lia. apply (Hh i j); auto; unfold child; lia.
  - apply (rearranged_sorted _ b1); auto. lia.
Qed.

Lemma heapsort_spec b n : length b = S n ->
  exists b', heapsort_r cmp b n = Some b' /\ b' ≡ₚ b /\
    (Comparator cmp -> StronglySorted (cle cmp) b').
Proof using Type.
  intros Hl. unfold heapsort_r. destruct (decide (n = 0)%nat) as [->|Hn].
  { exists b. split; [reflexivity|]. split; [reflexivity|]. intros _.
    destruct b as [|x [|]]; cbn in Hl; try lia. repeat constructor. }
  destruct (heapify_spec n b ltac:(lia)) as (b1 & -> & R1 & H1). cbn [mbind option_bind].
  pose proof (rearranged_length _ _ _ R1) as Hl1.
  destruct (heapsort_loop_spec n b1 ltac:(lia)) as (b' & E & R & H).
  exists b'. split; [exact E|]. split; [destruct R, R1; now transitivity b1|].
  intros HC. assert (S' : sorted_after b' 0).
  { apply H; auto. intros i j x y _ Hj _ Hy. apply lookup_lt_Some in Hy. lia. }
  clear -S'. revert S'. induction b' as [|x l IH]; intros S'; constructor.
  - apply IH. intros i j u v Hij Hj Hu Hv. apply (S' (S i) (S j)); auto; lia.
  - apply Forall_forall. intros y Hy. apply list_elem_of_lookup in Hy as [j Hj].
    apply (S' 0%nat (S j) x y); auto; lia.
Qed.
End Heap.

(** * Binary search *)

Section Bsearch.
Context {K A : Type} (compar : K -> A -> Z) (key : K) (arr : list A).

(** The array is partitioned by the key: elements below it, equal to it,
    above it. *)
Definition partitioned : Prop := forall i j x y, (i <= j)%nat ->
  arr !! i = Some x -> arr !! j = Some y -> Z.sgn (compar key y) <= Z.sgn (compar key x).

Lemma bsearch_loop_spec fuel : forall base nmemb,
  (base + nmemb <= length arr)%nat -> (nmemb < fuel)%nat ->
  exists r, bsearch_loop compar fuel key arr base nmemb = Some r /\
    match r with
    | Some p => exists x, arr !! p = Some x /\ compar key x = 0
    | None => partitioned -> forall i x, (base <= i < base + nmemb)%nat ->
                arr !! i = Some x -> compar key x <> 0
    end.
Proof using Type.
  induction fuel as [|f IH]; intros base nmemb Hb Hf; [lia|]. cbn [bsearch_loop].
  destruct (decide (nmemb = 0)%nat) as [->|Hn].
  { exists None. split; [reflexivity|]. intros _ i x Hi. lia. }
  assert (Hh : (nmemb / 2 < nmemb)%nat) by (apply Nat.div_lt; lia).
  set (p := (base + nmemb / 2)%nat).
  destruct (lookup_lt_is_Some_2 arr p) as [x Ex]; [lia|]. rewrite Ex. cbn [mbind option_bind].
  destruct (Z.eqb_spec (compar key x) 0) as [E0|E0].
  { exists (Some p). eauto. }
  rewrite Z.gtb_ltb. destruct (Z.ltb_spec 0 (compar key x)) as [Hgt|Hle].
  - assert (Hq : ((nmemb - 1) / 2 + nmemb / 2 + 1 = nmemb)%nat).
    { pose proof (Nat.div_mod_eq nmemb 2). pose proof (Nat.mod_upper_bound nmemb 2).
      pose proof (Nat.div_mod_eq (nmemb - 1) 2). pose proof (Nat.mod_upper_bound (nmemb - 1) 2). lia. }
    destruct (IH (p + 1)%nat ((nmemb - 1) / 2)%nat) as (r & -> & Hr); [lia | lia|].
    exists r. split; [reflexivity|]. destruct r as [|]; [exact Hr|].
    intros Hp i y Hi Hy. destruct (decide (p < i)%nat); [apply (Hr Hp i y); auto; lia|].
    pose proof (Hp i p y x ltac:(lia) Hy Ex). lia.
  - destruct (IH base (nmemb / 2)%nat) as (r & -> & Hr); [lia | lia|].
    exists r. split; [reflexivity|]. destruct r as [|]; [exact Hr|].
    intros Hp i y Hi Hy. destruct (decide (i < p)%nat); [apply (Hr Hp i y); auto; lia|].
    pose proof (Hp p i x y ltac:(lia) Ex Hy). lia.
Qed.
End Bsearch.

(** * The promises of [qsort_r], [qsort] and [bsearch] *)

(** The bytes of buffer the merge sort of [n] objects needs. *)
Definition buffer_need (n : nat) (size : Z) : Z :=
  if decide (32 < size) then 2 * Z.of_nat n * 8 + size else Z.of_nat n * size.

Lemma qsort_r_mergesort_ref {A} (cmp : A -> A -> Z) pbase b size buf : 0 <= size ->
  buffer_need (length b) size <= buf ->
  qsort_r_mergesort cmp pbase b size buf = Some (msort_ref cmp (length b) b).
Proof.
  intros H0 Hn. unfold qsort_r_mergesort, buffer_need in *. change INDIRECT_SORT_SIZE_THRES with 32.
  rewrite Z.gtb_ltb. destruct (Z.ltb_spec 32 size), (decide (32 < size)); try lia.
  - now apply indirect_msort_ref.
  - apply msort_whole; cbn [s t_size]; auto; [|now intros x y].
    unfold copy_width, get_swap_type. cbn [var s]. destruct (_ && _); [|reflexivity].
    destruct (Z.eqb_spec size 4); [congruence|].
    destruct (Z.eqb_spec size 8); cbn [andb]; [destruct (_ =? _); congruence | reflexivity].
Qed.

(** An array of two or more objects takes at least the room the buffer does,
    so the computation of the buffer's size does not wrap around. *)
Lemma buffer_need_bound n size : (1 < n)%nat -> 0 <= size -> Z.of_nat n * size < 2 ^ 64 ->
  0 <= buffer_need n size < 2 ^ 64.
Proof. intros Hn H0 Hl. unfold buffer_need. destruct (decide _); nia. Qed.

(** Either the merge sort ran, or memory was short and the heapsort ran. *)
Lemma qsort_r_cases {A} (cmp : A -> A -> Z) malloc pbase b size :
  0 <= size -> Z.of_nat (length b) * size < 2 ^ 64 ->
  let r := qsort_r cmp malloc pbase b size in
  r = Some (msort_ref cmp (length b) b) \/
  (exists req, malloc req = false) /\ (0 < length b)%nat /\ r = heapsort_r cmp b (length b - 1).
Proof.
  intros H0 Hm. unfold qsort_r, qsort_r_malloc.
  destruct (Z.leb_spec (Z.of_nat (length b)) 1) as [H|H].
  { left. destruct (length b) as [|[|n]] eqn:E; try lia; destruct b as [|x [|y k]];
      cbn in *; try lia; reflexivity. }
  set (ts := if size >? _ then _ else _). assert (ts = buffer_need (length b) size) as ->.
  { pose proof (buffer_need_bound (length b) size ltac:(lia) H0 Hm) as Hb.
    unfold ts, buffer_need, sizeof_ptr in *. change INDIRECT_SORT_SIZE_THRES with 32.
    rewrite Z.gtb_ltb. destruct (Z.ltb_spec 32 size), (decide (32 < size)); try lia;
      now apply Z.mod_small. }
  destruct (Z.leb_spec (buffer_need (length b) size) QSORT_STACK_SIZE);
    [left; now apply qsort_r_mergesort_ref|].
  rewrite qsort_r_mergesort_ref by lia.
  destruct (malloc _) eqn:Em; cbn; [now left|]. right. split; [eauto|]. split; [lia | reflexivity].
Qed.

(** C3: for every comparison callback, even an inconsistent one, every element
    size, every alignment and every answer of the allocator, [qsort_r]
    terminates without an access outside the array, without a write outside
    the temporary buffer (of 1024 bytes on the stack, or of the size it asked
    [malloc] for) and leaves a permutation of the array.  The array has less
    than 2^64 bytes, as every object has. *)
Theorem qsort_r_safe {A} (cmp : A -> A -> Z) malloc pbase b size :
  0 <= size -> Z.of_nat (length b) * size < 2 ^ 64 ->
  exists b', qsort_r cmp malloc pbase b size = Some b' /\ b' ≡ₚ b.
Proof.
  intros H0 Hm. destruct (qsort_r_cases cmp malloc pbase b size H0 Hm) as [-> | (_ & Hl & ->)].
  - eexists. split; [reflexivity|]. now apply msort_Permutation.
  - destruct (heapsort_spec cmp b (length b - 1)) as (b' & E & P & _); [lia | eauto].
Qed.

(** An inconsistent callback, and objects of 400 bytes that are sorted through
    pointers in a buffer on the stack. *)
Lemma qsort_r_safe_witness :
  exists b', qsort_r (fun _ _ : Z => 1) (fun _ => false) 4 [3; 1; 2; 7; 5] 400 = Some b' /\
    b' ≡ₚ [3; 1; 2; 7; 5].
Proof. apply (qsort_r_safe (fun _ _ : Z => 1)); vm_compute; congruence. Defined.

(** One byte less and the last object written does not fit. *)
Example buffer_need_tight :
  qsort_r_mergesort Z.sub 0 [9; 8; 1; 2; 3] 400 479 = None /\
  qsort_r_mergesort Z.sub 0 [9; 8; 1; 2; 3] 400 480 = Some [1; 2; 3; 8; 9] /\
  qsort_r_mergesort Z.sub 0 [9; 8; 1; 2; 3] 4 19 = None /\
  qsort_r_mergesort Z.sub 0 [9; 8; 1; 2; 3] 4 20 = Some [1; 2; 3; 8; 9].
Proof. vm_compute. repeat split. Qed.

(** C4: with a consistent comparison callback the result is sorted, on the
    stack-buffer, the malloc and the out-of-memory path alike; unless malloc
    failed the sort is also stable.  The array has less than 2^64 bytes. *)
Theorem qsort_r_sorted {A} (cmp : A -> A -> Z) `{!Comparator cmp} malloc pbase b size :
  0 <= size -> Z.of_nat (length b) * size < 2 ^ 64 ->
  exists b', qsort_r cmp malloc pbase b size = Some b' /\ StronglySorted (cle cmp) b' /\
    ((forall req, malloc req = true) ->
     forall x, filter (equiv_to cmp x) b' = filter (equiv_to cmp x) b).
Proof.
  intros H0 Hm.
  destruct (qsort_r_cases cmp malloc pbase b size H0 Hm) as [-> | ((req & Hf) & Hl & ->)].
  - eexists. split; [reflexivity|].
    destruct (msort_sorted_stable cmp (length b) b) as [S F]; auto.
  - destruct (heapsort_spec cmp b (length b - 1)) as (b' & E & _ & S); [lia|].
    exists b'. split; [exact E|]. split; [now apply S|]. intros Ha. rewrite Ha in Hf. discriminate.
Qed.

(** Records compared by their first component only. *)
Definition wit_cmp (x y : Z * Z) : Z := fst x - fst y.

#[export] Instance wit_cmp_ok : Comparator wit_cmp.
Proof. split; unfold wit_cmp; intros; lia. Qed.

Definition wit_arr : list (Z * Z) := [(3, 0); (1, 1); (3, 2); (2, 3); (1, 4)].

Lemma qsort_r_sorted_witness :
  exists b', qsort_r wit_cmp (fun _ => true) 0 wit_arr 400 = Some b' /\
    StronglySorted (cle wit_cmp) b' /\
    ((forall req : Z, true = true) ->
     forall x, filter (equiv_to wit_cmp x) b' = filter (equiv_to wit_cmp x) wit_arr).
Proof. apply (qsort_r_sorted wit_cmp (fun _ => true) 0 wit_arr 400); vm_compute; congruence. Defined.

(** C5: for objects of more than 32 bytes the pointer sort followed by the
    in-place cycle permutation has the same result as the direct merge sort of
    smaller objects, each in a buffer of the size it needs: [n * size] bytes
    for the direct sort, two arrays of pointers and one object for the
    indirect one. *)
Theorem indirect_sort_equiv {A} (cmp : A -> A -> Z) b pbase pbase' size size' buf buf' :
  0 <= size <= INDIRECT_SORT_SIZE_THRES -> INDIRECT_SORT_SIZE_THRES < size' ->
  Z.of_nat (length b) * size <= buf -> 2 * Z.of_nat (length b) * 8 + size' <= buf' ->
  qsort_r_mergesort cmp pbase b size buf = Some (msort_ref cmp (length b) b) /\
  qsort_r_mergesort cmp pbase' b size' buf' =
    indirect_msort_with_tmp
      {| s := 8; var := SWAP_VOID_ARG; compar := ptr_cmp cmp b; t_size := buf' |} b size' /\
  qsort_r_mergesort cmp pbase' b size' buf' = qsort_r_mergesort cmp pbase b size buf.
Proof.
  change INDIRECT_SORT_SIZE_THRES with 32. intros H H' Hb Hb'.
  rewrite !qsort_r_mergesort_ref by (try lia; unfold buffer_need; case_decide; lia).
  split; [reflexivity|]. split; [|reflexivity]. symmetry. apply indirect_msort_ref; [exact Hb' | lia].
Qed.

Lemma indirect_sort_equiv_witness :
  qsort_r_mergesort wit_cmp 0 wit_arr 33 113 = qsort_r_mergesort wit_cmp 0 wit_arr 32 160.
Proof. apply (indirect_sort_equiv wit_cmp wit_arr 0 0 32 33); vm_compute; split || idtac; congruence. Defined.

(** the swap routine [qsort] selects for a base address and an element
    size exchanges exactly the bytes of two disjoint objects; apart from them
    only the local buffer changes. *)
Theorem do_swap_correct m a b size tmp pbase : 0 < size ->
  (a + size <= b \/ b + size <= a) -> bytes m a size -> bytes m b size ->
  (forall x, tmp <= x < tmp + SWAP_GENERIC_SIZE ->
     ~ (a <= x < a + size) /\ ~ (b <= x < b + size)) ->
  exchanged (fun x => tmp <= x < tmp + SWAP_GENERIC_SIZE) m
    (do_swap m a b size tmp (get_swap_type pbase size)) a b size.
Proof.
  intros Hs D Ba Bb HT.
  assert (W : forall m', exchanged no_scratch m m' a b size ->
    exchanged (fun x => tmp <= x < tmp + SWAP_GENERIC_SIZE) m m' a b size).
  { intros m' [A B O]. constructor; auto. }
  unfold get_swap_type. destruct (_ && _); [|apply memswap_spec; auto; lia].
  destruct (Z.eqb_spec size 4) as [->|].
  - apply W. exact (swap_words_spec 4 1 m a b D Ba Bb).
  - destruct (Z.eqb_spec size 8) as [->|]; [|apply memswap_spec; auto; lia].
    cbn [andb]. destruct (_ =? _); [|apply memswap_spec; auto; lia].
    apply W. exact (swap_words_spec 8 1 m a b D Ba Bb).
Qed.

Lemma do_swap_correct_witness :
  exchanged (fun x => 1000 <= x < 1000 + SWAP_GENERIC_SIZE) (fun x => x mod 256)
    (do_swap (fun x => x mod 256) 0 72 72 1000 (get_swap_type 0 72)) 0 72 72.
Proof.
  apply (do_swap_correct (fun x => x mod 256) 0 72 72 1000 0); try lia;
    unfold SWAP_GENERIC_SIZE; try (intros x _; apply Z.mod_pos_bound; reflexivity); lia.
Defined.

(** [bsearch] makes no access outside the array and, on an array
    partitioned by the key, finds an equal element exactly when there is one. *)
Theorem bsearch_correct {K A} (compar : K -> A -> Z) key arr :
  exists r, bsearch compar key arr = Some r /\
    match r with
    | Some p => exists x, arr !! p = Some x /\ compar key x = 0
    | None => partitioned compar key arr -> forall x, x ∈ arr -> compar key x <> 0
    end.
Proof.
  destruct (bsearch_loop_spec compar key arr (S (length arr)) 0 (length arr)) as (r & E & H);
    [lia | lia|].
  exists r. split; [exact E|]. destruct r as [|]; [exact H|].
  intros Hp x [i Hi]%list_elem_of_lookup. apply (H Hp i x); [|exact Hi].
  apply lookup_lt_Some in Hi. lia.
Qed.

(** A value that is there is found. *)
Example bsearch_found : bsearch Z.sub 7 [1; 3; 7; 9] = Some (Some 2%nat).
Proof. reflexivity. Qed.
