(* ===== verification/Search.v ===== *)
(** * Hash tables, linear search and linked lists
      (misc/hsearch_r.c, misc/lsearch.c, misc/insremque.c) *)

From Stdlib Require Import ZArith Lia.
From stdpp Require Import base list option gmap fin_maps.
From S2P Require Import Prelude.
#[local] Open Scope Z_scope.

(** ** [hsearch_r] *)

(** A key is the sequence of the [char] values before its terminating NUL. *)
#[local] Abbreviation key := (list Z).

Record ENTRY := { e_key : key; e_data : Z }.

(** [_ENTRY]: the hash value of the entry, 0 when the slot is free. *)
Record slot := { used : Z; entry : ENTRY }.

Definition zero_slot : slot := {| used := 0; entry := {| e_key := []; e_data := 0 |} |}.

Record hsearch_data := { size : Z; filled : Z; table : option (list slot) }.

Inductive ACTION := FIND | ENTER.

Definition UINT_MAX : Z := 2 ^ 32 - 1.

Inductive errno := EINVAL | ENOMEM | ESRCH.

(** The loop of [isprime] from the divisor [div] on. *)
Fixpoint isprime_loop (fuel : nat) (number div : Z) : bool :=
  match fuel with
  | O => true
  | S fuel =>
      if div <=? number / div then
        if number mod div =? 0 then false else isprime_loop fuel number (wrap 32 (div + 2))
      else true
  end.

(** The loop stops at the latest when [div * div > number]. *)
Definition isprime (number : Z) : bool :=
  isprime_loop (S (Z.to_nat (Z.sqrt number))) number 3.

(** [for (nel |= 1; ; nel += 2)]; [None] is lack of fuel, [Some None] the
    overflow error. *)
Fixpoint next_prime (fuel : nat) (nel : Z) : option (option Z) :=
  match fuel with
  | O => None
  | S fuel =>
      if UINT_MAX - 2 <? nel then Some None
      else if isprime nel then Some (Some nel)
      else next_prime fuel (nel + 2)
  end.

(** [__hcreate_r] for a non-null [htab]; the result is the return value, the
    error if one is set (by [calloc] when it fails), and the new state.
    [calloc n] tells whether the allocation of [n] slots succeeds. *)
Definition hcreate_r (fuel : nat) (calloc : Z -> bool) (nel : Z) (htab : hsearch_data)
    : option (Z * option errno * hsearch_data) :=
  match table htab with
  | Some _ => Some (0, None, htab)
  | None =>
      let nel := if nel <? 3 then 3 else nel in
      r ← next_prime fuel (Z.lor nel 1);
      match r with
      | None => Some (0, Some ENOMEM, htab)
      | Some nel =>
          if calloc (nel + 1)
          then Some (1, None, {| size := nel; filled := 0;
                                 table := Some (replicate (Z.to_nat (nel + 1)) zero_slot) |})
          else Some (0, Some ENOMEM, {| size := nel; filled := 0; table := None |})
      end
  end.

Definition hdestroy_r (htab : hsearch_data) : hsearch_data :=
  {| size := size htab; filled := filled htab; table := None |}.

(** [while (count-- > 0) { hval <<= 4; hval += item.key[count]; }] *)
Fixpoint hash_loop (count : nat) (k : key) (hval : Z) : Z :=
  match count with
  | O => hval
  | S c => hash_loop c k (wrap 32 (wrap 32 (Z.shiftl hval 4) + nth c k 0))
  end.

Definition hash (k : key) : Z :=
  let len := wrap 32 (Z.of_nat (length k)) in
  let hval := hash_loop (Z.to_nat len) k len in
  if hval =? 0 then 1 else hval.

Definition slot_matches (s : slot) (hval : Z) (k : key) : bool :=
  (used s =? hval) && bool_decide (k = e_key (entry s)).

(** The do-while loop of [__hsearch_r]: the last index and whether the key was
    found there. *)
Fixpoint probe_loop (fuel : nat) (tab : list slot) (sz hval hval2 first_idx : Z) (k : key)
    (idx : Z) : option (bool * Z) :=
  match fuel with
  | O => None
  | S fuel =>
      let idx := if idx <=? hval2 then wrap 32 (wrap 32 (sz + idx) - hval2)
                 else wrap 32 (idx - hval2) in
      if idx =? first_idx then Some (false, idx)
      else
        s ← tab !! Z.to_nat idx;
        if slot_matches s hval k then Some (true, idx)
        else if negb (used s =? 0) then probe_loop fuel tab sz hval hval2 first_idx k idx
        else Some (false, idx)
  end.

(** The search part of [__hsearch_r]. *)
Definition hsearch_find (htab : hsearch_data) (tab : list slot) (k : key) : option (bool * Z) :=
  let hval := hash k in
  let idx := hval mod size htab + 1 in
  s ← tab !! Z.to_nat idx;
  if negb (used s =? 0) then
    if slot_matches s hval k then Some (true, idx)
    else
      let hval2 := 1 + hval mod (size htab - 2) in
      probe_loop (S (Z.to_nat (size htab))) tab (size htab) hval hval2 idx k idx
  else Some (false, idx).

(** [__hsearch_r]: the index [retval] points at, or the error, and the table. *)
Definition hsearch_r (item : ENTRY) (action : ACTION) (htab : hsearch_data)
    : option ((Z + errno) * hsearch_data) :=
  tab ← table htab;
  '(found, idx) ← hsearch_find htab tab (e_key item);
  if found : bool then Some (inl idx, htab)
  else
    match action with
    | ENTER =>
        if filled htab =? size htab then Some (inr ENOMEM, htab)
        else
          Some (inl idx,
            {| size := size htab; filled := wrap 32 (filled htab + 1);
               table := Some (<[Z.to_nat idx := {| used := hash (e_key item); entry := item |}]> tab) |})
    | FIND => Some (inr ESRCH, htab)
    end.

(** ** [lsearch] *)

(** [lfind]: the index of the first element equal to the key. *)
Fixpoint lfind_loop {K A} (compar : K -> A -> Z) (key : K) (arr : list A) (cnt : nat) : option nat :=
  match arr with
  | [] => None
  | x :: arr => if compar key x =? 0 then Some cnt else lfind_loop compar key arr (S cnt)
  end.

Definition lfind {K A} (compar : K -> A -> Z) (key : K) (arr : list A) : option nat :=
  lfind_loop compar key arr 0.

(** [lsearch] returns the position and the array with its new length. *)
Definition lsearch {A} (compar : A -> A -> Z) (key : A) (arr : list A) : nat * list A :=
  match lfind compar key arr with
  | Some i => (i, arr)
  | None => (length arr, arr ++ [key])
  end.

(** ** [insque], [remque]

    The heap maps the address of an element to its links; [NULL] is 0. *)
Record qelem := { q_forw : Z; q_back : Z }.

Definition qheap := gmap Z qelem.

Definition set_forw (h : qheap) (p v : Z) : qheap :=
  alter (fun q => {| q_forw := v; q_back := q_back q |}) p h.

Definition set_back (h : qheap) (p v : Z) : qheap :=
  alter (fun q => {| q_forw := q_forw q; q_back := v |}) p h.

Definition insque (h : qheap) (elem prev : Z) : option qheap :=
  if prev =? 0 then Some (set_back (set_forw h elem 0) elem 0)
  else
    q ← h !! prev;
    let next := q_forw q in
    let h := set_forw h prev elem in
    let h := if negb (next =? 0) then set_back h next elem else h in
    let h := set_forw h elem next in
    Some (set_back h elem prev).

Definition remque (h : qheap) (elem : Z) : option qheap :=
  q ← h !! elem;
  let next := q_forw q in
  let prev := q_back q in
  let h := if negb (next =? 0) then set_back h next prev else h in
  Some (if negb (prev =? 0) then set_forw h prev next else h).

(** * The prime search *)

Lemma prime_by_divisors n : 1 < n -> (forall d, 2 <= d < n -> ~ (d | n)) -> Z.prime n.
Proof. intros Hn H. split; [exact Hn|]. intros d Hd. apply H. lia. Qed.

Lemma isprime_loop_spec n fuel : 3 <= n <= UINT_MAX -> Z.odd n = true -> forall div,
  3 <= div -> Z.odd div = true -> (forall d, 2 <= d < div -> ~ (d | n)) ->
  Z.sqrt n < div + Z.of_nat fuel ->
  isprime_loop fuel n div = true <-> Z.prime n.
Proof.
  unfold UINT_MAX. intros Hn Ho. pose proof (Z.sqrt_spec n ltac:(lia)) as [Hs1 Hs2].
  pose proof (Z.sqrt_nonneg n) as Hs0. set (r := Z.sqrt n) in *.
  assert (D : forall div, 3 <= div -> (forall d, 2 <= d < div -> ~ (d | n)) -> n < div * div -> Z.prime n).
  { intros div Hd Hnd Hlt. apply prime_by_divisors; [lia|]. intros d Hdn Hdiv.
    destruct (Z.lt_ge_cases d div) as [|Hge]; [now apply (Hnd d); [lia|]|].
    destruct Hdiv as [q ->]. apply (Hnd q); [nia | apply Z.divide_factor_l]. }
  induction fuel as [|f IH]; intros div Hd Hod Hnd Hf; cbn [isprime_loop].
  { split; [intros _ | reflexivity]. apply (D div); auto. nia. }
  destruct (Z.leb_spec div (n / div)) as [Hle|Hgt].
  - assert (div * div <= n) by (pose proof (Z.mul_div_le n div ltac:(lia)); nia).
    destruct (Z.eqb_spec (n mod div) 0) as [E|E].
    + split; [discriminate|]. intros Hp. exfalso. destruct Hp as [_ Hp].
      apply (Hp div); [nia|]. apply Z.mod_divide; [lia | exact E].
    + assert (div < 2 ^ 16 + 1) by nia. unfold wrap. rewrite Z.mod_small by lia.
      apply IH; [lia | | | lia].
      * replace (div + 2) with (div + 2 * 1) by lia. now rewrite Z.odd_add_mul_2.
      * intros d Hdd Hdiv. destruct (Z.lt_ge_cases d div); [now apply (Hnd d); [lia|]|].
        destruct (Z.eq_dec d div) as [->|]; [apply E, Z.mod_divide; [lia | exact Hdiv]|].
        assert (d = div + 1) as -> by lia. apply (Hnd 2); [lia|].
        apply Z.divide_trans with (div + 1); [|exact Hdiv].
        apply Z.mod_divide; [lia|].
        rewrite Zmod_odd. rewrite Z.odd_add, Hod. reflexivity.
  - split; [intros _ | reflexivity]. apply (D div); auto.
    assert (n / div < div) as H1 by lia.
    pose proof (Z.div_mod n div ltac:(lia)). pose proof (Z.mod_pos_bound n div ltac:(lia)). nia.
Qed.

Lemma isprime_spec n : 3 <= n <= UINT_MAX -> Z.odd n = true -> isprime n = true <-> Z.prime n.
Proof.
  intros Hn Ho. apply isprime_loop_spec; auto; [lia | | pose proof (Z.sqrt_nonneg n); lia].
  intros d Hd [q Eq]. assert (d = 2) as -> by lia.
  rewrite Eq, Z.odd_mul, andb_false_r in Ho. discriminate.
Qed.

Lemma next_prime_sound fuel : forall nel r, 3 <= nel -> Z.odd nel = true ->
  next_prime fuel nel = Some r ->
  match r with
  | Some p => nel <= p <= UINT_MAX - 2 /\ Z.prime p /\
      forall q, nel <= q < p -> Z.odd q = true -> ~ Z.prime q
  | None => forall q, nel <= q <= UINT_MAX - 2 -> Z.odd q = true -> ~ Z.prime q
  end.
Proof.
  induction fuel as [|f IH]; intros nel r Hn Ho E; cbn [next_prime] in E; [discriminate|].
  destruct (Z.ltb_spec (UINT_MAX - 2) nel) as [Hov|Hov].
  { injection E as <-. intros q Hq. lia. }
  pose proof (isprime_spec nel ltac:(lia) Ho) as Hp. destruct (isprime nel).
  { injection E as <-. split; [lia|]. split; [now apply Hp|]. intros q Hq. lia. }
  assert (Np : ~ Z.prime nel) by (intros H; apply Hp in H; discriminate).
  assert (Ho2 : Z.odd (nel + 2) = true)
    by (replace (nel + 2) with (nel + 2 * 1) by lia; now rewrite Z.odd_add_mul_2).
  apply IH in E; [|lia | exact Ho2].
  assert (Gap : forall q, nel <= q -> Z.odd q = true -> q = nel \/ nel + 2 <= q).
  { intros q Hq Hoq. destruct (Z.eq_dec q nel); [now left|]. destruct (Z.eq_dec q (nel + 1)) as [->|]; [|lia].
    rewrite Z.odd_add, Ho in Hoq. discriminate. }
  destruct r as [p|].
  - destruct E as (? & ? & E). split; [lia|]. split; [assumption|].
    intros q Hq Hoq. destruct (Gap q ltac:(lia) Hoq) as [->|]; [exact Np | apply E; auto; lia].
  - intros q Hq Hoq. destruct (Gap q ltac:(lia) Hoq) as [->|]; [exact Np | apply E; auto; lia].
Qed.

(** The search always ends: [nel] passes [UINT_MAX - 2] at the latest. *)
Lemma next_prime_total fuel : forall nel, UINT_MAX - 2 < nel + 2 * (Z.of_nat fuel - 1) ->
  (0 < fuel)%nat -> exists r, next_prime fuel nel = Some r.
Proof.
  induction fuel as [|f IH]; intros nel Hf H0; [lia|]. cbn [next_prime].
  destruct (Z.ltb_spec (UINT_MAX - 2) nel); [eauto|]. destruct (isprime nel); [eauto|].
  destruct f as [|f]; [lia|]. apply IH; lia.
Qed.

(** * Double hashing *)

Lemma hash_loop_range c k : forall h, 0 <= h < 2 ^ 32 -> 0 <= hash_loop c k h < 2 ^ 32.
Proof.
  induction c as [|c IH]; intros h Hh; cbn [hash_loop]; [exact Hh|].
  apply IH, wrap_range; lia.
Qed.

Lemma hash_range k : 0 < hash k < 2 ^ 32.
Proof.
  unfold hash. set (h := hash_loop _ _ _).
  assert (0 <= h < 2 ^ 32) by (apply hash_loop_range, wrap_range; lia).
  destruct (Z.eqb_spec h 0); lia.
Qed.

Section Probes.
Context (p : Z) (Hp : Z.prime p) (Hr : 3 <= p <= UINT_MAX - 2).

Definition step2 (k : key) : Z := 1 + hash k mod (p - 2).
Definition home (k : key) : Z := hash k mod p + 1.

(** The [j]-th slot visited for the key [k]. *)
Definition probe (k : key) (j : Z) : Z := (home k - 1 - j * step2 k) mod p + 1.

Lemma step2_range k : 1 <= step2 k <= p - 2.
Proof using Hr. unfold step2. pose proof (Z.mod_pos_bound (hash k) (p - 2)). lia. Qed.

Lemma probe_range k j : 1 <= probe k j <= p.
Proof using Hr. unfold probe. pose proof (Z.mod_pos_bound (home k - 1 - j * step2 k) p). lia. Qed.

Lemma home_range k : 1 <= home k <= p.
Proof using Hr. unfold home. pose proof (Z.mod_pos_bound (hash k) p). lia. Qed.

Lemma probe_0 k : probe k 0 = home k.
Proof using Hr. unfold probe. pose proof (home_range k). rewrite Z.mod_small; lia. Qed.

Lemma probe_p k : probe k p = home k.
Proof using Hr.
  rewrite <- (probe_0 k). unfold probe. f_equal.
  replace (home k - 1 - p * step2 k) with (home k - 1 - 0 * step2 k + (- step2 k) * p) by ring.
  apply Z.mod_add. lia.
Qed.

(** The code's index update is the next probe. *)
Lemma probe_next k j : let idx := probe k j in
  (if idx <=? step2 k then wrap 32 (wrap 32 (p + idx) - step2 k) else wrap 32 (idx - step2 k))
  = probe k (j + 1).
Proof using Hr.
  intros idx. pose proof (probe_range k j) as R. fold idx in R. pose proof (step2_range k) as S2.
  assert (E : probe k (j + 1) = (idx - 1 - step2 k) mod p + 1).
  { unfold idx, probe. f_equal. rewrite Z.add_simpl_r, Zminus_mod_idemp_l. f_equal. ring. }
  rewrite E. unfold wrap, UINT_MAX in *. destruct (Z.leb_spec idx (step2 k)).
  - rewrite Zminus_mod_idemp_l, Z.mod_small by lia.
    rewrite <- (Z.mod_add _ 1) by lia. rewrite Z.mod_small; lia.
  - rewrite !Z.mod_small by lia. lia.
Qed.

(** Because [p] is prime the probes visit every slot ... *)
Lemma probe_onto k s : 1 <= s <= p -> exists j, 0 <= j < p /\ probe k j = s.
Proof using Hp Hr.
  intros Hs. pose proof (step2_range k) as S2.
  assert (RP : Z.coprime p (step2 k)).
  { apply Z.coprime_prime_l; [exact Hp|]. intros Hd. apply Z.divide_pos_le in Hd; lia. }
  destruct (Z.Bezout_coprime _ _ RP) as (v & u & Huv).
  exists (((home k - s) * u) mod p). split; [apply Z.mod_pos_bound; lia|].
  unfold probe. assert (E : (home k - 1 - ((home k - s) * u) mod p * step2 k) mod p = s - 1).
  2:{ rewrite E. lia. }
  rewrite Zminus_mod, Zmult_mod_idemp_l, <- Zminus_mod.
  replace (home k - 1 - (home k - s) * u * step2 k)
    with (s - 1 + (home k - s) * v * p)
    by (apply (f_equal (Z.mul (home k - s))) in Huv; lia).
  rewrite Z.mod_add by lia. apply Z.mod_small. lia.
Qed.

(** ... and return to the first only after a full round. *)
Lemma probe_home k j : 0 < j < p -> probe k j <> home k.
Proof using Hp Hr.
  intros Hj E. pose proof (step2_range k) as S2. pose proof (home_range k) as R.
  unfold probe in E. assert (D : (p | j * step2 k)).
  { apply Z.mod_divide; [lia|]. pose proof (Z.div_mod (home k - 1 - j * step2 k) p ltac:(lia)) as Q.
    replace (j * step2 k) with (0 + (- ((home k - 1 - j * step2 k) / p)) * p) by lia.
    rewrite Z.mod_add by lia. reflexivity. }
  apply Z.divide_prime_mul in D; [|exact Hp].
  destruct D as [D|D]; apply Z.divide_pos_le in D; lia.
Qed.

Definition used_at (tab : list slot) (i : Z) : Prop :=
  exists s, tab !! Z.to_nat i = Some s /\ used s <> 0.

Definition no_match (tab : list slot) (k : key) (i : Z) : Prop :=
  forall s, tab !! Z.to_nat i = Some s -> slot_matches s (hash k) k = false.

(** What a search for [k] finds. *)
Definition search_result (tab : list slot) (k : key) (found : bool) (idx : Z) : Prop :=
  if found then exists s, tab !! Z.to_nat idx = Some s /\ slot_matches s (hash k) k = true
  else
    (exists j, 0 <= j < p /\ idx = probe k j /\ ~ used_at tab idx /\
       forall j', 0 <= j' < j -> used_at tab (probe k j') /\ no_match tab k (probe k j')) \/
    (forall j, 0 <= j < p -> used_at tab (probe k j) /\ no_match tab k (probe k j)).

Lemma probe_loop_spec tab k : Z.of_nat (length tab) = p + 1 -> forall fuel j,
  0 <= j < p -> p - j <= Z.of_nat fuel ->
  (forall j', 0 <= j' <= j -> used_at tab (probe k j') /\ no_match tab k (probe k j')) ->
  exists found idx, probe_loop fuel tab p (hash k) (step2 k) (home k) k (probe k j)
                      = Some (found, idx) /\ 1 <= idx <= p /\ search_result tab k found idx.
Proof using Hp Hr.
  intros Hl. induction fuel as [|f IH]; intros j Hj Hf Hbefore; [lia|].
  cbn [probe_loop]. rewrite probe_next. pose proof (probe_range k (j + 1)) as R.
  destruct (Z.eqb_spec (probe k (j + 1)) (home k)) as [E|E].
  { exists false, (probe k (j + 1)). split; [reflexivity|]. split; [lia|]. right.
    assert (j + 1 = p) by (destruct (Z.eq_dec (j + 1) p); [assumption|];
      exfalso; apply (probe_home k (j + 1)); [lia | exact E]).
    intros j' Hj'. apply Hbefore. lia. }
  assert (j + 1 <> p) by (intros H; apply E; rewrite H; apply probe_p).
  destruct (lookup_lt_is_Some_2 tab (Z.to_nat (probe k (j + 1)))) as [s Es]; [lia|].
  rewrite Es. cbn [mbind option_bind]. destruct (slot_matches s (hash k) k) eqn:Em.
  { exists true, (probe k (j + 1)). split; [reflexivity|]. split; [lia|]. exists s. auto. }
  assert (Nm : no_match tab k (probe k (j + 1))) by (intros s'; congruence).
  destruct (Z.eqb_spec (used s) 0) as [Eu|Eu]; cbn [negb].
  - exists false, (probe k (j + 1)). split; [reflexivity|]. split; [lia|]. left. exists (j + 1).
    split; [lia|]. split; [reflexivity|]. split; [intros (s' & Es' & Hu); congruence|].
    intros j' Hj'. apply Hbefore. lia.
  - apply IH; [lia | lia|]. intros j' Hj'. destruct (Z.eq_dec j' (j + 1)) as [->|].
    + split; [exists s; auto | exact Nm].
    + apply Hbefore. lia.
Qed.

Lemma hsearch_find_spec h tab k : size h = p -> Z.of_nat (length tab) = p + 1 ->
  exists found idx, hsearch_find h tab k = Some (found, idx) /\ 1 <= idx <= p /\
    search_result tab k found idx.
Proof using Hp Hr.
  intros Es Hl. unfold hsearch_find. rewrite Es. fold (home k). fold (step2 k).
  pose proof (home_range k) as R.
  destruct (lookup_lt_is_Some_2 tab (Z.to_nat (home k))) as [s E]; [lia|].
  rewrite E. cbn [mbind option_bind]. destruct (Z.eqb_spec (used s) 0) as [Eu|Eu]; cbn [negb].
  - exists false, (home k). split; [reflexivity|]. split; [lia|]. left. exists 0.
    rewrite probe_0. split; [lia|]. split; [reflexivity|].
    split; [intros (s' & Es' & Hu); congruence | lia].
  - destruct (slot_matches s (hash k) k) eqn:Em.
    { exists true, (home k). split; [reflexivity|]. split; [lia|]. exists s. auto. }
    pose proof (probe_loop_spec tab k Hl (S (Z.to_nat p)) 0) as L. rewrite probe_0 in L.
    apply L; [lia | lia|]. intros j' Hj'. assert (j' = 0) as -> by lia. rewrite probe_0.
    split; [exists s; auto | intros s'; congruence].
Qed.
End Probes.

(** * The table as a finite map *)

Definition is_used (s : slot) : Prop := used s <> 0.
#[global] Instance is_used_dec s : Decision (is_used s).
Proof. unfold is_used. apply _. Defined.

Definition keys_of (tab : list slot) : list key := (e_key ∘ entry) <$> filter is_used tab.

(** The abstract contents: every used slot is a binding. *)
Definition contents (tab : list slot) : gmap key Z :=
  list_to_map ((fun s => (e_key (entry s), e_data (entry s))) <$> filter is_used tab).

(** Well-formed active tables. *)
Record wf (h : hsearch_data) (tab : list slot) : Prop := {
  wf_table : table h = Some tab;
  wf_prime : Z.prime (size h);
  wf_range : 3 <= size h <= UINT_MAX - 2;
  wf_length : Z.of_nat (length tab) = size h + 1;
  wf_zero : exists s0, tab !! 0%nat = Some s0 /\ used s0 = 0;
  wf_slots : forall i s, tab !! i = Some s -> is_used s ->
    used s = hash (e_key (entry s)) /\
    exists j, 0 <= j < size h /\ Z.of_nat i = probe (size h) (e_key (entry s)) j /\
      forall j', 0 <= j' < j -> used_at tab (probe (size h) (e_key (entry s)) j');
  wf_nodup : NoDup (keys_of tab);
  wf_filled : filled h = Z.of_nat (length (filter is_used tab))
}.

Lemma filter_insert_used tab i s s' : tab !! i = Some s -> ~ is_used s -> is_used s' ->
  filter is_used (<[i := s']> tab) ≡ₚ s' :: filter is_used tab.
Proof.
  intros Hi Hs Hs'. rewrite insert_take_drop by (eapply lookup_lt_Some; eauto).
  rewrite <- (take_drop_middle tab i s Hi) at 3.
  rewrite !filter_app, !filter_cons, decide_True, decide_False by assumption.
  symmetry. apply Permutation_middle.
Qed.

Lemma contents_nodup tab : NoDup (keys_of tab) ->
  NoDup ((fun s => (e_key (entry s), e_data (entry s))) <$> filter is_used tab).*1.
Proof. intros H. rewrite <- list_fmap_compose. exact H. Qed.

Lemma contents_lookup tab k d : NoDup (keys_of tab) ->
  contents tab !! k = Some d <->
  exists i s, tab !! i = Some s /\ is_used s /\ e_key (entry s) = k /\ e_data (entry s) = d.
Proof.
  intros ND. unfold contents. rewrite <- elem_of_list_to_map by now apply contents_nodup.
  rewrite list_elem_of_fmap. split.
  - intros (s & E & Hs). apply list_elem_of_filter in Hs as [Hu Hs].
    apply list_elem_of_lookup in Hs as [i Hi]. injection E as -> ->. eauto 6.
  - intros (i & s & Hi & Hu & <- & <-). exists s. split; [reflexivity|].
    apply list_elem_of_filter. split; [exact Hu|]. eapply list_elem_of_lookup_2; eauto.
Qed.

Lemma contents_insert tab i s s' : NoDup (keys_of tab) -> tab !! i = Some s -> ~ is_used s ->
  is_used s' -> contents tab !! e_key (entry s') = None ->
  NoDup (keys_of (<[i := s']> tab)) /\
  contents (<[i := s']> tab) = <[e_key (entry s') := e_data (entry s')]> (contents tab).
Proof.
  intros ND Hi Hs Hs' Hn. pose proof (filter_insert_used _ _ _ _ Hi Hs Hs') as P.
  assert (Nk : e_key (entry s') ∉ keys_of tab).
  { intros Hin. apply not_elem_of_list_to_map in Hn. apply Hn.
    rewrite <- list_fmap_compose. exact Hin. }
  assert (ND' : NoDup (keys_of (<[i := s']> tab))).
  { unfold keys_of. rewrite P. cbn. apply NoDup_cons. split; assumption. }
  split; [exact ND'|]. unfold contents.
  rewrite (list_to_map_proper _ ((fun s => (e_key (entry s), e_data (entry s))) <$> (s' :: filter is_used tab))).
  - reflexivity.
  - now apply contents_nodup.
  - now rewrite P.
Qed.

Lemma filter_all_used (l : list slot) :
  length (filter is_used l) = length l <-> Forall is_used l.
Proof.
  split.
  - induction l as [|s l IH]; intros H; [constructor|]. rewrite filter_cons in H.
    pose proof (length_filter is_used l). destruct (decide (is_used s)); cbn in H; [|lia].
    constructor; auto.
  - induction 1 as [|s l Hs Hl IH]; [reflexivity|].
    rewrite filter_cons, decide_True by assumption. cbn. now rewrite IH.
Qed.

(** [filled] reaches [size] exactly when every slot from 1 on is used. *)
Lemma wf_full h tab : wf h tab ->
  (filled h = size h <-> forall i, 1 <= i <= size h -> used_at tab i).
Proof.
  intros W. destruct (wf_zero _ _ W) as (s0 & E0 & U0). pose proof (wf_length _ _ W) as Hl.
  destruct tab as [|s l]; [discriminate|]. cbn in E0. injection E0 as ->.
  assert (E : filter is_used (s0 :: l) = filter is_used l)
    by (rewrite filter_cons, decide_False; [reflexivity | unfold is_used; lia]).
  rewrite (wf_filled _ _ W), E. cbn [length] in Hl.
  transitivity (length (filter is_used l) = length l); [lia|]. rewrite filter_all_used.
  rewrite Forall_lookup. split.
  - intros H i Hi. destruct (lookup_lt_is_Some_2 l (Z.to_nat (i - 1))) as [s Es]; [lia|].
    exists s. split; [|now apply (H _ _ Es)].
    replace (Z.to_nat i) with (S (Z.to_nat (i - 1))) by lia. exact Es.
  - intros H i s Es. pose proof (lookup_lt_Some _ _ _ Es).
    destruct (H (Z.of_nat (S i))) as (s' & Es' & Hu); [lia|].
    rewrite Nat2Z.id in Es'. change (l !! i = Some s') in Es'.
    rewrite Es in Es'. injection Es' as <-. exact Hu.
Qed.

(** The search finds exactly the bindings. *)
Lemma find_contents h tab k : wf h tab ->
  exists found idx, hsearch_find h tab k = Some (found, idx) /\ 1 <= idx <= size h /\
    match contents tab !! k with
    | Some d => found = true /\ exists s, tab !! Z.to_nat idx = Some s /\
        entry s = {| e_key := k; e_data := d |}
    | None => found = false /\
        ((filled h = size h) \/
         (filled h <> size h /\ exists j, 0 <= j < size h /\ idx = probe (size h) k j /\
            ~ used_at tab idx /\ forall j', 0 <= j' < j -> used_at tab (probe (size h) k j')))
    end.
Proof.
  intros W. pose proof (wf_prime _ _ W) as Hp. pose proof (wf_range _ _ W) as Hr.
  pose proof (wf_nodup _ _ W) as ND.
  destruct (hsearch_find_spec (size h) Hp Hr h tab k eq_refl (wf_length _ _ W))
    as (found & idx & E & Hi & R). exists found, idx. split; [exact E|]. split; [exact Hi|].
  assert (Hm : forall i s, tab !! i = Some s -> slot_matches s (hash k) k = true ->
    is_used s /\ e_key (entry s) = k).
  { intros i s Es. unfold slot_matches. pose proof (hash_range k).
    intros [Hh Hk]%andb_true_iff. apply bool_decide_eq_true in Hk. unfold is_used. split; [lia | auto]. }
  destruct (contents tab !! k) as [d|] eqn:Ec.
  - apply contents_lookup in Ec as (i & s & Es & Hu & Ek & Ed); [|exact ND].
    destruct (wf_slots _ _ W i s Es Hu) as (Eh & j & Hj & Ei & Hbefore). rewrite Ek in *.
    assert (Ms : slot_matches s (hash k) k = true).
    { unfold slot_matches. rewrite Eh, Z.eqb_refl, Ek. now apply bool_decide_eq_true. }
    assert (Ei' : Z.to_nat (probe (size h) k j) = i) by lia.
    destruct found; cbn [search_result] in R.
    + split; [reflexivity|]. destruct R as (s' & Es' & Ms'). exists s'. split; [exact Es'|].
      assert (contents tab !! k = Some (e_data (entry s'))) as C1.
      { apply contents_lookup; [exact ND|]. destruct (Hm _ _ Es' Ms'). eauto 6. }
      assert (contents tab !! k = Some d) as C2 by (apply contents_lookup; eauto 6).
      destruct (Hm _ _ Es' Ms') as [_ Hk']. rewrite C1 in C2. injection C2 as C2.
      destruct (entry s') as [a b]. cbn in *. congruence.
    + exfalso. destruct R as [(j1 & Hj1 & -> & Nu & Hb1)|R].
      * destruct (Z.lt_trichotomy j1 j) as [Hlt|[->|Hgt]].
        -- apply Nu, Hbefore. lia.
        -- apply Nu. exists s. rewrite Ei'. auto.
        -- destruct (Hb1 j ltac:(lia)) as [_ Nm]. specialize (Nm s). rewrite Ei' in Nm.
           rewrite Nm in Ms by assumption. discriminate.
      * destruct (R j Hj) as [_ Nm]. specialize (Nm s). rewrite Ei' in Nm.
        rewrite Nm in Ms by assumption. discriminate.
  - destruct found; cbn [search_result] in R.
    + exfalso. destruct R as (s & Es & Ms). destruct (Hm _ _ Es Ms) as [Hu Hk].
      assert (contents tab !! k = Some (e_data (entry s))) as C by (apply contents_lookup; eauto 6).
      congruence.
    + split; [reflexivity|]. pose proof (wf_full _ _ W) as Hf.
      destruct R as [(j1 & Hj1 & -> & Nu & Hb1)|R].
      * right. split; [intros E'; apply Nu; apply Hf; [exact E' | exact Hi]|].
        exists j1. repeat (split; [assumption || reflexivity|]). intros j' Hj'. now apply Hb1.
      * left. apply Hf. intros i Hii.
        destruct (probe_onto (size h) Hp Hr k i Hii) as (j & Hj & <-). now apply R.
Qed.

(** Entering a new key in a free slot. *)
Lemma wf_enter h tab item idx j : let k := e_key item in wf h tab ->
  filled h <> size h -> contents tab !! k = None -> 0 <= j < size h ->
  idx = probe (size h) k j -> 1 <= idx <= size h -> ~ used_at tab idx ->
  (forall j', 0 <= j' < j -> used_at tab (probe (size h) k j')) ->
  let tab' := <[Z.to_nat idx := {| used := hash k; entry := item |}]> tab in
  wf {| size := size h; filled := wrap 32 (filled h + 1); table := Some tab' |} tab' /\
  contents tab' = <[k := e_data item]> (contents tab).
Proof.
  intros k W Hf Hc Hj Ei Hi Nu Hb tab'. pose proof (hash_range k) as Hh.
  pose proof (wf_length _ _ W) as Hl. pose proof (wf_range _ _ W) as Hr.
  set (s' := {| used := hash k; entry := item |}) in *. assert (Us : is_used s') by (unfold is_used; cbn; lia).
  destruct (lookup_lt_is_Some_2 tab (Z.to_nat idx)) as [s Es]; [lia|].
  assert (Ns : ~ is_used s) by (intros Hu; apply Nu; exists s; auto).
  destruct (contents_insert tab (Z.to_nat idx) s s' (wf_nodup _ _ W) Es Ns Us Hc) as [ND EC].
  split; [|exact EC].
  assert (Mono : forall i, used_at tab i -> used_at tab' i).
  { intros i (x & Ex & Hx). destruct (decide (Z.to_nat idx = Z.to_nat i)) as [E|E].
    - exists s'. rewrite <- E. split; [apply list_lookup_insert_eq; lia | exact Us].
    - exists x. split; [unfold tab'; now rewrite list_lookup_insert_ne | exact Hx]. }
  assert (Hcount : (length (filter is_used tab) < length tab)%nat).
  { pose proof (length_filter is_used tab).
    destruct (decide (length (filter is_used tab) = length tab)) as [E|]; [|lia].
    apply filter_all_used in E. rewrite Forall_lookup in E. specialize (E _ _ Es). contradiction. }
  constructor; cbn [table size filled]; auto; try apply W.
  - unfold tab'. rewrite length_insert. exact Hl.
  - destruct (wf_zero _ _ W) as (s0 & E0 & U0). exists s0. split; [|exact U0].
    unfold tab'. rewrite list_lookup_insert_ne by lia. exact E0.
  - intros i x Ex Hx. destruct (decide (Z.to_nat idx = i)) as [<-|Hne].
    + unfold tab' in Ex. rewrite list_lookup_insert_eq in Ex by lia. injection Ex as <-. cbn.
      split; [reflexivity|]. exists j. split; [exact Hj|]. split; [fold k; lia|].
      intros j' Hj'. apply Mono, Hb, Hj'.
    + unfold tab' in Ex. rewrite list_lookup_insert_ne in Ex by assumption.
      destruct (wf_slots _ _ W i x Ex Hx) as (Eh & jx & Hjx & Eix & Hbx).
      split; [exact Eh|]. exists jx. split; [exact Hjx|]. split; [exact Eix|].
      intros j' Hj'. apply Mono, Hbx, Hj'.
  - pose proof (filter_insert_used _ _ _ _ Es Ns Us) as P. apply Permutation_length in P.
    cbn in P. fold tab' in P. rewrite P, (wf_filled _ _ W). unfold wrap, UINT_MAX in *.
    rewrite Z.mod_small; lia.
Qed.

(** * The promises of the search routines *)

(** [hcreate_r] on an inactive table either reports an error or creates an
    empty well-formed table whose size is the first odd prime from
    [max nel 3] on; the prime search ends within [UINT_MAX / 2 + 1] rounds. *)
Theorem hcreate_r_correct fuel calloc nel h :
  0 <= nel < 2 ^ 64 -> table h = None -> UINT_MAX / 2 + 1 <= Z.of_nat fuel ->
  exists ret err h', hcreate_r fuel calloc nel h = Some (ret, err, h') /\
    (ret = 0 /\ err = Some ENOMEM /\ table h' = None \/
     ret = 1 /\ err = None /\ exists tab, wf h' tab /\ contents tab = ∅ /\ filled h' = 0 /\
       nel <= size h' /\ Z.prime (size h') /\
       forall q, nel <= q < size h' -> 3 <= q -> Z.odd q = true -> ~ Z.prime q).
Proof.
  intros Hn Ht Hf. unfold hcreate_r. rewrite Ht. set (n3 := if nel <? 3 then 3 else nel).
  assert (H3 : 3 <= n3 /\ nel <= n3 /\ (n3 = nel \/ nel < 3 /\ n3 = 3)) by (unfold n3; destruct (Z.ltb_spec nel 3); lia).
  assert (Ho : Z.odd (Z.lor n3 1) = true).
  { rewrite <- Z.bit0_odd, Z.lor_spec. cbn. apply orb_true_r. }
  assert (Hor : Z.lor n3 1 = n3 \/ (Z.lor n3 1 = n3 + 1 /\ Z.odd n3 = false)).
  { destruct (Z.odd n3) eqn:Eo.
    - left. apply Z.bits_inj'. intros i Hi. rewrite Z.lor_spec. destruct (Z.eq_dec i 0) as [->|].
      + rewrite Z.bit0_odd, Eo. reflexivity.
      + rewrite (Z.bits_above_log2 1 i) by (cbn; lia). apply orb_false_r.
    - right. split; [|reflexivity]. rewrite <- Z.add_lor_land.
      replace (Z.land n3 1) with 0; [lia|]. symmetry.
      change 1 with (Z.ones 1). rewrite Z.land_ones by lia. change (2 ^ 1) with 2.
      rewrite Zmod_odd, Eo. reflexivity. }
  destruct (next_prime_total fuel (Z.lor n3 1)) as [r Er]; [| |].
  { assert (3 <= Z.lor n3 1) as Hl by lia. revert Hf Hl. clear. generalize (Z.lor n3 1).
    change UINT_MAX with 4294967295. change (4294967295 / 2) with 2147483647. lia. }
  { change (UINT_MAX / 2) with 2147483647 in Hf. lia. }
  rewrite Er. apply next_prime_sound in Er; [|lia | exact Ho]. cbn [mbind option_bind].
  destruct r as [p|]; [|eexists _, _, _; split; [reflexivity|]; left; auto].
  destruct Er as (Hr & Hp & Hfirst).
  destruct (calloc (p + 1)); [|eexists _, _, _; split; [reflexivity|]; left; auto].
  eexists _, _, _. split; [reflexivity|]. right. split; [reflexivity|]. split; [reflexivity|].
  set (tab := replicate (Z.to_nat (p + 1)) zero_slot). exists tab.
  assert (Hz : forall i s, tab !! i = Some s -> used s = 0).
  { intros i s E. apply lookup_replicate in E as [-> _]. reflexivity. }
  assert (Ef : filter is_used tab = []).
  { unfold tab. clear. induction (Z.to_nat (p + 1)) as [|m IH]; [reflexivity|].
    cbn [replicate]. rewrite filter_cons, decide_False by (unfold is_used; cbn; lia). exact IH. }
  split; [constructor; cbn [table size filled]; auto; try lia|].
  - unfold tab. rewrite length_replicate. lia.
  - exists zero_slot. split; [|reflexivity]. apply lookup_replicate. split; [reflexivity | lia].
  - intros i s E Hu. exfalso. apply Hu, (Hz i s E).
  - unfold keys_of. rewrite Ef. constructor.
  - rewrite Ef. reflexivity.
  - unfold contents. rewrite Ef. cbn [size filled]. split; [reflexivity|]. split; [reflexivity|].
    split; [lia|]. split; [exact Hp|]. intros q Hq Hq3 Hoq. apply Hfirst; [|exact Hoq].
    destruct Hor as [->|[-> Ho3]]; [lia|]. destruct (Z.eq_dec q n3) as [->|]; [congruence | lia].
Qed.

Definition wit_fuel : nat := Z.to_nat 2147483648.

Lemma hcreate_r_correct_witness :
  exists ret err h', hcreate_r wit_fuel (fun _ => true) 100 {| size := 0; filled := 0; table := None |}
    = Some (ret, err, h').
Proof.
  destruct (hcreate_r_correct wit_fuel (fun _ => true) 100 {| size := 0; filled := 0; table := None |})
    as (ret & err & h' & E & _); [lia | reflexivity | |eauto].
  unfold wit_fuel. rewrite Z2Nat.id by lia. change (UINT_MAX / 2) with 2147483647. lia.
Defined.

(** C6: on a well-formed table [hsearch_r] refines a finite map with a bounded
    number of keys: a key that is present is found, by both actions, without a
    change; an absent key makes [FIND] fail with [ESRCH] and makes [ENTER] add
    exactly its binding, or fail with [ENOMEM] when the table is full; the
    probing always terminates inside the table and the table stays
    well-formed. *)
Theorem hsearch_r_refines item action h tab : wf h tab ->
  exists r h' tab', hsearch_r item action h = Some (r, h') /\ wf h' tab' /\
    match contents tab !! e_key item, action with
    | Some d, _ => h' = h /\ tab' = tab /\ exists i s, r = inl i /\ tab !! Z.to_nat i = Some s /\
        entry s = {| e_key := e_key item; e_data := d |}
    | None, FIND => r = inr ESRCH /\ h' = h /\ tab' = tab
    | None, ENTER =>
        if filled h =? size h then r = inr ENOMEM /\ h' = h /\ tab' = tab
        else contents tab' = <[e_key item := e_data item]> (contents tab) /\
             exists i s, r = inl i /\ tab' !! Z.to_nat i = Some s /\ entry s = item
    end.
Proof.
  intros W. unfold hsearch_r. rewrite (wf_table _ _ W). cbn [mbind option_bind].
  destruct (find_contents h tab (e_key item) W) as (found & idx & -> & Hi & R).
  cbn [mbind option_bind]. destruct (contents tab !! e_key item) as [d|] eqn:Ec.
  - destruct R as (-> & s & Es & Ee). exists (inl idx), h, tab. split; [reflexivity|].
    split; [exact W|]. split; [reflexivity|]. split; [reflexivity|]. exists idx, s. auto.
  - destruct R as (-> & R). destruct action.
    + exists (inr ESRCH), h, tab. auto.
    + destruct (Z.eqb_spec (filled h) (size h)) as [Ef|Ef].
      { exists (inr ENOMEM), h, tab. auto. }
      destruct R as [R|(_ & j & Hj & Ei & Nu & Hb)]; [congruence|].
      destruct (wf_enter h tab item idx j W Ef Ec Hj Ei Hi Nu Hb) as [W' EC].
      eexists _, _, _. split; [reflexivity|]. split; [exact W'|]. split; [exact EC|].
      exists idx, {| used := hash (e_key item); entry := item |}.
      split; [reflexivity|]. split; [|reflexivity]. apply list_lookup_insert_eq. pose proof (wf_length _ _ W). lia.
Qed.

(** A table of five slots with no entry. *)
Definition wit_tab : list slot := replicate 6 zero_slot.
Definition wit_htab : hsearch_data := {| size := 5; filled := 0; table := Some wit_tab |}.

Lemma wit_wf : wf wit_htab wit_tab.
Proof.
  constructor; cbn; try lia; try reflexivity.
  - apply (isprime_spec 5); [split; vm_compute; congruence | reflexivity | reflexivity].
  - unfold UINT_MAX. lia.
  - exists zero_slot. split; reflexivity.
  - intros i s E Hu. apply (lookup_replicate 6 zero_slot s i) in E as [-> _].
    exfalso. apply Hu. reflexivity.
  - constructor.
Qed.

Lemma hsearch_r_refines_witness :
  exists r h' tab', hsearch_r {| e_key := [97; 98]; e_data := 7 |} ENTER wit_htab = Some (r, h') /\
    wf h' tab' /\ contents tab' = <[[97; 98] := 7]> ∅.
Proof.
  destruct (hsearch_r_refines {| e_key := [97; 98]; e_data := 7 |} ENTER wit_htab wit_tab wit_wf)
    as (r & h' & tab' & E & W & R).
  exists r, h', tab'. split; [exact E|]. split; [exact W|]. exact (proj1 R).
Defined.

(** ** Linear search *)

Lemma lfind_loop_spec {K A} (compar : K -> A -> Z) key arr : forall cnt,
  match lfind_loop compar key arr cnt with
  | Some i => exists n x, i = (cnt + n)%nat /\ arr !! n = Some x /\ compar key x = 0 /\
      forall j y, (j < n)%nat -> arr !! j = Some y -> compar key y <> 0
  | None => forall x, x ∈ arr -> compar key x <> 0
  end.
Proof.
  induction arr as [|a l IH]; intros cnt; cbn [lfind_loop].
  { intros x Hx. now apply not_elem_of_nil in Hx. }
  destruct (Z.eqb_spec (compar key a) 0) as [E|E].
  { exists 0%nat, a. split; [lia|]. split; [reflexivity|]. split; [exact E|]. intros; lia. }
  specialize (IH (S cnt)). destruct (lfind_loop compar key l (S cnt)) as [i|].
  - destruct IH as (n & x & -> & Hn & Hx & Hb). exists (S n), x. split; [lia|].
    split; [exact Hn|]. split; [exact Hx|]. intros [|j] y Hj Hy; [cbn in Hy; congruence|].
    apply (Hb j y); [lia | exact Hy].
  - intros x [->|Hx]%elem_of_cons; auto.
Qed.

(** [lsearch] returns the first equal element and leaves the array alone,
    or appends the key when there is none; afterwards [lfind] finds the key at
    the position returned. *)
Theorem lsearch_correct {A} (compar : A -> A -> Z) key arr : compar key key = 0 ->
  let '(i, arr') := lsearch compar key arr in
  lfind compar key arr' = Some i /\
  (exists x, arr' !! i = Some x /\ compar key x = 0) /\
  ((exists x, x ∈ arr /\ compar key x = 0) -> arr' = arr) /\
  ((forall x, x ∈ arr -> compar key x <> 0) -> arr' = arr ++ [key] /\ i = length arr).
Proof.
  intros Hk. unfold lsearch, lfind. pose proof (lfind_loop_spec compar key arr 0) as H.
  destruct (lfind_loop compar key arr 0) as [i|] eqn:E.
  - destruct H as (n & x & -> & Hn & Hx & Hb). cbn [Nat.add] in *. split; [exact E|].
    split; [eauto|]. split; [reflexivity|]. intros Hno. exfalso.
    apply (Hno x); [eapply list_elem_of_lookup_2; eauto | exact Hx].
  - split; [|split; [|split]].
    + pose proof (lfind_loop_spec compar key (arr ++ [key]) 0) as H2.
      destruct (lfind_loop compar key (arr ++ [key]) 0) as [i|].
      * destruct H2 as (n & x & -> & Hn & Hx & Hb). f_equal. cbn [Nat.add].
        destruct (decide (n < length arr)%nat) as [Hlt|Hge].
        -- rewrite lookup_app_l in Hn by assumption. apply list_elem_of_lookup_2, H in Hn. contradiction.
        -- destruct (decide (n = length arr)); [assumption|]. exfalso.
           apply (Hb (length arr) key); [lia | | exact Hk]. now apply list_lookup_middle.
      * exfalso. apply (H2 key); [|exact Hk]. apply elem_of_app. right. now apply list_elem_of_singleton.
    + exists key. split; [now apply list_lookup_middle | exact Hk].
    + intros (x & Hin & Hx). exfalso. now apply (H x).
    + auto.
Qed.

Lemma lsearch_correct_witness :
  lfind Z.sub 5 (snd (lsearch Z.sub 5 [1; 2])) = Some (fst (lsearch Z.sub 5 [1; 2])).
Proof. exact (proj1 (lsearch_correct Z.sub 5 [1; 2] eq_refl)). Defined.

(** ** Linked lists *)

(** The elements [l] are linked in order between [p] and [n]. *)
Fixpoint seg (h : qheap) (p : Z) (l : list Z) (n : Z) : Prop :=
  match l with
  | [] => True
  | a :: l => h !! a = Some {| q_forw := default n (head l); q_back := p |} /\ seg h a l n
  end.

Definition dll (h : qheap) (l : list Z) : Prop := NoDup l /\ (0 ∉ l) /\ seg h 0 l 0.

Lemma seg_app h l1 : forall p l2 n,
  seg h p (l1 ++ l2) n <-> seg h p l1 (default n (head l2)) /\ seg h (default p (last l1)) l2 n.
Proof.
  induction l1 as [|a l1 IH]; intros p l2 n; [cbn; tauto|].
  cbn [app seg]. rewrite IH. replace (default n (head (l1 ++ l2))) with
    (default (default n (head l2)) (head l1)) by (destruct l1; reflexivity).
  replace (default a (last l1)) with (default p (last (a :: l1))) by
    (rewrite last_cons; destruct (last l1); reflexivity). tauto.
Qed.

Lemma seg_ext h h' l : forall p n, (forall a, a ∈ l -> h' !! a = h !! a) -> seg h p l n -> seg h' p l n.
Proof.
  induction l as [|a l IH]; intros p n H; [auto|]. cbn [seg]. intros [E S].
  rewrite H by apply list_elem_of_here. split; [exact E|]. apply IH; [|exact S].
  intros b Hb. apply H. now apply list_elem_of_further.
Qed.

(** The last link of a segment, and its first link, can be redirected. *)
Lemma seg_snoc h l p a n : seg h p (l ++ [a]) n <->
  seg h p l a /\ h !! a = Some {| q_forw := n; q_back := default p (last l) |}.
Proof. rewrite seg_app. cbn. tauto. Qed.

Lemma lookup_set_forw h p v a : set_forw h p v !! a =
  if decide (p = a) then (fun q => {| q_forw := v; q_back := q_back q |}) <$> (h !! a) else h !! a.
Proof.
  unfold set_forw. destruct (decide (p = a)) as [->|]; [apply lookup_alter_eq | now apply lookup_alter_ne].
Qed.

Lemma lookup_set_back h p v a : set_back h p v !! a =
  if decide (p = a) then (fun q => {| q_forw := q_forw q; q_back := v |}) <$> (h !! a) else h !! a.
Proof.
  unfold set_back. destruct (decide (p = a)) as [->|]; [apply lookup_alter_eq | now apply lookup_alter_ne].
Qed.

(** Redirecting the back link of the first element of a segment. *)
Lemma seg_set_back h p l n q : NoDup l -> 0 ∉ l -> seg h p l n ->
  let next := default 0 (head l) in
  seg (if negb (next =? 0) then set_back h next q else h) q l n.
Proof.
  destruct l as [|a l]; [constructor|]. cbn zeta.
  change (default 0 (head (a :: l))) with a. cbn [seg]. intros ND N0 [E S].
  assert (Ha : a <> 0) by (intros ->; apply N0, list_elem_of_here).
  destruct (Z.eqb_spec a 0); [contradiction|]. cbn [negb].
  apply NoDup_cons in ND as [Na ND]. split.
  - rewrite lookup_set_back, decide_True, E by reflexivity. reflexivity.
  - apply (seg_ext h); [|exact S]. intros b Hb. rewrite lookup_set_back, decide_False by congruence.
    reflexivity.
Qed.

Lemma insque_spec h elem prev l1 l2 : dll h (l1 ++ prev :: l2) ->
  elem <> 0 -> elem ∉ l1 ++ prev :: l2 -> is_Some (h !! elem) ->
  exists h', insque h elem prev = Some h' /\ dll h' (l1 ++ prev :: elem :: l2).
Proof.
  intros (ND & N0 & S) He Nin [qe Eqe]. apply seg_app in S as [S1 S2]. cbn in S2. destruct S2 as [Ep S2].
  rewrite elem_of_app, elem_of_cons in Nin, N0.
  pose proof ND as ND'. apply NoDup_app in ND' as (ND1 & Nd & ND2). apply NoDup_cons in ND2 as [Np ND2].
  assert (Np1 : prev ∉ l1) by (intros H; apply (Nd prev H), list_elem_of_here).
  unfold insque. destruct (Z.eqb_spec prev 0) as [->|Hp]; [tauto|].
  rewrite Ep. cbn [mbind option_bind q_forw]. set (next := default 0 (head l2)).
  assert (Hn : next = 0 \/ next ∈ l2) by (unfold next; destruct l2; [now left | right; apply list_elem_of_here]).
  eexists. split; [reflexivity|].
  set (h1 := set_forw h prev elem). set (h2 := if negb (next =? 0) then set_back h1 next elem else h1).
  assert (L2 : forall a, a <> prev -> a ∉ l2 -> h2 !! a = h !! a).
  { intros a Ha Hal. unfold h2. destruct (Z.eqb_spec next 0) as [|Hn0]; cbn [negb];
      rewrite ?lookup_set_back, ?decide_False by (intros ->; tauto); unfold h1;
      rewrite lookup_set_forw, decide_False by congruence; reflexivity. }
  assert (P2 : h2 !! prev = Some {| q_forw := elem; q_back := default 0 (last l1) |}).
  { unfold h2. destruct (Z.eqb_spec next 0) as [|Hn0]; cbn [negb];
      rewrite ?lookup_set_back, ?decide_False by (intros E'; rewrite E' in Hn; tauto); unfold h1;
      rewrite lookup_set_forw, decide_True, Ep by reflexivity; reflexivity. }
  assert (S2' : seg h2 elem l2 0).
  { apply seg_set_back with (p := prev); [exact ND2 | tauto|]. apply (seg_ext h); [|exact S2].
    intros a Ha. unfold h1. rewrite lookup_set_forw, decide_False by congruence. reflexivity. }
  assert (L4 : forall a, a <> elem -> set_back (set_forw h2 elem next) elem prev !! a = h2 !! a).
  { intros a Ha. rewrite lookup_set_back, lookup_set_forw, !decide_False by congruence. reflexivity. }
  split; [|split].
  - apply NoDup_app. split; [exact ND1|]. split.
    + intros x Hx. specialize (Nd x Hx). rewrite !elem_of_cons in *. intros [->|[->|]]; tauto.
    + rewrite !NoDup_cons, elem_of_cons. intuition congruence.
  - rewrite elem_of_app, !elem_of_cons. intuition congruence.
  - apply seg_app. cbn [head default seg]. split; [|split; [|split]].
    + apply (seg_ext h); [|exact S1]. intros a Ha. rewrite L4 by (intros ->; tauto).
      apply L2; [congruence|]. intros H. apply (Nd a Ha). now apply list_elem_of_further.
    + rewrite L4 by (intros ->; tauto). exact P2.
    + rewrite lookup_set_back, decide_True, lookup_set_forw, decide_True, L2, Eqe by tauto. reflexivity.
    + apply (seg_ext h2); [|exact S2']. intros a Ha. apply L4. intros ->; tauto.
Qed.

Lemma remque_spec h elem l1 l2 : dll h (l1 ++ elem :: l2) ->
  exists h', remque h elem = Some h' /\ dll h' (l1 ++ l2) /\ h' !! elem = h !! elem.
Proof.
  intros (ND & N0 & S). apply seg_app in S as [S1 S2]. cbn in S2. destruct S2 as [Ee S2].
  apply NoDup_app in ND as (ND1 & Nd & ND2). apply NoDup_cons in ND2 as [Ne ND2].
  assert (Ne1 : elem ∉ l1) by (intros H; apply (Nd elem H), list_elem_of_here).
  rewrite elem_of_app, elem_of_cons in N0.
  assert (D12 : forall a, a ∈ l1 -> a ∉ l2)
    by (intros a Ha H; apply (Nd a Ha); now apply list_elem_of_further).
  unfold remque. rewrite Ee. cbn [mbind option_bind q_forw q_back].
  set (next := default 0 (head l2)). set (prev := default 0 (last l1)).
  assert (Hn : next = 0 \/ next ∈ l2) by (unfold next; destruct l2; [now left | right; apply list_elem_of_here]).
  assert (Hp : prev = 0 \/ (exists l, l1 = l ++ [prev])).
  { unfold prev. destruct l1 as [|x l] using rev_ind; [now left|]. right. exists l. now rewrite last_snoc. }
  eexists. split; [reflexivity|].
  set (h2 := if negb (next =? 0) then set_back h next prev else h).
  assert (L2 : forall a, a ∉ l2 -> h2 !! a = h !! a).
  { intros a Ha. unfold h2. destruct (Z.eqb_spec next 0) as [|Hn0]; cbn [negb]; [reflexivity|].
    rewrite lookup_set_back, decide_False by (intros ->; tauto). reflexivity. }
  assert (S2' : seg h2 prev l2 0) by (apply seg_set_back with (p := elem); tauto).
  set (h3 := if negb (prev =? 0) then set_forw h2 prev next else h2).
  assert (L3 : forall a, a ∉ l1 -> h3 !! a = h2 !! a).
  { intros a Ha. unfold h3. destruct (Z.eqb_spec prev 0) as [|Hp0]; cbn [negb]; [reflexivity|].
    destruct Hp as [|[l El]]; [contradiction|]. rewrite lookup_set_forw, decide_False; [reflexivity|].
    intros ->. apply Ha. rewrite El. apply elem_of_app. right. now apply list_elem_of_singleton. }
  split; [split; [|split]|].
  - apply NoDup_app. auto.
  - rewrite elem_of_app. tauto.
  - apply seg_app. fold next prev. split.
    + destruct Hp as [Hp|[l El]].
      { destruct l1 as [|x l] using rev_ind; [exact I|]. exfalso. unfold prev in Hp.
        rewrite last_snoc in Hp. cbn in Hp. apply N0. left. rewrite elem_of_app.
        right. rewrite Hp. now apply list_elem_of_singleton. }
      rewrite El in S1, ND1 |- *. rewrite seg_snoc in S1 |- *. destruct S1 as [Sl Ep].
      apply NoDup_app in ND1 as (_ & Nl & _).
      assert (Hp0 : prev <> 0).
      { intros E0. apply N0. left. rewrite El, E0. apply elem_of_app. right.
        now apply list_elem_of_singleton. }
      assert (Np2 : prev ∉ l2) by (apply D12; rewrite El; apply elem_of_app; right; now apply list_elem_of_singleton).
      unfold h3. destruct (Z.eqb_spec prev 0); [contradiction|]. cbn [negb]. split.
      * apply (seg_ext h); [|exact Sl]. intros a Ha. rewrite lookup_set_forw, decide_False.
        -- apply L2, D12. rewrite El. apply elem_of_app. now left.
        -- intros E'. apply (Nl a Ha). rewrite <- E'. now apply list_elem_of_singleton.
      * rewrite lookup_set_forw, decide_True, L2, Ep by auto. reflexivity.
    + apply (seg_ext h2); [|exact S2']. intros a Ha. apply L3. intros H. now apply (D12 a).
  - rewrite L3, L2 by assumption. exact Ee.
Qed.

(** [insque] links an element behind its predecessor and [remque] unlinks
    it: on a well-formed list both keep every link consistent, and removing
    the inserted element restores the original list. *)
Theorem insque_remque_correct h elem prev l1 l2 : dll h (l1 ++ prev :: l2) ->
  elem <> 0 -> elem ∉ l1 ++ prev :: l2 -> is_Some (h !! elem) ->
  exists h1 h2, insque h elem prev = Some h1 /\ dll h1 (l1 ++ prev :: elem :: l2) /\
    remque h1 elem = Some h2 /\ dll h2 (l1 ++ prev :: l2) /\ h2 !! elem = h1 !! elem.
Proof.
  intros D He Nin Hs. destruct (insque_spec h elem prev l1 l2) as (h1 & E1 & D1); auto.
  change (prev :: elem :: l2) with ([prev] ++ elem :: l2) in *. rewrite app_assoc in D1.
  destruct (remque_spec h1 elem (l1 ++ [prev]) l2 D1) as (h2 & E2 & D2 & K2).
  rewrite <- !app_assoc in D1, D2. exists h1, h2. auto.
Qed.

Definition wit_heap : qheap :=
  <[1 := {| q_forw := 2; q_back := 0 |}]> (<[2 := {| q_forw := 0; q_back := 1 |}]>
    (<[3 := {| q_forw := 9; q_back := 9 |}]> ∅)).

Lemma insque_remque_correct_witness :
  exists h1 h2, insque wit_heap 3 1 = Some h1 /\ dll h1 [1; 3; 2] /\
    remque h1 3 = Some h2 /\ dll h2 [1; 2] /\ h2 !! 3 = h1 !! 3.
Proof.
  apply (insque_remque_correct wit_heap 3 1 [] [2]).
  - split; [|split]; [now apply (bool_decide_unpack _) | now apply (bool_decide_unpack _) | split; [reflexivity|]; split; [reflexivity | exact I]].
  - lia.
  - now apply (bool_decide_unpack _).
  - eexists. reflexivity.
Defined.
