(* ===== verification/StrWord.v ===== *)
(** * Word-at-a-time byte searching (sysdeps/generic/string-fza.h, string-fzb.h,
      string-fzc.h, string-fzi.h, string-shift.h, string-misc.h)

    An [op_t] is a 64-bit word, little endian, and [HAVE_BITOPTS_WORKING] is 1. *)

From Stdlib Require Import ZArith List Lia Bool.
From S2P Require Import Prelude.
Import ListNotations.
#[local] Open Scope Z_scope.

Definition OPSIZ : Z := 8.

(** Complement of an [op_t]. *)
Definition op_not (x : Z) : Z := wrap 64 (Z.lnot x).

Definition repeat_bytes (c_in : Z) : Z := wrap 64 ((wrap 64 (-1) / 255) * c_in).

Definition extractbyte (x idx : Z) : Z := wrap 8 (Z.shiftr x (idx * 8)).

(** ** string-fza.h *)

Definition find_zero_low (x : Z) : Z :=
  let lsb := repeat_bytes 1 in
  let msb := repeat_bytes 128 in
  Z.land (Z.land (wrap 64 (x - lsb)) (op_not x)) msb.

Definition find_zero_all (x : Z) : Z :=
  let m := repeat_bytes 127 in
  op_not (Z.lor (Z.lor (wrap 64 (Z.land x m + m)) x) m).

Definition find_eq_low (x1 x2 : Z) : Z := find_zero_low (Z.lxor x1 x2).
Definition find_eq_all (x1 x2 : Z) : Z := find_zero_all (Z.lxor x1 x2).

Definition find_zero_eq_low (x1 x2 : Z) : Z :=
  Z.lor (find_zero_low x1) (find_zero_low (Z.lxor x1 x2)).

Definition find_zero_eq_all (x1 x2 : Z) : Z :=
  Z.lor (find_zero_all x1) (find_zero_all (Z.lxor x1 x2)).

Definition find_zero_ne_all (x1 x2 : Z) : Z := Z.lor (Z.lxor x1 x2) (find_zero_all x1).

Definition find_ne_all (x1 x2 : Z) : Z := Z.lxor x1 x2.

(** ** string-fzb.h *)

Definition has_zero (x : Z) : bool := negb (find_zero_low x =? 0).
Definition has_eq (x1 x2 : Z) : bool := negb (find_eq_low x1 x2 =? 0).
Definition has_zero_eq (x1 x2 : Z) : bool := negb (find_zero_eq_low x1 x2 =? 0).

(** ** string-fzi.h *)

(** [stdc_trailing_zeros] and [stdc_leading_zeros] of a 64-bit word. *)
Fixpoint trailing_zeros (fuel : nat) (c : Z) : Z :=
  match fuel with
  | O => 0
  | S f => if Z.odd c then 0 else 1 + trailing_zeros f (c / 2)
  end.

Definition stdc_trailing_zeros (c : Z) : Z := trailing_zeros 64 c.
Definition stdc_leading_zeros (c : Z) : Z := if c =? 0 then 64 else 63 - Z.log2 c.

Definition ctzb (c : Z) : Z := stdc_trailing_zeros c / 8.
Definition clzb (c : Z) : Z := stdc_leading_zeros c / 8.
Definition index_first (c : Z) : Z := ctzb c.
Definition index_last (c : Z) : Z := OPSIZ - 1 - clzb c.

(** ** string-fzc.h *)

Definition index_first_zero (x : Z) : Z := index_first (find_zero_low x).
Definition index_first_eq (x1 x2 : Z) : Z := index_first (find_eq_low x1 x2).
Definition index_first_zero_eq (x1 x2 : Z) : Z := index_first (find_zero_eq_low x1 x2).
Definition index_first_zero_ne (x1 x2 : Z) : Z := index_first (find_zero_ne_all x1 x2).
Definition index_last_zero (x : Z) : Z := index_last (find_zero_all x).
Definition index_last_eq (x1 x2 : Z) : Z := index_last_zero (Z.lxor x1 x2).

(** ** string-shift.h *)

Definition shift_find (word s : Z) : Z := Z.shiftr word (8 * (s mod OPSIZ)).

Definition shift_find_last (word s : Z) : Z :=
  let s := s mod OPSIZ in
  if s =? 0 then word
  else Z.land word (op_not (wrap 64 (Z.shiftl (wrap 64 (-1)) (s * 8)))).

(** * Words as sequences of bytes *)

(** Reading a word is a little-endian load; masks are words of mask bytes. *)
#[local] Abbreviation load := load_le.

Lemma load_ext k : forall m m' a, (forall x, a <= x < a + Z.of_nat k -> m x = m' x) ->
  load k m a = load k m' a.
Proof.
  induction k as [|k IH]; intros m m' a H; cbn [load_le]; [reflexivity|].
  rewrite (H a) by lia. f_equal. f_equal. apply IH. intros; apply H; lia.
Qed.

Lemma load_range k : forall m a, bytes m a (Z.of_nat k) -> 0 <= load k m a < 256 ^ Z.of_nat k.
Proof.
  induction k as [|k IH]; intros m a H; cbn [load_le]; [change (256 ^ Z.of_nat 0) with 1; lia|].
  assert (0 <= m a < 256) by (apply H; lia).
  assert (0 <= load k m (a + 1) < 256 ^ Z.of_nat k) by (apply IH; intros x ?; apply H; lia).
  rewrite Nat2Z.inj_succ, Z.pow_succ_r by lia. lia.
Qed.

(** The bits of a word split after its low byte. *)
Lemma split_bits a A i : byte a -> 0 <= i ->
  Z.testbit (a + 256 * A) i = if i <? 8 then Z.testbit a i else Z.testbit A (i - 8).
Proof.
  intros Ha Hi. replace (a + 256 * A) with (A * 2 ^ 8 + a) by (change (2 ^ 8) with 256; lia).
  rewrite <- (lor_add_low A a 8) by (red in Ha; lia).
  rewrite Z.lor_spec. rewrite <- (Z.shiftl_mul_pow2 A 8) by lia.
  destruct (Z.ltb_spec i 8).
  - rewrite Z.shiftl_spec_low by lia. reflexivity.
  - rewrite Z.shiftl_spec by lia. red in Ha.
    rewrite <- (Z.mod_small a (2 ^ 8)) by (change (2 ^ 8) with 256; lia).
    rewrite Z.mod_pow2_bits_high by lia. apply orb_false_r.
Qed.

Lemma byte_bits x : byte x <-> 0 <= x /\ forall i, 8 <= i -> Z.testbit x i = false.
Proof.
  unfold byte. change 256 with (2 ^ 8). split.
  - intros H. split; [lia|]. intros i Hi. rewrite <- (Z.mod_small x (2 ^ 8)) by lia.
    apply Z.mod_pow2_bits_high. lia.
  - intros [H0 H]. assert (E : x mod 2 ^ 8 = x).
    { apply Z.bits_inj'. intros i Hi. destruct (Z.lt_ge_cases i 8).
      - apply Z.mod_pow2_bits_low. lia.
      - rewrite Z.mod_pow2_bits_high, H by lia. reflexivity. }
    pose proof (Z.mod_pos_bound x (2 ^ 8)). lia.
Qed.

(** The word with the bytes [b 0], [b 1], ... *)
#[local] Abbreviation W k b := (load_le k b 0).

Lemma load_shift k : forall m a d, load_le k (fun i => m (d + i)) a = load_le k m (d + a).
Proof.
  induction k as [|k IH]; intros m a d; cbn [load_le]; [reflexivity|].
  rewrite IH. do 3 f_equal. lia.
Qed.

Lemma load_W k m a : load_le k m a = W k (fun i => m (a + i)).
Proof. rewrite load_shift. f_equal. lia. Qed.

Lemma W_S k b : W (S k) b = b 0 + 256 * W k (fun i => b (1 + i)).
Proof. cbn [load_le]. now rewrite load_shift. Qed.

#[local] Abbreviation wbytes k b := (bytes b 0 (Z.of_nat k)).

Lemma wbytes_tail k b : wbytes (S k) b -> byte (b 0) /\ wbytes k (fun i => b (1 + i)).
Proof. intros H. split; [apply H; lia|]. intros i Hi. apply H. lia. Qed.

Section Bytewise.
Context (f : Z -> Z -> Z) (g : bool -> bool -> bool).
Context (f_spec : forall x y i, 0 <= i -> Z.testbit (f x y) i = g (Z.testbit x i) (Z.testbit y i)).
Context (f_nonneg : forall x y, 0 <= x -> 0 <= y -> 0 <= f x y) (g_false : g false false = false).

Lemma byte_op a b : byte a -> byte b -> byte (f a b).
Proof using f_spec f_nonneg g_false.
  intros [Ha Ba]%byte_bits [Hb Bb]%byte_bits. apply byte_bits. split; [auto|].
  intros i Hi. rewrite f_spec, Ba, Bb by lia. exact g_false.
Qed.

Lemma split_op a A b C : byte a -> byte b ->
  f (a + 256 * A) (b + 256 * C) = f a b + 256 * f A C.
Proof using f_spec f_nonneg g_false.
  intros Ha Hb. apply Z.bits_inj'. intros i Hi.
  rewrite f_spec, !split_bits by (auto using byte_op). destruct (Z.ltb_spec i 8).
  - rewrite f_spec by lia. reflexivity.
  - rewrite f_spec by lia. reflexivity.
Qed.

Lemma W_op k : forall b1 b2, wbytes k b1 -> wbytes k b2 -> f 0 0 = 0 ->
  f (W k b1) (W k b2) = W k (fun i => f (b1 i) (b2 i)).
Proof using f_spec f_nonneg g_false.
  induction k as [|k IH]; intros b1 b2 H1 H2 H0; [exact H0|]. rewrite !W_S.
  apply wbytes_tail in H1 as [B1 T1], H2 as [B2 T2].
  rewrite split_op by assumption. f_equal. f_equal. now apply IH.
Qed.
End Bytewise.

Lemma W_land k b1 b2 : wbytes k b1 -> wbytes k b2 ->
  Z.land (W k b1) (W k b2) = W k (fun i => Z.land (b1 i) (b2 i)).
Proof.
  intros. apply (W_op Z.land andb); auto; [intros; apply Z.land_spec|].
  intros; apply Z.land_nonneg; auto.
Qed.

Lemma W_lor k b1 b2 : wbytes k b1 -> wbytes k b2 ->
  Z.lor (W k b1) (W k b2) = W k (fun i => Z.lor (b1 i) (b2 i)).
Proof.
  intros. apply (W_op Z.lor orb); auto; [intros; apply Z.lor_spec|].
  intros; apply Z.lor_nonneg; auto.
Qed.

Lemma W_lxor k b1 b2 : wbytes k b1 -> wbytes k b2 ->
  Z.lxor (W k b1) (W k b2) = W k (fun i => Z.lxor (b1 i) (b2 i)).
Proof.
  intros. apply (W_op Z.lxor xorb); auto; [intros; apply Z.lxor_spec|].
  intros; apply Z.lxor_nonneg; tauto.
Qed.

Lemma byte_land a b : byte a -> byte b -> byte (Z.land a b).
Proof.
  apply (byte_op Z.land andb); auto; [intros; apply Z.land_spec|].
  intros; apply Z.land_nonneg; auto.
Qed.

Lemma byte_lor a b : byte a -> byte b -> byte (Z.lor a b).
Proof.
  apply (byte_op Z.lor orb); auto; [intros; apply Z.lor_spec|].
  intros; apply Z.lor_nonneg; auto.
Qed.

Lemma byte_lxor a b : byte a -> byte b -> byte (Z.lxor a b).
Proof.
  apply (byte_op Z.lxor xorb); auto; [intros; apply Z.lxor_spec|].
  intros; apply Z.lxor_nonneg; tauto.
Qed.

(** A property of all bytes, checked by evaluation. *)
Lemma byte_forall (P : Z -> bool) : forallb P (map Z.of_nat (seq 0 256)) = true ->
  forall b, byte b -> P b = true.
Proof.
  intros H b [H0 H1]. rewrite forallb_forall in H. apply H. apply in_map_iff.
  exists (Z.to_nat b). split; [lia|]. apply in_seq. lia.
Qed.

Lemma W_ext k b b' : (forall i, 0 <= i < Z.of_nat k -> b i = b' i) -> W k b = W k b'.
Proof. intros H. apply load_ext. intros; apply H; lia. Qed.

Lemma W_add k : forall b1 b2, W k (fun i => b1 i + b2 i) = W k b1 + W k b2.
Proof. induction k as [|k IH]; intros b1 b2; [reflexivity|]. rewrite !W_S, IH. lia. Qed.

Lemma W_not k : forall b, W k (fun i => 255 - b i) = 256 ^ Z.of_nat k - 1 - W k b.
Proof.
  induction k as [|k IH]; intros b; [reflexivity|].
  rewrite !W_S, IH, Nat2Z.inj_succ, Z.pow_succ_r by lia. lia.
Qed.

Lemma W8_range b : wbytes 8 b -> 0 <= W 8 b < 2 ^ 64.
Proof. intros H. apply load_range in H. exact H. Qed.

Lemma op_not_W b : wbytes 8 b -> op_not (W 8 b) = W 8 (fun i => 255 - b i).
Proof.
  intros H. apply W8_range in H. rewrite W_not. unfold op_not, wrap, Z.lnot.
  change (256 ^ Z.of_nat 8) with (2 ^ 64). rewrite <- (Z.mod_add _ 1) by lia.
  rewrite Z.mod_small; lia.
Qed.

Lemma repeat_bytes_W c : byte c -> repeat_bytes c = W 8 (fun _ => c).
Proof.
  intros [H0 H1]. unfold repeat_bytes, wrap. change ((-1) mod 2 ^ 64 / 255) with 72340172838076673.
  cbn [load_le]. rewrite Z.mod_small; lia.
Qed.

(** [find_zero_all] marks exactly the zero bytes. *)
Lemma find_zero_all_W b : wbytes 8 b ->
  find_zero_all (W 8 b) = W 8 (fun i => if b i =? 0 then 128 else 0).
Proof.
  intros H. unfold find_zero_all. rewrite repeat_bytes_W by (red; lia).
  assert (Hm : wbytes 8 (fun _ : Z => 127)) by (intros i _; lia).
  rewrite W_land, <- W_add by assumption.
  assert (Hl : wbytes 8 (fun i => Z.land (b i) 127 + 127)).
  { intros i Hi. specialize (H i Hi). cbn beta.
    assert (Z.land (b i) 127 <= 127); [|pose proof (proj2 (Z.land_nonneg (b i) 127)); lia].
    change 127 with (2 ^ 7 - 1). rewrite land_low_mask by lia.
    pose proof (Z.mod_pos_bound (b i) (2 ^ 7)). lia. }
  unfold wrap. rewrite Z.mod_small by now apply W8_range.
  rewrite W_lor by assumption. rewrite W_lor.
  2:{ intros i Hi. apply byte_lor; [apply Hl | apply H]; assumption. }
  2:{ assumption. }
  rewrite op_not_W.
  2:{ intros i Hi. apply byte_lor; [apply byte_lor; [apply Hl | apply H] | red]; lia. }
  apply W_ext. intros i Hi. specialize (H i ltac:(lia)).
  apply (byte_forall (fun x => 255 - Z.lor (Z.lor (Z.land x 127 + 127) x) 127
    =? (if x =? 0 then 128 else 0))) in H; [|vm_compute; reflexivity]. lia.
Qed.

(** [marks k P c]: up to the first index that satisfies [P], the nonzero bytes
    of the [k]-byte mask [c] are those at indices that satisfy [P]. *)
Definition marks (k : nat) (P : Z -> Prop) (c : Z) : Prop :=
  exists g, wbytes k g /\ c = W k g /\
    forall i, 0 <= i < Z.of_nat k -> (forall j, 0 <= j < i -> ~ P j) -> (g i <> 0 <-> P i).

(** Every number below [256 ^ k] is a word. *)
Lemma W_repr k : forall x, 0 <= x < 256 ^ Z.of_nat k -> exists g, wbytes k g /\ x = W k g.
Proof.
  induction k as [|k IH]; intros x Hx.
  { exists (fun _ => 0). split; [intros i ?; lia|]. change (256 ^ Z.of_nat 0) with 1 in Hx.
    cbn. lia. }
  rewrite Nat2Z.inj_succ, Z.pow_succ_r in Hx by lia.
  destruct (IH (x / 256)) as (g & Hg & E).
  { split; [apply Z.div_pos; lia | apply Z.div_lt_upper_bound; lia]. }
  exists (fun i => if i =? 0 then x mod 256 else g (i - 1)). split.
  - intros i Hi. cbn beta. destruct (Z.eqb_spec i 0); [apply Z.mod_pos_bound; lia | apply Hg; lia].
  - rewrite W_S. cbn [Z.eqb].
    rewrite (W_ext k _ g).
    + rewrite <- E. pose proof (Z_div_mod_eq_full x 256). lia.
    + intros i Hi. destruct (Z.eqb_spec (1 + i) 0); [lia|]. f_equal. lia.
Qed.

Lemma mod_256_S c Y k : byte c ->
  (c + 256 * Y) mod 256 ^ Z.of_nat (S k) = c + 256 * (Y mod 256 ^ Z.of_nat k).
Proof.
  intros [H0 H1]. rewrite Nat2Z.inj_succ, Z.pow_succ_r by lia.
  assert (P : 0 < 256 ^ Z.of_nat k) by (apply Z.pow_pos_nonneg; lia).
  pose proof (Z_div_mod_eq_full Y (256 ^ Z.of_nat k)) as E.
  pose proof (Z.mod_pos_bound Y (256 ^ Z.of_nat k) P) as R.
  symmetry. apply (Z.mod_unique _ _ (Y / 256 ^ Z.of_nat k)); [left; lia | lia].
Qed.

#[local] Abbreviation fzl k x :=
  (Z.land (Z.land ((x - W k (fun _ => 1)) mod 256 ^ Z.of_nat k) (256 ^ Z.of_nat k - 1 - x))
     (W k (fun _ => 128))).

Lemma split_land a A b C : byte a -> byte b ->
  Z.land (a + 256 * A) (b + 256 * C) = Z.land a b + 256 * Z.land A C.
Proof.
  apply (split_op Z.land andb); auto; [intros; apply Z.land_spec|].
  intros; apply Z.land_nonneg; auto.
Qed.

Lemma fzl_S k b0 X : byte b0 ->
  fzl (S k) (b0 + 256 * X) =
    if b0 =? 0 then 128 + 256 * Z.land (Z.land ((X - W k (fun _ => 1) - 1) mod 256 ^ Z.of_nat k)
                                          (256 ^ Z.of_nat k - 1 - X)) (W k (fun _ => 128))
    else 256 * fzl k X.
Proof.
  intros Hb. pose proof Hb as [H0 H1]. rewrite !W_S.
  replace (256 ^ Z.of_nat (S k) - 1 - (b0 + 256 * X))
    with ((255 - b0) + 256 * (256 ^ Z.of_nat k - 1 - X))
    by (rewrite Nat2Z.inj_succ, Z.pow_succ_r by lia; lia).
  destruct (Z.eqb_spec b0 0) as [->|Hne].
  - replace (0 + 256 * X - (1 + 256 * W k (fun _ => 1)))
      with (255 + 256 * (X - W k (fun _ => 1) - 1)) by lia.
    rewrite mod_256_S, !split_land by (first [apply byte_land | idtac]; red; lia).
    reflexivity.
  - replace (b0 + 256 * X - (1 + 256 * W k (fun _ => 1)))
      with ((b0 - 1) + 256 * (X - W k (fun _ => 1))) by lia.
    rewrite mod_256_S by (red; lia). rewrite split_land by (red; lia).
    rewrite split_land by (first [apply byte_land | idtac]; red; lia).
    apply (byte_forall (fun x => if x =? 0 then true
      else Z.land (Z.land (x - 1) (255 - x)) 128 =? 0)) in Hb; [|vm_compute; reflexivity].
    destruct (Z.eqb_spec b0 0); [contradiction|]. lia.
Qed.

Lemma fzl_marks k : forall b, wbytes k b -> marks k (fun i => b i = 0) (fzl k (W k b)).
Proof.
  induction k as [|k IH]; intros b H.
  { exists (fun _ => 0). split; [intros i ?; lia|]. split; [cbn; lia | intros; lia]. }
  apply wbytes_tail in H as [B T]. rewrite (W_S k b), fzl_S by assumption.
  destruct (Z.eqb_spec (b 0) 0) as [E|E].
  - assert (P : 0 < 256 ^ Z.of_nat k) by (apply Z.pow_pos_nonneg; lia).
    destruct (W_repr k ((W k (fun i => b (1 + i)) - W k (fun _ => 1) - 1) mod 256 ^ Z.of_nat k))
      as (g & Hg & ->); [now apply Z.mod_pos_bound|].
    assert (Hn : wbytes k (fun i => 255 - b (1 + i))) by (intros i Hi; specialize (T i Hi); cbn beta in *; lia).
    assert (Hgn : wbytes k (fun i => Z.land (g i) (255 - b (1 + i))))
      by (intros i Hi; apply byte_land; [now apply Hg | now apply Hn]).
    assert (Hg' : wbytes k (fun i => Z.land (Z.land (g i) (255 - b (1 + i))) 128))
      by (intros i Hi; apply byte_land; [now apply Hgn | red; lia]).
    rewrite <- W_not, W_land by assumption. rewrite W_land by (auto; intros i _; lia).
    exists (fun i => if i =? 0 then 128 else Z.land (Z.land (g (i - 1)) (255 - b (1 + (i - 1)))) 128).
    split; [|split].
    + intros i Hi. cbn beta. destruct (Z.eqb_spec i 0); [lia | apply Hg'; lia].
    + rewrite W_S. cbn [Z.eqb]. f_equal. f_equal. apply W_ext. intros i Hi.
      destruct (Z.eqb_spec (1 + i) 0); [lia|]. replace (1 + i - 1) with i by lia. reflexivity.
    + intros i Hi Hb. destruct (Z.eqb_spec i 0) as [->|]; [lia|]. exfalso. apply (Hb 0); [lia | exact E].
  - destruct (IH _ T) as (g & Hg & -> & Hm).
    exists (fun i => if i =? 0 then 0 else g (i - 1)). split; [|split].
    + intros i Hi. cbn beta. destruct (Z.eqb_spec i 0); [lia | apply Hg; lia].
    + rewrite W_S. cbn [Z.eqb]. rewrite Z.add_0_l. f_equal. apply W_ext. intros i Hi.
      destruct (Z.eqb_spec (1 + i) 0); [lia|]. f_equal. lia.
    + intros i Hi Hb. destruct (Z.eqb_spec i 0) as [->|]; [tauto|].
      rewrite (Hm (i - 1)); [|lia|].
      * replace (1 + (i - 1)) with i by lia. reflexivity.
      * intros j Hj. apply Hb. lia.
Qed.

(** [find_zero_low] marks the first zero byte. *)
Lemma find_zero_low_W b : wbytes 8 b -> marks 8 (fun i => b i = 0) (find_zero_low (W 8 b)).
Proof.
  intros H. pose proof (fzl_marks 8 b H) as M. unfold find_zero_low.
  rewrite !repeat_bytes_W by (red; lia). rewrite op_not_W, W_not by assumption. exact M.
Qed.

Lemma marks_exact k (P : Z -> bool) v : byte v -> v <> 0 ->
  marks k (fun i => P i = true) (W k (fun i => if P i then v else 0)).
Proof.
  intros Hv Hn. exists (fun i => if P i then v else 0). split; [|split; [reflexivity|]].
  - intros i _. cbn beta. destruct (P i); [exact Hv | lia].
  - intros i _ _. destruct (P i); split; congruence.
Qed.

Lemma marks_iff k P Q c : (forall i, 0 <= i < Z.of_nat k -> (P i <-> Q i)) -> marks k P c -> marks k Q c.
Proof.
  intros H (g & Hg & E & Hm). exists g. split; [exact Hg|]. split; [exact E|].
  intros i Hi Hb. rewrite <- H by exact Hi. apply Hm; [exact Hi|].
  intros j Hj. rewrite H by lia. now apply Hb.
Qed.

Lemma marks_lor k P Q c d : marks k P c -> marks k Q d -> marks k (fun i => P i \/ Q i) (Z.lor c d).
Proof.
  intros (g & Hg & -> & Hm) (g' & Hg' & -> & Hm').
  exists (fun i => Z.lor (g i) (g' i)). split; [|split].
  - intros i Hi. apply byte_lor; [now apply Hg | now apply Hg'].
  - now apply W_lor.
  - intros i Hi Hb. rewrite Z.lor_eq_0_iff.
    rewrite <- (Hm i Hi) by (intros j Hj Hp; apply (Hb j Hj); now left).
    rewrite <- (Hm' i Hi) by (intros j Hj Hp; apply (Hb j Hj); now right).
    destruct (Z.eq_dec (g i) 0), (Z.eq_dec (g' i) 0); tauto.
Qed.

(** ** Index of the first and of the last marked byte *)

Lemma trailing_zeros_double f c : trailing_zeros (S f) (2 * c) = 1 + trailing_zeros f c.
Proof.
  cbn [trailing_zeros]. rewrite Z.odd_mul. cbn [Z.odd andb].
  rewrite Z.mul_comm, Z.div_mul by lia. reflexivity.
Qed.

Lemma trailing_zeros_256 f c : trailing_zeros (8 + f) (256 * c) = 8 + trailing_zeros f c.
Proof.
  replace (256 * c) with (2 * (2 * (2 * (2 * (2 * (2 * (2 * (2 * c)))))))) by lia.
  cbn [Nat.add]. rewrite !trailing_zeros_double. lia.
Qed.

Lemma trailing_zeros_small n : forall f c, (n <= f)%nat -> c mod 2 ^ Z.of_nat n <> 0 ->
  0 <= trailing_zeros f c < Z.of_nat n.
Proof.
  induction n as [|n IH]; intros f c Hf Hc.
  { change (2 ^ Z.of_nat 0) with 1 in Hc. rewrite Z.mod_1_r in Hc. lia. }
  destruct f as [|f]; [lia|]. cbn [trailing_zeros]. destruct (Z.odd c) eqn:Eo; [lia|].
  assert (Ec : c = 2 * (c / 2)).
  { pose proof (Z.div_mod c 2). rewrite Zmod_odd, Eo in *. lia. }
  assert (Hd : (c / 2) mod 2 ^ Z.of_nat n <> 0).
  { intros E. apply Hc. rewrite Ec, Nat2Z.inj_succ, Z.pow_succ_r by lia.
    rewrite Z.mul_mod_distr_l by (try lia; apply Z.pow_nonzero; lia). rewrite E. lia. }
  specialize (IH f (c / 2) ltac:(lia) Hd). lia.
Qed.

Lemma trailing_zeros_W i : forall k f g, (i < k)%nat -> (8 * k <= f)%nat -> wbytes k g ->
  (forall j, 0 <= j < Z.of_nat i -> g j = 0) -> g (Z.of_nat i) <> 0 ->
  trailing_zeros f (W k g) / 8 = Z.of_nat i /\ W k g <> 0.
Proof.
  induction i as [|i IH]; intros k f g Hik Hf Hg Hz Hn; destruct k as [|k]; try lia; rewrite W_S;
    apply wbytes_tail in Hg as [B T].
  - change (Z.of_nat 0) with 0 in *. destruct B as [B0 B1]. split.
    + assert (0 <= trailing_zeros f (g 0 + 256 * W k (fun i => g (1 + i))) < Z.of_nat 8).
      { apply trailing_zeros_small; [lia|]. change (2 ^ Z.of_nat 8) with 256.
        rewrite (Z.mul_comm 256), Z.mod_add, Z.mod_small by lia. exact Hn. }
      apply Z.div_small. lia.
    + pose proof (load_range _ _ _ T). lia.
  - rewrite (Hz 0) by lia. rewrite Z.add_0_l. replace f with (8 + (f - 8))%nat by lia.
    rewrite trailing_zeros_256. destruct (IH k (f - 8)%nat (fun i => g (1 + i))) as [E N]; auto; try lia.
    + intros j Hj. apply Hz. lia.
    + replace (1 + Z.of_nat i) with (Z.of_nat (S i)) by lia. exact Hn.
    + split; [|lia]. replace (8 + trailing_zeros (f - 8) (W k (fun i => g (1 + i))))
        with (trailing_zeros (f - 8) (W k (fun i => g (1 + i))) + 1 * 8) by lia.
      rewrite Z.div_add by lia. lia.
Qed.

(** [i] is the first index that satisfies [P]. *)
Definition first (P : Z -> Prop) (i : Z) : Prop := 0 <= i /\ P i /\ forall j, 0 <= j < i -> ~ P j.

Lemma marks_first k P c i : (k <= 8)%nat -> marks k P c -> first P i -> i < Z.of_nat k ->
  c <> 0 /\ index_first c = i.
Proof.
  intros Hk (g & Hg & -> & Hm) (Hi & Hp & Hb) Hik.
  destruct (trailing_zeros_W (Z.to_nat i) k 64 g) as [E N]; auto; try lia.
  - intros j Hj. destruct (Z.eq_dec (g j) 0) as [|Hn]; [assumption|].
    apply Hm in Hn; [|lia | intros j' ?; apply Hb; lia]. exfalso. apply (Hb j); [lia | exact Hn].
  - rewrite Z2Nat.id by lia. apply Hm; auto; lia.
  - split; [exact N|]. unfold index_first, ctzb, stdc_trailing_zeros. rewrite E. lia.
Qed.

Lemma W_zero k : W k (fun _ => 0) = 0.
Proof. induction k as [|k IH]; [reflexivity|]. rewrite W_S, IH. reflexivity. Qed.

Lemma marks_none k P c : marks k P c -> (forall i, 0 <= i < Z.of_nat k -> ~ P i) -> c = 0.
Proof.
  intros (g & Hg & -> & Hm) Hn. transitivity (W k (fun _ => 0)); [|apply W_zero].
  apply W_ext. intros i Hi.
  destruct (Z.eq_dec (g i) 0) as [|Hnz]; [assumption|].
  apply Hm in Hnz; [|exact Hi | intros j ?; apply Hn; lia]. exfalso. now apply (Hn i).
Qed.

(** The highest nonzero byte. *)
Lemma log2_W i : forall k g, (i < k)%nat -> wbytes k g ->
  (forall j, Z.of_nat i < j < Z.of_nat k -> g j = 0) -> g (Z.of_nat i) <> 0 ->
  256 ^ Z.of_nat i <= W k g < 256 ^ Z.of_nat (S i).
Proof.
  induction i as [|i IH]; intros k g Hik Hg Hz Hn; destruct k as [|k]; try lia; rewrite W_S;
    apply wbytes_tail in Hg as [B T].
  - change (Z.of_nat 0) with 0 in *. rewrite (W_ext k _ (fun _ => 0)) by (intros j Hj; apply Hz; lia).
    rewrite W_zero. destruct B. change (256 ^ Z.of_nat 1) with 256. lia.
  - destruct (IH k (fun i => g (1 + i))) as [E1 E2]; auto; try lia.
    + intros j Hj. apply Hz. lia.
    + replace (1 + Z.of_nat i) with (Z.of_nat (S i)) by lia. exact Hn.
    + rewrite (Nat2Z.inj_succ (S i)), (Nat2Z.inj_succ i), !Z.pow_succ_r in * by lia.
      destruct B. lia.
Qed.

(** [i] is the last index below [k] that satisfies [P]. *)
Definition last_below (k : Z) (P : Z -> Prop) (i : Z) : Prop :=
  0 <= i < k /\ P i /\ forall j, i < j < k -> ~ P j.

Lemma index_last_W g i : wbytes 8 g -> last_below 8 (fun i => g i <> 0) i ->
  W 8 g <> 0 /\ index_last (W 8 g) = i.
Proof.
  intros Hg (Hi & Hn & Hz). destruct (log2_W (Z.to_nat i) 8 g) as [E1 E2]; auto; try lia.
  - intros j Hj. destruct (Z.eq_dec (g j) 0); [assumption|]. exfalso. apply (Hz j); [lia | assumption].
  - rewrite Z2Nat.id by lia. exact Hn.
  - rewrite Nat2Z.inj_succ, Z2Nat.id in * by lia.
    assert (P : 0 < 256 ^ i) by (apply Z.pow_pos_nonneg; lia). split; [lia|].
    unfold index_last, clzb, stdc_leading_zeros, OPSIZ. destruct (Z.eqb_spec (W 8 g) 0); [lia|].
    assert (L : 8 * i <= Z.log2 (W 8 g) < 8 * (i + 1)).
    { split.
      - apply Z.log2_le_pow2; [lia|]. rewrite Z.pow_mul_r by lia. exact E1.
      - apply Z.log2_lt_pow2; [lia|]. rewrite Z.pow_mul_r by lia. exact E2. }
    assert ((63 - Z.log2 (W 8 g)) / 8 = 7 - i) as ->; [|lia].
    symmetry. apply (Z.div_unique_pos _ _ _ (63 - Z.log2 (W 8 g) - 8 * (7 - i))); lia.
Qed.

(** ** Masks of a word in memory

    [q] tells which addresses are searched for; [c] is the mask of the word at
    [a]. *)
Section Masks.
Context (q : Z -> bool).

(** The mask is exact in every byte, or up to the first hit. *)
Definition exact_mask (a c : Z) : Prop :=
  exists g, wbytes 8 g /\ c = W 8 g /\ forall i, 0 <= i < 8 -> (g i <> 0 <-> q (a + i) = true).

Definition low_mask (a c : Z) : Prop := marks 8 (fun i => q (a + i) = true) c.

Lemma exact_low a c : exact_mask a c -> low_mask a c.
Proof using Type. intros (g & Hg & E & H). exists g. auto. Qed.

(** [t] is the first address from [s] on that satisfies [q]. *)
Definition hit (s t : Z) : Prop :=
  s <= t /\ q t = true /\ forall x, s <= x < t -> q x = false.

Lemma hit_first s t : hit s t -> first (fun i => q (s + i) = true) (t - s).
Proof using Type.
  intros (H1 & H2 & H3). split; [lia|]. split; [replace (s + (t - s)) with t by lia; exact H2|].
  intros j Hj. rewrite H3 by lia. discriminate.
Qed.

Lemma low_mask_hit a c t : low_mask a c -> hit a t -> t < a + 8 -> c <> 0 /\ index_first c = t - a.
Proof using Type.
  intros M H Ht. apply (marks_first 8 _ c (t - a) ltac:(lia) M (hit_first _ _ H)). lia.
Qed.

Lemma low_mask_miss a c : low_mask a c -> (forall x, a <= x < a + 8 -> q x = false) -> c = 0.
Proof using Type.
  intros M H. apply (marks_none 8 _ c M). intros i Hi. rewrite H by lia. discriminate.
Qed.

Lemma shiftr_W o : forall k g, wbytes (o + k) g ->
  Z.shiftr (W (o + k) g) (8 * Z.of_nat o) = W k (fun i => g (Z.of_nat o + i)).
Proof using Type.
  induction o as [|o IH]; intros k g Hg.
  { change (8 * Z.of_nat 0) with 0. rewrite Z.shiftr_0_r. apply W_ext. intros; f_equal; lia. }
  cbn [Nat.add] in *. apply wbytes_tail in Hg as [[B0 B1] T]. rewrite W_S.
  replace (8 * Z.of_nat (S o)) with (8 + 8 * Z.of_nat o) by lia.
  rewrite <- Z.shiftr_shiftr by lia. rewrite (Z.shiftr_div_pow2 _ 8) by lia. change (2 ^ 8) with 256.
  rewrite (Z.mul_comm 256), Z.div_add, Z.div_small, Z.add_0_l by lia. rewrite IH by exact T.
  apply W_ext. intros i Hi. f_equal. lia.
Qed.

(** The first, partly used word of a string at [s]. *)
Lemma shift_find_marks s c : exact_mask (s - s mod 8) c ->
  marks (Z.to_nat (8 - s mod 8)) (fun i => q (s + i) = true) (shift_find c s).
Proof using Type.
  intros (g & Hg & -> & Hq). pose proof (Z.mod_pos_bound s 8 ltac:(lia)) as Ho.
  unfold shift_find, OPSIZ. set (o := s mod 8) in *.
  replace (8 * o) with (8 * Z.of_nat (Z.to_nat o)) by lia.
  replace 8%nat with (Z.to_nat o + Z.to_nat (8 - o))%nat at 1 by lia.
  rewrite shiftr_W by (intros i Hi; apply Hg; lia).
  exists (fun i => g (Z.of_nat (Z.to_nat o) + i)). split; [intros i Hi; apply Hg; lia|].
  split; [reflexivity|]. intros i Hi _. rewrite Hq by lia.
  replace (s - o + (Z.of_nat (Z.to_nat o) + i)) with (s + i) by lia. reflexivity.
Qed.

Lemma shift_find_hit s c t : exact_mask (s - s mod 8) c -> hit s t -> t < s - s mod 8 + 8 ->
  shift_find c s <> 0 /\ index_first (shift_find c s) = t - s.
Proof using Type.
  intros M H Ht. pose proof (Z.mod_pos_bound s 8 ltac:(lia)).
  apply (marks_first (Z.to_nat (8 - s mod 8)) _ _ _ ltac:(lia) (shift_find_marks s c M)
    (hit_first _ _ H)). lia.
Qed.

Lemma shift_find_miss s c : exact_mask (s - s mod 8) c ->
  (forall x, s <= x < s - s mod 8 + 8 -> q x = false) -> shift_find c s = 0.
Proof using Type.
  intros M H. pose proof (Z.mod_pos_bound s 8 ltac:(lia)).
  apply (marks_none _ _ _ (shift_find_marks s c M)). intros i Hi. rewrite H by lia. discriminate.
Qed.

(** The last, partly used word of an array that ends at [s]. *)
Lemma shift_find_last_W s g : wbytes 8 g -> 0 <= s < 8 ->
  (if s =? 0 then W 8 g else Z.land (W 8 g) (op_not (wrap 64 (Z.shiftl (wrap 64 (-1)) (s * 8)))))
  = W 8 (fun i => if (s =? 0) || (i <? s) then g i else 0).
Proof using Type.
  intros Hg Hs. destruct (Z.eqb_spec s 0) as [E|E]; [reflexivity|].
  assert (Em : op_not (wrap 64 (Z.shiftl (wrap 64 (-1)) (s * 8))) = W 8 (fun i => if i <? s then 255 else 0)).
  { assert (Hc : s = 1 \/ s = 2 \/ s = 3 \/ s = 4 \/ s = 5 \/ s = 6 \/ s = 7) by lia.
    destruct Hc as [-> | [-> | [-> | [-> | [-> | [-> | ->]]]]]]; reflexivity. }
  rewrite Em, W_land; [|exact Hg | intros i _; cbn beta; destruct (i <? s); lia].
  apply W_ext. intros i Hi. specialize (Hg i ltac:(lia)). cbn [orb]. destruct (i <? s).
  - change 255 with (2 ^ 8 - 1). rewrite land_low_mask by lia. apply Z.mod_small. exact Hg.
  - apply Z.land_0_r.
Qed.
End Masks.

(** ** The masks the routines use *)

Section Instances.
Context (m : mem) (Hm : forall x, byte (m x)).

Lemma wbytes_mem a : wbytes 8 (fun i => m (a + i)).
Proof using Hm. intros i _. apply Hm. Qed.

Lemma wbytes_const c : byte c -> wbytes 8 (fun _ : Z => c).
Proof using Type. intros H i _. exact H. Qed.

Lemma lxor_mem a c : byte c -> Z.lxor (load_le 8 m a) (repeat_bytes c) = W 8 (fun i => Z.lxor (m (a + i)) c).
Proof using Hm.
  intros Hc. rewrite load_W, repeat_bytes_W by assumption.
  apply W_lxor; [apply wbytes_mem | now apply wbytes_const].
Qed.

Lemma lxor_eqb x c : (Z.lxor x c =? 0) = (x =? c).
Proof using Type.
  destruct (Z.eqb_spec (Z.lxor x c) 0) as [E|E]; symmetry; [apply Z.eqb_eq | apply Z.eqb_neq].
  - now apply Z.lxor_eq.
  - intros ->. apply E. apply Z.lxor_nilpotent.
Qed.

Lemma wbytes_lxor a c : byte c -> wbytes 8 (fun i => Z.lxor (m (a + i)) c).
Proof using Hm. intros Hc i _. now apply byte_lxor. Qed.

Lemma exact_zero_W q a b : wbytes 8 b -> (forall i, 0 <= i < 8 -> (b i =? 0) = q (a + i)) ->
  exact_mask q a (find_zero_all (W 8 b)).
Proof using Type.
  intros Hb Hq. rewrite find_zero_all_W by assumption.
  exists (fun i => if b i =? 0 then 128 else 0). split; [|split; [reflexivity|]].
  - intros i _. cbn beta. destruct (b i =? 0); lia.
  - intros i Hi. rewrite <- Hq by assumption. destruct (b i =? 0); split; congruence.
Qed.

Lemma low_zero_W q a b : wbytes 8 b -> (forall i, 0 <= i < 8 -> (b i =? 0) = q (a + i)) ->
  low_mask q a (find_zero_low (W 8 b)).
Proof using Type.
  intros Hb Hq. apply (marks_iff 8 (fun i => b i = 0)); [|now apply find_zero_low_W].
  intros i Hi. rewrite <- Hq by assumption. symmetry. apply Z.eqb_eq.
Qed.

Lemma exact_zero a : exact_mask (fun x => m x =? 0) a (find_zero_all (load_le 8 m a)).
Proof using Hm. rewrite load_W. now apply exact_zero_W; [apply wbytes_mem|]. Qed.

Lemma low_zero a : low_mask (fun x => m x =? 0) a (find_zero_low (load_le 8 m a)).
Proof using Hm. rewrite load_W. now apply low_zero_W; [apply wbytes_mem|]. Qed.

Lemma exact_eq c a : byte c ->
  exact_mask (fun x => m x =? c) a (find_eq_all (load_le 8 m a) (repeat_bytes c)).
Proof using Hm.
  intros Hc. unfold find_eq_all. rewrite lxor_mem by assumption.
  apply exact_zero_W; [now apply wbytes_lxor | intros; apply lxor_eqb].
Qed.

Lemma low_eq c a : byte c ->
  low_mask (fun x => m x =? c) a (find_eq_low (load_le 8 m a) (repeat_bytes c)).
Proof using Hm.
  intros Hc. unfold find_eq_low. rewrite lxor_mem by assumption.
  apply low_zero_W; [now apply wbytes_lxor | intros; apply lxor_eqb].
Qed.

Lemma exact_lor p q a c d : exact_mask p a c -> exact_mask q a d ->
  exact_mask (fun x => p x || q x) a (Z.lor c d).
Proof using Type.
  intros (g & Hg & -> & H) (g' & Hg' & -> & H'). exists (fun i => Z.lor (g i) (g' i)).
  split; [|split].
  - intros i Hi. apply byte_lor; [now apply Hg | now apply Hg'].
  - now apply W_lor.
  - intros i Hi. rewrite Z.lor_eq_0_iff, orb_true_iff, <- H, <- H' by assumption.
    destruct (Z.eq_dec (g i) 0), (Z.eq_dec (g' i) 0); tauto.
Qed.

Lemma low_lor p q a c d : low_mask p a c -> low_mask q a d ->
  low_mask (fun x => p x || q x) a (Z.lor c d).
Proof using Type.
  intros H H'. unfold low_mask. apply (marks_iff 8 (fun i => p (a + i) = true \/ q (a + i) = true)).
  - intros i _. now rewrite orb_true_iff.
  - now apply marks_lor.
Qed.

Lemma exact_zero_eq c a : byte c ->
  exact_mask (fun x => (m x =? 0) || (m x =? c)) a (find_zero_eq_all (load_le 8 m a) (repeat_bytes c)).
Proof using Hm. intros Hc. apply exact_lor; [apply exact_zero | now apply (exact_eq c)]. Qed.

Lemma low_zero_eq c a : byte c ->
  low_mask (fun x => (m x =? 0) || (m x =? c)) a (find_zero_eq_low (load_le 8 m a) (repeat_bytes c)).
Proof using Hm. intros Hc. apply low_lor; [apply low_zero | now apply (low_eq c)]. Qed.

Lemma exact_ne c a : byte c ->
  exact_mask (fun x => negb (m x =? c)) a (find_ne_all (load_le 8 m a) (repeat_bytes c)).
Proof using Hm.
  intros Hc. unfold find_ne_all. rewrite lxor_mem by assumption.
  exists (fun i => Z.lxor (m (a + i)) c). split; [now apply wbytes_lxor|]. split; [reflexivity|].
  intros i _. rewrite <- lxor_eqb, negb_true_iff. symmetry. apply Z.eqb_neq.
Qed.
End Instances.
