(* ===== verification/Str.v ===== *)
(** * String searching, a word at a time (string/strlen.c, strchrnul.c, strchr.c,
      memchr.c, rawmemchr.c, strnlen.c, memrchr.c, strrchr.c, strspn.c,
      strcspn.c, strpbrk.c, strsep.c, strtok_r.c)

    Memory is a total function from addresses to byte values.  A routine whose
    loop ends at a byte of the data takes [fuel], a bound on the iterations of
    each of its loops.  [NULL] is address 0. *)

From Stdlib Require Import ZArith List Lia Bool.
From S2P Require Import Prelude StrWord.
Import ListNotations.
#[local] Open Scope Z_scope.
#[local] Open Scope glibc_scope.

Definition ALIGN_DOWN (base size : Z) : Z := Z.land base (- size).
Definition ALIGN_UP (base size : Z) : Z := ALIGN_DOWN (base + size - 1) size.

Definition NULL : Z := 0.

(** Reading an [op_t]. *)
Definition load_op (m : mem) (p : Z) : Z := load_le 8 m p.

(** do word = *++word_ptr; while (! stop (word)); the value of word_ptr. *)
Fixpoint scan_words (stop : Z -> bool) (fuel : nat) (m : mem) (word_ptr : Z) : option Z :=
  match fuel with
  | O => None
  | S fuel =>
      let word_ptr := word_ptr + OPSIZ in
      if stop (load_op m word_ptr) then Some word_ptr else scan_words stop fuel m word_ptr
  end.

Definition strlen (fuel : nat) (m : mem) (str : Z) : option Z :=
  let word_ptr := ALIGN_DOWN str OPSIZ in
  let mask := shift_find (find_zero_all (load_op m word_ptr)) str in
  if negb (mask =? 0) then Some (index_first mask)
  else
    let? word_ptr := scan_words has_zero fuel m word_ptr in
    Some (word_ptr + index_first_zero (load_op m word_ptr) - str).

Definition strchrnul (fuel : nat) (m : mem) (str c_in : Z) : option Z :=
  let word_ptr := ALIGN_DOWN str OPSIZ in
  let repeated_c := repeat_bytes (wrap 8 c_in) in
  let mask := shift_find (find_zero_eq_all (load_op m word_ptr) repeated_c) str in
  if negb (mask =? 0) then Some (str + index_first mask)
  else
    let? word_ptr := scan_words (fun word => has_zero_eq word repeated_c) fuel m word_ptr in
    Some (word_ptr + index_first_zero_eq (load_op m word_ptr) repeated_c).

Definition strchr (fuel : nat) (m : mem) (s c_in : Z) : option Z :=
  let? r := strchrnul fuel m s c_in in
  Some (if m r =? wrap 8 c_in then r else NULL).

(** ** memchr.c *)

Definition UINTPTR_MAX : Z := 2 ^ 64 - 1.

Definition sadd (x y : Z) : Z := if UINTPTR_MAX - x <? y then UINTPTR_MAX else x + y.

(** The loop of [memchr] from [word_ptr] on, and what follows it. *)
Fixpoint memchr_loop (fuel : nat) (m : mem) (repeated_c lbyte lword word_ptr : Z) : option Z :=
  match fuel with
  | O => None
  | S fuel =>
      let word := load_op m word_ptr in
      if word_ptr =? lword then
        if has_eq word repeated_c then
          let ret := word_ptr + index_first_eq word repeated_c in
          if ret <=? lbyte then Some ret else Some NULL
        else Some NULL
      else if has_eq word repeated_c then Some (word_ptr + index_first_eq word repeated_c)
      else memchr_loop fuel m repeated_c lbyte lword (word_ptr + OPSIZ)
  end.

Definition memchr (fuel : nat) (m : mem) (s c_in n : Z) : option Z :=
  if n =? 0 then Some NULL
  else
    let word_ptr := ALIGN_DOWN s OPSIZ in
    let repeated_c := repeat_bytes (wrap 8 c_in) in
    let lbyte := sadd s (n - 1) in
    let lword := ALIGN_DOWN lbyte OPSIZ in
    let mask := shift_find (find_eq_all (load_op m word_ptr) repeated_c) s in
    if negb (mask =? 0) then
      let ret := s + index_first mask in
      Some (if ret <=? lbyte then ret else NULL)
    else if word_ptr =? lword then Some NULL
    else memchr_loop fuel m repeated_c lbyte lword (word_ptr + OPSIZ).

Definition rawmemchr (fuel : nat) (m : mem) (s c : Z) : option Z :=
  if negb (wrap 8 c =? 0) then memchr fuel m s c (wrap 64 (-1))
  else let? n := strlen fuel m s in Some (s + n).

Definition strnlen (fuel : nat) (m : mem) (str maxlen : Z) : option Z :=
  let? found := memchr fuel m str 0 maxlen in
  Some (if negb (found =? NULL) then found - str else maxlen).

(** ** memrchr.c *)

Fixpoint memrchr_loop (fuel : nat) (m : mem) (repeated_c s sword word_ptr : Z) : option Z :=
  match fuel with
  | O => None
  | S fuel =>
      let word := load_op m word_ptr in
      if word_ptr =? sword then
        if has_eq word repeated_c then
          let ret := word_ptr + index_last_eq word repeated_c in
          if s <=? ret then Some ret else Some NULL
        else Some NULL
      else if has_eq word repeated_c then Some (word_ptr + index_last_eq word repeated_c)
      else memrchr_loop fuel m repeated_c s sword (word_ptr - OPSIZ)
  end.

Definition memrchr (fuel : nat) (m : mem) (s c_in n : Z) : option Z :=
  if n =? 0 then Some NULL
  else
    let word_ptr := ALIGN_UP (s + n) OPSIZ - OPSIZ in
    let repeated_c := repeat_bytes (wrap 8 c_in) in
    let sword := ALIGN_DOWN s OPSIZ in
    let mask := shift_find_last (find_eq_all (load_op m word_ptr) repeated_c) (s + n) in
    if negb (mask =? 0) then
      let ret := word_ptr + index_last mask in
      Some (if s <=? ret then ret else NULL)
    else if word_ptr =? sword then Some NULL
    else memrchr_loop fuel m repeated_c s sword (word_ptr - OPSIZ).

Definition strrchr (fuel : nat) (m : mem) (s c : Z) : option Z :=
  let? n := strlen fuel m s in memrchr fuel m s c (n + 1).

(** ** strspn.c and strcspn.c *)

(** The table of the member bytes, cleared by the memsets. *)
Definition empty_table : mem := fun _ => 0.

(** do p[*s++] = 1; while ( *s); *)
Fixpoint accept_table (fuel : nat) (m p : mem) (s : Z) : option mem :=
  match fuel with
  | O => None
  | S fuel =>
      let p := upd p (m s) 1 in
      let s := s + 1 in
      if m s =? 0 then Some p else accept_table fuel m p s
  end.

(** do p[tmp = *s++] = 1; while (tmp); *)
Fixpoint reject_table (fuel : nat) (m p : mem) (s : Z) : option mem :=
  match fuel with
  | O => None
  | S fuel =>
      let tmp := m s in
      let p := upd p tmp 1 in
      if tmp =? 0 then Some p else reject_table fuel m p (s + 1)
  end.

(** The loops over four bytes at a time: the final s. *)
Fixpoint strspn_loop (fuel : nat) (m p : mem) (s : Z) : option Z :=
  match fuel with
  | O => None
  | S fuel =>
      let s := s + 4 in
      let c0 := p (m s) in let c1 := p (m (s + 1)) in
      let c2 := p (m (s + 2)) in let c3 := p (m (s + 3)) in
      if Z.land (Z.land (Z.land c0 c1) c2) c3 =? 0 then Some s else strspn_loop fuel m p s
  end.

Fixpoint strcspn_loop (fuel : nat) (m p : mem) (s : Z) : option Z :=
  match fuel with
  | O => None
  | S fuel =>
      let s := s + 4 in
      let c0 := p (m s) in let c1 := p (m (s + 1)) in
      let c2 := p (m (s + 2)) in let c3 := p (m (s + 3)) in
      if Z.lor (Z.lor (Z.lor c0 c1) c2) c3 =? 0 then strcspn_loop fuel m p s else Some s
  end.

Definition strspn (fuel : nat) (m : mem) (str accept : Z) : option Z :=
  if m accept =? 0 then Some 0
  else if m (accept + 1) =? 0 then
    let word_ptr := ALIGN_DOWN str OPSIZ in
    let repeated_c := repeat_bytes (m accept) in
    let mask := shift_find (find_ne_all (load_op m word_ptr) repeated_c) str in
    if negb (mask =? 0) then Some (index_first mask)
    else
      let? word_ptr := scan_words (fun word => negb (word =? repeated_c)) fuel m word_ptr in
      Some (word_ptr - str + index_first (find_ne_all (load_op m word_ptr) repeated_c))
  else
    let? p := accept_table fuel m empty_table accept in
    if p (m str) =? 0 then Some 0
    else if p (m (str + 1)) =? 0 then Some 1
    else if p (m (str + 2)) =? 0 then Some 2
    else if p (m (str + 3)) =? 0 then Some 3
    else
      let? s := strspn_loop fuel m p (ALIGN_DOWN str 4) in
      let count := s - str in
      let c0 := p (m s) in let c1 := p (m (s + 1)) in let c2 := p (m (s + 2)) in
      Some (if Z.land c0 c1 =? 0 then count + c0 else count + c2 + 2).

Definition strcspn (fuel : nat) (m : mem) (str reject : Z) : option Z :=
  if (m reject =? 0) || (m (reject + 1) =? 0) then
    let? r := strchrnul fuel m str (m reject) in Some (r - str)
  else
    let? p := reject_table fuel m empty_table reject in
    if negb (p (m str) =? 0) then Some 0
    else if negb (p (m (str + 1)) =? 0) then Some 1
    else if negb (p (m (str + 2)) =? 0) then Some 2
    else if negb (p (m (str + 3)) =? 0) then Some 3
    else
      let? s := strcspn_loop fuel m p (ALIGN_DOWN str 4) in
      let count := s - str in
      let c0 := p (m s) in let c1 := p (m (s + 1)) in let c2 := p (m (s + 2)) in
      Some (if negb (Z.lor c0 c1 =? 0) then count - c0 + 1 else count - c2 + 3).

Definition strpbrk (fuel : nat) (m : mem) (s accept : Z) : option Z :=
  let? n := strcspn fuel m s accept in
  let s := s + n in
  Some (if m s =? 0 then NULL else s).

(** ** strsep.c and strtok_r.c

    The memory, the token and the value of the caller's pointer variable. *)

Definition strsep (fuel : nat) (m : mem) (stringp delim : Z) : option (mem * Z * Z) :=
  let begin := stringp in
  if begin =? NULL then Some (m, NULL, stringp)
  else
    let? n := strcspn fuel m begin delim in
    let end_ := begin + n in
    if negb (m end_ =? 0) then Some (upd m end_ 0, begin, end_ + 1)
    else Some (m, begin, NULL).

Definition strtok_r (fuel : nat) (m : mem) (s delim save_ptr : Z) : option (mem * Z * Z) :=
  let s := if s =? NULL then save_ptr else s in
  if m s =? 0 then Some (m, NULL, s)
  else
    let? n := strspn fuel m s delim in
    let s := s + n in
    if m s =? 0 then Some (m, NULL, s)
    else
      let? n := strcspn fuel m s delim in
      let end_ := s + n in
      if m end_ =? 0 then Some (m, s, end_)
      else Some (upd m end_ 0, s, end_ + 1).

(** * Alignment *)

Lemma ALIGN_DOWN_pow2 a n : 0 <= n -> ALIGN_DOWN a (2 ^ n) = a - a mod 2 ^ n.
Proof.
  intros Hn. unfold ALIGN_DOWN.
  replace (- 2 ^ n) with (Z.lnot (Z.ones n)) by (rewrite Z.ones_equiv; unfold Z.lnot; lia).
  rewrite <- Z.ldiff_land, Z.ldiff_ones_r, Z.shiftr_div_pow2, Z.shiftl_mul_pow2 by lia.
  pose proof (Z_div_mod_eq_full a (2 ^ n)). lia.
Qed.

Lemma ALIGN_DOWN_8 a : ALIGN_DOWN a OPSIZ = a - a mod 8.
Proof. exact (ALIGN_DOWN_pow2 a 3 ltac:(lia)). Qed.

Lemma ALIGN_DOWN_4 a : ALIGN_DOWN a 4 = a - a mod 4.
Proof. exact (ALIGN_DOWN_pow2 a 2 ltac:(lia)). Qed.

Lemma align_mod a : (a - a mod 8) mod 8 = 0.
Proof. rewrite Zminus_mod_idemp_r, Z.sub_diag. reflexivity. Qed.

(** * Searching *)

Section Scan.
Context (q : Z -> bool).

Lemma hit_advance s s' t : hit q s t -> s <= s' <= t -> hit q s' t.
Proof using Type. intros (H1 & H2 & H3) H. split; [lia|]. split; [exact H2|]. intros; apply H3; lia. Qed.

Lemma hit_unique s t t' : hit q s t -> hit q s t' -> t = t'.
Proof using Type.
  intros (H1 & H2 & H3) (H1' & H2' & H3'). destruct (Z.lt_trichotomy t t') as [L|[E|L]]; [|exact E|].
  - rewrite H3' in H2 by lia. discriminate.
  - rewrite H3 in H2' by lia. discriminate.
Qed.

Lemma hit_ge s t e : hit q s t -> s <= e -> (forall x, s <= x < e -> q x = false) -> e <= t.
Proof using Type.
  intros (H1 & H2 & H3) He Hn. destruct (Z.le_gt_cases e t); [assumption|].
  rewrite Hn in H2 by lia. discriminate.
Qed.

(** The bytes of a range either have a first hit or none. *)
Lemma hit_or_miss n : forall s, (exists t, hit q s t /\ t < s + Z.of_nat n) \/
  (forall x, s <= x < s + Z.of_nat n -> q x = false).
Proof using Type.
  induction n as [|n IH]; intros s; [right; intros; lia|].
  destruct (IH s) as [(t & Ht & Hb)|Hm]; [left; exists t; split; [exact Ht | lia]|].
  destruct (q (s + Z.of_nat n)) eqn:E.
  - left. exists (s + Z.of_nat n). split; [|lia]. split; [lia|]. split; [exact E | exact Hm].
  - right. intros x Hx. destruct (Z.eq_dec x (s + Z.of_nat n)) as [->|]; [exact E | apply Hm; lia].
Qed.

Lemma hit_or_miss_upto s e : (exists t, hit q s t /\ t < e) \/ (forall x, s <= x < e -> q x = false).
Proof using Type.
  destruct (hit_or_miss (Z.to_nat (e - s)) s) as [(t & Ht & Hb)|Hm].
  - left. exists t. split; [exact Ht|]. destruct Ht. lia.
  - right. intros x Hx. apply Hm. lia.
Qed.

(** A word loop whose test is a mask that is right up to the first hit. *)
Context (m : mem) (low : Z -> Z) (stop : Z -> bool).
Context (Hlow : forall a, low_mask q a (low (load_op m a))).
Context (Hstop : forall a, stop (load_op m a) = negb (low (load_op m a) =? 0)).

Lemma stop_hit a t : hit q a t -> t < a + 8 ->
  stop (load_op m a) = true /\ a + index_first (low (load_op m a)) = t.
Proof using Hlow Hstop.
  intros H Ht. destruct (low_mask_hit q a _ t (Hlow a) H Ht) as [N E]. rewrite Hstop, E.
  apply Z.eqb_neq in N. rewrite N. split; [reflexivity | lia].
Qed.

Lemma stop_miss a : (forall x, a <= x < a + 8 -> q x = false) -> stop (load_op m a) = false.
Proof using Hlow Hstop. intros H. rewrite Hstop, (low_mask_miss q a _ (Hlow a) H). reflexivity. Qed.

Lemma scan_words_hit fuel : forall p t, hit q (p + 8) t -> t < p + 8 + 8 * Z.of_nat fuel ->
  exists w, scan_words stop fuel m p = Some w /\ w + index_first (low (load_op m w)) = t /\
    w <= t < w + 8.
Proof using Hlow Hstop.
  induction fuel as [|fuel IH]; intros p t H Ht; [destruct H; lia|].
  cbn [scan_words]. unfold OPSIZ. destruct (Z.lt_ge_cases t (p + 8 + 8)) as [L|L].
  - destruct (stop_hit _ _ H L) as [-> E]. exists (p + 8). destruct H. repeat split; auto; lia.
  - rewrite stop_miss by (intros x Hx; apply H; lia).
    apply IH; [|lia]. eapply hit_advance; [exact H | lia].
Qed.

(** The whole search: the partial first word, then the loop. *)
Context (all : Z -> Z) (Hall : forall a, exact_mask q a (all (load_op m a))).

Lemma find_correct fuel s t : hit q s t -> t < ALIGN_DOWN s OPSIZ + 8 + 8 * Z.of_nat fuel ->
  let p := ALIGN_DOWN s OPSIZ in
  let mask := shift_find (all (load_op m p)) s in
  (mask <> 0 /\ index_first mask = t - s) \/
  (mask = 0 /\ exists w, scan_words stop fuel m p = Some w /\ w + index_first (low (load_op m w)) = t).
Proof using Hlow Hstop Hall.
  intros H Ht p mask. subst p mask. rewrite ALIGN_DOWN_8 in *.
  pose proof (Z.mod_pos_bound s 8 ltac:(lia)).
  destruct (Z.lt_ge_cases t (s - s mod 8 + 8)) as [L|L].
  - left. apply (shift_find_hit q); auto.
  - right. split; [apply (shift_find_miss q); [auto | intros x Hx; apply H; lia]|].
    destruct (scan_words_hit fuel (s - s mod 8) t) as (w & E & I & _).
    + eapply hit_advance; [exact H | lia].
    + lia.
    + exists w. auto.
Qed.
End Scan.

(** ** strlen, strchrnul, strchr *)

(** The address of the terminating NUL. *)
Definition nul_at (m : mem) (s t : Z) : Prop := hit (fun x => m x =? 0) s t.

(** [fuel] words from the aligned-down [s] on reach up to [t]. *)
Definition reaches (fuel : nat) (s t : Z) : Prop := t < ALIGN_DOWN s OPSIZ + 8 + 8 * Z.of_nat fuel.

Section Search.
Context (m : mem) (Hm : forall x, byte (m x)).

Lemma strlen_spec fuel s t : nul_at m s t -> reaches fuel s t -> strlen fuel m s = Some (t - s).
Proof using Hm.
  intros H R. unfold strlen.
  destruct (find_correct _ m find_zero_low has_zero (low_zero m Hm) (fun _ => eq_refl)
    find_zero_all (exact_zero m Hm) fuel s t H R) as [(N & E)|(N & w & E & I)].
  - apply Z.eqb_neq in N. rewrite N. cbn [negb]. now rewrite E.
  - rewrite N, E. cbn [Z.eqb negb]. f_equal. unfold index_first_zero. lia.
Qed.

Lemma wrap8_byte c : byte (wrap 8 c).
Proof using Type. exact (wrap_range 8 c ltac:(lia)). Qed.

(** The first address that holds [c] or NUL. *)
Definition chr_at (c s t : Z) : Prop := hit (fun x => (m x =? 0) || (m x =? wrap 8 c)) s t.

Lemma strchrnul_spec fuel s c t : chr_at c s t -> reaches fuel s t ->
  strchrnul fuel m s c = Some t.
Proof using Hm.
  intros H R. unfold strchrnul.
  destruct (find_correct _ m (fun w => find_zero_eq_low w (repeat_bytes (wrap 8 c)))
    (fun w => has_zero_eq w (repeat_bytes (wrap 8 c)))
    (fun a => low_zero_eq m Hm (wrap 8 c) a (wrap8_byte c)) (fun _ => eq_refl)
    (fun w => find_zero_eq_all w (repeat_bytes (wrap 8 c)))
    (fun a => exact_zero_eq m Hm (wrap 8 c) a (wrap8_byte c)) fuel s t H R) as [(N & E)|(N & w & E & I)].
  - apply Z.eqb_neq in N. rewrite N. cbn [negb]. rewrite E. f_equal. lia.
  - rewrite N, E. cbn [Z.eqb negb]. f_equal. exact I.
Qed.

Lemma strchr_spec fuel s c t : chr_at c s t -> reaches fuel s t ->
  strchr fuel m s c = Some (if m t =? wrap 8 c then t else NULL).
Proof using Hm. intros H R. unfold strchr. now rewrite (strchrnul_spec fuel s c t). Qed.
End Search.

(** ** memchr, rawmemchr, strnlen *)

Lemma aligned_le p b : p mod 8 = 0 -> p <= b -> p <= b - b mod 8.
Proof.
  intros Hp Hb. pose proof (Z_div_mod_eq_full p 8). pose proof (Z_div_mod_eq_full b 8).
  pose proof (Z.div_le_mono p b 8 ltac:(lia) Hb). lia.
Qed.

Section Memchr.
Context (m : mem) (Hm : forall x, byte (m x)) (c : Z) (Hc : byte c).
Let q x := m x =? c.
Let stop w := has_eq w (repeat_bytes c).

Lemma has_eq_hit a t : hit q a t -> t < a + 8 ->
  has_eq (load_op m a) (repeat_bytes c) = true /\
  a + index_first_eq (load_op m a) (repeat_bytes c) = t.
Proof using Hm Hc.
  exact (stop_hit q m (fun w => find_eq_low w (repeat_bytes c)) stop
    (fun a => low_eq m Hm c a Hc) (fun _ => eq_refl) a t).
Qed.

Lemma has_eq_miss a : (forall x, a <= x < a + 8 -> q x = false) ->
  has_eq (load_op m a) (repeat_bytes c) = false.
Proof using Hm Hc.
  exact (stop_miss q m (fun w => find_eq_low w (repeat_bytes c)) stop
    (fun a => low_eq m Hm c a Hc) (fun _ => eq_refl) a).
Qed.

Lemma memchr_loop_hit fuel lbyte : forall p t, p mod 8 = 0 -> hit q p t -> t <= lbyte ->
  t < p + 8 * Z.of_nat fuel ->
  memchr_loop fuel m (repeat_bytes c) lbyte (ALIGN_DOWN lbyte OPSIZ) p = Some t.
Proof using Hm Hc.
  rewrite ALIGN_DOWN_8. pose proof (Z.mod_pos_bound lbyte 8 ltac:(lia)) as Hl.
  induction fuel as [|fuel IH]; intros p t Hp H Ht Hf; [destruct H; lia|].
  cbn [memchr_loop]. pose proof (proj1 H) as Hpt.
  destruct (Z.lt_ge_cases t (p + 8)) as [L|L].
  - destruct (has_eq_hit p t H L) as [-> ->]. destruct (p =? _); [|reflexivity].
    destruct (Z.leb_spec t lbyte); [reflexivity | lia].
  - rewrite has_eq_miss by (intros x Hx; apply H; lia).
    destruct (Z.eqb_spec p (lbyte - lbyte mod 8)); [lia|]. unfold OPSIZ.
    apply IH; [now rewrite <- Z.add_mod_idemp_r, Z.add_0_r by lia | | lia | lia].
    eapply hit_advance; [exact H | lia].
Qed.

Lemma memchr_loop_miss fuel lbyte : forall p, p mod 8 = 0 -> p <= lbyte ->
  (forall x, p <= x <= lbyte -> q x = false) -> lbyte < p + 8 * Z.of_nat fuel ->
  memchr_loop fuel m (repeat_bytes c) lbyte (ALIGN_DOWN lbyte OPSIZ) p = Some NULL.
Proof using Hm Hc.
  rewrite ALIGN_DOWN_8. pose proof (Z.mod_pos_bound lbyte 8 ltac:(lia)) as Hl.
  induction fuel as [|fuel IH]; intros p Hp Hb H Hf; [lia|]. cbn [memchr_loop].
  destruct (Z.eqb_spec p (lbyte - lbyte mod 8)) as [E|E].
  - destruct (hit_or_miss q 8 p) as [(t & Ht & L)|N].
    + destruct (has_eq_hit p t Ht L) as [-> ->].
      assert (lbyte + 1 <= t) by (apply (hit_ge q p); [exact Ht | lia | intros; apply H; lia]).
      destruct (Z.leb_spec t lbyte); [lia | reflexivity].
    + rewrite has_eq_miss by (intros; apply N; lia). reflexivity.
  - pose proof (aligned_le p lbyte Hp Hb) as Ha.
    assert (Hn : (lbyte - lbyte mod 8 - p) mod 8 = 0)
      by (rewrite Zminus_mod, align_mod, Hp; reflexivity).
    pose proof (Z_div_mod_eq_full (lbyte - lbyte mod 8 - p) 8).
    rewrite has_eq_miss by (intros x Hx; apply H; lia). unfold OPSIZ.
    apply IH; [now rewrite <- Z.add_mod_idemp_r, Z.add_0_r by lia | lia | | lia].
    intros x Hx. apply H. lia.
Qed.
End Memchr.

(** The end of the range memchr searches: [s + n], or the top of the address
    space where the sum is beyond it. *)
Definition range_end (s n : Z) : Z := Z.min (s + n) (2 ^ 64).

Section MemchrSpec.
Context (m : mem) (Hm : forall x, byte (m x)).

Lemma sadd_range_end s n : 0 < n -> sadd s (n - 1) = range_end s n - 1.
Proof using Type.
  intros. unfold sadd, range_end, UINTPTR_MAX. destruct (Z.ltb_spec (2 ^ 64 - 1 - s) (n - 1)); lia.
Qed.

Lemma memchr_hit fuel s c n t : hit (fun x => m x =? wrap 8 c) s t -> t < range_end s n ->
  reaches fuel s t -> memchr fuel m s c n = Some t.
Proof using Hm.
  intros H Ht R. pose proof (proj1 H) as Hst. unfold memchr.
  destruct (Z.eqb_spec n 0) as [->|]; [unfold range_end in Ht; lia|].
  assert (0 < n) by (unfold range_end in Ht; lia).
  rewrite (sadd_range_end s n) by lia. set (lb := range_end s n - 1) in *. red in R.
  pose proof (ALIGN_DOWN_8 s) as Ea. pose proof (Z.mod_pos_bound s 8 ltac:(lia)) as Hs.
  destruct (Z.lt_ge_cases t (ALIGN_DOWN s OPSIZ + 8)) as [L|L].
  - destruct (shift_find_hit (fun x => m x =? wrap 8 c) s
      (find_eq_all (load_op m (ALIGN_DOWN s OPSIZ)) (repeat_bytes (wrap 8 c))) t)
      as [N E].
    + rewrite Ea. apply exact_eq; [exact Hm | apply wrap8_byte].
    + exact H.
    + lia.
    + apply Z.eqb_neq in N. rewrite N, E. cbn [negb]. replace (s + (t - s)) with t by lia.
      destruct (Z.leb_spec t lb); [reflexivity | lia].
  - rewrite (shift_find_miss (fun x => m x =? wrap 8 c)).
    2:{ rewrite Ea. apply exact_eq; [exact Hm | apply wrap8_byte]. }
    2:{ intros x Hx. apply H. lia. }
    cbn [Z.eqb negb]. rewrite (ALIGN_DOWN_8 lb). pose proof (Z.mod_pos_bound lb 8 ltac:(lia)).
    destruct (Z.eqb_spec (ALIGN_DOWN s OPSIZ) (lb - lb mod 8)); [lia|]. rewrite <- ALIGN_DOWN_8.
    apply memchr_loop_hit; auto using wrap8_byte; unfold OPSIZ in *; try lia.
    + rewrite Ea, <- Z.add_mod_idemp_r, Z.add_0_r by lia. apply align_mod.
    + eapply hit_advance; [exact H | lia].
Qed.

Lemma memchr_miss fuel s c n : 0 <= s < 2 ^ 64 -> 0 <= n ->
  (forall x, s <= x < range_end s n -> (m x =? wrap 8 c) = false) ->
  reaches fuel s (range_end s n - 1) -> memchr fuel m s c n = Some NULL.
Proof using Hm.
  intros Hs0 Hn H R. unfold memchr. destruct (Z.eqb_spec n 0) as [->|]; [reflexivity|].
  assert (Hr : s < range_end s n) by (unfold range_end; lia).
  rewrite (sadd_range_end s n) by lia. set (lb := range_end s n - 1) in *. red in R.
  pose proof (ALIGN_DOWN_8 s) as Ea. pose proof (Z.mod_pos_bound s 8 ltac:(lia)) as Hs.
  assert (M : exact_mask (fun x => m x =? wrap 8 c) (s - s mod 8)
    (find_eq_all (load_op m (ALIGN_DOWN s OPSIZ)) (repeat_bytes (wrap 8 c)))).
  { rewrite Ea. apply exact_eq; [exact Hm | apply wrap8_byte]. }
  destruct (hit_or_miss_upto (fun x => m x =? wrap 8 c) s (s - s mod 8 + 8)) as [(t & Ht & L)|N].
  - destruct (shift_find_hit _ s _ t M Ht L) as [N E]. apply Z.eqb_neq in N. rewrite N, E. cbn [negb].
    assert (range_end s n <= t) by (apply (hit_ge _ s t _ Ht); [lia | exact H]).
    destruct (Z.leb_spec (s + (t - s)) lb); [lia | reflexivity].
  - rewrite (shift_find_miss _ s _ M N). cbn [Z.eqb negb].
    destruct (Z.eqb_spec (ALIGN_DOWN s OPSIZ) (ALIGN_DOWN lb OPSIZ)) as [|Hne]; [reflexivity|].
    rewrite (ALIGN_DOWN_8 lb) in Hne. pose proof (Z.mod_pos_bound lb 8 ltac:(lia)).
    pose proof (aligned_le (s - s mod 8) lb (align_mod s) ltac:(lia)).
    assert (Hd : (lb - lb mod 8 - (s - s mod 8)) mod 8 = 0)
      by (rewrite Zminus_mod, !align_mod; reflexivity).
    pose proof (Z_div_mod_eq_full (lb - lb mod 8 - (s - s mod 8)) 8).
    apply memchr_loop_miss; auto using wrap8_byte; unfold OPSIZ in *; try lia.
    + rewrite Ea, <- Z.add_mod_idemp_r, Z.add_0_r by lia. apply align_mod.
    + intros x Hx. apply H. lia.
Qed.

Lemma rawmemchr_spec fuel s c t : hit (fun x => m x =? wrap 8 c) s t -> t < 2 ^ 64 -> 0 < s ->
  reaches fuel s t -> rawmemchr fuel m s c = Some t.
Proof using Hm.
  intros H Ht Hs R. unfold rawmemchr. destruct (Z.eqb_spec (wrap 8 c) 0) as [E|E]; cbn [negb].
  - rewrite (strlen_spec m Hm fuel s t); [f_equal; lia| |exact R]. red. now rewrite E in H.
  - apply memchr_hit; auto. change (wrap 64 (-1)) with (2 ^ 64 - 1). unfold range_end. lia.
Qed.

Lemma strnlen_hit fuel s n t : nul_at m s t -> t < range_end s n -> 0 < s -> reaches fuel s t ->
  strnlen fuel m s n = Some (t - s).
Proof using Hm.
  intros H Ht Hs R. unfold strnlen. rewrite (memchr_hit fuel s 0 n t) by (exact H || assumption).
  destruct H. unfold NULL. destruct (Z.eqb_spec t 0); [lia | reflexivity].
Qed.

Lemma strnlen_miss fuel s n : 0 < s < 2 ^ 64 -> 0 <= n ->
  (forall x, s <= x < range_end s n -> m x <> 0) ->
  reaches fuel s (range_end s n - 1) -> strnlen fuel m s n = Some n.
Proof using Hm.
  intros Hs Hn H R. unfold strnlen.
  rewrite (memchr_miss fuel s 0 n); [reflexivity | lia | exact Hn | | exact R].
  intros x Hx. apply Z.eqb_neq. change (wrap 8 0) with 0. apply H. lia.
Qed.
End MemchrSpec.

(** ** memrchr, strrchr *)

(** [t] is the last address below [e] that satisfies [q]. *)
Definition last_hit (q : Z -> bool) (s e t : Z) : Prop :=
  s <= t < e /\ q t = true /\ forall x, t < x < e -> q x = false.

Lemma exact_last q a c t : exact_mask q a c -> last_hit q a (a + 8) t ->
  c <> 0 /\ index_last c = t - a.
Proof.
  intros (g & Hg & -> & Hq) (H1 & H2 & H3). apply index_last_W; [exact Hg|].
  split; [lia|]. split.
  - apply Hq; [lia|]. replace (a + (t - a)) with t by lia. exact H2.
  - intros j Hj Hn. apply Hq in Hn; [|lia]. rewrite H3 in Hn by lia. discriminate.
Qed.

Lemma exact_none q a c : exact_mask q a c -> (forall x, a <= x < a + 8 -> q x = false) -> c = 0.
Proof. intros M. exact (low_mask_miss q a c (exact_low q a c M)). Qed.

Lemma ALIGN_UP_8 e : ALIGN_UP e OPSIZ - OPSIZ = e - 1 - (e - 1) mod 8.
Proof.
  unfold ALIGN_UP. rewrite ALIGN_DOWN_8. unfold OPSIZ.
  replace (e + 8 - 1) with (e - 1 + 1 * 8) by lia. rewrite Z.mod_add by lia. lia.
Qed.

Lemma shift_find_last_exact q e c : exact_mask q (e - 1 - (e - 1) mod 8) c ->
  exact_mask (fun x => q x && (x <? e)) (e - 1 - (e - 1) mod 8) (shift_find_last c e).
Proof.
  intros (g & Hg & -> & Hq). pose proof (Z.mod_pos_bound e 8 ltac:(lia)) as He.
  pose proof (Z.mod_pos_bound (e - 1) 8 ltac:(lia)) as He1.
  assert (D : (e mod 8 = 0 /\ (e - 1) mod 8 = 7) \/ (e mod 8 <> 0 /\ (e - 1) mod 8 = e mod 8 - 1)).
  { destruct (Z.eq_dec (e mod 8) 0) as [E|E]; [left | right]; (split; [assumption|]).
    - symmetry. apply (Z.mod_unique _ _ (e / 8 - 1)); [lia|].
      pose proof (Z_div_mod_eq_full e 8). lia.
    - symmetry. apply (Z.mod_unique _ _ (e / 8)); [lia|].
      pose proof (Z_div_mod_eq_full e 8). lia. }
  exists (fun i => if (e mod 8 =? 0) || (i <? e mod 8) then g i else 0). split; [|split].
  - intros i Hi. specialize (Hg i Hi). cbn beta. destruct (_ || _); lia.
  - exact (shift_find_last_W (e mod 8) g Hg He).
  - intros i Hi. specialize (Hq i Hi). rewrite andb_true_iff, Z.ltb_lt.
    destruct (Z.eqb_spec (e mod 8) 0); cbn [orb]; [|destruct (Z.ltb_spec i (e mod 8))].
    + split; [intros N; split; [now apply Hq | lia] | intros [N _]; now apply Hq].
    + split; [intros N; split; [now apply Hq | lia] | intros [N _]; now apply Hq].
    + split; [congruence | lia].
Qed.

Section Memrchr.
Context (m : mem) (Hm : forall x, byte (m x)) (c : Z) (Hc : byte c).
Let q x := m x =? c.

Lemma has_eq_last a t : last_hit q a (a + 8) t ->
  has_eq (load_op m a) (repeat_bytes c) = true /\
  a + index_last_eq (load_op m a) (repeat_bytes c) = t.
Proof using Hm Hc.
  intros H. split.
  - destruct (hit_or_miss q 8 a) as [(t' & Ht & L)|N].
    + exact (proj1 (has_eq_hit m Hm c Hc a t' Ht L)).
    + destruct H as (H1 & H2 & _). rewrite N in H2 by lia. discriminate.
  - destruct (exact_last q a _ t (exact_eq m Hm c a Hc) H) as [_ E].
    unfold index_last_eq, index_last_zero, find_eq_all, load_op in *. rewrite E. lia.
Qed.

Lemma memrchr_loop_hit fuel s : forall p t, p mod 8 = 0 -> last_hit q s (p + 8) t ->
  p + 8 - 8 * Z.of_nat fuel <= t ->
  memrchr_loop fuel m (repeat_bytes c) s (ALIGN_DOWN s OPSIZ) p = Some t.
Proof using Hm Hc.
  rewrite ALIGN_DOWN_8. pose proof (Z.mod_pos_bound s 8 ltac:(lia)) as Hs.
  induction fuel as [|fuel IH]; intros p t Hp H Hf; [destruct H; lia|].
  pose proof H as (H1 & H2 & H3). cbn [memrchr_loop]. destruct (Z.le_gt_cases p t) as [L|L].
  - destruct (has_eq_last p t) as [-> ->]; [split; [lia | auto]|]. destruct (p =? _); [|reflexivity].
    destruct (Z.leb_spec s t); [reflexivity | lia].
  - rewrite (has_eq_miss m Hm c Hc p) by (intros x Hx; apply H3; lia).
    pose proof (aligned_le p s Hp). destruct (Z.eqb_spec p (s - s mod 8)); [lia|]. unfold OPSIZ.
    apply IH; [now rewrite <- Zminus_mod_idemp_r, Z.sub_0_r | | lia].
    split; [lia|]. split; [exact H2|]. intros x Hx. apply H3. lia.
Qed.

Lemma memrchr_loop_miss fuel s : forall p, p mod 8 = 0 -> s < p + 8 ->
  (forall x, s <= x < p + 8 -> q x = false) -> p + 8 - 8 * Z.of_nat fuel <= s ->
  memrchr_loop fuel m (repeat_bytes c) s (ALIGN_DOWN s OPSIZ) p = Some NULL.
Proof using Hm Hc.
  rewrite ALIGN_DOWN_8. pose proof (Z.mod_pos_bound s 8 ltac:(lia)) as Hs.
  induction fuel as [|fuel IH]; intros p Hp Hps H Hf; [lia|]. cbn [memrchr_loop].
  destruct (Z.eqb_spec p (s - s mod 8)) as [E|E].
  - destruct (has_eq (load_op m p) (repeat_bytes c)) eqn:Eh; [|reflexivity].
    assert (Hx : exists t, last_hit q p (p + 8) t /\ t < s).
    { destruct (hit_or_miss (fun y => q (s - 1 - y)) (Z.to_nat (s - p)) 0) as [(t & Ht & L)|N].
      - exists (s - 1 - t). destruct Ht as (T1 & T2 & T3). split; [|lia]. split; [lia|].
        split; [exact T2|]. intros x Hx. destruct (Z.lt_ge_cases x s) as [Lx|Lx].
        + replace x with (s - 1 - (s - 1 - x)) by lia. apply (T3 (s - 1 - x)). lia.
        + apply H. lia.
      - exfalso. rewrite (has_eq_miss m Hm c Hc p) in Eh; [discriminate|]. intros x Hx.
        destruct (Z.lt_ge_cases x s); [|apply H; lia].
        replace x with (s - 1 - (s - 1 - x)) by lia. apply (N (s - 1 - x)). lia. }
    destruct Hx as (t & Ht & L). destruct (has_eq_last p t Ht) as [_ ->].
    destruct (Z.leb_spec s t); [lia | reflexivity].
  - assert (Hd : (p - (s - s mod 8)) mod 8 = 0) by (rewrite Zminus_mod, align_mod, Hp; reflexivity).
    pose proof (Z_div_mod_eq_full (p - (s - s mod 8)) 8).
    rewrite (has_eq_miss m Hm c Hc p) by (intros x Hx; apply H; lia). unfold OPSIZ.
    apply IH; [now rewrite <- Zminus_mod_idemp_r, Z.sub_0_r | lia | | lia].
    intros x Hx. apply H. lia.
Qed.
End Memrchr.

(** [fuel] words below the one that holds the byte before [e] reach down to [t]. *)
Definition reaches_down (fuel : nat) (e t : Z) : Prop :=
  ALIGN_UP e OPSIZ - OPSIZ - 8 * Z.of_nat fuel <= t.

Section MemrchrSpec.
Context (m : mem) (Hm : forall x, byte (m x)).

(** The mask of the word that holds the last bytes, without those beyond. *)
Lemma last_mask e c :
  exact_mask (fun x => (m x =? wrap 8 c) && (x <? e)) (ALIGN_UP e OPSIZ - OPSIZ)
    (shift_find_last (find_eq_all (load_op m (ALIGN_UP e OPSIZ - OPSIZ)) (repeat_bytes (wrap 8 c))) e).
Proof using Hm.
  rewrite ALIGN_UP_8. apply (shift_find_last_exact (fun x => m x =? wrap 8 c)).
  apply exact_eq; [exact Hm | apply wrap8_byte].
Qed.

Lemma memrchr_hit fuel s c n t : last_hit (fun x => m x =? wrap 8 c) s (s + n) t ->
  reaches_down fuel (s + n) t -> memrchr fuel m s c n = Some t.
Proof using Hm.
  intros (H1 & H2 & H3) R. unfold memrchr. red in R. destruct (Z.eqb_spec n 0) as [->|]; [lia|].
  pose proof (last_mask (s + n) c) as M. pose proof (ALIGN_UP_8 (s + n)) as Eu.
  pose proof (Z.mod_pos_bound (s + n - 1) 8 ltac:(lia)) as Hu.
  set (a := ALIGN_UP (s + n) OPSIZ - OPSIZ) in *.
  destruct (Z.le_gt_cases a t) as [L|L].
  - destruct (exact_last _ a _ t M) as [N E].
    { split; [lia|]. rewrite H2. split; [apply Z.ltb_lt; lia|]. intros x Hx.
      destruct (Z.ltb_spec x (s + n)); [rewrite H3 by lia|]; auto using andb_false_r. }
    apply Z.eqb_neq in N. rewrite N, E. cbn [negb]. replace (a + (t - a)) with t by lia.
    destruct (Z.leb_spec s t); [reflexivity | lia].
  - rewrite (exact_none _ a _ M).
    2:{ intros x Hx. destruct (Z.ltb_spec x (s + n)); [rewrite H3 by lia|]; auto using andb_false_r. }
    cbn [Z.eqb negb]. pose proof (Z.mod_pos_bound s 8 ltac:(lia)).
    assert (Ha : a mod 8 = 0) by (rewrite Eu; apply align_mod).
    destruct (Z.eqb_spec a (ALIGN_DOWN s OPSIZ)) as [E|_]; [rewrite ALIGN_DOWN_8 in E; lia|].
    apply memrchr_loop_hit; auto using wrap8_byte; unfold OPSIZ.
    + now rewrite <- Zminus_mod_idemp_r, Z.sub_0_r.
    + split; [lia|]. split; [exact H2|]. intros x Hx. apply H3. lia.
    + lia.
Qed.

Lemma memrchr_miss fuel s c n : 0 <= n ->
  (forall x, s <= x < s + n -> (m x =? wrap 8 c) = false) ->
  reaches_down fuel (s + n) s -> memrchr fuel m s c n = Some NULL.
Proof using Hm.
  intros Hn H R. unfold memrchr. red in R. destruct (Z.eqb_spec n 0) as [|]; [reflexivity|].
  pose proof (last_mask (s + n) c) as M. pose proof (ALIGN_UP_8 (s + n)) as Eu.
  pose proof (Z.mod_pos_bound (s + n - 1) 8 ltac:(lia)) as Hu.
  set (a := ALIGN_UP (s + n) OPSIZ - OPSIZ) in *. pose proof (Z.mod_pos_bound s 8 ltac:(lia)) as Hs.
  assert (Ha : a mod 8 = 0) by (rewrite Eu; apply align_mod).
  destruct (Z.eqb_spec (shift_find_last (find_eq_all (load_op m a) (repeat_bytes (wrap 8 c))) (s + n)) 0)
    as [Ez|Ez]; cbn [negb].
  - destruct (Z.eqb_spec a (ALIGN_DOWN s OPSIZ)) as [E|E]; [reflexivity|].
    assert (s < a). { rewrite ALIGN_DOWN_8 in E. pose proof (aligned_le a s Ha).
      destruct (Z.le_gt_cases a s); [|lia].
      pose proof (aligned_le (s - s mod 8) (s + n - 1) (align_mod s)). lia. }
    apply memrchr_loop_miss; auto using wrap8_byte; unfold OPSIZ; try lia.
    + now rewrite <- Zminus_mod_idemp_r, Z.sub_0_r.
    + intros x Hx. apply H. lia.
  - destruct (hit_or_miss (fun y => m (s - 1 - y) =? wrap 8 c) (Z.to_nat (s - a)) 0) as [(t & Ht & L)|N].
    + destruct Ht as (T1 & T2 & T3). cbn beta in *.
      destruct (exact_last _ a _ (s - 1 - t) M) as [_ ->].
      { split; [lia|]. rewrite T2. split; [apply Z.ltb_lt; lia|]. intros x Hx.
        destruct (Z.ltb_spec x (s + n)); [|apply andb_false_r]. rewrite andb_true_r.
        destruct (Z.lt_ge_cases x s); [|apply H; lia].
        replace x with (s - 1 - (s - 1 - x)) by lia. apply T3. lia. }
      destruct (Z.leb_spec s (a + (s - 1 - t - a))); [lia | reflexivity].
    + exfalso. apply Ez. apply (exact_none _ a _ M). intros x Hx.
      destruct (Z.ltb_spec x (s + n)); [|apply andb_false_r]. rewrite andb_true_r.
      destruct (Z.lt_ge_cases x s); [|apply H; lia].
      replace x with (s - 1 - (s - 1 - x)) by lia. apply (N (s - 1 - x)). lia.
Qed.

Lemma reaches_both fuel s t : reaches fuel s t -> s <= t -> reaches_down fuel (t + 1) s.
Proof using Type.
  unfold reaches, reaches_down. rewrite ALIGN_DOWN_8, ALIGN_UP_8. intros R L.
  replace (t + 1 - 1) with t by lia. pose proof (Z.mod_pos_bound s 8 ltac:(lia)).
  pose proof (Z.mod_pos_bound t 8 ltac:(lia)). pose proof (Z_div_mod_eq_full s 8).
  pose proof (Z_div_mod_eq_full t 8). lia.
Qed.

Lemma strrchr_hit fuel s c z t : nul_at m s z -> reaches fuel s z ->
  last_hit (fun x => m x =? wrap 8 c) s (z + 1) t -> strrchr fuel m s c = Some t.
Proof using Hm.
  intros H R L. unfold strrchr. rewrite (strlen_spec m Hm fuel s z H R).
  apply memrchr_hit; replace (s + (z - s + 1)) with (z + 1) by lia; [exact L|].
  pose proof (reaches_both fuel s z R (proj1 H)). destruct L. unfold reaches_down in *. lia.
Qed.

Lemma strrchr_miss fuel s c z : nul_at m s z -> reaches fuel s z ->
  (forall x, s <= x <= z -> m x <> wrap 8 c) -> strrchr fuel m s c = Some NULL.
Proof using Hm.
  intros H R N. unfold strrchr. rewrite (strlen_spec m Hm fuel s z H R).
  apply memrchr_miss; [destruct H; lia | |]; replace (s + (z - s + 1)) with (z + 1) by lia.
  - intros x Hx. apply Z.eqb_neq, N. lia.
  - exact (reaches_both fuel s z R (proj1 H)).
Qed.
End MemrchrSpec.

(** ** strspn, strcspn, strpbrk *)

(** [c] is one of the bytes of [m] from [a] to [z]. *)
Definition in_str (m : mem) (a z c : Z) : bool :=
  existsb (fun i => m (a + Z.of_nat i) =? c) (seq 0 (Z.to_nat (z - a))).

Lemma in_str_spec m a z c : in_str m a z c = true <-> exists y, a <= y < z /\ m y = c.
Proof.
  unfold in_str. rewrite existsb_exists. split.
  - intros (i & Hi%in_seq & E%Z.eqb_eq). exists (a + Z.of_nat i). split; [lia | exact E].
  - intros (y & Hy & E). exists (Z.to_nat (y - a)). split; [apply in_seq; lia|].
    apply Z.eqb_eq. rewrite <- E. f_equal. lia.
Qed.

Lemma in_str_cons m a z c : a < z -> in_str m a z c = (m a =? c) || in_str m (a + 1) z c.
Proof.
  intros H. apply eq_true_iff_eq. rewrite orb_true_iff, !in_str_spec, Z.eqb_eq. split.
  - intros (y & Hy & E). destruct (Z.eq_dec y a) as [->|]; [now left | right; exists y; split; [lia | exact E]].
  - intros [E|(y & Hy & E)]; [exists a | exists y]; split; auto; lia.
Qed.

Lemma in_str_nil m a c : in_str m a a c = false.
Proof. unfold in_str. now rewrite Z.sub_diag. Qed.

Lemma hit_ext p q s t : (forall x, p x = q x) -> hit p s t -> hit q s t.
Proof.
  intros E (H1 & H2 & H3). split; [exact H1|]. rewrite <- E. split; [exact H2|].
  intros x Hx. rewrite <- E. now apply H3.
Qed.

Lemma nul_at_next m a z : nul_at m a z -> m a <> 0 -> nul_at m (a + 1) z.
Proof.
  intros H N. apply (hit_advance _ a); [exact H|]. split; [lia|]. destruct H as (H1 & H2 & _).
  destruct (Z.eq_dec a z) as [->|]; [apply Z.eqb_eq in H2; contradiction | lia].
Qed.

Lemma nul_at_zero m a z : nul_at m a z -> m a = 0 -> z = a.
Proof.
  intros H E. symmetry. apply (hit_unique (fun x => m x =? 0) a); [|exact H].
  split; [lia|]. split; [now apply Z.eqb_eq | intros; lia].
Qed.

Section Tables.
Context (m : mem) (Hm : forall x, byte (m x)).

Lemma accept_table_spec z fuel : forall p a, nul_at m a z -> m a <> 0 -> z - a <= Z.of_nat fuel ->
  exists p', accept_table fuel m p a = Some p' /\
    forall c, p' c = if in_str m a z c then 1 else p c.
Proof using Type.
  induction fuel as [|fuel IH]; intros p a H N Hf.
  { pose proof (nul_at_next m a z H N) as (H1 & _). lia. }
  cbn [accept_table]. pose proof (nul_at_next m a z H N) as H1. pose proof (proj1 H1) as Hz.
  destruct (Z.eqb_spec (m (a + 1)) 0) as [E|E].
  - exists (upd p (m a) 1). split; [reflexivity|]. intros c. apply nul_at_zero in H1; [|exact E]. subst z.
    rewrite in_str_cons, in_str_nil, orb_false_r by lia. unfold upd. now rewrite Z.eqb_sym.
  - destruct (IH (upd p (m a) 1) (a + 1) H1 E ltac:(lia)) as (p' & -> & Hp). exists p'.
    split; [reflexivity|]. intros c. rewrite Hp, (in_str_cons m a) by lia. unfold upd.
    rewrite (Z.eqb_sym c). destruct (m a =? c), (in_str m (a + 1) z c); reflexivity.
Qed.

Lemma reject_table_spec z fuel : forall p a, nul_at m a z -> z - a < Z.of_nat fuel ->
  exists p', reject_table fuel m p a = Some p' /\
    forall c, p' c = if (c =? 0) || in_str m a z c then 1 else p c.
Proof using Type.
  induction fuel as [|fuel IH]; intros p a H Hf; [destruct H; lia|]. cbn [reject_table].
  destruct (Z.eqb_spec (m a) 0) as [E|E].
  - exists (upd p (m a) 1). split; [reflexivity|]. intros c. apply nul_at_zero in H; [|exact E]. subst z.
    rewrite in_str_nil, orb_false_r, E. reflexivity.
  - pose proof (nul_at_next m a z H E) as H1. pose proof (proj1 H1).
    destruct (IH (upd p (m a) 1) (a + 1) H1 ltac:(lia)) as (p' & -> & Hp). exists p'.
    split; [reflexivity|]. intros c. rewrite Hp, (in_str_cons m a) by lia. unfold upd.
    rewrite (Z.eqb_sym c (m a)).
    destruct (c =? 0), (m a =? c), (in_str m (a + 1) z c); reflexivity.
Qed.

(** The loops over a table of zeros and ones. *)
Context (p : mem) (Hp : forall c, p c = 0 \/ p c = 1).

Lemma strspn_loop_hit fuel : forall s t, hit (fun x => p (m x) =? 0) (s + 4) t ->
  t < s + 4 + 4 * Z.of_nat fuel ->
  exists w, strspn_loop fuel m p s = Some w /\ hit (fun x => p (m x) =? 0) w t /\ t < w + 4.
Proof using Hp.
  induction fuel as [|fuel IH]; intros s t H Ht; [destruct H; lia|]. cbn [strspn_loop].
  destruct (Z.eqb_spec (Z.land (Z.land (Z.land (p (m (s + 4))) (p (m (s + 4 + 1)))) (p (m (s + 4 + 2))))
    (p (m (s + 4 + 3)))) 0) as [E|E].
  - exists (s + 4). split; [reflexivity|]. split; [exact H|].
    destruct (Z.lt_ge_cases t (s + 4 + 4)) as [|L]; [assumption|]. exfalso. destruct H as (_ & _ & H3).
    pose proof (H3 (s + 4) ltac:(lia)) as A0. pose proof (H3 (s + 4 + 1) ltac:(lia)) as A1.
    pose proof (H3 (s + 4 + 2) ltac:(lia)) as A2. pose proof (H3 (s + 4 + 3) ltac:(lia)) as A3.
    cbn beta in *. apply Z.eqb_neq in A0, A1, A2, A3.
    destruct (Hp (m (s + 4))) as [X|X0]; [contradiction|]. destruct (Hp (m (s + 4 + 1))) as [X|X1]; [contradiction|].
    destruct (Hp (m (s + 4 + 2))) as [X|X2]; [contradiction|]. destruct (Hp (m (s + 4 + 3))) as [X|X3]; [contradiction|].
    rewrite X0, X1, X2, X3 in E. discriminate.
  - apply IH; [|lia]. apply (hit_advance _ (s + 4)); [exact H|]. split; [lia|].
    eapply hit_ge; [exact H | lia|]. intros x Hx. apply Z.eqb_neq. intros X. apply E.
    assert (x = s + 4 \/ x = s + 4 + 1 \/ x = s + 4 + 2 \/ x = s + 4 + 3) as D by lia.
    destruct D as [-> | [-> | [-> | ->]]]; rewrite X; rewrite ?Z.land_0_r; reflexivity.
Qed.

Lemma strcspn_loop_hit fuel : forall s t, hit (fun x => negb (p (m x) =? 0)) (s + 4) t ->
  t < s + 4 + 4 * Z.of_nat fuel ->
  exists w, strcspn_loop fuel m p s = Some w /\ hit (fun x => negb (p (m x) =? 0)) w t /\ t < w + 4.
Proof using Hp.
  induction fuel as [|fuel IH]; intros s t H Ht; [destruct H; lia|]. cbn [strcspn_loop].
  destruct (Z.eqb_spec (Z.lor (Z.lor (Z.lor (p (m (s + 4))) (p (m (s + 4 + 1)))) (p (m (s + 4 + 2))))
    (p (m (s + 4 + 3)))) 0) as [E|E].
  - rewrite !Z.lor_eq_0_iff in E. destruct E as [[[E0 E1] E2] E3]. apply IH; [|lia].
    apply (hit_advance _ (s + 4)); [exact H|]. split; [lia|].
    eapply hit_ge; [exact H | lia|]. intros x Hx. apply negb_false_iff, Z.eqb_eq.
    assert (x = s + 4 \/ x = s + 4 + 1 \/ x = s + 4 + 2 \/ x = s + 4 + 3) as D by lia.
    destruct D as [-> | [-> | [-> | ->]]]; assumption.
  - exists (s + 4). split; [reflexivity|]. split; [exact H|].
    destruct (Z.lt_ge_cases t (s + 4 + 4)) as [|L]; [assumption|]. exfalso. apply E.
    destruct H as (_ & _ & H3). rewrite !Z.lor_eq_0_iff.
    repeat split; apply Z.eqb_eq, negb_false_iff, H3; lia.
Qed.

(** The first four bytes are tested one by one. *)
Lemma first_four q str t (rest : option Z) : hit q str t ->
  (str + 4 <= t -> rest = Some (t - str)) ->
  (if q str then Some 0 else if q (str + 1) then Some 1 else if q (str + 2) then Some 2
   else if q (str + 3) then Some 3 else rest) = Some (t - str).
Proof using Type.
  intros H Hr.
  assert (S : forall i, q (str + i) = true -> 0 <= i -> str + i <= t -> Some i = Some (t - str)).
  { intros i E Hi Hj. f_equal. destruct H as (H1 & H2 & H3).
    destruct (Z.eq_dec (str + i) t); [lia|]. rewrite H3 in E by lia. discriminate. }
  assert (N : forall i, q (str + i) = false -> str + i <= t -> str + (i + 1) <= t).
  { intros i E Hj. destruct H as (H1 & H2 & H3). destruct (Z.eq_dec (str + i) t) as [Et|]; [|lia].
    rewrite Et in E. congruence. }
  pose proof (proj1 H) as H0. pose proof (S 0) as S0. pose proof (N 0) as N0. rewrite Z.add_0_r in *.
  destruct (q str) eqn:B0; [apply S0; auto; lia|]. specialize (N0 eq_refl H0).
  destruct (q (str + 1)) eqn:B1; [now apply S|]. pose proof (N 1 B1 N0) as N1.
  destruct (q (str + 2)) eqn:B2; [now apply S|]. pose proof (N 2 B2 N1) as N2.
  destruct (q (str + 3)) eqn:B3; [now apply S|]. apply Hr. exact (N 3 B3 N2).
Qed.

Lemma strspn_block fuel str t : hit (fun x => p (m x) =? 0) str t -> t - str <= Z.of_nat fuel ->
  str + 4 <= t ->
  (let? s := strspn_loop fuel m p (ALIGN_DOWN str 4) in
   let count := s - str in
   let c0 := p (m s) in let c1 := p (m (s + 1)) in let c2 := p (m (s + 2)) in
   Some (if Z.land c0 c1 =? 0 then count + c0 else count + c2 + 2)) = Some (t - str).
Proof using Hp.
  intros H Hf H4. rewrite ALIGN_DOWN_4. pose proof (Z.mod_pos_bound str 4 ltac:(lia)).
  destruct (strspn_loop_hit fuel (str - str mod 4) t) as (w & -> & (W1 & W2 & W3) & L);
    [eapply hit_advance; [exact H | lia] | lia|]. cbn zeta. f_equal.
  assert (NZ : forall x, w <= x < t -> p (m x) = 1).
  { intros x Hx. specialize (W3 x Hx). apply Z.eqb_neq in W3. destruct (Hp (m x)); [contradiction | assumption]. }
  apply Z.eqb_eq in W2.
  assert (t = w \/ t = w + 1 \/ t = w + 2 \/ t = w + 3) as [Et|[Et|[Et|Et]]] by lia; subst t.
  - rewrite W2. cbn [Z.land Z.eqb]. lia.
  - rewrite W2, Z.land_0_r, (NZ w) by lia. cbn [Z.eqb]. lia.
  - rewrite W2, (NZ w), (NZ (w + 1)) by lia. change (Z.land 1 1 =? 0) with false. cbn iota. lia.
  - rewrite (NZ w), (NZ (w + 1)), (NZ (w + 2)) by lia. change (Z.land 1 1 =? 0) with false. cbn iota. lia.
Qed.

Lemma strcspn_block fuel str t : hit (fun x => negb (p (m x) =? 0)) str t -> t - str <= Z.of_nat fuel ->
  str + 4 <= t ->
  (let? s := strcspn_loop fuel m p (ALIGN_DOWN str 4) in
   let count := s - str in
   let c0 := p (m s) in let c1 := p (m (s + 1)) in let c2 := p (m (s + 2)) in
   Some (if negb (Z.lor c0 c1 =? 0) then count - c0 + 1 else count - c2 + 3)) = Some (t - str).
Proof using Hp.
  intros H Hf H4. rewrite ALIGN_DOWN_4. pose proof (Z.mod_pos_bound str 4 ltac:(lia)).
  destruct (strcspn_loop_hit fuel (str - str mod 4) t) as (w & -> & (W1 & W2 & W3) & L);
    [eapply hit_advance; [exact H | lia] | lia|]. cbn zeta. f_equal.
  assert (Z0 : forall x, w <= x < t -> p (m x) = 0).
  { intros x Hx. apply Z.eqb_eq, negb_false_iff, W3. exact Hx. }
  assert (P1 : p (m t) = 1).
  { apply negb_true_iff, Z.eqb_neq in W2. destruct (Hp (m t)); [contradiction | assumption]. }
  assert (t = w \/ t = w + 1 \/ t = w + 2 \/ t = w + 3) as [Et|[Et|[Et|Et]]] by lia; subst t.
  - rewrite P1. destruct (Hp (m (w + 1))) as [-> | ->]; cbn; lia.
  - rewrite P1, (Z0 w) by lia. cbn. lia.
  - rewrite P1, (Z0 w), (Z0 (w + 1)) by lia. cbn. lia.
  - rewrite (Z0 w), (Z0 (w + 1)), (Z0 (w + 2)) by lia. cbn. lia.
Qed.
End Tables.

Section Span.
Context (m : mem) (Hm : forall x, byte (m x)).

Lemma reaches_bytes fuel s t : t - s <= Z.of_nat fuel -> reaches fuel s t.
Proof using Type.
  intros H. unfold reaches. rewrite ALIGN_DOWN_8. pose proof (Z.mod_pos_bound s 8 ltac:(lia)). lia.
Qed.

(** Spans end where the first byte outside, or inside, the set is. *)
Definition span_at (accept z : Z) : Z -> Z -> Prop := hit (fun x => negb (in_str m accept z (m x))).
Definition cspan_at (reject z : Z) : Z -> Z -> Prop :=
  hit (fun x => (m x =? 0) || in_str m reject z (m x)).

Lemma in_str_not_nul a z : nul_at m a z -> in_str m a z 0 = false.
Proof using Type.
  intros (_ & _ & H). apply not_true_iff_false. rewrite in_str_spec. intros (y & Hy & E).
  specialize (H y Hy). apply Z.eqb_neq in H. contradiction.
Qed.

(** At most the NUL of the string ends a span. *)
Lemma span_exists accept z s e : nul_at m accept z -> nul_at m s e -> exists t, span_at accept z s t /\ t <= e.
Proof using Type.
  intros Ha H. destruct (hit_or_miss_upto (fun x => negb (in_str m accept z (m x))) s (e + 1))
    as [(t & Ht & L)|N]; [exists t; split; [exact Ht | lia]|].
  destruct H as (H1 & H2 & _). apply Z.eqb_eq in H2. specialize (N e ltac:(lia)). cbn beta in N.
  rewrite H2, in_str_not_nul in N by exact Ha. discriminate.
Qed.

Lemma cspan_exists reject z s e : nul_at m s e -> exists t, cspan_at reject z s t /\ t <= e.
Proof using Type.
  intros H. destruct (hit_or_miss_upto (fun x => (m x =? 0) || in_str m reject z (m x)) s (e + 1))
    as [(t & Ht & L)|N]; [exists t; split; [exact Ht | lia]|].
  destruct H as (H1 & H2 & _). specialize (N e ltac:(lia)). cbn beta in N. rewrite H2 in N. discriminate.
Qed.

Lemma strspn_single fuel str c t : byte c -> hit (fun x => negb (m x =? c)) str t ->
  reaches fuel str t ->
  (let word_ptr := ALIGN_DOWN str OPSIZ in
   let mask := shift_find (find_ne_all (load_op m word_ptr) (repeat_bytes c)) str in
   if negb (mask =? 0) then Some (index_first mask)
   else
     let? word_ptr := scan_words (fun word => negb (word =? repeat_bytes c)) fuel m word_ptr in
     Some (word_ptr - str + index_first (find_ne_all (load_op m word_ptr) (repeat_bytes c)))) = Some (t - str).
Proof using Hm.
  intros Hc H R. cbn zeta.
  destruct (find_correct _ m (fun w => find_ne_all w (repeat_bytes c))
    (fun word => negb (word =? repeat_bytes c)) (fun a => exact_low _ _ _ (exact_ne m Hm c a Hc))
    (fun a => f_equal negb (eq_sym (lxor_eqb (load_op m a) (repeat_bytes c))))
    (fun w => find_ne_all w (repeat_bytes c)) (fun a => exact_ne m Hm c a Hc) fuel str t H R)
    as [(N & E)|(N & w & E & I)].
  - apply Z.eqb_neq in N. rewrite N. cbn [negb]. now rewrite E.
  - rewrite N, E. cbn [Z.eqb negb]. f_equal. lia.
Qed.

Lemma strspn_spec fuel str accept z t : nul_at m accept z -> span_at accept z str t ->
  t - str <= Z.of_nat fuel -> z - accept <= Z.of_nat fuel ->
  strspn fuel m str accept = Some (t - str).
Proof using Hm.
  intros Ha H Hf Hz. unfold strspn. destruct (Z.eqb_spec (m accept) 0) as [E|E].
  { f_equal. enough (t = str) by lia. apply (hit_unique _ str _ _ H).
    apply nul_at_zero in Ha; [subst z | exact E]. split; [lia|]. rewrite in_str_nil.
    split; [reflexivity | intros; lia]. }
  pose proof (nul_at_next m accept z Ha E) as Ha1. pose proof (proj1 Ha1) as Hz1.
  destruct (Z.eqb_spec (m (accept + 1)) 0) as [E1|E1].
  - apply nul_at_zero in Ha1; [subst z | exact E1]. apply strspn_single; [apply Hm | | now apply reaches_bytes].
    eapply hit_ext; [|exact H]. intros x. cbn beta.
    rewrite in_str_cons, in_str_nil, orb_false_r, Z.eqb_sym by lia. reflexivity.
  - destruct (accept_table_spec m z fuel empty_table accept Ha E Hz) as (p & -> & Hp).
    assert (Hb : forall c, p c = 0 \/ p c = 1).
    { intros c. rewrite Hp. destruct (in_str m accept z c); [now right | now left]. }
    assert (H' : hit (fun x => p (m x) =? 0) str t).
    { eapply hit_ext; [|exact H]. intros x. cbn beta. rewrite Hp.
      destruct (in_str m accept z (m x)); reflexivity. }
    apply (first_four (fun x => p (m x) =? 0) str t _ H').
    intros H4. exact (strspn_block m p Hb fuel str t H' Hf H4).
Qed.

Lemma strcspn_spec fuel str reject z t : nul_at m reject z -> cspan_at reject z str t ->
  t - str <= Z.of_nat fuel -> z - reject < Z.of_nat fuel ->
  strcspn fuel m str reject = Some (t - str).
Proof using Hm.
  intros Ha H Hf Hz. unfold strcspn.
  destruct (Z.eqb_spec (m reject) 0) as [E|E]; cbn [orb].
  { rewrite (strchrnul_spec m Hm fuel str (m reject) t); [reflexivity | | now apply reaches_bytes].
    eapply hit_ext; [|exact H]. intros x. cbn beta. apply nul_at_zero in Ha; [subst z | exact E].
    rewrite in_str_nil, E. change (wrap 8 0) with 0. now destruct (m x =? 0). }
  pose proof (nul_at_next m reject z Ha E) as Ha1. pose proof (proj1 Ha1) as Hz1.
  destruct (Z.eqb_spec (m (reject + 1)) 0) as [E1|E1].
  { rewrite (strchrnul_spec m Hm fuel str (m reject) t); [reflexivity | | now apply reaches_bytes].
    eapply hit_ext; [|exact H]. intros x. cbn beta. apply nul_at_zero in Ha1; [subst z | exact E1].
    rewrite in_str_cons, in_str_nil, orb_false_r, (Z.eqb_sym (m reject)) by lia. do 2 f_equal.
    symmetry. apply wrap_small. exact (Hm reject). }
  destruct (reject_table_spec m z fuel empty_table reject Ha Hz) as (p & -> & Hp).
  assert (Hb : forall c, p c = 0 \/ p c = 1).
  { intros c. rewrite Hp. destruct (_ || _); [now right | now left]. }
  assert (H' : hit (fun x => negb (p (m x) =? 0)) str t).
  { eapply hit_ext; [|exact H]. intros x. cbn beta. rewrite Hp. destruct (_ || _); reflexivity. }
  apply (first_four (fun x => negb (p (m x) =? 0)) str t _ H').
  intros H4. exact (strcspn_block m p Hb fuel str t H' Hf H4).
Qed.

Lemma strpbrk_spec fuel s accept z t : nul_at m accept z -> cspan_at accept z s t ->
  t - s <= Z.of_nat fuel -> z - accept < Z.of_nat fuel ->
  strpbrk fuel m s accept = Some (if in_str m accept z (m t) then t else NULL).
Proof using Hm.
  intros Ha H Hf Hz. unfold strpbrk. rewrite (strcspn_spec fuel s accept z t Ha H Hf Hz).
  replace (s + (t - s)) with t by lia. destruct H as (_ & H2 & _). f_equal.
  destruct (Z.eqb_spec (m t) 0) as [E|E]; [now rewrite E, in_str_not_nul by exact Ha|].
  cbn [orb] in H2. now rewrite H2.
Qed.
End Span.

(** ** strtok_r: the calls together produce the tokens of the string *)

Definition str_bytes (m : mem) (s e : Z) : list Z :=
  map (fun i => m (s + Z.of_nat i)) (seq 0 (Z.to_nat (e - s))).

(** The maximal nonempty runs of bytes that are not delimiters; [cur] is the
    run being read, reversed. *)
Fixpoint tokens (isd : Z -> bool) (cur l : list Z) : list (list Z) :=
  let flush := match cur with [] => [] | _ => [rev cur] end in
  match l with
  | [] => flush
  | b :: l => if isd b then flush ++ tokens isd [] l else tokens isd (b :: cur) l
  end.

(** x = strtok_r (s, delim, &save); while (x != NULL) x = strtok_r (NULL, delim, &save);
    the strings returned. *)
Fixpoint strtok_all (calls fuel : nat) (m : mem) (s delim save_ptr : Z) : option (list (list Z)) :=
  match calls with
  | O => None
  | S calls =>
      let? (m, tok, save_ptr) := strtok_r fuel m s delim save_ptr in
      if tok =? NULL then Some []
      else
        let? n := strlen fuel m tok in
        let? l := strtok_all calls fuel m NULL delim save_ptr in
        Some (str_bytes m tok (tok + n) :: l)
  end.

Lemma seq_offset k n : seq k n = map (Nat.add k) (seq 0 n).
Proof.
  induction k as [|k IH]; [symmetry; apply map_id|].
  rewrite <- seq_shift, IH, map_map. reflexivity.
Qed.

Lemma str_bytes_app m s t e : s <= t <= e -> str_bytes m s e = str_bytes m s t ++ str_bytes m t e.
Proof.
  intros H. unfold str_bytes.
  replace (Z.to_nat (e - s)) with (Z.to_nat (t - s) + Z.to_nat (e - t))%nat by lia.
  rewrite seq_app, map_app. f_equal. rewrite seq_offset, map_map.
  apply map_ext_in. intros i _. f_equal. lia.
Qed.

Lemma str_bytes_cons m s e : s < e -> str_bytes m s e = m s :: str_bytes m (s + 1) e.
Proof.
  intros H. rewrite (str_bytes_app m s (s + 1) e) by lia. unfold str_bytes at 1.
  replace (Z.to_nat (s + 1 - s)) with 1%nat by lia. cbn. now rewrite Z.add_0_r.
Qed.

Lemma str_bytes_nil m s : str_bytes m s s = [].
Proof. unfold str_bytes. now rewrite Z.sub_diag. Qed.

Lemma str_bytes_ext m m' s e : (forall x, s <= x < e -> m x = m' x) -> str_bytes m s e = str_bytes m' s e.
Proof. intros H. apply map_ext_in. intros i Hi%in_seq. apply H. lia. Qed.

Lemma str_bytes_Forall m s e (P : Z -> Prop) : (forall x, s <= x < e -> P (m x)) -> Forall P (str_bytes m s e).
Proof.
  intros H. apply Forall_forall. intros b (i & <- & Hi%in_seq)%in_map_iff. apply H. lia.
Qed.

Lemma tokens_skip isd l1 l2 : Forall (fun b => isd b = true) l1 -> tokens isd [] (l1 ++ l2) = tokens isd [] l2.
Proof. induction 1 as [|b l1 Hb _ IH]; [reflexivity|]. cbn. rewrite Hb. exact IH. Qed.

Lemma tokens_take isd l1 l2 : forall cur, Forall (fun b => isd b = false) l1 ->
  tokens isd cur (l1 ++ l2) = tokens isd (rev l1 ++ cur) l2.
Proof.
  induction l1 as [|b l1 IH]; intros cur H; [reflexivity|]. inversion_clear H as [|? ? Hb Hl].
  cbn [app rev]. rewrite <- app_assoc. cbn [app]. rewrite <- (IH (b :: cur) Hl).
  cbn [tokens]. now rewrite Hb.
Qed.

Lemma in_str_ext m m' a z c : (forall x, a <= x < z -> m x = m' x) -> in_str m a z c = in_str m' a z c.
Proof.
  intros H. apply eq_true_iff_eq. rewrite !in_str_spec.
  split; intros (y & Hy & E); exists y; (split; [exact Hy|]); [now rewrite <- H | now rewrite H].
Qed.

Lemma tokens_ext isd isd' l : (forall b, isd b = isd' b) -> forall cur, tokens isd cur l = tokens isd' cur l.
Proof.
  intros H. induction l as [|b l IH]; intros cur; [reflexivity|]. cbn [tokens]. rewrite H, !IH. reflexivity.
Qed.

Lemma hit_mem_ext (f : Z -> bool) m m' s t : (forall x, s <= x <= t -> m x = m' x) ->
  hit (fun x => f (m x)) s t -> hit (fun x => f (m' x)) s t.
Proof.
  intros E (H1 & H2 & H3). split; [exact H1|]. rewrite <- E by lia. split; [exact H2|].
  intros x Hx. rewrite <- E by lia. now apply H3.
Qed.

(** One call of strtok_r on a string with NUL at [e]. *)
Lemma strtok_r_step m (Hm : forall x, byte (m x)) fuel s save delim z e :
  let s0 := if s =? NULL then save else s in
  nul_at m s0 e -> nul_at m delim z -> e - s0 <= Z.of_nat fuel -> z - delim < Z.of_nat fuel ->
  exists t1, span_at m delim z s0 t1 /\ t1 <= e /\
    if m t1 =? 0 then strtok_r fuel m s delim save = Some (m, NULL, t1)
    else exists t2, cspan_at m delim z t1 t2 /\ t1 < t2 <= e /\
      strtok_r fuel m s delim save =
        if m t2 =? 0 then Some (m, t1, t2) else Some (upd m t2 0, t1, t2 + 1).
Proof.
  intros s0 H Hd Hf Hz. destruct (span_exists m delim z s0 e Hd H) as (t1 & Ht1 & L1).
  exists t1. split; [exact Ht1|]. split; [exact L1|]. unfold strtok_r. fold s0. pose proof (proj1 Ht1).
  destruct (Z.eqb_spec (m s0) 0) as [E|E].
  { assert (t1 = s0) as ->; [|destruct (Z.eqb_spec (m s0) 0); [reflexivity | contradiction]].
    pose proof (nul_at_zero m s0 e H E). lia. }
  rewrite (strspn_spec m Hm fuel s0 delim z t1 Hd Ht1) by lia.
  replace (s0 + (t1 - s0)) with t1 by lia. destruct (Z.eqb_spec (m t1) 0) as [E1|E1]; [reflexivity|].
  assert (H1 : nul_at m t1 e) by (eapply hit_advance; [exact H | lia]).
  destruct (cspan_exists m delim z t1 e H1) as (t2 & Ht2 & L2). exists t2. split; [exact Ht2|].
  assert (t1 < t2).
  { destruct Ht2 as (A & B & _). destruct (Z.eq_dec t1 t2) as [<-|]; [|lia]. exfalso.
    destruct Ht1 as (_ & C & _). apply orb_true_iff in B as [B|B]; [apply Z.eqb_eq in B; contradiction|].
    rewrite B in C. discriminate. }
  split; [lia|]. rewrite (strcspn_spec m Hm fuel t1 delim z t2 Hd Ht2) by lia.
  replace (t1 + (t2 - t1)) with t2 by lia. destruct (m t2 =? 0); reflexivity.
Qed.

Lemma byte_upd m a v : (forall x, byte (m x)) -> byte v -> forall x, byte (upd m a v x).
Proof. intros H Hv x. unfold upd. destruct (x =? a); auto. Qed.

(** What one token leaves for the next call. *)
Lemma tokens_step m delim z s0 t1 t2 e : span_at m delim z s0 t1 -> cspan_at m delim z t1 t2 ->
  t1 < t2 <= e -> m t2 <> 0 \/ t2 = e ->
  tokens (in_str m delim z) [] (str_bytes m s0 e) =
  str_bytes m t1 t2 :: tokens (in_str m delim z) [] (if m t2 =? 0 then [] else str_bytes m (t2 + 1) e).
Proof.
  intros (A1 & A2 & A3) (B1 & B2 & B3) L Hend.
  rewrite (str_bytes_app m s0 t1 e), tokens_skip by
    (lia || (apply str_bytes_Forall; intros x Hx; apply negb_false_iff; now apply A3)).
  rewrite (str_bytes_app m t1 t2 e), tokens_take by
    (lia || (apply str_bytes_Forall; intros x Hx; specialize (B3 x Hx); now apply orb_false_iff in B3)).
  rewrite app_nil_r. assert (Hne : rev (str_bytes m t1 t2) <> []).
  { rewrite str_bytes_cons by lia. cbn [rev]. intros Hn. now apply app_eq_nil in Hn as [_ Hn]. }
  rewrite <- (rev_involutive (str_bytes m t1 t2)) at 2.
  destruct (rev (str_bytes m t1 t2)) as [|b l]; [contradiction|].
  destruct (Z.eq_dec t2 e) as [->|Hlt].
  - rewrite str_bytes_nil. cbn [tokens]. destruct (m e =? 0); [reflexivity|].
    unfold str_bytes. replace (Z.to_nat (e - (e + 1))) with 0%nat by lia. reflexivity.
  - rewrite str_bytes_cons by lia. destruct Hend as [Hn|]; [|contradiction]. apply Z.eqb_neq in Hn.
    rewrite Hn in B2 |- *. cbn [orb] in B2. cbn [tokens]. rewrite B2. reflexivity.
Qed.

Lemma strtok_all_spec e delim z fuel calls : forall m s save,
  let s0 := if s =? NULL then save else s in
  (forall x, byte (m x)) -> 0 < s0 -> nul_at m s0 e -> nul_at m delim z -> z < s0 \/ e < delim ->
  e - s0 <= Z.of_nat fuel -> z - delim < Z.of_nat fuel -> e - s0 < Z.of_nat calls ->
  strtok_all calls fuel m s delim save = Some (tokens (in_str m delim z) [] (str_bytes m s0 e)).
Proof.
  induction calls as [|calls IH]; intros m s save s0 Hm Hpos H Hd Hdis Hf Hz Hc; [destruct H; lia|].
  cbn [strtok_all].
  destruct (strtok_r_step m Hm fuel s save delim z e H Hd Hf Hz) as (t1 & Ht1 & L1 & Hr). fold s0 in Ht1.
  pose proof (proj1 Ht1) as L0. destruct (Z.eqb_spec (m t1) 0) as [E1|E1].
  { rewrite Hr. cbn [Z.eqb NULL]. f_equal. assert (t1 = e) as ->.
    { apply (hit_unique (fun x => m x =? 0) s0); [|exact H]. split; [lia|].
      split; [now apply Z.eqb_eq|]. intros x Hx. apply H. lia. }
    rewrite <- (app_nil_r (str_bytes m s0 e)), tokens_skip; [reflexivity|].
    apply str_bytes_Forall. intros x Hx. apply negb_false_iff. now apply Ht1. }
  destruct Hr as (t2 & Ht2 & L2 & ->).
  assert (Hend : m t2 <> 0 \/ t2 = e).
  { destruct (Z.eq_dec (m t2) 0) as [E2|]; [right | now left]. destruct H as (_ & _ & H3).
    destruct (Z.eq_dec t2 e); [assumption|]. specialize (H3 t2 ltac:(lia)). apply Z.eqb_neq in H3. contradiction. }
  rewrite (tokens_step m delim z s0 t1 t2 e Ht1 Ht2 L2 Hend). unfold NULL in *.
  destruct (Z.eqb_spec (m t2) 0) as [E2|E2].
  - assert (t2 = e) as -> by (destruct Hend; [contradiction | assumption]).
    destruct (Z.eqb_spec t1 0); [lia|].
    assert (N1 : nul_at m t1 e) by (eapply hit_advance; [exact H | lia]).
    rewrite (strlen_spec m Hm fuel t1 e N1) by (apply reaches_bytes; lia).
    assert (Ne : nul_at m e e) by (split; [lia|]; split; [now apply Z.eqb_eq | intros; lia]).
    rewrite (IH m 0 e); cbn [Z.eqb]; auto; try lia.
    rewrite str_bytes_nil. replace (t1 + (e - t1)) with e by lia. reflexivity.
  - destruct (Z.eqb_spec t1 0); [lia|]. set (m' := upd m t2 0).
    assert (Hlt : t2 < e).
    { destruct (Z.eq_dec t2 e) as [->|]; [|lia]. destruct H as (_ & H2 & _). apply Z.eqb_eq in H2. contradiction. }
    assert (Hm' : forall x, byte (m' x)) by (apply byte_upd; [exact Hm | red; lia]).
    assert (N1 : nul_at m' t1 t2).
    { split; [lia|]. split; [apply Z.eqb_eq, upd_eq|]. intros x Hx. unfold m'. rewrite upd_ne by lia.
      apply H. lia. }
    rewrite (strlen_spec m' Hm' fuel t1 t2 N1) by (apply reaches_bytes; lia).
    assert (Hx : forall x, x <> t2 -> m x = m' x) by (intros x Hx; symmetry; now apply upd_ne).
    pose proof (proj1 Hd).
    rewrite (IH m' 0 (t2 + 1)); cbn [Z.eqb]; auto; try lia.
    + replace (t1 + (t2 - t1)) with t2 by lia. do 2 f_equal.
      * symmetry. apply str_bytes_ext. intros x ?. apply Hx. lia.
      * rewrite (str_bytes_ext m' m) by (intros x ?; symmetry; apply Hx; lia).
        apply tokens_ext. intros b. apply in_str_ext. intros x ?. symmetry. apply Hx. lia.
    + apply (hit_mem_ext (fun b => b =? 0) m); [intros x ?; apply Hx; lia|].
      eapply hit_advance; [exact H | lia].
    + apply (hit_mem_ext (fun b => b =? 0) m); [intros x ?; apply Hx; lia | exact Hd].
Qed.

(** ** strsep: the calls together produce the fields of the string *)

(** The runs between delimiters, empty ones included. *)
Fixpoint fields (isd : Z -> bool) (cur l : list Z) : list (list Z) :=
  match l with
  | [] => [rev cur]
  | b :: l => if isd b then rev cur :: fields isd [] l else fields isd (b :: cur) l
  end.

(** while ((x = strsep (&s, delim)) != NULL): the strings returned. *)
Fixpoint strsep_all (calls fuel : nat) (m : mem) (stringp delim : Z) : option (list (list Z)) :=
  match calls with
  | O => None
  | S calls =>
      let? (m, tok, stringp) := strsep fuel m stringp delim in
      if tok =? NULL then Some []
      else
        let? n := strlen fuel m tok in
        let? l := strsep_all calls fuel m stringp delim in
        Some (str_bytes m tok (tok + n) :: l)
  end.

Lemma fields_take isd l1 l2 : forall cur, Forall (fun b => isd b = false) l1 ->
  fields isd cur (l1 ++ l2) = fields isd (rev l1 ++ cur) l2.
Proof.
  induction l1 as [|b l1 IH]; intros cur H; [reflexivity|]. inversion_clear H as [|? ? Hb Hl].
  cbn [app rev]. rewrite <- app_assoc. cbn [app]. rewrite <- (IH (b :: cur) Hl).
  cbn [fields]. now rewrite Hb.
Qed.

Lemma fields_ext isd isd' l : (forall b, isd b = isd' b) -> forall cur, fields isd cur l = fields isd' cur l.
Proof.
  intros H. induction l as [|b l IH]; intros cur; [reflexivity|]. cbn [fields]. rewrite H, !IH. reflexivity.
Qed.

Lemma strsep_all_spec e delim z fuel calls : forall m s,
  (forall x, byte (m x)) -> 0 < s -> nul_at m s e -> nul_at m delim z -> z < s \/ e < delim ->
  e - s <= Z.of_nat fuel -> z - delim < Z.of_nat fuel -> e - s + 1 < Z.of_nat calls ->
  strsep_all calls fuel m s delim = Some (fields (in_str m delim z) [] (str_bytes m s e)).
Proof.
  induction calls as [|calls IH]; intros m s Hm Hpos H Hd Hdis Hf Hz Hc; [destruct H; lia|].
  cbn [strsep_all]. unfold strsep, NULL. destruct (Z.eqb_spec s 0); [lia|].
  destruct (cspan_exists m delim z s e H) as (t & Ht & L). pose proof (proj1 Ht) as L0.
  rewrite (strcspn_spec m Hm fuel s delim z t Hd Ht) by lia. replace (s + (t - s)) with t by lia.
  rewrite (str_bytes_app m s t e), fields_take, app_nil_r by
    (lia || (apply str_bytes_Forall; intros x Hx; destruct Ht as (_ & _ & B3); specialize (B3 x Hx);
             now apply orb_false_iff in B3)).
  destruct (Z.eqb_spec (m t) 0) as [E|E]; cbn [negb].
  - destruct (Z.eqb_spec s 0); [lia|]. assert (t = e) as ->.
    { apply (hit_unique (fun x => m x =? 0) s); [|exact H]. split; [lia|].
      split; [now apply Z.eqb_eq|]. intros x Hx. apply H. lia. }
    rewrite (strlen_spec m Hm fuel s e H) by (apply reaches_bytes; lia).
    destruct calls as [|calls]; [lia|]. cbn [strsep_all]. unfold strsep, NULL. cbn [Z.eqb].
    rewrite str_bytes_nil. cbn [fields]. rewrite rev_involutive. replace (s + (e - s)) with e by lia. reflexivity.
  - destruct (Z.eqb_spec s 0); [lia|]. set (m' := upd m t 0).
    assert (Hlt : t < e).
    { destruct (Z.eq_dec t e) as [->|]; [|lia]. destruct H as (_ & H2 & _). apply Z.eqb_eq in H2. contradiction. }
    assert (Hx : forall x, x <> t -> m x = m' x) by (intros x Hx; symmetry; now apply upd_ne).
    assert (Hm' : forall x, byte (m' x)) by (apply byte_upd; [exact Hm | red; lia]).
    assert (N1 : nul_at m' s t).
    { split; [lia|]. split; [apply Z.eqb_eq, upd_eq|]. intros x ?. rewrite <- Hx by lia. apply H. lia. }
    rewrite (strlen_spec m' Hm' fuel s t N1) by (apply reaches_bytes; lia). pose proof (proj1 Hd).
    rewrite (IH m' (t + 1)); auto; try lia.
    + rewrite (str_bytes_cons m t e) by lia. destruct Ht as (_ & B2 & _). apply Z.eqb_neq in E.
      rewrite E in B2. cbn [orb] in B2. cbn [fields]. rewrite B2, rev_involutive.
      replace (s + (t - s)) with t by lia. do 2 f_equal.
      * symmetry. apply str_bytes_ext. intros x ?. apply Hx. lia.
      * rewrite (str_bytes_ext m' m) by (intros x ?; symmetry; apply Hx; lia).
        apply fields_ext. intros b. apply in_str_ext. intros x ?. symmetry. apply Hx. lia.
    + apply (hit_mem_ext (fun b => b =? 0) m); [intros x ?; apply Hx; lia|].
      eapply hit_advance; [exact H | lia].
    + apply (hit_mem_ext (fun b => b =? 0) m); [intros x ?; apply Hx; lia | exact Hd].
Qed.

(** * Claims *)

(** C7: on a NUL-terminated string, whatever its alignment and whatever the
    bytes around it, strlen is the distance to the first NUL; strchrnul is the
    first byte equal to the character or NUL; strchr is the first byte equal to
    the character, the NUL for '\0', and NULL where there is none; strrchr is
    the last one.  [fuel] is the number of words after the first that the
    string reaches into, so no later word is read. *)
Theorem str_search_correct fuel m s e c : (forall x, byte (m x)) -> 0 < s -> nul_at m s e ->
  reaches fuel s e ->
  strlen fuel m s = Some (e - s) /\
  (exists t, strchrnul fuel m s c = Some t /\ s <= t <= e /\
     (forall x, s <= x < t -> m x <> wrap 8 c) /\ (m t = wrap 8 c \/ t = e)) /\
  (exists r, strchr fuel m s c = Some r /\
     ((r = NULL /\ forall x, s <= x <= e -> m x <> wrap 8 c) \/
      (s <= r <= e /\ m r = wrap 8 c /\ forall x, s <= x < r -> m x <> wrap 8 c))) /\
  (exists r, strrchr fuel m s c = Some r /\
     ((r = NULL /\ forall x, s <= x <= e -> m x <> wrap 8 c) \/
      (s <= r <= e /\ m r = wrap 8 c /\ forall x, r < x <= e -> m x <> wrap 8 c))).
Proof.
  intros Hm Hs H R. split; [now apply strlen_spec|]. pose proof H as (H1 & H2 & H3). apply Z.eqb_eq in H2.
  destruct (hit_or_miss_upto (fun x => (m x =? 0) || (m x =? wrap 8 c)) s (e + 1)) as [(t & Ht & L)|N].
  2:{ specialize (N e ltac:(lia)). cbn beta in N. rewrite H2 in N. discriminate. }
  assert (Rt : reaches fuel s t) by (unfold reaches in *; lia).
  pose proof Ht as (T1 & T2 & T3). cbn beta in *.
  assert (Hne : forall x, s <= x < t -> m x <> wrap 8 c).
  { intros x Hx. specialize (T3 x Hx). apply orb_false_iff in T3. apply Z.eqb_neq. tauto. }
  assert (Hc : m t <> wrap 8 c -> t = e).
  { intros Hn. apply Z.eqb_neq in Hn. rewrite Hn, orb_false_r in T2.
    apply (hit_unique (fun x => m x =? 0) s); [|exact H]. split; [lia|]. split; [exact T2|]. intros; apply H3; lia. }
  split; [|split].
  - exists t. split; [now apply strchrnul_spec|]. split; [lia|]. split; [exact Hne|].
    destruct (Z.eq_dec (m t) (wrap 8 c)); [now left | right; auto].
  - rewrite (strchr_spec m Hm fuel s c t Ht Rt). eexists. split; [reflexivity|].
    destruct (Z.eqb_spec (m t) (wrap 8 c)) as [E|E].
    + right. split; [lia|]. auto.
    + left. split; [reflexivity|]. specialize (Hc E). subst t. intros x Hx.
      destruct (Z.eq_dec x e) as [->|]; [exact E | apply Hne; lia].
  - destruct (hit_or_miss (fun y => m (e - y) =? wrap 8 c) (Z.to_nat (e - s + 1)) 0) as [(y & Hy & L')|N].
    + destruct Hy as (Y1 & Y2 & Y3). cbn beta in *. exists (e - y). split.
      * apply (strrchr_hit m Hm fuel s c e); auto. split; [lia|]. split; [exact Y2|]. intros x Hx.
        specialize (Y3 (e - x) ltac:(lia)). now replace (e - (e - x)) with x in Y3 by lia.
      * right. split; [lia|]. split; [now apply Z.eqb_eq|]. intros x Hx.
        specialize (Y3 (e - x) ltac:(lia)). replace (e - (e - x)) with x in Y3 by lia. now apply Z.eqb_neq.
    + exists NULL. assert (Hn : forall x, s <= x <= e -> m x <> wrap 8 c).
      { intros x Hx. specialize (N (e - x) ltac:(lia)). cbn beta in N.
        replace (e - (e - x)) with x in N by lia. now apply Z.eqb_neq. }
      split; [now apply (strrchr_miss m Hm fuel s c e) | now left].
Qed.

(** memchr searches exactly the [n] bytes from [s] on, or those up to the
    top of the address space: it returns the first byte equal to the character
    and NULL where there is none, although it reads whole aligned words;
    memrchr returns the last one; strnlen is the distance to the first NUL, or
    [n]. *)
Lemma mem_search_correct fuel m s c n : (forall x, byte (m x)) -> 0 < s < 2 ^ 64 ->
  0 <= n < 2 ^ 64 -> reaches fuel s (range_end s n - 1) ->
  (exists r, memchr fuel m s c n = Some r /\
     ((r = NULL /\ forall x, s <= x < range_end s n -> m x <> wrap 8 c) \/
      (s <= r < range_end s n /\ m r = wrap 8 c /\ forall x, s <= x < r -> m x <> wrap 8 c))) /\
  (exists r, strnlen fuel m s n = Some r /\
     ((r = n /\ forall x, s <= x < range_end s n -> m x <> 0) \/
      (s + r < range_end s n /\ 0 <= r /\ m (s + r) = 0 /\ forall x, s <= x < s + r -> m x <> 0))) /\
  (s + n <= 2 ^ 64 -> exists r, memrchr fuel m s c n = Some r /\
     ((r = NULL /\ forall x, s <= x < s + n -> m x <> wrap 8 c) \/
      (s <= r < s + n /\ m r = wrap 8 c /\ forall x, r < x < s + n -> m x <> wrap 8 c))).
Proof.
  intros Hm Hs Hn R. split; [|split].
  - destruct (hit_or_miss_upto (fun x => m x =? wrap 8 c) s (range_end s n)) as [(t & Ht & L)|N].
    + exists t. split; [apply memchr_hit; auto; unfold reaches in *; lia|]. right.
      destruct Ht as (T1 & T2 & T3). split; [lia|]. split; [now apply Z.eqb_eq|].
      intros x Hx. apply Z.eqb_neq. now apply T3.
    + exists NULL. split; [apply memchr_miss; auto; lia|]. left. split; [reflexivity|].
      intros x Hx. apply Z.eqb_neq. now apply N.
  - destruct (hit_or_miss_upto (fun x => m x =? 0) s (range_end s n)) as [(t & Ht & L)|N].
    + exists (t - s). split; [apply strnlen_hit; auto; [lia | unfold reaches in *; lia]|]. right.
      destruct Ht as (T1 & T2 & T3). replace (s + (t - s)) with t by lia. split; [lia|]. split; [lia|].
      split; [now apply Z.eqb_eq|]. intros x Hx. apply Z.eqb_neq. now apply T3.
    + exists n. assert (N' : forall x, s <= x < range_end s n -> m x <> 0)
        by (intros x Hx; apply Z.eqb_neq; now apply N).
      split; [apply strnlen_miss; auto; lia | now left].
  - intros Hb. assert (Er : range_end s n = s + n) by (unfold range_end; lia). rewrite Er in R.
    assert (Rd : s < s + n -> reaches_down fuel (s + n) s).
    { intros L. replace (s + n) with (s + n - 1 + 1) by lia. apply reaches_both; [exact R | lia]. }
    destruct (hit_or_miss (fun y => m (s + n - 1 - y) =? wrap 8 c) (Z.to_nat n) 0) as [(y & Hy & L)|N].
    + destruct Hy as (Y1 & Y2 & Y3). cbn beta in *.
      assert (Hl : forall x, s + n - 1 - y < x < s + n -> (m x =? wrap 8 c) = false).
      { intros x Hx. specialize (Y3 (s + n - 1 - x) ltac:(lia)).
        now replace (s + n - 1 - (s + n - 1 - x)) with x in Y3 by lia. }
      exists (s + n - 1 - y). split.
      * apply memrchr_hit; [exact Hm | split; [lia | split; [exact Y2 | exact Hl]]|].
        specialize (Rd ltac:(lia)). unfold reaches_down in *. lia.
      * right. split; [lia|]. split; [now apply Z.eqb_eq|]. intros x Hx. apply Z.eqb_neq. now apply Hl.
    + exists NULL. assert (Hl : forall x, s <= x < s + n -> (m x =? wrap 8 c) = false).
      { intros x Hx. specialize (N (s + n - 1 - x) ltac:(lia)).
        now replace (s + n - 1 - (s + n - 1 - x)) with x in N by lia. }
      split; [|left; split; [reflexivity|]; intros x Hx; apply Z.eqb_neq; now apply Hl].
      destruct (Z.eq_dec n 0) as [->|]; [reflexivity | apply memrchr_miss; auto; [lia | apply Rd; lia]].
Qed.

(** strspn is the length of the longest prefix of bytes of the set,
    strcspn of bytes outside it, in the word loop for one byte, in the table
    with its blocks of four and for the empty set; strpbrk is the first byte of
    the set or NULL. *)
Lemma str_span_correct fuel m s e set z : (forall x, byte (m x)) ->
  nul_at m s e -> nul_at m set z -> e - s <= Z.of_nat fuel -> z - set < Z.of_nat fuel ->
  (exists n, strspn fuel m s set = Some n /\ 0 <= n <= e - s /\
     in_str m set z (m (s + n)) = false /\
     forall x, s <= x < s + n -> in_str m set z (m x) = true) /\
  (exists n, strcspn fuel m s set = Some n /\ 0 <= n <= e - s /\
     (s + n = e \/ in_str m set z (m (s + n)) = true) /\
     (forall x, s <= x < s + n -> in_str m set z (m x) = false) /\
     strpbrk fuel m s set = Some (if s + n =? e then NULL else s + n)).
Proof.
  intros Hm H Hz Hf Hf'. split.
  - destruct (span_exists m set z s e Hz H) as (t & Ht & L). exists (t - s).
    pose proof Ht as (T1 & T2 & T3). split; [apply (strspn_spec m Hm fuel s set z t); auto; lia|].
    split; [lia|]. replace (s + (t - s)) with t by lia. split; [now apply negb_true_iff|].
    intros x Hx. apply negb_false_iff. now apply T3.
  - destruct (cspan_exists m set z s e H) as (t & Ht & L). exists (t - s).
    pose proof Ht as (T1 & T2 & T3). split; [apply (strcspn_spec m Hm fuel s set z t); auto; lia|].
    split; [lia|]. replace (s + (t - s)) with t by lia.
    assert (Hn : m t = 0 <-> t = e).
    { destruct H as (H1 & H2 & H3). split; [|intros ->; now apply Z.eqb_eq].
      intros E. destruct (Z.eq_dec t e); [assumption|]. specialize (H3 t ltac:(lia)).
      apply Z.eqb_neq in H3. contradiction. }
    split; [|split].
    + apply orb_true_iff in T2 as [E|E]; [left; apply Hn; now apply Z.eqb_eq | now right].
    + intros x Hx. specialize (T3 x Hx). now apply orb_false_iff in T3.
    + rewrite (strpbrk_spec m Hm fuel s set z t Hz Ht) by lia. f_equal.
      destruct (Z.eqb_spec t e) as [->|Hne].
      * assert (E0 : m e = 0) by now apply Hn. now rewrite E0, in_str_not_nul.
      * apply orb_true_iff in T2 as [E | ->]; [|reflexivity]. apply Z.eqb_eq in E. apply Hn in E. contradiction.
Qed.

(** C8: calling strtok_r on a string and then on the saved pointer until it
    returns NULL yields exactly the maximal nonempty runs of non-delimiters, in
    order; calling strsep until the string pointer is NULL yields all the
    fields between delimiters, empty ones included. *)
Theorem strtok_strsep_correct fuel m s e delim z : (forall x, byte (m x)) -> 0 < s ->
  nul_at m s e -> nul_at m delim z -> z < s \/ e < delim ->
  e - s <= Z.of_nat fuel -> z - delim < Z.of_nat fuel ->
  strtok_all (Z.to_nat (e - s + 1)) fuel m s delim NULL =
    Some (tokens (in_str m delim z) [] (str_bytes m s e)) /\
  strsep_all (Z.to_nat (e - s + 2)) fuel m s delim =
    Some (fields (in_str m delim z) [] (str_bytes m s e)).
Proof.
  intros Hm Hs H Hd Hdis Hf Hf'. pose proof (proj1 H). split.
  - pose proof (strtok_all_spec e delim z fuel (Z.to_nat (e - s + 1)) m s NULL) as A. cbn zeta in A.
    unfold NULL in *. destruct (Z.eqb_spec s 0); [lia|]. apply A; auto; lia.
  - apply strsep_all_spec; auto; lia.
Qed.

(** ** Concrete strings *)

(** The bytes [l] from address [a] on, zero elsewhere. *)
Definition at_bytes (a : Z) (l : list Z) : mem :=
  fun x => if a <=? x then nth (Z.to_nat (x - a)) l 0 else 0.

Lemma at_bytes_byte a l : forallb (fun b => (0 <=? b) && (b <? 256)) l = true ->
  forall x, byte (at_bytes a l x).
Proof.
  intros H x. unfold at_bytes. destruct (a <=? x); [|red; lia].
  destruct (nth_in_or_default (Z.to_nat (x - a)) l 0) as [Hi| ->]; [|red; lia].
  rewrite forallb_forall in H. specialize (H _ Hi). apply andb_true_iff in H as [A B]. red. lia.
Qed.

Lemma hit_check q s t :
  (s <=? t) && q t && forallb (fun i => negb (q (s + Z.of_nat i))) (seq 0 (Z.to_nat (t - s))) = true ->
  hit q s t.
Proof.
  intros H. apply andb_true_iff in H as [H H3]. apply andb_true_iff in H as [H1 H2].
  split; [lia|]. split; [exact H2|]. intros x Hx. rewrite forallb_forall in H3.
  specialize (H3 (Z.to_nat (x - s)) ltac:(apply in_seq; lia)). apply negb_true_iff in H3.
  now replace (s + Z.of_nat (Z.to_nat (x - s))) with x in H3 by lia.
Qed.

(** ",a,,bcd" and the set ",;" *)
Definition example_mem : mem := at_bytes 101 [44; 97; 44; 44; 98; 99; 100; 0; 255; 44; 59; 0].

Lemma str_search_correct_witness :
  strlen 1 example_mem 101 = Some 7 /\ strchr 1 example_mem 101 97 = Some 102 /\
  exists t, strchrnul 1 example_mem 101 98 = Some t /\ 101 <= t <= 108 /\
     (forall x, 101 <= x < t -> example_mem x <> wrap 8 98) /\ (example_mem t = wrap 8 98 \/ t = 108).
Proof.
  destruct (str_search_correct 1 example_mem 101 108 98) as (A & B & _).
  - apply at_bytes_byte. reflexivity.
  - lia.
  - apply hit_check. vm_compute. reflexivity.
  - vm_compute. reflexivity.
  - split; [exact A|]. split; [vm_compute; reflexivity | exact B].
Defined.

Lemma mem_search_correct_witness :
  memchr 1 example_mem 101 98 6 = Some 105 /\
  exists r, strnlen 1 example_mem 101 5 = Some r /\
     ((r = 5 /\ forall x, 101 <= x < range_end 101 5 -> example_mem x <> 0) \/
      (101 + r < range_end 101 5 /\ 0 <= r /\ example_mem (101 + r) = 0 /\
       forall x, 101 <= x < 101 + r -> example_mem x <> 0)).
Proof.
  split; [vm_compute; reflexivity|].
  apply (mem_search_correct 1 example_mem 101 0 5).
  - apply at_bytes_byte. reflexivity.
  - lia.
  - lia.
  - vm_compute. reflexivity.
Defined.

Lemma str_span_correct_witness :
  strspn 8 example_mem 101 110 = Some 1 /\ strcspn 8 example_mem 105 110 = Some 3 /\
  exists n, strspn 8 example_mem 101 110 = Some n /\ 0 <= n <= 108 - 101 /\
     in_str example_mem 110 112 (example_mem (101 + n)) = false /\
     forall x, 101 <= x < 101 + n -> in_str example_mem 110 112 (example_mem x) = true.
Proof.
  split; [vm_compute; reflexivity|]. split; [vm_compute; reflexivity|].
  apply (str_span_correct 8 example_mem 101 108 110 112).
  - apply at_bytes_byte. reflexivity.
  - apply hit_check. vm_compute. reflexivity.
  - apply hit_check. vm_compute. reflexivity.
  - lia.
  - lia.
Defined.

Lemma strtok_strsep_correct_witness :
  strtok_all 8 8 example_mem 101 110 NULL = Some [[97]; [98; 99; 100]] /\
  strsep_all 9 8 example_mem 101 110 = Some [[]; [97]; []; [98; 99; 100]].
Proof.
  apply (strtok_strsep_correct 8 example_mem 101 108 110 112).
  - apply at_bytes_byte. reflexivity.
  - lia.
  - apply hit_check. vm_compute. reflexivity.
  - apply hit_check. vm_compute. reflexivity.
  - right. lia.
  - lia.
  - lia.
Defined.
