(* ===== verification/MemCopy.v ===== *)
(** * Copying memory (sysdeps/generic/memcopy.h, string/wordcopy.c, memcpy.c,
      memmove.c, memset.c)

    The word copying routines are unrolled loops that are entered at a label
    [do1] ... [do8] computed from the number of words; [stmt k] is the pair of
    statements at label [do k], a load into one of the registers a0, a1, ...
    followed by a store of words loaded before.  The registers are a function
    from their numbers; the ones the C code leaves uninitialised are zero and
    never read. *)

From Stdlib Require Import ZArith List Lia Bool.
From S2P Require Import Prelude StrWord Str.
Import ListNotations.
#[local] Open Scope Z_scope.
#[local] Open Scope glibc_scope.

Definition OP_T_THRES : Z := 16.

(** On little-endian machines. *)
Definition MERGE (w0 sh_1 w1 sh_2 : Z) : Z :=
  Z.lor (Z.shiftr w0 sh_1) (wrap 64 (Z.shiftl w1 sh_2)).

Definition store_op (m : mem) (p v : Z) : mem := store_le 8 m p v.

Definition regs := Z -> Z.

(** The statements from label [do k] to the end of the loop body. *)
Fixpoint body {S} (stmt : nat -> S -> S) (k : nat) (s : S) : S :=
  match k with
  | O => s
  | S k' => body stmt k' (stmt k s)
  end.

(** The loop from label [do k]: the value of dstp and the state at label do0.
    [unroll] is the number of statements and [dir] the direction. *)
Fixpoint copy_loop (unroll : nat) (dir : Z) (stmt : Z -> Z -> nat -> mem * regs -> mem * regs)
    (fuel k : nat) (dstp srcp len : Z) (s : mem * regs) : option (Z * (mem * regs)) :=
  match fuel with
  | O => None
  | S fuel =>
      let s := body (stmt dstp srcp) k s in
      let srcp := srcp + dir * (Z.of_nat unroll * OPSIZ) in
      let dstp := dstp + dir * (Z.of_nat unroll * OPSIZ) in
      let len := len - Z.of_nat unroll in
      if len =? 0 then Some (dstp, s)
      else copy_loop unroll dir stmt fuel unroll dstp srcp len s
  end.

(** The word at index [i] of an array of [op_t]. *)
Definition word_at (m : mem) (p i : Z) : Z := load_op m (p + OPSIZ * i).
Definition set_word (m : mem) (p i v : Z) : mem := store_op m (p + OPSIZ * i) v.

Definition no_regs : regs := fun _ => 0.

(** do8: a0 = src[0]; dst[0] = a1;  do7: a1 = src[1]; dst[1] = a0; ... *)
Definition fwd_aligned_stmt (dstp srcp : Z) (k : nat) (s : mem * regs) : mem * regs :=
  let '(m, a) := s in
  let i := 8 - Z.of_nat k in
  let a := upd a (Z.of_nat k mod 2) (word_at m srcp i) in
  (set_word m dstp i (a ((Z.of_nat k + 1) mod 2)), a).

Definition wordcopy_fwd_aligned (m : mem) (dstp srcp len : Z) : option mem :=
  let goto_do (k : nat) (dstp srcp len : Z) (a : regs) :=
    let? (dstp, (m, a)) := copy_loop 8 1 fwd_aligned_stmt (S (Z.to_nat len)) k dstp srcp len (m, a) in
    Some (set_word m dstp 0 (a 1)) in
  let a r := upd no_regs r (word_at m srcp 0) in
  match len mod 8 with
  | 2 => goto_do 1%nat (dstp - 7 * OPSIZ) (srcp - 6 * OPSIZ) (len + 6) (a 0)
  | 3 => goto_do 2%nat (dstp - 6 * OPSIZ) (srcp - 5 * OPSIZ) (len + 5) (a 1)
  | 4 => goto_do 3%nat (dstp - 5 * OPSIZ) (srcp - 4 * OPSIZ) (len + 4) (a 0)
  | 5 => goto_do 4%nat (dstp - 4 * OPSIZ) (srcp - 3 * OPSIZ) (len + 3) (a 1)
  | 6 => goto_do 5%nat (dstp - 3 * OPSIZ) (srcp - 2 * OPSIZ) (len + 2) (a 0)
  | 7 => goto_do 6%nat (dstp - 2 * OPSIZ) (srcp - 1 * OPSIZ) (len + 1) (a 1)
  | 0 =>
      if (OP_T_THRES <=? 3 * OPSIZ) && (len =? 0) then Some m
      else goto_do 7%nat (dstp - 1 * OPSIZ) (srcp - 0 * OPSIZ) len (a 0)
  | _ =>
      if (OP_T_THRES <=? 3 * OPSIZ) && (len - 1 =? 0) then Some (set_word m dstp 0 (a 1 1))
      else goto_do 8%nat (dstp - 0 * OPSIZ) (srcp - -1 * OPSIZ) (len - 1) (a 1)
  end.

(** do4: a0 = src[0]; dst[0] = MERGE (a2, sh_1, a3, sh_2);
    do3: a1 = src[1]; dst[1] = MERGE (a3, sh_1, a0, sh_2); ... *)
Definition fwd_dest_aligned_stmt (sh_1 sh_2 dstp srcp : Z) (k : nat) (s : mem * regs) : mem * regs :=
  let '(m, a) := s in
  let i := 4 - Z.of_nat k in
  let a := upd a i (word_at m srcp i) in
  (set_word m dstp i (MERGE (a ((i + 2) mod 4)) sh_1 (a ((i + 3) mod 4)) sh_2), a).

Definition wordcopy_fwd_dest_aligned (m : mem) (dstp srcp len : Z) : option mem :=
  let sh_1 := 8 * (srcp mod OPSIZ) in
  let sh_2 := 8 * OPSIZ - sh_1 in
  let srcp := Z.land srcp (- OPSIZ) in
  let goto_do (k : nat) (dstp srcp len : Z) (a : regs) :=
    let? (dstp, (m, a)) := copy_loop 4 1 (fwd_dest_aligned_stmt sh_1 sh_2) (S (Z.to_nat len)) k dstp srcp len (m, a) in
    Some (set_word m dstp 0 (MERGE (a 2) sh_1 (a 3) sh_2)) in
  let a r r' := upd (upd no_regs r (word_at m srcp 0)) r' (word_at m srcp 1) in
  match len mod 4 with
  | 2 => goto_do 1%nat (dstp - 3 * OPSIZ) (srcp - 1 * OPSIZ) (len + 2) (a 1 2)
  | 3 => goto_do 2%nat (dstp - 2 * OPSIZ) (srcp - 0 * OPSIZ) (len + 1) (a 0 1)
  | 0 =>
      if (OP_T_THRES <=? 3 * OPSIZ) && (len =? 0) then Some m
      else goto_do 3%nat (dstp - 1 * OPSIZ) (srcp - -1 * OPSIZ) (len + 0) (a 3 0)
  | _ =>
      if (OP_T_THRES <=? 3 * OPSIZ) && (len - 1 =? 0)
      then Some (set_word m dstp 0 (MERGE (a 2 3 2) sh_1 (a 2 3 3) sh_2))
      else goto_do 4%nat (dstp - 0 * OPSIZ) (srcp - -2 * OPSIZ) (len - 1) (a 2 3)
  end.

(** do8: a0 = src[7]; dst[7] = a1;  do7: a1 = src[6]; dst[6] = a0; ... *)
Definition bwd_aligned_stmt (dstp srcp : Z) (k : nat) (s : mem * regs) : mem * regs :=
  let '(m, a) := s in
  let i := Z.of_nat k - 1 in
  let a := upd a (Z.of_nat k mod 2) (word_at m srcp i) in
  (set_word m dstp i (a ((Z.of_nat k + 1) mod 2)), a).

Definition wordcopy_bwd_aligned (m : mem) (dstp srcp len : Z) : option mem :=
  let goto_do (k : nat) (dstp srcp len : Z) (a : regs) :=
    let? (dstp, (m, a)) := copy_loop 8 (-1) bwd_aligned_stmt (S (Z.to_nat len)) k dstp srcp len (m, a) in
    Some (set_word m dstp 7 (a 1)) in
  let a r srcp i := upd no_regs r (word_at m srcp i) in
  match len mod 8 with
  | 2 => let srcp := srcp - 2 * OPSIZ in
         goto_do 1%nat (dstp - 1 * OPSIZ) srcp (len + 6) (a 0 srcp 1)
  | 3 => let srcp := srcp - 3 * OPSIZ in
         goto_do 2%nat (dstp - 2 * OPSIZ) srcp (len + 5) (a 1 srcp 2)
  | 4 => let srcp := srcp - 4 * OPSIZ in
         goto_do 3%nat (dstp - 3 * OPSIZ) srcp (len + 4) (a 0 srcp 3)
  | 5 => let srcp := srcp - 5 * OPSIZ in
         goto_do 4%nat (dstp - 4 * OPSIZ) srcp (len + 3) (a 1 srcp 4)
  | 6 => let srcp := srcp - 6 * OPSIZ in
         goto_do 5%nat (dstp - 5 * OPSIZ) srcp (len + 2) (a 0 srcp 5)
  | 7 => let srcp := srcp - 7 * OPSIZ in
         goto_do 6%nat (dstp - 6 * OPSIZ) srcp (len + 1) (a 1 srcp 6)
  | 0 =>
      if (OP_T_THRES <=? 3 * OPSIZ) && (len =? 0) then Some m
      else let srcp := srcp - 8 * OPSIZ in
           goto_do 7%nat (dstp - 7 * OPSIZ) srcp len (a 0 srcp 7)
  | _ =>
      let srcp := srcp - 9 * OPSIZ in
      let dstp := dstp - 8 * OPSIZ in
      if (OP_T_THRES <=? 3 * OPSIZ) && (len - 1 =? 0) then Some (set_word m dstp 7 (a 1 srcp 8 1))
      else goto_do 8%nat dstp srcp (len - 1) (a 1 srcp 8)
  end.

(** do4: a3 = src[3]; dst[3] = MERGE (a0, sh_1, a1, sh_2);
    do3: a2 = src[2]; dst[2] = MERGE (a3, sh_1, a0, sh_2); ... *)
Definition bwd_dest_aligned_stmt (sh_1 sh_2 dstp srcp : Z) (k : nat) (s : mem * regs) : mem * regs :=
  let '(m, a) := s in
  let i := Z.of_nat k - 1 in
  let a := upd a i (word_at m srcp i) in
  (set_word m dstp i (MERGE (a ((i + 1) mod 4)) sh_1 (a ((i + 2) mod 4)) sh_2), a).

Definition wordcopy_bwd_dest_aligned (m : mem) (dstp srcp len : Z) : option mem :=
  let sh_1 := 8 * (srcp mod OPSIZ) in
  let sh_2 := 8 * OPSIZ - sh_1 in
  let srcp := Z.land srcp (- OPSIZ) in
  let srcp := srcp + OPSIZ in
  let goto_do (k : nat) (dstp srcp len : Z) (a : regs) :=
    let? (dstp, (m, a)) := copy_loop 4 (-1) (bwd_dest_aligned_stmt sh_1 sh_2) (S (Z.to_nat len)) k dstp srcp len (m, a) in
    Some (set_word m dstp 3 (MERGE (a 0) sh_1 (a 1) sh_2)) in
  let a r r' srcp i := upd (upd no_regs r (word_at m srcp i)) r' (word_at m srcp (i - 1)) in
  match len mod 4 with
  | 2 => let srcp := srcp - 3 * OPSIZ in
         goto_do 1%nat (dstp - 1 * OPSIZ) srcp (len + 2) (a 2 1 srcp 2)
  | 3 => let srcp := srcp - 4 * OPSIZ in
         goto_do 2%nat (dstp - 2 * OPSIZ) srcp (len + 1) (a 3 2 srcp 3)
  | 0 =>
      if (OP_T_THRES <=? 3 * OPSIZ) && (len =? 0) then Some m
      else let srcp := srcp - 5 * OPSIZ in
           goto_do 3%nat (dstp - 3 * OPSIZ) srcp len (a 0 3 srcp 4)
  | _ =>
      let srcp := srcp - 6 * OPSIZ in
      let dstp := dstp - 4 * OPSIZ in
      if (OP_T_THRES <=? 3 * OPSIZ) && (len - 1 =? 0)
      then Some (set_word m dstp 3 (MERGE (a 1 0 srcp 5 0) sh_1 (a 1 0 srcp 5 1) sh_2))
      else goto_do 4%nat dstp srcp (len - 1) (a 1 0 srcp 5)
  end.

(** ** The macros of memcopy.h: the memory after copying *)

Fixpoint BYTE_COPY_FWD (nbytes : nat) (m : mem) (dst_bp src_bp : Z) : mem :=
  match nbytes with
  | O => m
  | S n => BYTE_COPY_FWD n (upd m dst_bp (m src_bp)) (dst_bp + 1) (src_bp + 1)
  end.

Fixpoint BYTE_COPY_BWD (nbytes : nat) (m : mem) (dst_ep src_ep : Z) : mem :=
  match nbytes with
  | O => m
  | S n =>
      let src_ep := src_ep - 1 in
      let x := m src_ep in
      let dst_ep := dst_ep - 1 in
      BYTE_COPY_BWD n (upd m dst_ep x) dst_ep src_ep
  end.

(** The memory, the advanced pointers and nbytes_left. *)
Definition WORD_COPY_FWD (m : mem) (dst_bp src_bp nbytes : Z) : option (mem * Z * Z * Z) :=
  let? m :=
    (if src_bp mod OPSIZ =? 0 then wordcopy_fwd_aligned m dst_bp src_bp (nbytes / OPSIZ)
     else wordcopy_fwd_dest_aligned m dst_bp src_bp (nbytes / OPSIZ)) in
  Some (m, dst_bp + Z.land nbytes (- OPSIZ), src_bp + Z.land nbytes (- OPSIZ), nbytes mod OPSIZ).

Definition WORD_COPY_BWD (m : mem) (dst_ep src_ep nbytes : Z) : option (mem * Z * Z * Z) :=
  let? m :=
    (if src_ep mod OPSIZ =? 0 then wordcopy_bwd_aligned m dst_ep src_ep (nbytes / OPSIZ)
     else wordcopy_bwd_dest_aligned m dst_ep src_ep (nbytes / OPSIZ)) in
  Some (m, dst_ep - Z.land nbytes (- OPSIZ), src_ep - Z.land nbytes (- OPSIZ), nbytes mod OPSIZ).

Definition memcpy (m : mem) (dstp srcp len : Z) : option mem :=
  if OP_T_THRES <=? len then
    let k := (- dstp) mod OPSIZ in
    let m := BYTE_COPY_FWD (Z.to_nat k) m dstp srcp in
    let? (m, dstp, srcp, len) := WORD_COPY_FWD m (dstp + k) (srcp + k) (len - k) in
    Some (BYTE_COPY_FWD (Z.to_nat len) m dstp srcp)
  else Some (BYTE_COPY_FWD (Z.to_nat len) m dstp srcp).

Definition memmove (m : mem) (dstp srcp len : Z) : option mem :=
  if len <=? wrap 64 (dstp - srcp) then
    if OP_T_THRES <=? len then
      let k := (- dstp) mod OPSIZ in
      let m := BYTE_COPY_FWD (Z.to_nat k) m dstp srcp in
      let? (m, dstp, srcp, len) := WORD_COPY_FWD m (dstp + k) (srcp + k) (len - k) in
      Some (BYTE_COPY_FWD (Z.to_nat len) m dstp srcp)
    else Some (BYTE_COPY_FWD (Z.to_nat len) m dstp srcp)
  else
    let srcp := srcp + len in
    let dstp := dstp + len in
    if OP_T_THRES <=? len then
      let k := dstp mod OPSIZ in
      let m := BYTE_COPY_BWD (Z.to_nat k) m dstp srcp in
      let? (m, dstp, srcp, len) := WORD_COPY_BWD m (dstp - k) (srcp - k) (len - k) in
      Some (BYTE_COPY_BWD (Z.to_nat len) m dstp srcp)
    else Some (BYTE_COPY_BWD (Z.to_nat len) m dstp srcp).

(** ** memset.c *)

(** while (dstp % OPSIZ != 0): the memory, dstp and len. *)
Fixpoint memset_align (fuel : nat) (m : mem) (c dstp len : Z) : option (mem * Z * Z) :=
  match fuel with
  | O => None
  | S fuel =>
      if dstp mod OPSIZ =? 0 then Some (m, dstp, len)
      else memset_align fuel (upd m dstp (wrap 8 c)) c (dstp + 1) (len - 1)
  end.

Fixpoint memset_words8 (xlen : nat) (m : mem) (cccc dstp : Z) : mem * Z :=
  match xlen with
  | O => (m, dstp)
  | S xlen =>
      let m := set_word m dstp 0 cccc in
      let m := set_word m dstp 1 cccc in
      let m := set_word m dstp 2 cccc in
      let m := set_word m dstp 3 cccc in
      let m := set_word m dstp 4 cccc in
      let m := set_word m dstp 5 cccc in
      let m := set_word m dstp 6 cccc in
      let m := set_word m dstp 7 cccc in
      memset_words8 xlen m cccc (dstp + 8 * OPSIZ)
  end.

Fixpoint memset_words (xlen : nat) (m : mem) (cccc dstp : Z) : mem * Z :=
  match xlen with
  | O => (m, dstp)
  | S xlen => memset_words xlen (set_word m dstp 0 cccc) cccc (dstp + OPSIZ)
  end.

Fixpoint memset_bytes (len : nat) (m : mem) (c dstp : Z) : mem :=
  match len with
  | O => m
  | S len => memset_bytes len (upd m dstp (wrap 8 c)) c (dstp + 1)
  end.

Definition memset_pattern (c : Z) : Z :=
  let cccc := wrap 8 c in
  let cccc := Z.lor cccc (wrap 64 (Z.shiftl cccc 8)) in
  let cccc := Z.lor cccc (wrap 64 (Z.shiftl cccc 16)) in
  if 4 <? OPSIZ then Z.lor cccc (wrap 64 (Z.shiftl (wrap 64 (Z.shiftl cccc 16)) 16)) else cccc.

Definition memset (m : mem) (dstpp c len : Z) : option mem :=
  let dstp := dstpp in
  if 8 <=? len then
    let cccc := memset_pattern c in
    let? (m, dstp, len) := memset_align 8 m c dstp len in
    let xlen := len / (OPSIZ * 8) in
    let '(m, dstp) := memset_words8 (Z.to_nat xlen) m cccc dstp in
    let len := len mod (OPSIZ * 8) in
    let xlen := len / OPSIZ in
    let '(m, dstp) := memset_words (Z.to_nat xlen) m cccc dstp in
    let len := len mod OPSIZ in
    Some (memset_bytes (Z.to_nat len) m c dstp)
  else Some (memset_bytes (Z.to_nat len) m c dstp).

(** * Merging two words *)

#[local] Abbreviation W k b := (load_le k b 0).

Lemma W_app a : forall k f, W (a + k) f = W a f + 256 ^ Z.of_nat a * W k (fun i => f (Z.of_nat a + i)).
Proof.
  induction a as [|a IH]; intros k f.
  { change (256 ^ Z.of_nat 0) with 1. cbn [load_le Nat.add]. rewrite Z.mul_1_l, Z.add_0_l.
    apply W_ext. intros; f_equal; lia. }
  cbn [Nat.add]. rewrite !W_S, IH, Nat2Z.inj_succ, Z.pow_succ_r by lia.
  rewrite (W_ext k (fun i => f (Z.succ (Z.of_nat a) + i)) (fun i => f (1 + (Z.of_nat a + i))))
    by (intros; f_equal; lia). lia.
Qed.

Lemma W_mod o k f : bytes f 0 (Z.of_nat o) -> W (o + k) f mod 256 ^ Z.of_nat o = W o f.
Proof.
  intros H. rewrite W_app, (Z.mul_comm (256 ^ _)), Z.mod_add by (apply Z.pow_nonzero; lia).
  apply Z.mod_small. now apply load_range.
Qed.

Definition merged (o : Z) (g h : Z -> Z) : Z -> Z :=
  fun i => if i <? 8 - o then g (o + i) else h (i - (8 - o)).

Lemma MERGE_W o g h : 0 < o < 8 -> bytes g 0 8 -> bytes h 0 8 ->
  MERGE (W 8 g) (8 * o) (W 8 h) (64 - 8 * o) = W 8 (merged o g h).
Proof.
  intros Ho Hg Hh. unfold MERGE, wrap.
  assert (Eg : Z.shiftr (W 8 g) (8 * o) = W (Z.to_nat (8 - o)) (fun i => g (o + i))).
  { replace (8 * o) with (8 * Z.of_nat (Z.to_nat o)) by lia.
    replace 8%nat with (Z.to_nat o + Z.to_nat (8 - o))%nat at 1 by lia.
    rewrite (shiftr_W (Z.to_nat o)) by (intros x Hx; apply Hg; lia).
    apply W_ext. intros; f_equal; lia. }
  assert (Eh : Z.shiftl (W 8 h) (64 - 8 * o) mod 2 ^ 64
               = W (Z.to_nat o) h * 2 ^ (8 * (8 - o))).
  { rewrite Z.shiftl_mul_pow2 by lia. replace (64 - 8 * o) with (8 * (8 - o)) by lia.
    replace 64 with (8 * o + 8 * (8 - o)) by lia. rewrite Z.pow_add_r by lia.
    rewrite Z.mul_mod_distr_r by (apply Z.pow_nonzero; lia). f_equal.
    rewrite Z.pow_mul_r by lia. change (2 ^ 8) with 256.
    replace o with (Z.of_nat (Z.to_nat o)) at 1 by lia.
    replace 8%nat with (Z.to_nat o + Z.to_nat (8 - o))%nat by lia.
    apply W_mod. intros x Hx. apply Hh. lia. }
  rewrite Eg, Eh, Z.lor_comm, lor_add_low; [|lia|].
  - replace 8%nat with (Z.to_nat (8 - o) + Z.to_nat o)%nat by lia. rewrite W_app.
    rewrite Z.pow_mul_r by lia. change (2 ^ 8) with 256. rewrite Z2Nat.id by lia.
    rewrite (W_ext (Z.to_nat (8 - o)) (merged o g h) (fun i => g (o + i))).
    + rewrite (W_ext (Z.to_nat o) (fun i => merged o g h (8 - o + i)) h); [lia|]. intros i Hi. unfold merged.
      destruct (Z.ltb_spec (8 - o + i) (8 - o)); [lia|]. f_equal. lia.
    + intros i Hi. unfold merged. destruct (Z.ltb_spec i (8 - o)); [reflexivity | lia].
  - rewrite Z.pow_mul_r by lia. change (2 ^ 8) with 256.
    rewrite <- (Z2Nat.id (8 - o)) at 3 by lia. apply load_range.
    intros x Hx. apply Hg. lia.
Qed.

(** Two aligned words around an unaligned address [b]. *)
Lemma MERGE_load m b : (forall x, byte (m x)) -> b mod 8 <> 0 ->
  MERGE (load_op m (b - b mod 8)) (8 * (b mod 8)) (load_op m (b - b mod 8 + 8)) (8 * OPSIZ - 8 * (b mod 8))
  = load_op m b.
Proof.
  intros Hm Ho. pose proof (Z.mod_pos_bound b 8 ltac:(lia)). set (o := b mod 8) in *.
  unfold load_op. rewrite (load_W 8 m (b - o)), (load_W 8 m (b - o + 8)), (load_W 8 m b). change (8 * OPSIZ) with 64.
  rewrite MERGE_W by (lia || (intros x Hx; apply Hm)). apply W_ext. intros i Hi. unfold merged.
  destruct (Z.ltb_spec i (8 - o)); f_equal; lia.
Qed.

(** * Copying

    [D t] is the address of the [t]-th destination word that is stored, [t]
    from 0 to [L - 1], and [delta] the distance from a destination byte to its
    source.  [done t x]: the byte [x] is in one of the first [t] words. *)
Section Copy.
Context (m0 : mem) (Hm0 : forall x, byte (m0 x)) (delta L : Z).
Context (D : Z -> Z) (done : Z -> Z -> bool).
Context (done_0 : forall x, done 0 x = false).
Context (done_S : forall t x, 0 <= t -> done (t + 1) x = done t x || ((D t <=? x) && (x <? D t + 8))).

Definition copied (t : Z) (m : mem) : Prop := forall x, m x = if done t x then m0 (x + delta) else m0 x.

Lemma copied_0 : copied 0 m0.
Proof using done_0. intros x. now rewrite done_0. Qed.

Lemma copied_store t m : 0 <= t -> copied t m ->
  copied (t + 1) (store_op m (D t) (load_op m0 (D t + delta))).
Proof using Hm0 done_S.
  intros Ht H x. unfold store_op, load_op.
  destruct (store_load 8 m0 m (D t) (D t + delta)) as [F E]; [intros y _; apply Hm0|].
  rewrite done_S by exact Ht. destruct (Z.leb_spec (D t) x), (Z.ltb_spec x (D t + 8));
    rewrite ?orb_false_r, ?orb_true_r; cbn [andb]; rewrite ?orb_false_r, ?orb_true_r;
    try (rewrite F by lia; apply H).
  replace x with (D t + (x - D t)) at 1 by lia. rewrite E by lia. f_equal. lia.
Qed.

(** A load that avoids the words stored so far reads the original bytes. *)
Lemma copied_load t m a : copied t m -> (forall x, a <= x < a + 8 -> done t x = false) ->
  load_op m a = load_op m0 a.
Proof using Type.
  intros H Hd. apply load_ext. intros x Hx. rewrite H, Hd by lia. reflexivity.
Qed.

(** The loop: [Inv d s k t st] holds before the statement at label [do k] when
    [t] words have been stored. *)
Context (unroll : nat) (dir : Z) (stmt : Z -> Z -> nat -> mem * regs -> mem * regs).
Context (Inv : Z -> Z -> nat -> Z -> mem * regs -> Prop).
Context (step_stmt : forall d s k t st, 0 <= t -> t + 1 < L -> (S k <= unroll)%nat ->
  Inv d s (S k) t st -> Inv d s k (t + 1) (stmt d s (S k) st)).
Context (step_loop : forall d s t st, Inv d s 0 t st ->
  Inv (d + dir * (Z.of_nat unroll * OPSIZ)) (s + dir * (Z.of_nat unroll * OPSIZ)) unroll t st).

Lemma body_inv k : forall d s t st, (k <= unroll)%nat -> 0 <= t -> t + Z.of_nat k < L ->
  Inv d s k t st -> Inv d s 0 (t + Z.of_nat k) (body (stmt d s) k st).
Proof using step_stmt.
  induction k as [|k IH]; intros d s t st Hk Ht HL H; [now rewrite Z.add_0_r|].
  cbn [body]. replace (t + Z.of_nat (S k)) with (t + 1 + Z.of_nat k) by lia.
  apply IH; [lia | lia | lia|]. apply step_stmt; auto; lia.
Qed.

Lemma copy_loop_inv fuel : forall k d s len t st, (0 < k <= unroll)%nat -> 0 <= t ->
  0 < len -> len mod Z.of_nat unroll = 0 -> len <= Z.of_nat fuel ->
  t + Z.of_nat k + len - Z.of_nat unroll + 1 = L -> Inv d s k t st ->
  exists d' s' st', copy_loop unroll dir stmt fuel k d s len st = Some (d', st') /\
    Inv d' s' unroll (L - 1) st'.
Proof using step_stmt step_loop.
  induction fuel as [|fuel IH]; intros k d s len t st Hk Ht Hl Hm Hf HL H; [lia|]. cbn [copy_loop].
  assert (Hd : exists c, len = Z.of_nat unroll * c).
  { exists (len / Z.of_nat unroll). pose proof (Z_div_mod_eq_full len (Z.of_nat unroll)). lia. }
  destruct Hd as [c Hc]. assert (1 <= c) by nia.
  assert (Hb : Inv d s 0 (t + Z.of_nat k) (body (stmt d s) k st)) by (apply body_inv; auto; nia).
  apply step_loop in Hb. destruct (Z.eqb_spec (len - Z.of_nat unroll) 0) as [E|E].
  - do 3 eexists. split; [reflexivity|]. replace (L - 1) with (t + Z.of_nat k) by lia. exact Hb.
  - apply (IH unroll _ _ (len - Z.of_nat unroll) (t + Z.of_nat k)); try lia.
    + nia.
    + rewrite Hc. replace (Z.of_nat unroll * c - Z.of_nat unroll) with ((c - 1) * Z.of_nat unroll) by lia.
      apply Z.mod_mul. lia.
    + exact Hb.
Qed.
End Copy.

(** The two kinds of statement, for either direction.  [idx k] is the index of
    the words of label [do k]. *)
Section Stmts.
Context (m0 : mem) (Hm0 : forall x, byte (m0 x)) (delta L dir : Z) (HL : 0 < L).
Context (D : Z -> Z) (done : Z -> Z -> bool).
Context (done_0 : forall x, done 0 x = false).
Context (done_S : forall t x, 0 <= t -> done (t + 1) x = done t x || ((D t <=? x) && (x <? D t + 8))).
Context (D_S : forall t, D (t + 1) = D t + 8 * dir).
Context (idx : nat -> Z) (idx_S : forall k, idx k = idx (S k) + dir).
Let cp := copied m0 delta done.

Lemma final_store t d i m : 0 <= t -> cp t m -> d + OPSIZ * i = D t ->
  cp (t + 1) (set_word m d i (load_op m0 (D t + delta))).
Proof using Hm0 done_S.
  intros Ht H E. unfold set_word. rewrite E. now apply copied_store.
Qed.

Section Aligned.
Context (stmt : Z -> Z -> nat -> mem * regs -> mem * regs).
Context (Hstmt : forall d s k m a, stmt d s k (m, a) =
  let a := upd a (Z.of_nat k mod 2) (word_at m s (idx k)) in
  (set_word m d (idx k) (a ((Z.of_nat k + 1) mod 2)), a)).
Context (Hidx : idx 8 + 8 * dir = idx 0).
Context (safe : forall t x, 0 <= t -> t + 1 < L ->
  D (t + 1) + delta <= x < D (t + 1) + delta + 8 -> done t x = false).

Definition AInv (d s : Z) (k : nat) (t : Z) (st : mem * regs) : Prop :=
  cp t (fst st) /\ snd st ((Z.of_nat k + 1) mod 2) = load_op m0 (D t + delta) /\
  d + OPSIZ * idx k = D t /\ s + OPSIZ * idx k = D (t + 1) + delta.

Lemma aligned_step d s k t st : 0 <= t -> t + 1 < L ->
  AInv d s (S k) t st -> AInv d s k (t + 1) (stmt d s (S k) st).
Proof using Hm0 done_S D_S idx_S Hstmt safe.
  destruct st as [m a]. intros Ht HtL (Hc & Ha & Hd & Hs). cbn [fst snd] in *. rewrite Hstmt. cbn zeta.
  assert (E2 : (Z.of_nat (S k) + 1) mod 2 <> Z.of_nat (S k) mod 2).
  { rewrite <- Z.add_mod_idemp_l by lia. pose proof (Z.mod_pos_bound (Z.of_nat (S k)) 2 ltac:(lia)).
    assert (Z.of_nat (S k) mod 2 = 0 \/ Z.of_nat (S k) mod 2 = 1) as [-> | ->] by lia; cbn; lia. }
  rewrite (upd_ne a) by exact E2. rewrite Ha. unfold AInv. cbn [fst snd]. split; [|split; [|split]].
  - now apply final_store.
  - replace (Z.of_nat k + 1) with (Z.of_nat (S k)) by lia. rewrite upd_eq. unfold word_at. rewrite Hs.
    apply (copied_load m0 delta done t); [exact Hc | intros x; now apply safe].
  - rewrite (idx_S k), D_S. unfold OPSIZ in *. lia.
  - rewrite (idx_S k), D_S. unfold OPSIZ in *. lia.
Qed.

Lemma aligned_goto k d s len a fuel : (0 < k <= 8)%nat -> 0 < len -> len mod 8 = 0 ->
  len <= Z.of_nat fuel -> Z.of_nat k + len - 8 + 1 = L ->
  a ((Z.of_nat k + 1) mod 2) = load_op m0 (D 0 + delta) ->
  d + OPSIZ * idx k = D 0 -> s + OPSIZ * idx k = D 1 + delta ->
  exists m', (let? (dstp, (m, a)) := copy_loop 8 dir stmt fuel k d s len (m0, a) in
              Some (set_word m dstp (idx 8%nat) (a 1))) = Some m' /\ cp L m'.
Proof using Hm0 HL done_0 done_S D_S idx_S Hstmt safe Hidx.
  intros Hk Hl Hm Hf HL' Ha Hd Hs.
  destruct (copy_loop_inv L 8 dir stmt AInv) with (fuel := fuel) (k := k) (d := d) (s := s) (len := len)
    (t := 0) (st := (m0, a)) as (d' & s' & [m' a'] & -> & (Ic & Ia & Id & Is)).
  - intros. apply aligned_step; auto; lia.
  - intros d1 s1 t1 st1 (H1 & H2 & H3 & H4). split; [exact H1|]. split; [exact H2|].
    unfold OPSIZ in *. change (Z.of_nat 8) with 8. split; lia.
  - exact Hk.
  - lia.
  - exact Hl.
  - exact Hm.
  - exact Hf.
  - lia.
  - split; [now apply copied_0|]. cbn [snd]. auto.
  - cbn [fst snd] in *. change ((Z.of_nat 8 + 1) mod 2) with 1 in Ia. rewrite Ia.
    eexists. split; [reflexivity|]. replace L with (L - 1 + 1) at 1 by lia. apply final_store; auto; lia.
Qed.
End Aligned.

Section DestAligned.
Context (A : Z -> Z) (A_S : forall t, A (t + 1) = A t + 8 * dir) (Hdir : dir = 1 \/ dir = -1).
Context (merge2 : Z -> Z -> Z).
Context (Hval : forall t, 0 <= t < L ->
  merge2 (load_op m0 (A t)) (load_op m0 (A (t + 1))) = load_op m0 (D t + delta)).
Context (stmt : Z -> Z -> nat -> mem * regs -> mem * regs).
Context (Hstmt : forall d s k m a, stmt d s k (m, a) =
  let a := upd a (idx k) (word_at m s (idx k)) in
  (set_word m d (idx k) (merge2 (a ((idx k + 2) mod 4)) (a ((idx k + 2 + dir) mod 4))), a)).
Context (Hidx : idx 4 + 4 * dir = idx 0) (Hidx_range : forall k, (0 < k <= 4)%nat -> 0 <= idx k < 4).
Context (safe : forall t x, 0 <= t -> t + 1 < L -> A (t + 2) <= x < A (t + 2) + 8 -> done t x = false).

Definition DInv (d s : Z) (k : nat) (t : Z) (st : mem * regs) : Prop :=
  cp t (fst st) /\ snd st ((idx k + 2) mod 4) = load_op m0 (A t) /\
  snd st ((idx k + 2 + dir) mod 4) = load_op m0 (A (t + 1)) /\
  d + OPSIZ * idx k = D t /\ s + OPSIZ * idx k = A (t + 2).

Lemma reg_ne i : 0 <= i < 4 -> (i + 2) mod 4 <> i /\ (i + 2 + dir) mod 4 <> i /\ (i + dir + 2 + dir) mod 4 = i.
Proof using Hdir.
  intros Hi. assert (i = 0 \/ i = 1 \/ i = 2 \/ i = 3) as H by lia.
  destruct H as [-> | [-> | [-> | ->]]], Hdir as [E|E]; rewrite E; cbn; lia.
Qed.

Lemma dest_step d s k t st : 0 <= t -> t + 1 < L -> (S k <= 4)%nat ->
  DInv d s (S k) t st -> DInv d s k (t + 1) (stmt d s (S k) st).
Proof using Hm0 done_S D_S idx_S Hstmt safe A_S Hdir Hval Hidx_range.
  destruct st as [m a]. intros Ht HtL Hk (Hc & Ha & Hb & Hd & Hs). cbn [fst snd] in *. rewrite Hstmt. cbn zeta.
  destruct (reg_ne (idx (S k)) (Hidx_range (S k) ltac:(lia))) as (N1 & N2 & N3).
  rewrite !(upd_ne a) by assumption. rewrite Ha, Hb, Hval by lia.
  unfold DInv. cbn [fst snd]. rewrite (idx_S k). split; [|split; [|split; [|split]]].
  - now apply final_store.
  - replace (idx (S k) + dir + 2) with (idx (S k) + 2 + dir) by lia. rewrite upd_ne by exact N2. exact Hb.
  - rewrite N3, upd_eq. unfold word_at. rewrite Hs.
    replace (t + 1 + 1) with (t + 2) by lia. apply (copied_load m0 delta done t); [exact Hc|].
    intros x. now apply safe.
  - rewrite D_S. unfold OPSIZ in *. lia.
  - replace (t + 1 + 2) with (t + 2 + 1) by lia. rewrite A_S. unfold OPSIZ in *. lia.
Qed.

Lemma dest_goto k d s len a fuel : (0 < k <= 4)%nat -> 0 < len -> len mod 4 = 0 ->
  len <= Z.of_nat fuel -> Z.of_nat k + len - 4 + 1 = L ->
  a ((idx k + 2) mod 4) = load_op m0 (A 0) -> a ((idx k + 2 + dir) mod 4) = load_op m0 (A 1) ->
  d + OPSIZ * idx k = D 0 -> s + OPSIZ * idx k = A 2 ->
  exists m', (let? (dstp, (m, a)) := copy_loop 4 dir stmt fuel k d s len (m0, a) in
              Some (set_word m dstp (idx 4%nat)
                (merge2 (a ((idx 4%nat + 2) mod 4)) (a ((idx 4%nat + 2 + dir) mod 4))))) = Some m' /\ cp L m'.
Proof using Hm0 HL done_0 done_S D_S idx_S Hstmt safe Hidx A_S Hdir Hval Hidx_range.
  intros Hk Hl Hm Hf HL' Ha Hb Hd Hs.
  destruct (copy_loop_inv L 4 dir stmt DInv) with (fuel := fuel) (k := k) (d := d) (s := s) (len := len)
    (t := 0) (st := (m0, a)) as (d' & s' & [m' a'] & -> & (Ic & Ia & Ib & Id & Is)).
  - intros. apply dest_step; auto; lia.
  - intros d1 s1 t1 st1 (H1 & H2 & H3 & H4 & H5).
    assert (E4 : forall j, (idx 4%nat + j) mod 4 = (idx 0%nat + j) mod 4).
    { intros j. rewrite <- Hidx. replace (idx 4%nat + 4 * dir + j) with (idx 4%nat + j + dir * 4) by lia.
      now rewrite Z.mod_add by lia. }
    split; [exact H1|]. rewrite E4, <- Z.add_assoc, E4, Z.add_assoc.
    split; [exact H2|]. split; [exact H3|]. unfold OPSIZ in *. change (Z.of_nat 4) with 4. split; lia.
  - exact Hk.
  - lia.
  - exact Hl.
  - exact Hm.
  - exact Hf.
  - lia.
  - split; [now apply copied_0|]. cbn [snd]. auto.
  - cbn [fst snd] in *. rewrite Ia, Ib, Hval by lia. eexists. split; [reflexivity|].
    replace L with (L - 1 + 1) at 1 by lia. apply final_store; auto; lia.
Qed.
End DestAligned.
End Stmts.

(** ** The four routines *)

(** The memory after [n] bytes have been moved from [src] to [dst]. *)
Definition moved (m : mem) (dst src n : Z) (m' : mem) : Prop :=
  forall x, m' x = if (dst <=? x) && (x <? dst + n) then m (src + (x - dst)) else m x.

Lemma load_at m a b : a = b -> load_op m a = load_op m b.
Proof. now intros ->. Qed.

Ltac bool_cmp := repeat case_cmp; cbn [andb orb]; try reflexivity; try lia.

Lemma mod_fix x c n : (x mod n + c) mod n = 0 -> (x + c) mod n = 0.
Proof. intros H. rewrite <- H. symmetry. apply Zplus_mod_idemp_l. Qed.

(** The number of words left is a multiple of the unrolling. *)
Ltac solve_mod E :=
  match goal with
  | |- (?x - ?c) mod _ = 0 => apply (mod_fix x (- c)); rewrite E; reflexivity
  | |- (?x + _) mod _ = 0 => apply mod_fix; rewrite E; reflexivity
  | |- _ => exact E
  end.

Ltac mod_cases x n :=
  pose proof (Z.mod_pos_bound x n ltac:(lia)); pose proof (Z_div_mod_eq_full x n);
  match eval cbv in n with
  | 8 => assert (x mod n = 0 \/ x mod n = 1 \/ x mod n = 2 \/ x mod n = 3 \/ x mod n = 4 \/
               x mod n = 5 \/ x mod n = 6 \/ x mod n = 7) as Hcases by lia
  | 4 => assert (x mod n = 0 \/ x mod n = 1 \/ x mod n = 2 \/ x mod n = 3) as Hcases by lia
  end.

Section Forward.
Context (m : mem) (Hm : forall x, byte (m x)) (dst src len : Z) (Hlen : 0 <= len).
Let D t := dst + 8 * t.
Let done t x := (dst <=? x) && (x <? dst + 8 * t).

Lemma fwd_done_0 x : done 0 x = false.
Proof using Type. unfold done. bool_cmp. Qed.

Lemma fwd_done_S t x : 0 <= t -> done (t + 1) x = done t x || ((D t <=? x) && (x <? D t + 8)).
Proof using Type. intros Ht. unfold done, D. bool_cmp. Qed.

Lemma fwd_D_S t : D (t + 1) = D t + 8 * 1.
Proof using Type. unfold D. lia. Qed.

Lemma fwd_moved m' : copied m (src - dst) done len m' -> moved m dst src (8 * len) m'.
Proof using Type.
  intros H x. rewrite H. unfold done. destruct (_ && _); [|reflexivity]. f_equal. lia.
Qed.

Context (Hsafe : dst < src \/ src + 8 * len <= dst).

Lemma fwd_safe t x : 0 <= t -> t + 1 < len ->
  D (t + 1) + (src - dst) <= x < D (t + 1) + (src - dst) + 8 -> done t x = false.
Proof using Hsafe. unfold D, done. intros. bool_cmp. Qed.

Lemma fwd_idx_S n k : n - Z.of_nat k = n - Z.of_nat (S k) + 1.
Proof using Type. lia. Qed.

Lemma wordcopy_fwd_aligned_spec :
  exists m', wordcopy_fwd_aligned m dst src len = Some m' /\ moved m dst src (8 * len) m'.
Proof using Hm Hlen Hsafe.
  destruct (Z.eq_dec len 0) as [->|Hnz].
  { exists m. split; [reflexivity|]. intros x. bool_cmp. }
  enough (exists m', wordcopy_fwd_aligned m dst src len = Some m' /\ copied m (src - dst) done len m')
    as (m' & E & H) by (exists m'; auto using fwd_moved).
  assert (HL : 0 < len) by lia. unfold wordcopy_fwd_aligned. mod_cases len 8.
  pose proof (aligned_goto m Hm (src - dst) len 1 HL D done fwd_done_0 fwd_done_S fwd_D_S
    (fun k => 8 - Z.of_nat k) (fwd_idx_S 8) fwd_aligned_stmt (fun _ _ _ _ _ => eq_refl) eq_refl fwd_safe) as G.
  change (OP_T_THRES <=? 3 * OPSIZ) with true.
  destruct Hcases as [E|[E|[E|[E|[E|[E|[E|E]]]]]]]; rewrite E; cbv beta iota zeta delta [andb].
  1: destruct (Z.eqb_spec len 0); [lia|].
  2: destruct (Z.eqb_spec (len - 1) 0) as [E1|E1].
  2:{ assert (len = 1) as Hl by lia. eexists. split; [reflexivity|].
      replace (upd no_regs 1 (word_at m src 0) 1) with (load_op m (D 0 + (src - dst)))
        by (unfold word_at, OPSIZ, D; apply load_at; lia).
      rewrite Hl. apply (final_store m Hm (src - dst) D done fwd_done_S 0); [lia | | unfold OPSIZ, D; lia].
      apply copied_0. exact fwd_done_0. }
  all: apply G; unfold OPSIZ, D; cbn beta; [lia | lia | solve_mod E | lia | lia | apply load_at; lia | lia | lia].
Qed.
Context (Hdst : dst mod 8 = 0) (Hsrc : src mod 8 <> 0).
Let A t := src - src mod 8 + 8 * t.

Lemma fwd_A_S t : A (t + 1) = A t + 8 * 1.
Proof using Type. unfold A. lia. Qed.

Lemma fwd_val t : 0 <= t < len ->
  MERGE (load_op m (A t)) (8 * (src mod OPSIZ)) (load_op m (A (t + 1))) (8 * OPSIZ - 8 * (src mod OPSIZ))
  = load_op m (D t + (src - dst)).
Proof using Hm Hsrc.
  intros Ht. change OPSIZ with 8 at 1 3.
  assert (E : (src + 8 * t) mod 8 = src mod 8) by (rewrite (Z.mul_comm 8), Z.mod_add; lia).
  rewrite <- E. rewrite (load_at m (D t + (src - dst)) (src + 8 * t)) by (unfold D; lia).
  rewrite <- (MERGE_load m (src + 8 * t) Hm) by congruence. unfold A. rewrite <- E.
  f_equal; apply load_at; lia.
Qed.

Lemma fwd_dest_safe t x : 0 <= t -> t + 1 < len -> A (t + 2) <= x < A (t + 2) + 8 -> done t x = false.
Proof using Hsafe Hdst Hsrc.
  unfold A, done. intros. pose proof (Z.mod_pos_bound src 8 ltac:(lia)).
  pose proof (Z_div_mod_eq_full src 8). pose proof (Z_div_mod_eq_full dst 8). bool_cmp.
Qed.

Lemma fwd_dest_stmt_eq sh_1 sh_2 d s k m1 a :
  fwd_dest_aligned_stmt sh_1 sh_2 d s k (m1, a) =
  let i := 4 - Z.of_nat k in
  let a := upd a i (word_at m1 s i) in
  (set_word m1 d i (MERGE (a ((i + 2) mod 4)) sh_1 (a ((i + 2 + 1) mod 4)) sh_2), a).
Proof using Type.
  unfold fwd_dest_aligned_stmt. cbn zeta.
  now replace (4 - Z.of_nat k + 2 + 1) with (4 - Z.of_nat k + 3) by lia.
Qed.

Lemma wordcopy_fwd_dest_aligned_spec :
  exists m', wordcopy_fwd_dest_aligned m dst src len = Some m' /\ moved m dst src (8 * len) m'.
Proof using Hm Hlen Hsafe Hdst Hsrc.
  destruct (Z.eq_dec len 0) as [->|Hnz].
  { exists m. split; [reflexivity|]. intros x. bool_cmp. }
  enough (exists m', wordcopy_fwd_dest_aligned m dst src len = Some m' /\ copied m (src - dst) done len m')
    as (m' & E & H) by (exists m'; auto using fwd_moved).
  assert (HL : 0 < len) by lia. unfold wordcopy_fwd_dest_aligned. mod_cases len 4.
  pose proof (dest_goto m Hm (src - dst) len 1 HL D done fwd_done_0 fwd_done_S fwd_D_S
    (fun k => 4 - Z.of_nat k) (fwd_idx_S 4) A fwd_A_S ltac:(lia)
    (fun x y => MERGE x (8 * (src mod OPSIZ)) y (8 * OPSIZ - 8 * (src mod OPSIZ))) fwd_val
    (fwd_dest_aligned_stmt (8 * (src mod OPSIZ)) (8 * OPSIZ - 8 * (src mod OPSIZ)))) as G.
  specialize (G (fwd_dest_stmt_eq _ _) eq_refl ltac:(intros; lia) fwd_dest_safe).
  change (Z.land src (- OPSIZ)) with (ALIGN_DOWN src OPSIZ). rewrite ALIGN_DOWN_8.
  change (OP_T_THRES <=? 3 * OPSIZ) with true.
  destruct Hcases as [E|[E|[E|E]]]; rewrite E; cbv beta iota zeta delta [andb].
  1: destruct (Z.eqb_spec len 0); [lia|].
  2: destruct (Z.eqb_spec (len - 1) 0) as [E1|E1].
  2:{ assert (len = 1) as Hl by lia. eexists. split; [reflexivity|]. rewrite upd_ne, !upd_eq by lia.
      unfold word_at. rewrite (load_at m _ (A 0)), (load_at m (_ + OPSIZ * 1) (A (0 + 1))), fwd_val
        by (unfold OPSIZ, A; lia).
      rewrite Hl. apply (final_store m Hm (src - dst) D done fwd_done_S 0); [lia | | unfold OPSIZ, D; lia].
      apply copied_0. exact fwd_done_0. }
  all: apply G; unfold OPSIZ, D; cbn beta; [lia | lia | solve_mod E | lia | lia | | | lia | unfold A; lia].
  all: apply load_at; unfold A, OPSIZ; lia.
Qed.
End Forward.

Section Backward.
Context (m : mem) (Hm : forall x, byte (m x)) (dst src len : Z) (Hlen : 0 <= len).
Let D t := dst - 8 * (t + 1).
Let done t x := (dst - 8 * t <=? x) && (x <? dst).

Lemma bwd_done_0 x : done 0 x = false.
Proof using Type. unfold done. bool_cmp. Qed.

Lemma bwd_done_S t x : 0 <= t -> done (t + 1) x = done t x || ((D t <=? x) && (x <? D t + 8)).
Proof using Type. intros Ht. unfold done, D. bool_cmp. Qed.

Lemma bwd_D_S t : D (t + 1) = D t + 8 * -1.
Proof using Type. unfold D. lia. Qed.

Lemma bwd_moved m' : copied m (src - dst) done len m' ->
  moved m (dst - 8 * len) (src - 8 * len) (8 * len) m'.
Proof using Type.
  intros H x. rewrite H. unfold done. replace (dst - 8 * len + 8 * len) with dst by lia.
  destruct (_ && _); [|reflexivity]. f_equal. lia.
Qed.

Context (Hsafe : src <= dst).

Lemma bwd_safe t x : 0 <= t -> t + 1 < len ->
  D (t + 1) + (src - dst) <= x < D (t + 1) + (src - dst) + 8 -> done t x = false.
Proof using Hsafe. unfold D, done. intros. bool_cmp. Qed.

Lemma bwd_idx_S k : Z.of_nat k - 1 = Z.of_nat (S k) - 1 + -1.
Proof using Type. lia. Qed.

Lemma wordcopy_bwd_aligned_spec :
  exists m', wordcopy_bwd_aligned m dst src len = Some m' /\
    moved m (dst - 8 * len) (src - 8 * len) (8 * len) m'.
Proof using Hm Hlen Hsafe.
  destruct (Z.eq_dec len 0) as [->|Hnz].
  { exists m. split; [reflexivity|]. intros x. bool_cmp. }
  enough (exists m', wordcopy_bwd_aligned m dst src len = Some m' /\ copied m (src - dst) done len m')
    as (m' & E & H) by (exists m'; auto using bwd_moved).
  assert (HL : 0 < len) by lia. unfold wordcopy_bwd_aligned. mod_cases len 8.
  pose proof (aligned_goto m Hm (src - dst) len (-1) HL D done bwd_done_0 bwd_done_S bwd_D_S
    (fun k => Z.of_nat k - 1) bwd_idx_S bwd_aligned_stmt (fun _ _ _ _ _ => eq_refl) eq_refl bwd_safe) as G.
  change (OP_T_THRES <=? 3 * OPSIZ) with true.
  destruct Hcases as [E|[E|[E|[E|[E|[E|[E|E]]]]]]]; rewrite E; cbv beta iota zeta delta [andb].
  1: destruct (Z.eqb_spec len 0); [lia|].
  2: destruct (Z.eqb_spec (len - 1) 0) as [E1|E1].
  2:{ assert (len = 1) as Hl by lia. eexists. split; [reflexivity|]. rewrite upd_eq. unfold word_at.
      rewrite (load_at m _ (D 0 + (src - dst))) by (unfold OPSIZ, D; lia).
      rewrite Hl. apply (final_store m Hm (src - dst) D done bwd_done_S 0); [lia | | unfold OPSIZ, D; lia].
      apply copied_0. exact bwd_done_0. }
  all: apply G; unfold OPSIZ, D; cbn beta; [lia | lia | solve_mod E | lia | lia | | lia | lia].
  all: apply load_at; unfold OPSIZ; lia.
Qed.

Context (Hsrc : src mod 8 <> 0).
Let A t := src - src mod 8 - 8 * t.

Lemma bwd_A_S t : A (t + 1) = A t + 8 * -1.
Proof using Type. unfold A. lia. Qed.

Lemma bwd_val t : 0 <= t < len ->
  MERGE (load_op m (A (t + 1))) (8 * (src mod OPSIZ)) (load_op m (A t)) (8 * OPSIZ - 8 * (src mod OPSIZ))
  = load_op m (D t + (src - dst)).
Proof using Hm Hsrc.
  intros Ht. change OPSIZ with 8 at 1 3.
  assert (E : (src - 8 * (t + 1)) mod 8 = src mod 8).
  { replace (src - 8 * (t + 1)) with (src + - (t + 1) * 8) by lia. rewrite Z.mod_add; lia. }
  rewrite <- E. rewrite (load_at m (D t + (src - dst)) (src - 8 * (t + 1))) by (unfold D; lia).
  rewrite <- (MERGE_load m (src - 8 * (t + 1)) Hm) by congruence. unfold A. rewrite <- E.
  f_equal; apply load_at; lia.
Qed.

Lemma bwd_dest_safe t x : 0 <= t -> t + 1 < len -> A (t + 2) <= x < A (t + 2) + 8 -> done t x = false.
Proof using Hsafe Hsrc.
  unfold A, done. intros. pose proof (Z.mod_pos_bound src 8 ltac:(lia)). bool_cmp.
Qed.

Lemma bwd_dest_stmt_eq sh_1 sh_2 d s k m1 a :
  bwd_dest_aligned_stmt sh_1 sh_2 d s k (m1, a) =
  let i := Z.of_nat k - 1 in
  let a := upd a i (word_at m1 s i) in
  (set_word m1 d i (MERGE (a ((i + 2 + -1) mod 4)) sh_1 (a ((i + 2) mod 4)) sh_2), a).
Proof using Type.
  unfold bwd_dest_aligned_stmt. cbn zeta.
  now replace (Z.of_nat k - 1 + 2 + -1) with (Z.of_nat k - 1 + 1) by lia.
Qed.

Lemma wordcopy_bwd_dest_aligned_spec :
  exists m', wordcopy_bwd_dest_aligned m dst src len = Some m' /\
    moved m (dst - 8 * len) (src - 8 * len) (8 * len) m'.
Proof using Hm Hlen Hsafe Hsrc.
  destruct (Z.eq_dec len 0) as [->|Hnz].
  { exists m. split; [reflexivity|]. intros x. bool_cmp. }
  enough (exists m', wordcopy_bwd_dest_aligned m dst src len = Some m' /\ copied m (src - dst) done len m')
    as (m' & E & H) by (exists m'; auto using bwd_moved).
  assert (HL : 0 < len) by lia. unfold wordcopy_bwd_dest_aligned. mod_cases len 4.
  pose proof (dest_goto m Hm (src - dst) len (-1) HL D done bwd_done_0 bwd_done_S bwd_D_S
    (fun k => Z.of_nat k - 1) bwd_idx_S A bwd_A_S ltac:(lia)
    (fun x y => MERGE y (8 * (src mod OPSIZ)) x (8 * OPSIZ - 8 * (src mod OPSIZ))) bwd_val
    (bwd_dest_aligned_stmt (8 * (src mod OPSIZ)) (8 * OPSIZ - 8 * (src mod OPSIZ)))) as G.
  specialize (G (bwd_dest_stmt_eq _ _) eq_refl ltac:(intros; lia) bwd_dest_safe).
  change (Z.land src (- OPSIZ)) with (ALIGN_DOWN src OPSIZ). rewrite ALIGN_DOWN_8.
  change (OP_T_THRES <=? 3 * OPSIZ) with true.
  destruct Hcases as [E|[E|[E|E]]]; rewrite E; cbv beta iota zeta delta [andb].
  1: destruct (Z.eqb_spec len 0); [lia|].
  2: destruct (Z.eqb_spec (len - 1) 0) as [E1|E1].
  2:{ assert (len = 1) as Hl by lia. eexists. split; [reflexivity|].
      rewrite upd_eq, upd_ne, upd_eq by lia. unfold word_at.
      rewrite (load_at m _ (A (0 + 1))), (load_at m (_ + OPSIZ * 5) (A 0)), bwd_val
        by (unfold OPSIZ, A; lia).
      rewrite Hl. apply (final_store m Hm (src - dst) D done bwd_done_S 0); [lia | | unfold OPSIZ, D; lia].
      apply copied_0. exact bwd_done_0. }
  all: apply G; unfold OPSIZ, D; cbn beta; [lia | lia | solve_mod E | lia | lia | | | lia | unfold A; lia].
  all: apply load_at; unfold A, OPSIZ; lia.
Qed.
End Backward.

(** ** memcpy and memmove *)

Lemma moved_byte m dst src n m' : (forall x, byte (m x)) -> moved m dst src n m' -> forall x, byte (m' x).
Proof. intros Hm H x. rewrite H. destruct (_ && _); apply Hm. Qed.

Lemma moved_app_fwd m dst src a b m1 m2 : 0 <= a -> 0 <= b -> dst < src \/ src + a + b <= dst ->
  moved m dst src a m1 -> moved m1 (dst + a) (src + a) b m2 -> moved m dst src (a + b) m2.
Proof.
  intros Ha Hb Hs H1 H2 x. rewrite H2. destruct (Z.leb_spec (dst + a) x), (Z.ltb_spec x (dst + a + b)); cbn [andb];
    rewrite H1; bool_cmp; f_equal; lia.
Qed.

Lemma moved_app_bwd m dst src a b m1 m2 : 0 <= a -> 0 <= b -> src <= dst ->
  moved m (dst + b) (src + b) a m1 -> moved m1 dst src b m2 -> moved m dst src (b + a) m2.
Proof.
  intros Ha Hb Hs H1 H2 x. rewrite H2. destruct (Z.leb_spec dst x), (Z.ltb_spec x (dst + b)); cbn [andb];
    rewrite H1; bool_cmp; f_equal; lia.
Qed.

Lemma byte_copy_fwd_spec n : forall m dst src, dst < src \/ src + Z.of_nat n <= dst ->
  moved m dst src (Z.of_nat n) (BYTE_COPY_FWD n m dst src).
Proof.
  induction n as [|n IH]; intros m dst src Hs; cbn [BYTE_COPY_FWD]; [intros x; bool_cmp|].
  replace (Z.of_nat (S n)) with (1 + Z.of_nat n) by lia.
  apply moved_app_fwd with (m1 := upd m dst (m src)); try lia; [|apply IH; lia].
  intros x. unfold upd. bool_cmp. f_equal. lia.
Qed.

Lemma byte_copy_bwd_spec n : forall m dst src, src <= dst ->
  moved m (dst - Z.of_nat n) (src - Z.of_nat n) (Z.of_nat n) (BYTE_COPY_BWD n m dst src).
Proof.
  induction n as [|n IH]; intros m dst src Hs; cbn [BYTE_COPY_BWD]; [intros x; bool_cmp|].
  replace (Z.of_nat (S n)) with (Z.of_nat n + 1) by lia.
  apply moved_app_bwd with (m1 := upd m (dst - 1) (m (src - 1))); try lia.
  - intros x. unfold upd. bool_cmp. f_equal. lia.
  - replace (dst - (Z.of_nat n + 1)) with (dst - 1 - Z.of_nat n) by lia.
    replace (src - (Z.of_nat n + 1)) with (src - 1 - Z.of_nat n) by lia. apply IH. lia.
Qed.

Lemma word_bytes n : Z.land n (- OPSIZ) = 8 * (n / 8).
Proof.
  change (Z.land n (- OPSIZ)) with (ALIGN_DOWN n OPSIZ). rewrite ALIGN_DOWN_8.
  pose proof (Z_div_mod_eq_full n 8). lia.
Qed.

Section Moves.
Context (m : mem) (Hm : forall x, byte (m x)).

Lemma WORD_COPY_FWD_spec dst src n : 0 <= n -> dst mod 8 = 0 -> dst < src \/ src + n <= dst ->
  exists m', WORD_COPY_FWD m dst src n = Some (m', dst + 8 * (n / 8), src + 8 * (n / 8), n mod 8) /\
    moved m dst src (8 * (n / 8)) m'.
Proof using Hm.
  intros Hn Hd Hs. unfold WORD_COPY_FWD. rewrite word_bytes. change OPSIZ with 8.
  assert (H8 : 0 <= n / 8) by (apply Z.div_pos; lia).
  assert (Hs' : dst < src \/ src + 8 * (n / 8) <= dst).
  { pose proof (Z_div_mod_eq_full n 8). pose proof (Z.mod_pos_bound n 8 ltac:(lia)). lia. }
  destruct (Z.eqb_spec (src mod 8) 0) as [E|E].
  - destruct (wordcopy_fwd_aligned_spec m Hm dst src (n / 8) H8 Hs') as (m' & -> & H). exists m'. auto.
  - destruct (wordcopy_fwd_dest_aligned_spec m Hm dst src (n / 8) H8 Hs' Hd E) as (m' & -> & H). exists m'. auto.
Qed.

Lemma WORD_COPY_BWD_spec dst src n : 0 <= n -> src <= dst ->
  exists m', WORD_COPY_BWD m dst src n = Some (m', dst - 8 * (n / 8), src - 8 * (n / 8), n mod 8) /\
    moved m (dst - 8 * (n / 8)) (src - 8 * (n / 8)) (8 * (n / 8)) m'.
Proof using Hm.
  intros Hn Hs. unfold WORD_COPY_BWD. rewrite word_bytes. change OPSIZ with 8.
  assert (H8 : 0 <= n / 8) by (apply Z.div_pos; lia).
  destruct (Z.eqb_spec (src mod 8) 0) as [E|E].
  - destruct (wordcopy_bwd_aligned_spec m Hm dst src (n / 8) H8 Hs) as (m' & -> & H). exists m'. auto.
  - destruct (wordcopy_bwd_dest_aligned_spec m Hm dst src (n / 8) H8 Hs E) as (m' & -> & H). exists m'. auto.
Qed.
End Moves.

Section Whole.
Context (m : mem) (Hm : forall x, byte (m x)) (dst src len : Z) (Hlen : 0 <= len).

Lemma memcpy_spec : dst < src \/ src + len <= dst ->
  exists m', memcpy m dst src len = Some m' /\ moved m dst src len m'.
Proof using Hm Hlen.
  intros Hs. unfold memcpy, OP_T_THRES. destruct (Z.leb_spec 16 len) as [L|L].
  2:{ eexists. split; [reflexivity|]. rewrite <- (Z2Nat.id len) at 1 by lia. apply byte_copy_fwd_spec. lia. }
  change OPSIZ with 8. pose proof (Z.mod_pos_bound (- dst) 8 ltac:(lia)) as Hk. set (k := (- dst) mod 8) in *.
  assert (Hd : (dst + k) mod 8 = 0).
  { unfold k. rewrite Zplus_mod_idemp_r. replace (dst + - dst) with 0 by lia. reflexivity. }
  pose proof (byte_copy_fwd_spec (Z.to_nat k) m dst src ltac:(lia)) as B1. rewrite Z2Nat.id in B1 by lia.
  set (m1 := BYTE_COPY_FWD (Z.to_nat k) m dst src) in *.
  destruct (WORD_COPY_FWD_spec m1 (moved_byte _ _ _ _ _ Hm B1) (dst + k) (src + k) (len - k)) as (m2 & -> & B2);
    [lia | exact Hd | lia |].
  eexists. split; [reflexivity|]. pose proof (Z_div_mod_eq_full (len - k) 8).
  pose proof (Z.mod_pos_bound (len - k) 8 ltac:(lia)).
  replace len with (k + (8 * ((len - k) / 8) + (len - k) mod 8)) at 1 by lia.
  apply moved_app_fwd with (m1 := m1); try lia; [exact B1|].
  apply moved_app_fwd with (m1 := m2); try lia; [exact B2|].
  rewrite <- (Z2Nat.id ((len - k) mod 8)) at 1 by lia. apply byte_copy_fwd_spec. lia.
Qed.

Lemma memmove_bwd_spec : src <= dst < src + len -> 0 <= src -> dst < 2 ^ 64 ->
  exists m', memmove m dst src len = Some m' /\ moved m dst src len m'.
Proof using Hm Hlen.
  intros Hs H0 H64. unfold memmove, OP_T_THRES, wrap. rewrite Z.mod_small by lia.
  destruct (Z.leb_spec len (dst - src)) as [|_]; [lia|].
  destruct (Z.leb_spec 16 len) as [L|L].
  2:{ eexists. split; [reflexivity|].
      pose proof (byte_copy_bwd_spec (Z.to_nat len) m (dst + len) (src + len) ltac:(lia)) as B.
      rewrite Z2Nat.id in B by lia. replace (dst + len - len) with dst in B by lia.
      now replace (src + len - len) with src in B by lia. }
  change OPSIZ with 8. pose proof (Z.mod_pos_bound (dst + len) 8 ltac:(lia)) as Hk.
  set (k := (dst + len) mod 8) in *.
  pose proof (byte_copy_bwd_spec (Z.to_nat k) m (dst + len) (src + len) ltac:(lia)) as B1.
  rewrite Z2Nat.id in B1 by lia. set (m1 := BYTE_COPY_BWD (Z.to_nat k) m (dst + len) (src + len)) in *.
  destruct (WORD_COPY_BWD_spec m1 (moved_byte _ _ _ _ _ Hm B1) (dst + len - k) (src + len - k) (len - k))
    as (m2 & -> & B2); [lia | lia |].
  eexists. split; [reflexivity|]. pose proof (Z_div_mod_eq_full (len - k) 8).
  pose proof (Z.mod_pos_bound (len - k) 8 ltac:(lia)). set (w := (len - k) / 8) in *. set (r := (len - k) mod 8) in *.
  replace len with (r + (8 * w + k)) at 1 by lia.
  apply moved_app_bwd with (m1 := m2); try lia.
  - apply moved_app_bwd with (m1 := m1); try lia.
    + replace (dst + r + 8 * w) with (dst + len - k) by lia.
      replace (src + r + 8 * w) with (src + len - k) by lia. exact B1.
    + replace (dst + r) with (dst + len - k - 8 * w) by lia.
      replace (src + r) with (src + len - k - 8 * w) by lia. exact B2.
  - pose proof (byte_copy_bwd_spec (Z.to_nat r) m2 (dst + len - k - 8 * w) (src + len - k - 8 * w) ltac:(lia)) as B3.
    rewrite Z2Nat.id in B3 by lia. replace (dst + len - k - 8 * w - r) with dst in B3 by lia.
    now replace (src + len - k - 8 * w - r) with src in B3 by lia.
Qed.

Lemma memmove_spec : 0 <= dst -> dst + len <= 2 ^ 64 -> 0 <= src -> src + len <= 2 ^ 64 ->
  exists m', memmove m dst src len = Some m' /\ moved m dst src len m'.
Proof using Hm Hlen.
  intros Hd Hd' Hs Hs'. destruct (Z.eq_dec len 0) as [->|Hnz].
  { exists m. split; [|intros x; bool_cmp]. unfold memmove.
    destruct (Z.leb_spec 0 (wrap 64 (dst - src))) as [_|N]; [reflexivity|].
    pose proof (wrap_range 64 (dst - src) ltac:(lia)). lia. }
  destruct (Z.leb_spec len (wrap 64 (dst - src))) as [L|L].
  - assert (Hf : dst < src \/ src + len <= dst).
    { destruct (Z.lt_ge_cases dst src); [now left|]. right. rewrite wrap_small in L by lia. lia. }
    destruct (memcpy_spec Hf) as (m' & E & H). exists m'. split; [|exact H].
    unfold memmove. destruct (Z.leb_spec len (wrap 64 (dst - src))); [exact E | lia].
  - apply memmove_bwd_spec; try lia. unfold wrap in L. destruct (Z.lt_ge_cases dst src) as [N|N].
    + rewrite <- (Z.mod_add _ 1), Z.mod_small in L by lia. lia.
    + rewrite Z.mod_small in L by lia. lia.
Qed.
End Whole.

(** ** memset *)

Definition filled (m : mem) (p n b : Z) (m' : mem) : Prop :=
  forall x, m' x = if (p <=? x) && (x <? p + n) then b else m x.

Lemma filled_app m p a c b m1 m2 : 0 <= a -> 0 <= c -> filled m p a b m1 -> filled m1 (p + a) c b m2 ->
  filled m p (a + c) b m2.
Proof. intros Ha Hc H1 H2 x. rewrite H2, H1. bool_cmp. Qed.

Lemma filled_0 m p b : filled m p 0 b m.
Proof. intros x. bool_cmp. Qed.

Lemma filled_upd m p b : filled m p 1 b (upd m p b).
Proof. intros x. unfold upd. bool_cmp. Qed.

Lemma memset_pattern_eq c : memset_pattern c = repeat_bytes (wrap 8 c).
Proof.
  pose proof (wrap8_byte c) as H. unfold memset_pattern.
  set (b := wrap 8 c) in *. clearbody b.
  apply (byte_forall (fun b => (let cccc := b in
    let cccc := Z.lor cccc (wrap 64 (Z.shiftl cccc 8)) in
    let cccc := Z.lor cccc (wrap 64 (Z.shiftl cccc 16)) in
    if 4 <? OPSIZ then Z.lor cccc (wrap 64 (Z.shiftl (wrap 64 (Z.shiftl cccc 16)) 16)) else cccc)
    =? repeat_bytes b)) in H; [|vm_compute; reflexivity]. now apply Z.eqb_eq.
Qed.

Lemma filled_word m p i c : byte c -> filled m (p + OPSIZ * i) 8 c (set_word m p i (repeat_bytes c)).
Proof.
  intros Hc x. unfold set_word, store_op. rewrite repeat_bytes_W by exact Hc.
  destruct (store_load 8 (fun _ => c) m (p + OPSIZ * i) 0) as [F E]; [intros y _; exact Hc|].
  destruct (Z.leb_spec (p + OPSIZ * i) x), (Z.ltb_spec x (p + OPSIZ * i + 8)); cbn [andb];
    try (apply F; lia).
  specialize (E (x - (p + OPSIZ * i)) ltac:(lia)).
  now replace (p + OPSIZ * i + (x - (p + OPSIZ * i))) with x in E by lia.
Qed.

Lemma filled_snoc m p i c m1 : byte c -> 0 <= i -> filled m p (8 * i) c m1 ->
  filled m p (8 * (i + 1)) c (set_word m1 p i (repeat_bytes c)).
Proof.
  intros Hc Hi H. replace (8 * (i + 1)) with (8 * i + 8) by lia.
  apply filled_app with (m1 := m1); try lia; [exact H | now apply filled_word].
Qed.

Lemma memset_align_spec c fuel : forall m p len, (- p) mod 8 < Z.of_nat fuel ->
  exists m', memset_align fuel m c p len = Some (m', p + (- p) mod 8, len - (- p) mod 8) /\
    filled m p ((- p) mod 8) (wrap 8 c) m'.
Proof.
  induction fuel as [|fuel IH]; intros m p len Hf; pose proof (Z.mod_pos_bound (- p) 8 ltac:(lia)); [lia|].
  cbn [memset_align]. unfold OPSIZ at 1. destruct (Z.eqb_spec (p mod 8) 0) as [E|E].
  - rewrite Z.mod_opp_l_z by lia. exists m. split; [do 2 f_equal; [f_equal|]; lia | apply filled_0].
  - assert (H1 : 1 <= (- p) mod 8).
    { rewrite Z.mod_opp_l_nz by lia. pose proof (Z.mod_pos_bound p 8 ltac:(lia)). lia. }
    assert (E1 : (- (p + 1)) mod 8 = (- p) mod 8 - 1).
    { symmetry. apply (Z.mod_unique _ _ (- p / 8)); [lia|]. pose proof (Z_div_mod_eq_full (- p) 8). lia. }
    destruct (IH (upd m p (wrap 8 c)) (p + 1) (len - 1)) as (m' & -> & H'); [lia|]. rewrite E1 in *.
    exists m'. split; [do 2 f_equal; [f_equal|]; lia|].
    replace ((- p) mod 8) with (1 + ((- p) mod 8 - 1)) by lia.
    apply filled_app with (m1 := upd m p (wrap 8 c)); try lia; [apply filled_upd | exact H'].
Qed.

Lemma memset_words8_spec c n : byte c -> forall m p,
  exists m', memset_words8 n m (repeat_bytes c) p = (m', p + 64 * Z.of_nat n) /\
    filled m p (64 * Z.of_nat n) c m'.
Proof.
  intros Hc. induction n as [|n IH]; intros m p; cbn [memset_words8].
  { exists m. split; [f_equal; lia | apply filled_0]. }
  set (b := repeat_bytes c).
  set (m8 := set_word (set_word (set_word (set_word (set_word (set_word (set_word (set_word m p 0 b)
    p 1 b) p 2 b) p 3 b) p 4 b) p 5 b) p 6 b) p 7 b).
  assert (H8 : filled m p 64 c m8).
  { apply (filled_snoc m p 7), (filled_snoc m p 6), (filled_snoc m p 5), (filled_snoc m p 4),
      (filled_snoc m p 3), (filled_snoc m p 2), (filled_snoc m p 1), (filled_snoc m p 0);
      (exact Hc || lia || idtac). apply filled_0. }
  destruct (IH m8 (p + 8 * OPSIZ)) as (m' & E & H). exists m'. fold b in E |- *.
  cbn zeta. fold m8. rewrite E. split; [f_equal; unfold OPSIZ; lia|].
  replace (64 * Z.of_nat (S n)) with (64 + 64 * Z.of_nat n) by lia.
  apply filled_app with (m1 := m8); try lia; [exact H8 | exact H].
Qed.

Lemma memset_words_spec c n : byte c -> forall m p,
  exists m', memset_words n m (repeat_bytes c) p = (m', p + 8 * Z.of_nat n) /\
    filled m p (8 * Z.of_nat n) c m'.
Proof.
  intros Hc. induction n as [|n IH]; intros m p; cbn [memset_words].
  { exists m. split; [f_equal; lia | apply filled_0]. }
  destruct (IH (set_word m p 0 (repeat_bytes c)) (p + OPSIZ)) as (m' & -> & H). exists m'.
  split; [f_equal; unfold OPSIZ; lia|]. replace (8 * Z.of_nat (S n)) with (8 + 8 * Z.of_nat n) by lia.
  apply filled_app with (m1 := set_word m p 0 (repeat_bytes c)); try lia; [|exact H].
  replace p with (p + OPSIZ * 0) at 1 by lia. now apply filled_word.
Qed.

Lemma memset_bytes_spec c n : forall m p, filled m p (Z.of_nat n) (wrap 8 c) (memset_bytes n m c p).
Proof.
  induction n as [|n IH]; intros m p; cbn [memset_bytes]; [apply filled_0|].
  replace (Z.of_nat (S n)) with (1 + Z.of_nat n) by lia.
  apply filled_app with (m1 := upd m p (wrap 8 c)); try lia; [apply filled_upd | apply IH].
Qed.

Lemma memset_spec m p c len : 0 <= len ->
  exists m', memset m p c len = Some m' /\ filled m p len (wrap 8 c) m'.
Proof.
  intros Hl. unfold memset. destruct (Z.leb_spec 8 len) as [L|L].
  2:{ eexists. split; [reflexivity|]. rewrite <- (Z2Nat.id len) at 1 by lia. apply memset_bytes_spec. }
  pose proof (Z.mod_pos_bound (- p) 8 ltac:(lia)). rewrite memset_pattern_eq.
  destruct (memset_align_spec c 8 m p len) as (m1 & -> & H1); [lia|].
  set (k := (- p) mod 8) in *. set (l1 := len - k). change (OPSIZ * 8) with 64.
  destruct (memset_words8_spec (wrap 8 c) (Z.to_nat (l1 / 64)) (wrap8_byte c) m1 (p + k)) as (m2 & -> & H2).
  change OPSIZ with 8.
  destruct (memset_words_spec (wrap 8 c) (Z.to_nat (l1 mod 64 / 8)) (wrap8_byte c) m2
    (p + k + 64 * Z.of_nat (Z.to_nat (l1 / 64)))) as (m3 & -> & H3).
  eexists. split; [reflexivity|].
  pose proof (Z_div_mod_eq_full l1 64). pose proof (Z.mod_pos_bound l1 64 ltac:(lia)).
  pose proof (Z_div_mod_eq_full (l1 mod 64) 8). pose proof (Z.mod_pos_bound (l1 mod 64) 8 ltac:(lia)).
  assert (0 <= l1 / 64) by (apply Z.div_pos; lia). assert (0 <= l1 mod 64 / 8) by (apply Z.div_pos; lia).
  replace len with (k + (64 * (l1 / 64) + (8 * (l1 mod 64 / 8) + (l1 mod 64) mod 8))) by lia.
  rewrite !Z2Nat.id in * by lia.
  apply filled_app with (m1 := m1); try lia; [exact H1|].
  apply filled_app with (m1 := m2); try lia; [exact H2|].
  apply filled_app with (m1 := m3); try lia; [exact H3|].
  rewrite <- (Z2Nat.id ((l1 mod 64) mod 8)) at 1 by lia. apply memset_bytes_spec.
Qed.

(** * Claims *)

(** C9: for any two ranges of the address space, overlapping in either
    direction or not, and any alignments, memmove leaves in the destination the
    bytes the source held before the call and changes no byte outside the
    destination; every loop of it ends. *)
Theorem memmove_correct m dst src len : (forall x, byte (m x)) -> 0 <= len ->
  0 <= dst -> dst + len <= 2 ^ 64 -> 0 <= src -> src + len <= 2 ^ 64 ->
  exists m', memmove m dst src len = Some m' /\
    (forall i, 0 <= i < len -> m' (dst + i) = m (src + i)) /\
    (forall x, ~ (dst <= x < dst + len) -> m' x = m x).
Proof.
  intros Hm Hl Hd Hd' Hs Hs'. destruct (memmove_spec m Hm dst src len Hl Hd Hd' Hs Hs') as (m' & E & H).
  exists m'. split; [exact E|]. split.
  - intros i Hi. rewrite H. bool_cmp. f_equal. lia.
  - intros x Hx. rewrite H. bool_cmp.
Qed.

(** memcpy copies when the ranges do not overlap (and when the destination
    is below the source), and memset stores the low byte of its argument in
    exactly the bytes of the range; neither changes any other byte. *)
Lemma memcpy_memset_correct m dst src len c : (forall x, byte (m x)) -> 0 <= len ->
  dst < src \/ src + len <= dst ->
  (exists m', memcpy m dst src len = Some m' /\
    (forall i, 0 <= i < len -> m' (dst + i) = m (src + i)) /\
    (forall x, ~ (dst <= x < dst + len) -> m' x = m x)) /\
  (exists m', memset m dst c len = Some m' /\
    (forall i, 0 <= i < len -> m' (dst + i) = c mod 256) /\
    (forall x, ~ (dst <= x < dst + len) -> m' x = m x)).
Proof.
  intros Hm Hl Hs. split.
  - destruct (memcpy_spec m Hm dst src len Hl Hs) as (m' & E & H). exists m'. split; [exact E|]. split.
    + intros i Hi. rewrite H. bool_cmp. f_equal. lia.
    + intros x Hx. rewrite H. bool_cmp.
  - destruct (memset_spec m dst c len Hl) as (m' & E & H). exists m'. split; [exact E|]. split.
    + intros i Hi. rewrite H. bool_cmp.
    + intros x Hx. rewrite H. bool_cmp.
Qed.

(** 40 bytes moved up by three. *)
Lemma memmove_correct_witness :
  exists m', memmove (at_bytes 101 (map Z.of_nat (seq 1 40))) 104 101 40 = Some m' /\
    (forall i, 0 <= i < 40 -> m' (104 + i) = at_bytes 101 (map Z.of_nat (seq 1 40)) (101 + i)) /\
    (forall x, ~ (104 <= x < 104 + 40) -> m' x = at_bytes 101 (map Z.of_nat (seq 1 40)) x).
Proof.
  apply memmove_correct.
  - apply at_bytes_byte. vm_compute. reflexivity.
  - lia.
  - lia.
  - lia.
  - lia.
  - lia.
Defined.

Lemma memcpy_memset_correct_witness :
  exists m', memset (at_bytes 101 (map Z.of_nat (seq 1 40))) 203 511 40 = Some m' /\
    (forall i, 0 <= i < 40 -> m' (203 + i) = 511 mod 256) /\
    (forall x, ~ (203 <= x < 203 + 40) -> m' x = at_bytes 101 (map Z.of_nat (seq 1 40)) x).
Proof.
  apply (memcpy_memset_correct (at_bytes 101 (map Z.of_nat (seq 1 40))) 203 101 40 511).
  - apply at_bytes_byte. vm_compute. reflexivity.
  - lia.
  - lia.
Defined.
