(* ===== verification/StrCmp.v ===== *)
(** * Comparing and copying strings, a word at a time (string/strcmp.c,
      strncmp.c, stpcpy.c, strcpy.c, strcat.c) *)

From Stdlib Require Import ZArith List Lia Bool.
From S2P Require Import Prelude StrWord Str MemCopy.
Import ListNotations.
#[local] Open Scope Z_scope.
#[local] Open Scope glibc_scope.

Definition CHAR_BIT : Z := 8.

(** (op_t) -1 *)
Definition op_ones : Z := wrap 64 (-1).

(** ** strcmp.c *)

Definition final_cmp (w1 w2 : Z) : Z :=
  let idx := index_first_zero_ne w1 w2 in
  extractbyte w1 idx - extractbyte w2 idx.

(** The loop of [strcmp_aligned_loop]. *)
Fixpoint strcmp_aligned_while (fuel : nat) (m : mem) (x1 x2 w1 w2 : Z) : option Z :=
  match fuel with
  | O => None
  | S fuel =>
      if w1 =? w2 then
        if has_zero w1 then Some 0
        else strcmp_aligned_while fuel m (x1 + OPSIZ) (x2 + OPSIZ) (load_op m x1) (load_op m x2)
      else Some (final_cmp w1 w2)
  end.

Definition strcmp_aligned_loop (fuel : nat) (m : mem) (x1 x2 w1 : Z) : option Z :=
  strcmp_aligned_while fuel m x1 (x2 + OPSIZ) w1 (load_op m x2).

(** The loop of [strcmp_unaligned_loop] and what follows it. *)
Fixpoint strcmp_unaligned_while (fuel : nat) (m : mem) (sh_1 sh_2 x1 x2 w1 w2a : Z) : option Z :=
  match fuel with
  | O => None
  | S fuel =>
      let w2b := load_op m x2 in
      let x2 := x2 + OPSIZ in
      let w2 := MERGE w2a sh_1 w2b sh_2 in
      if negb (w1 =? w2) then Some (final_cmp w1 w2)
      else if has_zero w2b then
        if has_zero w1 then Some 0
        else
          let w1 := load_op m x1 in
          let w2 := MERGE w2b sh_1 0 sh_2 in
          Some (final_cmp w1 w2)
      else strcmp_unaligned_while fuel m sh_1 sh_2 (x1 + OPSIZ) x2 (load_op m x1) w2b
  end.

Definition strcmp_unaligned_loop (fuel : nat) (m : mem) (x1 x2 w1 ofs : Z) : option Z :=
  let w2a := load_op m x2 in
  let x2 := x2 + OPSIZ in
  let sh_1 := ofs * CHAR_BIT in
  let sh_2 := OPSIZ * CHAR_BIT - sh_1 in
  let w2 := MERGE w2a sh_1 op_ones sh_2 in
  if negb (has_zero w2) then strcmp_unaligned_while fuel m sh_1 sh_2 x1 x2 w1 w2a
  else Some (final_cmp w1 w2).

(** The first [n] bytes: a difference, or the advanced pointers. *)
Fixpoint cmp_head (n : nat) (m : mem) (p1 p2 : Z) : Z + Z * Z :=
  match n with
  | O => inr (p1, p2)
  | S n =>
      let c1 := m p1 in
      let c2 := m p2 in
      let diff := c1 - c2 in
      if (c1 =? 0) || negb (diff =? 0) then inl diff else cmp_head n m (p1 + 1) (p2 + 1)
  end.

Definition strcmp (fuel : nat) (m : mem) (p1 p2 : Z) : option Z :=
  let n := (- p1) mod OPSIZ in
  match cmp_head (Z.to_nat n) m p1 p2 with
  | inl diff => Some diff
  | inr (p1, p2) =>
      let x1 := p1 in
      let w1 := load_op m x1 in
      let x1 := x1 + OPSIZ in
      let ofs := p2 mod OPSIZ in
      if ofs =? 0 then strcmp_aligned_loop fuel m x1 p2 w1
      else strcmp_unaligned_loop fuel m x1 (p2 - ofs) w1 ofs
  end.

(** ** strncmp.c *)

Definition final_ncmp (w1 w2 n : Z) : Z :=
  let idx := index_first_zero_ne w1 w2 in
  if n <=? idx then 0 else extractbyte w1 idx - extractbyte w2 idx.

Fixpoint strncmp_aligned_while (fuel : nat) (m : mem) (x1 x2 w1 w2 n : Z) : option Z :=
  match fuel with
  | O => None
  | S fuel =>
      if w1 =? w2 then
        if n <=? OPSIZ then Some (final_ncmp w1 w2 n)
        else
          let n := n - OPSIZ in
          if has_zero w1 then Some 0
          else strncmp_aligned_while fuel m (x1 + OPSIZ) (x2 + OPSIZ) (load_op m x1) (load_op m x2) n
      else Some (final_ncmp w1 w2 n)
  end.

Definition strncmp_aligned_loop (fuel : nat) (m : mem) (x1 x2 w1 n : Z) : option Z :=
  strncmp_aligned_while fuel m x1 (x2 + OPSIZ) w1 (load_op m x2) n.

Fixpoint strncmp_unaligned_while (fuel : nat) (m : mem) (sh_1 sh_2 ofs x1 x2 w1 w2a n : Z) : option Z :=
  match fuel with
  | O => None
  | S fuel =>
      let w2b := load_op m x2 in
      let x2 := x2 + OPSIZ in
      let w2 := MERGE w2a sh_1 w2b sh_2 in
      if (n <=? OPSIZ) || negb (w1 =? w2) then Some (final_ncmp w1 w2 n)
      else
        let n := n - OPSIZ in
        if has_zero w2b || (n <=? OPSIZ - ofs) then
          if has_zero w1 then Some 0
          else
            let w1 := load_op m x1 in
            let w2 := MERGE w2b sh_1 0 sh_2 in
            Some (final_ncmp w1 w2 n)
        else strncmp_unaligned_while fuel m sh_1 sh_2 ofs (x1 + OPSIZ) x2 (load_op m x1) w2b n
  end.

Definition strncmp_unaligned_loop (fuel : nat) (m : mem) (x1 x2 w1 ofs n : Z) : option Z :=
  let w2a := load_op m x2 in
  let x2 := x2 + OPSIZ in
  let sh_1 := ofs * CHAR_BIT in
  let sh_2 := OPSIZ * CHAR_BIT - sh_1 in
  let w2 := MERGE w2a sh_1 op_ones sh_2 in
  if negb (has_zero w2) && (OPSIZ - ofs <? n)
  then strncmp_unaligned_while fuel m sh_1 sh_2 ofs x1 x2 w1 w2a n
  else Some (final_ncmp w1 w2 n).

Definition strncmp (fuel : nat) (m : mem) (p1 p2 n : Z) : option Z :=
  let a := Z.min ((- p1) mod OPSIZ) n in
  match cmp_head (Z.to_nat a) m p1 p2 with
  | inl diff => Some diff
  | inr (p1, p2) =>
      if a =? n then Some 0
      else
        let x1 := p1 in
        let w1 := load_op m x1 in
        let x1 := x1 + OPSIZ in
        let ofs := p2 mod OPSIZ in
        if ofs =? 0 then strncmp_aligned_loop fuel m x1 p2 w1 (n - a)
        else strncmp_unaligned_loop fuel m x1 (p2 - ofs) w1 ofs (n - a)
  end.

(** ** stpcpy.c, strcpy.c, strcat.c: the memory and the result *)

Fixpoint write_byte_loop (k : nat) (m : mem) (d i word : Z) : mem * Z :=
  match k with
  | O => (m, d)
  | S k =>
      let c := extractbyte word i in
      let m := upd m d c in
      if c =? 0 then (m, d) else write_byte_loop k m (d + 1) (i + 1) word
  end.

Definition write_byte_from_word (m : mem) (dest word : Z) : mem * Z :=
  write_byte_loop (Z.to_nat OPSIZ) m dest 0 word.

Fixpoint stpcpy_aligned_loop (fuel : nat) (m : mem) (dst src : Z) : option (mem * Z) :=
  match fuel with
  | O => None
  | S fuel =>
      let word := load_op m src in
      if has_zero word then Some (write_byte_from_word m dst word)
      else stpcpy_aligned_loop fuel (store_op m dst word) (dst + OPSIZ) (src + OPSIZ)
  end.

Fixpoint stpcpy_unaligned_while (fuel : nat) (m : mem) (sh_1 sh_2 dst src w2a : Z) : option (mem * Z) :=
  match fuel with
  | O => None
  | S fuel =>
      let w2b := load_op m src in
      let src := src + OPSIZ in
      let w2 := MERGE w2a sh_1 w2b sh_2 in
      if has_zero w2 then Some (write_byte_from_word m dst w2)
      else
        let m := store_op m dst w2 in
        let dst := dst + OPSIZ in
        if has_zero w2b then Some (write_byte_from_word m dst (MERGE w2b sh_1 0 sh_2))
        else stpcpy_unaligned_while fuel m sh_1 sh_2 dst src w2b
  end.

Definition stpcpy_unaligned_loop (fuel : nat) (m : mem) (dst src ofs : Z) : option (mem * Z) :=
  let w2a := load_op m src in
  let src := src + OPSIZ in
  let sh_1 := ofs * CHAR_BIT in
  let sh_2 := OPSIZ * CHAR_BIT - sh_1 in
  let w2 := MERGE w2a sh_1 op_ones sh_2 in
  if negb (has_zero w2) then stpcpy_unaligned_while fuel m sh_1 sh_2 dst src w2a
  else Some (write_byte_from_word m dst w2).

(** The bytes before [dest] is aligned: the memory, and the result or the
    advanced pointers. *)
Fixpoint stpcpy_head (len : nat) (m : mem) (dest src : Z) : mem * (Z + Z * Z) :=
  match len with
  | O => (m, inr (dest, src))
  | S len =>
      let c := m src in
      let m := upd m dest c in
      if c =? 0 then (m, inl dest) else stpcpy_head len m (dest + 1) (src + 1)
  end.

Definition stpcpy (fuel : nat) (m : mem) (dest src : Z) : option (mem * Z) :=
  let len := (- dest) mod OPSIZ in
  match stpcpy_head (Z.to_nat len) m dest src with
  | (m, inl d) => Some (m, d)
  | (m, inr (dest, src)) =>
      let ofs := src mod OPSIZ in
      if ofs =? 0 then stpcpy_aligned_loop fuel m dest src
      else stpcpy_unaligned_loop fuel m dest (src - ofs) ofs
  end.

Definition strcpy (fuel : nat) (m : mem) (dest src : Z) : option (mem * Z) :=
  let? (m, _) := stpcpy fuel m dest src in Some (m, dest).

Definition strcat (fuel : nat) (m : mem) (dest src : Z) : option (mem * Z) :=
  let? n := strlen fuel m dest in
  let? (m, _) := strcpy fuel m (dest + n) src in
  Some (m, dest).

(** * Words of two strings *)

#[local] Abbreviation W k b := (load_le k b 0).

Lemma W_inj k : forall g h, bytes g 0 (Z.of_nat k) -> bytes h 0 (Z.of_nat k) -> W k g = W k h ->
  forall i, 0 <= i < Z.of_nat k -> g i = h i.
Proof.
  induction k as [|k IH]; intros g h Hg Hh E i Hi; [lia|]. rewrite !W_S in E.
  apply wbytes_tail in Hg as [[G0 G1] Gt], Hh as [[H0 H1] Ht].
  assert (E0 : g 0 = h 0 /\ W k (fun i => g (1 + i)) = W k (fun i => h (1 + i))) by lia.
  destruct E0 as [E0 Et]. destruct (Z.eq_dec i 0) as [->|]; [exact E0|].
  specialize (IH _ _ Gt Ht Et (i - 1) ltac:(lia)). cbn beta in IH.
  now replace (1 + (i - 1)) with i in IH by lia.
Qed.

Lemma extractbyte_W g i : bytes g 0 8 -> 0 <= i < 8 -> extractbyte (W 8 g) i = g i.
Proof.
  intros Hg Hi. unfold extractbyte. replace (i * 8) with (8 * Z.of_nat (Z.to_nat i)) by lia.
  replace 8%nat with (Z.to_nat i + S (Z.to_nat (7 - i)))%nat by lia.
  rewrite shiftr_W by (intros x Hx; apply Hg; lia). rewrite W_S. unfold wrap. change (2 ^ 8) with 256.
  rewrite (Z.mul_comm 256), Z.mod_add, Z.add_0_r, Z2Nat.id by lia. apply Z.mod_small. apply Hg. lia.
Qed.

Lemma has_zero_true g i : bytes g 0 8 -> 0 <= i < 8 -> g i = 0 -> has_zero (W 8 g) = true.
Proof.
  intros Hg Hi E. unfold has_zero. pose proof (find_zero_low_W g Hg) as M.
  destruct (hit_or_miss (fun x => g x =? 0) 8 0) as [(t & Ht & L)|N].
  - destruct Ht as (T1 & T2 & T3). destruct (marks_first 8 _ _ t ltac:(lia) M) as [Hn _]; [|lia|].
    + split; [lia|]. split; [now apply Z.eqb_eq|]. intros j Hj. apply Z.eqb_neq. now apply T3.
    + apply Z.eqb_neq in Hn. now rewrite Hn.
  - specialize (N i ltac:(lia)). apply Z.eqb_neq in N. contradiction.
Qed.

Lemma has_zero_false g : bytes g 0 8 -> (forall i, 0 <= i < 8 -> g i <> 0) -> has_zero (W 8 g) = false.
Proof.
  intros Hg N. unfold has_zero. now rewrite (marks_none 8 _ _ (find_zero_low_W g Hg) N).
Qed.

Lemma has_zero_cases g : bytes g 0 8 ->
  (has_zero (W 8 g) = true /\ exists i, 0 <= i < 8 /\ g i = 0) \/
  (has_zero (W 8 g) = false /\ forall i, 0 <= i < 8 -> g i <> 0).
Proof.
  intros Hg. destruct (hit_or_miss (fun x => g x =? 0) 8 0) as [(t & (T1 & T2 & _) & L)|N].
  - left. apply Z.eqb_eq in T2. split; [now apply (has_zero_true g t) | exists t; split; [lia | exact T2]].
  - right. assert (N' : forall i, 0 <= i < 8 -> g i <> 0) by (intros i Hi; apply Z.eqb_neq; now apply N).
    split; [now apply has_zero_false | exact N'].
Qed.

(** Where two strings end to be equal. *)
Definition stops (g h : Z -> Z) (i : Z) : Prop := g i = 0 \/ g i <> h i.

Lemma zero_ne_marks g h : bytes g 0 8 -> bytes h 0 8 ->
  marks 8 (stops g h) (find_zero_ne_all (W 8 g) (W 8 h)).
Proof.
  intros Hg Hh. unfold find_zero_ne_all. rewrite W_lxor, find_zero_all_W by assumption.
  assert (Hx : bytes (fun i => Z.lxor (g i) (h i)) 0 8) by (intros i Hi; apply byte_lxor; [now apply Hg | now apply Hh]).
  assert (Hz : bytes (fun i => if g i =? 0 then 128 else 0) 0 8)
    by (intros i _; cbn beta; destruct (g i =? 0); lia).
  rewrite W_lor by assumption. eexists. split; [|split; [reflexivity|]].
  - intros i Hi. apply byte_lor; [now apply Hx | now apply Hz].
  - intros i Hi _. unfold stops. rewrite Z.lor_eq_0_iff. pose proof (lxor_eqb (g i) (h i)) as E.
    destruct (Z.eqb_spec (Z.lxor (g i) (h i)) 0), (Z.eqb_spec (g i) (h i)), (Z.eqb_spec (g i) 0);
      try discriminate; lia.
Qed.

Lemma first_below P i j : first P i -> 0 <= j -> P j -> i <= j.
Proof. intros (_ & _ & H) Hj Hp. destruct (Z.le_gt_cases i j); [assumption|]. exfalso. now apply (H j). Qed.

Lemma first_ext (P Q : Z -> Prop) i : (forall j, 0 <= j <= i -> P j <-> Q j) -> first P i -> first Q i.
Proof.
  intros E (H1 & H2 & H3). split; [exact H1|]. split; [apply E; [lia | exact H2]|].
  intros j Hj Hq. apply (H3 j Hj). apply E; [lia | exact Hq].
Qed.

Lemma index_zero_ne g h i : bytes g 0 8 -> bytes h 0 8 -> first (stops g h) i -> i < 8 ->
  index_first_zero_ne (W 8 g) (W 8 h) = i.
Proof.
  intros Hg Hh H Hi. exact (proj2 (marks_first 8 _ _ i ltac:(lia) (zero_ne_marks g h Hg Hh) H Hi)).
Qed.

Lemma final_cmp_W g h i : bytes g 0 8 -> bytes h 0 8 -> first (stops g h) i -> i < 8 ->
  final_cmp (W 8 g) (W 8 h) = g i - h i.
Proof.
  intros Hg Hh H Hi. unfold final_cmp. rewrite (index_zero_ne g h i) by assumption. destruct H.
  rewrite !extractbyte_W by (assumption || lia). reflexivity.
Qed.

Lemma W_neq k g h : W k g <> W k h -> exists i, 0 <= i < Z.of_nat k /\ g i <> h i.
Proof.
  intros N. destruct (hit_or_miss (fun i => negb (g i =? h i)) k 0) as [(t & (T1 & T2 & _) & L)|E].
  - exists t. split; [lia|]. apply negb_true_iff in T2. now apply Z.eqb_neq.
  - exfalso. apply N. apply W_ext. intros i Hi. apply Z.eqb_eq, negb_false_iff, E. lia.
Qed.

(** * strcmp *)

(** The bytes from [a] on. *)
Definition from (m : mem) (a : Z) : Z -> Z := fun i => m (a + i).

Section Strcmp.
Context (m : mem) (Hm : forall x, byte (m x)).

Lemma from_bytes a n : bytes (from m a) 0 n.
Proof using Hm. intros i _. apply Hm. Qed.

Lemma load_from a : load_op m a = W 8 (from m a).
Proof using Type. apply load_W. Qed.

Lemma stops_shift c1 c2 k i : stops (from m (c1 + k)) (from m (c2 + k)) i <-> stops (from m c1) (from m c2) (k + i).
Proof using Type. unfold stops, from. now rewrite !Z.add_assoc. Qed.

Lemma first_shift c1 c2 k d : 0 <= k <= d -> first (stops (from m c1) (from m c2)) d ->
  first (stops (from m (c1 + k)) (from m (c2 + k))) (d - k).
Proof using Type.
  intros Hk (H1 & H2 & H3). split; [lia|]. split.
  - rewrite stops_shift. replace (k + (d - k)) with d by lia. exact H2.
  - intros j Hj. rewrite stops_shift. apply H3. lia.
Qed.

(** No stop in the first word. *)
Lemma word_equal c1 c2 d : first (stops (from m c1) (from m c2)) d -> 8 <= d ->
  load_op m c1 = load_op m c2 /\ forall i, 0 <= i < 8 -> from m c1 i <> 0.
Proof using Type.
  intros (_ & _ & H) Hd. assert (E : forall i, 0 <= i < 8 -> from m c1 i <> 0 /\ from m c1 i = from m c2 i).
  { intros i Hi. specialize (H i ltac:(lia)). unfold stops in H.
    destruct (Z.eq_dec (from m c1 i) (from m c2 i)), (Z.eq_dec (from m c1 i) 0); tauto. }
  split; [|intros i Hi; now apply E]. rewrite !load_from. apply W_ext. intros i Hi. now apply E.
Qed.

Lemma aligned_while_spec fuel : forall c1 c2 d, first (stops (from m c1) (from m c2)) d ->
  d < 8 * Z.of_nat fuel ->
  strcmp_aligned_while fuel m (c1 + 8) (c2 + 8) (load_op m c1) (load_op m c2) = Some (m (c1 + d) - m (c2 + d)).
Proof using Hm.
  induction fuel as [|fuel IH]; intros c1 c2 d H Hd; [destruct H; lia|]. cbn [strcmp_aligned_while].
  destruct (Z.lt_ge_cases d 8) as [L|L].
  - destruct (Z.eqb_spec (load_op m c1) (load_op m c2)) as [E|E].
    + rewrite !load_from in E. pose proof H as (D0 & D1 & _).
      pose proof (W_inj 8 _ _ (from_bytes c1 8) (from_bytes c2 8) E d ltac:(lia)) as Ed.
      destruct D1 as [D1|D1]; [|contradiction].
      rewrite load_from, (has_zero_true _ d (from_bytes c1 8)) by (lia || exact D1).
      f_equal. unfold from in Ed. lia.
    + rewrite !load_from. f_equal. apply (final_cmp_W (from m c1) (from m c2) d); auto using from_bytes.
  - destruct (word_equal c1 c2 d H L) as [-> N]. rewrite Z.eqb_refl.
    rewrite load_from, has_zero_false.
    2:{ apply from_bytes. }
    2:{ destruct (word_equal c1 c2 d H L) as [E _]. rewrite !load_from in E.
        intros i Hi. rewrite <- (W_inj 8 _ _ (from_bytes c1 8) (from_bytes c2 8) E i Hi). now apply N. }
    unfold OPSIZ. rewrite (IH (c1 + 8) (c2 + 8) (d - 8)); [|apply first_shift; [lia | exact H] | lia].
    do 2 f_equal; f_equal; lia.
Qed.

(** The words of the unaligned loop: [b] is the position in the second string. *)
Context (o : Z) (Ho : 0 < o < 8).

Lemma merge_next b : b mod 8 = o ->
  MERGE (load_op m (b - o)) (o * CHAR_BIT) (load_op m (b - o + 8)) (OPSIZ * CHAR_BIT - o * CHAR_BIT) = load_op m b.
Proof using Hm Ho.
  intros Hb. rewrite <- (MERGE_load m b Hm) by lia. rewrite Hb. unfold CHAR_BIT, OPSIZ. f_equal; lia.
Qed.

Lemma merge_pad b pad : b mod 8 = o -> byte pad -> 
  MERGE (load_op m (b - o)) (o * CHAR_BIT) (W 8 (fun _ => pad)) (OPSIZ * CHAR_BIT - o * CHAR_BIT)
  = W 8 (fun i => if i <? 8 - o then from m b i else pad).
Proof using Hm Ho.
  intros Hb Hp. rewrite load_from. unfold CHAR_BIT, OPSIZ.
  replace (o * 8) with (8 * o) by lia. change (8 * 8) with 64.
  rewrite MERGE_W; [|lia | apply from_bytes | intros i _; exact Hp].
  apply W_ext. intros i Hi. unfold merged, from. destruct (i <? 8 - o); [f_equal; lia | reflexivity].
Qed.

Lemma pad_bytes b pad : byte pad -> bytes (fun i => if i <? 8 - o then from m b i else pad) 0 8.
Proof using Hm. intros Hp i _. cbn beta. destruct (i <? 8 - o); [apply Hm | exact Hp]. Qed.

Lemma first_pad c1 b pad d : first (stops (from m c1) (from m b)) d -> d < 8 - o ->
  first (stops (from m c1) (fun i => if i <? 8 - o then from m b i else pad)) d.
Proof using Ho.
  intros H L. eapply first_ext; [|exact H]. intros j Hj. unfold stops.
  destruct (Z.ltb_spec j (8 - o)); [tauto | lia].
Qed.

Lemma final_cmp_pad c1 b pad d : byte pad -> first (stops (from m c1) (from m b)) d -> d < 8 - o ->
  final_cmp (load_op m c1) (W 8 (fun i => if i <? 8 - o then from m b i else pad)) = m (c1 + d) - m (b + d).
Proof using Hm Ho.
  intros Hp H L. rewrite load_from, (final_cmp_W _ _ d (from_bytes c1 8) (pad_bytes b pad Hp)).
  - destruct (Z.ltb_spec d (8 - o)); [reflexivity | lia].
  - now apply first_pad.
  - lia.
Qed.

(** A NUL of the second string bounds the first stop. *)
Lemma stop_by_nul c1 b d i : first (stops (from m c1) (from m b)) d -> 0 <= i -> from m b i = 0 -> d <= i.
Proof using Type.
  intros H Hi E. apply (first_below _ d i H Hi). unfold stops. rewrite E.
  destruct (Z.eq_dec (from m c1 i) 0); [now left | now right].
Qed.

Lemma unaligned_while_spec fuel : forall c1 b d, b mod 8 = o ->
  first (stops (from m c1) (from m b)) d -> (forall i, 0 <= i < 8 - o -> from m b i <> 0) ->
  d < 8 * Z.of_nat fuel ->
  strcmp_unaligned_while fuel m (o * CHAR_BIT) (OPSIZ * CHAR_BIT - o * CHAR_BIT) (c1 + 8) (b - o + 8)
    (load_op m c1) (load_op m (b - o)) = Some (m (c1 + d) - m (b + d)).
Proof using Hm Ho.
  induction fuel as [|fuel IH]; intros c1 b d Hb H Hz Hd; [destruct H; lia|]. cbn [strcmp_unaligned_while].
  rewrite merge_next by exact Hb. destruct (Z.eqb_spec (load_op m c1) (load_op m b)) as [E|E]; cbn [negb].
  2:{ rewrite !load_from in *. destruct (W_neq 8 _ _ E) as (i & Hi & N).
      pose proof (first_below _ d i H ltac:(lia) (or_intror N)). f_equal.
      apply (final_cmp_W (from m c1) (from m b) d); auto using from_bytes; lia. }
  rewrite !load_from in E.
  assert (Eq : forall i, 0 <= i < 8 -> from m c1 i = from m b i)
    by (apply (W_inj 8); auto using from_bytes).
  rewrite (load_from (b - o + 8)).
  destruct (has_zero_cases (from m (b - o + 8)) (from_bytes _ 8)) as [[-> (i & Hi & Zi)]|[-> Nz]].
  - rewrite (load_from c1). destruct (has_zero_cases (from m c1) (from_bytes _ 8)) as [[-> (j & Hj & Zj)]|[-> Nj]].
    + assert (d <= j) by (apply (first_below _ d j H); [lia | now left]). f_equal.
      specialize (Eq d ltac:(destruct H; lia)). unfold from in Eq. lia.
    + rewrite <- load_from. replace (b - o + 8) with (b + 8 - o) by lia.
      change 0 with (W 8 (fun _ => 0)) at 1.
      assert (Hb8 : (b + 8) mod 8 = o) by (rewrite <- Z.add_mod_idemp_r, Z.add_0_r by lia; exact Hb).
      rewrite merge_pad by (exact Hb8 || (red; lia)).
      assert (Hi8 : 8 <= i + 8 - o).
      { destruct (Z.le_gt_cases 8 (i + 8 - o)); [assumption|]. exfalso. apply (Nj (i + 8 - o)); [lia|].
        rewrite Eq by lia. unfold from in *. rewrite <- Zi. f_equal. lia. }
      assert (D8 : 8 <= d).
      { destruct (Z.le_gt_cases 8 d); [assumption|]. exfalso. destruct H as (D0 & [D1|D1] & _).
        - now apply (Nj d); [lia|].
        - apply D1. apply Eq. lia. }
      rewrite (final_cmp_pad (c1 + 8) (b + 8) 0 (d - 8)); [do 2 f_equal; f_equal; lia | red; lia | |].
      * apply first_shift; [lia | exact H].
      * assert (d <= i + 8 - o); [|lia]. apply (stop_by_nul c1 b d); [exact H | lia|].
        unfold from in *. rewrite <- Zi. f_equal. lia.
  - assert (Nb : forall i, 0 <= i < 8 -> from m b i <> 0).
    { intros i Hi. destruct (Z.lt_ge_cases i (8 - o)); [apply Hz; lia|]. specialize (Nz (i - (8 - o)) ltac:(lia)).
      unfold from in *. now replace (b - o + 8 + (i - (8 - o))) with (b + i) in Nz by lia. }
    assert (D8 : 8 <= d).
    { destruct (Z.le_gt_cases 8 d); [assumption|]. exfalso. destruct H as (D0 & [D1|D1] & _).
      - apply (Nb d); [lia|]. rewrite <- Eq by lia. exact D1.
      - apply D1. apply Eq. lia. }
    unfold OPSIZ in *. rewrite <- load_from. replace (b - o + 8 + 8) with (b + 8 - o + 8) by lia.
    replace (b - o + 8) with (b + 8 - o) by lia.
    rewrite (IH (c1 + 8) (b + 8) (d - 8)); [do 2 f_equal; f_equal; lia | | | | lia].
    + rewrite <- Z.add_mod_idemp_r, Z.add_0_r by lia. exact Hb.
    + apply first_shift; [lia | exact H].
    + intros i Hi. specialize (Nz (i + o) ltac:(lia)). unfold from in *.
      now replace (b - o + 8 + (i + o)) with (b + 8 + i) in Nz by lia.
Qed.
End Strcmp.

Lemma cmp_head_spec m n : forall p1 p2 d, 0 <= d ->
  (d < Z.of_nat n -> stops (from m p1) (from m p2) d) ->
  (forall j, 0 <= j < d -> j < Z.of_nat n -> ~ stops (from m p1) (from m p2) j) ->
  cmp_head n m p1 p2 =
    if d <? Z.of_nat n then inl (m (p1 + d) - m (p2 + d)) else inr (p1 + Z.of_nat n, p2 + Z.of_nat n).
Proof.
  induction n as [|n IH]; intros p1 p2 d D0 D1 D2; cbn [cmp_head].
  { destruct (Z.ltb_spec d (Z.of_nat 0)); [lia|]. now rewrite !Z.add_0_r. }
  destruct (Z.eq_dec d 0) as [->|Hd].
  - specialize (D1 ltac:(lia)). unfold stops, from in D1. rewrite !Z.add_0_r in *.
    destruct (Z.ltb_spec 0 (Z.of_nat (S n))); [|lia].
    destruct (Z.eqb_spec (m p1) 0); cbn [orb]; [reflexivity|].
    destruct (Z.eqb_spec (m p1 - m p2) 0); [lia | reflexivity].
  - pose proof (D2 0 ltac:(lia) ltac:(lia)) as H3. unfold stops, from in H3. rewrite !Z.add_0_r in H3.
    destruct (Z.eqb_spec (m p1) 0); [tauto|]. cbn [orb].
    destruct (Z.eqb_spec (m p1 - m p2) 0) as [E|E]; cbn [negb]; [|exfalso; apply H3; right; lia].
    rewrite (IH (p1 + 1) (p2 + 1) (d - 1)); [|lia | |].
    + destruct (Z.ltb_spec (d - 1) (Z.of_nat n)), (Z.ltb_spec d (Z.of_nat (S n))); try lia.
      * do 2 f_equal; f_equal; lia.
      * do 2 f_equal; lia.
    + intros L. rewrite stops_shift. replace (1 + (d - 1)) with d by lia. apply D1. lia.
    + intros j Hj L. rewrite stops_shift. apply D2; lia.
Qed.

Lemma ones_W : op_ones = W 8 (fun _ => 255).
Proof. reflexivity. Qed.

Lemma strcmp_spec m (Hm : forall x, byte (m x)) fuel p1 p2 d :
  first (stops (from m p1) (from m p2)) d -> d < 8 * Z.of_nat fuel ->
  strcmp fuel m p1 p2 = Some (m (p1 + d) - m (p2 + d)).
Proof.
  intros H Hf. unfold strcmp. change OPSIZ with 8. pose proof (Z.mod_pos_bound (- p1) 8 ltac:(lia)) as Hn.
  set (n := (- p1) mod 8) in *. rewrite (cmp_head_spec m (Z.to_nat n) p1 p2 d), Z2Nat.id by
    (lia || (destruct H as (D0 & D1 & D2); auto)).
  destruct (Z.ltb_spec d n) as [L|L]; [reflexivity|].
  assert (H' : first (stops (from m (p1 + n)) (from m (p2 + n))) (d - n)) by (apply first_shift; [lia | exact H]).
  pose proof (Z.mod_pos_bound (p2 + n) 8 ltac:(lia)) as Ho.
  assert (Er : m (p1 + n + (d - n)) - m (p2 + n + (d - n)) = m (p1 + d) - m (p2 + d)) by (do 2 f_equal; lia).
  destruct (Z.eqb_spec ((p2 + n) mod 8) 0) as [E|E].
  - unfold strcmp_aligned_loop, OPSIZ. rewrite (aligned_while_spec m Hm fuel _ _ _ H') by lia. now rewrite Er.
  - set (o := (p2 + n) mod 8) in *. assert (Ho' : 0 < o < 8) by lia. unfold strcmp_unaligned_loop. rewrite ones_W.
    rewrite (merge_pad m Hm o Ho' (p2 + n) 255 eq_refl) by (red; lia).
    destruct (has_zero_cases _ (pad_bytes m Hm o (p2 + n) 255 ltac:(red; lia))) as [[-> (i & Hi & Zi)]|[-> Nz]];
      cbn [negb].
    + destruct (Z.ltb_spec i (8 - o)) as [Li|Li]; [|discriminate].
      rewrite (final_cmp_pad m Hm o Ho' _ _ 255 (d - n)); [now rewrite Er | red; lia | exact H' |].
      pose proof (stop_by_nul m _ _ _ i H' ltac:(lia) Zi). lia.
    + rewrite <- Er. refine (unaligned_while_spec m Hm o Ho' fuel (p1 + n) (p2 + n) (d - n) eq_refl H' _ _); [|lia].
      intros i Hi. specialize (Nz i ltac:(lia)). destruct (Z.ltb_spec i (8 - o)); [exact Nz | lia].
Qed.

(** * strncmp *)

(** [d] is the first index below [n] that satisfies [P], or [n]. *)
Definition firstn_at (P : Z -> Prop) (n d : Z) : Prop :=
  0 <= d <= n /\ (d < n -> P d) /\ forall j, 0 <= j < d -> ~ P j.

Lemma firstn_le P n d i : firstn_at P n d -> 0 <= i -> P i -> d <= i.
Proof.
  intros (H1 & H2 & H3) Hi Hp. destruct (Z.le_gt_cases d i); [assumption|]. exfalso. now apply (H3 i).
Qed.

Lemma firstn_first P n d i : firstn_at P n d -> first P i -> d = Z.min i n.
Proof.
  intros H Hf. pose proof H as (H1 & H2 & H3). pose proof Hf as (F1 & F2 & F3).
  pose proof (firstn_le P n d i H F1 F2). destruct (Z.lt_ge_cases d n) as [L|L]; [|lia].
  pose proof (first_below P i d Hf ltac:(lia) (H2 L)). lia.
Qed.

Lemma firstn_ext (P Q : Z -> Prop) n d : (forall j, 0 <= j <= d -> j < n -> P j <-> Q j) ->
  firstn_at P n d -> firstn_at Q n d.
Proof.
  intros E (H1 & H2 & H3). split; [exact H1|]. split; [intros L; apply E; [lia | lia | auto]|].
  intros j Hj Hq. apply (H3 j Hj). apply E; [lia | lia | exact Hq].
Qed.

Lemma trailing_zeros_0 : index_first 0 = 8.
Proof. reflexivity. Qed.

Lemma final_ncmp_W g h n d : bytes g 0 8 -> bytes h 0 8 -> firstn_at (stops g h) n d -> n <= 8 \/ d < 8 ->
  final_ncmp (W 8 g) (W 8 h) n = if d <? n then g d - h d else 0.
Proof.
  intros Hg Hh H Hb. unfold final_ncmp.
  destruct (hit_or_miss (fun i => (g i =? 0) || negb (g i =? h i)) 8 0) as [(i & (T1 & T2 & T3) & L)|N].
  - assert (Hf : first (stops g h) i).
    { split; [lia|]. unfold stops. split.
      - apply orb_true_iff in T2 as [E|E]; [left; now apply Z.eqb_eq | right].
        apply negb_true_iff in E. now apply Z.eqb_neq.
      - intros j Hj [E|E]; specialize (T3 j Hj); apply orb_false_iff in T3 as [A B];
          [apply Z.eqb_neq in A; contradiction|]. apply negb_false_iff, Z.eqb_eq in B. contradiction. }
    rewrite (index_zero_ne g h i) by (assumption || lia). pose proof (firstn_first _ _ _ _ H Hf) as Ed.
    destruct (Z.leb_spec n i), (Z.ltb_spec d n); try lia; try reflexivity.
    assert (d = i) as -> by lia. rewrite !extractbyte_W by (assumption || lia). reflexivity.
  - assert (Hn : forall i, 0 <= i < 8 -> ~ stops g h i).
    { intros i Hi [E|E]; specialize (N i ltac:(lia)); apply orb_false_iff in N as [A B];
        [apply Z.eqb_neq in A; contradiction|]. apply negb_false_iff, Z.eqb_eq in B. contradiction. }
    unfold index_first_zero_ne. rewrite (marks_none 8 _ _ (zero_ne_marks g h Hg Hh)) by (intros; apply Hn; lia).
    rewrite trailing_zeros_0. destruct H as (H1 & H2 & H3).
    assert (d >= 8 \/ d = n). { destruct (Z.lt_ge_cases d n) as [L|L]; [|lia].
      left. destruct (Z.lt_ge_cases d 8); [|lia]. exfalso. apply (Hn d); [lia | auto]. }
    destruct (Z.leb_spec n 8), (Z.ltb_spec d n); try lia; reflexivity.
Qed.

Section Strncmp.
Context (m : mem) (Hm : forall x, byte (m x)).
#[local] Abbreviation Q c1 c2 := (stops (from m c1) (from m c2)).

Definition ncmp_val (c1 c2 n d : Z) : Z := if d <? n then m (c1 + d) - m (c2 + d) else 0.

Lemma ncmp_val_shift c1 c2 n d k : ncmp_val (c1 + k) (c2 + k) (n - k) (d - k) = ncmp_val c1 c2 n d.
Proof using Type.
  unfold ncmp_val. destruct (Z.ltb_spec (d - k) (n - k)), (Z.ltb_spec d n); try lia.
  do 2 f_equal; lia.
Qed.

Lemma firstn_shift c1 c2 k n d : 0 <= k <= d -> firstn_at (Q c1 c2) n d ->
  firstn_at (Q (c1 + k) (c2 + k)) (n - k) (d - k).
Proof using Type.
  intros Hk (H1 & H2 & H3). split; [lia|]. split.
  - intros L. rewrite stops_shift. replace (k + (d - k)) with d by lia. apply H2. lia.
  - intros j Hj. rewrite stops_shift. apply H3. lia.
Qed.

Lemma final_ncmp_load c1 b n d : firstn_at (Q c1 b) n d -> n <= 8 \/ d < 8 ->
  final_ncmp (load_op m c1) (load_op m b) n = ncmp_val c1 b n d.
Proof using Hm.
  intros H Hb. rewrite !(load_from m). apply (final_ncmp_W (from m c1) (from m b)); auto using from_bytes.
Qed.

(** Two words without a stop. *)
Lemma equal_words c1 b n d : firstn_at (Q c1 b) n d -> (forall i, 0 <= i < 8 -> ~ Q c1 b i) -> 8 < n -> 8 <= d.
Proof using Type.
  intros (H1 & H2 & H3) N Hn. destruct (Z.le_gt_cases 8 d); [assumption|]. exfalso.
  apply (N d); [lia|]. apply H2. lia.
Qed.

(** The first words are equal and the first string ends in it. *)
Lemma equal_end c1 b n d i : firstn_at (Q c1 b) n d -> (forall j, 0 <= j < 8 -> from m c1 j = from m b j) ->
  0 <= i < 8 -> from m c1 i = 0 -> ncmp_val c1 b n d = 0.
Proof using Type.
  intros H E Hi Z0. pose proof (firstn_le _ _ _ i H ltac:(lia) (or_introl Z0)). unfold ncmp_val.
  destruct (Z.ltb_spec d n); [|reflexivity]. specialize (E d ltac:(destruct H; lia)). unfold from in E. lia.
Qed.

Lemma no_stop c1 b i : from m c1 i = from m b i -> from m c1 i <> 0 -> ~ Q c1 b i.
Proof using Type. intros E N [A|A]; contradiction. Qed.

Lemma naligned_while_spec fuel : forall c1 c2 n d, firstn_at (Q c1 c2) n d -> 0 < n ->
  d < 8 * Z.of_nat fuel ->
  strncmp_aligned_while fuel m (c1 + 8) (c2 + 8) (load_op m c1) (load_op m c2) n = Some (ncmp_val c1 c2 n d).
Proof using Hm.
  induction fuel as [|fuel IH]; intros c1 c2 n d H Hn Hd; [destruct H; lia|]. cbn [strncmp_aligned_while].
  destruct (Z.eqb_spec (load_op m c1) (load_op m c2)) as [E|E].
  - change OPSIZ with 8. destruct (Z.leb_spec n 8) as [L|L].
    + f_equal. apply final_ncmp_load; auto.
    + pose proof E as E'. rewrite !(load_from m) in E'.
      assert (Eq : forall i, 0 <= i < 8 -> from m c1 i = from m c2 i) by (apply (W_inj 8); auto using from_bytes).
      rewrite (load_from m c1). destruct (has_zero_cases (from m c1) (from_bytes m Hm _ 8)) as [[-> (i & Hi & Zi)]|[-> Nz]].
      * f_equal. symmetry. now apply (equal_end c1 c2 n d i).
      * assert (D8 : 8 <= d) by (apply (equal_words c1 c2 n); auto using no_stop).
        rewrite (IH (c1 + 8) (c2 + 8) (n - 8) (d - 8)); [now rewrite ncmp_val_shift | | lia | lia].
        apply firstn_shift; [lia | exact H].
  - f_equal. apply final_ncmp_load; [exact H|]. right. rewrite !(load_from m) in E.
    destruct (W_neq 8 _ _ E) as (i & Hi & N). pose proof (firstn_le _ _ _ i H ltac:(lia) (or_intror N)). lia.
Qed.

Context (o : Z) (Ho : 0 < o < 8).

Lemma final_ncmp_pad c1 b pad n d : byte pad -> firstn_at (Q c1 b) n d -> n <= 8 - o \/ d < 8 - o ->
  final_ncmp (load_op m c1) (W 8 (fun i => if i <? 8 - o then from m b i else pad)) n = ncmp_val c1 b n d.
Proof using Hm Ho.
  intros Hp H Hb. rewrite (load_from m).
  rewrite (final_ncmp_W _ _ n d (from_bytes m Hm c1 8) (pad_bytes m Hm o b pad Hp)).
  - unfold ncmp_val. destruct (Z.ltb_spec d n); [|reflexivity].
    destruct (Z.ltb_spec d (8 - o)); [reflexivity | lia].
  - eapply firstn_ext; [|exact H]. intros j Hj Hjn. unfold stops.
    destruct (Z.ltb_spec j (8 - o)); [tauto | lia].
  - destruct H. lia.
Qed.

Lemma nstop_by_nul c1 b n d i : firstn_at (Q c1 b) n d -> 0 <= i -> from m b i = 0 -> d <= i.
Proof using Type.
  intros H Hi E. apply (firstn_le _ _ _ i H Hi). unfold stops. rewrite E.
  destruct (Z.eq_dec (from m c1 i) 0); [now left | now right].
Qed.

Lemma nunaligned_while_spec fuel : forall c1 b n d, b mod 8 = o -> firstn_at (Q c1 b) n d ->
  (forall i, 0 <= i < 8 - o -> from m b i <> 0) -> 8 - o < n -> d < 8 * Z.of_nat fuel ->
  strncmp_unaligned_while fuel m (o * CHAR_BIT) (OPSIZ * CHAR_BIT - o * CHAR_BIT) o (c1 + 8) (b - o + 8)
    (load_op m c1) (load_op m (b - o)) n = Some (ncmp_val c1 b n d).
Proof using Hm Ho.
  induction fuel as [|fuel IH]; intros c1 b n d Hb H Hz Hn Hd; [destruct H; lia|]. cbn [strncmp_unaligned_while].
  rewrite merge_next by assumption. change (n <=? OPSIZ) with (n <=? 8).
  destruct (Z.leb_spec n 8) as [L|L]; cbn [orb]; [f_equal; apply final_ncmp_load; auto|].
  destruct (Z.eqb_spec (load_op m c1) (load_op m b)) as [E|E]; cbn [negb].
  2:{ f_equal. apply final_ncmp_load; [exact H|]. right. rewrite !(load_from m) in E.
      destruct (W_neq 8 _ _ E) as (i & Hi & N). pose proof (firstn_le _ _ _ i H ltac:(lia) (or_intror N)). lia. }
  rewrite !(load_from m) in E.
  assert (Eq : forall i, 0 <= i < 8 -> from m c1 i = from m b i) by (apply (W_inj 8); auto using from_bytes).
  assert (Hb8 : (b + 8) mod 8 = o) by (rewrite <- Z.add_mod_idemp_r, Z.add_0_r by lia; exact Hb).
  assert (Eb : b - o + 8 = b + 8 - o) by lia. rewrite Eb. clear Eb.
  assert (Hnext : (exists i, 0 <= i < 8 /\ from m (b + 8 - o) i = 0) \/ n - 8 <= 8 - o ->
    (if has_zero (load_op m c1) then Some 0
     else Some (final_ncmp (load_op m (c1 + 8))
            (MERGE (load_op m (b + 8 - o)) (o * CHAR_BIT) 0 (OPSIZ * CHAR_BIT - o * CHAR_BIT)) (n - 8)))
    = Some (ncmp_val c1 b n d)).
  { intros Hc. rewrite (load_from m c1).
    destruct (has_zero_cases (from m c1) (from_bytes m Hm _ 8)) as [[-> (j & Hj & Zj)]|[-> Nj]].
    - f_equal. symmetry. now apply (equal_end c1 b n d j).
    - assert (D8 : 8 <= d) by (apply (equal_words c1 b n); auto using no_stop).
      change 0 with (W 8 (fun _ => 0)) at 1. rewrite merge_pad by (assumption || (red; lia)).
      f_equal. rewrite (final_ncmp_pad (c1 + 8) (b + 8) 0 (n - 8) (d - 8)); [apply ncmp_val_shift | red; lia | |].
      + apply firstn_shift; [lia | exact H].
      + destruct Hc as [(i & Hi & Zi)|Hc]; [right | now left].
        assert (Hi8 : 8 <= i + 8 - o).
        { destruct (Z.le_gt_cases 8 (i + 8 - o)); [assumption|]. exfalso. apply (Nj (i + 8 - o)); [lia|].
          rewrite Eq by lia. unfold from in *. rewrite <- Zi. f_equal. lia. }
        assert (d <= i + 8 - o); [|lia]. apply (nstop_by_nul c1 b n d); [exact H | lia|].
        unfold from in *. rewrite <- Zi. f_equal. lia. }
  change (n - OPSIZ) with (n - 8). rewrite (load_from m (b + 8 - o)).
  destruct (has_zero_cases (from m (b + 8 - o)) (from_bytes m Hm _ 8)) as [[-> Hex]|[-> Nz]]; cbn [orb].
  { rewrite <- (load_from m). apply Hnext. now left. }
  change (n - 8 <=? OPSIZ - o) with (n - 8 <=? 8 - o).
  destruct (Z.leb_spec (n - 8) (8 - o)) as [Ln|Ln]; rewrite <- (load_from m); [apply Hnext; now right|].
  assert (Nb : forall i, 0 <= i < 8 -> from m b i <> 0).
  { intros i Hi. destruct (Z.lt_ge_cases i (8 - o)); [apply Hz; lia|]. specialize (Nz (i - (8 - o)) ltac:(lia)).
    unfold from in *. now replace (b + 8 - o + (i - (8 - o))) with (b + i) in Nz by lia. }
  assert (D8 : 8 <= d).
  { apply (equal_words c1 b n); auto. intros i Hi. apply no_stop; [now apply Eq|]. rewrite Eq by lia. now apply Nb. }
  refine (eq_trans (IH (c1 + 8) (b + 8) (n - 8) (d - 8) Hb8 _ _ _ _) _).
  - apply firstn_shift; [lia | exact H].
  - intros i Hi. specialize (Nz (i + o) ltac:(lia)). unfold from in *.
    now replace (b + 8 - o + (i + o)) with (b + 8 + i) in Nz by lia.
  - lia.
  - lia.
  - now rewrite ncmp_val_shift.
Qed.
End Strncmp.

Lemma strncmp_spec m (Hm : forall x, byte (m x)) fuel p1 p2 n d : 0 <= n ->
  firstn_at (stops (from m p1) (from m p2)) n d -> d < 8 * Z.of_nat fuel ->
  strncmp fuel m p1 p2 n = Some (ncmp_val m p1 p2 n d).
Proof.
  intros Hn0 H Hf. unfold strncmp. change OPSIZ with 8. pose proof (Z.mod_pos_bound (- p1) 8 ltac:(lia)) as Hn.
  set (a := Z.min ((- p1) mod 8) n). assert (Ha : 0 <= a <= n) by lia.
  pose proof H as (D0 & D1 & D2).
  rewrite (cmp_head_spec m (Z.to_nat a) p1 p2 d), Z2Nat.id by (lia || (intros; apply D1; lia) || (intros; apply D2; lia)).
  destruct (Z.ltb_spec d a) as [L|L].
  { unfold ncmp_val. destruct (Z.ltb_spec d n); [reflexivity | lia]. }
  destruct (Z.eqb_spec a n) as [E|E].
  { unfold ncmp_val. destruct (Z.ltb_spec d n); [lia | reflexivity]. }
  assert (H' : firstn_at (stops (from m (p1 + a)) (from m (p2 + a))) (n - a) (d - a))
    by (apply firstn_shift; [lia | exact H]).
  rewrite <- (ncmp_val_shift m p1 p2 n d a).
  pose proof (Z.mod_pos_bound (p2 + a) 8 ltac:(lia)) as Ho.
  destruct (Z.eqb_spec ((p2 + a) mod 8) 0) as [E0|E0].
  - exact (naligned_while_spec m Hm fuel _ _ _ _ H' ltac:(lia) ltac:(lia)).
  - set (o := (p2 + a) mod 8) in *. assert (Ho' : 0 < o < 8) by lia. unfold strncmp_unaligned_loop. rewrite ones_W.
    rewrite (merge_pad m Hm o Ho' (p2 + a) 255 eq_refl) by (red; lia).
    change (OPSIZ - o <? n - a) with (8 - o <? n - a).
    destruct (has_zero_cases _ (pad_bytes m Hm o (p2 + a) 255 ltac:(red; lia))) as [[-> (i & Hi & Zi)]|[-> Nz]];
      cbn [negb andb].
    + destruct (Z.ltb_spec i (8 - o)) as [Li|Li]; [|discriminate]. f_equal.
      apply (final_ncmp_pad m Hm o Ho'); [red; lia | exact H' |]. right.
      pose proof (nstop_by_nul m _ _ _ _ i H' ltac:(lia) Zi). lia.
    + destruct (Z.ltb_spec (8 - o) (n - a)) as [Ln|Ln].
      * refine (nunaligned_while_spec m Hm o Ho' fuel (p1 + a) (p2 + a) (n - a) (d - a) eq_refl H' _ Ln _); [|lia].
        intros i Hi. specialize (Nz i ltac:(lia)). destruct (Z.ltb_spec i (8 - o)); [exact Nz | lia].
      * f_equal. apply (final_ncmp_pad m Hm o Ho'); [red; lia | exact H' | now left].
Qed.

(** * stpcpy *)

(** Writing the bytes of a word up to its first NUL. *)
Lemma write_byte_loop_spec g t : bytes g 0 8 -> 0 <= t < 8 -> g t = 0 -> (forall j, 0 <= j < t -> g j <> 0) ->
  forall k m d i, 0 <= i <= t -> t < i + Z.of_nat k ->
  exists m', write_byte_loop k m d i (W 8 g) = (m', d + (t - i)) /\
    forall x, m' x = if (d <=? x) && (x <=? d + (t - i)) then g (i + (x - d)) else m x.
Proof.
  intros Hg Ht Zt Nz. induction k as [|k IH]; intros m d i Hi Hk; [lia|]. cbn [write_byte_loop].
  rewrite extractbyte_W by (exact Hg || lia). destruct (Z.eqb_spec (g i) 0) as [E|E].
  - assert (i = t) as -> by (destruct (Z.eq_dec i t); [assumption | exfalso; apply (Nz i); [lia | exact E]]).
    eexists. split; [f_equal; lia|]. intros x. unfold upd. bool_cmp. f_equal. lia.
  - assert (Hit : i <> t) by congruence.
    destruct (IH (upd m d (g i)) (d + 1) (i + 1)) as (m' & -> & H); [lia | lia|].
    exists m'. split; [f_equal; lia|]. intros x. rewrite H. unfold upd.
    destruct (Z.leb_spec (d + 1) x), (Z.leb_spec x (d + 1 + (t - (i + 1)))), (Z.leb_spec d x),
      (Z.leb_spec x (d + (t - i))), (Z.eqb_spec x d); cbn [andb]; try lia; try reflexivity; f_equal; lia.
Qed.

Lemma write_byte_spec g t m d : bytes g 0 8 -> 0 <= t < 8 -> g t = 0 -> (forall j, 0 <= j < t -> g j <> 0) ->
  exists m', write_byte_from_word m d (W 8 g) = (m', d + t) /\
    forall x, m' x = if (d <=? x) && (x <? d + (t + 1)) then g (x - d) else m x.
Proof.
  intros Hg Ht Zt Nz. destruct (write_byte_loop_spec g t Hg Ht Zt Nz 8 m d 0) as (m' & E & H); [lia | lia|].
  exists m'. rewrite Z.sub_0_r in *. split; [exact E|]. intros x. rewrite H. bool_cmp.
Qed.

(** The copy of [s] up to [e] at [d] does not touch the source. *)
Definition apart (d s e : Z) : Prop := d + (e - s) < s \/ e < d.

Lemma nul_nonzero m s e i : nul_at m s e -> 0 <= i -> s + i < e -> from m s i <> 0.
Proof. intros (_ & _ & H) Hi L. apply Z.eqb_neq. apply (H (s + i)). lia. Qed.

Lemma nul_zero m s e : nul_at m s e -> from m s (e - s) = 0.
Proof. intros (_ & H & _). unfold from. replace (s + (e - s)) with e by lia. now apply Z.eqb_eq. Qed.

(** The first NUL at or after [s] bounds [e]. *)
Lemma nul_le m s e i : nul_at m s e -> 0 <= i -> from m s i = 0 -> e <= s + i.
Proof.
  intros H Hi E. destruct (Z.le_gt_cases e (s + i)); [assumption|]. exfalso. now apply (nul_nonzero m s e i H Hi).
Qed.

Section Stpcpy.
Context (e : Z).

(** A word whose bytes are those of the string up to its end. *)
Lemma write_end m d s g : bytes g 0 8 -> nul_at m s e -> e < s + 8 ->
  (forall i, 0 <= i <= e - s -> g i = from m s i) ->
  exists m', write_byte_from_word m d (W 8 g) = (m', d + (e - s)) /\ moved m d s (e - s + 1) m'.
Proof using Type.
  intros Hg H L Eg. pose proof (proj1 H).
  destruct (write_byte_spec g (e - s) m d Hg) as (m' & E & Hx); [lia | | |].
  - rewrite Eg by lia. now apply nul_zero.
  - intros j Hj. rewrite Eg by lia. apply (nul_nonzero m s e); [exact H | lia | lia].
  - exists m'. split; [exact E|]. intros x. rewrite Hx. bool_cmp. rewrite Eg by lia. reflexivity.
Qed.

Lemma store_moved m d s : (forall x, byte (m x)) -> moved m d s 8 (store_op m d (load_op m s)).
Proof using Type.
  intros Hm x. unfold store_op, load_op. destruct (store_load 8 m m d s) as [F E]; [intros y _; apply Hm|].
  destruct (Z.leb_spec d x), (Z.ltb_spec x (d + 8)); cbn [andb]; try (apply F; lia).
  specialize (E (x - d) ltac:(lia)). now replace (d + (x - d)) with x in E by lia.
Qed.

Lemma moved_keeps m d s n m1 x : apart d s e -> moved m d s n m1 -> 0 <= n -> n <= e - s + 1 ->
  s <= x <= e -> m1 x = m x.
Proof using Type. intros [A|A] H Hn Hn' Hx; rewrite H; bool_cmp. Qed.

Lemma moved_nul m d s n m1 : apart d s e -> moved m d s n m1 -> 0 <= n <= e - s -> nul_at m s e ->
  nul_at m1 (s + n) e.
Proof using Type.
  intros A H Hn Hz. apply (hit_mem_ext (fun b => b =? 0) m).
  - intros x Hx. symmetry. apply (moved_keeps m d s n); auto; lia.
  - eapply hit_advance; [exact Hz | lia].
Qed.

Lemma apart_next d s n : 0 <= n -> apart d s e -> apart (d + n) (s + n) e.
Proof using Type. unfold apart. lia. Qed.

Lemma moved_continue m d s n m1 m' : apart d s e -> 0 <= n <= e - s -> moved m d s n m1 ->
  moved m1 (d + n) (s + n) (e - (s + n) + 1) m' -> moved m d s (e - s + 1) m'.
Proof using Type.
  intros A Hn H1 H2. replace (e - s + 1) with (n + (e - (s + n) + 1)) by lia.
  apply moved_app_fwd with (m1 := m1); auto; try lia. unfold apart in A. lia.
Qed.

Lemma stpcpy_aligned_spec fuel : forall m d s, (forall x, byte (m x)) -> nul_at m s e -> apart d s e ->
  e - s < 8 * Z.of_nat fuel ->
  exists m', stpcpy_aligned_loop fuel m d s = Some (m', d + (e - s)) /\ moved m d s (e - s + 1) m'.
Proof using Type.
  induction fuel as [|fuel IH]; intros m d s Hm H A Hf; [destruct H; lia|]. cbn [stpcpy_aligned_loop].
  destruct (Z.lt_ge_cases e (s + 8)) as [L|L].
  - rewrite (load_from m), (has_zero_true _ (e - s) (from_bytes m Hm s 8)) by (destruct H; lia || now apply nul_zero).
    destruct (write_end m d s (from m s) (from_bytes m Hm s 8) H L) as (m' & -> & Hm'); [reflexivity|].
    exists m'. auto.
  - rewrite (load_from m), has_zero_false, <- (load_from m);
      [|apply from_bytes; exact Hm | intros i Hi; apply (nul_nonzero m s e); auto; lia].
    pose proof (store_moved m d s Hm) as S1. set (m1 := store_op m d (load_op m s)) in *. unfold OPSIZ.
    destruct (IH m1 (d + 8) (s + 8)) as (m' & -> & Hm').
    + exact (moved_byte _ _ _ _ _ Hm S1).
    + apply (moved_nul m d s 8); auto; lia.
    + apply apart_next; [lia | exact A].
    + lia.
    + exists m'. split; [do 2 f_equal; lia|]. apply (moved_continue m d s 8 m1); auto; lia.
Qed.

Context (o : Z) (Ho : 0 < o < 8).

Lemma stpcpy_unaligned_spec fuel : forall m d s ga, (forall x, byte (m x)) -> nul_at m s e -> apart d s e ->
  s mod 8 = o -> bytes ga 0 8 -> (forall i, 0 <= i < 8 - o -> ga (o + i) = from m s i) ->
  s + 8 - o <= e -> e - s < 8 * Z.of_nat fuel ->
  exists m', stpcpy_unaligned_while fuel m (o * CHAR_BIT) (OPSIZ * CHAR_BIT - o * CHAR_BIT) d (s - o + 8) (W 8 ga)
    = Some (m', d + (e - s)) /\ moved m d s (e - s + 1) m'.
Proof using Ho.
  induction fuel as [|fuel IH]; intros m d s ga Hm H A Hs Hga Ega Hse Hf; [lia|]. cbn [stpcpy_unaligned_while].
  assert (Hs8 : (s + 8) mod 8 = o) by (rewrite <- Z.add_mod_idemp_r, Z.add_0_r by lia; exact Hs).
  assert (Em : MERGE (W 8 ga) (o * CHAR_BIT) (load_op m (s - o + 8)) (OPSIZ * CHAR_BIT - o * CHAR_BIT) = load_op m s).
  { rewrite !(load_from m). unfold CHAR_BIT, OPSIZ. replace (o * 8) with (8 * o) by lia. change (8 * 8) with 64.
    rewrite MERGE_W by (assumption || (apply from_bytes; exact Hm)). apply W_ext. intros i Hi. unfold merged.
    destruct (Z.ltb_spec i (8 - o)); [apply Ega; lia|]. unfold from. f_equal. lia. }
  rewrite Em. destruct (Z.lt_ge_cases e (s + 8)) as [L|L].
  { rewrite (load_from m), (has_zero_true _ (e - s) (from_bytes m Hm s 8)) by (destruct H; lia || now apply nul_zero).
    destruct (write_end m d s (from m s) (from_bytes m Hm s 8) H L) as (m' & -> & Hm'); [reflexivity|].
    exists m'. auto. }
  rewrite (load_from m s), has_zero_false, <- (load_from m);
    [|apply from_bytes; exact Hm | intros i Hi; apply (nul_nonzero m s e); auto; lia].
  pose proof (store_moved m d s Hm) as S1. set (m1 := store_op m d (load_op m s)) in *.
  pose proof (moved_byte _ _ _ _ _ Hm S1) as Hm1.
  assert (Hz1 : nul_at m1 (s + 8) e) by (apply (moved_nul m d s 8); auto; lia).
  assert (Hkeep : forall i, 0 <= i <= e - (s + 8) -> from m (s + 8) i = from m1 (s + 8) i).
  { intros i Hi. unfold from. symmetry. apply (moved_keeps m d s 8); auto; lia. }
  assert (Hz : nul_at m (s + 8) e) by (eapply hit_advance; [exact H | lia]).
  unfold OPSIZ at 1 2. replace (s - o + 8) with (s + 8 - o) by lia.
  enough (exists m', (if has_zero (load_op m (s + 8 - o))
    then Some (write_byte_from_word m1 (d + 8) (MERGE (load_op m (s + 8 - o)) (o * CHAR_BIT) 0 (OPSIZ * CHAR_BIT - o * CHAR_BIT)))
    else stpcpy_unaligned_while fuel m1 (o * CHAR_BIT) (OPSIZ * CHAR_BIT - o * CHAR_BIT) (d + 8) (s + 8 - o + 8)
           (load_op m (s + 8 - o))) = Some (m', d + 8 + (e - (s + 8))) /\
    moved m1 (d + 8) (s + 8) (e - (s + 8) + 1) m') as (m' & E & Hm').
  { exists m'. split; [refine (eq_trans E _); do 2 f_equal; lia|]. apply (moved_continue m d s 8 m1); auto; lia. }
  rewrite (load_from m (s + 8 - o)).
  destruct (has_zero_cases (from m (s + 8 - o)) (from_bytes m Hm _ 8)) as [[-> (i & Hi & Zi)]|[-> Nz]].
  - rewrite <- (load_from m). change 0 with (W 8 (fun _ => 0)) at 1. rewrite merge_pad by (assumption || (red; lia)).
    assert (Hi8 : o <= i).
    { destruct (Z.le_gt_cases o i); [assumption|]. exfalso.
      apply (nul_nonzero m s e (i + 8 - o) H); [lia | lia|]. unfold from in *. rewrite <- Zi. f_equal. lia. }
    assert (Li : e <= s + 8 + (i - o)).
    { apply (nul_le m (s + 8) e); [exact Hz | lia|]. unfold from in *. rewrite <- Zi. f_equal. lia. }
    destruct (write_end m1 (d + 8) (s + 8) _ (pad_bytes m Hm o (s + 8) 0 ltac:(red; lia)) Hz1) as (m' & -> & Hm').
    + lia.
    + intros j Hj. destruct (Z.ltb_spec j (8 - o)); [now apply Hkeep | lia].
    + exists m'. auto.
  - assert (He : s + 8 + 8 - o <= e).
    { destruct (Z.le_gt_cases (s + 8 + 8 - o) e); [assumption|]. exfalso.
      apply (Nz (e - (s + 8 - o))); [lia|]. pose proof (nul_zero m _ _ Hz) as Z0. unfold from in *.
      rewrite <- Z0. f_equal. lia. }
    apply IH; auto; try lia.
    + apply apart_next; [lia | exact A].
    + apply from_bytes. exact Hm.
    + intros i Hi. rewrite <- Hkeep by lia. unfold from. f_equal. lia.
Qed.
End Stpcpy.

Lemma stpcpy_head_spec e n : forall m d s, (forall x, byte (m x)) -> nul_at m s e -> apart d s e ->
  exists m', if e - s <? Z.of_nat n
    then stpcpy_head n m d s = (m', inl (d + (e - s))) /\ moved m d s (e - s + 1) m'
    else stpcpy_head n m d s = (m', inr (d + Z.of_nat n, s + Z.of_nat n)) /\ moved m d s (Z.of_nat n) m'.
Proof.
  induction n as [|n IH]; intros m d s Hm H A; cbn [stpcpy_head].
  { pose proof (proj1 H). exists m. destruct (Z.ltb_spec (e - s) (Z.of_nat 0)); [lia|].
    rewrite !Z.add_0_r. split; [reflexivity | intros x; bool_cmp]. }
  assert (M1 : moved m d s 1 (upd m d (m s))) by (intros x; unfold upd; bool_cmp; f_equal; lia).
  pose proof (nul_zero m s e H) as Z0. pose proof (proj1 H) as Hse. destruct (Z.eqb_spec (m s) 0) as [E|E].
  - assert (e = s) as ->. { pose proof (nul_le m s e 0 H ltac:(lia)) as L. unfold from in L. rewrite Z.add_0_r in L. specialize (L E). lia. }
    exists (upd m d (m s)). destruct (Z.ltb_spec (s - s) (Z.of_nat (S n))); [|lia].
    rewrite Z.sub_diag. split; [do 2 f_equal; lia | exact M1].
  - assert (s < e). { destruct (Z.eq_dec e s) as [Ee|]; [|lia]. exfalso. apply E. unfold from in Z0. now replace (s + (e - s)) with s in Z0 by lia. }
    destruct (IH (upd m d (m s)) (d + 1) (s + 1)) as (m' & Hm').
    + exact (moved_byte _ _ _ _ _ Hm M1).
    + apply (moved_nul e m d s 1); auto; lia.
    + apply apart_next; [lia | exact A].
    + exists m'. destruct (Z.ltb_spec (e - (s + 1)) (Z.of_nat n)), (Z.ltb_spec (e - s) (Z.of_nat (S n))); try lia;
        destruct Hm' as [-> Hm'].
      * split; [do 2 f_equal; lia|]. apply (moved_continue e m d s 1 (upd m d (m s))); auto; lia.
      * split; [do 3 f_equal; lia|]. replace (Z.of_nat (S n)) with (1 + Z.of_nat n) by lia.
        apply moved_app_fwd with (m1 := upd m d (m s)); auto; try lia. unfold apart in A. lia.
Qed.

Lemma stpcpy_spec m fuel d s e : (forall x, byte (m x)) -> nul_at m s e -> apart d s e ->
  e - s < 8 * Z.of_nat fuel ->
  exists m', stpcpy fuel m d s = Some (m', d + (e - s)) /\ moved m d s (e - s + 1) m'.
Proof.
  intros Hm H A Hf. unfold stpcpy. change OPSIZ with 8. pose proof (Z.mod_pos_bound (- d) 8 ltac:(lia)) as Hn.
  set (n := (- d) mod 8) in *. destruct (stpcpy_head_spec e (Z.to_nat n) m d s Hm H A) as (m1 & H1).
  rewrite Z2Nat.id in H1 by lia. destruct (Z.ltb_spec (e - s) n) as [L|L]; destruct H1 as [-> M1].
  { exists m1. auto. }
  pose proof (moved_byte _ _ _ _ _ Hm M1) as Hm1.
  assert (Hz : nul_at m1 (s + n) e) by (apply (moved_nul e m d s n); auto; lia).
  assert (A1 : apart (d + n) (s + n) e) by (apply apart_next; [lia | exact A]).
  pose proof (Z.mod_pos_bound (s + n) 8 ltac:(lia)) as Ho. pose proof (proj1 Hz) as Hse.
  enough (exists m', (if (s + n) mod 8 =? 0 then stpcpy_aligned_loop fuel m1 (d + n) (s + n)
    else stpcpy_unaligned_loop fuel m1 (d + n) (s + n - (s + n) mod 8) ((s + n) mod 8))
    = Some (m', d + n + (e - (s + n))) /\ moved m1 (d + n) (s + n) (e - (s + n) + 1) m') as (m' & E & M2).
  { exists m'. split; [rewrite E; do 2 f_equal; lia|]. apply (moved_continue e m d s n m1); auto; lia. }
  destruct (Z.eqb_spec ((s + n) mod 8) 0) as [E|E].
  - apply stpcpy_aligned_spec; auto; lia.
  - set (o := (s + n) mod 8) in *. assert (Ho' : 0 < o < 8) by lia. unfold stpcpy_unaligned_loop. rewrite ones_W.
    rewrite (merge_pad m1 Hm1 o Ho' (s + n) 255 eq_refl) by (red; lia).
    assert (P255 : byte 255) by (red; lia).
    destruct (has_zero_cases _ (pad_bytes m1 Hm1 o (s + n) 255 P255)) as [[-> (i & Hi & Zi)]|[-> Nz]]; cbn [negb].
    + destruct (Z.ltb_spec i (8 - o)) as [Li|Li]; [|discriminate].
      pose proof (nul_le m1 (s + n) e i Hz ltac:(lia) Zi).
      destruct (write_end e m1 (d + n) (s + n) _ (pad_bytes m1 Hm1 o (s + n) 255 P255) Hz) as (m' & -> & M2).
      * lia.
      * intros j Hj. destruct (Z.ltb_spec j (8 - o)); [reflexivity | lia].
      * exists m'. auto.
    + rewrite (load_from m1). apply (stpcpy_unaligned_spec e o Ho'); auto; try lia.
      * apply from_bytes. exact Hm1.
      * intros i Hi. unfold from. f_equal. lia.
      * destruct (Z.le_gt_cases (s + n + 8 - o) e); [assumption|]. exfalso. apply (Nz (e - (s + n))); [lia|].
        destruct (Z.ltb_spec (e - (s + n)) (8 - o)); [now apply nul_zero | lia].
Qed.

(** * Claims *)

(** The order of two strings: the sign of the difference of the first bytes
    that differ, as unsigned char, with the shorter string first. *)
Definition str_compare (m : mem) (p1 e1 p2 e2 : Z) (r : Z) : Prop :=
  (r = 0 <-> str_bytes m p1 e1 = str_bytes m p2 e2) /\
  exists d, p1 + d <= e1 /\ 0 <= d /\ p2 + d <= e2 /\ r = m (p1 + d) - m (p2 + d) /\
    forall j, 0 <= j < d -> m (p1 + j) = m (p2 + j).

Lemma str_bytes_eq m p1 e1 p2 e2 : e1 - p1 = e2 - p2 -> (forall j, 0 <= j < e1 - p1 -> m (p1 + j) = m (p2 + j)) ->
  str_bytes m p1 e1 = str_bytes m p2 e2.
Proof. intros E H. unfold str_bytes. rewrite <- E. apply map_ext_in. intros i Hi%in_seq. apply H. lia. Qed.

Lemma str_bytes_nth m p e i : p <= i < e -> nth (Z.to_nat (i - p)) (str_bytes m p e) 0 = m i.
Proof.
  intros Hi. unfold str_bytes. rewrite (nth_indep _ 0 (m (p + Z.of_nat 0))) by (rewrite length_map, length_seq; lia).
  rewrite (map_nth (fun i => m (p + Z.of_nat i))), seq_nth by lia. f_equal. lia.
Qed.

Lemma str_bytes_length m p e : length (str_bytes m p e) = Z.to_nat (e - p).
Proof. unfold str_bytes. now rewrite length_map, length_seq. Qed.

(** Every bound has a first stop below it, or none. *)
Lemma firstn_exists m p1 p2 n : 0 <= n -> exists d, firstn_at (stops (from m p1) (from m p2)) n d.
Proof.
  intros Hn. set (q i := (from m p1 i =? 0) || negb (from m p1 i =? from m p2 i)).
  assert (Hq : forall i, q i = true <-> stops (from m p1) (from m p2) i).
  { intros i. unfold q, stops. rewrite orb_true_iff, negb_true_iff, Z.eqb_eq, Z.eqb_neq. reflexivity. }
  destruct (hit_or_miss_upto q 0 n) as [(d & (D1 & D2 & D3) & L)|N].
  - exists d. split; [lia|]. split; [intros _; now apply Hq|]. intros j Hj Hs. apply Hq in Hs. rewrite D3 in Hs by lia. discriminate.
  - exists n. split; [lia|]. split; [lia|]. intros j Hj Hs. apply Hq in Hs. rewrite N in Hs by lia. discriminate.
Qed.

Lemma stops_before m p1 p2 n d j : firstn_at (stops (from m p1) (from m p2)) n d -> 0 <= j < d ->
  m (p1 + j) <> 0 /\ m (p1 + j) = m (p2 + j).
Proof.
  intros (_ & _ & H) Hj. specialize (H j Hj). unfold stops, from in H.
  destruct (Z.eq_dec (m (p1 + j)) 0), (Z.eq_dec (m (p1 + j)) (m (p2 + j))); tauto.
Qed.

(** C10: strcmp of two strings at any alignments is the difference, as unsigned
    bytes, of the first position at which they differ or at which both end; it
    is zero exactly when the strings are equal. *)
Theorem strcmp_correct fuel m p1 e1 p2 e2 : (forall x, byte (m x)) ->
  nul_at m p1 e1 -> nul_at m p2 e2 -> e1 - p1 < 8 * Z.of_nat fuel ->
  exists r, strcmp fuel m p1 p2 = Some r /\ str_compare m p1 e1 p2 e2 r.
Proof.
  intros Hm H1 H2 Hf. pose proof (proj1 H1) as L1. pose proof (proj1 H2) as L2.
  destruct (firstn_exists m p1 p2 (e1 - p1 + 1) ltac:(lia)) as (d & Hd).
  pose proof (nul_zero m p1 e1 H1) as Z1. pose proof (nul_zero m p2 e2 H2) as Z2.
  pose proof (firstn_le _ _ _ (e1 - p1) Hd ltac:(lia) (or_introl Z1)) as Ld.
  pose proof Hd as (D0 & D1 & D2). specialize (D1 ltac:(lia)).
  assert (Ld2 : p2 + d <= e2).
  { destruct (Z.le_gt_cases (p2 + d) e2); [assumption|]. exfalso.
    destruct (stops_before m p1 p2 _ d (e2 - p2) Hd ltac:(lia)) as [N E]. unfold from in Z2. congruence. }
  eexists. split; [apply (strcmp_spec m Hm fuel p1 p2 d); [split; [lia | auto] | lia]|].
  split; [|exists d; repeat split; try lia; intros j Hj; now apply (stops_before m p1 p2 (e1 - p1 + 1) d)].
  split.
  - intros E. destruct D1 as [D1|D1]; [|unfold from in D1; lia]. unfold from in D1.
    assert (e1 = p1 + d) by (pose proof (nul_le m p1 e1 d H1 ltac:(lia) D1); lia).
    assert (e2 = p2 + d) by (pose proof (nul_le m p2 e2 d H2 ltac:(lia) ltac:(unfold from; lia)); lia).
    apply str_bytes_eq; [lia|]. intros j Hj. apply (stops_before m p1 p2 _ d j Hd). lia.
  - intros E. assert (El : e1 - p1 = e2 - p2).
    { apply (f_equal (@length Z)) in E. rewrite !str_bytes_length in E. lia. }
    destruct (Z.eq_dec d (e1 - p1)) as [->|Hn].
    + unfold from in Z1, Z2. rewrite El in *. lia.
    + assert (m (p1 + d) = m (p2 + d)); [|lia].
      rewrite <- (str_bytes_nth m p1 e1 (p1 + d)), <- (str_bytes_nth m p2 e2 (p2 + d)) by lia.
      rewrite E. f_equal. lia.
Qed.

(** strncmp compares at most [n] bytes, of strings or of arrays without a
    NUL: it is zero exactly when no position below [n] that both reach
    differs, and otherwise the difference at the first that does. *)
Lemma strncmp_correct fuel m p1 p2 n : (forall x, byte (m x)) -> 0 <= n ->
  n < 8 * Z.of_nat fuel \/ (exists e1, nul_at m p1 e1 /\ e1 - p1 < 8 * Z.of_nat fuel) ->
  exists r, strncmp fuel m p1 p2 n = Some r /\
    (r = 0 <-> forall j, 0 <= j < n -> (forall k, 0 <= k < j -> m (p1 + k) <> 0) -> m (p1 + j) = m (p2 + j)) /\
    (r <> 0 -> exists d, 0 <= d < n /\ r = m (p1 + d) - m (p2 + d) /\
       forall j, 0 <= j < d -> m (p1 + j) <> 0 /\ m (p1 + j) = m (p2 + j)).
Proof.
  intros Hm Hn Hf. destruct (firstn_exists m p1 p2 n Hn) as (d & Hd).
  assert (Lf : d < 8 * Z.of_nat fuel).
  { destruct Hf as [Hf|(e1 & H1 & Hf)]; [destruct Hd; lia|]. pose proof (nul_zero m p1 e1 H1) as Z1.
    pose proof (firstn_le _ _ _ (e1 - p1) Hd ltac:(destruct H1; lia) (or_introl Z1)). lia. }
  rewrite (strncmp_spec m Hm fuel p1 p2 n d Hn Hd Lf). eexists. split; [reflexivity|].
  pose proof (fun j => stops_before m p1 p2 n d j Hd) as Hb. destruct Hd as (D0 & D1 & D2).
  unfold ncmp_val. destruct (Z.ltb_spec d n) as [L|L].
  - specialize (D1 L). unfold stops, from in D1. split; [|intros _; exists d; split; [lia | split; [reflexivity | exact Hb]]].
    split.
    + intros E j Hj Hk. destruct (Z.lt_trichotomy j d) as [Lj|[->|Lj]]; [now apply Hb | lia |].
      destruct D1 as [D1|D1]; [|lia]. exfalso. apply (Hk d); [lia | exact D1].
    + intros H. rewrite (H d); [lia | lia |]. intros k Hk. now apply Hb.
  - split; [|intros Hne; lia]. split; [|reflexivity]. intros _ j Hj _. apply Hb. lia.
Qed.

(** stpcpy copies a string and its NUL, whatever the alignments, without
    touching another byte, and returns the address of the copied NUL; strcpy
    returns the destination; strcat appends at the NUL of the destination. *)
Lemma str_copy_correct fuel m d ed s e : (forall x, byte (m x)) -> nul_at m s e -> apart d s e ->
  nul_at m d ed -> apart ed s e -> e - s < 8 * Z.of_nat fuel -> reaches fuel d ed ->
  (exists m', stpcpy fuel m d s = Some (m', d + (e - s)) /\ strcpy fuel m d s = Some (m', d) /\
     str_bytes m' d (d + (e - s)) = str_bytes m s e /\ m' (d + (e - s)) = 0 /\
     forall x, ~ (d <= x <= d + (e - s)) -> m' x = m x) /\
  (exists m', strcat fuel m d s = Some (m', d) /\
     str_bytes m' d (ed + (e - s)) = str_bytes m d ed ++ str_bytes m s e /\ m' (ed + (e - s)) = 0 /\
     forall x, ~ (ed <= x <= ed + (e - s)) -> m' x = m x).
Proof.
  intros Hm H A Hd Ad Hf R. pose proof (proj1 H) as Hse. pose proof H as (_ & H0 & _). apply Z.eqb_eq in H0.
  assert (Hcopy : forall m' a, moved m a s (e - s + 1) m' ->
    str_bytes m' a (a + (e - s)) = str_bytes m s e /\ m' (a + (e - s)) = 0 /\
    forall x, ~ (a <= x <= a + (e - s)) -> m' x = m x).
  { intros m' a M. split; [|split].
    - unfold str_bytes. replace (a + (e - s) - a) with (e - s) by lia. apply map_ext_in. intros i Hi%in_seq.
      rewrite M. bool_cmp. f_equal. lia.
    - rewrite M. bool_cmp. rewrite <- H0. f_equal. lia.
    - intros x Hx. rewrite M. bool_cmp. }
  split.
  - destruct (stpcpy_spec m fuel d s e Hm H A Hf) as (m' & E & M). exists m'. split; [exact E|].
    unfold strcpy. rewrite E. split; [reflexivity | now apply Hcopy].
  - destruct (stpcpy_spec m fuel ed s e Hm H Ad Hf) as (m' & E & M). exists m'.
    unfold strcat, strcpy. rewrite (strlen_spec m Hm fuel d ed Hd R).
    replace (d + (ed - d)) with ed by lia. rewrite E. split; [reflexivity|].
    destruct (Hcopy m' ed M) as (C1 & C2 & C3). split; [|split; [exact C2 | exact C3]].
    pose proof (proj1 Hd). rewrite (str_bytes_app m' d ed) by lia. rewrite C1. f_equal.
    apply str_bytes_ext. intros x Hx. apply C3. lia.
Qed.

Lemma strcmp_correct_witness :
  strcmp 1 example_mem 101 110 = Some (97 - 59) /\
  exists r, strcmp 1 example_mem 101 110 = Some r /\ str_compare example_mem 101 108 110 112 r.
Proof.
  split; [vm_compute; reflexivity|]. apply strcmp_correct.
  - apply at_bytes_byte. reflexivity.
  - apply hit_check. vm_compute. reflexivity.
  - apply hit_check. vm_compute. reflexivity.
  - lia.
Defined.

Lemma strncmp_correct_witness :
  exists r, strncmp 1 example_mem 101 110 1 = Some r /\
    (r = 0 <-> forall j, 0 <= j < 1 -> (forall k, 0 <= k < j -> example_mem (101 + k) <> 0) ->
       example_mem (101 + j) = example_mem (110 + j)) /\
    (r <> 0 -> exists d, 0 <= d < 1 /\ r = example_mem (101 + d) - example_mem (110 + d) /\
       forall j, 0 <= j < d -> example_mem (101 + j) <> 0 /\ example_mem (101 + j) = example_mem (110 + j)).
Proof.
  apply strncmp_correct.
  - apply at_bytes_byte. reflexivity.
  - lia.
  - left. lia.
Defined.

Lemma str_copy_correct_witness :
  exists m', strcat 2 example_mem 110 101 = Some (m', 110) /\
     str_bytes m' 110 (112 + (108 - 101)) = str_bytes example_mem 110 112 ++ str_bytes example_mem 101 108 /\
     m' (112 + (108 - 101)) = 0 /\
     forall x, ~ (112 <= x <= 112 + (108 - 101)) -> m' x = example_mem x.
Proof.
  apply (str_copy_correct 2 example_mem 110 112 101 108).
  - apply at_bytes_byte. reflexivity.
  - apply hit_check. vm_compute. reflexivity.
  - right. lia.
  - apply hit_check. vm_compute. reflexivity.
  - right. lia.
  - lia.
  - vm_compute. reflexivity.
Defined.
