(* ===== verification/MemCmp.v ===== *)
(** * Comparing memory (string/memcmp.c)

    As for the copying routines, the word loops are unrolled and entered at a label
    [do1] ... [do4]; [stmt k] is the group of statements at label [do k]: it loads the
    next words and compares the words loaded before, and returns if they differ. *)

From Stdlib Require Import ZArith List Lia Bool.
From S2P Require Import Prelude StrWord Str MemCopy.
Import ListNotations.
#[local] Open Scope Z_scope.
#[local] Open Scope glibc_scope.

(** The difference of two bytes as an [op_t], and an [op_t] returned as an [int]. *)
Definition byte_diff (a0 b0 : Z) : Z := wrap 64 (a0 - b0).
Definition as_int (res : Z) : Z := swrap 32 res.

(** [fuel] bytes are left in the words. *)
Fixpoint memcmp_bytes_loop (fuel : nat) (a b : Z) : option Z :=
  match fuel with
  | O => None
  | S fuel =>
      let a0 := wrap 8 a in
      let b0 := wrap 8 b in
      if a0 =? b0 then memcmp_bytes_loop fuel (a / 256) (b / 256) else Some (as_int (byte_diff a0 b0))
  end.

Definition memcmp_bytes (a b : Z) : option Z := memcmp_bytes_loop 8 a b.

(** if (x != y) return CMP_LT_OR_GT (x, y); *)
Definition differ (x y : Z) {S} (s : S) : S + option Z := if x =? y then inl s else inr (memcmp_bytes x y).

Definition state := (regs * regs)%type.

(** The statements from label [do k] to the end of the loop body. *)
Fixpoint cmp_body (stmt : nat -> state -> state + option Z) (k : nat) (s : state) : state + option Z :=
  match k with
  | O => inl s
  | S k' => match stmt k s with inl s => cmp_body stmt k' s | inr r => inr r end
  end.

(** The loop from label [do k], and the comparison [do0] behind it. *)
Fixpoint cmp_loop (stmt : Z -> Z -> nat -> state -> state + option Z) (do0 : state -> option Z)
    (fuel k : nat) (srcp1 srcp2 len : Z) (s : state) : option Z :=
  match fuel with
  | O => None
  | S fuel =>
      match cmp_body (stmt srcp1 srcp2) k s with
      | inr r => r
      | inl s =>
          let srcp1 := srcp1 + 4 * OPSIZ in
          let srcp2 := srcp2 + 4 * OPSIZ in
          let len := len - 4 in
          if len =? 0 then do0 s else cmp_loop stmt do0 fuel 4 srcp1 srcp2 len s
      end
  end.

(** do4: a0 = src1[0]; b0 = src2[0]; compare a1 and b1;
    do3: a1 = src1[1]; b1 = src2[1]; compare a0 and b0; ... *)
Definition common_stmt (m : mem) (srcp1 srcp2 : Z) (k : nat) (s : state) : state + option Z :=
  let '(a, b) := s in
  let i := 4 - Z.of_nat k in
  let a := upd a (i mod 2) (word_at m srcp1 i) in
  let b := upd b (i mod 2) (word_at m srcp2 i) in
  differ (a ((i + 1) mod 2)) (b ((i + 1) mod 2)) (a, b).

Definition common_do0 (s : state) : option Z :=
  let '(a, b) := s in
  match differ (a 1) (b 1) s with inl _ => Some 0 | inr r => r end.

Definition memcmp_common_alignment (m : mem) (srcp1 srcp2 len : Z) : option Z :=
  let goto_do (k : nat) := cmp_loop (common_stmt m) common_do0 (S (Z.to_nat len)) k in
  let s r : state := (upd no_regs r (word_at m srcp1 0), upd no_regs r (word_at m srcp2 0)) in
  match len mod 4 with
  | 3 => goto_do 2%nat (srcp1 - OPSIZ) (srcp2 - OPSIZ) (len + 1) (s 1)
  | 0 =>
      if (OP_T_THRES <=? 3 * OPSIZ) && (len =? 0) then Some 0
      else goto_do 3%nat srcp1 srcp2 len (s 0)
  | 1 =>
      if (OP_T_THRES <=? 3 * OPSIZ) && (len - 1 =? 0) then common_do0 (s 1)
      else goto_do 4%nat (srcp1 + OPSIZ) (srcp2 + OPSIZ) (len - 1) (s 1)
  | _ => goto_do 1%nat (srcp1 - 2 * OPSIZ) (srcp2 - 2 * OPSIZ) (len + 2) (s 0)
  end.

(** do4: a0 = src1[0]; b0 = src2[0]; compare MERGE (a2, shl, a3, shr) and b3;
    do3: a1 = src1[1]; b1 = src2[1]; compare MERGE (a3, shl, a0, shr) and b0; ... *)
Definition not_common_stmt (m : mem) (shl shr srcp1 srcp2 : Z) (k : nat) (s : state) : state + option Z :=
  let '(a, b) := s in
  let i := 4 - Z.of_nat k in
  let a := upd a i (word_at m srcp1 i) in
  let b := upd b i (word_at m srcp2 i) in
  differ (MERGE (a ((i + 2) mod 4)) shl (a ((i + 3) mod 4)) shr) (b ((i + 3) mod 4)) (a, b).

Definition not_common_do0 (shl shr : Z) (s : state) : option Z :=
  let '(a, b) := s in
  match differ (MERGE (a 2) shl (a 3) shr) (b 3) s with inl _ => Some 0 | inr r => r end.

Definition memcmp_not_common_alignment (m : mem) (srcp1 srcp2 len : Z) : option Z :=
  let shl := 8 * (srcp1 mod OPSIZ) in
  let shr := 8 * OPSIZ - shl in
  let srcp1 := Z.land srcp1 (- OPSIZ) in
  let goto_do (k : nat) := cmp_loop (not_common_stmt m shl shr) (not_common_do0 shl shr) (S (Z.to_nat len)) k in
  let s r r' q : state := (upd (upd no_regs r (word_at m srcp1 0)) r' (word_at m srcp1 1), upd no_regs q (word_at m srcp2 0)) in
  match len mod 4 with
  | 3 => goto_do 2%nat srcp1 (srcp2 - 1 * OPSIZ) (len + 1) (s 0 1 1)
  | 0 =>
      if (OP_T_THRES <=? 3 * OPSIZ) && (len =? 0) then Some 0
      else goto_do 3%nat (srcp1 + 1 * OPSIZ) srcp2 len (s 3 0 0)
  | 1 =>
      if (OP_T_THRES <=? 3 * OPSIZ) && (len - 1 =? 0) then not_common_do0 shl shr (s 2 3 3)
      else goto_do 4%nat (srcp1 + 2 * OPSIZ) (srcp2 + 1 * OPSIZ) (len - 1) (s 2 3 3)
  | _ => goto_do 1%nat (srcp1 - 1 * OPSIZ) (srcp2 - 2 * OPSIZ) (len + 2) (s 1 2 2)
  end.

(** while (srcp2 % OPSIZ != 0) ...: the result, or the values at the end. *)
Fixpoint memcmp_align (fuel : nat) (m : mem) (srcp1 srcp2 len : Z) : option ((Z * Z * Z) + Z) :=
  match fuel with
  | O => None
  | S fuel =>
      if srcp2 mod OPSIZ =? 0 then Some (inl (srcp1, srcp2, len))
      else
        let res := byte_diff (m srcp1) (m srcp2) in
        if negb (res =? 0) then Some (inr (as_int res)) else memcmp_align fuel m (srcp1 + 1) (srcp2 + 1) (len - 1)
  end.

(** while (len != 0) ... *)
Fixpoint memcmp_rest (fuel : nat) (m : mem) (srcp1 srcp2 len : Z) : option Z :=
  match fuel with
  | O => None
  | S fuel =>
      if len =? 0 then Some 0
      else
        let res := byte_diff (m srcp1) (m srcp2) in
        if negb (res =? 0) then Some (as_int res) else memcmp_rest fuel m (srcp1 + 1) (srcp2 + 1) (len - 1)
  end.

Definition memcmp (m : mem) (s1 s2 len : Z) : option Z :=
  if OP_T_THRES <=? len then
    let? x := memcmp_align 8 m s1 s2 len in
    match x with
    | inr r => Some r
    | inl (srcp1, srcp2, len) =>
        let? res := (if srcp1 mod OPSIZ =? 0 then memcmp_common_alignment m srcp1 srcp2 (len / OPSIZ)
                     else memcmp_not_common_alignment m srcp1 srcp2 (len / OPSIZ)) in
        let res := wrap 64 res in
        if negb (res =? 0) then Some (as_int res)
        else memcmp_rest 16 m (srcp1 + Z.land len (- OPSIZ)) (srcp2 + Z.land len (- OPSIZ)) (len mod OPSIZ)
    end
  else memcmp_rest 16 m s1 s2 len.

(** * Proofs *)

(** ** The reference: byte after byte *)

Fixpoint bytes_cmp (n : nat) (m : mem) (p q : Z) : Z :=
  match n with O => 0 | S n => if m p =? m q then bytes_cmp n m (p + 1) (q + 1) else m p - m q end.

Lemma bytes_cmp_app a : forall m p q b, bytes_cmp (a + b) m p q =
  if bytes_cmp a m p q =? 0 then bytes_cmp b m (p + Z.of_nat a) (q + Z.of_nat a) else bytes_cmp a m p q.
Proof.
  induction a as [|a IH]; intros m p q b; [cbn; rewrite !Z.add_0_r; reflexivity|]. cbn [Nat.add bytes_cmp]. destruct (Z.eqb_spec (m p) (m q)) as [E|E].
  - rewrite IH. replace (p + 1 + Z.of_nat a) with (p + Z.of_nat (S a)) by lia. replace (q + 1 + Z.of_nat a) with (q + Z.of_nat (S a)) by lia. reflexivity.
  - destruct (Z.eqb_spec (m p - m q) 0); [lia | reflexivity].
Qed.

Lemma bytes_cmp_range m n : (forall x, byte (m x)) -> forall p q, -255 <= bytes_cmp n m p q <= 255.
Proof. intros Hm. induction n as [|n IH]; intros p q; cbn; [lia|]. destruct (_ =? _); [apply IH|]. pose proof (Hm p). pose proof (Hm q). unfold byte in *. lia. Qed.

Lemma bytes_cmp_0 m n : forall p q, bytes_cmp n m p q = 0 <-> forall i, 0 <= i < Z.of_nat n -> m (p + i) = m (q + i).
Proof.
  induction n as [|n IH]; intros p q; cbn [bytes_cmp]; [split; [intros _ i Hi; lia | auto]|]. destruct (Z.eqb_spec (m p) (m q)) as [E|E].
  - rewrite IH. split; intros H i Hi.
    + destruct (Z.eq_dec i 0) as [->|Hn]; [rewrite !Z.add_0_r; exact E|]. specialize (H (i - 1) ltac:(lia)). replace (p + 1 + (i - 1)) with (p + i) in H by lia. replace (q + 1 + (i - 1)) with (q + i) in H by lia. exact H.
    + specialize (H (i + 1) ltac:(lia)). replace (p + 1 + i) with (p + (i + 1)) by lia. replace (q + 1 + i) with (q + (i + 1)) by lia. exact H.
  - split; [lia|]. intros H. specialize (H 0 ltac:(lia)). rewrite !Z.add_0_r in H. contradiction.
Qed.

Lemma as_int_diff a b : byte a -> byte b -> as_int (byte_diff a b) = a - b.
Proof.
  unfold byte, as_int, byte_diff, swrap, wrap. intros Ha Hb. destruct (Z.leb_spec 0 (a - b)).
  - rewrite (Z.mod_small (a - b)) by lia. rewrite Z.mod_small by lia. lia.
  - assert (E : (a - b) mod 2 ^ 64 = a - b + 2 ^ 64) by (symmetry; apply (Z.mod_unique_pos _ _ (-1)); lia). rewrite E.
    assert (E2 : (a - b + 2 ^ 64 + 2 ^ (32 - 1)) mod 2 ^ 32 = a - b + 2 ^ (32 - 1)) by (symmetry; apply (Z.mod_unique_pos _ _ (2 ^ 32)); lia). rewrite E2. lia.
Qed.

Lemma byte_diff_0 a b : byte a -> byte b -> (byte_diff a b =? 0) = (a =? b).
Proof.
  intros Ha Hb. pose proof (as_int_diff a b Ha Hb) as H. destruct (Z.eqb_spec a b) as [->|E]; [unfold byte_diff; rewrite Z.sub_diag; reflexivity|].
  destruct (Z.eqb_spec (byte_diff a b) 0) as [E0|]; [|reflexivity]. rewrite E0 in H. change (as_int 0) with 0 in H. lia.
Qed.

(** ** One word *)

Lemma load_le_byte k m p : byte (m p) -> wrap 8 (load_le (S k) m p) = m p /\ load_le (S k) m p / 256 = load_le k m (p + 1).
Proof.
  intros H. unfold byte in H. cbn [load_le]. unfold wrap. change (2 ^ 8) with 256. split.
  - symmetry. apply (Z.mod_unique_pos _ _ (load_le k m (p + 1))); lia.
  - symmetry. apply (Z.div_unique_pos _ _ _ (m p)); lia.
Qed.

Lemma load_le_cmp k m : (forall x, byte (m x)) -> forall p q,
  (load_le k m p = load_le k m q <-> bytes_cmp k m p q = 0) /\
  (load_le k m p <> load_le k m q -> memcmp_bytes_loop k (load_le k m p) (load_le k m q) = Some (bytes_cmp k m p q)).
Proof.
  intros Hm. induction k as [|k IH]; intros p q; [cbn; split; [split; auto | congruence]|]. destruct (IH (p + 1) (q + 1)) as [IH1 IH2].
  cbn [memcmp_bytes_loop]. destruct (load_le_byte k m p (Hm p)) as [Ep Dp]. destruct (load_le_byte k m q (Hm q)) as [Eq Dq]. rewrite Ep, Eq, Dp, Dq. cbn [bytes_cmp].
  assert (Hl : load_le (S k) m p = load_le (S k) m q <-> m p = m q /\ load_le k m (p + 1) = load_le k m (q + 1)) by (split; [intros H; split; congruence | cbn; intros [-> ->]; reflexivity]).
  destruct (Z.eqb_spec (m p) (m q)) as [E|E]; (split; [rewrite Hl|]).
  - rewrite <- IH1. tauto.
  - intros H. apply IH2. tauto.
  - split; [tauto | lia].
  - intros _. rewrite as_int_diff by apply Hm. reflexivity.
Qed.

(** ** The unrolled loops

    [w1 t] and [w2 t] are the [t]-th words, of [L], at [S1] and [S2].  [Inv p q k t s]: at
    label [k], with the source pointers [p] and [q], the [t]-th words are in registers
    and are compared next. *)
Section Loop.
Context (m : mem) (Hm : forall x, byte (m x)) (S1 S2 L : Z).
Let w1 (t : Z) := load_op m (S1 + 8 * t).
Let w2 (t : Z) := load_op m (S2 + 8 * t).
Context (stmt : Z -> Z -> nat -> state -> state + option Z) (do0 : state -> option Z).
Context (Inv : Z -> Z -> nat -> Z -> state -> Prop).
Context (Hstep : forall p q k t s, (k < 4)%nat -> Inv p q (S k) t s -> exists s', stmt p q (S k) s = differ (w1 t) (w2 t) s' /\ Inv p q k (t + 1) s').
Context (Hwrap : forall p q t s, Inv p q 0 t s -> Inv (p + 4 * OPSIZ) (q + 4 * OPSIZ) 4 t s).
Context (Hdo0 : forall p q t s, Inv p q 0 t s -> do0 s = match differ (w1 t) (w2 t) s with inl _ => Some 0 | inr r => r end).

Lemma words_cmp t n : 0 <= t -> bytes_cmp (8 * S n) m (S1 + 8 * t) (S2 + 8 * t) =
  if w1 t =? w2 t then bytes_cmp (8 * n) m (S1 + 8 * (t + 1)) (S2 + 8 * (t + 1)) else bytes_cmp 8 m (S1 + 8 * t) (S2 + 8 * t).
Proof using Hm.
  intros Ht. replace (8 * S n)%nat with (8 + 8 * n)%nat by lia. rewrite bytes_cmp_app. destruct (load_le_cmp 8 m Hm (S1 + 8 * t) (S2 + 8 * t)) as [E _]. unfold w1, w2, load_op.
  change (Z.of_nat 8) with 8. replace (S1 + 8 * t + 8) with (S1 + 8 * (t + 1)) by lia. replace (S2 + 8 * t + 8) with (S2 + 8 * (t + 1)) by lia.
  destruct (Z.eqb_spec (bytes_cmp 8 m (S1 + 8 * t) (S2 + 8 * t)) 0) as [E0|E0], (Z.eqb_spec (load_le 8 m (S1 + 8 * t)) (load_le 8 m (S2 + 8 * t))) as [E1|E1]; tauto.
Qed.

Lemma differ_spec {S} t (s : S) : (w1 t = w2 t /\ differ (w1 t) (w2 t) s = inl s) \/
  (w1 t <> w2 t /\ differ (w1 t) (w2 t) s = inr (Some (bytes_cmp 8 m (S1 + 8 * t) (S2 + 8 * t)))).
Proof using Hm.
  unfold differ. destruct (Z.eqb_spec (w1 t) (w2 t)) as [E|E]; [auto|]. right. split; [exact E|]. f_equal. apply (load_le_cmp 8 m Hm). exact E.
Qed.

Lemma cmp_body_spec k : forall p q t n s, (k <= 4)%nat -> 0 <= t -> Inv p q k t s ->
  (exists s', cmp_body (stmt p q) k s = inl s' /\ Inv p q 0 (t + Z.of_nat k) s' /\
     bytes_cmp (8 * (k + n)) m (S1 + 8 * t) (S2 + 8 * t) = bytes_cmp (8 * n) m (S1 + 8 * (t + Z.of_nat k)) (S2 + 8 * (t + Z.of_nat k))) \/
  cmp_body (stmt p q) k s = inr (Some (bytes_cmp (8 * (k + n)) m (S1 + 8 * t) (S2 + 8 * t))).
Proof using Hm Hstep.
  induction k as [|k IH]; intros p q t n s Hk Ht Hi; cbn [cmp_body].
  - left. exists s. rewrite Z.add_0_r. auto.
  - destruct (Hstep p q k t s ltac:(lia) Hi) as (s' & -> & Hi'). change (S k + n)%nat with (S (k + n)). rewrite (words_cmp t (k + n) Ht). destruct (differ_spec t s') as [[E ->]|[E ->]].
    + rewrite E, Z.eqb_refl. destruct (IH p q (t + 1) n s' ltac:(lia) ltac:(lia) Hi') as [(s2 & H1 & H2 & H3)|H]; [left | right; exact H].
      exists s2. replace (t + Z.of_nat (S k)) with (t + 1 + Z.of_nat k) by lia. auto.
    + right. destruct (Z.eqb_spec (w1 t) (w2 t)); [contradiction | reflexivity].
Qed.

Lemma cmp_loop_spec fuel : forall k p q len t s, (0 < k <= 4)%nat -> 0 <= t -> 0 < len -> len mod 4 = 0 -> len <= 4 * Z.of_nat fuel ->
  Inv p q k t s -> t + Z.of_nat k + len - 4 = L - 1 ->
  cmp_loop stmt do0 fuel k p q len s = Some (bytes_cmp (Z.to_nat (8 * (L - t))) m (S1 + 8 * t) (S2 + 8 * t)).
Proof using Hm Hstep Hwrap Hdo0.
  induction fuel as [|fuel IH]; intros k p q len t s Hk Ht Hl Hmod Hf Hi Hn; [lia|]. cbn [cmp_loop].
  assert (H4 : 4 <= len) by (pose proof (Z.div_mod len 4 ltac:(lia)); lia).
  replace (Z.to_nat (8 * (L - t))) with (8 * (k + Z.to_nat (L - t - Z.of_nat k)))%nat by lia.
  destruct (cmp_body_spec k p q t (Z.to_nat (L - t - Z.of_nat k)) s ltac:(lia) Ht Hi) as [(s' & -> & Hi' & ->)| ->]; [|reflexivity].
  destruct (Z.eqb_spec (len - 4) 0) as [E|E].
  - rewrite (Hdo0 _ _ _ _ Hi'). replace (Z.to_nat (L - t - Z.of_nat k)) with 1%nat by lia. rewrite (words_cmp (t + Z.of_nat k) 0) by lia. destruct (differ_spec (t + Z.of_nat k) s') as [[E1 ->]|[E1 ->]].
    + rewrite E1, Z.eqb_refl. reflexivity.
    + destruct (Z.eqb_spec (w1 (t + Z.of_nat k)) (w2 (t + Z.of_nat k))); [contradiction | reflexivity].
  - rewrite (IH 4%nat _ _ _ (t + Z.of_nat k)); try lia; [|pose proof (Z.mod_add len (-1) 4 ltac:(lia)) as E2; replace (len + -1 * 4) with (len - 4) in E2 by lia; lia | apply Hwrap, Hi'].
    do 2 f_equal. lia.
Qed.

Lemma do0_spec p q s : Inv p q 0 0 s -> L = 1 -> do0 s = Some (bytes_cmp (Z.to_nat (8 * L)) m S1 S2).
Proof using Hm Hdo0.
  intros Hi ->. rewrite (Hdo0 _ _ _ _ Hi). pose proof (words_cmp 0 0 ltac:(lia)) as E. cbn [Nat.mul Nat.add] in E. rewrite !Z.mul_0_r, !Z.add_0_r in E. change (Z.to_nat (8 * 1)) with 8%nat. rewrite E.
  destruct (differ_spec 0 s) as [[E1 ->]|[E1 ->]].
  - rewrite E1, Z.eqb_refl. reflexivity.
  - destruct (Z.eqb_spec (w1 0) (w2 0)); [contradiction | rewrite !Z.mul_0_r, !Z.add_0_r; reflexivity].
Qed.
End Loop.

(** ** The two alignments *)

Definition common_inv (m : mem) (S1 S2 p q : Z) (k : nat) (t : Z) (s : state) : Prop :=
  let i := 4 - Z.of_nat k in
  p + 8 * i = S1 + 8 * (t + 1) /\ q + 8 * i = S2 + 8 * (t + 1) /\
  fst s ((i + 1) mod 2) = load_op m (S1 + 8 * t) /\ snd s ((i + 1) mod 2) = load_op m (S2 + 8 * t).

Lemma common_step m S1 S2 p q k t s : (k < 4)%nat -> common_inv m S1 S2 p q (S k) t s ->
  exists s', common_stmt m p q (S k) s = differ (load_op m (S1 + 8 * t)) (load_op m (S2 + 8 * t)) s' /\ common_inv m S1 S2 p q k (t + 1) s'.
Proof.
  intros Hk (H1 & H2 & H3 & H4). destruct s as [a b]. cbn [fst snd] in *. unfold common_stmt. set (i := 4 - Z.of_nat (S k)) in *.
  assert (Hi : (i + 1) mod 2 <> i mod 2 /\ (i + 1 + 1) mod 2 = i mod 2) by (assert (Hc : i = 0 \/ i = 1 \/ i = 2 \/ i = 3) by lia; destruct Hc as [->|[->|[->| ->]]]; split; [discriminate | reflexivity | discriminate | reflexivity | discriminate | reflexivity | discriminate | reflexivity]).
  destruct Hi as [Hn Hp]. rewrite !(upd_ne _ (i mod 2)) by exact Hn. rewrite H3, H4. eexists. split; [reflexivity|]. unfold common_inv. cbn [fst snd].
  replace (4 - Z.of_nat k) with (i + 1) by lia. rewrite Hp, !upd_eq. unfold word_at, OPSIZ. repeat split; try lia; f_equal; lia.
Qed.

Lemma memcmp_common_alignment_spec m p q len : (forall x, byte (m x)) -> 0 <= len ->
  memcmp_common_alignment m p q len = Some (bytes_cmp (Z.to_nat (8 * len)) m p q).
Proof.
  intros Hm Hl. unfold memcmp_common_alignment. pose proof (Z.mod_pos_bound len 4 ltac:(lia)) as Hb.
  set (s := fun r => (upd no_regs r (word_at m p 0), upd no_regs r (word_at m q 0)) : state).
  assert (Hgo : forall k p' q' len' r, (0 < k <= 4)%nat -> 0 < len' -> len' mod 4 = 0 -> len' <= 4 * (len + 1) -> p' + 8 * (4 - Z.of_nat k) = p + 8 -> q' + 8 * (4 - Z.of_nat k) = q + 8 -> Z.of_nat k + len' - 4 = len - 1 ->
    (4 - Z.of_nat k + 1) mod 2 = r ->
    cmp_loop (common_stmt m) common_do0 (S (Z.to_nat len)) k p' q' len' (s r) = Some (bytes_cmp (Z.to_nat (8 * len)) m p q)).
  { intros k p' q' len' r Hk Hl' Hm4 Hf Hp Hq Hn Hr.
    rewrite (cmp_loop_spec m Hm p q len (common_stmt m) common_do0 (common_inv m p q)) with (t := 0); try lia.
    - rewrite Z.sub_0_r, !Z.mul_0_r, !Z.add_0_r. reflexivity.
    - intros. eapply common_step; eauto.
    - intros p1 q1 t s1 (H1 & H2 & H3 & H4). unfold common_inv, OPSIZ. repeat split; [lia | lia | exact H3 | exact H4].
    - intros p1 q1 t [a b] (H1 & H2 & H3 & H4). cbn [fst snd] in *. change ((4 - Z.of_nat 0 + 1) mod 2) with 1 in *. unfold common_do0. rewrite H3, H4. reflexivity.
    - unfold common_inv, s. cbn [fst snd]. rewrite Hr, !upd_eq. unfold word_at, OPSIZ. repeat split; try lia; f_equal; lia. }
  pose proof (Z.div_mod len 4 ltac:(lia)) as Hdm.
  assert (Hmod : forall c, (len mod 4 + c) mod 4 = 0 -> (len + c) mod 4 = 0) by (intros c; apply mod_fix).
  assert (Hcase : len mod 4 = 0 \/ len mod 4 = 1 \/ len mod 4 = 2 \/ len mod 4 = 3) by lia.
  destruct Hcase as [E|[E|[E|E]]]; rewrite E.
  - destruct (Z.eqb_spec len 0) as [->|Hn]; [reflexivity|]. cbn [andb Z.leb OP_T_THRES OPSIZ]. rewrite andb_false_r. apply Hgo; try reflexivity; lia.
  - specialize (Hmod (-1)). rewrite E in Hmod. specialize (Hmod eq_refl). replace (len + -1) with (len - 1) in Hmod by lia. destruct (Z.eqb_spec (len - 1) 0) as [E1|Hn].
    + assert (len = 1) as -> by lia. change ((OP_T_THRES <=? 3 * OPSIZ) && true) with true. cbv iota.
      apply (do0_spec m Hm p q 1 common_do0 (common_inv m p q)) with (p := p - 24) (q := q - 24); [| |reflexivity].
      * intros p1 q1 t [a b] (H1 & H2 & H3 & H4). cbn [fst snd] in *. change ((4 - Z.of_nat 0 + 1) mod 2) with 1 in *. unfold common_do0. rewrite H3, H4. reflexivity.
      * unfold common_inv. cbn [fst snd]. change ((4 - Z.of_nat 0 + 1) mod 2) with 1. unfold s. cbn [fst snd]. rewrite !upd_eq. unfold word_at, OPSIZ. repeat split; try lia; f_equal; lia.
    + rewrite andb_false_r. apply Hgo; try reflexivity; unfold OPSIZ; lia.
  - apply Hgo; try reflexivity; unfold OPSIZ; try lia. apply Hmod. rewrite E. reflexivity.
  - apply Hgo; try reflexivity; unfold OPSIZ; try lia. apply Hmod. rewrite E. reflexivity.
Qed.

(** The words at the unaligned address [S1] from the aligned words around it. *)
Definition not_common_inv (m : mem) (S1 S2 p q : Z) (k : nat) (t : Z) (s : state) : Prop :=
  let i := 4 - Z.of_nat k in
  let A := S1 - S1 mod 8 in
  p + 8 * i = A + 8 * (t + 2) /\ q + 8 * i = S2 + 8 * (t + 1) /\
  fst s ((i + 2) mod 4) = load_op m (A + 8 * t) /\ fst s ((i + 3) mod 4) = load_op m (A + 8 * t + 8) /\
  snd s ((i + 3) mod 4) = load_op m (S2 + 8 * t).

Lemma merge_at m S1 t : (forall x, byte (m x)) -> S1 mod 8 <> 0 ->
  MERGE (load_op m (S1 - S1 mod 8 + 8 * t)) (8 * (S1 mod 8)) (load_op m (S1 - S1 mod 8 + 8 * t + 8)) (8 * OPSIZ - 8 * (S1 mod 8)) = load_op m (S1 + 8 * t).
Proof.
  intros Hm Hn. pose proof (MERGE_load m (S1 + 8 * t) Hm) as H. assert (E : (S1 + 8 * t) mod 8 = S1 mod 8) by (rewrite (Z.mul_comm 8 t); apply Z.mod_add; lia).
  rewrite E in H. rewrite <- (H Hn). f_equal; f_equal; lia.
Qed.

Section NotCommon.
Context (m : mem) (Hm : forall x, byte (m x)) (S1 S2 : Z) (HS1 : S1 mod 8 <> 0).
Let shl := 8 * (S1 mod 8).
Let shr := 8 * OPSIZ - shl.

Lemma not_common_step p q k t s : (k < 4)%nat -> not_common_inv m S1 S2 p q (S k) t s ->
  exists s', not_common_stmt m shl shr p q (S k) s = differ (load_op m (S1 + 8 * t)) (load_op m (S2 + 8 * t)) s' /\ not_common_inv m S1 S2 p q k (t + 1) s'.
Proof using Hm HS1.
  intros Hk (H1 & H2 & H3 & H4 & H5). destruct s as [a b]. cbn [fst snd] in *. unfold not_common_stmt. set (i := 4 - Z.of_nat (S k)) in *.
  assert (Hi : ((i + 2) mod 4 <> i /\ (i + 3) mod 4 <> i) /\ (i + 1 + 2) mod 4 = (i + 3) mod 4 /\ (i + 1 + 3) mod 4 = i)
    by (assert (Hc : i = 0 \/ i = 1 \/ i = 2 \/ i = 3) by lia; destruct Hc as [->|[->|[->| ->]]]; (split; [split; discriminate | split; reflexivity])).
  destruct Hi as [[Hn2 Hn3] [Hp2 Hp3]]. rewrite !(upd_ne _ i) by assumption. rewrite H3, H4, H5. unfold shl, shr. rewrite merge_at by assumption. eexists. split; [reflexivity|].
  unfold not_common_inv. cbn [fst snd]. replace (4 - Z.of_nat k) with (i + 1) by lia. rewrite Hp2, Hp3, !upd_eq, (upd_ne _ i) by assumption. unfold word_at, OPSIZ. repeat split; try lia; try (f_equal; lia).
  rewrite H4. f_equal. lia.
Qed.

Lemma not_common_wrap p q t s : not_common_inv m S1 S2 p q 0 t s -> not_common_inv m S1 S2 (p + 4 * OPSIZ) (q + 4 * OPSIZ) 4 t s.
Proof using Type. intros (H1 & H2 & H3 & H4 & H5). unfold not_common_inv, OPSIZ. repeat split; [lia | lia | exact H3 | exact H4 | exact H5]. Qed.

Lemma not_common_do0_inv p q t s : not_common_inv m S1 S2 p q 0 t s ->
  not_common_do0 shl shr s = match differ (load_op m (S1 + 8 * t)) (load_op m (S2 + 8 * t)) s with inl _ => Some 0 | inr r => r end.
Proof using Hm HS1.
  intros (H1 & H2 & H3 & H4 & H5). destruct s as [a b]. cbn [fst snd] in *. change ((4 - Z.of_nat 0 + 2) mod 4) with 2 in *. change ((4 - Z.of_nat 0 + 3) mod 4) with 3 in *.
  unfold not_common_do0. rewrite H3, H4, H5. unfold shl, shr. rewrite merge_at by assumption. reflexivity.
Qed.

Lemma memcmp_not_common_alignment_spec len : 0 <= len ->
  memcmp_not_common_alignment m S1 S2 len = Some (bytes_cmp (Z.to_nat (8 * len)) m S1 S2).
Proof using Hm HS1.
  intros Hl. unfold memcmp_not_common_alignment. change (8 * (S1 mod OPSIZ)) with shl. change (8 * OPSIZ - shl) with shr. pose proof (Z.mod_pos_bound len 4 ltac:(lia)) as Hb.
  replace (Z.land S1 (- OPSIZ)) with (S1 - S1 mod 8) by (symmetry; apply ALIGN_DOWN_8). set (A := S1 - S1 mod 8).
  set (s := fun r r' q => (upd (upd no_regs r (word_at m A 0)) r' (word_at m A 1), upd no_regs q (word_at m S2 0)) : state).
  assert (Hinit : forall k p' q' r r' x, p' + 8 * (4 - Z.of_nat k) = A + 16 -> q' + 8 * (4 - Z.of_nat k) = S2 + 8 ->
    (4 - Z.of_nat k + 2) mod 4 = r -> (4 - Z.of_nat k + 3) mod 4 = r' -> r <> r' -> x = r' -> not_common_inv m S1 S2 p' q' k 0 (s r r' x)).
  { intros k p' q' r r' x Hp Hq Hr Hr' Hne ->. unfold not_common_inv, s. cbn [fst snd]. fold A. rewrite Hr, Hr', !upd_eq, (upd_ne _ r'), upd_eq by exact Hne. unfold word_at, OPSIZ. repeat split; try lia; f_equal; lia. }
  assert (Hgo : forall k p' q' len' r r' x, (0 < k <= 4)%nat -> 0 < len' -> len' mod 4 = 0 -> len' <= 4 * (len + 1) -> Z.of_nat k + len' - 4 = len - 1 ->
    p' + 8 * (4 - Z.of_nat k) = A + 16 -> q' + 8 * (4 - Z.of_nat k) = S2 + 8 -> (4 - Z.of_nat k + 2) mod 4 = r -> (4 - Z.of_nat k + 3) mod 4 = r' -> r <> r' -> x = r' ->
    cmp_loop (not_common_stmt m shl shr) (not_common_do0 shl shr) (S (Z.to_nat len)) k p' q' len' (s r r' x) = Some (bytes_cmp (Z.to_nat (8 * len)) m S1 S2)).
  { intros k p' q' len' r r' x Hk Hl' Hm4 Hf Hn Hp Hq Hr Hr' Hne Hx.
    rewrite (cmp_loop_spec m Hm S1 S2 len (not_common_stmt m shl shr) (not_common_do0 shl shr) (not_common_inv m S1 S2) not_common_step not_common_wrap not_common_do0_inv) with (t := 0); try lia.
    - rewrite Z.sub_0_r, !Z.mul_0_r, !Z.add_0_r. reflexivity.
    - apply Hinit; assumption. }
  pose proof (Z.div_mod len 4 ltac:(lia)) as Hdm.
  assert (Hmod : forall c, (len mod 4 + c) mod 4 = 0 -> (len + c) mod 4 = 0) by (intros c; apply mod_fix).
  assert (Hcase : len mod 4 = 0 \/ len mod 4 = 1 \/ len mod 4 = 2 \/ len mod 4 = 3) by lia.
  destruct Hcase as [E|[E|[E|E]]]; rewrite E.
  - destruct (Z.eqb_spec len 0) as [->|Hn]; [reflexivity|]. rewrite andb_false_r. apply Hgo; try reflexivity; unfold OPSIZ; lia.
  - specialize (Hmod (-1)). rewrite E in Hmod. specialize (Hmod eq_refl). replace (len + -1) with (len - 1) in Hmod by lia. destruct (Z.eqb_spec (len - 1) 0) as [E1|Hn].
    + assert (len = 1) as -> by lia. change ((OP_T_THRES <=? 3 * OPSIZ) && true) with true. cbv iota.
      apply (do0_spec m Hm S1 S2 1 (not_common_do0 shl shr) (not_common_inv m S1 S2) not_common_do0_inv) with (p := A - 16) (q := S2 - 24); [|reflexivity].
      apply Hinit; try reflexivity; try lia.
    + rewrite andb_false_r. apply Hgo; try reflexivity; unfold OPSIZ; lia.
  - apply Hgo; try reflexivity; unfold OPSIZ; try lia. apply Hmod. rewrite E. reflexivity.
  - apply Hgo; try reflexivity; unfold OPSIZ; try lia. apply Hmod. rewrite E. reflexivity.
Qed.
End NotCommon.

(** ** memcmp *)

Lemma memcmp_align_spec m : (forall x, byte (m x)) -> forall fuel p q len, (- q) mod 8 < Z.of_nat fuel -> (- q) mod 8 <= len ->
  exists x, memcmp_align fuel m p q len = Some x /\
    match x with
    | inr r => r = bytes_cmp (Z.to_nat len) m p q /\ r <> 0
    | inl (p', q', len') => q' mod 8 = 0 /\ 0 <= len' /\ bytes_cmp (Z.to_nat len') m p' q' = bytes_cmp (Z.to_nat len) m p q
    end.
Proof.
  intros Hm. induction fuel as [|fuel IH]; intros p q len Hf Hl; [pose proof (Z.mod_pos_bound (- q) 8 ltac:(lia)); lia|]. cbn [memcmp_align].
  pose proof (Z.mod_pos_bound (- q) 8 ltac:(lia)) as Hq. destruct (Z.eqb_spec (q mod OPSIZ) 0) as [E|E].
  - eexists. split; [reflexivity|]. cbv beta iota. split; [exact E|]. split; [lia | reflexivity].
  - unfold OPSIZ in E. assert (Eq : (- (q + 1)) mod 8 = (- q) mod 8 - 1 /\ 1 <= (- q) mod 8) by (Z.div_mod_to_equations; lia). destruct Eq as [Eq Hq1].
    rewrite byte_diff_0 by apply Hm. replace (Z.to_nat len) with (S (Z.to_nat (len - 1))) by lia. cbn [bytes_cmp]. destruct (Z.eqb_spec (m p) (m q)) as [E1|E1]; cbn [negb].
    + apply IH; lia.
    + eexists. split; [reflexivity|]. cbv beta iota. rewrite as_int_diff by apply Hm. lia.
Qed.

Lemma memcmp_rest_spec m : (forall x, byte (m x)) -> forall fuel p q len, 0 <= len < Z.of_nat fuel ->
  memcmp_rest fuel m p q len = Some (bytes_cmp (Z.to_nat len) m p q).
Proof.
  intros Hm. induction fuel as [|fuel IH]; intros p q len Hl; [lia|]. cbn [memcmp_rest]. destruct (Z.eqb_spec len 0) as [->|E]; [reflexivity|].
  rewrite byte_diff_0 by apply Hm. replace (Z.to_nat len) with (S (Z.to_nat (len - 1))) by lia. cbn [bytes_cmp]. destruct (Z.eqb_spec (m p) (m q)) as [E1|E1]; cbn [negb].
  - apply IH. lia.
  - rewrite as_int_diff by apply Hm. reflexivity.
Qed.

Lemma as_int_wrap r : -255 <= r <= 255 -> as_int (wrap 64 r) = r /\ (wrap 64 r =? 0) = (r =? 0).
Proof.
  intros H. assert (exists a b, byte a /\ byte b /\ r = a - b) as (a & b & Ha & Hb & ->).
  { destruct (Z.leb_spec 0 r); [exists r, 0 | exists 0, (- r)]; unfold byte; lia. }
  change (wrap 64 (a - b)) with (byte_diff a b). rewrite as_int_diff, byte_diff_0 by assumption. split; [reflexivity|]. destruct (Z.eqb_spec a b), (Z.eqb_spec (a - b) 0); lia || reflexivity.
Qed.

Lemma memcmp_spec m p q len : (forall x, byte (m x)) -> 0 <= len -> memcmp m p q len = Some (bytes_cmp (Z.to_nat len) m p q).
Proof.
  intros Hm Hl. unfold memcmp, OP_T_THRES. destruct (Z.leb_spec 16 len) as [H|H]; [|apply memcmp_rest_spec; [exact Hm | lia]].
  destruct (memcmp_align_spec m Hm 8 p q len) as (x & -> & Hx); [pose proof (Z.mod_pos_bound (- q) 8 ltac:(lia)); lia | pose proof (Z.mod_pos_bound (- q) 8 ltac:(lia)); lia|].
  destruct x as [[[p' q'] len']|r]; cbv beta iota in Hx |- *; [|destruct Hx as [-> _]; reflexivity]. destruct Hx as (Hq & Hl' & <-). change OPSIZ with 8.
  assert (Hw : (if p' mod 8 =? 0 then memcmp_common_alignment m p' q' (len' / 8) else memcmp_not_common_alignment m p' q' (len' / 8)) = Some (bytes_cmp (Z.to_nat (8 * (len' / 8))) m p' q')).
  { assert (0 <= len' / 8) by (apply Z.div_pos; lia). destruct (Z.eqb_spec (p' mod 8) 0); [apply memcmp_common_alignment_spec | apply memcmp_not_common_alignment_spec]; assumption. }
  rewrite Hw. change (- (8)) with (- OPSIZ). rewrite word_bytes. set (w := 8 * (len' / 8)). pose proof (Z.div_mod len' 8 ltac:(lia)). pose proof (Z.mod_pos_bound len' 8 ltac:(lia)). assert (0 <= len' / 8) by (apply Z.div_pos; lia).
  replace (Z.to_nat len') with (Z.to_nat w + Z.to_nat (len' mod 8))%nat by lia. rewrite bytes_cmp_app, Z2Nat.id by lia.
  destruct (as_int_wrap (bytes_cmp (Z.to_nat w) m p' q') (bytes_cmp_range m _ Hm _ _)) as [-> ->]. destruct (bytes_cmp (Z.to_nat w) m p' q' =? 0); cbn [negb]; [|reflexivity]. apply memcmp_rest_spec; [exact Hm | lia].
Qed.

(** C11: memcmp is the byte-by-byte comparison, for every alignment of its arguments
    and every length: it returns the difference of the first two bytes that differ,
    and 0 when the blocks are equal. *)
Theorem memcmp_correct m s1 s2 len : (forall x, byte (m x)) -> 0 <= len ->
  exists r, memcmp m s1 s2 len = Some r /\ r = bytes_cmp (Z.to_nat len) m s1 s2 /\
    (r = 0 <-> forall i, 0 <= i < len -> m (s1 + i) = m (s2 + i)).
Proof. intros Hm Hl. eexists. split; [apply memcmp_spec; assumption|]. split; [reflexivity|]. rewrite bytes_cmp_0, Z2Nat.id by lia. reflexivity. Qed.

Lemma memcmp_correct_witness :
  let l := [1; 2; 3; 4; 5; 6; 7; 8; 9; 10; 11; 12; 13; 14; 15; 16; 17; 18; 19; 20] in
  let m := at_bytes 101 (l ++ l ++ [99]) in
  memcmp m 101 121 20 = Some 0 /\ exists r, memcmp m 102 122 20 = Some r /\ r = 1 - 99.
Proof.
  intros l m. assert (Hm : forall x, byte (m x)) by (apply at_bytes_byte; reflexivity). split.
  - destruct (memcmp_correct m 101 121 20 Hm ltac:(lia)) as (r & E & Hr & _). rewrite E, Hr. vm_compute. reflexivity.
  - destruct (memcmp_correct m 102 122 20 Hm ltac:(lia)) as (r & E & Hr & _). exists r. split; [exact E|]. rewrite Hr. vm_compute. reflexivity.
Defined.
