(* ===== verification/TwoWay.v ===== *)
(** * Searching for a string in linear time (string/str-two-way.h)

    The Two-Way algorithm: the needle is cut at a critical position, computed by two
    searches for a maximal suffix, and the two parts are compared in different
    directions.  The macros of the header are parameters: CANON_ELEMENT, AVAILABLE, which
    may raise the known length of the haystack, and CMP_FUNC. *)

From Stdlib Require Import ZArith List Lia Bool Zwf.
From S2P Require Import Prelude StrWord Str.
Import ListNotations.
#[local] Open Scope Z_scope.
#[local] Open Scope glibc_scope.

Definition SIZE_MAX : Z := 2 ^ 64 - 1.

Section TwoWay.
Context (CANON_ELEMENT : Z -> Z) (AVAILABLE : Z -> Z -> Z -> option (bool * Z)) (CMP_FUNC : Z -> Z -> Z -> option Z).
Context (m : mem).

(** One of the two loops of critical_factorization; [rev] for the reverse order. *)
Fixpoint suffix_loop (fuel : nat) (rev : bool) (needle needle_len max_suffix j k p : Z) : option (Z * Z) :=
  match fuel with
  | O => None
  | S fuel =>
      if wrap 64 (j + k) <? needle_len then
        let a := CANON_ELEMENT (m (needle + wrap 64 (j + k))) in
        let b := CANON_ELEMENT (m (needle + wrap 64 (max_suffix + k))) in
        if (if rev then b <? a else a <? b) then
          let j := wrap 64 (j + k) in suffix_loop fuel rev needle needle_len max_suffix j 1 (wrap 64 (j - max_suffix))
        else if a =? b then
          if negb (k =? p) then suffix_loop fuel rev needle needle_len max_suffix j (k + 1) p
          else suffix_loop fuel rev needle needle_len max_suffix (wrap 64 (j + p)) 1 p
        else suffix_loop fuel rev needle needle_len j (wrap 64 (j + 1)) 1 1
      else Some (max_suffix, p)
  end.

(** The index of the right half and its period. *)
Definition critical_factorization (fuel : nat) (needle needle_len : Z) : option (Z * Z) :=
  let? (max_suffix, period) := suffix_loop fuel false needle needle_len SIZE_MAX 0 1 1 in
  let? (max_suffix_rev, p) := suffix_loop fuel true needle needle_len SIZE_MAX 0 1 1 in
  if wrap 64 (max_suffix_rev + 1) <? wrap 64 (max_suffix + 1) then Some (wrap 64 (max_suffix + 1), period)
  else Some (wrap 64 (max_suffix_rev + 1), p).

(** for (i = 0; i < needle_len; i++) shift_table[needle[i]] = needle_len - i - 1; *)
Fixpoint fill_shift_table (n : nat) (needle needle_len i : Z) (shift_table : mem) : mem :=
  match n with
  | O => shift_table
  | S n => fill_shift_table n needle needle_len (i + 1) (upd shift_table (CANON_ELEMENT (m (needle + i))) (needle_len - i - 1))
  end.

(** while (i < limit && *pneedle++ == *phaystack++) ++i; *)
Fixpoint scan_right (fuel : nat) (limit needle haystack_j i : Z) : option Z :=
  match fuel with
  | O => None
  | S fuel =>
      if (i <? limit) && (CANON_ELEMENT (m (needle + i)) =? CANON_ELEMENT (m (haystack_j + i))) then scan_right fuel limit needle haystack_j (i + 1)
      else Some i
  end.

(** while (memory < i + 1 && *pneedle-- == *phaystack--) --i; *)
Fixpoint scan_left (fuel : nat) (memory needle haystack_j i : Z) : option Z :=
  match fuel with
  | O => None
  | S fuel =>
      if (if memory <? wrap 64 (i + 1) then CANON_ELEMENT (m (needle + i)) =? CANON_ELEMENT (m (haystack_j + i)) else false) then scan_left fuel memory needle haystack_j (wrap 64 (i - 1))
      else Some i
  end.

(** while (i != SIZE_MAX && *pneedle-- == *phaystack--) --i; *)
Fixpoint scan_left_all (fuel : nat) (needle haystack_j i : Z) : option Z :=
  match fuel with
  | O => None
  | S fuel =>
      if (if negb (i =? SIZE_MAX) then CANON_ELEMENT (m (needle + i)) =? CANON_ELEMENT (m (haystack_j + i)) else false) then scan_left_all fuel needle haystack_j (wrap 64 (i - 1))
      else Some i
  end.

(** The loop for a needle that is periodic as a whole. *)
Fixpoint long_periodic (fuel : nat) (shift_table : mem) (haystack haystack_len needle needle_len suffix period memory j : Z) : option Z :=
  match fuel with
  | O => None
  | S fuel' =>
      let? (available, haystack_len) := AVAILABLE haystack_len j needle_len in
      if available then
        let shift := shift_table (CANON_ELEMENT (m (haystack + j + needle_len - 1))) in
        if 0 <? shift then
          let shift := if negb (memory =? 0) && (shift <? period) then needle_len - period else shift in
          long_periodic fuel' shift_table haystack haystack_len needle needle_len suffix period 0 (j + shift)
        else
          let? i := scan_right fuel (needle_len - 1) needle (haystack + j) (Z.max suffix memory) in
          if needle_len - 1 <=? i then
            let? i := scan_left fuel memory needle (haystack + j) (wrap 64 (suffix - 1)) in
            if wrap 64 (i + 1) <? memory + 1 then Some (haystack + j)
            else long_periodic fuel' shift_table haystack haystack_len needle needle_len suffix period (needle_len - period) (j + period)
          else long_periodic fuel' shift_table haystack haystack_len needle needle_len suffix period 0 (j + (i - suffix + 1))
      else Some NULL
  end.

(** The loop for a needle with two different halves. *)
Fixpoint long_distinct (fuel : nat) (shift_table : mem) (haystack haystack_len needle needle_len suffix period j : Z) : option Z :=
  match fuel with
  | O => None
  | S fuel' =>
      let? (available, haystack_len) := AVAILABLE haystack_len j needle_len in
      if available then
        let shift := shift_table (CANON_ELEMENT (m (haystack + j + needle_len - 1))) in
        if 0 <? shift then long_distinct fuel' shift_table haystack haystack_len needle needle_len suffix period (j + shift)
        else
          let? i := scan_right fuel (needle_len - 1) needle (haystack + j) suffix in
          if needle_len - 1 <=? i then
            let? i := scan_left_all fuel needle (haystack + j) (wrap 64 (suffix - 1)) in
            if i =? SIZE_MAX then Some (haystack + j)
            else long_distinct fuel' shift_table haystack haystack_len needle needle_len suffix period (j + period)
          else long_distinct fuel' shift_table haystack haystack_len needle needle_len suffix period (j + (i - suffix + 1))
      else Some NULL
  end.

Definition two_way_long_needle (fuel : nat) (haystack haystack_len needle needle_len : Z) : option Z :=
  let? (suffix, period) := critical_factorization fuel needle needle_len in
  let shift_table := fill_shift_table (Z.to_nat needle_len) needle needle_len 0 (fun _ => needle_len) in
  let? c := CMP_FUNC needle (needle + period) suffix in
  if c =? 0 then long_periodic fuel shift_table haystack haystack_len needle needle_len suffix period 0 0
  else
    let period := Z.max suffix (needle_len - suffix) + 1 in
    long_distinct fuel shift_table haystack haystack_len needle needle_len suffix period 0.
End TwoWay.

(** * Words, periods and maximal suffixes

    A word is a function [w] on the positions from 0 to [n - 1]. *)

(** [p] is a period of the part from [a] to [b]. *)
Definition per (w : Z -> Z) (a b p : Z) : Prop := forall x, a <= x -> x + p < b -> w x = w (x + p).

(** A repetition of length [r] around the position [l]. *)
Definition rep (w : Z -> Z) (n l r : Z) : Prop := forall x, 0 <= x -> l - r <= x < l -> x + r < n -> w x = w (x + r).

(** The suffix at [a] is smaller than the one at [b] because of a letter. *)
Definition less (w : Z -> Z) (n a b : Z) : Prop :=
  exists d, 0 <= d /\ a + d < n /\ b + d < n /\ (forall x, 0 <= x < d -> w (a + x) = w (b + x)) /\ w (a + d) < w (b + d).

(** The suffix at [a] is a prefix of the one at [b]. *)
Definition prefix_of (w : Z -> Z) (n a b : Z) : Prop := forall x, 0 <= x -> a + x < n -> w (a + x) = w (b + x).

Definition max_suffix_at (w : Z -> Z) (n s : Z) : Prop :=
  (forall a, 0 <= a < s -> less w n a s) /\ (forall a, s < a < n -> less w n a s \/ prefix_of w n a s).

Lemma less_trans w n a b c : less w n a b -> less w n b c -> less w n a c.
Proof.
  intros (d & Hd & H1 & H2 & H3 & H4) (e & He & H5 & H6 & H7 & H8). exists (Z.min d e). destruct (Z.lt_trichotomy d e) as [H|[->|H]].
  - rewrite Z.min_l by lia. repeat split; try lia; [intros x Hx; rewrite H3, H7 by lia; reflexivity | rewrite <- (H7 d) by lia; exact H4].
  - rewrite Z.min_id. repeat split; try lia. intros x Hx. rewrite H3, H7 by lia. reflexivity.
  - rewrite Z.min_r by lia. repeat split; try lia; [intros x Hx; rewrite H3, H7 by lia; reflexivity | rewrite (H3 e) by lia; exact H8].
Qed.

Lemma less_irrefl w n a : ~ less w n a a.
Proof. intros (d & _ & _ & _ & _ & H). lia. Qed.

Lemma not_above w n s a : max_suffix_at w n s -> s < a < n -> less w n s a -> False.
Proof.
  intros [_ Hm] Ha Hl. destruct (Hm a Ha) as [H|H]; [exact (less_irrefl w n s (less_trans _ _ _ _ _ Hl H))|].
  destruct Hl as (d & Hd & H1 & H2 & _ & H4). specialize (H d Hd H2). lia.
Qed.

Lemma per_mult w a b p q : 0 < p -> per w a b p -> 0 <= q -> per w a b (q * p).
Proof.
  intros Hp H Hq. pattern q. apply natlike_ind; [intros x _ _; f_equal; lia | | exact Hq]. clear q Hq. intros q Hq IH x Hx Hb.
  rewrite (IH x Hx), (H (x + q * p)) by nia. f_equal. lia.
Qed.

Lemma per_weaken w a b a' b' p : per w a b p -> a <= a' -> b' <= b -> per w a' b' p.
Proof. intros H Ha Hb x Hx Hy. apply H; lia. Qed.

(** ** The critical factorization *)
Section Critical.
Context (w : Z -> Z) (n l l' : Z).
Hypothesis (Hl : max_suffix_at w n l) (Hl' : max_suffix_at (fun x => - w x) n l') (Hll : 0 <= l' <= l) (Hln : l < n).

(** Every repetition around the start of the shorter of the two maximal suffixes is
    longer than the left half and a period of the whole word. *)
Lemma critical r : 1 <= r -> rep w n l r -> l < r /\ per w 0 n r.
Proof using Hl Hl' Hll Hln.
  intros Hr H. assert (Hlr : l < r).
  { destruct (Z.lt_ge_cases l r) as [Hc|Hc]; [exact Hc | exfalso]. destruct (proj1 Hl (l - r) ltac:(lia)) as (d & Hd & H1 & H2 & H3 & H4).
    destruct (Z.lt_ge_cases d r) as [Hdr|Hdr].
    - specialize (H (l - r + d) ltac:(lia) ltac:(lia) ltac:(lia)). replace (l - r + d + r) with (l + d) in H by lia. lia.
    - apply (not_above w n l (l + r) Hl ltac:(lia)). exists (d - r). repeat split; try lia.
      + intros x Hx. specialize (H3 (x + r) ltac:(lia)). replace (l - r + (x + r)) with (l + x) in H3 by lia. rewrite H3. f_equal. lia.
      + replace (l - r + d) with (l + (d - r)) in H4 by lia. replace (l + d) with (l + r + (d - r)) in H4 by lia. exact H4. }
  split; [exact Hlr|]. intros x Hx Hxr. destruct (Z.lt_ge_cases x l) as [Hc|Hc]; [apply H; lia|].
  destruct (proj2 Hl (l + r) ltac:(lia)) as [(d & Hd & H1 & H2 & H3 & H4)|Hp].
  - exfalso. apply (not_above (fun x => - w x) n l' (l' + r) Hl' ltac:(lia)). exists (l - l' + d). repeat split; try lia.
    + intros y Hy. f_equal. destruct (Z.lt_ge_cases y (l - l')) as [Hyl|Hyl].
      * rewrite (H (l' + y)) by lia. f_equal. lia.
      * specialize (H3 (y - (l - l')) ltac:(lia)). replace (l + r + (y - (l - l'))) with (l' + r + y) in H3 by lia. replace (l + (y - (l - l'))) with (l' + y) in H3 by lia. symmetry. exact H3.
    + replace (l' + (l - l' + d)) with (l + d) by lia. replace (l' + r + (l - l' + d)) with (l + r + d) by lia. lia.
  - specialize (Hp (x - l) ltac:(lia) ltac:(lia)). replace (l + r + (x - l)) with (x + r) in Hp by lia. replace (l + (x - l)) with x in Hp by lia. symmetry. exact Hp.
Qed.
End Critical.

(** What the search uses of the cut at [l] and the period [p] of the right half. *)
Record factored (w : Z -> Z) (n l p : Z) : Prop := {
  fac_l : 0 <= l < n;
  fac_p : 1 <= p <= n - l;
  fac_per : per w l n p;
  fac_min : forall r, 1 <= r < p -> ~ per w l n r;
  fac_critical : forall r, 1 <= r -> rep w n l r -> l < r /\ per w 0 n r }.

Section Factored.
Context (w : Z -> Z) (n l p : Z) (F : factored w n l p).

(** A repetition that fits into the right half is a multiple of its period, which is
    then a period of the whole word. *)
Lemma rep_multiple r : 1 <= r -> rep w n l r -> l + r <= n -> per w 0 n p /\ exists q, 1 <= q /\ r = q * p.
Proof using F.
  destruct F as [Hl Hp Hper Hmin Hcrit]. intros Hr H Hfit. pose proof (Z.div_mod r p ltac:(lia)) as Ed. pose proof (Z.mod_pos_bound r p ltac:(lia)) as Hm. set (q := r / p) in *. set (r' := r mod p) in *.
  assert (Hq : 0 <= q) by (apply Z.div_pos; lia). pose proof (per_mult w l n p q ltac:(lia) Hper Hq) as Hqp. clearbody q r'.
  assert (r' = 0) as ->.
  { destruct (Z.eq_dec r' 0) as [E|E]; [exact E | exfalso]. destruct (Hcrit r' ltac:(lia)) as [_ Hg].
    - intros x Hx Hx1 Hx2. rewrite (H x) by nia. rewrite (Hqp (x + r')) by nia. f_equal. nia.
    - apply (Hmin r' ltac:(lia)). apply (per_weaken w 0 n); [exact Hg | lia | lia]. }
  assert (Hq1 : 1 <= q) by nia. split; [|exists q; lia]. destruct (Hcrit r Hr H) as [Hlr _]. intros x Hx Hxp. destruct (Z.lt_ge_cases x l) as [Hc|Hc]; [|apply Hper; lia].
  rewrite (H x) by lia. destruct (Z.lt_ge_cases (x + p) l) as [Hc2|Hc2].
  - rewrite (H (x + p)) by lia. rewrite (Hper (x + r)) by lia. f_equal. lia.
  - rewrite (per_mult w l n p (q - 1) ltac:(lia) Hper ltac:(lia) (x + p)) by nia. f_equal. nia.
Qed.

Lemma rep_period r : per w 0 n p -> 1 <= r -> rep w n l r -> p <= r.
Proof using F.
  destruct F as [Hl Hp Hper Hmin Hcrit]. intros _ Hr H. destruct (Z.lt_ge_cases r p) as [Hc|Hc]; [exfalso | exact Hc].
  apply (Hmin r ltac:(lia)). apply (per_weaken w 0 n); [apply (Hcrit r Hr H) | lia | lia].
Qed.

Lemma left_short : per w 0 n p -> l < p.
Proof using F. intros H. apply (fac_critical _ _ _ _ F); [pose proof (fac_p _ _ _ _ F); lia|]. intros x Hx Hx1 Hx2. apply H; lia. Qed.

Lemma rep_distinct r : ~ per w 0 n p -> 1 <= r -> rep w n l r -> Z.max l (n - l) + 1 <= r.
Proof using F.
  intros Hd Hr H. destruct (fac_critical _ _ _ _ F r Hr H) as [Hlr _]. destruct (Z.le_gt_cases (l + r) n) as [Hc|Hc]; [|lia].
  destruct (rep_multiple r Hr H Hc) as [Hg _]. contradiction.
Qed.

Lemma whole_period : (forall x, 0 <= x < l -> w x = w (x + p)) <-> per w 0 n p.
Proof using F.
  destruct F as [Hl Hp Hper _ _]. split; intros H x Hx.
  - intros Hxp. destruct (Z.lt_ge_cases x l); [apply H; lia | apply Hper; lia].
  - apply H; lia.
Qed.
End Factored.

(** ** Computing a maximal suffix

    [s] is the start of the largest suffix so far, [t] the candidate, [k - 1] letters of
    which agree with it; the part from [s] to [t] repeats a word of length [p] that is
    larger than all its proper suffixes. *)
Section Suffix.
Context (w : Z -> Z) (n : Z).

Record searching (s t k p : Z) : Prop := {
  sr_s : 0 <= s < t;
  sr_k : 1 <= k <= p;
  sr_t : exists c, 1 <= c /\ t = s + c * p;
  sr_n : t + k - 1 <= n;
  sr_per : per w s (t + k - 1) p;
  sr_word : forall r, 0 < r < p -> exists d, 0 <= d /\ r + d < p /\ (forall x, 0 <= x < d -> w (s + r + x) = w (s + x)) /\ w (s + r + d) < w (s + d);
  sr_left : forall a, 0 <= a < s -> less w n a s }.

Lemma searching_start : 1 <= n -> searching 0 1 1 1.
Proof using Type. intros Hn. split; try lia; [exists 1; lia | intros x H1 H2; lia]. Qed.

(** The same letter a number of periods earlier. *)
Lemma earlier s b p c x : 0 < p -> per w s b p -> 0 <= c -> s <= x -> x + c * p < b -> w (x + c * p) = w x.
Proof using Type. intros Hp H Hc Hx Hb. symmetry. apply (per_mult w s b p c Hp H Hc x Hx Hb). Qed.

Lemma candidate_letter s t k p : searching s t k p -> forall x, 0 <= x < k - 1 -> w (t + x) = w (s + x).
Proof using Type.
  intros [Hs Hk (c & Hc & Ht) Hn Hper _ _] x Hx. rewrite Ht. replace (s + c * p + x) with (s + x + c * p) by lia. apply (earlier s (t + k - 1) p); first [exact Hper | nia].
Qed.

Lemma period_letter s t k p : searching s t k p -> t + k - 1 - p >= s /\ w (t + k - 1 - p) = w (s + k - 1).
Proof using Type.
  intros [Hs Hk (c & Hc & Ht) Hn Hper _ _]. split; [nia|]. replace (t + k - 1 - p) with (s + k - 1 + (c - 1) * p) by nia. apply (earlier s (t + k - 1) p); first [exact Hper | nia].
Qed.

Lemma searching_equal s t k p : searching s t k p -> t + k - 1 < n -> w (t + k - 1) = w (s + k - 1) ->
  if k =? p then searching s (t + p) 1 p else searching s t (k + 1) p.
Proof using Type.
  intros S Hm He. destruct (period_letter _ _ _ _ S) as [Hge Hpl]. destruct S as [Hs Hk (c & Hc & Ht) Hn Hper Hw Hleft].
  assert (Hper' : per w s (t + k) p).
  { intros x Hx Hxp. destruct (Z.eq_dec (x + p) (t + k - 1)) as [E|E]; [|apply Hper; lia]. rewrite E, He, <- Hpl. f_equal. lia. }
  destruct (Z.eqb_spec k p) as [->|Hkp]; split; try lia; try assumption.
  - exists (c + 1). lia.
  - replace (t + p + 1 - 1) with (t + p) by lia. exact Hper'.
  - exists c. lia.
  - replace (t + (k + 1) - 1) with (t + k) by lia. exact Hper'.
Qed.

Lemma searching_smaller s t k p : searching s t k p -> t + k - 1 < n -> w (t + k - 1) < w (s + k - 1) ->
  searching s (t + k) 1 (t + k - s).
Proof using Type.
  intros S Hm Hlt. destruct (period_letter _ _ _ _ S) as [Hge Hpl]. destruct S as [Hs Hk (c & Hc & Ht) Hn Hper Hw Hleft]. split; try lia; [exists 1; lia | | | exact Hleft].
  { intros x Hx Hxp. lia. }
  intros r Hr. set (M := t + k - 1) in *. pose proof (Z.div_mod r p ltac:(lia)) as Ed. pose proof (Z.mod_pos_bound r p ltac:(lia)) as Hmod. set (i := r / p) in *. set (r' := r mod p) in *.
  assert (Hi : 0 <= i) by (apply Z.div_pos; lia). clearbody i r'.
  assert (Hback : forall x, 0 <= x -> s + r + x < M -> w (s + r + x) = w (s + r' + x)).
  { intros x Hx Hb. replace (s + r + x) with (s + r' + x + i * p) by lia. apply (earlier s M p); first [exact Hper | nia]. }
  assert (Hlast : 1 <= i -> w (M - p) = w (M - i * p)).
  { intros H1. replace (M - p) with (M - i * p + (i - 1) * p) by lia. apply (earlier s M p); first [exact Hper | nia]. }
  destruct (Z.eq_dec r' 0) as [E|E].
  - assert (1 <= i) by nia. exists (M - s - r). repeat split; try lia.
    + intros x Hx. rewrite (Hback x) by lia. f_equal. lia.
    + replace (s + r + (M - s - r)) with M by lia. rewrite <- Hpl, Hlast in Hlt by lia. replace (s + (M - s - r)) with (M - i * p) by lia. exact Hlt.
  - destruct (Hw r' ltac:(lia)) as (d & Hd & Hrd & Hpre & Hl). destruct (Z.lt_ge_cases (s + r + d) M) as [Hc1|Hc1].
    + exists d. repeat split; try lia; [intros x Hx|]; rewrite Hback by lia; [apply Hpre; lia | exact Hl].
    + assert (1 <= i) by nia. exists (M - s - r). repeat split; try lia.
      * intros x Hx. rewrite Hback by lia. apply Hpre. lia.
      * replace (s + r + (M - s - r)) with M by lia. apply Z.lt_le_trans with (w (M - i * p)); [rewrite <- Hlast, Hpl by lia; exact Hlt|].
        replace (M - i * p) with (s + r' + (M - s - r)) by lia. destruct (Z.eq_dec (M - s - r) d) as [->|Hne]; [lia | rewrite Hpre by lia; lia].
Qed.

Lemma searching_larger s t k p : searching s t k p -> t + k - 1 < n -> w (s + k - 1) < w (t + k - 1) -> searching t (t + 1) 1 1.
Proof using Type.
  intros S Hm Hgt. pose proof (candidate_letter _ _ _ _ S) as Hcl. destruct S as [Hs Hk (c & Hc & Ht) Hn Hper Hw Hleft]. split; try lia; [exists 1; lia | intros x H1 H2; lia|].
  assert (Hst : less w n s t).
  { exists (k - 1). repeat split; try lia; [intros x Hx; symmetry; apply Hcl; lia|]. replace (s + (k - 1)) with (s + k - 1) by lia. replace (t + (k - 1)) with (t + k - 1) by lia. exact Hgt. }
  intros a Ha. destruct (Z.lt_trichotomy a s) as [Has|[->|Has]]; [exact (less_trans _ _ _ _ _ (Hleft a ltac:(lia)) Hst) | exact Hst|].
  pose proof (Z.div_mod (a - s) p ltac:(lia)) as Ed. pose proof (Z.mod_pos_bound (a - s) p ltac:(lia)) as Hmod. set (i := (a - s) / p) in *. set (r' := (a - s) mod p) in *.
  assert (Hi : 0 <= i) by (apply Z.div_pos; lia). clearbody i r'.
  assert (Hback : forall x, 0 <= x -> a + x < t + k - 1 -> w (a + x) = w (s + r' + x)).
  { intros x Hx Hb. replace (a + x) with (s + r' + x + i * p) by lia. apply (earlier s (t + k - 1) p); first [exact Hper | nia]. }
  destruct (Z.eq_dec r' 0) as [E|E].
  - exists (k - 1). repeat split; try lia; [intros x Hx; rewrite Hback, Hcl by lia; f_equal; lia|]. rewrite Hback by lia. replace (s + r' + (k - 1)) with (s + k - 1) by lia. replace (t + (k - 1)) with (t + k - 1) by lia. exact Hgt.
  - apply less_trans with s; [|exact Hst]. destruct (Hw r' ltac:(lia)) as (d & Hd & Hrd & Hpre & Hl). assert (i < c) by nia. assert ((i + 1) * p <= c * p) by (apply Z.mul_le_mono_nonneg_r; lia). assert (a + d < t) by lia.
    exists d. repeat split; try lia; [intros x Hx|]; rewrite Hback by lia; [apply Hpre; lia | exact Hl].
Qed.

Lemma searching_done s t k p : searching s t k p -> t + k - 1 = n ->
  max_suffix_at w n s /\ s < n /\ 1 <= p <= n - s /\ per w s n p /\ forall r, 1 <= r < p -> ~ per w s n r.
Proof using Type.
  intros [Hs Hk (c & Hc & Ht) Hn Hper Hw Hleft] <-. set (n' := t + k - 1) in *. split; [split; [exact Hleft|]|].
  - intros a Ha. pose proof (Z.div_mod (a - s) p ltac:(lia)) as Ed. pose proof (Z.mod_pos_bound (a - s) p ltac:(lia)) as Hmod. set (i := (a - s) / p) in *. set (r' := (a - s) mod p) in *.
    assert (Hi : 0 <= i) by (apply Z.div_pos; lia). clearbody i r'.
    assert (Hback : forall x, 0 <= x -> a + x < n' -> w (a + x) = w (s + r' + x)).
    { intros x Hx Hb. replace (a + x) with (s + r' + x + i * p) by lia. apply (earlier s n' p); first [exact Hper | nia]. }
    destruct (Z.eq_dec r' 0) as [E|E].
    + right. intros x Hx Hb. rewrite Hback by lia. f_equal. lia.
    + destruct (Hw r' ltac:(lia)) as (d & Hd & Hrd & Hpre & Hl). destruct (Z.lt_ge_cases (a + d) n') as [Hc1|Hc1]; [left | right].
      * exists d. repeat split; try lia; [intros x Hx|]; rewrite Hback by lia; [apply Hpre; lia | exact Hl].
      * intros x Hx Hb. rewrite Hback by lia. apply Hpre. lia.
  - split; [lia|]. split; [nia|]. split; [exact Hper|]. intros r Hr H. destruct (Hw r ltac:(lia)) as (d & Hd & Hrd & Hpre & Hl).
    specialize (H (s + d) ltac:(lia)). replace (s + d + r) with (s + r + d) in H by lia. assert (s + r + d < n') by nia. specialize (H H0). lia.
Qed.
End Suffix.

Definition opp (w : Z -> Z) : Z -> Z := fun x => - w x.

Lemma per_opp w a b p : per (opp w) a b p <-> per w a b p.
Proof. unfold per, opp. split; intros H x H1 H2; specialize (H x H1 H2); lia. Qed.

Lemma rep_opp w n l r : rep (opp w) n l r <-> rep w n l r.
Proof. unfold rep, opp. split; intros H x H1 H2 H3; specialize (H x H1 H2 H3); lia. Qed.

Lemma max_suffix_opp_opp w n s : max_suffix_at w n s -> max_suffix_at (opp (opp w)) n s.
Proof.
  assert (Hle : forall a b, less w n a b -> less (opp (opp w)) n a b).
  { intros a b (d & H1 & H2 & H3 & H4 & H5). exists d. unfold opp. repeat split; auto; [intros x Hx; rewrite (H4 x Hx); reflexivity | lia]. }
  intros [H1 H2]. split; [auto|]. intros a Ha. destruct (H2 a Ha) as [H|H]; [auto|]. right. intros x Hx Hb. unfold opp. rewrite (H x Hx Hb). reflexivity.
Qed.

Lemma factored_opp w n l p : factored (opp w) n l p -> factored w n l p.
Proof.
  intros [H1 H2 H3 H4 H5]. split; auto.
  - apply per_opp, H3.
  - intros r Hr H. apply (H4 r Hr), per_opp, H.
  - intros r Hr H. destruct (H5 r Hr) as [H6 H7]; [apply rep_opp, H|]. split; [exact H6 | apply per_opp, H7].
Qed.

(** ** critical_factorization *)
Section Factorization.
Context (canon : Z -> Z) (m : mem) (needle n : Z).
Hypothesis (Hn : 1 <= n < 2 ^ 63).
Let w (x : Z) : Z := canon (m (needle + x)).
Let letter (rev : bool) : Z -> Z := if rev then opp w else w.

Lemma suffix_index s k : 0 <= s < 2 ^ 63 -> 1 <= k < 2 ^ 63 -> wrap 64 (wrap 64 (s - 1) + k) = s + k - 1.
Proof using Type. intros Hs Hk. unfold wrap. rewrite Zplus_mod_idemp_l. rewrite Z.mod_small by lia. lia. Qed.

Lemma suffix_loop_spec rev fuel : forall s t k p, searching (letter rev) n s t k p -> 2 * n - (s + t + k - 1) < Z.of_nat fuel ->
  exists s' t' k' p', suffix_loop canon m fuel rev needle n (wrap 64 (s - 1)) (t - 1) k p = Some (wrap 64 (s' - 1), p') /\
    searching (letter rev) n s' t' k' p' /\ t' + k' - 1 = n.
Proof using Hn.
  induction fuel as [|fuel IH]; intros s t k p HS Hf; [destruct HS; lia|]. cbn [suffix_loop].
  pose proof HS as HS'. destruct HS' as [Hs Hk Ht Hnn _ _ _]. rewrite (wrap_small 64 (t - 1 + k)) by lia. rewrite suffix_index by (destruct Ht as (c & Hc & ->); nia).
  replace (t - 1 + k) with (t + k - 1) by lia. fold (w (t + k - 1)) (w (s + k - 1)). destruct (Z.ltb_spec (t + k - 1) n) as [Hlt|Hge].
  2: { exists s, t, k, p. split; [reflexivity|]. split; [exact HS | lia]. }
  assert (Hp : p < 2 ^ 63) by (destruct Ht as (c & Hc & Ht); nia).
  assert (Hcase : (if rev then w (s + k - 1) <? w (t + k - 1) else w (t + k - 1) <? w (s + k - 1)) = (letter rev (t + k - 1) <? letter rev (s + k - 1))).
  { unfold letter, opp. destruct rev; [|reflexivity]. destruct (Z.ltb_spec (w (s + k - 1)) (w (t + k - 1))), (Z.ltb_spec (- w (t + k - 1)) (- w (s + k - 1))); lia || reflexivity. }
  rewrite Hcase. destruct (Z.ltb_spec (letter rev (t + k - 1)) (letter rev (s + k - 1))) as [H1|H1].
  - replace (wrap 64 (t + k - 1 - wrap 64 (s - 1))) with (t + k - s) by (unfold wrap; rewrite Zminus_mod_idemp_r, Z.mod_small by lia; lia).
    destruct (IH s (t + k) 1 (t + k - s) (searching_smaller _ _ _ _ _ _ HS Hlt H1) ltac:(lia)) as (s' & t' & k' & p' & E & H). replace (t + k - 1) with (t + k - 1) by lia. rewrite E. eauto 8.
  - destruct (Z.eqb_spec (w (t + k - 1)) (w (s + k - 1))) as [H2|H2].
    + assert (He : letter rev (t + k - 1) = letter rev (s + k - 1)) by (unfold letter, opp; destruct rev; lia). pose proof (searching_equal _ _ _ _ _ _ HS Hlt He) as HE.
      destruct (Z.eqb_spec k p) as [Ek|Ek]; cbn [negb].
      * rewrite (wrap_small 64 (t - 1 + p)) by lia. replace (t - 1 + p) with (t + p - 1) by lia. apply IH; [exact HE | lia].
      * apply IH; [exact HE | lia].
    + assert (Hg : letter rev (s + k - 1) < letter rev (t + k - 1)) by (unfold letter, opp in *; destruct rev; lia). pose proof (searching_larger _ _ _ _ _ _ HS Hlt Hg) as HE.
      rewrite (wrap_small 64 (t - 1 + 1)) by lia. pose proof (IH t (t + 1) 1 1 HE) as HI. rewrite (wrap_small 64 (t - 1)) in HI by lia.
      replace (t - 1 + 1) with (t + 1 - 1) by lia. apply HI. destruct Ht as (c & Hc & Ht). nia.
Qed.

Lemma critical_factorization_spec fuel : 2 * n <= Z.of_nat fuel ->
  exists l p, critical_factorization canon m fuel needle n = Some (l, p) /\ factored w n l p.
Proof using Hn.
  intros Hf. unfold critical_factorization.
  assert (Hrun : forall rev, exists s p, suffix_loop canon m fuel rev needle n SIZE_MAX 0 1 1 = Some (wrap 64 (s - 1), p) /\ 0 <= s /\
    max_suffix_at (letter rev) n s /\ s < n /\ 1 <= p <= n - s /\ per (letter rev) s n p /\ forall r, 1 <= r < p -> ~ per (letter rev) s n r).
  { intros rev. destruct (suffix_loop_spec rev fuel 0 1 1 1 (searching_start (letter rev) n ltac:(lia)) ltac:(lia)) as (s & t & k & p & E & HS & He).
    exists s, p. split; [exact E|]. split; [pose proof (sr_s _ _ _ _ _ _ HS); lia|]. exact (searching_done _ _ _ _ _ _ HS He). }
  destruct (Hrun false) as (s & p & -> & Hs & Hmax & Hsn & Hp & Hper & Hmin). destruct (Hrun true) as (s' & p' & -> & Hs' & Hmax' & Hsn' & Hp' & Hper' & Hmin'). cbn [letter] in *.
  assert (Hw : forall x, 0 <= x < n -> wrap 64 (wrap 64 (x - 1) + 1) = x) by (intros x Hx; rewrite suffix_index by lia; lia). rewrite !Hw by lia.
  destruct (Z.ltb_spec s' s) as [Hc|Hc].
  - exists s, p. split; [reflexivity|]. split; auto. intros r Hr H. apply (critical w n s s'); auto. lia.
  - exists s', p'. split; [reflexivity|]. apply factored_opp. split; auto. intros r Hr H. apply (critical (opp w) n s' s); auto. apply max_suffix_opp_opp, Hmax.
Qed.
End Factorization.

(** * The search

    [h] and [w] are the letters of the haystack and the needle, [N] and [n] their
    lengths. *)
Definition matches (w h : Z -> Z) (n N j : Z) : Prop := 0 <= j /\ j + n <= N /\ forall x, 0 <= x < n -> h (j + x) = w x.

(** [r] points to the first occurrence, or is null. *)
Definition first_match (w h : Z -> Z) (n N haystack r : Z) : Prop :=
  (exists j, matches w h n N j /\ (forall j', j' < j -> ~ matches w h n N j') /\ r = haystack + j) \/
  ((forall j, ~ matches w h n N j) /\ r = NULL).

Section Shifts.
Context (w h : Z -> Z) (n N l p : Z) (F : factored w n l p).

Lemma match_rep j s b : matches w h n N (j + s) -> 1 <= s -> (forall x, l <= x < b -> h (j + x) = w x) -> Z.min n (l + s) <= b -> rep w n l s.
Proof using Type.
  intros (_ & _ & Hm) Hs Hb Hlb x Hx Hx1 Hx2. rewrite <- (Hb (x + s)) by lia. rewrite <- (Hm x) by lia. f_equal. lia.
Qed.

(** A mismatch at [i] in the right half. *)
Lemma right_mismatch j i s : l <= i < n -> (forall x, l <= x < i -> h (j + x) = w x) -> h (j + i) <> w i -> 0 <= s <= i - l -> ~ matches w h n N (j + s).
Proof using F.
  intros Hi Hm Hne Hs M. destruct (Z.eq_dec s 0) as [->|Hs0]; [destruct M as (_ & _ & M); rewrite Z.add_0_r in M; apply Hne, M; pose proof (fac_l _ _ _ _ F); lia|].
  destruct (rep_multiple w n l p F s) as [Hper (q & Hq & ->)]; try lia; [apply (match_rep j s i); auto; lia|].
  apply Hne. destruct M as (_ & _ & M). pose proof (fac_l _ _ _ _ F) as Hfl. pose proof (fac_p _ _ _ _ F) as Hfp. specialize (M (i - q * p) ltac:(lia)). replace (j + q * p + (i - q * p)) with (j + i) in M by lia. rewrite M.
  rewrite (per_mult w 0 n p q ltac:(lia) Hper ltac:(lia) (i - q * p)) by lia. f_equal. lia.
Qed.

(** The right half matches and the left half does not. *)
Lemma left_mismatch j s : (forall x, l <= x < n -> h (j + x) = w x) -> 1 <= s ->
  (per w 0 n p -> s < p) -> (~ per w 0 n p -> s <= Z.max l (n - l)) -> per w 0 n p \/ ~ per w 0 n p -> ~ matches w h n N (j + s).
Proof using F.
  intros Hm Hs H1 H2 Hdec M. assert (Hr : rep w n l s) by (apply (match_rep j s n); auto; lia). destruct Hdec as [H|H].
  - pose proof (rep_period w n l p F s H Hs Hr). specialize (H1 H). lia.
  - pose proof (rep_distinct w n l p F s H Hs Hr). specialize (H2 H). lia.
Qed.

(** The last letter is out of place, and a part of the needle is known to match. *)
Lemma memory_shift j s : per w 0 n p -> (forall x, 0 <= x < n - p -> h (j + x) = w x) -> h (j + n - 1) <> w (n - 1) -> 0 <= s < n - p -> ~ matches w h n N (j + s).
Proof using F.
  intros Hper Hmem Hne Hs (_ & _ & M). pose proof (fac_p _ _ _ _ F) as Hp. pose proof (fac_l _ _ _ _ F) as Hl. apply Hne.
  assert (E1 : h (j + n - 1) = w (n - 1 - s)) by (rewrite <- (M (n - 1 - s)) by lia; f_equal; lia).
  assert (E2 : w (n - 1 - s - p) = w (n - 1 - p)) by (rewrite <- (M (n - 1 - s - p)) by lia; rewrite <- (Hmem (n - 1 - p)) by lia; f_equal; lia).
  rewrite E1. replace (n - 1 - s) with (n - 1 - s - p + p) by lia. rewrite <- (Hper (n - 1 - s - p)) by lia. rewrite E2, (Hper (n - 1 - p)) by lia. f_equal. lia.
Qed.
End Shifts.

Section Scans.
Context (canon : Z -> Z) (m : mem) (needle hj : Z).
Let eqv (x : Z) : Prop := canon (m (needle + x)) = canon (m (hj + x)).

Lemma scan_right_spec limit fuel : forall i, i <= limit -> limit - i < Z.of_nat fuel ->
  exists i', scan_right canon m fuel limit needle hj i = Some i' /\ i <= i' <= limit /\ (forall x, i <= x < i' -> eqv x) /\ (i' < limit -> ~ eqv i').
Proof using Type.
  induction fuel as [|fuel IH]; intros i Hi Hf; [lia|]. cbn [scan_right]. destruct (Z.ltb_spec i limit) as [H|H]; cbn [andb].
  2: { exists i. repeat split; try lia. }
  destruct (Z.eqb_spec (canon (m (needle + i))) (canon (m (hj + i)))) as [E|E].
  - destruct (IH (i + 1) ltac:(lia) ltac:(lia)) as (i' & -> & H1 & H2 & H3). exists i'. repeat split; try lia; [|exact H3].
    intros x Hx. destruct (Z.eq_dec x i) as [->|]; [exact E | apply H2; lia].
  - exists i. repeat split; try lia. intros _. exact E.
Qed.

Lemma scan_left_spec memory fuel : forall i, -1 <= i < 2 ^ 63 -> 0 <= memory -> i + 1 < Z.of_nat fuel ->
  exists i', scan_left canon m fuel memory needle hj (wrap 64 i) = Some (wrap 64 i') /\ -1 <= i' <= i /\ (forall x, i' < x <= i -> eqv x) /\ (memory <= i' -> ~ eqv i').
Proof using Type.
  induction fuel as [|fuel IH]; intros i Hi Hm Hf; [lia|]. cbn [scan_left].
  replace (wrap 64 (wrap 64 i + 1)) with (i + 1) by (unfold wrap; rewrite Zplus_mod_idemp_l, Z.mod_small by lia; reflexivity).
  destruct (Z.ltb_spec memory (i + 1)) as [H|H]; cbn [andb].
  2: { exists i. repeat split; try lia. }
  replace (wrap 64 (wrap 64 i - 1)) with (wrap 64 (i - 1)) by (unfold wrap; rewrite Zminus_mod_idemp_l; reflexivity). rewrite !(wrap_small 64 i) by lia.
  destruct (Z.eqb_spec (canon (m (needle + i))) (canon (m (hj + i)))) as [E|E].
  - destruct (IH (i - 1) ltac:(lia) Hm ltac:(lia)) as (i' & -> & H1 & H2 & H3). exists i'. repeat split; try lia; [|exact H3].
    intros x Hx. destruct (Z.eq_dec x i) as [->|]; [exact E | apply H2; lia].
  - exists i. rewrite (wrap_small 64 i) by lia. repeat split; try lia. intros _. exact E.
Qed.

Lemma scan_left_all_eq fuel : forall i, 0 <= i <= SIZE_MAX -> scan_left_all canon m fuel needle hj i = scan_left canon m fuel 0 needle hj i.
Proof using Type.
  induction fuel as [|fuel IH]; intros i Hi; [reflexivity|]. cbn [scan_left_all scan_left]. unfold SIZE_MAX in *.
  assert (E : negb (i =? 2 ^ 64 - 1) = (0 <? wrap 64 (i + 1))).
  { destruct (Z.eqb_spec i (2 ^ 64 - 1)) as [->|H]; [reflexivity|]. rewrite wrap_small by lia. symmetry. cbn [negb]. apply Z.ltb_lt. lia. }
  rewrite E. destruct (if 0 <? _ then _ else _); [|reflexivity]. apply IH. pose proof (wrap_range 64 (i - 1) ltac:(lia)). lia.
Qed.
End Scans.

(** The table holds the distance of the last occurrence of a letter from the end. *)
Lemma fill_shift_table_spec canon m needle n k : forall i t, 0 <= i -> i + Z.of_nat k = n ->
  (forall c, 0 <= t c <= n /\ (t c < n -> canon (m (needle + (n - 1 - t c))) = c) /\ (forall x, n - 1 - t c < x < i -> 0 <= x -> canon (m (needle + x)) <> c)) ->
  forall c, let T := fill_shift_table canon m k needle n i t in
    0 <= T c <= n /\ (T c < n -> canon (m (needle + (n - 1 - T c))) = c) /\ (forall x, n - 1 - T c < x < n -> 0 <= x -> canon (m (needle + x)) <> c).
Proof.
  induction k as [|k IH]; intros i t Hi Hk H c T; subst T; cbn [fill_shift_table].
  - replace n with i by lia. replace i with n in H by lia. replace i with n by lia. apply H.
  - apply IH; [lia | lia|]. clear c. intros c. unfold upd. destruct (Z.eqb_spec c (canon (m (needle + i)))) as [->|E].
    + split; [lia|]. split; [intros _; f_equal; f_equal; lia|]. intros x Hx. lia.
    + destruct (H c) as (H1 & H2 & H3). split; [exact H1|]. split; [exact H2|]. intros x Hx Hx0. destruct (Z.eq_dec x i) as [->|Hn]; [congruence | apply H3; lia].
Qed.

(** What AVAILABLE promises: it tells whether the window at [j] is inside the haystack,
    and what it knows of the haystack's length covers the windows it has admitted. *)
Class Available (AVAILABLE : Z -> Z -> Z -> option (bool * Z)) (known : Z -> Prop) (n N : Z) : Prop := {
  available_known : forall haystack_len, known haystack_len -> haystack_len <= N;
  available_spec : forall haystack_len j, known haystack_len -> 0 <= j <= haystack_len + 1 ->
    exists haystack_len', AVAILABLE haystack_len j n = Some (j + n <=? N, haystack_len') /\ known haystack_len' /\ (j + n <= N -> j + n <= haystack_len') }.

(** What CMP_FUNC promises. *)
Class Compares (CMP_FUNC : Z -> Z -> Z -> option Z) (canon : Z -> Z) (m : mem) (needle n : Z) : Prop :=
  compares_spec : forall p k, 0 < p -> 0 <= k -> p + k <= n ->
    exists c, CMP_FUNC needle (needle + p) k = Some c /\ (c = 0 <-> forall x, 0 <= x < k -> canon (m (needle + x)) = canon (m (needle + p + x))).

Section Search.
Context (canon : Z -> Z) (AVAILABLE : Z -> Z -> Z -> option (bool * Z)) (m : mem) (haystack N needle n : Z) (known : Z -> Prop).
Context `{HA : !Available AVAILABLE known n N}.
Hypothesis (Hn : 1 <= n < 2 ^ 63).
Let w (x : Z) : Z := canon (m (needle + x)).
Let h (x : Z) : Z := canon (m (haystack + x)).
Context (l p : Z) (F : factored w n l p).
Let table : mem := fill_shift_table canon m (Z.to_nat n) needle n 0 (fun _ => n).
Let none_before (j : Z) : Prop := forall j', j' < j -> ~ matches w h n N j'.

Lemma table_spec c : 0 <= table c <= n /\ (table c < n -> w (n - 1 - table c) = c) /\ (forall x, n - 1 - table c < x < n -> 0 <= x -> w x <> c).
Proof using Hn. apply (fill_shift_table_spec canon m needle n (Z.to_nat n) 0); try lia. intros c'. split; [lia|]. split; [lia|]. intros x Hx. lia. Qed.

Lemma table_shift j : 0 < table (h (j + n - 1)) ->
  h (j + n - 1) <> w (n - 1) /\ forall s, 0 <= s < table (h (j + n - 1)) -> ~ matches w h n N (j + s).
Proof using Hn.
  destruct (table_spec (h (j + n - 1))) as (H1 & _ & H3). set (k := table _) in *. intros Hk. split; [intros E; apply (H3 (n - 1)); [lia | lia | congruence]|].
  intros s Hs (_ & _ & M). apply (H3 (n - 1 - s)); try lia. rewrite <- (M (n - 1 - s)) by lia. f_equal. lia.
Qed.

Lemma table_last j : table (h (j + n - 1)) <= 0 -> h (j + n - 1) = w (n - 1).
Proof using Hn. destruct (table_spec (h (j + n - 1))) as (H1 & H2 & _). intros H. assert (E : table (h (j + n - 1)) = 0) by lia. rewrite E in H2. rewrite <- H2 by lia. f_equal. lia. Qed.

Lemma none_before_shift j s : none_before j -> (forall x, 0 <= x < s -> ~ matches w h n N (j + x)) -> none_before (j + s).
Proof using Type. intros H H1 j' Hj'. destruct (Z.lt_ge_cases j' j); [apply H; lia|]. replace j' with (j + (j' - j)) by lia. apply H1. lia. Qed.

Lemma none_at_end j : none_before j -> N < j + n -> first_match w h n N haystack NULL.
Proof using Type. intros H Hj. right. split; [|reflexivity]. intros j' M. apply (H j'); [|exact M]. destruct M as (M1 & M2 & _). lia. Qed.

Lemma eqv_letter j x : canon (m (needle + x)) = canon (m (haystack + j + x)) <-> h (j + x) = w x.
Proof using Type. unfold h, w. rewrite Z.add_assoc. split; congruence. Qed.

Lemma long_periodic_spec : per w 0 n p -> forall fuel j memory haystack_len,
  known haystack_len -> 0 <= j <= haystack_len + 1 -> none_before j -> memory = 0 \/ memory = n - p -> (forall x, 0 <= x < memory -> h (j + x) = w x) ->
  N + n + 2 - j < Z.of_nat fuel ->
  exists r, long_periodic canon AVAILABLE m fuel table haystack haystack_len needle n l p memory j = Some r /\ first_match w h n N haystack r.
Proof using HA Hn F.
  intros Hper. induction fuel as [|fuel IH]; intros j memory hl Hk Hj Hnb Hmem Hmm Hf; [pose proof (available_known hl Hk); lia|]. cbn [long_periodic].
  pose proof (fac_l _ _ _ _ F) as Hl. pose proof (fac_p _ _ _ _ F) as Hp. pose proof (left_short w n l p F Hper) as Hlp.
  pose proof (available_known hl Hk) as HkN. destruct (available_spec hl j Hk Hj) as (hl' & -> & Hk' & Hcov). destruct (Z.leb_spec (j + n) N) as [Hav|Hav]; [|eexists; split; [reflexivity | apply (none_at_end j); auto; lia]].
  replace (canon (m (haystack + j + n - 1))) with (h (j + n - 1)) by (unfold h; do 2 f_equal; lia). destruct (Z.ltb_spec 0 (table (h (j + n - 1)))) as [Hs|Hs].
  - destruct (table_shift j Hs) as [Hlast Hno]. destruct (table_spec (h (j + n - 1))) as [Hr _]. set (k := table (h (j + n - 1))) in *.
    destruct (negb (memory =? 0) && (k <? p)) eqn:Ec.
    + apply andb_true_iff in Ec as [Ec _]. apply negb_true_iff, Z.eqb_neq in Ec. destruct Hmem as [Hmem|Hmem]; [contradiction|]. subst memory.
      apply IH; auto; try lia. apply none_before_shift; [exact Hnb|]. intros x Hx. apply (memory_shift w h n N l p F); auto.
    + apply IH; auto; try lia. apply none_before_shift; assumption.
  - pose proof (table_last j Hs) as Hlast. destruct (scan_right_spec canon m needle (haystack + j) (n - 1) (S fuel) (Z.max l memory) ltac:(lia) ltac:(lia)) as (i & -> & Hi & Heq & Hne).
    assert (Hright : forall x, l <= x < i -> h (j + x) = w x).
    { intros x Hx. destruct (Z.lt_ge_cases x memory); [apply Hmm; lia | apply eqv_letter, Heq; lia]. }
    destruct (Z.leb_spec (n - 1) i) as [Hc|Hc].
    + assert (Hall : forall x, l <= x < n -> h (j + x) = w x).
      { intros x Hx. destruct (Z.eq_dec x (n - 1)) as [->|]; [rewrite <- Hlast; f_equal; lia | apply Hright; lia]. }
      destruct (scan_left_spec canon m needle (haystack + j) memory (S fuel) (l - 1) ltac:(lia) ltac:(lia) ltac:(lia)) as (i2 & -> & Hi2 & Heq2 & Hne2).
      replace (wrap 64 (wrap 64 i2 + 1)) with (i2 + 1) by (unfold wrap; rewrite Zplus_mod_idemp_l, Z.mod_small by lia; reflexivity).
      destruct (Z.ltb_spec (i2 + 1) (memory + 1)) as [Hm|Hm].
      * eexists. split; [reflexivity|]. left. exists j. split; [|split; [exact Hnb | reflexivity]]. split; [lia|]. split; [lia|]. intros x Hx.
        destruct (Z.lt_ge_cases x memory); [apply Hmm; lia|]. destruct (Z.lt_ge_cases x l); [apply eqv_letter, Heq2; lia | apply Hall; lia].
      * apply IH; auto; try lia.
        -- apply none_before_shift; [exact Hnb|]. intros x Hx. destruct (Z.eq_dec x 0) as [->|].
           ++ intros (_ & _ & M). rewrite Z.add_0_r in M. apply (Hne2 ltac:(lia)), eqv_letter, M. lia.
           ++ apply (left_mismatch w h n N l p F); auto; try lia; tauto.
        -- intros x Hx. rewrite (Hper x) by lia. rewrite <- (Hall (x + p)) by lia. f_equal. lia.
    + apply IH; auto; try lia. apply none_before_shift; [exact Hnb|]. intros x Hx. apply (right_mismatch w h n N l p F j i); auto; try lia.
      intros E. apply (Hne ltac:(lia)), eqv_letter, E.
Qed.

Lemma long_distinct_spec : ~ per w 0 n p -> forall fuel j haystack_len,
  known haystack_len -> 0 <= j <= haystack_len + 1 -> none_before j -> N + n + 2 - j < Z.of_nat fuel ->
  exists r, long_distinct canon AVAILABLE m fuel table haystack haystack_len needle n l (Z.max l (n - l) + 1) j = Some r /\ first_match w h n N haystack r.
Proof using HA Hn F.
  intros Hper. induction fuel as [|fuel IH]; intros j hl Hk Hj Hnb Hf; [pose proof (available_known hl Hk); lia|]. cbn [long_distinct].
  pose proof (fac_l _ _ _ _ F) as Hl. pose proof (fac_p _ _ _ _ F) as Hp.
  pose proof (available_known hl Hk) as HkN. destruct (available_spec hl j Hk Hj) as (hl' & -> & Hk' & Hcov). destruct (Z.leb_spec (j + n) N) as [Hav|Hav]; [|eexists; split; [reflexivity | apply (none_at_end j); auto; lia]].
  replace (canon (m (haystack + j + n - 1))) with (h (j + n - 1)) by (unfold h; do 2 f_equal; lia). destruct (Z.ltb_spec 0 (table (h (j + n - 1)))) as [Hs|Hs].
  - destruct (table_shift j Hs) as [Hlast Hno]. destruct (table_spec (h (j + n - 1))) as [Hr _]. apply IH; auto; try lia. apply none_before_shift; assumption.
  - pose proof (table_last j Hs) as Hlast. destruct (scan_right_spec canon m needle (haystack + j) (n - 1) (S fuel) l ltac:(lia) ltac:(lia)) as (i & -> & Hi & Heq & Hne).
    assert (Hright : forall x, l <= x < i -> h (j + x) = w x) by (intros x Hx; apply eqv_letter, Heq; lia).
    destruct (Z.leb_spec (n - 1) i) as [Hc|Hc].
    + assert (Hall : forall x, l <= x < n -> h (j + x) = w x).
      { intros x Hx. destruct (Z.eq_dec x (n - 1)) as [->|]; [rewrite <- Hlast; f_equal; lia | apply Hright; lia]. }
      rewrite scan_left_all_eq by (pose proof (wrap_range 64 (l - 1) ltac:(lia)); unfold SIZE_MAX; lia).
      destruct (scan_left_spec canon m needle (haystack + j) 0 (S fuel) (l - 1) ltac:(lia) ltac:(lia) ltac:(lia)) as (i2 & -> & Hi2 & Heq2 & Hne2).
      assert (Em : (wrap 64 i2 =? SIZE_MAX) = (i2 =? -1)).
      { destruct (Z.eqb_spec i2 (-1)) as [->|]; [reflexivity|]. rewrite wrap_small by lia. apply Z.eqb_neq. unfold SIZE_MAX. lia. }
      rewrite Em. destruct (Z.eqb_spec i2 (-1)) as [->|Hm].
      * eexists. split; [reflexivity|]. left. exists j. split; [|split; [exact Hnb | reflexivity]]. split; [lia|]. split; [lia|]. intros x Hx.
        destruct (Z.lt_ge_cases x l); [apply eqv_letter, Heq2; lia | apply Hall; lia].
      * apply IH; auto; try lia. apply none_before_shift; [exact Hnb|]. intros x Hx. destruct (Z.eq_dec x 0) as [->|].
        -- intros (_ & _ & M). rewrite Z.add_0_r in M. apply (Hne2 ltac:(lia)), eqv_letter, M. lia.
        -- apply (left_mismatch w h n N l p F); auto; try lia; tauto.
    + apply IH; auto; try lia. apply none_before_shift; [exact Hnb|]. intros x Hx. apply (right_mismatch w h n N l p F j i); auto; try lia.
      intros E. apply (Hne ltac:(lia)), eqv_letter, E.
Qed.
End Search.

Lemma two_way_long_needle_spec canon AVAILABLE CMP_FUNC m fuel haystack haystack_len needle n N known
    `{!Available AVAILABLE known n N} `{!Compares CMP_FUNC canon m needle n} :
  1 <= n < 2 ^ 63 -> known haystack_len -> 0 <= haystack_len -> N + n + 2 < Z.of_nat fuel -> 2 * n <= Z.of_nat fuel ->
  exists r, two_way_long_needle canon AVAILABLE CMP_FUNC m fuel haystack haystack_len needle n = Some r /\
    first_match (fun x => canon (m (needle + x))) (fun x => canon (m (haystack + x))) n N haystack r.
Proof.
  intros Hn Hk H0 Hf Hf2. unfold two_way_long_needle. destruct (critical_factorization_spec canon m needle n Hn fuel Hf2) as (l & p & -> & F).
  pose proof (fac_l _ _ _ _ F) as Hl. pose proof (fac_p _ _ _ _ F) as Hp. assert (H1p : 0 < p) by lia. assert (H0l : 0 <= l) by lia. assert (Hpl : p + l <= n) by lia. destruct (compares_spec p l H1p H0l Hpl) as (c & -> & Hc).
  assert (Hnb : forall j, j < 0 -> ~ matches (fun x => canon (m (needle + x))) (fun x => canon (m (haystack + x))) n N j) by (intros j Hj (H & _); lia).
  assert (Hw : c = 0 <-> per (fun x => canon (m (needle + x))) 0 n p).
  { rewrite Hc, <- (whole_period _ _ _ _ F). split; intros H x Hx; specialize (H x Hx); rewrite H; do 2 f_equal; lia. }
  destruct (Z.eqb_spec c 0) as [E|E].
  - apply (long_periodic_spec canon AVAILABLE m haystack N needle n known Hn l p F); auto; try lia; tauto.
  - apply (long_distinct_spec canon AVAILABLE m haystack N needle n known Hn l p F); auto; try lia. tauto.
Qed.

(** C13: critical_factorization.  For every needle of at least one byte the two searches
    for a maximal suffix end, and cut it at a critical position: the period returned is
    the smallest period of the right half, and every repetition around the cut is longer
    than the left half and a period of the whole needle. *)
Theorem critical_factorization_correct canon m needle n fuel : 1 <= n < 2 ^ 63 -> 2 * n <= Z.of_nat fuel ->
  let w x := canon (m (needle + x)) in
  exists l p, critical_factorization canon m fuel needle n = Some (l, p) /\ 0 <= l < n /\ 1 <= p <= n - l /\
    per w l n p /\ (forall r, 1 <= r < p -> ~ per w l n r) /\
    (forall r, 1 <= r -> rep w n l r -> l < r /\ per w 0 n r).
Proof.
  intros Hn Hf w. destruct (critical_factorization_spec canon m needle n Hn fuel Hf) as (l & p & E & [H1 H2 H3 H4 H5]). exists l, p. auto 8.
Qed.

(** The needle abaab is cut behind its first two letters; its right half has the period 3,
    which is a period of the needle. *)
Lemma critical_factorization_correct_witness :
  let m := at_bytes 101 [97; 98; 97; 97; 98] in
  critical_factorization (fun c => c) m 10 101 5 = Some (2, 3) /\ per (fun x => m (101 + x)) 0 5 3.
Proof.
  intros m. destruct (critical_factorization_correct (fun c => c) m 101 5 10 ltac:(lia) ltac:(lia)) as (l & p & E & _ & _ & _ & _ & Hc).
  split; [reflexivity|]. assert (El : Some (2, 3) = Some (l, p)) by (rewrite <- E; reflexivity). injection El as <- <-.
  apply (Hc 3 ltac:(lia)). intros x H1 H2 H3. assert (Hx : x = 0 \/ x = 1) by lia. destruct Hx as [->| ->]; reflexivity.
Defined.
