(* ===== verification/Substr.v ===== *)
(** * Searching for a substring (string/memmem.c, strstr.c)

    Needles of up to two or three bytes are found with a shift register; needles of up
    to 256 bytes with a table of shifts for hashes of pairs of bytes; longer ones with
    the Two-Way algorithm. *)

From Stdlib Require Import ZArith List Lia Bool.
From S2P Require Import Prelude StrWord Str MemCopy MemCmp TwoWay.
Import ListNotations.
#[local] Open Scope Z_scope.
#[local] Open Scope glibc_scope.

(** ((size_t) p[0] - ((size_t) p[-1] << 3)) % sizeof (shift) *)
Definition hash2 (m : mem) (p : Z) : Z := wrap 64 (m p - wrap 64 (Z.shiftl (m (p - 1)) 3)) mod 256.

(** for (int i = 1; i < m1; i++) shift[hash2 (ne + i)] = i; *)
Fixpoint fill_shift (k : nat) (m : mem) (ne i : Z) (shift : mem) : mem :=
  match k with O => shift | S k => fill_shift k m ne (i + 1) (upd shift (hash2 m (ne + i)) (wrap 8 i)) end.

(** shift and shift1 *)
Definition shift_tables (m : mem) (ne m1 : Z) : mem * Z :=
  let shift := fill_shift (Z.to_nat (m1 - 1)) m ne 1 (fun _ => 0) in
  let shift1 := m1 - shift (hash2 m (ne + m1)) in
  (upd shift (hash2 m (ne + m1)) (wrap 8 m1), shift1).

(** do { hs += m1; tmp = shift[hash2 (hs)]; } while (tmp == 0 && hs <= end); *)
Fixpoint skip_pairs (fuel : nat) (m shift : mem) (m1 end_ hs : Z) : option (Z * Z) :=
  match fuel with
  | O => None
  | S fuel =>
      let hs := hs + m1 in
      let tmp := shift (hash2 m hs) in
      if (tmp =? 0) && (hs <=? end_) then skip_pairs fuel m shift m1 end_ hs else Some (hs, tmp)
  end.

(** The body of the main loop: the match, or the next hs and offset. *)
Definition try_window (fuel : nat) (m shift : mem) (shift1 ne m1 end_ offset hs : Z) : option (Z + Z * Z) :=
  let? (hs, tmp) := skip_pairs fuel m shift m1 end_ hs in
  let hs := hs - tmp in
  if tmp <? m1 then Some (inr (hs, offset))
  else
    let? c := (if m1 <? 15 then Some 0 else memcmp m (hs + offset) (ne + offset) 8) in
    if c =? 0 then
      let? c := memcmp m hs ne m1 in
      if c =? 0 then Some (inl hs)
      else Some (inr (hs + shift1, wrap 64 ((if 8 <=? offset then offset else m1) - 8)))
    else Some (inr (hs + shift1, offset)).

(** ** memmem *)

Fixpoint memmem_loop (fuel : nat) (m shift : mem) (shift1 ne m1 end_ offset hs : Z) : option Z :=
  match fuel with
  | O => None
  | S fuel' =>
      if hs <=? end_ then
        let? x := try_window fuel m shift shift1 ne m1 end_ offset hs in
        match x with
        | inl hs => Some hs
        | inr (hs, offset) => memmem_loop fuel' m shift shift1 ne m1 end_ offset hs
        end
      else Some NULL
  end.

(** for (hs++; hs <= end && hw != nw; ) hw = hw << 16 | *++hs; *)
Fixpoint memmem2_loop (fuel : nat) (m : mem) (nw end_ hs hw : Z) : option (Z * Z) :=
  match fuel with
  | O => None
  | S fuel =>
      if (hs <=? end_) && negb (hw =? nw) then
        let hs := hs + 1 in memmem2_loop fuel m nw end_ hs (Z.lor (wrap 32 (Z.shiftl hw 16)) (m hs))
      else Some (hs, hw)
  end.

(** AVAILABLE of memmem.c. *)
Definition available_mem (h_l j n_l : Z) : option (bool * Z) := Some (j <=? wrap 64 (h_l - n_l), h_l).

Definition memmem (fuel : nat) (m : mem) (haystack hs_len needle ne_len : Z) : option Z :=
  let hs := haystack in
  let ne := needle in
  if ne_len =? 0 then Some hs
  else if ne_len =? 1 then memchr fuel m hs (m ne) hs_len
  else if hs_len <? ne_len then Some NULL
  else
    let end_ := hs + hs_len - ne_len in
    if ne_len =? 2 then
      let nw := Z.lor (Z.shiftl (m ne) 16) (m (ne + 1)) in
      let hw := Z.lor (Z.shiftl (m hs) 16) (m (hs + 1)) in
      let? (hs, hw) := memmem2_loop fuel m nw end_ (hs + 1) hw in
      Some (if hw =? nw then hs - 1 else NULL)
    else if 256 <? ne_len then two_way_long_needle (fun c => c) available_mem (memcmp m) m fuel hs hs_len ne ne_len
    else
      let m1 := ne_len - 1 in
      let '(shift, shift1) := shift_tables m ne m1 in
      memmem_loop fuel m shift shift1 ne m1 end_ 0 hs.

(** ** strstr *)

(** for (int c = hs[0]; h1 != h2 && c != 0; c = *++hs) h2 = next (h2, c); *)
Fixpoint register_loop (next : Z -> Z -> Z) (fuel : nat) (m : mem) (h1 h2 hs : Z) : option (Z * Z) :=
  match fuel with
  | O => None
  | S fuel =>
      let c := m hs in
      if negb (h1 =? h2) && negb (c =? 0) then register_loop next fuel m h1 (next h2 c) (hs + 1) else Some (h2, hs)
  end.

Definition strstr2 (fuel : nat) (m : mem) (hs ne : Z) : option Z :=
  let h1 := Z.lor (Z.shiftl (m ne) 16) (m (ne + 1)) in
  let? (h2, hs) := register_loop (fun h2 c => Z.lor (wrap 32 (Z.shiftl h2 16)) c) fuel m h1 0 hs in
  Some (if h1 =? h2 then hs - 2 else NULL).

Definition strstr3 (fuel : nat) (m : mem) (hs ne : Z) : option Z :=
  let h1 := Z.lor (Z.lor (Z.shiftl (m ne) 24) (Z.shiftl (m (ne + 1)) 16)) (Z.shiftl (m (ne + 2)) 8) in
  let? (h2, hs) := register_loop (fun h2 c => wrap 32 (Z.shiftl (Z.lor h2 c) 8)) fuel m h1 0 hs in
  Some (if h1 =? h2 then hs - 3 else NULL).

(** AVAILABLE of strstr.c. *)
Definition available_str (fuel : nat) (m : mem) (h h_l j n_l : Z) : option (bool * Z) :=
  if j + n_l <=? h_l then Some (true, h_l)
  else
    let? k := strnlen fuel m (h + h_l) (n_l + 512) in
    let h_l := h_l + k in
    Some (j + n_l <=? h_l, h_l).

Fixpoint strstr_loop (fuel : nat) (m shift : mem) (shift1 ne m1 end_ offset hs : Z) : option Z :=
  match fuel with
  | O => None
  | S fuel' =>
      let? end_ := (if end_ <? hs then let? k := strnlen fuel m (end_ + m1 + 1) 2048 in Some (end_ + k) else Some end_) in
      if end_ <? hs then Some NULL
      else
        let? x := try_window fuel m shift shift1 ne m1 end_ offset hs in
        match x with
        | inl hs => Some hs
        | inr (hs, offset) => strstr_loop fuel' m shift shift1 ne m1 end_ offset hs
        end
  end.

Definition strstr (fuel : nat) (m : mem) (haystack needle : Z) : option Z :=
  let ne := needle in
  if m ne =? 0 then Some haystack
  else
    let? hs := strchr fuel m haystack (m ne) in
    if (hs =? NULL) || (m (ne + 1) =? 0) then Some hs
    else if m (ne + 2) =? 0 then strstr2 fuel m hs ne
    else if m (ne + 3) =? 0 then strstr3 fuel m hs ne
    else
      let? ne_len := strlen fuel m ne in
      let? hs_len := strnlen fuel m hs (Z.lor ne_len 512) in
      if hs_len <? ne_len then Some NULL
      else
        let? c := memcmp m hs ne ne_len in
        if c =? 0 then Some hs
        else if 256 <? ne_len then two_way_long_needle (fun c => c) (available_str fuel m hs) (memcmp m) m fuel hs hs_len ne ne_len
        else
          let end_ := hs + hs_len - ne_len in
          let m1 := ne_len - 1 in
          let '(shift, shift1) := shift_tables m ne m1 in
          strstr_loop fuel m shift shift1 ne m1 end_ 0 hs.

(** * Proofs *)

(** The needle is at the address [s]. *)
Definition occurs (m : mem) (ne n s : Z) : Prop := forall x, 0 <= x < n -> m (s + x) = m (ne + x).

(** ** The table of shifts *)

Lemma hash2_mod m p : hash2 m p = (m p - 8 * m (p - 1)) mod 256.
Proof.
  unfold hash2, wrap. rewrite Z.shiftl_mul_pow2 by lia. change (2 ^ 3) with 8. rewrite Zminus_mod_idemp_r, (Z.mul_comm 8).
  apply Z.mod_mod_divide. exists (2 ^ 56). reflexivity.
Qed.

Section Hash.
Context (m : mem) (Hm : forall x, byte (m x)) (ne n : Z).
Let m1 := n - 1.
Hypothesis (Hn : 3 <= n <= 256).

Lemma occurs_hash s i : occurs m ne n s -> 1 <= i < n -> hash2 m (s + i) = hash2 m (ne + i).
Proof using Type.
  intros H Hi. rewrite !hash2_mod. rewrite (H i) by lia. replace (s + i - 1) with (s + (i - 1)) by lia. rewrite (H (i - 1)) by lia.
  replace (ne + i - 1) with (ne + (i - 1)) by lia. reflexivity.
Qed.

(** If the hashes and the first bytes of two pairs are equal, so are the second bytes. *)
Lemma hash2_second p q : hash2 m p = hash2 m q -> m (p - 1) = m (q - 1) -> m p = m q.
Proof using Hm.
  clear Hn m1. rewrite !hash2_mod. intros H E. rewrite E in H. pose proof (Hm p) as Hp. pose proof (Hm q) as Hq. unfold byte in *.
  pose proof (Z.div_mod (m p - 8 * m (q - 1)) 256 ltac:(lia)). pose proof (Z.div_mod (m q - 8 * m (q - 1)) 256 ltac:(lia)). lia.
Qed.

(** [t] is the last position below [k] whose pair has the hash [c], or 0. *)
Definition last_pair (c k t : Z) : Prop :=
  (t = 0 \/ 1 <= t < k /\ hash2 m (ne + t) = c) /\ (forall i, t < i < k -> 1 <= i -> hash2 m (ne + i) <> c).

Lemma fill_shift_spec k : forall i shift, 1 <= i -> i + Z.of_nat k <= 256 -> (forall c, last_pair c i (shift c)) ->
  forall c, last_pair c (i + Z.of_nat k) (fill_shift k m ne i shift c).
Proof using Type.
  clear Hn m1. induction k as [|k IH]; intros i shift Hi Hk H c; [rewrite Z.add_0_r; apply H|]. cbn [fill_shift]. replace (i + Z.of_nat (S k)) with (i + 1 + Z.of_nat k) by lia.
  apply IH; [lia | lia|]. clear c. intros c. unfold upd. destruct (Z.eqb_spec c (hash2 m (ne + i))) as [->|E].
  - rewrite wrap_small by lia. split; [right; split; [lia | reflexivity] | intros x Hx; lia].
  - destruct (H c) as [H1 H2]. split; [destruct H1 as [H1|[H1 H3]]; [auto | right; split; [lia | exact H3]]|].
    intros x Hx Hx1. destruct (Z.eq_dec x i) as [->|]; [congruence | apply H2; lia].
Qed.

Let shift := fst (shift_tables m ne m1).
Let shift1 := snd (shift_tables m ne m1).

Lemma shift_spec : (forall c, last_pair c n (shift c)) /\ 1 <= shift1 <= m1 /\ (forall i, m1 - shift1 < i < m1 -> 1 <= i -> hash2 m (ne + i) <> hash2 m (ne + m1)) /\
  (forall c, shift c = m1 -> c = hash2 m (ne + m1)).
Proof using Hn.
  unfold shift, shift1, shift_tables. cbn [fst snd]. pose proof (fill_shift_spec (Z.to_nat (m1 - 1)) 1 (fun _ => 0) ltac:(lia) ltac:(lia)) as H.
  set (f := fill_shift _ _ _ _ _) in *. rewrite Z2Nat.id in H by lia. replace (1 + (m1 - 1)) with m1 in H by lia.
  assert (Hf : forall c, last_pair c m1 (f c)) by (apply H; intros c; split; [auto | intros i Hi; lia]). clear H. rewrite wrap_small by lia. split; [|split; [|split]].
  - intros c. unfold upd. destruct (Z.eqb_spec c (hash2 m (ne + m1))) as [->|E].
    + split; [right; split; [lia | reflexivity] | intros i Hi; lia].
    + destruct (Hf c) as [H1 H2]. split; [destruct H1 as [H1|[H1 H3]]; [auto | right; split; [lia | exact H3]]|].
      intros x Hx Hx1. destruct (Z.eq_dec x m1) as [->|]; [congruence | apply H2; lia].
  - destruct (Hf (hash2 m (ne + m1))) as [[H1|[H1 _]] _]; lia.
  - intros i Hi Hi1. destruct (Hf (hash2 m (ne + m1))) as [_ H2]. apply H2; lia.
  - intros c. unfold upd. destruct (Z.eqb_spec c (hash2 m (ne + m1))) as [->|E]; [reflexivity|]. destruct (Hf c) as [[H1|[H1 _]] _]; lia.
Qed.

Context (lo : Z).
Definition none_below (hs : Z) : Prop := forall s, lo <= s < hs -> ~ occurs m ne n s.

(** Where the last pair of a window is at [q], no occurrence starts before [q - shift]. *)
Lemma pair_shift q : none_below (q - m1) -> none_below (q - shift (hash2 m q)).
Proof using Hn.
  intros H s Hs Ho. destruct (Z.lt_ge_cases s (q - m1)); [apply (H s); [lia | exact Ho]|]. destruct shift_spec as [Hsh _]. destruct (Hsh (hash2 m q)) as [H1 H2].
  destruct (Z.eq_dec s q) as [->|Hne]; [destruct H1; lia|]. apply (H2 (q - s)); try lia. rewrite <- (occurs_hash s (q - s) Ho) by (destruct H1; lia). f_equal. lia.
Qed.

Lemma skip_pairs_spec e fuel : forall hs, hs <= e -> e - hs < Z.of_nat fuel -> none_below hs ->
  exists q, skip_pairs fuel m shift m1 e hs = Some (q, shift (hash2 m q)) /\ hs + m1 <= q <= e + m1 /\ none_below (q - m1) /\ (shift (hash2 m q) = 0 -> e < q).
Proof using Hn.
  induction fuel as [|fuel IH]; intros hs He Hf Hnb; [lia|]. cbn [skip_pairs].
  assert (Hnb' : none_below (hs + m1 - m1)) by (replace (hs + m1 - m1) with hs by lia; exact Hnb).
  destruct (Z.eqb_spec (shift (hash2 m (hs + m1))) 0) as [E|E]; cbn [andb].
  - destruct (Z.leb_spec (hs + m1) e) as [Hle|Hgt].
    + pose proof (pair_shift (hs + m1) Hnb') as H. rewrite E, Z.sub_0_r in H. destruct (IH (hs + m1) Hle ltac:(lia) H) as (q & -> & H1 & H2 & H3).
      exists q. split; [reflexivity|]. split; [lia|]. split; assumption.
    + exists (hs + m1). split; [reflexivity|]. split; [lia|]. split; [exact Hnb' | lia].
  - exists (hs + m1). split; [reflexivity|]. split; [lia|]. split; [exact Hnb' | intros; contradiction].
Qed.

Lemma memcmp_occurs k a b : 0 <= k -> exists c, memcmp m a b k = Some c /\ (c = 0 <-> forall x, 0 <= x < k -> m (a + x) = m (b + x)).
Proof using Hm.
  clear Hn shift shift1 m1. intros Hk. eexists. split; [apply memcmp_spec; [exact Hm | exact Hk]|]. rewrite bytes_cmp_0, Z2Nat.id by lia. reflexivity.
Qed.

(** One round: a first occurrence, or none before the next position. *)
Lemma try_window_spec e fuel offset hs : hs <= e -> e - hs < Z.of_nat fuel -> lo <= hs -> none_below hs -> (15 <= m1 -> 0 <= offset <= m1 - 8) ->
  exists x, try_window fuel m shift shift1 ne m1 e offset hs = Some x /\
    match x with
    | inl s => hs <= s <= e /\ occurs m ne n s /\ none_below s
    | inr (hs', offset') => hs < hs' <= e + m1 /\ none_below hs' /\ (15 <= m1 -> 0 <= offset' <= m1 - 8)
    end.
Proof using Hn Hm.
  intros He Hf Hlo Hnb Hoff. unfold try_window. destruct (skip_pairs_spec e fuel hs He Hf Hnb) as (q & -> & Hq & Hnq & Hz). destruct shift_spec as (Hsh & Hs1 & Hs2 & Hs3).
  destruct (Hsh (hash2 m q)) as [Hsq _]. set (t := shift (hash2 m q)) in *. destruct (Z.ltb_spec t m1) as [Ht|Ht].
  - eexists. split; [reflexivity|]. cbv beta iota. split; [|split; [apply pair_shift, Hnq | exact Hoff]]. destruct Hsq as [E|[E _]]; [|lia]. specialize (Hz E). lia.
  - assert (Et : t = m1) by (destruct Hsq as [E|[E _]]; lia). pose proof (Hs3 _ Et) as Hhash. rewrite Et. clear Ht Hz.
    assert (Hnext : ~ occurs m ne n (q - m1) -> none_below (q - m1 + shift1)).
    { intros Hno s Hs Ho. destruct (Z.lt_trichotomy s (q - m1)) as [H|[->|H]]; [apply (Hnq s); [lia | exact Ho] | exact (Hno Ho)|].
      apply (Hs2 (q - s)); try lia. rewrite <- (occurs_hash s (q - s) Ho) by lia. rewrite <- Hhash. f_equal. lia. }
    assert (Hlast : (forall x, 0 <= x < m1 -> m (q - m1 + x) = m (ne + x)) -> occurs m ne n (q - m1)).
    { intros H x Hx. destruct (Z.eq_dec x m1) as [->|]; [|apply H; lia]. replace (q - m1 + m1) with q by lia. apply hash2_second; [exact Hhash|].
      specialize (H (m1 - 1) ltac:(lia)). replace (q - m1 + (m1 - 1)) with (q - 1) in H by lia. replace (ne + m1 - 1) with (ne + (m1 - 1)) by lia. exact H. }
    assert (Hf8 : exists c, (if m1 <? 15 then Some 0 else memcmp m (q - m1 + offset) (ne + offset) 8) = Some c /\ (c <> 0 -> ~ occurs m ne n (q - m1))).
    { destruct (Z.ltb_spec m1 15) as [H|H]; [exists 0; split; [reflexivity | congruence]|]. destruct (memcmp_occurs 8 (q - m1 + offset) (ne + offset) ltac:(lia)) as (c & -> & Hc).
      exists c. split; [reflexivity|]. intros Hne Ho. apply Hne, Hc. intros x Hx. specialize (Hoff H). rewrite <- !Z.add_assoc. apply Ho. lia. }
    destruct Hf8 as (c8 & -> & Hc8). destruct (Z.eqb_spec c8 0) as [E8|E8].
    + destruct (memcmp_occurs m1 (q - m1) ne ltac:(lia)) as (c & -> & Hc). destruct (Z.eqb_spec c 0) as [Ec|Ec].
      * eexists. split; [reflexivity|]. cbv beta iota. split; [lia|]. split; [apply Hlast, Hc, Ec | exact Hnq].
      * eexists. split; [reflexivity|]. cbv beta iota. split; [lia|]. split; [apply Hnext; intros Ho; apply Ec, Hc; intros x Hx; apply Ho; lia|].
        intros H15. specialize (Hoff H15). destruct (Z.leb_spec 8 offset); rewrite wrap_small by lia; lia.
    + eexists. split; [reflexivity|]. cbv beta iota. split; [lia|]. split; [apply Hnext, Hc8, E8 | exact Hoff].
Qed.
End Hash.

(** ** First occurrences *)

(** The occurrence of the [n] bytes at [ne] in the [N] bytes at [hs] that [r] is, or
    that there is none. *)
Definition substring (m : mem) (hs N ne n r : Z) : Prop := first_match (fun x => m (ne + x)) (fun x => m (hs + x)) n N hs r.

Lemma matches_occurs m hs N ne n j : matches (fun x => m (ne + x)) (fun x => m (hs + x)) n N j <-> 0 <= j /\ j + n <= N /\ occurs m ne n (hs + j).
Proof. unfold matches, occurs. split; intros (H1 & H2 & H3); (split; [exact H1|]; split; [exact H2|]); intros x Hx; specialize (H3 x Hx); rewrite <- H3; f_equal; lia. Qed.

Lemma substring_found m hs N ne n s : hs <= s <= hs + N - n -> occurs m ne n s -> none_below m ne n hs s -> substring m hs N ne n s.
Proof.
  intros Hs Ho Hnb. left. exists (s - hs). split; [|split; [|lia]].
  - apply matches_occurs. replace (hs + (s - hs)) with s by lia. repeat split; try lia. exact Ho.
  - intros j Hj M. apply matches_occurs in M as (H1 & H2 & H3). apply (Hnb (hs + j)); [lia | exact H3].
Qed.

Lemma substring_null m hs N ne n s : hs + N - n < s -> none_below m ne n hs s -> substring m hs N ne n NULL.
Proof. intros Hs Hnb. right. split; [|reflexivity]. intros j M. apply matches_occurs in M as (H1 & H2 & H3). apply (Hnb (hs + j)); [lia | exact H3]. Qed.

(** A search from [hs + d] on. *)
Lemma substring_shift m hs d N ne n r : 0 <= d -> none_below m ne n hs (hs + d) -> substring m (hs + d) (N - d) ne n r -> substring m hs N ne n r.
Proof.
  intros Hd Hnb [(j & M & Hf & ->)|[Hf ->]].
  - apply matches_occurs in M as (H1 & H2 & H3). apply substring_found; [lia | exact H3|]. intros s Hs Ho. destruct (Z.lt_ge_cases s (hs + d)); [apply (Hnb s); [lia | exact Ho]|].
    apply (Hf (s - (hs + d))); [lia|]. apply matches_occurs. replace (hs + d + (s - (hs + d))) with s by lia. repeat split; try lia. exact Ho.
  - apply (substring_null m hs N ne n (hs + N - n + 1)); [lia|]. intros s Hs Ho. destruct (Z.lt_ge_cases s (hs + d)); [apply (Hnb s); [lia | exact Ho]|].
    apply (Hf (s - (hs + d))). apply matches_occurs. replace (hs + d + (s - (hs + d))) with s by lia. repeat split; try lia. exact Ho.
Qed.

#[export] Instance memcmp_compares m ne n : (forall x, byte (m x)) -> Compares (memcmp m) (fun c => c) m ne n.
Proof. intros Hm p k _ Hk _. exact (memcmp_occurs m Hm k ne (ne + p) Hk). Qed.

#[export] Instance available_mem_spec n N : 0 <= n <= N -> N < 2 ^ 63 -> Available available_mem (fun hl => hl = N) n N.
Proof.
  intros Hn HN. split; [intros hl ->; lia|]. intros hl j -> Hj. exists N. unfold available_mem. rewrite wrap_small by lia.
  split; [|split; [reflexivity | lia]]. do 2 f_equal. destruct (Z.leb_spec j (N - n)), (Z.leb_spec (j + n) N); lia || reflexivity.
Qed.

(** ** memmem *)
Section Memmem.
Context (m : mem) (Hm : forall x, byte (m x)) (hs0 N ne n : Z).
Hypothesis (H0 : 0 < hs0) (HN : 0 <= N) (HsN : hs0 + N < 2 ^ 63) (Hn0 : 0 <= n < 2 ^ 63).

Lemma memmem_loop_spec : 3 <= n <= 256 -> forall fuel offset hs, hs0 <= hs -> none_below m ne n hs0 hs -> (15 <= n - 1 -> 0 <= offset <= n - 1 - 8) ->
  hs0 + N + 1 - hs < Z.of_nat fuel -> hs <= hs0 + N ->
  exists r, memmem_loop fuel m (fst (shift_tables m ne (n - 1))) (snd (shift_tables m ne (n - 1))) ne (n - 1) (hs0 + N - n) offset hs = Some r /\ substring m hs0 N ne n r.
Proof using Hm.
  intros Hn. induction fuel as [|fuel IH]; intros offset hs Hlo Hnb Hoff Hf Hhi; [lia|]. cbn [memmem_loop]. destruct (Z.leb_spec hs (hs0 + N - n)) as [He|He].
  - destruct (try_window_spec m Hm ne n Hn hs0 (hs0 + N - n) (S fuel) offset hs He ltac:(lia) Hlo Hnb Hoff) as ([s|[hs' offset']] & -> & Hx); cbv beta iota in Hx |- *.
    + destruct Hx as (H1 & H2 & H3). eexists. split; [reflexivity|]. apply substring_found; [lia | exact H2 | exact H3].
    + destruct Hx as (H1 & H2 & H3). apply IH; auto; lia.
  - eexists. split; [reflexivity|]. apply (substring_null m hs0 N ne n hs); [lia | exact Hnb].
Qed.

Definition pair (p : Z) : Z := m p * 65536 + m (p + 1).

Lemma pair_or p : Z.lor (Z.shiftl (m p) 16) (m (p + 1)) = pair p.
Proof using Hm. pose proof (Hm (p + 1)) as H. unfold byte in H. rewrite Z.shiftl_mul_pow2 by lia. apply (lor_add_low (m p) (m (p + 1)) 16); lia. Qed.

Lemma pair_next p : Z.lor (wrap 32 (Z.shiftl (pair p) 16)) (m (p + 2)) = pair (p + 1).
Proof using Hm.
  pose proof (Hm p) as H1. pose proof (Hm (p + 1)) as H2. unfold byte in H1, H2. rewrite <- (pair_or (p + 1)). replace (p + 1 + 1) with (p + 2) by lia. f_equal. unfold pair, wrap. rewrite !Z.shiftl_mul_pow2 by lia.
  symmetry. apply (Z.mod_unique_pos _ _ (m p)); lia.
Qed.

Lemma pair_occurs p : n = 2 -> pair p = pair ne <-> occurs m ne n p.
Proof using Hm.
  intros E. split.
  - intros Ep x Hx. pose proof (Hm p). pose proof (Hm (p + 1)). pose proof (Hm ne). pose proof (Hm (ne + 1)). unfold pair, byte in *.
    assert (Hc : x = 0 \/ x = 1) by lia. destruct Hc as [->| ->]; rewrite ?Z.add_0_r; lia.
  - intros Ho. pose proof (Ho 0 ltac:(lia)) as E0. pose proof (Ho 1 ltac:(lia)) as E1. rewrite !Z.add_0_r in E0. unfold pair. lia.
Qed.

Lemma memmem2_loop_spec : n = 2 -> forall fuel hs, hs0 <= hs -> none_below m ne n hs0 hs -> hs <= hs0 + N - n -> hs0 + N - hs < Z.of_nat fuel ->
  exists hs' , memmem2_loop fuel m (pair ne) (hs0 + N - n) (hs + 1) (pair hs) = Some (hs' + 1, pair hs') /\
    substring m hs0 N ne n (if pair hs' =? pair ne then hs' else NULL).
Proof using Hm.
  intros E. induction fuel as [|fuel IH]; intros hs Hlo Hnb Hhi Hf; [lia|]. cbn [memmem2_loop]. destruct (Z.eqb_spec (pair hs) (pair ne)) as [Ep|Ep]; cbn [negb]; rewrite ?andb_false_r, ?andb_true_r.
  - exists hs. split; [reflexivity|]. rewrite Ep, Z.eqb_refl. apply substring_found; [lia | apply pair_occurs; auto | exact Hnb].
  - assert (Hnb' : none_below m ne n hs0 (hs + 1)).
    { intros s Hs Ho. destruct (Z.eq_dec s hs) as [->|]; [apply Ep, pair_occurs; auto | apply (Hnb s); [lia | exact Ho]]. }
    destruct (Z.leb_spec (hs + 1) (hs0 + N - n)) as [Hle|Hgt].
    + replace (hs + 1 + 1) with (hs + 2) by lia. rewrite pair_next. replace (hs + 2) with (hs + 1 + 1) by lia. apply IH; auto; lia.
    + exists hs. split; [reflexivity|]. destruct (Z.eqb_spec (pair hs) (pair ne)); [contradiction|]. apply (substring_null m hs0 N ne n (hs + 1)); [lia | exact Hnb'].
Qed.

Lemma memmem_spec fuel : N + n + 2 < Z.of_nat fuel -> exists r, memmem fuel m hs0 N ne n = Some r /\ substring m hs0 N ne n r.
Proof using Hm H0 HN HsN Hn0.
  intros Hf. unfold memmem. assert (Hstart : none_below m ne n hs0 hs0) by (intros s Hs; lia).
  destruct (Z.eqb_spec n 0) as [E0|E0]; [eexists; split; [reflexivity|]; apply substring_found; [lia | intros x Hx; lia | exact Hstart]|].
  destruct (Z.eqb_spec n 1) as [E1|E1].
  { assert (Hw : wrap 8 (m ne) = m ne) by (apply wrap_small, Hm). destruct (hit_or_miss_upto (fun x => m x =? wrap 8 (m ne)) hs0 (hs0 + N)) as [(t & Ht & Hte)|Hmiss].
    - rewrite (memchr_hit m Hm fuel hs0 (m ne) N t Ht) by (unfold range_end; lia || (apply reaches_bytes; lia)). eexists. split; [reflexivity|]. rewrite Hw in Ht. destruct Ht as (H1 & H2 & H3).
      apply substring_found; [lia | |].
      + intros x Hx. replace x with 0 by lia. rewrite !Z.add_0_r. apply Z.eqb_eq, H2.
      + intros s Hs Ho. specialize (H3 s Hs). apply Z.eqb_neq in H3. specialize (Ho 0 ltac:(lia)). rewrite !Z.add_0_r in Ho. contradiction.
    - rewrite (memchr_miss m Hm fuel hs0 (m ne) N); [|lia | exact HN | intros x Hx; apply Hmiss; unfold range_end in Hx; lia | apply reaches_bytes; unfold range_end; lia].
      eexists. split; [reflexivity|]. apply (substring_null m hs0 N ne n (hs0 + N)); [lia|]. intros s Hs Ho. specialize (Hmiss s ltac:(lia)). rewrite Hw in Hmiss. apply Z.eqb_neq in Hmiss. specialize (Ho 0 ltac:(lia)). rewrite !Z.add_0_r in Ho. contradiction. }
  destruct (Z.ltb_spec N n) as [HNn|HNn]; [eexists; split; [reflexivity|]; apply (substring_null m hs0 N ne n hs0); [lia | exact Hstart]|].
  destruct (Z.eqb_spec n 2) as [E2|E2].
  { rewrite !pair_or. destruct (memmem2_loop_spec E2 fuel hs0 ltac:(lia) Hstart ltac:(lia) ltac:(lia)) as (hs' & -> & Hsub). eexists. split; [reflexivity|]. replace (hs' + 1 - 1) with hs' by lia. exact Hsub. }
  destruct (Z.ltb_spec 256 n) as [Hl|Hl].
  - pose proof (available_mem_spec n N ltac:(lia) ltac:(lia)) as HA. pose proof (memcmp_compares m ne n Hm) as HC.
    apply (two_way_long_needle_spec (fun c => c) available_mem (memcmp m) m fuel hs0 N ne n N (fun hl => hl = N)); first [lia | reflexivity].
  - destruct (shift_tables m ne (n - 1)) as [shift shift1] eqn:Es. pose proof (memmem_loop_spec ltac:(lia) fuel 0 hs0 ltac:(lia) Hstart ltac:(lia) ltac:(lia) ltac:(lia)) as H. rewrite Es in H. exact H.
Qed.
End Memmem.

(** ** strstr *)

Lemma strnlen_spec m fuel s z k : (forall x, byte (m x)) -> nul_at m s z -> 0 < s -> z < 2 ^ 63 -> 0 <= k -> z - s < Z.of_nat fuel ->
  strnlen fuel m s k = Some (Z.min k (z - s)).
Proof.
  intros Hm Hz Hs Hb Hk Hf. pose proof Hz as (H1 & H2 & H3). destruct (Z.lt_ge_cases z (s + k)) as [H|H].
  - rewrite Z.min_r by lia. apply strnlen_hit; auto; [unfold range_end; lia | apply reaches_bytes; lia].
  - rewrite Z.min_l by lia. apply strnlen_miss; auto; [lia | | apply reaches_bytes; unfold range_end; lia].
    intros x Hx. apply Z.eqb_neq, H3. unfold range_end in Hx. lia.
Qed.

#[export] Instance available_str_spec m fuel h z n : (forall x, byte (m x)) -> nul_at m h z -> 0 < h -> z < 2 ^ 63 -> 0 <= n -> z - h < Z.of_nat fuel ->
  Available (available_str fuel m h) (fun hl => 0 <= hl <= z - h) n (z - h).
Proof.
  intros Hm Hz Hh Hb Hn Hf. split; [lia|]. intros hl j Hk Hj. unfold available_str. destruct (Z.leb_spec (j + n) hl) as [H|H].
  - exists hl. split; [|lia]. do 2 f_equal. symmetry. apply Z.leb_le. lia.
  - rewrite (strnlen_spec m fuel (h + hl) z); try lia; auto; [|apply (hit_advance _ h); [exact Hz | lia]]. eexists. split; [|split; [|intros HjN]].
    + do 2 f_equal. destruct (Z.leb_spec (j + n) (hl + Z.min (n + 512) (z - (h + hl)))), (Z.leb_spec (j + n) (z - h)); lia || reflexivity.
    + lia.
    + lia.
Qed.

Section Strstr.
Context (m : mem) (Hm : forall x, byte (m x)) (hs0 zh ne n : Z).
Let N := zh - hs0.
Hypothesis (Hz : nul_at m hs0 zh) (Hne : nul_at m ne (ne + n)) (H0 : 0 < hs0) (Hzb : zh < 2 ^ 63) (Hneb : 0 < ne) (Hnb : ne + n < 2 ^ 63).

Lemma strstr_loop_spec : 3 <= n <= 256 -> forall fuel offset e hs, hs0 <= hs -> none_below m ne n hs0 hs -> (15 <= n - 1 -> 0 <= offset <= n - 1 - 8) ->
  e <= zh - n -> hs <= e + (n - 1) -> hs0 <= e -> zh + 1 - hs < Z.of_nat fuel ->
  exists r, strstr_loop fuel m (fst (shift_tables m ne (n - 1))) (snd (shift_tables m ne (n - 1))) ne (n - 1) e offset hs = Some r /\ substring m hs0 N ne n r.
Proof using Hm Hz H0 Hzb.
  intros Hn. induction fuel as [|fuel IH]; intros offset e hs Hlo Hno Hoff HeE Hhi Hel Hf; [lia|]. cbn [strstr_loop].
  assert (Hext : exists e', (if e <? hs then let? k := strnlen (S fuel) m (e + (n - 1) + 1) 2048 in Some (e + k) else Some e) = Some e' /\ e <= e' <= zh - n /\ (e' < hs -> e' = zh - n)).
  { destruct (Z.ltb_spec e hs) as [H|H]; [|exists e; repeat split; lia]. rewrite (strnlen_spec m (S fuel) (e + (n - 1) + 1) zh); try lia; auto; [|apply (hit_advance _ hs0); [exact Hz | lia]].
    eexists. split; [reflexivity|]. split; lia. }
  destruct Hext as (e' & -> & He' & Hend). destruct (Z.ltb_spec e' hs) as [H|H].
  - eexists. split; [reflexivity|]. specialize (Hend H). apply (substring_null m hs0 N ne n hs); [unfold N; lia | exact Hno].
  - destruct (try_window_spec m Hm ne n Hn hs0 e' (S fuel) offset hs H ltac:(lia) Hlo Hno Hoff) as ([s|[hs' offset']] & -> & Hx); cbv beta iota in Hx |- *.
    + destruct Hx as (H1 & H2 & H3). eexists. split; [reflexivity|]. apply substring_found; [unfold N; lia | exact H2 | exact H3].
    + destruct Hx as (H1 & H2 & H3). apply IH; auto; lia.
Qed.

(** The shift registers: [enc p] is the register in front of the byte at [p]. *)
Section Register.
Context (next : Z -> Z -> Z) (hs1 h1 : Z) (enc : Z -> Z).
Hypothesis (Henc : forall p, hs1 <= p < zh -> next (enc p) (m p) = enc (p + 1)).
Hypothesis (Hocc : forall p, hs1 <= p <= zh -> enc p = h1 <-> hs1 <= p - n /\ occurs m ne n (p - n)).

Lemma register_loop_spec fuel : forall p, hs0 <= hs1 -> hs1 <= p <= zh -> 0 <= n -> none_below m ne n hs0 hs1 -> (forall s, hs1 <= s < p - n -> ~ occurs m ne n s) -> zh - p < Z.of_nat fuel ->
  exists p', register_loop next fuel m h1 (enc p) p = Some (enc p', p') /\ substring m hs0 N ne n (if h1 =? enc p' then p' - n else NULL).
Proof using Hz Henc Hocc.
  induction fuel as [|fuel IH]; intros p Hlo Hp Hn Hno Hnp Hf; [lia|]. cbn [register_loop].
  assert (Hnone : forall q, q <= p - n -> none_below m ne n hs0 q) by (intros q Hq s Hs; destruct (Z.lt_ge_cases s hs1); [apply Hno; lia | apply Hnp; lia]).
  destruct (Z.eqb_spec h1 (enc p)) as [E|E]; cbn [negb andb].
  - exists p. split; [reflexivity|]. rewrite <- E, Z.eqb_refl. destruct (proj1 (Hocc p Hp) (eq_sym E)) as [H1 H2]. apply substring_found; [unfold N; lia | exact H2 | apply Hnone; lia].
  - assert (Hp1 : forall s, hs1 <= s < p + 1 - n -> ~ occurs m ne n s).
    { intros s Hs Ho. destruct (Z.eq_dec s (p - n)) as [->|]; [apply E; symmetry; apply (proj2 (Hocc p Hp)); split; [lia | exact Ho] | apply (Hnp s); [lia | exact Ho]]. }
    destruct (Z.eqb_spec (m p) 0) as [Ez|Ez]; cbn [negb].
    + exists p. split; [reflexivity|]. destruct (Z.eqb_spec h1 (enc p)); [contradiction|]. destruct Hz as (_ & _ & H3).
      assert (p = zh) as -> by (destruct (Z.eq_dec p zh) as [|Hpz]; [assumption|]; specialize (H3 p ltac:(lia)); apply Z.eqb_neq in H3; contradiction).
      apply (substring_null m hs0 N ne n (zh - n + 1)); [unfold N; lia|]. intros s Hs. destruct (Z.lt_ge_cases s hs1); [apply Hno; lia | apply Hp1; lia].
    + assert (Hpz : p < zh) by (destruct (Z.eq_dec p zh) as [->|]; [destruct Hz as (_ & H2 & _); apply Z.eqb_eq in H2; contradiction | lia]). rewrite Henc by lia. apply IH; auto; lia.
Qed.
End Register.

(** The byte [i] places before [p], or 0 before the start. *)
Definition before (hs1 i p : Z) : Z := if hs1 <=? p - i then m (p - i) else 0.

Lemma before_byte hs1 i p : byte (before hs1 i p).
Proof using Hm. clear N. unfold before. destruct (_ <=? _); [apply Hm | unfold byte; lia]. Qed.

Lemma before_next hs1 i p : before hs1 (i + 1) (p + 1) = before hs1 i p.
Proof using Type. clear N. unfold before. replace (p + 1 - (i + 1)) with (p - i) by lia. reflexivity. Qed.

Lemma before_1 hs1 p : hs1 <= p -> before hs1 1 (p + 1) = m p.
Proof using Type. clear N. intros H. unfold before. replace (p + 1 - 1) with p by lia. destruct (Z.leb_spec hs1 p); [reflexivity | lia]. Qed.

Lemma before_nz hs1 i p : before hs1 i p <> 0 -> hs1 <= p - i.
Proof using Type. clear N. unfold before. destruct (Z.leb_spec hs1 (p - i)); congruence. Qed.

Lemma before_in hs1 i p : hs1 <= p - i -> before hs1 i p = m (p - i).
Proof using Type. clear N. unfold before. destruct (Z.leb_spec hs1 (p - i)); [reflexivity | lia]. Qed.

Lemma strstr2_spec fuel hs1 : n = 2 -> hs0 <= hs1 <= zh -> none_below m ne n hs0 hs1 -> zh - hs1 < Z.of_nat fuel ->
  exists r, strstr2 fuel m hs1 ne = Some r /\ substring m hs0 N ne n r.
Proof using Hm Hz Hne.
  intros E Hlo Hno Hf. unfold strstr2. rewrite (pair_or m Hm). set (enc := fun p => before hs1 2 p * 65536 + before hs1 1 p).
  assert (Hnz : m ne <> 0) by (destruct Hne as (_ & _ & H3); specialize (H3 ne ltac:(lia)); apply Z.eqb_neq, H3).
  assert (E0 : 0 = enc hs1) by (unfold enc, before; destruct (Z.leb_spec hs1 (hs1 - 2)), (Z.leb_spec hs1 (hs1 - 1)); lia).
  destruct (register_loop_spec (fun h2 c => Z.lor (wrap 32 (Z.shiftl h2 16)) c) hs1 (pair m ne) enc) with (fuel := fuel) (p := hs1) as (p' & H1 & H2); try lia; auto.
  - intros p Hp. pose proof (before_byte hs1 2 p) as B2. pose proof (before_byte hs1 1 p) as B1. pose proof (Hm p) as Bp. unfold byte in *. unfold enc. change 2 with (1 + 1) at 2. rewrite before_next, before_1 by lia.
    replace (wrap 32 (Z.shiftl (before hs1 2 p * 65536 + before hs1 1 p) 16)) with (before hs1 1 p * 2 ^ 16).
    + apply (lor_add_low (before hs1 1 p) (m p) 16); lia.
    + unfold wrap. rewrite Z.shiftl_mul_pow2 by lia. apply (Z.mod_unique_pos _ _ (before hs1 2 p)); lia.
  - intros p Hp. pose proof (before_byte hs1 2 p) as B2. pose proof (before_byte hs1 1 p) as B1. pose proof (Hm ne) as Bn. pose proof (Hm (ne + 1)) as Bn1. unfold byte in *. unfold enc, pair. rewrite E. split.
    + intros Ep. assert (Ea : before hs1 2 p = m ne) by lia. assert (Eb : before hs1 1 p = m (ne + 1)) by lia. assert (Hge : hs1 <= p - 2) by (apply before_nz; congruence). split; [exact Hge|].
      rewrite before_in in Ea, Eb by lia. intros x Hx. assert (Hc : x = 0 \/ x = 1) by lia. destruct Hc as [->| ->]; rewrite ?Z.add_0_r; [exact Ea | rewrite <- Eb; f_equal; lia].
    + intros [Hge Ho]. rewrite !before_in by lia. rewrite <- (Ho 1) by lia. pose proof (Ho 0 ltac:(lia)) as Ho0. rewrite !Z.add_0_r in Ho0. rewrite Ho0. f_equal. f_equal. lia.
  - rewrite E0. rewrite H1. eexists. split; [reflexivity|]. rewrite E in H2 |- *. exact H2.
Qed.

Lemma strstr3_spec fuel hs1 : n = 3 -> hs0 <= hs1 <= zh -> none_below m ne n hs0 hs1 -> zh - hs1 < Z.of_nat fuel ->
  exists r, strstr3 fuel m hs1 ne = Some r /\ substring m hs0 N ne n r.
Proof using Hm Hz Hne.
  intros E Hlo Hno Hf. unfold strstr3. set (enc := fun p => before hs1 3 p * 2 ^ 24 + before hs1 2 p * 2 ^ 16 + before hs1 1 p * 2 ^ 8).
  assert (Hnz : m ne <> 0) by (destruct Hne as (_ & _ & H3); specialize (H3 ne ltac:(lia)); apply Z.eqb_neq, H3).
  pose proof (Hm ne) as Bn. pose proof (Hm (ne + 1)) as Bn1. pose proof (Hm (ne + 2)) as Bn2. unfold byte in Bn, Bn1, Bn2.
  replace (Z.lor (Z.lor (Z.shiftl (m ne) 24) (Z.shiftl (m (ne + 1)) 16)) (Z.shiftl (m (ne + 2)) 8)) with (m ne * 2 ^ 24 + m (ne + 1) * 2 ^ 16 + m (ne + 2) * 2 ^ 8).
  2: { rewrite !Z.shiftl_mul_pow2 by lia. rewrite (lor_add_low (m ne) (m (ne + 1) * 2 ^ 16) 24) by lia. replace (m ne * 2 ^ 24 + m (ne + 1) * 2 ^ 16) with ((m ne * 2 ^ 8 + m (ne + 1)) * 2 ^ 16) by lia.
       rewrite (lor_add_low _ (m (ne + 2) * 2 ^ 8) 16) by lia. lia. }
  assert (E0 : 0 = enc hs1) by (unfold enc, before; destruct (Z.leb_spec hs1 (hs1 - 3)), (Z.leb_spec hs1 (hs1 - 2)), (Z.leb_spec hs1 (hs1 - 1)); lia).
  destruct (register_loop_spec (fun h2 c => wrap 32 (Z.shiftl (Z.lor h2 c) 8)) hs1 (m ne * 2 ^ 24 + m (ne + 1) * 2 ^ 16 + m (ne + 2) * 2 ^ 8) enc) with (fuel := fuel) (p := hs1) as (p' & H1 & H2); try lia; auto.
  - intros p Hp. pose proof (before_byte hs1 3 p) as B3. pose proof (before_byte hs1 2 p) as B2. pose proof (before_byte hs1 1 p) as B1. pose proof (Hm p) as Bp. unfold byte in *. unfold enc.
    change 3 with (2 + 1) at 2. change 2 with (1 + 1) at 7. rewrite !before_next, before_1 by lia.
    replace (before hs1 3 p * 2 ^ 24 + before hs1 2 p * 2 ^ 16 + before hs1 1 p * 2 ^ 8) with ((before hs1 3 p * 2 ^ 16 + before hs1 2 p * 2 ^ 8 + before hs1 1 p) * 2 ^ 8) by lia.
    rewrite lor_add_low by lia. unfold wrap. rewrite Z.shiftl_mul_pow2 by lia. symmetry. apply (Z.mod_unique_pos _ _ (before hs1 3 p)); lia.
  - intros p Hp. pose proof (before_byte hs1 3 p) as B3. pose proof (before_byte hs1 2 p) as B2. pose proof (before_byte hs1 1 p) as B1. unfold byte in *. unfold enc. rewrite E. split.
    + intros Ep. assert (Ea : before hs1 3 p = m ne) by lia. assert (Eb : before hs1 2 p = m (ne + 1)) by lia. assert (Ec : before hs1 1 p = m (ne + 2)) by lia.
      assert (Hge : hs1 <= p - 3) by (apply before_nz; congruence). split; [exact Hge|]. rewrite before_in in Ea, Eb, Ec by lia. intros x Hx. assert (Hc : x = 0 \/ x = 1 \/ x = 2) by lia.
      destruct Hc as [->|[->| ->]]; rewrite ?Z.add_0_r; [exact Ea | rewrite <- Eb; f_equal; lia | rewrite <- Ec; f_equal; lia].
    + intros [Hge Ho]. rewrite !before_in by lia. pose proof (Ho 0 ltac:(lia)) as Ho0. pose proof (Ho 1 ltac:(lia)) as Ho1. pose proof (Ho 2 ltac:(lia)) as Ho2. rewrite !Z.add_0_r in Ho0.
      replace (p - 3 + 1) with (p - 2) in Ho1 by lia. replace (p - 3 + 2) with (p - 1) in Ho2 by lia. rewrite Ho0, Ho1, Ho2. reflexivity.
  - rewrite E0, H1. eexists. split; [reflexivity|]. rewrite E in H2 |- *. exact H2.
Qed.

Lemma needle_byte i : 0 <= i < n -> m (ne + i) <> 0.
Proof using Hne. clear N. intros Hi. destruct Hne as (_ & _ & H3). specialize (H3 (ne + i) ltac:(lia)). apply Z.eqb_neq, H3. Qed.

Lemma needle_end i : 0 <= i <= n -> (m (ne + i) =? 0) = (i =? n).
Proof using Hne.
  clear N. intros Hi. destruct (Z.eqb_spec i n) as [->|H]; [destruct Hne as (_ & H2 & _); exact H2|]. apply Z.eqb_neq, needle_byte. lia.
Qed.

Lemma strstr_spec fuel : N + 2 * n + 600 < Z.of_nat fuel -> exists r, strstr fuel m hs0 ne = Some r /\ substring m hs0 N ne n r.
Proof using Hm Hz Hne H0 Hzb Hneb Hnb.
  intros Hf. unfold strstr. assert (Hn0 : 0 <= n) by (destruct Hne; lia). assert (HN0 : 0 <= N) by (destruct Hz; lia). assert (Hstart : none_below m ne n hs0 hs0) by (intros s Hs; lia).
  pose proof (needle_end 0) as Hn_0. rewrite Z.add_0_r in Hn_0. rewrite Hn_0 by lia. destruct (Z.eqb_spec 0 n) as [E0|E0]; [eexists; split; [reflexivity|]; apply substring_found; [lia | intros x Hx; lia | exact Hstart]|].
  assert (Hw : wrap 8 (m ne) = m ne) by (apply wrap_small, Hm). assert (Hne0 : m ne <> 0) by (pose proof (needle_byte 0 ltac:(lia)) as H; rewrite Z.add_0_r in H; exact H).
  destruct (hit_or_miss_upto (fun x => (m x =? 0) || (m x =? wrap 8 (m ne))) hs0 (zh + 1)) as [(t & Ht & Htz)|Hmiss].
  2: { specialize (Hmiss zh ltac:(destruct Hz; lia)). destruct Hz as (_ & H2 & _). cbv beta in Hmiss. rewrite H2 in Hmiss. discriminate. }
  rewrite (strchr_spec m Hm fuel hs0 (m ne) t Ht) by (apply reaches_bytes; lia). rewrite Hw in *. destruct Ht as (Ht1 & Ht2 & Ht3).
  assert (Hno : none_below m ne n hs0 t).
  { intros s Hs Ho. specialize (Ht3 s Hs). apply orb_false_iff in Ht3 as [_ Ht3]. apply Z.eqb_neq in Ht3. specialize (Ho 0 ltac:(lia)). rewrite !Z.add_0_r in Ho. contradiction. }
  destruct (Z.eqb_spec (m t) (m ne)) as [Et|Et].
  2: { change (NULL =? NULL) with true. cbn [orb]. eexists. split; [reflexivity|]. assert (Ez : m t = 0) by (rewrite orb_false_r in Ht2; apply Z.eqb_eq, Ht2).
       assert (t = zh) as -> by (apply (hit_unique (fun x => m x =? 0) hs0 t zh); [split; [exact Ht1|]; split; [apply Z.eqb_eq, Ez | intros x Hx; specialize (Ht3 x Hx); apply orb_false_iff in Ht3; apply Ht3] | exact Hz]).
       apply (substring_null m hs0 N ne n zh); [unfold N; lia | exact Hno]. }
  assert (Htn : t <> NULL) by (unfold NULL; lia). destruct (Z.eqb_spec t NULL); [contradiction|]. cbn [orb].
  assert (Htzh : t < zh) by (destruct (Z.eq_dec t zh) as [->|]; [destruct Hz as (_ & H2 & _); apply Z.eqb_eq in H2; congruence | lia]).
  rewrite needle_end by lia. destruct (Z.eqb_spec 1 n) as [E1|E1].
  { eexists. split; [reflexivity|]. apply substring_found; [unfold N; lia | intros x Hx; replace x with 0 by lia; rewrite !Z.add_0_r; exact Et | exact Hno]. }
  rewrite needle_end by lia. destruct (Z.eqb_spec 2 n) as [E2|E2]; [apply strstr2_spec; auto; lia|].
  rewrite needle_end by lia. destruct (Z.eqb_spec 3 n) as [E3|E3]; [apply strstr3_spec; auto; lia|].
  rewrite (strlen_spec m Hm fuel ne (ne + n) Hne) by (apply reaches_bytes; lia). replace (ne + n - ne) with n by lia.
  assert (Hor : n <= Z.lor n 512) by (apply Z.ldiff_le; [apply Z.lor_nonneg; lia | apply Z.bits_inj'; intros i Hi; rewrite Z.ldiff_spec, Z.lor_spec, Z.bits_0; destruct (Z.testbit n i); reflexivity]).
  assert (Hzt : nul_at m t zh) by (apply (hit_advance _ hs0); [exact Hz | lia]).
  rewrite (strnlen_spec m fuel t zh) by (auto; lia). set (hl := Z.min (Z.lor n 512) (zh - t)).
  destruct (Z.ltb_spec hl n) as [Hl|Hl]; [eexists; split; [reflexivity|]; apply (substring_null m hs0 N ne n t); [unfold N; lia | exact Hno]|].
  destruct (memcmp_occurs m Hm n t ne Hn0) as (c & -> & Hc). destruct (Z.eqb_spec c 0) as [Ec|Ec].
  { eexists. split; [reflexivity|]. apply substring_found; [unfold N; lia | exact (proj1 Hc Ec) | exact Hno]. }
  destruct (Z.ltb_spec 256 n) as [Hbig|Hsmall].
  - pose proof (available_str_spec m fuel t zh n Hm Hzt ltac:(lia) Hzb Hn0 ltac:(lia)) as HA. pose proof (memcmp_compares m ne n Hm) as HC.
    destruct (two_way_long_needle_spec (fun c => c) (available_str fuel m t) (memcmp m) m fuel t hl ne n (zh - t) (fun hl => 0 <= hl <= zh - t)) as (r & Er & Hr); try lia.
    exists r. split; [exact Er|]. replace t with (hs0 + (t - hs0)) in Hr by lia. apply (substring_shift m hs0 (t - hs0) N ne n r); [lia | replace (hs0 + (t - hs0)) with t by lia; exact Hno|].
    replace (zh - (hs0 + (t - hs0))) with (N - (t - hs0)) in Hr by (unfold N; lia). exact Hr.
  - destruct (shift_tables m ne (n - 1)) as [shift shift1] eqn:Es. pose proof (strstr_loop_spec ltac:(lia) fuel 0 (t + hl - n) t ltac:(lia) Hno ltac:(lia) ltac:(lia) ltac:(lia) ltac:(lia) ltac:(lia)) as H. rewrite Es in H. exact H.
Qed.
End Strstr.

(** C12: memmem returns the first occurrence of the needle in the haystack, and a null
    pointer when there is none, for every length: through memchr, the shift register,
    the table of hashed pairs with its filter and the incomplete comparison, and the
    Two-Way search with its shift table and memory.  It always returns. *)
Theorem memmem_correct fuel m haystack hs_len needle ne_len : (forall x, byte (m x)) -> 0 < haystack -> 0 <= hs_len -> haystack + hs_len < 2 ^ 63 -> 0 <= ne_len < 2 ^ 63 ->
  hs_len + ne_len + 2 < Z.of_nat fuel ->
  exists r, memmem fuel m haystack hs_len needle ne_len = Some r /\ substring m haystack hs_len needle ne_len r.
Proof. intros Hm H1 H2 H3 H4 H5. apply memmem_spec; assumption. Qed.

(** C14: strstr returns the first occurrence of one string in another, and a null pointer
    when there is none, for strings of every length, although it extends the known
    length of the haystack only as it needs it. *)
Theorem strstr_correct fuel m haystack hs_end needle ne_end : (forall x, byte (m x)) -> nul_at m haystack hs_end -> nul_at m needle ne_end ->
  0 < haystack -> hs_end < 2 ^ 63 -> 0 < needle -> ne_end < 2 ^ 63 -> (hs_end - haystack) + 2 * (ne_end - needle) + 600 < Z.of_nat fuel ->
  exists r, strstr fuel m haystack needle = Some r /\ substring m haystack (hs_end - haystack) needle (ne_end - needle) r.
Proof.
  intros Hm Hz Hne H1 H2 H3 H4 Hf. apply strstr_spec; auto; try lia. replace (needle + (ne_end - needle)) with ne_end by lia. exact Hne.
Qed.

(** The period of the long needle of the examples. *)
Definition example_period : list Z := [97; 98; 97; 97; 98].
Fixpoint times {A} (k : nat) (l : list A) : list A := match k with O => [] | S k => l ++ times k l end.

(** bra in abracadabra, and a needle of 260 bytes behind a near miss. *)
Lemma memmem_correct_witness :
  let m1 := at_bytes 101 [97; 98; 114; 97; 99; 97; 100; 97; 98; 114; 97; 99; 97; 100] in
  let m2 := at_bytes 101 (times 51 example_period ++ [99] ++ times 53 example_period) in
  (exists r, memmem 20 m1 101 11 105 3 = Some r /\ substring m1 101 11 105 3 r /\ r = 105) /\
  (exists r, memmem 1000 m2 101 521 362 260 = Some r /\ substring m2 101 521 362 260 r /\ r = 357).
Proof.
  intros m1 m2. assert (H1 : forall x, byte (m1 x)) by (apply at_bytes_byte; reflexivity). assert (H2 : forall x, byte (m2 x)) by (apply at_bytes_byte; vm_compute; reflexivity). split.
  - destruct (memmem_correct 20 m1 101 11 105 3 H1) as (r & E & H); try lia. exists r. split; [exact E|]. split; [exact H|]. assert (Ev : Some 105 = Some r) by (rewrite <- E; vm_compute; reflexivity). congruence.
  - destruct (memmem_correct 1000 m2 101 521 362 260 H2) as (r & E & H); try lia. exists r. split; [exact E|]. split; [exact H|]. assert (Ev : Some 357 = Some r) by (rewrite <- E; vm_compute; reflexivity). congruence.
Defined.

Lemma strstr_correct_witness :
  let m := at_bytes 101 [97; 98; 114; 97; 99; 97; 100; 97; 98; 114; 97; 0; 97; 100; 97; 98; 0] in
  exists r, strstr 700 m 101 113 = Some r /\ substring m 101 11 113 4 r /\ r = 106.
Proof.
  intros m. assert (Hm : forall x, byte (m x)) by (apply at_bytes_byte; reflexivity).
  destruct (strstr_correct 700 m 101 112 113 117 Hm) as (r & E & H); try lia; try (apply hit_check; reflexivity).
  exists r. split; [exact E|]. split; [exact H|]. assert (Ev : Some 106 = Some r) by (rewrite <- E; vm_compute; reflexivity). congruence.
Defined.
