(* ===== verification/StrCase.v ===== *)
(** * Comparing and searching without regard to case (string/strcasecmp.c, strncase.c,
      strcasestr.c, and two_way_short_needle of str-two-way.h)

    tolower is a table of the locale and a parameter.  two_way_short_needle is
    instantiated by strcasestr.c only, with CHECK_EOL and RET0_IF_0, and is modelled as it is
    compiled there. *)

From Stdlib Require Import ZArith List Lia Bool.
From S2P Require Import Prelude StrWord Str MemCopy MemCmp TwoWay Substr.
Import ListNotations.
#[local] Open Scope Z_scope.
#[local] Open Scope glibc_scope.

Section Case.
Context (TOLOWER : Z -> Z) (m : mem).

Fixpoint strcasecmp_loop (fuel : nat) (p1 p2 : Z) : option Z :=
  match fuel with
  | O => None
  | S fuel =>
      let result := TOLOWER (m p1) - TOLOWER (m p2) in
      if result =? 0 then if m p1 =? 0 then Some result else strcasecmp_loop fuel (p1 + 1) (p2 + 1)
      else Some result
  end.

Definition strcasecmp (fuel : nat) (s1 s2 : Z) : option Z := if s1 =? s2 then Some 0 else strcasecmp_loop fuel s1 s2.

Fixpoint strncasecmp_loop (fuel : nat) (p1 p2 n : Z) : option Z :=
  match fuel with
  | O => None
  | S fuel =>
      let result := TOLOWER (m p1) - TOLOWER (m p2) in
      if result =? 0 then
        if m p1 =? 0 then Some result
        else let n := wrap 64 (n - 1) in if n =? 0 then Some result else strncasecmp_loop fuel (p1 + 1) (p2 + 1) n
      else Some result
  end.

Definition strncasecmp (fuel : nat) (s1 s2 n : Z) : option Z :=
  if (s1 =? s2) || (n =? 0) then Some 0 else strncasecmp_loop fuel s1 s2 n.

(** ** two_way_short_needle *)

(** The loop for a needle that is periodic as a whole. *)
Fixpoint short_periodic (AVAILABLE : Z -> Z -> Z -> option (bool * Z)) (fuel : nat)
    (haystack haystack_len needle needle_len suffix period memory j : Z) : option Z :=
  match fuel with
  | O => None
  | S fuel' =>
      let? (available, haystack_len) := AVAILABLE haystack_len j needle_len in
      if available then
        let? i := scan_right TOLOWER m fuel needle_len needle (haystack + j) (Z.max suffix memory) in
        if needle_len <=? i then
          let? i := scan_left TOLOWER m fuel memory needle (haystack + j) (wrap 64 (suffix - 1)) in
          if wrap 64 (i + 1) <? memory + 1 then Some (haystack + j)
          else short_periodic AVAILABLE fuel' haystack haystack_len needle needle_len suffix period (needle_len - period) (j + period)
        else short_periodic AVAILABLE fuel' haystack haystack_len needle needle_len suffix period 0 (j + (i - suffix + 1))
      else Some NULL
  end.

(** while (needle_suffix != (haystack_char = *phaystack++)) RET0_IF_0 (haystack_char);
    [None] inside for ret0; phaystack behind the loop. *)
Fixpoint first_char (fuel : nat) (needle_suffix phaystack : Z) : option (option Z) :=
  match fuel with
  | O => None
  | S fuel =>
      let haystack_char := TOLOWER (m phaystack) in
      if needle_suffix =? haystack_char then Some (Some (phaystack + 1))
      else if haystack_char =? 0 then Some None
      else first_char fuel needle_suffix (phaystack + 1)
  end.

(** The scan of the right half: i and phaystack, or ret0. *)
Fixpoint eol_right (fuel : nat) (needle needle_len i phaystack : Z) : option (option (Z * Z)) :=
  match fuel with
  | O => None
  | S fuel =>
      if i <? needle_len then
        let haystack_char := TOLOWER (m phaystack) in
        if TOLOWER (m (needle + i)) =? haystack_char then eol_right fuel needle needle_len (i + 1) (phaystack + 1)
        else if haystack_char =? 0 then Some None
        else Some (Some (i, phaystack + 1))
      else Some (Some (i, phaystack))
  end.

(** The scan of the left half: i, or ret0. *)
Fixpoint eol_left (fuel : nat) (needle haystack_j i : Z) : option (option Z) :=
  match fuel with
  | O => None
  | S fuel =>
      if i =? SIZE_MAX then Some (Some i)
      else
        let haystack_char := TOLOWER (m (haystack_j + i)) in
        if TOLOWER (m (needle + i)) =? haystack_char then eol_left fuel needle haystack_j (wrap 64 (i - 1))
        else if haystack_char =? 0 then Some None
        else Some (Some i)
  end.

(** The loop for a needle with two different halves. *)
Fixpoint short_distinct (AVAILABLE : Z -> Z -> Z -> option (bool * Z)) (fuel : nat)
    (haystack haystack_len needle needle_len suffix period j : Z) : option Z :=
  match fuel with
  | O => None
  | S fuel' =>
      let? (available, haystack_len) := AVAILABLE haystack_len j needle_len in
      if available then
        let? x := first_char fuel (TOLOWER (m (needle + suffix))) (haystack + (suffix + j)) in
        match x with
        | None => Some NULL
        | Some phaystack =>
            let j := phaystack - (haystack + suffix) - 1 in
            let? x := eol_right fuel needle needle_len (suffix + 1) phaystack in
            match x with
            | None => Some NULL
            | Some (i, phaystack) =>
                let haystack_len := if haystack + haystack_len <? phaystack then phaystack - haystack else haystack_len in
                if needle_len <=? i then
                  let? x := eol_left fuel needle (haystack + j) (wrap 64 (suffix - 1)) in
                  match x with
                  | None => Some NULL
                  | Some i =>
                      if i =? SIZE_MAX then Some (haystack + j)
                      else short_distinct AVAILABLE fuel' haystack haystack_len needle needle_len suffix period (j + period)
                  end
                else short_distinct AVAILABLE fuel' haystack haystack_len needle needle_len suffix period (j + (i - suffix + 1))
            end
        end
      else Some NULL
  end.

Definition two_way_short_needle (AVAILABLE : Z -> Z -> Z -> option (bool * Z)) (CMP_FUNC : Z -> Z -> Z -> option Z) (fuel : nat)
    (haystack haystack_len needle needle_len : Z) : option Z :=
  let? (suffix, period) := critical_factorization TOLOWER m fuel needle needle_len in
  let? c := CMP_FUNC needle (needle + period) suffix in
  if c =? 0 then short_periodic AVAILABLE fuel haystack haystack_len needle needle_len suffix period 0 0
  else
    let period := Z.max suffix (needle_len - suffix) + 1 in
    short_distinct AVAILABLE fuel haystack haystack_len needle needle_len suffix period 0.

Definition LONG_NEEDLE_THRESHOLD : Z := 32.

Definition strcasestr (fuel : nat) (haystack needle : Z) : option Z :=
  if m needle =? 0 then Some haystack
  else
    let? needle_len := strlen fuel m needle in
    let? haystack_len := strnlen fuel m haystack (needle_len + 256) in
    if haystack_len <? needle_len then Some NULL
    else if needle_len <? LONG_NEEDLE_THRESHOLD
    then two_way_short_needle (available_str fuel m haystack) (strncasecmp fuel) fuel haystack haystack_len needle needle_len
    else two_way_long_needle TOLOWER (available_str fuel m haystack) (strncasecmp fuel) m fuel haystack haystack_len needle needle_len.
End Case.

(** * Proofs *)

Section CaseProofs.
Context (TOLOWER : Z -> Z) (m : mem) (Hm : forall x, byte (m x)).

(** Only the terminating byte is turned into a zero. *)
Hypothesis (Hlow : forall c, byte c -> TOLOWER c = 0 <-> c = 0).

(** ** Comparing *)

Lemma strcasecmp_loop_spec z fuel : forall p1 p2, nul_at m p1 z -> z - p1 < Z.of_nat fuel ->
  exists d, 0 <= d <= z - p1 /\ strcasecmp_loop TOLOWER m fuel p1 p2 = Some (TOLOWER (m (p1 + d)) - TOLOWER (m (p2 + d))) /\
    (forall i, 0 <= i < d -> TOLOWER (m (p1 + i)) = TOLOWER (m (p2 + i))) /\ (TOLOWER (m (p1 + d)) = TOLOWER (m (p2 + d)) -> p1 + d = z).
Proof using Type.
  clear Hm Hlow. induction fuel as [|fuel IH]; intros p1 p2 Hz Hf; [destruct Hz; lia|]. cbn [strcasecmp_loop]. destruct (Z.eqb_spec (TOLOWER (m p1) - TOLOWER (m p2)) 0) as [E|E].
  - destruct (Z.eqb_spec (m p1) 0) as [E0|E0].
    + exists 0. rewrite !Z.add_0_r. pose proof (nul_at_zero _ _ _ Hz E0). split; [lia|]. split; [reflexivity|]. split; [intros i Hi; lia | lia].
    + destruct (IH (p1 + 1) (p2 + 1)) as (d & H1 & H2 & H3 & H4); [apply nul_at_next; assumption | lia|]. exists (d + 1). replace (p1 + (d + 1)) with (p1 + 1 + d) by lia. replace (p2 + (d + 1)) with (p2 + 1 + d) by lia.
      split; [lia|]. split; [exact H2|]. split; [|exact H4]. intros i Hi. destruct (Z.eq_dec i 0) as [->|]; [rewrite !Z.add_0_r; lia|].
      specialize (H3 (i - 1) ltac:(lia)). replace (p1 + 1 + (i - 1)) with (p1 + i) in H3 by lia. replace (p2 + 1 + (i - 1)) with (p2 + i) in H3 by lia. exact H3.
  - exists 0. rewrite !Z.add_0_r. split; [destruct Hz; lia|]. split; [reflexivity|]. split; [intros i Hi; lia | lia].
Qed.

Lemma strncasecmp_loop_spec fuel : forall p1 p2 n, 1 <= n < 2 ^ 63 -> (forall i, 0 <= i < n -> m (p1 + i) <> 0) -> n <= Z.of_nat fuel ->
  exists c, strncasecmp_loop TOLOWER m fuel p1 p2 n = Some c /\ (c = 0 <-> forall i, 0 <= i < n -> TOLOWER (m (p1 + i)) = TOLOWER (m (p2 + i))).
Proof using Type.
  clear Hm Hlow. induction fuel as [|fuel IH]; intros p1 p2 n Hn Hnz Hf; [lia|]. cbn [strncasecmp_loop]. destruct (Z.eqb_spec (TOLOWER (m p1) - TOLOWER (m p2)) 0) as [E|E].
  - destruct (Z.eqb_spec (m p1) 0) as [E0|_]; [specialize (Hnz 0 ltac:(lia)); rewrite Z.add_0_r in Hnz; contradiction|]. rewrite wrap_small by lia. destruct (Z.eqb_spec (n - 1) 0) as [E1|E1].
    + eexists. split; [reflexivity|]. split; [|intros; exact E]. intros _ i Hi. replace i with 0 by lia. rewrite !Z.add_0_r. lia.
    + destruct (IH (p1 + 1) (p2 + 1) (n - 1)) as (c & -> & Hc); try lia; [intros i Hi; replace (p1 + 1 + i) with (p1 + (i + 1)) by lia; apply Hnz; lia|]. exists c. split; [reflexivity|]. rewrite Hc. split; intros H i Hi.
      * destruct (Z.eq_dec i 0) as [->|]; [rewrite !Z.add_0_r; lia|]. specialize (H (i - 1) ltac:(lia)). replace (p1 + 1 + (i - 1)) with (p1 + i) in H by lia. replace (p2 + 1 + (i - 1)) with (p2 + i) in H by lia. exact H.
      * specialize (H (i + 1) ltac:(lia)). replace (p1 + 1 + i) with (p1 + (i + 1)) by lia. replace (p2 + 1 + i) with (p2 + (i + 1)) by lia. exact H.
  - eexists. split; [reflexivity|]. split; [contradiction|]. intros H. specialize (H 0 ltac:(lia)). rewrite !Z.add_0_r in H. lia.
Qed.

#[export] Instance strncasecmp_compares fuel needle n : nul_at m needle (needle + n) -> n < 2 ^ 63 -> n <= Z.of_nat fuel -> Compares (strncasecmp TOLOWER m fuel) TOLOWER m needle n.
Proof using Type.
  intros Hz Hb Hf p k Hp Hk Hpk. unfold strncasecmp. destruct (Z.eqb_spec needle (needle + p)); [lia|]. cbn [orb]. destruct (Z.eqb_spec k 0) as [->|Hk0].
  - exists 0. split; [reflexivity|]. split; [intros _ x Hx; lia | reflexivity].
  - apply strncasecmp_loop_spec; try lia. intros i Hi. destruct Hz as (_ & _ & H3). specialize (H3 (needle + i) ltac:(lia)). apply Z.eqb_neq, H3.
Qed.

(** ** Searching with a short needle *)
Section Short.
Context (AVAILABLE : Z -> Z -> Z -> option (bool * Z)) (haystack zh needle n : Z) (known : Z -> Prop).
Let N := zh - haystack.
Context `{HA : !Available AVAILABLE known n N}.
Hypothesis (Hz : nul_at m haystack zh) (Hne : nul_at m needle (needle + n)) (Hn : 1 <= n < 2 ^ 63).
Hypothesis (Hknown : forall hl, 0 <= hl <= N -> known hl).
Let w (x : Z) : Z := TOLOWER (m (needle + x)).
Let h (x : Z) : Z := TOLOWER (m (haystack + x)).
Context (l p : Z) (F : factored w n l p).
Let none_before (j : Z) : Prop := forall j', j' < j -> ~ matches w h n N j'.

Lemma short_none_shift j s : none_before j -> (forall x, 0 <= x < s -> ~ matches w h n N (j + x)) -> none_before (j + s).
Proof using Type. intros H H1 j' Hj'. destruct (Z.lt_ge_cases j' j); [apply H; lia|]. replace j' with (j + (j' - j)) by lia. apply H1. lia. Qed.

Lemma short_none_end j : none_before j -> N < j + n -> first_match w h n N haystack NULL.
Proof using Type. intros H Hj. right. split; [|reflexivity]. intros j' M. apply (H j'); [|exact M]. destruct M as (M1 & M2 & _). lia. Qed.

Lemma short_letter j x : TOLOWER (m (needle + x)) = TOLOWER (m (haystack + j + x)) <-> h (j + x) = w x.
Proof using Type. unfold h, w. rewrite Z.add_assoc. split; congruence. Qed.

Lemma short_periodic_spec : per w 0 n p -> forall fuel j memory haystack_len,
  known haystack_len -> 0 <= j <= haystack_len + 1 -> none_before j -> memory = 0 \/ memory = n - p -> (forall x, 0 <= x < memory -> h (j + x) = w x) ->
  N + n + 2 - j < Z.of_nat fuel ->
  exists r, short_periodic TOLOWER m AVAILABLE fuel haystack haystack_len needle n l p memory j = Some r /\ first_match w h n N haystack r.
Proof using HA Hn F.
  intros Hper. induction fuel as [|fuel IH]; intros j memory hl Hk Hj Hnb Hmem Hmm Hf; [pose proof (available_known hl Hk); lia|]. cbn [short_periodic].
  pose proof (fac_l _ _ _ _ F) as Hl. pose proof (fac_p _ _ _ _ F) as Hp. pose proof (left_short w n l p F Hper) as Hlp.
  pose proof (available_known hl Hk) as HkN. destruct (available_spec hl j Hk Hj) as (hl' & -> & Hk' & Hcov). destruct (Z.leb_spec (j + n) N) as [Hav|Hav]; [|eexists; split; [reflexivity | apply (short_none_end j); auto; lia]].
  destruct (scan_right_spec TOLOWER m needle (haystack + j) n (S fuel) (Z.max l memory) ltac:(lia) ltac:(lia)) as (i & -> & Hi & Heq & Hneq).
  assert (Hright : forall x, l <= x < i -> h (j + x) = w x).
  { intros x Hx. destruct (Z.lt_ge_cases x memory); [apply Hmm; lia | apply short_letter, Heq; lia]. }
  destruct (Z.leb_spec n i) as [Hc|Hc].
  - assert (Hall : forall x, l <= x < n -> h (j + x) = w x) by (intros x Hx; apply Hright; lia).
    destruct (scan_left_spec TOLOWER m needle (haystack + j) memory (S fuel) (l - 1) ltac:(lia) ltac:(lia) ltac:(lia)) as (i2 & -> & Hi2 & Heq2 & Hne2).
    replace (wrap 64 (wrap 64 i2 + 1)) with (i2 + 1) by (unfold wrap; rewrite Zplus_mod_idemp_l, Z.mod_small by lia; reflexivity).
    destruct (Z.ltb_spec (i2 + 1) (memory + 1)) as [Hmi|Hmi].
    + eexists. split; [reflexivity|]. left. exists j. split; [|split; [exact Hnb | reflexivity]]. split; [lia|]. split; [lia|]. intros x Hx.
      destruct (Z.lt_ge_cases x memory); [apply Hmm; lia|]. destruct (Z.lt_ge_cases x l); [apply short_letter, Heq2; lia | apply Hall; lia].
    + apply IH; auto; try lia.
      * apply short_none_shift; [exact Hnb|]. intros x Hx. destruct (Z.eq_dec x 0) as [->|].
        -- intros (_ & _ & M). rewrite Z.add_0_r in M. apply (Hne2 ltac:(lia)), short_letter, M. lia.
        -- apply (left_mismatch w h n N l p F); auto; try lia; tauto.
      * intros x Hx. rewrite (Hper x) by lia. rewrite <- (Hall (x + p)) by lia. f_equal. lia.
  - apply IH; auto; try lia. apply short_none_shift; [exact Hnb|]. intros x Hx. apply (right_mismatch w h n N l p F j i); auto; try lia.
    intros E. apply (Hneq ltac:(lia)), short_letter, E.
Qed.

(** Before the end of the haystack the letters are not zero. *)
Lemma letter_zero x : 0 <= x <= N -> h x = 0 <-> x = N.
Proof using Hz Hm Hlow.
  intros Hx. unfold h. rewrite Hlow by apply Hm. unfold N in *. destruct Hz as (H1 & H2 & H3). split.
  - intros E. destruct (Z.eq_dec x (zh - haystack)) as [|Hne']; [assumption|]. specialize (H3 (haystack + x) ltac:(lia)). apply Z.eqb_neq in H3. contradiction.
  - intros ->. replace (haystack + (zh - haystack)) with zh by lia. apply Z.eqb_eq, H2.
Qed.

Lemma needle_letter x : 0 <= x < n -> w x <> 0.
Proof using Hne Hm Hlow.
  clear none_before Hknown HA Hz N. intros Hx. unfold w. rewrite Hlow by apply Hm. destruct Hne as (_ & _ & H3). specialize (H3 (needle + x) ltac:(lia)). apply Z.eqb_neq, H3.
Qed.

Lemma first_char_spec fuel : forall x, 0 <= x <= N -> N - x < Z.of_nat fuel ->
  exists o, first_char TOLOWER m fuel (w l) (haystack + x) = Some o /\
    match o with
    | None => forall y, x <= y < N -> h y <> w l
    | Some ph => exists y, ph = haystack + y + 1 /\ x <= y < N /\ h y = w l /\ forall y', x <= y' < y -> h y' <> w l
    end.
Proof using Hz Hne Hm Hlow F.
  induction fuel as [|fuel IH]; intros x Hx Hf; [lia|]. cbn [first_char]. fold (h x). pose proof (needle_letter l (fac_l _ _ _ _ F)) as Hnz. destruct (Z.eqb_spec (w l) (h x)) as [E|E].
  - eexists. split; [reflexivity|]. cbv beta iota. exists x. split; [lia|]. split; [|split; [auto | intros y' Hy'; lia]]. pose proof (letter_zero x Hx) as Hxz. destruct (Z.eq_dec x N); [exfalso; apply Hnz; rewrite E; apply Hxz; assumption | lia].
  - destruct (Z.eqb_spec (h x) 0) as [E0|E0].
    + eexists. split; [reflexivity|]. cbv beta iota. apply letter_zero in E0; [|exact Hx]. intros y Hy. lia.
    + assert (x <> N) by (intros ->; apply E0, letter_zero; [lia | reflexivity]). destruct (IH (x + 1) ltac:(lia) ltac:(lia)) as (o & Eo & Ho). rewrite Z.add_assoc in Eo. exists o. split; [exact Eo|]. destruct o as [ph|].
      * destruct Ho as (y & H1 & H2 & H3 & H4). exists y. repeat split; try lia. intros y' Hy'. destruct (Z.eq_dec y' x) as [->|]; [congruence | apply H4; lia].
      * intros y Hy. destruct (Z.eq_dec y x) as [->|]; [congruence | apply Ho; lia].
Qed.

Lemma eol_right_spec j fuel : forall i, 0 <= i <= n -> 0 <= j -> j + i <= N -> n - i < Z.of_nat fuel ->
  exists o, eol_right TOLOWER m fuel needle n i (haystack + j + i) = Some o /\
    match o with
    | None => N < j + n
    | Some (i', ph) => i <= i' <= n /\ (forall x, i <= x < i' -> h (j + x) = w x) /\ (i' < n -> h (j + i') <> w i') /\
        ph = haystack + j + (if i' <? n then i' + 1 else i') /\ j + (if i' <? n then i' + 1 else i') <= N
    end.
Proof using Hz Hne Hm Hlow.
  induction fuel as [|fuel IH]; intros i Hi Hj HN Hf; [lia|]. cbn [eol_right]. destruct (Z.ltb_spec i n) as [Hlt|Hge].
  - replace (haystack + j + i) with (haystack + (j + i)) by lia. fold (w i) (h (j + i)). pose proof (letter_zero (j + i) ltac:(lia)) as Hz0. destruct (Z.eqb_spec (w i) (h (j + i))) as [E|E].
    + assert (j + i <> N) by (intros E1; apply (needle_letter i ltac:(lia)); rewrite E; apply Hz0, E1). destruct (IH (i + 1) ltac:(lia) Hj ltac:(lia) ltac:(lia)) as (o & Eo & Ho).
      replace (haystack + j + (i + 1)) with (haystack + (j + i) + 1) in Eo by lia. exists o. split; [exact Eo|]. destruct o as [[i' ph]|]; [|exact Ho]. destruct Ho as (H1 & H2 & H3 & H4).
      split; [lia|]. split; [|split; [exact H3 | exact H4]]. intros x Hx. destruct (Z.eq_dec x i) as [->|]; [auto | apply H2; lia].
    + destruct (Z.eqb_spec (h (j + i)) 0) as [E0|E0].
      * eexists. split; [reflexivity|]. cbv beta iota. apply Hz0 in E0. lia.
      * eexists. split; [reflexivity|]. cbv beta iota. split; [lia|]. split; [intros x Hx; lia|]. split; [congruence|]. destruct (Z.ltb_spec i n); [|lia]. split; [lia|]. assert (j + i <> N) by (intros E1; apply E0, Hz0, E1). lia.
  - eexists. split; [reflexivity|]. cbv beta iota. assert (i = n) as -> by lia. rewrite Z.ltb_irrefl. repeat split; try lia.
Qed.

Lemma eol_left_spec j fuel : forall i, -1 <= i < n -> 0 <= j -> j + n <= N -> i + 1 < Z.of_nat fuel ->
  exists i', eol_left TOLOWER m fuel needle (haystack + j) (wrap 64 i) = Some (Some (wrap 64 i')) /\ -1 <= i' <= i /\ (forall x, i' < x <= i -> h (j + x) = w x) /\ (0 <= i' -> h (j + i') <> w i').
Proof using Hz Hm Hlow Hn.
  induction fuel as [|fuel IH]; intros i Hi Hj HN Hf; [lia|]. cbn [eol_left]. destruct (Z.eq_dec i (-1)) as [->|Hi1].
  - exists (-1). split; [reflexivity|]. repeat split; try lia.
  - assert (Hw : (wrap 64 i =? SIZE_MAX) = false) by (rewrite wrap_small by lia; apply Z.eqb_neq; unfold SIZE_MAX; lia). rewrite Hw.
    replace (wrap 64 (wrap 64 i - 1)) with (wrap 64 (i - 1)) by (unfold wrap; rewrite Zminus_mod_idemp_l; reflexivity). rewrite !(wrap_small 64 i) by lia.
    replace (haystack + j + i) with (haystack + (j + i)) by lia. fold (w i) (h (j + i)). destruct (Z.eqb_spec (w i) (h (j + i))) as [E|E].
    + destruct (IH (i - 1) ltac:(lia) Hj HN ltac:(lia)) as (i' & -> & H1 & H2 & H3). exists i'. split; [reflexivity|]. split; [lia|]. split; [|exact H3]. intros x Hx. destruct (Z.eq_dec x i) as [->|]; [auto | apply H2; lia].
    + destruct (Z.eqb_spec (h (j + i)) 0) as [E0|E0]; [apply letter_zero in E0; lia|]. exists i. rewrite (wrap_small 64 i) by lia. split; [reflexivity|]. repeat split; try lia.
Qed.

Lemma short_distinct_spec : ~ per w 0 n p -> forall fuel j haystack_len,
  known haystack_len -> 0 <= haystack_len -> 0 <= j <= haystack_len + 1 -> none_before j -> N + n + 2 - j < Z.of_nat fuel ->
  exists r, short_distinct TOLOWER m AVAILABLE fuel haystack haystack_len needle n l (Z.max l (n - l) + 1) j = Some r /\ first_match w h n N haystack r.
Proof using All.
  intros Hper. induction fuel as [|fuel IH]; intros j hl Hk Hhl Hj Hnb Hf; [pose proof (available_known hl Hk); lia|]. cbn [short_distinct].
  pose proof (fac_l _ _ _ _ F) as Hl. pose proof (fac_p _ _ _ _ F) as Hp. pose proof (available_known hl Hk) as HkN.
  destruct (available_spec hl j Hk Hj) as (hl' & -> & Hk' & Hcov). destruct (Z.leb_spec (j + n) N) as [Hav|Hav]; [|eexists; split; [reflexivity | apply (short_none_end j); auto; lia]].
  specialize (Hcov Hav). pose proof (available_known hl' Hk') as HkN'.
  destruct (first_char_spec (S fuel) (l + j) ltac:(lia) ltac:(lia)) as (o & Eo & Ho). unfold w in Eo. rewrite Eo. destruct o as [ph|].
  2: { eexists. split; [reflexivity|]. right. split; [|reflexivity]. intros j' M. destruct (Z.lt_ge_cases j' j) as [H|H]; [exact (Hnb j' H M)|]. destruct M as (M1 & M2 & M3). apply (Ho (j' + l)); [lia | apply M3; lia]. }
  destruct Ho as (y & -> & Hy & Hyl & Hyn). replace (haystack + y + 1 - (haystack + l) - 1) with (y - l) by lia. set (j1 := y - l). replace (haystack + y + 1) with (haystack + j1 + (l + 1)) by (unfold j1; lia).
  assert (Hnb1 : none_before j1).
  { replace j1 with (j + (y - l - j)) by (unfold j1; lia). apply short_none_shift; [exact Hnb|]. intros x Hx (M1 & M2 & M3). apply (Hyn (j + x + l)); [lia | apply M3; lia]. }
  assert (Hy1 : h (j1 + l) = w l) by (rewrite <- Hyl; f_equal; unfold j1; lia).
  destruct (eol_right_spec j1 (S fuel) (l + 1) ltac:(lia) ltac:(unfold j1; lia) ltac:(unfold j1; lia) ltac:(lia)) as (o2 & -> & Ho2). destruct o2 as [[i ph]|].
  2: { eexists. split; [reflexivity|]. apply (short_none_end j1); auto. }
  destruct Ho2 as (Hi & Heq & Hneq & -> & Hph). set (e := if i <? n then i + 1 else i) in *.
  set (hl2 := if haystack + hl' <? haystack + j1 + e then haystack + j1 + e - haystack else hl').
  assert (Hhl2 : 0 <= hl2 <= N /\ hl' <= hl2 /\ j1 + e <= hl2) by (unfold hl2; destruct (Z.ltb_spec (haystack + hl') (haystack + j1 + e)); lia).
  assert (Hright : forall x, l <= x < i -> h (j1 + x) = w x) by (intros x Hx; destruct (Z.eq_dec x l) as [->|]; [exact Hy1 | apply Heq; lia]).
  destruct (Z.leb_spec n i) as [Hc|Hc].
  - assert (i = n) as -> by lia. unfold e in *. rewrite Z.ltb_irrefl in *. destruct (eol_left_spec j1 (S fuel) (l - 1) ltac:(lia) ltac:(unfold j1; lia) ltac:(lia) ltac:(lia)) as (i2 & -> & Hi2 & Heq2 & Hne2).
    assert (Em : (wrap 64 i2 =? SIZE_MAX) = (i2 =? -1)).
    { destruct (Z.eqb_spec i2 (-1)) as [->|]; [reflexivity|]. rewrite wrap_small by lia. apply Z.eqb_neq. unfold SIZE_MAX. lia. }
    rewrite Em. destruct (Z.eqb_spec i2 (-1)) as [->|Hmi].
    + eexists. split; [reflexivity|]. left. exists j1. split; [|split; [exact Hnb1 | reflexivity]]. split; [unfold j1; lia|]. split; [lia|]. intros x Hx.
      destruct (Z.lt_ge_cases x l); [apply Heq2; lia | apply Hright; lia].
    + apply IH; try lia; [apply Hknown; lia|]. apply short_none_shift; [exact Hnb1|]. intros x Hx. destruct (Z.eq_dec x 0) as [->|].
      * intros (_ & _ & M). rewrite Z.add_0_r in M. apply (Hne2 ltac:(lia)), M. lia.
      * apply (left_mismatch w h n N l p F); auto; try lia; tauto.
  - unfold e in *. destruct (Z.ltb_spec i n); [|lia]. apply IH; try lia; [apply Hknown; lia|]. apply short_none_shift; [exact Hnb1|]. intros x Hx.
    apply (right_mismatch w h n N l p F j1 i); auto; try lia.
Qed.
End Short.

Lemma strcasestr_spec fuel haystack zh needle n : nul_at m haystack zh -> nul_at m needle (needle + n) -> 0 < haystack -> zh < 2 ^ 63 -> 0 < needle -> needle + n < 2 ^ 63 ->
  (zh - haystack) + 2 * n + 600 < Z.of_nat fuel ->
  exists r, strcasestr TOLOWER m fuel haystack needle = Some r /\
    first_match (fun x => TOLOWER (m (needle + x))) (fun x => TOLOWER (m (haystack + x))) n (zh - haystack) haystack r.
Proof using Hm Hlow.
  intros Hz Hne Hh Hzb Hn0 Hnb Hf. set (N := zh - haystack) in *. assert (HN : 0 <= N) by (destruct Hz; lia). assert (H0n : 0 <= n) by (destruct Hne; lia). unfold strcasestr.
  destruct (Z.eqb_spec (m needle) 0) as [E0|E0].
  { pose proof (nul_at_zero _ _ _ Hne E0). assert (n = 0) as -> by lia. eexists. split; [reflexivity|]. left. exists 0. split; [split; [lia|]; split; [lia | intros x Hx; lia]|]. split; [intros j' Hj' (H1 & _); lia | lia]. }
  assert (Hn : 1 <= n < 2 ^ 63) by (destruct (Z.eq_dec n 0) as [->|]; [destruct Hne as (_ & H2 & _); rewrite Z.add_0_r in H2; apply Z.eqb_eq in H2; contradiction | lia]).
  rewrite (strlen_spec m Hm fuel needle (needle + n) Hne) by (apply reaches_bytes; lia). replace (needle + n - needle) with n by lia.
  rewrite (strnlen_spec m fuel haystack zh) by (auto; lia). fold N. set (hl := Z.min (n + 256) N). destruct (Z.ltb_spec hl n) as [Hl|Hl].
  { eexists. split; [reflexivity|]. right. split; [|reflexivity]. intros j (H1 & H2 & _). lia. }
  pose proof (available_str_spec m fuel haystack zh n Hm Hz Hh Hzb H0n ltac:(lia)) as HA. fold N in HA.
  pose proof (strncasecmp_compares fuel needle n Hne ltac:(lia) ltac:(lia)) as HC. destruct (Z.ltb_spec n LONG_NEEDLE_THRESHOLD) as [Hs|Hs].
  - unfold two_way_short_needle. destruct (critical_factorization_spec TOLOWER m needle n Hn fuel ltac:(lia)) as (l & p & -> & F). pose proof (fac_l _ _ _ _ F) as Hfl. pose proof (fac_p _ _ _ _ F) as Hfp.
    assert (H1p : 0 < p) by lia. assert (H0l : 0 <= l) by lia. assert (Hpl : p + l <= n) by lia. destruct (compares_spec p l H1p H0l Hpl) as (c & -> & Hc).
    assert (Hw : c = 0 <-> per (fun x => TOLOWER (m (needle + x))) 0 n p).
    { rewrite Hc, <- (whole_period _ _ _ _ F). split; intros H x Hx; specialize (H x Hx); rewrite H; do 2 f_equal; lia. }
    assert (Hstart : forall j, j < 0 -> ~ matches (fun x => TOLOWER (m (needle + x))) (fun x => TOLOWER (m (haystack + x))) n N j) by (intros j Hj (H & _); lia).
    destruct (Z.eqb_spec c 0) as [E|E].
    + apply (short_periodic_spec (available_str fuel m haystack) haystack zh needle n (fun hl => 0 <= hl <= N) Hn l p F); auto; fold N; try lia; tauto.
    + apply (short_distinct_spec (available_str fuel m haystack) haystack zh needle n (fun hl => 0 <= hl <= N) Hz Hne Hn ltac:(auto) l p F); auto; fold N; try lia; tauto.
  - apply (two_way_long_needle_spec TOLOWER (available_str fuel m haystack) (strncasecmp TOLOWER m fuel) m fuel haystack hl needle n N (fun hl => 0 <= hl <= N)); lia.
Qed.
End CaseProofs.

(** strcasestr returns the first occurrence of one string in another up to the case
    of the letters, and a null pointer when there is none, for needles of every length
    and every tolower that maps only the zero byte to zero: through the short search,
    which looks for the end of the haystack while it compares, and the long one.
    strcasecmp returns the difference of the first two bytes that differ in more than
    their case, or 0 at the common end. *)
Lemma strcasestr_correct TOLOWER fuel m haystack hs_end needle ne_end : (forall x, byte (m x)) -> (forall c, byte c -> TOLOWER c = 0 <-> c = 0) ->
  nul_at m haystack hs_end -> nul_at m needle ne_end -> 0 < haystack -> hs_end < 2 ^ 63 -> 0 < needle -> ne_end < 2 ^ 63 ->
  (hs_end - haystack) + 2 * (ne_end - needle) + 600 < Z.of_nat fuel ->
  (exists r, strcasestr TOLOWER m fuel haystack needle = Some r /\
     first_match (fun x => TOLOWER (m (needle + x))) (fun x => TOLOWER (m (haystack + x))) (ne_end - needle) (hs_end - haystack) haystack r) /\
  (exists d, 0 <= d <= hs_end - haystack /\ strcasecmp TOLOWER m fuel haystack needle = Some (TOLOWER (m (haystack + d)) - TOLOWER (m (needle + d))) /\
     (forall i, 0 <= i < d -> TOLOWER (m (haystack + i)) = TOLOWER (m (needle + i))) /\
     (TOLOWER (m (haystack + d)) = TOLOWER (m (needle + d)) -> haystack + d = hs_end)).
Proof.
  intros Hm Hlow Hz Hne H1 H2 H3 H4 Hf. split.
  - apply strcasestr_spec; auto; try lia. replace (needle + (ne_end - needle)) with ne_end by lia. exact Hne.
  - unfold strcasecmp. destruct (Z.eqb_spec haystack needle) as [->|E].
    + exists (hs_end - needle). split; [destruct Hz; lia|]. split; [f_equal; lia|]. split; [reflexivity | lia].
    + apply strcasecmp_loop_spec; [exact Hz | destruct Hne; lia].
Qed.

(** tolower of the C locale. *)
Definition ascii_tolower (c : Z) : Z := if (65 <=? c) && (c <=? 90) then c + 32 else c.

(** aCa in AbracadabrA, and the same needle compared with the haystack. *)
Lemma strcasestr_correct_witness :
  let m := at_bytes 101 [65; 98; 114; 97; 99; 97; 100; 97; 98; 114; 65; 0; 97; 67; 97; 0] in
  (exists r, strcasestr ascii_tolower m 700 101 113 = Some r /\ r = 104) /\ strcasecmp ascii_tolower m 700 101 113 = Some (98 - 99).
Proof.
  intros m. assert (Hm : forall x, byte (m x)) by (apply at_bytes_byte; reflexivity).
  assert (Hl : forall c, byte c -> ascii_tolower c = 0 <-> c = 0).
  { intros c Hc. unfold ascii_tolower, byte in *. destruct (Z.leb_spec 65 c), (Z.leb_spec c 90); cbn [andb]; lia. }
  destruct (strcasestr_correct ascii_tolower 700 m 101 112 113 116 Hm Hl) as [(r & E & _) (d & _ & E2 & _)]; try lia; try (apply hit_check; reflexivity).
  split; [|vm_compute; reflexivity]. exists r. split; [exact E|]. assert (Ev : Some 104 = Some r) by (rewrite <- E; vm_compute; reflexivity). congruence.
Defined.
