(* ===== verification/Number.v ===== *)
(** * Numbers and their digits (stdio-common/_itoa.c, _fitoa_word.c,
      stdlib/strtol_l.c)

    Characters are their codes.  [_itoa] is the version for 64-bit limbs, which
    divides by multiplying with a reciprocal from a table (compiled where
    [_ITOA_NEEDED] is set; elsewhere the name stands for [_itoa_word]).  [strtol_l] is
    modelled for [char] strings without grouping ([group] is 0 in every public
    entry point) with [sizeof (long) == sizeof (long long)]; the locale's
    [isspace] is a parameter. *)

From Stdlib Require Import String Ascii ZArith List Lia Bool.
From S2P Require Import Prelude Mpn StrWord Str.
Import ListNotations.
#[local] Open Scope Z_scope.
#[local] Open Scope glibc_scope.

(** ** _itoa.c *)

(** "0123456789abcdefghijklmnopqrstuvwxyz" and its upper-case form. *)
Definition itoa_lower_digits : list Z :=
  map Z.of_nat (seq 48 10) ++ map Z.of_nat (seq 97 26).
Definition itoa_upper_digits : list Z :=
  map Z.of_nat (seq 48 10) ++ map Z.of_nat (seq 65 26).

Record base_table_t := base_rec { base_multiplier : Z; flag : bool; post_shift : Z }.

Definition itoa_base_table : list base_table_t := [
  base_rec 0 true 1;
  base_rec 0xaaaaaaaaaaaaaaab false 1;
  base_rec 0 true 2;
  base_rec 0xcccccccccccccccd false 2;
  base_rec 0xaaaaaaaaaaaaaaab false 2;
  base_rec 0x2492492492492493 true 3;
  base_rec 0 true 3;
  base_rec 0xe38e38e38e38e38f false 3;
  base_rec 0xcccccccccccccccd false 3;
  base_rec 0x2e8ba2e8ba2e8ba3 false 1;
  base_rec 0xaaaaaaaaaaaaaaab false 3;
  base_rec 0x4ec4ec4ec4ec4ec5 false 2;
  base_rec 0x2492492492492493 true 4;
  base_rec 0x8888888888888889 false 3;
  base_rec 0 true 4;
  base_rec 0xf0f0f0f0f0f0f0f1 false 4;
  base_rec 0xe38e38e38e38e38f false 4;
  base_rec 0xd79435e50d79435f false 4;
  base_rec 0xcccccccccccccccd false 4;
  base_rec 0x8618618618618619 true 5;
  base_rec 0x2e8ba2e8ba2e8ba3 false 2;
  base_rec 0x642c8590b21642c9 true 5;
  base_rec 0xaaaaaaaaaaaaaaab false 4;
  base_rec 0x47ae147ae147ae15 true 5;
  base_rec 0x4ec4ec4ec4ec4ec5 false 3;
  base_rec 0x97b425ed097b425f false 4;
  base_rec 0x2492492492492493 true 5;
  base_rec 0x1a7b9611a7b9611b true 5;
  base_rec 0x8888888888888889 false 4;
  base_rec 0x0842108421084211 true 5;
  base_rec 0 true 5;
  base_rec 0x0f83e0f83e0f83e1 false 1;
  base_rec 0xf0f0f0f0f0f0f0f1 false 5;
  base_rec 0xea0ea0ea0ea0ea0f false 5;
  base_rec 0xe38e38e38e38e38f false 5].

Definition itoa_brec (base : Z) : base_table_t :=
  nth (Z.to_nat (base - 2)) itoa_base_table (base_rec 0 true 1).

(** The quotient of one step of the two loops. *)
Definition itoa_quo (brec : base_table_t) (value : Z) : Z :=
  let '(x, _) := umul_ppmm value (base_multiplier brec) in
  if flag brec
  then Z.shiftr (wrap 64 (x + Z.shiftr (wrap 64 (value - x)) 1)) (post_shift brec - 1)
  else Z.shiftr x (post_shift brec).

(** while (value != 0) *)
Fixpoint itoa_loop (fuel : nat) (m : mem) (digits : list Z) (base : Z) (brec : base_table_t)
    (value buflim : Z) : option (mem * Z) :=
  match fuel with
  | O => None
  | S fuel =>
      if value =? 0 then Some (m, buflim)
      else
        let quo := itoa_quo brec value in
        let rem := wrap 64 (value - wrap 64 (quo * base)) in
        let buflim := buflim - 1 in
        itoa_loop fuel (upd m buflim (nth (Z.to_nat rem) digits 0)) digits base brec quo buflim
  end.

(** RUN_2N for 64-bit limbs. *)
Fixpoint RUN_2N (fuel : nat) (m : mem) (digits : list Z) (BITS work_hi buflim : Z) : option (mem * Z) :=
  match fuel with
  | O => None
  | S fuel =>
      let buflim := buflim - 1 in
      let m := upd m buflim (nth (Z.to_nat (Z.land work_hi (2 ^ BITS - 1))) digits 0) in
      let work_hi := Z.shiftr work_hi BITS in
      if negb (work_hi =? 0) then RUN_2N fuel m digits BITS work_hi buflim else Some (m, buflim)
  end.

(** At most 64 digits. *)
Definition itoa_fuel : nat := 65.

(** if (buflim == bufend) *--buflim = '0'; *)
Definition itoa_zero (m : mem) (buflim bufend : Z) : mem * Z :=
  if buflim =? bufend then
    let buflim := buflim - 1 in
    (upd m buflim 48, buflim)
  else (m, buflim).

Definition itoa (m : mem) (value buflim base : Z) (upper_case : bool) : option (mem * Z) :=
  let digits := if upper_case then itoa_upper_digits else itoa_lower_digits in
  let brec := itoa_brec base in
  if base =? 8 then RUN_2N itoa_fuel m digits 3 value buflim
  else if base =? 16 then RUN_2N itoa_fuel m digits 4 value buflim
  else
    let bufend := buflim in
    let? (m, buflim) := itoa_loop itoa_fuel m digits base brec value buflim in
    Some (itoa_zero m buflim bufend).

(** ** _fitoa_word.c *)

(** do *--buflim = digits[value % base]; while ((value /= base) != 0); *)
Fixpoint itoa_word_loop (fuel : nat) (m : mem) (digits : list Z) (base value buflim : Z) : option (mem * Z) :=
  match fuel with
  | O => None
  | S fuel =>
      let buflim := buflim - 1 in
      let m := upd m buflim (nth (Z.to_nat (value mod base)) digits 0) in
      let value := value / base in
      if negb (value =? 0) then itoa_word_loop fuel m digits base value buflim else Some (m, buflim)
  end.

(** The cases 10, 16 and 8 of the switch are the default with a constant base. *)
Definition itoa_word (m : mem) (value buflim base : Z) (upper_case : bool) : option (mem * Z) :=
  let digits := if upper_case then itoa_upper_digits else itoa_lower_digits in
  itoa_word_loop itoa_fuel m digits base value buflim.

(** while (cp < end) *buf++ = *cp++; the memory and buf. *)
Fixpoint fitoa_copy (n : nat) (m : mem) (buf cp : Z) : mem * Z :=
  match n with
  | O => (m, buf)
  | S n => fitoa_copy n (upd m buf (m cp)) (buf + 1) (cp + 1)
  end.

(** [tmpbuf] is the address of the 32-byte local array. *)
Definition fitoa_word (m : mem) (tmpbuf value buf base : Z) (upper_case : bool) : option (mem * Z) :=
  let? (m, cp) := itoa_word m value (tmpbuf + 8 * 4) base upper_case in
  Some (fitoa_copy (Z.to_nat (tmpbuf + 8 * 4 - cp)) m buf cp).

(** [_fitoa] of _itoa.c. *)
Definition fitoa (m : mem) (tmpbuf value buf base : Z) (upper_case : bool) : option (mem * Z) :=
  let? (m, cp) := itoa m value (tmpbuf + 8 * 4) base upper_case in
  Some (fitoa_copy (Z.to_nat (tmpbuf + 8 * 4 - cp)) m buf cp).

(** ** strtol_l.c *)

(** The C locale. *)
Definition ISALPHA (c : Z) : bool := ((65 <=? c) && (c <=? 90)) || ((97 <=? c) && (c <=? 122)).
Definition TOUPPER (c : Z) : Z := if (97 <=? c) && (c <=? 122) then c - 32 else c.

Definition ULONG_MAX : Z := 2 ^ 64 - 1.
Definition LONG_MAX : Z := 2 ^ 63 - 1.
Definition LONG_MIN : Z := - 2 ^ 63.

(** The tables for bases 2 to 36. *)
Definition cutoff_tab : list Z := map (fun x => ULONG_MAX / Z.of_nat x) (seq 2 35).
Definition cutlim_tab : list Z := map (fun x => ULONG_MAX mod Z.of_nat x) (seq 2 35).

Inductive strtol_errno := EINVAL | ERANGE.

(** What a character stands for, if it can be a digit. *)
Definition digit_value (c : Z) : option Z :=
  if (48 <=? c) && (c <=? 57) then Some (c - 48)
  else if ISALPHA c then Some (TOUPPER c - 65 + 10)
  else None.

(** The digit loop: the final s, i and overflow. *)
Fixpoint strtol_loop (fuel : nat) (m : mem) (base cutoff cutlim : Z) (s i : Z) (overflow : bool)
    : option (Z * Z * bool) :=
  match fuel with
  | O => None
  | S fuel =>
      let c := m s in
      if c =? 0 then Some (s, i, overflow)
      else
        match digit_value c with
        | None => Some (s, i, overflow)
        | Some c =>
            if base <=? c then Some (s, i, overflow)
            else if (cutoff <? i) || ((i =? cutoff) && (cutlim <? c))
            then strtol_loop fuel m base cutoff cutlim (s + 1) i true
            else strtol_loop fuel m base cutoff cutlim (s + 1) (wrap 64 (wrap 64 (i * base) + c)) overflow
        end
  end.

Section Strtol.
Context (isspace : Z -> bool).

(** while (ISSPACE ( *s)) ++s; *)
Fixpoint skip_space (fuel : nat) (m : mem) (s : Z) : option Z :=
  match fuel with
  | O => None
  | S fuel => if isspace (m s) then skip_space fuel m (s + 1) else Some s
  end.

(** Where the digits start and in which base they are. *)
Definition number_prefix (bin_cst : bool) (m : mem) (base s : Z) : Z * Z :=
  if m s =? 48 then
    if ((base =? 0) || (base =? 16)) && (TOUPPER (m (s + 1)) =? 88) then (s + 2, 16)
    else if bin_cst && ((base =? 0) || (base =? 2)) && (TOUPPER (m (s + 1)) =? 66) then (s + 2, 2)
    else if base =? 0 then (s, 8)
    else (s, base)
  else if base =? 0 then (s, 10)
  else (s, base).

(** The end pointer where nothing was converted. *)
Definition noconv_end (bin_cst : bool) (m : mem) (nptr save : Z) : Z :=
  if (2 <=? save - nptr)
     && ((TOUPPER (m (save - 1)) =? 88) || (bin_cst && (TOUPPER (m (save - 1)) =? 66)))
     && (m (save - 2) =? 48)
  then save - 1 else nptr.

(** INTERNAL (__strtol_l): the value returned, the value stored in errno and
    the one stored in *endptr, where they are stored.  [UNSIGNED] selects
    strtoul. *)
Definition strtol_internal (UNSIGNED bin_cst : bool) (fuel : nat) (m : mem) (nptr base : Z)
    : option (Z * option strtol_errno * option Z) :=
  if (base <? 0) || (base =? 1) || (36 <? base) then Some (0, Some EINVAL, None)
  else
    let? s := skip_space fuel m nptr in
    if m s =? 0 then Some (0, None, Some (noconv_end bin_cst m nptr nptr))
    else
      let negative := m s =? 45 in
      let s := if negative then s + 1 else if m s =? 43 then s + 1 else s in
      let '(s, base) := number_prefix bin_cst m base s in
      let save := s in
      let cutoff := nth (Z.to_nat (base - 2)) cutoff_tab 0 in
      let cutlim := nth (Z.to_nat (base - 2)) cutlim_tab 0 in
      let? (s, i, overflow) := strtol_loop fuel m base cutoff cutlim s 0 false in
      if s =? save then Some (0, None, Some (noconv_end bin_cst m nptr save))
      else
        let overflow :=
          if UNSIGNED then overflow
          else overflow ||
            ((if negative then wrap 64 (wrap 64 (- wrap 64 (LONG_MIN + 1)) + 1) else LONG_MAX) <? i) in
        if overflow then
          Some (if UNSIGNED then ULONG_MAX else if negative then LONG_MIN else LONG_MAX, Some ERANGE, Some s)
        else
          let r := wrap 64 (if negative then - i else i) in
          Some (if UNSIGNED then r else swrap 64 r, None, Some s).

(** The public entry points. *)
Definition strtol_l := strtol_internal false false.
Definition strtoul_l := strtol_internal true false.
Definition isoc23_strtol_l := strtol_internal false true.
Definition isoc23_strtoul_l := strtol_internal true true.
End Strtol.

(** * Division by multiplication *)

(** The reciprocal [M] of [b] scaled by [2 ^ (64 + p)], rounded up by at most
    [2 ^ p] in the product, gives exact quotients of 64-bit numbers. *)
Lemma reciprocal_div M b p v : 0 < b -> 0 <= p -> 0 <= v < 2 ^ 64 ->
  2 ^ (64 + p) <= M * b <= 2 ^ (64 + p) + 2 ^ p -> v * M / 2 ^ (64 + p) = v / b.
Proof.
  intros Hb Hp Hv HM. set (N := 2 ^ (64 + p)) in *. assert (HN : N = 2 ^ 64 * 2 ^ p) by (apply Z.pow_add_r; lia).
  assert (P : 0 < 2 ^ p) by (apply Z.pow_pos_nonneg; lia). assert (PN : 0 < N) by nia.
  pose proof (Z_div_mod_eq_full v b) as E. pose proof (Z.mod_pos_bound v b Hb) as R.
  set (q := v / b) in *. set (r := v mod b) in *. set (e := M * b - N).
  assert (He : 0 <= e <= 2 ^ p) by lia. assert (Hve : 0 <= v * e < N) by nia.
  assert (EM : v * M * b = v * N + v * e) by nia.
  symmetry. apply (Z.div_unique_pos _ _ _ (v * M - N * q)); [|lia]. split.
  - assert (N * q * b <= v * M * b) by nia. nia.
  - assert (v * M * b < N * (q + 1) * b) by nia. nia.
Qed.

Definition brec_ok (b : Z) (r : base_table_t) : bool :=
  let M := (if flag r then 2 ^ 64 else 0) + base_multiplier r in
  let N := 2 ^ (64 + post_shift r) in
  (0 <=? base_multiplier r) && (base_multiplier r <? 2 ^ 64) && (1 <=? post_shift r) &&
  (N <=? M * b) && (M * b <=? N + 2 ^ post_shift r).

Lemma itoa_brec_ok b : 2 <= b <= 36 -> brec_ok b (itoa_brec b) = true.
Proof.
  intros Hb. assert (H : forallb (fun i => brec_ok (Z.of_nat i) (itoa_brec (Z.of_nat i))) (seq 2 35) = true)
    by (vm_compute; reflexivity).
  rewrite forallb_forall in H. specialize (H (Z.to_nat b) ltac:(apply in_seq; lia)).
  now rewrite Z2Nat.id in H by lia.
Qed.

Lemma itoa_quo_spec b v : 2 <= b <= 36 -> 0 <= v < 2 ^ 64 -> itoa_quo (itoa_brec b) v = v / b.
Proof.
  intros Hb Hv. pose proof (itoa_brec_ok b Hb) as H. unfold brec_ok in H. rewrite !andb_true_iff in H.
  destruct H as [[[[H1 H2] H3] H4] H5]. set (r := itoa_brec b) in *. set (M := base_multiplier r) in *.
  set (p := post_shift r) in *. unfold itoa_quo. fold M p.
  destruct (umul_ppmm_spec v M) as (Lx & Ll & E); [exact Hv | split; [lia|]; change B with (2 ^ 64); lia|].
  destruct (umul_ppmm v M) as [x l]. cbn [fst snd] in *. unfold limb in *. change B with (2 ^ 64) in *.
  assert (Ex : x = v * M / 2 ^ 64) by (apply (Z.div_unique_pos _ _ _ l); lia).
  assert (P : 0 < 2 ^ p) by (apply Z.pow_pos_nonneg; lia).
  destruct (flag r).
  - assert (Hxv : x <= v) by (rewrite Ex; apply Z.div_le_upper_bound; nia).
    unfold wrap. rewrite (Z.mod_small (v - x)) by lia.
    rewrite (Z.shiftr_div_pow2 _ 1) by lia. change (2 ^ 1) with 2.
    assert (E2 : x + (v - x) / 2 = (v + x) / 2).
    { replace (v + x) with (v - x + x * 2) by lia. rewrite Z.div_add by lia. lia. }
    rewrite E2, Z.mod_small by (split; [apply Z.div_pos; lia | apply Z.div_lt_upper_bound; lia]).
    rewrite Z.shiftr_div_pow2, Z.div_div by (try apply Z.pow_pos_nonneg; lia).
    rewrite <- (Z.pow_succ_r 2 (p - 1)) by lia. replace (Z.succ (p - 1)) with p by lia.
    rewrite <- (reciprocal_div (2 ^ 64 + M) b p v) by lia.
    rewrite Z.pow_add_r, <- Z.div_div by lia. f_equal.
    replace (v * (2 ^ 64 + M)) with (v * M + v * 2 ^ 64) by lia. rewrite Z.div_add by lia. lia.
  - rewrite Z.shiftr_div_pow2 by lia. rewrite <- (reciprocal_div M b p v) by lia.
    rewrite Z.pow_add_r, <- Z.div_div by lia. now rewrite Ex.
Qed.

(** * Digits *)

Section Digits.
Context (b : Z) (Hb : 2 <= b).

(** The digits of [v], the most significant first; none for zero. *)
Fixpoint digs (fuel : nat) (v : Z) : list Z :=
  match fuel with
  | O => []
  | S fuel => if v =? 0 then [] else digs fuel (v / b) ++ [v mod b]
  end.

Definition num_digits (v : Z) : list Z := if v =? 0 then [0] else digs 64 v.

(** The number a sequence of digits denotes. *)
Definition dval (l : list Z) : Z := fold_left (fun a d => a * b + d) l 0.

Lemma dval_snoc l d : dval (l ++ [d]) = dval l * b + d.
Proof using Type. unfold dval. rewrite fold_left_app. reflexivity. Qed.

Lemma digs_spec fuel : forall v, 0 <= v < b ^ Z.of_nat fuel ->
  dval (digs fuel v) = v /\ Forall (fun d => 0 <= d < b) (digs fuel v) /\ (length (digs fuel v) <= fuel)%nat.
Proof using Hb.
  induction fuel as [|fuel IH]; intros v Hv.
  { change (b ^ Z.of_nat 0) with 1 in Hv. cbn. repeat split; auto; lia. }
  cbn [digs]. destruct (Z.eqb_spec v 0) as [->|Hn]; [cbn; repeat split; auto; lia|].
  rewrite Nat2Z.inj_succ, Z.pow_succ_r in Hv by lia.
  destruct (IH (v / b)) as (E & F & L).
  { split; [apply Z.div_pos; lia | apply Z.div_lt_upper_bound; lia]. }
  rewrite dval_snoc, E, length_app. cbn [length]. split; [pose proof (Z_div_mod_eq_full v b); lia|].
  split; [|lia]. apply Forall_app. split; [exact F|]. constructor; [apply Z.mod_pos_bound; lia | constructor].
Qed.

(** Enough fuel does not change the digits. *)
Lemma digs_fuel f1 : forall f2 v, 0 <= v < b ^ Z.of_nat f1 -> (f1 <= f2)%nat -> digs f2 v = digs f1 v.
Proof using Hb.
  induction f1 as [|f1 IH]; intros f2 v Hv Hf.
  { change (b ^ Z.of_nat 0) with 1 in Hv. assert (v = 0) as -> by lia. destruct f2; reflexivity. }
  destruct f2 as [|f2]; [lia|]. cbn [digs]. destruct (v =? 0); [reflexivity|]. f_equal. apply IH; [|lia].
  rewrite Nat2Z.inj_succ, Z.pow_succ_r in Hv by lia.
  split; [apply Z.div_pos; lia | apply Z.div_lt_upper_bound; lia].
Qed.

Lemma digs_head fuel : forall v, 0 < v < b ^ Z.of_nat fuel -> exists d l, digs fuel v = d :: l /\ d <> 0.
Proof using Hb.
  induction fuel as [|fuel IH]; intros v Hv; [change (b ^ Z.of_nat 0) with 1 in Hv; lia|].
  cbn [digs]. destruct (Z.eqb_spec v 0); [lia|]. rewrite Nat2Z.inj_succ, Z.pow_succ_r in Hv by lia.
  destruct (Z.eq_dec (v / b) 0) as [E|E].
  - exists (v mod b), []. split; [rewrite E; destruct fuel; reflexivity|].
    pose proof (Z_div_mod_eq_full v b). lia.
  - destruct (IH (v / b)) as (d & l & -> & Hd); [|exists d, (l ++ [v mod b]); split; [reflexivity | exact Hd]].
    assert (0 <= v / b) by (apply Z.div_pos; lia).
    split; [lia | apply Z.div_lt_upper_bound; lia].
Qed.

Lemma pow_64 v : 0 <= v < 2 ^ 64 -> 0 <= v < b ^ Z.of_nat 64.
Proof using Hb.
  intros Hv. split; [lia|]. pose proof (Z.pow_le_mono_l 2 b (Z.of_nat 64) ltac:(lia)). change (Z.of_nat 64) with 64 in *. lia.
Qed.

Lemma num_digits_spec v : 0 <= v < 2 ^ 64 ->
  dval (num_digits v) = v /\ Forall (fun d => 0 <= d < b) (num_digits v) /\
  (1 <= length (num_digits v) <= 64)%nat /\
  exists d l, num_digits v = d :: l /\ (d = 0 -> l = [] /\ v = 0).
Proof using Hb.
  intros Hv. unfold num_digits. destruct (Z.eqb_spec v 0) as [->|Hn].
  { cbn. repeat split; auto; try lia. { constructor; [lia | constructor]. }
    exists 0, []. auto. }
  pose proof (pow_64 v Hv) as Hp. destruct (digs_spec 64 v Hp) as (E & F & L).
  destruct (digs_head 64 v) as (d & l & Ed & Hd); [lia|].
  split; [exact E|]. split; [exact F|]. split; [rewrite Ed in *; cbn [length] in *; lia|].
  exists d, l. split; [exact Ed | contradiction].
Qed.
End Digits.

(** ** What the conversions write *)

(** [m'] is [m] with the characters [l] at [p]. *)
Definition wrote (m : mem) (p : Z) (l : list Z) (m' : mem) : Prop :=
  forall x, m' x = if (p <=? x) && (x <? p + Z.of_nat (length l)) then nth (Z.to_nat (x - p)) l 0 else m x.

Lemma wrote_nil m p : wrote m p [] m.
Proof. intros x. cbn [length]. repeat case_cmp; cbn [andb]; auto; lia. Qed.

Lemma wrote_one m p c : wrote m p [c] (upd m p c).
Proof.
  intros x. unfold upd. cbn [length]. repeat case_cmp; cbn [andb]; auto; try lia.
  subst x. now rewrite Z.sub_diag.
Qed.

(** A digit, and then the ones before it. *)
Lemma wrote_snoc m p l c m' : wrote (upd m (p + Z.of_nat (length l)) c) p l m' -> wrote m p (l ++ [c]) m'.
Proof.
  intros H x. rewrite H, length_app. cbn [length]. unfold upd.
  destruct (Z.leb_spec p x), (Z.ltb_spec x (p + Z.of_nat (length l))),
    (Z.ltb_spec x (p + Z.of_nat (length l + 1))), (Z.eqb_spec x (p + Z.of_nat (length l))); cbn [andb]; try lia; auto.
  - rewrite app_nth1 by lia. reflexivity.
  - rewrite app_nth2 by lia. subst x. replace (Z.to_nat _ - length l)%nat with 0%nat by lia. reflexivity.
Qed.

Section Itoa.
Context (b : Z) (Hb : 2 <= b <= 36) (digits : list Z).
Let chars (l : list Z) : list Z := map (fun d => nth (Z.to_nat d) digits 0) l.

Lemma itoa_loop_spec fuel : forall n m v B, (n < fuel)%nat -> 0 <= v < 2 ^ 64 -> v < b ^ Z.of_nat n ->
  exists m', itoa_loop fuel m digits b (itoa_brec b) v B = Some (m', B - Z.of_nat (length (digs b n v))) /\
    wrote m (B - Z.of_nat (length (digs b n v))) (chars (digs b n v)) m'.
Proof using Hb.
  induction fuel as [|fuel IH]; intros n m v B' Hn Hv Hp; [lia|]. cbn [itoa_loop].
  destruct (Z.eqb_spec v 0) as [->|Hnz].
  { exists m. destruct n; cbn; rewrite Z.sub_0_r; split; auto using wrote_nil. }
  destruct n as [|n]; [change (b ^ Z.of_nat 0) with 1 in Hp; lia|].
  rewrite Nat2Z.inj_succ, Z.pow_succ_r in Hp by lia. cbn [digs]. destruct (Z.eqb_spec v 0); [contradiction|].
  rewrite itoa_quo_spec by lia. pose proof (Z_div_mod_eq_full v b) as E. pose proof (Z.mod_pos_bound v b ltac:(lia)) as R.
  assert (Hq : 0 <= v / b <= v) by (split; [apply Z.div_pos; lia | apply Z.div_le_upper_bound; nia]).
  assert (Er : wrap 64 (v - wrap 64 (v / b * b)) = v mod b).
  { rewrite (wrap_small 64 (v / b * b)) by lia. rewrite wrap_small by lia. lia. }
  rewrite Er. destruct (IH n (upd m (B' - 1) (nth (Z.to_nat (v mod b)) digits 0)) (v / b) (B' - 1)) as (m' & -> & W).
  - lia.
  - lia.
  - apply Z.div_lt_upper_bound; lia.
  - exists m'. rewrite length_app. cbn [length].
    split; [do 2 f_equal; lia|]. unfold chars. rewrite map_app. cbn [map]. apply wrote_snoc. rewrite length_map.
    replace (B' - Z.of_nat (length (digs b n (v / b)) + 1)) with (B' - 1 - Z.of_nat (length (digs b n (v / b)))) by lia.
    replace (B' - 1 - Z.of_nat (length (digs b n (v / b))) + Z.of_nat (length (digs b n (v / b)))) with (B' - 1) by lia.
    exact W.
Qed.

(** A do-while loop that divides by [b] in each step. *)
Lemma divide_loop_spec (loop : nat -> mem -> Z -> Z -> option (mem * Z)) :
  (forall f m v B, 0 <= v < 2 ^ 64 -> loop (S f) m v B =
     let m := upd m (B - 1) (nth (Z.to_nat (v mod b)) digits 0) in
     if negb (v / b =? 0) then loop f m (v / b) (B - 1) else Some (m, B - 1)) ->
  forall fuel n m v B, (n <= fuel)%nat -> 0 <= v < 2 ^ 64 -> v < b ^ Z.of_nat n -> 0 < v ->
  exists m', loop fuel m v B = Some (m', B - Z.of_nat (length (digs b n v))) /\
    wrote m (B - Z.of_nat (length (digs b n v))) (chars (digs b n v)) m'.
Proof using Hb.
  intros Hloop. induction fuel as [|fuel IH]; intros n m v B' Hn Hv Hp Hpos.
  { assert (n = O) as -> by lia. change (b ^ Z.of_nat 0) with 1 in Hp. lia. }
  rewrite Hloop by exact Hv. cbn zeta.
  destruct n as [|n]; [change (b ^ Z.of_nat 0) with 1 in Hp; lia|].
  rewrite Nat2Z.inj_succ, Z.pow_succ_r in Hp by lia. cbn [digs]. destruct (Z.eqb_spec v 0); [lia|].
  assert (Hq : 0 <= v / b <= v) by (split; [apply Z.div_pos; lia | apply Z.div_le_upper_bound; nia]).
  rewrite length_app. cbn [length]. unfold chars. rewrite map_app. cbn [map].
  destruct (Z.eqb_spec (v / b) 0) as [E|E]; cbn [negb].
  - rewrite E. destruct n; cbn [digs Z.eqb length map app]; eexists; (split; [reflexivity|]); apply wrote_one.
  - destruct (IH n (upd m (B' - 1) (nth (Z.to_nat (v mod b)) digits 0)) (v / b) (B' - 1)) as (m' & -> & W).
    + lia.
    + lia.
    + apply Z.div_lt_upper_bound; lia.
    + lia.
    + exists m'. split; [do 2 f_equal; lia|]. apply wrote_snoc. rewrite length_map.
      replace (B' - Z.of_nat (length (digs b n (v / b)) + 1)) with (B' - 1 - Z.of_nat (length (digs b n (v / b)))) by lia.
      replace (B' - 1 - Z.of_nat (length (digs b n (v / b))) + Z.of_nat (length (digs b n (v / b)))) with (B' - 1) by lia.
      exact W.
Qed.

(** With the zero that the loop writes too. *)
Lemma divide_loop_num (loop : nat -> mem -> Z -> Z -> option (mem * Z)) :
  (forall f m v B, 0 <= v < 2 ^ 64 -> loop (S f) m v B =
     let m := upd m (B - 1) (nth (Z.to_nat (v mod b)) digits 0) in
     if negb (v / b =? 0) then loop f m (v / b) (B - 1) else Some (m, B - 1)) ->
  forall m v B, 0 <= v < 2 ^ 64 ->
  exists m', loop itoa_fuel m v B = Some (m', B - Z.of_nat (length (num_digits b v))) /\
    wrote m (B - Z.of_nat (length (num_digits b v))) (chars (num_digits b v)) m'.
Proof using Hb.
  intros Hloop m v B' Hv. unfold num_digits. destruct (Z.eqb_spec v 0) as [->|Hn].
  - unfold itoa_fuel. rewrite Hloop by lia. cbn zeta. rewrite Z.mod_0_l, Z.div_0_l by lia. cbn [Z.eqb negb].
    eexists. split; [reflexivity | apply wrote_one].
  - apply (divide_loop_spec loop Hloop); [unfold itoa_fuel; lia | exact Hv | | lia].
    apply (pow_64 b ltac:(lia)). exact Hv.
Qed.
End Itoa.

Lemma RUN_2N_step digits BITS f m v B' : 0 < BITS ->
  RUN_2N (S f) m digits BITS v B' =
    let m := upd m (B' - 1) (nth (Z.to_nat (v mod 2 ^ BITS)) digits 0) in
    if negb (v / 2 ^ BITS =? 0) then RUN_2N f m digits BITS (v / 2 ^ BITS) (B' - 1) else Some (m, B' - 1).
Proof.
  intros HB. cbn [RUN_2N]. rewrite land_low_mask, Z.shiftr_div_pow2 by lia. reflexivity.
Qed.

Definition digit_chars (upper : bool) : list Z := if upper then itoa_upper_digits else itoa_lower_digits.
Definition number_chars (upper : bool) (b v : Z) : list Z :=
  map (fun d => nth (Z.to_nat d) (digit_chars upper) 0) (num_digits b v).

Lemma number_chars_length upper b v : length (number_chars upper b v) = length (num_digits b v).
Proof. apply length_map. Qed.

Lemma itoa_spec m v B' b upper : 2 <= b <= 36 -> 0 <= v < 2 ^ 64 ->
  let p := B' - Z.of_nat (length (number_chars upper b v)) in
  exists m', itoa m v B' b upper = Some (m', p) /\ wrote m p (number_chars upper b v) m'.
Proof.
  intros Hb Hv p. unfold p. rewrite number_chars_length. unfold itoa. fold (digit_chars upper).
  destruct (Z.eqb_spec b 8) as [->|H8].
  { apply (divide_loop_num 8 ltac:(lia) _ (fun f m v B => RUN_2N f m (digit_chars upper) 3 v B)); [|exact Hv].
    intros. now rewrite RUN_2N_step by lia. }
  destruct (Z.eqb_spec b 16) as [->|H16].
  { apply (divide_loop_num 16 ltac:(lia) _ (fun f m v B => RUN_2N f m (digit_chars upper) 4 v B)); [|exact Hv].
    intros. now rewrite RUN_2N_step by lia. }
  destruct (itoa_loop_spec b Hb (digit_chars upper) itoa_fuel 64 m v B') as (m' & -> & W).
  { unfold itoa_fuel. lia. } { exact Hv. } { apply (pow_64 b ltac:(lia)). exact Hv. }
  unfold itoa_zero, number_chars, num_digits. destruct (Z.eqb_spec v 0) as [->|Hn].
  - cbn [digs Z.eqb length map Z.of_nat] in W |- *. rewrite Z.sub_0_r in *. rewrite Z.eqb_refl.
    eexists. split; [reflexivity|].
    replace (nth (Z.to_nat 0) (digit_chars upper) 0) with 48 by (destruct upper; reflexivity).
    intros x. pose proof (wrote_one m' (B' - 1) 48 x) as E. rewrite E. destruct (_ && _); [reflexivity|].
    rewrite (W x). cbn [length map Z.of_nat]. rewrite Z.add_0_r.
    destruct (Z.leb_spec B' x), (Z.ltb_spec x B'); cbn [andb]; (reflexivity || lia).
  - destruct (digs_head b ltac:(lia) 64 v) as (d & l & Ed & _); [pose proof (pow_64 b ltac:(lia) v Hv); lia|].
    destruct (Z.eqb_spec (B' - Z.of_nat (length (digs b 64 v))) B') as [E|E].
    { rewrite Ed in E. cbn [length] in E. lia. }
    exists m'. auto.
Qed.

Lemma itoa_word_spec m v B' b upper : 2 <= b <= 36 -> 0 <= v < 2 ^ 64 ->
  let p := B' - Z.of_nat (length (number_chars upper b v)) in
  exists m', itoa_word m v B' b upper = Some (m', p) /\ wrote m p (number_chars upper b v) m'.
Proof.
  intros Hb Hv p. unfold p. rewrite number_chars_length. unfold itoa_word. fold (digit_chars upper).
  apply (divide_loop_num b Hb _ (fun f m v B => itoa_word_loop f m (digit_chars upper) b v B)); [|exact Hv].
  reflexivity.
Qed.

(** ** _fitoa_word *)

Lemma fitoa_copy_spec n : forall m buf cp, buf + Z.of_nat n <= cp \/ cp + Z.of_nat n <= buf ->
  exists m', fitoa_copy n m buf cp = (m', buf + Z.of_nat n) /\
    forall x, m' x = if (buf <=? x) && (x <? buf + Z.of_nat n) then m (cp + (x - buf)) else m x.
Proof.
  induction n as [|n IH]; intros m buf cp Hd; cbn [fitoa_copy].
  { exists m. split; [f_equal; lia|]. intros x. repeat case_cmp; cbn [andb]; auto; lia. }
  destruct (IH (upd m buf (m cp)) (buf + 1) (cp + 1)) as (m' & -> & H); [lia|]. exists m'.
  split; [f_equal; lia|]. intros x. rewrite H. unfold upd.
  destruct (Z.leb_spec (buf + 1) x), (Z.ltb_spec x (buf + 1 + Z.of_nat n)), (Z.leb_spec buf x),
    (Z.ltb_spec x (buf + Z.of_nat (S n))); cbn [andb]; try lia; repeat case_cmp; try lia; f_equal; lia.
Qed.

(** From base 4 on the digits fit into the 32 bytes of the local array. *)
Lemma num_digits_32 b v : 4 <= b -> 0 <= v < 2 ^ 64 -> (length (num_digits b v) <= 32)%nat.
Proof.
  intros Hb Hv. unfold num_digits. destruct (v =? 0); [cbn; lia|].
  assert (Hp : 0 <= v < b ^ Z.of_nat 32).
  { pose proof (Z.pow_le_mono_l 4 b (Z.of_nat 32) ltac:(lia)). replace (4 ^ Z.of_nat 32) with (2 ^ 64) in * by (vm_compute; reflexivity). lia. }
  rewrite (digs_fuel b ltac:(lia) 32) by (exact Hp || lia). apply digs_spec; [lia | exact Hp].
Qed.

(** In base 2 they need 64. *)
Example num_digits_base_2 : length (num_digits 2 (2 ^ 64 - 1)) = 64%nat.
Proof. vm_compute. reflexivity. Qed.

(** * strtol *)

(** ** What a digit and a prefix are

    The digits are given by the two alphabets as the standard lists them,
    apart from the arithmetic on character codes the code does. *)

(** The value a character has as a digit. *)
Definition numeral (c : Z) : option Z :=
  match char_index c (codes "0123456789abcdefghijklmnopqrstuvwxyz"%string) 0 with
  | Some d => Some d
  | None => char_index c (codes "0123456789ABCDEFGHIJKLMNOPQRSTUVWXYZ"%string) 0
  end.

Definition is_digit (base c : Z) : bool :=
  match numeral c with Some d => d <? base | None => false end.

Definition digit_or_0 (c : Z) : Z := match numeral c with Some d => d | None => 0 end.

(** "0x" or "0X" at [s]; "0b" or "0B", where binary constants are allowed. *)
Definition hex_prefix (m : mem) (s : Z) : Prop := m s = 48 /\ (m (s + 1) = 120 \/ m (s + 1) = 88).
Definition bin_prefix (bin_cst : bool) (m : mem) (s : Z) : Prop :=
  bin_cst = true /\ m s = 48 /\ (m (s + 1) = 98 \/ m (s + 1) = 66).

(** The digits after the sign at [s] start at [start] and are read in base
    [base']: a prefix "0x" is skipped in base 16 and selects it in base 0, a
    prefix "0b" likewise for base 2; in base 0 another number with a leading 0
    is octal, and any other decimal. *)
Inductive prefixed (bin_cst : bool) (m : mem) (s : Z) : Z -> Z -> Z -> Prop :=
| px_hex base : base = 0 \/ base = 16 -> hex_prefix m s -> prefixed bin_cst m s base (s + 2) 16
| px_bin base : base = 0 \/ base = 2 -> bin_prefix bin_cst m s -> prefixed bin_cst m s base (s + 2) 2
| px_octal : m s = 48 -> ~ hex_prefix m s -> ~ bin_prefix bin_cst m s -> prefixed bin_cst m s 0 s 8
| px_decimal : m s <> 48 -> prefixed bin_cst m s 0 s 10
| px_given base : base <> 0 -> ~ (base = 16 /\ hex_prefix m s) ->
    ~ (base = 2 /\ bin_prefix bin_cst m s) -> prefixed bin_cst m s base s base.

(** The code's arithmetic finds exactly these digits. *)
Lemma digit_value_numeral c : digit_value c = numeral c.
Proof.
  destruct (Z_le_gt_dec 0 c) as [H0|H0]; [destruct (Z_lt_ge_dec c 256) as [H1|H1]|].
  - pose proof (byte_check (fun c => match digit_value c, numeral c with
      | Some d, Some e => d =? e | None, None => true | _, _ => false end) ltac:(vm_compute; reflexivity) c ltac:(unfold byte; lia)) as E.
    cbn beta in E. destruct (digit_value c), (numeral c); try discriminate; [f_equal; lia | reflexivity].
  - unfold numeral. rewrite !char_index_none by (unfold byte; lia || (vm_compute; repeat constructor; congruence)).
    unfold digit_value, ISALPHA. repeat case_cmp; cbn; (lia || reflexivity).
  - unfold numeral. rewrite !char_index_none by (unfold byte; lia || (vm_compute; repeat constructor; congruence)).
    unfold digit_value, ISALPHA. repeat case_cmp; cbn; (lia || reflexivity).
Qed.

Lemma toupper_eq c u : 65 <= u <= 90 -> (TOUPPER c =? u) = true <-> c = u + 32 \/ c = u.
Proof. intros Hu. unfold TOUPPER. rewrite Z.eqb_eq. repeat case_cmp; cbn [andb]; lia. Qed.

(** The code chooses the start and the base by these rules. *)
Lemma number_prefix_prefixed bin_cst m base s start base' :
  number_prefix bin_cst m base s = (start, base') <-> prefixed bin_cst m s base start base'.
Proof.
  assert (X : (TOUPPER (m (s + 1)) =? 88) = true <-> m (s + 1) = 120 \/ m (s + 1) = 88) by (apply (toupper_eq _ 88); lia).
  assert (Y : (TOUPPER (m (s + 1)) =? 66) = true <-> m (s + 1) = 98 \/ m (s + 1) = 66) by (apply (toupper_eq _ 66); lia).
  unfold number_prefix. split.
  - destruct (Z.eqb_spec (m s) 48) as [E|E], (Z.eqb_spec base 0) as [E0|E0], (Z.eqb_spec base 16) as [E1|E1],
      (Z.eqb_spec base 2) as [E2|E2], (TOUPPER (m (s + 1)) =? 88), (TOUPPER (m (s + 1)) =? 66), bin_cst;
      cbn [andb orb]; intros W; injection W as <- <-; subst; try lia; constructor;
      unfold hex_prefix, bin_prefix; intuition (lia || congruence || discriminate).
  - intros W. destruct W as [base B [E H] | base B (-> & E & H) | E H1 H2 | E | base N H1 H2].
    + apply X in H as ->. rewrite E. destruct B as [-> | ->]; reflexivity.
    + assert ((TOUPPER (m (s + 1)) =? 88) = false) as -> by (destruct (_ =? 88); intuition lia).
      apply Y in H as ->. rewrite E. destruct B as [-> | ->]; reflexivity.
    + rewrite E. cbn [Z.eqb orb andb]. unfold hex_prefix, bin_prefix in *.
      destruct (_ =? 88); [tauto|]. destruct bin_cst, (_ =? 66); cbn [andb]; reflexivity || tauto.
    + apply Z.eqb_neq in E as ->. reflexivity.
    + apply Z.eqb_neq in N as ->. cbn [orb]. unfold hex_prefix, bin_prefix in *.
      destruct (Z.eqb_spec (m s) 48), (Z.eqb_spec base 16), (Z.eqb_spec base 2), (_ =? 88), bin_cst, (_ =? 66); cbn [andb];
        reflexivity || tauto.
Qed.

(** The number written from [s] to [e]. *)
Definition number_at (base : Z) (m : mem) (s e : Z) : Z := dval base (map digit_or_0 (str_bytes m s e)).

Lemma digit_value_range c d : numeral c = Some d -> 0 <= d < 36.
Proof.
  rewrite <- digit_value_numeral.
  unfold digit_value, ISALPHA, TOUPPER. destruct (Z.leb_spec 48 c), (Z.leb_spec c 57), (Z.leb_spec 65 c),
    (Z.leb_spec c 90), (Z.leb_spec 97 c), (Z.leb_spec c 122); cbn [andb orb]; intros E; try discriminate;
    injection E as <-; lia.
Qed.

Section Loop.
Context (m : mem) (base : Z) (Hbase : 2 <= base <= 36).
Let cutoff := ULONG_MAX / base.
Let cutlim := ULONG_MAX mod base.

Definition loop_inv (v i : Z) (ov : bool) : Prop :=
  0 <= i <= ULONG_MAX /\ 0 <= v /\ if ov then ULONG_MAX < v else i = v.

(** The test finds exactly the multiplications that leave the range. *)
Lemma cutoff_test i c : 0 <= i -> 0 <= c < base ->
  (cutoff <? i) || ((i =? cutoff) && (cutlim <? c)) = (ULONG_MAX <? i * base + c).
Proof using Hbase.
  intros Hi Hc. pose proof (Z_div_mod_eq_full ULONG_MAX base) as E. pose proof (Z.mod_pos_bound ULONG_MAX base ltac:(lia)) as R.
  fold cutoff in E. fold cutlim in E, R.
  destruct (Z.ltb_spec cutoff i), (Z.eqb_spec i cutoff), (Z.ltb_spec cutlim c), (Z.ltb_spec ULONG_MAX (i * base + c));
    cbn [andb orb]; try reflexivity; exfalso; nia.
Qed.

Lemma strtol_loop_spec fuel : forall s e v i ov, hit (fun x => negb (is_digit base (m x))) s e ->
  e - s < Z.of_nat fuel -> loop_inv v i ov ->
  exists i' ov', strtol_loop fuel m base cutoff cutlim s i ov = Some (e, i', ov') /\
    loop_inv (fold_left (fun a d => a * base + d) (map digit_or_0 (str_bytes m s e)) v) i' ov'.
Proof using Hbase.
  induction fuel as [|fuel IH]; intros s e v i ov H Hf Hi; [destruct H; lia|]. cbn [strtol_loop].
  rewrite digit_value_numeral.
  destruct (is_digit base (m s)) eqn:Ed.
  - assert (Hs : hit (fun x => negb (is_digit base (m x))) (s + 1) e).
    { apply (hit_advance _ s); [exact H|]. split; [lia|]. destruct H as (H1 & H2 & _).
      destruct (Z.eq_dec s e) as [<-|]; [rewrite Ed in H2; discriminate | lia]. }
    pose proof (proj1 Hs). rewrite str_bytes_cons by lia. cbn [map fold_left].
    assert (Hnz : m s <> 0) by (intros E; rewrite E in Ed; discriminate).
    apply Z.eqb_neq in Hnz. rewrite Hnz. unfold is_digit in Ed.
    destruct (numeral (m s)) as [c|] eqn:Ev; [|discriminate]. apply Z.ltb_lt in Ed.
    pose proof (digit_value_range _ _ Ev). destruct (Z.leb_spec base c); [lia|].
    destruct Hi as (Ri & Rv & Hi). rewrite cutoff_test by lia.
    replace (digit_or_0 (m s)) with c by (unfold digit_or_0; now rewrite Ev).
    destruct (Z.ltb_spec ULONG_MAX (i * base + c)) as [L|L].
    + apply IH; [exact Hs | lia|]. split; [lia|]. split; [nia|]. destruct ov; nia.
    + assert (wrap 64 (wrap 64 (i * base) + c) = i * base + c) as ->.
      { unfold ULONG_MAX in *. rewrite (wrap_small 64 (i * base)) by nia. apply wrap_small. nia. }
      apply IH; [exact Hs | lia|]. split; [nia|]. split; [nia|]. destruct ov; [nia | now subst i].
  - assert (e = s) as ->.
    { apply (hit_unique (fun x => negb (is_digit base (m x))) s); [exact H|]. split; [lia|]. split; [now rewrite Ed | intros; lia]. }
    rewrite str_bytes_nil. cbn [map fold_left]. exists i, ov. split; [|exact Hi].
    unfold is_digit in Ed. destruct (m s =? 0); [reflexivity|].
    destruct (numeral (m s)) as [c|]; [|reflexivity]. destruct (Z.leb_spec base c); [reflexivity|].
    apply Z.ltb_ge in Ed. lia.
Qed.
End Loop.

Lemma cutoff_tab_spec base : 2 <= base <= 36 ->
  nth (Z.to_nat (base - 2)) cutoff_tab 0 = ULONG_MAX / base /\
  nth (Z.to_nat (base - 2)) cutlim_tab 0 = ULONG_MAX mod base.
Proof.
  intros Hb. assert (H : forallb (fun i => (nth (i - 2) cutoff_tab 0 =? ULONG_MAX / Z.of_nat i) &&
    (nth (i - 2) cutlim_tab 0 =? ULONG_MAX mod Z.of_nat i)) (seq 2 35) = true) by (vm_compute; reflexivity).
  rewrite forallb_forall in H. specialize (H (Z.to_nat base) ltac:(apply in_seq; lia)).
  apply andb_true_iff in H as [H1 H2]. apply Z.eqb_eq in H1, H2. rewrite Z2Nat.id in * by lia.
  now replace (Z.to_nat (base - 2)) with (Z.to_nat base - 2)%nat by lia.
Qed.

(** ** How a string is read *)

(** The locale's spaces are neither NUL nor digits of any base. *)
Definition isspace_ok (isspace : Z -> bool) : Prop :=
  isspace 0 = false /\ forall c, isspace c = true -> numeral c = None.

Record reading (isspace : Z -> bool) (bin_cst : bool) (m : mem) (nptr base : Z)
    (neg : bool) (sgn start base' e : Z) : Prop := {
  rd_space : exists s0, hit (fun x => negb (isspace (m x))) nptr s0 /\
    (neg = true /\ m s0 = 45 /\ sgn = s0 + 1 \/
     neg = false /\ m s0 = 43 /\ sgn = s0 + 1 \/
     neg = false /\ m s0 <> 45 /\ m s0 <> 43 /\ sgn = s0);
  rd_prefix : prefixed bin_cst m sgn base start base';
  rd_digits : hit (fun x => negb (is_digit base' (m x))) start e }.

(** What the standard asks for: nothing converted, out of range, or the value. *)
Definition strtol_result (UNSIGNED : bool) (m : mem) (nptr : Z) (neg : bool) (sgn start base' e : Z)
    : Z * option strtol_errno * option Z :=
  let V := number_at base' m start e in
  if e =? start then (0, None, Some (if start =? sgn then nptr else start - 1))
  else if UNSIGNED then
    if (2 ^ 64 - 1) <? V then ((2 ^ 64 - 1), Some ERANGE, Some e)
    else ((if neg then - V else V) mod 2 ^ 64, None, Some e)
  else if neg then
    if - V <? (- 2 ^ 63) then ((- 2 ^ 63), Some ERANGE, Some e) else (- V, None, Some e)
  else
    if (2 ^ 63 - 1) <? V then ((2 ^ 63 - 1), Some ERANGE, Some e) else (V, None, Some e).

Lemma hit_exists q s z : s <= z -> q z = true -> exists t, hit q s t /\ t <= z.
Proof.
  intros Hs Hz. destruct (hit_or_miss_upto q s (z + 1)) as [(t & Ht & L)|M]; [exists t; split; [exact Ht | lia]|].
  rewrite M in Hz by lia. discriminate.
Qed.

Lemma hit_here q s e : hit q s e -> q s = true -> e = s.
Proof. intros H E. apply (hit_unique q s); [exact H|]. split; [lia|]. split; [exact E | intros; lia]. Qed.

Lemma nul_no_digit base c : c = 0 -> negb (is_digit base c) = true.
Proof. now intros ->. Qed.

Lemma number_prefix_cases bin_cst m base s : 2 <= base <= 36 \/ base = 0 ->
  exists start base', number_prefix bin_cst m base s = (start, base') /\ 2 <= base' <= 36 /\
    (start = s \/ start = s + 2 /\ m s = 48 /\ (TOUPPER (m (s + 1)) = 88 \/ bin_cst = true /\ TOUPPER (m (s + 1)) = 66)).
Proof.
  intros Hb. unfold number_prefix. destruct (Z.eqb_spec (m s) 48) as [E|E].
  - destruct (((base =? 0) || (base =? 16)) && (TOUPPER (m (s + 1)) =? 88)) eqn:E1.
    { apply andb_true_iff in E1 as [_ E1%Z.eqb_eq]. exists (s + 2), 16. split; [reflexivity|]. split; [lia|]. right. auto. }
    destruct (bin_cst && ((base =? 0) || (base =? 2)) && (TOUPPER (m (s + 1)) =? 66)) eqn:E2.
    { apply andb_true_iff in E2 as [E2 E3%Z.eqb_eq]. apply andb_true_iff in E2 as [E2 _].
      exists (s + 2), 2. split; [reflexivity|]. split; [lia|]. right. auto. }
    destruct (Z.eqb_spec base 0); eexists _, _; (split; [reflexivity|]); (split; [lia | auto]).
  - destruct (Z.eqb_spec base 0); eexists _, _; (split; [reflexivity|]); (split; [lia | auto]).
Qed.

(** 'X', 'B' and their lower-case forms are digits of some base. *)
Lemma toupper_digit c : TOUPPER c = 88 \/ TOUPPER c = 66 -> numeral c <> None /\ c <> 0 /\ c <> 45 /\ c <> 43.
Proof.
  unfold TOUPPER. intros H. assert (c = 88 \/ c = 120 \/ c = 66 \/ c = 98) as [-> | [-> | [-> | ->]]].
  { destruct (Z.leb_spec 97 c), (Z.leb_spec c 122); cbn [andb] in H; lia. }
  all: vm_compute; repeat split; congruence.
Qed.

Section Reading.
Context (isspace : Z -> bool) (Hsp : isspace_ok isspace) (m : mem) (nptr : Z).

Lemma skip_space_spec fuel : forall s s0, hit (fun x => negb (isspace (m x))) s s0 -> s0 - s < Z.of_nat fuel ->
  skip_space isspace fuel m s = Some s0.
Proof using Type.
  induction fuel as [|fuel IH]; intros s s0 H Hf; [destruct H; lia|]. cbn [skip_space].
  destruct (isspace (m s)) eqn:E.
  - apply IH; [|lia]. apply (hit_advance _ s); [exact H|]. destruct H as (H1 & H2 & _). split; [lia|].
    destruct (Z.eq_dec s s0) as [<-|]; [rewrite E in H2; discriminate | lia].
  - f_equal. apply (hit_unique (fun x => negb (isspace (m x))) s); [|exact H].
    split; [lia|]. rewrite E. split; [reflexivity | intros; lia].
Qed.

(** The pointer stored when no digit was found. *)
Lemma noconv_spec bin_cst base neg sgn start base' e : 2 <= base <= 36 \/ base = 0 ->
  reading isspace bin_cst m nptr base neg sgn start base' e ->
  noconv_end bin_cst m nptr start = if start =? sgn then nptr else start - 1.
Proof using Hsp.
  intros Hb [(s0 & (H1 & _ & H3) & Hs) Hp _]. unfold noconv_end.
  assert (Hg : nptr <= sgn) by lia.
  destruct (number_prefix_cases bin_cst m base sgn Hb) as (st & b' & E & _ & C). apply number_prefix_prefixed in Hp. rewrite Hp in E. injection E as <- <-.
  destruct C as [-> | (-> & E48 & C)].
  - rewrite Z.eqb_refl. destruct (Z.leb_spec 2 (sgn - nptr)); [|reflexivity]. cbn [andb].
    destruct ((TOUPPER (m (sgn - 1)) =? 88) || (bin_cst && (TOUPPER (m (sgn - 1)) =? 66))) eqn:E; [|reflexivity].
    exfalso. destruct (toupper_digit (m (sgn - 1))) as (D & _ & N45 & N43).
    { apply orb_true_iff in E as [E | E]; [left; lia|]. apply andb_true_iff in E as [_ E]. right; lia. }
    destruct Hs as [(_ & E' & ->) | [(_ & E' & ->) | (_ & _ & _ & ->)]];
      [replace (s0 + 1 - 1) with s0 in * by lia; contradiction .. |].
    apply D, (proj2 Hsp). specialize (H3 (s0 - 1) ltac:(lia)). now apply negb_false_iff in H3.
  - destruct (Z.eqb_spec (sgn + 2) sgn); [lia|]. destruct (Z.leb_spec 2 (sgn + 2 - nptr)); [|lia].
    replace (sgn + 2 - 1) with (sgn + 1) by lia. replace (sgn + 2 - 2) with sgn by lia. rewrite E48. cbn [Z.eqb andb].
    destruct C as [-> | [-> ->]]; reflexivity.
Qed.

(** Every string can be read, in one way. *)
Lemma reading_exists bin_cst base z : 2 <= base <= 36 \/ base = 0 -> nul_at m nptr z ->
  exists neg sgn start base' e, reading isspace bin_cst m nptr base neg sgn start base' e /\
    2 <= base' <= 36 /\ nptr <= sgn <= start /\ start <= e <= z.
Proof using Hsp.
  intros Hb (Hz1 & Hz2%Z.eqb_eq & Hz3).
  destruct (hit_exists (fun x => negb (isspace (m x))) nptr z Hz1) as (s0 & Hs0 & L0).
  { rewrite Hz2. now rewrite (proj1 Hsp). }
  assert (Hstep : forall x, nptr <= x <= z -> m x <> 0 -> x + 1 <= z).
  { intros x Hx Hn. destruct (Z.eq_dec x z) as [->|]; [contradiction | lia]. }
  pose proof (proj1 Hs0) as G0.
  assert (exists neg sgn, s0 <= sgn <= z /\ (neg = true /\ m s0 = 45 /\ sgn = s0 + 1 \/
     neg = false /\ m s0 = 43 /\ sgn = s0 + 1 \/ neg = false /\ m s0 <> 45 /\ m s0 <> 43 /\ sgn = s0))
    as (neg & sgn & Hsgn & HS).
  { destruct (Z.eq_dec (m s0) 45) as [E|E]; [exists true, (s0 + 1); specialize (Hstep s0); lia|].
    destruct (Z.eq_dec (m s0) 43) as [E'|E']; [exists false, (s0 + 1); specialize (Hstep s0); lia|].
    exists false, s0. lia. }
  destruct (number_prefix_cases bin_cst m base sgn Hb) as (start & base' & Hp%number_prefix_prefixed & Hb' & C).
  assert (Hst : sgn <= start <= z).
  { destruct C as [-> | (-> & E48 & C)]; [lia|]. split; [lia|].
    assert (sgn + 1 <= z) by (apply Hstep; lia).
    assert (m (sgn + 1) <> 0) by (apply toupper_digit; tauto). specialize (Hstep (sgn + 1)). lia. }
  destruct (hit_exists (fun x => negb (is_digit base' (m x))) start z (proj2 Hst)) as (e & He & Le).
  { now apply nul_no_digit. }
  exists neg, sgn, start, base', e. split.
  - split; [exists s0; split; [exact Hs0 | exact HS] | exact Hp | exact He].
  - pose proof (proj1 He). repeat split; lia.
Qed.
End Reading.

Lemma swrap_wrap x : - 2 ^ 63 <= x < 2 ^ 63 -> swrap 64 (wrap 64 x) = x.
Proof.
  intros H. unfold swrap, wrap. rewrite Zplus_mod_idemp_l, Z.mod_small; change (64 - 1) with 63; lia.
Qed.

Lemma strtol_spec isspace UNSIGNED bin_cst fuel m nptr base z neg sgn start base' e :
  isspace_ok isspace -> 2 <= base <= 36 \/ base = 0 -> nul_at m nptr z -> z - nptr < Z.of_nat fuel ->
  reading isspace bin_cst m nptr base neg sgn start base' e -> 2 <= base' <= 36 ->
  nptr <= sgn <= start -> start <= e <= z ->
  strtol_internal isspace UNSIGNED bin_cst fuel m nptr base =
    Some (strtol_result UNSIGNED m nptr neg sgn start base' e).
Proof.
  intros Hsp Hb Hz Hf R Hb' Hs He. pose proof (noconv_spec isspace Hsp m nptr bin_cst base neg sgn start base' e Hb R) as Hnc.
  destruct R as [(s0 & Hs0 & HS) Hp Hd]. unfold strtol_internal.
  replace ((base <? 0) || (base =? 1) || (36 <? base)) with false by (repeat case_cmp; cbn; lia).
  assert (L0 : nptr <= s0 <= sgn) by (destruct Hs0; lia).
  rewrite (skip_space_spec isspace m fuel nptr s0 Hs0) by lia.
  destruct (Z.eqb_spec (m s0) 0) as [E0|N0].
  { assert (sgn = s0) as -> by lia. assert (start = s0 /\ e = s0) as [-> ->].
    { apply number_prefix_prefixed in Hp. revert Hp. unfold number_prefix. rewrite E0. cbn [Z.eqb].
      destruct (base =? 0); intros E; injection E as <- <-; (split; [reflexivity|]);
        (eapply hit_here; [exact Hd | now apply nul_no_digit]). }
    unfold strtol_result, noconv_end. rewrite Z.sub_diag, !Z.eqb_refl. reflexivity. }
  assert ((m s0 =? 45) = neg /\ (if m s0 =? 45 then s0 + 1 else if m s0 =? 43 then s0 + 1 else s0) = sgn) as [-> ->].
  { destruct HS as [(-> & E & ->) | [(-> & E & ->) | (-> & N1 & N2 & ->)]]; [rewrite E; auto .. |].
    apply Z.eqb_neq in N1, N2. rewrite N1, N2. auto. }
  apply number_prefix_prefixed in Hp. rewrite Hp. destruct (cutoff_tab_spec base' Hb') as [-> ->].
  destruct (strtol_loop_spec m base' Hb' fuel start e 0 0 false Hd ltac:(lia)) as (i & ov & -> & Ri & Rv & Ho).
  { split; [unfold ULONG_MAX; lia|]. split; [lia | reflexivity]. }
  fold (dval base' (map digit_or_0 (str_bytes m start e))) in Ho, Rv.
  fold (number_at base' m start e) in Ho, Rv. unfold strtol_result. rewrite Hnc.
  destruct (Z.eqb_spec e start); [reflexivity|]. set (V := number_at base' m start e) in *.
  unfold ULONG_MAX, LONG_MAX, LONG_MIN in *. cbv zeta. destruct UNSIGNED.
  - destruct ov; destruct (Z.ltb_spec (2 ^ 64 - 1) V); try (exfalso; lia); [reflexivity|]. now subst i.
  - change (wrap 64 (wrap 64 (- wrap 64 (- 2 ^ 63 + 1)) + 1)) with (2 ^ 63).
    destruct neg, ov; cbn [orb]; repeat case_cmp; try (exfalso; lia); try reflexivity; subst i;
      rewrite swrap_wrap by lia; reflexivity.
Qed.

(** ** Written digits are read back *)

Lemma numeral_char upper d : 0 <= d < 36 -> numeral (nth (Z.to_nat d) (digit_chars upper) 0) = Some d.
Proof.
  intros Hd. assert (H : forallb (fun i => match numeral (nth i (digit_chars upper) 0) with
    Some d => d =? Z.of_nat i | None => false end) (seq 0 36) = true) by (destruct upper; reflexivity).
  rewrite forallb_forall in H. specialize (H (Z.to_nat d) ltac:(apply in_seq; lia)).
  cbn beta in H. destruct (numeral _); [apply Z.eqb_eq in H; f_equal; lia | discriminate].
Qed.

Lemma wrote_bytes m p l m' : wrote m p l m' -> str_bytes m' p (p + Z.of_nat (length l)) = l.
Proof.
  intros H. apply (nth_ext _ _ 0 0); unfold str_bytes; rewrite length_map, length_seq; [lia|].
  intros n Hn. rewrite (nth_indep _ 0 (m' (p + Z.of_nat 0))) by (rewrite length_map, length_seq; lia).
  rewrite (map_nth (fun i => m' (p + Z.of_nat i))), seq_nth, H by lia.
  destruct (Z.leb_spec p (p + Z.of_nat (0 + n))), (Z.ltb_spec (p + Z.of_nat (0 + n)) (p + Z.of_nat (length l)));
    cbn [andb]; try lia. f_equal. lia.
Qed.

(** The number written at [p], up to [e]. *)
Definition number_text (b v : Z) (m : mem) (p e : Z) : Prop :=
  number_at b m p e = v /\ p < e <= p + 64 /\ (forall x, p <= x < e -> is_digit b (m x) = true) /\
  (m p = 48 -> e = p + 1).

Lemma number_text_ext b v m m' p e p' e' : (forall i, 0 <= i < e - p -> m (p + i) = m' (p' + i)) -> e - p = e' - p' ->
  number_text b v m p e -> number_text b v m' p' e'.
Proof.
  intros E L (H1 & H2 & H3 & H4). split; [|split; [lia | split]].
  - rewrite <- H1. unfold number_at. do 2 f_equal. unfold str_bytes. rewrite <- L.
    apply map_ext_in. intros i Hi%in_seq. symmetry. apply E. lia.
  - intros x Hx. specialize (E (x - p') ltac:(lia)). replace (p' + (x - p')) with x in E by lia. rewrite <- E.
    apply H3. lia.
  - specialize (E 0 ltac:(lia)). rewrite !Z.add_0_r in E. rewrite <- E. lia.
Qed.

Lemma number_chars_text m p b v upper m' : 2 <= b <= 36 -> 0 <= v < 2 ^ 64 ->
  wrote m p (number_chars upper b v) m' -> number_text b v m' p (p + Z.of_nat (length (number_chars upper b v))).
Proof.
  intros Hb Hv W. destruct (num_digits_spec b ltac:(lia) v Hv) as (E & F & L & d & l & Ed & Hd).
  assert (Fd : Forall (fun c => is_digit b c = true) (number_chars upper b v)).
  { apply Forall_map. eapply Forall_impl; [|exact F]. intros x Hx. cbn beta in Hx. unfold is_digit.
    rewrite numeral_char by lia. lia. }
  split; [|split; [rewrite number_chars_length; lia | split]].
  - unfold number_at. rewrite (wrote_bytes _ _ _ _ W). unfold number_chars. rewrite map_map. etransitivity; [|exact E]. f_equal.
    etransitivity; [|apply map_id]. apply map_ext_in. intros x Hx. rewrite Forall_forall in F. specialize (F x Hx). cbn beta in F.
    unfold digit_or_0. now rewrite numeral_char by lia.
  - intros x Hx. rewrite (W x). destruct (Z.leb_spec p x), (Z.ltb_spec x (p + Z.of_nat (length (number_chars upper b v))));
      cbn [andb]; try lia. rewrite Forall_forall in Fd. apply Fd, nth_In. lia.
  - intros E0. rewrite (W p), Z.leb_refl in E0. revert E0. unfold number_chars. rewrite Ed. cbn [map length].
    destruct (Z.ltb_spec p (p + Z.of_nat (S (length (map (fun d => nth (Z.to_nat d) (digit_chars upper) 0) l))))); [|lia].
    rewrite Z.sub_diag. cbn [andb Z.to_nat nth]. intros E0.
    assert (d = 0).
    { rewrite Ed in F. inversion F as [|? ? Rd]. subst. pose proof (numeral_char upper d ltac:(lia)) as D.
      rewrite E0 in D. now injection D. }
    destruct (Hd H0) as [-> _]. cbn. lia.
Qed.

(** A number in the text, with nothing that continues it, is read as such. *)
Lemma text_reading isspace bin_cst m b v p e : isspace_ok isspace -> 2 <= b <= 36 -> number_text b v m p e -> m e = 0 ->
  reading isspace bin_cst m p b false p p b e /\ nul_at m p e.
Proof.
  intros Hsp Hb (_ & L & D & Z0) He. pose proof (D p ltac:(lia)) as Dp.
  assert (Hd : numeral (m p) <> None) by (unfold is_digit in Dp; destruct (numeral (m p)); congruence).
  assert (Hne : forall x, p <= x < e -> m x <> 0).
  { intros x Hx E. specialize (D x Hx). rewrite E in D. discriminate. }
  split; [split|].
  - exists p. split.
    + split; [lia|]. split; [|intros; lia]. destruct (isspace (m p)) eqn:E; [|reflexivity].
      now apply (proj2 Hsp) in E.
    + right; right. repeat split; intros E; rewrite E in Hd; now cbn in Hd.
  - apply number_prefix_prefixed. unfold number_prefix. replace (b =? 0) with false by (symmetry; apply Z.eqb_neq; lia). cbn [orb].
    destruct (Z.eqb_spec (m p) 48) as [E|E]; [|reflexivity]. rewrite <- (Z0 E), He.
    cbn. rewrite !andb_false_r. reflexivity.
  - split; [lia|]. split; [now apply nul_no_digit|]. intros x Hx. now rewrite D.
  - split; [lia|]. rewrite He. split; [reflexivity|]. intros x Hx. now apply Z.eqb_neq, Hne.
Qed.

Lemma text_strtol isspace (UNSIGNED : bool) bin_cst m b v p e fuel : isspace_ok isspace -> 2 <= b <= 36 -> number_text b v m p e -> m e = 0 ->
  0 <= v <= (if UNSIGNED then ULONG_MAX else LONG_MAX) -> (64 < fuel)%nat ->
  strtol_internal isspace UNSIGNED bin_cst fuel m p b = Some (v, None, Some e).
Proof.
  intros Hsp Hb T He Hv Hf. destruct (text_reading isspace bin_cst m b v p e Hsp Hb T He) as [R Hz].
  destruct T as (Ev & L & _). rewrite (strtol_spec isspace UNSIGNED bin_cst fuel m p b e false p p b e) by (auto || lia).
  unfold strtol_result. rewrite Ev. unfold ULONG_MAX, LONG_MAX in *. destruct (Z.eqb_spec e p); [lia|].
  destruct UNSIGNED; case_cmp; try lia; [|reflexivity]. now rewrite Z.mod_small by lia.
Qed.

(** A minus sign before the number. *)
Lemma text_strtol_neg isspace bin_cst m b v p e fuel : isspace_ok isspace -> isspace 45 = false -> 2 <= b <= 36 ->
  number_text b v m p e -> m e = 0 -> m (p - 1) = 45 -> 0 <= v <= 2 ^ 63 -> (65 < fuel)%nat ->
  strtol_internal isspace false bin_cst fuel m (p - 1) b = Some (- v, None, Some e).
Proof.
  intros Hsp H45 Hb T He Hm Hv Hf. destruct (text_reading isspace bin_cst m b v p e Hsp Hb T He) as [[_ Rp Rd] Hz].
  destruct T as (Ev & L & _).
  rewrite (strtol_spec isspace false bin_cst fuel m (p - 1) b e true p p b e); try (auto; lia).
  - unfold strtol_result. rewrite Ev. unfold LONG_MIN. destruct (Z.eqb_spec e p); [lia|]. case_cmp; [lia | reflexivity].
  - destruct Hz as (Z1 & Z2 & Z3). split; [lia|]. split; [exact Z2|]. intros x Hx.
    destruct (Z.eq_dec x (p - 1)) as [->|]; [now rewrite Hm | apply Z3; lia].
  - split; [|exact Rp | exact Rd]. exists (p - 1). split.
    + split; [lia|]. rewrite Hm, H45. split; [reflexivity | intros; lia].
    + left. repeat split; [exact Hm | lia].
Qed.

Lemma wrote_frame m p l m' x : wrote m p l m' -> ~ p <= x < p + Z.of_nat (length l) -> m' x = m x.
Proof. intros W Hx. rewrite (W x). repeat case_cmp; cbn [andb]; auto; lia. Qed.

(** _fitoa and _fitoa_word, as long as the digits fit their local array. *)
Lemma fitoa_spec conv m tmp v buf b upper : 4 <= b <= 36 -> 0 <= v < 2 ^ 64 -> tmp + 32 <= buf \/ buf + 32 <= tmp ->
  (let p := tmp + 8 * 4 - Z.of_nat (length (number_chars upper b v)) in
   exists m', conv = Some (m', p) /\ wrote m p (number_chars upper b v) m') ->
  exists m', (let? (m, cp) := conv in Some (fitoa_copy (Z.to_nat (tmp + 8 * 4 - cp)) m buf cp)) =
      Some (m', buf + Z.of_nat (length (number_chars upper b v))) /\
    (forall x, ~ tmp <= x < tmp + 32 -> ~ buf <= x < buf + Z.of_nat (length (number_chars upper b v)) -> m' x = m x) /\
    number_text b v m' buf (buf + Z.of_nat (length (number_chars upper b v))).
Proof.
  intros Hb Hv Hd. set (n := length (number_chars upper b v)).
  assert (Hn : (n <= 32)%nat) by (unfold n; rewrite number_chars_length; apply num_digits_32; lia).
  intros (m1 & -> & W). replace (Z.to_nat (tmp + 8 * 4 - (tmp + 8 * 4 - Z.of_nat n))) with n by lia.
  destruct (fitoa_copy_spec n m1 buf (tmp + 8 * 4 - Z.of_nat n)) as (m2 & -> & H2); [lia|].
  exists m2. split; [reflexivity|]. split.
  - intros x H3 H4. rewrite H2. repeat case_cmp; cbn [andb]; try lia; apply (wrote_frame _ _ _ _ _ W); fold n; lia.
  - apply (number_text_ext b v m1 m2 (tmp + 8 * 4 - Z.of_nat n) (tmp + 8 * 4 - Z.of_nat n + Z.of_nat n)); [|lia|].
    + intros i Hi. rewrite H2. repeat case_cmp; cbn [andb]; try lia. f_equal. lia.
    + unfold n. apply (number_chars_text m); [lia | exact Hv | exact W].
Qed.

(** * The claims *)

(** C15: [_itoa], which divides by multiplying with a tabulated reciprocal (or by
    shifting in bases 8 and 16), writes for every 64-bit value and every base
    from 2 to 36 exactly the bytes that the plain division of [_itoa_word]
    writes: the digits of the value, without leading zeros, ending at [buflim],
    and nothing else; from base 4 on [_fitoa] and [_fitoa_word] write the same digits
    from [buf] on. *)
Theorem itoa_correct m v buflim b upper : 2 <= b <= 36 -> 0 <= v < 2 ^ 64 ->
  exists m1 m2 p, itoa m v buflim b upper = Some (m1, p) /\ itoa_word m v buflim b upper = Some (m2, p) /\
    (forall x, m1 x = m2 x) /\ (forall x, ~ p <= x < buflim -> m1 x = m x) /\ number_text b v m1 p buflim /\
    (forall tmp buf, 4 <= b -> tmp + 32 <= buf \/ buf + 32 <= tmp ->
      forall f, f = fitoa \/ f = fitoa_word ->
      exists m3, f m tmp v buf b upper = Some (m3, buf + (buflim - p)) /\
        (forall x, ~ tmp <= x < tmp + 32 -> ~ buf <= x < buf + (buflim - p) -> m3 x = m x) /\
        number_text b v m3 buf (buf + (buflim - p))).
Proof.
  intros Hb Hv. destruct (itoa_spec m v buflim b upper Hb Hv) as (m1 & E1 & W1).
  destruct (itoa_word_spec m v buflim b upper Hb Hv) as (m2 & E2 & W2).
  exists m1, m2, (buflim - Z.of_nat (length (number_chars upper b v))). split; [exact E1|]. split; [exact E2|].
  split; [intros x; now rewrite (W1 x), (W2 x)|]. split; [|split].
  - intros x Hx. apply (wrote_frame _ _ _ _ _ W1). lia.
  - pose proof (number_chars_text _ _ _ _ _ _ Hb Hv W1) as T.
    now replace (buflim - _ + _) with buflim in T by lia.
  - intros tmp buf H4 Hd f Hf. replace (buflim - (buflim - _)) with (Z.of_nat (length (number_chars upper b v))) by lia.
    destruct Hf as [-> | ->]; apply fitoa_spec; auto using itoa_spec, itoa_word_spec; lia.
Qed.

Lemma itoa_correct_witness : 2 <= 7 <= 36 /\
  exists m1 p, itoa (fun _ => 0) 12345678901234567890 1000 7 false = Some (m1, p) /\
    number_text 7 12345678901234567890 m1 p 1000.
Proof.
  split; [lia|]. destruct (itoa_correct (fun _ => 0) 12345678901234567890 1000 7 false) as (m1 & _ & p & H & _ & _ & _ & T & _);
    [lia | lia|]. exists m1, p. split; [exact H | exact T].
Defined.

(** C16: strtol and strtoul on every string and base, with or without the C2x
    binary constants: an invalid base is EINVAL and leaves *endptr alone; any
    other string is read as spaces, a sign, a base prefix by the rules of
    [prefixed] and the longest run of digits of that base, which are those of
    the alphabets in [numeral]; without digits it gives 0 and the start of the string (or the
    'x' after a lone "0x" whose 0 was converted), with digits their value and
    the end of the run, clamped with ERANGE exactly when it is out of range;
    strtoul negates modulo 2^64.  It returns on every string. *)
Theorem strtol_correct isspace UNSIGNED bin_cst fuel m nptr base z :
  isspace_ok isspace -> nul_at m nptr z -> z - nptr < Z.of_nat fuel ->
  if (base <? 0) || (base =? 1) || (36 <? base)
  then strtol_internal isspace UNSIGNED bin_cst fuel m nptr base = Some (0, Some EINVAL, None)
  else exists neg sgn start base' e, reading isspace bin_cst m nptr base neg sgn start base' e /\
    2 <= base' <= 36 /\ nptr <= sgn <= start /\ start <= e <= z /\
    strtol_internal isspace UNSIGNED bin_cst fuel m nptr base =
      Some (strtol_result UNSIGNED m nptr neg sgn start base' e).
Proof.
  intros Hsp Hz Hf. destruct ((base <? 0) || (base =? 1) || (36 <? base)) eqn:E.
  { unfold strtol_internal. now rewrite E. }
  assert (Hb : 2 <= base <= 36 \/ base = 0) by (revert E; repeat case_cmp; cbn; intros; (discriminate || lia)).
  destruct (reading_exists isspace Hsp m nptr bin_cst base z Hb Hz) as (neg & sgn & start & base' & e & R & Hb' & H1 & H2).
  exists neg, sgn, start, base', e. repeat (split; [assumption|]). eauto using strtol_spec.
Qed.

(** The spaces of the C locale. *)
Definition c_isspace (c : Z) : bool := (c =? 32) || ((9 <=? c) && (c <=? 13)).

Lemma c_isspace_ok : isspace_ok c_isspace.
Proof.
  split; [reflexivity|]. intros c. rewrite <- digit_value_numeral. unfold c_isspace, digit_value, ISALPHA.
  destruct (Z.eqb_spec c 32) as [->|]; [reflexivity|]. destruct (Z.leb_spec 9 c), (Z.leb_spec c 13); cbn; try discriminate.
  intros _. repeat case_cmp; cbn; (lia || reflexivity).
Qed.

(** " -0x8000000000000001" is below LONG_MIN; "0xg" is a lone zero. *)
Definition example_numbers : mem :=
  at_bytes 100 [32; 45; 48; 120; 56; 48; 48; 48; 48; 48; 48; 48; 48; 48; 48; 48; 48; 48; 48; 49; 103; 0; 48; 120; 103; 0].

Lemma strtol_correct_witness :
  (exists neg sgn start base' e, reading c_isspace false example_numbers 100 0 neg sgn start base' e /\
    strtol_l c_isspace 40 example_numbers 100 0 = Some (strtol_result false example_numbers 100 neg sgn start base' e)) /\
  strtol_l c_isspace 40 example_numbers 100 0 = Some (LONG_MIN, Some ERANGE, Some 120) /\
  strtol_l c_isspace 40 example_numbers 122 16 = Some (0, None, Some 123).
Proof.
  split; [|split; vm_compute; reflexivity].
  destruct (strtol_correct c_isspace false false 40 example_numbers 100 0 121) as (neg & sgn & start & base' & e & R & _ & _ & _ & E);
    [apply c_isspace_ok | apply hit_check; vm_compute; reflexivity | lia|].
  exists neg, sgn, start, base', e. split; [exact R | exact E].
Defined.

(** C17: what [_itoa] writes, followed by a NUL, strtoul (and strtol, where the
    value is in its range) reads back: the same value, no error, and the end
    pointer at the NUL, for every value, base and digit case; with a minus sign
    put before the digits strtol gives the negated value down to LONG_MIN. *)
Theorem itoa_strtoul_roundtrip isspace bin_cst m v buflim b upper : isspace_ok isspace -> isspace 45 = false ->
  2 <= b <= 36 -> 0 <= v < 2 ^ 64 -> m buflim = 0 ->
  exists m' p, itoa m v buflim b upper = Some (m', p) /\
    strtol_internal isspace true bin_cst 66 m' p b = Some (v, None, Some buflim) /\
    (v <= LONG_MAX -> strtol_internal isspace false bin_cst 66 m' p b = Some (v, None, Some buflim)) /\
    (v <= 2 ^ 63 -> strtol_internal isspace false bin_cst 66 (upd m' (p - 1) 45) (p - 1) b = Some (- v, None, Some buflim)).
Proof.
  intros Hsp H45 Hb Hv Hnul. destruct (itoa_spec m v buflim b upper Hb Hv) as (m1 & E1 & W1).
  set (p := buflim - Z.of_nat (length (number_chars upper b v))) in *.
  assert (T : number_text b v m1 p buflim).
  { pose proof (number_chars_text _ _ _ _ _ _ Hb Hv W1) as T. now replace (p + _) with buflim in T by lia. }
  assert (Hn : m1 buflim = 0) by (rewrite (wrote_frame _ _ _ _ _ W1) by lia; exact Hnul).
  pose proof (proj1 (proj2 T)) as L. exists m1, p. split; [exact E1|]. split; [|split].
  - apply (text_strtol isspace true bin_cst m1 b v); auto; unfold ULONG_MAX; lia.
  - intros Hl. apply (text_strtol isspace false bin_cst m1 b v); auto; lia.
  - intros Hl. apply text_strtol_neg; auto; try lia.
    + apply (number_text_ext b v m1 _ p buflim); [|reflexivity | exact T]. intros i Hi. now rewrite upd_ne by lia.
    + rewrite upd_ne by lia. exact Hn.
    + apply upd_eq.
Qed.

Lemma itoa_strtoul_roundtrip_witness :
  exists m' p, itoa (fun _ => 0) (2 ^ 63) 500 36 true = Some (m', p) /\
    strtol_internal c_isspace false false 66 (upd m' (p - 1) 45) (p - 1) 36 = Some (LONG_MIN, None, Some 500).
Proof.
  destruct (itoa_strtoul_roundtrip c_isspace false (fun _ => 0) (2 ^ 63) 500 36 true) as (m' & p & H1 & _ & _ & H2);
    [apply c_isspace_ok | reflexivity | lia | lia | reflexivity|].
  exists m', p. split; [exact H1 | apply H2; lia].
Defined.
