(* ===== verification/Threads.v ===== *)
(** * Threads and futexes (sysdeps/nptl/futex-internal.h)

    A program is a list of thread states over a shared state; a step lets one
    thread do one atomic operation.  The operations of the synchronization
    primitives are interleaved arbitrarily and sequentially consistently.  The
    kernel's futex is the set of threads in a blocked state: [futex_wait] blocks
    atomically where the word has the expected value, [futex_wake] makes the
    kernel choose which of the blocked threads return, and a blocked thread may
    also return on its own.  Invariants count threads in a state with
    [total]. *)

From Stdlib Require Import ZArith.
From stdpp Require Import base list relations.
#[local] Open Scope Z_scope.

Section Total.
Context {A : Type}.
Implicit Types (f : A -> Z) (l : list A).

(** The sum of [f] over the threads. *)
Definition total f l : Z := foldr (fun x a => f x + a) 0 l.

Lemma total_insert f l i x y : l !! i = Some x -> total f (<[i := y]> l) = total f l - f x + f y.
Proof.
  revert i. induction l as [|z l IH]; intros [|i] H; simplify_eq/=; [lia|].
  rewrite (IH i H). lia.
Qed.

Lemma total_nonneg f l : (forall x, 0 <= f x) -> 0 <= total f l.
Proof. intros Hf. induction l as [|x l IH]; simpl; [lia|]. specialize (Hf x). lia. Qed.

Lemma total_lookup f l i x : (forall y, 0 <= f y) -> l !! i = Some x -> f x <= total f l.
Proof.
  intros Hf. revert i. induction l as [|z l IH]; intros [|i] H; simplify_eq/=.
  - pose proof (total_nonneg f l Hf). lia.
  - specialize (IH i H). specialize (Hf z). lia.
Qed.

(** Two different threads. *)
Lemma total_lookup2 f l i j x y : (forall z, 0 <= f z) -> i <> j -> l !! i = Some x -> l !! j = Some y ->
  f x + f y <= total f l.
Proof.
  intros Hf. revert i j. induction l as [|z l IH]; intros [|i] [|j] Hn Hi Hj; simplify_eq/=; try done.
  - pose proof (total_lookup f l j y Hf Hj). lia.
  - pose proof (total_lookup f l i x Hf Hi). lia.
  - specialize (IH i j ltac:(lia) Hi Hj). specialize (Hf z). lia.
Qed.

Lemma total_pos f l : (forall x, 0 <= f x) -> 0 < total f l -> exists i x, l !! i = Some x /\ 0 < f x.
Proof.
  intros Hf. induction l as [|z l IH]; simpl; [lia|]. intros H.
  destruct (decide (0 < f z)); [exists 0%nat, z; done|].
  destruct IH as (i & x & Hi & Hx); [specialize (Hf z); lia|]. exists (S i), x. done.
Qed.

Lemma total_zero f l : (forall i x, l !! i = Some x -> f x = 0) -> total f l = 0.
Proof.
  induction l as [|z l IH]; intros H; simpl; [done|]. rewrite (H 0%nat z eq_refl), IH; [done|].
  intros i x Hi. exact (H (S i) x Hi).
Qed.

Lemma total_le f g l : (forall x, f x <= g x) -> total f l <= total g l.
Proof. intros H. induction l as [|x l IH]; simpl; [lia|]. specialize (H x). lia. Qed.

Lemma total_ext f g l : (forall x, f x = g x) -> total f l = total g l.
Proof. intros H. induction l as [|x l IH]; simpl; [done|]. now rewrite H, IH. Qed.

Lemma total_ext_lookup f g l : (forall i x, l !! i = Some x -> f x = g x) -> total f l = total g l.
Proof.
  induction l as [|x l IH]; intros H; simpl; [done|]. rewrite (H 0%nat x eq_refl). f_equal.
  apply IH. intros i y Hi. exact (H (S i) y Hi).
Qed.

(** The other threads keep [g] below [f]. *)
Lemma total_le_lookup f g l i x : (forall y, g y <= f y) -> l !! i = Some x ->
  total g l + f x <= total f l + g x.
Proof.
  intros H. revert i. induction l as [|z l IH]; intros [|i] Hi; simplify_eq/=.
  - pose proof (total_le g f l H). lia.
  - specialize (IH i Hi). specialize (H z). lia.
Qed.

Lemma total_replicate f n x : total f (replicate n x) = Z.of_nat n * f x.
Proof. induction n as [|n IH]; simpl; [done|]. rewrite IH. lia. Qed.

(** ** futex_wake *)

Section Wake.
(** Where a blocked thread continues; [None] for one that is not blocked. *)
Context (unblock : A -> option A).

Definition is_blocked (x : A) : Z := match unblock x with Some _ => 1 | None => 0 end.

Fixpoint wake_list (ws : list nat) (l : list A) : option (list A) :=
  match ws with
  | [] => Some l
  | w :: ws =>
      match l !! w with
      | Some x => match unblock x with Some y => wake_list ws (<[w := y]> l) | None => None end
      | None => None
      end
  end.

(** The kernel wakes [n] threads, or all if there are fewer, and [ws] are the
    ones it chose. *)
Definition futex_wake (n : Z) (ws : list nat) (l : list A) : option (list A) :=
  if Z.of_nat (length ws) =? Z.min n (total is_blocked l) then wake_list ws l else None.

(** A woken thread is not blocked. *)
Hypothesis unblock_once : forall x y, unblock x = Some y -> unblock y = None.

Lemma is_blocked_nonneg x : 0 <= is_blocked x.
Proof using Type. unfold is_blocked. destruct (unblock x); lia. Qed.

Lemma wake_list_total f c ws : forall l l', (forall x y, unblock x = Some y -> f y = f x + c) ->
  wake_list ws l = Some l' -> total f l' = total f l + c * Z.of_nat (length ws).
Proof using Type.
  induction ws as [|w ws IH]; intros l l' Hf H; simplify_eq/=; [lia|].
  destruct (l !! w) as [x|] eqn:E; [|done]. destruct (unblock x) as [y|] eqn:Eu; [|done].
  rewrite (IH _ _ Hf H), (total_insert f l w x y E), (Hf x y Eu). lia.
Qed.

(** What a thread is after the wake-up. *)
Lemma wake_list_lookup ws : forall l l' i y, wake_list ws l = Some l' -> l' !! i = Some y ->
  l !! i = Some y \/ exists x, l !! i = Some x /\ unblock x = Some y.
Proof using unblock_once.
  induction ws as [|w ws IH]; intros l l' i y H Hi; simplify_eq/=; [by left|].
  destruct (l !! w) as [x|] eqn:E; [|done]. destruct (unblock x) as [x'|] eqn:Eu; [|done].
  destruct (IH _ _ i y H Hi) as [H1 | (z & H1 & H2)]; apply list_lookup_insert_Some in H1 as [(-> & <- & _)|(Hn & H1)].
  - right. eauto.
  - by left.
  - apply unblock_once in Eu. congruence.
  - right. eauto.
Qed.

Lemma wake_list_length ws : forall l l', wake_list ws l = Some l' -> length l' = length l.
Proof using Type.
  induction ws as [|w ws IH]; intros l l' H; simplify_eq/=; [done|].
  destruct (l !! w) as [x|]; [|done]. destruct (unblock x); [|done].
  rewrite (IH _ _ H). apply length_insert.
Qed.

Lemma wake_list_exists n : forall l, Z.of_nat n <= total is_blocked l ->
  exists ws l', length ws = n /\ wake_list ws l = Some l'.
Proof using unblock_once.
  induction n as [|n IH]; intros l Hn; [exists [], l; done|].
  destruct (total_pos is_blocked l is_blocked_nonneg ltac:(lia)) as (i & x & Hi & Hx).
  unfold is_blocked in Hx. destruct (unblock x) as [y|] eqn:Eu; [|lia].
  destruct (IH (<[i := y]> l)) as (ws & l' & Hl & Hw).
  - rewrite (total_insert is_blocked l i x y Hi). unfold is_blocked at 2 3. rewrite Eu, (unblock_once x y Eu). lia.
  - exists (i :: ws), l'. split; [simpl; lia|]. simpl. rewrite Hi, Eu. exact Hw.
Qed.

(** The system call always succeeds. *)
Lemma futex_wake_exists n l : 0 <= n -> exists ws l', futex_wake n ws l = Some l' /\
  Z.of_nat (length ws) = Z.min n (total is_blocked l).
Proof using unblock_once.
  intros Hn. pose proof (total_nonneg is_blocked l is_blocked_nonneg) as H0.
  destruct (wake_list_exists (Z.to_nat (Z.min n (total is_blocked l))) l) as (ws & l' & Hl & Hw); [lia|].
  exists ws, l'. unfold futex_wake. assert (Z.of_nat (length ws) = Z.min n (total is_blocked l)) as E by lia.
  rewrite E, Z.eqb_refl. split; [exact Hw | reflexivity].
Qed.

Lemma futex_wake_total f c n ws l l' : (forall x y, unblock x = Some y -> f y = f x + c) ->
  futex_wake n ws l = Some l' -> total f l' = total f l + c * Z.min n (total is_blocked l).
Proof using Type.
  unfold futex_wake. intros Hf H. destruct (Z.eqb_spec (Z.of_nat (length ws)) (Z.min n (total is_blocked l))) as [E|]; [|done].
  rewrite (wake_list_total f c ws l l' Hf H), E. reflexivity.
Qed.

Lemma futex_wake_lookup n ws l l' i y : futex_wake n ws l = Some l' -> l' !! i = Some y ->
  l !! i = Some y \/ exists x, l !! i = Some x /\ unblock x = Some y.
Proof using unblock_once.
  unfold futex_wake. destruct (_ =? _); [apply wake_list_lookup | done].
Qed.

Lemma futex_wake_length n ws l l' : futex_wake n ws l = Some l' -> length l' = length l.
Proof using Type. unfold futex_wake. destruct (_ =? _); [apply wake_list_length | done]. Qed.
End Wake.
End Total.

(** ** Executions *)

Section Runs.
Context {S C : Type} (step : C -> nat -> S -> option S).

(** Some thread does one step. *)
Definition step_rel (s s' : S) : Prop := exists c i, step c i s = Some s'.

Definition reachable (s0 s : S) : Prop := rtc step_rel s0 s.

(** A schedule: who does what, in order. *)
Fixpoint run_schedule (sched : list (nat * C)) (s : S) : option S :=
  match sched with
  | [] => Some s
  | (i, c) :: sched => match step c i s with Some s' => run_schedule sched s' | None => None end
  end.

Lemma run_schedule_reachable sched : forall s s', run_schedule sched s = Some s' -> reachable s s'.
Proof.
  induction sched as [|[i c] sched IH]; intros s s' H; simplify_eq/=; [apply rtc_refl|].
  destruct (step c i s) as [s1|] eqn:E; [|done]. eapply rtc_l; [exists c, i; exact E | by apply IH].
Qed.

Lemma reachable_inv (I : S -> Prop) s0 : I s0 -> (forall c i s s', I s -> step c i s = Some s' -> I s') ->
  forall s, reachable s0 s -> I s.
Proof.
  intros H0 Hs s Hr. induction Hr as [|s1 s2 s3 (c & i & E) Hr IH]; [exact H0|].
  apply IH. eapply Hs; [exact H0 | exact E].
Qed.
End Runs.
