(* ===== verification/LowLevelLock.v ===== *)
(** * Low-level locks (sysdeps/nptl/lowlevellock.h, nptl/lowlevellock.c)

    The lock word is 0 (free), 1 (acquired, no waiters) or 2 (acquired, perhaps
    with waiters).  A thread is at the atomic operation it does next. *)

From Stdlib Require Import ZArith.
From stdpp Require Import base list.
From S2P Require Import Threads.
#[local] Open Scope Z_scope.

(** Where a thread is. *)
Inductive lll_pc :=
| Idle                  (* outside *)
| LockCas               (* __lll_lock: compare and exchange *)
| TryCas                (* __lll_trylock *)
| CondXchg              (* __lll_cond_lock: exchange *)
| CondTryCas            (* lll_cond_trylock *)
| WaitLoad              (* __lll_lock_wait: first load *)
| WaitXchg              (* its exchange *)
| WaitFutex             (* about to call futex_wait *)
| Blocked               (* in futex_wait *)
| Held                  (* owns the lock *)
| UnlockXchg            (* __lll_unlock: exchange *)
| UnlockWake.           (* __lll_lock_wake *)

#[global] Instance lll_pc_eq_dec : EqDecision lll_pc.
Proof. solve_decision. Defined.

(** Each operation gives the new lock word and where the thread continues. *)
Definition lll_trylock (w : Z) : Z * lll_pc := if w =? 0 then (1, Held) else (w, Idle).

Definition lll_cond_trylock (w : Z) : Z * lll_pc := if w =? 0 then (2, Held) else (w, Idle).

Definition lll_lock (w : Z) : Z * lll_pc := if w =? 0 then (1, Held) else (w, WaitLoad).

Definition lll_cond_lock (w : Z) : Z * lll_pc := if negb (w =? 0) then (2, WaitLoad) else (2, Held).

(** The three operations of __lll_lock_wait. *)
Definition lll_lock_wait_load (w : Z) : Z * lll_pc := if w =? 2 then (w, WaitFutex) else (w, WaitXchg).
Definition lll_lock_wait_xchg (w : Z) : Z * lll_pc := if negb (w =? 0) then (2, WaitFutex) else (2, Held).
Definition lll_lock_wait_futex (w : Z) : Z * lll_pc := if w =? 2 then (w, Blocked) else (w, WaitXchg).

Definition lll_unlock (w : Z) : Z * lll_pc := (0, if 1 <? w then UnlockWake else Idle).

Definition lll_unblock (p : lll_pc) : option lll_pc := match p with Blocked => Some WaitXchg | _ => None end.

Record lll_state := { futex : Z; pcs : list lll_pc }.

Inductive lll_choice := CallLock | CallTrylock | CallCondLock | CallCondTrylock | CallUnlock | Run
| WakeChoice (ws : list nat)    (* whom futex_wake wakes *)
| Interrupt.                    (* futex_wait returns on its own *)

Definition lll_op (p : lll_pc) (w : Z) : option (Z * lll_pc) :=
  match p with
  | LockCas => Some (lll_lock w)
  | TryCas => Some (lll_trylock w)
  | CondXchg => Some (lll_cond_lock w)
  | CondTryCas => Some (lll_cond_trylock w)
  | WaitLoad => Some (lll_lock_wait_load w)
  | WaitXchg => Some (lll_lock_wait_xchg w)
  | WaitFutex => Some (lll_lock_wait_futex w)
  | UnlockXchg => Some (lll_unlock w)
  | _ => None
  end.

Definition lll_call (p : lll_pc) (c : lll_choice) : option lll_pc :=
  match p, c with
  | Idle, CallLock => Some LockCas
  | Idle, CallTrylock => Some TryCas
  | Idle, CallCondLock => Some CondXchg
  | Idle, CallCondTrylock => Some CondTryCas
  | Held, CallUnlock => Some UnlockXchg
  | Blocked, Interrupt => Some WaitXchg
  | _, _ => None
  end.

(** Thread [i] does one step. *)
Definition lll_step (c : lll_choice) (i : nat) (s : lll_state) : option lll_state :=
  p ← pcs s !! i;
  match c with
  | Run => '(w, p') ← lll_op p (futex s); Some {| futex := w; pcs := <[i := p']> (pcs s) |}
  | WakeChoice ws =>
      match p with
      | UnlockWake =>
          l ← futex_wake lll_unblock 1 ws (<[i := Idle]> (pcs s));
          Some {| futex := futex s; pcs := l |}
      | _ => None
      end
  | _ => p' ← lll_call p c; Some {| futex := futex s; pcs := <[i := p']> (pcs s) |}
  end.

Definition lll_init (n : nat) : lll_state := {| futex := 0; pcs := replicate n Idle |}.

(** * Invariant *)

(** The lock is owned until the exchange of the unlock. *)
Definition owns (p : lll_pc) : Z := match p with Held | UnlockXchg => 1 | _ => 0 end.
Definition blocked (p : lll_pc) : Z := match p with Blocked => 1 | _ => 0 end.
(** Threads that will let a blocked one continue, or set the word to 2. *)
Definition active (p : lll_pc) : Z := match p with UnlockWake | WaitXchg => 1 | _ => 0 end.

Record lll_inv (s : lll_state) : Prop := {
  inv_word : futex s = 0 \/ futex s = 1 \/ futex s = 2;
  inv_owner : total owns (pcs s) = if futex s =? 0 then 0 else 1;
  inv_blocked : 0 < total blocked (pcs s) -> futex s = 2 \/ 0 < total active (pcs s) }.

Lemma owns_nonneg p : 0 <= owns p. Proof. by destruct p. Qed.
Lemma blocked_nonneg p : 0 <= blocked p. Proof. by destruct p. Qed.
Lemma active_nonneg p : 0 <= active p. Proof. by destruct p. Qed.

Lemma lll_unblock_once x y : lll_unblock x = Some y -> lll_unblock y = None.
Proof. destruct x; intros; by simplify_eq/=. Qed.

Lemma lll_blocked_total l : total (is_blocked lll_unblock) l = total blocked l.
Proof. apply total_ext. by intros []. Qed.

Lemma lll_init_inv n : lll_inv (lll_init n).
Proof. split; simpl; rewrite ?total_replicate; simpl; auto with lia. Qed.

(** One thread moves from [p] to [p'] and the word becomes [w]. *)
Lemma lll_inv_move s i p p' w : lll_inv s -> pcs s !! i = Some p ->
  w = 0 \/ w = 1 \/ w = 2 ->
  (if w =? 0 then 0 else 1) - owns p' = (if futex s =? 0 then 0 else 1) - owns p ->
  (w = 2 \/ 0 < active p' \/
   blocked p' = 0 /\ active p = 0 /\ (futex s = 2 -> False) \/
   blocked p' = 0 /\ active p <= active p' /\ w = futex s) ->
  lll_inv {| futex := w; pcs := <[i := p']> (pcs s) |}.
Proof.
  intros [Hw Ho Hb] Hi Hw' Ho' Hb'. pose proof (total_nonneg blocked (pcs s) blocked_nonneg).
  pose proof (total_nonneg active (pcs s) active_nonneg).
  pose proof (total_lookup active (pcs s) i p active_nonneg Hi).
  pose proof (blocked_nonneg p). pose proof (active_nonneg p').
  split; simpl; rewrite ?(total_insert _ _ _ _ _ Hi); [exact Hw' | lia|]. intros Hpos.
  destruct Hb' as [-> | [Hb' | [(B0 & A0 & Hn) | (B0 & A0 & ->)]]]; [by left | lia | |]; destruct Hb as [E|E]; lia.
Qed.

Lemma lll_step_inv c i s s' : lll_inv s -> lll_step c i s = Some s' -> lll_inv s'.
Proof.
  intros HI. unfold lll_step. destruct (pcs s !! i) as [p|] eqn:Hi; [|done]. cbn [mbind option_bind].
  assert (Hcall : forall p', lll_call p c = Some p' -> lll_inv {| futex := futex s; pcs := <[i := p']> (pcs s) |}).
  { intros p' E. apply (lll_inv_move s i p); [exact HI | exact Hi | apply HI | |];
      destruct p, c; simplify_eq/=; lia. }
  destruct c as [ | | | | | |ws|]; intros E;
    try (destruct (lll_call p _) as [p'|]; [|done]; simplify_eq/=; by apply Hcall).
  - destruct (lll_op p (futex s)) as [[w p']|] eqn:Eo; [|done]. simplify_eq/=.
    destruct (inv_word s HI) as [Ew | [Ew | Ew]]; destruct p; simpl in Eo; unfold lll_lock, lll_trylock, lll_cond_lock,
      lll_cond_trylock, lll_lock_wait_load, lll_lock_wait_xchg, lll_lock_wait_futex, lll_unlock in Eo;
      rewrite ?Ew in Eo; simplify_eq/=; apply (lll_inv_move s i _ _ _ HI Hi); rewrite ?Ew; simpl; auto with lia;
      pose proof (total_lookup owns _ _ _ owns_nonneg Hi) as Hown; rewrite (inv_owner s HI), Ew in Hown; simpl in Hown; lia.
  - destruct p; try done. destruct (futex_wake lll_unblock 1 ws _) as [l|] eqn:Ew; [|done]. simplify_eq/=.
    destruct HI as [Hw Ho Hb].
    pose proof (futex_wake_total lll_unblock owns 0 1 ws _ _ ltac:(by intros [] ? ?; simplify_eq/=) Ew) as H1.
    pose proof (futex_wake_total lll_unblock blocked (-1) 1 ws _ _ ltac:(by intros [] ? ?; simplify_eq/=) Ew) as H2.
    pose proof (futex_wake_total lll_unblock active 1 1 ws _ _ ltac:(by intros [] ? ?; simplify_eq/=) Ew) as H3.
    rewrite lll_blocked_total in *. rewrite !(total_insert _ _ _ _ _ Hi) in *.
    pose proof (total_nonneg blocked (pcs s) blocked_nonneg). pose proof (total_lookup active (pcs s) i _ active_nonneg Hi).
    cbn [owns blocked active] in *. split; simpl; [exact Hw | lia|]. intros Hpos. destruct Hb as [E|E]; lia.
Qed.

Lemma lll_reachable_inv n s : reachable lll_step (lll_init n) s -> lll_inv s.
Proof. apply (reachable_inv lll_step lll_inv); [apply lll_init_inv | apply lll_step_inv]. Qed.

(** A thread inside a call that is to acquire the lock. *)
Definition acquiring (p : lll_pc) : Prop :=
  match p with LockCas | CondXchg | WaitLoad | WaitXchg | WaitFutex | Blocked => True | _ => False end.

(** A thread that needs no step of its own: outside, in the critical section,
    or asleep. *)
Definition resting (p : lll_pc) : Prop := p = Idle \/ p = Held \/ p = Blocked.

(** A free lock and a thread before its exchange: it gets the lock. *)
Lemma xchg_acquires s j : futex s = 0 -> pcs s !! j = Some WaitXchg ->
  lll_step Run j s = Some {| futex := 2; pcs := <[j := Held]> (pcs s) |}.
Proof. intros Hw Hj. unfold lll_step. rewrite Hj. simpl. unfold lll_lock_wait_xchg. by rewrite Hw. Qed.

Definition only_runs (sched : list (nat * lll_choice)) : Prop :=
  Forall (fun ic => match snd ic with Run | WakeChoice _ => True | _ => False end) sched.

Definition acquires_by (s : lll_state) (sched : list (nat * lll_choice)) : Prop :=
  only_runs sched /\ (length sched <= 2)%nat /\
  exists s' j p, run_schedule lll_step sched s = Some s' /\ pcs s !! j = Some p /\ acquiring p /\ pcs s' !! j = Some Held.

Lemma run2_acquires s j p : futex s = 0 -> pcs s !! j = Some p -> acquiring p ->
  p <> Blocked -> exists sched, acquires_by s sched.
Proof.
  intros Hw Hj Ha Hb. pose proof (lookup_lt_Some _ _ _ Hj) as Hlt.
  destruct p; try done.
  1, 2, 4: exists [(j, Run)]; (split; [by repeat constructor|]); (split; [simpl; lia|]);
    eexists _, j, _; (split; [cbn; unfold lll_step; rewrite Hj; simpl;
      unfold lll_lock, lll_cond_lock, lll_lock_wait_xchg; rewrite Hw; simpl; reflexivity|]);
    (split; [exact Hj|]); (split; [done|]); simpl; by apply list_lookup_insert_eq.
  all: exists [(j, Run); (j, Run)]; (split; [by repeat constructor|]); (split; [simpl; lia|]);
    eexists _, j, _; (split; [cbn; unfold lll_step at 1; rewrite Hj; simpl;
      unfold lll_lock_wait_load, lll_lock_wait_futex; rewrite Hw; simpl;
      rewrite xchg_acquires; [reflexivity | done | simpl; by apply list_lookup_insert_eq]|]);
    (split; [exact Hj|]); (split; [done|]); simpl; apply list_lookup_insert_eq; by rewrite length_insert.
Qed.

Lemma wake_acquires s j i : futex s = 0 -> pcs s !! j = Some UnlockWake -> pcs s !! i = Some Blocked ->
  exists sched, acquires_by s sched.
Proof.
  intros Hw Hj Hi. pose proof (lookup_lt_Some _ _ _ Hj) as Hlt.
  destruct (futex_wake_exists lll_unblock lll_unblock_once 1 (<[j := Idle]> (pcs s))) as (ws & l & E & Hl); [lia|].
  assert (Hij : i <> j) by congruence.
  assert (Hb : 0 < total (is_blocked lll_unblock) (<[j := Idle]> (pcs s))).
  { pose proof (total_lookup (is_blocked lll_unblock) (<[j := Idle]> (pcs s)) i Blocked (is_blocked_nonneg _)) as H.
    rewrite list_lookup_insert_ne in H by done. specialize (H Hi). simpl in H. unfold is_blocked in H at 1. simpl in H. lia. }
  destruct ws as [|k [|k2 ws]]; simpl in Hl; [lia| |lia]. assert (Ew := E). unfold futex_wake in Ew.
  destruct (Z.of_nat (length [k]) =? _); [|done]. simpl in Ew.
  destruct (<[j := Idle]> (pcs s) !! k) as [x|] eqn:Ek; [|done]. destruct x; simplify_eq/=.
  exists [(j, WakeChoice [k]); (k, Run)]. split; [by repeat constructor|]. split; [simpl; lia|].
  assert (Hk : pcs s !! k = Some Blocked).
  { apply list_lookup_insert_Some in Ek as [(_ & ? & _)|[_ Ek]]; [done | exact Ek]. }
  assert (Hkl : (k < length (<[j := Idle]> (pcs s)))%nat) by (rewrite length_insert; by eapply lookup_lt_Some).
  eexists _, k, Blocked. split.
  - cbn. unfold lll_step at 1. rewrite Hj. simpl. rewrite E. simpl.
    rewrite xchg_acquires; [reflexivity | done|]. simpl. by apply list_lookup_insert_eq.
  - split; [exact Hk|]. split; [done|]. simpl. apply list_lookup_insert_eq. by rewrite length_insert.
Qed.

(** C20: mutual exclusion of the low-level lock under every interleaving of
    lll_lock, lll_trylock, lll_cond_lock, lll_cond_trylock and lll_unlock by any
    number of threads, with blocked threads returning spuriously: at most one
    thread owns the lock and the word is 0 exactly when none does; and no
    wake-up is lost: when every thread is outside, in its critical section or
    blocked, a blocked thread means that the lock is owned and that its word
    is 2, which makes the owner's unlock wake one. *)
Theorem lll_lock_exclusion n s : reachable lll_step (lll_init n) s ->
  (forall i j p q, pcs s !! i = Some p -> pcs s !! j = Some q -> owns p = 1 -> owns q = 1 -> i = j) /\
  (futex s = 0 <-> forall i p, pcs s !! i = Some p -> owns p = 0) /\
  (Forall resting (pcs s) -> Blocked ∈ pcs s -> futex s = 2 /\ Held ∈ pcs s).
Proof.
  intros Hr. pose proof (lll_reachable_inv n s Hr) as [Hw Ho Hb]. split; [|split].
  - intros i j p q Hi Hj Hp Hq. destruct (decide (i = j)) as [|Hn]; [done|].
    pose proof (total_lookup2 owns _ _ _ _ _ owns_nonneg Hn Hi Hj). destruct (futex s =? 0); lia.
  - split.
    + intros E i p Hi. rewrite E in Ho. pose proof (total_lookup owns _ _ _ owns_nonneg Hi).
      pose proof (owns_nonneg p). simpl in Ho. lia.
    + intros H. destruct (Z.eqb_spec (futex s) 0); [done|]. rewrite (total_zero owns _ H) in Ho. lia.
  - intros Hrest (i & Hi)%list_elem_of_lookup_1. pose proof (total_lookup blocked _ _ _ blocked_nonneg Hi). simpl in H.
    rewrite Forall_lookup in Hrest.
    assert (Ha : total active (pcs s) = 0).
    { apply total_zero. intros j p Hj. destruct (Hrest j p Hj) as [-> | [-> | ->]]; done. }
    destruct Hb as [E|E]; [lia | | lia]. split; [exact E|]. rewrite E in Ho. simpl in Ho.
    destruct (total_pos owns (pcs s) owns_nonneg) as (j & p & Hj & Hp); [lia|].
    destruct (Hrest j p Hj) as [-> | [-> | ->]]; simpl in Hp; try lia. by eapply list_elem_of_lookup_2.
Qed.

Definition example_lll : option lll_state :=
  run_schedule lll_step [(0, CallLock); (0, Run); (1, CallLock); (1, Run); (1, Run); (1, Run); (1, Run)]%nat (lll_init 2).

Lemma lll_lock_exclusion_witness : exists s, example_lll = Some s /\ futex s = 2 /\ Held ∈ pcs s.
Proof.
  destruct example_lll as [s|] eqn:E; [|discriminate]. exists s. split; [reflexivity|].
  assert (Hs : s = {| futex := 2; pcs := [Held; Blocked] |}) by (vm_compute in E; congruence).
  apply (lll_lock_exclusion 2 s).
  - apply (run_schedule_reachable lll_step _ _ _ E).
  - rewrite Hs. apply Forall_cons_2; [unfold resting; auto|]. apply Forall_cons_2; [unfold resting; auto | constructor].
  - rewrite Hs. apply list_elem_of_further, list_elem_of_here.
Defined.

(** whenever the lock is free and some thread is inside a call that is to
    acquire it, even if all such threads are blocked, two steps of threads
    already inside an operation are enough for one of the acquiring threads to
    own the lock: it cannot be free and left to threads that sleep. *)
Lemma lll_lock_progress n s i p : reachable lll_step (lll_init n) s ->
  futex s = 0 -> pcs s !! i = Some p -> acquiring p -> exists sched, acquires_by s sched.
Proof.
  intros Hr Hw Hi Ha. destruct (decide (p = Blocked)) as [-> | Hn]; [|eauto using run2_acquires].
  pose proof (lll_reachable_inv n s Hr) as [_ _ Hb].
  pose proof (total_lookup blocked _ _ _ blocked_nonneg Hi) as H. simpl in H.
  destruct Hb as [E|E]; [lia|lia|]. destruct (total_pos active (pcs s) active_nonneg E) as (j & q & Hj & Hq).
  destruct q; simpl in Hq; try lia; [eapply run2_acquires; done | eapply wake_acquires; done].
Qed.

Lemma lll_lock_progress_witness : exists s, run_schedule lll_step
    [(0, CallLock); (0, Run); (1, CallLock); (1, Run); (1, Run); (1, Run); (1, Run); (0, CallUnlock); (0, Run)]%nat
    (lll_init 2) = Some s /\ pcs s = [UnlockWake; Blocked] /\ exists sched, acquires_by s sched.
Proof.
  destruct (run_schedule lll_step _ _) as [s|] eqn:E; [|discriminate]. exists s. split; [reflexivity|].
  assert (Hs : s = {| futex := 0; pcs := [UnlockWake; Blocked] |}) by (vm_compute in E; congruence).
  split; [by rewrite Hs|]. apply (lll_lock_progress 2 s 1 Blocked).
  - apply (run_schedule_reachable lll_step _ _ _ E).
  - by rewrite Hs.
  - by rewrite Hs.
  - exact I.
Defined.
