(* ===== verification/Semaphore.v ===== *)
(** * Semaphores (nptl/sem_waitcommon.c, sem_wait.c, sem_timedwait.c,
      sem_clockwait.c, sem_post.c, sem_init.c, sem_getvalue.c)

    Two implementations: [Sem64] keeps the value and the number of waiters in
    one 64-bit word, [Sem32] keeps them apart and has a bit in the value word
    that says whether there may be waiters.  A thread is at the shared-memory
    operation it does next, together with the local tests that precede it.  A
    weak compare-and-exchange may fail spuriously.  [posted] and [taken] are
    history: the tokens added and removed so far. *)

From Stdlib Require Import ZArith.
From stdpp Require Import base list.
From S2P Require Import Prelude Threads.
#[local] Open Scope Z_scope.

Definition SEM_VALUE_MAX : Z := 2147483647.

Inductive sem_errno := EINVAL | EAGAIN | EOVERFLOW | ETIMEDOUT | EINTR.
(** What a call returned: success, -1 with errno, or the thread was cancelled. *)
Inductive sem_result := Success | Failure (e : sem_errno) | Cancelled.

#[global] Instance sem_errno_eq_dec : EqDecision sem_errno.
Proof. solve_decision. Defined.

(** The calls, with the arguments that are checked at the entry. *)
Inductive sem_call :=
| sem_wait
| sem_trywait
| sem_timedwait (tv_nsec : Z)
| sem_clockwait (clockid tv_nsec : Z)
| sem_post.

Definition valid_nanoseconds (ns : Z) : bool := (0 <=? ns) && (ns <? 1000000000).

(** CLOCK_REALTIME and CLOCK_MONOTONIC. *)
Definition futex_abstimed_supported_clockid (clockid : Z) : bool := (clockid =? 0) || (clockid =? 1).

(** What happens around a thread's step. *)
Inductive sem_choice :=
| Call (c : sem_call)
| Run
| Weak                        (* the compare-and-exchange fails spuriously *)
| WakeChoice (ws : list nat)  (* whom futex_wake wakes *)
| FutexReturn                 (* futex_wait returns 0 or EAGAIN on its own *)
| FutexError (e : sem_errno)  (* futex_wait fails *)
| CancelThread.                     (* the thread is cancelled in futex_wait *)

Module Sem64.

Definition SEM_NWAITERS_SHIFT : Z := 32.
Definition SEM_VALUE_MASK : Z := 2 ^ 32 - 1.

Inductive pc :=
| Done (r : sem_result)              (* outside, after the last result *)
| FastLoad (definitive : bool)       (* __new_sem_wait_fast: load *)
| FastLoop (definitive : bool) (d : Z)
| SlowAdd                            (* __new_sem_wait_slow64: register *)
| SlowLoop (d : Z)                   (* its loop *)
| SlowWait                           (* do_futex_wait *)
| Blocked
| SlowLoad
| SlowFail (r : sem_result)          (* about to stop being a waiter *)
| PostLoad                           (* __new_sem_post: load *)
| PostLoop (d : Z)
| PostWake.

Record state := { data : Z; pcs : list pc; posted : Z; taken : Z }.

(** sem_init, where [value] is valid. *)
Definition new_sem_init (value : Z) (n : nat) : sem_errno + state :=
  if SEM_VALUE_MAX <? value then inl EINVAL
  else inr {| data := value; pcs := replicate n (Done Success); posted := value; taken := 0 |}.

Definition new_sem_getvalue (s : state) : Z := Z.land (data s) SEM_VALUE_MASK.

(** The entry points. *)
Definition entry (c : sem_call) : pc :=
  match c with
  | sem_wait => FastLoad false
  | sem_trywait => FastLoad true
  | sem_timedwait ns => if negb (valid_nanoseconds ns) then Done (Failure EINVAL) else FastLoad false
  | sem_clockwait clockid ns =>
      if negb (futex_abstimed_supported_clockid clockid) then Done (Failure EINVAL)
      else if negb (valid_nanoseconds ns) then Done (Failure EINVAL)
      else FastLoad false
  | sem_post => PostLoad
  end.

(** A compare-and-exchange that expects [d] succeeds. *)
Definition cas_ok (weak : bool) (data d : Z) : bool := negb weak && (data =? d).

(** Where the callers of __new_sem_wait_fast go on if it returns -1. *)
Definition fast_failed (definitive : bool) : pc := if definitive then Done (Failure EAGAIN) else SlowAdd.

(** The operations: the new data word, the thread, and the tokens added and
    removed. *)
Definition new_sem_wait_fast (weak definitive : bool) (data d : Z) : Z * pc * Z * Z :=
  if Z.land d SEM_VALUE_MASK =? 0 then (data, fast_failed definitive, 0, 0)
  else if cas_ok weak data d then (wrap 64 (d - 1), Done Success, 0, 1)
  else (data, if definitive then FastLoop definitive data else fast_failed definitive, 0, 0).

Definition new_sem_wait_slow64 (weak : bool) (data d : Z) : Z * pc * Z * Z :=
  if Z.land d SEM_VALUE_MASK =? 0 then (data, SlowWait, 0, 0)
  else if cas_ok weak data d then (wrap 64 (d - 1 - 2 ^ SEM_NWAITERS_SHIFT), Done Success, 0, 1)
  else (data, SlowLoop data, 0, 0).

Definition do_futex_wait (data : Z) : pc := if Z.land data SEM_VALUE_MASK =? 0 then Blocked else SlowLoad.

(** How the loop treats an error of futex_wait. *)
Definition futex_error (e : sem_errno) : pc :=
  match e with ETIMEDOUT | EINTR | EOVERFLOW => SlowFail (Failure e) | _ => SlowLoad end.

Definition new_sem_post (weak : bool) (data d : Z) : Z * pc * Z * Z :=
  if Z.land d SEM_VALUE_MASK =? SEM_VALUE_MAX then (data, Done (Failure EOVERFLOW), 0, 0)
  else if cas_ok weak data d then
    (wrap 64 (d + 1), if 0 <? Z.shiftr d SEM_NWAITERS_SHIFT then PostWake else Done Success, 1, 0)
  else (data, PostLoop data, 0, 0).

Definition unblock (p : pc) : option pc := match p with Blocked => Some SlowLoad | _ => None end.

Definition op (weak : bool) (p : pc) (data : Z) : option (Z * pc * Z * Z) :=
  match p with
  | FastLoad definitive => Some (data, FastLoop definitive data, 0, 0)
  | FastLoop definitive d => Some (new_sem_wait_fast weak definitive data d)
  | SlowAdd => Some (wrap 64 (data + 2 ^ SEM_NWAITERS_SHIFT), SlowLoop data, 0, 0)
  | SlowLoop d => Some (new_sem_wait_slow64 weak data d)
  | SlowWait => Some (data, do_futex_wait data, 0, 0)
  | SlowLoad => Some (data, SlowLoop data, 0, 0)
  | SlowFail r => Some (wrap 64 (data - 2 ^ SEM_NWAITERS_SHIFT), Done r, 0, 0)
  | PostLoad => Some (data, PostLoop data, 0, 0)
  | PostLoop d => Some (new_sem_post weak data d)
  | _ => None
  end.

(** Steps that only move the thread. *)
Definition move (c : sem_choice) (p : pc) : option pc :=
  match p, c with
  | Done _, Call call => Some (entry call)
  | (SlowWait | Blocked), FutexReturn => Some SlowLoad
  | (SlowWait | Blocked), FutexError e => Some (futex_error e)
  | (SlowWait | Blocked), CancelThread => Some (SlowFail Cancelled)
  | _, _ => None
  end.

Definition update (s : state) (i : nat) (r : Z * pc * Z * Z) : state :=
  let '(d, p, a, t) := r in
  {| data := d; pcs := <[i := p]> (pcs s); posted := posted s + a; taken := taken s + t |}.

Definition step (c : sem_choice) (i : nat) (s : state) : option state :=
  p ← pcs s !! i;
  match c with
  | Run => r ← op false p (data s); Some (update s i r)
  | Weak => r ← op true p (data s); Some (update s i r)
  | WakeChoice ws =>
      match p with
      | PostWake =>
          l ← futex_wake unblock 1 ws (<[i := Done Success]> (pcs s));
          Some {| data := data s; pcs := l; posted := posted s; taken := taken s |}
      | _ => None
      end
  | _ => p' ← move c p; Some (update s i (data s, p', 0, 0))
  end.

(** * Invariant *)

(** The tokens. *)
Definition tokens (s : state) : Z := posted s - taken s.

Definition value_of (d : Z) : Z := Z.land d SEM_VALUE_MASK.

(** Threads that are counted in the upper half of [data]. *)
Definition registered (p : pc) : Z :=
  match p with SlowLoop _ | SlowWait | Blocked | SlowLoad | SlowFail _ => 1 | _ => 0 end.
Definition blocked (p : pc) : Z := match p with Blocked => 1 | _ => 0 end.
(** Threads that will wake a blocked one. *)
Definition waking (p : pc) : Z := match p with PostWake => 1 | _ => 0 end.
(** Waiters that will look at the tokens again, or that have seen one. *)
Definition hot (p : pc) : Z :=
  match p with SlowLoad => 1 | SlowLoop d => if value_of d =? 0 then 0 else 1 | _ => 0 end.

Record inv (s : state) : Prop := {
  inv_threads : Z.of_nat (length (pcs s)) < 2 ^ 31;
  inv_data : data s = total registered (pcs s) * 2 ^ 32 + tokens s;
  inv_tokens : 0 <= tokens s <= SEM_VALUE_MAX;
  inv_wake : 0 < total blocked (pcs s) -> tokens s <= total waking (pcs s) + total hot (pcs s) }.

Lemma registered_nonneg64 p : 0 <= registered p. Proof. by destruct p. Qed.
Lemma blocked_nonneg64 p : 0 <= blocked p. Proof. by destruct p. Qed.
Lemma waking_nonneg64 p : 0 <= waking p. Proof. by destruct p. Qed.
Lemma hot_nonneg64 p : 0 <= hot p. Proof. destruct p; simpl; try lia. destruct (_ =? _); lia. Qed.
Lemma blocked_registered64 p : blocked p <= registered p. Proof. by destruct p. Qed.

Lemma unblock_once64 x y : unblock x = Some y -> unblock y = None.
Proof. destruct x; intros; by simplify_eq/=. Qed.

Lemma blocked_total64 l : total (is_blocked unblock) l = total blocked l.
Proof. apply total_ext. by intros []. Qed.

Lemma total_length64 f (l : list pc) : (forall p, 0 <= f p <= 1) -> total f l <= Z.of_nat (length l).
Proof.
  intros H. transitivity (total (fun _ => 1) l); [apply total_le; intros; apply H|].
  induction l as [|x l IH]; simpl; lia.
Qed.

Lemma value_data64 s : inv s -> value_of (data s) = tokens s.
Proof.
  intros [_ Hd Ht _]. unfold value_of, SEM_VALUE_MASK. rewrite land_low_mask, Hd by lia.
  rewrite Z.add_comm, Z_mod_plus_full. apply Z.mod_small. unfold SEM_VALUE_MAX in Ht. lia.
Qed.

Lemma waiters_data64 s : inv s -> Z.shiftr (data s) SEM_NWAITERS_SHIFT = total registered (pcs s).
Proof.
  intros [_ Hd Ht _]. unfold SEM_NWAITERS_SHIFT. rewrite Z.shiftr_div_pow2, Hd, Z.add_comm, Z.div_add by lia.
  rewrite Z.div_small; [lia|]. unfold SEM_VALUE_MAX in Ht. lia.
Qed.

(** The facts about the counts that the arithmetic needs. *)
Ltac counts l i p Hi :=
  pose proof (total_nonneg registered l registered_nonneg64); pose proof (total_nonneg blocked l blocked_nonneg64);
  pose proof (total_nonneg waking l waking_nonneg64); pose proof (total_nonneg hot l hot_nonneg64);
  pose proof (total_lookup registered l i p registered_nonneg64 Hi);
  pose proof (total_lookup blocked l i p blocked_nonneg64 Hi);
  pose proof (total_lookup waking l i p waking_nonneg64 Hi); pose proof (total_lookup hot l i p hot_nonneg64 Hi);
  pose proof (total_le blocked registered l blocked_registered64).

(** One thread moves from [p] to [p'], [a] tokens are added and [t] removed. *)
Lemma inv_update64 s i p p' a t : inv s -> pcs s !! i = Some p ->
  0 <= tokens s + a - t <= SEM_VALUE_MAX ->
  (tokens s + a - t = 0 \/
   blocked p' = 0 /\ (total registered (pcs s) = 0 \/ a - t + waking p + hot p <= waking p' + hot p')) ->
  inv (update s i (data s + (registered p' - registered p) * 2 ^ 32 + (a - t), p', a, t)).
Proof.
  intros [Hn Hd Ht Hw] Hi Ht' Hb. counts (pcs s) i p Hi. pose proof (waking_nonneg64 p'). pose proof (hot_nonneg64 p').
  pose proof (blocked_nonneg64 p). unfold tokens in *. split; unfold tokens; simpl; rewrite ?length_insert, ?(total_insert _ _ _ _ _ Hi); lia.
Qed.

(** The word has room for the update. *)
Lemma data_range64 s k t : inv s -> 0 <= total registered (pcs s) + k <= 2 ^ 31 -> 0 <= tokens s + t <= SEM_VALUE_MAX ->
  wrap 64 (data s + k * 2 ^ 32 + t) = data s + k * 2 ^ 32 + t.
Proof. intros [_ Hd _ _] Hk Ht. apply wrap_small. unfold SEM_VALUE_MAX in *. lia. Qed.

Lemma registered_bound64 s : inv s -> total registered (pcs s) < 2 ^ 31.
Proof.
  intros [Hn _ _ _]. pose proof (total_length64 registered (pcs s)) as H. enough (forall p, 0 <= registered p <= 1) by (specialize (H ltac:(assumption)); lia).
  intros []; simpl; lia.
Qed.

(** Equal words, as 64-bit sums. *)
Ltac same :=
  match goal with
  | |- wrap 64 _ = wrap 64 _ => f_equal; lia
  | W : ?d = wrap 64 ?d |- ?d = wrap 64 _ => transitivity (wrap 64 d); [exact W | f_equal; lia]
  end.

Lemma op_inv64 weak s i p r : inv s -> pcs s !! i = Some p -> op weak p (data s) = Some r -> inv (update s i r).
Proof.
  intros HI Hi Hop. pose proof (value_data64 s HI) as Hv. pose proof (waiters_data64 s HI) as Hwt.
  pose proof (registered_bound64 s HI) as Hb. pose proof (inv_tokens s HI) as Ht.
  pose proof (total_lookup registered _ _ _ registered_nonneg64 Hi) as Hr.
  pose proof (total_nonneg registered (pcs s) registered_nonneg64) as Hr0.
  assert (M : forall d p' a t, d = wrap 64 (data s + (registered p' - registered p) * 2 ^ 32 + (a - t)) ->
    0 <= total registered (pcs s) + (registered p' - registered p) <= 2 ^ 31 ->
    0 <= tokens s + (a - t) <= SEM_VALUE_MAX ->
    (tokens s + a - t = 0 \/
     blocked p' = 0 /\ (total registered (pcs s) = 0 \/ a - t + waking p + hot p <= waking p' + hot p')) ->
    inv (update s i (d, p', a, t))).
  { intros d p' a t -> Hrg Htg H. rewrite data_range64 by assumption. apply (inv_update64 s i p); [exact HI | exact Hi | lia | exact H]. }
  assert (W : data s = wrap 64 (data s)).
  { pose proof (data_range64 s 0 0 HI ltac:(lia) ltac:(lia)) as E. rewrite Z.mul_0_l, !Z.add_0_r in E. by symmetry. }
  unfold SEM_VALUE_MAX in *.
  assert (C : forall d, cas_ok weak (data s) d = true -> d = data s).
  { unfold cas_ok. intros d H. apply andb_true_iff in H as [_ H]. lia. }
  assert (Hz : value_of (data s) = 0 <-> tokens s = 0) by lia.
  destruct p as [| |def d| |d| | | |r'| |d|]; simpl in Hop, Hr; simplify_eq; unfold new_sem_wait_fast, new_sem_wait_slow64,
    do_futex_wait, new_sem_post, SEM_NWAITERS_SHIFT, SEM_VALUE_MAX; try fold (value_of d); try fold (value_of (data s)).
  - apply M; cbn [registered blocked waking hot fast_failed]; try lia; same.
  - destruct (Z.eqb_spec (value_of d) 0); [|destruct (cas_ok weak (data s) d) eqn:E; [apply C in E as ->|]].
    + apply M; destruct def; cbn [registered blocked waking hot fast_failed]; try lia; same.
    + apply M; cbn [registered blocked waking hot fast_failed]; try lia; same.
    + apply M; destruct def; cbn [registered blocked waking hot fast_failed]; try lia; same.
  - apply M; cbn [registered blocked waking hot fast_failed]; try destruct (_ =? _); try lia; same.
  - destruct (Z.eqb_spec (value_of d) 0) as [Ez|Ez]; [|destruct (cas_ok weak (data s) d) eqn:E; [apply C in E as ->|]].
    + apply M; cbn [registered blocked waking hot]; rewrite ?Ez; cbn [Z.eqb]; try lia; same.
    + apply M; cbn [registered blocked waking hot fast_failed]; try destruct (Z.eqb_spec (value_of (data s)) 0); try lia; same.
    + apply M; cbn [registered blocked waking hot fast_failed]; try destruct (Z.eqb_spec (value_of (data s)) 0); try destruct (Z.eqb_spec (value_of d) 0); try lia;
        same.
  - destruct (Z.eqb_spec (value_of (data s)) 0); apply M; cbn [registered blocked waking hot fast_failed]; try lia; same.
  - apply M; cbn [registered blocked waking hot fast_failed]; try destruct (Z.eqb_spec (value_of (data s)) 0); try lia; same.
  - apply M; cbn [registered blocked waking hot fast_failed]; try lia; same.
  - apply M; cbn [registered blocked waking hot fast_failed]; try lia; same.
  - destruct (Z.eqb_spec (value_of d) 2147483647); [|destruct (cas_ok weak (data s) d) eqn:E; [apply C in E as ->|]].
    + apply M; cbn [registered blocked waking hot fast_failed]; try lia; same.
    + unfold SEM_NWAITERS_SHIFT in Hwt. rewrite Hwt. destruct (Z.ltb_spec 0 (total registered (pcs s))); apply M; cbn [registered blocked waking hot fast_failed]; try lia; same.
    + apply M; cbn [registered blocked waking hot fast_failed]; try lia; same.
Qed.

Lemma wake_inv64 s i ws l : inv s -> pcs s !! i = Some PostWake ->
  futex_wake unblock 1 ws (<[i := Done Success]> (pcs s)) = Some l ->
  inv {| data := data s; pcs := l; posted := posted s; taken := taken s |}.
Proof.
  intros [Hn Hd Ht Hw] Hi Ew. counts (pcs s) i PostWake Hi.
  pose proof (futex_wake_total unblock registered 0 1 ws _ _ ltac:(by intros [] ? ?; simplify_eq/=) Ew) as H1'.
  pose proof (futex_wake_total unblock blocked (-1) 1 ws _ _ ltac:(by intros [] ? ?; simplify_eq/=) Ew) as H2'.
  pose proof (futex_wake_total unblock waking 0 1 ws _ _ ltac:(by intros [] ? ?; simplify_eq/=) Ew) as H3'.
  pose proof (futex_wake_total unblock hot 1 1 ws _ _ ltac:(by intros [] ? ?; simplify_eq/=) Ew) as H4'.
  pose proof (futex_wake_length unblock _ _ _ _ Ew) as Hl. rewrite length_insert in Hl.
  rewrite blocked_total64 in *. rewrite !(total_insert _ _ _ _ _ Hi) in *. cbn [registered blocked waking hot] in *.
  unfold tokens in *. split; unfold tokens; simpl; lia.
Qed.

Lemma entry_idle64 c : registered (entry c) = 0 /\ blocked (entry c) = 0.
Proof. destruct c; simpl; repeat (destruct (negb _); simpl); done. Qed.

Lemma move_inv64 s i p c p' : inv s -> pcs s !! i = Some p -> move c p = Some p' -> inv (update s i (data s, p', 0, 0)).
Proof.
  intros HI Hi Hm.
  assert (Hp : registered p' = registered p /\ blocked p' = 0 /\ waking p = 0 /\ hot p = 0).
  { destruct p, c; simplify_eq/=; try done; [destruct (entry_idle64 c); done | by destruct e ..]. }
  destruct Hp as (Hr & Hb & H1 & H2).
  replace (data s) with (data s + (registered p' - registered p) * 2 ^ 32 + (0 - 0)) by lia.
  apply (inv_update64 s i p); [exact HI | exact Hi | pose proof (inv_tokens s HI); lia|].
  right. split; [exact Hb|]. right. pose proof (waking_nonneg64 p'). pose proof (hot_nonneg64 p'). lia.
Qed.

Lemma step_inv64 c i s s' : inv s -> step c i s = Some s' -> inv s'.
Proof.
  intros HI. unfold step. destruct (pcs s !! i) as [p|] eqn:Hi; [|done]. cbn [mbind option_bind].
  destruct c as [call| | |ws| |e|];
    try (destruct (move _ p) as [p'|] eqn:Em; [|done]; intros E; injection E as <-; by eapply move_inv64).
  - destruct (op false p (data s)) as [r|] eqn:Eo; [|done]. intros E. injection E as <-. by eapply op_inv64.
  - destruct (op true p (data s)) as [r|] eqn:Eo; [|done]. intros E. injection E as <-. by eapply op_inv64.
  - destruct p; try done. destruct (futex_wake unblock 1 ws _) as [l|] eqn:Ew; [|done]. intros E. injection E as <-.
    by eapply wake_inv64.
Qed.

Lemma init_inv64 v n s : 0 <= v -> Z.of_nat n < 2 ^ 31 -> new_sem_init v n = inr s -> inv s.
Proof.
  intros Hv Hn. unfold new_sem_init. destruct (Z.ltb_spec SEM_VALUE_MAX v); [done|]. intros E. injection E as <-.
  split; unfold tokens; simpl; rewrite ?total_replicate, ?length_replicate; simpl; lia.
Qed.

Lemma reach_inv64 v n s0 s : 0 <= v -> Z.of_nat n < 2 ^ 31 -> new_sem_init v n = inr s0 -> reachable step s0 s -> inv s.
Proof. intros Hv Hn H0. apply (reachable_inv step inv); [by eapply init_inv64 | apply step_inv64]. Qed.

(** ** Progress *)

(** A waiter in the slow path. *)
Definition waiting (p : pc) : Prop :=
  match p with SlowLoop _ | SlowWait | Blocked | SlowLoad => True | _ => False end.

(** Three steps of threads that are inside a call let a waiter take a token. *)
Definition takes_by (s : state) (sched : list (nat * sem_choice)) : Prop :=
  Forall (fun ic => match snd ic with Run | WakeChoice _ => True | _ => False end) sched /\ (length sched <= 3)%nat /\
  exists s' j p, run_schedule step sched s = Some s' /\ pcs s !! j = Some p /\ waiting p /\
    pcs s' !! j = Some (Done Success) /\ taken s' = taken s + 1.

Lemma run_op64 s j p r : pcs s !! j = Some p -> op false p (data s) = Some r -> step Run j s = Some (update s j r).
Proof. intros Hj Hr. unfold step. rewrite Hj. simpl. by rewrite Hr. Qed.

(** A waiter that has seen the current value takes a token. *)
Lemma loop_takes64 s j : value_of (data s) <> 0 -> pcs s !! j = Some (SlowLoop (data s)) ->
  exists s', step Run j s = Some s' /\ pcs s' !! j = Some (Done Success) /\ taken s' = taken s + 1.
Proof.
  intros Hv Hj. eexists. split; [by apply (run_op64 s j _ (new_sem_wait_slow64 false (data s) (data s)) Hj)|].
  simpl. unfold new_sem_wait_slow64. fold (value_of (data s)). apply Z.eqb_neq in Hv. rewrite Hv.
  unfold cas_ok. rewrite Z.eqb_refl. simpl. split; [|lia]. apply list_lookup_insert_eq. by eapply lookup_lt_Some.
Qed.

Lemma load_takes64 s j p : value_of (data s) <> 0 -> pcs s !! j = Some p ->
  op false p (data s) = Some (data s, SlowLoop (data s), 0, 0) ->
  exists s', run_schedule step [(j, Run); (j, Run)] s = Some s' /\ pcs s' !! j = Some (Done Success) /\ taken s' = taken s + 1.
Proof.
  intros Hv Hj Ho. cbn [run_schedule]. rewrite (run_op64 s j p _ Hj Ho).
  destruct (loop_takes64 (update s j (data s, SlowLoop (data s), 0, 0)) j) as (s' & -> & H1 & H2).
  - exact Hv.
  - simpl. apply list_lookup_insert_eq. by eapply lookup_lt_Some.
  - exists s'. split; [done|]. split; [done|]. simpl in H2. lia.
Qed.

Lemma hot_takes64 s j p : value_of (data s) <> 0 -> pcs s !! j = Some p -> 0 < hot p ->
  exists sched, takes_by s sched.
Proof.
  intros Hv Hj Hh. destruct p as [| |def d| |d| | | |r'| |d|]; simpl in Hh; try lia.
  - destruct (Z.eqb_spec (value_of d) 0); [lia|]. destruct (decide (d = data s)) as [-> | Hd].
    + destruct (loop_takes64 s j Hv Hj) as (s' & E & H1 & H2). exists [(j, Run)]. split; [by repeat constructor|].
      split; [simpl; lia|]. exists s', j, (SlowLoop (data s)). cbn. rewrite E. done.
    + destruct (load_takes64 s j _ Hv Hj) as (s' & E & H1 & H2).
      { simpl. unfold new_sem_wait_slow64. fold (value_of d). destruct (Z.eqb_spec (value_of d) 0); [done|].
        unfold cas_ok. destruct (Z.eqb_spec (data s) d); [congruence | done]. }
      exists [(j, Run); (j, Run)]. split; [by repeat constructor|]. split; [simpl; lia|]. by exists s', j, (SlowLoop d).
  - destruct (load_takes64 s j _ Hv Hj eq_refl) as (s' & E & H1 & H2).
    exists [(j, Run); (j, Run)]. split; [by repeat constructor|]. split; [simpl; lia|]. by exists s', j, SlowLoad.
Qed.

Lemma wake_takes64 s i j : value_of (data s) <> 0 -> pcs s !! i = Some PostWake -> pcs s !! j = Some Blocked ->
  exists sched, takes_by s sched.
Proof.
  intros Hv Hi Hj. assert (Hij : i <> j) by congruence.
  set (s1 := {| data := data s; pcs := <[j := SlowLoad]> (<[i := Done Success]> (pcs s)); posted := posted s; taken := taken s |}).
  assert (Hs1 : step (WakeChoice [j]) i s = Some s1).
  { unfold step. rewrite Hi. simpl. unfold futex_wake.
    assert (Hb : 0 < total (is_blocked unblock) (<[i := Done Success]> (pcs s))).
    { rewrite blocked_total64, (total_insert _ _ _ _ _ Hi). pose proof (total_lookup blocked _ _ _ blocked_nonneg64 Hj). simpl in *. lia. }
    destruct (Z.eqb_spec (Z.of_nat (length [j])) (Z.min 1 (total (is_blocked unblock) (<[i := Done Success]> (pcs s)))));
      [|simpl in *; lia].
    simpl. rewrite list_lookup_insert_ne, Hj by done. reflexivity. }
  destruct (load_takes64 s1 j SlowLoad) as (s' & E & H1 & H2); [exact Hv | | reflexivity|].
  { simpl. apply list_lookup_insert_eq. rewrite length_insert. by eapply lookup_lt_Some. }
  exists [(i, WakeChoice [j]); (j, Run); (j, Run)]. split; [by repeat constructor|]. split; [simpl; lia|].
  exists s', j, Blocked. split; [cbn [run_schedule]; rewrite Hs1; exact E|]. by split.
Qed.

Lemma blocked_progress64 s i : inv s -> 0 < tokens s -> pcs s !! i = Some Blocked -> exists sched, takes_by s sched.
Proof.
  intros HI Ht Hi. pose proof (value_data64 s HI) as Hv. pose proof (inv_wake s HI) as Hw.
  pose proof (total_lookup blocked _ _ _ blocked_nonneg64 Hi) as Hb. simpl in Hb. specialize (Hw ltac:(lia)).
  destruct (decide (0 < total hot (pcs s))) as [Hh|Hh].
  - destruct (total_pos hot _ hot_nonneg64 Hh) as (j & p & Hj & Hp). eapply hot_takes64; [lia | done | done].
  - destruct (total_pos waking (pcs s) waking_nonneg64) as (j & p & Hj & Hp); [lia|].
    destruct p; simpl in Hp; try lia. eapply wake_takes64; [lia | done | done].
Qed.
End Sem64.

Module Sem32.

Definition SEM_VALUE_SHIFT : Z := 1.
Definition SEM_NWAITERS_MASK : Z := 1.

Inductive pc :=
| Done (r : sem_result)
| FastLoad (definitive : bool)
| FastLoop (definitive : bool) (v : Z)
| SlowAdd                          (* register in nwaiters *)
| SlowLoad                         (* first load of value *)
| SlowBit (v : Z)                  (* make sure that the nwaiters bit is set *)
| SlowTest (v : Z)                 (* behind that: wait, or try to take a token *)
| SlowWait                         (* do_futex_wait *)
| Blocked
| SlowReload                       (* load of value behind it *)
| FinLoad (r : sem_result)         (* __sem_wait_32_finish: guess *)
| FinAnd (r : sem_result)          (* guessed 1: clear the bit *)
| FinDec (guessed : bool) (r : sem_result)
| FinOr (r : sem_result)           (* guessed wrong: set the bit again *)
| FinWake (v : Z) (r : sem_result) (* and wake *)
| PostLoad
| PostLoop (v : Z)
| PostWake.

Record state := { value : Z; nwaiters : Z; pcs : list pc; posted : Z; taken : Z }.

Definition new_sem_init (v : Z) (n : nat) : sem_errno + state :=
  if SEM_VALUE_MAX <? v then inl EINVAL
  else inr {| value := wrap 32 (Z.shiftl v SEM_VALUE_SHIFT); nwaiters := 0; pcs := replicate n (Done Success);
              posted := v; taken := 0 |}.

Definition new_sem_getvalue (s : state) : Z := Z.shiftr (value s) SEM_VALUE_SHIFT.

Definition entry (c : sem_call) : pc :=
  match c with
  | sem_wait => FastLoad false
  | sem_trywait => FastLoad true
  | sem_timedwait ns => if negb (valid_nanoseconds ns) then Done (Failure EINVAL) else FastLoad false
  | sem_clockwait clockid ns =>
      if negb (futex_abstimed_supported_clockid clockid) then Done (Failure EINVAL)
      else if negb (valid_nanoseconds ns) then Done (Failure EINVAL)
      else FastLoad false
  | sem_post => PostLoad
  end.

Definition cas_ok (weak : bool) (cur v : Z) : bool := negb weak && (cur =? v).

Definition fast_failed (definitive : bool) : pc := if definitive then Done (Failure EAGAIN) else SlowAdd.

(** The operations on [value]: its new contents, the thread, and the tokens
    added and removed. *)
Definition new_sem_wait_fast (weak definitive : bool) (cur v : Z) : Z * pc * Z * Z :=
  if Z.shiftr v SEM_VALUE_SHIFT =? 0 then (cur, fast_failed definitive, 0, 0)
  else if cas_ok weak cur v then (wrap 32 (v - 2 ^ SEM_VALUE_SHIFT), Done Success, 0, 1)
  else (cur, if definitive then FastLoop definitive cur else fast_failed definitive, 0, 0).

(** The innermost loop of the slow path. *)
Definition slow_set_bit (weak : bool) (cur v : Z) : Z * pc * Z * Z :=
  if negb (Z.land v SEM_NWAITERS_MASK =? 0) then (cur, SlowTest v, 0, 0)
  else if cas_ok weak cur v then (Z.lor v SEM_NWAITERS_MASK, SlowTest v, 0, 0)
  else (cur, SlowBit cur, 0, 0).

(** Behind it: without a token do_futex_wait, else the compare-and-exchange
    that takes one. *)
Definition slow_take (weak : bool) (cur v : Z) : Z * pc * Z * Z :=
  if Z.shiftr v SEM_VALUE_SHIFT =? 0 then (cur, SlowWait, 0, 0)
  else if cas_ok weak cur v then (wrap 32 (v - 2 ^ SEM_VALUE_SHIFT), FinLoad Success, 0, 1)
  else (cur, SlowBit cur, 0, 0).

Definition do_futex_wait (cur : Z) : pc := if cur =? SEM_NWAITERS_MASK then Blocked else SlowReload.

(** The test of the middle loop behind do_futex_wait. *)
Definition slow_reload (cur : Z) : pc :=
  if Z.shiftr cur SEM_VALUE_SHIFT =? 0 then SlowBit cur else SlowTest cur.

Definition futex_error (e : sem_errno) : pc :=
  match e with ETIMEDOUT | EINTR => FinLoad (Failure e) | _ => SlowReload end.

Definition new_sem_post (weak : bool) (cur v : Z) : Z * pc * Z * Z :=
  if Z.shiftr v SEM_VALUE_SHIFT =? SEM_VALUE_MAX then (cur, Done (Failure EOVERFLOW), 0, 0)
  else if cas_ok weak cur v then
    (wrap 32 (v + 2 ^ SEM_VALUE_SHIFT),
     if negb (Z.land v SEM_NWAITERS_MASK =? 0) then PostWake else Done Success, 1, 0)
  else (cur, PostLoop cur, 0, 0).

(** __sem_wait_32_finish: the new [value] and [nwaiters]. *)
Definition sem_wait_32_finish (p : pc) (cur nw : Z) : option (Z * Z * pc) :=
  match p with
  | FinLoad r => Some (cur, nw, if nw =? 1 then FinAnd r else FinDec false r)
  | FinAnd r => Some (Z.land cur (2 ^ 32 - 1 - SEM_NWAITERS_MASK), nw, FinDec true r)
  | FinDec guessed r => Some (cur, wrap 32 (nw - 1), if (1 <? nw) && guessed then FinOr r else Done r)
  | FinOr r =>
      let v := Z.shiftr cur SEM_VALUE_SHIFT in
      Some (Z.lor cur SEM_NWAITERS_MASK, nw, if 0 <? v then FinWake v r else Done r)
  | _ => None
  end.

Definition unblock (p : pc) : option pc := match p with Blocked => Some SlowReload | _ => None end.

(** The operations on [value]. *)
Definition op (weak : bool) (p : pc) (cur : Z) : option (Z * pc * Z * Z) :=
  match p with
  | FastLoad definitive => Some (cur, FastLoop definitive cur, 0, 0)
  | FastLoop definitive v => Some (new_sem_wait_fast weak definitive cur v)
  | SlowLoad => Some (cur, SlowBit cur, 0, 0)
  | SlowBit v => Some (slow_set_bit weak cur v)
  | SlowTest v => Some (slow_take weak cur v)
  | SlowWait => Some (cur, do_futex_wait cur, 0, 0)
  | SlowReload => Some (cur, slow_reload cur, 0, 0)
  | PostLoad => Some (cur, PostLoop cur, 0, 0)
  | PostLoop v => Some (new_sem_post weak cur v)
  | _ => None
  end.

(** Those that also change [nwaiters]. *)
Definition op_nwaiters (p : pc) (cur nw : Z) : option (Z * Z * pc) :=
  match p with
  | SlowAdd => Some (cur, wrap 32 (nw + 1), SlowLoad)
  | _ => sem_wait_32_finish p cur nw
  end.

Definition move (c : sem_choice) (p : pc) : option pc :=
  match p, c with
  | Done _, Call call => Some (entry call)
  | (SlowWait | Blocked), FutexReturn => Some SlowReload
  | (SlowWait | Blocked), FutexError e => Some (futex_error e)
  | (SlowWait | Blocked), CancelThread => Some (FinLoad Cancelled)
  | _, _ => None
  end.

Definition update (s : state) (i : nat) (r : Z * pc * Z * Z) : state :=
  let '(v, p, a, t) := r in
  {| value := v; nwaiters := nwaiters s; pcs := <[i := p]> (pcs s); posted := posted s + a; taken := taken s + t |}.

Definition update_nwaiters (s : state) (i : nat) (r : Z * Z * pc) : state :=
  let '(v, nw, p) := r in
  {| value := v; nwaiters := nw; pcs := <[i := p]> (pcs s); posted := posted s; taken := taken s |}.

(** How many the thread wakes, and where it goes on. *)
Definition wakes (p : pc) : option (Z * pc) :=
  match p with
  | PostWake => Some (1, Done Success)
  | FinWake v r => Some (v, Done r)
  | _ => None
  end.

Definition run (weak : bool) (i : nat) (p : pc) (s : state) : option state :=
  match op weak p (value s) with
  | Some r => Some (update s i r)
  | None => r ← op_nwaiters p (value s) (nwaiters s); Some (update_nwaiters s i r)
  end.

Definition step (c : sem_choice) (i : nat) (s : state) : option state :=
  p ← pcs s !! i;
  match c with
  | Run => run false i p s
  | Weak => run true i p s
  | WakeChoice ws =>
      '(n, p') ← wakes p;
      l ← futex_wake unblock n ws (<[i := p']> (pcs s));
      Some {| value := value s; nwaiters := nwaiters s; pcs := l; posted := posted s; taken := taken s |}
  | _ => p' ← move c p; Some (update s i (value s, p', 0, 0))
  end.

(** * Invariant *)

Definition tokens (s : state) : Z := posted s - taken s.

(** The value and the bit of a word. *)
Definition value_of (v : Z) : Z := Z.shiftr v SEM_VALUE_SHIFT.
Definition bit_of (v : Z) : Z := Z.land v SEM_NWAITERS_MASK.

Definition registered (p : pc) : Z :=
  match p with
  | SlowLoad | SlowBit _ | SlowTest _ | SlowWait | Blocked | SlowReload | FinLoad _ | FinAnd _ | FinDec _ _ => 1
  | _ => 0
  end.
Definition blocked (p : pc) : Z := match p with Blocked => 1 | _ => 0 end.
(** Threads that have cleared the bit and may have to set it again. *)
Definition fixer (p : pc) : Z := match p with FinDec true _ | FinOr _ => 1 | _ => 0 end.
(** How many a thread is about to wake. *)
Definition waking (p : pc) : Z := match p with PostWake => 1 | FinWake v _ => Z.max 0 v | _ => 0 end.
Definition hot (p : pc) : Z :=
  match p with
  | SlowLoad | SlowReload => 1
  | SlowBit v | SlowTest v => if value_of v =? 0 then 0 else 1
  | _ => 0
  end.

Record inv (s : state) : Prop := {
  inv_threads : Z.of_nat (length (pcs s)) < 2 ^ 31;
  inv_value : exists b, (b = 0 \/ b = 1) /\ value s = tokens s * 2 + b /\
    (0 < total blocked (pcs s) -> b = 1 \/ 0 < total fixer (pcs s));
  inv_nwaiters : nwaiters s = total registered (pcs s);
  inv_tokens : 0 <= tokens s <= SEM_VALUE_MAX;
  inv_wake : 0 < total blocked (pcs s) ->
    0 < total fixer (pcs s) \/ tokens s <= total waking (pcs s) + total hot (pcs s) }.

Lemma registered_nonneg32 p : 0 <= registered p. Proof. by destruct p. Qed.
Lemma blocked_nonneg32 p : 0 <= blocked p. Proof. by destruct p. Qed.
Lemma fixer_nonneg32 p : 0 <= fixer p. Proof. destruct p as [| | | | | | | | | | | |[] ?| | | | |]; simpl; lia. Qed.
Lemma waking_nonneg32 p : 0 <= waking p. Proof. destruct p; simpl; lia. Qed.
Lemma hot_nonneg32 p : 0 <= hot p. Proof. destruct p; simpl; try destruct (_ =? _); lia. Qed.
Lemma blocked_registered32 p : blocked p <= registered p. Proof. by destruct p. Qed.

Lemma unblock_once32 x y : unblock x = Some y -> unblock y = None.
Proof. destruct x; intros; by simplify_eq/=. Qed.

Lemma blocked_total32 l : total (is_blocked unblock) l = total blocked l.
Proof. apply total_ext. by intros []. Qed.

Lemma word_of t b : 0 <= t -> b = 0 \/ b = 1 -> value_of (t * 2 + b) = t /\ bit_of (t * 2 + b) = b.
Proof.
  intros Ht Hb. unfold value_of, bit_of, SEM_VALUE_SHIFT, SEM_NWAITERS_MASK.
  rewrite Z.shiftr_div_pow2 by lia. change 1 with (2 ^ 1 - 1) at 2. rewrite land_low_mask by lia. change (2 ^ 1) with 2.
  rewrite (Z.add_comm (t * 2)), Z_mod_plus_full, Z.div_add by lia.
  destruct Hb as [-> | ->]; split; reflexivity || (cbn; lia).
Qed.

Lemma set_bit t b : 0 <= t -> b = 0 \/ b = 1 -> Z.lor (t * 2 + b) SEM_NWAITERS_MASK = t * 2 + 1.
Proof.
  intros Ht Hb. unfold SEM_NWAITERS_MASK. pose proof (lor_add_low t 1 1 ltac:(lia) ltac:(lia)) as H1.
  change (2 ^ 1) with 2 in *. destruct Hb as [-> | ->].
  - by rewrite Z.add_0_r.
  - rewrite <- H1. by rewrite <- Z.lor_assoc.
Qed.

Lemma clear_bit t b : 0 <= t < 2 ^ 31 -> b = 0 \/ b = 1 -> Z.land (t * 2 + b) (2 ^ 32 - 1 - SEM_NWAITERS_MASK) = t * 2 + 0.
Proof.
  intros Ht Hb. unfold SEM_NWAITERS_MASK. replace (2 ^ 32 - 1 - 1) with ((2 ^ 31 - 1) * 2) by reflexivity.
  assert (E : Z.lor (t * 2) b = t * 2 + b) by (apply (lor_add_low t b 1); lia).
  rewrite <- E, Z.land_lor_distr_l, Z.add_0_r.
  change ((2 ^ 31 - 1) * 2) with (Z.shiftl (2 ^ 31 - 1) 1). replace (t * 2) with (Z.shiftl t 1) by (rewrite Z.shiftl_mul_pow2; lia).
  rewrite <- Z.shiftl_land, land_low_mask, Z.mod_small by lia.
  destruct Hb as [-> | ->]; cbn; by rewrite Z.lor_0_r.
Qed.

Ltac counts l i p Hi :=
  pose proof (total_nonneg registered l registered_nonneg32); pose proof (total_nonneg blocked l blocked_nonneg32);
  pose proof (total_nonneg waking l waking_nonneg32); pose proof (total_nonneg hot l hot_nonneg32);
  pose proof (total_nonneg fixer l fixer_nonneg32);
  pose proof (total_lookup registered l i p registered_nonneg32 Hi);
  pose proof (total_lookup blocked l i p blocked_nonneg32 Hi);
  pose proof (total_lookup waking l i p waking_nonneg32 Hi); pose proof (total_lookup hot l i p hot_nonneg32 Hi);
  pose proof (total_lookup fixer l i p fixer_nonneg32 Hi);
  pose proof (total_le blocked registered l blocked_registered32).

(** One thread moves from [p] to [p'], [a] tokens are added, [t] removed, and
    the bit goes from [b] to [b']. *)
Lemma inv_update32 s i p p' a t b b' v' nw' : inv s -> pcs s !! i = Some p ->
  (0 < total blocked (pcs s) -> b = 1 \/ 0 < total fixer (pcs s)) ->
  v' = (tokens s + a - t) * 2 + b' -> b' = 0 \/ b' = 1 -> nw' = nwaiters s + registered p' - registered p ->
  0 <= tokens s + a - t <= SEM_VALUE_MAX ->
  b' = 1 \/ 0 < fixer p' \/ total registered (pcs s) <= registered p /\ blocked p = 0 /\ blocked p' = 0 \/
    b' = b /\ fixer p <= fixer p' /\ blocked p' = 0 ->
  0 < fixer p' \/ tokens s + a - t <= waking p' + hot p' \/
    total registered (pcs s) <= registered p /\ blocked p = 0 /\ blocked p' = 0 \/
    blocked p' = 0 /\ fixer p <= fixer p' /\ (b = 0 \/ a - t + waking p + hot p <= waking p' + hot p') ->
  inv {| value := v'; nwaiters := nw'; pcs := <[i := p']> (pcs s); posted := posted s + a; taken := taken s + t |}.
Proof.
  intros [Hn _ Hnw Ht Hw] Hi Hbb -> Hb' -> Ht' Hbit Hwk. counts (pcs s) i p Hi.
  pose proof (waking_nonneg32 p'). pose proof (hot_nonneg32 p'). pose proof (blocked_nonneg32 p). pose proof (fixer_nonneg32 p').
  pose proof (total_le_lookup registered blocked (pcs s) i p blocked_registered32 Hi).
  unfold tokens in *. split; unfold tokens; simpl; rewrite ?length_insert, ?(total_insert _ _ _ _ _ Hi).
  - exact Hn.
  - exists b'. split; [exact Hb'|]. split; [lia|]. lia.
  - lia.
  - lia.
  - lia.
Qed.

Lemma total_length32 f (l : list pc) : (forall p, f p <= 1) -> total f l <= Z.of_nat (length l).
Proof.
  intros H. transitivity (total (fun _ => 1) l); [apply total_le; intros; apply H|].
  induction l as [|x l IH]; simpl; lia.
Qed.

Lemma registered_bound32 s : inv s -> total registered (pcs s) < 2 ^ 31.
Proof.
  intros [Hn _ _ _ _]. pose proof (total_length32 registered (pcs s)) as H.
  enough (forall p, registered p <= 1) by (specialize (H ltac:(assumption)); lia).
  intros []; simpl; lia.
Qed.

Lemma cas_eq32 weak cur v : cas_ok weak cur v = true -> v = cur.
Proof. unfold cas_ok. intros H. apply andb_true_iff in H as [_ H]. lia. Qed.

Ltac classes := cbn [registered blocked waking hot fixer fast_failed negb].

Lemma op_inv32 weak s i p r : inv s -> pcs s !! i = Some p -> op weak p (value s) = Some r -> inv (update s i r).
Proof.
  intros HI Hi Hop. destruct (inv_value s HI) as (b & Hb & Hv & Hbb). pose proof (inv_tokens s HI) as Ht.
  destruct (word_of (tokens s) b (proj1 Ht) Hb) as [Ev Eb]. rewrite <- Hv in Ev, Eb.
  assert (M : forall v' p' a t b', v' = (tokens s + a - t) * 2 + b' -> b' = 0 \/ b' = 1 -> registered p' = registered p ->
    0 <= tokens s + a - t <= SEM_VALUE_MAX ->
    b' = 1 \/ b' = b /\ fixer p <= fixer p' /\ blocked p' = 0 ->
    tokens s + a - t <= 0 \/
      blocked p' = 0 /\ fixer p <= fixer p' /\ (b = 0 \/ a - t + waking p + hot p <= waking p' + hot p') ->
    inv (update s i (v', p', a, t))).
  { intros v' p' a t b' E1 E2 E3 E4 E5 E6. pose proof (waking_nonneg32 p'). pose proof (hot_nonneg32 p').
    apply (inv_update32 s i p p' a t b b' v' (nwaiters s) HI Hi Hbb E1 E2); lia. }
  assert (K : forall p', registered p' = registered p -> fixer p <= fixer p' ->
    (b = 1 \/ blocked p' = 0) -> (tokens s = 0 \/ blocked p' = 0 /\ waking p + hot p <= waking p' + hot p') ->
    inv (update s i (value s, p', 0, 0))).
  { intros p' E1 E2 E3 E4. apply (M _ _ _ _ b); lia. }
  unfold SEM_VALUE_MAX in *.
  destruct p as [| |def v| | |v|v| | | | | | | | | |v|]; simpl in Hop; try discriminate Hop; injection Hop as <-;
    unfold new_sem_wait_fast, slow_set_bit, slow_take,
    do_futex_wait, slow_reload, new_sem_post; try fold (value_of v); try fold (bit_of v); try fold (value_of (value s)).
  - apply K; classes; auto with lia.
  - destruct (Z.eqb_spec (value_of v) 0); [|destruct (cas_ok weak (value s) v) eqn:E; [apply cas_eq32 in E as ->|]].
    + apply K; destruct def; classes; auto with lia.
    + apply (M _ _ _ _ b); classes; try lia. rewrite Hv, wrap_small; unfold SEM_VALUE_SHIFT; lia.
    + apply K; destruct def; classes; auto with lia.
  - apply K; classes; try destruct (Z.eqb_spec (value_of (value s)) 0); auto with lia.
  - destruct (Z.eqb_spec (bit_of v) 0) as [Ez|Ez]; classes; [destruct (cas_ok weak (value s) v) eqn:E; [apply cas_eq32 in E as ->|]|].
    + apply (M _ _ _ _ 1); classes; try lia. rewrite Hv, set_bit by lia. lia.
    + apply K; classes; try destruct (Z.eqb_spec (value_of (value s)) 0); try destruct (Z.eqb_spec (value_of v) 0); auto with lia.
    + apply K; classes; auto with lia.
  - destruct (Z.eqb_spec (value_of v) 0) as [Ez|Ez]; [|destruct (cas_ok weak (value s) v) eqn:E; [apply cas_eq32 in E as ->|]].
    + apply K; classes; rewrite ?Ez; cbn [Z.eqb]; auto with lia.
    + apply (M _ _ _ _ b); classes; try (destruct (Z.eqb_spec (value_of (value s)) 0)); try lia. rewrite Hv, wrap_small; unfold SEM_VALUE_SHIFT; lia.
    + apply K; classes; try destruct (Z.eqb_spec (value_of (value s)) 0); try destruct (Z.eqb_spec (value_of v) 0); auto with lia.
  - unfold SEM_NWAITERS_MASK. destruct (Z.eqb_spec (value s) 1); apply K; classes; auto with lia.
  - destruct (Z.eqb_spec (value_of (value s)) 0) as [Ez|Ez]; apply K; classes; try destruct (Z.eqb_spec (value_of (value s)) 0); auto with lia.
  - apply K; classes; auto with lia.
  - unfold SEM_VALUE_MAX. destruct (Z.eqb_spec (value_of v) 2147483647); [|destruct (cas_ok weak (value s) v) eqn:E; [apply cas_eq32 in E as ->|]].
    + apply K; classes; auto with lia.
    + rewrite Eb. destruct (Z.eqb_spec b 0); apply (M _ _ _ _ b); classes; try lia; rewrite Hv, wrap_small; unfold SEM_VALUE_SHIFT; lia.
    + apply K; classes; auto with lia.
Qed.

Lemma op_nwaiters_inv32 s i p r : inv s -> pcs s !! i = Some p -> op_nwaiters p (value s) (nwaiters s) = Some r ->
  inv (update_nwaiters s i r).
Proof.
  intros HI Hi Hop. destruct (inv_value s HI) as (b & Hb & Hv & Hbb). pose proof (inv_tokens s HI) as Ht.
  destruct (word_of (tokens s) b (proj1 Ht) Hb) as [Ev Eb]. rewrite <- Hv in Ev, Eb.
  pose proof (inv_nwaiters s HI) as Hnw. pose proof (registered_bound32 s HI) as Hrb.
  pose proof (total_lookup registered _ _ _ registered_nonneg32 Hi) as Hr.
  pose proof (total_nonneg registered (pcs s) registered_nonneg32) as Hr0.
  assert (U : forall v' nw' p', update_nwaiters s i (v', nw', p') =
    {| value := v'; nwaiters := nw'; pcs := <[i := p']> (pcs s); posted := posted s + 0; taken := taken s + 0 |}).
  { intros. unfold update_nwaiters. by rewrite !Z.add_0_r. }
  pose proof (fun p' b' v' nw' => inv_update32 s i p p' 0 0 b b' v' nw' HI Hi Hbb) as M. unfold SEM_VALUE_MAX in *.
  destruct p as [| | | | | | | | | |r0|r0|g r0|r0| | | |]; simpl in Hop; try discriminate Hop; injection Hop as <-; rewrite U.
  - apply (M _ b); classes; try lia. rewrite wrap_small; lia.
  - destruct (Z.eqb_spec (nwaiters s) 1); apply (M _ b); classes; lia.
  - apply (M _ 0); classes; try lia. rewrite Hv, clear_bit; lia.
  - simpl in Hr. assert (wrap 32 (nwaiters s - 1) = nwaiters s - 1) as -> by (apply wrap_small; lia).
    destruct (Z.ltb_spec 1 (nwaiters s)), g; cbn [andb]; apply (M _ b); classes; lia.
  - fold (value_of (value s)). rewrite Ev. destruct (Z.ltb_spec 0 (tokens s)); apply (M _ 1); classes; try lia;
      rewrite Hv, set_bit by lia; lia.
Qed.

Lemma wake_inv32 s i p n p' ws l : inv s -> pcs s !! i = Some p -> wakes p = Some (n, p') ->
  futex_wake unblock n ws (<[i := p']> (pcs s)) = Some l ->
  inv {| value := value s; nwaiters := nwaiters s; pcs := l; posted := posted s; taken := taken s |}.
Proof.
  intros [Hn (b & Hb & Hv & Hbb) Hnw Ht Hw] Hi Hwk Ew. counts (pcs s) i p Hi.
  assert (Hp : registered p = 0 /\ blocked p = 0 /\ fixer p = 0 /\ hot p = 0 /\ waking p = Z.max 0 n /\
    registered p' = 0 /\ blocked p' = 0 /\ fixer p' = 0 /\ hot p' = 0 /\ waking p' = 0).
  { destruct p; simpl in Hwk; try discriminate Hwk; injection Hwk as <- <-; simpl; repeat split; lia. }
  destruct Hp as (R & Bk & F & H' & W & R' & Bk' & F' & H'' & W').
  pose proof (futex_wake_total unblock registered 0 n ws _ _ ltac:(by intros [] ? ?; simplify_eq/=) Ew) as H1'.
  pose proof (futex_wake_total unblock blocked (-1) n ws _ _ ltac:(by intros [] ? ?; simplify_eq/=) Ew) as H2'.
  pose proof (futex_wake_total unblock waking 0 n ws _ _ ltac:(by intros [] ? ?; simplify_eq/=) Ew) as H3'.
  pose proof (futex_wake_total unblock hot 1 n ws _ _ ltac:(by intros [] ? ?; simplify_eq/=) Ew) as H4'.
  pose proof (futex_wake_total unblock fixer 0 n ws _ _ ltac:(by intros [] ? ?; simplify_eq/=) Ew) as H5'.
  pose proof (futex_wake_length unblock _ _ _ _ Ew) as Hl. rewrite length_insert in Hl.
  rewrite blocked_total32 in *. rewrite !(total_insert _ _ _ _ _ Hi) in *.
  assert (Hpos : 0 <= n \/ n < 0) by lia. unfold tokens in *.
  assert (Hnn : 0 <= Z.min n (total blocked (pcs s) - blocked p + blocked p')).
  { unfold futex_wake in Ew. rewrite blocked_total32, (total_insert _ _ _ _ _ Hi) in Ew.
    destruct (Z.eqb_spec (Z.of_nat (length ws)) (Z.min n (total blocked (pcs s) - blocked p + blocked p'))); [lia | done]. }
  split; unfold tokens; simpl; [lia | exists b; split; [exact Hb|]; split; [exact Hv | lia] | lia | lia | lia].
Qed.

Lemma entry_idle32 c : registered (entry c) = 0 /\ blocked (entry c) = 0.
Proof. destruct c; simpl; repeat (destruct (negb _); simpl); done. Qed.

Lemma move_inv32 s i p c p' : inv s -> pcs s !! i = Some p -> move c p = Some p' -> inv (update s i (value s, p', 0, 0)).
Proof.
  intros HI Hi Hm.
  assert (Hp : registered p' = registered p /\ blocked p' = 0 /\ waking p = 0 /\ hot p = 0 /\ fixer p = 0).
  { destruct p, c; simplify_eq/=; try done; [destruct (entry_idle32 c); done | by destruct e ..]. }
  destruct Hp as (Hr & Hb & H1 & H2 & H3). destruct (inv_value s HI) as (b & Hb' & Hv & Hbb). pose proof (inv_tokens s HI) as Ht.
  pose proof (waking_nonneg32 p'). pose proof (hot_nonneg32 p'). pose proof (fixer_nonneg32 p').
  unfold update. apply (inv_update32 s i p p' 0 0 b b); auto; lia.
Qed.

Lemma step_inv32 c i s s' : inv s -> step c i s = Some s' -> inv s'.
Proof.
  intros HI. unfold step. destruct (pcs s !! i) as [p|] eqn:Hi; [|done]. cbn [mbind option_bind].
  assert (Hrun : forall w, run w i p s = Some s' -> inv s').
  { intros w. unfold run. destruct (op w p (value s)) as [r|] eqn:Eo; [intros [= <-]; by eapply op_inv32|].
    destruct (op_nwaiters p _ _) as [r|] eqn:En; [|done]. intros [= <-]. by eapply op_nwaiters_inv32. }
  destruct c as [call| | |ws| |e|]; try (by apply Hrun);
    try (destruct (move _ p) as [p'|] eqn:Em; [|done]; intros [= <-]; by eapply move_inv32).
  destruct (wakes p) as [[n p']|] eqn:Ew; [|done]. simpl.
  destruct (futex_wake unblock n ws _) as [l|] eqn:El; [|done]. intros [= <-]. by eapply wake_inv32.
Qed.

Lemma init_inv32 v n s : 0 <= v -> Z.of_nat n < 2 ^ 31 -> new_sem_init v n = inr s -> inv s.
Proof.
  intros Hv Hn. unfold new_sem_init. destruct (Z.ltb_spec SEM_VALUE_MAX v); [done|]. intros [= <-].
  unfold SEM_VALUE_MAX, SEM_VALUE_SHIFT in *.
  split; unfold tokens; simpl; rewrite ?total_replicate, ?length_replicate; simpl; unfold SEM_VALUE_MAX; try lia.
  exists 0. split; [auto|]. split; [|lia]. rewrite Z.shiftl_mul_pow2, wrap_small by lia. lia.
Qed.

Lemma reach_inv32 v n s0 s : 0 <= v -> Z.of_nat n < 2 ^ 31 -> new_sem_init v n = inr s0 -> reachable step s0 s -> inv s.
Proof. intros Hv Hn H0. apply (reachable_inv step inv); [by eapply init_inv32 | apply step_inv32]. Qed.
End Sem32.

(** * The claims *)

(** A thread that is outside or asleep. *)
Definition resting64 (p : Sem64.pc) : Prop := match p with Sem64.Done _ | Sem64.Blocked => True | _ => False end.
Definition resting32 (p : Sem32.pc) : Prop := match p with Sem32.Done _ | Sem32.Blocked => True | _ => False end.

(** C21: the 64-bit semaphore under every interleaving of sem_wait, sem_trywait,
    sem_timedwait, sem_clockwait and sem_post by fewer than 2^31 threads, with
    spurious failures, time-outs, signals and cancellation: the two halves of
    the word are at every moment exactly the tokens, which are those posted less
    those taken, never negative and never above SEM_VALUE_MAX, and the
    registered waiters; and no wake-up is lost: while a thread is blocked and
    there is a token, at most three steps of threads already inside a call let
    a waiter take one, so that in a state where every thread is outside or
    blocked, a blocked thread means that there is no token. *)
Theorem sem64_correct v n s0 s : 0 <= v -> Z.of_nat n < 2 ^ 31 -> Sem64.new_sem_init v n = inr s0 ->
  reachable Sem64.step s0 s ->
  Sem64.new_sem_getvalue s = Sem64.posted s - Sem64.taken s /\ 0 <= Sem64.posted s - Sem64.taken s <= SEM_VALUE_MAX /\
  Z.shiftr (Sem64.data s) Sem64.SEM_NWAITERS_SHIFT = total Sem64.registered (Sem64.pcs s) /\
  (Sem64.Blocked ∈ Sem64.pcs s -> 0 < Sem64.new_sem_getvalue s -> exists sched, Sem64.takes_by s sched) /\
  (Sem64.Blocked ∈ Sem64.pcs s -> Forall resting64 (Sem64.pcs s) -> Sem64.new_sem_getvalue s = 0).
Proof.
  intros Hv Hn H0 Hr. pose proof (Sem64.reach_inv64 v n s0 s Hv Hn H0 Hr) as HI.
  pose proof (Sem64.value_data64 s HI) as E. change (Sem64.value_of (Sem64.data s)) with (Sem64.new_sem_getvalue s) in E. fold (Sem64.tokens s).
  pose proof (Sem64.inv_tokens s HI). split; [exact E|]. split; [done|]. split; [by apply Sem64.waiters_data64|]. split.
  - intros (i & Hi)%list_elem_of_lookup_1 Hp. eapply Sem64.blocked_progress64; [exact HI | lia | exact Hi].
  - intros (i & Hi)%list_elem_of_lookup_1 Hrest. rewrite Forall_lookup in Hrest.
    pose proof (total_lookup Sem64.blocked _ _ _ Sem64.blocked_nonneg64 Hi) as Hb. simpl in Hb.
    pose proof (Sem64.inv_wake s HI ltac:(lia)) as Hw.
    rewrite (total_zero Sem64.waking), (total_zero Sem64.hot) in Hw by (intros j p Hj; specialize (Hrest j p Hj); by destruct p).
    lia.
Qed.

(** Thread 1 blocks, thread 0 posts and is about to wake. *)
Definition example_sem64 : option Sem64.state :=
  match Sem64.new_sem_init 0 2 with
  | inr s => run_schedule Sem64.step [(1, Call sem_wait); (1, Run); (1, Run); (1, Run); (1, Run); (1, Run);
      (0, Call sem_post); (0, Run); (0, Run)]%nat s
  | inl _ => None
  end.

Lemma sem64_correct_witness : exists s, example_sem64 = Some s /\ Sem64.pcs s = [Sem64.PostWake; Sem64.Blocked] /\
  Sem64.new_sem_getvalue s = 1 /\ exists sched, Sem64.takes_by s sched.
Proof.
  destruct example_sem64 as [s|] eqn:E; [|discriminate]. exists s. split; [reflexivity|].
  assert (Hs : s = Sem64.Build_state 4294967297 [Sem64.PostWake; Sem64.Blocked] 1 0) by (vm_compute in E; congruence).
  split; [by rewrite Hs|]. split; [by rewrite Hs|].
  apply (sem64_correct 0 2 (Sem64.Build_state 0 [Sem64.Done Success; Sem64.Done Success] 0 0) s).
  - lia.
  - lia.
  - reflexivity.
  - exact (run_schedule_reachable _ _ _ _ E).
  - rewrite Hs. apply list_elem_of_further, list_elem_of_here.
  - by rewrite Hs.
Defined.

(** the 32-bit semaphore, whose waiter bit is cleared speculatively by the
    last waiter and set again when the guess was wrong, under the same
    interleavings: the value word holds the tokens posted less those taken,
    within 0 and SEM_VALUE_MAX, nwaiters counts the registered waiters; while a
    thread is blocked either the bit is set, so that sem_post wakes, or a thread
    is on its way to set it again and wake; and in a state where every thread is
    outside or blocked, a blocked thread means that there is no token and the
    bit is set. *)
Lemma sem32_correct v n s0 s : 0 <= v -> Z.of_nat n < 2 ^ 31 -> Sem32.new_sem_init v n = inr s0 ->
  reachable Sem32.step s0 s ->
  Sem32.new_sem_getvalue s = Sem32.posted s - Sem32.taken s /\ 0 <= Sem32.posted s - Sem32.taken s <= SEM_VALUE_MAX /\
  Sem32.nwaiters s = total Sem32.registered (Sem32.pcs s) /\
  (Sem32.Blocked ∈ Sem32.pcs s -> Sem32.bit_of (Sem32.value s) = 1 \/ exists p, p ∈ Sem32.pcs s /\ Sem32.fixer p = 1) /\
  (Sem32.Blocked ∈ Sem32.pcs s -> Forall resting32 (Sem32.pcs s) ->
   Sem32.new_sem_getvalue s = 0 /\ Sem32.bit_of (Sem32.value s) = 1).
Proof.
  intros Hv Hn H0 Hr. pose proof (Sem32.reach_inv32 v n s0 s Hv Hn H0 Hr) as HI.
  destruct (Sem32.inv_value s HI) as (b & Hb & Ev & Hbb). pose proof (Sem32.inv_tokens s HI) as Ht.
  destruct (Sem32.word_of (Sem32.tokens s) b ltac:(lia) Hb) as [E1 E2]. rewrite <- Ev in E1, E2.
  fold (Sem32.tokens s). change (Sem32.new_sem_getvalue s) with (Sem32.value_of (Sem32.value s)). rewrite E1, E2.
  split; [done|]. split; [done|]. split; [apply (Sem32.inv_nwaiters s HI)|].
  assert (Hbl : forall i, Sem32.pcs s !! i = Some Sem32.Blocked -> 0 < total Sem32.blocked (Sem32.pcs s)).
  { intros i Hi. pose proof (total_lookup Sem32.blocked _ _ _ Sem32.blocked_nonneg32 Hi) as H. simpl in H. lia. }
  split.
  - intros (i & Hi)%list_elem_of_lookup_1. destruct (Hbb (Hbl i Hi)) as [H|H]; [by left | right].
    destruct (total_pos _ _ Sem32.fixer_nonneg32 H) as (j & p & Hj & Hp). exists p. split; [by eapply list_elem_of_lookup_2|].
    destruct p as [| | | | | | | | | | | |[] ?| | | | |]; simpl in Hp |- *; lia.
  - intros (i & Hi)%list_elem_of_lookup_1 Hrest. rewrite Forall_lookup in Hrest. specialize (Hbl i Hi).
    assert (Hz : forall f, (forall p, resting32 p -> f p = 0) -> total f (Sem32.pcs s) = 0).
    { intros f Hf. apply total_zero. intros j p Hj. apply Hf, (Hrest j p Hj). }
    pose proof (Sem32.inv_wake s HI Hbl) as Hw. specialize (Hbb Hbl).
    rewrite (Hz Sem32.fixer), (Hz Sem32.waking), (Hz Sem32.hot) in Hw by (by intros []).
    rewrite (Hz Sem32.fixer) in Hbb by (by intros []). split; lia.
Qed.

(** Thread 1 blocks again after a cancelled waiter has left. *)
Definition sem32_start : Sem32.state := Sem32.Build_state 0 0 [Sem32.Done Success; Sem32.Done Success] 0 0.
Definition example_schedule32 : list (nat * sem_choice) :=
  ([(0, Call sem_wait); (0, Run); (0, Run); (0, Run); (0, Run); (0, Run); (0, Run); (0, Run); (0, CancelThread); (0, Run);
    (1, Call sem_wait); (1, Run); (1, Run); (1, Run); (1, Run); (1, Run); (1, Run); (1, Run);
    (0, Run); (0, Run); (0, Run)]%nat).
Definition sem32_end : Sem32.state := Sem32.Build_state 1 1 [Sem32.Done Cancelled; Sem32.Blocked] 0 0.

Lemma example_sem32 : run_schedule Sem32.step example_schedule32 sem32_start = Some sem32_end.
Proof. vm_compute. reflexivity. Qed.

Lemma sem32_correct_witness : Sem32.new_sem_getvalue sem32_end = 0 /\ Sem32.bit_of (Sem32.value sem32_end) = 1.
Proof.
  apply (sem32_correct 0 2 sem32_start sem32_end).
  - lia.
  - lia.
  - vm_compute. reflexivity.
  - exact (run_schedule_reachable Sem32.step example_schedule32 sem32_start sem32_end example_sem32).
  - apply list_elem_of_further, list_elem_of_here.
  - repeat constructor.
Defined.
