(* ===== verification/Barrier.v ===== *)
(** * Barriers (nptl/pthread_barrier_wait.c, pthread_barrier_init.c)

    A barrier has a counter of the threads that entered, one of those that
    left, and the position up to which rounds are complete.  Before [in]
    overflows the barrier resets itself: threads that enter beyond
    [max_in_before_reset] wait until the last thread that entered before it has
    reset the counters.  The two futex words are [current_round] and [in].
    [gone] is history: the positions of the threads that have left since the
    last reset; [logged_step] also records what the calls return. *)

From Stdlib Require Import ZArith Znumtheory.
From stdpp Require Import base list.
From S2P Require Import Prelude Threads.
#[local] Open Scope Z_scope.

Definition UINT_MAX : Z := 2 ^ 32 - 1.
Definition INT_MAX : Z := 2 ^ 31 - 1.
Definition BARRIER_IN_THRESHOLD : Z := UINT_MAX / 2.

Inductive barrier_pc :=
| Out (serial : option bool)           (* outside, with the last result *)
| Enter                                (* reset_restart: increment in *)
| ResetWait (i : Z)                    (* about to wait for a reset *)
| ResetBlocked                         (* futex_wait on in *)
| ResetLoad                            (* load in again *)
| LoadRound (i : Z)                    (* load current_round *)
| Finish (i cr : Z)                    (* while (cr + count <= i) *)
| FinishWake (i cr : Z)                (* futex_wake on current_round *)
| WaitRound (i cr : Z)                 (* while (i > cr) *)
| RoundBlocked (i cr : Z)              (* futex_wait on current_round *)
| RoundLoad (i : Z)                    (* load current_round again *)
| Leave (i : Z)                        (* ready_to_leave: increment out *)
| ResetRound (i : Z)                   (* the reset: store current_round *)
| ResetOut (i : Z)                     (* store out *)
| ResetIn (i : Z)                      (* store in *)
| ResetWake (i : Z).                   (* futex_wake on in *)

Record barrier := { b_in : Z; b_current_round : Z; b_out : Z }.

Inductive barrier_choice :=
| CallWait
| Run
| Weak                          (* the compare-and-exchange fails spuriously *)
| WakeChoice (ws : list nat)
| FutexReturn.                  (* futex_wait returns on its own *)

(** EINVAL is [None]. *)
Definition pthread_barrier_init (count : Z) : option barrier :=
  if (count =? 0) || (BARRIER_IN_THRESHOLD <=? count) then None
  else Some {| b_in := 0; b_current_round := 0; b_out := 0 |}.

Section Barrier.
Context (count : Z).

Definition max_in_before_reset : Z := BARRIER_IN_THRESHOLD - BARRIER_IN_THRESHOLD mod count.

(** Return a special value for exactly one thread per round. *)
Definition barrier_return (i : Z) : barrier_pc := Out (Some (i mod count =? 0)).

(** One atomic operation of pthread_barrier_wait: the barrier and where the
    thread continues. *)
Definition pthread_barrier_wait (weak : bool) (p : barrier_pc) (b : barrier) : option (barrier * barrier_pc) :=
  let 'Build_barrier b_in cur b_out := b in
  match p with
  | Enter =>
      let i := wrap 32 (b_in + 1) in
      Some (Build_barrier i cur b_out, if max_in_before_reset <? i then ResetWait i else LoadRound i)
  | ResetWait i => Some (b, if b_in =? i then ResetBlocked else ResetLoad)
  | ResetLoad => Some (b, if max_in_before_reset <? b_in then ResetWait b_in else Enter)
  | LoadRound i => Some (b, Finish i cur)
  | Finish i cr =>
      if wrap 32 (cr + count) <=? i then
        let newcr := i - i mod count in
        if negb weak && (cur =? cr) then Some (Build_barrier b_in newcr b_out, FinishWake i newcr)
        else Some (b, Finish i cur)
      else Some (b, if cr <? i then WaitRound i cr else Leave i)
  | WaitRound i cr => Some (b, if cur =? cr then RoundBlocked i cr else RoundLoad i)
  | RoundLoad i => Some (b, if cur <? i then WaitRound i cur else Leave i)
  | Leave i =>
      let o := wrap 32 (b_out + 1) in
      Some (Build_barrier b_in cur o, if o =? max_in_before_reset then ResetRound i else barrier_return i)
  | ResetRound i => Some (Build_barrier b_in 0 b_out, ResetOut i)
  | ResetOut i => Some (Build_barrier b_in cur 0, ResetIn i)
  | ResetIn i => Some (Build_barrier 0 cur b_out, ResetWake i)
  | _ => None
  end.

(** Threads blocked on the two futex words. *)
Definition unblock_round (p : barrier_pc) : option barrier_pc :=
  match p with RoundBlocked i _ => Some (RoundLoad i) | _ => None end.
Definition unblock_in (p : barrier_pc) : option barrier_pc :=
  match p with ResetBlocked => Some ResetLoad | _ => None end.

Definition barrier_wake (p : barrier_pc) : option ((barrier_pc -> option barrier_pc) * barrier_pc) :=
  match p with
  | FinishWake i cr => Some (unblock_round, if i <=? cr then Leave i else WaitRound i cr)
  | ResetWake i => Some (unblock_in, barrier_return i)
  | _ => None
  end.

Definition barrier_move (c : barrier_choice) (p : barrier_pc) : option barrier_pc :=
  match p, c with
  | Out _, CallWait => Some Enter
  | RoundBlocked i _, FutexReturn => Some (RoundLoad i)
  | ResetBlocked, FutexReturn => Some ResetLoad
  | _, _ => None
  end.

Record state := { bar : barrier; pcs : list barrier_pc; gone : list Z }.

(** The history of a step. *)
Definition history (p : barrier_pc) (g : list Z) : list Z :=
  match p with Leave i => i :: g | ResetIn _ => [] | _ => g end.

Definition barrier_step (c : barrier_choice) (k : nat) (s : state) : option state :=
  p ← pcs s !! k;
  match c with
  | Run | Weak =>
      '(b, p') ← pthread_barrier_wait (match c with Weak => true | _ => false end) p (bar s);
      Some {| bar := b; pcs := <[k := p']> (pcs s); gone := history p (gone s) |}
  | WakeChoice ws =>
      '(u, p') ← barrier_wake p;
      l ← futex_wake u INT_MAX ws (<[k := p']> (pcs s));
      Some {| bar := bar s; pcs := l; gone := gone s |}
  | _ => p' ← barrier_move c p; Some {| bar := bar s; pcs := <[k := p']> (pcs s); gone := gone s |}
  end.

Definition barrier_start (b : barrier) (n : nat) : state := {| bar := b; pcs := replicate n (Out None); gone := [] |}.

(** * Invariant *)

#[local] Abbreviation M := max_in_before_reset.

(** The end of the last complete round among [x] threads. *)
Definition top (x : Z) : Z := x - x mod count.

(** The position of a thread between entering and leaving. *)
Definition position (p : barrier_pc) : option Z :=
  match p with
  | LoadRound i | Finish i _ | FinishWake i _ | WaitRound i _ | RoundBlocked i _ | RoundLoad i | Leave i => Some i
  | _ => None
  end.

Definition inside (p : barrier_pc) : Z := match position p with Some _ => 1 | None => 0 end.
Definition at_position (k : Z) (p : barrier_pc) : Z :=
  match position p with Some i => if i =? k then 1 else 0 | None => 0 end.
(** Threads that will look at IN again, or have to wait for a reset. *)
Definition beyond (p : barrier_pc) : Z := match p with ResetWait _ | ResetBlocked | ResetLoad => 1 | _ => 0 end.
Definition in_blocked (p : barrier_pc) : Z := match p with ResetBlocked => 1 | _ => 0 end.
Definition in_waking (p : barrier_pc) : Z := match p with ResetWake _ => 1 | _ => 0 end.
Definition resetting (p : barrier_pc) : Z := match p with ResetRound _ | ResetOut _ | ResetIn _ => 1 | _ => 0 end.
(** Blocked although the round has moved on. *)
Definition stale (cur : Z) (p : barrier_pc) : Z :=
  match p with RoundBlocked _ cr => if cr =? cur then 0 else 1 | _ => 0 end.
Definition round_waking (p : barrier_pc) : Z := match p with FinishWake _ _ => 1 | _ => 0 end.
(** Threads that will complete the rounds up to [t]. *)
Definition helper (t : Z) (p : barrier_pc) : Z :=
  match p with LoadRound i | Finish i _ => if t <=? i then 1 else 0 | _ => 0 end.

(** What a thread knows. *)
Definition good (cur : Z) (p : barrier_pc) : Prop :=
  match p with
  | Finish i cr => 0 <= cr <= cur /\ (count | cr)
  | FinishWake i cr => 0 <= cr <= cur /\ cr = top i
  | WaitRound i cr | RoundBlocked i cr => 0 <= cr <= cur /\ cr < i
  | Leave i => i <= cur
  | ResetWait i => M < i
  | _ => True
  end.

Record binv (s : state) : Prop := {
  bi_threads : Z.of_nat (length (pcs s)) < INT_MAX;
  bi_in : 0 <= b_in (bar s) /\ b_in (bar s) - M <= Z.max 0 (total beyond (pcs s));
  bi_inside : total resetting (pcs s) = 0 -> total inside (pcs s) = Z.min (b_in (bar s)) M - b_out (bar s);
  bi_out : total resetting (pcs s) = 0 -> b_out (bar s) = Z.of_nat (length (gone s));
  bi_position : forall k, total (at_position k) (pcs s) + Z.of_nat (count_occ Z.eq_dec (gone s) k) =
    if (1 <=? k) && (k <=? Z.min (b_in (bar s)) M) then 1 else 0;
  bi_round : (count | b_current_round (bar s)) /\ 0 <= b_current_round (bar s) <= Z.min (b_in (bar s)) M;
  bi_good : forall j p, pcs s !! j = Some p -> good (b_current_round (bar s)) p;
  bi_reset : total resetting (pcs s) <= 1 /\ (0 < total resetting (pcs s) ->
     total inside (pcs s) = 0 /\ M <= b_in (bar s)) ;
  bi_reset_step : forall j i, (pcs s !! j = Some (ResetOut i) -> b_current_round (bar s) = 0) /\
    (pcs s !! j = Some (ResetIn i) -> b_current_round (bar s) = 0 /\ b_out (bar s) = 0);
  bi_full : b_out (bar s) = M -> total resetting (pcs s) = 1;
  bi_stale : 0 < total (stale (b_current_round (bar s))) (pcs s) -> 0 < total round_waking (pcs s);
  bi_help : total resetting (pcs s) = 0 -> b_current_round (bar s) < top (Z.min (b_in (bar s)) M) ->
    0 < total (helper (top (Z.min (b_in (bar s)) M))) (pcs s);
  bi_in_wake : 0 < total in_blocked (pcs s) -> M < b_in (bar s) \/ 0 < total in_waking (pcs s) }.

Lemma position_nonneg f : (forall p, 0 <= f p) -> forall l : list barrier_pc, 0 <= total f l.
Proof. intros H l. by apply total_nonneg. Qed.

Lemma inside_nonneg p : 0 <= inside p. Proof. unfold inside. destruct (position p); lia. Qed.
Lemma at_position_nonneg k p : 0 <= at_position k p.
Proof. unfold at_position. destruct (position p); [destruct (_ =? _)|]; lia. Qed.
Lemma beyond_nonneg p : 0 <= beyond p. Proof. by destruct p. Qed.
Lemma in_blocked_nonneg p : 0 <= in_blocked p. Proof. by destruct p. Qed.
Lemma in_waking_nonneg p : 0 <= in_waking p. Proof. by destruct p. Qed.
Lemma resetting_nonneg p : 0 <= resetting p. Proof. by destruct p. Qed.
Lemma stale_nonneg cur p : 0 <= stale cur p. Proof. destruct p; simpl; try destruct (_ =? _); lia. Qed.
Lemma round_waking_nonneg p : 0 <= round_waking p. Proof. by destruct p. Qed.
Lemma helper_nonneg t p : 0 <= helper t p. Proof. destruct p; simpl; try destruct (_ <=? _); lia. Qed.
#[local] Hint Resolve inside_nonneg at_position_nonneg beyond_nonneg in_blocked_nonneg in_waking_nonneg resetting_nonneg
  stale_nonneg round_waking_nonneg helper_nonneg : core.

Hypothesis Hcount : 1 <= count < BARRIER_IN_THRESHOLD.

(** ** Rounds *)

Lemma top_spec x : (count | top x) /\ top x <= x < top x + count.
Proof using Hcount.
  unfold top. pose proof (Z.mod_pos_bound x count ltac:(lia)). pose proof (Z_div_mod_eq_full x count).
  split; [exists (x / count); lia | lia].
Qed.

(** Multiples of [count] are [count] apart. *)
Lemma round_gap a b : (count | a) -> (count | b) -> b < a + count -> b <= a.
Proof using Hcount. intros [x ->] [y ->] H. assert (y <= x) by nia. nia. Qed.

Lemma top_max x b : (count | b) -> b <= x -> b <= top x.
Proof using Hcount. intros Hb Hx. destruct (top_spec x) as [H1 H2]. apply round_gap; [done | done | lia]. Qed.

Lemma M_spec : (count | M) /\ count <= M <= BARRIER_IN_THRESHOLD.
Proof using Hcount.
  destruct (top_spec BARRIER_IN_THRESHOLD) as [H1 H2]. fold (top BARRIER_IN_THRESHOLD) in *.
  change M with (top BARRIER_IN_THRESHOLD). split; [exact H1|]. split; [|lia].
  apply top_max; [apply Z.divide_refl | lia].
Qed.

Lemma threshold_value : BARRIER_IN_THRESHOLD = 2147483647.
Proof using Type. reflexivity. Qed.

Lemma total_length_le f (l : list barrier_pc) : (forall p, f p <= 1) -> total f l <= Z.of_nat (length l).
Proof using Type.
  intros H. transitivity (total (fun _ => 1) l); [apply total_le; intros; apply H|].
  induction l as [|x l IH]; simpl; lia.
Qed.

Lemma beyond_bound s : binv s -> total beyond (pcs s) < INT_MAX.
Proof using Type.
  intros HI. pose proof (bi_threads s HI). pose proof (total_length_le beyond (pcs s)) as H'.
  enough (forall p, beyond p <= 1) by (specialize (H' ltac:(done)); lia). intros []; simpl; lia.
Qed.

Lemma in_bound s : binv s -> b_in (bar s) + 1 < 2 ^ 32.
Proof using Hcount.
  intros HI. pose proof (bi_in s HI). pose proof (beyond_bound s HI). pose proof M_spec. pose proof threshold_value.
  unfold INT_MAX in *. lia.
Qed.

(** The position of a thread inside. *)
Lemma position_range s j p i : binv s -> pcs s !! j = Some p -> position p = Some i -> 1 <= i <= Z.min (b_in (bar s)) M.
Proof using Type.
  intros HI Hj Hp. pose proof (bi_position s HI i) as H.
  pose proof (total_lookup (at_position i) _ _ _ (at_position_nonneg i) Hj) as H1.
  unfold at_position in H1 at 1. rewrite Hp, Z.eqb_refl in H1.
  destruct (Z.leb_spec 1 i), (Z.leb_spec i (Z.min (b_in (bar s)) M)); simpl in H; lia.
Qed.

(** A step that only moves one thread. *)
Lemma binv_move s j p p' : binv s -> pcs s !! j = Some p ->
  let cur := b_current_round (bar s) in
  position p' = position p -> (M < b_in (bar s) -> beyond p <= beyond p') ->
  resetting p = 0 -> resetting p' = 0 -> stale cur p' = 0 -> round_waking p <= round_waking p' ->
  (forall t, (count | t) -> cur < t -> helper t p <= helper t p') ->
  (in_blocked p' = 0 \/ M < b_in (bar s)) -> in_waking p <= in_waking p' -> good cur p' ->
  binv {| bar := bar s; pcs := <[j := p']> (pcs s); gone := gone s |}.
Proof using Hcount.
  intros HI Hj cur Hpos Hbey Hr Hr' Hst Hrw Hh Hib Hiw Hg. destruct HI as [I1 I2 I3 I4 I5 I6 I7 I8 I9 I10 I11 I12 I13].
  assert (Hins : inside p' = inside p) by (unfold inside; by rewrite Hpos).
  pose proof (stale_nonneg cur p) as Hs0. pose proof (in_blocked_nonneg p) as Hb0.
  split; simpl; rewrite ?length_insert, ?(total_insert _ _ _ _ _ Hj); try done.
  - pose proof (total_nonneg beyond (pcs s) beyond_nonneg). lia.
  - lia.
  - intros Hz. apply I4. lia.
  - intros k. rewrite (total_insert _ _ _ _ _ Hj). replace (at_position k p') with (at_position k p) by (unfold at_position; by rewrite Hpos).
    specialize (I5 k). lia.
  - intros j' q [(-> & <- & _)|(_ & Hq)]%list_lookup_insert_Some; [exact Hg | by eapply I7].
  - lia.
  - intros j' i. destruct (I9 j' i) as [A1 A2].
    split; intros [(-> & -> & _)|(_ & Hq)]%list_lookup_insert_Some; try done; auto.
  - intros E. specialize (I10 E). lia.
  - fold cur. fold cur in I11. rewrite ?(total_insert _ _ _ _ _ Hj). lia.
  - fold cur. fold cur in I12. intros H1 H2. specialize (I12 ltac:(lia) H2). specialize (Hh (top (Z.min (b_in (bar s)) M))).
    destruct (top_spec (Z.min (b_in (bar s)) M)) as [H3 _]. specialize (Hh H3 H2). lia.
  - lia.
Qed.

(** Good threads stay good while the round advances. *)
Lemma good_mono cur cur' p : cur <= cur' -> good cur p -> good cur' p.
Proof using Hcount. destruct p; simpl; intuition lia. Qed.

Lemma outside_good cur cur' p : position p = None -> good cur p -> good cur' p.
Proof using Type. by destruct p. Qed.

Lemma inside_zero s j p : total inside (pcs s) = 0 -> pcs s !! j = Some p -> position p = None.
Proof using Type.
  intros H Hj. pose proof (total_lookup inside _ _ _ inside_nonneg Hj) as H1. rewrite H in H1. unfold inside in H1.
  destruct (position p); [lia | done].
Qed.

(** Entering before the threshold. *)
Lemma binv_enter s j : binv s -> pcs s !! j = Some Enter -> b_in (bar s) + 1 <= M ->
  binv {| bar := Build_barrier (b_in (bar s) + 1) (b_current_round (bar s)) (b_out (bar s));
          pcs := <[j := LoadRound (b_in (bar s) + 1)]> (pcs s); gone := gone s |}.
Proof using Hcount.
  intros HI Hj Hin. destruct HI as [I1 I2 I3 I4 I5 I6 I7 I8 I9 I10 I11 I12 I13].
  set (x := b_in (bar s)) in *. set (cur := b_current_round (bar s)) in *.
  assert (Hnr : total resetting (pcs s) = 0) by (pose proof (total_nonneg resetting (pcs s) resetting_nonneg); lia).
  split; cbn [bar pcs gone b_in b_current_round b_out]; rewrite ?length_insert, ?(total_insert _ _ _ _ _ Hj).
  - done.
  - pose proof (total_nonneg beyond (pcs s) beyond_nonneg). simpl. lia.
  - unfold inside at 2 3. simpl. lia.
  - intros _. by apply I4.
  - intros k. rewrite (total_insert _ _ _ _ _ Hj). specialize (I5 k). unfold at_position at 2 3. simpl.
    destruct (Z.leb_spec 1 k), (Z.leb_spec k (Z.min x M)), (Z.leb_spec k (Z.min (x + 1) M)), (Z.eqb_spec (x + 1) k); simpl in *; lia.
  - split; [apply I6 | lia].
  - intros j' q [(-> & <- & _)|(_ & Hq)]%list_lookup_insert_Some; [done | by eapply I7].
  - simpl. lia.
  - intros j' i. destruct (I9 j' i) as [A1 A2].
    split; intros [(-> & E & _)|(_ & Hq)]%list_lookup_insert_Some; try done; auto.
  - simpl. lia.
  - simpl. lia.
  - intros _ _. pose proof (total_lookup (helper (top (Z.min (x + 1) M))) (<[j := LoadRound (x + 1)]> (pcs s)) j (LoadRound (x + 1))
      ltac:(auto)) as H. rewrite <- (total_insert _ _ _ _ _ Hj).
    destruct (top_spec (Z.min (x + 1) M)) as [_ H'].
    specialize (H ltac:(apply list_lookup_insert_eq; by eapply lookup_lt_Some)). simpl in H.
    destruct (Z.leb_spec (top (Z.min (x + 1) M)) (x + 1)); lia.
  - simpl. lia.
Qed.

(** Entering beyond it. *)
Lemma binv_enter_beyond s j : binv s -> pcs s !! j = Some Enter -> M < b_in (bar s) + 1 ->
  binv {| bar := Build_barrier (b_in (bar s) + 1) (b_current_round (bar s)) (b_out (bar s));
          pcs := <[j := ResetWait (b_in (bar s) + 1)]> (pcs s); gone := gone s |}.
Proof using Hcount.
  intros HI Hj Hin. destruct HI as [I1 I2 I3 I4 I5 I6 I7 I8 I9 I10 I11 I12 I13].
  set (x := b_in (bar s)) in *. set (cur := b_current_round (bar s)) in *.
  assert (Em : Z.min (x + 1) M = Z.min x M) by lia.
  split; cbn [bar pcs gone b_in b_current_round b_out]; rewrite ?Em, ?length_insert, ?(total_insert _ _ _ _ _ Hj); simpl.
  - done.
  - pose proof (total_nonneg beyond (pcs s) beyond_nonneg). lia.
  - unfold inside at 2 3. simpl. rewrite Z.sub_0_r, Z.add_0_r, Z.sub_0_r, Z.add_0_r. exact I3.
  - rewrite Z.sub_0_r, Z.add_0_r. done.
  - intros k. rewrite (total_insert _ _ _ _ _ Hj). specialize (I5 k). unfold at_position at 2 3. simpl. lia.
  - done.
  - intros j' q [(-> & <- & _)|(_ & Hq)]%list_lookup_insert_Some; [done | by eapply I7].
  - unfold inside at 2 3. simpl. lia.
  - intros j' i. destruct (I9 j' i) as [A1 A2].
    split; intros [(-> & E & _)|(_ & Hq)]%list_lookup_insert_Some; try done; auto.
  - lia.
  - lia.
  - rewrite !Z.sub_0_r, !Z.add_0_r. exact I12.
  - lia.
Qed.

(** Completing rounds. *)
Lemma binv_finish s j i cr : binv s -> pcs s !! j = Some (Finish i cr) -> b_current_round (bar s) = cr -> cr + count <= i ->
  binv {| bar := Build_barrier (b_in (bar s)) (top i) (b_out (bar s)); pcs := <[j := FinishWake i (top i)]> (pcs s); gone := gone s |}.
Proof using Hcount.
  intros HI Hj Hcr Hc. pose proof (position_range s j _ i HI Hj eq_refl) as Hi.
  destruct HI as [I1 I2 I3 I4 I5 I6 I7 I8 I9 I10 I11 I12 I13].
  set (x := b_in (bar s)) in *. set (cur := b_current_round (bar s)) in *. destruct (top_spec i) as [Ht1 Ht2].
  assert (Hup : cur < top i).
  { enough (cr + count <= top i) by lia. apply top_max; [|lia]. apply Z.divide_add_r; [rewrite <- Hcr; apply I6 | apply Z.divide_refl]. }
  assert (Hnr : total resetting (pcs s) = 0).
  { pose proof (total_nonneg resetting (pcs s) resetting_nonneg). destruct (decide (0 < total resetting (pcs s))) as [Hp|]; [|lia].
    destruct (proj2 I8 Hp) as [H0 _]. pose proof (inside_zero s j _ H0 Hj). done. }
  split; cbn [bar pcs gone b_in b_current_round b_out]; rewrite ?length_insert, ?(total_insert _ _ _ _ _ Hj); simpl.
  - done.
  - rewrite Z.sub_0_r, Z.add_0_r. done.
  - unfold inside at 2 3. simpl. lia.
  - auto.
  - intros k. rewrite (total_insert _ _ _ _ _ Hj). specialize (I5 k). unfold at_position at 2 3. simpl. lia.
  - split; [done | lia].
  - intros j' q [(-> & <- & _)|(_ & Hq)]%list_lookup_insert_Some; [simpl; lia|].
    apply (good_mono cur); [lia | by eapply I7].
  - lia.
  - intros j' i'. split; intros [(-> & E & _)|(_ & Hq)]%list_lookup_insert_Some; try done;
      pose proof (total_lookup resetting _ _ _ resetting_nonneg Hq) as Hz; simpl in Hz; lia.
  - intros E. specialize (I10 E). lia.
  - intros _. pose proof (total_nonneg round_waking (pcs s) round_waking_nonneg).
    pose proof (total_lookup round_waking _ _ _ round_waking_nonneg Hj) as Hz. simpl in Hz. lia.
  - intros _ Hlt. destruct (top_spec (Z.min x M)) as [Hm1 Hm2]. specialize (I12 Hnr ltac:(lia)).
    destruct (Z.leb_spec (top (Z.min x M)) i); [|lia]. exfalso.
    pose proof (top_max i _ Hm1 H). lia.
  - lia.
Qed.

Lemma at_position_self i p k : position p = Some i -> at_position k p = if decide (i = k) then 1 else 0.
Proof using Type. intros E. unfold at_position. rewrite E. destruct (Z.eqb_spec i k), (decide (i = k)); done. Qed.

Lemma at_position_none p k : position p = None -> at_position k p = 0.
Proof using Type. intros E. unfold at_position. by rewrite E. Qed.

Lemma not_resetting s j p : binv s -> pcs s !! j = Some p -> position p <> None -> total resetting (pcs s) = 0.
Proof using Hcount.
  intros HI Hj Hp. pose proof (total_nonneg resetting (pcs s) resetting_nonneg).
  destruct (decide (0 < total resetting (pcs s))) as [Hr|]; [|lia].
  destruct (proj2 (bi_reset s HI) Hr) as [H0 _]. pose proof (inside_zero s j _ H0 Hj). done.
Qed.

(** Leaving; the last thread before the threshold starts the reset. *)
Lemma binv_leave s j i p' : binv s -> pcs s !! j = Some (Leave i) ->
  p' = (if b_out (bar s) + 1 =? M then ResetRound i else barrier_return i) ->
  binv {| bar := Build_barrier (b_in (bar s)) (b_current_round (bar s)) (b_out (bar s) + 1);
          pcs := <[j := p']> (pcs s); gone := i :: gone s |}.
Proof using Hcount.
  intros HI Hj Hp'. pose proof (not_resetting s j _ HI Hj ltac:(done)) as Hnr.
  destruct HI as [I1 I2 I3 I4 I5 I6 I7 I8 I9 I10 I11 I12 I13]. specialize (I3 Hnr). specialize (I4 Hnr).
  set (x := b_in (bar s)) in *. set (cur := b_current_round (bar s)) in *. set (o := b_out (bar s)) in *.
  assert (Hq : position p' = None /\ beyond p' = 0 /\ in_blocked p' = 0 /\ in_waking p' = 0 /\ stale cur p' = 0 /\
    round_waking p' = 0 /\ (forall t, helper t p' = 0) /\ resetting p' = if o + 1 =? M then 1 else 0).
  { subst p'. by destruct (o + 1 =? M). }
  destruct Hq as (Q1 & Q2 & Q3 & Q4 & Q5 & Q6 & Q7 & Q8).
  assert (Hins : inside p' = 0) by (unfold inside; by rewrite Q1).
  pose proof (total_lookup inside _ _ _ inside_nonneg Hj) as Hi. unfold inside in Hi at 1. simpl in Hi.
  split; cbn [bar pcs gone b_in b_current_round b_out]; rewrite ?length_insert, ?(total_insert _ _ _ _ _ Hj);
    rewrite ?Q2, ?Q3, ?Q4, ?Q5, ?Q6, ?Q7, ?Q8, ?Hins; cbn [beyond in_blocked in_waking stale round_waking helper resetting length].
  - done.
  - rewrite Z.sub_0_r, Z.add_0_r. done.
  - change (inside (Leave i)) with 1. lia.
  - lia.
  - intros k. rewrite (total_insert _ _ _ _ _ Hj), (at_position_none p' k Q1), (at_position_self i) by done. specialize (I5 k). simpl.
    destruct (Z.eq_dec i k), (decide (i = k)); lia.
  - done.
  - intros j' q [(-> & <- & _)|(_ & Hq)]%list_lookup_insert_Some; [rewrite Hp'; by destruct (_ =? _) | by eapply I7].
  - change (inside (Leave i)) with 1. destruct (Z.eqb_spec (o + 1) M); lia.
  - intros j' i'. split; intros [(-> & -> & _)|(_ & Hq)]%list_lookup_insert_Some;
      try (destruct (o + 1 =? M); done);
      pose proof (total_lookup resetting _ _ _ resetting_nonneg Hq) as Hz; simpl in Hz; lia.
  - intros E. apply Z.eqb_eq in E. rewrite E. lia.
  - rewrite !Z.sub_0_r, !Z.add_0_r. exact I11.
  - intros _ Hlt. specialize (I12 Hnr Hlt). lia.
  - rewrite !Z.sub_0_r, !Z.add_0_r. exact I13.
Qed.

(** The steps of the reset: nobody is inside. *)
Lemma no_stale l cur : total inside l = 0 -> total (stale cur) l = 0.
Proof using Type.
  intros H. pose proof (total_nonneg (stale cur) l (stale_nonneg cur)). pose proof (total_le (stale cur) inside l) as Hle.
  enough (forall p, stale cur p <= inside p) by (specialize (Hle ltac:(done)); lia).
  intros []; unfold inside; simpl; try destruct (_ =? _); lia.
Qed.

Lemma binv_reset s j p p' b' g' : binv s -> pcs s !! j = Some p ->
  (exists i, p = ResetRound i /\ p' = ResetOut i /\ b' = Build_barrier (b_in (bar s)) 0 (b_out (bar s)) /\ g' = gone s) \/
  (exists i, p = ResetOut i /\ p' = ResetIn i /\ b' = Build_barrier (b_in (bar s)) (b_current_round (bar s)) 0 /\ g' = gone s) ->
  binv {| bar := b'; pcs := <[j := p']> (pcs s); gone := g' |}.
Proof using Hcount.
  intros HI Hj Hc. pose proof M_spec as HM.
  assert (Hp : resetting p = 1 /\ resetting p' = 1 /\ position p = None /\ position p' = None /\ beyond p' = beyond p /\
    in_blocked p' = in_blocked p /\ in_waking p' = in_waking p /\ round_waking p' = round_waking p /\
    (forall c, stale c p' = 0) /\ g' = gone s /\ b_in b' = b_in (bar s) /\ (b_out b' = 0 \/ b_out b' = b_out (bar s)) /\
    b_current_round b' = 0 /\ (forall i, p' = ResetIn i -> b_out b' = 0) /\ (forall c, good c p')).
  { destruct Hc as [(i & -> & -> & -> & ->)|(i & -> & -> & -> & ->)]; repeat split; auto; try done.
    apply (proj1 (bi_reset_step s HI j i) Hj). }
  destruct Hp as (P1 & P2 & P3 & P4 & P5 & P6 & P7 & P8 & P9 & -> & P10 & P11 & P12 & P13 & P14). clear Hc.
  destruct HI as [I1 I2 I3 I4 I5 I6 I7 I8 I9 I10 I11 I12 I13].
  pose proof (total_lookup resetting _ _ _ resetting_nonneg Hj) as Hr. rewrite P1 in Hr.
  assert (Hr1 : total resetting (pcs s) = 1) by lia. destruct (proj2 I8 ltac:(lia)) as [Hins Hin].
  assert (Hi : inside p = 0 /\ inside p' = 0) by (unfold inside; by rewrite P3, P4).
  pose proof (no_stale (pcs s) 0 Hins) as Hst.
  assert (Hoth : forall j' q, j <> j' -> pcs s !! j' = Some q -> resetting q = 0).
  { intros j' q Hn Hq. pose proof (total_lookup2 resetting _ _ _ _ _ resetting_nonneg Hn Hj Hq). pose proof (resetting_nonneg q). lia. }
  split; cbn [bar pcs gone]; rewrite ?P10, ?P12, ?length_insert, ?(total_insert _ _ _ _ _ Hj), ?P1, ?P2, ?P5, ?P6, ?P7, ?P8, ?P9.
  - done.
  - lia.
  - lia.
  - lia.
  - intros k. rewrite (total_insert _ _ _ _ _ Hj), (at_position_none p k P3), (at_position_none p' k P4). specialize (I5 k). lia.
  - split; [apply Z.divide_0_r | lia].
  - intros j' q [(-> & <- & _)|(_ & Hq)]%list_lookup_insert_Some; [by apply P14|].
    eapply outside_good; [by eapply inside_zero | by eapply I7].
  - lia.
  - intros j' i. split; [done|]. intros [(-> & E & _)|(Hn & Hq)]%list_lookup_insert_Some; [split; [done | by eapply P13]|].
    specialize (Hoth j' _ Hn Hq). done.
  - lia.
  - pose proof (stale_nonneg 0 p). lia.
  - lia.
  - lia.
Qed.

Lemma binv_reset_in s j i : binv s -> pcs s !! j = Some (ResetIn i) ->
  binv {| bar := Build_barrier 0 (b_current_round (bar s)) (b_out (bar s)); pcs := <[j := ResetWake i]> (pcs s); gone := [] |}.
Proof using Hcount.
  intros HI Hj. pose proof M_spec as HM. destruct (proj2 (bi_reset_step s HI j i) Hj) as [Hc0 Ho0].
  destruct HI as [I1 I2 I3 I4 I5 I6 I7 I8 I9 I10 I11 I12 I13].
  pose proof (total_lookup resetting _ _ _ resetting_nonneg Hj) as Hr. simpl in Hr.
  assert (Hr1 : total resetting (pcs s) = 1) by lia. destruct (proj2 I8 ltac:(lia)) as [Hins Hin].
  assert (Hoth : forall j' q, j <> j' -> pcs s !! j' = Some q -> resetting q = 0).
  { intros j' q Hn Hq. pose proof (total_lookup2 resetting _ _ _ _ _ resetting_nonneg Hn Hj Hq). pose proof (resetting_nonneg q).
    simpl in *. lia. }
  pose proof (no_stale (pcs s) 0 Hins) as Hst.
  split; cbn [bar pcs gone b_in b_current_round b_out]; rewrite ?Hc0, ?Ho0, ?length_insert, ?(total_insert _ _ _ _ _ Hj);
    cbn [beyond in_blocked in_waking stale round_waking helper resetting length].
  - done.
  - pose proof (total_nonneg beyond (pcs s) beyond_nonneg). lia.
  - unfold inside at 2 3. simpl. lia.
  - done.
  - intros k. rewrite (total_insert _ _ _ _ _ Hj). rewrite !at_position_none by done. simpl.
    assert (total (at_position k) (pcs s) = 0) as ->.
    { apply total_zero. intros j' q Hq. by eapply at_position_none, inside_zero. }
    destruct (Z.leb_spec 1 k), (Z.leb_spec k (Z.min 0 M)); simpl; lia.
  - split; [apply Z.divide_0_r | lia].
  - intros j' q [(-> & <- & _)|(_ & Hq)]%list_lookup_insert_Some; [done|].
    eapply outside_good; [by eapply inside_zero | by eapply I7].
  - lia.
  - intros j' i'. split; intros [(-> & E & _)|(Hn & Hq)]%list_lookup_insert_Some; try done; by specialize (Hoth j' _ Hn Hq).
  - lia.
  - lia.
  - destruct (top_spec (Z.min 0 M)) as [_ Ht]. lia.
  - pose proof (total_nonneg in_waking (pcs s) in_waking_nonneg). lia.
Qed.

(** ** Waking all *)

Lemma unblock_round_once x y : unblock_round x = Some y -> unblock_round y = None.
Proof using Type. destruct x; intros; by simplify_eq/=. Qed.
Lemma unblock_in_once x y : unblock_in x = Some y -> unblock_in y = None.
Proof using Type. destruct x; intros; by simplify_eq/=. Qed.

Lemma blocked_bound u (l : list barrier_pc) : Z.of_nat (length l) < INT_MAX -> 0 <= total (is_blocked u) l < INT_MAX.
Proof using Type.
  intros H. pose proof (total_nonneg (is_blocked u) l (is_blocked_nonneg u)).
  pose proof (total_length_le (is_blocked u) l) as Hl. unfold is_blocked in Hl at 1.
  specialize (Hl ltac:(intros p; destruct (u p); lia)). lia.
Qed.

(** A call with INT_MAX leaves nobody blocked. *)
Lemma wake_all (u : barrier_pc -> option barrier_pc) ws l l' : (forall x y, u x = Some y -> u y = None) -> Z.of_nat (length l) < INT_MAX ->
  futex_wake u INT_MAX ws l = Some l' -> total (is_blocked u) l' = 0.
Proof using Type.
  intros Hu Hl Ew. pose proof (blocked_bound u l Hl) as Hb.
  rewrite (futex_wake_total u (is_blocked u) (-1) INT_MAX ws l l'); [lia | | exact Ew].
  intros x y E. unfold is_blocked. rewrite E, (Hu x y E). done.
Qed.

(** What a wake-up keeps. *)
Definition same_but_blocked (x y : barrier_pc) : Prop :=
  position y = position x /\ beyond y = beyond x /\ resetting y = resetting x /\ round_waking y = round_waking x /\
  (forall t, helper t y = helper t x) /\ in_waking y = in_waking x /\ (forall c, good c x -> good c y) /\ resetting x = 0.

Lemma binv_wake s j p p' u ws l : binv s -> pcs s !! j = Some p -> barrier_wake p = Some (u, p') ->
  futex_wake u INT_MAX ws (<[j := p']> (pcs s)) = Some l -> binv {| bar := bar s; pcs := l; gone := gone s |}.
Proof using Hcount.
  intros HI Hj Hw Ew. pose proof (bi_good s HI j p Hj) as Hg.
  assert (Hu : (forall x y, u x = Some y -> u y = None) /\ (forall x y, u x = Some y -> same_but_blocked x y)).
  { destruct p; simplify_eq/=; (split; [apply unblock_round_once || apply unblock_in_once|]);
      intros [] ? E; simplify_eq/=; unfold same_but_blocked; simpl; auto 10. }
  destruct Hu as [Hu Hsame].
  assert (Hp : position p' = position p /\ beyond p' = 0 /\ beyond p = 0 /\ resetting p = 0 /\ resetting p' = 0 /\
    (forall t, helper t p = 0) /\ (forall t, helper t p' = 0) /\ in_blocked p' = 0 /\ in_blocked p = 0 /\
    good (b_current_round (bar s)) p').
  { destruct p; simplify_eq/=; try case_match; simpl; repeat split; auto; destruct (Z.leb_spec i cr); simplify_eq; lia. }
  destruct Hp as (P1 & P2 & P3 & P4 & P5 & P6 & P7 & P8 & P9 & P10).
  pose proof (futex_wake_length u _ _ _ _ Ew) as Hlen. rewrite length_insert in Hlen.
  assert (Hall : total (is_blocked u) l = 0).
  { eapply wake_all; [exact Hu | | exact Ew]. rewrite length_insert. apply HI. }
  assert (T : forall f, (forall x y, same_but_blocked x y -> f y = f x) -> total f l = total f (pcs s) - f p + f p').
  { intros f Hf. rewrite (futex_wake_total u f 0 INT_MAX ws _ _ ltac:(intros x y E; rewrite (Hf x y (Hsame x y E)); lia) Ew).
    rewrite (total_insert _ _ _ _ _ Hj). lia. }
  assert (Hlk : forall j' q, l !! j' = Some q -> resetting q <> 0 -> pcs s !! j' = Some q).
  { intros j' q Hq Hr. destruct (futex_wake_lookup u Hu _ _ _ _ _ _ Ew Hq) as [H1 | (x & H1 & H2)].
    - apply list_lookup_insert_Some in H1 as [(-> & -> & _)|(_ & H1)]; [done | exact H1].
    - destruct (Hsame _ _ H2) as (_ & _ & R1 & _ & _ & _ & _ & R2). congruence. }
  destruct HI as [I1 I2 I3 I4 I5 I6 I7 I8 I9 I10 I11 I12 I13].
  assert (Ti : total inside l = total inside (pcs s)).
  { rewrite (T inside); [unfold inside; rewrite P1; lia|]. intros x y (E & _). unfold inside. by rewrite E. }
  assert (Tr : total resetting l = total resetting (pcs s)) by (rewrite (T resetting); [lia | by intros x y (_ & _ & E & _)]).
  assert (Tb : total beyond l = total beyond (pcs s)) by (rewrite (T beyond); [lia | by intros x y (_ & E & _)]).
  split; cbn [bar pcs gone]; rewrite ?Ti, ?Tr, ?Tb, ?Hlen; try done.
  - intros k. rewrite (T (at_position k)); [specialize (I5 k); unfold at_position at 2 3; rewrite P1; lia|].
    intros x y (E & _). unfold at_position. by rewrite E.
  - intros j' q Hq. destruct (futex_wake_lookup u Hu _ _ _ _ _ _ Ew Hq) as [H1 | (x & H1 & H2)].
    + apply list_lookup_insert_Some in H1 as [(-> & -> & _)|(_ & H1)]; [exact P10 | by eapply I7].
    + destruct (Hsame _ _ H2) as (_ & _ & _ & _ & _ & _ & G & R). apply G.
      apply list_lookup_insert_Some in H1 as [(-> & -> & _)|(_ & H1)]; [exact P10 | by eapply I7].
  - intros j' i. destruct (I9 j' i) as [A1 A2]. split; intros Hq; [apply A1 | apply A2]; by apply Hlk.
  - destruct p; simplify_eq/=.
    + intros H. exfalso. enough (total (stale (b_current_round (bar s))) l <= total (is_blocked unblock_round) l) by lia.
      apply total_le. intros []; simpl; try destruct (_ =? _); unfold is_blocked; simpl; lia.
    + intros H. rewrite (T round_waking); [|by intros x y (_ & _ & _ & E & _)]. simpl.
      assert (E : total (stale (b_current_round (bar s))) l = total (stale (b_current_round (bar s))) (pcs s)).
      { rewrite (futex_wake_total unblock_in (stale (b_current_round (bar s))) 0 INT_MAX ws _ _ ltac:(by intros [] ? ?; simplify_eq/=) Ew).
        rewrite (total_insert _ _ _ _ _ Hj). simpl. lia. }
      rewrite E in H. specialize (I11 H). lia.
  - intros H1 H2. specialize (I12 H1 H2). rewrite (T (helper _)); [rewrite P6, P7; lia | by intros x y (_ & _ & _ & _ & E & _)].
  - destruct p; simplify_eq/=.
    + intros H. assert (E : total in_blocked l = total in_blocked (pcs s)).
      { rewrite (futex_wake_total unblock_round in_blocked 0 INT_MAX ws _ _ ltac:(by intros [] ? ?; simplify_eq/=) Ew).
        rewrite (total_insert _ _ _ _ _ Hj). rewrite P8. simpl. lia. }
      rewrite E in H. rewrite (T in_waking); [|by intros x y (_ & _ & _ & _ & _ & E' & _)].
      destruct (I13 H); [by left|]. right. destruct (i <=? cr); simpl; lia.
    + intros H. exfalso. enough (total in_blocked l <= total (is_blocked unblock_in) l) by lia.
      apply total_le. intros []; simpl; unfold is_blocked; simpl; lia.
Qed.

Lemma round_bound s : binv s -> 0 <= b_current_round (bar s) < 2 ^ 31 /\ (count | b_current_round (bar s)).
Proof using Hcount. intros HI. pose proof (bi_round s HI). pose proof M_spec. pose proof threshold_value. split; [lia | tauto]. Qed.

Lemma barrier_eta b : Build_barrier (b_in b) (b_current_round b) (b_out b) = b.
Proof using Type. by destruct b. Qed.

(** A thread moves with nothing else changed. *)
Ltac moves HI Hj := apply (binv_move _ _ _ _ HI Hj); simpl; auto; try lia.

Lemma finish_inv weak s j i cr b p' : binv s -> pcs s !! j = Some (Finish i cr) ->
  pthread_barrier_wait weak (Finish i cr) (bar s) = Some (b, p') ->
  binv {| bar := b; pcs := <[j := p']> (pcs s); gone := gone s |}.
Proof using Hcount.
  intros HI Hj. pose proof (bi_good s HI j _ Hj) as [Hg1 Hg2]. pose proof (round_bound s HI) as [Hc1 Hc2].
  pose proof threshold_value. pose proof (barrier_eta (bar s)) as Eb. revert Hg1 Hc1 Hc2 Eb.
  unfold pthread_barrier_wait. destruct (bar s) as [x cur o] eqn:Ebar. simpl. intros Hg1 Hc1 Hc2 _.
  rewrite wrap_small by lia. rewrite <- Ebar. destruct (Z.leb_spec (cr + count) i) as [Hle|Hgt].
  - destruct (negb weak && (cur =? cr)) eqn:Ec.
    + intros [= <- <-]. apply andb_true_iff in Ec as [_ Ec%Z.eqb_eq]. fold (top i).
      pose proof (binv_finish s j i cr HI Hj) as Hf. rewrite Ebar in Hf. simpl in Hf. auto.
    + intros [= <- <-]. moves HI Hj. rewrite Ebar. simpl. split; [lia | exact Hc2].
  - intros [= <- <-]. assert (Ecur : b_current_round (bar s) = cur) by (by rewrite Ebar).
    assert (Hh : forall t, (count | t) -> cur < t -> (if t <=? i then 1 else 0) <= 0).
    { intros t Ht Hlt. destruct (Z.leb_spec t i); [|lia]. pose proof (round_gap cr t Hg2 Ht). lia. }
    destruct (Z.ltb_spec cr i); moves HI Hj; rewrite ?Ecur; auto; simpl; lia.
Qed.

Lemma run_inv weak s j p b p' : binv s -> pcs s !! j = Some p -> pthread_barrier_wait weak p (bar s) = Some (b, p') ->
  binv {| bar := b; pcs := <[j := p']> (pcs s); gone := history p (gone s) |}.
Proof using Hcount.
  intros HI Hj. pose proof (in_bound s HI) as Hin. pose proof (bi_in s HI) as Hin0. pose proof (bi_good s HI j p Hj) as Hg.
  pose proof (round_bound s HI) as [Hc1 Hc2].
  destruct p as [| |i| | |i|i cr| |i cr| |i|i|i|i|i|]; try (by apply finish_inv);
    destruct (bar s) as [x cur o] eqn:Ebar; simpl in *; try done; intros [= <- <-]; try rewrite <- Ebar.
  - rewrite wrap_small by lia. destruct (Z.ltb_spec M (x + 1)).
    + pose proof (binv_enter_beyond s j HI Hj) as H'. rewrite Ebar in H'. by apply H'.
    + pose proof (binv_enter s j HI Hj) as H'. rewrite Ebar in H'. by apply H'.
  - destruct (Z.eqb_spec x i); moves HI Hj. rewrite Ebar. simpl. lia.
  - destruct (Z.ltb_spec M x); moves HI Hj. rewrite Ebar. simpl. lia.
  - moves HI Hj. rewrite Ebar. simpl. split; [lia | exact Hc2].
  - destruct (Z.eqb_spec cur cr); moves HI Hj; rewrite ?Ebar; simpl; try lia. subst. by rewrite Z.eqb_refl.
  - destruct (Z.ltb_spec cur i); moves HI Hj; rewrite ?Ebar; simpl; lia.
  - pose proof (binv_leave s j i _ HI Hj eq_refl) as H'. pose proof (bi_inside s HI (not_resetting s j _ HI Hj ltac:(done))) as Hi.
    pose proof (total_nonneg inside (pcs s) inside_nonneg). pose proof M_spec. pose proof threshold_value.
    pose proof (bi_out s HI (not_resetting s j _ HI Hj ltac:(done))) as Ho.
    rewrite Ebar in *. simpl in *. rewrite wrap_small by lia. exact H'.
  - apply (binv_reset s j _ _ _ _ HI Hj). left. exists i. by rewrite Ebar.
  - apply (binv_reset s j _ _ _ _ HI Hj). right. exists i. by rewrite Ebar.
  - pose proof (binv_reset_in s j i HI Hj) as H'. rewrite Ebar in H'. exact H'.
Qed.

Lemma barrier_step_inv c j s s' : binv s -> barrier_step c j s = Some s' -> binv s'.
Proof using Hcount.
  intros HI. unfold barrier_step. destruct (pcs s !! j) as [p|] eqn:Hj; [|done]. cbn [mbind option_bind].
  assert (Hm : forall p', barrier_move c p = Some p' -> binv {| bar := bar s; pcs := <[j := p']> (pcs s); gone := gone s |}).
  { intros p' E. destruct p, c; simplify_eq/=; moves HI Hj. }
  destruct c as [| | |ws|]; try (destruct (barrier_move _ p) as [p'|]; [|done]; intros [= <-]; by apply Hm).
  1, 2: destruct (pthread_barrier_wait _ p (bar s)) as [[b p']|] eqn:E; [|done]; intros [= <-]; by eapply run_inv.
  destruct (barrier_wake p) as [[u p']|] eqn:E; [|done]. simpl. destruct (futex_wake u INT_MAX ws _) as [l|] eqn:Ew; [|done].
  intros [= <-]. by eapply binv_wake.
Qed.

Lemma barrier_start_inv n : Z.of_nat n < INT_MAX -> binv (barrier_start {| b_in := 0; b_current_round := 0; b_out := 0 |} n).
Proof using Hcount.
  intros Hn. pose proof M_spec as HM. unfold barrier_start.
  assert (T : forall f, f (Out None) = 0 -> total f (replicate n (Out None)) = 0) by (intros f E; rewrite total_replicate, E; lia).
  destruct (top_spec (Z.min 0 M)) as [_ Ht].
  split; cbn [bar pcs gone b_in b_current_round b_out length]; rewrite ?T by done; rewrite ?length_replicate; try lia.
  - intros k. rewrite T by done. simpl. destruct (Z.leb_spec 1 k), (Z.leb_spec k (Z.min 0 M)); simpl; lia.
  - split; [apply Z.divide_0_r | lia].
  - intros j p (-> & _)%lookup_replicate. done.
Qed.

(** The end of the round of position [i]. *)
Definition round_end (i : Z) : Z := top (i + count - 1).

Lemma round_end_spec i : (count | round_end i) /\ i <= round_end i < i + count.
Proof using Hcount. destruct (top_spec (i + count - 1)) as [H1 H2]. unfold round_end. split; [exact H1 | lia]. Qed.

(** ** Nobody moves *)

Definition barrier_resting (p : barrier_pc) : Prop :=
  match p with Out _ | RoundBlocked _ _ | ResetBlocked => True | _ => False end.

Definition round_blocked (p : barrier_pc) : Z := match p with RoundBlocked _ _ => 1 | _ => 0 end.

Section Quiet.
Context (s : state) (HI : binv s) (Hrest : Forall barrier_resting (pcs s)).

Lemma quiet_zero f : (forall p, barrier_resting p -> f p = 0) -> total f (pcs s) = 0.
Proof using Hrest.
  intros Hf. apply total_zero. intros j p Hj. rewrite Forall_lookup in Hrest. apply Hf, (Hrest j p Hj).
Qed.

(** Complete rounds have been recognised, and blocked threads are beyond. *)
Lemma quiet_round : top (Z.min (b_in (bar s)) M) <= b_current_round (bar s).
Proof using HI Hrest Hcount.
  pose proof (bi_help s HI (quiet_zero resetting ltac:(by intros []))) as H.
  rewrite (quiet_zero (helper _)) in H by (by intros []). lia.
Qed.

Lemma quiet_position j p i : pcs s !! j = Some p -> position p = Some i -> b_current_round (bar s) < i.
Proof using HI Hrest Hcount.
  intros Hj Hp. assert (Hr : barrier_resting p) by (rewrite Forall_lookup in Hrest; by eapply Hrest).
  pose proof (bi_good s HI j p Hj) as Hg. destruct p; simplify_eq/=; try done.
  pose proof (bi_stale s HI) as Hs. rewrite (quiet_zero round_waking) in Hs by (by intros []).
  pose proof (total_lookup (stale (b_current_round (bar s))) _ _ _ (stale_nonneg _) Hj) as H1. simpl in H1.
  destruct (Z.eqb_spec cr (b_current_round (bar s))); lia.
Qed.

Lemma quiet_gone : top (Z.min (b_in (bar s)) M) <= b_out (bar s).
Proof using HI Hrest Hcount.
  rewrite (bi_out s HI (quiet_zero resetting ltac:(by intros []))). set (t := top (Z.min (b_in (bar s)) M)).
  pose proof quiet_round as Hq. fold t in Hq.
  assert (Hincl : seqZ 1 t ⊆+ gone s).
  { apply NoDup_submseteq; [apply NoDup_seqZ|]. intros k Hk%elem_of_seqZ. pose proof (bi_position s HI k) as Hp.
    rewrite (total_zero (at_position k)) in Hp.
    - destruct (top_spec (Z.min (b_in (bar s)) M)) as [_ Ht]. fold t in Ht.
      destruct (Z.leb_spec 1 k), (Z.leb_spec k (Z.min (b_in (bar s)) M)); simpl in Hp; try lia.
      apply list_elem_of_In, (count_occ_In Z.eq_dec). lia.
    - intros j p Hj. destruct (position p) as [i|] eqn:Ep; [|by apply at_position_none].
      pose proof (quiet_position j p i Hj Ep). unfold at_position. rewrite Ep. destruct (Z.eqb_spec i k); lia. }
  apply submseteq_length in Hincl. rewrite length_seqZ in Hincl. lia.
Qed.

Lemma quiet_inside : total round_blocked (pcs s) = total inside (pcs s).
Proof using Hrest.
  apply total_ext_lookup. intros j p Hj. rewrite Forall_lookup in Hrest. specialize (Hrest j p Hj). by destruct p.
Qed.

Lemma quiet_spec : total in_blocked (pcs s) = 0 /\ total round_blocked (pcs s) < count.
Proof using HI Hrest Hcount.
  pose proof quiet_gone as Hg. pose proof (quiet_zero resetting ltac:(by intros [])) as Hr.
  pose proof (bi_inside s HI Hr) as Hi. pose proof (bi_full s HI) as Hf. pose proof (bi_in_wake s HI) as Hw.
  rewrite (quiet_zero in_waking) in Hw by (by intros []). rewrite quiet_inside.
  pose proof (total_nonneg in_blocked (pcs s) in_blocked_nonneg). pose proof (total_nonneg inside (pcs s) inside_nonneg).
  destruct (top_spec (Z.min (b_in (bar s)) M)) as [_ Ht]. split; [|lia].
  destruct (decide (0 < total in_blocked (pcs s))) as [Hb|]; [|lia]. destruct (Hw Hb) as [Hm|]; [|lia].
  replace (Z.min (b_in (bar s)) M) with M in * by lia.
  pose proof (top_max M M (proj1 M_spec) ltac:(lia)). lia.
Qed.
End Quiet.

(** * Results

    To speak of what the calls return, the steps are logged: [epoch] counts the
    resets, [mine] is the epoch in which a thread's current call took its
    position, and [log] has the epoch, the position and the result of every
    call that has returned. *)
Record result := { r_epoch : nat; r_pos : Z; r_serial : bool }.
Record logged := { core : state; epoch : nat; mine : nat -> nat; log : list result }.

(** The result with which a step leaves the call. *)
Definition returned (p p' : barrier_pc) : option (Z * bool) :=
  match p, p' with
  | Leave i, Out (Some r) | ResetWake i, Out (Some r) => Some (i, r)
  | _, _ => None
  end.

Definition logged_step (c : barrier_choice) (k : nat) (g : logged) : option logged :=
  p ← pcs (core g) !! k;
  s' ← barrier_step c k (core g);
  p' ← pcs s' !! k;
  Some {| core := s';
          epoch := match p with ResetIn _ => S (epoch g) | _ => epoch g end;
          mine := fun j => match p with Enter => if decide (j = k) then epoch g else mine g j | _ => mine g j end;
          log := match returned p p' with
                 | Some (i, r) => {| r_epoch := mine g k; r_pos := i; r_serial := r |} :: log g
                 | None => log g end |}.

Definition logged_start (b : barrier) (n : nat) : logged :=
  {| core := barrier_start b n; epoch := 0; mine := fun _ => 0%nat; log := [] |}.

(** The log only watches: every step of the threads is a logged step. *)
Lemma logged_step_exists c k g s' : barrier_step c k (core g) = Some s' ->
  exists g', logged_step c k g = Some g' /\ core g' = s'.
Proof using Type.
  intros E. unfold logged_step. pose proof E as E'. unfold barrier_step in E'.
  destruct (pcs (core g) !! k) as [p|] eqn:Hk; [|done]. cbn [mbind option_bind] in *. rewrite E. cbn [mbind option_bind].
  assert (Hl : length (pcs s') = length (pcs (core g))).
  { destruct c as [| | |ws|].
    1, 5: destruct (barrier_move _ p); [|done]; simplify_eq/=; apply length_insert.
    1, 2: destruct (pthread_barrier_wait _ p _) as [[]|]; [|done]; simplify_eq/=; apply length_insert.
    destruct (barrier_wake p) as [[u p']|]; [|done]. cbn [mbind option_bind] in E'.
    destruct (futex_wake u INT_MAX ws _) as [l|] eqn:Ew; [|done]. simplify_eq/=.
    rewrite (futex_wake_length _ _ _ _ _ Ew). apply length_insert. }
  apply lookup_lt_Some in Hk. rewrite <- Hl in Hk. apply lookup_lt_is_Some_2 in Hk as [p' ->]. cbn. eauto.
Qed.

(** A thread that has given up its position and not returned yet. *)
Definition leaving (p : barrier_pc) : option Z :=
  match p with ResetRound i | ResetOut i | ResetIn i | ResetWake i => Some i | _ => None end.

(** How a step moves its thread, and the history. *)
Inductive moved (p p' : barrier_pc) (g g' : list Z) : Prop :=
| mv_inside : leaving p = None -> leaving p' = None -> (forall i r, returned p p' <> Some (i, r)) ->
    (position p' <> None -> p = Enter \/ position p <> None) -> g' = g -> moved p p' g g'
| mv_return i : p = Leave i -> p' = barrier_return i -> g' = i :: g -> moved p p' g g'
| mv_reset i : p = Leave i -> p' = ResetRound i -> g' = i :: g -> moved p p' g g'
| mv_resetting i : leaving p = Some i -> leaving p' = Some i -> position p' = None -> resetting p = 1 ->
    (forall i, p <> ResetIn i) -> g' = g -> moved p p' g g'
| mv_restart i : p = ResetIn i -> p' = ResetWake i -> g' = [] -> moved p p' g g'
| mv_wake_return i : p = ResetWake i -> p' = barrier_return i -> g' = g -> moved p p' g g'.

(** Waking changes nothing that matters here. *)
Definition alike (q q' : barrier_pc) : Prop :=
  position q' = position q /\ leaving q' = leaving q /\ resetting q' = resetting q /\ (q' = Enter -> q = Enter).

Lemma barrier_step_moved c k s s' p : barrier_step c k s = Some s' -> pcs s !! k = Some p ->
  (exists p', pcs s' !! k = Some p' /\ moved p p' (gone s) (gone s')) /\
  (forall j q', j <> k -> pcs s' !! j = Some q' -> exists q, pcs s !! j = Some q /\ alike q q').
Proof using Type.
  intros E Hk. pose proof (lookup_lt_Some _ _ _ Hk) as Hlt. unfold barrier_step in E. rewrite Hk in E. cbn [mbind option_bind] in E.
  assert (Self : forall p' b g', moved p p' (gone s) g' -> s' = {| bar := b; pcs := <[k := p']> (pcs s); gone := g' |} ->
    (exists p', pcs s' !! k = Some p' /\ moved p p' (gone s) (gone s')) /\
    (forall j q', j <> k -> pcs s' !! j = Some q' -> exists q, pcs s !! j = Some q /\ alike q q')).
  { intros p' b g' Hm ->. cbn [pcs gone]. split; [exists p'; by rewrite list_lookup_insert_eq|].
    intros j q' Hj. rewrite list_lookup_insert_ne by done. intros Hq. exists q'. by split. }
  assert (Run : forall w, ('(b, p') ← pthread_barrier_wait w p (bar s);
      Some {| bar := b; pcs := <[k := p']> (pcs s); gone := history p (gone s) |}) = Some s' ->
    (exists p', pcs s' !! k = Some p' /\ moved p p' (gone s) (gone s')) /\
    (forall j q', j <> k -> pcs s' !! j = Some q' -> exists q, pcs s !! j = Some q /\ alike q q')).
  { clear E. intros w E. destruct (pthread_barrier_wait w p (bar s)) as [[b p']|] eqn:Ew; [|done]. simplify_eq/=.
    eapply Self; [|reflexivity]. destruct (bar s) as [x cur o].
    destruct p; simpl in Ew; repeat case_match; simplify_eq/=;
      first [by apply mv_inside; auto | by eapply mv_return | by eapply mv_reset | by eapply mv_resetting | by eapply mv_restart]. }
  destruct c as [| | |ws|].
  - destruct p; simplify_eq/=; eapply Self; try reflexivity; by apply mv_inside.
  - by eapply Run.
  - by eapply Run.
  - clear Self Run. destruct (barrier_wake p) as [[u p']|] eqn:Ew; [|done]. cbn [mbind option_bind] in E.
    destruct (futex_wake u INT_MAX ws _) as [l|] eqn:El; [|done]. simplify_eq/=.
    assert (Hu : (forall x y, u x = Some y -> u y = None) /\ (forall x y, u x = Some y -> alike x y) /\ u p' = None /\
      moved p p' (gone s) (gone s)).
    { assert (A1 : forall x y, unblock_round x = Some y -> alike x y) by (intros [] ? ?; by simplify_eq/=).
      assert (A2 : forall x y, unblock_in x = Some y -> alike x y) by (intros [] ? ?; by simplify_eq/=).
      destruct p; simplify_eq/=.
      - split; [apply unblock_round_once|]. split; [exact A1|].
        destruct (i <=? cr); (split; [done|]); by apply mv_inside; auto.
      - split; [apply unblock_in_once|]. split; [exact A2|]. split; [done|]. by eapply mv_wake_return. }
    destruct Hu as (U1 & U2 & U3 & Hm). split.
    + pose proof (futex_wake_length _ _ _ _ _ El) as Hl. rewrite length_insert in Hl.
      destruct (lookup_lt_is_Some_2 l k) as [q Hq]; [lia|]. exists q. split; [done|].
      destruct (futex_wake_lookup u U1 _ _ _ _ _ _ El Hq) as [H1|(x & H1 & H2)];
        rewrite list_lookup_insert_eq in H1 by done; by simplify_eq.
    + intros j q' Hj Hq. destruct (futex_wake_lookup u U1 _ _ _ _ _ _ El Hq) as [H1|(x & H1 & H2)];
        rewrite list_lookup_insert_ne in H1 by done; [by exists q' | eauto].
  - destruct p; simplify_eq/=; eapply Self; try reflexivity; by apply mv_inside; auto.
Qed.

Definition tag (r : result) : nat * Z := (r_epoch r, r_pos r).

(** Positions are given once per epoch, and a logged result is the one the
    position stands for. *)
Record linv (g : logged) : Prop := {
  li_inv : binv (core g);
  li_log : forall r, r ∈ log g -> 1 <= r_pos r <= M /\ (r_serial r = true <-> (count | r_pos r)) /\
    (r_epoch r <= epoch g)%nat /\ (r_epoch r = epoch g -> r_pos r ∈ gone (core g));
  li_nodup : NoDup (tag <$> log g);
  li_leaving : forall j p k, pcs (core g) !! j = Some p -> leaving p = Some k ->
    1 <= k <= M /\ ((mine g j, k) ∉ (tag <$> log g)) /\ (mine g j <= epoch g)%nat /\
    (mine g j = epoch g -> k ∈ gone (core g));
  li_distinct : forall j j' p p' k, j <> j' -> pcs (core g) !! j = Some p -> pcs (core g) !! j' = Some p' ->
    leaving p = Some k -> leaving p' = Some k -> mine g j <> mine g j';
  li_mine : forall j p, pcs (core g) !! j = Some p -> position p <> None \/ resetting p = 1 -> mine g j = epoch g }.

Lemma leave_fresh s j i : binv s -> pcs s !! j = Some (Leave i) -> i ∉ gone s.
Proof using Hcount.
  intros HI Hj Hin. pose proof (bi_position s HI i) as H. apply list_elem_of_In, (count_occ_In Z.eq_dec) in Hin.
  pose proof (total_lookup (at_position i) _ _ _ (at_position_nonneg i) Hj) as H1.
  unfold at_position in H1 at 1. simpl in H1. rewrite Z.eqb_refl in H1. destruct (_ && _) in H; lia.
Qed.

Lemma serial_divides i : (i mod count =? 0) = true <-> (count | i).
Proof using Hcount. rewrite Z.eqb_eq. apply Z.mod_divide. lia. Qed.

(** A step, seen from the log: [gone] grows or stays, or a reset starts a new
    epoch with nobody inside. *)
Section LoggedStep.
Context (g : logged) (k : nat) (p p' : barrier_pc) (s' : state) (HL : linv g).
Context (HI' : binv s') (Hk : pcs (core g) !! k = Some p) (Hk' : pcs s' !! k = Some p').
Context (Hoth : forall j q', j <> k -> pcs s' !! j = Some q' -> exists q, pcs (core g) !! j = Some q /\ alike q q').

(** The threads other than [k] keep what they had, in the same epoch. *)
Lemma others_leaving j q' i : j <> k -> pcs s' !! j = Some q' -> leaving q' = Some i ->
  exists q, pcs (core g) !! j = Some q /\ leaving q = Some i.
Proof using Hoth. intros Hj Hq Hl. destruct (Hoth j q' Hj Hq) as (q & H1 & _ & H2 & _). exists q. by rewrite <- H2. Qed.

Lemma others_mine j q' : j <> k -> pcs s' !! j = Some q' -> position q' <> None \/ resetting q' = 1 ->
  mine g j = epoch g.
Proof using HL Hoth.
  intros Hj Hq Hp. destruct (Hoth j q' Hj Hq) as (q & H1 & E1 & _ & E2 & _). apply (li_mine g HL j q H1).
  by rewrite <- E1, <- E2.
Qed.

(** No result, and the thread is not leaving: nothing changes. *)
Lemma linv_inside mine' : leaving p' = None -> gone s' = gone (core g) -> (forall j, j <> k -> mine' j = mine g j) ->
  (position p' <> None -> mine' k = epoch g) -> resetting p' = 0 ->
  linv {| core := s'; epoch := epoch g; mine := mine'; log := log g |}.
Proof using HL HI' Hk' Hoth.
  intros Hl Hg Hm Hp Hr. destruct HL as [L0 L1 L2 L3 L4 L5]. split; cbn [core epoch mine log]; auto.
  - by rewrite Hg.
  - intros j q i Hq Hi. destruct (decide (j = k)) as [->|Hj]; [congruence|].
    destruct (others_leaving j q i Hj Hq Hi) as (q0 & H1 & H2). rewrite Hm, Hg by done. by apply (L3 j q0).
  - intros j j' q q' i Hn Hq Hq' Hi Hi'. destruct (decide (j = k)) as [->|Hj]; [congruence|].
    destruct (decide (j' = k)) as [->|Hj']; [congruence|]. rewrite !Hm by done.
    destruct (others_leaving j q i Hj Hq Hi) as (q0 & H1 & H2). destruct (others_leaving j' q' i Hj' Hq' Hi') as (q1 & H3 & H4).
    by apply (L4 j j' q0 q1 i).
  - intros j q Hq Hp'. destruct (decide (j = k)) as [->|Hj].
    + simplify_eq. destruct Hp' as [Hp'|]; [by apply Hp | lia].
    + rewrite Hm by done. by eapply others_mine.
Qed.

(** The thread returns with the result of its position [i]. *)
Lemma linv_returns i e : e = mine g k -> p' = barrier_return i -> 1 <= i <= M -> ((e, i) ∉ (tag <$> log g)) -> (e <= epoch g)%nat ->
  (gone s' = gone (core g) /\ (e = epoch g -> i ∈ gone (core g)) /\ leaving p = Some i \/
   gone s' = i :: gone (core g) /\ e = epoch g /\ i ∉ gone (core g)) ->
  linv {| core := s'; epoch := epoch g; mine := mine g;
          log := {| r_epoch := e; r_pos := i; r_serial := i mod count =? 0 |} :: log g |}.
Proof using HL HI' Hk Hk' Hoth Hcount.
  intros He Hp Hi Hf Hle Hc. assert (Hsub : forall x, x ∈ gone (core g) -> x ∈ gone s').
  { intros x Hx. destruct Hc as [(-> & _)|(-> & _)]; [done | by right]. }
  pose proof HL as [L0 L1 L2 L3 L4 L5]. split; cbn [core epoch mine log]; auto.
  - intros r [->|Hr]%elem_of_cons; cbn [r_pos r_serial r_epoch].
    + split; [done|]. split; [apply serial_divides|]. split; [done|]. intros E.
      destruct Hc as [(-> & H1 & _)|(-> & _)]; [by apply H1 | by left].
    + destruct (L1 r Hr) as (A1 & A2 & A3 & A4). auto 6.
  - rewrite fmap_cons. by constructor.
  - intros j q i' Hq Hi'. destruct (decide (j = k)) as [->|Hj]; [by simplify_eq|].
    destruct (others_leaving j q i' Hj Hq Hi') as (q0 & H1 & H2). destruct (L3 j q0 i' H1 H2) as (A1 & A2 & A3 & A4).
    split; [done|]. split; [|auto]. rewrite fmap_cons, not_elem_of_cons. split; [|done]. unfold tag. cbn. intros [= E ->].
    destruct Hc as [(_ & _ & Hlv)|(_ & E' & Hn)].
    + apply (L4 j k q0 p i Hj H1 Hk H2 Hlv). congruence.
    + apply Hn, A4. congruence.
  - intros j j' q q' i' Hn Hq Hq' Hi1 Hi2. destruct (decide (j = k)) as [->|Hj]; [by simplify_eq|].
    destruct (decide (j' = k)) as [->|Hj']; [by simplify_eq|].
    destruct (others_leaving j q i' Hj Hq Hi1) as (q0 & H1 & H2). destruct (others_leaving j' q' i' Hj' Hq' Hi2) as (q1 & H3 & H4).
    by apply (L4 j j' q0 q1 i').
  - intros j q Hq Hp'. destruct (decide (j = k)) as [->|Hj]; [|by eapply others_mine].
    simplify_eq. unfold barrier_return in Hp'. destruct Hp' as [Hp'|Hp']; done.
Qed.

(** The thread leaves its position to do the reset, or goes on with it. *)
Lemma linv_leaves i : leaving p' = Some i -> position p' = None -> 1 <= i <= M -> mine g k = epoch g ->
  (gone s' = gone (core g) /\ leaving p = Some i \/ gone s' = i :: gone (core g) /\ i ∉ gone (core g)) ->
  linv {| core := s'; epoch := epoch g; mine := mine g; log := log g |}.
Proof using HL HI' Hk Hk' Hoth.
  intros Hl Hp Hi He Hc. assert (Hsub : forall x, x ∈ gone (core g) -> x ∈ gone s').
  { intros x Hx. destruct Hc as [(-> & _)|(-> & _)]; [done | by right]. }
  pose proof HL as [L0 L1 L2 L3 L4 L5].
  assert (Hne : forall j q, j <> k -> pcs (core g) !! j = Some q -> leaving q = Some i -> mine g j <> mine g k).
  { intros j q Hj Hq Hlq. destruct Hc as [(_ & Hlp)|(_ & Hn)]; [by apply (L4 j k q p i)|].
    intros E. apply Hn, (L3 j q i Hq Hlq). congruence. }
  split; cbn [core epoch mine log]; auto.
  - intros r Hr. destruct (L1 r Hr) as (A1 & A2 & A3 & A4). auto 6.
  - intros j q i' Hq Hi'. destruct (decide (j = k)) as [->|Hj].
    + simplify_eq. split; [done|]. split; [|split; [lia|]].
      * destruct Hc as [(_ & Hlp)|(_ & Hn)]; [by apply (L3 k p)|]. intros ([e x sr] & E & Hr)%list_elem_of_fmap.
        unfold tag in E. cbn in E. destruct (L1 _ Hr) as (_ & _ & _ & A). simplify_eq/=. apply Hn, A. congruence.
      * intros _. destruct Hc as [(-> & Hlp)|(-> & _)]; [by apply (L3 k p) | by left].
    + destruct (others_leaving j q i' Hj Hq Hi') as (q0 & H1 & H2). destruct (L3 j q0 i' H1 H2) as (A1 & A2 & A3 & A4). auto 6.
  - intros j j' q q' i' Hn Hq Hq' Hi1 Hi2. destruct (decide (j = k)) as [->|Hj]; [|destruct (decide (j' = k)) as [->|Hj']].
    + simplify_eq. destruct (others_leaving j' q' _ ltac:(done) Hq' Hi2) as (q1 & H3 & H4). symmetry. by apply (Hne j' q1).
    + simplify_eq. destruct (others_leaving j q _ Hj Hq Hi1) as (q0 & H1 & H2). by apply (Hne j q0).
    + destruct (others_leaving j q i' Hj Hq Hi1) as (q0 & H1 & H2). destruct (others_leaving j' q' i' Hj' Hq' Hi2) as (q1 & H3 & H4).
      by apply (L4 j j' q0 q1 i').
  - intros j q Hq Hp'. destruct (decide (j = k)) as [->|Hj]; [done | by eapply others_mine].
Qed.

(** The reset is over: a new epoch. *)
Lemma linv_restart i : p = ResetIn i -> p' = ResetWake i -> gone s' = [] ->
  linv {| core := s'; epoch := S (epoch g); mine := mine g; log := log g |}.
Proof using HL HI' Hk Hk' Hoth.
  intros Ep Ep' Hg. pose proof HL as [L0 L1 L2 L3 L4 L5]. subst p p'.
  assert (Hrk : total resetting (pcs (core g)) = 1 /\ total inside (pcs (core g)) = 0).
  { destruct (bi_reset _ L0) as [H1 H2]. pose proof (total_lookup resetting _ _ _ resetting_nonneg Hk) as H3. simpl in H3.
    destruct (H2 ltac:(lia)). lia. }
  split; cbn [core epoch mine log]; auto.
  - intros r Hr. destruct (L1 r Hr) as (A1 & A2 & A3 & _). split; [done|]. split; [done|]. split; lia.
  - assert (Hall : forall j q i', pcs (core g) !! j = Some q -> leaving q = Some i' ->
      1 <= i' <= M /\ ((mine g j, i') ∉ (tag <$> log g)) /\ (mine g j <= S (epoch g))%nat /\ (mine g j = S (epoch g) -> i' ∈ gone s')).
    { intros j q i' Hq Hi'. destruct (L3 j q i' Hq Hi') as (A1 & A2 & A3 & _). split; [done|]. split; [done|]. split; lia. }
    intros j q i' Hq Hi'. destruct (decide (j = k)) as [->|Hj]; [simplify_eq/=; by eapply Hall|].
    destruct (others_leaving j q i' Hj Hq Hi') as (q0 & H1 & H2). by eapply Hall.
  - intros j j' q q' i' Hn Hq Hq' Hi1 Hi2.
    assert (Hold : forall j q i', pcs s' !! j = Some q -> leaving q = Some i' -> exists q0, pcs (core g) !! j = Some q0 /\ leaving q0 = Some i').
    { intros j0 q0 i0 Hq0 Hi0. destruct (decide (j0 = k)) as [->|Hj0]; [simplify_eq/=; eauto | by eapply others_leaving]. }
    destruct (Hold j q i' Hq Hi1) as (q0 & H1 & H2). destruct (Hold j' q' i' Hq' Hi2) as (q1 & H3 & H4).
    by apply (L4 j j' q0 q1 i').
  - intros j q Hq Hp'. exfalso. destruct (decide (j = k)) as [->|Hj]; [simplify_eq/=; by destruct Hp'|].
    destruct (Hoth j q Hj Hq) as (q0 & H1 & E1 & _ & E2 & _). rewrite E1, E2 in Hp'. destruct Hp' as [Hp'|Hp'].
    + apply Hp'. eapply inside_zero; [apply Hrk | exact H1].
    + pose proof (total_lookup2 resetting _ _ _ _ _ resetting_nonneg Hj H1 Hk) as H. simpl in H. lia.
Qed.
End LoggedStep.

Lemma logged_step_inv c k g g' : linv g -> logged_step c k g = Some g' -> linv g'.
Proof using Hcount.
  intros HL E. unfold logged_step in E. destruct (pcs (core g) !! k) as [p|] eqn:Hk; [|done]. cbn [mbind option_bind] in E.
  destruct (barrier_step c k (core g)) as [s'|] eqn:Es; [|done]. cbn [mbind option_bind] in E.
  pose proof (barrier_step_inv _ _ _ _ (li_inv g HL) Es) as HI'.
  destruct (barrier_step_moved _ _ _ _ _ Es Hk) as [(p' & Hk' & Hm) Hoth]. rewrite Hk' in E. cbn [mbind option_bind] in E.
  destruct Hm as [Hl Hl' Hret Hp Hg | i -> -> Hg | i -> -> Hg | i Hl Hl' Hp Hr Hn Hg | i -> -> Hg | i -> -> Hg].
  - assert (returned p p' = None) as Er by (destruct (returned p p') as [[i r]|]; [by destruct (Hret i r) | done]).
    rewrite Er in E. simplify_eq. replace (match p with ResetIn _ => S (epoch g) | _ => epoch g end) with (epoch g) by by destruct p.
    apply (linv_inside g k p' s' HL HI' Hk' Hoth); auto.
    + intros j Hj. destruct p; try done. by rewrite decide_False.
    + intros Hp'. destruct (Hp Hp') as [->|Hpos]; [by rewrite decide_True|].
      pose proof (li_mine g HL k p Hk (or_introl Hpos)). by destruct p.
    + by destruct p'.
  - pose proof (position_range _ _ _ i (li_inv g HL) Hk eq_refl). pose proof (leave_fresh _ _ _ (li_inv g HL) Hk) as Hf.
    pose proof (li_mine g HL k _ Hk ltac:(by left)) as Em. simplify_eq/=.
    apply (linv_returns g k (Leave i) (barrier_return i) s' HL HI' Hk Hk' Hoth); auto; try lia.
    intros ([e x sr] & Et & Hr)%list_elem_of_fmap. unfold tag in Et. cbn in Et. simplify_eq.
    destruct (li_log g HL _ Hr) as (_ & _ & _ & A). apply Hf, A. done.
  - pose proof (position_range _ _ _ i (li_inv g HL) Hk eq_refl). pose proof (leave_fresh _ _ _ (li_inv g HL) Hk) as Hf.
    pose proof (li_mine g HL k _ Hk ltac:(by left)) as Em. simplify_eq/=.
    apply (linv_leaves g k (Leave i) (ResetRound i) s' HL HI' Hk Hk' Hoth i); auto. lia.
  - assert (returned p p' = None) as Er by (destruct p, p'; try done). rewrite Er in E.
    pose proof (li_mine g HL k p Hk (or_intror Hr)). destruct (li_leaving g HL k p i Hk Hl) as (A1 & _).
    destruct p; simplify_eq/=; try (by destruct (Hn i)); by eapply (linv_leaves g k _ p' s' HL HI' Hk Hk' Hoth i); auto.
  - simplify_eq/=. by apply (linv_restart g k (ResetIn i) (ResetWake i) s' HL HI' Hk Hk' Hoth i).
  - simplify_eq/=. destruct (li_leaving g HL k _ i Hk eq_refl) as (A1 & A2 & A3 & A4).
    apply (linv_returns g k (ResetWake i) (barrier_return i) s' HL HI' Hk Hk' Hoth); auto.
Qed.

Lemma logged_start_inv n : Z.of_nat n < INT_MAX -> linv (logged_start {| b_in := 0; b_current_round := 0; b_out := 0 |} n).
Proof using Hcount.
  intros Hn. split; cbn [core epoch mine log logged_start fmap list_fmap]; try done; try (by apply barrier_start_inv).
  - by intros r Hr%elem_of_nil.
  - constructor.
  - intros j p k (-> & _)%lookup_replicate. done.
  - intros j j' p p' k _ (-> & _)%lookup_replicate. done.
Qed.

(** The results of the round that ends with position [t] of an epoch. *)
Definition round_results (g : logged) (e : nat) (t : Z) : list result :=
  filter (fun r => r_epoch r = e /\ t - count < r_pos r <= t) (log g).
Definition serial_results (l : list result) : list result := filter (fun r => r_serial r = true) l.

Lemma round_results_spec g e t : linv g -> (count | t) ->
  let l := round_results g e t in
  Z.of_nat (length l) <= count /\ (length (serial_results l) <= 1)%nat /\
  (Z.of_nat (length l) = count -> length (serial_results l) = 1%nat).
Proof using Hcount.
  intros HL Ht l.
  assert (Hel : forall r, r ∈ l -> r_epoch r = e /\ t - count < r_pos r <= t /\ (r_serial r = true <-> r_pos r = t)).
  { intros r [[H1 H2] H3]%list_elem_of_filter. split; [done|]. split; [done|]. destruct (li_log g HL r H3) as (_ & -> & _).
    split; [|by intros ->]. intros Hd. pose proof (round_gap (t - count) (r_pos r)) as G.
    assert (count | t - count) by (apply Z.divide_sub_r; [done | apply Z.divide_refl]). pose proof (round_gap (r_pos r) t Hd Ht). lia. }
  assert (Hnd : NoDup (r_pos <$> l)).
  { apply (NoDup_fmap_1 (fun k : Z => (e, k))). rewrite <- list_fmap_compose.
    assert ((fun k : Z => (e, k)) ∘ r_pos <$> l = tag <$> l) as ->.
    { apply list_fmap_ext. intros i r Hr%list_elem_of_lookup_2. unfold tag. cbn. by destruct (Hel r Hr) as [-> _]. }
    eapply sublist_NoDup; [apply (li_nodup g HL)|]. apply fmap_sublist, sublist_filter. }
  assert (Hsub : r_pos <$> l ⊆+ seqZ (t - count + 1) count).
  { apply NoDup_submseteq; [done|]. intros x (r & -> & Hr)%list_elem_of_fmap. apply elem_of_seqZ. destruct (Hel r Hr) as (_ & ? & _). lia. }
  assert (Hser : (length (serial_results l) <= 1)%nat).
  { assert (Hs : r_pos <$> serial_results l ⊆+ [t]).
    { apply NoDup_submseteq; [eapply sublist_NoDup; [exact Hnd | apply fmap_sublist, sublist_filter]|].
      intros x (r & -> & [H1 H2]%list_elem_of_filter)%list_elem_of_fmap. destruct (Hel r H2) as (_ & _ & A). apply list_elem_of_singleton. tauto. }
    apply submseteq_length in Hs. by rewrite length_fmap in Hs. }
  pose proof (submseteq_length _ _ Hsub) as Hlen. rewrite length_fmap, length_seqZ in Hlen.
  split; [lia|]. split; [done|]. intros Hfull.
  assert (Hin : t ∈ r_pos <$> l).
  { rewrite (submseteq_length_Permutation _ _ Hsub); [apply elem_of_seqZ; lia|]. rewrite length_fmap, length_seqZ. lia. }
  apply list_elem_of_fmap in Hin as (r & Er & Hr). destruct (Hel r Hr) as (_ & _ & A).
  assert (Hr' : r ∈ serial_results l) by (apply list_elem_of_filter; split; [by apply A | done]).
  destruct (serial_results l) as [|? [|]] eqn:El; [by apply elem_of_nil in Hr' | done | cbn in Hser; lia].
Qed.
End Barrier.

(** * The claims *)

(** C22: a barrier initialised for [count] threads, used by any number of
    threads below INT_MAX under every interleaving, with spurious failures and
    wake-ups and through any number of resets: a thread that is about to leave
    does so after all [count] threads of its round have entered; every position
    since the last reset belongs to exactly one thread, inside or gone; of the
    calls of a round (the positions [t - count + 1 .. t] of an epoch between
    two resets) at most [count] return, at most one of them with
    PTHREAD_BARRIER_SERIAL_THREAD, and once all have returned exactly one; the
    counter never overflows; and a reset is done by one thread alone, while no
    thread is inside. *)
Theorem barrier_safe count n b g : 0 <= count -> Z.of_nat n < INT_MAX -> pthread_barrier_init count = Some b ->
  reachable (logged_step count) (logged_start b n) g ->
  let s := core g in
  (forall j i, pcs s !! j = Some (Leave i) -> round_end count i <= b_in (bar s) /\ i <= round_end count i < i + count /\
     (count | round_end count i)) /\
  (forall k, 1 <= k <= Z.min (b_in (bar s)) (max_in_before_reset count) ->
     total (at_position k) (pcs s) + Z.of_nat (count_occ Z.eq_dec (gone s) k) = 1) /\
  (forall e t, (count | t) -> let l := round_results count g e t in
     Z.of_nat (length l) <= count /\ (length (serial_results l) <= 1)%nat /\
     (Z.of_nat (length l) = count -> length (serial_results l) = 1%nat)) /\
  b_in (bar s) + 1 < 2 ^ 32 /\
  (0 < total resetting (pcs s) -> total resetting (pcs s) = 1 /\ total inside (pcs s) = 0).
Proof.
  intros Hc Hn Hi Hr s. unfold pthread_barrier_init in Hi. destruct (Z.eqb_spec count 0); [done|].
  destruct (Z.leb_spec BARRIER_IN_THRESHOLD count); simplify_eq/=. assert (Hcount : 1 <= count < BARRIER_IN_THRESHOLD) by lia.
  assert (HL : linv count g).
  { eapply (reachable_inv (logged_step count)); [by apply logged_start_inv | | exact Hr]. intros. by eapply logged_step_inv. }
  pose proof (li_inv count g HL) as HI. fold s in HI.
  split; [|split; [|split; [|split]]].
  - intros j i Hj. pose proof (bi_good count s HI j _ Hj) as Hg. simpl in Hg. pose proof (bi_round count s HI) as [H1 H2].
    destruct (round_end_spec count Hcount i) as [H3 H4]. split; [|done].
    pose proof (round_gap count Hcount _ _ H1 H3). lia.
  - intros k Hk. rewrite (bi_position count s HI k).
    destruct (Z.leb_spec 1 k), (Z.leb_spec k (Z.min (b_in (bar s)) (max_in_before_reset count))); simpl; lia.
  - intros e t Ht. by apply round_results_spec.
  - by apply (in_bound count Hcount).
  - intros Hp. destruct (bi_reset count s HI) as [H1 H2]. destruct (H2 Hp). lia.
Qed.

(** A round of two is over; a third thread has entered the next. *)
Definition example_schedule : list (nat * barrier_choice) :=
  [(0, CallWait); (0, Run); (0, Run); (0, Run); (0, Run); (1, CallWait); (1, Run); (1, Run); (1, Run);
   (1, WakeChoice [0]); (2, CallWait); (2, Run); (1, Run); (0, Run); (0, Run)]%nat.

Example example_barrier_results : (fun g => (pcs (core g), log g)) <$>
    run_schedule (logged_step 2) example_schedule (logged_start (Build_barrier 0 0 0) 3) =
  Some ([Out (Some false); Out (Some true); LoadRound 3], [Build_result 0 1 false; Build_result 0 2 true]).
Proof. vm_compute. reflexivity. Qed.

Lemma barrier_safe_witness : exists g, reachable (logged_step 2) (logged_start (Build_barrier 0 0 0) 3) g /\
  length (round_results 2 g 0 2) = 2%nat /\ length (serial_results (round_results 2 g 0 2)) = 1%nat.
Proof.
  pose proof example_barrier_results as Hs.
  destruct (run_schedule _ _ _) as [g|] eqn:E; [|discriminate Hs]. injection Hs as _ Hl. exists g.
  assert (H1 : reachable (logged_step 2) (logged_start (Build_barrier 0 0 0) 3) g) by exact (run_schedule_reachable _ _ _ _ E).
  assert (H2 : length (round_results 2 g 0 2) = 2%nat) by (unfold round_results; by rewrite Hl).
  split; [exact H1|]. split; [exact H2|].
  destruct (barrier_safe 2 3 (Build_barrier 0 0 0) g) as (_ & _ & H3 & _); [lia | reflexivity | reflexivity | exact H1|].
  destruct (H3 0%nat 2 (Z.divide_refl 2)) as (_ & _ & H4). apply H4. by rewrite H2.
Defined.

(** C23: nobody is left behind by a barrier: in every reachable state in which
    no thread can do a step of its own (each is outside or blocked on one of the
    two futex words), none waits for a reset and fewer than [count] wait for
    their round, so that their round is incomplete: no wake-up of a complete
    round, nor of a finished reset, is ever lost. *)
Theorem barrier_no_lost_wakeup count n b s : 0 <= count -> Z.of_nat n < INT_MAX -> pthread_barrier_init count = Some b ->
  reachable (barrier_step count) (barrier_start b n) s ->
  Forall barrier_resting (pcs s) -> total in_blocked (pcs s) = 0 /\ total round_blocked (pcs s) < count.
Proof.
  intros Hc Hn Hi Hr Hrest. unfold pthread_barrier_init in Hi. destruct (Z.eqb_spec count 0); [done|].
  destruct (Z.leb_spec BARRIER_IN_THRESHOLD count); simplify_eq/=. assert (Hcount : 1 <= count < BARRIER_IN_THRESHOLD) by lia.
  apply (quiet_spec count Hcount); [|done].
  eapply (reachable_inv (barrier_step count)); [by apply barrier_start_inv | | exact Hr]. intros. by eapply barrier_step_inv.
Qed.

Lemma barrier_no_lost_wakeup_witness : exists s,
  run_schedule (barrier_step 2) [(0, CallWait); (0, Run); (0, Run); (0, Run); (0, Run)]%nat (barrier_start (Build_barrier 0 0 0) 2)
    = Some s /\ pcs s = [RoundBlocked 1 0; Out None] /\ total round_blocked (pcs s) < 2.
Proof.
  destruct (run_schedule _ _ _) as [s|] eqn:E; [|vm_compute in E; discriminate E]. exists s. split; [reflexivity|].
  assert (Hs : s = Build_state (Build_barrier 1 0 0) [RoundBlocked 1 0; Out None] []) by (vm_compute in E; congruence).
  split; [by rewrite Hs|].
  apply (barrier_no_lost_wakeup 2 2 (Build_barrier 0 0 0) s).
  - lia.
  - vm_compute. reflexivity.
  - vm_compute. reflexivity.
  - eapply run_schedule_reachable, E.
  - rewrite Hs. repeat constructor.
Defined.
