(* ===== verification/Rwlock.v ===== *)
(** * Read-write locks (nptl/pthread_rwlock_common.c, pthread_rwlock_tryrdlock.c, ...)

    The words of the lock are 32-bit integers, as in the code.  [pc] names the points between
    two atomic operations; the functions [rdlock], [wrlock], ... each give, for a
    point, the words after the next atomic operation and where the thread goes on.
    Decisions that only look at local variables belong to the step before. *)

From Stdlib Require Import ZArith.
From stdpp Require Import base list.
From S2P Require Import Prelude Threads.
#[local] Open Scope Z_scope.

Definition PTHREAD_RWLOCK_WRPHASE : Z := 1.
Definition PTHREAD_RWLOCK_WRLOCKED : Z := 2.
Definition PTHREAD_RWLOCK_RWAITING : Z := 4.
Definition PTHREAD_RWLOCK_READER_SHIFT : Z := 3.
Definition PTHREAD_RWLOCK_READER_OVERFLOW : Z := 2 ^ 31.
Definition PTHREAD_RWLOCK_WRHANDOVER : Z := 2 ^ 31.
Definition PTHREAD_RWLOCK_FUTEX_USED : Z := 2.

Inductive kind := PREFER_READER | PREFER_WRITER | PREFER_WRITER_NONRECURSIVE.
Inductive errno := ETIMEDOUT | EOVERFLOW | EDEADLK | EAGAIN | EBUSY | EINVAL.

(** When waiting ends: never; at a time in the future; with an error at once (the time
    is before the epoch, or does not fit the kernel's type); the time is not valid. *)
Inductive timing := Forever | Until | Fails (e : errno) | Invalid.

Record rwlock := { readers : Z; writers : Z; wrphase_futex : Z; writers_futex : Z; cur_writer : Z }.

Definition set_readers (x : Z) (l : rwlock) : rwlock :=
  {| readers := x; writers := writers l; wrphase_futex := wrphase_futex l; writers_futex := writers_futex l; cur_writer := cur_writer l |}.
Definition set_writers (x : Z) (l : rwlock) : rwlock :=
  {| readers := readers l; writers := x; wrphase_futex := wrphase_futex l; writers_futex := writers_futex l; cur_writer := cur_writer l |}.
Definition set_wrphase_futex (x : Z) (l : rwlock) : rwlock :=
  {| readers := readers l; writers := writers l; wrphase_futex := x; writers_futex := writers_futex l; cur_writer := cur_writer l |}.
Definition set_writers_futex (x : Z) (l : rwlock) : rwlock :=
  {| readers := readers l; writers := writers l; wrphase_futex := wrphase_futex l; writers_futex := x; cur_writer := cur_writer l |}.
Definition set_cur_writer (x : Z) (l : rwlock) : rwlock :=
  {| readers := readers l; writers := writers l; wrphase_futex := wrphase_futex l; writers_futex := writers_futex l; cur_writer := x |}.

(** After memset; the kind and the sharing are parameters of the operations. *)
Definition pthread_rwlock_init : rwlock := {| readers := 0; writers := 0; wrphase_futex := 0; writers_futex := 0; cur_writer := 0 |}.

(** (r & PTHREAD_RWLOCK_WRPHASE) != 0 and the like *)
Definition wrphase (r : Z) : bool := negb (Z.land r PTHREAD_RWLOCK_WRPHASE =? 0).
Definition wrlocked (r : Z) : bool := negb (Z.land r PTHREAD_RWLOCK_WRLOCKED =? 0).
Definition rwaiting (r : Z) : bool := negb (Z.land r PTHREAD_RWLOCK_RWAITING =? 0).
Definition nreaders (r : Z) : Z := Z.shiftr r PTHREAD_RWLOCK_READER_SHIFT.
Definition futex_used (f : Z) : bool := negb (Z.land f PTHREAD_RWLOCK_FUTEX_USED =? 0).
Definition one_reader : Z := Z.shiftl 1 PTHREAD_RWLOCK_READER_SHIFT.
Definition clear_rwaiting (r : Z) : Z := Z.land r (wrap 32 (Z.lnot PTHREAD_RWLOCK_RWAITING)).

Inductive pc :=
| Out (result : option errno)            (* outside; [None] for success *)
| UnLoad                                 (* pthread_rwlock_unlock: load __cur_writer *)
(* __pthread_rwlock_rdunlock *)
| RuLoad | RuLoop (r : Z)
| RuPhase (wake : bool)                  (* exchange __wrphase_futex; [wake]: RWAITING was reset *)
| RuPhaseWake (wake : bool) | RuWake
(* __pthread_rwlock_rdlock_full64 *)
| RdCheck (t : timing)                   (* load __cur_writer *)
| RdPreferLoad (t : timing) | RdPrefer (t : timing) (r : Z)
| RdPreferTest (t : timing) | RdPreferWait (t : timing) (r : Z) | RdPreferBlocked (t : timing)
| RdAdd (t : timing) | RdOverflow (t : timing) (r : Z)
| RdStart (t : timing) (r : Z) | RdStartStore | RdStartWake
| RdWait (t : timing) (ready : bool) | RdMark (t : timing) (ready : bool) (wpf : Z)
| RdFutex (t : timing) (ready : bool) | RdBlocked (t : timing) (ready : bool)
| RdTimeLoad (e : errno) | RdTime (e : errno) (r : Z) | RdSpin
| RdTest (t : timing)                    (* load __readers: is it a read phase? *)
(* __pthread_rwlock_wrunlock *)
| WuClear | WuFutex | WuHandLoad (wake : bool) | WuHand (wake : bool) (w : Z)
| WuLoad (wake : bool) | WuLoop (wake : bool) (r : Z)
| WuPhase (wake : bool) | WuPhaseWake (wake : bool) | WuWake
(* __pthread_rwlock_wrlock_full64 *)
| WrCheck (t : timing) | WrOr (t : timing) | WrRegister (t : timing) (r : Z)
| WrCas (t : timing) (share : bool) (r : Z) | WrUnregister (t : timing) (share : bool) (r : Z)
| WrHandLoad (t : timing) (share : bool) (r : Z) | WrHand (t : timing) (share : bool) (r w : Z)
| WrReload (t : timing) (share : bool)   (* WRLOCKED is ours: load __readers *)
| WrFutexLoad (t : timing) (share : bool) | WrFutexMark (t : timing) (share : bool) (wf : Z)
| WrAgain (t : timing) (share : bool)    (* load __readers and continue *)
| WrFutex (t : timing) | WrFutexBlocked (t : timing)
| WrTimeLoad (t : timing) (e : errno) | WrTime (t : timing) (e : errno) (w : Z)
| WrEnable (t : timing) (share : bool) (r : Z)
| WrStart (t : timing) (r : Z) | WrStartStore
| WrWait (t : timing) (ready : bool) | WrMark (t : timing) (ready : bool) (wpf : Z)
| WrWaitFutex (t : timing) (ready : bool) | WrBlocked (t : timing) (ready : bool)
| WtHandLoad (e : errno) | WtHandFutex (e : errno) (w : Z) | WtHand (e : errno) (w wf : Z)
| WtHandWake (e : errno) | WtHandRestore (wf : Z)
| WtLoad | WtFutex (r : Z) | WtLoop (r wf : Z)
| WtWake (wake : bool) | WtWakeReaders | WtRestore (wf : Z) | WtSpin
| WrTest (t : timing)                    (* load __readers: is it a write phase? *)
| WrDone                                 (* store __cur_writer *)
(* pthread_rwlock_tryrdlock, pthread_rwlock_trywrlock *)
| TrLoad | TrLoop (r : Z) | TrPhase | TrWake
| TwLoad | TwLoop (r : Z) | TwFutex (r : Z) | TwPhase.

(** What the step changes of what the thread holds. *)
Inductive effect := Nothing | GetRead | GetWrite | DropRead | DropWrite.

Definition outcome := (rwlock * pc * effect)%type.

Section Operations.
Context (flags : kind).

Definition prefer_writer : bool := match flags with PREFER_READER => false | _ => true end.
Definition nonrecursive : bool := match flags with PREFER_WRITER_NONRECURSIVE => true | _ => false end.

Definition go (l : rwlock) (p : pc) : option outcome := Some (l, p, Nothing).
Definition return_ (l : rwlock) (e : errno) : option outcome := Some (l, Out (Some e), Nothing).

(** atomic_compare_exchange_weak: [weak] is a failure although the words are equal. *)
Definition cas (weak : bool) (word expected : Z) : bool := negb weak && (word =? expected).

(** A futex wait that reaches the kernel blocks if the word is as expected. *)
Definition futex_wait (t : timing) (word expected : Z) (blocked retry : pc) (failed : errno -> pc) : pc :=
  match t with Fails e => failed e | _ => if word =? expected then blocked else retry end.

(** ** Readers *)

Definition rdunlock_new (r : Z) : Z :=
  let rnew := wrap 32 (r - one_reader) in
  if nreaders rnew =? 0 then clear_rwaiting (if wrlocked rnew then Z.lor rnew PTHREAD_RWLOCK_WRPHASE else rnew) else rnew.

Definition rdunlock (weak : bool) (p : pc) (l : rwlock) : option outcome :=
  match p with
  | RuLoad => go l (RuLoop (readers l))
  | RuLoop r =>
      let rnew := rdunlock_new r in
      if cas weak (readers l) r then
        let wake := negb (Bool.eqb (rwaiting r) (rwaiting rnew)) in
        go (set_readers rnew l) (if wrphase rnew then RuPhase wake else if wake then RuWake else Out None)
      else go l (RuLoop (readers l))
  | RuPhase wake => go (set_wrphase_futex 1 l) (if futex_used (wrphase_futex l) then RuPhaseWake wake else if wake then RuWake else Out None)
  | _ => None
  end.

(** while WRPHASE is not set, WRLOCKED is and there are readers *)
Definition rd_prefer (t : timing) (r : Z) : pc :=
  if negb (wrphase r) && wrlocked r && (0 <? nreaders r) then RdPrefer t r else RdAdd t.

(** while (r >= PTHREAD_RWLOCK_READER_OVERFLOW); the fast path, which acquires; else the
    loop that tries to start a read phase *)
Definition rd_start (t : timing) (r : Z) : pc := if wrphase r && negb (wrlocked r) then RdStart t r else RdWait t false.
Definition rd_registered (l : rwlock) (t : timing) (r : Z) : option outcome :=
  if PTHREAD_RWLOCK_READER_OVERFLOW <=? r then go l (RdOverflow t r)
  else if wrphase r then go l (rd_start t r) else Some (l, Out None, GetRead).

(** while ((r & PTHREAD_RWLOCK_WRPHASE) != 0), after a time-out *)
Definition rd_time (e : errno) (r : Z) : pc := if wrphase r then RdTime e r else RdSpin.

Definition rdlock (weak : bool) (self : Z) (p : pc) (l : rwlock) : option outcome :=
  match p with
  | RdCheck t => if cur_writer l =? self then return_ l EDEADLK else go l (if nonrecursive then RdPreferLoad t else RdAdd t)
  | RdPreferLoad t => go l (rd_prefer t (readers l))
  | RdPrefer t r =>
      if cas weak (readers l) r then go (set_readers (Z.lor r PTHREAD_RWLOCK_RWAITING) l) (RdPreferTest t)
      else go l (rd_prefer t (readers l))
  | RdPreferTest t => go l (if rwaiting (readers l) then RdPreferWait t (readers l) else rd_prefer t (readers l))
  | RdPreferWait t r => go l (futex_wait t (readers l) r (RdPreferBlocked t) (RdPreferTest t) (fun e => Out (Some e)))
  | RdAdd t => let r := wrap 32 (readers l + one_reader) in rd_registered (set_readers r l) t r
  | RdOverflow t r =>
      if cas weak (readers l) r then return_ (set_readers (wrap 32 (r - one_reader)) l) EAGAIN
      else rd_registered l t (readers l)
  | RdStart t r =>
      if cas weak (readers l) r then go (set_readers (Z.lxor r PTHREAD_RWLOCK_WRPHASE) l) RdStartStore
      else go l (rd_start t (readers l))
  | RdStartStore =>
      let l' := set_wrphase_futex 0 l in
      if futex_used (wrphase_futex l) then go l' RdStartWake else Some (l', Out None, GetRead)
  | RdWait t ready =>
      let wpf := wrphase_futex l in
      if Z.lor wpf PTHREAD_RWLOCK_FUTEX_USED =? Z.lor 1 PTHREAD_RWLOCK_FUTEX_USED then go l (if futex_used wpf then RdFutex t ready else RdMark t ready wpf)
      else if ready then Some (l, Out None, GetRead) else go l (RdTest t)
  | RdMark t ready wpf =>
      if cas weak (wrphase_futex l) wpf then go (set_wrphase_futex (Z.lor wpf PTHREAD_RWLOCK_FUTEX_USED) l) (RdFutex t ready)
      else go l (RdWait t ready)
  | RdFutex t ready => go l (futex_wait t (wrphase_futex l) (Z.lor 1 PTHREAD_RWLOCK_FUTEX_USED) (RdBlocked t ready) (RdWait t ready) RdTimeLoad)
  | RdTimeLoad e => go l (rd_time e (readers l))
  | RdTime e r =>
      if cas weak (readers l) r then return_ (set_readers (wrap 32 (r - one_reader)) l) e
      else go l (rd_time e (readers l))
  | RdSpin =>
      if Z.lor (wrphase_futex l) PTHREAD_RWLOCK_FUTEX_USED =? Z.lor 1 PTHREAD_RWLOCK_FUTEX_USED then go l RdSpin
      else Some (l, Out None, GetRead)
  | RdTest t => go l (RdWait t (negb (wrphase (readers l))))
  | _ => None
  end.

Definition tryrdlock (weak : bool) (p : pc) (l : rwlock) : option outcome :=
  match p with
  | TrLoad => go l (TrLoop (readers l))
  | TrLoop r =>
      if (if wrphase r then wrlocked r else wrlocked r && nonrecursive) then return_ l EBUSY
      else
        let rnew := wrap 32 (r + one_reader) in
        let rnew := if wrphase r then Z.lxor rnew PTHREAD_RWLOCK_WRPHASE else rnew in
        if PTHREAD_RWLOCK_READER_OVERFLOW <=? rnew then return_ l EAGAIN
        else if cas weak (readers l) r then
          let l := set_readers rnew l in
          if wrphase r then go l TrPhase else Some (l, Out None, GetRead)
        else go l (TrLoop (readers l))
  | TrPhase =>
      let l' := set_wrphase_futex 0 l in
      if futex_used (wrphase_futex l) then go l' TrWake else Some (l', Out None, GetRead)
  | _ => None
  end.

(** ** Writers *)

Definition wu_hand (wake : bool) (w : Z) : pc := if w =? 0 then WuLoad wake else WuHand wake w.
Definition wu_done (wake : bool) : pc := if wake then WuWake else Out None.

Definition wrunlock_new (r : Z) : Z :=
  Z.lxor (Z.lxor r PTHREAD_RWLOCK_WRLOCKED) (if nreaders r =? 0 then 0 else PTHREAD_RWLOCK_WRPHASE).

Definition wrunlock (weak : bool) (p : pc) (l : rwlock) : option outcome :=
  match p with
  | WuClear => go (set_cur_writer 0 l) WuFutex
  | WuFutex =>
      let wake := futex_used (writers_futex l) in
      go (set_writers_futex 0 l) (if prefer_writer then WuHandLoad wake else WuLoad wake)
  | WuHandLoad wake => go l (wu_hand wake (writers l))
  | WuHand wake w =>
      if cas weak (writers l) w then go (set_writers (Z.lor w PTHREAD_RWLOCK_WRHANDOVER) l) (wu_done wake)
      else go l (wu_hand wake (writers l))
  | WuLoad wake => go l (WuLoop wake (readers l))
  | WuLoop wake r =>
      if cas weak (readers l) r then go (set_readers (wrunlock_new r) l) (if nreaders r =? 0 then wu_done wake else WuPhase wake)
      else go l (WuLoop wake (readers l))
  | WuPhase wake => go (set_wrphase_futex 0 l) (if futex_used (wrphase_futex l) then WuPhaseWake wake else wu_done wake)
  | _ => None
  end.

(** The head of the loop of a writer that is not the primary one. *)
Definition wr_loop (t : timing) (share : bool) (r : Z) : pc :=
  if wrlocked r then if prefer_writer then WrHandLoad t share r else WrFutexLoad t share
  else WrCas t share r.

(** After __writers_futex has been enabled: the lock is ours in a write phase, otherwise
    the loop that tries to start one. *)
Definition wr_start (t : timing) (r : Z) : pc := if negb (wrphase r) && (nreaders r =? 0) then WrStart t r else WrWait t false.

(** A primary writer whose waiting failed. *)
Definition wt_hand (e : errno) (w wf : Z) : pc := if w =? 0 then WtHandRestore wf else WtHand e w wf.
Definition wt_loop (r wf : Z) : pc := if wrphase r then WtRestore wf else WtLoop r wf.

Definition wrlock (weak : bool) (self : Z) (p : pc) (l : rwlock) : option outcome :=
  match p with
  | WrCheck t => if cur_writer l =? self then return_ l EDEADLK else go l (WrOr t)
  | WrOr t =>
      let r := readers l in
      go (set_readers (Z.lor r PTHREAD_RWLOCK_WRLOCKED) l)
        (if wrlocked r then if prefer_writer then WrRegister t r else wr_loop t false r else WrEnable t false r)
  | WrRegister t r => go (set_writers (wrap 32 (writers l + 1)) l) (wr_loop t false r)
  | WrCas t share r =>
      if cas weak (readers l) r then
        go (set_readers (Z.lor r PTHREAD_RWLOCK_WRLOCKED) l)
          (if prefer_writer then WrUnregister t share r else WrEnable t share (Z.lor r PTHREAD_RWLOCK_WRLOCKED))
      else go l (wr_loop t share (readers l))
  | WrUnregister t share r => go (set_writers (wrap 32 (writers l - 1)) l) (WrEnable t share (Z.lor r PTHREAD_RWLOCK_WRLOCKED))
  | WrHandLoad t share r =>
      let w := writers l in
      go l (if negb (Z.land w PTHREAD_RWLOCK_WRHANDOVER =? 0) then WrHand t share r w else WrFutexLoad t share)
  | WrHand t share r w =>
      if cas weak (writers l) w then go (set_writers (wrap 32 (w - PTHREAD_RWLOCK_WRHANDOVER - 1)) l) (WrReload t share)
      else go l (wr_loop t share r)
  | WrReload t share => go l (WrEnable t share (Z.lor (readers l) PTHREAD_RWLOCK_WRLOCKED))
  | WrFutexLoad t share =>
      let wf := writers_futex l in
      go l (if negb (Z.land wf (wrap 32 (Z.lnot PTHREAD_RWLOCK_FUTEX_USED)) =? 1) then WrAgain t share
            else if wf =? Z.lor 1 PTHREAD_RWLOCK_FUTEX_USED then WrFutex t else WrFutexMark t share wf)
  | WrFutexMark t share wf =>
      if cas weak (writers_futex l) wf then go (set_writers_futex (Z.lor 1 PTHREAD_RWLOCK_FUTEX_USED) l) (WrFutex t)
      else go l (WrAgain t share)
  | WrAgain t share => go l (wr_loop t share (readers l))
  | WrFutex t =>
      go l (futex_wait t (writers_futex l) (Z.lor 1 PTHREAD_RWLOCK_FUTEX_USED) (WrFutexBlocked t) (WrAgain t true)
              (fun e => if prefer_writer then WrTimeLoad t e else Out (Some e)))
  | WrTimeLoad t e => go l (WrTime t e (writers l))
  | WrTime t e w =>
      let last := w =? PTHREAD_RWLOCK_WRHANDOVER + 1 in
      if cas weak (writers l) w then go (set_writers (if last then 0 else wrap 32 (w - 1)) l) (if last then WrReload t true else Out (Some e))
      else go l (WrTime t e (writers l))
  | WrEnable t share r =>
      go (set_writers_futex (Z.lor 1 (if share then PTHREAD_RWLOCK_FUTEX_USED else 0)) l) (if wrphase r then WrDone else wr_start t r)
  | WrStart t r =>
      if cas weak (readers l) r then go (set_readers (Z.lor r PTHREAD_RWLOCK_WRPHASE) l) WrStartStore
      else go l (wr_start t (readers l))
  | WrStartStore => go (set_wrphase_futex 1 l) WrDone
  | WrWait t ready =>
      let wpf := wrphase_futex l in
      if Z.lor wpf PTHREAD_RWLOCK_FUTEX_USED =? PTHREAD_RWLOCK_FUTEX_USED then go l (if futex_used wpf then WrWaitFutex t ready else WrMark t ready wpf)
      else go l (if ready then WrDone else WrTest t)
  | WrMark t ready wpf =>
      if cas weak (wrphase_futex l) wpf then go (set_wrphase_futex PTHREAD_RWLOCK_FUTEX_USED l) (WrWaitFutex t ready)
      else go l (WrWait t ready)
  | WrWaitFutex t ready =>
      go l (futex_wait t (wrphase_futex l) PTHREAD_RWLOCK_FUTEX_USED (WrBlocked t ready) (WrWait t ready)
              (fun e => if prefer_writer then WtHandLoad e else WtLoad))
  | WtHandLoad e => go l (if writers l =? 0 then WtLoad else WtHandFutex e (writers l))
  | WtHandFutex e w => go (set_writers_futex 0 l) (wt_hand e w (writers_futex l))
  | WtHand e w wf =>
      if cas weak (writers l) w then go (set_writers (Z.lor w PTHREAD_RWLOCK_WRHANDOVER) l) (if futex_used wf then WtHandWake e else Out (Some e))
      else go l (wt_hand e (writers l) wf)
  | WtHandRestore wf => go (set_writers_futex wf l) WtLoad
  | WtLoad => let r := readers l in go l (if wrphase r then WtSpin else WtFutex r)
  | WtFutex r => go (set_writers_futex 0 l) (wt_loop r (writers_futex l))
  | WtLoop r wf =>
      if cas weak (readers l) r then
        go (set_readers (clear_rwaiting (Z.lxor r PTHREAD_RWLOCK_WRLOCKED)) l)
          (if futex_used wf then WtWake (rwaiting r) else if rwaiting r then WtWakeReaders else Out (Some ETIMEDOUT))
      else go l (wt_loop (readers l) wf)
  | WtRestore wf => go (set_writers_futex wf l) WtSpin
  | WtSpin => go l (if Z.lor (wrphase_futex l) PTHREAD_RWLOCK_FUTEX_USED =? PTHREAD_RWLOCK_FUTEX_USED then WtSpin else WrDone)
  | WrTest t => go l (WrWait t (wrphase (readers l)))
  | WrDone => Some (set_cur_writer self l, Out None, GetWrite)
  | _ => None
  end.

Definition tw_loop (r : Z) : pc :=
  if negb (wrlocked r) && ((nreaders r =? 0) || (prefer_writer && wrphase r)) then TwLoop r else Out (Some EBUSY).

Definition trywrlock (weak : bool) (self : Z) (p : pc) (l : rwlock) : option outcome :=
  match p with
  | TwLoad => go l (tw_loop (readers l))
  | TwLoop r =>
      if cas weak (readers l) r then go (set_readers (Z.lor (Z.lor r PTHREAD_RWLOCK_WRPHASE) PTHREAD_RWLOCK_WRLOCKED) l) (TwFutex r)
      else go l (tw_loop (readers l))
  | TwFutex r => go (set_writers_futex 1 l) (if wrphase r then WrDone else TwPhase)
  | TwPhase => go (set_wrphase_futex 1 l) WrDone
  | _ => None
  end.

Definition unlock (self : Z) (p : pc) (l : rwlock) : option outcome :=
  match p with
  | UnLoad => if cur_writer l =? self then Some (l, WuClear, DropWrite) else Some (l, RuLoad, DropRead)
  | _ => None
  end.

(** ** Threads *)

(** A thread: where it is, how many read locks it holds, and whether it holds the write
    lock. *)
Record thread := { at_ : pc; rd : nat; wr : bool }.

Record state := { lock : rwlock; threads : list thread }.

Definition goto (p : pc) (t : thread) : thread := {| at_ := p; rd := rd t; wr := wr t |}.

Definition affect (e : effect) (p : pc) (t : thread) : thread :=
  match e with
  | Nothing => goto p t
  | GetRead => {| at_ := p; rd := S (rd t); wr := wr t |}
  | GetWrite => {| at_ := p; rd := rd t; wr := true |}
  | DropRead => {| at_ := p; rd := pred (rd t); wr := wr t |}
  | DropWrite => {| at_ := p; rd := rd t; wr := false |}
  end.

Inductive call := Rdlock (t : timing) | Wrlock (t : timing) | Tryrdlock | Trywrlock | Unlock.

Inductive choice :=
| Call (c : call)
| Run
| Weak                          (* a compare-and-exchange fails spuriously *)
| WakeChoice (ws : list nat)
| FutexReturn                   (* futex_wait returns on its own *)
| TimeOut.

(** Only a thread that holds the lock unlocks it. *)
Definition entry (c : call) (t : thread) : option pc :=
  match c with
  | Rdlock Invalid | Wrlock Invalid => Some (Out (Some EINVAL))
  | Rdlock t => Some (RdCheck t)
  | Wrlock t => Some (WrCheck t)
  | Tryrdlock => Some TrLoad
  | Trywrlock => Some TwLoad
  | Unlock => if negb (Nat.eqb (rd t) 0) || wr t then Some UnLoad else None
  end.

(** The thread ID of thread [k]. *)
Definition tid (k : nat) : Z := Z.of_nat k + 1.

Definition op (weak : bool) (self : Z) (p : pc) (l : rwlock) : option outcome :=
  match p with
  | UnLoad => unlock self p l
  | RuLoad | RuLoop _ | RuPhase _ => rdunlock weak p l
  | TrLoad | TrLoop _ | TrPhase => tryrdlock weak p l
  | TwLoad | TwLoop _ | TwFutex _ | TwPhase => trywrlock weak self p l
  | WuClear | WuFutex | WuHandLoad _ | WuHand _ _ | WuLoad _ | WuLoop _ _ | WuPhase _ => wrunlock weak p l
  | RdCheck _ | RdPreferLoad _ | RdPrefer _ _ | RdPreferTest _ | RdPreferWait _ _ | RdAdd _ | RdOverflow _ _ | RdStart _ _ | RdStartStore
  | RdWait _ _ | RdMark _ _ _ | RdFutex _ _ | RdTimeLoad _ | RdTime _ _ | RdSpin | RdTest _ => rdlock weak self p l
  | _ => wrlock weak self p l
  end.

(** Threads blocked on __wrphase_futex, __readers and __writers_futex. *)
Definition unblock_phase (t : thread) : option thread :=
  match at_ t with
  | RdBlocked tm ready => Some (goto (RdWait tm ready) t)
  | WrBlocked tm ready => Some (goto (WrWait tm ready) t)
  | _ => None
  end.
Definition unblock_readers (t : thread) : option thread :=
  match at_ t with RdPreferBlocked tm => Some (goto (RdPreferTest tm) t) | _ => None end.
Definition unblock_writers (t : thread) : option thread :=
  match at_ t with WrFutexBlocked tm => Some (goto (WrAgain tm true) t) | _ => None end.

Definition INT_MAX : Z := 2 ^ 31 - 1.

(** futex_wake: on which word, how many, and what comes next. *)
Definition wake (p : pc) : option ((thread -> option thread) * Z * pc * effect) :=
  match p with
  | RuPhaseWake w => Some (unblock_phase, INT_MAX, if w then RuWake else Out None, Nothing)
  | RuWake => Some (unblock_readers, INT_MAX, Out None, Nothing)
  | RdStartWake | TrWake => Some (unblock_phase, INT_MAX, Out None, GetRead)
  | WuPhaseWake w => Some (unblock_phase, INT_MAX, wu_done w, Nothing)
  | WuWake => Some (unblock_writers, 1, Out None, Nothing)
  | WtHandWake e => Some (unblock_writers, 1, Out (Some e), Nothing)
  | WtWake w => Some (unblock_writers, 1, if w then WtWakeReaders else Out (Some ETIMEDOUT), Nothing)
  | WtWakeReaders => Some (unblock_readers, INT_MAX, Out (Some ETIMEDOUT), Nothing)
  | _ => None
  end.

(** Where a wait goes on that ends at its time. *)
Definition timed_out (p : pc) : option pc :=
  match p with
  | RdBlocked Until _ => Some (RdTimeLoad ETIMEDOUT)
  | RdPreferBlocked Until => Some (Out (Some ETIMEDOUT))
  | WrBlocked Until _ => Some (if prefer_writer then WtHandLoad ETIMEDOUT else WtLoad)
  | WrFutexBlocked Until => Some (if prefer_writer then WrTimeLoad Until ETIMEDOUT else Out (Some ETIMEDOUT))
  | _ => None
  end.

(** Steps of a thread that leave the lock as it is. *)
Definition move (c : choice) (t : thread) : option thread :=
  match c with
  | Call c => match at_ t with Out _ => p ← entry c t; Some (goto p t) | _ => None end
  | FutexReturn =>
      match unblock_phase t, unblock_readers t, unblock_writers t with
      | Some t', _, _ | _, Some t', _ | _, _, Some t' => Some t'
      | _, _, _ => None
      end
  | TimeOut => p ← timed_out (at_ t); Some (goto p t)
  | _ => None
  end.

Definition step (c : choice) (k : nat) (s : state) : option state :=
  t ← threads s !! k;
  match c with
  | Run | Weak =>
      '(l, p, e) ← op (match c with Weak => true | _ => false end) (tid k) (at_ t) (lock s);
      Some {| lock := l; threads := <[k := affect e p t]> (threads s) |}
  | WakeChoice ws =>
      '(unblock, n, p, e) ← wake (at_ t);
      ts ← futex_wake unblock n ws (<[k := affect e p t]> (threads s));
      Some {| lock := lock s; threads := ts |}
  | _ => t' ← move c t; Some {| lock := lock s; threads := <[k := t']> (threads s) |}
  end.

Definition init (n : nat) : state := {| lock := pthread_rwlock_init; threads := replicate n {| at_ := Out None; rd := 0%nat; wr := false |} |}.
End Operations.

(** * The words *)

Definition word (R : Z) (rw wl wp : bool) : Z := R * 2 ^ 3 + (4 * b2z rw + 2 * b2z wl + b2z wp).

Section Bits.
Context (R c m : Z) (HR : 0 <= R) (Hc : 0 <= c < 2 ^ 3) (Hm : 0 <= m < 2 ^ 3).

Lemma low_bits i : 3 <= i -> Z.testbit c i = false /\ Z.testbit m i = false.
Proof using Hc Hm. intros Hi. rewrite <- (Z.mod_small c (2 ^ 3)), <- (Z.mod_small m (2 ^ 3)) by lia. rewrite !Z.mod_pow2_bits_high by lia. done. Qed.

Lemma word_bit i : 0 <= i -> Z.testbit (R * 2 ^ 3 + c) i = if i <? 3 then Z.testbit c i else Z.testbit R (i - 3).
Proof using HR Hc.
  intros Hi. rewrite <- (lor_add_low R c 3) by lia. rewrite Z.lor_spec. destruct (Z.ltb_spec i 3).
  - rewrite Z.mul_pow2_bits_low by lia. done.
  - rewrite Z.mul_pow2_bits by lia. rewrite <- (Z.mod_small c (2 ^ 3)) by lia. rewrite Z.mod_pow2_bits_high by lia. apply orb_false_r.
Qed.

Lemma small_lor : 0 <= Z.lor c m < 2 ^ 3.
Proof using Hc Hm. split; [apply Z.lor_nonneg; lia|]. assert (H : Z.lor c m mod 2 ^ 3 = Z.lor c m); [|rewrite <- H; apply Z.mod_pos_bound; lia].
  apply Z.bits_inj'. intros i Hi. destruct (Z.ltb_spec i 3); [rewrite Z.mod_pow2_bits_low by lia; done|]. rewrite Z.mod_pow2_bits_high by lia. rewrite Z.lor_spec. destruct (low_bits i ltac:(lia)) as [-> ->]. done.
Qed.

Lemma small_lxor : 0 <= Z.lxor c m < 2 ^ 3.
Proof using Hc Hm. split; [apply Z.lxor_nonneg; lia|]. assert (H : Z.lxor c m mod 2 ^ 3 = Z.lxor c m); [|rewrite <- H; apply Z.mod_pos_bound; lia].
  apply Z.bits_inj'. intros i Hi. destruct (Z.ltb_spec i 3); [rewrite Z.mod_pow2_bits_low by lia; done|]. rewrite Z.mod_pow2_bits_high by lia. rewrite Z.lxor_spec. destruct (low_bits i ltac:(lia)) as [-> ->]. done.
Qed.
End Bits.

Section BitOps.
Context (R c m : Z) (HR : 0 <= R) (Hc : 0 <= c < 2 ^ 3) (Hm : 0 <= m < 2 ^ 3).

Lemma word_land : Z.land (R * 2 ^ 3 + c) m = Z.land c m.
Proof using HR Hc Hm.
  apply Z.bits_inj'. intros i Hi. rewrite !Z.land_spec, word_bit by lia. destruct (Z.ltb_spec i 3); [done|]. destruct (low_bits c m Hc Hm i ltac:(lia)) as [-> ->]. rewrite andb_false_r. done.
Qed.

Lemma word_lor : Z.lor (R * 2 ^ 3 + c) m = R * 2 ^ 3 + Z.lor c m.
Proof using HR Hc Hm.
  apply Z.bits_inj'. intros i Hi. rewrite Z.lor_spec, word_bit, word_bit, Z.lor_spec by (try lia; by apply small_lor). destruct (Z.ltb_spec i 3); [done|]. destruct (low_bits c m Hc Hm i ltac:(lia)) as [_ ->]. apply orb_false_r.
Qed.

Lemma word_lxor : Z.lxor (R * 2 ^ 3 + c) m = R * 2 ^ 3 + Z.lxor c m.
Proof using HR Hc Hm.
  apply Z.bits_inj'. intros i Hi. rewrite Z.lxor_spec, word_bit, word_bit, Z.lxor_spec by (try lia; by apply small_lxor). destruct (Z.ltb_spec i 3); [done|]. destruct (low_bits c m Hc Hm i ltac:(lia)) as [_ ->]. apply xorb_false_r.
Qed.
End BitOps.

Section Words.
Context (R : Z) (rw wl wp : bool) (HR : 0 <= R).

Ltac bits := unfold word; rewrite ?word_land, ?word_lor, ?word_lxor by (destruct rw, wl, wp; unfold b2z; lia); by destruct rw, wl, wp.

Lemma wrphase_word : wrphase (word R rw wl wp) = wp.
Proof using HR. unfold wrphase, PTHREAD_RWLOCK_WRPHASE. bits. Qed.
Lemma wrlocked_word : wrlocked (word R rw wl wp) = wl.
Proof using HR. unfold wrlocked, PTHREAD_RWLOCK_WRLOCKED. bits. Qed.
Lemma rwaiting_word : rwaiting (word R rw wl wp) = rw.
Proof using HR. unfold rwaiting, PTHREAD_RWLOCK_RWAITING. bits. Qed.
Lemma nreaders_word : nreaders (word R rw wl wp) = R.
Proof using HR. unfold nreaders, PTHREAD_RWLOCK_READER_SHIFT, word. rewrite Z.shiftr_div_pow2 by lia. rewrite Z.add_comm, Z.div_add by lia. rewrite Z.div_small; [lia|]. destruct rw, wl, wp; unfold b2z; lia. Qed.
Lemma word_or_phase : Z.lor (word R rw wl wp) PTHREAD_RWLOCK_WRPHASE = word R rw wl true.
Proof using HR. unfold PTHREAD_RWLOCK_WRPHASE. bits. Qed.
Lemma word_or_locked : Z.lor (word R rw wl wp) PTHREAD_RWLOCK_WRLOCKED = word R rw true wp.
Proof using HR. unfold PTHREAD_RWLOCK_WRLOCKED. bits. Qed.
Lemma word_or_waiting : Z.lor (word R rw wl wp) PTHREAD_RWLOCK_RWAITING = word R true wl wp.
Proof using HR. unfold PTHREAD_RWLOCK_RWAITING. bits. Qed.
Lemma word_xor_phase : Z.lxor (word R rw wl wp) PTHREAD_RWLOCK_WRPHASE = word R rw wl (negb wp).
Proof using HR. unfold PTHREAD_RWLOCK_WRPHASE. bits. Qed.
Lemma word_xor_locked : Z.lxor (word R rw wl wp) PTHREAD_RWLOCK_WRLOCKED = word R rw (negb wl) wp.
Proof using HR. unfold PTHREAD_RWLOCK_WRLOCKED. bits. Qed.

Lemma word_range : 0 <= word R rw wl wp < (R + 1) * 2 ^ 3.
Proof using HR. unfold word. destruct rw, wl, wp; unfold b2z; lia. Qed.

Lemma word_clear : R < 2 ^ 29 -> clear_rwaiting (word R rw wl wp) = word R false wl wp.
Proof using HR.
  intros HR2. pose proof word_range as Hw. unfold clear_rwaiting. apply Z.bits_inj'. intros i Hi. rewrite Z.land_spec. unfold wrap.
  destruct (Z.ltb_spec i 32).
  - rewrite Z.mod_pow2_bits_low, Z.lnot_spec by lia. unfold word. rewrite !word_bit by (try lia; destruct rw, wl, wp; unfold b2z; lia). unfold PTHREAD_RWLOCK_RWAITING.
    destruct (Z.ltb_spec i 3).
    + assert (Ei : i = 0 \/ i = 1 \/ i = 2) by lia. destruct Ei as [->|[->| ->]]; by destruct rw, wl, wp.
    + replace (Z.testbit 4 i) with false; [apply andb_true_r|]. change 4 with (2 ^ 2). rewrite Z.pow2_bits_false by lia. done.
  - rewrite (Z.mod_pow2_bits_high _ 32) by lia. rewrite andb_false_r. unfold word. rewrite word_bit by (try lia; destruct rw, wl, wp; unfold b2z; lia).
    destruct (Z.ltb_spec i 3); [lia|]. symmetry. rewrite <- (Z.mod_small R (2 ^ 29)) by lia. apply Z.mod_pow2_bits_high. lia.
Qed.

Lemma word_add : R + 1 < 2 ^ 29 -> wrap 32 (word R rw wl wp + one_reader) = word (R + 1) rw wl wp.
Proof using HR. intros H. unfold one_reader, PTHREAD_RWLOCK_READER_SHIFT. change (Z.shiftl 1 3) with 8. pose proof word_range. replace (word R rw wl wp + 8) with (word (R + 1) rw wl wp) by (unfold word; lia). apply wrap_small. unfold word. destruct rw, wl, wp; unfold b2z; lia. Qed.

Lemma word_sub : 1 <= R < 2 ^ 29 -> wrap 32 (word R rw wl wp - one_reader) = word (R - 1) rw wl wp.
Proof using HR. intros H. unfold one_reader, PTHREAD_RWLOCK_READER_SHIFT. change (Z.shiftl 1 3) with 8. pose proof word_range. replace (word R rw wl wp - 8) with (word (R - 1) rw wl wp) by (unfold word; lia). apply wrap_small. unfold word. destruct rw, wl, wp; unfold b2z; lia. Qed.
End Words.

(** * Mutual exclusion *)

(** The points at which a reader is counted in __readers, beside the read locks that the thread
    holds already; those of them at which the read lock is its own; those of a reader that
    found too many others. *)
Definition reg (p : pc) : Z :=
  match p with
  | RuLoad | RuLoop _ | RdOverflow _ _ | RdStart _ _ | RdStartStore | RdStartWake | RdWait _ _ | RdMark _ _ _ | RdFutex _ _ | RdBlocked _ _
  | RdTimeLoad _ | RdTime _ _ | RdSpin | RdTest _ | TrPhase | TrWake => 1
  | _ => 0
  end.
Definition acquired (p : pc) : Z :=
  match p with
  | RuLoad | RuLoop _ | RdStartStore | RdStartWake | RdSpin | TrPhase | TrWake => 1
  | RdWait _ ready | RdMark _ ready _ | RdFutex _ ready | RdBlocked _ ready => b2z ready
  | _ => 0
  end.
Definition over (p : pc) : Z := match p with RdOverflow _ _ => 1 | _ => 0 end.

(** The points at which WRLOCKED belongs to the thread, and those at which the write phase
    does, too. *)
Definition primary (p : pc) : Z :=
  match p with
  | WuClear | WuFutex | WuHandLoad _ | WuHand _ _ | WuLoad _ | WuLoop _ _
  | WrUnregister _ _ _ | WrReload _ _ | WrEnable _ _ _ | WrStart _ _ | WrStartStore | WrWait _ _ | WrMark _ _ _ | WrWaitFutex _ _ | WrBlocked _ _
  | WtHandLoad _ | WtHandFutex _ _ | WtHand _ _ _ | WtHandRestore _ | WtLoad | WtFutex _ | WtLoop _ _ | WtRestore _ | WtSpin | WrTest _ | WrDone
  | TwFutex _ | TwPhase => 1
  | _ => 0
  end.
Definition writing (p : pc) : Z :=
  match p with
  | WuClear | WuFutex | WuHandLoad _ | WuHand _ _ | WuLoad _ | WuLoop _ _ | WrStartStore | WtRestore _ | WtSpin | WrDone | TwFutex _ | TwPhase => 1
  | WrUnregister _ _ r | WrEnable _ _ r => b2z (wrphase r)
  | WrWait _ ready | WrMark _ ready _ | WrWaitFutex _ ready | WrBlocked _ ready => b2z ready
  | _ => 0
  end.

(** The points at which a writer is counted in __writers. *)
Definition waiting_writer (p : pc) : Z :=
  match p with
  | WrCas _ _ _ | WrUnregister _ _ _ | WrHandLoad _ _ _ | WrHand _ _ _ _ | WrFutexLoad _ _ | WrFutexMark _ _ _ | WrAgain _ _ | WrFutex _ | WrFutexBlocked _
  | WrTimeLoad _ _ | WrTime _ _ _ => 1
  | _ => 0
  end.

(** What is known about the local variables at some points. *)
Definition local (flags : kind) (p : pc) : bool :=
  match p with
  | RdPrefer _ r => negb (wrphase r) && wrlocked r && (0 <? nreaders r)
  | RdStart _ r => wrphase r && negb (wrlocked r)
  | RdMark _ _ wpf => wpf =? 1
  | RdTime _ r => wrphase r
  | WuHandLoad _ | WrRegister _ _ | WrHandLoad _ _ _ | WrTimeLoad _ _ | WrTime _ _ _ | WrUnregister _ _ _ | WtHandLoad _ => prefer_writer flags
  | WuHand _ w => negb (w =? 0) && prefer_writer flags
  | WrCas _ _ r => negb (wrlocked r)
  | WrHand _ _ _ w => negb (Z.land w PTHREAD_RWLOCK_WRHANDOVER =? 0) && prefer_writer flags
  | WrFutexMark _ _ wf => Z.land wf (wrap 32 (Z.lnot PTHREAD_RWLOCK_FUTEX_USED)) =? 1
  | WrStart _ r => negb (wrphase r) && (nreaders r =? 0)
  | WrMark _ _ wpf => wpf =? 0
  | WtHandFutex _ w | WtHand _ w _ => negb (w =? 0) && prefer_writer flags
  | WtFutex r | WtLoop r _ => negb (wrphase r)
  | TwLoop r => negb (wrlocked r) && ((nreaders r =? 0) || (prefer_writer flags && wrphase r))
  | _ => true
  end.

Section Invariant.
Context (flags : kind).

(** The same for threads. *)
Definition nreg (t : thread) : Z := Z.of_nat (rd t) + reg (at_ t).
Definition nacq (t : thread) : Z := Z.of_nat (rd t) + acquired (at_ t).
Definition nover (t : thread) : Z := over (at_ t).
Definition nprim (t : thread) : Z := b2z (wr t) + primary (at_ t).
Definition nwriting (t : thread) : Z := b2z (wr t) + writing (at_ t).
Definition nwreg (t : thread) : Z := if prefer_writer flags then waiting_writer (at_ t) else 0.
Definition owns (t : thread) : bool := wr t || match at_ t with WuClear => true | _ => false end.

(** The words, in terms of the threads: [rw], [wl], [wp] are the bits of __readers and [ho] is WRHANDOVER. *)
Record words (l : rwlock) (ts : list thread) (rw wl wp ho : bool) : Prop := {
  w_readers : readers l = word (total nreg ts) rw wl wp;
  w_writers : writers l = total nwreg ts + 2 ^ 31 * b2z ho;
  w_owner : b2z wl = total nprim ts + b2z ho;
  w_handover : b2z ho = 1 -> 1 <= total nwreg ts;
  w_overflow : total nreg ts - total nover ts < 2 ^ 28;
  w_write_phase : b2z wp = 1 -> total nacq ts = 0;
  w_read_phase : b2z wp = 0 -> total nwriting ts = 0 }.

Record inv (s : state) : Prop := {
  inv_threads : Z.of_nat (length (threads s)) < 2 ^ 28;
  inv_unlock : forall k t, threads s !! k = Some t -> at_ t = UnLoad -> (0 < rd t)%nat \/ wr t = true;
  inv_local : forall k t, threads s !! k = Some t -> local flags (at_ t) = true;
  inv_cur_writer : forall k t, threads s !! k = Some t -> cur_writer (lock s) = tid k <-> owns t = true;
  inv_words : exists rw wl wp ho, words (lock s) (threads s) rw wl wp ho }.

Ltac by_pc := intros [p n b]; unfold nreg, nacq, nover, nprim, nwriting, nwreg, owns; destruct p, b; simpl; unfold b2z; repeat case_match; simpl; lia.

Lemma nreg_nonneg t : 0 <= nreg t. Proof using Type. clear flags. revert t. by_pc. Qed.
Lemma nacq_nonneg t : 0 <= nacq t. Proof using Type. clear flags. revert t. by_pc. Qed.
Lemma nover_bound t : 0 <= nover t <= 1. Proof using Type. clear flags. revert t. by_pc. Qed.
Lemma nprim_nonneg t : 0 <= nprim t. Proof using Type. clear flags. revert t. by_pc. Qed.
Lemma nwriting_nonneg t : 0 <= nwriting t. Proof using Type. clear flags. revert t. by_pc. Qed.
Lemma nwreg_bound t : 0 <= nwreg t <= 1. Proof using Type. revert t. by_pc. Qed.
Lemma nacq_over_reg t : nacq t + nover t <= nreg t. Proof using Type. clear flags. revert t. by_pc. Qed.
Lemma nwriting_prim t : nwriting t <= nprim t. Proof using Type. clear flags. revert t. by_pc. Qed.
Lemma owns_writing t : b2z (owns t) <= nwriting t. Proof using Type. clear flags. revert t. by_pc. Qed.

Lemma total_count (f : thread -> Z) l : (forall t, f t <= 1) -> total f l <= Z.of_nat (length l).
Proof using Type. clear flags. intros H. induction l as [|x l IH]; simpl; [lia|]. specialize (H x). lia. Qed.

Lemma total_sum (f g : thread -> Z) l : total (fun t => f t + g t) l = total f l + total g l.
Proof using Type. clear flags. induction l as [|x l IH]; simpl; lia. Qed.

(** What the counts always satisfy. *)
Lemma count_facts l : 0 <= total nacq l /\ 0 <= total nover l <= Z.of_nat (length l) /\ total nacq l + total nover l <= total nreg l /\
  0 <= total nwriting l <= total nprim l /\ 0 <= total nwreg l <= Z.of_nat (length l).
Proof using Type.
  split; [apply total_nonneg, nacq_nonneg|]. split; [split; [apply total_nonneg; intros; apply nover_bound | apply total_count; intros; apply nover_bound]|].
  split; [rewrite <- total_sum; apply total_le, nacq_over_reg|]. split; [split; [apply total_nonneg, nwriting_nonneg | apply total_le, nwriting_prim]|].
  split; [apply total_nonneg; intros; apply nwreg_bound | apply total_count; intros; apply nwreg_bound].
Qed.

(** The same for the threads other than [k]. *)
Lemma other_facts l k t : l !! k = Some t -> 0 <= total nacq l - nacq t /\ 0 <= total nover l - nover t /\ total nacq l - nacq t + (total nover l - nover t) <= total nreg l - nreg t /\
  0 <= total nwriting l - nwriting t <= total nprim l - nprim t /\ 0 <= total nwreg l - nwreg t.
Proof using Type.
  intros Hk. set (z := {| at_ := Out None; rd := 0; wr := false |}). pose proof (count_facts (<[k := z]> l)) as H. rewrite !(total_insert _ _ _ _ _ Hk) in H.
  assert (E : nacq z = 0 /\ nover z = 0 /\ nreg z = 0 /\ nwriting z = 0 /\ nprim z = 0 /\ nwreg z = 0) by (unfold nwreg; simpl; by case_match).
  destruct E as (E1 & E2 & E3 & E4 & E5 & E6). rewrite E1, E2, E3, E4, E5, E6 in H. lia.
Qed.

Lemma words_keep l l' ts rw wl wp ho k t t' : words l ts rw wl wp ho -> ts !! k = Some t -> readers l' = readers l -> writers l' = writers l ->
  nreg t' = nreg t -> nover t' = nover t -> nprim t' = nprim t -> nwreg t' = nwreg t -> (b2z wp = 1 -> nacq t' <= nacq t) -> (b2z wp = 0 -> nwriting t' <= nwriting t) ->
  words l' (<[k := t']> ts) rw wl wp ho.
Proof using Type.
  intros [W1 W2 W3 W4 W5 W6 W7] Hk E1 E2 N1 N2 N3 N4 N5 N6. pose proof (count_facts (<[k := t']> ts)) as F. rewrite !(total_insert _ _ _ _ _ Hk) in F.
  split; rewrite ?(total_insert _ _ _ _ _ Hk), ?E1, ?E2, ?N1, ?N2, ?N3, ?N4; auto; try lia.
  rewrite W1. f_equal. lia.
Qed.

(** The thread [k] changes the words. *)
Lemma words_change l l' ts rw wl wp ho k t t' rw' wl' wp' ho' : words l ts rw wl wp ho -> ts !! k = Some t ->
  readers l' = word (total nreg ts + (nreg t' - nreg t)) rw' wl' wp' -> writers l' = total nwreg ts + (nwreg t' - nwreg t) + 2 ^ 31 * b2z ho' ->
  b2z wl' = total nprim ts + (nprim t' - nprim t) + b2z ho' ->
  (b2z ho' = 1 -> 1 <= total nwreg ts + (nwreg t' - nwreg t)) ->
  total nreg ts - total nover ts + (nreg t' - nreg t) - (nover t' - nover t) < 2 ^ 28 ->
  (b2z wp' = 1 -> total nacq ts + (nacq t' - nacq t) = 0) -> (b2z wp' = 0 -> total nwriting ts + (nwriting t' - nwriting t) = 0) ->
  words l' (<[k := t']> ts) rw' wl' wp' ho'.
Proof using Type.
  intros _ Hk E1 E2 E3 E4 E5 E6 E7. split; rewrite ?(total_insert _ _ _ _ _ Hk); [rewrite E1; f_equal; lia | lia ..].
Qed.

Section Op.
Context (l : rwlock) (ts : list thread) (rw wl wp ho : bool) (k : nat) (t : thread).
Hypothesis (W : words l ts rw wl wp ho) (Hloc : local flags (at_ t) = true) (Hlen : Z.of_nat (length ts) < 2 ^ 28) (Hk : ts !! k = Some t).

Definition preserved (o : option outcome) : Prop := forall l' p e, o = Some (l', p, e) ->
  exists rw' wl' wp' ho', words l' (<[k := affect e p t]> ts) rw' wl' wp' ho'.

Lemma read_word : 0 <= total nreg ts < 2 ^ 29 - 1 /\ wrphase (readers l) = wp /\ wrlocked (readers l) = wl /\ rwaiting (readers l) = rw /\ nreaders (readers l) = total nreg ts.
Proof using W Hlen.
  pose proof (count_facts ts) as F. destruct W as [W1 _ _ _ W5 _ _]. assert (HR : 0 <= total nreg ts) by lia. rewrite W1, wrphase_word, wrlocked_word, rwaiting_word, nreaders_word by lia. repeat split; lia.
Qed.

Lemma keep l' p e : readers l' = readers l -> writers l' = writers l -> (let t' := affect e p t in
  nreg t' = nreg t /\ nover t' = nover t /\ nprim t' = nprim t /\ nwreg t' = nwreg t /\ (b2z wp = 1 -> nacq t' <= nacq t) /\ (b2z wp = 0 -> nwriting t' <= nwriting t)) ->
  preserved (Some (l', p, e)).
Proof using W Hk. intros E1 E2 (N1 & N2 & N3 & N4 & N5 & N6) l2 p2 e2 E. injection E as <- <- <-. exists rw, wl, wp, ho. by eapply words_keep. Qed.

Lemma wrphase_or_locked r : wrphase (Z.lor r PTHREAD_RWLOCK_WRLOCKED) = wrphase r.
Proof using Type. clear. unfold wrphase. rewrite Z.land_lor_distr_l. change (Z.land PTHREAD_RWLOCK_WRLOCKED PTHREAD_RWLOCK_WRPHASE) with 0. by rewrite Z.lor_0_r. Qed.

Lemma b2z_negb x : b2z (negb x) = 1 - b2z x.
Proof using Type. clear. by destruct x. Qed.

(** The counts of a thread at a known point. *)
Ltac counting Hat := unfold nreg, nacq, nover, nprim, nwriting, nwreg; cbn [affect goto at_ rd wr]; rewrite ?Hat; cbn [reg acquired over primary writing waiting_writer].
Ltac unfold_next := unfold wu_hand, wu_done, wt_hand, wt_loop, futex_wait, tw_loop, wr_loop, wr_start, rd_start, rd_time, rd_prefer.
Ltac bits_of x := pose proof (b2z_bit x).
Ltac all_bits := repeat match goal with |- context [b2z ?x] => lazymatch goal with _ : b2z x = 0 \/ b2z x = 1 |- _ => fail | _ => pose proof (b2z_bit x) end end; pose proof (b2z_bit (wr t)).
Ltac arith := rewrite ?Nat2Z.inj_succ, ?b2z_negb; all_bits; cbn [b2z negb] in *; lia.
Ltac by_keep Hat := apply keep; [reflexivity | reflexivity |]; unfold_next; counting Hat; rewrite ?wrphase_or_locked; repeat match goal with H : ?f (readers l) = _ |- context [?f (readers l)] => rewrite H end; repeat (case_match; try discriminate); cbn [reg acquired over primary writing waiting_writer]; bits_of wp; repeat split; intros; try arith.
(** All that is known about the words and the other threads, as numbers. *)
Ltac facts := pose proof (count_facts ts) as F; pose proof (other_facts ts k t Hk) as G; pose proof W as [W1 W2 W3 W4 W5 W6 W7]; bits_of rw; bits_of wl; bits_of wp; bits_of ho; rewrite ?W1.
Ltac numbers Hat := generalize dependent (total nreg ts); generalize dependent (total nacq ts); generalize dependent (total nover ts); generalize dependent (total nprim ts); generalize dependent (total nwriting ts); generalize dependent (total nwreg ts);
  counting Hat; intros; repeat (case_match; try discriminate); cbn [reg acquired over primary writing waiting_writer] in *; rewrite ?wrphase_or_locked, ?wrphase_word by lia; try arith; try (f_equal; arith); try (match goal with H : readers l = _ |- readers l = _ => rewrite H; f_equal; arith end); try congruence.
Ltac change_words Hat a b c d := let E := fresh in intros ? ? ? E; injection E as <- <- <-; exists a, b, c, d; eapply words_change; [exact W | exact Hk | ..]; cbn [readers writers set_readers set_writers set_wrphase_futex set_writers_futex set_cur_writer].

(** A compare-and-exchange that succeeds. *)
Lemma cas_true weak x y : cas weak x y = true -> y = x.
Proof using Type. clear. unfold cas. intros H. apply andb_true_iff in H as [_ H]. lia. Qed.

Lemma rdunlock_new_word R a b c : 1 <= R < 2 ^ 29 -> rdunlock_new (word R a b c) = if R =? 1 then word 0 false b (c || b) else word (R - 1) a b c.
Proof using Type.
  clear. intros HR. unfold rdunlock_new. rewrite word_sub, nreaders_word, wrlocked_word, word_or_phase by lia. destruct (Z.eqb_spec R 1) as [->|Hn].
  - simpl. destruct b; rewrite ?orb_false_r, ?orb_true_r, word_clear by lia; done.
  - destruct (Z.eqb_spec (R - 1) 0); [lia | done].
Qed.

Ltac cas_case Hat := match goal with |- context [cas ?w ?x ?y] => let Ec := fresh "Ec" in destruct (cas w x y) eqn:Ec; [apply cas_true in Ec; subst y | try (solve [by_keep Hat])] end.

Lemma rdunlock_ok weak p : at_ t = p -> preserved (rdunlock weak p l).
Proof using W Hlen Hk.
  intros Hat. pose proof read_word as (HR & Ewp & Ewl & Erw & ER). destruct p; simpl; try (intros ? ? ?; discriminate); [by_keep Hat | | by_keep Hat].
  cas_case Hat. facts. assert (HR1 : 1 <= total nreg ts) by numbers Hat. assert (wp = false) as -> by (destruct wp; [exfalso; numbers Hat | done]).
  rewrite rdunlock_new_word by lia. destruct (Z.eqb_spec (total nreg ts) 1) as [E1|E1]; [change_words Hat false wl wl ho | change_words Hat rw wl false ho]; numbers Hat.
Qed.

Lemma overflow_word R a b c : 0 <= R -> (PTHREAD_RWLOCK_READER_OVERFLOW <=? word R a b c) = (2 ^ 28 <=? R).
Proof using Type. clear. intros HR. pose proof (word_range R a b c HR). unfold PTHREAD_RWLOCK_READER_OVERFLOW, word in *. destruct (Z.leb_spec (2 ^ 28) R); [apply Z.leb_le | apply Z.leb_gt]; destruct a, b, c; unfold b2z in *; lia. Qed.

(** The local variables of the point, when a compare-and-exchange succeeds. *)
Ltac known Hat := repeat match goal with H : ?f (readers l) = _ |- _ => clear H end; pose proof Hloc as HL; rewrite Hat in HL; simpl in HL; match goal with H : readers l = _ |- _ => rewrite ?H in HL end; rewrite ?wrphase_word, ?wrlocked_word, ?nreaders_word in HL by lia; repeat (apply andb_true_iff in HL as [HL ?]); rewrite ?negb_true_iff in *.

Lemma rdlock_ok weak p : at_ t = p -> preserved (rdlock flags weak (tid k) p l).
Proof using W Hlen Hk Hloc.
  intros Hat. pose proof read_word as (HR & Ewp & Ewl & Erw & ER). destruct p; simpl; try (intros ? ? ?; discriminate).
  - case_match; by_keep Hat.
  - by_keep Hat.
  - cas_case Hat. facts. rewrite word_or_waiting by lia. change_words Hat true wl wp ho; numbers Hat.
  - by_keep Hat.
  - by_keep Hat.
  - unfold rd_registered. facts. rewrite word_add, overflow_word, wrphase_word by lia. unfold rd_start. rewrite wrphase_word, wrlocked_word by lia. destruct (Z.leb_spec (2 ^ 28) (total nreg ts + 1)).
    + change_words Hat rw wl wp ho; numbers Hat.
    + destruct wp; simpl; [destruct (negb wl); change_words Hat rw wl true ho | change_words Hat rw wl false ho]; numbers Hat.
  - cas_case Hat; facts.
    + assert (HR1 : 1 <= total nreg ts) by numbers Hat. rewrite word_sub by lia. change_words Hat rw wl wp ho; numbers Hat.
    + unfold rd_registered. rewrite overflow_word, wrphase_word by lia. unfold rd_start. rewrite wrphase_word, wrlocked_word by lia. destruct (Z.leb_spec (2 ^ 28) (total nreg ts)); [by_keep Hat|].
      destruct wp; simpl; [destruct (negb wl); change_words Hat rw wl true ho | change_words Hat rw wl false ho]; numbers Hat.
  - cas_case Hat. facts. known Hat. subst wp wl. rewrite word_xor_phase by lia. change_words Hat rw false false ho; numbers Hat.
  - case_match; by_keep Hat.
  - repeat case_match; by_keep Hat.
  - cas_case Hat. by_keep Hat.
  - by_keep Hat.
  - by_keep Hat.
  - cas_case Hat. facts. known Hat. subst wp. assert (HR1 : 1 <= total nreg ts) by numbers Hat. rewrite word_sub by lia. change_words Hat rw wl true ho; numbers Hat.
  - case_match; by_keep Hat.
  - by_keep Hat.
Qed.

Lemma tryrdlock_ok weak p : at_ t = p -> preserved (tryrdlock flags weak p l).
Proof using W Hlen Hk.
  intros Hat. pose proof read_word as (HR & Ewp & Ewl & Erw & ER). destruct p; simpl; try (intros ? ? ?; discriminate); [by_keep Hat | | case_match; by_keep Hat].
  destruct (if wrphase r then wrlocked r else wrlocked r && nonrecursive flags) eqn:Eb; [by_keep Hat|]. destruct (PTHREAD_RWLOCK_READER_OVERFLOW <=? _) eqn:Eo; [by_keep Hat|]. cas_case Hat. facts. clear Ewp Ewl. rewrite W1, wrphase_word, wrlocked_word in Eb by lia. rewrite W1, wrphase_word, word_add in Eo by lia.
  rewrite wrphase_word, word_add, word_xor_phase by lia. destruct wp; simpl in *; rewrite ?word_xor_phase, overflow_word in Eo by lia; [subst wl; change_words Hat rw false false ho | change_words Hat rw wl false ho]; numbers Hat.
Qed.

Lemma wrunlock_new_word R a b c : 0 <= R -> wrunlock_new (word R a b c) = word R a (negb b) (if R =? 0 then c else negb c).
Proof using Type. clear. intros HR. unfold wrunlock_new. rewrite word_xor_locked, nreaders_word by lia. destruct (R =? 0); [apply Z.lxor_0_r | by rewrite word_xor_phase]. Qed.

Lemma handover_or w : 0 <= w < 2 ^ 31 -> Z.lor w PTHREAD_RWLOCK_WRHANDOVER = w + 2 ^ 31.
Proof using Type. clear. intros Hw. rewrite Z.lor_comm. change PTHREAD_RWLOCK_WRHANDOVER with (1 * 2 ^ 31). rewrite lor_add_low by lia. lia. Qed.

Lemma handover_bit w h : 0 <= w < 2 ^ 31 -> negb (Z.land (w + 2 ^ 31 * b2z h) PTHREAD_RWLOCK_WRHANDOVER =? 0) = h.
Proof using Type.
  clear. intros Hw. replace (Z.land (w + 2 ^ 31 * b2z h) PTHREAD_RWLOCK_WRHANDOVER) with (2 ^ 31 * b2z h); [by destruct h|].
  symmetry. apply Z.bits_inj'. intros i Hi. unfold PTHREAD_RWLOCK_WRHANDOVER. rewrite Z.land_spec. destruct (Z.eq_dec i 31) as [->|Hn].
  - rewrite Z.pow2_bits_true, andb_true_r by lia. replace (w + 2 ^ 31 * b2z h) with (b2z h * 2 ^ 31 + w) by lia. rewrite <- lor_add_low, Z.lor_spec by lia. rewrite Z.mul_pow2_bits by lia.
    rewrite <- (Z.mod_small w (2 ^ 31)) by lia. rewrite Z.mod_pow2_bits_high, orb_false_r by lia. rewrite (Z.mul_comm (2 ^ 31)), Z.mul_pow2_bits by lia. done.
  - rewrite Z.pow2_bits_false, andb_false_r by lia. destruct h; simpl b2z; [rewrite Z.mul_1_r; symmetry; apply Z.pow2_bits_false; lia | rewrite Z.mul_0_r; symmetry; apply Z.bits_0].
Qed.

Lemma wrunlock_ok weak p : at_ t = p -> preserved (wrunlock flags weak p l).
Proof using W Hlen Hk Hloc.
  intros Hat. pose proof read_word as (HR & Ewp & Ewl & Erw & ER). destruct p; simpl; try (intros ? ? ?; discriminate); try (by_keep Hat; fail).
  - cas_case Hat. facts. known Hat. assert (wl = true /\ ho = false) as [-> ->] by (destruct wl, ho; split; try done; exfalso; numbers Hat).
    apply Z.eqb_neq in HL. rewrite W2 in HL |- *. rewrite handover_or by numbers Hat. unfold wu_done. change_words Hat rw true wp true; numbers Hat.
  - cas_case Hat. facts. assert (wl = true /\ ho = false /\ wp = true) as (-> & -> & ->) by (destruct wl, ho, wp; repeat split; try done; exfalso; numbers Hat).
    rewrite wrunlock_new_word, nreaders_word by lia. unfold wu_done. destruct (Z.eqb_spec (total nreg ts) 0); simpl; [change_words Hat rw false true false | change_words Hat rw false false false]; numbers Hat.
Qed.

Lemma wrlock_ok weak p : at_ t = p -> preserved (wrlock flags weak (tid k) p l).
Proof using W Hlen Hk Hloc.
  intros Hat. pose proof read_word as (HR & Ewp & Ewl & Erw & ER). destruct p; simpl; try (intros ? ? ?; discriminate); try (solve [by_keep Hat]); try (solve [repeat case_match; by_keep Hat]).
  - facts. rewrite word_or_locked, wrlocked_word by lia. unfold wr_loop. rewrite wrlocked_word by lia. destruct wl; [change_words Hat rw true wp ho | change_words Hat rw true wp ho]; numbers Hat.
  - facts. known Hat. rewrite W2, wrap_small by numbers Hat. unfold wr_loop. change_words Hat rw wl wp ho; numbers Hat.
  - cas_case Hat. facts. known Hat. subst wl. rewrite word_or_locked by lia. change_words Hat rw true wp ho; numbers Hat.
  - facts. known Hat. assert (wl = true /\ ho = false) as [-> ->] by (destruct wl, ho; split; try done; exfalso; numbers Hat). rewrite W2, wrap_small by numbers Hat. change_words Hat rw true wp false; rewrite ?wrphase_or_locked; numbers Hat.
  - cas_case Hat. facts. known Hat. apply (f_equal negb) in HL. rewrite W2, handover_bit in HL by numbers Hat. simpl in HL. subst ho. assert (wl = true) as -> by (destruct wl; [done | exfalso; numbers Hat]).
    rewrite W2. unfold PTHREAD_RWLOCK_WRHANDOVER. rewrite wrap_small by numbers Hat. change_words Hat rw true wp false; numbers Hat.
  - cas_case Hat. facts. known Hat. rewrite W2. unfold PTHREAD_RWLOCK_WRHANDOVER. destruct (Z.eqb_spec (total nwreg ts + 2 ^ 31 * b2z ho) (2 ^ 31 + 1)) as [Ew|Ew].
    + assert (wl = true /\ ho = true) as [-> ->] by (destruct wl, ho; split; try done; exfalso; numbers Hat). change_words Hat rw true wp false; numbers Hat.
    + rewrite wrap_small by numbers Hat. change_words Hat rw wl wp ho; numbers Hat.
  - cas_case Hat. facts. known Hat. subst wp. rewrite word_or_phase by lia. change_words Hat rw wl true ho; numbers Hat.
  - cas_case Hat. facts. known Hat. assert (wl = true /\ ho = false) as [-> ->] by (destruct wl, ho; split; try done; exfalso; numbers Hat).
    apply Z.eqb_neq in HL. rewrite W2 in HL |- *. rewrite handover_or by numbers Hat. change_words Hat rw true wp true; numbers Hat.
  - pose proof Hloc as HL. rewrite Hat in HL. simpl in HL. apply negb_true_iff in HL. unfold wt_loop. rewrite HL. by_keep Hat.
  - cas_case Hat. facts. known Hat. subst wp. assert (wl = true) as -> by (destruct wl; [done | exfalso; numbers Hat]). rewrite word_xor_locked, word_clear by lia. change_words Hat false false false ho; numbers Hat.
  - facts. assert (Ew : b2z (wr t) = 0) by numbers Hat. apply keep; [reflexivity | reflexivity |]. counting Hat. rewrite Ew. repeat split; intros; arith.
Qed.

Lemma trywrlock_ok weak p : at_ t = p -> preserved (trywrlock flags weak (tid k) p l).
Proof using W Hlen Hk Hloc.
  intros Hat. pose proof read_word as (HR & Ewp & Ewl & Erw & ER). destruct p; simpl; try (intros ? ? ?; discriminate); try (solve [by_keep Hat]).
  cas_case Hat. facts. known Hat. subst wl. rewrite word_or_phase, word_or_locked by lia. assert (Ha : total nacq ts = 0).
  { destruct wp; [numbers Hat|]. match goal with H : _ || _ = true |- _ => rewrite andb_false_r, orb_false_r in H; apply Z.eqb_eq in H; lia end. }
  change_words Hat rw true true ho; numbers Hat.
Qed.

Lemma unlock_ok p : at_ t = p -> (if cur_writer l =? tid k then wr t = true else (0 < rd t)%nat) -> preserved (unlock (tid k) p l).
Proof using W Hlen Hk Hloc.
  intros Hat Hun. destruct p; simpl; try (intros ? ? ?; discriminate). destruct (cur_writer l =? tid k).
  - apply keep; [reflexivity | reflexivity |]. counting Hat. rewrite Hun. repeat (case_match; try discriminate); repeat split; intros; arith.
  - apply keep; [reflexivity | reflexivity |]. counting Hat. destruct (rd t) as [|n]; [lia|]. cbn [pred]. repeat (case_match; try discriminate); repeat split; intros; arith.
Qed.

Lemma op_ok weak : (at_ t = UnLoad -> if cur_writer l =? tid k then wr t = true else (0 < rd t)%nat) -> preserved (op flags weak (tid k) (at_ t) l).
Proof using W Hlen Hk Hloc.
  intros Hun. enough (H : forall p, at_ t = p -> preserved (op flags weak (tid k) p l)) by auto. intros p E. destruct p; cbn [op]; first [solve [apply rdunlock_ok, E] | solve [apply tryrdlock_ok, E] | solve [apply trywrlock_ok, E] | solve [apply wrunlock_ok, E] | solve [apply rdlock_ok, E] | solve [apply wrlock_ok, E] | apply unlock_ok; [exact E | exact (Hun E)]].
Qed.
End Op.

(** ** The points *)

Lemma mark_word f c : (Z.lor f PTHREAD_RWLOCK_FUTEX_USED =? c) = true -> futex_used f = false -> f = c - 2.
Proof using Type.
  clear. unfold futex_used, PTHREAD_RWLOCK_FUTEX_USED. intros H1 H2. apply Z.eqb_eq in H1. apply negb_false_iff, Z.eqb_eq in H2. pose proof (Z.add_lor_land f 2). lia.
Qed.

Ltac points := unfold rd_registered in *; unfold go, return_, wu_hand, wu_done, wt_hand, wt_loop, futex_wait, tw_loop, wr_loop, wr_start, rd_start, rd_time, rd_prefer in *.

Lemma op_local weak self p l l' p' e : local flags p = true -> op flags weak self p l = Some (l', p', e) -> local flags p' = true.
Proof using Type.
  intros Hl H. destruct p; simpl in Hl, H; try discriminate; points; repeat (case_match; try discriminate); simplify_eq/=; try done;
    repeat match goal with H : _ = ?b |- context [?x] => lazymatch type of H with x = b => rewrite H end end; try done; auto.
  - match goal with H1 : (Z.lor _ _ =? _) = true, H2 : futex_used _ = false |- _ => rewrite (mark_word _ _ H1 H2) end. done.
  - by apply andb_true_iff in Hl as [_ Hl].
  - match goal with H : negb _ = false |- _ => by apply negb_false_iff in H end.
  - match goal with H1 : (Z.lor _ _ =? _) = true, H2 : futex_used _ = false |- _ => rewrite (mark_word _ _ H1 H2) end. done.
  - by apply andb_true_iff in Hl as [_ Hl].
Qed.

(** Most steps keep __cur_writer and the owner. *)
Definition owner_step (self : Z) (t : thread) (l : rwlock) (o : outcome) : Prop :=
  let '(l', p', e) := o in
  p' <> UnLoad /\
  match at_ t with
  | UnLoad => cur_writer l' = cur_writer l /\ (if cur_writer l =? self then owns (affect e p' t) = true else owns (affect e p' t) = wr t)
  | WuClear => cur_writer l' = 0 /\ owns (affect e p' t) = wr t
  | WrDone => cur_writer l' = self /\ owns (affect e p' t) = true
  | _ => cur_writer l' = cur_writer l /\ owns (affect e p' t) = owns t
  end.

Lemma op_owner weak self t l o : op flags weak self (at_ t) l = Some o -> owner_step self t l o.
Proof using Type.
  intros H. destruct t as [p n b]. simpl in H. destruct p; simpl in H; try discriminate; points; repeat (case_match; try discriminate); injection H as <-; unfold owner_step, owns; simpl;
    rewrite ?orb_true_r, ?orb_false_r; try done; repeat match goal with H : (?x =? ?y) = _ |- context [?x =? ?y] => rewrite H end; done.
Qed.

Lemma primary_one l ts rw wl wp ho i j x y : words l ts rw wl wp ho -> i <> j -> ts !! i = Some x -> ts !! j = Some y -> 1 <= nprim x -> 1 <= nprim y -> False.
Proof using Type.
  intros [_ _ W3 _ _ _ _] Hn Hi Hj Hx Hy. pose proof (total_lookup2 nprim ts i j x y nprim_nonneg Hn Hi Hj). pose proof (b2z_bit wl). pose proof (b2z_bit ho). lia.
Qed.

Lemma owns_primary t : owns t = true -> 1 <= nprim t.
Proof using Type. clear flags. intros H. pose proof (owns_writing t) as H1. rewrite H in H1. simpl in H1. pose proof (nwriting_prim t). lia. Qed.

Lemma tid_inj i j : tid i = tid j -> i = j.
Proof using Type. clear. unfold tid. lia. Qed.

Lemma inv_op weak s k t l' p e : inv s -> threads s !! k = Some t -> op flags weak (tid k) (at_ t) (lock s) = Some (l', p, e) ->
  inv {| lock := l'; threads := <[k := affect e p t]> (threads s) |}.
Proof using Type.
  intros [H1 H2 H3 H4 (rw & wl & wp & ho & HW)] Hk Hop. pose proof (op_owner _ _ _ _ _ Hop) as [Hnu Hown].
  assert (Eat : at_ (affect e p t) = p) by (by destruct e). split; simpl.
  - by rewrite length_insert.
  - intros j x Hj Hx. apply list_lookup_insert_Some in Hj as [(-> & <- & _)|(_ & Hj)]; [congruence | eauto].
  - intros j x Hj. apply list_lookup_insert_Some in Hj as [(-> & <- & _)|(_ & Hj)]; [|eauto]. rewrite Eat. eapply op_local; eauto.
  - assert (Hone : forall j x, j <> k -> threads s !! j = Some x -> 1 <= nprim t -> owns x = true -> False) by (intros j x Hn Hj Hp Ho; eapply (primary_one _ _ _ _ _ _ j k); eauto using owns_primary).
    assert (Hp : at_ t = WrDone \/ at_ t = WuClear -> 1 <= nprim t) by (intros [E|E]; unfold nprim; rewrite E; simpl; pose proof (b2z_bit (wr t)); lia).
    assert (Hcase : (cur_writer l' = cur_writer (lock s) /\ owns (affect e p t) = owns t) \/ (at_ t = WrDone /\ cur_writer l' = tid k /\ owns (affect e p t) = true) \/ (at_ t = WuClear /\ cur_writer l' = 0 /\ owns (affect e p t) = wr t)).
    { destruct (at_ t) eqn:E; auto. left. destruct Hown as [E1 E2]. split; [exact E1|]. specialize (H4 k t Hk). assert (Eo : owns t = wr t) by (unfold owns; rewrite E; apply orb_false_r).
      destruct (Z.eqb_spec (cur_writer (lock s)) (tid k)) as [Ec|_]; [rewrite E2; symmetry; by apply H4 | congruence]. }
    intros j x Hj. apply list_lookup_insert_Some in Hj as [(<- & <- & _)|(Hn & Hj)].
    + specialize (H4 _ _ Hk). destruct Hcase as [[-> ->]|[(_ & -> & ->)|(Ea & -> & ->)]]; [exact H4 | done|]. split; [unfold tid; lia|]. intros Hw. exfalso.
      destruct HW as [_ _ W3 _ _ _ _]. pose proof (total_lookup nprim _ _ _ nprim_nonneg Hk) as Hl. unfold nprim in Hl at 1. rewrite Ea, Hw in Hl. simpl in Hl. pose proof (b2z_bit wl). pose proof (b2z_bit ho). lia.
    + specialize (H4 _ _ Hj). destruct Hcase as [[-> _]|[(Ea & -> & _)|(Ea & -> & _)]]; [exact H4 | |].
      * split; [intros Ht; by apply tid_inj in Ht | intros Ho; exfalso; eapply Hone; eauto].
      * split; [unfold tid; lia | intros Ho; exfalso; eapply Hone; eauto].
  - eapply (op_ok (lock s) (threads s) rw wl wp ho k t); eauto. intros E. specialize (H2 k t Hk E). specialize (H4 k t Hk). assert (Eo : owns t = wr t) by (unfold owns; rewrite E; apply orb_false_r). rewrite Eo in H4.
    destruct (Z.eqb_spec (cur_writer (lock s)) (tid k)) as [Ec|Ec]; [by apply H4|]. destruct H2 as [H2|H2]; [exact H2 | apply H4 in H2; done].
Qed.

(** ** Steps that leave the lock as it is *)

(** Where a thread may go without a change of the lock. *)
Record moves (t t' : thread) : Prop := {
  mv_unlock : at_ t' = UnLoad -> (0 < rd t')%nat \/ wr t' = true;
  mv_local : local flags (at_ t') = true;
  mv_owns : owns t' = owns t;
  mv_reg : nreg t' = nreg t;
  mv_over : nover t' = nover t;
  mv_prim : nprim t' = nprim t;
  mv_wreg : nwreg t' = nwreg t;
  mv_acq : nacq t' <= nacq t;
  mv_writing : nwriting t' <= nwriting t }.

Lemma inv_move s k t t' : inv s -> threads s !! k = Some t -> moves t t' -> inv {| lock := lock s; threads := <[k := t']> (threads s) |}.
Proof using Type.
  intros [H1 H2 H3 H4 (rw & wl & wp & ho & HW)] Hk [M1 M2 M3 M4 M5 M6 M7 M8 M9]. split; simpl.
  - by rewrite length_insert.
  - intros j x Hj. apply list_lookup_insert_Some in Hj as [(-> & <- & _)|(_ & Hj)]; eauto.
  - intros j x Hj. apply list_lookup_insert_Some in Hj as [(-> & <- & _)|(_ & Hj)]; eauto.
  - intros j x Hj. apply list_lookup_insert_Some in Hj as [(-> & <- & _)|(_ & Hj)]; [rewrite M3|]; eauto.
  - exists rw, wl, wp, ho. eapply words_keep; eauto.
Qed.

Ltac by_moves := split; unfold nreg, nacq, nover, nprim, nwriting, nwreg, owns; simpl; repeat (case_match; try discriminate); simpl in *; try done; try (unfold b2z; repeat case_match; simpl; lia).

Lemma move_moves c t t' : move flags c t = Some t' -> moves t t'.
Proof using Type.
  destruct t as [p n b]. unfold move. destruct c as [c| | | | |]; simpl; try discriminate.
  - destruct p; try discriminate. intros H. destruct (entry c _) as [p'|] eqn:E; [|discriminate]. simpl in H. injection H as <-.
    destruct c as [[]|[]| | |]; simpl in E; try (injection E as <-; by_moves; fail).
    destruct (negb (n =? 0)%nat || b) eqn:Eb; [|discriminate]. injection E as <-. by_moves. intros _. apply orb_true_iff in Eb as [Eb|Eb]; [left | by right]. destruct n; [discriminate | lia].
  - destruct p; simpl; intros H; try discriminate; injection H as <-; by_moves.
  - unfold timed_out. intros H. destruct p; simpl in H; try discriminate; repeat (case_match; simpl in H; try discriminate); injection H as <-; by_moves.
Qed.

(** futex_wake lets threads go on. *)
Definition wakes (unblock : thread -> option thread) : Prop := forall x y, unblock x = Some y -> unblock y = None /\ moves x y /\ moves y x.

Lemma unblock_wakes : wakes unblock_phase /\ wakes unblock_readers /\ wakes unblock_writers.
Proof using Type. split; [|split]; intros [p n b] y; destruct p; simpl; intros H; try discriminate; injection H as <-; (split; [done|]; split; by_moves). Qed.

Lemma wake_wakes p u n p' e : wake p = Some (u, n, p', e) -> wakes u /\ 1 <= n.
Proof using Type. destruct p; simpl; intros H; try discriminate; injection H as <- <- <- <-; unfold INT_MAX; (split; [apply unblock_wakes | lia]). Qed.

Lemma wake_moves u n p' e t : wake (at_ t) = Some (u, n, p', e) -> moves t (affect e p' t).
Proof using Type.
  intros H. destruct t as [p m b]. simpl in H. destruct p; simpl in H; try discriminate; unfold wu_done in H; repeat (case_match; try discriminate); injection H as <- <- <- <-; by_moves.
Qed.

Lemma inv_wake_list u ws lk : wakes u -> forall l l', inv {| lock := lk; threads := l |} -> wake_list u ws l = Some l' -> inv {| lock := lk; threads := l' |}.
Proof using Type.
  intros Hu. induction ws as [|w ws IH]; intros l l' HI H; simpl in H; [by injection H as <-|]. destruct (l !! w) as [x|] eqn:E; [|done]. destruct (u x) as [y|] eqn:Ey; [|done].
  apply (IH (<[w := y]> l)); [|done]. destruct (Hu x y Ey) as (_ & Hm & _). apply (inv_move {| lock := lk; threads := l |} w x y HI E Hm).
Qed.

Lemma inv_step c k s s' : inv s -> step flags c k s = Some s' -> inv s'.
Proof using Type.
  intros HI H. unfold step in H. destruct (threads s !! k) as [t|] eqn:Hk; [|done]. simpl in H.
  assert (Hop : forall weak, ('(l, p, e) ← op flags weak (tid k) (at_ t) (lock s); Some {| lock := l; threads := <[k := affect e p t]> (threads s) |}) = Some s' -> inv s').
  { intros weak E. destruct (op flags weak (tid k) (at_ t) (lock s)) as [[[l p] e]|] eqn:Eo; simpl in E; [|done]. injection E as <-. by eapply inv_op. }
  assert (Hmv : forall c, (t' ← move flags c t; Some {| lock := lock s; threads := <[k := t']> (threads s) |}) = Some s' -> inv s').
  { intros c' E. destruct (move flags c' t) as [t'|] eqn:Em; simpl in E; [|done]. injection E as <-. eapply inv_move; eauto. by eapply move_moves. }
  destruct c; eauto. clear Hop Hmv. destruct (wake (at_ t)) as [[[[u n] p] e]|] eqn:Ew; simpl in H; [|done].
  destruct (futex_wake u n ws _) as [l|] eqn:Ef; simpl in H; [|done]. injection H as <-. unfold futex_wake in Ef. destruct (_ =? _); [|done].
  eapply inv_wake_list; [eapply wake_wakes; eauto | | exact Ef]. eapply inv_move; [exact HI | exact Hk | by eapply wake_moves].
Qed.

Lemma inv_init n : Z.of_nat n < 2 ^ 28 -> inv (init n).
Proof using Type.
  intros Hn. split; simpl.
  - by rewrite length_replicate.
  - intros k t Hk. apply lookup_replicate in Hk as [-> _]. done.
  - intros k t Hk. apply lookup_replicate in Hk as [-> _]. done.
  - intros k t Hk. apply lookup_replicate in Hk as [-> _]. unfold owns, tid. simpl. split; [lia | done].
  - exists false, false, false, false. split; rewrite ?total_replicate; unfold nreg, nacq, nover, nprim, nwriting, nwreg; simpl; repeat case_match; try lia; unfold word; simpl; lia.
Qed.

Lemma reachable_inv_rwlock n s : Z.of_nat n < 2 ^ 28 -> reachable (step flags) (init n) s -> inv s.
Proof using Type. intros Hn. apply reachable_inv; [by apply inv_init | intros; by eapply inv_step]. Qed.
End Invariant.

(** The read locks and write locks that are held. *)
Definition held (t : thread) : Z := Z.of_nat (rd t).
Definition held_write (t : thread) : Z := b2z (wr t).

(** Every thread is outside of the operations. *)
Definition at_rest (s : state) : Prop := forall k t, threads s !! k = Some t -> exists r, at_ t = Out r.

(** C24: the read-write lock, for every kind, any number of threads below 2^28, any
    interleaving of their atomic operations, recursive read locks, time-outs, trylocks
    and spurious failures.  A thread that holds the write lock excludes all others, readers
    and writers; unlock finds out correctly which lock it releases.  When no operation is under way
    __readers is exactly the number of read locks and the write lock that are held
    and no writer is left registered. *)
Theorem rwlock_exclusion flags n s : Z.of_nat n < 2 ^ 28 -> reachable (step flags) (init n) s ->
  (forall i j x y, threads s !! i = Some x -> threads s !! j = Some y -> wr x = true -> rd y = 0%nat /\ (wr y = true -> i = j)) /\
  (forall i x, threads s !! i = Some x -> at_ x = UnLoad -> if cur_writer (lock s) =? tid i then wr x = true else (0 < rd x)%nat) /\
  (at_rest s -> exists wp, readers (lock s) = word (total held (threads s)) (rwaiting (readers (lock s))) (0 <? total held_write (threads s)) wp /\ writers (lock s) = 0).
Proof.
  intros Hn Hr. destruct (reachable_inv_rwlock flags n s Hn Hr) as [H1 H2 H3 H4 (rw & wl & wp & ho & HW)]. pose proof HW as [W1 W2 W3 W4 W5 W6 W7]. split; [|split].
  - intros i j x y Hi Hj Hx. assert (Ewp : b2z wp = 1).
    { destruct (b2z_bit wp) as [E|E]; [|exact E]. specialize (W7 E). pose proof (total_lookup nwriting _ _ _ nwriting_nonneg Hi) as Hw. assert (1 <= nwriting x); [|lia]. pose proof (owns_writing x) as Ho. unfold owns in Ho. rewrite Hx in Ho. simpl in Ho. lia. }
    split.
    + specialize (W6 Ewp). pose proof (total_lookup nacq _ _ _ nacq_nonneg Hj) as Ha. unfold nacq in Ha at 1. assert (0 <= acquired (at_ y)) by (destruct (at_ y); simpl; try lia; unfold b2z; case_match; lia). lia.
    + intros Hy. destruct (decide (i = j)) as [|Hne]; [done|]. exfalso. eapply (primary_one flags _ _ _ _ _ _ i j); eauto; apply owns_primary; unfold owns; by rewrite ?Hx, ?Hy.
  - intros i x Hi E. specialize (H2 i x Hi E). specialize (H4 i x Hi). unfold owns in H4. rewrite E, orb_false_r in H4. destruct (Z.eqb_spec (cur_writer (lock s)) (tid i)) as [Ec|Ec]; [by apply H4|].
    destruct H2 as [H2|H2]; [exact H2 | apply H4 in H2; done].
  - intros Hrest. exists wp.
    assert (Erw : rwaiting (readers (lock s)) = rw) by (rewrite W1; apply rwaiting_word; pose proof (count_facts flags (threads s)); lia).
    assert (E1 : total nreg (threads s) = total held (threads s)) by (apply total_ext_lookup; intros k t Hk; destruct (Hrest k t Hk) as [r E]; unfold nreg, held; rewrite E; simpl; lia).
    assert (E2 : total nprim (threads s) = total held_write (threads s)) by (apply total_ext_lookup; intros k t Hk; destruct (Hrest k t Hk) as [r E]; unfold nprim, held_write; rewrite E; simpl; lia).
    assert (E3 : total (nwreg flags) (threads s) = 0) by (apply total_zero; intros k t Hk; destruct (Hrest k t Hk) as [r E]; unfold nwreg; rewrite E; simpl; by case_match).
    assert (Eho : b2z ho = 0) by (destruct (b2z_bit ho) as [E|E]; [exact E | specialize (W4 E); lia]).
    rewrite Erw, W1, W2, E1, E3, Eho. split; [|lia]. f_equal. rewrite E2, Eho in W3. destruct wl; simpl in W3; symmetry; [apply Z.ltb_lt | apply Z.ltb_ge]; lia.
Qed.

(** A reader, a second one, a writer that waits for both to leave and takes over. *)
Definition exclusion_schedule : list (nat * choice) :=
  [(0%nat, Call (Rdlock Forever)); (0%nat, Run); (0%nat, Run); (1%nat, Call Tryrdlock); (1%nat, Run); (1%nat, Run); (2%nat, Call (Wrlock Until)); (2%nat, Run); (2%nat, Run); (2%nat, Run);
   (2%nat, Run); (2%nat, Run); (2%nat, Run); (1%nat, Call Unlock); (1%nat, Run); (1%nat, Run); (1%nat, Run); (0%nat, Call Unlock); (0%nat, Run); (0%nat, Run); (0%nat, Run); (0%nat, Run);
   (0%nat, WakeChoice [2%nat]); (2%nat, Run); (2%nat, Run); (2%nat, Run); (2%nat, Run)].

Lemma rwlock_exclusion_witness : exists s, run_schedule (step PREFER_READER) exclusion_schedule (init 3) = Some s /\
  option_map wr (threads s !! 2%nat) = Some true /\
  (forall i j x y, threads s !! i = Some x -> threads s !! j = Some y -> wr x = true -> rd y = 0%nat /\ (wr y = true -> i = j)).
Proof.
  destruct (run_schedule (step PREFER_READER) exclusion_schedule (init 3)) as [s|] eqn:E; [|exfalso; vm_compute in E; discriminate].
  exists s. split; [reflexivity|]. split; [vm_compute in E; injection E as <-; reflexivity|].
  apply (rwlock_exclusion PREFER_READER 3 s); [reflexivity | exact (run_schedule_reachable _ _ _ _ E)].
Defined.
