(* ===== verification/RwlockHand.v ===== *)
(** * Hand-over of the phases of the read-write lock

    Which thread has to store the new phase in __wrphase_futex, who waits for it, and who may take it as
    complete ([handing]), kept by every step while no writer gives up on a lock that prefers writers
    ([calm_step]): [handing_step]. *)

From Stdlib Require Import ZArith.
From stdpp Require Import base list relations.
From S2P Require Import Prelude Threads Rwlock.
#[local] Open Scope Z_scope.

(** * Hand-over of the phase *)

(** Threads that have changed WRPHASE and will store the new phase in __wrphase_futex: to 0, and to 1. *)
Definition store0 (p : pc) : Z := match p with RdStartStore | TrPhase | WuPhase _ => 1 | _ => 0 end.
Definition store0_writer (p : pc) : Z := match p with WuPhase _ => 1 | _ => 0 end.
Definition store1 (p : pc) : Z := match p with RuPhase _ | WrStartStore | TwPhase => 1 | TwFutex r => 1 - b2z (wrphase r) | _ => 0 end.

(** Readers that have registered and not yet seen that the hand-over is complete; those of them
    that have seen a primary writer or a read phase. *)
Definition pending (p : pc) : Z :=
  match p with RdStart _ _ | RdWait _ _ | RdMark _ _ _ | RdFutex _ _ | RdBlocked _ _ | RdTimeLoad _ | RdTime _ _ | RdSpin | RdTest _ => 1 | _ => 0 end.
Definition waiting_reader (p : pc) : Z :=
  match p with RdWait _ _ | RdMark _ _ _ | RdFutex _ _ | RdBlocked _ _ | RdTimeLoad _ | RdTime _ _ | RdSpin | RdTest _ => 1 | _ => 0 end.

(** Primary writers that know the write phase is theirs and complete, and those that wait for it. *)
Definition complete (p : pc) : Z :=
  match p with
  | WuClear | WuFutex | WuHandLoad _ | WuHand _ _ | WuLoad _ | WuLoop _ _ | WrDone | WrReload _ _ => 1
  | WrUnregister _ _ r | WrEnable _ _ r | TwFutex r => b2z (wrphase r)
  | _ => 0
  end.
Definition waiting_primary (p : pc) : Z :=
  match p with
  | WrWait _ _ | WrMark _ _ _ | WrWaitFutex _ _ | WrBlocked _ _ | WrTest _ | WtLoad | WtFutex _ | WtLoop _ _ | WtRestore _ | WtSpin => 1
  | WrUnregister _ _ r | WrEnable _ _ r => if wrphase r then 0 else b2z (negb (nreaders r =? 0))
  | _ => 0
  end.

(** A count over the points of the threads. *)
Definition at_point (f : pc -> Z) (t : thread) : Z := f (at_ t).
Definition ncomplete (t : thread) : Z := b2z (wr t) + complete (at_ t).

(** The bits of the words, as numbers. *)
Definition phase_bit (l : rwlock) : Z := b2z (wrphase (readers l)).
Definition locked_bit (l : rwlock) : Z := b2z (wrlocked (readers l)).
Definition waiting_bit (l : rwlock) : Z := b2z (rwaiting (readers l)).
Definition handover_flag (l : rwlock) : Z := b2z (negb (Z.land (writers l) PTHREAD_RWLOCK_WRHANDOVER =? 0)).

Section Calm.
Context (flags : kind).

(** The points of a writer that may give up, of a writer that gives up while others wait, and of
    a reader that met too many others. *)
Definition calm (p : pc) : bool :=
  match p with
  | RdOverflow _ _ | WrTimeLoad _ _ | WrTime _ _ _ | WtHandLoad _ | WtHandFutex _ _ | WtHand _ _ _ | WtHandRestore _ | WtHandWake _ => false
  | WrCheck t | WrOr t | WrRegister t _ | WrCas t _ _ | WrUnregister t _ _ | WrHandLoad t _ _ | WrHand t _ _ _ | WrReload t _ | WrFutexLoad t _ | WrFutexMark t _ _ | WrAgain t _ | WrFutex t
  | WrFutexBlocked t | WrEnable t _ _ | WrStart t _ | WrWait t _ | WrMark t _ _ | WrWaitFutex t _ | WrBlocked t _ | WrTest t =>
      match t with Forever => true | _ => negb (prefer_writer flags) end
  | WtLoad | WtFutex _ | WtLoop _ _ | WtRestore _ | WtSpin | WtWake _ | WtWakeReaders => negb (prefer_writer flags)
  | _ => true
  end.

(** If writers are preferred they wait for ever; fewer than 2^28 read locks are held. *)
Definition calm_call (c : choice) : bool :=
  match c with Call (Wrlock t) => match t with Forever | Invalid => true | _ => negb (prefer_writer flags) end | _ => true end.

Definition calm_step (c : choice) (k : nat) (s : state) : option state :=
  if calm_call c then s' ← step flags c k s; if readers (lock s') <? PTHREAD_RWLOCK_READER_OVERFLOW then Some s' else None else None.

(** What the words say, as numbers. *)
Record numbers_of (l : rwlock) (ts : list thread) : Prop := {
  nm_readers : nreaders (readers l) = total nreg ts;
  nm_owner : locked_bit l = total nprim ts + handover_flag l;
  nm_write_phase : phase_bit l = 1 -> total nacq ts = 0;
  nm_read_phase : phase_bit l = 0 -> total nwriting ts = 0;
  nm_bits : (phase_bit l = 0 \/ phase_bit l = 1) /\ (locked_bit l = 0 \/ locked_bit l = 1) /\ (handover_flag l = 0 \/ handover_flag l = 1) }.

Lemma inv_numbers s : inv flags s -> numbers_of (lock s) (threads s).
Proof.
  intros [H1 _ _ _ (rw & wl & wp & ho & HW)]. pose proof (count_facts flags (threads s)) as F. destruct HW as [W1 W2 W3 W4 W5 W6 W7].
  assert (E : phase_bit (lock s) = b2z wp /\ locked_bit (lock s) = b2z wl /\ handover_flag (lock s) = b2z ho) by (unfold phase_bit, locked_bit, handover_flag; rewrite W1, W2, wrphase_word, wrlocked_word, handover_bit by lia; done).
  destruct E as (E1 & E2 & E3). split; rewrite ?E1, ?E2, ?E3; auto; [rewrite W1; apply nreaders_word; lia | repeat split; apply b2z_bit].
Qed.

(** The hand-over: while a store is outstanding __wrphase_futex has the old phase, otherwise
    the current one. *)
Record handing (l : rwlock) (ts : list thread) : Prop := {
  h_futex : 0 <= wrphase_futex l <= 3;
  h_mirror : phase_bit l = wrphase_futex l mod 2 + total (at_point store1) ts - total (at_point store0) ts;
  h_one : total (at_point store0) ts + total (at_point store1) ts <= 1;
  h_reader : 1 <= total (at_point store0_writer) ts -> 1 <= total (at_point pending) ts;
  h_complete : total (at_point store1) ts + total ncomplete ts + handover_flag l <= 1;
  h_store1 : 1 <= total (at_point store1) ts -> locked_bit l = 1;
  h_read_phase : phase_bit l = 0 -> total ncomplete ts = 0 /\ handover_flag l = 0;
  h_write_phase : phase_bit l = 1 -> locked_bit l = 0 -> total (at_point waiting_reader) ts = 0;
  h_idle : phase_bit l = 0 -> nreaders (readers l) = 0 -> total (at_point waiting_primary) ts = 0;
  h_waiting : waiting_bit l = 1 -> phase_bit l = 0 /\ locked_bit l = 1 /\ 1 <= nreaders (readers l) }.

(** ** Counts *)

Ltac by_point := intros [p n b]; unfold at_point, ncomplete, nreg, nprim, nacq, nover; destruct p; simpl; unfold b2z; repeat case_match; simpl in *; lia.

Lemma hand_point t : 0 <= at_point store0_writer t <= at_point store0 t /\ at_point store0 t - at_point store0_writer t + at_point pending t <= nreg t /\
  0 <= at_point waiting_reader t <= at_point pending t /\ 0 <= at_point store1 t /\ 0 <= ncomplete t /\ 0 <= at_point waiting_primary t /\ ncomplete t + at_point waiting_primary t <= nprim t /\ nreg t <= nacq t + at_point pending t + nover t.
Proof using Type. clear flags. revert t. by_point. Qed.

(** Sums of inequalities. *)
Lemma hand_facts ts : 0 <= total (at_point store0_writer) ts <= total (at_point store0) ts /\ total (at_point store0) ts - total (at_point store0_writer) ts + total (at_point pending) ts <= total nreg ts /\
  0 <= total (at_point waiting_reader) ts <= total (at_point pending) ts /\ 0 <= total (at_point store1) ts /\ 0 <= total ncomplete ts /\ 0 <= total (at_point waiting_primary) ts /\
  total ncomplete ts + total (at_point waiting_primary) ts <= total nprim ts /\ total nreg ts <= total nacq ts + total (at_point pending) ts + total nover ts.
Proof using Type. clear flags. induction ts as [|t ts IH]; simpl; [lia|]. pose proof (hand_point t). lia. Qed.

Lemma hand_others ts k t : ts !! k = Some t -> let d f := total f ts - f t in
  0 <= d (at_point store0_writer) <= d (at_point store0) /\ d (at_point store0) - d (at_point store0_writer) + d (at_point pending) <= d nreg /\
  0 <= d (at_point waiting_reader) <= d (at_point pending) /\ 0 <= d (at_point store1) /\ 0 <= d ncomplete /\ 0 <= d (at_point waiting_primary) /\
  d ncomplete + d (at_point waiting_primary) <= d nprim /\ d nreg <= d nacq + d (at_point pending) + d nover.
Proof using Type.
  clear flags. intros Hk d. set (z := {| at_ := Out None; rd := 0; wr := false |}). pose proof (hand_facts (<[k := z]> ts)) as H. rewrite !(total_insert _ _ _ _ _ Hk) in H. unfold d.
  change (at_point store0_writer z) with 0 in H. change (at_point store0 z) with 0 in H. change (at_point pending z) with 0 in H. change (nreg z) with 0 in H. change (at_point waiting_reader z) with 0 in H.
  change (at_point store1 z) with 0 in H. change (ncomplete z) with 0 in H. change (at_point waiting_primary z) with 0 in H. change (nprim z) with 0 in H. change (nacq z) with 0 in H. change (nover z) with 0 in H. lia.
Qed.

Lemma used_small f : 0 <= f <= 3 -> futex_used f = (2 <=? f).
Proof using Type. clear flags. intros H. assert (E : f = 0 \/ f = 1 \/ f = 2 \/ f = 3) by lia. by destruct E as [->|[->|[->| ->]]]. Qed.

(** ** The two phases *)

Record read_phase (l : rwlock) (ts : list thread) : Prop := {
  rp_bit : phase_bit l = 0;
  rp_futex : 0 <= wrphase_futex l <= 3;
  rp_store1 : total (at_point store1) ts = 0;
  rp_store0 : total (at_point store0) ts = wrphase_futex l mod 2;
  rp_reader : 1 <= total (at_point store0_writer) ts -> 1 <= total (at_point pending) ts;
  rp_complete : total ncomplete ts = 0;
  rp_handover : handover_flag l = 0;
  rp_idle : nreaders (readers l) = 0 -> total (at_point waiting_primary) ts = 0;
  rp_waiting : waiting_bit l = 1 -> locked_bit l = 1 /\ 1 <= nreaders (readers l) }.

Record write_phase (l : rwlock) (ts : list thread) : Prop := {
  wp_bit : phase_bit l = 1;
  wp_futex : 0 <= wrphase_futex l <= 3;
  wp_store0 : total (at_point store0) ts = 0;
  wp_store1 : total (at_point store1) ts = 1 - wrphase_futex l mod 2;
  wp_complete : total (at_point store1) ts + total ncomplete ts + handover_flag l <= 1;
  wp_locked : locked_bit l = 0 -> total (at_point store1) ts = 0 /\ total (at_point waiting_reader) ts = 0;
  wp_waiting : waiting_bit l = 0 }.

Lemma handing_phases l ts : (phase_bit l = 0 \/ phase_bit l = 1) -> (locked_bit l = 0 \/ locked_bit l = 1) -> (waiting_bit l = 0 \/ waiting_bit l = 1) ->
  handing l ts <-> read_phase l ts \/ write_phase l ts.
Proof using Type.
  clear flags. intros Hp Hl Hw. pose proof (hand_facts ts) as F. pose proof (Z.mod_pos_bound (wrphase_futex l) 2 ltac:(lia)) as Hm. split.
  - intros [H1 H2 H3 H4 H5 H6 H7 H8 H9 H10]. destruct Hp as [Hp|Hp]; [left | right]; rewrite Hp in *.
    + split; auto; clear H4 H8 H9; try lia.
    + split; auto; try (clear H4 H6 H7 H8 H9 H10; lia); [intros E; specialize (H8 eq_refl E); split; [|exact H8]; clear H4 H7 H8 H9 H10; lia | clear H4 H7 H8 H9; lia].
  - intros [[R1 R2 R3 R4 R5 R6 R7 R8 R9]|[R1 R2 R3 R4 R5 R6 R7]]; split; rewrite ?R1; auto; try lia.
Qed.

(** ** A step of one thread *)
Section Step.
Context (s : state) (k : nat) (t t' : thread) (l' : rwlock).
Let s' : state := {| lock := l'; threads := <[k := t']> (threads s) |}.
Hypothesis (HI : inv flags s) (HI' : inv flags s') (Hk : threads s !! k = Some t) (HH : handing (lock s) (threads s)).

Ltac prepare :=
  pose proof (inv_numbers s HI) as [N1 N2 N3 N4 N5]; pose proof (inv_numbers s' HI') as [M1 M2 M3 M4 M5]; unfold s' in M1, M2, M3, M4, M5; cbn [lock threads] in M1, M2, M3, M4, M5; rewrite (total_insert _ _ _ _ _ Hk) in M1; rewrite (total_insert _ _ _ _ _ Hk) in M2; rewrite (total_insert _ _ _ _ _ Hk) in M3; rewrite (total_insert _ _ _ _ _ Hk) in M4;
  pose proof HH as [H1 H2 H3 H4 H5 H6 H7 H8 H9 H10]; pose proof (hand_others _ _ _ Hk) as G; cbv beta zeta in G; pose proof (other_facts flags _ _ _ Hk) as G2.

(** The lock as far as the hand-over is concerned. *)
Definition same_words : Prop := readers l' = readers (lock s) /\ writers l' = writers (lock s) /\ wrphase_futex l' = wrphase_futex (lock s).

Lemma same_bits : same_words -> phase_bit l' = phase_bit (lock s) /\ locked_bit l' = locked_bit (lock s) /\ waiting_bit l' = waiting_bit (lock s) /\ handover_flag l' = handover_flag (lock s).
Proof using Type. intros (E1 & E2 & _). unfold phase_bit, locked_bit, waiting_bit, handover_flag. by rewrite E1, E2. Qed.

(** Only the thread moves. *)
Lemma handing_keep : same_words ->
  at_point store0 t' = at_point store0 t -> at_point store0_writer t' = at_point store0_writer t -> at_point store1 t' = at_point store1 t ->
  (total (at_point store0) (threads s) = 0 \/ at_point pending t <= at_point pending t') ->
  (ncomplete t' <= ncomplete t \/ phase_bit l' = 1 /\ wrphase_futex l' mod 2 = 1 /\ 1 <= nprim t) ->
  (at_point waiting_reader t' <= at_point waiting_reader t \/ phase_bit l' = 0 \/ locked_bit l' = 1) ->
  (at_point waiting_primary t' <= at_point waiting_primary t \/ phase_bit l' = 1 \/ 1 <= nreaders (readers l')) -> handing l' (threads s').
Proof using HI HI' Hk HH.
  intros Hs T1 T2 T3 T4 T5 T6 T7. pose proof (same_bits Hs) as (B1 & B2 & B3 & B4). destruct Hs as (E1 & E2 & E3). prepare.  rewrite B1, B2, ?B3, B4, ?E1, ?E3 in *.
  pose proof (hand_facts (threads s)) as HF. pose proof (hand_point t') as P'. pose proof (hand_point t) as P.
  split; cbn [threads s']; rewrite ?(total_insert _ _ _ _ _ Hk), ?B1, ?B2, ?B3, ?B4, ?E1, ?E2, ?E3.
  - exact H1.
  - clear - H2 T1 T3. lia.
  - clear - H3 T1 T3. lia.
  - clear - H4 T2 T4 G HF. lia.
  - clear - H2 H3 H5 T3 T5 G G2 N2 N5 M2 P' HF. lia.
  - clear - H6 T3. lia.
  - clear - H7 T5 G P'. lia.
  - clear - H8 T6 G P'. lia.
  - clear - H9 T7 G P'. lia.
  - exact H10.
Qed.

End Step.

Lemma b2z_range b : 0 <= b2z b <= 1.
Proof using Type. clear. destruct b; simpl; lia. Qed.

Section Ops.
Context (s : state) (k : nat) (t : thread).
Hypothesis (HI : inv flags s) (Hk : threads s !! k = Some t) (HH : handing (lock s) (threads s)) (Hover : total nover (threads s) = 0) (Hloc : local flags (at_ t) = true) (Hcalm : calm (at_ t) = true).

(** The words of the lock by their bits. *)
Lemma bits_of_lock : exists rw wl wp ho, readers (lock s) = word (total nreg (threads s)) rw wl wp /\ writers (lock s) = total (nwreg flags) (threads s) + 2 ^ 31 * b2z ho /\
  0 <= total nreg (threads s) < 2 ^ 28 /\ 0 <= total (nwreg flags) (threads s) < 2 ^ 28 /\
  phase_bit (lock s) = b2z wp /\ locked_bit (lock s) = b2z wl /\ waiting_bit (lock s) = b2z rw /\ handover_flag (lock s) = b2z ho.
Proof using HI Hover.
  destruct HI as [I1 _ _ _ (rw & wl & wp & ho & HW)]. pose proof (count_facts flags (threads s)) as F. exists rw, wl, wp, ho. destruct HW as [W1 W2 W3 W4 W5 W6 W7].
  unfold phase_bit, locked_bit, waiting_bit, handover_flag. rewrite W1, W2, wrphase_word, wrlocked_word, rwaiting_word, handover_bit by lia. repeat split; lia.
Qed.

Lemma old_phase : read_phase (lock s) (threads s) \/ write_phase (lock s) (threads s).
Proof using HI HH. pose proof (inv_numbers s HI) as [_ _ _ _ (N1 & N2 & _)]. apply handing_phases; auto. apply b2z_bit. Qed.

Definition preserves (o : option outcome) : Prop := forall l' p' e, o = Some (l', p', e) -> inv flags {| lock := l'; threads := <[k := affect e p' t]> (threads s) |} -> calm p' = true ->
  handing l' (<[k := affect e p' t]> (threads s)).

Lemma preserves_new l' p' e : read_phase l' (<[k := affect e p' t]> (threads s)) \/ write_phase l' (<[k := affect e p' t]> (threads s)) -> preserves (Some (l', p', e)).
Proof using Type. intros H l2 p2 e2 E HI' _. injection E as <- <- <-. pose proof (inv_numbers _ HI') as [_ _ _ _ (N1 & N2 & _)]. apply handing_phases; auto. apply b2z_bit. Qed.

Lemma preserves_keep l' p' e : same_words s l' -> (let t' := affect e p' t in
  at_point store0 t' = at_point store0 t /\ at_point store0_writer t' = at_point store0_writer t /\ at_point store1 t' = at_point store1 t /\
  (total (at_point store0) (threads s) = 0 \/ at_point pending t <= at_point pending t') /\
  (ncomplete t' <= ncomplete t \/ phase_bit (lock s) = 1 /\ wrphase_futex (lock s) mod 2 = 1 /\ 1 <= nprim t) /\
  (at_point waiting_reader t' <= at_point waiting_reader t \/ phase_bit (lock s) = 0 \/ locked_bit (lock s) = 1) /\
  (at_point waiting_primary t' <= at_point waiting_primary t \/ phase_bit (lock s) = 1 \/ 1 <= nreaders (readers (lock s)))) -> preserves (Some (l', p', e)).
Proof using HI Hk HH.
  intros Hs (T1 & T2 & T3 & T4 & T5 & T6 & T7) l2 p2 e2 E HI' _. injection E as <- <- <-. destruct (same_bits s l' Hs) as (B1 & B2 & _). destruct Hs as (S1 & S2 & S3).
  apply (handing_keep s k t (affect e p' t) l' HI HI' Hk HH); rewrite ?B1, ?B2, ?S1, ?S3; auto. by repeat split.
Qed.

Lemma nreaders_or_locked r : nreaders (Z.lor r PTHREAD_RWLOCK_WRLOCKED) = nreaders r.
Proof using Type. clear. unfold nreaders, PTHREAD_RWLOCK_READER_SHIFT. rewrite Z.shiftr_lor. change (Z.shiftr PTHREAD_RWLOCK_WRLOCKED 3) with 0. apply Z.lor_0_r. Qed.

Lemma nwreg_pos : prefer_writer flags = true -> waiting_writer (at_ t) = 1 -> 1 <= total (nwreg flags) (threads s).
Proof using Hk. intros Hp Hw. pose proof (total_lookup (nwreg flags) _ _ _ (fun x => proj1 (nwreg_bound flags x)) Hk) as H. unfold nwreg in H at 1. rewrite Hp, Hw in H. exact H. Qed.

(** The counts of the thread before and after. *)
Ltac point_values Hat := unfold at_point, ncomplete, nreg, nacq, nover, nprim, nwriting, nwreg in *; cbn [affect goto at_ rd wr] in *; rewrite ?Hat in *; cbn [reg acquired over primary writing waiting_writer store0 store0_writer store1 pending waiting_reader complete waiting_primary] in *.
Ltac new_bits := unfold phase_bit, locked_bit, waiting_bit, handover_flag; cbn [readers writers wrphase_futex set_readers set_writers set_wrphase_futex set_writers_futex set_cur_writer];
  rewrite ?wrphase_word, ?wrlocked_word, ?rwaiting_word, ?nreaders_word, ?handover_bit by lia;
  fold (handover_flag (lock s)); fold (phase_bit (lock s)); fold (locked_bit (lock s)); fold (waiting_bit (lock s)); change (1 mod 2) with 1 in *; change (0 mod 2) with 0 in *; change (3 mod 2) with 1 in *; change (2 mod 2) with 0 in *.
(** The clauses for the new state, from what is known about the other threads. *)
Ltac new_counts Hat := split; rewrite ?(total_insert _ _ _ _ _ Hk); new_bits; cbn [b2z negb] in *; point_values Hat; rewrite ?Nat2Z.inj_succ, ?wrphase_or_locked, ?nreaders_or_locked, ?wrphase_word, ?nreaders_word by lia; cbn [b2z negb]; repeat match goal with |- context [?x =? 0] => destruct (Z.eqb_spec x 0); cbn [b2z negb] end; try done; try lia.
Ltac facts := destruct bits_of_lock as (rw & wl & wp & ho & Er & Ew & HR & HW & B1 & B2 & B3 & B4); pose proof (inv_numbers s HI) as [N1 N2 N3 N4 _];
  pose proof (hand_others _ _ _ Hk) as G; cbv beta zeta in G; pose proof (other_facts flags _ _ _ Hk) as G2; pose proof old_phase as Hold; pose proof (Z.mod_pos_bound (wrphase_futex (lock s)) 2 ltac:(lia)) as Hmod; pose proof (b2z_range rw) as Brw; pose proof (b2z_range wl) as Bwl; pose proof (b2z_range wp) as Bwp; pose proof (b2z_range ho) as Bho; pose proof (b2z_range (wr t)) as Bwr.
(** The steps that leave the words as they are. *)
Ltac next_points := unfold wu_hand, wu_done, wt_hand, wt_loop, futex_wait, tw_loop, wr_loop, wr_start, rd_start, rd_time, rd_prefer.
Ltac by_same Hat := apply preserves_keep; [by repeat split|]; unfold at_point, ncomplete; cbn [affect goto at_ rd wr]; next_points; rewrite ?Hat; repeat (case_match; try discriminate);
  cbn [store0 store0_writer store1 pending waiting_reader complete waiting_primary]; repeat split; try done; try (left; lia); try lia.
Ltac cas_case Hat := match goal with |- context [cas ?w ?x ?y] => let Ec := fresh "Ec" in destruct (cas w x y) eqn:Ec; [apply cas_true in Ec; subst y | try (solve [by_same Hat])] end.

(** The last reader of the read phase, or another one, leaves. *)
Lemma handing_rdunlock weak p : at_ t = p -> preserves (rdunlock weak p (lock s)).
Proof using All.
  intros Hat. destruct p; simpl; try (intros ? ? ?; discriminate); [by_same Hat | |].
  - cas_case Hat. facts. apply preserves_new. destruct Hold as [[R1 R2 R3 R4 R5 R6 R7 R8 R9]|[R1 _ _ _ _ _ _]]; [|exfalso; specialize (N3 R1); clear - N3 G2 Hat; point_values Hat; lia].
    rewrite R1 in B1. destruct wp; [discriminate|]. assert (HR1 : 1 <= total nreg (threads s)) by (clear - G2 Hat; point_values Hat; lia). rewrite Er, rdunlock_new_word by lia.
    destruct (Z.eqb_spec (total nreg (threads s)) 1) as [E1|E1]; simpl orb; rewrite wrphase_word by lia.
    + destruct wl; [right | left]; destruct (negb _); new_counts Hat.
    + left. destruct (negb _); new_counts Hat.
  - facts. apply preserves_new. destruct Hold as [[R1 R2 R3 R4 R5 R6 R7 R8 R9]|[R1 R2 R3 R4 R5 R6 R7]]; [exfalso; clear - R3 G Hat; point_values Hat; lia|]. right. repeat case_match; new_counts Hat.
Qed.

(** What the local variables of the thread say about the words. *)
Ltac known Hat := pose proof Hloc as HL; rewrite Hat in HL; simpl in HL; try match goal with H : readers (lock s) = _ |- _ => rewrite ?H in HL end; rewrite ?wrphase_word, ?wrlocked_word, ?nreaders_word in HL by lia; repeat (apply andb_true_iff in HL as [HL ?]); rewrite ?negb_true_iff in *.
Ltac in_read := match goal with H : _ \/ _ |- _ => idtac end.

Lemma store0_done : wrphase_futex (lock s) mod 2 = 0 -> 1 <= nacq t -> total (at_point store0) (threads s) = 0.
Proof using HI Hk HH.
  intros Hm Ha. destruct old_phase as [[R1 R2 R3 R4 R5 R6 R7 R8 R9]|[R1 R2 R3 R4 R5 R6 R7]]; [lia | exact R3].
Qed.

Lemma reader_test f : 0 <= f <= 3 -> (Z.lor f PTHREAD_RWLOCK_FUTEX_USED =? Z.lor 1 PTHREAD_RWLOCK_FUTEX_USED) = (f mod 2 =? 1).
Proof using Type. clear. intros H. assert (E : f = 0 \/ f = 1 \/ f = 2 \/ f = 3) by lia. by destruct E as [->|[->|[->| ->]]]. Qed.

Lemma writer_test f : 0 <= f <= 3 -> (Z.lor f PTHREAD_RWLOCK_FUTEX_USED =? PTHREAD_RWLOCK_FUTEX_USED) = (f mod 2 =? 0).
Proof using Type. clear. intros H. assert (E : f = 0 \/ f = 1 \/ f = 2 \/ f = 3) by lia. by destruct E as [->|[->|[->| ->]]]. Qed.

Lemma old_futex : 0 <= wrphase_futex (lock s) <= 3.
Proof using HH. apply HH. Qed.

(** A reader gets the lock after the hand-over. *)
Lemma handing_got p : at_ t = p -> acquired p = 1 -> store0 p = 0 -> store0_writer p = 0 -> store1 p = 0 -> complete p = 0 -> waiting_primary p = 0 ->
  wrphase_futex (lock s) mod 2 = 0 -> preserves (Some (lock s, Out None, GetRead)).
Proof using HI Hk HH.
  intros Hat V1 V2 V3 V4 V5 V6 Hm. apply preserves_keep; [by repeat split|]. unfold at_point, ncomplete. cbn [affect goto at_ rd wr]. rewrite Hat, V2, V3, V4, V5, V6. cbn [store0 store0_writer store1 pending waiting_reader complete waiting_primary].
  repeat split; try done; try lia; left; [apply store0_done; [exact Hm|]; unfold nacq; rewrite Hat; lia|]. pose proof (hand_point t) as P. unfold at_point in P. rewrite Hat in P. lia.
Qed.

(** A writer gets the lock after the hand-over. *)
Lemma handing_acquire p : at_ t = p -> writing p = 1 -> primary p = 1 -> store0 p = 0 -> store0_writer p = 0 -> store1 p = 0 -> pending p = 0 -> wrphase_futex (lock s) mod 2 <> 0 -> preserves (Some (lock s, WrDone, Nothing)).
Proof using HI Hk HH.
  intros Hat V1 V2 V3 V4 V5 V6 Hm. apply preserves_keep; [by repeat split|]. unfold at_point, ncomplete, nprim. cbn [affect goto at_ rd wr]. rewrite Hat, V2, V3, V4, V5, V6. cbn [store0 store0_writer store1 pending waiting_reader complete waiting_primary].
  pose proof (hand_point t) as P. unfold at_point in P. rewrite Hat in P. pose proof (b2z_range (wr t)) as Bwr. pose proof (Z.mod_pos_bound (wrphase_futex (lock s)) 2 ltac:(lia)) as Hmod.
  repeat split; try done; try (left; lia); [right; lia|]. right. pose proof (inv_numbers s HI) as [_ _ _ N4 [Np _]]. pose proof (total_lookup nwriting _ _ _ nwriting_nonneg Hk) as Hw. unfold nwriting in Hw at 1. rewrite Hat, V1 in Hw. lia.
Qed.

Lemma handing_rdlock weak p : at_ t = p -> preserves (rdlock flags weak (tid k) p (lock s)).
Proof using All.
  intros Hat. destruct p; simpl; try (intros ? ? ?; discriminate); try (solve [by_same Hat]); try (solve [repeat case_match; by_same Hat]).
  - cas_case Hat. facts. known Hat. subst wp wl. destruct Hold as [[R1 R2 R3 R4 R5 R6 R7 R8 R9]|[R1 _ _ _ _ _ _]]; [|rewrite R1 in B1; discriminate].
    apply preserves_new. left. rewrite Er, word_or_waiting by lia. new_counts Hat.
  - facts. unfold rd_registered. rewrite Er, word_add, overflow_word, wrphase_word by lia. unfold rd_start. rewrite wrphase_word, wrlocked_word by lia. destruct (Z.leb_spec (2 ^ 28) (total nreg (threads s) + 1)); [intros ? ? ? E _ Hc; injection E as <- <- <-; discriminate|].
    destruct Hold as [[R1 R2 R3 R4 R5 R6 R7 R8 R9]|[R1 R2 R3 R4 R5 R6 R7]]; rewrite R1 in B1; destruct wp; try discriminate.
    + apply preserves_new. left. new_counts Hat.
    + simpl. destruct wl; simpl; apply preserves_new; right; new_counts Hat.
  - exfalso. pose proof (total_lookup nover _ _ _ (fun x => proj1 (nover_bound x)) Hk) as Ho. unfold nover in Ho at 1. rewrite Hat in Ho. simpl in Ho. lia.
  - cas_case Hat.
    + facts. known Hat. subst wp wl. destruct Hold as [[R1 _ _ _ _ _ _ _ _]|[R1 R2 R3 R4 R5 R6 R7]]; [rewrite R1 in B1; discriminate|]. specialize (R6 B2). apply preserves_new. left. rewrite Er, word_xor_phase by lia. new_counts Hat.
    + facts. apply preserves_keep; [by repeat split|]. unfold rd_start. rewrite Er, wrphase_word, wrlocked_word by lia. unfold at_point, ncomplete. rewrite Hat. destruct wp, wl; cbn; repeat split; try done; try lia; auto.
  - facts. destruct Hold as [[R1 R2 R3 R4 R5 R6 R7 R8 R9]|[R1 R2 R3 R4 R5 R6 R7]]; [|exfalso; clear - R3 G Hat; point_values Hat; lia]. case_match; apply preserves_new; left; new_counts Hat.
  - rewrite (reader_test _ old_futex). destruct (Z.eqb_spec (wrphase_futex (lock s) mod 2) 1) as [Em|Em]; [case_match; by_same Hat|]. destruct ready; [|by_same Hat]. apply (handing_got _ Hat); try done.
    pose proof (Z.mod_pos_bound (wrphase_futex (lock s)) 2 ltac:(lia)). lia.
  - cas_case Hat. facts. known Hat. apply Z.eqb_eq in HL. rewrite HL. change (Z.lor 1 PTHREAD_RWLOCK_FUTEX_USED) with 3.
    destruct Hold as [[R1 R2 R3 R4 R5 R6 R7 R8 R9]|[R1 R2 R3 R4 R5 R6 R7]]; rewrite HL in *; [apply preserves_new; left | apply preserves_new; right]; new_counts Hat.
  - cas_case Hat. facts. known Hat. subst wp. destruct Hold as [[R1 _ _ _ _ _ _ _ _]|[R1 R2 R3 R4 R5 R6 R7]]; [rewrite R1 in B1; discriminate|].
    assert (HR1 : 1 <= total nreg (threads s)) by (clear - G2 Hat; point_values Hat; lia). apply preserves_new. right. rewrite Er, word_sub by lia. new_counts Hat.
  - rewrite (reader_test _ old_futex). destruct (Z.eqb_spec (wrphase_futex (lock s) mod 2) 1) as [Em|Em]; [by_same Hat|]. apply (handing_got _ Hat); try done.
    pose proof (Z.mod_pos_bound (wrphase_futex (lock s)) 2 ltac:(lia)). lia.
Qed.

Lemma handing_tryrdlock weak p : at_ t = p -> preserves (tryrdlock flags weak p (lock s)).
Proof using All.
  intros Hat. destruct p; simpl; try (intros ? ? ?; discriminate); [by_same Hat | |].
  - destruct (if wrphase r then wrlocked r else wrlocked r && nonrecursive flags) eqn:Eb; [by_same Hat|]. destruct (PTHREAD_RWLOCK_READER_OVERFLOW <=? _) eqn:Eo; [by_same Hat|]. cas_case Hat. facts.
    rewrite Er, wrphase_word, wrlocked_word in Eb by lia. rewrite Er, wrphase_word, word_add, word_xor_phase by lia.
    destruct Hold as [[R1 R2 R3 R4 R5 R6 R7 R8 R9]|[R1 R2 R3 R4 R5 R6 R7]]; rewrite R1 in B1; destruct wp; try discriminate; simpl; apply preserves_new; left; [new_counts Hat|].
    subst wl. specialize (R6 B2). new_counts Hat.
  - facts. destruct Hold as [[R1 R2 R3 R4 R5 R6 R7 R8 R9]|[R1 R2 R3 R4 R5 R6 R7]]; [|exfalso; clear - R3 G Hat; point_values Hat; lia]. case_match; apply preserves_new; left; new_counts Hat.
Qed.

Lemma handing_unlock p : at_ t = p -> (if cur_writer (lock s) =? tid k then wr t = true else (0 < rd t)%nat) -> preserves (unlock (tid k) p (lock s)).
Proof using HI Hk HH.
  intros Hat Hun. destruct p; simpl; try (intros ? ? ?; discriminate). destruct (cur_writer (lock s) =? tid k); (apply preserves_keep; [by repeat split|]); unfold at_point, ncomplete; cbn [affect at_ wr]; rewrite Hat, ?Hun; cbn; repeat split; try done; first [left; lia | right; lia].
Qed.

Lemma handing_wrunlock weak p : at_ t = p -> preserves (wrunlock flags weak p (lock s)).
Proof using All.
  intros Hat. destruct p; simpl; try (intros ? ? ?; discriminate); try (solve [by_same Hat]).
  - cas_case Hat. facts. known Hat. apply Z.eqb_neq in HL. destruct Hold as [[R1 R2 R3 R4 R5 R6 R7 R8 R9]|[R1 R2 R3 R4 R5 R6 R7]]; [exfalso; pose proof (b2z_range (wr t)) as Hb; clear - R6 G Hat Hb; point_values Hat; lia|].
    assert (ho = false) as -> by (destruct ho; [exfalso; clear - N2 B2 B4 G G2 Hat Bwl Bwr; point_values Hat; simpl in *; lia | done]).
    rewrite Ew, Z.mul_0_r, Z.add_0_r, handover_or by lia. replace (total (nwreg flags) (threads s) + 2 ^ 31) with (total (nwreg flags) (threads s) + 2 ^ 31 * b2z true) by (simpl; lia).
    apply preserves_new. right. unfold wu_done. destruct wake; new_counts Hat.
  - cas_case Hat. facts. destruct Hold as [[R1 R2 R3 R4 R5 R6 R7 R8 R9]|[R1 R2 R3 R4 R5 R6 R7]]; [exfalso; clear - R6 G Hat Bwr; point_values Hat; lia|]. specialize (N3 R1). rewrite R1 in B1. destruct wp; [|discriminate].
    assert (wl = true) as -> by (destruct wl; [done | exfalso; clear - N2 B2 B4 G G2 Hat Bho Bwr; point_values Hat; simpl in *; lia]).
    rewrite Er, wrunlock_new_word, nreaders_word by lia. unfold wu_done. destruct (Z.eqb_spec (total nreg (threads s)) 0) as [E0|E0]; apply preserves_new; [right; destruct wake | left]; new_counts Hat.
  - facts. destruct Hold as [[R1 R2 R3 R4 R5 R6 R7 R8 R9]|[R1 R2 R3 R4 R5 R6 R7]]; [|exfalso; clear - R3 G Hat; point_values Hat; lia]. apply preserves_new; left; unfold wu_done; repeat case_match; new_counts Hat.
Qed.

Lemma handing_wrlock weak p : at_ t = p -> preserves (wrlock flags weak (tid k) p (lock s)).
Proof using All.
  intros Hat. destruct p; simpl; try (intros ? ? ?; discriminate); try (exfalso; rewrite Hat in Hcalm; discriminate); try (solve [by_same Hat]); try (solve [case_match; by_same Hat]).
  - facts. rewrite Er, word_or_locked, wrlocked_word by lia. unfold wr_loop. rewrite wrlocked_word by lia. destruct wl.
    + apply preserves_keep; [split; [symmetry; exact Er | by split]|]. unfold at_point, ncomplete. rewrite Hat. repeat case_match; cbn; repeat split; try done; first [left; lia | right; lia].
    + destruct Hold as [[R1 R2 R3 R4 R5 R6 R7 R8 R9]|[R1 R2 R3 R4 R5 R6 R7]]; rewrite R1 in B1; destruct wp; try discriminate; apply preserves_new; [left | right]; new_counts Hat.
  - facts. known Hat. rewrite Ew. replace (wrap 32 (total (nwreg flags) (threads s) + 2 ^ 31 * b2z ho + 1)) with (total (nwreg flags) (threads s) + 1 + 2 ^ 31 * b2z ho) by (rewrite wrap_small; lia). unfold wr_loop.
    destruct Hold as [[R1 R2 R3 R4 R5 R6 R7 R8 R9]|[R1 R2 R3 R4 R5 R6 R7]]; rewrite ?B4 in *; repeat case_match; apply preserves_new; [left ..| right | right | right]; new_counts Hat.
  - cas_case Hat. facts. known Hat. subst wl. rewrite Er, word_or_locked by lia.
    destruct Hold as [[R1 R2 R3 R4 R5 R6 R7 R8 R9]|[R1 R2 R3 R4 R5 R6 R7]]; rewrite R1 in B1; destruct wp; try discriminate; case_match; apply preserves_new; [left | left | right | right]; new_counts Hat.
  - facts. known Hat. pose proof (nwreg_pos HL ltac:(by rewrite Hat)) as Hpos. assert (ho = false) as -> by (destruct ho; [exfalso; clear - N2 B2 B4 G G2 Hat Bwl Bwr; point_values Hat; simpl in *; lia | done]).
    rewrite Ew. replace (wrap 32 (total (nwreg flags) (threads s) + 2 ^ 31 * b2z false - 1)) with (total (nwreg flags) (threads s) - 1 + 2 ^ 31 * b2z false) by (rewrite wrap_small; simpl b2z; lia).
    destruct Hold as [[R1 R2 R3 R4 R5 R6 R7 R8 R9]|[R1 R2 R3 R4 R5 R6 R7]]; rewrite ?B4 in *; apply preserves_new; [left | right]; new_counts Hat.
  - cas_case Hat. facts. known Hat. rename H into Hpref. apply (f_equal negb) in HL. rewrite Ew, handover_bit in HL by lia. simpl in HL. subst ho. pose proof (nwreg_pos Hpref ltac:(by rewrite Hat)) as Hpos.
    rewrite Ew. replace (wrap 32 (total (nwreg flags) (threads s) + 2 ^ 31 * b2z true - PTHREAD_RWLOCK_WRHANDOVER - 1)) with (total (nwreg flags) (threads s) - 1 + 2 ^ 31 * b2z false) by (unfold PTHREAD_RWLOCK_WRHANDOVER; rewrite wrap_small; simpl b2z; lia).
    destruct Hold as [[R1 R2 R3 R4 R5 R6 R7 R8 R9]|[R1 R2 R3 R4 R5 R6 R7]]; [rewrite R7 in B4; discriminate|]. rewrite B4 in *. apply preserves_new. right. new_counts Hat.
  - facts. destruct Hold as [[R1 R2 R3 R4 R5 R6 R7 R8 R9]|[R1 R2 R3 R4 R5 R6 R7]]; [exfalso; clear - R6 G Hat Bwr; point_values Hat; lia|]. rewrite R1 in B1. destruct wp; [|discriminate]. rewrite Er, word_or_locked by lia.
    apply preserves_keep; [by repeat split|]. unfold at_point, ncomplete. rewrite Hat. cbn [affect goto at_ wr store0 store0_writer store1 pending waiting_reader complete waiting_primary]. rewrite wrphase_word by lia. cbn; repeat split; try done; first [left; lia | right; lia].
  - apply preserves_keep; [by repeat split|]. unfold at_point, ncomplete, wr_start. rewrite Hat. destruct (wrphase r) eqn:Ep; [|destruct (nreaders r =? 0) eqn:En]; cbn [affect goto at_ wr store0 store0_writer store1 pending waiting_reader complete waiting_primary negb andb]; rewrite Ep, ?En; cbn; repeat split; try done; first [left; lia | right; lia].
  - cas_case Hat.
    + facts. known Hat. subst wp. apply Z.eqb_eq in H. destruct Hold as [[R1 R2 R3 R4 R5 R6 R7 R8 R9]|[R1 R2 R3 R4 R5 R6 R7]]; [|rewrite R1 in B1; discriminate].
      assert (wl = true) as -> by (destruct wl; [done | exfalso; clear - N2 B2 B4 G G2 Hat Bho Bwr; point_values Hat; simpl in *; lia]).
      rewrite Er, word_or_phase by lia. apply preserves_new. right. new_counts Hat.
    + facts. apply preserves_keep; [by repeat split|]. unfold at_point, ncomplete, wr_start. rewrite Er, Hat, wrphase_word, nreaders_word, <- Er, B1 by lia. cbn [affect goto at_ wr].
      destruct wp; [|destruct (Z.eqb_spec (total nreg (threads s)) 0)]; cbn; repeat split; try done; first [left; lia | right; lia | right; left; lia | right; right; lia].
  - facts. destruct Hold as [[R1 R2 R3 R4 R5 R6 R7 R8 R9]|[R1 R2 R3 R4 R5 R6 R7]]; [exfalso; clear - R3 G Hat; point_values Hat; lia|]. apply preserves_new. right. new_counts Hat.
  - rewrite (writer_test _ old_futex). destruct (Z.eqb_spec (wrphase_futex (lock s) mod 2) 0) as [Em|Em]; [by_same Hat|]. destruct ready; [|by_same Hat]. by apply (handing_acquire _ Hat).
  - cas_case Hat. facts. known Hat. apply Z.eqb_eq in HL. unfold PTHREAD_RWLOCK_FUTEX_USED. destruct Hold as [[R1 R2 R3 R4 R5 R6 R7 R8 R9]|[R1 R2 R3 R4 R5 R6 R7]]; rewrite HL in *; [apply preserves_new; left | apply preserves_new; right]; new_counts Hat.
  - cas_case Hat. facts. known Hat. subst wp. destruct Hold as [[R1 R2 R3 R4 R5 R6 R7 R8 R9]|[R1 R2 R3 R4 R5 R6 R7]]; [|rewrite R1 in B1; discriminate].
    assert (wl = true) as -> by (destruct wl; [done | exfalso; clear - N2 B2 B4 G G2 Hat Bho Bwr; point_values Hat; simpl in *; lia]).
    rewrite Er, word_xor_locked, word_clear by lia. apply preserves_new. left. repeat case_match; new_counts Hat.
  - rewrite (writer_test _ old_futex). destruct (Z.eqb_spec (wrphase_futex (lock s) mod 2) 0) as [Em|Em]; [by_same Hat|]. by apply (handing_acquire _ Hat).
  - pose proof (b2z_range (wr t)) as Bwr. apply preserves_keep; [by repeat split|]. unfold at_point, ncomplete. rewrite Hat. cbn [affect goto at_ wr b2z store0 store0_writer store1 pending waiting_reader complete waiting_primary]. repeat split; try done; first [left; lia | right; lia].
Qed.

Lemma handing_trywrlock weak p : at_ t = p -> preserves (trywrlock flags weak (tid k) p (lock s)).
Proof using All.
  intros Hat. destruct p; simpl; try (intros ? ? ?; discriminate); try (solve [by_same Hat]).
  - cas_case Hat. facts. known Hat. subst wl. rewrite Er, word_or_phase, word_or_locked by lia.
    destruct Hold as [[R1 R2 R3 R4 R5 R6 R7 R8 R9]|[R1 R2 R3 R4 R5 R6 R7]]; rewrite R1 in B1; destruct wp; try discriminate; apply preserves_new; right; [|new_counts Hat].
    rewrite andb_false_r, orb_false_r in H. apply Z.eqb_eq in H. new_counts Hat.
  - apply preserves_keep; [by repeat split|]. unfold at_point, ncomplete. rewrite Hat. destruct (wrphase r) eqn:Ep; cbn [affect goto at_ wr store0 store0_writer store1 pending waiting_reader complete waiting_primary]; rewrite Ep; cbn; repeat split; try done; first [left; lia | right; lia].
  - facts. destruct Hold as [[R1 R2 R3 R4 R5 R6 R7 R8 R9]|[R1 R2 R3 R4 R5 R6 R7]]; [exfalso; clear - R3 G Hat; point_values Hat; lia|]. apply preserves_new. right. new_counts Hat.
Qed.

Lemma handing_op weak : (at_ t = UnLoad -> if cur_writer (lock s) =? tid k then wr t = true else (0 < rd t)%nat) -> preserves (op flags weak (tid k) (at_ t) (lock s)).
Proof using All.
  intros Hun. enough (H : forall p, at_ t = p -> preserves (op flags weak (tid k) p (lock s))) by auto. intros p E.
  destruct p; cbn [op]; first [solve [apply handing_rdunlock, E] | solve [apply handing_tryrdlock, E] | solve [apply handing_trywrlock, E] | solve [apply handing_wrunlock, E] | solve [apply handing_rdlock, E] | solve [apply handing_wrlock, E] | apply handing_unlock; [exact E | exact (Hun E)]].
Qed.
End Ops.

(** ** The other steps *)

Lemma affect_at e p t : at_ (affect e p t) = p.
Proof using Type. clear. by destruct e. Qed.

(** A thread that only moves on: what it has to store, to complete and to wait for does not grow. *)
Definition quiet (t t' : thread) : Prop :=
  at_point store0 t' = at_point store0 t /\ at_point store0_writer t' = at_point store0_writer t /\ at_point store1 t' = at_point store1 t /\ at_point pending t' = at_point pending t /\
  ncomplete t' <= ncomplete t /\ at_point waiting_reader t' <= at_point waiting_reader t /\ at_point waiting_primary t' <= at_point waiting_primary t.

Lemma handing_quiet s k t t' : inv flags s -> inv flags {| lock := lock s; threads := <[k := t']> (threads s) |} -> threads s !! k = Some t -> quiet t t' -> handing (lock s) (threads s) -> handing (lock s) (<[k := t']> (threads s)).
Proof using Type.
  intros HI HI' Hk (Q1 & Q2 & Q3 & Q4 & Q5 & Q6 & Q7) HH. apply (handing_keep s k t t' (lock s) HI HI' Hk HH); auto; [by repeat split | right; lia].
Qed.

Ltac by_quiet := unfold quiet, at_point, ncomplete; cbn; repeat split; try done; try lia.

Lemma move_quiet c t t' : move flags c t = Some t' -> quiet t t'.
Proof using Type.
  destruct t as [p n b]. unfold move. destruct c as [c| | | | |]; simpl; try discriminate.
  - destruct p; try discriminate. intros H. destruct (entry c _) as [p'|] eqn:E; [|discriminate]. simpl in H. injection H as <-.
    destruct c as [[]|[]| | |]; simpl in E; try (injection E as <-; by_quiet; fail). destruct (negb (n =? 0)%nat || b) eqn:Eb; [|discriminate]. injection E as <-. by_quiet.
  - destruct p; simpl; intros H; try discriminate; injection H as <-; by_quiet.
  - unfold timed_out. intros H. destruct p; simpl in H; try discriminate; repeat (case_match; simpl in H; try discriminate); injection H as <-; by_quiet.
Qed.

Lemma unblock_quiet : (forall x y, unblock_phase x = Some y -> quiet x y) /\ (forall x y, unblock_readers x = Some y -> quiet x y) /\ (forall x y, unblock_writers x = Some y -> quiet x y).
Proof using Type. clear. split; [|split]; intros [p n b] y; destruct p; simpl; intros H; try discriminate; injection H as <-; by_quiet. Qed.

Lemma wake_quiet u n p' e t : wake (at_ t) = Some (u, n, p', e) -> quiet t (affect e p' t) /\ (forall x y, u x = Some y -> quiet x y).
Proof using Type.
  clear. intros H. destruct unblock_quiet as (U1 & U2 & U3). destruct t as [p m b]. simpl in H. destruct p; simpl in H; try discriminate; unfold wu_done in H; repeat (case_match; try discriminate); injection H as <- <- <- <-; (split; [by_quiet | assumption]).
Qed.

Lemma handing_wake_list u ws lk : wakes flags u -> (forall x y, u x = Some y -> quiet x y) -> forall l l', inv flags {| lock := lk; threads := l |} -> handing lk l -> wake_list u ws l = Some l' -> handing lk l'.
Proof using Type.
  intros Hu Hq. induction ws as [|w ws IH]; intros l l' HI HH H; simpl in H; [by injection H as <-|]. destruct (l !! w) as [x|] eqn:E; [|done]. destruct (u x) as [y|] eqn:Ey; [|done].
  assert (HI' : inv flags {| lock := lk; threads := <[w := y]> l |}) by (destruct (Hu x y Ey) as (_ & Hm & _); exact (inv_move flags {| lock := lk; threads := l |} w x y HI E Hm)).
  apply (IH (<[w := y]> l)); [done | | done]. exact (handing_quiet {| lock := lk; threads := l |} w x y HI HI' E (Hq x y Ey) HH).
Qed.

(** ** Calm steps *)

Definition all_calm (ts : list thread) : Prop := forall k t, ts !! k = Some t -> calm (at_ t) = true.

Lemma calm_over ts : all_calm ts -> total nover ts = 0.
Proof using Type. intros H. apply total_zero. intros k t Hk. specialize (H k t Hk). unfold nover. by destruct (at_ t). Qed.

Lemma op_calm weak self p l l' p' e : op flags weak self p l = Some (l', p', e) -> calm p = true -> readers l' < PTHREAD_RWLOCK_READER_OVERFLOW -> calm p' = true.
Proof using Type.
  intros H Hc Hr. assert (Hno : forall r, readers l' = r -> (PTHREAD_RWLOCK_READER_OVERFLOW <=? r) = false) by (intros r <-; by apply Z.leb_gt).
  destruct p; simpl in H, Hc; try discriminate; unfold go, return_, rd_registered in H; unfold rd_start, rd_time, rd_prefer, wu_hand, wu_done, wt_hand, wt_loop, futex_wait, tw_loop, wr_loop, wr_start in H;
    repeat (case_match; try discriminate); injection H as <- <- <-; try done; simpl in *; try congruence.
  all: try (specialize (Hno _ eq_refl); congruence). all: by apply negb_true_iff.
Qed.

Lemma calm_step_step c k s s' : calm_step c k s = Some s' -> step flags c k s = Some s' /\ calm_call c = true /\ readers (lock s') < PTHREAD_RWLOCK_READER_OVERFLOW.
Proof using Type.
  unfold calm_step. destruct (calm_call c); [|done]. destruct (step flags c k s) as [s1|]; simpl; [|done]. destruct (Z.ltb_spec (readers (lock s1)) PTHREAD_RWLOCK_READER_OVERFLOW); [|done]. intros E. by injection E as <-.
Qed.

Lemma move_calm c t t' : move flags c t = Some t' -> calm_call c = true -> calm (at_ t) = true -> calm (at_ t') = true.
Proof using Type.
  destruct t as [p n b]. unfold move, calm_call. destruct c as [c| | | | |]; simpl; try discriminate.
  - destruct p; try discriminate. intros H Hc _. destruct (entry c _) as [p'|] eqn:E; [|discriminate]. simpl in H. injection H as <-. destruct c as [[]|[]| | |]; simpl in E; repeat (case_match; try discriminate); injection E as <-; done.
  - destruct p; simpl; intros H; try discriminate; injection H as <-; done.
  - unfold timed_out. intros H _. destruct p; simpl in H; try discriminate; repeat (case_match; simpl in H; try discriminate); injection H as <-; simpl; try done; intros Hc; apply negb_true_iff in Hc; congruence.
Qed.

Lemma unblock_calm x y : unblock_phase x = Some y \/ unblock_readers x = Some y \/ unblock_writers x = Some y -> calm (at_ x) = true -> calm (at_ y) = true.
Proof using Type. destruct x as [p n b]. intros [H|[H|H]]; destruct p; simpl in H; try discriminate; injection H as <-; done. Qed.

Lemma wake_calm u n p' e p : wake p = Some (u, n, p', e) -> calm p = true -> calm p' = true /\ (u = unblock_phase \/ u = unblock_readers \/ u = unblock_writers).
Proof using Type. intros H. destruct p; simpl in H; try discriminate; unfold wu_done in H; repeat (case_match; try discriminate); injection H as <- <- <- <-; simpl; auto. Qed.

Lemma all_calm_insert ts k t : all_calm ts -> calm (at_ t) = true -> all_calm (<[k := t]> ts).
Proof using Type. intros H Ht j x Hj. apply list_lookup_insert_Some in Hj as [(-> & <- & _)|(_ & Hj)]; eauto. Qed.

(** What calm steps keep. *)
Record handed (s : state) : Prop := { hd_inv : inv flags s; hd_calm : all_calm (threads s); hd_handing : handing (lock s) (threads s) }.

(** The three kinds of steps. *)
Lemma handed_op weak k s t l' p' e : handed s -> threads s !! k = Some t -> op flags weak (tid k) (at_ t) (lock s) = Some (l', p', e) -> readers l' < PTHREAD_RWLOCK_READER_OVERFLOW ->
  handed {| lock := l'; threads := <[k := affect e p' t]> (threads s) |}.
Proof using Type.
  intros [HI HC HH] Hk Hop Hr. pose proof (HC k t Hk) as Hc. pose proof (inv_op flags weak s k t l' p' e HI Hk Hop) as HI'. assert (Hc' : calm p' = true) by (eapply op_calm; eauto).
  split; [exact HI' | apply all_calm_insert; [done | by rewrite affect_at] |].
  apply (handing_op s k t HI Hk HH (calm_over _ HC) (inv_local flags s HI k t Hk) Hc weak); auto.
  intros E. pose proof (inv_unlock flags s HI k t Hk E) as Hu. pose proof (inv_cur_writer flags s HI k t Hk) as Hw. unfold owns in Hw. rewrite E, orb_false_r in Hw.
  destruct (Z.eqb_spec (cur_writer (lock s)) (tid k)) as [Ec|Ec]; [by apply Hw | destruct Hu as [Hu|Hu]; [exact Hu | by apply Hw in Hu]].
Qed.

Lemma handed_move c k s t t' : handed s -> threads s !! k = Some t -> move flags c t = Some t' -> calm_call c = true -> handed {| lock := lock s; threads := <[k := t']> (threads s) |}.
Proof using Type.
  intros [HI HC HH] Hk Hm Hc. pose proof (inv_move flags s k t t' HI Hk (move_moves flags _ _ _ Hm)) as HI'.
  split; [exact HI' | apply all_calm_insert; [done | eapply move_calm; eauto] | exact (handing_quiet s k t t' HI HI' Hk (move_quiet _ _ _ Hm) HH)].
Qed.

Lemma handed_wake u n p' e ws k s t ts : handed s -> threads s !! k = Some t -> wake (at_ t) = Some (u, n, p', e) -> futex_wake u n ws (<[k := affect e p' t]> (threads s)) = Some ts -> handed {| lock := lock s; threads := ts |}.
Proof using Type.
  intros [HI HC HH] Hk Hw Hf. pose proof (inv_move flags s k t _ HI Hk (wake_moves flags _ _ _ _ _ Hw)) as HI'. destruct (wake_quiet _ _ _ _ _ Hw) as [Hq Hu]. destruct (wake_wakes flags _ _ _ _ _ Hw) as [Hwk _].
  destruct (wake_calm _ _ _ _ _ Hw (HC k t Hk)) as [Hc Hun]. pose proof (handing_quiet s k t _ HI HI' Hk Hq HH) as HH'. pose proof (all_calm_insert (threads s) k (affect e p' t) HC ltac:(by rewrite affect_at)) as HC'.
  unfold futex_wake in Hf. destruct (_ =? _); [|done]. split; simpl; [eapply inv_wake_list; eauto | | eapply handing_wake_list; eauto].
  intros j y Hj. destruct (wake_list_lookup u (fun x y E => proj1 (Hwk x y E)) _ _ _ _ _ Hf Hj) as [H|(x & H & E)]; [eauto|]. apply (unblock_calm x y); [destruct Hun as [->|[->| ->]]; auto | eauto].
Qed.

Lemma handed_step c k s s' : handed s -> calm_step c k s = Some s' -> handed s'.
Proof using Type.
  intros HD H. apply calm_step_step in H as (H & Hc & Hr). unfold step in H. destruct (threads s !! k) as [t|] eqn:Hk; [|done]. simpl in H.
  assert (Hmv : forall c, calm_call c = true -> (t' ← move flags c t; Some {| lock := lock s; threads := <[k := t']> (threads s) |}) = Some s' -> handed s').
  { intros c' Hc' E. destruct (move flags c' t) as [t'|] eqn:Em; simpl in E; [|done]. injection E as <-. eapply handed_move; eauto. }
  assert (Hop : forall weak, ('(l, p, e) ← op flags weak (tid k) (at_ t) (lock s); Some {| lock := l; threads := <[k := affect e p t]> (threads s) |}) = Some s' -> handed s').
  { intros weak E. destruct (op flags weak (tid k) (at_ t) (lock s)) as [[[l p] e]|] eqn:Eo; simpl in E; [|done]. injection E as <-. eapply handed_op; eauto. }
  destruct c; eauto. destruct (wake (at_ t)) as [[[[u n] p] e]|] eqn:Ew; simpl in H; [|done]. destruct (futex_wake u n ws _) as [l|] eqn:Ef; simpl in H; [|done]. injection H as <-. eapply handed_wake; eauto.
Qed.

Lemma handed_init n : Z.of_nat n < 2 ^ 28 -> handed (init n).
Proof using Type.
  intros Hn. split; [by apply inv_init | |].
  - intros k t Hk. simpl in Hk. apply lookup_replicate in Hk as [-> _]. done.
  - split; unfold init; cbn [lock threads]; rewrite ?total_replicate; unfold at_point, ncomplete, phase_bit, locked_bit, waiting_bit, handover_flag; cbn [at_ wr b2z store0 store0_writer store1 pending waiting_reader complete waiting_primary]; rewrite ?Z.mul_0_r; simpl; try lia; try done.
Qed.
End Calm.
