(* ===== verification/RwlockWake.v ===== *)
(** * Wake-ups of the read-write lock

    The futexes: in a state in which no thread can go on, threads wait only for a lock that somebody
    holds: another thread, or a blocked writer that holds a read lock itself.  This needs that no
    writer gives up after a time-out on a lock that prefers writers ([calm_step], which also leaves
    out the states with 2^28 or more registered readers); the last theorem shows why. *)

From Stdlib Require Import ZArith.
From stdpp Require Import base list relations.
From S2P Require Import Prelude Threads Rwlock RwlockHand.
#[local] Open Scope Z_scope.

(** Threads blocked on __wrphase_futex, and those that will wake them. *)
Definition rd_asleep (p : pc) : Z := match p with RdBlocked _ _ => 1 | _ => 0 end.
Definition wr_asleep (p : pc) : Z := match p with WrBlocked _ _ => 1 | _ => 0 end.
Definition phase_waker (p : pc) : Z := match p with RuPhaseWake _ | RdStartWake | TrWake | WuPhaseWake _ => 1 | _ => 0 end.

(** Threads blocked on __readers, and those that will wake them. *)
Definition rd_queued (p : pc) : Z := match p with RdPreferBlocked _ => 1 | _ => 0 end.
Definition readers_waker (p : pc) : Z := match p with RuPhase w | RuPhaseWake w | WtWake w => b2z w | RuWake | WtWakeReaders => 1 | _ => 0 end.

(** Threads blocked on __writers_futex; those that will wake one of them or were woken and carry
    the flag on. *)
Definition wr_queued (p : pc) : Z := match p with WrFutexBlocked _ => 1 | _ => 0 end.
Definition writers_waker (p : pc) : Z :=
  match p with
  | WuHandLoad w | WuHand w _ | WuLoad w | WuLoop w _ | WuPhase w | WuPhaseWake w => b2z w
  | WuWake | WtWake _ => 1
  | WtLoop _ wf | WtRestore wf => b2z (futex_used wf)
  | WrCas _ w _ | WrUnregister _ w _ | WrHandLoad _ w _ | WrHand _ w _ _ | WrReload _ w | WrFutexLoad _ w | WrFutexMark _ w _ | WrAgain _ w | WrEnable _ w _ => b2z w
  | _ => 0
  end.

(** The primary writer while __writers_futex lets others block. *)
Definition enabled (p : pc) : Z :=
  match p with
  | WrStart _ _ | WrStartStore | WrWait _ _ | WrMark _ _ _ | WrWaitFutex _ _ | WrBlocked _ _ | WrTest _ | WtLoad | WtFutex _ | WtSpin | WrDone | WuClear | WuFutex | TwPhase => 1
  | WtHandLoad _ | WtHandFutex _ _ => 1
  | _ => 0
  end.
Definition nenabled (t : thread) : Z := b2z (wr t) + enabled (at_ t).

(** What local variables remember of the futexes. *)
Definition recalls (p : pc) : bool :=
  match p with
  | RdPreferWait _ r => rwaiting r
  | WtLoop _ wf | WtRestore wf => (wf =? 1) || (wf =? 3)
  | _ => true
  end.

(** Whoever sleeps has marked the word, or somebody is about to wake. *)
Record sleeping (l : rwlock) (ts : list thread) : Prop := {
  s_rd_asleep : 1 <= total (at_point rd_asleep) ts -> wrphase_futex l = 3 \/ 1 <= total (at_point phase_waker) ts;
  s_wr_asleep : 1 <= total (at_point wr_asleep) ts -> wrphase_futex l = 2 \/ 1 <= total (at_point phase_waker) ts;
  s_rd_queued : 1 <= total (at_point rd_queued) ts -> waiting_bit l = 1 \/ 1 <= total (at_point readers_waker) ts;
  s_wr_queued : 1 <= total (at_point wr_queued) ts -> writers_futex l = 3 \/ 1 <= total (at_point writers_waker) ts;
  s_futex : total nenabled ts = 0 /\ writers_futex l = 0 \/ total nenabled ts = 1 /\ (writers_futex l = 1 \/ writers_futex l = 3);
  s_recalls : forall k t, ts !! k = Some t -> recalls (at_ t) = true }.

Ltac by_point := intros [p n b]; unfold at_point, nenabled, nprim; destruct p; simpl; unfold b2z; repeat case_match; simpl in *; lia.

Lemma sleep_point t : 0 <= at_point rd_asleep t /\ 0 <= at_point wr_asleep t <= nprim t /\ 0 <= at_point phase_waker t /\ 0 <= at_point rd_queued t /\ 0 <= at_point readers_waker t /\
  0 <= at_point wr_queued t /\ 0 <= at_point writers_waker t /\ 0 <= nenabled t <= nprim t.
Proof. revert t. by_point. Qed.

Lemma sleep_facts ts : 0 <= total (at_point rd_asleep) ts /\ 0 <= total (at_point wr_asleep) ts <= total nprim ts /\ 0 <= total (at_point phase_waker) ts /\ 0 <= total (at_point rd_queued) ts /\
  0 <= total (at_point readers_waker) ts /\ 0 <= total (at_point wr_queued) ts /\ 0 <= total (at_point writers_waker) ts /\ 0 <= total nenabled ts <= total nprim ts.
Proof. induction ts as [|t ts IH]; simpl; [lia|]. pose proof (sleep_point t). lia. Qed.

Lemma sleep_others ts k t : ts !! k = Some t -> let d f := total f ts - f t in
  0 <= d (at_point rd_asleep) /\ 0 <= d (at_point wr_asleep) <= d nprim /\ 0 <= d (at_point phase_waker) /\ 0 <= d (at_point rd_queued) /\
  0 <= d (at_point readers_waker) /\ 0 <= d (at_point wr_queued) /\ 0 <= d (at_point writers_waker) /\ 0 <= d nenabled <= d nprim.
Proof.
  intros Hk d. set (z := {| at_ := Out None; rd := 0; wr := false |}). pose proof (sleep_facts (<[k := z]> ts)) as H. rewrite !(total_insert _ _ _ _ _ Hk) in H. unfold d.
  change (at_point rd_asleep z) with 0 in H. change (at_point wr_asleep z) with 0 in H. change (at_point phase_waker z) with 0 in H. change (at_point rd_queued z) with 0 in H.
  change (at_point readers_waker z) with 0 in H. change (at_point wr_queued z) with 0 in H. change (at_point writers_waker z) with 0 in H. change (nenabled z) with 0 in H. change (nprim z) with 0 in H. lia.
Qed.

Section Sleep.
Context (flags : kind).

(** ** What an operation does to the futexes *)

Ltac points := unfold go, return_, rd_registered, rd_start, rd_time, rd_prefer, wu_hand, wu_done, wt_hand, wt_loop, futex_wait, tw_loop, wr_loop, wr_start in *.
Ltac by_op H p := destruct p; simpl in H; try discriminate; points; repeat (case_match; try discriminate); injection H as <- <- <-; cbn [wrphase_futex writers_futex readers set_readers set_writers set_wrphase_futex set_writers_futex set_cur_writer rd_asleep wr_asleep phase_waker rd_queued readers_waker wr_queued writers_waker enabled recalls b2z at_point].

Lemma op_phase weak self p l l' p' e : local flags p = true -> op flags weak self p l = Some (l', p', e) ->
  rd_asleep p = 0 /\ wr_asleep p = 0 /\ phase_waker p = 0 /\ 0 <= phase_waker p' /\
  (rd_asleep p' = 0 \/ rd_asleep p' = 1 /\ wrphase_futex l' = 3) /\ (wr_asleep p' = 0 \/ wr_asleep p' = 1 /\ wrphase_futex l' = 2) /\
  (wrphase_futex l' = wrphase_futex l \/ phase_waker p' = 1 \/ futex_used (wrphase_futex l) = false \/ store1 p = 1 /\ primary p = 1 /\ rd_asleep p' = 0 /\ wr_asleep p' = 0).
Proof using Type.
  intros HL H. by_op H p; repeat split; auto; try lia; try (left; reflexivity); try (right; split; [reflexivity | by apply Z.eqb_eq]).
  all: try (right; right; right; done).
  all: right; right; left; simpl in HL; apply Z.eqb_eq in HL as ->; match goal with H : cas _ _ _ = true |- _ => apply cas_true in H as <- end; done.
Qed.

Lemma one_primary s : handed flags s -> total nprim (threads s) <= 1.
Proof using Type. intros [HI _ _]. pose proof (inv_numbers flags s HI) as [_ N2 _ _ N5]. lia. Qed.

(** Before the store of a new write phase the futex has the old one. *)
Lemma store1_old s k t : handed flags s -> threads s !! k = Some t -> store1 (at_ t) = 1 -> wrphase_futex (lock s) mod 2 = 0.
Proof using Type.
  intros [HI _ [H1 H2 H3 _ _ _ _ _ _ _]] Hk E. pose proof (hand_others _ _ _ Hk) as G. cbv beta zeta in G. change (at_point store1 t = 1) in E. rewrite E in G.
  pose proof (hand_facts (threads s)) as F. pose proof (inv_numbers flags s HI) as [_ _ _ _ N5]. pose proof (Z.mod_pos_bound (wrphase_futex (lock s)) 2 ltac:(lia)). clear Hk HI. lia.
Qed.

(** The phase futex after an operation. *)
Lemma phase_op weak s k t l' p' e : handed flags s -> sleeping (lock s) (threads s) -> threads s !! k = Some t -> op flags weak (tid k) (at_ t) (lock s) = Some (l', p', e) ->
  let ts' := <[k := affect e p' t]> (threads s) in
  (1 <= total (at_point rd_asleep) ts' -> wrphase_futex l' = 3 \/ 1 <= total (at_point phase_waker) ts') /\
  (1 <= total (at_point wr_asleep) ts' -> wrphase_futex l' = 2 \/ 1 <= total (at_point phase_waker) ts').
Proof using Type.
  intros HD [S1 S2 _ _ _ _] Hk Hop ts'. pose proof HD as [HI _ HH]. destruct (op_phase _ _ _ _ _ _ _ (inv_local flags s HI k t Hk) Hop) as (P1 & P2 & P3 & P4 & P5 & P6 & P7). unfold ts'. rewrite !(total_insert _ _ _ _ _ Hk). unfold at_point at 2 3 5 6 8 9 11 12.
  rewrite affect_at, P1, P2, P3. pose proof (sleep_others _ _ _ Hk) as G. cbv beta zeta in G. unfold at_point at 2 4 6 8 10 12 14 in G. rewrite P1, P2, P3 in G. clear HI Hop.
  destruct P7 as [E|[E|[E|(E & E' & E1 & E2)]]].
  - rewrite E in *. lia.
  - rewrite E. lia.
  - rewrite (used_small _ (h_futex _ _ HH)) in E. apply Z.leb_gt in E. lia.
  - pose proof (store1_old s k t HD Hk E) as Em. pose proof (one_primary s HD) as Hp. assert (1 <= nprim t) by (unfold nprim; rewrite E'; pose proof (b2z_range (wr t)); lia).
    split; intros Ha; [destruct (S1 ltac:(lia)) as [E3|E3]; [rewrite E3 in Em; discriminate | lia] | lia].
Qed.

(** ** RWAITING *)

Lemma rwaiting_testbit r : rwaiting r = Z.testbit r 2.
Proof using Type.
  clear. unfold rwaiting, PTHREAD_RWLOCK_RWAITING. change 4 with (2 ^ 2). destruct (Z.testbit r 2) eqn:E.
  - apply negb_true_iff, Z.eqb_neq. intros H. apply (f_equal (fun x => Z.testbit x 2)) in H. rewrite Z.land_spec, E in H. discriminate.
  - apply negb_false_iff, Z.eqb_eq. apply Z.bits_inj'. intros i Hi. rewrite Z.land_spec, Z.bits_0, Z.pow2_bits_eqb by lia. destruct (Z.eqb_spec 2 i) as [<-|]; [by rewrite E | apply andb_false_r].
Qed.

Lemma waiting_add r d : d mod 8 = 0 -> rwaiting (wrap 32 (r + d)) = rwaiting r.
Proof using Type.
  clear. intros Hd. rewrite !rwaiting_testbit. unfold wrap. rewrite Z.mod_pow2_bits_low by lia. rewrite <- (Z.mod_pow2_bits_low (r + d) 3 2), <- (Z.mod_pow2_bits_low r 3 2) by lia. f_equal. change (2 ^ 3) with 8. rewrite Z.add_mod, Hd, Z.add_0_r by lia. apply Z.mod_mod. lia.
Qed.

Lemma waiting_sub r : rwaiting (wrap 32 (r - one_reader)) = rwaiting r.
Proof using Type. clear. rewrite <- (waiting_add r (- one_reader)) by done. f_equal. Qed.

Lemma waiting_bits r m : Z.testbit m 2 = false -> rwaiting (Z.lor r m) = rwaiting r /\ rwaiting (Z.lxor r m) = rwaiting r.
Proof using Type. clear. intros H. rewrite !rwaiting_testbit, Z.lor_spec, Z.lxor_spec, H, orb_false_r, xorb_false_r. done. Qed.

Lemma waiting_wrunlock r : rwaiting (wrunlock_new r) = rwaiting r.
Proof using Type. clear. unfold wrunlock_new. etransitivity; apply waiting_bits; [by case_match | done]. Qed.

Lemma waiting_set r : rwaiting (Z.lor r PTHREAD_RWLOCK_RWAITING) = true.
Proof using Type. clear. by rewrite rwaiting_testbit, Z.lor_spec, orb_true_r. Qed.

Lemma op_waiting weak self p l l' p' e : recalls p = true -> op flags weak self p l = Some (l', p', e) ->
  rd_queued p = 0 /\ readers_waker p <= readers_waker p' /\ (rd_queued p' = 0 \/ rd_queued p' = 1 /\ rwaiting (readers l') = true) /\
  (rwaiting (readers l) = true -> rwaiting (readers l') = true \/ readers_waker p' = 1).
Proof using Type.
  intros HR H. by_op H p; repeat split; auto; try lia; try (unfold b2z; case_match; lia).
  all: try (right; split; [done|]; match goal with H : (_ =? _) = true |- _ => apply Z.eqb_eq in H as -> end; exact HR).
  all: intros Hw; try match goal with H : cas _ _ _ = true |- _ => apply cas_true in H; subst r end.
  all: try (left; rewrite ?waiting_sub, ?waiting_wrunlock, ?waiting_set, ?(proj1 (waiting_bits _ PTHREAD_RWLOCK_WRLOCKED eq_refl)), ?(proj1 (waiting_bits _ PTHREAD_RWLOCK_WRPHASE eq_refl)), ?(proj2 (waiting_bits _ PTHREAD_RWLOCK_WRPHASE eq_refl)), ?waiting_add by done; done).
  all: rewrite ?Hw in *; auto; destruct (rwaiting (rdunlock_new (readers l))); auto; discriminate.
Qed.

(** ** The queue of the writers *)

(** The change of the write lock that is held. *)
Definition gain (e : effect) : Z := match e with GetWrite => 1 | DropWrite => -1 | _ => 0 end.

(** What an operation does to __writers_futex: nothing, mark it as used, close it, open it. *)
Definition queue_step (l : rwlock) (p : pc) (l' : rwlock) (p' : pc) (e : effect) : Prop :=
  (writers_futex l' = writers_futex l /\ enabled p' + gain e = enabled p /\ (writers_waker p <= writers_waker p' \/ writers_futex l' = 3)) \/
  (writers_futex l <> 0 /\ writers_futex l' = 3 /\ enabled p' = enabled p /\ gain e = 0) \/
  (writers_futex l' = 0 /\ enabled p = 1 /\ enabled p' = 0 /\ gain e = 0 /\ writers_waker p = 0 /\ (writers_futex l = 3 -> writers_waker p' = 1)) \/
  (primary p = 1 /\ enabled p = 0 /\ enabled p' = 1 /\ gain e = 0 /\ (writers_futex l' = 3 \/ writers_futex l' = 1 /\ writers_waker p = 0)).

Lemma op_queue weak self p l l' p' e : local flags p = true -> recalls p = true -> calm flags p = true -> (enabled p = 1 -> writers_futex l = 1 \/ writers_futex l = 3) -> op flags weak self p l = Some (l', p', e) ->
  wr_queued p = 0 /\ 0 <= writers_waker p' /\ recalls p' = true /\ (wr_queued p' = 0 \/ wr_queued p' = 1 /\ writers_futex l' = 3) /\ queue_step l p l' p' e.
Proof using Type.
  intros HL HR HC HE H. unfold queue_step. by_op H p; (split; [done|]; split; [try (unfold b2z; case_match); lia|]; split; [try done | split; [auto|]]).
  all: try (left; cbn [gain]; repeat split; try lia; auto; fail).
  all: try (right; split; [done | by apply Z.eqb_eq]; fail).
  all: try (left; repeat split; auto; right; by apply Z.eqb_eq).
  all: try (right; right; left; repeat split; auto; intros E; by rewrite E).
  all: try (right; right; right; repeat split; auto; fail).
  all: try (right; right; right; repeat split; auto; left; by apply Z.eqb_eq).
  all: try (destruct (HE eq_refl) as [-> | ->]; done).
  all: try (left; repeat match goal with H : futex_used _ = _ |- _ => rewrite H end; cbn [b2z gain]; repeat split; lia).
  - right; left. apply cas_true in H0 as ->. repeat split; auto. intros E. simpl in HL. rewrite E in HL. discriminate.
  - right; right; right. repeat split; auto. simpl in HR. apply orb_true_iff in HR as [HR|HR]; apply Z.eqb_eq in HR as ->; auto.
Qed.

(** The queues after an operation. *)
Lemma nenabled_affect e p t : (gain e = 1 -> wr t = false) -> (gain e = -1 -> wr t = true) -> nenabled (affect e p t) = b2z (wr t) + gain e + enabled p.
Proof using Type. clear. unfold nenabled. intros H1 H2. destruct e; simpl in *; rewrite ?H1, ?H2 by done; simpl; lia. Qed.

Lemma op_gain weak self p l l' p' e : op flags weak self p l = Some (l', p', e) -> (gain e = 1 -> p = WrDone) /\ (gain e = -1 -> p = UnLoad /\ cur_writer l = self).
Proof using Type. intros H. by_op H p; cbn [gain]; split; try done; try lia. intros _. split; [done | by apply Z.eqb_eq]. Qed.

Lemma readers_op weak s k t l' p' e : sleeping (lock s) (threads s) -> threads s !! k = Some t -> op flags weak (tid k) (at_ t) (lock s) = Some (l', p', e) ->
  let ts' := <[k := affect e p' t]> (threads s) in 1 <= total (at_point rd_queued) ts' -> waiting_bit l' = 1 \/ 1 <= total (at_point readers_waker) ts'.
Proof using Type.
  intros [_ _ S3 _ _ S6] Hk Hop ts'. destruct (op_waiting _ _ _ _ _ _ _ (S6 k t Hk) Hop) as (P1 & P2 & P3 & P4). unfold ts'. rewrite !(total_insert _ _ _ _ _ Hk).
  pose proof (sleep_others _ _ _ Hk) as G. cbv beta zeta in G. pose proof (sleep_point t) as Gt. unfold waiting_bit in *. change (rd_queued (at_ t)) with (at_point rd_queued t) in P1. change (readers_waker (at_ t)) with (at_point readers_waker t) in P2.
  assert (E1 : at_point rd_queued (affect e p' t) = rd_queued p') by (unfold at_point; by rewrite affect_at). assert (E2 : at_point readers_waker (affect e p' t) = readers_waker p') by (unfold at_point; by rewrite affect_at). rewrite E1, E2, P1.
  destruct P3 as [P3|[P3 P5]]; [|left; by rewrite P5]. rewrite P3. intros Hq. destruct (S3 ltac:(lia)) as [H|H]; [|right; lia]. destruct (rwaiting (readers (lock s))); [|discriminate].
  destruct (P4 eq_refl) as [H'|H']; [left; by rewrite H' | right; lia].
Qed.

Lemma writers_op weak s k t l' p' e : handed flags s -> sleeping (lock s) (threads s) -> threads s !! k = Some t -> op flags weak (tid k) (at_ t) (lock s) = Some (l', p', e) ->
  let ts' := <[k := affect e p' t]> (threads s) in (1 <= total (at_point wr_queued) ts' -> writers_futex l' = 3 \/ 1 <= total (at_point writers_waker) ts') /\
  (total nenabled ts' = 0 /\ writers_futex l' = 0 \/ total nenabled ts' = 1 /\ (writers_futex l' = 1 \/ writers_futex l' = 3)) /\ recalls p' = true.
Proof using Type.
  intros HD [_ _ _ S4 S5 S6] Hk Hop ts'. pose proof HD as [HI HC _]. pose proof (sleep_others _ _ _ Hk) as G. cbv beta zeta in G. pose proof (one_primary s HD) as Hp. pose proof (sleep_point t) as Gt. pose proof (b2z_range (wr t)) as Hb.
  assert (HE : enabled (at_ t) = 1 -> writers_futex (lock s) = 1 \/ writers_futex (lock s) = 3) by (intros E; unfold nenabled in G at 2; rewrite E in G; clear - S5 G Hb; lia).
  destruct (op_queue _ _ _ _ _ _ _ (inv_local flags s HI k t Hk) (S6 k t Hk) (HC k t Hk) HE Hop) as (P1 & P2 & P3 & P4 & P5). destruct (op_gain _ _ _ _ _ _ _ Hop) as [Q1 Q2].
  assert (En : nenabled (affect e p' t) = b2z (wr t) + gain e + enabled p').
  { apply nenabled_affect; intros E; [specialize (Q1 E) | destruct (Q2 E) as [_ Ec]; apply (inv_cur_writer flags s HI k t Hk) in Ec; unfold owns in Ec; rewrite (proj1 (Q2 E)), orb_false_r in Ec; exact Ec].
    assert (Hn : nenabled t <= 1) by lia. unfold nenabled in Hn. rewrite Q1 in Hn. simpl in Hn. destruct (wr t); [simpl in *; lia | done]. }
  unfold ts'. rewrite !(total_insert _ _ _ _ _ Hk), En. assert (E1 : at_point wr_queued (affect e p' t) = wr_queued p') by (unfold at_point; by rewrite affect_at). assert (E2 : at_point writers_waker (affect e p' t) = writers_waker p') by (unfold at_point; by rewrite affect_at).
  rewrite E1, E2. change (wr_queued (at_ t)) with (at_point wr_queued t) in P1. rewrite P1. change (at_point writers_waker t) with (writers_waker (at_ t)) in *. change (at_point wr_queued t) with (wr_queued (at_ t)) in *.
  assert (Ent : nenabled t = b2z (wr t) + enabled (at_ t)) by done. rewrite Ent in *. clear Ent Q1 Q2 En E1 E2 HE Hop HD HI HC S6 ts'.
  destruct P5 as [(A1 & A2 & A3)|[(A1 & A2 & A3 & A4)|[(A1 & A2 & A3 & A4 & A5 & A6)|(A1 & A2 & A3 & A4 & A5)]]].
  - rewrite A1 in *. split; [|split; [lia | done]]. lia.
  - split; [lia|]. split; [lia | done].
  - rewrite A1, A2, A3, A4 in *. split; [|split; [left; lia | done]]. lia.
  - assert (Epr : nprim t = b2z (wr t) + 1) by (unfold nprim; by rewrite A1). rewrite A2, A3, A4, Epr in *. split; [|split; [right; lia | done]]. lia.
Qed.

Lemma sleeping_op weak s k t l' p' e : handed flags s -> sleeping (lock s) (threads s) -> threads s !! k = Some t -> op flags weak (tid k) (at_ t) (lock s) = Some (l', p', e) -> sleeping l' (<[k := affect e p' t]> (threads s)).
Proof using Type.
  intros HD HS Hk Hop. destruct (phase_op _ _ _ _ _ _ _ HD HS Hk Hop) as [A1 A2]. destruct (writers_op _ _ _ _ _ _ _ HD HS Hk Hop) as (A3 & A4 & A5). pose proof (readers_op _ _ _ _ _ _ _ HS Hk Hop) as A6.
  split; auto. intros j x Hj. apply list_lookup_insert_Some in Hj as [(-> & <- & _)|(_ & Hj)]; [by rewrite affect_at | by eapply s_recalls].
Qed.

(** ** Calls, time-outs and returns *)

(** A thread that does not fall asleep and remains a waker. *)
Definition awake (t t' : thread) : Prop :=
  at_point rd_asleep t' <= at_point rd_asleep t /\ at_point wr_asleep t' <= at_point wr_asleep t /\ at_point phase_waker t <= at_point phase_waker t' /\
  at_point rd_queued t' <= at_point rd_queued t /\ at_point readers_waker t <= at_point readers_waker t' /\ at_point wr_queued t' <= at_point wr_queued t /\ at_point writers_waker t <= at_point writers_waker t' /\
  nenabled t' = nenabled t /\ recalls (at_ t') = true.

Lemma sleeping_awake l ts k t t' : sleeping l ts -> ts !! k = Some t -> awake t t' -> sleeping l (<[k := t']> ts).
Proof using Type.
  clear flags. intros [S1 S2 S3 S4 S5 S6] Hk (A1 & A2 & A3 & A4 & A5 & A6 & A7 & A8 & A9). pose proof (sleep_others _ _ _ Hk) as G. cbv beta zeta in G. pose proof (sleep_point t) as Gt. pose proof (sleep_point t') as Gt'.
  split; rewrite ?(total_insert _ _ _ _ _ Hk); [clear S2 S3 S4 S5; lia | clear S1 S3 S4 S5; lia | clear S1 S2 S4 S5; lia | clear S1 S2 S3 S5; lia | clear S1 S2 S3 S4; lia |].
  intros j x Hj. apply list_lookup_insert_Some in Hj as [(-> & <- & _)|(_ & Hj)]; eauto.
Qed.

Ltac by_awake := unfold awake, at_point, nenabled; cbn; repeat split; try done; try lia.

Lemma move_awake c t t' : move flags c t = Some t' -> awake t t'.
Proof using Type.
  destruct t as [p n b]. unfold move. destruct c as [c| | | | |]; simpl; try discriminate.
  - destruct p; try discriminate. intros H. destruct (entry c _) as [p'|] eqn:E; [|discriminate]. simpl in H. injection H as <-.
    destruct c as [[]|[]| | |]; simpl in E; repeat (case_match; try discriminate); injection E as <-; by_awake.
  - destruct p; simpl; intros H; try discriminate; injection H as <-; by_awake.
  - unfold timed_out. intros H. destruct p; simpl in H; try discriminate; repeat (case_match; simpl in H; try discriminate); injection H as <-; by_awake.
Qed.

(** ** Wake-ups *)

(** What the woken threads change: one futex each. *)
Definition phase_blocked (t : thread) : Z := at_point rd_asleep t + at_point wr_asleep t.

Lemma total_blocked (f : thread -> Z) u ts : (forall t, is_blocked u t = f t) -> total (is_blocked u) ts = total f ts.
Proof using Type. clear. apply total_ext. Qed.

Lemma blocked_phase t : is_blocked unblock_phase t = phase_blocked t.
Proof using Type. clear. destruct t as [p n b]. by destruct p. Qed.
Lemma blocked_readers t : is_blocked unblock_readers t = at_point rd_queued t.
Proof using Type. clear. destruct t as [p n b]. by destruct p. Qed.
Lemma blocked_writers t : is_blocked unblock_writers t = at_point wr_queued t.
Proof using Type. clear. destruct t as [p n b]. by destruct p. Qed.

Ltac by_unblock := intros [p m b] y; destruct p; simpl; intros E; try discriminate; injection E as <-; unfold phase_blocked, at_point, nenabled; simpl; lia.

Section Woken.
Context (n : Z) (ws : list nat) (ts ts' : list thread).

Lemma woken_phase : futex_wake unblock_phase n ws ts = Some ts' ->
  total phase_blocked ts' = total phase_blocked ts - Z.min n (total phase_blocked ts) /\ total (at_point phase_waker) ts' = total (at_point phase_waker) ts /\
  total (at_point rd_queued) ts' = total (at_point rd_queued) ts /\ total (at_point readers_waker) ts' = total (at_point readers_waker) ts /\
  total (at_point wr_queued) ts' = total (at_point wr_queued) ts /\ total (at_point writers_waker) ts' = total (at_point writers_waker) ts /\ total nenabled ts' = total nenabled ts.
Proof using Type.
  intros H. assert (K : forall f c, (forall x y, unblock_phase x = Some y -> f y = f x + c) -> total f ts' = total f ts + c * Z.min n (total phase_blocked ts)) by (intros f c Hf; rewrite (futex_wake_total unblock_phase f c n ws ts ts' Hf H), (total_blocked _ _ _ blocked_phase); done).
  repeat split; [rewrite (K phase_blocked (-1)) by by_unblock; lia | etransitivity; [apply (K _ 0); by_unblock | lia] ..].
Qed.

Lemma woken_readers : futex_wake unblock_readers n ws ts = Some ts' ->
  total (at_point rd_queued) ts' = total (at_point rd_queued) ts - Z.min n (total (at_point rd_queued) ts) /\ total (at_point rd_asleep) ts' = total (at_point rd_asleep) ts /\ total (at_point wr_asleep) ts' = total (at_point wr_asleep) ts /\
  total (at_point phase_waker) ts' = total (at_point phase_waker) ts /\ total (at_point readers_waker) ts' = total (at_point readers_waker) ts /\
  total (at_point wr_queued) ts' = total (at_point wr_queued) ts /\ total (at_point writers_waker) ts' = total (at_point writers_waker) ts /\ total nenabled ts' = total nenabled ts.
Proof using Type.
  intros H. assert (K : forall f c, (forall x y, unblock_readers x = Some y -> f y = f x + c) -> total f ts' = total f ts + c * Z.min n (total (at_point rd_queued) ts)) by (intros f c Hf; rewrite (futex_wake_total unblock_readers f c n ws ts ts' Hf H), (total_blocked _ _ _ blocked_readers); done).
  repeat split; [rewrite (K (at_point rd_queued) (-1)) by by_unblock; lia | etransitivity; [apply (K _ 0); by_unblock | lia] ..].
Qed.

Lemma woken_writers : futex_wake unblock_writers n ws ts = Some ts' ->
  total (at_point wr_queued) ts' = total (at_point wr_queued) ts - Z.min n (total (at_point wr_queued) ts) /\ total (at_point writers_waker) ts' = total (at_point writers_waker) ts + Z.min n (total (at_point wr_queued) ts) /\
  total (at_point rd_asleep) ts' = total (at_point rd_asleep) ts /\ total (at_point wr_asleep) ts' = total (at_point wr_asleep) ts /\ total (at_point phase_waker) ts' = total (at_point phase_waker) ts /\
  total (at_point rd_queued) ts' = total (at_point rd_queued) ts /\ total (at_point readers_waker) ts' = total (at_point readers_waker) ts /\ total nenabled ts' = total nenabled ts.
Proof using Type.
  intros H. assert (K : forall f c, (forall x y, unblock_writers x = Some y -> f y = f x + c) -> total f ts' = total f ts + c * Z.min n (total (at_point wr_queued) ts)) by (intros f c Hf; rewrite (futex_wake_total unblock_writers f c n ws ts ts' Hf H), (total_blocked _ _ _ blocked_writers); done).
  repeat split; [rewrite (K (at_point wr_queued) (-1)) by by_unblock; lia | rewrite (K (at_point writers_waker) 1) by by_unblock; lia | etransitivity; [apply (K _ 0); by_unblock | lia] ..].
Qed.
End Woken.

(** A thread that wakes has done its part; the rest stays as it was. *)
Definition waking (u : thread -> option thread) (n : Z) (t t' : thread) : Prop :=
  at_point rd_asleep t = 0 /\ at_point wr_asleep t = 0 /\ at_point rd_queued t = 0 /\ at_point wr_queued t = 0 /\ at_point rd_asleep t' = 0 /\ at_point wr_asleep t' = 0 /\ at_point rd_queued t' = 0 /\ at_point wr_queued t' = 0 /\
  nenabled t' = nenabled t /\ recalls (at_ t') = true /\
  (u = unblock_phase /\ n = INT_MAX /\ at_point readers_waker t' = at_point readers_waker t /\ at_point writers_waker t' = at_point writers_waker t \/
   u = unblock_readers /\ n = INT_MAX /\ at_point phase_waker t' = at_point phase_waker t /\ at_point writers_waker t' = at_point writers_waker t \/
   u = unblock_writers /\ n = 1 /\ at_point phase_waker t' = at_point phase_waker t /\ at_point readers_waker t' = at_point readers_waker t).

Lemma wake_waking u n p' e t : calm flags (at_ t) = true -> wake (at_ t) = Some (u, n, p', e) -> waking u n t (affect e p' t).
Proof using Type.
  intros HC H. destruct t as [p m b]. simpl in H. destruct p; simpl in H; try discriminate; unfold wu_done in H; repeat (case_match; try discriminate); injection H as <- <- <- <-; unfold waking, at_point, nenabled; cbn;
    repeat (split; [done|]); first [left; by repeat split | right; left; by repeat split | right; right; by repeat split].
Qed.

(** The marks on the words after a wake-up. *)
Lemma sleeping_wake u n ws lk ts ts' k t t' : Z.of_nat (length ts) < 2 ^ 28 -> sleeping lk ts -> ts !! k = Some t -> waking u n t t' -> futex_wake u n ws (<[k := t']> ts) = Some ts' ->
  (forall j x, ts' !! j = Some x -> recalls (at_ x) = true) -> sleeping lk ts'.
Proof using Type.
  intros Hn [S1 S2 S3 S4 S5 S6] Hk (Z1 & Z2 & Z3 & Z4 & Z5 & Z6 & Z7 & Z8 & Z9 & _ & Hcase) Hf HR.
  assert (Hlen : length (<[k := t']> ts) = length ts) by apply length_insert.
  assert (Hpb : total phase_blocked (<[k := t']> ts) <= Z.of_nat (length ts)) by (rewrite <- Hlen; apply total_count; intros [p m b]; by destruct p).
  assert (Hrq : total (at_point rd_queued) (<[k := t']> ts) <= Z.of_nat (length ts)) by (rewrite <- Hlen; apply total_count; intros [p m b]; by destruct p).
  pose proof (sleep_facts ts') as F. pose proof (sleep_point t') as Gt. pose proof (sleep_others _ _ _ Hk) as G. cbv beta zeta in G. assert (Esum : total phase_blocked ts' = total (at_point rd_asleep) ts' + total (at_point wr_asleep) ts') by apply total_sum.
  destruct Hcase as [(-> & -> & C1 & C2)|[(-> & -> & C1 & C2)|(-> & -> & C1 & C2)]]; [apply woken_phase in Hf as W | apply woken_readers in Hf as W | apply woken_writers in Hf as W]; rewrite !(total_insert _ _ _ _ _ Hk) in W; rewrite (total_insert _ _ _ _ _ Hk) in Hpb; rewrite (total_insert _ _ _ _ _ Hk) in Hrq; unfold INT_MAX in W; clear Hf Hk Hlen;
    (split; [clear S2 S3 S4 S5; lia | clear S1 S3 S4 S5; lia | clear S1 S2 S4 S5; lia | clear S1 S2 S3 S5; lia | clear S1 S2 S3 S4; lia | exact HR]).
Qed.

Lemma recalls_wake u n ws ts ts' : (u = unblock_phase \/ u = unblock_readers \/ u = unblock_writers) -> (forall j x, ts !! j = Some x -> recalls (at_ x) = true) -> futex_wake u n ws ts = Some ts' -> forall j x, ts' !! j = Some x -> recalls (at_ x) = true.
Proof using flags.
  intros Hu HR Hf j x Hj. assert (Hw : wakes flags u) by (destruct (unblock_wakes flags) as (U1 & U2 & U3); by destruct Hu as [->|[->| ->]]).
  destruct (futex_wake_lookup u (fun x y E => proj1 (Hw x y E)) _ _ _ _ _ _ Hf Hj) as [H|([p m b] & H & E)]; [eauto|]. destruct Hu as [->|[->| ->]]; destruct p; simpl in E; try discriminate; injection E as <-; done.
Qed.

Lemma sleeping_step c k s s' : handed flags s -> sleeping (lock s) (threads s) -> calm_step flags c k s = Some s' -> sleeping (lock s') (threads s').
Proof using Type.
  intros HD HS H. apply calm_step_step in H as (H & _ & _). unfold step in H. destruct (threads s !! k) as [t|] eqn:Hk; [|done]. simpl in H.
  assert (Hmv : forall c, (t' ← move flags c t; Some {| lock := lock s; threads := <[k := t']> (threads s) |}) = Some s' -> sleeping (lock s') (threads s')).
  { intros c' E. destruct (move flags c' t) as [t'|] eqn:Em; simpl in E; [|done]. injection E as <-. eapply sleeping_awake; eauto. by eapply move_awake. }
  assert (Hop : forall weak, ('(l, p, e) ← op flags weak (tid k) (at_ t) (lock s); Some {| lock := l; threads := <[k := affect e p t]> (threads s) |}) = Some s' -> sleeping (lock s') (threads s')).
  { intros weak E. destruct (op flags weak (tid k) (at_ t) (lock s)) as [[[l p] e]|] eqn:Eo; simpl in E; [|done]. injection E as <-. eapply sleeping_op; eauto. }
  destruct c; eauto. destruct (wake (at_ t)) as [[[[u n] p] e]|] eqn:Ew; simpl in H; [|done]. destruct (futex_wake u n ws _) as [l|] eqn:Ef; simpl in H; [|done]. injection H as <-. pose proof HD as [HI HC _].
  pose proof (wake_waking _ _ _ _ _ (HC k t Hk) Ew) as Hw. apply (sleeping_wake u n ws (lock s) (threads s) l k t (affect e p t) (inv_threads flags s HI) HS Hk Hw Ef).
  apply (recalls_wake u n ws (<[k := affect e p t]> (threads s)) l (proj2 (wake_calm flags _ _ _ _ _ Ew (HC k t Hk)))); [|exact Ef].
  intros j x Hj. apply list_lookup_insert_Some in Hj as [(-> & <- & _)|(_ & Hj)]; [apply Hw | eapply (s_recalls _ _ HS); eauto].
Qed.

Lemma sleeping_init n : sleeping (lock (init n)) (threads (init n)).
Proof using Type.
  clear flags. split; unfold init; cbn [lock threads]; rewrite ?total_replicate; unfold at_point, nenabled; cbn [at_ wr b2z rd_asleep wr_asleep phase_waker rd_queued readers_waker wr_queued writers_waker enabled]; rewrite ?Z.mul_0_r; try lia; [left; done|].
  intros k t Hk. apply lookup_replicate in Hk as [-> _]. done.
Qed.

Lemma reachable_sleeping n s : Z.of_nat n < 2 ^ 28 -> reachable (calm_step flags) (init n) s -> handed flags s /\ sleeping (lock s) (threads s).
Proof using Type.
  intros Hn. apply (reachable_inv (calm_step flags) (fun s => handed flags s /\ sleeping (lock s) (threads s))); [split; [by apply handed_init | apply sleeping_init]|].
  intros c k x y [HD HS] Hst. split; [eapply handed_step | eapply sleeping_step]; eauto.
Qed.

(** ** A thread that waits does not hold the write lock *)

(** The points of the operations that lock, behind the test for a deadlock. *)
Definition waits (p : pc) : bool :=
  match p with
  | RdPreferLoad _ | RdPrefer _ _ | RdPreferTest _ | RdPreferWait _ _ | RdPreferBlocked _ | RdAdd _ | RdOverflow _ _ | RdStart _ _ | RdStartStore | RdStartWake
  | RdWait _ _ | RdMark _ _ _ | RdFutex _ _ | RdBlocked _ _ | RdTimeLoad _ | RdTime _ _ | RdSpin | RdTest _
  | WrOr _ | WrRegister _ _ | WrCas _ _ _ | WrUnregister _ _ _ | WrHandLoad _ _ _ | WrHand _ _ _ _ | WrReload _ _ | WrFutexLoad _ _ | WrFutexMark _ _ _ | WrAgain _ _
  | WrFutex _ | WrFutexBlocked _ | WrTimeLoad _ _ | WrTime _ _ _ | WrEnable _ _ _ | WrStart _ _ | WrStartStore | WrWait _ _ | WrMark _ _ _ | WrWaitFutex _ _ | WrBlocked _ _
  | WtHandLoad _ | WtHandFutex _ _ | WtHand _ _ _ | WtHandWake _ | WtHandRestore _ | WtLoad | WtFutex _ | WtLoop _ _ | WtWake _ | WtWakeReaders | WtRestore _ | WtSpin | WrTest _ => true
  | _ => false
  end.

Definition waits_without (t : thread) : Prop := waits (at_ t) = true -> wr t = false.

Lemma op_waits weak self p l l' p' e : op flags weak self p l = Some (l', p', e) -> waits p' = true ->
  gain e = 0 /\ (waits p = true \/ (exists t, p = RdCheck t \/ p = WrCheck t) /\ cur_writer l <> self).
Proof using Type.
  intros H. by_op H p; cbn [waits gain]; intros Hw; try discriminate; split; auto.
  all: right; (split; [eauto | by apply Z.eqb_neq]).
Qed.

Lemma waits_op weak s k t l' p' e : inv flags s -> threads s !! k = Some t -> waits_without t ->
  op flags weak (tid k) (at_ t) (lock s) = Some (l', p', e) -> waits_without (affect e p' t).
Proof using Type.
  intros HI Hk Ht Hop Hw. rewrite affect_at in Hw. destruct (op_waits _ _ _ _ _ _ _ Hop Hw) as [Hg Hc].
  assert (Ew : wr (affect e p' t) = wr t) by (destruct e; simpl in *; done || lia). rewrite Ew.
  destruct Hc as [Hc|[(tm & Hc) Hn]]; [by apply Ht|]. pose proof (inv_cur_writer flags s HI k t Hk) as Ho. unfold owns in Ho.
  destruct (wr t); [|done]. exfalso. apply Hn, Ho. done.
Qed.

Lemma waits_move c t t' : move flags c t = Some t' -> waits_without t -> waits_without t'.
Proof using Type.
  destruct t as [p n b]. unfold move, waits_without. destruct c as [c| | | | |]; simpl; try discriminate.
  - destruct p; try discriminate. intros H. destruct (entry c _) as [p'|] eqn:E; [|discriminate]. simpl in H. injection H as <-.
    destruct c as [[]|[]| | |]; simpl in E; repeat (case_match; try discriminate); injection E as <-; done.
  - destruct p; simpl; intros H; try discriminate; injection H as <-; done.
  - unfold timed_out. intros H. destruct p; simpl in H; try discriminate; repeat (case_match; simpl in H; try discriminate); injection H as <-; simpl; intros; auto; discriminate.
Qed.

Lemma waits_wake u n p' e t : wake (at_ t) = Some (u, n, p', e) -> waits_without t -> waits_without (affect e p' t).
Proof using Type.
  clear flags. destruct t as [p m b]. unfold waits_without. simpl. destruct p; simpl; intros H; try discriminate; unfold wu_done in H; repeat (case_match; try discriminate);
    injection H as <- <- <- <-; simpl; intros; auto; discriminate.
Qed.

Lemma waits_unblock (u : thread -> option thread) x y : u = unblock_phase \/ u = unblock_readers \/ u = unblock_writers -> u x = Some y -> waits_without x -> waits_without y.
Proof using Type.
  clear flags. destruct x as [p m b]. unfold waits_without. intros [->|[->| ->]]; destruct p; simpl; intros H; try discriminate; injection H as <-; simpl; auto.
Qed.

Lemma waits_step c k s s' : handed flags s -> (forall j t, threads s !! j = Some t -> waits_without t) -> calm_step flags c k s = Some s' ->
  forall j t, threads s' !! j = Some t -> waits_without t.
Proof using Type.
  intros HD HW H. apply calm_step_step in H as (H & _ & _). unfold step in H. destruct (threads s !! k) as [t|] eqn:Hk; [|done]. simpl in H. pose proof (HW k t Hk) as Ht.
  assert (Hins : forall t', waits_without t' -> forall j x, <[k := t']> (threads s) !! j = Some x -> waits_without x).
  { intros t' Ht' j x Hj. apply list_lookup_insert_Some in Hj as [(-> & <- & _)|(_ & Hj)]; eauto. }
  assert (Hmv : forall c, (t' ← move flags c t; Some {| lock := lock s; threads := <[k := t']> (threads s) |}) = Some s' -> forall j x, threads s' !! j = Some x -> waits_without x).
  { intros c' E. destruct (move flags c' t) as [t'|] eqn:Em; simpl in E; [|done]. injection E as <-. apply Hins. by eapply waits_move. }
  assert (Hop : forall weak, ('(l, p, e) ← op flags weak (tid k) (at_ t) (lock s); Some {| lock := l; threads := <[k := affect e p t]> (threads s) |}) = Some s' -> forall j x, threads s' !! j = Some x -> waits_without x).
  { intros weak E. destruct (op flags weak (tid k) (at_ t) (lock s)) as [[[l p] e]|] eqn:Eo; simpl in E; [|done]. injection E as <-. apply Hins. eapply waits_op; eauto. apply HD. }
  destruct c; eauto. destruct (wake (at_ t)) as [[[[u n] p] e]|] eqn:Ew; simpl in H; [|done]. destruct (futex_wake u n ws _) as [l|] eqn:Ef; simpl in H; [|done]. injection H as <-. pose proof HD as [_ HC _].
  pose proof (proj2 (wake_calm flags _ _ _ _ _ Ew (HC k t Hk))) as Hu. destruct (wake_wakes flags _ _ _ _ _ Ew) as [Hwk _].
  intros j x Hj. simpl in Hj. destruct (futex_wake_lookup u (fun x y E => proj1 (Hwk x y E)) _ _ _ _ _ _ Ef Hj) as [Hj'|(y & Hj' & E)].
  - eapply Hins; [|exact Hj']. by eapply waits_wake.
  - eapply waits_unblock; [exact Hu | exact E|]. eapply Hins; [|exact Hj']. by eapply waits_wake.
Qed.

Lemma reachable_waits n s : Z.of_nat n < 2 ^ 28 -> reachable (calm_step flags) (init n) s -> forall k t, threads s !! k = Some t -> waits_without t.
Proof using Type.
  intros Hn Hr. apply (reachable_inv (calm_step flags) (fun s => handed flags s /\ forall k t, threads s !! k = Some t -> waits_without t) (init n)); [| |exact Hr].
  - split; [by apply handed_init|]. intros k t Hk. simpl in Hk. apply lookup_replicate in Hk as [-> _]. done.
  - intros c k x y [HD HW] Hst. split; [by eapply handed_step | by eapply waits_step].
Qed.
End Sleep.

(** ** Nobody waits for nothing *)

(** Threads that are blocked in the kernel, and the reader and the writer that wait for the other phase. *)
Definition blocked (t : thread) : Prop := 1 <= phase_blocked t + at_point rd_queued t + at_point wr_queued t.
Definition outside (t : thread) : Prop := exists r, at_ t = Out r.

Definition somewhere (P : thread -> Prop) (s : state) : Prop := exists k t, threads s !! k = Some t /\ P t.
Definition everywhere (P : thread -> Prop) (s : state) : Prop := forall k t, threads s !! k = Some t -> P t.

(** What the counts are when no thread is inside an operation other than asleep. *)
Record quiescent (ts : list thread) : Prop := {
  qs_prim : total nprim ts = total held_write ts + total (at_point wr_asleep) ts;
  qs_reg : total nreg ts = total held ts + total (at_point rd_asleep) ts;
  qs_enabled : total nenabled ts = total held_write ts + total (at_point wr_asleep) ts;
  qs_wreg : forall flags, total (nwreg flags) ts <= total (at_point wr_queued) ts;
  qs_pending : total (at_point waiting_reader) ts = total (at_point rd_asleep) ts;
  qs_waiting : total (at_point waiting_primary) ts = total (at_point wr_asleep) ts;
  qs_wakers : total (at_point phase_waker) ts = 0 /\ total (at_point readers_waker) ts = 0 /\ total (at_point writers_waker) ts = 0;
  qs_stores : total (at_point store0) ts = 0 /\ total (at_point store1) ts = 0 }.

Lemma total_le_at (f g : thread -> Z) ts : (forall k t, ts !! k = Some t -> f t <= g t) -> total f ts <= total g ts.
Proof. induction ts as [|x ts IH]; intros H; simpl; [done|]. pose proof (H 0%nat x eq_refl). assert (total f ts <= total g ts) by (apply IH; intros k t Hk; exact (H (S k) t Hk)). lia. Qed.

Lemma at_rest_quiescent s : everywhere (fun t => outside t \/ blocked t) s -> quiescent (threads s).
Proof.
  intros H. assert (K : forall (P : thread -> Prop), (forall r n b, P {| at_ := Out r; rd := n; wr := b |}) -> (forall p n b, blocked {| at_ := p; rd := n; wr := b |} -> P {| at_ := p; rd := n; wr := b |}) -> forall k t, threads s !! k = Some t -> P t).
  { intros P P1 P2 k [p n b] Hk. destruct (H k _ Hk) as [[r E]|E]; [simpl in E; subst p; apply P1 | by apply P2]. }
  assert (Keq : forall f g : thread -> Z, (forall r n b, f {| at_ := Out r; rd := n; wr := b |} = g {| at_ := Out r; rd := n; wr := b |}) ->
    (forall p n b, blocked {| at_ := p; rd := n; wr := b |} -> f {| at_ := p; rd := n; wr := b |} = g {| at_ := p; rd := n; wr := b |}) -> total f (threads s) = total g (threads s)).
  { intros f g H1 H2. apply total_ext_lookup. exact (K (fun t => f t = g t) H1 H2). }
  assert (Kz : forall f : thread -> Z, (forall r n b, f {| at_ := Out r; rd := n; wr := b |} = 0) -> (forall p n b, blocked {| at_ := p; rd := n; wr := b |} -> f {| at_ := p; rd := n; wr := b |} = 0) -> total f (threads s) = 0).
  { intros f H1 H2. apply total_zero. exact (K (fun t => f t = 0) H1 H2). }
  split; rewrite <- ?total_sum; repeat split; try (first [apply Keq | apply Kz]; [|intros p n b Hb; unfold blocked, phase_blocked, at_point in Hb; destruct p; simpl in Hb; try lia]; intros; unfold nprim, held_write, at_point, nreg, held, nenabled; simpl; lia).
  intros flags. apply total_le_at. apply (K (fun t => nwreg flags t <= at_point wr_queued t)); [|intros p n b Hb; unfold blocked, phase_blocked, at_point in Hb; destruct p; simpl in Hb; try lia]; intros; unfold nwreg, at_point; simpl; case_match; lia.
Qed.

(** A write lock that is being handed over has a writer that will take it. *)
Lemma handover_taker flags s : inv flags s -> handover_flag (lock s) = 1 -> 1 <= total (nwreg flags) (threads s).
Proof.
  intros [H1 _ _ _ (rw & wl & wp & ho & [W1 W2 W3 W4 W5 W6 W7])] E. apply W4. pose proof (count_facts flags (threads s)) as F. unfold handover_flag in E. rewrite W2, handover_bit in E by lia. exact E.
Qed.

(** Counts and threads. *)
Lemma somewhere_total (f : thread -> Z) s : (forall t, 0 <= f t) -> 1 <= total f (threads s) <-> somewhere (fun t => 1 <= f t) s.
Proof.
  intros Hf. split.
  - intros H. destruct (total_pos f (threads s) Hf ltac:(lia)) as (k & t & Hk & Ht). exists k, t. split; [done | lia].
  - intros (k & t & Hk & Ht). pose proof (total_lookup f _ _ _ Hf Hk). lia.
Qed.

Lemma somewhere_mono (P Q : thread -> Prop) s : (forall t, P t -> Q t) -> somewhere P s -> somewhere Q s.
Proof. intros H (k & t & Hk & Ht). exists k, t. eauto. Qed.

Lemma held_nonneg t : 0 <= held t /\ 0 <= held_write t.
Proof. unfold held, held_write. pose proof (b2z_range (wr t)). lia. Qed.

(** The sleepers and the locks that are held, as counts. *)
Lemma sleepers_held flags s : handed flags s -> sleeping (lock s) (threads s) -> quiescent (threads s) ->
  (1 <= total (at_point rd_asleep) (threads s) -> 1 <= total held_write (threads s)) /\
  (1 <= total (at_point wr_asleep) (threads s) -> 1 <= total held (threads s)) /\
  (1 <= total (at_point rd_queued) (threads s) -> 1 <= total held (threads s) + total held_write (threads s)) /\
  (1 <= total (at_point wr_queued) (threads s) -> 1 <= total held (threads s) + total held_write (threads s)).
Proof.
  intros [HI HC [H1 H2 H3 H4 H5 H6 H7 H8 H9 H10]] [S1 S2 S3 S4 S5 S6] [Q1 Q2 Q3 Q4 Q5 Q6 (Q7 & Q8 & Q9) (Q10 & Q11)]. pose proof (inv_numbers flags s HI) as [N1 N2 N3 N4 (N5 & N6 & N7)]. pose proof (handover_taker flags s HI) as HT. specialize (Q4 flags).
  pose proof (sleep_facts (threads s)) as F. assert (F1 : 0 <= total held (threads s)) by (apply total_nonneg; intros; apply held_nonneg). assert (F2 : 0 <= total held_write (threads s)) by (apply total_nonneg; intros; apply held_nonneg).
  assert (D1 : 1 <= total (at_point rd_asleep) (threads s) -> 1 <= total held_write (threads s)).
  { intros H. destruct (S1 H) as [E|E]; [|exfalso; clear - E Q7; lia]. assert (Hp : phase_bit (lock s) = 1) by (rewrite H2, E, Q10, Q11; reflexivity).
    assert (Hl : locked_bit (lock s) = 1) by (destruct N6 as [N6|N6]; [specialize (H8 Hp N6); exfalso; clear - H H8 Q5; lia | exact N6]).
    destruct N7 as [N7|N7]; [assert (total (at_point wr_asleep) (threads s) = 0); [|clear - N7 Hl N2 Q1 H0; lia] | specialize (HT N7)].
    - destruct (Z.le_gt_cases 1 (total (at_point wr_asleep) (threads s))) as [Ha|Ha]; [destruct (S2 Ha) as [E1|E1]; exfalso; [clear - E E1; lia | clear - E1 Q7; lia] | clear - Ha F; lia].
    - exfalso. destruct (S4 ltac:(clear - HT Q4; lia)) as [E1|E1]; [clear - E1 S5 Q3 Q1 N2 N7 Hl; lia | clear - E1 Q9; lia]. }
  assert (D2 : 1 <= total (at_point wr_asleep) (threads s) -> 1 <= total held (threads s)).
  { intros H. destruct (S2 H) as [E|E]; [|exfalso; clear - E Q7; lia]. assert (Hp : phase_bit (lock s) = 0) by (rewrite H2, E, Q10, Q11; reflexivity).
    assert (Hr : nreaders (readers (lock s)) <> 0) by (intros E0; specialize (H9 Hp E0); clear - H H9 Q6; lia). pose proof (total_nonneg nreg (threads s) nreg_nonneg) as Hreg.
    destruct (Z.le_gt_cases 1 (total (at_point rd_asleep) (threads s))) as [Ha|Ha]; [destruct (S1 Ha) as [E1|E1]; exfalso; [clear - E E1; lia | clear - E1 Q7; lia] | clear - Ha Hr Hreg N1 Q2 F; lia]. }
  split; [exact D1|]. split; [exact D2|]. split.
  - intros H. destruct (S3 H) as [E|E]; [|exfalso; clear - E Q8; lia]. destruct (H10 E) as (_ & _ & Hr). clear - D1 Hr N1 Q2 F1 F2. lia.
  - intros H. destruct (S4 H) as [E|E]; [|exfalso; clear - E Q9; lia]. clear - E S5 Q3 D2 F1 F2. lia.
Qed.

Lemma blocked_waits t : blocked t -> waits (at_ t) = true.
Proof. destruct t as [p n b]. unfold blocked, phase_blocked, at_point. destruct p; simpl; done || lia. Qed.

(** A holder other than a thread that does not hold the lock itself. *)
Lemma other_holder (P : thread -> Prop) s k t : threads s !! k = Some t -> ~ P t -> somewhere P s ->
  exists j x, j <> k /\ threads s !! j = Some x /\ P x.
Proof. intros Hk Hn (j & x & Hj & Hx). exists j, x. split; [|done]. intros ->. apply Hn. congruence. Qed.

(** C25: no wake-up of the read-write lock is lost, for every kind and any number of threads below 2^28, under any interleaving,
    with recursive read locks, trylocks, time-outs of readers and, if readers are preferred, of writers.  ([calm_step] leaves out
    two things: a wrlock with a time-out on a lock that prefers writers, and the states with 2^28 or more registered readers, in which
    readers go away with EAGAIN.)  In a state in which every thread is outside of the operations or blocked in a futex_wait, a thread that is blocked
    does not hold the write lock itself, and it is blocked only while another thread holds the lock or it holds a read lock
    itself (a reader that asks for the write lock waits for itself).  A reader is blocked for the end of a write phase only while another thread holds the write
    lock, and a writer for the end of a read phase only while a thread holds a read lock. *)
Theorem rwlock_no_lost_wakeup flags n s k t : Z.of_nat n < 2 ^ 28 -> reachable (calm_step flags) (init n) s -> everywhere (fun t => outside t \/ blocked t) s ->
  threads s !! k = Some t -> blocked t ->
  wr t = false /\
  ((0 < rd t)%nat \/ exists j x, j <> k /\ threads s !! j = Some x /\ ((0 < rd x)%nat \/ wr x = true)) /\
  ((exists tm ready, at_ t = RdBlocked tm ready) -> exists j x, j <> k /\ threads s !! j = Some x /\ wr x = true) /\
  ((exists tm ready, at_ t = WrBlocked tm ready) -> somewhere (fun t => (0 < rd t)%nat) s).
Proof.
  intros Hn Hr Hq Hk Hb. pose proof (reachable_waits flags n s Hn Hr k t Hk (blocked_waits t Hb)) as Hwr.
  destruct (reachable_sleeping flags n s Hn Hr) as [HD HS]. destruct (sleepers_held flags s HD HS (at_rest_quiescent s Hq)) as (D1 & D2 & D3 & D4). pose proof (fun t => sleep_point t) as SP.
  assert (Ew : 1 <= total held_write (threads s) -> somewhere (fun t => wr t = true) s).
  { intros H. apply somewhere_total in H; [|intros; apply held_nonneg]. revert H. apply somewhere_mono. intros x. unfold held_write. by destruct (wr x). }
  assert (Er : 1 <= total held (threads s) -> somewhere (fun t => (0 < rd t)%nat) s).
  { intros H. apply somewhere_total in H; [|intros; apply held_nonneg]. revert H. apply somewhere_mono. intros x. unfold held. lia. }
  split; [exact Hwr|]. split; [|split].
  - destruct (Nat.eq_0_gt_0_cases (rd t)) as [E0|E0]; [right | by left]. apply (other_holder _ s k t Hk); [rewrite Hwr, E0; intros [|]; [lia | done]|].
    assert (1 <= total held (threads s) + total held_write (threads s)).
    { pose proof (sleep_point t) as G. pose proof (total_lookup _ _ _ _ (fun t => proj1 (SP t)) Hk). pose proof (total_lookup (at_point wr_asleep) _ _ _ (fun t => proj1 (proj1 (proj2 (SP t)))) Hk).
      pose proof (total_lookup (at_point rd_queued) _ _ _ ltac:(intros; apply SP) Hk). pose proof (total_lookup (at_point wr_queued) _ _ _ ltac:(intros; apply SP) Hk).
      assert (0 <= total held (threads s)) by (apply total_nonneg; intros; apply held_nonneg). assert (0 <= total held_write (threads s)) by (apply total_nonneg; intros; apply held_nonneg). unfold blocked, phase_blocked in Hb. lia. }
    destruct (Z.le_gt_cases 1 (total held (threads s))) as [Hh|Hh]; [apply Er in Hh as (j & x & Hj & Hx) | assert (Hw : 1 <= total held_write (threads s)) by lia; apply Ew in Hw as (j & x & Hj & Hx)]; exists j, x; auto.
  - intros (tm & ready & E). apply (other_holder (fun x => wr x = true) s k t Hk); [by rewrite Hwr|]. apply Ew, D1, somewhere_total; [intros; apply SP|]. exists k, t. split; [done|]. unfold at_point. by rewrite E.
  - intros (tm & ready & E). apply Er, D2, somewhere_total; [intros; apply SP|]. exists k, t. split; [done|]. unfold at_point. by rewrite E.
Qed.

(** [n] operations of thread [k]. *)
Definition runs (k n : nat) : list (nat * choice) := replicate n (k, Run).

(** A reader holds the lock; a writer waits for it, a second one behind the first, and a second reader
    behind the writers. *)
Definition queue_schedule : list (nat * choice) :=
  (0%nat, Call (Rdlock Forever)) :: runs 0 3 ++ (1%nat, Call (Wrlock Forever)) :: runs 1 6 ++ (2%nat, Call (Wrlock Forever)) :: runs 2 7 ++ (3%nat, Call (Rdlock Until)) :: runs 3 5.

Lemma rwlock_no_lost_wakeup_witness : exists s t, run_schedule (calm_step PREFER_WRITER_NONRECURSIVE) queue_schedule (init 4) = Some s /\
  map at_ (threads s) = [Out None; WrBlocked Forever false; WrFutexBlocked Forever; RdPreferBlocked Until] /\ threads s !! 3%nat = Some t /\
  ((0 < rd t)%nat \/ exists j x, j <> 3%nat /\ threads s !! j = Some x /\ ((0 < rd x)%nat \/ wr x = true)).
Proof.
  destruct (run_schedule (calm_step PREFER_WRITER_NONRECURSIVE) queue_schedule (init 4)) as [s|] eqn:E; [|exfalso; vm_compute in E; discriminate].
  exists s. assert (Ea : map at_ (threads s) = [Out None; WrBlocked Forever false; WrFutexBlocked Forever; RdPreferBlocked Until]) by (vm_compute in E; injection E as <-; reflexivity).
  assert (Et : exists t, threads s !! 3%nat = Some t /\ at_ t = RdPreferBlocked Until) by (vm_compute in E; injection E as <-; eexists; split; reflexivity).
  destruct Et as (t & Et & Eb). exists t.
  split; [reflexivity|]. split; [exact Ea|]. split; [exact Et|]. apply (rwlock_no_lost_wakeup PREFER_WRITER_NONRECURSIVE 4 s 3%nat t); [reflexivity | exact (run_schedule_reachable _ _ _ _ E)| |exact Et|].
  - intros k x Hk. apply (list_lookup_fmap_Some_2 at_) in Hk. change (at_ <$> threads s) with (map at_ (threads s)) in Hk. rewrite Ea in Hk. unfold outside, blocked, phase_blocked, at_point.
    do 4 (destruct k as [|k]; [injection Hk as <-; simpl; first [left; exists None; reflexivity | right; lia]|]). discriminate.
  - unfold blocked, phase_blocked, at_point. rewrite Eb. simpl. lia.
Defined.

(** ** A writer that gives up *)

(** Thread 0 holds a read lock, writer 1 waits for it with a time-out and writer 2 behind writer 1.  Thread 0 starts
    the write phase for writer 1, which hands the lock over to writer 2 at its time-out before thread 0 stores the
    phase in __wrphase_futex.  Writer 2 has the lock without waiting for that store and hands it over to
    reader 3; the store comes then. *)
Definition timeout_schedule : list (nat * choice) :=
  (0%nat, Call (Rdlock Forever)) :: runs 0 2 ++ (1%nat, Call (Wrlock Until)) :: runs 1 6 ++ (2%nat, Call (Wrlock Forever)) :: runs 2 7 ++
  (0%nat, Call Unlock) :: runs 0 3 ++ (1%nat, TimeOut) :: runs 1 3 ++ (1%nat, WakeChoice [2%nat]) :: runs 2 6 ++
  (3%nat, Call (Rdlock Forever)) :: runs 3 2 ++ (2%nat, Call Unlock) :: runs 2 7 ++ (2%nat, WakeChoice []) :: runs 3 2 ++ runs 0 1 ++ runs 3 3 ++ [(2%nat, WakeChoice [])].

(** C26: a writer that gives up can leave a reader asleep.  On a lock that prefers writers there is an execution, without
    spurious failures or returns, after which nobody holds the lock, no operation is under way except that of one
    reader, and this reader is blocked: until some thread starts another operation nothing can happen but a spurious return of its futex_wait, after which it blocks again. *)
Theorem rwlock_deadlock_after_timeout : exists s, run_schedule (step PREFER_WRITER) timeout_schedule (init 4) = Some s /\
  forallb (fun x => match snd x with Weak | FutexReturn => false | _ => true end) timeout_schedule = true /\
  map at_ (threads s) = [Out None; Out (Some ETIMEDOUT); Out None; RdBlocked Forever true] /\ everywhere (fun t => rd t = 0%nat /\ wr t = false) s /\
  (forall k c s', step PREFER_WRITER c k s = Some s' -> (exists f, c = Call f) \/ (k = 3%nat /\ c = FutexReturn /\ run_schedule (step PREFER_WRITER) (runs 3 2) s' = Some s)).
Proof.
  destruct (run_schedule (step PREFER_WRITER) timeout_schedule (init 4)) as [s|] eqn:E; vm_compute in E; [|discriminate]. injection E as <-. eexists. split; [reflexivity|]. split; [reflexivity|]. split; [reflexivity|]. split.
  - intros k t Hk. do 4 (destruct k as [|k]; [injection Hk as <-; by split|]). discriminate.
  - intros k c s' H. do 4 (destruct k as [|k]; [destruct c; try discriminate; eauto; right; injection H as <-; repeat split; vm_compute; reflexivity|]). discriminate.
Qed.
