(* ===== verification/Environ.v ===== *)
(** * The environment (stdlib/getenv.c, setenv.c, setenv.h, putenv.c)

    Writers hold a lock and change an array of strings one atomic store at a time; getenv reads the
    array without the lock and notices most changes only by a counter.  [wcall] and [wstep] are the steps of a writer,
    [rstep] those of getenv.  Strings are lists of bytes without the null byte and never change.  The arrays of an
    execution are numbered; the application does not assign environ itself. *)

From Stdlib Require Import ZArith.
From stdpp Require Import base list.
From S2P Require Import Prelude.
#[local] Open Scope Z_scope.

Definition text := list Z.

(** '=' *)
Definition EQUALS : Z := 61.

(** What follows the name and '=' if the string is for [name]: strncmp (entry, name, len) == 0 && entry[len] == '='. *)
Fixpoint value_of (name entry : text) : option text :=
  match name, entry with
  | [], c :: value => if c =? EQUALS then Some value else None
  | x :: name, y :: entry => if x =? y then value_of name entry else None
  | _, [] => None
  end.

(** Allocated arrays, their list with the current one first ([environ_array_list]), and the counter. *)
Record env := { environ : option nat; environ_array_list : list nat; arrays : list (list (option text)); environ_counter : Z }.

Definition load (a i : nat) (E : env) : option (option text) := l ← arrays E !! a; l !! i.

Definition store (a i : nat) (x : option text) (E : env) : option env :=
  l ← arrays E !! a; _ ← l !! i;
  Some {| environ := environ E; environ_array_list := environ_array_list E; arrays := <[a := <[i := x]> l]> (arrays E); environ_counter := environ_counter E |}.

Definition set_environ (p : option nat) (E : env) : env :=
  {| environ := p; environ_array_list := environ_array_list E; arrays := arrays E; environ_counter := environ_counter E |}.

(** The counter has 64 bits. *)
Definition count (E : env) : env :=
  {| environ := environ E; environ_array_list := environ_array_list E; arrays := arrays E; environ_counter := wrap 64 (environ_counter E + 1) |}.

Definition environ_is_from_array_list (a : nat) (E : env) : bool :=
  match environ_array_list E with e :: _ => (e =? a)%nat | [] => false end.

(** The index of the first string for [name], or of the null pointer; the loop of the functions that scan. *)
Fixpoint scan (name : text) (l : list (option text)) (i : nat) : option (nat * bool) :=
  match l with
  | [] => None
  | None :: _ => Some (i, false)
  | Some e :: l => match value_of name e with Some _ => Some (i, true) | None => scan name l (S i) end
  end.

Inductive ret := Success | Einval | Enomem.

(** Whether the allocations of a call succeed: calloc and malloc of a new array, the string, strndup in putenv. *)
Record memory := { array_ok : bool; node_ok : bool; string_ok : bool; name_ok : bool }.

(** Where a writer is, holding the lock: the next store. *)
Inductive wpc :=
| WOut (r : ret)
(* __add_to_environ: ep[1] = NULL, then np at ep, then __environ = result_environ *)
| WTerm (a i : nat) (np : text) (ok : bool) | WStore (a i : nat) (np : text) | WPublish (a : nat)
(* unsetenv: a store that moves a string back, and the counter *)
| UMove (a : nat) (name : text) (ep dp : nat) | UCount (a : nat) (name : text) (ep dp : nat) (last : bool)
(* clearenv *)
| CStore (a i : nat) | CCount | CEnviron.

(** A new array for [required_size] pointers. *)
Definition environ_new_array (required_size : nat) (m : memory) (E : env) : option (nat * env) :=
  let allocated := match environ_array_list E with e :: _ => length (default [] (arrays E !! e)) | [] => 0%nat end in
  let new_size := match environ_array_list E with
                  | [] => (required_size + 16)%nat
                  | _ => if (allocated * 2 <? required_size)%nat then (required_size + 16)%nat else (allocated * 2)%nat
                  end in
  if array_ok m && node_ok m then
    let a := length (arrays E) in
    Some (a, {| environ := environ E; environ_array_list := a :: environ_array_list E; arrays := arrays E ++ [replicate new_size None]; environ_counter := environ_counter E |})
  else None.

(** target_array: the current one if it has room, otherwise a new one. *)
Definition target_array (required_size : nat) (m : memory) (E : env) : option (nat * env) :=
  match environ_array_list E with
  | e :: _ => if (required_size <=? length (default [] (arrays E !! e)))%nat then Some (e, E) else environ_new_array required_size m E
  | [] => environ_new_array required_size m E
  end.

(** The loop that copies the first [i] pointers; no other thread uses the target yet. *)
Definition copy_array (i : nat) (l : list (option text)) (t : nat) (E : env) : env :=
  {| environ := environ E; environ_array_list := environ_array_list E; arrays := alter (fun x => take i l ++ drop i x) t (arrays E); environ_counter := environ_counter E |}.

(** __add_to_environ up to its first store.  [np] is the new string; [ok]: it exists already, or malloc succeeds. *)
Definition add_to_environ (name np : text) (ok replace : bool) (m : memory) (E : env) : option (env * wpc) :=
  let append (i : nat) (l : list (option text)) (mine : option nat) :=
    let required_size := (i + 2)%nat in
    match mine with
    | Some a => Some (E, WTerm a i np ok)
    | None => match target_array required_size m E with
              | Some (t, E') => Some (copy_array i l t E', WTerm t i np ok)
              | None => Some (E, WOut Enomem)
              end
    end in
  match environ E with
  | None => append 0%nat [] None
  | Some a =>
      l ← arrays E !! a;
      '(i, found) ← scan name l 0;
      if found : bool then Some (E, if replace : bool then if ok then WStore a i np else WOut Enomem else WOut Success)
      else append i l (if environ_is_from_array_list a E && (i + 2 <=? length l)%nat then Some a else None)
  end.

(** The loop of unsetenv from index [ep]. *)
Definition un_next (a : nat) (name : text) (ep : nat) (E : env) : option wpc :=
  l ← arrays E !! a; '(i, found) ← scan name (drop ep l) ep;
  Some (if found : bool then UMove a name i i else WOut Success).

(** The loop of clearenv. *)
Definition c_next (a i : nat) (E : env) : option wpc := x ← load a i E; Some (match x with Some _ => CStore a i | None => CCount end).

Inductive call := Setenv (name : option text) (value : text) (replace : bool) | Unsetenv (name : option text) | Putenv (string : text) | Clearenv.

(** The test on names: not NULL, not empty, without '='. *)
Definition valid_name (name : option text) : option text :=
  match name with Some n => if negb (bool_decide (n = [])) && negb (existsb (Z.eqb EQUALS) n) then Some n else None | None => None end.

(** strchr (string, '=') *)
Fixpoint split_name (string : text) : option text :=
  match string with [] => None | c :: s => if c =? EQUALS then Some [] else option_map (cons c) (split_name s) end.

Definition unsetenv (name : text) (E : env) : option (env * wpc) :=
  match environ E with Some a => w ← un_next a name 0 E; Some (E, w) | None => Some (E, WOut Success) end.

(** A call up to its first store. *)
Definition wcall (c : call) (m : memory) (E : env) : option (env * wpc) :=
  match c with
  | Setenv name value replace =>
      match valid_name name with Some n => add_to_environ n (n ++ EQUALS :: value) (string_ok m) replace m E | None => Some (E, WOut Einval) end
  | Unsetenv name => match valid_name name with Some n => unsetenv n E | None => Some (E, WOut Einval) end
  | Putenv string =>
      match split_name string with
      | Some n => if name_ok m then add_to_environ n string true true m E else Some (E, WOut Enomem)
      | None => match valid_name (Some string) with Some n => unsetenv n E | None => Some (E, WOut Success) end
      end
  | Clearenv => match environ E with
                | Some a => if environ_is_from_array_list a E then w ← c_next a 0 E; Some (E, w) else Some (E, CEnviron)
                | None => Some (E, CEnviron)
                end
  end.

(** One store of a writer, and the decisions after it. *)
Definition wstep (w : wpc) (E : env) : option (env * wpc) :=
  match w with
  | WOut _ => None
  | WTerm a i np ok => E' ← store a (S i) None E; Some (E', if ok : bool then WStore a i np else WOut Enomem)
  | WStore a i np => E' ← store a i (Some np) E; Some (E', WPublish a)
  | WPublish a => Some (set_environ (Some a) E, WOut Success)
  | UMove a name ep dp => x ← load a (S dp) E; E' ← store a dp x E; Some (E', UCount a name ep dp (bool_decide (x = None)))
  | UCount a name ep dp last => if last : bool then w' ← un_next a name ep (count E); Some (count E, w') else Some (count E, UMove a name ep (S dp))
  | CStore a i => E' ← store a i None E; w' ← c_next a (S i) E'; Some (E', w')
  | CCount => Some (count E, CEnviron)
  | CEnviron => Some (set_environ None E, WOut Success)
  end.

(** getenv: the load that comes next. *)
Inductive rpc := ROut (r : option text) | RCounter (name : text) | REnviron (name : text) (counter : Z) | REntry (name : text) (counter : Z) (a i : nat) | RCheck (name : text) (counter : Z).

Definition rstep (r : rpc) (E : env) : option rpc :=
  match r with
  | ROut _ => None
  | RCounter n => Some (REnviron n (environ_counter E))
  | REnviron n c => Some (match environ E with Some a => if bool_decide (n = []) then ROut None else REntry n c a 0 | None => ROut None end)
  | REntry n c a i => x ← load a i E; Some (match x with
                                           | None => RCheck n c
                                           | Some e => match value_of n e with Some v => ROut (Some v) | None => REntry n c a (S i) end
                                           end)
  | RCheck n c => Some (if environ_counter E =? c then ROut None else RCounter n)
  end.

(** One writer at a time and any number of readers. *)
Record state := { mem : env; writer : wpc; readers : list rpc }.

Inductive choice := WCall (c : call) (m : memory) | WRun | RCall (k : nat) (name : text) | RRun (k : nat).

Definition step (c : choice) (s : state) : option state :=
  match c with
  | WCall f m => match writer s with WOut _ => '(E, w) ← wcall f m (mem s); Some {| mem := E; writer := w; readers := readers s |} | _ => None end
  | WRun => '(E, w) ← wstep (writer s) (mem s); Some {| mem := E; writer := w; readers := readers s |}
  | RCall k n => r ← readers s !! k; match r with ROut _ => Some {| mem := mem s; writer := writer s; readers := <[k := RCounter n]> (readers s) |} | _ => None end
  | RRun k => r ← readers s !! k; r' ← rstep r (mem s); Some {| mem := mem s; writer := writer s; readers := <[k := r']> (readers s) |}
  end.

(** The process starts with the strings [l] from the kernel. *)
Definition init (l : list text) (n : nat) : state :=
  {| mem := {| environ := Some 0%nat; environ_array_list := []; arrays := [map Some l ++ [None]]; environ_counter := 0 |}; writer := WOut Success; readers := replicate n (ROut None) |}.

(** * What getenv would find *)

(** The strings before the null pointer. *)
Fixpoint live (l : list (option text)) : list text := match l with Some e :: l => e :: live l | _ => [] end.

Fixpoint find (name : text) (l : list text) : option text :=
  match l with [] => None | e :: l => match value_of name e with Some v => Some v | None => find name l end end.

Definition strings (E : env) : list text := match environ E with Some a => live (default [] (arrays E !! a)) | None => [] end.
Definition view (E : env) (name : text) : option text := find name (strings E).

(** The variable a string is for. *)
Definition key (e : text) : option text := split_name e.

(** No variable occurs twice. *)
Definition clean (l : list text) : Prop := NoDup (omap key l).

#[export] Instance clean_dec l : Decision (clean l).
Proof. unfold clean, text. apply _. Defined.

(** ** Strings *)

#[local] Arguments Z.eqb : simpl never.

Lemma value_of_key n e v : value_of n e = Some v -> key e = split_name (n ++ [EQUALS]).
Proof.
  unfold key. revert e. induction n as [|x n IH]; intros [|y e] H; simpl in *; try done.
  - destruct (y =? EQUALS); done.
  - destruct (Z.eqb_spec x y) as [->|]; [|done]. destruct (y =? EQUALS); [done|]. by rewrite (IH e H).
Qed.

Lemma split_app n : split_name (n ++ [EQUALS]) <> None.
Proof. induction n as [|x n IH]; simpl; [done|]. destruct (x =? EQUALS); [done|]. by destruct (split_name (n ++ [EQUALS])). Qed.

Lemma key_value e k : key e = Some k -> exists v, value_of k e = Some v /\ e = k ++ EQUALS :: v.
Proof.
  unfold key. revert k. induction e as [|c e IH]; intros k H; simpl in H; [done|]. destruct (Z.eqb_spec c EQUALS) as [->|Hc]; [injection H as <-; exists e; done|].
  destruct (split_name e) as [k'|] eqn:E; [|done]. injection H as <-. destruct (IH k' eq_refl) as (v & H1 & ->). exists v. split; [simpl; by rewrite Z.eqb_refl | done].
Qed.

Lemma regular_key n : existsb (Z.eqb EQUALS) n = false -> forall v, key (n ++ EQUALS :: v) = Some n.
Proof. unfold key. induction n as [|x n IH]; intros H v; [done|]. simpl in *. apply orb_false_iff in H as [H1 H2]. rewrite Z.eqb_sym, H1. by rewrite (IH H2 v). Qed.

Lemma split_regular e k : split_name e = Some k -> existsb (Z.eqb EQUALS) k = false.
Proof.
  revert k. induction e as [|c e IH]; intros k H; simpl in H; [done|]. destruct (Z.eqb_spec c EQUALS) as [->|Hc]; [by injection H as <-|].
  destruct (split_name e) as [k'|]; [|done]. injection H as <-. simpl. rewrite (IH k' eq_refl). destruct (Z.eqb_spec EQUALS c); [congruence | done].
Qed.

Lemma value_of_app n v : value_of n (n ++ EQUALS :: v) = Some v.
Proof. induction n as [|x n IH]; simpl; [done | by rewrite Z.eqb_refl]. Qed.

(** A string for any name is for the variable of its key. *)
Lemma value_of_regular n e : existsb (Z.eqb EQUALS) n = false -> value_of n e <> None <-> key e = Some n.
Proof.
  intros Hn. split.
  - destruct (value_of n e) as [v|] eqn:E; [|done]. intros _. rewrite (value_of_key _ _ _ E). apply (regular_key n Hn []).
  - intros H. destruct (key_value _ _ H) as (v & -> & _). done.
Qed.

(** ** Lists of strings *)

Lemma find_Some n l v : find n l = Some v -> exists i e, l !! i = Some e /\ value_of n e = Some v /\ forall j x, (j < i)%nat -> l !! j = Some x -> value_of n x = None.
Proof.
  induction l as [|e l IH]; simpl; [done|]. destruct (value_of n e) as [w|] eqn:E.
  - intros H. injection H as ->. exists 0%nat, e. split; [done|]. split; [done|]. intros j x Hj. lia.
  - intros H. destruct (IH H) as (i & x & H1 & H2 & H3). exists (S i), x. split; [done|]. split; [done|]. intros [|j] y Hj Hy; simpl in Hy; [congruence | eapply (H3 j); [lia | done]].
Qed.

Lemma find_None n l : find n l = None <-> forall i e, l !! i = Some e -> value_of n e = None.
Proof.
  induction l as [|x l IH]; simpl; [split; [intros _ i e; by rewrite lookup_nil | done]|]. destruct (value_of n x) as [w|] eqn:E.
  - split; [done | intros H; specialize (H 0%nat x eq_refl); congruence].
  - rewrite IH. split; [intros H [|i] e Hi; simpl in Hi; [congruence | eauto] | intros H i e Hi; exact (H (S i) e Hi)].
Qed.

Lemma clean_unique l i j x y k : clean l -> l !! i = Some x -> l !! j = Some y -> key x = Some k -> key y = Some k -> i = j.
Proof.
  unfold clean. revert i j. induction l as [|e l IH]; intros i j Hc Hi Hj Hx Hy; [by rewrite lookup_nil in Hi|]. simpl in Hc.
  assert (Hin : forall m z, l !! m = Some z -> key z = Some k -> k ∈ omap key l) by (intros m z Hm Hz; apply list_elem_of_omap; exists z; split; [by eapply list_elem_of_lookup_2 | done]).
  destruct i as [|i], j as [|j]; simpl in Hi, Hj; [done | | |].
  - injection Hi as ->. rewrite Hx in Hc. apply NoDup_cons in Hc as [Hc _]. destruct Hc. eauto.
  - injection Hj as ->. rewrite Hy in Hc. apply NoDup_cons in Hc as [Hc _]. destruct Hc. eauto.
  - f_equal. apply IH; try done. destruct (key e); [by apply NoDup_cons in Hc as [_ Hc] | done].
Qed.

(** ** Arrays with a null pointer at the end *)

Definition ended (l : list (option text)) : Prop := last l = Some None.

Lemma ended_split l : ended l -> exists t, l = map Some (live l) ++ None :: t.
Proof.
  unfold ended. induction l as [|[e|] l IH]; intros H; simpl; [done | | by exists l]. destruct l as [|y l]; [done|]. destruct (IH H) as [t Ht]. exists t. by rewrite Ht at 1.
Qed.

Lemma live_app L t : live (map Some L ++ None :: t) = L.
Proof. induction L as [|e L IH]; simpl; [done | by rewrite IH]. Qed.

Lemma live_lookup l i e : live l !! i = Some e -> l !! i = Some (Some e).
Proof. revert i. induction l as [|[x|] l IH]; intros [|i] H; simpl in *; try done; [congruence | eauto]. Qed.

Lemma live_end l : ended l -> l !! length (live l) = Some None.
Proof. intros H. destruct (ended_split l H) as [t Ht]. rewrite Ht, live_app, lookup_app_r by (by rewrite length_map). by rewrite length_map, Nat.sub_diag. Qed.

Lemma live_length l : ended l -> (length (live l) < length l)%nat.
Proof. intros H. eapply lookup_lt_Some, live_end, H. Qed.

Lemma live_lookup_iff l i e : ended l -> (i <= length (live l))%nat -> l !! i = Some (Some e) <-> live l !! i = Some e.
Proof.
  intros H Hi. split; [|apply live_lookup]. intros E. destruct (decide (i = length (live l))) as [->|Hn]; [rewrite (live_end l H) in E; done|].
  destruct (lookup_lt_is_Some_2 (live l) i ltac:(lia)) as [x Hx]. pose proof (live_lookup _ _ _ Hx). congruence.
Qed.

Lemma ended_insert l i x : ended l -> (S i < length l)%nat \/ x = None -> ended (<[i := x]> l).
Proof.
  unfold ended. intros H Hi. rewrite !last_lookup, length_insert in *. destruct (decide (i = pred (length l))) as [->|Hn]; [|by rewrite list_lookup_insert_ne].
  destruct Hi as [Hi| ->]; [lia|]. rewrite list_lookup_insert_eq; [done|]. by apply lookup_lt_Some in H.
Qed.

Lemma live_insert_None l i : (i < length l)%nat -> live (<[i := None]> l) = take i (live l).
Proof. revert i. induction l as [|[x|] l IH]; intros [|i] Hi; simpl in *; try done; try lia. rewrite IH by lia. done. Qed.

Lemma live_insert_Some l i e : (i < length (live l))%nat -> live (<[i := Some e]> l) = <[i := e]> (live l).
Proof. revert i. induction l as [|[x|] l IH]; intros [|i] Hi; simpl in *; try lia; try done. rewrite IH by lia. done. Qed.

Lemma live_insert_end l e : l !! length (live l) = Some None -> l !! S (length (live l)) = Some None -> live (<[length (live l) := Some e]> l) = live l ++ [e].
Proof.
  induction l as [|[x|] l IH]; intros H1 H2; [done | |].
  - simpl in *. by rewrite IH.
  - simpl in *. destruct l as [|y l]; [done|]. simpl in H2. by injection H2 as ->.
Qed.

(** A scan that starts inside finds the null pointer at the latest. *)
Lemma scan_drop n l ep : ended l -> (ep <= length (live l))%nat -> exists i b, scan n (drop ep l) ep = Some (i, b) /\ (ep <= i <= length (live l))%nat /\
  (if b : bool then exists e, live l !! i = Some e /\ value_of n e <> None else i = length (live l)) /\ (forall j x, (ep <= j < i)%nat -> live l !! j = Some x -> value_of n x = None).
Proof.
  intros H Hep. remember (length (live l) - ep)%nat as d eqn:Ed. revert ep Hep Ed. induction d as [|d IH]; intros ep Hep Ed.
  - assert (ep = length (live l)) as -> by lia. rewrite (drop_S _ _ _ (live_end l H)). simpl. exists (length (live l)), false. split; [done|]. split; [lia|]. split; [done|]. intros j x Hj. lia.
  - destruct (lookup_lt_is_Some_2 (live l) ep ltac:(lia)) as [e He]. rewrite (drop_S _ _ _ (live_lookup _ _ _ He)). simpl. destruct (value_of n e) as [v|] eqn:Ev.
    + exists ep, true. split; [done|]. split; [lia|]. split; [exists e; split; [done | congruence]|]. intros j x Hj. lia.
    + destruct (IH (S ep) ltac:(lia) ltac:(lia)) as (i & b & E & Hi & Hb & Hj). exists i, b. split; [done|]. split; [lia|]. split; [done|]. intros j x Hr Hx. destruct (decide (j = ep)) as [->|]; [congruence | apply (Hj j x); [lia | done]].
Qed.

(** * The invariant of the writer *)

(** Every array ends in a null pointer and the pointers to arrays are valid. *)
Record mem_ok (E : env) : Prop := {
  m_ended : forall a l, arrays E !! a = Some l -> ended l;
  m_environ : forall a, environ E = Some a -> is_Some (arrays E !! a);
  m_list : forall a, a ∈ environ_array_list E -> is_Some (arrays E !! a) }.

(** No string for the variable of [np] yet. *)
Definition fresh (np : text) (L : list text) : Prop := key np <> None /\ forall e, e ∈ L -> key e <> key np.

(** [np] is about to be stored behind a copy of the strings. *)
Definition prepared (E : env) (a i : nat) (np : text) : Prop :=
  exists l, arrays E !! a = Some l /\ take i l = map Some (strings E) /\ i = length (strings E) /\ (S i < length l)%nat /\ clean (strings E) /\ fresh np (strings E) /\ head (environ_array_list E) = Some a.

Definition writer_ok (E : env) (w : wpc) : Prop :=
  match w with
  | WOut _ | CCount | CEnviron => clean (strings E)
  | WTerm a i np _ => prepared E a i np
  | WStore a i np => (environ E = Some a /\ clean (strings E) /\ exists e, strings E !! i = Some e /\ key e = key np) \/
                     (prepared E a i np /\ exists l, arrays E !! a = Some l /\ l !! S i = Some None)
  | WPublish a => clean (strings E) /\ exists l, arrays E !! a = Some l /\ clean (live l) /\ (environ E = Some a \/ head (environ_array_list E) = Some a)
  | UMove a name ep dp => environ E = Some a /\ (ep <= dp < length (strings E))%nat /\ clean (delete dp (strings E)) /\ (forall e, e ∈ delete dp (strings E) -> value_of name e = None) /\
                          (dp = ep /\ clean (strings E) \/ (ep < dp)%nat /\ strings E !! pred dp = strings E !! dp)
  | UCount a name ep dp last =>
      environ E = Some a /\ (ep <= dp <= length (strings E))%nat /\
      if last : bool then clean (strings E) /\ (forall e, e ∈ strings E -> value_of name e = None)
      else (S dp < length (strings E))%nat /\ strings E !! dp = strings E !! S dp /\ clean (delete (S dp) (strings E)) /\ (forall e, e ∈ delete (S dp) (strings E) -> value_of name e = None)
  | CStore a i => environ E = Some a /\ clean (strings E) /\ (exists e, load a i E = Some (Some e)) /\ ((0 < i)%nat -> strings E = [])
  end.

(** The strings when the call has ended. *)
Definition final (E : env) (w : wpc) : list text :=
  match w with
  | WOut _ => strings E
  | WTerm _ _ np ok => if ok : bool then strings E ++ [np] else strings E
  | WStore _ i np => if (i <? length (strings E))%nat then <[i := np]> (strings E) else strings E ++ [np]
  | WPublish a => live (default [] (arrays E !! a))
  | UMove _ _ _ dp => delete dp (strings E)
  | UCount _ _ _ dp last => if last : bool then strings E else delete (S dp) (strings E)
  | CStore _ _ | CCount | CEnviron => []
  end.

(** Steps until then. *)
Definition remaining (E : env) (w : wpc) : nat :=
  match w with
  | WOut _ => 0
  | WTerm _ _ _ _ => 3
  | WStore _ _ _ => 2
  | WPublish _ => 1
  | UMove _ _ _ dp => 2 * (length (strings E) - dp) + 1
  | UCount _ _ _ dp last => if last : bool then 2 else 2 * (length (strings E) - dp)
  | CStore a i => length (default [] (arrays E !! a)) - i + 3
  | CCount => 2
  | CEnviron => 1
  end.

(** ** Memory *)

Lemma environ_store_spec a i x E l : arrays E !! a = Some l -> (i < length l)%nat -> exists E', store a i x E = Some E' /\
  environ E' = environ E /\ environ_array_list E' = environ_array_list E /\ environ_counter E' = environ_counter E /\ arrays E' = <[a := <[i := x]> l]> (arrays E).
Proof. intros Ha Hi. unfold store. rewrite Ha. simpl. destruct (lookup_lt_is_Some_2 l i Hi) as [y ->]. simpl. eexists. split; [reflexivity|]. done. Qed.

Lemma mem_ok_store E E' a l l' : mem_ok E -> arrays E !! a = Some l -> ended l' -> environ E' = environ E -> environ_array_list E' = environ_array_list E -> arrays E' = <[a := l']> (arrays E) -> mem_ok E'.
Proof.
  intros [H1 H2 H3] Ha Hl E1 E2 E3. assert (K : forall b, is_Some (arrays E !! b) -> is_Some (arrays E' !! b)) by (intros b Hb; rewrite E3; apply lookup_lt_is_Some; rewrite length_insert; by apply lookup_lt_is_Some).
  split; [|intros b Hb; apply K, H2; congruence | intros b Hb; apply K, H3; by rewrite E2 in Hb]. intros b x Hb. rewrite E3 in Hb. apply list_lookup_insert_Some in Hb as [(-> & <- & _)|(_ & Hb)]; eauto.
Qed.

Lemma array_insert E a l (l' : list (option text)) : arrays E !! a = Some l -> <[a := l']> (arrays E) !! a = Some l'.
Proof. intros H. apply list_lookup_insert_eq. by eapply lookup_lt_Some. Qed.

(** The strings after a store. *)
Lemma strings_here E a l : environ E = Some a -> arrays E !! a = Some l -> strings E = live l.
Proof. intros H1 H2. unfold strings. by rewrite H1, H2. Qed.

Lemma strings_other E E' a l' : environ E' = environ E -> arrays E' = <[a := l']> (arrays E) -> environ E <> Some a -> strings E' = strings E.
Proof. intros H1 H2 H3. unfold strings. rewrite H1, H2. destruct (environ E) as [b|]; [|done]. rewrite list_lookup_insert_ne; [done | congruence]. Qed.

(** ** Lists without repeated variables *)

Lemma clean_sublist L L' : sublist L' L -> clean L -> clean L'.
Proof.
  unfold clean. intros H Hn. eapply sublist_NoDup; [exact Hn|]. clear Hn. induction H as [|x k l H IH|x k l H IH]; simpl; [done | |]; destruct (key x); by try constructor.
Qed.

Lemma clean_insert L i e np : clean L -> L !! i = Some e -> key e = key np -> clean (<[i := np]> L).
Proof.
  unfold clean. intros H Hi Hk. assert (omap key (<[i := np]> L) = omap key L) as ->; [|done]. clear H. revert i Hi. induction L as [|x L IH]; intros [|i] Hi; simpl in *; try done; [injection Hi as ->; by rewrite Hk | by rewrite IH].
Qed.

Lemma clean_app L np : clean L -> fresh np L -> clean (L ++ [np]).
Proof.
  unfold clean. intros H [Hk Hf]. rewrite omap_app. simpl. destruct (key np) as [k|] eqn:E; [|done]. apply NoDup_app. split; [done|]. split; [|apply NoDup_singleton].
  intros x Hx Hin. apply list_elem_of_singleton in Hin as ->. apply list_elem_of_omap in Hx as (e & He & Hke). by apply (Hf e He).
Qed.

Lemma delete_shift {A} (L : list A) i e : L !! S i = Some e -> delete (S i) (<[i := e]> L) = delete i L.
Proof.
  revert i. induction L as [|x L IH]; intros i H; [done|]. destruct i as [|i]; simpl in *; [|f_equal; exact (IH i H)]. destruct L as [|y L]; simpl in *; [done|]. by injection H as ->.
Qed.

Lemma delete_last {A} (L : list A) i : S i = length L -> delete i L = take i L.
Proof. revert i. induction L as [|x L IH]; intros [|i] H; simpl in *; try done; [destruct L; done | f_equal; apply IH; lia]. Qed.

Lemma live_prefix l L i e : take i l = map Some L -> i = length L -> l !! S i = Some None -> live (<[i := Some e]> l) = L ++ [e].
Proof.
  intros H -> Hn. assert (Hi : (length L < length l)%nat) by (apply lookup_lt_Some in Hn; lia). rewrite insert_take_drop, H by done. destruct (drop (S (length L)) l) as [|y t] eqn:E.
  - exfalso. apply (f_equal length) in E. rewrite length_drop in E. apply lookup_lt_Some in Hn. simpl in E. lia.
  - assert (y = None) as ->. { pose proof (lookup_drop l (S (length L)) 0) as Hd. rewrite E, Nat.add_0_r, Hn in Hd. simpl in Hd. by injection Hd. }
    replace (map Some L ++ Some e :: None :: t) with (map Some (L ++ [e]) ++ None :: t) by (rewrite map_app, <- app_assoc; done). apply live_app.
Qed.

(** What one step has to keep. *)
Record advances (E : env) (w : wpc) (E' : env) (w' : wpc) : Prop := {
  ad_mem : mem_ok E';
  ad_ok : writer_ok E' w';
  ad_final : final E' w' = final E w;
  ad_less : (remaining E' w' < remaining E w)%nat }.

Lemma prepared_ended E a i np : mem_ok E -> prepared E a i np -> exists l, arrays E !! a = Some l /\ ended l /\ (S i < length l)%nat.
Proof. intros [H1 _ _] (l & Hl & _ & _ & Hi & _). exists l. eauto. Qed.

Lemma step_term E a i np ok : mem_ok E -> writer_ok E (WTerm a i np ok) -> exists E' w', wstep (WTerm a i np ok) E = Some (E', w') /\ advances E (WTerm a i np ok) E' w'.
Proof.
  intros HM (l & Hl & Ht & Hi & Hs & Hc & Hf & Hh). pose proof (m_ended E HM a l Hl) as He. destruct (environ_store_spec a (S i) None E l Hl Hs) as (E' & HE & E1 & E2 & E3 & E4).
  assert (HM' : mem_ok E') by (apply (mem_ok_store E E' a l (<[S i := None]> l) HM Hl); auto; apply ended_insert; auto).
  assert (Hl' : arrays E' !! a = Some (<[S i := None]> l)) by (rewrite E4; by eapply array_insert).
  assert (Es : strings E' = strings E).
  { destruct (decide (environ E = Some a)) as [Ea|Ea]; [|by eapply strings_other]. rewrite (strings_here E' a _ ltac:(congruence) Hl'), live_insert_None by done. rewrite (strings_here E a l Ea Hl) in *. apply take_ge. lia. }
  assert (Hp : prepared E' a i np) by (exists (<[S i := None]> l); rewrite Es, E2, length_insert, take_insert_ge by lia; done).
  simpl. rewrite HE. simpl. eexists _, _. split; [reflexivity|]. destruct ok; split; auto; simpl; rewrite ?Es.
  - right. split; [done|]. exists (<[S i := None]> l). split; [done|]. by apply list_lookup_insert_eq.
  - destruct (Nat.ltb_spec i (length (strings E))); [lia | done].
  - done.
  - lia.
Qed.

Lemma step_store E a i np : mem_ok E -> writer_ok E (WStore a i np) -> exists E' w', wstep (WStore a i np) E = Some (E', w') /\ advances E (WStore a i np) E' w'.
Proof.
  intros HM HW. assert (exists l, arrays E !! a = Some l /\ (S i < length l)%nat /\ clean (live (<[i := Some np]> l)) /\ live (<[i := Some np]> l) = final E (WStore a i np) /\ (environ E = Some a \/ head (environ_array_list E) = Some a) /\ clean (strings E)) as (l & Hl & Hi & Hc & Hfin & Hpub & Hcs).
  { destruct HW as [(Ea & Hc & e & He & Hk)|[(l & Hl & Ht & Hi & Hs & Hc & Hf & Hh) (l2 & Hl2 & Hn)]].
    - destruct (m_environ E HM a Ea) as [l Hl]. exists l. rewrite (strings_here E a l Ea Hl) in *. pose proof (lookup_lt_Some _ _ _ He) as Hlt. pose proof (live_length l (m_ended E HM a l Hl)) as Hlen.
      unfold final. rewrite (strings_here E a l Ea Hl). rewrite live_insert_Some by done. split; [done|]. split; [lia|]. split; [by eapply clean_insert|]. split; [by destruct (Nat.ltb_spec i (length (live l))); [|lia] | split; [by left | done]].
    - rewrite Hl in Hl2. injection Hl2 as <-. exists l. unfold final. rewrite (live_prefix l (strings E) i np Ht Hi Hn). split; [done|]. split; [done|]. split; [by apply clean_app|]. split; [by destruct (Nat.ltb_spec i (length (strings E))); [lia|] | split; [by right | done]]. }
  destruct (environ_store_spec a i (Some np) E l Hl ltac:(lia)) as (E' & HE & E1 & E2 & E3 & E4). simpl. rewrite HE. simpl. eexists _, _. split; [reflexivity|].
  assert (Hl' : arrays E' !! a = Some (<[i := Some np]> l)) by (rewrite E4; by eapply array_insert).
  split; [apply (mem_ok_store E E' a l (<[i := Some np]> l) HM Hl); auto; apply ended_insert; auto; by eapply m_ended | split; [destruct (decide (environ E = Some a)) as [Ea|Ea]; [rewrite (strings_here E' a (<[i := Some np]> l)); congruence | by rewrite (strings_other E E' a (<[i := Some np]> l))] | exists (<[i := Some np]> l); rewrite E1, E2; done] | cbn [final]; by rewrite Hl' | simpl; lia].
Qed.

Lemma step_publish E a : mem_ok E -> writer_ok E (WPublish a) -> exists E' w', wstep (WPublish a) E = Some (E', w') /\ advances E (WPublish a) E' w'.
Proof.
  intros [M1 M2 M3] [_ (l & Hl & Hc & _)]. simpl. eexists _, _. split; [reflexivity|]. assert (Es : strings (set_environ (Some a) E) = live l) by (unfold strings; simpl; by rewrite Hl).
  split; simpl; [split; simpl; auto; intros b Hb; injection Hb as <-; by exists l | by rewrite Es | rewrite Es, Hl; done | lia].
Qed.

(** Moving a string back. *)
Lemma step_move E a n ep dp : mem_ok E -> writer_ok E (UMove a n ep dp) -> exists E' w', wstep (UMove a n ep dp) E = Some (E', w') /\ advances E (UMove a n ep dp) E' w'.
Proof.
  intros HM (Ea & Hd & Hc & Hm & Hcase). destruct (m_environ E HM a Ea) as [l Hl]. pose proof (m_ended E HM a l Hl) as He. pose proof (live_length l He) as Hlen. rewrite (strings_here E a l Ea Hl) in *.
  destruct (lookup_lt_is_Some_2 l (S dp) ltac:(lia)) as [x Hx]. destruct (environ_store_spec a dp x E l Hl ltac:(lia)) as (E' & HE & E1 & E2 & E3 & E4).
  assert (Hl' : arrays E' !! a = Some (<[dp := x]> l)) by (rewrite E4; by eapply array_insert). assert (Es : strings E' = live (<[dp := x]> l)) by (apply (strings_here E' a); congruence).
  assert (HM' : mem_ok E') by (apply (mem_ok_store E E' a l (<[dp := x]> l) HM Hl); auto; apply ended_insert; auto; left; lia).
  simpl. unfold load. rewrite Hl. simpl. rewrite Hx. simpl. rewrite HE. simpl. eexists _, _. split; [reflexivity|].
  destruct (decide (S dp = length (live l))) as [Eq|Ne].
  - rewrite Eq, (live_end l He) in Hx. injection Hx as <-. rewrite live_insert_None in Es by lia. rewrite <- (delete_last (live l) dp Eq) in Es.
    assert (Hlen2 : length (strings E') = dp) by (rewrite Es, length_delete by (apply lookup_lt_is_Some; lia); lia).
    split; [done | | |]; simpl; rewrite ?Es, ?(strings_here E a l Ea Hl); auto; [rewrite E1; split; [done|]; split; [rewrite <- Es; lia | done] | lia].
  - destruct (lookup_lt_is_Some_2 (live l) (S dp) ltac:(lia)) as [e Hy]. pose proof (live_lookup _ _ _ Hy) as Hxe. rewrite Hx in Hxe. injection Hxe as ->. rewrite live_insert_Some in Es by lia.
    split; [done | | |]; simpl; rewrite ?Es, ?(strings_here E a l Ea Hl), ?length_insert, ?(delete_shift _ _ _ Hy); [|done|lia].
    rewrite E1. split; [done|]. split; [lia|]. split; [lia|]. split; [|done]. rewrite list_lookup_insert_eq by lia. rewrite list_lookup_insert_ne by lia. done.
Qed.

Definition others (n : text) (L : list text) : list text := filter (fun e => value_of n e = None) L.

Lemma others_all n L : (forall e, e ∈ L -> value_of n e = None) -> others n L = L.
Proof. intros H. unfold others. induction L as [|x L IH]; [done|]. rewrite filter_cons_True by (apply H; left). f_equal. apply IH. intros e He. apply H. by right. Qed.

Lemma others_delete n L i x : L !! i = Some x -> value_of n x <> None -> (forall e, e ∈ delete i L -> value_of n e = None) -> others n L = delete i L.
Proof.
  unfold others. revert i. induction L as [|y L IH]; intros [|i] Hi Hx H; simpl in Hi; try done.
  - injection Hi as ->. rewrite filter_cons_False by done. apply (others_all n L). exact H.
  - rewrite filter_cons_True by (apply H; left). simpl. f_equal. apply IH; auto. intros e He. apply H. by right.
Qed.

(** In a list without repeated variables one string at most is for a name. *)
Lemma clean_others n L i x : clean L -> L !! i = Some x -> value_of n x <> None -> forall e, e ∈ delete i L -> value_of n e = None.
Proof.
  intros Hc Hi Hx e He. destruct (value_of n e) as [v|] eqn:Ev; [|done]. exfalso. apply list_elem_of_lookup in He as [j Hj]. destruct (value_of n x) as [w|] eqn:Ew; [|done].
  assert (Hkey : exists k, key x = Some k /\ key e = Some k) by (rewrite (value_of_key _ _ _ Ew), (value_of_key _ _ _ Ev); destruct (split_name (n ++ [EQUALS])) as [k|] eqn:E; [by exists k | by destruct (split_app n)]). destruct Hkey as (k & Kx & Ke).
  destruct (decide (j < i)%nat) as [Hlt|Hge].
  - rewrite list_lookup_delete_lt in Hj by done. pose proof (clean_unique L i j x e k Hc Hi Hj Kx Ke). lia.
  - rewrite list_lookup_delete_ge in Hj by lia. pose proof (clean_unique L i (S j) x e k Hc Hi Hj Kx Ke). lia.
Qed.

(** The loop of unsetenv. *)
Lemma un_next_spec E a n ep : mem_ok E -> environ E = Some a -> (ep <= length (strings E))%nat -> clean (strings E) -> (forall j x, (j < ep)%nat -> strings E !! j = Some x -> value_of n x = None) ->
  exists w, un_next a n ep E = Some w /\ writer_ok E w /\ final E w = others n (strings E) /\ ((forall e, e ∈ strings E -> value_of n e = None) -> w = WOut Success).
Proof.
  intros HM Ea Hep Hc Hb. destruct (m_environ E HM a Ea) as [l Hl]. pose proof (strings_here E a l Ea Hl) as Es. rewrite Es in *. destruct (scan_drop n l ep (m_ended E HM a l Hl) Hep) as (i & b & Hs & Hi & Hm & Hj).
  unfold un_next. rewrite Hl. simpl. rewrite Hs. simpl. eexists. split; [reflexivity|]. destruct b.
  - destruct Hm as (e & He & Hv). pose proof (clean_others n (live l) i e Hc He Hv) as Ho. split; [|split].
    + simpl. rewrite Es. split; [done|]. split; [split; [lia | by eapply lookup_lt_Some]|]. split; [eapply clean_sublist; [apply sublist_delete | done]|]. split; [done|]. by left.
    + simpl. rewrite Es. symmetry. by eapply others_delete.
    + intros H. destruct Hv. apply H. by eapply list_elem_of_lookup_2.
  - subst i. split; [simpl; by rewrite Es|]. split; [|done]. simpl. rewrite Es. symmetry. apply others_all. intros e He. apply list_elem_of_lookup in He as [j Hje]. pose proof (lookup_lt_Some _ _ _ Hje). destruct (decide (j < ep)%nat); [by eapply Hb | by apply (Hj j e); [lia|]].
Qed.

Lemma strings_count E : strings (count E) = strings E.
Proof. done. Qed.

Lemma mem_ok_count E : mem_ok E -> mem_ok (count E).
Proof. intros [H1 H2 H3]. by split. Qed.

Lemma step_count E a n ep dp last : mem_ok E -> writer_ok E (UCount a n ep dp last) -> exists E' w', wstep (UCount a n ep dp last) E = Some (E', w') /\ advances E (UCount a n ep dp last) E' w'.
Proof.
  intros HM (Ea & Hd & Hcase). pose proof (mem_ok_count E HM) as HM'. destruct last.
  - destruct Hcase as [Hc Hn]. destruct (un_next_spec (count E) a n ep HM' Ea ltac:(rewrite strings_count; lia) Hc) as (w & Hw & Hok & Hf & Hout); [intros j x _ Hx; apply Hn; by eapply list_elem_of_lookup_2|].
    specialize (Hout Hn). subst w. simpl. rewrite Hw. simpl. eexists _, _. split; [reflexivity|]. split; auto; simpl. lia.
  - destruct Hcase as (Hs & He & Hc & Hn). simpl. eexists _, _. split; [reflexivity|]. split; auto; simpl; rewrite ?strings_count; [|lia]. split; [done|]. split; [lia|]. split; [done|]. split; [done|]. right. split; [lia | done].
Qed.

Lemma c_next_spec E a i : mem_ok E -> environ E = Some a -> (i < length (default [] (arrays E !! a)))%nat -> clean (strings E) -> ((0 < i)%nat -> strings E = []) -> exists w, c_next a i E = Some w /\ writer_ok E w /\ final E w = [] /\ (remaining E w < length (default [] (arrays E !! a)) - i + 4)%nat.
Proof.
  intros HM Ea Hi Hc H0. destruct (m_environ E HM a Ea) as [l Hl]. rewrite Hl in *. simpl in Hi. destruct (lookup_lt_is_Some_2 l i Hi) as [x Hx]. unfold c_next, load. rewrite Hl. simpl. rewrite Hx. simpl. eexists. split; [reflexivity|].
  destruct x as [e|]; simpl; [|split; [done|]; split; [done | lia]]. unfold load. rewrite Hl. simpl. split; [|split; [done | lia]]. split; [done|]. split; [done|]. split; [by exists e | done].
Qed.

Lemma step_clear E a i : mem_ok E -> writer_ok E (CStore a i) -> exists E' w', wstep (CStore a i) E = Some (E', w') /\ advances E (CStore a i) E' w'.
Proof.
  intros HM (Ea & Hc & (e & He) & H0). destruct (m_environ E HM a Ea) as [l Hl]. unfold load in He. rewrite Hl in He. simpl in He. pose proof (lookup_lt_Some _ _ _ He) as Hi.
  assert (Hi2 : (S i < length l)%nat). { destruct (decide (S i = length l)) as [Eq|]; [|lia]. pose proof (m_ended E HM a l Hl) as Hend. unfold ended in Hend. rewrite last_lookup, <- Eq in Hend. simpl in Hend. congruence. }
  destruct (environ_store_spec a i None E l Hl Hi) as (E' & HE & E1 & E2 & E3 & E4). assert (Hl' : arrays E' !! a = Some (<[i := None]> l)) by (rewrite E4; by eapply array_insert).
  assert (Es : strings E' = take i (live l)) by (rewrite (strings_here E' a (<[i := None]> l)); [by apply live_insert_None | congruence | done]). rewrite (strings_here E a l Ea Hl) in Hc, H0.
  assert (HM' : mem_ok E') by (apply (mem_ok_store E E' a l (<[i := None]> l) HM Hl); auto; apply ended_insert; auto; by eapply m_ended).
  destruct (c_next_spec E' a (S i) HM' ltac:(congruence)) as (w & Hw & Hok & Hf & Hr); [rewrite Hl'; simpl; by rewrite length_insert | rewrite Es; eapply clean_sublist; [apply sublist_take | done] | intros _; rewrite Es; destruct i; [done | rewrite H0 by lia; done]|].
  simpl. rewrite HE. simpl. rewrite Hw. simpl. eexists _, _. split; [reflexivity|]. rewrite Hl' in Hr. simpl in Hr. rewrite length_insert in Hr. split; auto. simpl. rewrite Hl. simpl. lia.
Qed.

Lemma step_last E w : mem_ok E -> writer_ok E w -> w = CCount \/ w = CEnviron -> exists E' w', wstep w E = Some (E', w') /\ advances E w E' w'.
Proof.
  intros HM HW [-> | ->]; simpl; eexists _, _; (split; [reflexivity|]); split; simpl; auto; try lia; [by apply mem_ok_count| |apply NoDup_nil_2].
  destruct HM as [H1 H2 H3]. by split.
Qed.

(** A writer is never stuck, never leaves an array, and ends. *)
Lemma wstep_advances E w : mem_ok E -> writer_ok E w -> (exists r, w = WOut r) \/ exists E' w', wstep w E = Some (E', w') /\ advances E w E' w'.
Proof.
  intros HM HW. destruct w; eauto; right; eauto using step_term, step_store, step_publish, step_move, step_count, step_clear, step_last.
Qed.

(** * Calls *)

Definition regular (n : text) : Prop := existsb (Z.eqb EQUALS) n = false.

(** What the call returns. *)
Definition result (w : wpc) : ret := match w with WOut r => r | WTerm _ _ _ ok => if ok : bool then Success else Enomem | _ => Success end.

Lemma un_next_result a n ep E w : un_next a n ep E = Some w -> result w = Success.
Proof. unfold un_next. destruct (arrays E !! a) as [l|]; simpl; [|done]. destruct (scan n (drop ep l) ep) as [[i b]|]; simpl; [|done]. intros H. injection H as <-. by destruct b. Qed.

Lemma c_next_result a i E w : c_next a i E = Some w -> result w = Success.
Proof. unfold c_next. destruct (load a i E) as [x|]; simpl; [|done]. intros H. injection H as <-. by destruct x. Qed.

Lemma wstep_result w E E' w' : wstep w E = Some (E', w') -> result w' = result w.
Proof.
  intros H. destruct w; simpl in H; try done.
  - destruct (store _ _ _ _); simpl in H; [|done]. injection H as <- <-. by destruct ok.
  - destruct (store _ _ _ _); simpl in H; [|done]. by injection H as <- <-.
  - by injection H as <- <-.
  - destruct (load _ _ _); simpl in H; [|done]. destruct (store _ _ _ _); simpl in H; [|done]. by injection H as <- <-.
  - case_match; [|by injection H as <- <-]. destruct (un_next _ _ _ _) as [w|] eqn:E1; simpl in H; [|done]. injection H as <- <-. by eapply un_next_result.
  - destruct (store _ _ _ _); simpl in H; [|done]. destruct (c_next _ _ _) as [w|] eqn:E1; simpl in H; [|done]. injection H as <- <-. by eapply c_next_result.
  - by injection H as <- <-.
  - by injection H as <- <-.
Qed.

(** ** Room for one more string *)

Record room (E : env) (req t : nat) (E1 : env) : Prop := {
  rm_mem : mem_ok E1;
  rm_environ : environ E1 = environ E;
  rm_counter : environ_counter E1 = environ_counter E;
  rm_head : head (environ_array_list E1) = Some t;
  rm_kept : forall a l, arrays E !! a = Some l -> arrays E1 !! a = Some l;
  rm_new : head (environ_array_list E) = Some t /\ E1 = E \/ arrays E !! t = None;
  rm_size : exists x, arrays E1 !! t = Some x /\ (req <= length x)%nat }.

Lemma ended_replicate n : (0 < n)%nat -> ended (replicate n None).
Proof. intros H. unfold ended. rewrite last_lookup, length_replicate. apply lookup_replicate. split; [done | lia]. Qed.

Lemma environ_new_array_spec E req m : mem_ok E -> match environ_new_array req m E with Some (t, E1) => (0 < req)%nat -> room E req t E1 | None => array_ok m && node_ok m = false end.
Proof.
  intros [M1 M2 M3]. unfold environ_new_array. set (n := match environ_array_list E with [] => _ | _ => _ end). assert (Hn : (req <= n)%nat) by (unfold n; destruct (environ_array_list E); [lia|]; case_match eqn:Hc; [lia | apply Nat.ltb_ge in Hc; lia]).
  destruct (array_ok m && node_ok m) eqn:E0; [|done]. intros Hreq. assert (K : forall a l, arrays E !! a = Some l -> (arrays E ++ [replicate n None]) !! a = Some l) by (intros a l H; by apply lookup_app_l_Some).
  assert (Hnew : (arrays E ++ [replicate n None]) !! length (arrays E) = Some (replicate n None)) by (rewrite lookup_app_r by lia; by rewrite Nat.sub_diag).
  split; simpl; auto; [|right; apply lookup_ge_None; lia | exists (replicate n None); rewrite length_replicate; done].
  split; simpl.
  - intros a l H. apply lookup_app_Some in H as [H|[H1 H2]]; [eauto|]. apply list_lookup_singleton_Some in H2 as [_ <-]. apply ended_replicate. lia.
  - intros a Ha. destruct (M2 a Ha) as [l Hl]. exists l. eauto.
  - intros a Ha. apply elem_of_cons in Ha as [->|Ha]; [by eexists|]. destruct (M3 a Ha) as [l Hl]. exists l. eauto.
Qed.

Lemma target_array_spec E req m : mem_ok E -> match target_array req m E with Some (t, E1) => (0 < req)%nat -> room E req t E1 | None => array_ok m && node_ok m = false end.
Proof.
  intros HM. pose proof (environ_new_array_spec E req m HM) as HN. unfold target_array. destruct (environ_array_list E) as [|e es] eqn:El; [done|]. destruct (Nat.leb_spec req (length (default [] (arrays E !! e)))) as [Hl|]; [|done].
  intros _. destruct (m_list E HM e ltac:(rewrite El; left)) as [x Hx]. rewrite Hx in Hl. split; auto; [by rewrite El | left; by rewrite El | by exists x].
Qed.

(** The copy. *)
Lemma copy_array_spec E i l t E1 np : mem_ok E -> room E (i + 2) t E1 -> map Some (strings E) = take i l -> i = length (strings E) -> environ E <> Some t -> clean (strings E) -> fresh np (strings E) ->
  mem_ok (copy_array i l t E1) /\ strings (copy_array i l t E1) = strings E /\ prepared (copy_array i l t E1) t i np.
Proof.
  intros HM [R1 R2 R3 R4 R5 R6 (x & Hx & Hs)] Ht Hi Hne Hc Hf. assert (Ha : arrays (copy_array i l t E1) !! t = Some (take i l ++ drop i x)) by (unfold copy_array; cbn [arrays]; by rewrite list_lookup_alter_eq, Hx).
  assert (Ho : forall b, b <> t -> arrays (copy_array i l t E1) !! b = arrays E1 !! b) by (intros b Hb; unfold copy_array; cbn [arrays]; by rewrite list_lookup_alter_ne).
  assert (Htl : length (take i l) = i) by (rewrite <- Ht, length_map; done). assert (Hlen : length (take i l ++ drop i x) = length x) by (rewrite length_app, length_drop; lia).
  assert (HM' : mem_ok (copy_array i l t E1)).
  { assert (Hsome : forall b, is_Some (arrays E1 !! b) -> is_Some (arrays (copy_array i l t E1) !! b)) by (intros b Hb; destruct (decide (b = t)) as [->|Hn]; [by eexists | by rewrite Ho]).
    destruct R1 as [M1 M2 M3]. split; [|intros b Hb; by apply Hsome, M2 | intros b Hb; by apply Hsome, M3]. intros b y Hb. destruct (decide (b = t)) as [->|Hn]; [|rewrite Ho in Hb by done; eauto]. rewrite Ha in Hb. injection Hb as <-.
    pose proof (M1 t x Hx) as He. unfold ended in *. rewrite !last_lookup, Hlen in *. rewrite lookup_app_r by lia. rewrite lookup_drop, Htl. rewrite <- He. f_equal. lia. }
  assert (Es : strings (copy_array i l t E1) = strings E).
  { unfold strings. change (environ (copy_array i l t E1)) with (environ E1). rewrite R2. destruct (environ E) as [a|] eqn:Ea; [|done]. rewrite Ho by congruence. destruct (m_environ E HM a Ea) as [y Hy]. by rewrite Hy, (R5 a y Hy). }
  split; [done|]. split; [done|]. exists (take i l ++ drop i x). rewrite Es, Hlen. split; [done|]. split; [by rewrite take_app_le, take_take, Nat.min_id, Ht by lia|]. split; [done|]. split; [lia|]. done.
Qed.

(** ** Effects on what getenv finds *)

Lemma find_app n L1 L2 : find n (L1 ++ L2) = match find n L1 with Some v => Some v | None => find n L2 end.
Proof. induction L1 as [|e L1 IH]; simpl; [done|]. destruct (value_of n e); [done | exact IH]. Qed.

Lemma find_others n L : find n (others n L) = None.
Proof. apply find_None. intros i e H. apply list_elem_of_lookup_2 in H. unfold others in H. by apply list_elem_of_filter in H as [H _]. Qed.

Lemma find_others_ne n n' L : regular n -> regular n' -> n' <> n -> find n' (others n L) = find n' L.
Proof.
  intros Hn Hn' Hne. unfold others. induction L as [|e L IH]; [done|]. destruct (decide (value_of n e = None)) as [E|E].
  - rewrite filter_cons_True by done. simpl. by rewrite IH.
  - rewrite filter_cons_False by done. rewrite IH. simpl. apply (value_of_regular n e Hn) in E. destruct (value_of n' e) as [v|] eqn:E'; [|done]. exfalso. apply Hne. assert (key e = Some n') by (apply (value_of_regular n' e Hn'); congruence). congruence.
Qed.

(** Different variables. *)
Lemma other_variable n n' e : regular n' -> key e = Some n -> n' <> n -> value_of n' e = None.
Proof. intros Hn' He Hne. destruct (value_of n' e) as [v|] eqn:E; [|done]. exfalso. assert (key e = Some n') by (apply (value_of_regular n' e Hn'); congruence). congruence. Qed.

Lemma find_insert n e np L i : regular n -> L !! i = Some e -> key e = Some n -> key np = Some n -> clean L ->
  find n (<[i := np]> L) = value_of n np /\ forall n', regular n' -> n' <> n -> find n' (<[i := np]> L) = find n' L.
Proof.
  intros Hn Hi He Hnp Hc. pose proof (proj2 (value_of_regular n np Hn) Hnp) as Hv. pose proof (proj2 (value_of_regular n e Hn) He) as Hve. pose proof (clean_others n L i e Hc Hi Hve) as Ho. clear Hc. revert i Hi Ho. induction L as [|x L IH]; intros [|i] Hi Ho; simpl in Hi; try done.
  - injection Hi as ->. simpl. split; [by destruct (value_of n np)|]. intros n' Hr Hne. by rewrite (other_variable n n' np), (other_variable n n' e).
  - simpl. rewrite (Ho x) by (left). destruct (IH i Hi) as [IH1 IH2]; [intros y Hy; apply Ho; by right|]. split; [done|]. intros n' Hr Hne. by rewrite (IH2 n' Hr Hne).
Qed.

Lemma find_fresh n np L : regular n -> key np = Some n -> find n L = None -> find n (L ++ [np]) = value_of n np /\ forall n', regular n' -> n' <> n -> find n' (L ++ [np]) = find n' L.
Proof.
  intros Hn Hnp HL. split; [rewrite find_app, HL; simpl; by destruct (value_of n np)|]. intros n' Hr Hne. rewrite find_app. simpl. rewrite (other_variable n n' np) by done. by destruct (find n' L).
Qed.

(** A string for [n] takes the place of the old one. *)
Definition updated (n np : text) (L L' : list text) : Prop := find n L' = value_of n np /\ forall n', regular n' -> n' <> n -> find n' L' = find n' L.

(** A call that has begun. *)
Record begins (E : env) (E' : env) (w : wpc) : Prop := { bg_mem : mem_ok E'; bg_ok : writer_ok E' w; bg_strings : strings E' = strings E }.

Lemma scan_find n l i b : ended l -> scan n l 0 = Some (i, b) ->
  (if b : bool then exists e, live l !! i = Some e /\ value_of n e <> None else i = length (live l) /\ find n (live l) = None).
Proof.
  intros He H. destruct (scan_drop n l 0 He ltac:(lia)) as (i' & b' & H' & Hi & Hb & Hj). rewrite drop_0, H in H'. injection H' as <- <-. destruct b; [done|]. split; [done|]. apply find_None. intros j e Hje. apply (Hj j e); [|done]. apply lookup_lt_Some in Hje. lia.
Qed.

Lemma fresh_find n np L : regular n -> key np = Some n -> find n L = None -> fresh np L.
Proof.
  intros Hn Hk HL. split; [congruence|]. intros e He Hke. apply list_elem_of_lookup in He as [i Hi]. pose proof (proj1 (find_None n L) HL i e Hi) as Hv. apply (proj2 (value_of_regular n e Hn)) in Hv; [done|]. by rewrite Hke.
Qed.

Lemma add_to_environ_spec n np ok replace m E : mem_ok E -> clean (strings E) -> regular n -> key np = Some n -> exists E' w, add_to_environ n np ok replace m E = Some (E', w) /\ begins E E' w /\
  (if replace || bool_decide (find n (strings E) = None) then result w = Success /\ updated n np (strings E) (final E' w) \/ result w = Enomem /\ final E' w = strings E /\ ok && (array_ok m && node_ok m) = false
   else result w = Success /\ final E' w = strings E).
Proof.
  intros HM Hc Hn Hk. pose proof (fun L HL => find_fresh n np L Hn Hk HL) as Hup.
  (* a new string, in the array of another or in a new one *)
  assert (Happ : forall i l, map Some (strings E) = take i l -> i = length (strings E) -> find n (strings E) = None -> (forall t, environ E = Some t -> environ_is_from_array_list t E && (i + 2 <=? length (default [] (arrays E !! t)))%nat = false) ->
    exists E' w, match target_array (i + 2) m E with Some (t, E1) => Some (copy_array i l t E1, WTerm t i np ok) | None => Some (E, WOut Enomem) end = Some (E', w) /\ begins E E' w /\
    (result w = Success /\ updated n np (strings E) (final E' w) \/ result w = Enomem /\ final E' w = strings E /\ ok && (array_ok m && node_ok m) = false)).
  { intros i l Ht Hi Hf Hmine. pose proof (target_array_spec E (i + 2) m HM) as HT. destruct (target_array (i + 2) m E) as [[t E1]|]; [|exists E, (WOut Enomem); split; [done|]; split; [by split|]; right; split; [done|]; split; [done | by rewrite HT, andb_false_r]].
    specialize (HT ltac:(lia)). assert (Hne : environ E <> Some t).
    { intros Et. specialize (Hmine t Et). destruct HT as [_ _ _ _ _ [[Hh ->]|Hnone] (x & Hx & Hs)]; [|destruct (m_environ E HM t Et); congruence]. unfold environ_is_from_array_list in Hmine. destruct (environ_array_list E) as [|e es]; simpl in Hh; [done|]. injection Hh as ->. rewrite Nat.eqb_refl, Hx in Hmine. simpl in Hmine. apply Nat.leb_gt in Hmine. lia. }
    destruct (copy_array_spec E i l t E1 np HM HT Ht Hi Hne Hc (fresh_find n np _ Hn Hk Hf)) as (H1 & H2 & H3). eexists _, _. split; [reflexivity|]. split; [by split|]. cbn [result final]. rewrite H2. destruct ok; [left; split; [done|]; by apply Hup | by right]. }
  unfold add_to_environ. destruct (environ E) as [a|] eqn:Ea.
  - destruct (m_environ E HM a Ea) as [l Hl]. pose proof (m_ended E HM a l Hl) as He. pose proof (strings_here E a l Ea Hl) as Es. rewrite Hl. simpl. destruct (scan n l 0) as [[i b]|] eqn:Hs; [|destruct (scan_drop n l 0 He ltac:(lia)) as (? & ? & H' & _); rewrite drop_0 in H'; congruence].
    pose proof (scan_find n l i b He Hs) as Hb. simpl. destruct b.
    + destruct Hb as (e & Hi & Hv). assert (Hke : key e = Some n) by (by apply value_of_regular). assert (Hfind : find n (strings E) <> None) by (rewrite Es; intros H; by apply (proj1 (find_None n _) H i e) in Hi). rewrite bool_decide_eq_false_2, orb_false_r by done.
      eexists _, _. split; [reflexivity|]. destruct replace; [|split; [by split | done]]. destruct ok; [|split; [by split | by right]].
      assert (Hi' : strings E !! i = Some e) by (by rewrite Es). split; [split; [done | | done]; left; split; [done|]; split; [done|]; exists e; split; [done | congruence]|]. left. split; [done|]. cbn [final]. destruct (Nat.ltb_spec i (length (strings E))); [|apply lookup_lt_Some in Hi'; lia]. by eapply find_insert.
    + destruct Hb as [Hi Hf]. rewrite <- Es in Hf, Hi. rewrite bool_decide_eq_true_2, orb_true_r by done. destruct (environ_is_from_array_list a E && (i + 2 <=? length l)%nat) eqn:Em.
      * apply andb_true_iff in Em as [Em1 Em2]. apply Nat.leb_le in Em2. eexists _, _. split; [reflexivity|]. split; [|cbn [result final]; destruct ok; [left; split; [done|]; by apply Hup | by right]]. split; [done | | done].
        exists l. destruct (ended_split l He) as [t Ht]. split; [done|]. split; [rewrite Ht at 1; rewrite <- Es, Hi; rewrite take_app_le by (rewrite length_map; lia); apply take_ge; rewrite length_map; lia|]. split; [done|]. split; [lia|]. split; [done|]. split; [by eapply fresh_find|].
        unfold environ_is_from_array_list in Em1. destruct (environ_array_list E) as [|e es]; [done|]. apply Nat.eqb_eq in Em1 as ->. done.
      * apply Happ; auto; [|intros t Et; injection Et as <-; by rewrite Hl]. destruct (ended_split l He) as [t Ht]. rewrite Ht at 1. rewrite <- Es, Hi, take_app_le by (rewrite length_map; lia). symmetry. apply take_ge. rewrite length_map. lia.
  - assert (Es : strings E = []) by (unfold strings; by rewrite Ea). rewrite bool_decide_eq_true_2, orb_true_r by (by rewrite Es). apply (Happ 0%nat []); rewrite ?Es; try done.
Qed.

(** A call, run to its end; getenv alone. *)
Fixpoint wrun (fuel : nat) (w : wpc) (E : env) : option (env * ret) :=
  match w, fuel with
  | WOut r, _ => Some (E, r)
  | _, O => None
  | _, S fuel => '(E', w') ← wstep w E; wrun fuel w' E'
  end.

Definition perform (fuel : nat) (c : call) (m : memory) (E : env) : option (env * ret) := '(E', w) ← wcall c m E; wrun fuel w E'.

Fixpoint grun (fuel : nat) (r : rpc) (E : env) : option (option text) :=
  match r, fuel with
  | ROut v, _ => Some v
  | _, O => None
  | _, S fuel => r' ← rstep r E; grun fuel r' E
  end.

Definition getenv (fuel : nat) (n : text) (E : env) : option (option text) := grun fuel (RCounter n) E.

Lemma wrun_advances E w : mem_ok E -> writer_ok E w -> exists fuel E', wrun fuel w E = Some (E', result w) /\ mem_ok E' /\ clean (strings E') /\ strings E' = final E w.
Proof.
  remember (remaining E w) as d eqn:Ed. revert E w Ed. induction (lt_wf d) as [d _ IH]. intros E w -> HM HW. destruct (wstep_advances E w HM HW) as [[r ->]|(E' & w' & Hs & [A1 A2 A3 A4])].
  - exists 0%nat, E. done.
  - destruct (IH _ A4 E' w' eq_refl A1 A2) as (fuel & E2 & H1 & H2 & H3 & H4). exists (S fuel), E2. rewrite <- (wstep_result _ _ _ _ Hs), <- A3. split; [|done]. destruct w; [discriminate | cbn [wrun]; rewrite Hs; exact H1 ..].
Qed.

(** The invariant between calls. *)
Record env_ok (E : env) : Prop := { ok_mem : mem_ok E; ok_clean : clean (strings E) }.

Lemma perform_begins E c m E1 w : wcall c m E = Some (E1, w) -> begins E E1 w -> exists fuel E', perform fuel c m E = Some (E', result w) /\ env_ok E' /\ strings E' = final E1 w.
Proof.
  intros Hc [B1 B2 _]. destruct (wrun_advances E1 w B1 B2) as (fuel & E' & H1 & H2 & H3 & H4). exists fuel, E'. unfold perform. rewrite Hc. simpl. by rewrite H1.
Qed.

Lemma unsetenv_spec n E : env_ok E -> exists w, unsetenv n E = Some (E, w) /\ begins E E w /\ result w = Success /\ final E w = others n (strings E).
Proof.
  intros [HM Hc]. unfold unsetenv. destruct (environ E) as [a|] eqn:Ea.
  - destruct (un_next_spec E a n 0 HM Ea ltac:(lia) Hc ltac:(lia)) as (w & Hw & Hok & Hf & _). rewrite Hw. simpl. exists w. split; [done|]. split; [by split|]. split; [by eapply un_next_result | done].
  - exists (WOut Success). split; [done|]. split; [by split|]. split; [done|]. simpl. unfold strings. by rewrite Ea.
Qed.

(** What a call does to the variables. *)
Definition unchanged (v v' : text -> option text) : Prop := forall n, v' n = v n.
Definition set_to (n : text) (x : option text) (v v' : text -> option text) : Prop := v' n = x /\ forall n', regular n' -> n' <> n -> v' n' = v n'.

Definition effect (c : call) (m : memory) (v v' : text -> option text) (r : ret) : Prop :=
  match c with
  | Setenv name value replace =>
      match valid_name name with
      | None => r = Einval /\ unchanged v v'
      | Some n => if replace || bool_decide (v n = None) then (r = Success /\ set_to n (Some value) v v') \/ (r = Enomem /\ unchanged v v' /\ string_ok m && (array_ok m && node_ok m) = false)
                  else r = Success /\ unchanged v v'
      end
  | Unsetenv name => match valid_name name with None => r = Einval /\ unchanged v v' | Some n => r = Success /\ set_to n None v v' end
  | Putenv string =>
      match split_name string with
      | Some n => (r = Success /\ set_to n (value_of n string) v v') \/ (r = Enomem /\ unchanged v v' /\ name_ok m && (array_ok m && node_ok m) = false)
      | None => r = Success /\ if bool_decide (string = []) then unchanged v v' else set_to string None v v'
      end
  | Clearenv => r = Success /\ forall n, v' n = None
  end.

Lemma valid_name_spec name n : valid_name name = Some n -> name = Some n /\ n <> [] /\ regular n.
Proof.
  unfold valid_name. destruct name as [x|]; [|done]. destruct (negb (bool_decide (x = [])) && negb (existsb (Z.eqb EQUALS) x)) eqn:E; [|done]. intros H. injection H as ->.
  apply andb_true_iff in E as [E1 E2]. apply negb_true_iff in E1, E2. apply bool_decide_eq_false in E1. done.
Qed.

Lemma no_equals s : split_name s = None -> regular s.
Proof. unfold regular. induction s as [|c s IH]; simpl; [done|]. destruct (Z.eqb_spec c EQUALS) as [->|Hc]; [done|]. destruct (split_name s); [done|]. intros _. rewrite IH by done. destruct (Z.eqb_spec EQUALS c); [congruence | done]. Qed.

Lemma set_others n L : regular n -> set_to n None (fun x => find x L) (fun x => find x (others n L)).
Proof. intros Hn. split; [apply find_others|]. intros n' Hr Hne. by apply find_others_ne. Qed.

(** getenv when nobody writes. *)
Lemma getenv_scan E n c a l d i : environ_counter E = c -> arrays E !! a = Some l -> ended l -> (d = length (live l) - i)%nat -> (i <= length (live l))%nat -> (forall j x, (j < i)%nat -> live l !! j = Some x -> value_of n x = None) ->
  grun (S (S d)) (REntry n c a i) E = Some (find n (live l)).
Proof.
  intros Hc Ha He. revert i. induction d as [|d IH]; intros i Hd Hi Hj.
  - assert (i = length (live l)) as -> by lia. simpl. unfold load. rewrite Ha. simpl. rewrite (live_end l He). simpl. rewrite Hc, Z.eqb_refl. simpl. f_equal. symmetry. apply find_None. intros j e Hje. apply (Hj j e); [by eapply lookup_lt_Some | done].
  - destruct (lookup_lt_is_Some_2 (live l) i ltac:(lia)) as [e Hie]. cbn [grun rstep]. unfold load. rewrite Ha. simpl. rewrite (live_lookup _ _ _ Hie). simpl. destruct (value_of n e) as [v|] eqn:Ev.
    + simpl. f_equal. symmetry. destruct (find n (live l)) as [w|] eqn:Ef; [|pose proof (proj1 (find_None n _) Ef i e Hie); congruence]. destruct (find_Some _ _ _ Ef) as (j & x & Hjx & Hvx & Hfirst).
      assert (~ (j < i)%nat) by (intros Hlt; pose proof (Hj j x Hlt Hjx); congruence). assert (~ (i < j)%nat) by (intros Hlt; pose proof (Hfirst i e Hlt Hie); congruence). assert (i = j) as -> by lia. congruence.
    + apply IH; [lia | lia|]. intros j x Hlt Hjx. destruct (decide (j = i)) as [->|]; [congruence | apply (Hj j x); [lia | done]].
Qed.

Lemma grun_step fuel r r' E : rstep r E = Some r' -> grun (S fuel) r E = grun fuel r' E.
Proof. intros H. destruct r; [discriminate | cbn [grun]; by rewrite H ..]. Qed.

Lemma getenv_alone E n : mem_ok E -> exists fuel, getenv fuel n E = Some (if bool_decide (n = []) then None else view E n).
Proof.
  intros HM. unfold getenv, view, strings. destruct (environ E) as [a|] eqn:Ea.
  - destruct (m_environ E HM a Ea) as [l Hl]. rewrite Hl. simpl. exists (S (S (S (S (length (live l)))))). rewrite (grun_step _ _ (REnviron n (environ_counter E))) by done.
    erewrite grun_step by (cbn [rstep]; rewrite Ea; reflexivity). case_bool_decide; [done|]. apply (getenv_scan E n _ a l (length (live l)) 0); try done; try lia. by eapply m_ended.
  - exists 2%nat. simpl. rewrite Ea. simpl. by case_bool_decide.
Qed.

Lemma effect_ext c m v v' v'' r : (forall n, v'' n = v' n) -> effect c m v v' r -> effect c m v v'' r.
Proof.
  intros H. assert (U : unchanged v v' -> unchanged v v'') by (intros K n; by rewrite H). assert (T : forall n x, set_to n x v v' -> set_to n x v v'') by (intros n x [K1 K2]; split; [by rewrite H | intros n' Hr Hn; rewrite H; auto]).
  destruct c; simpl; repeat case_match; intuition. rewrite H. auto.
Qed.

Lemma begins_out E r : env_ok E -> begins E E (WOut r).
Proof. intros [H1 H2]. by split. Qed.

Lemma add_effect n np ok replace m E x : env_ok E -> regular n -> key np = Some n -> value_of n np = x -> exists E1 w, add_to_environ n np ok replace m E = Some (E1, w) /\ begins E E1 w /\
  let v' := fun k => find k (final E1 w) in
  if replace || bool_decide (view E n = None) then (result w = Success /\ set_to n x (view E) v') \/ (result w = Enomem /\ unchanged (view E) v' /\ ok && (array_ok m && node_ok m) = false) else result w = Success /\ unchanged (view E) v'.
Proof.
  intros [HM Hc] Hr Hk Hx. destruct (add_to_environ_spec n np ok replace m E HM Hc Hr Hk) as (E1 & w & Ha & Hb & Hres). exists E1, w. split; [done|]. split; [done|]. cbv zeta. unfold view. case_match.
  - destruct Hres as [[H1 [H2 H3]]|(H1 & H2 & H3)]; [left | right]; (split; [done|]); [split; [by rewrite H2 | done] | split; [intros k; by rewrite H2 | done]].
  - destruct Hres as [H1 H2]. split; [done|]. intros k. by rewrite H2.
Qed.

Lemma unsetenv_effect n E : env_ok E -> regular n -> exists w, unsetenv n E = Some (E, w) /\ begins E E w /\ result w = Success /\ set_to n None (view E) (fun k => find k (final E w)).
Proof. intros HE Hr. destruct (unsetenv_spec n E HE) as (w & H1 & H2 & H3 & H4). exists w. rewrite H4. split; [done|]. split; [done|]. split; [done|]. by apply set_others. Qed.

(** The effect a call has when it has ended. *)
Lemma wcall_spec c m E : env_ok E -> exists E1 w, wcall c m E = Some (E1, w) /\ begins E E1 w /\ effect c m (view E) (fun k => find k (final E1 w)) (result w).
Proof.
  intros HE. destruct c as [name value replace|name|string|]; cbn [wcall effect].
  - destruct (valid_name name) as [n|] eqn:Hv; [|exists E, (WOut Einval); split; [done|]; split; [by apply begins_out | done]]. destruct (valid_name_spec _ _ Hv) as (_ & _ & Hr).
    destruct (add_effect n (n ++ EQUALS :: value) (string_ok m) replace m E (Some value) HE Hr (regular_key n Hr value) (value_of_app n value)) as (E1 & w & H1 & H2 & H3). by exists E1, w.
  - destruct (valid_name name) as [n|] eqn:Hv; [|exists E, (WOut Einval); split; [done|]; split; [by apply begins_out | done]]. destruct (valid_name_spec _ _ Hv) as (_ & _ & Hr).
    destruct (unsetenv_effect n E HE Hr) as (w & H1 & H2 & H3 & H4). by exists E, w.
  - destruct (split_name string) as [n|] eqn:Hs.
    + destruct (name_ok m); [|exists E, (WOut Enomem); split; [done|]; split; [by apply begins_out | by right]].
      destruct (add_effect n string true true m E (value_of n string) HE (split_regular _ _ Hs) Hs eq_refl) as (E1 & w & H1 & H2 & H3). exists E1, w. done.
    + case_bool_decide as Hn; [subst; exists E, (WOut Success); split; [done|]; split; [by apply begins_out | done]|]. pose proof (no_equals _ Hs) as Hr.
      destruct (unsetenv_effect string E HE Hr) as (w & H1 & H2 & H3 & H4). exists E, w. unfold valid_name. rewrite bool_decide_eq_false_2 by done. rewrite Hr. simpl. done.
  - destruct HE as [HM Hc]. destruct (environ E) as [a|] eqn:Ea; [|exists E, CEnviron; split; [done|]; split; [by split | done]].
    destruct (environ_is_from_array_list a E); [|exists E, CEnviron; split; [done|]; split; [by split | done]].
    destruct (m_environ E HM a Ea) as [l Hl]. destruct (c_next_spec E a 0 HM Ea) as (w & Hw & Hok & Hf & _); [rewrite Hl; pose proof (live_length l (m_ended E HM a l Hl)); simpl; lia | done | lia|].
    rewrite Hw. simpl. exists E, w. split; [done|]. split; [by split|]. rewrite Hf. split; [by eapply c_next_result | done].
Qed.

Lemma env_ok_init l n : clean l -> env_ok (mem (init l n)).
Proof.
  intros Hc. split; [|unfold strings; simpl; by rewrite live_app]. split; simpl.
  - intros a x Hx. apply list_lookup_singleton_Some in Hx as [_ <-]. unfold ended. by rewrite last_snoc.
  - intros a Ha. injection Ha as <-. by eexists.
  - intros a Ha. by apply elem_of_nil in Ha.
Qed.

(** C18: setenv, unsetenv, putenv and clearenv, run in any environment in which no variable occurs twice.  Every call ends, stays inside its arrays and
    keeps such an environment; setenv and putenv give the variable its new value or fail without an effect when there is no memory,
    unsetenv removes it, clearenv removes all, bad names are refused, and no other variable changes.  A getenv that runs alone returns exactly the
    value that [view] gives. *)
Theorem environ_refines c m E : env_ok E ->
  (exists fuel E' r, perform fuel c m E = Some (E', r) /\ env_ok E' /\ effect c m (view E) (view E') r) /\
  (forall n, exists fuel, getenv fuel n E = Some (if bool_decide (n = []) then None else view E n)).
Proof.
  intros HE. split; [|intros n; apply getenv_alone, HE]. destruct (wcall_spec c m E HE) as (E1 & w & H1 & H2 & H3). destruct (perform_begins E c m E1 w H1 H2) as (fuel & E' & P1 & P2 & P3).
  exists fuel, E', (result w). split; [done|]. split; [done|]. eapply effect_ext; [|exact H3]. intros n. unfold view. by rewrite P3.
Qed.

(** A=1, B=2 and setenv ("C", "3"). *)
Definition two_strings : list text := [[65; 61; 49]; [66; 61; 50]].
Definition plenty : memory := {| array_ok := true; node_ok := true; string_ok := true; name_ok := true |}.

Lemma environ_refines_witness : exists fuel E' r, perform fuel (Setenv (Some [67]) [51] false) plenty (mem (init two_strings 0)) = Some (E', r) /\ env_ok E' /\
  effect (Setenv (Some [67]) [51] false) plenty (view (mem (init two_strings 0))) (view E') r.
Proof. apply (environ_refines (Setenv (Some [67]) [51] false) plenty (mem (init two_strings 0))). apply env_ok_init. refine (bool_decide_eq_true_1 _ _). vm_compute. reflexivity. Defined.
