(* ===== verification/Getenv.v ===== *)
(** * getenv among writers

    getenv takes no lock.  Every result it returns is justified by the time it ran: a value by a moment at which the variable
    had it (or a setenv was storing it), NULL by a moment at which the variable did not exist.  The argument is the one of the comment in
    stdlib/getenv.c: while the counter stays the same at most one string has been moved, and a string that
    is moved is in the array twice. *)

From Stdlib Require Import ZArith.
From stdpp Require Import base list.
From S2P Require Import Prelude Environ.
#[local] Open Scope Z_scope.

(** ** Executions *)

(** The states of an execution, the last one first. *)
Inductive execution (l : list text) (nr : nat) : list state -> Prop :=
| exec_start : execution l nr [init l nr]
| exec_step c s s' h : execution l nr (s :: h) -> step c s = Some s' -> execution l nr (s' :: s :: h).

(** The name that reader [k] is looking for, while it is inside getenv. *)
Definition looking_for (r : rpc) : option text :=
  match r with ROut _ => None | RCounter n | REnviron n _ | REntry n _ _ _ | RCheck n _ => Some n end.
Definition inside (k : nat) (s : state) : bool := match readers s !! k with Some r => bool_decide (looking_for r <> None) | None => false end.

(** The states since the call began. *)
Fixpoint during (k : nat) (h : list state) : list state :=
  match h with [] => [] | s :: h => if inside k s then s :: during k h else [] end.

(** A setenv or putenv is storing a string with the value [v]. *)
Definition adding (n v : text) (s : state) : Prop := match writer s with WStore _ _ np => value_of n np = Some v | _ => False end.

Definition seen (k : nat) (h : list state) (n v : text) : Prop := exists s, s ∈ during k h /\ (view (mem s) n = Some v \/ adding n v s).
Definition gone (k : nat) (h : list state) (n : text) : Prop := exists s, s ∈ during k h /\ view (mem s) n = None.

(** ** What one step of a writer does to an array *)

Inductive change (E : env) (w : wpc) (E' : env) (w' : wpc) (a : nat) (l l' : list (option text)) : Prop :=
| ch_same : l' = l -> (forall name ep dp, w' = UMove a name ep dp -> ep = dp \/ environ_counter E <> environ_counter E') -> change E w E' w' a l l'
| ch_null q : l' = <[q := None]> l -> (q < length l)%nat -> strings E = [] \/ strings E' = [] \/ (length (live l) <= q)%nat -> (forall name ep dp, w' <> UMove a name ep dp) -> change E w E' w' a l l'
| ch_put q np : l' = <[q := Some np]> l -> w = WStore a q np -> w' = WPublish a -> environ E' = environ E -> change E w E' w' a l l'
| ch_move name ep dp x last : w = UMove a name ep dp -> l !! S dp = Some x -> l' = <[dp := x]> l -> w' = UCount a name ep dp last -> environ E' = environ E -> change E w E' w' a l l'.

(** An array that is not the current one of the environment is not going to be. *)
Definition settled (E : env) (a : nat) : Prop := forall b, environ E = Some b -> b <> a -> head (environ_array_list E) <> Some a.

Record writes (E : env) (w : wpc) (E' : env) (w' : wpc) : Prop := {
  wr_mem : mem_ok E';
  wr_ok : writer_ok E' w';
  wr_counter : environ_counter E' = environ_counter E \/ environ_counter E' = wrap 64 (environ_counter E + 1);
  wr_settled : forall a, is_Some (arrays E !! a) -> settled E a -> settled E' a;
  wr_array : forall a l, arrays E !! a = Some l -> settled E a -> exists l', arrays E' !! a = Some l' /\ change E w E' w' a l l' }.

Lemma store_arrays a i x E E' : store a i x E = Some E' -> exists l, arrays E !! a = Some l /\ (i < length l)%nat /\ environ E' = environ E /\ environ_array_list E' = environ_array_list E /\ environ_counter E' = environ_counter E /\ arrays E' = <[a := <[i := x]> l]> (arrays E).
Proof.
  unfold store. destruct (arrays E !! a) as [l|]; simpl; [|done]. destruct (l !! i) as [y|] eqn:Ei; simpl; [|done]. intros H. injection H as <-. exists l. split; [done|]. split; [by eapply lookup_lt_Some | done].
Qed.

Lemma settled_same E E' a : environ E' = environ E -> environ_array_list E' = environ_array_list E -> settled E a -> settled E' a.
Proof. unfold settled. intros -> ->. done. Qed.

(** A store into one array. *)
Lemma writes_store E w E' w' b q x l : arrays E !! b = Some l -> mem_ok E' -> writer_ok E' w' -> environ E' = environ E -> environ_array_list E' = environ_array_list E -> environ_counter E' = environ_counter E ->
  arrays E' = <[b := <[q := x]> l]> (arrays E) -> (forall a name ep dp, w' = UMove a name ep dp -> ep = dp) -> (settled E b -> change E w E' w' b l (<[q := x]> l)) -> writes E w E' w'.
Proof.
  intros Hb HM HW E1 E2 E3 E4 Hmv Hch. split; auto; [intros a _; by apply settled_same|]. intros a la Ha Hs. rewrite E4. destruct (decide (a = b)) as [->|Hn].
  - rewrite Hb in Ha. injection Ha as <-. exists (<[q := x]> l). split; [apply list_lookup_insert_eq; by eapply lookup_lt_Some | auto].
  - rewrite list_lookup_insert_ne by done. exists la. split; [done|]. apply ch_same; [done|]. intros name ep dp H. left. eauto.
Qed.

(** No store at all. *)
Lemma writes_none E w E' w' : mem_ok E' -> writer_ok E' w' -> arrays E' = arrays E -> environ_counter E' = environ_counter E \/ environ_counter E' = wrap 64 (environ_counter E + 1) -> (forall a, settled E a -> settled E' a) ->
  (forall a name ep dp, w' = UMove a name ep dp -> ep = dp \/ environ_counter E <> environ_counter E') -> writes E w E' w'.
Proof.
  intros HM HW E1 E2 E3 E4. split; auto. intros a l Ha _. rewrite E1. exists l. split; [done|]. apply ch_same; eauto.
Qed.

Lemma un_next_move a n ep E w : un_next a n ep E = Some w -> forall b m e d, w = UMove b m e d -> e = d.
Proof. unfold un_next. destruct (arrays E !! a); simpl; [|done]. destruct (scan _ _ _) as [[i f]|]; simpl; [|done]. intros H. injection H as <-. intros b m e d. destruct f; intros H; by try injection H as -> -> -> ->. Qed.

Lemma c_next_move a i E w : c_next a i E = Some w -> forall b m e d, w <> UMove b m e d.
Proof. unfold c_next. destruct (load a i E) as [x|]; simpl; [|done]. intros H. injection H as <-. by destruct x. Qed.

Lemma count_changes E : 0 <= environ_counter E < 2 ^ 64 - 1 -> environ_counter (count E) = environ_counter E + 1.
Proof. intros H. simpl. unfold wrap. apply Z.mod_small. lia. Qed.

Lemma strings_none E : environ E = None -> strings E = [].
Proof. intros H. unfold strings. by rewrite H. Qed.

Lemma wstep_writes E w E' w' : mem_ok E -> writer_ok E w -> 0 <= environ_counter E < 2 ^ 64 - 1 -> wstep w E = Some (E', w') -> writes E w E' w'.
Proof.
  intros HM HW Hc Hs. assert (HA : mem_ok E' /\ writer_ok E' w') by (destruct (wstep_advances E w HM HW) as [[r ->]|(E2 & w2 & H & [A1 A2 _ _])]; [done | rewrite Hs in H; by injection H as -> ->]). destruct HA as [HM' HW'].
  destruct w as [r|a i np ok|a i np|a|a name ep dp|a name ep dp lst|a i| |]; cbn [wstep] in Hs; [done | ..].
  - destruct (store a (S i) None E) as [E2|] eqn:Es; simpl in Hs; [|done]. injection Hs as <- <-. destruct (store_arrays _ _ _ _ _ Es) as (l & Hl & Hi & E1 & E3 & E4 & E5). eapply writes_store; eauto; [intros; by destruct ok|].
    intros Hset. eapply ch_null; eauto; [|by destruct ok]. destruct HW as (l2 & Hl2 & _ & Hlen & _ & _ & _ & Hh). destruct (environ E) as [b|] eqn:Ea; [|left; by apply strings_none].
    destruct (decide (b = a)) as [->|Hn]; [|by destruct (Hset b Ea Hn)]. right; right. rewrite (strings_here E a l Ea Hl) in Hlen. lia.
  - destruct (store a i (Some np) E) as [E2|] eqn:Es; simpl in Hs; [|done]. injection Hs as <- <-. destruct (store_arrays _ _ _ _ _ Es) as (l & Hl & Hi & E1 & E3 & E4 & E5). eapply writes_store; eauto; [done|]. intros _. by eapply ch_put.
  - injection Hs as <- <-. apply writes_none; auto; try done. destruct HW as [_ (l & Hl & _ & Hpub)]. intros c Hset b Hb Hne. simpl in Hb. injection Hb as <-. simpl. destruct Hpub as [H|H]; [exact (Hset a H Hne) | rewrite H; congruence].
  - destruct (load a (S dp) E) as [x|] eqn:Ex; simpl in Hs; [|done]. destruct (store a dp x E) as [E2|] eqn:Es; simpl in Hs; [|done]. injection Hs as <- <-. destruct (store_arrays _ _ _ _ _ Es) as (l & Hl & Hi & E1 & E3 & E4 & E5).
    eapply writes_store; eauto; [done|]. intros _. eapply ch_move; eauto. unfold load in Ex. by rewrite Hl in Ex.
  - assert (Hcc : environ_counter E <> environ_counter (count E)) by (rewrite count_changes by done; lia). destruct lst.
    + destruct (un_next a name ep (count E)) as [w2|] eqn:Eu; simpl in Hs; [|done]. injection Hs as <- <-. apply writes_none; auto.
    + injection Hs as <- <-. apply writes_none; auto.
  - destruct (store a i None E) as [E2|] eqn:Es; simpl in Hs; [|done]. destruct (c_next a (S i) E2) as [w2|] eqn:Eu; simpl in Hs; [|done]. injection Hs as <- <-. destruct (store_arrays _ _ _ _ _ Es) as (l & Hl & Hi & E1 & E3 & E4 & E5).
    destruct HW as (Ea & _ & _ & H0). eapply writes_store; eauto; [intros b m e d H; by destruct (c_next_move _ _ _ _ Eu b m e d)|]. intros _. eapply ch_null; eauto using c_next_move. destruct i as [|i]; [|left; apply H0; lia].
    right; left. rewrite (strings_here E2 a (<[0%nat := None]> l)), live_insert_None by (try congruence; rewrite ?E5; try apply list_lookup_insert_eq; try (by eapply lookup_lt_Some); done). done.
  - injection Hs as <- <-. apply writes_none; auto; done.
  - injection Hs as <- <-. apply writes_none; auto; done.
Qed.

(** Calls up to their first store. *)
Lemma copy_writes E i l t E1 w w' : room E (i + 2) t E1 -> environ E <> Some t -> (environ E = None -> i = 0%nat /\ l = []) -> mem_ok (copy_array i l t E1) -> writer_ok (copy_array i l t E1) w' -> (forall a name ep dp, w' <> UMove a name ep dp) ->
  writes E w (copy_array i l t E1) w'.
Proof.
  intros [R1 R2 R3 R4 R5 R6 R7] Hne Hnone HM HW Hmv. assert (Hsame : forall a x, settled E a -> arrays E !! a = Some x -> arrays (copy_array i l t E1) !! a = Some x).
  { intros a x Hset Ha. unfold copy_array. cbn [arrays]. destruct (decide (t = a)) as [->|Hn]; [|by rewrite list_lookup_alter_ne, (R5 a x Ha)]. destruct R6 as [[Hh ->]|Hno]; [|congruence].
    rewrite list_lookup_alter_eq, Ha. simpl. destruct (environ E) as [b|] eqn:Eb; [by destruct (Hset b Eb ltac:(congruence))|]. destruct (Hnone eq_refl) as [-> ->]. by rewrite drop_0. }
  split; auto.
  - intros a [x Hx] Hset b Hb Hba. simpl in *. rewrite R4. intros H. injection H as ->. destruct R6 as [[Hh ->]|Hno]; [|congruence]. by apply (Hset b Hb Hba).
  - intros a x Ha Hset. exists x. split; [by apply Hsame|]. apply ch_same; [done|]. intros name ep dp H. by destruct (Hmv a name ep dp).
Qed.

Lemma writes_same E w w' : mem_ok E -> writer_ok E w' -> (forall a name ep dp, w' = UMove a name ep dp -> ep = dp) -> writes E w E w'.
Proof. intros HM HW Hmv. apply writes_none; auto. intros a name ep dp H. left. eauto. Qed.

Lemma add_writes n np ok replace m E E' w w' : mem_ok E -> mem_ok E' -> writer_ok E' w' -> add_to_environ n np ok replace m E = Some (E', w') -> writes E w E' w'.
Proof.
  intros HM HM' HW' H. unfold add_to_environ in H.
  assert (Happ : forall i l, (forall t, environ E = Some t -> environ_is_from_array_list t E && (i + 2 <=? length (default [] (arrays E !! t)))%nat = false) -> (environ E = None -> i = 0%nat /\ l = []) ->
    match target_array (i + 2) m E with Some (t, E1) => Some (copy_array i l t E1, WTerm t i np ok) | None => Some (E, WOut Enomem) end = Some (E', w') -> writes E w E' w').
  { intros i l Hmine Hnone Ht. pose proof (target_array_spec E (i + 2) m HM) as HT. destruct (target_array (i + 2) m E) as [[t E1]|]; injection Ht as <- <-; [|by apply writes_same].
    specialize (HT ltac:(lia)). apply copy_writes; auto; try done. intros Et. specialize (Hmine t Et). destruct HT as [_ _ _ _ _ [[Hh ->]|Hno] (x & Hx & Hsz)]; [|destruct (m_environ E HM t Et); congruence].
    unfold environ_is_from_array_list in Hmine. destruct (environ_array_list E) as [|e es]; simpl in Hh; [done|]. injection Hh as ->. rewrite Nat.eqb_refl, Hx in Hmine. simpl in Hmine. apply Nat.leb_gt in Hmine. lia. }
  destruct (environ E) as [a|] eqn:Ea; [|by apply (Happ 0%nat [])]. destruct (arrays E !! a) as [l|] eqn:Hl; simpl in H; [|done]. destruct (scan n l 0) as [[i b]|]; simpl in H; [|done]. destruct b.
  - injection H as <- <-. apply writes_same; auto. intros; by repeat case_match.
  - destruct (environ_is_from_array_list a E && (i + 2 <=? length l)%nat) eqn:Em; [injection H as <- <-; by apply writes_same|]. apply (Happ i l); auto; [|done]. intros t Et. injection Et as <-. by rewrite Hl.
Qed.

Lemma wcall_writes c m E E' w w' : env_ok E -> wcall c m E = Some (E', w') -> writes E w E' w'.
Proof.
  intros HE H. destruct (wcall_spec c m E HE) as (E1 & w1 & H1 & [B1 B2 _] & _). rewrite H in H1. injection H1 as <- <-. destruct HE as [HM Hc].
  assert (Hun : forall n, unsetenv n E = Some (E', w') -> writes E w E' w').
  { intros n Hu. unfold unsetenv in Hu. destruct (environ E) as [a|]; [|injection Hu as <- <-; by apply writes_same]. destruct (un_next a n 0 E) as [w2|] eqn:Eu; simpl in Hu; [|done]. injection Hu as <- <-. apply writes_same; eauto using un_next_move. }
  destruct c as [name value replace|name|string|]; cbn [wcall] in H.
  - destruct (valid_name name); [by eapply add_writes|]. injection H as <- <-. by apply writes_same.
  - destruct (valid_name name); [eauto|]. injection H as <- <-. by apply writes_same.
  - destruct (split_name string); [destruct (name_ok m); [by eapply add_writes|]; injection H as <- <-; by apply writes_same|]. destruct (valid_name (Some string)); [eauto|]. injection H as <- <-. by apply writes_same.
  - destruct (environ E) as [a|]; [|injection H as <- <-; by apply writes_same]. destruct (environ_is_from_array_list a E); [|injection H as <- <-; by apply writes_same]. destruct (c_next a 0 E) as [w2|] eqn:Eu; simpl in H; [|done]. injection H as <- <-. apply writes_same; auto.
    intros b n' e d Hw. by destruct (c_next_move _ _ _ _ Eu b n' e d).
Qed.

(** * The invariant of a reader *)

(** A string at index [j] that the writer is not about to overwrite with its copy still to come. *)
Definition safe (w : wpc) (a j : nat) : Prop := forall name ep dp, w = UMove a name ep dp -> (ep < dp)%nat -> j <> dp.

(** Everything that getenv can still reach from index [i] has been there during the call. *)
Definition reaches (l : list (option text)) (i j : nat) : Prop := (i <= j)%nat /\ forall q, (i <= q <= j)%nat -> exists x, l !! q = Some (Some x).
Definition known (k : nat) (h : list state) (n : text) (l : list (option text)) (i : nat) : Prop := forall j e v, reaches l i j -> l !! j = Some (Some e) -> value_of n e = Some v -> seen k h n v.

(** The variable was missing, or the counter has changed, or its string is still ahead. *)
Definition ahead (k : nat) (h : list state) (n : text) (c : Z) (s : state) (a i : nat) (l : list (option text)) : Prop :=
  gone k h n \/ c < environ_counter (mem s) \/ exists j e, (i <= j)%nat /\ live l !! j = Some e /\ value_of n e <> None /\ safe (writer s) a j.

Definition reader_ok (k : nat) (s : state) (h : list state) : Prop :=
  match readers s !! k with
  | Some (REnviron n c) => c <= environ_counter (mem s)
  | Some (REntry n c a i) => n <> [] /\ c <= environ_counter (mem s) /\ settled (mem s) a /\ exists l, arrays (mem s) !! a = Some l /\ (i < length l)%nat /\ known k (s :: h) n l i /\ ahead k (s :: h) n c s a i l
  | Some (RCheck n c) => n <> [] /\ c <= environ_counter (mem s) /\ (gone k (s :: h) n \/ c < environ_counter (mem s))
  | _ => True
  end.

Record sound (s : state) (h : list state) : Prop := {
  sd_mem : mem_ok (mem s);
  sd_writer : writer_ok (mem s) (writer s);
  sd_counter : 0 <= environ_counter (mem s) <= Z.of_nat (length h);
  sd_readers : forall k, reader_ok k s h }.

(** ** History only grows *)

Lemma during_step k s s' h : inside k s' = true -> forall x, x ∈ during k (s :: h) -> x ∈ during k (s' :: s :: h).
Proof. intros H x Hx. cbn [during]. rewrite H. right. exact Hx. Qed.

Lemma during_now k s h : inside k s = true -> s ∈ during k (s :: h).
Proof. intros H. cbn [during]. rewrite H. left. Qed.

Lemma seen_step k s s' h n v : inside k s' = true -> seen k (s :: h) n v -> seen k (s' :: s :: h) n v.
Proof. intros H (x & Hx & Hv). exists x. split; [by apply during_step | done]. Qed.

Lemma gone_step k s s' h n : inside k s' = true -> gone k (s :: h) n -> gone k (s' :: s :: h) n.
Proof. intros H (x & Hx & Hv). exists x. split; [by apply during_step | done]. Qed.

Lemma inside_entry k s n c a i : readers s !! k = Some (REntry n c a i) -> inside k s = true.
Proof. unfold inside. intros ->. done. Qed.

Lemma gone_now k s h n : inside k s = true -> view (mem s) n = None -> gone k (s :: h) n.
Proof. intros H Hv. exists s. split; [by apply during_now | done]. Qed.

(** ** One step of a writer *)
Section Write.
Context (s s' : state) (h : list state) (k : nat) (n : text) (c : Z) (a i : nat) (l l' : list (option text)).
Hypothesis (HM : mem_ok (mem s)) (HW : writer_ok (mem s) (writer s)) (Hl : arrays (mem s) !! a = Some l) (Hset : settled (mem s) a) (Hl' : arrays (mem s') !! a = Some l')
  (Hin : inside k s = true) (Hin' : inside k s' = true) (Hch : change (mem s) (writer s) (mem s') (writer s') a l l').

Lemma known_write : known k (s :: h) n l i -> known k (s' :: s :: h) n l' i.
Proof.
  intros HK j e v [Hij Hr] He Hv. apply seen_step; [done|]. destruct Hch as [-> _|q -> Hq _ _|q np -> Hw _ _|name ep dp x last Hw Hx -> _ _].
  - eapply HK; eauto. by split.
  - assert (Hne : forall p, (i <= p <= j)%nat -> p <> q) by (intros p Hp ->; destruct (Hr q Hp) as [y Hy]; rewrite list_lookup_insert_eq in Hy by done; done).
    assert (Hold : forall p, (i <= p <= j)%nat -> <[q := None]> l !! p = l !! p) by (intros p Hp; apply list_lookup_insert_ne; intros ->; by apply (Hne p Hp)).
    eapply (HK j e v); [split; [done|]; intros p Hp; rewrite <- (Hold p Hp); auto | rewrite <- (Hold j); [done | lia] | done].
  - destruct (decide (j = q)) as [->|Hjq].
    + pose proof (lookup_lt_Some _ _ _ He) as Hlt. rewrite length_insert in Hlt. rewrite list_lookup_insert_eq in He by done. injection He as <-. exists s. split; [by apply during_now|]. right. unfold adding. by rewrite Hw.
    + rewrite list_lookup_insert_ne in He by done. eapply (HK j e v); [|done|done]. split; [done|]. intros p Hp. destruct (decide (p = q)) as [->|Hpq]; [|destruct (Hr p Hp) as [y Hy]; rewrite list_lookup_insert_ne in Hy by done; eauto].
      rewrite Hw in HW. destruct HW as [(Ea & _ & e0 & He0 & _)|[_ (l2 & Hl2 & Hn)]].
      * rewrite (strings_here _ a l Ea Hl) in He0. apply live_lookup in He0. eauto.
      * exfalso. rewrite Hl in Hl2. injection Hl2 as <-. destruct (Hr (S q) ltac:(lia)) as [y Hy]. rewrite list_lookup_insert_ne in Hy by lia. congruence.
  - rewrite Hw in HW. destruct HW as (Ea & Hd & _). rewrite (strings_here _ a l Ea Hl) in Hd. destruct (lookup_lt_is_Some_2 (live l) dp ltac:(lia)) as [y Hy]. apply live_lookup in Hy. pose proof (lookup_lt_Some _ _ _ Hy) as Hlt.
    assert (Hold : forall p, (i <= p <= j)%nat -> exists z, l !! p = Some (Some z)) by (intros p Hp; destruct (decide (p = dp)) as [->|Hn]; [eauto|]; destruct (Hr p Hp) as [z Hz]; rewrite list_lookup_insert_ne in Hz by done; eauto).
    destruct (decide (j = dp)) as [->|Hj]; [|rewrite list_lookup_insert_ne in He by done; eapply (HK j e v); [by split | done | done]]. rewrite list_lookup_insert_eq in He by done. injection He as ->.
    eapply (HK (S dp) e v); [|done|done]. split; [lia|]. intros p Hp. destruct (decide (p = S dp)) as [->|]; [eauto | apply Hold; lia].
Qed.

(** A list in which one string is replaced by one for another variable. *)
Lemma find_gone L q e x : clean L -> L !! q = Some e -> value_of n e <> None -> value_of n x = None -> find n (<[q := x]> L) = None.
Proof using Type.
  clear. intros Hc Hq Hv Hx. apply find_None. intros p y Hp. destruct (decide (p = q)) as [->|Hn]; [rewrite list_lookup_insert_eq in Hp by (by eapply lookup_lt_Some); by injection Hp as <-|].
  rewrite list_lookup_insert_ne in Hp by done. apply (clean_others n L q e Hc Hq Hv). apply list_elem_of_lookup. destruct (decide (p < q)%nat); [exists p; by rewrite list_lookup_delete_lt | exists (pred p)].
  rewrite list_lookup_delete_ge by lia. by replace (S (pred p)) with p by lia.
Qed.

Lemma gone_before : strings (mem s) = [] -> gone k (s' :: s :: h) n.
Proof using Hin Hin'. intros H. apply gone_step; [done|]. apply gone_now; [done|]. unfold view. by rewrite H. Qed.

Lemma gone_after : find n (strings (mem s')) = None -> gone k (s' :: s :: h) n.
Proof using Hin'. intros H. by apply gone_now. Qed.

Lemma ahead_write : c <= environ_counter (mem s) -> environ_counter (mem s') = environ_counter (mem s) \/ environ_counter (mem s') = environ_counter (mem s) + 1 -> ahead k (s :: h) n c s a i l -> ahead k (s' :: s :: h) n c s' a i l'.
Proof using All.
  intros Hc Hcnt [HG|[HG|(j & e & Hij & He & Hv & Hsafe)]]; [left; by apply gone_step | right; left; lia|].
  assert (Hend : ended l) by (by eapply m_ended). unfold ahead.
  destruct Hch as [-> Hmv|q -> Hq Hcase Hmv|q np -> Hw Hw' Henv|name ep dp x last Hw Hx -> Hw' Henv].
  - destruct Hcnt as [Hcnt|Hcnt]; [|right; left; lia]. right; right. exists j, e. split; [done|]. split; [done|]. split; [done|]. intros name ep dp H Hlt. destruct (Hmv name ep dp H); [lia | congruence].
  - destruct Hcase as [H|[H|H]]; [left; by apply gone_before | left; apply gone_after; by rewrite H|]. right; right. exists j, e. split; [done|]. rewrite live_insert_None, take_ge by done. split; [done|]. split; [done|]. intros name ep dp Hw. by destruct (Hmv name ep dp).
  - assert (Hsafe' : forall p, safe (writer s') a p) by (intros p name ep dp; by rewrite Hw'). pose proof HW as HW2. rewrite Hw in HW2. destruct HW2 as [(Ea & Hcl & e0 & He0 & _)|[(l2 & Hl2 & _ & Hlen & _ & _ & _ & Hh) (l3 & Hl3 & Hn)]].
    + rewrite (strings_here _ a l Ea Hl) in Hcl, He0. pose proof (lookup_lt_Some _ _ _ He0) as Hlt. pose proof (live_insert_Some l q np Hlt) as Hlive. destruct (decide (j = q)) as [->|Hjq].
      * destruct (value_of n np) as [v|] eqn:Ev; [right; right; exists q, np; rewrite Hlive, list_lookup_insert_eq by done; split; [done|]; split; [done|]; split; [congruence | done]|].
        left. apply gone_after. rewrite (strings_here _ a _ (eq_trans Henv Ea) Hl'), Hlive. by apply (find_gone _ q e).
      * right; right. exists j, e. rewrite Hlive, list_lookup_insert_ne by done. done.
    + rewrite Hl in Hl2, Hl3. injection Hl2 as <-. injection Hl3 as <-. destruct (environ (mem s)) as [b|] eqn:Eb; [|left; apply gone_before; by apply strings_none]. destruct (decide (b = a)) as [->|Hn']; [|by destruct (Hset b Eb Hn')].
      rewrite (strings_here _ a l Eb Hl) in Hlen. subst q. right; right. exists j, e. rewrite live_insert_end by (try done; by apply live_end). split; [done|]. split; [by apply lookup_app_l_Some | done].
  - assert (Hsafe' : forall p, safe (writer s') a p) by (intros p name' ep' dp'; by rewrite Hw'). pose proof HW as HW2. rewrite Hw in HW2. destruct HW2 as (Ea & Hd & _ & _ & Hcase). rewrite (strings_here _ a l Ea Hl) in Hd, Hcase. pose proof (live_length l Hend) as Hlen.
    pose proof (lookup_lt_Some _ _ _ He) as Hj. assert (Hs' : strings (mem s') = live (<[dp := x]> l)) by (apply (strings_here _ a); congruence).
    destruct (decide (S dp = length (live l))) as [Eq|Ne].
    + rewrite Eq, (live_end l Hend) in Hx. injection Hx as <-. rewrite live_insert_None in Hs' |- * by lia. destruct (decide (j = dp)) as [->|Hjd]; [|right; right; exists j, e; rewrite lookup_take_lt by lia; done].
      destruct Hcase as [[-> Hcl]|[Hlt _]]; [|by destruct (Hsafe name ep dp Hw Hlt)]. left. apply gone_after. rewrite Hs', <- (delete_last (live l) ep Eq). apply find_None. intros p y Hp. eapply clean_others; eauto. by eapply list_elem_of_lookup_2.
    + destruct (lookup_lt_is_Some_2 (live l) (S dp) ltac:(lia)) as [y Hy]. pose proof (live_lookup _ _ _ Hy) as Hxy. rewrite Hx in Hxy. injection Hxy as ->. rewrite live_insert_Some in Hs' |- * by lia.
      destruct (decide (j = dp)) as [->|Hjd]; [|right; right; exists j, e; rewrite list_lookup_insert_ne by done; done]. destruct Hcase as [[-> Hcl]|[Hlt _]]; [|by destruct (Hsafe name ep dp Hw Hlt)].
      left. apply gone_after. rewrite Hs'. apply (find_gone _ ep e); auto. eapply (clean_others n (live l) ep e Hcl He Hv). apply list_elem_of_lookup. exists ep. rewrite list_lookup_delete_ge by lia. done.
Qed.
End Write.

(** ** The array at one moment *)

(** A variable occurs once, or twice in a row while strings are moved. *)
Definition once (L : list text) : Prop := clean L \/ exists g, (0 < g)%nat /\ L !! pred g = L !! g /\ clean (delete g L).

Lemma writer_once E w : writer_ok E w -> once (strings E).
Proof.
  destruct w as [r|a i np ok|a i np|a|a name ep dp|a name ep dp last|a i| |]; cbn [writer_ok]; try (intros H; left; exact H).
  - intros (l & _ & _ & _ & _ & H & _). by left.
  - intros [(_ & H & _)|[(l & _ & _ & _ & _ & H & _) _]]; by left.
  - intros [H _]. by left.
  - intros (_ & Hd & Hc & _ & [[_ H]|[Hlt He]]); [by left|]. right. exists dp. split; [lia | done].
  - intros (_ & Hd & H). destruct last; [left; apply H|]. destruct H as (_ & He & Hc & _). right. exists (S dp). split; [lia | done].
  - intros (_ & H & _). by left.
Qed.

Lemma same_key n e e' v v' : value_of n e = Some v -> value_of n e' = Some v' -> exists k, key e = Some k /\ key e' = Some k.
Proof.
  intros H H'. rewrite (value_of_key _ _ _ H), (value_of_key _ _ _ H'). destruct (split_name (n ++ [EQUALS])) as [k|] eqn:E; [by exists k | by destruct (split_app n)].
Qed.

Lemma once_find L n j e v : once L -> L !! j = Some e -> value_of n e = Some v -> find n L = Some v.
Proof.
  intros HL Hj Hv. destruct (find n L) as [v'|] eqn:Ef; [|pose proof (proj1 (find_None n L) Ef j e Hj); congruence]. destruct (find_Some _ _ _ Ef) as (p & e' & Hp & Hv' & Hfirst). destruct (same_key n e e' v v' Hv Hv') as (key & K1 & K2).
  destruct HL as [Hc|(g & Hg & Hdup & Hc)]; [pose proof (clean_unique L j p e e' key Hc Hj Hp K1 K2) as ->; congruence|].
  assert (Hpg : p <> g) by (intros ->; rewrite Hp in Hdup; pose proof (Hfirst (pred g) e' ltac:(lia) Hdup); congruence).
  assert (Hdel : forall q x, q <> g -> L !! q = Some x -> delete g L !! (if decide (q < g)%nat then q else pred q) = Some x).
  { intros q x Hq Hx. destruct (decide (q < g)%nat); [by rewrite list_lookup_delete_lt|]. rewrite list_lookup_delete_ge by lia. by replace (S (pred q)) with q by lia. }
  assert (exists q, q <> g /\ L !! q = Some e) as (q & Hq & Hqe) by (destruct (decide (j = g)) as [->|]; [exists (pred g); split; [lia | congruence] | by exists j]).
  pose proof (clean_unique _ _ _ _ _ _ Hc (Hdel q e Hq Hqe) (Hdel p e' Hpg Hp) K1 K2) as Heq. assert (q = p) as -> by (destruct (decide (q < g)%nat), (decide (p < g)%nat); lia). congruence.
Qed.

(** ** The steps of a reader *)

(** A scan begins. *)
Lemma entry_start k s h n c a : mem_ok (mem s) -> writer_ok (mem s) (writer s) -> inside k s = true -> environ (mem s) = Some a ->
  exists l, arrays (mem s) !! a = Some l /\ (0 < length l)%nat /\ known k (s :: h) n l 0 /\ ahead k (s :: h) n c s a 0 l.
Proof.
  intros HM HW Hin Ea. destruct (m_environ _ HM a Ea) as [l Hl]. pose proof (m_ended _ HM a l Hl) as Hend. pose proof (live_length l Hend) as Hlen. pose proof (strings_here _ a l Ea Hl) as Es. pose proof (writer_once _ _ HW) as Hon. rewrite Es in Hon.
  exists l. split; [done|]. split; [lia|]. split.
  - intros j e v [_ Hr] He Hv. exists s. split; [by apply during_now|]. left. unfold view. rewrite Es. assert (Hj : live l !! j = Some e).
    { apply live_lookup_iff; auto. destruct (decide (j <= length (live l))%nat) as [|Hn]; [done|]. exfalso. destruct (Hr (length (live l)) ltac:(lia)) as [y Hy]. rewrite (live_end l Hend) in Hy. done. }
    by eapply once_find.
  - destruct (view (mem s) n) as [v|] eqn:Ev; [|left; by apply gone_now]. right; right. unfold view in Ev. rewrite Es in Ev. destruct (find_Some _ _ _ Ev) as (p & e & Hp & Hv & Hfirst). exists p, e. split; [lia|]. split; [done|]. split; [congruence|].
    intros name ep dp Hw Hlt ->. rewrite Hw in HW. destruct HW as (_ & _ & _ & _ & [[Heq _]|[_ Hdup]]); [lia|]. rewrite Es, Hp in Hdup. pose proof (Hfirst (pred dp) e ltac:(lia) Hdup). congruence.
Qed.

Lemma not_last l i e : ended l -> l !! i = Some (Some e) -> (S i < length l)%nat.
Proof. intros H Hi. pose proof (lookup_lt_Some _ _ _ Hi). destruct (decide (S i = length l)) as [Eq|]; [|lia]. unfold ended in H. rewrite last_lookup, <- Eq in H. simpl in H. congruence. Qed.

Lemma reader_run k s h r r' : sound s h -> readers s !! k = Some r -> rstep r (mem s) = Some r' ->
  reader_ok k {| mem := mem s; writer := writer s; readers := <[k := r']> (readers s) |} (s :: h).
Proof.
  intros [HM HW HC HR] Hk Hs. set (s' := {| mem := mem s; writer := writer s; readers := <[k := r']> (readers s) |}). assert (Hk' : readers s' !! k = Some r') by (apply list_lookup_insert_eq; by eapply lookup_lt_Some).
  specialize (HR k). unfold reader_ok in *. rewrite Hk in HR. rewrite Hk'. assert (Hin' : looking_for r' <> None -> inside k s' = true) by (intros H; unfold inside; rewrite Hk'; by apply bool_decide_eq_true_2).
  destruct r as [v|n|n c|n c a i|n c]; cbn [rstep] in Hs.
  - done.
  - injection Hs as <-. simpl. lia.
  - injection Hs as <-. destruct (environ (mem s)) as [a|] eqn:Ea; [|done]. case_bool_decide as Hn; [done|]. split; [done|]. split; [done|]. split; [intros b Hb Hba; simpl in Hb; congruence|]. apply (entry_start k s' (s :: h) n c a HM HW (Hin' ltac:(done)) Ea).
  - destruct HR as (Hn & Hc & Hset & l & Hl & Hi & HK & HA). unfold load in Hs. rewrite Hl in Hs. simpl in Hs. destruct (l !! i) as [x|] eqn:Hx; simpl in Hs; [|done]. injection Hs as <-. pose proof (m_ended _ HM a l Hl) as Hend. destruct x as [e|].
    + destruct (value_of n e) as [v|] eqn:Ev; [done|]. specialize (Hin' ltac:(done)). split; [done|]. split; [done|]. split; [done|]. exists l. split; [done|]. split; [by eapply not_last|]. split.
      * intros j e' v [Hj Hr] He Hv. apply seen_step; [done|]. eapply (HK j e' v); [|done|done]. split; [lia|]. intros q Hq. destruct (decide (q = i)) as [->|]; [eauto | apply Hr; lia].
      * destruct HA as [HA|[HA|(j & e' & Hj & He & Hv & Hsafe)]]; [left; by apply gone_step | by right; left|]. right; right. exists j, e'. split; [|done]. destruct (decide (j = i)) as [->|]; [|lia]. apply live_lookup in He. rewrite Hx in He. congruence.
    + specialize (Hin' ltac:(done)). split; [done|]. split; [done|]. destruct HA as [HA|[HA|(j & e' & Hj & He & Hv & Hsafe)]]; [left; by apply gone_step | by right|]. exfalso. pose proof (lookup_lt_Some _ _ _ He) as Hlt. destruct (lookup_lt_is_Some_2 (live l) i ltac:(lia)) as [y Hy]. apply live_lookup in Hy. congruence.
  - injection Hs as <-. by destruct (environ_counter (mem s) =? c).
Qed.

(** Steps of others. *)
Lemma reader_other k s s' h : mem s' = mem s -> writer s' = writer s -> readers s' !! k = readers s !! k -> reader_ok k s h -> reader_ok k s' (s :: h).
Proof.
  intros E1 E2 E3 HR. unfold reader_ok, ahead in *. rewrite E3. destruct (readers s !! k) as [r|] eqn:Hk; [|done]. assert (Hin : looking_for r <> None -> inside k s' = true) by (intros H; unfold inside; rewrite E3; by apply bool_decide_eq_true_2).
  destruct r as [v|n|n c|n c a i|n c]; rewrite ?E1, ?E2; try done; specialize (Hin ltac:(done)).
  - destruct HR as (Hn & Hc & Hset & l & Hl & Hi & HK & HA). split; [done|]. split; [done|]. split; [done|]. exists l. split; [done|]. split; [done|]. split; [intros j e v H1 H2 H3; apply seen_step; eauto|]. destruct HA as [HA|HA]; [left; by apply gone_step | by right].
  - destruct HR as (Hn & Hc & HA). split; [done|]. split; [done|]. destruct HA as [HA|HA]; [left; by apply gone_step | by right].
Qed.

Lemma reader_write k s s' h : sound s h -> Z.of_nat (length h) < 2 ^ 64 - 1 -> writes (mem s) (writer s) (mem s') (writer s') -> readers s' = readers s -> reader_ok k s' (s :: h).
Proof.
  intros [HM HW HC HR] Hlen [W1 W2 W3 W4 W5] Er. specialize (HR k). assert (Hcnt : environ_counter (mem s') = environ_counter (mem s) \/ environ_counter (mem s') = environ_counter (mem s) + 1) by (destruct W3 as [W3|W3]; [by left | right; rewrite W3; unfold wrap; apply Z.mod_small; lia]).
  unfold reader_ok in *. rewrite Er. destruct (readers s !! k) as [r|] eqn:Hk; [|done]. assert (Hin : looking_for r <> None -> inside k s = true /\ inside k s' = true) by (intros H; unfold inside; rewrite Er, Hk; split; by apply bool_decide_eq_true_2).
  destruct r as [v|n|n c|n c a i|n c]; try done; destruct (Hin ltac:(done)) as [Hi1 Hi2].
  - lia.
  - destruct HR as (Hn & Hc & Hset & l & Hl & Hi & HK & HA). destruct (W5 a l Hl Hset) as (l' & Hl' & Hch). split; [done|]. split; [lia|]. split; [apply W4; [by exists l | done]|]. exists l'. split; [done|].
    assert (Hlen' : length l' = length l) by (destruct Hch as [-> _|q -> _ _ _|q np -> _ _ _|name ep dp x lst _ _ -> _ _]; by rewrite ?length_insert). split; [lia|]. split; [eapply known_write; eauto | eapply ahead_write; eauto].
  - destruct HR as (Hn & Hc & HA). split; [done|]. split; [lia|]. destruct HA as [HA|HA]; [left; by apply gone_step | right; lia].
Qed.

Lemma sound_step c s s' h : sound s h -> Z.of_nat (length h) < 2 ^ 64 - 1 -> step c s = Some s' -> sound s' (s :: h).
Proof.
  intros HS Hlen H. pose proof HS as [HM HW HC HR]. assert (Hwr : writes (mem s) (writer s) (mem s') (writer s') -> readers s' = readers s -> sound s' (s :: h)).
  { intros Hw Er. pose proof Hw as [W1 W2 W3 _ _]. split; auto; [simpl; destruct W3 as [W3|W3]; rewrite W3; [lia|]; unfold wrap; rewrite Z.mod_small; lia | intros k; by apply reader_write]. }
  destruct c as [f m| |k n|k]; cbn [step] in H.
  - destruct (writer s) as [r| | | | | | | |] eqn:Ew; try done. destruct (wcall f m (mem s)) as [[E w]|] eqn:Ec; simpl in H; [|done]. injection H as <-. apply Hwr; [|done]. simpl. eapply wcall_writes; eauto. by split.
  - destruct (wstep (writer s) (mem s)) as [[E w]|] eqn:Ec; simpl in H; [|done]. injection H as <-. apply Hwr; [|done]. simpl. eapply wstep_writes; eauto. lia.
  - destruct (readers s !! k) as [r|] eqn:Hk; simpl in H; [|done]. destruct r; try done. injection H as <-. split; simpl; auto; [lia|]. intros j. destruct (decide (j = k)) as [->|Hn]; [unfold reader_ok; simpl; rewrite list_lookup_insert_eq by (by eapply lookup_lt_Some); done|].
    apply reader_other; auto. simpl. by rewrite list_lookup_insert_ne.
  - destruct (readers s !! k) as [r|] eqn:Hk; simpl in H; [|done]. destruct (rstep r (mem s)) as [r'|] eqn:Hr; simpl in H; [|done]. injection H as <-. split; simpl; auto; [lia|]. intros j. destruct (decide (j = k)) as [->|Hn]; [by eapply reader_run|].
    apply reader_other; auto. simpl. by rewrite list_lookup_insert_ne.
Qed.

Lemma sound_init l nr : clean l -> sound (init l nr) [].
Proof.
  intros Hc. destruct (env_ok_init l nr Hc) as [HM HW]. split; [done | done | simpl; lia|]. intros k. unfold reader_ok. simpl. destruct (replicate nr (ROut None) !! k) as [r|] eqn:E; [|done]. apply lookup_replicate in E as [-> _]. done.
Qed.

Lemma execution_sound l nr s h : clean l -> execution l nr (s :: h) -> Z.of_nat (length h) < 2 ^ 64 -> sound s h.
Proof.
  intros Hc H. remember (s :: h) as hs eqn:Eh. revert s h Eh. induction H as [|c s1 s2 h1 H IH Hst]; intros s h Eh Hlen; injection Eh as <- <-; [by apply sound_init|].
  simpl in Hlen. apply (sound_step c s1 s2 h1); [apply IH; [done | lia] | lia | done].
Qed.

(** C19: getenv, run by any number of threads while others call setenv, unsetenv, putenv and clearenv, in every interleaving of their single loads and stores (fewer than 2^64 of
    them), in a process that starts without a variable that occurs twice.  Every load of getenv and every store of a writer stays inside an array.  When getenv returns a value, the variable had this value at some
    moment since the call began, or a setenv was just storing it; when it returns NULL for a name that is not empty,
    there was such a moment at which the variable did not exist. *)
Theorem getenv_justified l nr s h : clean l -> execution l nr (s :: h) -> Z.of_nat (length h) < 2 ^ 64 ->
  ((exists r, writer s = WOut r) \/ wstep (writer s) (mem s) <> None) /\
  forall k r n, readers s !! k = Some r -> looking_for r = Some n ->
    exists r', rstep r (mem s) = Some r' /\ match r' with ROut (Some v) => seen k (s :: h) n v | ROut None => n = [] \/ gone k (s :: h) n | _ => looking_for r' = Some n end.
Proof.
  intros Hc Hex Hlen. destruct (execution_sound l nr s h Hc Hex Hlen) as [HM HW HC HR]. split.
  - destruct (wstep_advances (mem s) (writer s) HM HW) as [H|(E' & w' & H & _)]; [by left | right; by rewrite H].
  - intros k r n Hk Hn. specialize (HR k). unfold reader_ok in HR. rewrite Hk in HR. assert (Hin : inside k s = true) by (unfold inside; rewrite Hk, Hn; by apply bool_decide_eq_true_2).
    destruct r as [v|n'|n' c|n' c a i|n' c]; simpl in Hn; try done; injection Hn as ->; cbn [rstep].
    + eexists. split; [reflexivity | done].
    + eexists. split; [reflexivity|]. destruct (environ (mem s)) as [a|] eqn:Ea; [case_bool_decide; [by left | done] | right; apply gone_now; [done|]; unfold view; by rewrite strings_none].
    + destruct HR as (_ & _ & _ & la & Hl & Hi & HK & _). destruct (lookup_lt_is_Some_2 la i Hi) as [x Hx]. unfold load. rewrite Hl. simpl. rewrite Hx. simpl. eexists. split; [reflexivity|]. destruct x as [e|]; [|done]. destruct (value_of n e) as [v|] eqn:Ev; [|done].
      apply (HK i e v); auto. split; [done|]. intros q Hq. assert (q = i) as -> by lia. eauto.
    + destruct HR as (_ & Hc' & HA). eexists. split; [reflexivity|]. destruct (Z.eqb_spec (environ_counter (mem s)) c) as [Eq|]; [|done]. right. destruct HA as [HA|HA]; [done | lia].
Qed.

(** Executions from schedules. *)
Fixpoint runs (cs : list choice) (h : list state) : option (list state) :=
  match cs, h with
  | [], _ => Some h
  | c :: cs, s :: _ => match step c s with Some s' => runs cs (s' :: h) | None => None end
  | _, [] => None
  end.

Lemma runs_execution l nr cs : forall h h', execution l nr h -> runs cs h = Some h' -> execution l nr h'.
Proof.
  induction cs as [|c cs IH]; intros h h' Hex H; simpl in H; [by injection H as <-|]. destruct h as [|s h]; [done|]. destruct (step c s) as [s'|] eqn:E; [|done]. eapply IH; [|exact H]. by eapply exec_step.
Qed.

(** A=1, B=2, C=3; getenv ("C") has read two strings when unsetenv ("A") moves all strings back, and
    setenv ("C", "4") comes next: the scan misses C and starts again. *)
Definition race_env : list text := [[65; 61; 49]; [66; 61; 50]; [67; 61; 51]].
Definition race_schedule : list choice :=
  RCall 0 [67] :: replicate 4 (RRun 0) ++ WCall (Unsetenv (Some [65])) plenty :: replicate 6 WRun ++
  WCall (Setenv (Some [67]) [52] true) plenty :: replicate 2 WRun ++ replicate 5 (RRun 0).

Lemma getenv_justified_witness : exists s h, runs race_schedule [init race_env 1] = Some (s :: h) /\ readers s !! 0%nat = Some (REntry [67] 3 0 1) /\
  exists r', rstep (REntry [67] 3 0 1) (mem s) = Some r' /\ match r' with ROut (Some v) => seen 0 (s :: h) [67] v | ROut None => [67] = [] \/ gone 0 (s :: h) [67] | _ => looking_for r' = Some [67] end.
Proof.
  destruct (runs race_schedule [init race_env 1]) as [hs|] eqn:E; [|exfalso; vm_compute in E; discriminate]. destruct hs as [|s h]; [exfalso; vm_compute in E; discriminate|].
  exists s, h. split; [reflexivity|]. assert (Hr : readers s !! 0%nat = Some (REntry [67] 3 0 1)) by (vm_compute in E; injection E as <- <-; reflexivity). split; [exact Hr|].
  assert (Hlen : length h = 20%nat) by (vm_compute in E; injection E as <- <-; reflexivity).
  apply (getenv_justified race_env 1 s h); [| exact (runs_execution race_env 1 _ _ _ (exec_start race_env 1) E) | rewrite Hlen; reflexivity | exact Hr | reflexivity].
  refine (bool_decide_eq_true_1 _ _). vm_compute. reflexivity.
Defined.

(** The hypothesis on repeated variables is needed: with X=0, A=1, A=2 an unsetenv ("X") moves A=1 past a getenv ("A") that
    has read one string, which returns the value 2 although no getenv ("A") that runs alone ever does. *)
Definition twice_env : list text := [[88; 61; 48]; [65; 61; 49]; [65; 61; 50]].
Definition twice_schedule : list choice := RCall 0 [65] :: replicate 3 (RRun 0) ++ WCall (Unsetenv (Some [88])) plenty :: replicate 4 WRun ++ [RRun 0].

Lemma getenv_duplicate : exists s h, runs twice_schedule [init twice_env 1] = Some (s :: h) /\ readers s !! 0%nat = Some (ROut (Some [50])) /\
  Forall (fun x => view (mem x) [65] = Some [49] /\ match writer x with WStore _ _ _ => false | _ => true end = true) (s :: h).
Proof.
  destruct (runs twice_schedule [init twice_env 1]) as [hs|] eqn:E; vm_compute in E; [|discriminate]. injection E as <-. eexists _, _. split; [reflexivity|]. split; [reflexivity|]. repeat (constructor; [by split|]). constructor.
Qed.
