(* ===== verification/Tsearch.v ===== *)
(** * Binary search trees (misc/tsearch.c)

    The tree is kept in memory as in the code: nodes at addresses, a node's
    colour in the low bit of its left word, and pointers to the words that hold
    node pointers ([node *]), which the loops keep while rotations move nodes.
    An access to an address without a node gives [None].  The comparison
    function and malloc are parameters; assertions are checks that give [None]
    where they fail. *)

From Stdlib Require Import ZArith.
From stdpp Require Import base gmap list sorting.
From S2P Require Import Prelude.
#[local] Open Scope Z_scope.
#[local] Open Scope glibc_scope.

(** ** Nodes in memory *)

Record node_t := { key : Z; left_node : Z; right_node : Z }.

(** *vrootp and the nodes. *)
Record tree_mem := { vroot : Z; nodes : gmap Z node_t }.

(** [node *]: the address of the root variable or of a field of a node. *)
Inductive nodep := ROOTP | LEFTPTR (n : Z) | RIGHTPTR (n : Z).

Definition NULL : Z := 0.

Definition set_node (m : tree_mem) (n : Z) (x : node_t) : tree_mem :=
  {| vroot := vroot m; nodes := <[n := x]> (nodes m) |}.

(** The macros of USE_MALLOC_LOW_BIT; [Z.lnot 1] is ~((uintptr_t) 0x1). *)
Definition RED (m : tree_mem) (n : Z) : option bool :=
  let? x := nodes m !! n in Some (negb (Z.land (left_node x) 1 =? 0)).

Definition SETRED (m : tree_mem) (n : Z) : option tree_mem :=
  let? x := nodes m !! n in
  Some (set_node m n {| key := key x; left_node := Z.lor (left_node x) 1; right_node := right_node x |}).

Definition SETBLACK (m : tree_mem) (n : Z) : option tree_mem :=
  let? x := nodes m !! n in
  Some (set_node m n {| key := key x; left_node := Z.land (left_node x) (Z.lnot 1); right_node := right_node x |}).

Definition LEFT (m : tree_mem) (n : Z) : option Z :=
  let? x := nodes m !! n in Some (Z.land (left_node x) (Z.lnot 1)).

Definition SETLEFT (m : tree_mem) (n L : Z) : option tree_mem :=
  let? x := nodes m !! n in
  Some (set_node m n {| key := key x; left_node := Z.lor (Z.land (left_node x) 1) L; right_node := right_node x |}).

Definition RIGHT (m : tree_mem) (n : Z) : option Z :=
  let? x := nodes m !! n in Some (right_node x).

Definition SETRIGHT (m : tree_mem) (n R : Z) : option tree_mem :=
  let? x := nodes m !! n in
  Some (set_node m n {| key := key x; left_node := left_node x; right_node := R |}).

(** N->key = k *)
Definition SETKEY (m : tree_mem) (n k : Z) : option tree_mem :=
  let? x := nodes m !! n in
  Some (set_node m n {| key := k; left_node := left_node x; right_node := right_node x |}).

(** *np and *np = w. *)
Definition read_nodep (m : tree_mem) (np : nodep) : option Z :=
  match np with
  | ROOTP => Some (vroot m)
  | LEFTPTR n => let? x := nodes m !! n in Some (left_node x)
  | RIGHTPTR n => let? x := nodes m !! n in Some (right_node x)
  end.

Definition write_nodep (m : tree_mem) (np : nodep) (w : Z) : option tree_mem :=
  match np with
  | ROOTP => Some {| vroot := w; nodes := nodes m |}
  | LEFTPTR n =>
      let? x := nodes m !! n in Some (set_node m n {| key := key x; left_node := w; right_node := right_node x |})
  | RIGHTPTR n =>
      let? x := nodes m !! n in Some (set_node m n {| key := key x; left_node := left_node x; right_node := w |})
  end.

Definition DEREFNODEPTR (m : tree_mem) (np : nodep) : option Z :=
  let? w := read_nodep m np in Some (Z.land w (Z.lnot 1)).

Definition SETNODEPTR (m : tree_mem) (np : nodep) (P : Z) : option tree_mem :=
  let? w := read_nodep m np in write_nodep m np (Z.lor (Z.land w 1) P).

(** n != NULL && RED (n) *)
Definition is_red (m : tree_mem) (n : Z) : option bool := if n =? NULL then Some false else RED m n.

(** if (n) SETBLACK (n); *)
Definition setblack_if (m : tree_mem) (n : Z) : option tree_mem := if n =? NULL then Some m else SETBLACK m n.

(** ** maybe_split_for_insert *)

(** The rotations: the edge types differ, then both edges are of one type. *)
Definition split_double (m : tree_mem) (root p gp rpn lpn : Z) (gparentp : nodep) (p_r : Z) : option tree_mem :=
  let? m := SETRED m p in
  let? m := SETRED m gp in
  let? m := SETBLACK m root in
  let? m := (if p_r <? 0 then
      let? m := SETLEFT m p rpn in
      let? m := SETNODEPTR m (RIGHTPTR root) p in
      let? m := SETRIGHT m gp lpn in
      SETNODEPTR m (LEFTPTR root) gp
    else
      let? m := SETRIGHT m p lpn in
      let? m := SETNODEPTR m (LEFTPTR root) p in
      let? m := SETLEFT m gp rpn in
      SETNODEPTR m (RIGHTPTR root) gp) in
  SETNODEPTR m gparentp root.

Definition split_single (m : tree_mem) (p gp : Z) (gparentp : nodep) (p_r : Z) : option tree_mem :=
  let? m := SETNODEPTR m gparentp p in
  let? m := SETBLACK m p in
  let? m := SETRED m gp in
  if p_r <? 0 then
    let? x := RIGHT m p in
    let? m := SETLEFT m gp x in
    SETRIGHT m p gp
  else
    let? x := LEFT m p in
    let? m := SETRIGHT m gp x in
    SETLEFT m p gp.

Definition maybe_split_for_insert (m : tree_mem) (rootp : nodep) (parentp gparentp : option nodep)
    (p_r gp_r : Z) (mode : bool) : option tree_mem :=
  let? root := DEREFNODEPTR m rootp in
  let? rpn := RIGHT m root in
  let? lpn := LEFT m root in
  let? split := (if mode then Some true
                 else let? rr := is_red m rpn in let? lr := is_red m lpn in Some (rr && lr)) in
  if split then
    let? m := SETRED m root in
    let? m := setblack_if m rpn in
    let? m := setblack_if m lpn in
    match parentp with
    | None => Some m
    | Some parentp =>
        let? p := DEREFNODEPTR m parentp in
        let? pred := RED m p in
        if pred then
          let? gparentp := gparentp in
          let? gp := DEREFNODEPTR m gparentp in
          if negb (eqb (0 <? p_r) (0 <? gp_r))
          then split_double m root p gp rpn lpn gparentp p_r
          else split_single m p gp gparentp p_r
        else Some m
    end
  else Some m.

Section Tsearch.
(** malloc gives an address and what the memory there holds. *)
Context (compar : Z -> Z -> Z) (malloc : tree_mem -> option (Z * node_t)).

Definition node_key (m : tree_mem) (n : Z) : option Z := let? x := nodes m !! n in Some (key x).

(** How the search loop ended: the node, or where the new one goes. *)
Inductive search_end :=
| Found (root : Z)
| Insert (rootp : nodep) (parentp : option nodep) (nextp : nodep) (r p_r : Z).

Fixpoint tsearch_loop (fuel : nat) (m : tree_mem) (k : Z) (rootp : nodep) (parentp gparentp : option nodep) (p_r gp_r : Z)
    : option (tree_mem * search_end) :=
  match fuel with
  | O => None
  | S fuel =>
      let? root := DEREFNODEPTR m rootp in
      let? rk := node_key m root in
      let r := compar k rk in
      if r =? 0 then Some (m, Found root)
      else
        let? m := maybe_split_for_insert m rootp parentp gparentp p_r gp_r false in
        let nextp := if r <? 0 then LEFTPTR root else RIGHTPTR root in
        let? next := DEREFNODEPTR m nextp in
        if next =? NULL then Some (m, Insert rootp parentp nextp r p_r)
        else tsearch_loop fuel m k nextp (Some rootp) parentp r p_r
  end.

(** Links the new node q and initializes it. *)
Definition link_node (m : tree_mem) (k : Z) (nextp : nodep) (q : Z) (garbage : node_t) : option tree_mem :=
  let m := set_node m q garbage in
  let? m := SETNODEPTR m nextp q in
  let? m := SETKEY m q k in
  let? m := SETRED m q in
  let? m := SETLEFT m q NULL in
  SETRIGHT m q NULL.

(** The new node, and the last call of maybe_split_for_insert. *)
Definition tsearch_insert (m : tree_mem) (k : Z) (rootp : nodep) (parentp : option nodep) (nextp : nodep) (r p_r : Z)
    : option (tree_mem * Z) :=
  match malloc m with
  | None => Some (m, NULL)
  | Some (q, garbage) =>
      if negb (Z.land q 1 =? 0) then None    (* the assertion *)
      else
        let? m := link_node m k nextp q garbage in
        match nextp with
        | ROOTP => Some (m, q)
        | _ =>
            let? m := maybe_split_for_insert m nextp (Some rootp) parentp r p_r true in
            Some (m, q)
        end
  end.

(** __tsearch: the memory and the node that has the key, or NULL. *)
Definition tsearch (fuel : nat) (m : tree_mem) (k : Z) : option (tree_mem * Z) :=
  let? root := DEREFNODEPTR m ROOTP in
  let? m := setblack_if m root in
  if root =? NULL then tsearch_insert m k ROOTP None ROOTP 0 0
  else
    let? (m, e) := tsearch_loop fuel m k ROOTP None None 0 0 in
    match e with
    | Found n => Some (m, n)
    | Insert rootp parentp nextp r p_r => tsearch_insert m k rootp parentp nextp r p_r
    end.

(** __tfind *)
Fixpoint tfind_loop (fuel : nat) (m : tree_mem) (k : Z) (rootp : nodep) : option Z :=
  match fuel with
  | O => None
  | S fuel =>
      let? root := DEREFNODEPTR m rootp in
      if root =? NULL then Some NULL
      else
        let? rk := node_key m root in
        let r := compar k rk in
        if r =? 0 then Some root
        else tfind_loop fuel m k (if r <? 0 then LEFTPTR root else RIGHTPTR root)
  end.

Definition tfind (fuel : nat) (m : tree_mem) (k : Z) : option Z := tfind_loop fuel m k ROOTP.
End Tsearch.

(** * Trees *)

(** The tree in memory, with the address of each node. *)
Inductive tree := Leaf | Node (a : Z) (red : bool) (k : Z) (l r : tree).

Definition ptr (t : tree) : Z := match t with Leaf => NULL | Node a _ _ _ _ => a end.
Definition redb (t : tree) : bool := match t with Leaf => false | Node _ c _ _ _ => c end.

Fixpoint addrs (t : tree) : list Z :=
  match t with Leaf => [] | Node a _ _ l r => a :: addrs l ++ addrs r end.

(** Addresses and keys in order. *)
Fixpoint inorder (t : tree) : list (Z * Z) :=
  match t with Leaf => [] | Node a _ k l r => inorder l ++ (a, k) :: inorder r end.

(** A node with these fields. *)
Definition mk (k : Z) (red : bool) (l r : Z) : node_t := {| key := k; left_node := l + b2z red; right_node := r |}.

Fixpoint rep (h : gmap Z node_t) (t : tree) : Prop :=
  match t with
  | Leaf => True
  | Node a red k l r => h !! a = Some (mk k red (ptr l) (ptr r)) /\ rep h l /\ rep h r
  end.

(** The path to a subtree: for each node above it, the side and the rest. *)
Inductive frame := LF (a : Z) (red : bool) (k : Z) (r : tree) | RF (a : Z) (red : bool) (k : Z) (l : tree).

Definition fill (f : frame) (t : tree) : tree :=
  match f with LF a c k r => Node a c k t r | RF a c k l => Node a c k l t end.

Fixpoint plug (c : list frame) (t : tree) : tree := match c with [] => t | f :: c => plug c (fill f t) end.

Definition loc (c : list frame) : nodep :=
  match c with [] => ROOTP | LF a _ _ _ :: _ => LEFTPTR a | RF a _ _ _ :: _ => RIGHTPTR a end.

Definition fred (f : frame) : bool := match f with LF _ c _ _ | RF _ c _ _ => c end.
Definition faddr (f : frame) : Z := match f with LF a _ _ _ | RF a _ _ _ => a end.
Definition fsib (f : frame) : tree := match f with LF _ _ _ t | RF _ _ _ t => t end.

Fixpoint addrs_ctx (c : list frame) : list Z :=
  match c with [] => [] | f :: c => faddr f :: addrs (fsib f) ++ addrs_ctx c end.

Definition fnode (f : frame) (p : Z) : node_t :=
  match f with LF _ c k r => mk k c p (ptr r) | RF _ c k l => mk k c (ptr l) p end.

(** The nodes above a subtree at address [p]. *)
Fixpoint rep_ctx (h : gmap Z node_t) (c : list frame) (p : Z) : Prop :=
  match c with
  | [] => True
  | f :: c => h !! faddr f = Some (fnode f p) /\ rep h (fsib f) /\ rep_ctx h c (faddr f)
  end.

(** Addresses are even, not null, and different. *)
Definition good_addr (a : Z) : Prop := 0 < a /\ Z.even a = true.

Definition cnt (x : Z) (l : list Z) : nat := count_occ Z.eq_dec l x.
#[local] Arguments cnt : simpl never.

Definition distinct (l : list Z) : Prop := forall x, (cnt x l <= 1)%nat /\ ((0 < cnt x l)%nat -> good_addr x).

(** The memory holds the tree [plug c t]. *)
Record holds (m : tree_mem) (c : list frame) (t : tree) : Prop := {
  h_root : vroot m = ptr (plug c t);
  h_tree : rep (nodes m) t;
  h_ctx : rep_ctx (nodes m) c (ptr t);
  h_distinct : distinct (addrs t ++ addrs_ctx c) }.

(** ** Counting addresses *)

Lemma cnt_app x l k : cnt x (l ++ k) = (cnt x l + cnt x k)%nat.
Proof. apply count_occ_app. Qed.

Lemma cnt_cons x a l : cnt x (a :: l) = ((if Z.eq_dec a x then 1 else 0) + cnt x l)%nat.
Proof. unfold cnt. simpl. destruct (Z.eq_dec a x); lia. Qed.

Lemma cnt_nil x : cnt x [] = 0%nat.
Proof. reflexivity. Qed.

Lemma cnt_In x l : In x l <-> (0 < cnt x l)%nat.
Proof. unfold cnt. rewrite (count_occ_In Z.eq_dec). lia. Qed.

Ltac cnts := repeat (progress rewrite ?cnt_app, ?cnt_cons, ?cnt_nil in *).

(** Rearranged addresses stay distinct. *)
Lemma distinct_equiv l l' : (forall x, cnt x l = cnt x l') -> distinct l -> distinct l'.
Proof. intros E H x. rewrite <- E. apply H. Qed.

(** ** The low bit *)

Lemma even_land a : Z.even a = true -> Z.land a 1 = 0.
Proof.
  intros H. change 1 with (Z.ones 1). rewrite Z.land_ones by lia. change (2 ^ 1) with 2.
  rewrite Zmod_even, H. reflexivity.
Qed.

Lemma low_bit a b : Z.even a = true -> Z.land (a + b2z b) 1 = b2z b.
Proof.
  intros H. change 1 with (Z.ones 1). rewrite Z.land_ones by lia. change (2 ^ 1) with 2.
  rewrite Zmod_even, Z.even_add, H. destruct b; reflexivity.
Qed.

Lemma clear_low a b : Z.even a = true -> Z.land (a + b2z b) (Z.lnot 1) = a.
Proof.
  intros H. rewrite <- Z.ldiff_land. pose proof (low_bit a b H) as E.
  assert (Z.ldiff (a + b2z b) 1 = a + b2z b - Z.land (a + b2z b) 1) as ->; [|lia].
  rewrite Z.sub_nocarry_ldiff.
  - rewrite <- (Z.land_comm 1), Z.ldiff_land. symmetry. apply Z.bits_inj'. intros n Hn.
    rewrite Z.ldiff_spec, !Z.land_spec, Z.lnot_spec by done. destruct (Z.testbit (a + b2z b) n), (Z.testbit 1 n); reflexivity.
  - apply Z.bits_inj'. intros n Hn. rewrite Z.ldiff_spec, Z.land_spec, Z.bits_0.
    destruct (Z.testbit (a + b2z b) n), (Z.testbit 1 n); reflexivity.
Qed.

Lemma set_low a b : Z.even a = true -> Z.lor (b2z b) a = a + b2z b.
Proof.
  intros H. rewrite Z.lor_comm. assert (E : a = a / 2 * 2 ^ 1).
  { pose proof (Z_div_mod_eq_full a 2) as E. rewrite Zmod_even, H in E. change (2 ^ 1) with 2. lia. }
  rewrite E. rewrite lor_add_low; [reflexivity | lia | destruct b; simpl; lia].
Qed.

Lemma lor_1 a b : Z.even a = true -> Z.lor (a + b2z b) 1 = a + b2z true.
Proof.
  intros H. rewrite <- (set_low a b H), Z.lor_comm, Z.lor_assoc.
  replace (Z.lor 1 (b2z b)) with (b2z true) by (by destruct b). by apply set_low.
Qed.

(** ** The macros on such nodes *)

Section Macros.
Context (m : tree_mem) (a k : Z) (c : bool) (l r : Z).
Hypothesis Ha : nodes m !! a = Some (mk k c l r).

Lemma node_key_mk : node_key m a = Some k.
Proof using Ha. unfold node_key. by rewrite Ha. Qed.

Lemma RIGHT_mk : RIGHT m a = Some r.
Proof using Ha. unfold RIGHT. by rewrite Ha. Qed.

Lemma SETRIGHT_mk R : SETRIGHT m a R = Some (set_node m a (mk k c l R)).
Proof using Ha. unfold SETRIGHT. by rewrite Ha. Qed.

Lemma SETKEY_mk k' : SETKEY m a k' = Some (set_node m a (mk k' c l r)).
Proof using Ha. unfold SETKEY. by rewrite Ha. Qed.

Hypothesis Hl : Z.even l = true.

Lemma RED_mk : RED m a = Some c.
Proof using Ha Hl. unfold RED. rewrite Ha. simpl. rewrite low_bit by done. by destruct c. Qed.

Lemma SETRED_mk : SETRED m a = Some (set_node m a (mk k true l r)).
Proof using Ha Hl. unfold SETRED, mk. rewrite Ha. simpl. by rewrite lor_1 by done. Qed.

Lemma SETBLACK_mk : SETBLACK m a = Some (set_node m a (mk k false l r)).
Proof using Ha Hl. unfold SETBLACK, mk. rewrite Ha. simpl. rewrite clear_low by done. by rewrite Z.add_0_r. Qed.

Lemma LEFT_mk : LEFT m a = Some l.
Proof using Ha Hl. unfold LEFT. rewrite Ha. simpl. by rewrite clear_low. Qed.

Lemma SETLEFT_mk L : Z.even L = true -> SETLEFT m a L = Some (set_node m a (mk k c L r)).
Proof using Ha Hl. intros HL. unfold SETLEFT, mk. rewrite Ha. simpl. by rewrite low_bit, set_low. Qed.

Lemma DEREF_left : DEREFNODEPTR m (LEFTPTR a) = Some l.
Proof using Ha Hl. unfold DEREFNODEPTR. simpl. rewrite Ha. simpl. by rewrite clear_low. Qed.

Lemma SETNODEPTR_left P : Z.even P = true -> SETNODEPTR m (LEFTPTR a) P = Some (set_node m a (mk k c P r)).
Proof using Ha Hl. intros HP. unfold SETNODEPTR, mk. simpl. rewrite Ha. simpl. by rewrite low_bit, set_low. Qed.

Hypothesis Hr : Z.even r = true.

Lemma DEREF_right : DEREFNODEPTR m (RIGHTPTR a) = Some r.
Proof using Ha Hr.
  unfold DEREFNODEPTR. simpl. rewrite Ha. simpl. pose proof (clear_low r false Hr) as E. rewrite Z.add_0_r in E. by rewrite E.
Qed.

Lemma SETNODEPTR_right P : Z.even P = true -> SETNODEPTR m (RIGHTPTR a) P = Some (set_node m a (mk k c l P)).
Proof using Ha Hr.
  intros HP. unfold SETNODEPTR, mk. simpl. rewrite Ha. simpl. rewrite (even_land r Hr).
  pose proof (set_low P false HP) as E. rewrite Z.add_0_r in E. simpl in E. by rewrite E.
Qed.
End Macros.

(** ** The pointer to a subtree *)

Definition set_loc (m : tree_mem) (c : list frame) (P : Z) : tree_mem :=
  match c with
  | [] => {| vroot := P; nodes := nodes m |}
  | f :: _ => set_node m (faddr f) (fnode f P)
  end.

Lemma even_ptr t L : distinct L -> (forall x, (cnt x (addrs t) <= cnt x L)%nat) -> Z.even (ptr t) = true.
Proof.
  intros Hd H. destruct t as [|a c k l r]; [reflexivity|]. simpl. apply (Hd a). specialize (H a). simpl in H. cnts.
  destruct (Z.eq_dec a a); [lia | done].
Qed.

Lemma ptr_null t L : distinct L -> (forall x, (cnt x (addrs t) <= cnt x L)%nat) -> (ptr t =? NULL) = match t with Leaf => true | _ => false end.
Proof.
  intros Hd H. destruct t as [|a c k l r]; [reflexivity|]. simpl. specialize (H a). simpl in H. cnts.
  destruct (Z.eq_dec a a); [|done]. destruct (Hd a) as [_ [Ha _]]; [lia|]. apply Z.eqb_neq. unfold NULL. lia.
Qed.

Lemma even_focus t c : distinct (addrs t ++ addrs_ctx c) -> Z.even (ptr t) = true.
Proof. intros Hd. eapply even_ptr; [exact Hd|]. intros x. rewrite cnt_app. lia. Qed.

Lemma even_sib t f c : distinct (addrs t ++ addrs_ctx (f :: c)) -> Z.even (ptr (fsib f)) = true.
Proof. intros Hd. eapply even_ptr; [exact Hd|]. intros x. simpl. cnts. lia. Qed.

Section Loc.
Context (m : tree_mem) (c : list frame) (t : tree).
Hypothesis Hroot : c = [] -> vroot m = ptr t.
Hypothesis Hctx : rep_ctx (nodes m) c (ptr t).
Hypothesis Hd : distinct (addrs t ++ addrs_ctx c).

Lemma DEREF_loc : DEREFNODEPTR m (loc c) = Some (ptr t).
Proof using Hroot Hctx Hd.
  pose proof (even_focus t c Hd) as He. destruct c as [|f c'].
  - unfold DEREFNODEPTR. simpl. rewrite Hroot by done. pose proof (clear_low (ptr t) false He) as E. rewrite Z.add_0_r in E. by rewrite E.
  - pose proof (even_sib t f c' Hd) as Hs. destruct Hctx as [Hf _]. destruct f; simpl in *.
    + by apply (DEREF_left _ _ _ _ _ _ Hf).
    + by apply (DEREF_right _ _ _ _ _ _ Hf).
Qed.

Lemma SETNODEPTR_loc P : Z.even P = true -> SETNODEPTR m (loc c) P = Some (set_loc m c P).
Proof using Hroot Hctx Hd.
  intros HP. pose proof (even_focus t c Hd) as He. destruct c as [|f c'].
  - unfold SETNODEPTR. simpl. rewrite Hroot, (even_land _ He) by done.
    pose proof (set_low P false HP) as E. rewrite Z.add_0_r in E. simpl in E. by rewrite E.
  - pose proof (even_sib t f c' Hd) as Hs. destruct Hctx as [Hf _]. destruct f; simpl in *.
    + by apply (SETNODEPTR_left _ _ _ _ _ _ Hf).
    + by apply (SETNODEPTR_right _ _ _ _ _ _ Hf).
Qed.
End Loc.

(** ** Updates elsewhere *)

Lemma rep_set h a x t : cnt a (addrs t) = 0%nat -> rep h t -> rep (<[a := x]> h) t.
Proof.
  induction t as [|b c k l IHl r IHr]; [done|]. simpl. intros Hc (Hb & Hl & Hr). cnts. destruct (Z.eq_dec b a); [lia|].
  rewrite lookup_insert_ne by done. split; [done|]. split; [apply IHl | apply IHr]; (done || lia).
Qed.

Lemma rep_ctx_set h a x c : forall p, cnt a (addrs_ctx c) = 0%nat -> rep_ctx h c p -> rep_ctx (<[a := x]> h) c p.
Proof.
  induction c as [|f c IH]; intros p; [done|]. simpl. intros Hc (Hf & Hs & Hr). cnts. destruct (Z.eq_dec (faddr f) a); [lia|].
  rewrite lookup_insert_ne by done. split; [done|]. split; [apply rep_set | apply IH]; (done || lia).
Qed.

(** The context of a replaced subtree. *)
Lemma rep_ctx_set_loc m c p P : rep_ctx (nodes m) c p -> distinct (addrs_ctx c) -> rep_ctx (nodes (set_loc m c P)) c P.
Proof.
  intros H Hd. destruct c as [|f c]; [done|]. simpl in *. destruct H as (Hf & Hs & Hr).
  rewrite lookup_insert_eq. split; [done|]. specialize (Hd (faddr f)) as [Hd _]. simpl in Hd. cnts.
  destruct (Z.eq_dec (faddr f) (faddr f)); [|done]. split; [apply rep_set | apply rep_ctx_set]; (done || lia).
Qed.

Lemma vroot_plug c : forall t t', ptr t = ptr t' -> ptr (plug c t) = ptr (plug c t').
Proof. induction c as [|f c IH]; intros t t' E; [exact E|]. simpl. apply IH. by destruct f. Qed.

(** The root variable after a replacement below [c]. *)
Lemma vroot_set_loc m c t t' : vroot m = ptr (plug c t) -> vroot (set_loc m c (ptr t')) = ptr (plug c t').
Proof.
  destruct c as [|f c]; [done|]. simpl. intros ->. apply vroot_plug. by destruct f.
Qed.

(** Memories that agree on the nodes of a tree. *)
Lemma rep_agree h h' t : (forall x, (0 < cnt x (addrs t))%nat -> h' !! x = h !! x) -> rep h t -> rep h' t.
Proof.
  induction t as [|b c k l IHl r IHr]; [done|]. simpl. intros Hx (Hb & Hl & Hr). split; [|split].
  - rewrite Hx; [done|]. cnts. destruct (Z.eq_dec b b); [lia | done].
  - apply IHl; [|done]. intros x H. apply Hx. cnts. lia.
  - apply IHr; [|done]. intros x H. apply Hx. cnts. lia.
Qed.

Lemma rep_ctx_agree h h' c : forall p, (forall x, (0 < cnt x (addrs_ctx c))%nat -> h' !! x = h !! x) -> rep_ctx h c p -> rep_ctx h' c p.
Proof.
  induction c as [|f c IH]; intros p; [done|]. simpl. intros Hx (Hf & Hs & Hr). split; [|split].
  - rewrite Hx; [done|]. cnts. destruct (Z.eq_dec (faddr f) (faddr f)); [lia | done].
  - apply (rep_agree h); [|done]. intros x H. apply Hx. cnts. lia.
  - apply IH; [|done]. intros x H. apply Hx. cnts. lia.
Qed.

Lemma set_loc_lookup m c P x : cnt x (addrs_ctx c) = 0%nat -> nodes (set_loc m c P) !! x = nodes m !! x.
Proof.
  destruct c as [|f c]; [done|]. simpl. intros H. cnts. destruct (Z.eq_dec (faddr f) x); [lia|]. by rewrite lookup_insert_ne.
Qed.

(** ** Moving the focus *)

Lemma holds_iff m c a col k l r : holds m c (Node a col k l r) <-> holds m (LF a col k r :: c) l.
Proof.
  split; intros [H1 H2 H3 H4]; simpl in *.
  - split; simpl; [done | tauto | tauto|]. eapply distinct_equiv; [|exact H4]. intros x. cnts. lia.
  - split; simpl; [done | tauto | tauto|]. eapply distinct_equiv; [|exact H4]. intros x. cnts. lia.
Qed.

Lemma holds_iff_r m c a col k l r : holds m c (Node a col k l r) <-> holds m (RF a col k l :: c) r.
Proof.
  split; intros [H1 H2 H3 H4]; simpl in *.
  - split; simpl; [done | tauto | tauto|]. eapply distinct_equiv; [|exact H4]. intros x. cnts. lia.
  - split; simpl; [done | tauto | tauto|]. eapply distinct_equiv; [|exact H4]. intros x. cnts. lia.
Qed.

Lemma holds_fill m c f t : holds m c (fill f t) <-> holds m (f :: c) t.
Proof. destruct f; [apply holds_iff | apply holds_iff_r]. Qed.

Lemma holds_deref m c t : holds m c t -> DEREFNODEPTR m (loc c) = Some (ptr t).
Proof. intros [H1 H2 H3 H4]. apply DEREF_loc; [|done|done]. by intros ->. Qed.

Lemma holds_null m c t : holds m c t -> (ptr t =? NULL) = match t with Leaf => true | _ => false end.
Proof. intros [_ _ _ H]. eapply ptr_null; [exact H|]. intros x. rewrite cnt_app. lia. Qed.

Lemma holds_even m c t : holds m c t -> Z.even (ptr t) = true.
Proof. intros [_ _ _ H]. by eapply even_focus. Qed.

Lemma holds_left_even m c a col k l r : holds m c (Node a col k l r) -> Z.even (ptr l) = true.
Proof. intros H%holds_iff. by eapply holds_even. Qed.

Lemma holds_right_even m c a col k l r : holds m c (Node a col k l r) -> Z.even (ptr r) = true.
Proof. intros H%holds_iff_r. by eapply holds_even. Qed.

(** ** Colouring *)

(** Different addresses, from the count of [x]. *)
Ltac apart Hd x :=
  let C := fresh "C" in
  pose proof (proj1 (Hd x)) as C; cbn [addrs addrs_ctx faddr fsib app] in C;
  repeat (progress rewrite ?cnt_app, ?cnt_cons, ?cnt_nil in C);
  repeat (match type of C with context [Z.eq_dec ?a ?b] => destruct (Z.eq_dec a b) end);
  first [congruence | lia].

Lemma holds_recolour m c a col k l r col' : holds m c (Node a col k l r) ->
  holds (set_node m a (mk k col' (ptr l) (ptr r))) c (Node a col' k l r).
Proof.
  intros [H1 (Ha & Hl & Hr) H3 Hd]. split; simpl.
  - rewrite H1. by apply vroot_plug.
  - rewrite lookup_insert_eq. split; [done|].
    split; (eapply rep_agree; [|eassumption]); intros x Hx; apply lookup_insert_ne; intros E; apart Hd x.
  - eapply rep_ctx_agree; [|exact H3]. intros x Hx. apply lookup_insert_ne. intros E. apart Hd x.
  - exact Hd.
Qed.

Lemma holds_SETRED m c a col k l r : holds m c (Node a col k l r) ->
  exists m', SETRED m a = Some m' /\ holds m' c (Node a true k l r).
Proof.
  intros H. pose proof (holds_left_even _ _ _ _ _ _ _ H) as He. pose proof (h_tree _ _ _ H) as [Ha _].
  rewrite (SETRED_mk m a k col _ _ Ha He). eexists. split; [reflexivity|]. by eapply holds_recolour.
Qed.

Lemma holds_SETBLACK m c a col k l r : holds m c (Node a col k l r) ->
  exists m', SETBLACK m a = Some m' /\ holds m' c (Node a false k l r).
Proof.
  intros H. pose proof (holds_left_even _ _ _ _ _ _ _ H) as He. pose proof (h_tree _ _ _ H) as [Ha _].
  rewrite (SETBLACK_mk m a k col _ _ Ha He). eexists. split; [reflexivity|]. by eapply holds_recolour.
Qed.

Definition blacken (t : tree) : tree := match t with Leaf => Leaf | Node a _ k l r => Node a false k l r end.

Lemma holds_setblack_if m c t : holds m c t -> exists m', setblack_if m (ptr t) = Some m' /\ holds m' c (blacken t).
Proof.
  intros H. unfold setblack_if. rewrite (holds_null _ _ _ H). destruct t; [eauto|]. by eapply holds_SETBLACK.
Qed.

Lemma holds_RED m c a col k l r : holds m c (Node a col k l r) -> RED m a = Some col.
Proof.
  intros H. pose proof (holds_left_even _ _ _ _ _ _ _ H) as He. pose proof (h_tree _ _ _ H) as [Ha _]. by apply (RED_mk m a k col _ _ Ha).
Qed.

Lemma holds_is_red m c t : holds m c t -> is_red m (ptr t) = Some (redb t).
Proof. intros H. unfold is_red. rewrite (holds_null _ _ _ H). destruct t; [done|]. by eapply holds_RED. Qed.

Lemma holds_LEFT m c a col k l r : holds m c (Node a col k l r) -> LEFT m a = Some (ptr l).
Proof.
  intros H. pose proof (holds_left_even _ _ _ _ _ _ _ H) as He. pose proof (h_tree _ _ _ H) as [Ha _]. by apply (LEFT_mk m a k col _ _ Ha).
Qed.

Lemma holds_RIGHT m c a col k l r : holds m c (Node a col k l r) -> RIGHT m a = Some (ptr r).
Proof. intros H. pose proof (h_tree _ _ _ H) as [Ha _]. by apply (RIGHT_mk m a k col _ _ Ha). Qed.

Lemma holds_key m c a col k l r : holds m c (Node a col k l r) -> node_key m a = Some k.
Proof. intros H. pose proof (h_tree _ _ _ H) as [Ha _]. by apply (node_key_mk m a k col _ _ Ha). Qed.

Lemma holds_SETNODEPTR m c t P : holds m c t -> Z.even P = true -> SETNODEPTR m (loc c) P = Some (set_loc m c P).
Proof. intros [H1 H2 H3 H4]. apply (SETNODEPTR_loc m c t); [|done|done]. by intros ->. Qed.

(** ** Rotations *)

Lemma set_loc_cong m m1 c P x : nodes m1 !! x = nodes m !! x -> nodes (set_loc m1 c P) !! x = nodes (set_loc m c P) !! x.
Proof.
  destruct c as [|f c]; [done|]. simpl. intros E. destruct (decide (x = faddr f)) as [-> | Hn].
  - by rewrite !lookup_insert_eq.
  - by rewrite !lookup_insert_ne by done.
Qed.

(** A subtree replaced by one of the same nodes. *)
Lemma holds_replace m m' c t t' : holds m c t -> rep (nodes m') t' ->
  vroot m' = vroot (set_loc m c (ptr t')) ->
  (forall x, (0 < cnt x (addrs_ctx c))%nat -> nodes m' !! x = nodes (set_loc m c (ptr t')) !! x) ->
  (forall x, cnt x (addrs t') = cnt x (addrs t)) -> holds m' c t'.
Proof.
  intros [H1 H2 H3 H4] Hr Hv Hx Hc. split.
  - rewrite Hv. by apply (vroot_set_loc m c t).
  - exact Hr.
  - eapply rep_ctx_agree; [exact Hx|]. apply (rep_ctx_set_loc m c (ptr t)); [exact H3|].
    intros x. specialize (H4 x). rewrite cnt_app in H4. split; [lia|]. intros H. apply H4. lia.
  - eapply distinct_equiv; [|exact H4]. intros x. rewrite !cnt_app, Hc. lia.
Qed.

(** Looks an address up in an updated memory. *)
Ltac lookups Hd :=
  repeat first
    [ progress cbn [nodes set_node]
    | rewrite lookup_insert_eq
    | match goal with |- <[?a := _]> _ !! ?b = _ => rewrite (lookup_insert_ne _ a b) by (let E := fresh in intros E; apart Hd b) end
    | match goal with |- nodes (set_loc _ _ _) !! ?b = nodes (set_loc _ _ _) !! ?b => apply set_loc_cong end
    | match goal with |- nodes (set_loc _ _ _) !! ?b = _ => rewrite set_loc_lookup by apart Hd b end ];
  first [eassumption | reflexivity].

(** A subtree that the updates do not touch. *)
Ltac untouched Hd :=
  eapply rep_agree; [|eassumption]; let x := fresh "x" in let Hx := fresh "Hx" in intros x Hx; lookups Hd.

Ltac replaced H Hd :=
  eexists; split; [reflexivity|]; apply (holds_replace _ _ _ _ _ H);
  [ cbn [rep ptr]; repeat split; first [lookups Hd | untouched Hd]
  | try reflexivity
  | let x := fresh "x" in let Hx := fresh "Hx" in intros x Hx; lookups Hd
  | let x := fresh "x" in intros x; cbn [addrs]; cnts; lia ].

(** SETNODEPTR at the same place, after updates of nodes below. *)
Lemma SETNODEPTR_below m m1 c t P : holds m c t -> vroot m1 = vroot m ->
  (forall x, (0 < cnt x (addrs_ctx c))%nat -> nodes m1 !! x = nodes m !! x) -> Z.even P = true ->
  SETNODEPTR m1 (loc c) P = Some (set_loc m1 c P).
Proof.
  intros [H1 H2 H3 H4] Hv Hx HP. apply (SETNODEPTR_loc m1 c t); [|by eapply rep_ctx_agree | done | done].
  intros ->. by rewrite Hv.
Qed.

Ltac replaced_last H Hd P EP :=
  rewrite (SETNODEPTR_below _ _ _ _ P H);
  [ replaced H Hd; match goal with c : list frame |- _ => destruct c; reflexivity end
  | reflexivity
  | let x := fresh "x" in let Hx := fresh "Hx" in intros x Hx; lookups Hd
  | exact EP ].

Section Rotations.
Context (m : tree_mem) (c0 : list frame).

Lemma holds_sub_even c t : holds m c t -> forall u, (forall x, (cnt x (addrs u) <= cnt x (addrs t))%nat) -> Z.even (ptr u) = true.
Proof using Type. intros [_ _ _ H] u Hu. eapply even_ptr; [exact H|]. intros x. rewrite cnt_app. specialize (Hu x). lia. Qed.

(** Evenness of the parts of the tree in [H]. *)
Ltac evens H := eapply (holds_sub_even _ _ H); let x := fresh in intros x; cbn [addrs]; cnts; lia.

Lemma split_single_LL p gp cp cg kp kg t cc d p_r : p_r < 0 -> holds m c0 (Node gp cg kg (Node p cp kp t cc) d) ->
  exists m', split_single m p gp (loc c0) p_r = Some m' /\ holds m' c0 (Node p false kp t (Node gp true kg cc d)).
Proof using Type.
  intros Hp H. pose proof (h_distinct _ _ _ H) as Hd. pose proof (h_tree _ _ _ H) as (Hgn & (Hpn & Ht & Hcc) & Hdd). simpl in Hgn.
  assert (Ecc : Z.even (ptr cc) = true) by evens H. assert (Ed : Z.even (ptr d) = true) by evens H.
  assert (Et : Z.even (ptr t) = true) by evens H.
  assert (Ep : Z.even (ptr (Node p cp kp t cc)) = true) by evens H. simpl in Ep.
  unfold split_single. rewrite (holds_SETNODEPTR m c0 _ p H Ep).
  rewrite (SETBLACK_mk _ p kp cp (ptr t) (ptr cc)); [|lookups Hd|done].
  rewrite (SETRED_mk _ gp kg cg p (ptr d)); [|lookups Hd|done].
  destruct (Z.ltb_spec p_r 0); [|lia].
  rewrite (RIGHT_mk _ p kp false (ptr t) (ptr cc)); [|lookups Hd].
  rewrite (SETLEFT_mk _ gp kg true p (ptr d)); [|lookups Hd|done|done].
  rewrite (SETRIGHT_mk _ p kp false (ptr t) (ptr cc)); [|lookups Hd].
  replaced H Hd.
Qed.

Lemma split_single_RR p gp cp cg kp kg t cc d p_r : 0 < p_r -> holds m c0 (Node gp cg kg d (Node p cp kp cc t)) ->
  exists m', split_single m p gp (loc c0) p_r = Some m' /\ holds m' c0 (Node p false kp (Node gp true kg d cc) t).
Proof using Type.
  intros Hp H. pose proof (h_distinct _ _ _ H) as Hd. pose proof (h_tree _ _ _ H) as (Hgn & Hdd & (Hpn & Hcc & Ht)). simpl in Hgn.
  assert (Ecc : Z.even (ptr cc) = true) by evens H. assert (Ed : Z.even (ptr d) = true) by evens H.
  assert (Eg : Z.even (ptr (Node gp cg kg d (Node p cp kp cc t))) = true) by evens H. simpl in Eg.
  assert (Ep : Z.even (ptr (Node p cp kp cc t)) = true) by evens H. simpl in Ep.
  unfold split_single. rewrite (holds_SETNODEPTR m c0 _ p H Ep).
  rewrite (SETBLACK_mk _ p kp cp (ptr cc) (ptr t)); [|lookups Hd|done].
  rewrite (SETRED_mk _ gp kg cg (ptr d) p); [|lookups Hd|done].
  destruct (Z.ltb_spec p_r 0); [lia|].
  rewrite (LEFT_mk _ p kp false (ptr cc) (ptr t)); [|lookups Hd|done].
  rewrite (SETRIGHT_mk _ gp kg true (ptr d) p); [|lookups Hd].
  rewrite (SETLEFT_mk _ p kp false (ptr cc) (ptr t)); [|lookups Hd|done|done].
  replaced H Hd.
Qed.

Lemma split_double_RL root p gp cr cp cg kr kp kg a b cc d p_r : p_r < 0 ->
  holds m c0 (Node gp cg kg d (Node p cp kp (Node root cr kr a b) cc)) ->
  exists m', split_double m root p gp (ptr b) (ptr a) (loc c0) p_r = Some m' /\
    holds m' c0 (Node root false kr (Node gp true kg d a) (Node p true kp b cc)).
Proof using Type.
  intros Hp H. pose proof (h_distinct _ _ _ H) as Hd.
  pose proof (h_tree _ _ _ H) as (Hgn & Hdd & (Hpn & (Hrn & Ha & Hb) & Hcc)). simpl in Hgn, Hpn.
  assert (Ea : Z.even (ptr a) = true) by evens H. assert (Eb : Z.even (ptr b) = true) by evens H.
  assert (Ed : Z.even (ptr d) = true) by evens H.
  assert (Eg : Z.even (ptr (Node gp cg kg d (Node p cp kp (Node root cr kr a b) cc))) = true) by evens H. simpl in Eg.
  assert (Ep : Z.even (ptr (Node p cp kp (Node root cr kr a b) cc)) = true) by evens H. simpl in Ep.
  assert (Er : Z.even (ptr (Node root cr kr a b)) = true) by evens H. simpl in Er.
  unfold split_double.
  rewrite (SETRED_mk _ p kp cp root (ptr cc)); [|lookups Hd|done].
  rewrite (SETRED_mk _ gp kg cg (ptr d) p); [|lookups Hd|done].
  rewrite (SETBLACK_mk _ root kr cr (ptr a) (ptr b)); [|lookups Hd|done].
  destruct (Z.ltb_spec p_r 0); [|lia].
  rewrite (SETLEFT_mk _ p kp true root (ptr cc)); [|lookups Hd|done|done].
  rewrite (SETNODEPTR_right _ root kr false (ptr a) (ptr b)); [|lookups Hd|done|done].
  rewrite (SETRIGHT_mk _ gp kg true (ptr d) p); [|lookups Hd].
  rewrite (SETNODEPTR_left _ root kr false (ptr a) p); [|lookups Hd|done|done].
  replaced_last H Hd root Er.
Qed.

Lemma split_double_LR root p gp cr cp cg kr kp kg a b cc d p_r : 0 < p_r ->
  holds m c0 (Node gp cg kg (Node p cp kp cc (Node root cr kr a b)) d) ->
  exists m', split_double m root p gp (ptr b) (ptr a) (loc c0) p_r = Some m' /\
    holds m' c0 (Node root false kr (Node p true kp cc a) (Node gp true kg b d)).
Proof using Type.
  intros Hp H. pose proof (h_distinct _ _ _ H) as Hd.
  pose proof (h_tree _ _ _ H) as (Hgn & (Hpn & Hcc & (Hrn & Ha & Hb)) & Hdd). simpl in Hgn, Hpn.
  assert (Ea : Z.even (ptr a) = true) by evens H. assert (Eb : Z.even (ptr b) = true) by evens H.
  assert (Ecc : Z.even (ptr cc) = true) by evens H.
  assert (Eg : Z.even (ptr (Node gp cg kg (Node p cp kp cc (Node root cr kr a b)) d)) = true) by evens H. simpl in Eg.
  assert (Ep : Z.even (ptr (Node p cp kp cc (Node root cr kr a b))) = true) by evens H. simpl in Ep.
  assert (Er : Z.even (ptr (Node root cr kr a b)) = true) by evens H. simpl in Er.
  unfold split_double.
  rewrite (SETRED_mk _ p kp cp (ptr cc) root); [|lookups Hd|done].
  rewrite (SETRED_mk _ gp kg cg p (ptr d)); [|lookups Hd|done].
  rewrite (SETBLACK_mk _ root kr cr (ptr a) (ptr b)); [|lookups Hd|done].
  destruct (Z.ltb_spec p_r 0); [lia|].
  rewrite (SETRIGHT_mk _ p kp true (ptr cc) root); [|lookups Hd].
  rewrite (SETNODEPTR_left _ root kr false (ptr a) (ptr b)); [|lookups Hd|done|done].
  rewrite (SETLEFT_mk _ gp kg true p (ptr d)); [|lookups Hd|done|done].
  rewrite (SETNODEPTR_right _ root kr false p (ptr b)); [|lookups Hd|done|done].
  replaced_last H Hd root Er.
Qed.
End Rotations.

(** * Red-black trees *)

(** Every path to a leaf has [n] black nodes and no two red ones in a row. *)
Fixpoint is_rb (t : tree) (n : nat) : Prop :=
  match t with
  | Leaf => n = O
  | Node _ true _ l r => is_rb l n /\ is_rb r n /\ redb l = false /\ redb r = false
  | Node _ false _ l r => match n with O => False | S n => is_rb l n /\ is_rb r n end
  end.

(** The context of a subtree with [n] black nodes whose root is red or not. *)
Fixpoint ctx_rb (c : list frame) (n : nat) (red : bool) : Prop :=
  match c with
  | [] => True
  | f :: c => is_rb (fsib f) n /\
      (if fred f then red = false /\ redb (fsib f) = false /\ ctx_rb c n true else ctx_rb c (S n) false)
  end.

Lemma ctx_rb_weaken c n : ctx_rb c n true -> ctx_rb c n false.
Proof. destruct c as [|f c]; [done|]. simpl. destruct (fred f); [|done]. intros (_ & H & _). done. Qed.

Lemma ctx_rb_any c n b : ctx_rb c n true -> ctx_rb c n b.
Proof. destruct b; [done | apply ctx_rb_weaken]. Qed.

Lemma plug_rb c : forall t n, is_rb t n -> ctx_rb c n (redb t) -> exists N, is_rb (plug c t) N.
Proof.
  induction c as [|f c IH]; intros t n Ht Hc; [eauto|]. simpl in Hc |- *. destruct Hc as (Hs & Hc).
  destruct f as [a col k s|a col k s]; simpl in *; destruct col.
  - destruct Hc as (E & Es & Hc). apply (IH _ n); simpl; auto.
  - apply (IH _ (S n)); simpl; auto.
  - destruct Hc as (E & Es & Hc). apply (IH _ n); simpl; auto.
  - apply (IH _ (S n)); simpl; auto.
Qed.

(** Going down. *)
Lemma down_rb c a col k l r n : is_rb (Node a col k l r) n -> ctx_rb c n col ->
  exists n', is_rb l n' /\ is_rb r n' /\ ctx_rb (LF a col k r :: c) n' (redb l) /\ ctx_rb (RF a col k l :: c) n' (redb r) /\
    (col = true -> redb l = false /\ redb r = false).
Proof.
  intros H Hc. simpl in H. destruct col.
  - destruct H as (Hl & Hr & El & Er). exists n. simpl. rewrite El, Er. tauto.
  - destruct n as [|n]; [done|]. destruct H as (Hl & Hr). exists n. simpl. split; [done|]. split; [done|]. split; [done|]. split; [done|]. discriminate.
Qed.

Lemma blacken_rb t n : redb t = true -> is_rb t n -> is_rb (blacken t) (S n).
Proof. destruct t as [|a [] k l r]; simpl; [done | tauto | done]. Qed.

Lemma blacken_red t : redb (blacken t) = false.
Proof. by destruct t. Qed.

Lemma blacken_inorder t : inorder (blacken t) = inorder t.
Proof. by destruct t. Qed.

Lemma blacken_ptr t : ptr (blacken t) = ptr t.
Proof. by destruct t. Qed.

(** The rotation of the node [t] below two nodes. *)
Definition rot (f1 f2 : frame) (t : tree) : tree :=
  match f1, f2, t with
  | LF p _ kp cc, LF gp _ kg d, _ => Node p false kp t (Node gp true kg cc d)
  | RF p _ kp cc, RF gp _ kg d, _ => Node p false kp (Node gp true kg d cc) t
  | LF p _ kp cc, RF gp _ kg d, Node root _ kr a b => Node root false kr (Node gp true kg d a) (Node p true kp b cc)
  | RF p _ kp cc, LF gp _ kg d, Node root _ kr a b => Node root false kr (Node p true kp cc a) (Node gp true kg b d)
  | _, _, Leaf => Leaf
  end.

(** The sign of a comparison is the side taken. *)
Definition went (r : Z) (f : frame) : Prop := match f with LF _ _ _ _ => r < 0 | RF _ _ _ _ => 0 < r end.

Lemma rot_holds m f1 f2 c0 a cr k l r p_r gp_r : holds m (f1 :: f2 :: c0) (Node a cr k l r) -> went p_r f1 -> went gp_r f2 ->
  exists m', (if negb (eqb (0 <? p_r) (0 <? gp_r)) then split_double m a (faddr f1) (faddr f2) (ptr r) (ptr l) (loc c0) p_r
              else split_single m (faddr f1) (faddr f2) (loc c0) p_r) = Some m' /\
    holds m' c0 (rot f1 f2 (Node a cr k l r)).
Proof.
  intros H H1 H2. apply holds_fill, holds_fill in H. destruct f1, f2; simpl in H1, H2, H |- *;
    destruct (Z.ltb_spec 0 p_r), (Z.ltb_spec 0 gp_r); try lia; simpl.
  - by eapply split_single_LL.
  - by eapply split_double_RL.
  - by eapply split_double_LR.
  - by eapply split_single_RR.
Qed.

Lemma rot_inorder f1 f2 a cr k l r : inorder (rot f1 f2 (Node a cr k l r)) = inorder (fill f2 (fill f1 (Node a cr k l r))).
Proof. destruct f1, f2; simpl; rewrite <- ?app_assoc; simpl; rewrite <- ?app_assoc; reflexivity. Qed.

Lemma rot_rb f1 f2 a k l r n c0 : fred f1 = true -> redb (fsib f2) = false ->
  is_rb (Node a true k l r) n -> ctx_rb (f1 :: f2 :: c0) n false ->
  is_rb (rot f1 f2 (Node a true k l r)) (S n) /\ redb (rot f1 f2 (Node a true k l r)) = false /\ fred f2 = false /\ ctx_rb c0 (S n) false.
Proof.
  intros Hf1 Ed (Hl & Hr & El & Er) (Hcc & Hc). rewrite Hf1 in Hc. destruct Hc as (_ & Ecc & Hd & Hc).
  destruct (fred f2) eqn:Hf2; [by destruct Hc|]. destruct f1, f2; simpl in *; subst; repeat split; auto.
Qed.

(** ** maybe_split_for_insert *)

(** Without two red children nothing happens. *)
Lemma no_split m c a col k l r pp gpp p_r gp_r : holds m c (Node a col k l r) -> redb l && redb r = false ->
  maybe_split_for_insert m (loc c) pp gpp p_r gp_r false = Some m.
Proof.
  intros H E. unfold maybe_split_for_insert. rewrite (holds_deref _ _ _ H). simpl ptr.
  rewrite (holds_RIGHT _ _ _ _ _ _ _ H), (holds_LEFT _ _ _ _ _ _ _ H).
  rewrite (holds_is_red m (RF a col k l :: c) r), (holds_is_red m (LF a col k r :: c) l) by (by apply holds_iff_r || by apply holds_iff).
  by rewrite andb_comm, E.
Qed.

(** The colouring of a split. *)
Lemma split_colours m c a col k l r : holds m c (Node a col k l r) ->
  exists m1 m2 m3, SETRED m a = Some m1 /\ setblack_if m1 (ptr r) = Some m2 /\ setblack_if m2 (ptr l) = Some m3 /\
    holds m3 c (Node a true k (blacken l) (blacken r)).
Proof.
  intros H. destruct (holds_SETRED _ _ _ _ _ _ _ H) as (m1 & E1 & H1).
  apply holds_iff_r in H1. destruct (holds_setblack_if _ _ _ H1) as (m2 & E2 & H2).
  apply holds_iff_r, holds_iff in H2. destruct (holds_setblack_if _ _ _ H2) as (m3 & E3 & H3).
  exists m1, m2, m3. split; [done|]. split; [done|]. split; [done|]. by apply holds_iff.
Qed.

(** What the pointers of the caller have to be where a rotation uses them. *)
Definition pointers (c : list frame) (pp gpp : option nodep) (p_r gp_r : Z) : Prop :=
  match c with
  | [] => pp = None
  | f1 :: c => pp = Some (loc c) /\ went p_r f1 /\
      (fred f1 = true -> exists f2 c0, c = f2 :: c0 /\ gpp = Some (loc c0) /\ went gp_r f2)
  end.

(** What the split makes of the tree: the context and the subtree there. *)
Definition split_result (c : list frame) (t : tree) : list frame * tree :=
  match c with
  | f1 :: f2 :: c0 => if fred f1 then (c0, rot f1 f2 t) else (c, t)
  | _ => (c, t)
  end.

Lemma do_split m c a col k l r pp gpp p_r gp_r mode : holds m c (Node a col k l r) -> pointers c pp gpp p_r gp_r ->
  mode = true \/ redb l = true /\ redb r = true ->
  let '(c', t') := split_result c (Node a true k (blacken l) (blacken r)) in
  exists m', maybe_split_for_insert m (loc c) pp gpp p_r gp_r mode = Some m' /\ holds m' c' t'.
Proof.
  intros H Hp Hmode. destruct (split_colours _ _ _ _ _ _ _ H) as (m1 & m2 & m3 & E1 & E2 & E3 & H3).
  set (t := Node a true k (blacken l) (blacken r)) in *.
  assert (Hsplit : (if mode then Some true else let? rr := is_red m (ptr r) in let? lr := is_red m (ptr l) in Some (rr && lr)) = Some true).
  { destruct Hmode as [-> | [El Er]]; [done|]. destruct mode; [done|].
    rewrite (holds_is_red m (RF a col k l :: c) r), (holds_is_red m (LF a col k r :: c) l) by (by apply holds_iff_r || by apply holds_iff).
    by rewrite El, Er. }
  assert (Hgo : maybe_split_for_insert m (loc c) pp gpp p_r gp_r mode =
    match pp with
    | None => Some m3
    | Some parentp =>
        let? p := DEREFNODEPTR m3 parentp in let? pred := RED m3 p in
        if pred then
          let? gparentp := gpp in let? gp := DEREFNODEPTR m3 gparentp in
          if negb (eqb (0 <? p_r) (0 <? gp_r)) then split_double m3 a p gp (ptr r) (ptr l) gparentp p_r else split_single m3 p gp gparentp p_r
        else Some m3
    end).
  { unfold maybe_split_for_insert. rewrite (holds_deref _ _ _ H). simpl ptr.
    rewrite (holds_RIGHT _ _ _ _ _ _ _ H), (holds_LEFT _ _ _ _ _ _ _ H), Hsplit, E1, E2, E3. by destruct pp. }
  rewrite Hgo. destruct c as [|f1 c]; simpl in Hp |- *; [subst pp; eauto|]. destruct Hp as (-> & Hw & Hf).
  assert (H3' := H3). apply holds_fill in H3'. rewrite (holds_deref _ _ _ H3').
  assert (RED m3 (ptr (fill f1 t)) = Some (fred f1)) as -> by (destruct f1; by eapply holds_RED).
  destruct (fred f1) eqn:Ef.
  - destruct (Hf eq_refl) as (f2 & c0 & -> & -> & Hw2). assert (H3'' := H3'). apply holds_fill in H3''. rewrite (holds_deref _ _ _ H3'').
    destruct (rot_holds m3 f1 f2 c0 a true k (blacken l) (blacken r) p_r gp_r H3 Hw Hw2) as (m' & E & Hm').
    rewrite !blacken_ptr in E. exists m'. split; [|exact Hm']. rewrite <- E. by destruct f1, f2.
  - destruct c as [|f2 c0]; eauto.
Qed.

(** * Order *)

(** The nodes before and behind a subtree. *)
Fixpoint before (c : list frame) : list (Z * Z) :=
  match c with [] => [] | LF _ _ _ _ :: c => before c | RF a _ k l :: c => before c ++ inorder l ++ [(a, k)] end.
Fixpoint after (c : list frame) : list (Z * Z) :=
  match c with [] => [] | LF a _ k r :: c => (a, k) :: inorder r ++ after c | RF _ _ _ _ :: c => after c end.

Lemma inorder_plug c : forall t, inorder (plug c t) = before c ++ inorder t ++ after c.
Proof.
  induction c as [|f c IH]; intros t; simpl; [by rewrite app_nil_r|]. rewrite IH. destruct f; simpl;
    rewrite <- ?app_assoc; simpl; rewrite <- ?app_assoc; reflexivity.
Qed.

Lemma inorder_plug_cong c t t' : inorder t = inorder t' -> inorder (plug c t) = inorder (plug c t').
Proof. intros E. by rewrite !inorder_plug, E. Qed.

Fixpoint height (t : tree) : nat := match t with Leaf => O | Node _ _ _ l r => S (Nat.max (height l) (height r)) end.

Lemma blacken_height t : height (blacken t) = height t.
Proof. by destruct t. Qed.

Section Order.
Context (compar : Z -> Z -> Z).

(** What tsearch needs of the comparison function: a strict order. *)
Record compar_ok : Prop := {
  co_sym : forall x y, compar x y < 0 <-> 0 < compar y x;
  co_trans : forall x y z, compar x y < 0 -> compar y z < 0 -> compar x z < 0 }.

Definition below (x y : Z * Z) : Prop := compar (snd x) (snd y) < 0.

Fixpoint ordered (l : list (Z * Z)) : Prop :=
  match l with [] => True | x :: l => Forall (below x) l /\ ordered l end.

Lemma ordered_app l k : ordered (l ++ k) <-> ordered l /\ ordered k /\ Forall (fun x => Forall (below x) k) l.
Proof.
  induction l as [|x l IH]; simpl; [split; [intros; auto | tauto]|].
  rewrite Forall_app, Forall_cons, IH. tauto.
Qed.

(** The way to a key. *)
Definition on_path (k : Z) (f : frame) : Prop :=
  match f with LF _ _ kf _ => compar k kf < 0 | RF _ _ kf _ => 0 < compar k kf end.

Context (Hok : compar_ok).

(** A key's path separates the smaller from the larger keys. *)
Lemma path_separates k c : forall t, ordered (inorder (plug c t)) -> Forall (on_path k) c ->
  Forall (fun x => compar (snd x) k < 0) (before c) /\ Forall (fun x => compar k (snd x) < 0) (after c).
Proof using Hok.
  induction c as [|f c IH]; intros t Ho Hp; [done|]. inversion Hp as [|? ? Hf Hc]; subst.
  simpl in Ho. destruct (IH _ Ho Hc) as [Hb Ha]. rewrite inorder_plug in Ho.
  apply ordered_app in Ho as (_ & Ho & _). apply ordered_app in Ho as (Ho & _ & _).
  destruct f as [a col kf r|a col kf l]; simpl in *.
  - split; [done|]. apply ordered_app in Ho as (_ & (Hr & _) & _). constructor; [done|]. apply Forall_app. split; [|done].
    eapply Forall_impl; [exact Hr|]. intros x Hx. unfold below in Hx. simpl in Hx. by eapply (co_trans Hok).
  - split; [|done]. apply ordered_app in Ho as (_ & _ & Hl). apply Forall_app. split; [done|]. apply Forall_app. split.
    + eapply Forall_impl; [exact Hl|]. intros x Hx. apply Forall_cons in Hx as [Hx _]. unfold below in Hx. simpl in Hx.
      eapply (co_trans Hok); [exact Hx|]. by apply (co_sym Hok).
    + constructor; [|done]. simpl. by apply (co_sym Hok).
Qed.

(** Inserting at the end of the path keeps the order. *)
Lemma insert_ordered k c q : ordered (inorder (plug c Leaf)) -> Forall (on_path k) c ->
  ordered (before c ++ (q, k) :: after c) /\ inorder (plug c Leaf) = before c ++ after c.
Proof using Hok.
  intros Ho Hp. destruct (path_separates k c Leaf Ho Hp) as [Hb Ha]. rewrite inorder_plug in *. simpl in *.
  split; [|done]. apply ordered_app in Ho as (O1 & O2 & O3). apply ordered_app. split; [done|]. split; [done|].
  rewrite Forall_forall in *. intros x Hx. constructor; [by apply Hb | by apply O3].
Qed.
End Order.

(** * tsearch *)

Section Insertion.
Context (compar : Z -> Z -> Z) (Hok : compar_ok compar) (k : Z).

Definition next (t : tree) : tree :=
  match t with Leaf => Leaf | Node _ _ k' l r => if compar k k' <? 0 then l else r end.

(** A black node without red children cannot be split. *)
Definition calm (t : tree) : Prop :=
  match t with Leaf => True | Node _ c _ l r => c = false /\ redb l = false /\ redb r = false end.

(** What the loop knows of its pointers: all is as it seems; or a split above
    has made the grandparent's pointer useless, which a calm node does not need;
    or a double rotation has made both useless, which takes two nodes. *)
Inductive mode :=
| Fresh | Below1 | Below2.

Definition mode_ok (md : mode) (c : list frame) (t : tree) (pp gpp : option nodep) (p_r gp_r : Z) : Prop :=
  match md with
  | Fresh =>
      pointers c pp gpp p_r gp_r /\
      match c with
      | [] => redb t = false
      | f1 :: c' => (redb t = true -> redb (fsib f1) = false) /\
          (fred f1 = true -> match c' with [] => False | f2 :: _ => redb (fsib f2) = false end) /\
          match c' with [] => True | f2 :: c0 => gpp = Some (loc c0) /\ went gp_r f2 end
      end
  | Below1 => calm t /\ match c with [] => False | f1 :: c' => pp = Some (loc c') /\ went p_r f1 end
  | Below2 => redb t = true /\ redb (match t with Node _ _ _ l _ => l | Leaf => Leaf end) = false /\
      redb (match t with Node _ _ _ _ r => r | Leaf => Leaf end) = false /\ calm (next t) /\ next t <> Leaf
  end.

Definition measure (md : mode) (t : tree) : nat :=
  match md with Below2 => S (2 * height (next t)) | _ => 2 * height t end%nat.

(** How the loop ends. *)
Definition loop_end (L : list (Z * Z)) (m : tree_mem) (e : search_end) : Prop :=
  match e with
  | Found x => exists t, holds m [] t /\ (exists n, is_rb t n) /\ inorder t = L /\ exists kx, (x, kx) ∈ L /\ compar k kx = 0
  | Insert rootp pp nextp r p_r => exists f c, rootp = loc c /\ nextp = loc (f :: c) /\ holds m (f :: c) Leaf /\
      ctx_rb (f :: c) 0 false /\ Forall (on_path compar k) (f :: c) /\ inorder (plug (f :: c) Leaf) = L /\
      pointers (f :: c) (Some rootp) pp r p_r /\
      (fred f = true -> match c with [] => False | f2 :: _ => redb (fsib f2) = false end)
  end.

(** The frame of a node on the way to [k]. *)
Definition step_frame (a : Z) (col : bool) (k' : Z) (l r : tree) : frame :=
  if compar k k' <? 0 then LF a col k' r else RF a col k' l.

Lemma step_fill a col k' l r : fill (step_frame a col k' l r) (next (Node a col k' l r)) = Node a col k' l r.
Proof using Type. unfold step_frame. simpl. by destruct (compar k k' <? 0). Qed.

Lemma step_loc a col k' l r c : loc (step_frame a col k' l r :: c) = if compar k k' <? 0 then LEFTPTR a else RIGHTPTR a.
Proof using Type. unfold step_frame. by destruct (compar k k' <? 0). Qed.

Lemma step_went a col k' l r : compar k k' <> 0 -> went (compar k k') (step_frame a col k' l r).
Proof using Type. intros H. unfold step_frame. destruct (Z.ltb_spec (compar k k') 0); simpl; lia. Qed.

Lemma step_path a col k' l r : compar k k' <> 0 -> on_path compar k (step_frame a col k' l r).
Proof using Type. intros H. unfold step_frame. destruct (Z.ltb_spec (compar k k') 0); simpl; lia. Qed.

Lemma step_fred a col k' l r : fred (step_frame a col k' l r) = col.
Proof using Type. unfold step_frame. by destruct (compar k k' <? 0). Qed.

Lemma step_rb c a col k' l r n : is_rb (Node a col k' l r) n -> ctx_rb c n col ->
  exists n', is_rb (next (Node a col k' l r)) n' /\
    ctx_rb (step_frame a col k' l r :: c) n' (redb (next (Node a col k' l r))).
Proof using Type.
  intros H Hc. destruct (down_rb c a col k' l r n H Hc) as (n' & Hl & Hr & Cl & Cr & _). exists n'.
  unfold step_frame. simpl next. destruct (compar k k' <? 0); auto.
Qed.

Lemma next_height t : t <> Leaf -> (height (next t) < height t)%nat.
Proof using Type. destruct t as [|a col k' l r]; [done|]. intros _. simpl. destruct (compar k k' <? 0); lia. Qed.

(** A node that is not split. *)
Lemma mode_no_split md c t pp gpp p_r gp_r a col k' l r : mode_ok md c t pp gpp p_r gp_r -> t = Node a col k' l r ->
  md <> Fresh -> redb l && redb r = false.
Proof using Type.
  intros H -> Hm. destruct md; [done | |]; simpl in H.
  - destruct H as ((_ & -> & _) & _). done.
  - destruct H as (_ & -> & _). done.
Qed.

(** Going on below a node that was not split. *)
Lemma mode_down md c a col k' l r pp gpp p_r gp_r n : compar k k' <> 0 ->
  mode_ok md c (Node a col k' l r) pp gpp p_r gp_r -> is_rb (Node a col k' l r) n -> redb l && redb r = false ->
  next (Node a col k' l r) <> Leaf ->
  exists md', mode_ok md' (step_frame a col k' l r :: c) (next (Node a col k' l r)) (Some (loc c)) pp (compar k k') p_r /\
    (measure md' (next (Node a col k' l r)) < measure md (Node a col k' l r))%nat.
Proof using Type.
  intros Hk Hm Hrb Hns Hnl. pose proof (next_height (Node a col k' l r) ltac:(done)) as Hh.
  pose proof (step_went a col k' l r Hk) as Hw. pose proof (step_fred a col k' l r) as Hf.
  assert (Hsib : redb (next (Node a col k' l r)) = true -> redb (fsib (step_frame a col k' l r)) = false).
  { unfold step_frame. simpl. destruct (compar k k' <? 0); simpl; intros E; rewrite E in Hns; [done | by rewrite andb_comm in Hns]. }
  set (f := step_frame a col k' l r) in *. set (t' := next (Node a col k' l r)) in *.
  destruct md; unfold mode_ok in Hm.
  - destruct Hm as [Hp Hm]. exists Fresh. split; [|cbn [measure]; lia]. unfold mode_ok, pointers. rewrite Hf.
    destruct c as [|f1 c']; simpl in Hp, Hm.
    + subst pp. split; [split; [done|]; split; [done|]; intros ->; done|]. split; [done|]. split; [intros ->; done | done].
    + destruct Hp as (-> & Hw1 & _). destruct Hm as (Hs & Hr & _). split.
      * split; [done|]. split; [done|]. intros ->. exists f1, c'. auto.
      * split; [done|]. split; [intros ->; by apply Hs | auto].
  - destruct Hm as [Hc Hm]. exists Fresh. split; [|cbn [measure]; lia]. unfold mode_ok, pointers. rewrite Hf.
    destruct c as [|f1 c']; [done|]. destruct Hm as (-> & Hw1). simpl in Hc. destruct Hc as (-> & El & Er).
    split; [split; [done|]; split; [done|]; done|]. split; [done|]. split; [done | auto].
  - exists Below1. split; [|cbn [measure]; fold t'; lia]. destruct Hm as (_ & _ & _ & Hc & _). split; [exact Hc|]. auto.
Qed.

(** The state in which the loop goes on. *)
Definition continues (c : list frame) (t : tree) (m' : tree_mem) (nextp : nodep) (pp gpp : option nodep) (p_r gp_r : Z) (mu : nat) : Prop :=
  exists c2 t2 md n2, holds m' c2 t2 /\ loc c2 = nextp /\ t2 <> Leaf /\ is_rb t2 n2 /\ ctx_rb c2 n2 (redb t2) /\
    Forall (on_path compar k) c2 /\ inorder (plug c2 t2) = inorder (plug c t) /\ mode_ok md c2 t2 pp gpp p_r gp_r /\
    (measure md t2 < mu)%nat.

Lemma red_kids t n : redb t = true -> is_rb t n -> calm (blacken t) /\ blacken t <> Leaf.
Proof using Type. destruct t as [|a [] k' l r]; simpl; try done. intros _ (_ & _ & El & Er). done. Qed.

Lemma split_node_rb c a k' l r n : is_rb (Node a false k' l r) n -> redb l = true -> redb r = true -> ctx_rb c n false ->
  is_rb (Node a true k' (blacken l) (blacken r)) n /\ calm (next (Node a true k' (blacken l) (blacken r))) /\
  next (Node a true k' (blacken l) (blacken r)) <> Leaf.
Proof using Type.
  intros H El Er Hc. destruct n as [|n]; [done|]. destruct H as (Hl & Hr).
  destruct (red_kids l n El Hl), (red_kids r n Er Hr). split.
  - simpl. auto using blacken_rb, blacken_red.
  - simpl next. destruct (compar k k' <? 0); done.
Qed.

(** Going on below a split node whose parent [c] is as before, or rotated. *)
Lemma after_split c a k' l r n m' f1c c0 pp gpp p_r gp_r mu L : compar k k' <> 0 ->
  let t := Node a true k' (blacken l) (blacken r) in
  holds m' c0 t -> is_rb t n -> ctx_rb c0 n true -> calm (next t) -> next t <> Leaf -> Forall (on_path compar k) c0 ->
  inorder (plug c0 t) = L -> loc c0 = f1c -> (2 * height (next t) < mu)%nat -> L = inorder (plug c (Node a false k' l r)) ->
  pp = Some f1c -> p_r = compar k k' ->
  continues c (Node a false k' l r) m' (if compar k k' <? 0 then LEFTPTR a else RIGHTPTR a) pp gpp p_r gp_r mu.
Proof using Type.
  intros Hk t Hh Hrb Hc Hcalm Hnl Hp HL Hloc Hmu EL -> ->.
  destruct (step_rb c0 a true k' (blacken l) (blacken r) n Hrb Hc) as (n2 & H1 & H2). fold t in H1, H2.
  pose proof (step_fill a true k' (blacken l) (blacken r)) as Es. fold t in Es.
  exists (step_frame a true k' (blacken l) (blacken r) :: c0), (next t), Below1, n2. split.
  { apply holds_fill. by rewrite Es. }
  split; [apply step_loc|]. split; [done|]. split; [done|]. split; [done|]. split; [constructor; [by apply step_path | done]|].
  split; [cbn [plug]; rewrite Es; congruence|].
  split; [|done]. split; [done|]. split; [congruence | by apply step_went].
Qed.

(** Down one black node. *)
Lemma fill_rb f t n c : fred f = false -> is_rb (fill f t) n -> ctx_rb c n false -> exists n', is_rb t n' /\ ctx_rb (f :: c) n' true.
Proof using Type.
  intros E H Hc. destruct f as [a col k' s|a col k' s]; simpl in *; subst col; (destruct n as [|n]; [done|]); destruct H; eauto.
Qed.

(** Going on after a rotation. *)
Lemma rotated_continues m' f1 f2 c0 a k' l r n pp p_r : compar k k' <> 0 -> redb l = true -> redb r = true -> redb (fsib f2) = false ->
  fred f1 = true ->
  let t := Node a true k' (blacken l) (blacken r) in
  holds m' c0 (rot f1 f2 t) -> is_rb (rot f1 f2 t) (S n) -> redb (rot f1 f2 t) = false -> ctx_rb c0 (S n) false ->
  calm (next t) -> next t <> Leaf -> on_path compar k f1 -> on_path compar k f2 -> Forall (on_path compar k) c0 ->
  inorder (plug c0 (rot f1 f2 t)) = inorder (plug (f1 :: f2 :: c0) (Node a false k' l r)) ->
  (height (next t) < height (Node a false k' l r))%nat -> calm (blacken l) /\ blacken l <> Leaf -> calm (blacken r) /\ blacken r <> Leaf ->
  continues (f1 :: f2 :: c0) (Node a false k' l r) m' (if compar k k' <? 0 then LEFTPTR a else RIGHTPTR a)
    (Some (loc (f1 :: f2 :: c0))) pp (compar k k') p_r (2 * height (Node a false k' l r)).
Proof using Hok.
  intros Hk El Er Hs2 Hf1 t Hh Hrb Hred Hc Hcalm Hnl Hp1 Hp2 Hp0 Eo Hht Hcl Hcr.
  assert (Hhl : (height (blacken l) < height (Node a false k' l r))%nat) by (rewrite blacken_height; simpl; lia).
  assert (Hhr : (height (blacken r) < height (Node a false k' l r))%nat) by (rewrite blacken_height; simpl; lia).
  assert (Hsingle : forall f, rot f1 f2 t = fill f t -> fred f = false -> on_path compar k f -> loc (f :: c0) = loc (f1 :: f2 :: c0) ->
    continues (f1 :: f2 :: c0) (Node a false k' l r) m' (if compar k k' <? 0 then LEFTPTR a else RIGHTPTR a)
      (Some (loc (f1 :: f2 :: c0))) pp (compar k k') p_r (2 * height (Node a false k' l r))).
  { intros f Ef Ec Hpf Hloc. rewrite Ef in *. destruct (fill_rb f t (S n) c0 Ec Hrb Hc) as (n' & H1 & H2).
    eapply (after_split (f1 :: f2 :: c0) a k' l r n' m' (loc (f :: c0)) (f :: c0));
      [done | by apply holds_fill | exact H1 | exact H2 | exact Hcalm | exact Hnl | by constructor | exact Eo | done | fold t; lia | reflexivity | by rewrite Hloc | done]. }
  assert (Hdouble : forall x y, rot f1 f2 t = Node a false k' x y ->
    (forall s, s = next (Node a false k' x y) -> redb s = true -> mode_ok Below2 [] s None None 0 0 /\
       (S (2 * height (next s)) < 2 * height (Node a false k' l r))%nat /\ s <> Leaf) -> redb x = true -> redb y = true ->
    continues (f1 :: f2 :: c0) (Node a false k' l r) m' (if compar k k' <? 0 then LEFTPTR a else RIGHTPTR a)
      (Some (loc (f1 :: f2 :: c0))) pp (compar k k') p_r (2 * height (Node a false k' l r))).
  { intros x y Ex Hnext Rx Ry. rewrite Ex in *.
    destruct (step_rb c0 a false k' x y (S n) Hrb Hc) as (n2 & H1 & H2).
    assert (Hr2 : redb (next (Node a false k' x y)) = true) by (simpl; by destruct (compar k k' <? 0)).
    destruct (Hnext _ eq_refl Hr2) as (Hm & Hmu & Hnl').
    pose proof (step_fill a false k' x y) as Es.
    exists (step_frame a false k' x y :: c0), (next (Node a false k' x y)), Below2, n2.
    split; [apply holds_fill; by rewrite Es|]. split; [apply step_loc|]. split; [done|]. split; [done|]. split; [done|].
    split; [constructor; [by apply step_path | done]|]. split; [cbn [plug]; rewrite Es; exact Eo|]. split; [exact Hm | exact Hmu]. }
  destruct f1 as [p [] kp cc|p [] kp cc], f2 as [gp cg kg d|gp cg kg d]; simpl in Hf1, Hs2, Hp1, Hp2; try done.
  - eapply (Hsingle (LF p false kp (Node gp true kg cc d))); done.
  - eapply (Hdouble (Node gp true kg d (blacken l)) (Node p true kp (blacken r) cc)); [done| |done|done].
    intros s -> _. simpl in Hrb. simpl. destruct (compar k k' <? 0); simpl.
    + destruct (Z.ltb_spec (compar k kg) 0); [lia|]. simpl in Hhl, Hhr. repeat split; try tauto; try done; try apply blacken_red; lia.
    + destruct (Z.ltb_spec (compar k kp) 0); [|lia]. simpl in Hhl, Hhr. repeat split; try tauto; try done; try apply blacken_red; lia.
  - eapply (Hdouble (Node p true kp cc (blacken l)) (Node gp true kg (blacken r) d)); [done| |done|done].
    intros s -> _. simpl in Hrb. simpl. destruct (compar k k' <? 0); simpl.
    + destruct (Z.ltb_spec (compar k kp) 0); [lia|]. simpl in Hhl, Hhr. repeat split; try tauto; try done; try apply blacken_red; lia.
    + destruct (Z.ltb_spec (compar k kg) 0); [|lia]. simpl in Hhl, Hhr. repeat split; try tauto; try done; try apply blacken_red; lia.
  - eapply (Hsingle (RF p false kp (Node gp true kg d cc))); done.
Qed.

Lemma split_continues m c a col k' l r n pp gpp p_r gp_r : compar k k' <> 0 -> holds m c (Node a col k' l r) ->
  is_rb (Node a col k' l r) n -> ctx_rb c n col -> Forall (on_path compar k) c ->
  mode_ok Fresh c (Node a col k' l r) pp gpp p_r gp_r -> redb l = true -> redb r = true ->
  exists m', maybe_split_for_insert m (loc c) pp gpp p_r gp_r false = Some m' /\
    continues c (Node a col k' l r) m' (if compar k k' <? 0 then LEFTPTR a else RIGHTPTR a) (Some (loc c)) pp (compar k k') p_r
      (2 * height (Node a col k' l r)).
Proof using Hok.
  intros Hk Hh Hrb Hc Hp [Hptr Hm] El Er. destruct col; [simpl in Hrb; destruct Hrb as (_ & _ & El' & _); congruence|].
  destruct (split_node_rb c a k' l r n Hrb El Er Hc) as (Hrb' & Hcalm & Hnl).
  pose proof (do_split m c a false k' l r pp gpp p_r gp_r false Hh Hptr (or_intror (conj El Er))) as Hs.
  set (t := Node a true k' (blacken l) (blacken r)) in *.
  assert (Hht : (height (next t) < height (Node a false k' l r))%nat).
  { subst t. simpl. destruct (compar k k' <? 0); rewrite blacken_height; lia. }
  assert (Eio : inorder t = inorder (Node a false k' l r)) by (subst t; simpl; by rewrite !blacken_inorder).
  assert (Hplain : forall m', holds m' c t -> ctx_rb c n true ->
    continues c (Node a false k' l r) m' (if compar k k' <? 0 then LEFTPTR a else RIGHTPTR a) (Some (loc c)) pp (compar k k') p_r
      (2 * height (Node a false k' l r))).
  { intros m' H Hct. eapply (after_split c a k' l r n m' (loc c) c); eauto; [fold t; lia | by apply inorder_plug_cong]. }
  destruct c as [|f1 [|f2 c0]]; simpl in Hs.
  - destruct Hs as (m' & E & H). exists m'. split; [done|]. by apply Hplain.
  - destruct Hs as (m' & E & H). exists m'. split; [done|]. apply Hplain; [done|].
    destruct Hm as (_ & Hr & _). simpl in Hc |- *. destruct (fred f1); [exfalso; by apply Hr | done].
  - destruct (fred f1) eqn:Ef1; destruct Hs as (m' & E & H); exists m'; (split; [done|]); [|apply Hplain; [done|]; simpl in Hc |- *; by rewrite Ef1 in *].
    destruct Hm as (_ & Hr & _). specialize (Hr eq_refl).
    destruct (rot_rb f1 f2 a k' (blacken l) (blacken r) n c0 Ef1 Hr Hrb' Hc) as (R1 & R2 & R3 & R4). fold t in R1, R2.
    assert (Eo : inorder (plug c0 (rot f1 f2 t)) = inorder (plug (f1 :: f2 :: c0) (Node a false k' l r))).
    { simpl. apply inorder_plug_cong. unfold t. rewrite rot_inorder. fold t. destruct f1, f2; simpl; by rewrite ?blacken_inorder. }
    inversion Hp as [|? ? Hp1 Hp']; subst. inversion Hp' as [|? ? Hp2 Hp0]; subst.
    destruct n as [|n]; [done|]. destruct Hrb as (Hl' & Hr').
    eapply rotated_continues; eauto using red_kids.
Qed.

Lemma holds_plug m c : forall t, holds m c t -> holds m [] (plug c t).
Proof using Type. induction c as [|f c IH]; intros t H; [done|]. simpl. apply IH. by apply holds_fill. Qed.

(** Where the new node goes. *)
Lemma insert_end md m c a col k' l r n pp gpp p_r gp_r : compar k k' <> 0 -> holds m c (Node a col k' l r) ->
  is_rb (Node a col k' l r) n -> ctx_rb c n col -> Forall (on_path compar k) c -> mode_ok md c (Node a col k' l r) pp gpp p_r gp_r ->
  next (Node a col k' l r) = Leaf ->
  loop_end (inorder (plug c (Node a col k' l r))) m
    (Insert (loc c) pp (if compar k k' <? 0 then LEFTPTR a else RIGHTPTR a) (compar k k') p_r).
Proof using Type.
  intros Hk Hh Hrb Hc Hp Hm Hn. pose proof (step_fill a col k' l r) as Es. rewrite Hn in Es.
  destruct (step_rb c a col k' l r n Hrb Hc) as (n' & H1 & H2). rewrite Hn in H1, H2. simpl in H1. subst n'.
  exists (step_frame a col k' l r), c. split; [done|]. split; [by rewrite step_loc|].
  split; [apply holds_fill; by rewrite Es|]. split; [exact H2|]. split; [constructor; [by apply step_path | done]|].
  split; [cbn [plug]; by rewrite Es|]. cbn [pointers]. rewrite step_fred. destruct md; unfold mode_ok in Hm.
  - destruct Hm as [Hptr Hm]. destruct c as [|f1 c']; simpl in Hptr, Hm.
    + split; [split; [done|]; split; [by apply step_went|]; intros ->; done | intros ->; done].
    + destruct Hptr as (-> & Hw & _). destruct Hm as (Hs & _). split; [|exact Hs].
      split; [done|]. split; [by apply step_went|]. intros _. by exists f1, c'.
  - destruct Hm as ((-> & _) & _). split; [|done]. split; [done|]. split; [by apply step_went | done].
  - destruct Hm as (_ & _ & _ & _ & Hnl). done.
Qed.

Lemma tsearch_loop_spec fuel : forall md m c t pp gpp p_r gp_r n, holds m c t -> t <> Leaf -> is_rb t n -> ctx_rb c n (redb t) ->
  Forall (on_path compar k) c -> mode_ok md c t pp gpp p_r gp_r -> (measure md t < fuel)%nat ->
  exists m' e, tsearch_loop compar fuel m k (loc c) pp gpp p_r gp_r = Some (m', e) /\ loop_end (inorder (plug c t)) m' e.
Proof using Hok.
  induction fuel as [|fuel IH]; intros md m c t pp gpp p_r gp_r n Hh Hnl Hrb Hc Hp Hm Hf; [lia|].
  destruct t as [|a col k' l r]; [done|]. cbn [tsearch_loop]. rewrite (holds_deref _ _ _ Hh). simpl ptr.
  rewrite (holds_key _ _ _ _ _ _ _ Hh). destruct (Z.eqb_spec (compar k k') 0) as [Ek|Ek].
  { exists m, (Found a). split; [done|]. exists (plug c (Node a col k' l r)). split; [by apply holds_plug|].
    split; [by eapply plug_rb|]. split; [done|]. exists k'. split; [|done]. rewrite inorder_plug. simpl.
    rewrite !elem_of_app, elem_of_cons. tauto. }
  destruct (redb l && redb r) eqn:Elr.
  - destruct md; [|by rewrite (mode_no_split _ _ _ _ _ _ _ _ _ _ _ _ Hm eq_refl) in Elr ..].
    apply andb_true_iff in Elr as [El Er].
    destruct (split_continues m c a col k' l r n pp gpp p_r gp_r Ek Hh Hrb Hc Hp Hm El Er)
      as (m' & -> & c2 & t2 & md2 & n2 & H1 & H2 & H3 & H4 & H5 & H6 & H7 & H8 & H9).
    rewrite <- H2, (holds_deref _ _ _ H1), (holds_null _ _ _ H1). destruct t2 as [|a2 col2 k2 l2 r2]; [done|].
    rewrite <- H7. eapply IH; eauto. cbn [measure] in Hf. lia.
  - rewrite (no_split _ _ _ _ _ _ _ _ _ _ _ Hh Elr). rewrite <- (step_loc a col k' l r c).
    assert (Hn : holds m (step_frame a col k' l r :: c) (next (Node a col k' l r))) by (apply holds_fill; by rewrite step_fill).
    rewrite (holds_deref _ _ _ Hn), (holds_null _ _ _ Hn).
    destruct (step_rb c a col k' l r n Hrb Hc) as (n' & H1 & H2).
    pose proof (mode_down md c a col k' l r pp gpp p_r gp_r n Ek Hm Hrb Elr) as Hd.
    pose proof (step_fill a col k' l r) as Es.
    pose proof (insert_end md m c a col k' l r n pp gpp p_r gp_r Ek Hh Hrb Hc Hp Hm) as He. rewrite <- (step_loc a col k' l r c) in He.
    destruct (next (Node a col k' l r)) as [|a2 col2 k2 l2 r2] eqn:En; [eauto|].
    destruct Hd as (md' & Hm' & Hmu); [done|]. rewrite <- Es.
    change (plug c (fill (step_frame a col k' l r) (Node a2 col2 k2 l2 r2))) with (plug (step_frame a col k' l r :: c) (Node a2 col2 k2 l2 r2)).
    eapply IH; eauto; [|lia]. constructor; [by apply step_path | done].
Qed.
End Insertion.

(** ** The new node *)

Lemma rep_lookup h t x : rep h t -> (0 < cnt x (addrs t))%nat -> h !! x <> None.
Proof.
  induction t as [|a c k l IHl r IHr]; simpl; [cnts; lia|]. intros (Ha & Hl & Hr) H. cnts.
  destruct (Z.eq_dec a x) as [->|]; [by rewrite Ha|]. destruct (decide (0 < cnt x (addrs l))%nat); [by apply IHl | apply IHr; [done | lia]].
Qed.

Lemma rep_ctx_lookup h c x : forall p, rep_ctx h c p -> (0 < cnt x (addrs_ctx c))%nat -> h !! x <> None.
Proof.
  induction c as [|f c IH]; intros p; simpl; [cnts; lia|]. intros (Hf & Hs & Hc) H. cnts.
  destruct (Z.eq_dec (faddr f) x) as [<-|]; [by rewrite Hf|].
  destruct (decide (0 < cnt x (addrs (fsib f)))%nat); [by eapply rep_lookup | eapply IH; [done | lia]].
Qed.

Lemma new_left x : Z.lor (Z.land (Z.lor x 1) 1) NULL = b2z true.
Proof.
  rewrite Z.lor_0_r, Z.land_comm. change (b2z true) with 1. apply Z.bits_inj'. intros n Hn. rewrite Z.land_spec, Z.lor_spec.
  destruct (Z.eq_dec n 0) as [->|]; [by destruct (Z.testbit x 0)|].
  replace (Z.testbit 1 n) with false; [by rewrite andb_false_l|].
  symmetry. change 1 with (2 ^ 0). apply Z.pow2_bits_false. lia.
Qed.

Lemma link_node_spec m k c q g : holds m c Leaf -> nodes m !! q = None -> good_addr q ->
  exists m', link_node m k (loc c) q g = Some m' /\ holds m' c (Node q true k Leaf Leaf).
Proof.
  intros H Hq [Hq0 He]. destruct H as [H1 H2 H3 Hd].
  assert (Hqc : cnt q (addrs_ctx c) = 0%nat).
  { destruct (decide (0 < cnt q (addrs_ctx c))%nat) as [Hc|]; [|lia]. exfalso. by eapply rep_ctx_lookup. }
  assert (Hag : forall x, (0 < cnt x (addrs_ctx c))%nat -> x <> q) by (intros x Hx ->; lia).
  unfold link_node. rewrite (SETNODEPTR_below m _ c Leaf q); [|by split | done | |done].
  2: { intros x Hx. apply lookup_insert_ne. intros ->. by apply (Hag x). }
  set (m0 := set_node m q g). assert (E0 : nodes (set_loc m0 c q) !! q = Some g).
  { rewrite set_loc_lookup by done. apply lookup_insert_eq. }
  unfold SETKEY. rewrite E0. unfold SETRED. cbn [nodes set_node]. rewrite lookup_insert_eq. cbn [key left_node right_node].
  unfold SETLEFT. cbn [nodes set_node]. rewrite lookup_insert_eq. cbn [key left_node right_node].
  unfold SETRIGHT. cbn [nodes set_node]. rewrite lookup_insert_eq. cbn [key left_node right_node].
  eexists. split; [reflexivity|]. rewrite new_left. split; simpl.
  - change q with (ptr (Node q true k Leaf Leaf)). by apply (vroot_set_loc m0 c Leaf).
  - rewrite lookup_insert_eq. done.
  - eapply (rep_ctx_agree (nodes (set_loc m0 c q))).
    + intros x Hx. apply Hag in Hx. by rewrite !lookup_insert_ne by done.
    + apply (rep_ctx_set_loc m0 c NULL); [apply rep_ctx_set; [done | exact H3]|].
      intros x. specialize (Hd x). exact Hd.
  - intros x. specialize (Hd x). simpl in Hd. cnts. destruct (Z.eq_dec q x) as [<-|]; [|exact Hd].
    rewrite Hqc. split; [lia|]. by intros _.
Qed.

(** The tree after the insertion below [f :: c]. *)
Lemma insert_rb m f c q k pp p_r r0 : holds m (f :: c) (Node q true k Leaf Leaf) -> ctx_rb (f :: c) 0 false ->
  pointers (f :: c) (Some (loc c)) pp r0 p_r ->
  (fred f = true -> match c with [] => False | f2 :: _ => redb (fsib f2) = false end) ->
  exists m' t', maybe_split_for_insert m (loc (f :: c)) (Some (loc c)) pp r0 p_r true = Some m' /\ holds m' [] t' /\
    (exists n, is_rb t' n) /\ inorder t' = before (f :: c) ++ (q, k) :: after (f :: c).
Proof.
  intros Hh Hc Hp Hs. pose proof (do_split m (f :: c) q true k Leaf Leaf (Some (loc c)) pp r0 p_r true Hh Hp (or_introl eq_refl)) as Hd.
  cbn [blacken] in Hd.
  assert (Hio : forall c' t', inorder (plug c' t') = inorder (plug (f :: c) (Node q true k Leaf Leaf)) ->
    inorder (plug c' t') = before (f :: c) ++ (q, k) :: after (f :: c)) by (intros c' t' ->; by rewrite inorder_plug).
  destruct (fred f) eqn:Ef.
  - destruct c as [|f2 c0]; [by exfalso; apply Hs|]. simpl in Hd. rewrite Ef in Hd. destruct Hd as (m' & E & Hm).
    destruct (rot_rb f f2 q k Leaf Leaf 0 c0 Ef (Hs eq_refl)) as (R1 & R2 & R3 & R4); [by simpl | done|].
    eexists m', _. split; [exact E|]. split; [by eapply holds_plug|].
    split; [eapply plug_rb; [exact R1 | by rewrite R2]|]. apply Hio. simpl. apply inorder_plug_cong. by rewrite rot_inorder.
  - assert (Hsr : split_result (f :: c) (Node q true k Leaf Leaf) = (f :: c, Node q true k Leaf Leaf)).
    { destruct c; [done|]. simpl. by rewrite Ef. }
    rewrite Hsr in Hd. destruct Hd as (m' & E & Hm). eexists m', _. split; [exact E|]. split; [by eapply holds_plug|].
    split; [|by apply Hio]. apply (plug_rb _ _ 0); [by simpl|]. simpl in Hc |- *. by rewrite Ef in *.
Qed.

(** * What the functions promise *)

(** malloc gives unused, aligned memory. *)
Definition malloc_ok (malloc : tree_mem -> option (Z * node_t)) : Prop :=
  forall m q g, malloc m = Some (q, g) -> nodes m !! q = None /\ good_addr q.

(** A search tree in memory: a red-black tree with ordered keys. *)
Definition search_tree (compar : Z -> Z -> Z) (m : tree_mem) (t : tree) : Prop :=
  holds m [] t /\ (exists n, is_rb t n) /\ ordered compar (inorder t).

Fixpoint tree_size (t : tree) : Z := match t with Leaf => 0 | Node _ _ _ l r => tree_size l + tree_size r + 1 end.

Lemma rb_height t : forall n, is_rb t n -> (height t <= 2 * n + (if redb t then 1 else 0))%nat /\ 2 ^ Z.of_nat n <= tree_size t + 1.
Proof.
  induction t as [|a col k l IHl r IHr]; intros n H; simpl in H; [subst n; simpl; lia|].
  destruct col.
  - destruct H as (Hl & Hr & El & Er). destruct (IHl n Hl) as [L1 L2], (IHr n Hr) as [R1 R2]. rewrite El in L1. rewrite Er in R1.
    simpl. split; [lia|]. pose proof (Z.pow_pos_nonneg 2 (Z.of_nat n)). lia.
  - destruct n as [|n]; [done|]. destruct H as (Hl & Hr). destruct (IHl n Hl) as [L1 L2], (IHr n Hr) as [R1 R2].
    rewrite Nat2Z.inj_succ, Z.pow_succ_r by lia. simpl. split; [destruct (redb l), (redb r); lia | lia].
Qed.

(** The height is at most twice the logarithm of the size, and one. *)
Lemma rb_balanced t n : is_rb t n -> Z.of_nat (height t) <= 2 * Z.log2 (tree_size t + 1) + 1.
Proof.
  intros H. destruct (rb_height t n H) as [H1 H2].
  assert (Z.of_nat n <= Z.log2 (tree_size t + 1)).
  { rewrite <- (Z.log2_pow2 (Z.of_nat n)) by lia. by apply Z.log2_le_mono. }
  destruct (redb t); lia.
Qed.

Lemma absent compar k c : compar_ok compar -> ordered compar (inorder (plug c Leaf)) -> Forall (on_path compar k) c ->
  forall x kx, (x, kx) ∈ inorder (plug c Leaf) -> compar k kx <> 0.
Proof.
  intros Hok Ho Hp x kx Hx. destruct (path_separates compar Hok k c Leaf Ho Hp) as [Hb Ha].
  rewrite inorder_plug in Hx. simpl in Hx. rewrite Forall_forall in Hb, Ha. apply elem_of_app in Hx as [Hx|Hx].
  - apply Hb in Hx. simpl in Hx. apply (co_sym _ Hok) in Hx. lia.
  - apply Ha in Hx. simpl in Hx. lia.
Qed.

(** What tsearch gives: the node with the key, a new node, or NULL. *)
Definition tsearch_result (compar : Z -> Z -> Z) (malloc : tree_mem -> option (Z * node_t)) (m' : tree_mem) (k : Z) (L L' : list (Z * Z)) (x : Z) : Prop :=
  (exists kx, (x, kx) ∈ L /\ compar k kx = 0 /\ L' = L) \/
  (forall y ky, (y, ky) ∈ L -> compar k ky <> 0) /\
    ((exists l1 l2, x <> NULL /\ L = l1 ++ l2 /\ L' = l1 ++ (x, k) :: l2) \/
     (x = NULL /\ L' = L /\ malloc m' = None)).

Section Main.
Context (compar : Z -> Z -> Z) (Hok : compar_ok compar) (malloc : tree_mem -> option (Z * node_t)) (Hmalloc : malloc_ok malloc).

Lemma tsearch_insert_spec m k f c pp r p_r : holds m (f :: c) Leaf -> ctx_rb (f :: c) 0 false ->
  Forall (on_path compar k) (f :: c) -> ordered compar (inorder (plug (f :: c) Leaf)) ->
  pointers (f :: c) (Some (loc c)) pp r p_r ->
  (fred f = true -> match c with [] => False | f2 :: _ => redb (fsib f2) = false end) ->
  exists m' x t', tsearch_insert malloc m k (loc c) pp (loc (f :: c)) r p_r = Some (m', x) /\ search_tree compar m' t' /\
    tsearch_result compar malloc m' k (inorder (plug (f :: c) Leaf)) (inorder t') x.
Proof using Hok Hmalloc.
  intros Hh Hc Hp Ho Hptr Hs. pose proof (absent compar k (f :: c) Hok Ho Hp) as Habs.
  unfold tsearch_insert. destruct (malloc m) as [[q g]|] eqn:Em.
  - destruct (Hmalloc m q g Em) as [Hq Hg]. rewrite (even_land q) by apply Hg. cbn [Z.eqb negb].
    destruct (link_node_spec m k (f :: c) q g Hh Hq Hg) as (m1 & -> & H1).
    destruct (insert_rb m1 f c q k pp p_r r H1 Hc Hptr Hs) as (m' & t' & E & H2 & H3 & H4).
    destruct (insert_ordered compar Hok k (f :: c) q Ho Hp) as [Ho' Esplit].
    exists m', q, t'. split; [rewrite E; by destruct f|]. rewrite <- H4 in Ho'. split; [by split|].
    right. split; [exact Habs|]. left. exists (before (f :: c)), (after (f :: c)). split; [destruct Hg; unfold NULL; lia | by split].
  - exists m, NULL, (plug (f :: c) Leaf). split; [done|]. split.
    + split; [by apply holds_plug|]. split; [|done]. by apply (plug_rb _ _ 0).
    + right. split; [exact Habs|]. right. eauto.
Qed.

Lemma tsearch_spec m t k fuel : search_tree compar m t -> (2 * height t < fuel)%nat ->
  exists m' x t', tsearch compar malloc fuel m k = Some (m', x) /\ search_tree compar m' t' /\
    tsearch_result compar malloc m' k (inorder t) (inorder t') x.
Proof using Hok Hmalloc.
  intros (Hh & (n & Hrb) & Ho) Hf. unfold tsearch. pose proof (holds_deref m [] t Hh) as E. cbn [loc] in E. rewrite E.
  destruct (holds_setblack_if m [] t Hh) as (m1 & -> & H1). rewrite (holds_null _ _ _ Hh).
  destruct t as [|a col k' l r].
  - unfold tsearch_insert. destruct (malloc m1) as [[q g]|] eqn:Em.
    + destruct (Hmalloc m1 q g Em) as [Hq Hg]. rewrite (even_land q) by apply Hg. cbn [Z.eqb negb].
      destruct (link_node_spec m1 k [] q g H1 Hq Hg) as (m2 & E2 & H2). cbn [loc] in E2. rewrite E2.
      exists m2, q, (Node q true k Leaf Leaf). split; [done|]. split; [split; [done|]; split; [by exists O | by simpl]|].
      right. split; [intros y ky Hy; by apply not_elem_of_nil in Hy|]. left. exists [], []. split; [destruct Hg; unfold NULL; lia | done].
    + exists m1, NULL, Leaf. split; [done|]. split; [split; [done|]; split; [by exists O | done]|].
      right. split; [intros y ky Hy; by apply not_elem_of_nil in Hy|]. right. eauto.
  - set (t0 := blacken (Node a col k' l r)) in *.
    assert (Hrb0 : exists n0, is_rb t0 n0).
    { destruct col; [|by exists n]. exists (S n). by apply (blacken_rb (Node a true k' l r)). }
    destruct Hrb0 as (n0 & Hrb0).
    destruct (tsearch_loop_spec compar Hok k fuel Fresh m1 [] t0 None None 0 0 n0) as (m2 & e & Eq & He);
      [done | done | done | done | done | done | cbn [measure]; subst t0; rewrite blacken_height; lia|].
    cbn [loc] in Eq. rewrite Eq. cbn [plug] in He. assert (Ei : inorder t0 = inorder (Node a col k' l r)) by done. rewrite Ei in He.
    destruct e as [x|rootp pp nextp r0 p_r]; cbn [loop_end] in He.
    + destruct He as (t' & H2 & H3 & H4 & kx & H5 & H6). exists m2, x, t'. split; [done|]. rewrite H4.
      split; [split; [done|]; split; [done | rewrite H4; exact Ho]|]. left. eauto.
    + destruct He as (f & c & -> & -> & H2 & H3 & H4 & H5 & H6 & H7). rewrite <- H5 in Ho |- *.
      by apply tsearch_insert_spec.
Qed.

(** tfind follows the same path. *)
Lemma tfind_spec m k fuel : forall c t, holds m c t -> (height t < fuel)%nat -> ordered compar (inorder (plug c t)) ->
  Forall (on_path compar k) c ->
  exists x, tfind_loop compar fuel m k (loc c) = Some x /\
    ((exists kx, (x, kx) ∈ inorder (plug c t) /\ compar k kx = 0) \/
     x = NULL /\ forall y ky, (y, ky) ∈ inorder (plug c t) -> compar k ky <> 0).
Proof using Hok.
  induction fuel as [|fuel IH]; intros c t Hh Hf Ho Hp; [lia|]. cbn [tfind_loop].
  rewrite (holds_deref _ _ _ Hh), (holds_null _ _ _ Hh). destruct t as [|a col k' l r].
  { exists NULL. split; [done|]. right. split; [done|]. by apply absent. }
  simpl ptr. rewrite (holds_key _ _ _ _ _ _ _ Hh). destruct (Z.eqb_spec (compar k k') 0) as [Ek|Ek].
  { exists a. split; [done|]. left. exists k'. split; [|done]. rewrite inorder_plug. simpl. rewrite !elem_of_app, elem_of_cons. tauto. }
  pose proof (step_fill compar k a col k' l r) as Es. pose proof (next_height compar k (Node a col k' l r) ltac:(done)) as Hn.
  rewrite <- (step_loc compar k a col k' l r c). rewrite <- Es in Hh, Ho. apply holds_fill in Hh.
  rewrite <- Es. apply (IH (step_frame compar k a col k' l r :: c) (next compar k (Node a col k' l r))); [done | lia | done|].
  constructor; [by apply step_path | done].
Qed.
End Main.

(** ** A sample tree *)

Lemma distinct_NoDup l : NoDup l -> Forall good_addr l -> distinct l.
Proof.
  intros Hn Hg x. split.
  - apply NoDup_ListNoDup in Hn. apply (NoDup_count_occ Z.eq_dec), Hn.
  - intros Hx. rewrite Forall_forall in Hg. apply Hg, list_elem_of_In, cnt_In, Hx.
Qed.

Definition sample_tree : tree :=
  Node 32 false 20 (Node 16 false 10 Leaf Leaf) (Node 64 true 40 (Node 48 false 30 Leaf Leaf) (Node 80 false 50 Leaf Leaf)).

Definition sample_mem : tree_mem := {| vroot := 32; nodes := list_to_map
  [(16, mk 10 false 0 0); (32, mk 20 false 16 64); (48, mk 30 false 0 0); (64, mk 40 true 48 80); (80, mk 50 false 0 0)] |}.

Lemma sub_compar_ok : compar_ok Z.sub.
Proof. split; intros; lia. Qed.

Lemma sample_ok : search_tree Z.sub sample_mem sample_tree.
Proof.
  split; [split|split].
  - reflexivity.
  - simpl. repeat split; vm_compute; reflexivity.
  - done.
  - apply distinct_NoDup; [apply (bool_decide_unpack _); vm_compute; reflexivity|]. repeat constructor; vm_compute; reflexivity.
  - exists 2%nat. vm_compute. tauto.
  - simpl. repeat (constructor || done).
Qed.

(** An allocator with one block left. *)
Definition one_block (m : tree_mem) : option (Z * node_t) :=
  match nodes m !! 160 with None => Some (160, {| key := 7; left_node := 9; right_node := 11 |}) | Some _ => None end.

Lemma one_block_ok : malloc_ok one_block.
Proof.
  intros m q g. unfold one_block. destruct (nodes m !! 160) eqn:E; [done|]. intros [= <- <-]. split; [done|]. split; [lia | done].
Qed.

(** C27: tsearch on a red-black search tree in memory, with any fuel above four times
    the logarithm of its size, never reads outside the tree, ends, and leaves a
    red-black search tree: with the node that has the key and the same contents; or,
    where no node has it, with a new node for the key between its neighbours, or NULL
    and the same contents if malloc fails.  tfind gives the node of the key or NULL.
    The height is at most twice the logarithm of the size, plus one. *)
Theorem tsearch_correct compar malloc m t k fuel : compar_ok compar -> malloc_ok malloc -> search_tree compar m t ->
  4 * Z.log2 (tree_size t + 1) + 2 < Z.of_nat fuel ->
  (exists m' x t', tsearch compar malloc fuel m k = Some (m', x) /\ search_tree compar m' t' /\
     tsearch_result compar malloc m' k (inorder t) (inorder t') x) /\
  (exists x, tfind compar fuel m k = Some x /\
     ((exists kx, (x, kx) ∈ inorder t /\ compar k kx = 0) \/ x = NULL /\ forall y ky, (y, ky) ∈ inorder t -> compar k ky <> 0)) /\
  Z.of_nat (height t) <= 2 * Z.log2 (tree_size t + 1) + 1.
Proof.
  intros Hok Hm Hs Hf. assert (Hs' := Hs). destruct Hs' as (Hh & (n & Hn) & Ho). pose proof (rb_balanced t n Hn) as Hb.
  split; [apply tsearch_spec; [done | done | done | lia]|]. split; [|done].
  apply (tfind_spec compar Hok m k fuel [] t Hh); [lia | done | done].
Qed.

Lemma tsearch_correct_witness :
  (exists m' x t', tsearch Z.sub one_block 100 sample_mem 60 = Some (m', x) /\ search_tree Z.sub m' t' /\
     tsearch_result Z.sub one_block m' 60 (inorder sample_tree) (inorder t') x) /\
  (exists x, tfind Z.sub 100 sample_mem 60 = Some x /\
     ((exists kx, (x, kx) ∈ inorder sample_tree /\ Z.sub 60 kx = 0) \/
      x = NULL /\ forall y ky, (y, ky) ∈ inorder sample_tree -> Z.sub 60 ky <> 0)) /\
  Z.of_nat (height sample_tree) <= 2 * Z.log2 (tree_size sample_tree + 1) + 1.
Proof.
  apply (tsearch_correct Z.sub one_block sample_mem sample_tree 60 100 sub_compar_ok one_block_ok sample_ok). reflexivity.
Defined.
