(* ===== verification/Tdelete.v ===== *)
(** * Deletion from search trees (misc/tsearch.c: tdelete, twalk, tdestroy)

    tdelete keeps a stack of pointers to the ancestors, unchains the node or its
    successor, whose key it copies, and restores the balance on the way up. *)

From Stdlib Require Import ZArith.
From stdpp Require Import base gmap list sorting.
From S2P Require Import Prelude Tsearch.
#[local] Open Scope Z_scope.
#[local] Open Scope glibc_scope.

(** 2 * UINTPTR_WIDTH *)
Definition stacksize : Z := 2 * 64.

(** assert (sp < stacksize); nodestack[sp++] = np; the top is the head. *)
Definition push (stack : list nodep) (np : nodep) : option (list nodep) :=
  if Z.of_nat (length stack) <? stacksize then Some (np :: stack) else None.

Section Tdelete.
Context (compar : Z -> Z -> Z).

(** The search: rootp, p and the stack where the key was found. *)
Fixpoint tdelete_find (fuel : nat) (m : tree_mem) (k : Z) (rootp : nodep) (root p : Z) (stack : list nodep)
    : option (option (nodep * Z * list nodep)) :=
  match fuel with
  | O => None
  | S fuel =>
      let? rk := node_key m root in
      let cmp := compar k rk in
      if cmp =? 0 then Some (Some (rootp, p, stack))
      else
        let? stack := push stack rootp in
        let? p := DEREFNODEPTR m rootp in
        let rootp := if cmp <? 0 then LEFTPTR p else RIGHTPTR p in
        let? root := (if cmp <? 0 then LEFT m p else RIGHT m p) in
        if root =? NULL then Some None else tdelete_find fuel m k rootp root p stack
  end.

(** The successor: up and the stack. *)
Fixpoint tdelete_succ (fuel : nat) (m : tree_mem) (parentp up : nodep) (stack : list nodep) : option (nodep * list nodep) :=
  match fuel with
  | O => None
  | S fuel =>
      let? stack := push stack parentp in
      let? upn := DEREFNODEPTR m up in
      let? l := LEFT m upn in
      if l =? NULL then Some (up, stack) else tdelete_succ fuel m up (LEFTPTR upn) stack
  end.

(** The node that is unchained. *)
Definition tdelete_unchained (fuel : nat) (m : tree_mem) (rootp : nodep) (root : Z) (stack : list nodep)
    : option (Z * list nodep) :=
  let? r := RIGHT m root in
  let? q := LEFT m root in
  if (q =? NULL) || (r =? NULL) then Some (root, stack)
  else
    let? (up, stack) := tdelete_succ fuel m rootp (RIGHTPTR root) stack in
    let? unchained := DEREFNODEPTR m up in
    Some (unchained, stack).

(** Chains R into the parent of UNCHAINED. *)
Definition tdelete_chain (m : tree_mem) (rootp : nodep) (unchained : Z) (stack : list nodep) : option (tree_mem * Z) :=
  let? r := LEFT m unchained in
  let? r := (if r =? NULL then RIGHT m unchained else Some r) in
  match stack with
  | [] => let? m := SETNODEPTR m rootp r in Some (m, r)
  | pp :: _ =>
      let? q := DEREFNODEPTR m pp in
      let? rq := RIGHT m q in
      let? m := (if unchained =? rq then SETRIGHT m q r else SETLEFT m q r) in
      Some (m, r)
  end.

(** if (RED (p)) SETRED (q); else SETBLACK (q); *)
Definition copy_colour (m : tree_mem) (p q : Z) : option tree_mem :=
  let? c := RED m p in if c then SETRED m q else SETBLACK m q.

(** How an iteration ends: the subtree is repaired, or R is P now. *)
Inductive fixed := Repaired (m : tree_mem) | Higher (m : tree_mem) (r : Z) (stack : list nodep).

(** R is the left child of P: a red brother Q is rotated to the top. *)
Definition rotate_red_left (m : tree_mem) (p q : Z) (pp : nodep) (stack : list nodep)
    : option (tree_mem * Z * nodep * list nodep) :=
  let? qred := RED m q in
  if qred then
    let? m := SETBLACK m q in
    let? m := SETRED m p in
    let? x := LEFT m q in
    let? m := SETRIGHT m p x in
    let? m := SETLEFT m q p in
    let? m := SETNODEPTR m pp q in
    let? stack := push stack (LEFTPTR q) in
    let? q' := RIGHT m p in
    Some (m, q', LEFTPTR q, stack)
  else Some (m, q, pp, stack).

(** Q is black. *)
Definition fix_left_black (m : tree_mem) (p q : Z) (pp : nodep) (stack : list nodep) : option fixed :=
  let? lq := LEFT m q in
  let? rq := RIGHT m q in
  let? lred := is_red m lq in
  let? rred := is_red m rq in
  if negb lred && negb rred then
    let? m := SETRED m q in
    Some (Higher m p stack)
  else if negb rred then
    let q2 := lq in
    let? m := copy_colour m p q2 in
    let? x := LEFT m q2 in
    let? m := SETRIGHT m p x in
    let? y := RIGHT m q2 in
    let? m := SETLEFT m q y in
    let? m := SETRIGHT m q2 q in
    let? m := SETLEFT m q2 p in
    let? m := SETNODEPTR m pp q2 in
    let? m := SETBLACK m p in
    Some (Repaired m)
  else
    let? m := copy_colour m p q in
    let? m := SETBLACK m p in
    let? m := SETBLACK m rq in
    let? x := LEFT m q in
    let? m := SETRIGHT m p x in
    let? m := SETLEFT m q p in
    let? m := SETNODEPTR m pp q in
    Some (Repaired m).

Definition fix_left (m : tree_mem) (p : Z) (pp : nodep) (stack : list nodep) : option fixed :=
  let? q := RIGHT m p in
  let? (m, q, pp, stack) := rotate_red_left m p q pp stack in
  fix_left_black m p q pp stack.

(** The mirror images. *)
Definition rotate_red_right (m : tree_mem) (p q : Z) (pp : nodep) (stack : list nodep)
    : option (tree_mem * Z * nodep * list nodep) :=
  let? qred := RED m q in
  if qred then
    let? m := SETBLACK m q in
    let? m := SETRED m p in
    let? x := RIGHT m q in
    let? m := SETLEFT m p x in
    let? m := SETRIGHT m q p in
    let? m := SETNODEPTR m pp q in
    let? stack := push stack (RIGHTPTR q) in
    let? q' := LEFT m p in
    Some (m, q', RIGHTPTR q, stack)
  else Some (m, q, pp, stack).

Definition fix_right_black (m : tree_mem) (p q : Z) (pp : nodep) (stack : list nodep) : option fixed :=
  let? lq := LEFT m q in
  let? rq := RIGHT m q in
  let? rred := is_red m rq in
  let? lred := is_red m lq in
  if negb rred && negb lred then
    let? m := SETRED m q in
    Some (Higher m p stack)
  else if negb lred then
    let q2 := rq in
    let? m := copy_colour m p q2 in
    let? x := RIGHT m q2 in
    let? m := SETLEFT m p x in
    let? y := LEFT m q2 in
    let? m := SETRIGHT m q y in
    let? m := SETLEFT m q2 q in
    let? m := SETRIGHT m q2 p in
    let? m := SETNODEPTR m pp q2 in
    let? m := SETBLACK m p in
    Some (Repaired m)
  else
    let? m := copy_colour m p q in
    let? m := SETBLACK m p in
    let? m := SETBLACK m lq in
    let? x := RIGHT m q in
    let? m := SETLEFT m p x in
    let? m := SETRIGHT m q p in
    let? m := SETNODEPTR m pp q in
    Some (Repaired m).

Definition fix_right (m : tree_mem) (p : Z) (pp : nodep) (stack : list nodep) : option fixed :=
  let? q := LEFT m p in
  let? (m, q, pp, stack) := rotate_red_right m p q pp stack in
  fix_right_black m p q pp stack.

(** while (sp > 0 && (r == NULL || !RED (r))): the memory and the final r. *)
Fixpoint tdelete_fix (fuel : nat) (m : tree_mem) (r : Z) (stack : list nodep) : option (tree_mem * Z) :=
  match fuel with
  | O => None
  | S fuel =>
      match stack with
      | [] => Some (m, r)
      | pp :: _ =>
          let? rred := is_red m r in
          if rred then Some (m, r)
          else
            let? p := DEREFNODEPTR m pp in
            let? l := LEFT m p in
            let? x := (if r =? l then fix_left m p pp stack else fix_right m p pp stack) in
            match x with
            | Repaired m => Some (m, NULL)
            | Higher m r stack => tdelete_fix fuel m r (tail stack)
            end
      end
  end.

Definition free_node (m : tree_mem) (n : Z) : tree_mem := {| vroot := vroot m; nodes := delete n (nodes m) |}.

(** __tdelete: the memory and the result, NULL if the key is not there. *)
Definition tdelete (fuel : nat) (m : tree_mem) (k : Z) : option (tree_mem * Z) :=
  let? p := DEREFNODEPTR m ROOTP in
  if p =? NULL then Some (m, NULL)
  else
    let? found := tdelete_find fuel m k ROOTP p p [] in
    match found with
    | None => Some (m, NULL)
    | Some (rootp, retval, stack) =>
        let? root := DEREFNODEPTR m rootp in
        let? (unchained, stack) := tdelete_unchained fuel m rootp root stack in
        let? (m, r) := tdelete_chain m rootp unchained stack in
        let? m := (if negb (unchained =? root) then
                     let? uk := node_key m unchained in SETKEY m root uk
                   else Some m) in
        let? ured := RED m unchained in
        let? m := (if negb ured then
                     let? (m, r) := tdelete_fix fuel m r stack in
                     setblack_if m r
                   else Some m) in
        Some (free_node m unchained, retval)
    end.
End Tdelete.

(** ** twalk and tdestroy *)

Inductive VISIT := preorder | postorder | endorder | leaf.

(** The calls of the action, in order. *)
Fixpoint trecurse (fuel : nat) (m : tree_mem) (root : Z) (level : Z) : option (list (Z * VISIT * Z)) :=
  match fuel with
  | O => None
  | S fuel =>
      let? l := LEFT m root in
      let? r := RIGHT m root in
      if (l =? NULL) && (r =? NULL) then Some [(root, leaf, level)]
      else
        let? cl := (if negb (l =? NULL) then trecurse fuel m l (level + 1) else Some []) in
        let? cr := (if negb (r =? NULL) then trecurse fuel m r (level + 1) else Some []) in
        Some ([(root, preorder, level)] ++ cl ++ [(root, postorder, level)] ++ cr ++ [(root, endorder, level)])
  end.

(** [action] says whether it is not NULL. *)
Definition twalk (fuel : nat) (m : tree_mem) (root : Z) (action : bool) : option (list (Z * VISIT * Z)) :=
  if negb (root =? NULL) && action then trecurse fuel m root 0 else Some [].

(** With a closure instead of the level. *)
Fixpoint trecurse_r (fuel : nat) (m : tree_mem) (root : Z) (closure : Z) : option (list (Z * VISIT * Z)) :=
  match fuel with
  | O => None
  | S fuel =>
      let? l := LEFT m root in
      let? r := RIGHT m root in
      if (l =? NULL) && (r =? NULL) then Some [(root, leaf, closure)]
      else
        let? cl := (if negb (l =? NULL) then trecurse_r fuel m l closure else Some []) in
        let? cr := (if negb (r =? NULL) then trecurse_r fuel m r closure else Some []) in
        Some ([(root, preorder, closure)] ++ cl ++ [(root, postorder, closure)] ++ cr ++ [(root, endorder, closure)])
  end.

Definition twalk_r (fuel : nat) (m : tree_mem) (root : Z) (action : bool) (closure : Z) : option (list (Z * VISIT * Z)) :=
  if negb (root =? NULL) && action then trecurse_r fuel m root closure else Some [].

(** The keys given to freefct, and the memory without the nodes. *)
Fixpoint tdestroy_recurse (fuel : nat) (m : tree_mem) (root : Z) : option (tree_mem * list Z) :=
  match fuel with
  | O => None
  | S fuel =>
      let? l := LEFT m root in
      let? (m, k1) := (if negb (l =? NULL) then tdestroy_recurse fuel m l else Some (m, [])) in
      let? r := RIGHT m root in
      let? (m, k2) := (if negb (r =? NULL) then tdestroy_recurse fuel m r else Some (m, [])) in
      let? k := node_key m root in
      Some (free_node m root, k1 ++ k2 ++ [k])
  end.

Definition tdestroy (fuel : nat) (m : tree_mem) (root : Z) : option (tree_mem * list Z) :=
  if root =? NULL then Some (m, []) else tdestroy_recurse fuel m root.

(** * Rotations *)

Ltac evens H := eapply (holds_sub_even _ _ _ H); let x := fresh in intros x; cbn [addrs]; cnts; lia.

Lemma copy_colour_mk m p q kp cp lp rp kq c l r : nodes m !! p = Some (mk kp cp lp rp) -> nodes m !! q = Some (mk kq c l r) ->
  Z.even lp = true -> Z.even l = true -> copy_colour m p q = Some (set_node m q (mk kq cp l r)).
Proof.
  intros Hp Hq Ep Eq. unfold copy_colour. rewrite (RED_mk _ _ _ _ _ _ Hp Ep). destruct cp.
  - by apply (SETRED_mk _ _ _ _ _ _ Hq).
  - by apply (SETBLACK_mk _ _ _ _ _ _ Hq).
Qed.

Lemma push_ok stack np : Z.of_nat (length stack) < stacksize -> push stack np = Some (np :: stack).
Proof. intros H. unfold push. destruct (Z.ltb_spec (Z.of_nat (length stack)) stacksize); [done | lia]. Qed.

Section Left.
Context (m : tree_mem) (c0 : list frame) (stack : list nodep).

Lemma rotate_red_left_spec p q kp kq t a b : Z.of_nat (length stack) < stacksize ->
  holds m c0 (Node p false kp t (Node q true kq a b)) ->
  exists m', rotate_red_left m p q (loc c0) stack = Some (m', ptr a, LEFTPTR q, LEFTPTR q :: stack) /\
    holds m' c0 (Node q false kq (Node p true kp t a) b).
Proof using Type.
  intros Hst H. pose proof (h_distinct _ _ _ H) as Hd. pose proof (h_tree _ _ _ H) as (Hpn & Ht & (Hqn & Ha & Hb)). simpl in Hpn.
  assert (Ea : Z.even (ptr a) = true) by evens H. assert (Et : Z.even (ptr t) = true) by evens H.
  assert (Ep : Z.even (ptr (Node p false kp t (Node q true kq a b))) = true) by evens H. simpl in Ep.
  assert (Eq : Z.even (ptr (Node q true kq a b)) = true) by evens H. simpl in Eq.
  unfold rotate_red_left. rewrite (RED_mk _ q kq true (ptr a) (ptr b)); [|done|done].
  rewrite (SETBLACK_mk _ q kq true (ptr a) (ptr b)); [|lookups Hd|done].
  rewrite (SETRED_mk _ p kp false (ptr t) q); [|lookups Hd|done].
  rewrite (LEFT_mk _ q kq false (ptr a) (ptr b)); [|lookups Hd|done].
  rewrite (SETRIGHT_mk _ p kp true (ptr t) q); [|lookups Hd].
  rewrite (SETLEFT_mk _ q kq false (ptr a) (ptr b)); [|lookups Hd|done|done].
  rewrite (SETNODEPTR_below _ _ _ _ q H); [|reflexivity | intros x Hx; lookups Hd | exact Eq].
  rewrite push_ok by done. rewrite (RIGHT_mk _ p kp true (ptr t) (ptr a)); [|lookups Hd].
  replaced H Hd. destruct c0; reflexivity.
Qed.

Section Black.
Context (p q : Z) (cp : bool) (kp kq : Z) (t a b : tree).
Hypothesis H : holds m c0 (Node p cp kp t (Node q false kq a b)).

Lemma fix_left_black_tests : LEFT m q = Some (ptr a) /\ RIGHT m q = Some (ptr b) /\ is_red m (ptr a) = Some (redb a) /\ is_red m (ptr b) = Some (redb b).
Proof using H.
  pose proof (proj1 (holds_iff_r _ _ _ _ _ _ _) H) as H'. split; [by eapply holds_LEFT|]. split; [by eapply holds_RIGHT|].
  split; eapply holds_is_red; [apply holds_iff | apply holds_iff_r]; exact H'.
Qed.

Lemma fix_left_higher : redb a = false -> redb b = false ->
  exists m', fix_left_black m p q (loc c0) stack = Some (Higher m' p stack) /\ holds m' c0 (Node p cp kp t (Node q true kq a b)).
Proof using H.
  intros Ea Eb. destruct fix_left_black_tests as (E1 & E2 & E3 & E4). unfold fix_left_black. rewrite E1, E2, E3, E4, Ea, Eb. cbn [negb andb].
  assert (H' := H). apply holds_iff_r in H'. destruct (holds_SETRED _ _ _ _ _ _ _ H') as (m' & -> & Hm).
  exists m'. split; [done|]. by apply holds_iff_r.
Qed.

Lemma fix_left_double q2 k2 x y : a = Node q2 true k2 x y -> redb b = false ->
  exists m', fix_left_black m p q (loc c0) stack = Some (Repaired m') /\
    holds m' c0 (Node q2 cp k2 (Node p false kp t x) (Node q false kq y b)).
Proof using H.
  intros Ea Eb. destruct fix_left_black_tests as (E1 & E2 & E3 & E4). subst a. unfold fix_left_black. rewrite E1, E2, E3, E4, Eb. cbn [negb andb redb ptr].
  pose proof (h_distinct _ _ _ H) as Hd. pose proof (h_tree _ _ _ H) as (Hpn & Ht & (Hqn & (H2n & Hx & Hy) & Hb)). simpl in Hpn, Hqn.
  assert (Et : Z.even (ptr t) = true) by evens H. assert (Ex : Z.even (ptr x) = true) by evens H. assert (Ey : Z.even (ptr y) = true) by evens H.
  assert (Ep : Z.even (ptr (Node p cp kp t (Node q false kq (Node q2 true k2 x y) b))) = true) by evens H. simpl in Ep.
  assert (Eq : Z.even (ptr (Node q false kq (Node q2 true k2 x y) b)) = true) by evens H. simpl in Eq.
  assert (Eq2 : Z.even (ptr (Node q2 true k2 x y)) = true) by evens H. simpl in Eq2.
  rewrite (copy_colour_mk _ p q2 kp cp (ptr t) q k2 true (ptr x) (ptr y)); [|done|done|done|done].
  rewrite (LEFT_mk _ q2 k2 cp (ptr x) (ptr y)); [|lookups Hd|done].
  rewrite (SETRIGHT_mk _ p kp cp (ptr t) q); [|lookups Hd].
  rewrite (RIGHT_mk _ q2 k2 cp (ptr x) (ptr y)); [|lookups Hd].
  rewrite (SETLEFT_mk _ q kq false q2 (ptr b)); [|lookups Hd|done|done].
  rewrite (SETRIGHT_mk _ q2 k2 cp (ptr x) (ptr y)); [|lookups Hd].
  rewrite (SETLEFT_mk _ q2 k2 cp (ptr x) q); [|lookups Hd|done|done].
  rewrite (SETNODEPTR_below _ _ _ _ q2 H); [|reflexivity | intros z Hz; lookups Hd | exact Eq2].
  rewrite (SETBLACK_mk _ p kp cp (ptr t) (ptr x)); [|lookups Hd|done].
  replaced H Hd. destruct c0; reflexivity.
Qed.

Lemma fix_left_single bq kb bl br : b = Node bq true kb bl br ->
  exists m', fix_left_black m p q (loc c0) stack = Some (Repaired m') /\
    holds m' c0 (Node q cp kq (Node p false kp t a) (Node bq false kb bl br)).
Proof using H.
  intros Eb. destruct fix_left_black_tests as (E1 & E2 & E3 & E4). subst b. unfold fix_left_black. rewrite E1, E2, E3, E4. cbn [negb andb redb ptr].
  rewrite andb_false_r.
  pose proof (h_distinct _ _ _ H) as Hd. pose proof (h_tree _ _ _ H) as (Hpn & Ht & (Hqn & Ha & (Hbn & Hbl & Hbr))). simpl in Hpn, Hqn.
  assert (Et : Z.even (ptr t) = true) by evens H. assert (Ea : Z.even (ptr a) = true) by evens H. assert (Ebl : Z.even (ptr bl) = true) by evens H.
  assert (Ep : Z.even (ptr (Node p cp kp t (Node q false kq a (Node bq true kb bl br)))) = true) by evens H. simpl in Ep.
  assert (Eq : Z.even (ptr (Node q false kq a (Node bq true kb bl br))) = true) by evens H. simpl in Eq.
  rewrite (copy_colour_mk _ p q kp cp (ptr t) q kq false (ptr a) bq); [|done|done|done|done].
  rewrite (SETBLACK_mk _ p kp cp (ptr t) q); [|lookups Hd|done].
  rewrite (SETBLACK_mk _ bq kb true (ptr bl) (ptr br)); [|lookups Hd|done].
  rewrite (LEFT_mk _ q kq cp (ptr a) bq); [|lookups Hd|done].
  rewrite (SETRIGHT_mk _ p kp false (ptr t) q); [|lookups Hd].
  rewrite (SETLEFT_mk _ q kq cp (ptr a) bq); [|lookups Hd|done|done].
  rewrite (SETNODEPTR_below _ _ _ _ q H); [|reflexivity | intros z Hz; lookups Hd | exact Eq].
  replaced H Hd. destruct c0; reflexivity.
Qed.
End Black.
End Left.

Section Right.
Context (m : tree_mem) (c0 : list frame) (stack : list nodep).

Lemma rotate_red_right_spec p q kp kq t a b : Z.of_nat (length stack) < stacksize ->
  holds m c0 (Node p false kp (Node q true kq b a) t) ->
  exists m', rotate_red_right m p q (loc c0) stack = Some (m', ptr a, RIGHTPTR q, RIGHTPTR q :: stack) /\
    holds m' c0 (Node q false kq b (Node p true kp a t)).
Proof using Type.
  intros Hst H. pose proof (h_distinct _ _ _ H) as Hd. pose proof (h_tree _ _ _ H) as (Hpn & (Hqn & Hb & Ha) & Ht). simpl in Hpn.
  assert (Ea : Z.even (ptr a) = true) by evens H. assert (Eb : Z.even (ptr b) = true) by evens H.
  assert (Ep : Z.even (ptr (Node p false kp (Node q true kq b a) t)) = true) by evens H. simpl in Ep.
  assert (Eq : Z.even (ptr (Node q true kq b a)) = true) by evens H. simpl in Eq.
  unfold rotate_red_right. rewrite (RED_mk _ q kq true (ptr b) (ptr a)); [|done|done].
  rewrite (SETBLACK_mk _ q kq true (ptr b) (ptr a)); [|lookups Hd|done].
  rewrite (SETRED_mk _ p kp false q (ptr t)); [|lookups Hd|done].
  rewrite (RIGHT_mk _ q kq false (ptr b) (ptr a)); [|lookups Hd].
  rewrite (SETLEFT_mk _ p kp true q (ptr t)); [|lookups Hd|done|done].
  rewrite (SETRIGHT_mk _ q kq false (ptr b) (ptr a)); [|lookups Hd].
  rewrite (SETNODEPTR_below _ _ _ _ q H); [|reflexivity | intros x Hx; lookups Hd | exact Eq].
  rewrite push_ok by done. rewrite (LEFT_mk _ p kp true (ptr a) (ptr t)); [|lookups Hd|done].
  replaced H Hd. destruct c0; reflexivity.
Qed.

Section Black.
Context (p q : Z) (cp : bool) (kp kq : Z) (t a b : tree).
Hypothesis H : holds m c0 (Node p cp kp (Node q false kq b a) t).

Lemma fix_right_black_tests : LEFT m q = Some (ptr b) /\ RIGHT m q = Some (ptr a) /\ is_red m (ptr a) = Some (redb a) /\ is_red m (ptr b) = Some (redb b).
Proof using H.
  pose proof (proj1 (holds_iff _ _ _ _ _ _ _) H) as H'. split; [by eapply holds_LEFT|]. split; [by eapply holds_RIGHT|].
  split; eapply holds_is_red; [apply holds_iff_r | apply holds_iff]; exact H'.
Qed.

Lemma fix_right_higher : redb a = false -> redb b = false ->
  exists m', fix_right_black m p q (loc c0) stack = Some (Higher m' p stack) /\ holds m' c0 (Node p cp kp (Node q true kq b a) t).
Proof using H.
  intros Ea Eb. destruct fix_right_black_tests as (E1 & E2 & E3 & E4). unfold fix_right_black. rewrite E1, E2, E3, E4, Ea, Eb. cbn [negb andb].
  assert (H' := H). apply holds_iff in H'. destruct (holds_SETRED _ _ _ _ _ _ _ H') as (m' & -> & Hm).
  exists m'. split; [done|]. by apply holds_iff.
Qed.

Lemma fix_right_double q2 k2 x y : a = Node q2 true k2 y x -> redb b = false ->
  exists m', fix_right_black m p q (loc c0) stack = Some (Repaired m') /\
    holds m' c0 (Node q2 cp k2 (Node q false kq b y) (Node p false kp x t)).
Proof using H.
  intros Ea Eb. destruct fix_right_black_tests as (E1 & E2 & E3 & E4). subst a. unfold fix_right_black. rewrite E1, E2, E3, E4, Eb. cbn [negb andb redb ptr].
  pose proof (h_distinct _ _ _ H) as Hd. pose proof (h_tree _ _ _ H) as (Hpn & (Hqn & Hb & (H2n & Hy & Hx)) & Ht). simpl in Hpn, Hqn.
  assert (Et : Z.even (ptr t) = true) by evens H. assert (Ex : Z.even (ptr x) = true) by evens H. assert (Ey : Z.even (ptr y) = true) by evens H.
  assert (Eb' : Z.even (ptr b) = true) by evens H.
  assert (Ep : Z.even (ptr (Node p cp kp (Node q false kq b (Node q2 true k2 y x)) t)) = true) by evens H. simpl in Ep.
  assert (Eq : Z.even (ptr (Node q false kq b (Node q2 true k2 y x))) = true) by evens H. simpl in Eq.
  assert (Eq2 : Z.even (ptr (Node q2 true k2 y x)) = true) by evens H. simpl in Eq2.
  rewrite (copy_colour_mk _ p q2 kp cp q (ptr t) k2 true (ptr y) (ptr x)); [|done|done|done|done].
  rewrite (RIGHT_mk _ q2 k2 cp (ptr y) (ptr x)); [|lookups Hd].
  rewrite (SETLEFT_mk _ p kp cp q (ptr t)); [|lookups Hd|done|done].
  rewrite (LEFT_mk _ q2 k2 cp (ptr y) (ptr x)); [|lookups Hd|done].
  rewrite (SETRIGHT_mk _ q kq false (ptr b) q2); [|lookups Hd].
  rewrite (SETLEFT_mk _ q2 k2 cp (ptr y) (ptr x)); [|lookups Hd|done|done].
  rewrite (SETRIGHT_mk _ q2 k2 cp q (ptr x)); [|lookups Hd].
  rewrite (SETNODEPTR_below _ _ _ _ q2 H); [|reflexivity | intros z Hz; lookups Hd | exact Eq2].
  rewrite (SETBLACK_mk _ p kp cp (ptr x) (ptr t)); [|lookups Hd|done].
  replaced H Hd. destruct c0; reflexivity.
Qed.

Lemma fix_right_single bq kb bl br : b = Node bq true kb bl br ->
  exists m', fix_right_black m p q (loc c0) stack = Some (Repaired m') /\
    holds m' c0 (Node q cp kq (Node bq false kb bl br) (Node p false kp a t)).
Proof using H.
  intros Eb. destruct fix_right_black_tests as (E1 & E2 & E3 & E4). subst b. unfold fix_right_black. rewrite E1, E2, E3, E4. cbn [negb andb redb ptr].
  rewrite andb_false_r.
  pose proof (h_distinct _ _ _ H) as Hd. pose proof (h_tree _ _ _ H) as (Hpn & (Hqn & (Hbn & Hbl & Hbr) & Ha) & Ht). simpl in Hpn, Hqn.
  assert (Et : Z.even (ptr t) = true) by evens H. assert (Ea : Z.even (ptr a) = true) by evens H. assert (Ebl : Z.even (ptr bl) = true) by evens H.
  assert (Ep : Z.even (ptr (Node p cp kp (Node q false kq (Node bq true kb bl br) a) t)) = true) by evens H. simpl in Ep.
  assert (Eq : Z.even (ptr (Node q false kq (Node bq true kb bl br) a)) = true) by evens H. simpl in Eq.
  assert (Ebq : Z.even (ptr (Node bq true kb bl br)) = true) by evens H. simpl in Ebq.
  rewrite (copy_colour_mk _ p q kp cp q (ptr t) kq false bq (ptr a)); [|done|done|done|done].
  rewrite (SETBLACK_mk _ p kp cp q (ptr t)); [|lookups Hd|done].
  rewrite (SETBLACK_mk _ bq kb true (ptr bl) (ptr br)); [|lookups Hd|done].
  rewrite (RIGHT_mk _ q kq cp bq (ptr a)); [|lookups Hd].
  rewrite (SETLEFT_mk _ p kp false q (ptr t)); [|lookups Hd|done|done].
  rewrite (SETRIGHT_mk _ q kq cp bq (ptr a)); [|lookups Hd].
  rewrite (SETNODEPTR_below _ _ _ _ q H); [|reflexivity | intros z Hz; lookups Hd | exact Eq].
  replaced H Hd. destruct c0; reflexivity.
Qed.
End Black.
End Right.

(** * The repair loop *)

(** The stack of the pointers to the nodes above. *)
Fixpoint locs (c : list frame) : list nodep := match c with [] => [] | _ :: c => loc c :: locs c end.

Lemma length_locs c : length (locs c) = length c.
Proof. induction c as [|f c IH]; [done|]. simpl. by rewrite IH. Qed.

(** A subtree that lacks one black node. *)
Definition deficient (c : list frame) (t : tree) (n : nat) : Prop :=
  ctx_rb c (S n) false /\ (if redb t then is_rb (blacken t) (S n) else is_rb t n).

(** A red-black tree with these nodes in order. *)
Definition repaired (m : tree_mem) (L : list (Z * Z)) : Prop := exists T N, holds m [] T /\ is_rb T N /\ inorder T = L.

Lemma repaired_intro m c t n L : holds m c t -> is_rb t n -> ctx_rb c n (redb t) -> inorder (plug c t) = L -> repaired m L.
Proof.
  intros Hh Ht Hc HL. destruct (plug_rb c t n Ht Hc) as (N & HN). exists (plug c t), N. split; [by apply holds_plug | done].
Qed.

(** What an iteration leaves behind: a valid tree, or a deficient one higher up. *)
Definition fix_ok (len : nat) (L : list (Z * Z)) (x : fixed) : Prop :=
  match x with
  | Repaired m => repaired m L
  | Higher m r stack => exists c t n, holds m c t /\ r = ptr t /\ tail stack = locs c /\ deficient c t n /\
      inorder (plug c t) = L /\ (redb t = true \/ S (length c) = len)
  end.

(** The tree above a black brother: repaired below [c]. *)
Lemma above_rb c (cp : bool) n : (if cp then ctx_rb c (S n) true else ctx_rb c (S (S n)) false) ->
  ctx_rb c (if cp then S n else S (S n)) cp.
Proof. by destruct cp. Qed.

Lemma fix_left_black_ok m c p q cp kp kq t a b n stack len : holds m c (Node p cp kp t (Node q false kq a b)) ->
  tail stack = locs c -> S (length c) = len \/ cp = true ->
  is_rb t n -> redb t = false -> is_rb a n -> is_rb b n ->
  (if cp then ctx_rb c (S n) true else ctx_rb c (S (S n)) false) ->
  exists x, fix_left_black m p q (loc c) stack = Some x /\
    fix_ok len (inorder (plug c (Node p cp kp t (Node q false kq a b)))) x.
Proof.
  intros H Hst Hlen Ht Et Ha Hb Hc. destruct (redb b) eqn:Eb.
  - destruct b as [|bq [] kb bl br]; try done.
    destruct (fix_left_single m c stack p q cp kp kq t a _ H bq kb bl br eq_refl) as (m' & E & Hm).
    exists (Repaired m'). split; [exact E|]. eapply repaired_intro; [exact Hm | | by apply above_rb |].
    + destruct Hb as (? & ? & ? & ?). destruct cp; simpl; tauto.
    + apply inorder_plug_cong. simpl. by rewrite <- ?app_assoc.
  - destruct (redb a) eqn:Ea.
    + destruct a as [|q2 [] k2 x y]; try done.
      destruct (fix_left_double m c stack p q cp kp kq t _ b H q2 k2 x y eq_refl Eb) as (m' & E & Hm).
      exists (Repaired m'). split; [exact E|]. eapply repaired_intro; [exact Hm | | by apply above_rb |].
      * destruct Ha as (? & ? & ? & ?). destruct cp; simpl; tauto.
      * apply inorder_plug_cong. simpl. rewrite <- ?app_assoc. simpl. by rewrite <- ?app_assoc.
    + destruct (fix_left_higher m c stack p q cp kp kq t a b H Ea Eb) as (m' & E & Hm).
      exists (Higher m' p stack). split; [exact E|].
      exists c, (Node p cp kp t (Node q true kq a b)), (if cp then n else S n). split; [done|]. split; [done|]. split; [done|].
      split; [|split; [by apply inorder_plug_cong | destruct cp; simpl; tauto]].
      unfold deficient. destruct cp; simpl; (split; [by auto using ctx_rb_weaken | tauto]).
Qed.

Lemma fix_right_black_ok m c p q cp kp kq t a b n stack len : holds m c (Node p cp kp (Node q false kq b a) t) ->
  tail stack = locs c -> S (length c) = len \/ cp = true ->
  is_rb t n -> redb t = false -> is_rb a n -> is_rb b n ->
  (if cp then ctx_rb c (S n) true else ctx_rb c (S (S n)) false) ->
  exists x, fix_right_black m p q (loc c) stack = Some x /\
    fix_ok len (inorder (plug c (Node p cp kp (Node q false kq b a) t))) x.
Proof.
  intros H Hst Hlen Ht Et Ha Hb Hc. destruct (redb b) eqn:Eb.
  - destruct b as [|bq [] kb bl br]; try done.
    destruct (fix_right_single m c stack p q cp kp kq t a _ H bq kb bl br eq_refl) as (m' & E & Hm).
    exists (Repaired m'). split; [exact E|]. eapply repaired_intro; [exact Hm | | by apply above_rb |].
    + destruct Hb as (? & ? & ? & ?). destruct cp; simpl; tauto.
    + apply inorder_plug_cong. simpl. rewrite <- ?app_assoc. simpl. by rewrite <- ?app_assoc.
  - destruct (redb a) eqn:Ea.
    + destruct a as [|q2 [] k2 y x]; try done.
      destruct (fix_right_double m c stack p q cp kp kq t _ b H q2 k2 x y eq_refl Eb) as (m' & E & Hm).
      exists (Repaired m'). split; [exact E|]. eapply repaired_intro; [exact Hm | | by apply above_rb |].
      * destruct Ha as (? & ? & ? & ?). destruct cp; simpl; tauto.
      * apply inorder_plug_cong. simpl. rewrite <- ?app_assoc. simpl. by rewrite <- ?app_assoc.
    + destruct (fix_right_higher m c stack p q cp kp kq t a b H Ea Eb) as (m' & E & Hm).
      exists (Higher m' p stack). split; [exact E|].
      exists c, (Node p cp kp (Node q true kq b a) t), (if cp then n else S n). split; [done|]. split; [done|]. split; [done|].
      split; [|split; [by apply inorder_plug_cong | destruct cp; simpl; tauto]].
      unfold deficient. destruct cp; simpl; (split; [by auto using ctx_rb_weaken | tauto]).
Qed.

(** A black tree of positive black height is a node. *)
Lemma black_node t n : is_rb t (S n) -> redb t = false -> exists a k l r, t = Node a false k l r /\ is_rb l n /\ is_rb r n.
Proof. destruct t as [|a [] k l r]; simpl; [done | done|]. intros [Hl Hr] _. eauto 10. Qed.

Lemma fix_left_ok m c p cp kp s t n : holds m (LF p cp kp s :: c) t -> redb t = false -> is_rb t n ->
  ctx_rb (LF p cp kp s :: c) (S n) false -> Z.of_nat (length c) < stacksize - 1 ->
  exists x, fix_left m p (loc c) (loc c :: locs c) = Some x /\ fix_ok (S (length c)) (inorder (plug (LF p cp kp s :: c) t)) x.
Proof.
  intros H Et Ht (Hs & Hc) Hst. cbn [fsib fred] in Hs, Hc. pose proof (proj2 (holds_fill _ _ _ _) H) as Hn. cbn [fill] in Hn.
  unfold fix_left. rewrite (holds_RIGHT _ _ _ _ _ _ _ Hn). destruct (redb s) eqn:Es.
  - destruct s as [|q [] kq a b]; try done. destruct Hs as (Ha & Hb & Ea & Eb).
    destruct cp; [by destruct Hc as (_ & ? & _)|]. cbn [ptr].
    destruct (rotate_red_left_spec m c (loc c :: locs c) p q kp kq t a b) as (m1 & -> & H1); [simpl; rewrite length_locs; lia | done|].
    destruct (black_node a n Ha Ea) as (qa & ka & al & ar & -> & Hal & Har). cbn [ptr].
    apply holds_iff in H1.
    destruct (fix_left_black_ok m1 (LF q false kq b :: c) p qa true kp ka t al ar n (LEFTPTR q :: loc c :: locs c) (S (length c)) H1)
      as (x & E & Hx); try (by auto).
    exists x. split; [exact E|]. assert (inorder (plug (LF p false kp (Node q true kq (Node qa false ka al ar) b) :: c) t) =
      inorder (plug (LF q false kq b :: c) (Node p true kp t (Node qa false ka al ar)))) as ->; [|done].
    simpl plug. apply inorder_plug_cong. simpl. rewrite <- ?app_assoc. simpl. by rewrite <- ?app_assoc.
  - destruct (black_node s n Hs Es) as (q & kq & a & b & -> & Ha & Hb). cbn [ptr]. unfold rotate_red_left.
    rewrite (holds_RED m (RF p cp kp t :: c) q false kq a b) by (by apply holds_iff_r in Hn).
    apply (fix_left_black_ok m c p q cp kp kq t a b n (loc c :: locs c)); try (by auto). destruct cp; tauto.
Qed.

Lemma fix_right_ok m c p cp kp s t n : holds m (RF p cp kp s :: c) t -> redb t = false -> is_rb t n ->
  ctx_rb (RF p cp kp s :: c) (S n) false -> Z.of_nat (length c) < stacksize - 1 ->
  exists x, fix_right m p (loc c) (loc c :: locs c) = Some x /\ fix_ok (S (length c)) (inorder (plug (RF p cp kp s :: c) t)) x.
Proof.
  intros H Et Ht (Hs & Hc) Hst. cbn [fsib fred] in Hs, Hc. pose proof (proj2 (holds_fill _ _ _ _) H) as Hn. cbn [fill] in Hn.
  unfold fix_right. rewrite (holds_LEFT _ _ _ _ _ _ _ Hn). destruct (redb s) eqn:Es.
  - destruct s as [|q [] kq b a]; try done. destruct Hs as (Hb & Ha & Eb & Ea).
    destruct cp; [by destruct Hc as (_ & ? & _)|]. cbn [ptr].
    destruct (rotate_red_right_spec m c (loc c :: locs c) p q kp kq t a b) as (m1 & -> & H1); [simpl; rewrite length_locs; lia | done|].
    destruct (black_node a n Ha Ea) as (qa & ka & al & ar & -> & Hal & Har). cbn [ptr].
    apply holds_iff_r in H1.
    destruct (fix_right_black_ok m1 (RF q false kq b :: c) p qa true kp ka t ar al n (RIGHTPTR q :: loc c :: locs c) (S (length c)) H1)
      as (x & E & Hx); try (by auto).
    exists x. split; [exact E|]. assert (inorder (plug (RF p false kp (Node q true kq b (Node qa false ka al ar)) :: c) t) =
      inorder (plug (RF q false kq b :: c) (Node p true kp (Node qa false ka al ar) t))) as ->; [|done].
    simpl plug. apply inorder_plug_cong. simpl. rewrite <- ?app_assoc. simpl. by rewrite <- ?app_assoc.
  - destruct (black_node s n Hs Es) as (q & kq & b & a & -> & Hb & Ha). cbn [ptr]. unfold rotate_red_right.
    rewrite (holds_RED m (LF p cp kp t :: c) q false kq b a) by (by apply holds_iff in Hn).
    apply (fix_right_black_ok m c p q cp kp kq t a b n (loc c :: locs c)); try (by auto). destruct cp; tauto.
Qed.

(** The test r == LEFT (p). *)
Lemma which_side m f c t s n : holds m (f :: c) t -> fsib f = s -> is_rb s (S n) ->
  LEFT m (faddr f) = Some (match f with LF _ _ _ _ => ptr t | RF _ _ _ _ => ptr s end) /\ ptr t <> ptr s.
Proof.
  intros H Es Hs. pose proof (proj2 (holds_fill _ _ _ _) H) as Hn. split.
  - destruct f; cbn [fill faddr fsib] in *; subst s; by eapply holds_LEFT.
  - destruct s as [|q cq kq a b]; [done|]. pose proof (h_distinct _ _ _ H) as Hd. destruct t as [|x cx kx l r].
    + cbn [ptr]. destruct (Hd q) as [_ [Hq _]]; [|unfold NULL; lia]. cbn [addrs addrs_ctx]. rewrite Es. cbn [addrs]. cnts.
      destruct (Z.eq_dec q q); [lia | done].
    + cbn [ptr]. intros <-. destruct (Hd x) as [Hx _]. cbn [addrs addrs_ctx] in Hx. rewrite Es in Hx. cbn [addrs] in Hx. cnts.
      destruct (Z.eq_dec x x); [lia | done].
Qed.

Lemma tdelete_fix_spec fuel : forall c t m n, holds m c t -> deficient c t n ->
  (redb t = false -> length c < fuel)%nat -> (0 < fuel)%nat -> (redb t = false -> Z.of_nat (length c) < stacksize) ->
  exists m' r m'', tdelete_fix fuel m (ptr t) (locs c) = Some (m', r) /\ setblack_if m' r = Some m'' /\
    repaired m'' (inorder (plug c t)).
Proof.
  induction fuel as [|fuel IH]; intros c t m n H [Hc Ht] Hf Hf0 Hst; [lia|].
  assert (Hdone : c = [] \/ redb t = true -> exists m', setblack_if m (ptr t) = Some m' /\ repaired m' (inorder (plug c t))).
  { intros Hcase. destruct (holds_setblack_if m c t H) as (m' & E & Hm). exists m'. split; [done|].
    assert (is_rb (blacken t) (if redb t then S n else n)) as Hb.
    { destruct (redb t) eqn:Er; [done|]. by destruct t as [|? [] ? ? ?]. }
    eapply repaired_intro; [exact Hm | exact Hb | | apply inorder_plug_cong, blacken_inorder].
    rewrite blacken_red. destruct Hcase as [-> | ->]; [by destruct (redb t) | done]. }
  destruct c as [|f c]; cbn [tdelete_fix locs].
  { destruct Hdone as (m' & E & Hm); [by left|]. eauto 10. }
  rewrite (holds_is_red _ _ _ H). destruct (redb t) eqn:Er.
  { destruct Hdone as (m' & E & Hm); [by right|]. eauto 10. }
  pose proof (proj2 (holds_fill _ _ _ _) H) as Hn. rewrite (holds_deref _ _ _ Hn).
  assert (ptr (fill f t) = faddr f) as -> by (by destruct f).
  destruct (which_side m f c t (fsib f) n H eq_refl (proj1 Hc)) as [-> Hne].
  assert (exists x, (if ptr t =? (match f with LF _ _ _ _ => ptr t | RF _ _ _ _ => ptr (fsib f) end)
                     then fix_left m (faddr f) (loc c) (loc c :: locs c) else fix_right m (faddr f) (loc c) (loc c :: locs c)) = Some x /\
      fix_ok (S (length c)) (inorder (plug (f :: c) t)) x) as (x & E & Hx).
  { specialize (Hst eq_refl). cbn [length] in Hst. destruct f as [p cp kp s|p cp kp s]; cbn [faddr fsib] in *.
    - rewrite Z.eqb_refl. eapply fix_left_ok; eauto. lia.
    - apply Z.eqb_neq in Hne. rewrite Hne. eapply fix_right_ok; eauto. lia. }
  rewrite E. destruct x as [m'|m' r stack]; cbn [fix_ok] in Hx.
  - exists m', NULL, m'. done.
  - destruct Hx as (c' & t' & n' & H1 & -> & -> & H2 & H3 & H4). rewrite <- H3.
    specialize (Hf eq_refl). specialize (Hst eq_refl). simpl in Hf, Hst. apply (IH c' t' m' n'); [done | done | | lia |]; intros Er'; rewrite Er' in H4; destruct H4; try done; lia.
Qed.

(** * Unchaining *)

(** The stack test against the height. *)
Lemma push_locs f c : Z.of_nat (length c) < stacksize -> push (locs c) (loc c) = Some (locs (f :: c)).
Proof. intros H. apply push_ok. by rewrite length_locs. Qed.

Lemma holds_unplug m c : forall t, holds m [] (plug c t) -> holds m c t.
Proof. induction c as [|f c IH]; intros t H; [done|]. apply holds_fill, IH, H. Qed.

Lemma plug_app c2 : forall c1 t, plug (c2 ++ c1) t = plug c1 (plug c2 t).
Proof. induction c2 as [|f c2 IH]; intros c1 t; [done|]. apply IH. Qed.

Lemma holds_app m c2 c1 t : holds m (c2 ++ c1) t <-> holds m c1 (plug c2 t).
Proof.
  split; intros H.
  - apply holds_unplug. rewrite <- plug_app. by apply holds_plug.
  - apply holds_unplug. rewrite plug_app. by apply holds_plug.
Qed.

(** A subtree replaced by a part of it. *)
Lemma holds_shrink m c t t' : holds m c t -> rep (nodes m) t' -> (forall x, (cnt x (addrs t') <= cnt x (addrs t))%nat) ->
  holds (set_loc m c (ptr t')) c t'.
Proof.
  intros [H1 H2 H3 Hd] Hr Hc. split.
  - by apply (vroot_set_loc m c t).
  - eapply rep_agree; [|exact Hr]. intros x Hx. apply set_loc_lookup. specialize (Hc x). destruct (Hd x) as [Hx1 _]. cnts. lia.
  - apply (rep_ctx_set_loc m c (ptr t)); [exact H3|]. intros x. specialize (Hd x). cnts. split; [lia|]. intros Hx. apply Hd. lia.
  - intros x. specialize (Hc x). specialize (Hd x). cnts. split; [lia|]. intros Hx. apply Hd. lia.
Qed.

(** The child that takes the place of an unchained node. *)
Definition child (l r : tree) : tree := match l with Leaf => r | _ => l end.

Lemma child_sub l r u c k x : (cnt x (addrs (child l r)) <= cnt x (addrs (Node u c k l r)))%nat.
Proof. destruct l; cbn [child addrs]; cnts; lia. Qed.

Lemma tdelete_chain_spec m c u cu ku l r : holds m c (Node u cu ku l r) ->
  tdelete_chain m (loc c) u (locs c) = Some (set_loc m c (ptr (child l r)), ptr (child l r)) /\
  holds (set_loc m c (ptr (child l r))) c (child l r).
Proof.
  intros H. pose proof (h_tree _ _ _ H) as (Hu & Hl & Hr).
  assert (Hx : rep (nodes m) (child l r)) by (by destruct l).
  assert (Ex : Z.even (ptr (child l r)) = true) by (eapply (holds_sub_even _ _ _ H); intros x; apply child_sub).
  split; [|eapply holds_shrink; [exact H | exact Hx | intros x; apply child_sub]].
  unfold tdelete_chain. rewrite (holds_LEFT _ _ _ _ _ _ _ H), (holds_RIGHT _ _ _ _ _ _ _ H).
  rewrite (holds_null m (LF u cu ku r :: c) l) by (by apply holds_iff).
  assert (forall A (k : Z -> option A), (let? r0 := (if match l with Leaf => true | _ => false end then Some (ptr r) else Some (ptr l)) in k r0) = k (ptr (child l r))) as ->
    by (intros; by destruct l).
  destruct c as [|f c]; cbn [locs].
  - by rewrite (holds_SETNODEPTR _ _ _ _ H Ex).
  - pose proof (proj2 (holds_fill _ _ _ _) H) as Hn. rewrite (holds_deref _ _ _ Hn). pose proof (h_distinct _ _ _ H) as Hd.
    pose proof (even_focus _ _ Hd) as Eu. pose proof (even_sib _ _ _ Hd) as Es.
    destruct (h_ctx _ _ _ H) as (Hf & _). destruct f as [p cp kp s|p cp kp s]; cbn [fill faddr fsib ptr fnode] in *.
    + rewrite (holds_RIGHT _ _ _ _ _ _ _ Hn). destruct (Z.eqb_spec u (ptr s)) as [E|_].
      { exfalso. destruct s as [|q cq kq a b]; simpl in E.
        - pose proof (holds_null _ _ _ H) as E'. simpl in E'. subst u. done.
        - subst q. apart Hd u. }
      rewrite (SETLEFT_mk _ _ _ _ _ _ Hf) by done. reflexivity.
    + rewrite (holds_RIGHT _ _ _ _ _ _ _ Hn). cbn [ptr]. rewrite Z.eqb_refl.
      rewrite (SETRIGHT_mk _ _ _ _ _ _ Hf). reflexivity.
Qed.

(** root->key = unchained->key *)
Lemma holds_SETKEY m c a col k l r k' : holds m c (Node a col k l r) ->
  exists m', SETKEY m a k' = Some m' /\ holds m' c (Node a col k' l r) /\ forall x, x <> a -> nodes m' !! x = nodes m !! x.
Proof.
  intros [H1 (Ha & Hl & Hr) H3 Hd]. rewrite (SETKEY_mk _ _ _ _ _ _ Ha). eexists. split; [reflexivity|].
  split; [|intros x Hx; by apply lookup_insert_ne]. split; simpl.
  - rewrite H1. by apply vroot_plug.
  - rewrite lookup_insert_eq. split; [done|].
    split; (eapply rep_agree; [|eassumption]); intros x Hx; apply lookup_insert_ne; intros E; apart Hd x.
  - eapply rep_ctx_agree; [|exact H3]. intros x Hx. apply lookup_insert_ne. intros E. apart Hd x.
  - exact Hd.
Qed.

(** ** The searches *)

(** The address tdelete returns: the parent, or the root itself. *)
Definition parent (c : list frame) (p0 : Z) : Z := match c with [] => p0 | f :: _ => faddr f end.

Lemma length_ctx c : forall t, (length c + height t <= height (plug c t))%nat.
Proof.
  induction c as [|f c IH]; intros t; [done|]. simpl. specialize (IH (fill f t)). destruct f; simpl in *; lia.
Qed.

Lemma tdelete_find_spec compar m k p0 fuel : compar_ok compar -> forall c a col k' l r,
  holds m c (Node a col k' l r) -> (height (Node a col k' l r) <= fuel)%nat ->
  Z.of_nat (length c + height (Node a col k' l r)) <= stacksize ->
  ordered compar (inorder (plug c (Node a col k' l r))) -> Forall (on_path compar k) c ->
  (exists c' b cb kb lb rb, tdelete_find compar fuel m k (loc c) a (parent c p0) (locs c) = Some (Some (loc c', parent c' p0, locs c')) /\
     plug c' (Node b cb kb lb rb) = plug c (Node a col k' l r) /\ compar k kb = 0) \/
  (tdelete_find compar fuel m k (loc c) a (parent c p0) (locs c) = Some None /\
     forall y ky, (y, ky) ∈ inorder (plug c (Node a col k' l r)) -> compar k ky <> 0).
Proof.
  intros Hok. induction fuel as [|fuel IH]; intros c a col k' l r H Hf Hst Ho Hp; [cbn [height] in Hf; lia|].
  cbn [tdelete_find]. rewrite (holds_key _ _ _ _ _ _ _ H). destruct (Z.eqb_spec (compar k k') 0) as [Ek|Ek].
  { left. exists c, a, col, k', l, r. done. }
  rewrite (push_locs (step_frame compar k a col k' l r)) by (cbn [height] in Hst; lia). rewrite (holds_deref _ _ _ H). cbn [ptr].
  rewrite <- (step_loc compar k a col k' l r c).
  assert ((if compar k k' <? 0 then LEFT m a else RIGHT m a) = Some (ptr (next compar k (Node a col k' l r)))) as ->.
  { rewrite (holds_LEFT _ _ _ _ _ _ _ H), (holds_RIGHT _ _ _ _ _ _ _ H). simpl. by destruct (compar k k' <? 0). }
  pose proof (step_fill compar k a col k' l r) as Es. pose proof (next_height compar k (Node a col k' l r) ltac:(done)) as Hn.
  assert (H' := H). rewrite <- Es in H'. apply holds_fill in H'. rewrite (holds_null _ _ _ H').
  assert (Hp' : Forall (on_path compar k) (step_frame compar k a col k' l r :: c)) by (constructor; [by apply step_path | done]).
  assert (Ep : a = parent (step_frame compar k a col k' l r :: c) p0) by (unfold step_frame; by destruct (compar k k' <? 0)).
  assert (Epl : plug c (Node a col k' l r) = plug (step_frame compar k a col k' l r :: c) (next compar k (Node a col k' l r))) by (cbn [plug]; by rewrite Es).
  destruct (next compar k (Node a col k' l r)) as [|a2 col2 k2 l2 r2] eqn:En.
  - right. split; [done|]. rewrite Epl. apply absent; [done | by rewrite <- Epl | done].
  - rewrite Epl. set (f := step_frame compar k a col k' l r) in *. clearbody f. rewrite Ep. cbn [ptr]. apply IH; [done | lia | cbn [length]; lia | by rewrite <- Epl | done].
Qed.

(** The leftmost node: a path of left frames. *)
Lemma tdelete_succ_spec m fuel : forall f c u cu ku l r, holds m (f :: c) (Node u cu ku l r) ->
  (height (Node u cu ku l r) <= fuel)%nat -> Z.of_nat (length c + height (Node u cu ku l r)) <= stacksize ->
  exists c2 v cv kv rv, tdelete_succ fuel m (loc c) (loc (f :: c)) (locs c) = Some (loc (c2 ++ f :: c), locs (c2 ++ f :: c)) /\
    plug c2 (Node v cv kv Leaf rv) = Node u cu ku l r /\ before c2 = [].
Proof.
  induction fuel as [|fuel IH]; intros f c u cu ku l r H Hf Hst; [cbn [height] in Hf; lia|].
  cbn [tdelete_succ]. rewrite (push_locs f) by (cbn [height] in Hst; lia). rewrite (holds_deref _ _ _ H). cbn [ptr].
  rewrite (holds_LEFT _ _ _ _ _ _ _ H). pose proof (proj1 (holds_iff _ _ _ _ _ _ _) H) as H'. rewrite (holds_null _ _ _ H').
  destruct l as [|x cx kx lx rx].
  - exists [], u, cu, ku, r. done.
  - destruct (IH (LF u cu ku r) (f :: c) x cx kx lx rx H') as (c2 & v & cv & kv & rv & E & Ep & Eb).
    + cbn [height] in *. lia.
    + cbn [height length] in *. lia.
    + exists (c2 ++ [LF u cu ku r]), v, cv, kv, rv. rewrite <- !app_assoc. cbn [app]. split; [exact E|].
      split; [by rewrite plug_app, Ep|]. clear -Eb. induction c2 as [|g c2 IH]; [done|]. destruct g; simpl in *; [by apply IH | by destruct (before c2), (inorder l)].
Qed.

(** * tdelete *)

Lemma unplug_rb c2 : forall c1 t n, is_rb (plug c2 t) n -> ctx_rb c1 n (redb (plug c2 t)) ->
  exists n', is_rb t n' /\ ctx_rb (c2 ++ c1) n' (redb t).
Proof.
  induction c2 as [|f c2 IH]; intros c1 t n Ht Hc; [eauto|]. cbn [plug] in Ht, Hc. destruct (IH c1 _ _ Ht Hc) as (n1 & H1 & H2).
  destruct f as [a col k s|a col k s]; cbn [fill redb] in H1, H2; destruct (down_rb _ _ _ _ _ _ _ H1 H2) as (n' & ? & ? & ? & ? & _); eauto.
Qed.

(** The end of tdelete, from the chained tree on. *)
Definition tdelete_end (fuel : nat) (m : tree_mem) (u r : Z) (stack : list nodep) : option tree_mem :=
  let? ured := RED m u in
  if negb ured then let? (m, r) := tdelete_fix fuel m r stack in setblack_if m r else Some m.

Lemma tdelete_end_spec fuel m c u cu ku l r n : holds m c (child l r) -> RED m u = Some cu ->
  is_rb (Node u cu ku l r) n -> ctx_rb c n cu -> l = Leaf \/ r = Leaf -> (length c < fuel)%nat -> Z.of_nat (length c) < stacksize ->
  exists m', tdelete_end fuel m u (ptr (child l r)) (locs c) = Some m' /\ repaired m' (inorder (plug c (child l r))).
Proof.
  intros H Eu Hrb Hc Hlr Hf Hst. unfold tdelete_end. rewrite Eu. destruct cu; cbn [negb].
  - exists m. split; [done|]. assert (child l r = Leaf /\ n = O) as [E ->].
    { destruct Hrb as (Hl & Hr & El & Er). destruct Hlr as [-> | ->]; cbn [is_rb] in *; subst n; (split; [|done]); cbn [child].
      - by destruct r as [|? [] ? ? ?].
      - by destruct l as [|? [] ? ? ?]. }
    rewrite E in *. by eapply repaired_intro; [exact H | | apply ctx_rb_weaken|].
  - destruct n as [|n]; [done|]. destruct Hrb as (Hl & Hr).
    destruct (tdelete_fix_spec fuel c (child l r) m n H) as (m1 & r1 & m2 & -> & E & Hr2); [| intros _; lia | lia | done |].
    + split; [done|]. assert (is_rb (child l r) n) as Hx by (by destruct l). destruct (redb (child l r)) eqn:Ex; [by apply blacken_rb | done].
    + eauto.
Qed.

Lemma cnt_inorder x t : cnt x (addrs t) = cnt x (map fst (inorder t)).
Proof.
  induction t as [|a c k l IHl r IHr]; [done|]. cbn [addrs inorder]. rewrite map_app. cbn [map fst]. cnts. rewrite IHl, IHr. lia.
Qed.

(** free (unchained) *)
Lemma repaired_free m u L : repaired m L -> cnt u (map fst L) = O -> repaired (free_node m u) L.
Proof.
  intros (T & N & [H1 H2 H3 H4] & HN & <-) Hu. exists T, N. split; [|done]. split; [done | | done | done].
  eapply rep_agree; [|exact H2]. intros x Hx. apply lookup_delete_ne. intros <-. rewrite cnt_inorder in Hx. lia.
Qed.

(** The nodes in order before and after the deletion of a key [kd]: the node [u]
    is gone; if it is the successor, its key has replaced [kd]. *)
Inductive deleted (kd u : Z) (L L' : list (Z * Z)) : Prop :=
| Del_node L1 L2 : L = L1 ++ (u, kd) :: L2 -> L' = L1 ++ L2 -> deleted kd u L L'
| Del_succ L1 L2 b ku : L = L1 ++ (b, kd) :: (u, ku) :: L2 -> L' = L1 ++ (b, ku) :: L2 -> deleted kd u L L'.

Lemma deleted_keys kd u L L' : deleted kd u L L' -> exists K1 K2, map snd L = K1 ++ kd :: K2 /\ map snd L' = K1 ++ K2.
Proof.
  intros [L1 L2 -> -> | L1 L2 b ku -> ->].
  - exists (map snd L1), (map snd L2). by rewrite !map_app.
  - exists (map snd L1), (ku :: map snd L2). by rewrite !map_app.
Qed.

Lemma deleted_cnt kd u L L' : deleted kd u L L' -> (cnt u (map fst L) <= 1)%nat -> cnt u (map fst L') = O.
Proof.
  intros [L1 L2 -> -> | L1 L2 b ku -> ->]; rewrite !map_app; cbn [map fst]; cnts; destruct (Z.eq_dec u u); try done; try lia.
Qed.

Lemma ordered_remove compar L1 x L2 : ordered compar (L1 ++ x :: L2) -> ordered compar (L1 ++ L2).
Proof.
  rewrite !ordered_app. cbn [ordered]. intros (H1 & (_ & H2) & H3). split; [done|]. split; [done|].
  eapply Forall_impl; [exact H3|]. intros y Hy. by apply Forall_cons in Hy as [_ ?].
Qed.

Lemma deleted_ordered compar kd u L L' : deleted kd u L L' -> ordered compar L -> ordered compar L'.
Proof.
  intros [L1 L2 -> -> | L1 L2 b ku -> ->] Ho; apply ordered_remove in Ho; [done|].
  rewrite ordered_app in *. cbn [ordered] in *. destruct Ho as (H1 & H2 & H3). split; [done|]. split; [exact H2|].
  eapply Forall_impl; [exact H3|]. intros y Hy. rewrite !Forall_cons in *. exact Hy.
Qed.

Lemma focus_fresh m c u cu ku l r : holds m c (Node u cu ku l r) -> cnt u (addrs_ctx c) = O.
Proof.
  intros H. pose proof (h_distinct _ _ _ H u) as [Hx _]. cbn [addrs] in Hx. cnts. destruct (Z.eq_dec u u); [lia | done].
Qed.

Lemma locs_rekey c2 b cb k k' s c : locs (c2 ++ RF b cb k s :: c) = locs (c2 ++ RF b cb k' s :: c).
Proof. induction c2 as [|f c2 IH]; [done|]. cbn [app locs]. rewrite IH. by destruct c2. Qed.

Section Delete.
Context (m : tree_mem) (fuel : nat) (t : tree) (N : nat).
Hypothesis Hh : holds m [] t.
Hypothesis Hrb : is_rb t N.
Hypothesis Hfuel : (height t < fuel)%nat.
Hypothesis Hst : Z.of_nat (height t) < stacksize.

(** The steps from the chained tree on: the key of the node [b] becomes that of [u]. *)
Definition tdelete_rest (rootp : nodep) (b u : Z) (stack : list nodep) : option tree_mem :=
  let? (m, r) := tdelete_chain m rootp u stack in
  let? m := (if negb (u =? b) then let? uk := node_key m u in SETKEY m b uk else Some m) in
  tdelete_end fuel m u r stack.

(** A node with at most one child. *)
Lemma rest_node c u cu ku l r : plug c (Node u cu ku l r) = t -> l = Leaf \/ r = Leaf ->
  exists m', tdelete_rest (loc c) u u (locs c) = Some m' /\ repaired m' (inorder (plug c (child l r))).
Proof using Hh Hrb Hfuel Hst.
  intros Et Hlr. assert (H : holds m c (Node u cu ku l r)) by (apply holds_unplug; by rewrite Et).
  pose proof (length_ctx c (Node u cu ku l r)) as Hl. rewrite Et in Hl. cbn [height] in Hl.
  destruct (tdelete_chain_spec m c u cu ku l r H) as [E1 H1]. unfold tdelete_rest. rewrite E1, Z.eqb_refl. cbn [negb].
  destruct (unplug_rb c [] (Node u cu ku l r) N) as (n & Hn & Hc); [by rewrite Et | done|]. rewrite app_nil_r in Hc.
  apply (tdelete_end_spec fuel _ c u cu ku l r n); [done | | done | done | done | lia | lia].
  pose proof (focus_fresh _ _ _ _ _ _ _ H) as Hu. pose proof (h_tree _ _ _ H) as (Hun & _).
  eapply RED_mk; [rewrite set_loc_lookup by done; exact Hun | by eapply holds_left_even].
Qed.

(** A node with two children: [v] is its successor. *)
Lemma rest_succ c2 c b cb kb lb v cv kv rv :
  plug c (Node b cb kb lb (plug c2 (Node v cv kv Leaf rv))) = t ->
  exists m', tdelete_rest (loc c) b v (locs (c2 ++ RF b cb kb lb :: c)) = Some m' /\
    repaired m' (inorder (plug c (Node b cb kv lb (plug c2 rv)))).
Proof using Hh Hrb Hfuel Hst.
  intros Et. set (C := c2 ++ RF b cb kb lb :: c). set (C' := c2 ++ RF b cb kv lb :: c).
  assert (EtC : plug C (Node v cv kv Leaf rv) = t) by (unfold C; by rewrite plug_app).
  assert (H : holds m C (Node v cv kv Leaf rv)) by (apply holds_unplug; by rewrite EtC).
  pose proof (length_ctx C (Node v cv kv Leaf rv)) as Hl. rewrite EtC in Hl. cbn [height] in Hl.
  assert (HlC : length C' = length C) by (unfold C, C'; by rewrite !length_app).
  pose proof (focus_fresh _ _ _ _ _ _ _ H) as Hv. pose proof (h_tree _ _ _ H) as (Hvn & _).
  destruct (tdelete_chain_spec m C v cv kv Leaf rv H) as [E1 H1]. cbn [child] in *.
  assert (E1' : tdelete_chain m (loc c) v (locs C) = tdelete_chain m (loc C) v (locs C)) by (unfold C; by destruct c2).
  unfold tdelete_rest. rewrite E1', E1. set (m1 := set_loc m C (ptr rv)) in *.
  assert (Hvn1 : nodes m1 !! v = Some (mk kv cv NULL (ptr rv))) by (unfold m1; by rewrite set_loc_lookup).
  assert (Hvb : v <> b).
  { intros ->. unfold C in Hv. clear -Hv. induction c2 as [|f c2 IH]; cbn [app addrs_ctx faddr] in Hv; cnts; [destruct (Z.eq_dec b b); [lia | done] | apply IH; lia]. }
  apply Z.eqb_neq in Hvb as Evb. rewrite Evb. cbn [negb]. rewrite (node_key_mk _ _ _ _ _ _ Hvn1).
  unfold C in H1. apply holds_app in H1. apply holds_iff_r in H1.
  destruct (holds_SETKEY m1 c b cb kb lb (plug c2 rv) kv H1) as (m2 & -> & H2 & Hkeep). apply holds_iff_r, holds_app in H2. fold C' in H2.
  destruct (unplug_rb c [] (Node b cb kb lb (plug c2 (Node v cv kv Leaf rv))) N) as (n & Hn & Hc); [by rewrite Et | done|]. rewrite app_nil_r in Hc.
  assert (Hn' : is_rb (Node b cb kv lb (plug c2 (Node v cv kv Leaf rv))) n) by (by destruct cb).
  destruct (unplug_rb (c2 ++ [RF b cb kv lb]) c (Node v cv kv Leaf rv) n) as (n' & Hn2 & Hc2); [by rewrite plug_app | by rewrite plug_app|].
  rewrite <- app_assoc in Hc2. cbn [app] in Hc2. fold C' in Hc2.
  assert (locs C = locs C') as -> by apply locs_rekey.
  destruct (tdelete_end_spec fuel m2 C' v cv kv Leaf rv n' H2) as (m' & E & Hr);
    [eapply RED_mk; [rewrite Hkeep by done; exact Hvn1 | done] | done | done | by left | lia | lia|].
  exists m'. split; [exact E|]. unfold C' in Hr. rewrite plug_app in Hr. exact Hr.
Qed.
End Delete.

Lemma tdelete_tail m0 fuel rootp b u stack m1 (retval : Z) : tdelete_rest m0 fuel rootp b u stack = Some m1 ->
  (let? (m, r) := tdelete_chain m0 rootp u stack in
   let? m := (if negb (u =? b) then let? uk := node_key m u in SETKEY m b uk else Some m) in
   let? ured := RED m u in
   let? m := (if negb ured then let? (m, r) := tdelete_fix fuel m r stack in setblack_if m r else Some m) in
   Some (free_node m u, retval)) = Some (free_node m1 u, retval).
Proof.
  unfold tdelete_rest, tdelete_end. intros E. destruct (tdelete_chain m0 rootp u stack) as [[m r]|]; [|done].
  destruct (if negb (u =? b) then let? uk := node_key m u in SETKEY m b uk else Some m) as [m'|]; [|done].
  destruct (RED m' u) as [ured|]; [|done].
  destruct (if negb ured then let? (m, r) := tdelete_fix fuel m' r stack in setblack_if m r else Some m') as [m''|]; [|done].
  by injection E as ->.
Qed.

(** What tdelete gives: NULL and nothing changed, or the deletion of one node. *)
Definition tdelete_result (compar : Z -> Z -> Z) (k : Z) (m : tree_mem) (L : list (Z * Z)) (m' : tree_mem) (L' : list (Z * Z)) (x : Z) : Prop :=
  (x = NULL /\ m' = m /\ L' = L /\ forall y ky, (y, ky) ∈ L -> compar k ky <> 0) \/
  (x <> NULL /\ exists kd u, compar k kd = 0 /\ deleted kd u L L' /\ nodes m' !! u = None).

Section Spec.
Context (compar : Z -> Z -> Z) (Hok : compar_ok compar).

Lemma tdelete_found m fuel t N k c b cb kb lb rb p0 : holds m [] t -> is_rb t N -> ordered compar (inorder t) ->
  (height t < fuel)%nat -> Z.of_nat (height t) < stacksize -> compar k kb = 0 -> p0 <> NULL ->
  plug c (Node b cb kb lb rb) = t ->
  exists m' x t',
    (let? root := DEREFNODEPTR m (loc c) in
     let? (unchained, stack) := tdelete_unchained fuel m (loc c) root (locs c) in
     let? (m, r) := tdelete_chain m (loc c) unchained stack in
     let? m := (if negb (unchained =? root) then let? uk := node_key m unchained in SETKEY m root uk else Some m) in
     let? ured := RED m unchained in
     let? m := (if negb ured then let? (m, r) := tdelete_fix fuel m r stack in setblack_if m r else Some m) in
     Some (free_node m unchained, parent c p0)) = Some (m', x) /\
    search_tree compar m' t' /\ tdelete_result compar k m (inorder t) m' (inorder t') x.
Proof using Type.
  intros Hh HN Ho Hf Hst Hk Hp0 Et. assert (H : holds m c (Node b cb kb lb rb)) by (apply holds_unplug; by rewrite Et).
  rewrite (holds_deref _ _ _ H). cbn [ptr]. pose proof (length_ctx c (Node b cb kb lb rb)) as Hl. rewrite Et in Hl. cbn [height] in Hl.
  pose proof (h_distinct _ _ _ Hh) as Hd.
  assert (Hp : parent c p0 <> NULL).
  { destruct c as [|f c]; [done|]. cbn [parent]. pose proof (proj2 (holds_fill _ _ _ _) H) as Hn.
    pose proof (holds_null _ _ _ Hn) as E. destruct f; cbn [fill faddr ptr] in *; by apply Z.eqb_neq. }
  assert (Hfin : forall m1 u L', repaired m1 L' -> deleted kb u (inorder t) L' ->
    exists t', search_tree compar (free_node m1 u) t' /\ tdelete_result compar k m (inorder t) (free_node m1 u) (inorder t') (parent c p0)).
  { intros m1 u L' Hr Hdel. assert (Hu : cnt u (map fst L') = O).
    { eapply deleted_cnt; [exact Hdel|]. rewrite <- cnt_inorder. destruct (Hd u) as [Hx _]. rewrite app_nil_r in Hx. exact Hx. }
    destruct (repaired_free _ _ _ Hr Hu) as (T & N' & HT & HN' & ET). exists T. split.
    - split; [done|]. split; [eauto|]. rewrite ET. by eapply deleted_ordered.
    - right. split; [done|]. exists kb, u. split; [done|]. rewrite ET. split; [done|]. apply lookup_delete_eq. }
  unfold tdelete_unchained. rewrite (holds_RIGHT _ _ _ _ _ _ _ H), (holds_LEFT _ _ _ _ _ _ _ H).
  pose proof (proj1 (holds_iff _ _ _ _ _ _ _) H) as HL. pose proof (proj1 (holds_iff_r _ _ _ _ _ _ _) H) as HR.
  rewrite (holds_null _ _ _ HL), (holds_null _ _ _ HR).
  destruct ((match lb with Leaf => true | _ => false end) || (match rb with Leaf => true | _ => false end)) eqn:Hlr.
  - assert (lb = Leaf \/ rb = Leaf) as Hlr' by (destruct lb; [by left|]; destruct rb; [by right|]; done). clear Hlr. rename Hlr' into Hlr.
    destruct (rest_node m fuel t N Hh HN Hf Hst c b cb kb lb rb Et Hlr) as (m1 & E & Hr).
    rewrite (tdelete_tail _ _ _ _ _ _ _ _ E).
    destruct (Hfin m1 b _ Hr) as (t' & Hs & Hres); [|eauto 10].
    apply (Del_node _ _ _ _ (before c ++ inorder lb) (inorder rb ++ after c)).
    + rewrite <- Et, inorder_plug. cbn [inorder]. by rewrite <- !app_assoc.
    + rewrite inorder_plug. destruct Hlr as [-> | ->]; [by rewrite app_nil_r | destruct lb; cbn [child]; by rewrite <- !app_assoc].
  - destruct lb as [|al cl kl ll rl]; [done|]. destruct rb as [|ar cr kr lr rr]; [done|].
    destruct (tdelete_succ_spec m fuel (RF b cb kb (Node al cl kl ll rl)) c ar cr kr lr rr HR) as (c2 & v & cv & kv & rv & E & Ep & Eb);
      [cbn [height] in *; lia | cbn [height] in *; lia|].
    cbn [loc] in E. rewrite E. set (lb := Node al cl kl ll rl) in *.
    assert (HC : holds m (c2 ++ RF b cb kb lb :: c) (Node v cv kv Leaf rv)) by (apply holds_app; by rewrite Ep).
    rewrite (holds_deref _ _ _ HC). cbn [ptr]. rewrite <- Ep in Et.
    destruct (rest_succ m fuel t N Hh HN Hf Hst c2 c b cb kb lb v cv kv rv Et) as (m1 & E1 & Hr).
    rewrite (tdelete_tail _ _ _ _ _ _ _ _ E1).
    destruct (Hfin m1 v _ Hr) as (t' & Hs & Hres); [|eauto 10].
    apply (Del_succ _ _ _ _ (before c ++ inorder lb) (inorder rv ++ after c2 ++ after c) b kv).
    + rewrite <- Et, inorder_plug. cbn [inorder]. rewrite inorder_plug, Eb. cbn [inorder app]. rewrite <- !app_assoc. simpl. by rewrite <- ?app_assoc.
    + rewrite inorder_plug. cbn [inorder]. rewrite inorder_plug, Eb. cbn [app]. rewrite <- !app_assoc. simpl. by rewrite <- ?app_assoc.
Qed.

Lemma tdelete_spec m t k fuel : search_tree compar m t -> (height t < fuel)%nat -> Z.of_nat (height t) < stacksize ->
  exists m' x t', tdelete compar fuel m k = Some (m', x) /\ search_tree compar m' t' /\
    tdelete_result compar k m (inorder t) m' (inorder t') x.
Proof using Hok.
  intros Hs Hf Hst. assert (Hs' := Hs). destruct Hs' as (Hh & (N & HN) & Ho).
  unfold tdelete. pose proof (holds_deref m [] t Hh) as E. cbn [loc] in E. rewrite E, (holds_null _ _ _ Hh).
  destruct t as [|a col k' l r].
  { exists m, NULL, Leaf. split; [done|]. split; [done|]. left. split; [done|]. split; [done|]. split; [done|].
    intros y ky Hy. by apply not_elem_of_nil in Hy. }
  cbn [ptr]. assert (Ha : a <> NULL) by (pose proof (holds_null _ _ _ Hh) as En; by apply Z.eqb_neq).
  destruct (tdelete_find_spec compar m k a fuel Hok [] a col k' l r Hh) as [(c & b & cb & kb & lb & rb & E1 & E2 & E3)|[E1 E2]];
    [lia | cbn [length]; lia | done | done | |].
  - cbn [loc parent locs] in E1. rewrite E1. cbn [plug] in E2.
    by apply (tdelete_found m fuel (Node a col k' l r) N k c b cb kb lb rb a).
  - cbn [loc parent locs] in E1. rewrite E1. exists m, NULL, (Node a col k' l r). split; [done|]. split; [done|]. left. done.
Qed.
End Spec.

(** * twalk and tdestroy *)

Lemma rep_fields m a c k l r : rep (nodes m) (Node a c k l r) -> distinct (addrs (Node a c k l r)) ->
  LEFT m a = Some (ptr l) /\ RIGHT m a = Some (ptr r) /\ node_key m a = Some k /\ distinct (addrs l) /\ distinct (addrs r) /\
  (ptr l =? NULL) = (match l with Leaf => true | _ => false end) /\ (ptr r =? NULL) = (match r with Leaf => true | _ => false end).
Proof.
  intros (Ha & Hl & Hr) Hd. cbn [addrs] in Hd.
  assert (forall u, (forall x, (cnt x (addrs u) <= cnt x (a :: addrs l ++ addrs r))%nat) -> distinct (addrs u)) as Hsub.
  { intros u Hu x. specialize (Hu x). specialize (Hd x). split; [lia|]. intros Hx. apply Hd. lia. }
  assert (Hl' : forall x, (cnt x (addrs l) <= cnt x (a :: addrs l ++ addrs r))%nat) by (intros x; cnts; lia).
  assert (Hr' : forall x, (cnt x (addrs r) <= cnt x (a :: addrs l ++ addrs r))%nat) by (intros x; cnts; lia).
  split; [eapply LEFT_mk; [exact Ha | by eapply even_ptr]|]. split; [by eapply RIGHT_mk|]. split; [by eapply node_key_mk|].
  split; [by apply Hsub|]. split; [by apply Hsub|]. split; by eapply ptr_null.
Qed.

(** The nodes whose call is for one of the visits [p], with the level. *)
Definition visited (p : VISIT -> bool) (calls : list (Z * VISIT * Z)) : list (Z * Z) :=
  omap (fun '(a, v, lvl) => if p v then Some (a, lvl) else None) calls.

Definition first_visit (v : VISIT) : bool := match v with preorder | leaf => true | _ => false end.
Definition second_visit (v : VISIT) : bool := match v with postorder | leaf => true | _ => false end.
Definition last_visit (v : VISIT) : bool := match v with endorder | leaf => true | _ => false end.

(** The nodes with their levels, before, between and behind their subtrees. *)
Fixpoint nodes_pre (t : tree) (lvl : Z) : list (Z * Z) :=
  match t with Leaf => [] | Node a _ _ l r => (a, lvl) :: nodes_pre l (lvl + 1) ++ nodes_pre r (lvl + 1) end.
Fixpoint nodes_in (t : tree) (lvl : Z) : list (Z * Z) :=
  match t with Leaf => [] | Node a _ _ l r => nodes_in l (lvl + 1) ++ (a, lvl) :: nodes_in r (lvl + 1) end.
Fixpoint nodes_post (t : tree) (lvl : Z) : list (Z * Z) :=
  match t with Leaf => [] | Node a _ _ l r => nodes_post l (lvl + 1) ++ nodes_post r (lvl + 1) ++ [(a, lvl)] end.

Lemma nodes_in_inorder t : forall lvl, map fst (nodes_in t lvl) = map fst (inorder t).
Proof. induction t as [|a c k l IHl r IHr]; intros lvl; [done|]. cbn [nodes_in inorder]. rewrite !map_app. cbn [map fst]. by rewrite IHl, IHr. Qed.

Lemma visited_app p l k : visited p (l ++ k) = visited p l ++ visited p k.
Proof. apply omap_app. Qed.

(** The calls for a tree. *)
Definition walk_ok (t : tree) (lvl : Z) (calls : list (Z * VISIT * Z)) : Prop :=
  visited first_visit calls = nodes_pre t lvl /\ visited second_visit calls = nodes_in t lvl /\ visited last_visit calls = nodes_post t lvl.

Lemma trecurse_spec m fuel : forall a c k l r lvl, rep (nodes m) (Node a c k l r) -> distinct (addrs (Node a c k l r)) ->
  (height (Node a c k l r) <= fuel)%nat -> exists calls, trecurse fuel m a lvl = Some calls /\ walk_ok (Node a c k l r) lvl calls.
Proof.
  induction fuel as [|fuel IH]; intros a c k l r lvl Hrep Hd Hf; [cbn [height] in Hf; lia|].
  destruct (rep_fields _ _ _ _ _ _ Hrep Hd) as (E1 & E2 & _ & Hdl & Hdr & El & Er). destruct Hrep as (_ & Hl & Hr).
  assert (Hsub : forall u, rep (nodes m) u -> distinct (addrs u) -> (height u <= fuel)%nat ->
    (ptr u =? NULL) = (match u with Leaf => true | _ => false end) ->
    exists calls, (if negb (ptr u =? NULL) then trecurse fuel m (ptr u) (lvl + 1) else Some []) = Some calls /\ walk_ok u (lvl + 1) calls).
  { intros u Hu Hdu Hfu ->. destruct u as [|b cb kb lb rb]; cbn [negb]; [exists []; done|]. by apply IH. }
  cbn [height] in Hf. cbn [trecurse]. rewrite E1, E2.
  destruct (Hsub l Hl Hdl ltac:(lia) El) as (cl & -> & L1 & L2 & L3).
  destruct (Hsub r Hr Hdr ltac:(lia) Er) as (cr & -> & R1 & R2 & R3). rewrite El, Er.
  destruct ((match l with Leaf => true | _ => false end) && (match r with Leaf => true | _ => false end)) eqn:E.
  - eexists. split; [reflexivity|]. destruct l; [|done]. by destruct r.
  - eexists. split; [reflexivity|]. unfold walk_ok. rewrite !visited_app, L1, L2, L3, R1, R2, R3.
    cbn [nodes_pre nodes_in nodes_post visited omap list_omap first_visit second_visit last_visit app]. by rewrite ?app_nil_r.
Qed.

(** The memory without the nodes of a tree. *)
Definition without (m m' : tree_mem) (l : list Z) : Prop :=
  vroot m' = vroot m /\ forall x, nodes m' !! x = if decide (0 < cnt x l)%nat then None else nodes m !! x.

Lemma tdestroy_recurse_spec fuel : forall m a c k l r, rep (nodes m) (Node a c k l r) -> distinct (addrs (Node a c k l r)) ->
  (height (Node a c k l r) <= fuel)%nat ->
  exists m' keys, tdestroy_recurse fuel m a = Some (m', keys) /\ keys ≡ₚ map snd (inorder (Node a c k l r)) /\
    without m m' (addrs (Node a c k l r)).
Proof.
  induction fuel as [|fuel IH]; intros m a c k l r Hrep Hd Hf; [cbn [height] in Hf; lia|].
  destruct (rep_fields _ _ _ _ _ _ Hrep Hd) as (E1 & E2 & E3 & Hdl & Hdr & El & Er). destruct Hrep as (Ha & Hl & Hr).
  assert (Hsub : forall m u, rep (nodes m) u -> distinct (addrs u) -> (height u <= fuel)%nat ->
    (ptr u =? NULL) = (match u with Leaf => true | _ => false end) ->
    exists m' keys, (if negb (ptr u =? NULL) then tdestroy_recurse fuel m (ptr u) else Some (m, [])) = Some (m', keys) /\
      keys ≡ₚ map snd (inorder u) /\ without m m' (addrs u)).
  { intros m0 u Hu Hdu Hfu ->. destruct u as [|b cb kb lb rb]; cbn [negb]; [|by apply IH].
    exists m0, []. split; [done|]. split; [done|]. split; [done|]. intros x. cbn [addrs]. rewrite cnt_nil. by rewrite decide_False by lia. }
  cbn [height] in Hf. cbn [tdestroy_recurse]. rewrite E1.
  destruct (Hsub m l Hl Hdl ltac:(lia) El) as (m1 & k1 & -> & P1 & V1 & W1).
  assert (Hkeep : forall x, cnt x (addrs l) = O -> nodes m1 !! x = nodes m !! x) by (intros x Hx; rewrite W1; by rewrite decide_False by lia).
  assert (Ea : nodes m1 !! a = Some (mk k c (ptr l) (ptr r))).
  { rewrite Hkeep; [done|]. destruct (Hd a) as [Hx _]. cbn [addrs] in Hx. cnts. destruct (Z.eq_dec a a); [lia | done]. }
  assert (Hr1 : rep (nodes m1) r).
  { eapply rep_agree; [|exact Hr]. intros x Hx. apply Hkeep. destruct (Hd x) as [Hx' _]. cbn [addrs] in Hx'. cnts. lia. }
  rewrite (RIGHT_mk _ _ _ _ _ _ Ea). destruct (Hsub m1 r Hr1 Hdr ltac:(lia) Er) as (m2 & k2 & -> & P2 & V2 & W2).
  assert (Ea2 : nodes m2 !! a = Some (mk k c (ptr l) (ptr r))).
  { rewrite W2. rewrite decide_False; [done|]. destruct (Hd a) as [Hx _]. cbn [addrs] in Hx. cnts. destruct (Z.eq_dec a a); [lia | done]. }
  rewrite (node_key_mk _ _ _ _ _ _ Ea2). eexists _, _. split; [reflexivity|]. split.
  - cbn [inorder]. rewrite map_app. cbn [map snd]. rewrite P1, P2. apply Permutation_app_head. symmetry. apply Permutation_cons_append.
  - split; [cbn [free_node vroot]; congruence|]. intros x. cbn [free_node nodes addrs]. cnts. destruct (Z.eq_dec a x) as [->|Hn].
    + rewrite lookup_delete_eq. by rewrite decide_True by lia.
    + rewrite lookup_delete_ne by done. rewrite W2, W1. repeat case_decide; try done; lia.
Qed.

(** The calls with the level replaced by the closure. *)
Definition with_closure (closure : Z) (call : Z * VISIT * Z) : Z * VISIT * Z := let '(a, v, _) := call in (a, v, closure).

Lemma trecurse_r_spec m closure fuel : forall root lvl,
  trecurse_r fuel m root closure = let? calls := trecurse fuel m root lvl in Some (map (with_closure closure) calls).
Proof.
  induction fuel as [|fuel IH]; intros root lvl; [done|]. cbn [trecurse trecurse_r].
  destruct (LEFT m root) as [l|]; [|done]. destruct (RIGHT m root) as [r|]; [|done].
  rewrite (IH l (lvl + 1)), (IH r (lvl + 1)).
  destruct (l =? NULL), (r =? NULL); cbn [negb andb]; try destruct (trecurse fuel m l (lvl + 1)); try destruct (trecurse fuel m r (lvl + 1));
    try done; f_equal; rewrite ?map_app; cbn [map]; rewrite ?map_app; reflexivity.
Qed.

(** C28: tdelete on a red-black search tree of at most 2^64 - 2 nodes, with any fuel
    above twice the logarithm of its size plus one, never reads outside the tree,
    never overflows its stack of 128 pointers, and ends.  Where no node has the key it
    gives NULL and the memory is unchanged.  Otherwise it gives a node that is not
    NULL, exactly one key equal to the argument is gone, the tree is still a red-black
    search tree, and the one node that is not in it any more has been freed: the key's
    own node, or its successor, whose key has moved. *)
Theorem tdelete_correct compar m t k fuel : compar_ok compar -> search_tree compar m t -> tree_size t < 2 ^ 64 - 1 ->
  2 * Z.log2 (tree_size t + 1) + 1 < Z.of_nat fuel ->
  exists m' x t', tdelete compar fuel m k = Some (m', x) /\ search_tree compar m' t' /\
    ((x = NULL /\ m' = m /\ inorder t' = inorder t /\ forall y ky, (y, ky) ∈ inorder t -> compar k ky <> 0) \/
     (x <> NULL /\ exists kd u K1 K2, compar k kd = 0 /\ deleted kd u (inorder t) (inorder t') /\ nodes m' !! u = None /\
        map snd (inorder t) = K1 ++ kd :: K2 /\ map snd (inorder t') = K1 ++ K2)).
Proof.
  intros Hok Hs Hsz Hf. assert (Hs' := Hs). destruct Hs' as (Hh & (n & Hn) & Ho). pose proof (rb_balanced t n Hn) as Hb.
  assert (Z.log2 (tree_size t + 1) < 64).
  { destruct (Z.le_gt_cases (tree_size t + 1) 0) as [Hle|Hgt]; [rewrite Z.log2_nonpos by done; lia | apply Z.log2_lt_pow2; lia]. }
  destruct (tdelete_spec compar Hok m t k fuel Hs) as (m' & x & t' & E & Ht' & Hr); [lia | unfold stacksize; lia|].
  exists m', x, t'. split; [exact E|]. split; [exact Ht'|]. destruct Hr as [Hr|(Hx & kd & u & H1 & H2 & H3)]; [by left|]. right. split; [done|].
  destruct (deleted_keys _ _ _ _ H2) as (K1 & K2 & E1 & E2). exists kd, u, K1, K2. done.
Qed.

Lemma tdelete_correct_witness : exists m' x t', tdelete Z.sub 100 sample_mem 20 = Some (m', x) /\ search_tree Z.sub m' t' /\
    ((x = NULL /\ m' = sample_mem /\ inorder t' = inorder sample_tree /\ forall y ky, (y, ky) ∈ inorder sample_tree -> Z.sub 20 ky <> 0) \/
     (x <> NULL /\ exists kd u K1 K2, Z.sub 20 kd = 0 /\ deleted kd u (inorder sample_tree) (inorder t') /\ nodes m' !! u = None /\
        map snd (inorder sample_tree) = K1 ++ kd :: K2 /\ map snd (inorder t') = K1 ++ K2)).
Proof. apply (tdelete_correct Z.sub sample_mem sample_tree 20 100 sub_compar_ok sample_ok); reflexivity. Defined.

(** twalk on a tree in memory calls the action for the first time in preorder,
    for the second time in the order of the keys and for the last time in postorder,
    a leaf once for all three, with the node's depth as the level; twalk_r makes the
    same calls with the closure; a NULL action is not called.  tdestroy gives every
    key to the free function once and frees the tree's nodes and no others. *)
Theorem twalk_tdestroy_correct m t fuel closure : holds m [] t -> (height t <= fuel)%nat ->
  (exists calls, twalk fuel m (ptr t) true = Some calls /\ visited first_visit calls = nodes_pre t 0 /\
     map fst (visited second_visit calls) = map fst (inorder t) /\ visited second_visit calls = nodes_in t 0 /\
     visited last_visit calls = nodes_post t 0 /\
     twalk_r fuel m (ptr t) true closure = Some (map (with_closure closure) calls)) /\
  twalk fuel m (ptr t) false = Some [] /\
  (exists m' keys, tdestroy fuel m (ptr t) = Some (m', keys) /\ keys ≡ₚ map snd (inorder t) /\ vroot m' = vroot m /\
     forall x, nodes m' !! x = if decide (0 < cnt x (addrs t))%nat then None else nodes m !! x).
Proof.
  intros Hh Hf. pose proof (holds_null _ _ _ Hh) as En. pose proof (h_tree _ _ _ Hh) as Hr.
  assert (Hd : distinct (addrs t)) by (pose proof (h_distinct _ _ _ Hh) as Hd; cbn [addrs_ctx] in Hd; by rewrite app_nil_r in Hd).
  unfold twalk, twalk_r, tdestroy. rewrite En, andb_false_r. split; [|split; [done|]].
  - destruct t as [|a c k l r]; [exists []; done|]. cbn [negb andb ptr].
    destruct (trecurse_spec m fuel a c k l r 0 Hr Hd Hf) as (calls & E & E1 & E2 & E3). exists calls.
    rewrite (trecurse_r_spec m closure fuel a 0), E, E2, nodes_in_inorder. done.
  - destruct t as [|a c k l r].
    + exists m, []. split; [done|]. split; [done|]. split; [done|]. intros x. by rewrite cnt_nil, decide_False by lia.
    + destruct (tdestroy_recurse_spec fuel m a c k l r Hr Hd Hf) as (m' & keys & E & E1 & E2 & E3). exists m', keys. done.
Qed.

Lemma twalk_tdestroy_correct_witness :
  (exists calls, twalk 3 sample_mem 32 true = Some calls /\ visited first_visit calls = nodes_pre sample_tree 0 /\
     map fst (visited second_visit calls) = map fst (inorder sample_tree) /\ visited second_visit calls = nodes_in sample_tree 0 /\
     visited last_visit calls = nodes_post sample_tree 0 /\
     twalk_r 3 sample_mem 32 true 9 = Some (map (with_closure 9) calls)) /\
  twalk 3 sample_mem 32 false = Some [] /\
  (exists m' keys, tdestroy 3 sample_mem 32 = Some (m', keys) /\ keys ≡ₚ map snd (inorder sample_tree) /\ vroot m' = 32 /\
     forall x, nodes m' !! x = if decide (0 < cnt x (addrs sample_tree))%nat then None else nodes sample_mem !! x).
Proof. apply (twalk_tdestroy_correct sample_mem sample_tree 3 9 (proj1 sample_ok)). vm_compute. lia. Defined.
