(* ===== verification/Time.v ===== *)
(** * Broken-down time (time/offtime.c, the UTC part of time/tzset.c)

    A [struct tm] without the name of the zone.  Arithmetic on signed types goes
    through [i64], which is undefined where the result does not fit.  The calendar
    that the results are compared with counts days from the lengths of years and
    months. *)

From Stdlib Require Import ZArith List Lia Bool.
From S2P Require Import Prelude.
Import ListNotations.
#[local] Open Scope Z_scope.
#[local] Open Scope glibc_scope.

Record tm := { tm_sec : Z; tm_min : Z; tm_hour : Z; tm_mday : Z; tm_mon : Z; tm_year : Z;
               tm_wday : Z; tm_yday : Z; tm_isdst : Z; tm_gmtoff : Z }.

(** A signed 64-bit result. *)
Definition i64 (x : Z) : option Z := if (- 2 ^ 63 <=? x) && (x <? 2 ^ 63) then Some x else None.

Definition SECS_PER_HOUR : Z := 60 * 60.
Definition SECS_PER_DAY : Z := SECS_PER_HOUR * 24.

(** __isleap; C's division truncates. *)
Definition isleap (year : Z) : bool :=
  (Z.rem year 4 =? 0) && (negb (Z.rem year 100 =? 0) || (Z.rem year 400 =? 0)).

(** How many days come before each month (0-12). *)
Definition mon_yday (leap : bool) : list Z :=
  if leap then [0; 31; 60; 91; 121; 152; 182; 213; 244; 274; 305; 335; 366]
  else [0; 31; 59; 90; 120; 151; 181; 212; 243; 273; 304; 334; 365].

Definition DIV (a b : Z) : Z := Z.quot a b - b2z (Z.rem a b <? 0).
Definition LEAPS_THRU_END_OF (y : Z) : Z := DIV y 4 - DIV y 100 + DIV y 400.

(** The loops that bring REM into a day. *)
Fixpoint rem_up (fuel : nat) (days rem : Z) : option (Z * Z) :=
  match fuel with
  | O => None
  | S fuel =>
      if rem <? 0 then
        let? rem := i64 (rem + SECS_PER_DAY) in
        let? days := i64 (days - 1) in
        rem_up fuel days rem
      else Some (days, rem)
  end.

Fixpoint rem_down (fuel : nat) (days rem : Z) : option (Z * Z) :=
  match fuel with
  | O => None
  | S fuel =>
      if SECS_PER_DAY <=? rem then
        let? rem := i64 (rem - SECS_PER_DAY) in
        let? days := i64 (days + 1) in
        rem_down fuel days rem
      else Some (days, rem)
  end.

(** The loop that finds the year: Y and the day in it. *)
Fixpoint year_loop (fuel : nat) (days y : Z) : option (Z * Z) :=
  match fuel with
  | O => None
  | S fuel =>
      if (days <? 0) || ((if isleap y then 366 else 365) <=? days) then
        let? yg := i64 (y + Z.quot days 365 - b2z (Z.rem days 365 <? 0)) in
        let? d := i64 ((yg - y) * 365) in
        let? days := i64 (days - (d + LEAPS_THRU_END_OF (yg - 1) - LEAPS_THRU_END_OF (y - 1))) in
        year_loop fuel days yg
      else Some (days, y)
  end.

(** for (y = 11; days < ip[y]; --y) *)
Fixpoint month_loop (y : nat) (days : Z) (ip : list Z) : option nat :=
  let? x := nth_error ip y in
  if days <? x then match y with O => None | S y => month_loop y days ip end else Some y.

(** __offtime: whether it succeeds (otherwise errno is EOVERFLOW), and *TP. *)
Definition offtime (fuel : nat) (t offset : Z) (tp : tm) : option (bool * tm) :=
  let days := Z.quot t SECS_PER_DAY in
  let? rem := i64 (Z.rem t SECS_PER_DAY + offset) in
  let? (days, rem) := rem_up fuel days rem in
  let? (days, rem) := rem_down fuel days rem in
  let hour := Z.quot rem SECS_PER_HOUR in
  let rem := Z.rem rem SECS_PER_HOUR in
  let min := Z.quot rem 60 in
  let sec := Z.rem rem 60 in
  let wday := Z.rem (4 + days) 7 in
  let wday := if wday <? 0 then wday + 7 else wday in
  let? (days, y) := year_loop fuel days 1970 in
  let year := swrap 32 (y - 1900) in
  if negb (year =? y - 1900) then
    Some (false, {| tm_sec := sec; tm_min := min; tm_hour := hour; tm_mday := tm_mday tp; tm_mon := tm_mon tp; tm_year := year;
                    tm_wday := wday; tm_yday := tm_yday tp; tm_isdst := tm_isdst tp; tm_gmtoff := tm_gmtoff tp |})
  else
    let ip := mon_yday (isleap y) in
    let yday := days in
    let? mon := month_loop 11 days ip in
    let? x := nth_error ip mon in
    Some (true, {| tm_sec := sec; tm_min := min; tm_hour := hour; tm_mday := days - x + 1; tm_mon := Z.of_nat mon; tm_year := year;
                   tm_wday := wday; tm_yday := yday; tm_isdst := tm_isdst tp; tm_gmtoff := tm_gmtoff tp |}).

(** __tz_convert with USE_LOCALTIME 0, as __gmtime64_r calls it.  [tzfile] is what
    __tzfile_compute gives where a time zone file is in use: the leap second
    correction and the extra seconds at this time.  NULL on failure. *)
Definition tz_convert_utc (fuel : nat) (tzfile : option (Z * Z)) (timer : Z) (tp : tm) : option (option tm) :=
  let? (ok, tp, leap_correction, leap_extra_secs) :=
    match tzfile with
    | Some (leap_correction, leap_extra_secs) => Some (true, tp, leap_correction, leap_extra_secs)
    | None => let? (ok, tp) := offtime fuel timer 0 tp in Some (ok, tp, 0, 0)
    end in
  if ok then
    let tp := {| tm_sec := tm_sec tp; tm_min := tm_min tp; tm_hour := tm_hour tp; tm_mday := tm_mday tp; tm_mon := tm_mon tp;
                 tm_year := tm_year tp; tm_wday := tm_wday tp; tm_yday := tm_yday tp; tm_isdst := 0; tm_gmtoff := 0 |} in
    let? (ok, tp) := offtime fuel timer (tm_gmtoff tp - leap_correction) tp in
    if ok then
      Some (Some {| tm_sec := tm_sec tp + leap_extra_secs; tm_min := tm_min tp; tm_hour := tm_hour tp; tm_mday := tm_mday tp;
                    tm_mon := tm_mon tp; tm_year := tm_year tp; tm_wday := tm_wday tp; tm_yday := tm_yday tp;
                    tm_isdst := tm_isdst tp; tm_gmtoff := tm_gmtoff tp |})
    else Some None
  else Some None.

(** ** The calendar *)

Definition leap (y : Z) : bool := (y mod 4 =? 0) && (negb (y mod 100 =? 0) || (y mod 400 =? 0)).
Definition year_days (y : Z) : Z := if leap y then 366 else 365.

(** The days of the [n] years from [y] on. *)
Fixpoint years_days (y : Z) (n : nat) : Z := match n with O => 0 | S n => year_days y + years_days (y + 1) n end.

(** The number of the first of January, counted from 1970. *)
Definition jan1 (y : Z) : Z :=
  if 1970 <=? y then years_days 1970 (Z.to_nat (y - 1970)) else - years_days y (Z.to_nat (1970 - y)).

Definition month_days (leap : bool) (mon : nat) : Z :=
  nth mon [31; if leap then 29 else 28; 31; 30; 31; 30; 31; 31; 30; 31; 30; 31] 0.

(** The days before a month. *)
Fixpoint months_days (leap : bool) (mon : nat) : Z :=
  match mon with O => 0 | S mon => months_days leap mon + month_days leap mon end.

(** * Proofs *)

#[local] Ltac Zify.zify_post_hook ::= Z.to_euclidean_division_equations.

Lemma i64_ok x : - 2 ^ 63 <= x < 2 ^ 63 -> i64 x = Some x.
Proof. intros H. unfold i64. destruct (Z.leb_spec (- 2 ^ 63) x), (Z.ltb_spec x (2 ^ 63)); try lia; reflexivity. Qed.

Lemma DIV_floor a b : 0 < b -> DIV a b = a / b.
Proof.
  intros Hb. unfold DIV. pose proof (Z.quot_rem' a b) as E. destruct (Z.ltb_spec (Z.rem a b) 0) as [H|H]; simpl b2z.
  - apply (Z.div_unique _ _ _ (Z.rem a b + b)); [left | lia]. pose proof (Z.rem_bound_abs a b). lia.
  - apply (Z.div_unique _ _ _ (Z.rem a b)); [left | lia]. pose proof (Z.rem_bound_abs a b). lia.
Qed.

Lemma isleap_leap y : isleap y = leap y.
Proof.
  unfold isleap, leap. assert (forall n, 0 < n -> (Z.rem y n =? 0) = (y mod n =? 0)) as H.
  { intros n Hn. destruct (Z.eqb_spec (Z.rem y n) 0) as [E|E], (Z.eqb_spec (y mod n) 0) as [E'|E']; try reflexivity; exfalso;
      [apply E' | apply E]; [apply Z.rem_divide, Z.mod_divide in E | apply Z.mod_divide, Z.rem_divide in E']; lia. }
  rewrite !H by lia. reflexivity.
Qed.

(** Leap years up to the end of [y]. *)
Definition leaps (y : Z) : Z := y / 4 - y / 100 + y / 400.

Lemma LEAPS_leaps y : LEAPS_THRU_END_OF y = leaps y.
Proof. unfold LEAPS_THRU_END_OF, leaps. rewrite !DIV_floor by lia. reflexivity. Qed.

Lemma leaps_succ y : leaps y = leaps (y - 1) + b2z (leap y).
Proof.
  unfold leaps, leap. destruct (Z.eqb_spec (y mod 4) 0), (Z.eqb_spec (y mod 100) 0), (Z.eqb_spec (y mod 400) 0); simpl; lia.
Qed.

Lemma years_days_leaps n : forall y, years_days y n = 365 * Z.of_nat n + leaps (y + Z.of_nat n - 1) - leaps (y - 1).
Proof.
  induction n as [|n IH]; intros y; cbn [years_days].
  - replace (y + Z.of_nat 0 - 1) with (y - 1) by lia. lia.
  - rewrite IH. replace (y + 1 + Z.of_nat n - 1) with (y + Z.of_nat (S n) - 1) by lia. replace (y + 1 - 1) with y by lia.
    rewrite (leaps_succ y). unfold year_days. destruct (leap y); simpl b2z; lia.
Qed.

Lemma jan1_leaps y : jan1 y = 365 * (y - 1970) + leaps (y - 1) - leaps 1969.
Proof.
  unfold jan1. destruct (Z.leb_spec 1970 y); rewrite years_days_leaps, Z2Nat.id by lia.
  - replace (1970 + (y - 1970) - 1) with (y - 1) by lia. change (1970 - 1) with 1969. lia.
  - replace (y + (1970 - y) - 1) with 1969 by lia. lia.
Qed.

Lemma jan1_succ y : jan1 (y + 1) = jan1 y + year_days y.
Proof.
  rewrite !jan1_leaps. replace (y + 1 - 1) with y by lia. rewrite (leaps_succ y). unfold year_days. destruct (leap y); simpl b2z; lia.
Qed.

#[global] Opaque jan1.

Lemma jan1_mono y z : y <= z -> jan1 y + 365 * (z - y) <= jan1 z.
Proof. intros H. rewrite !jan1_leaps. unfold leaps. lia. Qed.

(** There are at most [n / 4 + 1] leap years in [n] years. *)
Lemma leaps_diff y n : 0 <= n -> 0 <= leaps (y + n) - leaps y <= n / 4 + 1.
Proof. intros H. unfold leaps. lia. Qed.

(** ** The loops *)

Lemma rem_up_S fuel days rem : rem_up (S fuel) days rem =
  if rem <? 0 then let? rem := i64 (rem + 86400) in let? days := i64 (days - 1) in rem_up fuel days rem else Some (days, rem).
Proof. reflexivity. Qed.

Lemma rem_down_S fuel days rem : rem_down (S fuel) days rem =
  if 86400 <=? rem then let? rem := i64 (rem - 86400) in let? days := i64 (days + 1) in rem_down fuel days rem else Some (days, rem).
Proof. reflexivity. Qed.

Lemma rem_up_spec fuel : forall days rem, - Z.of_nat fuel * 86400 <= rem -> - 2 ^ 63 <= rem < 2 ^ 63 -> - 2 ^ 62 <= days - Z.of_nat fuel -> days < 2 ^ 62 ->
  rem_up (S fuel) days rem = Some (if rem <? 0 then (days + rem / 86400, rem mod 86400) else (days, rem)).
Proof.
  induction fuel as [|fuel IH]; intros days rem Hr Hr2 Hd Hd2; rewrite rem_up_S.
  - destruct (Z.ltb_spec rem 0); [lia | reflexivity].
  - destruct (Z.ltb_spec rem 0) as [H|H]; [|reflexivity]. rewrite !i64_ok by lia. rewrite IH by lia.
    destruct (Z.ltb_spec (rem + 86400) 0); do 2 f_equal; lia.
Qed.

Lemma rem_down_spec fuel : forall days rem, 0 <= rem < (Z.of_nat fuel + 1) * 86400 -> rem < 2 ^ 63 -> - 2 ^ 62 <= days -> days + Z.of_nat fuel < 2 ^ 62 ->
  rem_down (S fuel) days rem = Some (days + rem / 86400, rem mod 86400).
Proof.
  induction fuel as [|fuel IH]; intros days rem Hr Hr2 Hd Hd2; rewrite rem_down_S.
  - destruct (Z.leb_spec 86400 rem); [lia|]. do 2 f_equal; lia.
  - destruct (Z.leb_spec 86400 rem) as [H|H]; [|do 2 f_equal; lia]. rewrite !i64_ok by lia. rewrite IH by lia. do 2 f_equal; lia.
Qed.

(** The year and the day in it of a day. *)
Definition year_day (D y d : Z) : Prop := 0 <= d < year_days y /\ jan1 y + d = D.

Lemma year_day_unique D y d y' d' : year_day D y d -> year_day D y' d' -> y = y' /\ d = d'.
Proof.
  intros [H1 H2] [H3 H4]. destruct (Z.lt_trichotomy y y') as [H | [-> | H]]; [exfalso | lia | exfalso].
  - pose proof (jan1_mono (y + 1) y' ltac:(lia)). pose proof (jan1_succ y). lia.
  - pose proof (jan1_mono (y' + 1) y ltac:(lia)). pose proof (jan1_succ y'). lia.
Qed.

(** What the loop gives from guesses less than [M] years off, at years up to [Y]. *)
Definition year_loop_ok (fuel : nat) (M Y : Z) : Prop := forall days y, - M <= days / 365 <= M -> - Y <= y <= Y ->
  exists d y', year_loop fuel days y = Some (d, y') /\ year_day (jan1 y + days) y' d.

Lemma year_in fuel days y : 0 <= days < year_days y ->
  exists d y', year_loop (S fuel) days y = Some (d, y') /\ year_day (jan1 y + days) y' d.
Proof.
  intros H. exists days, y. cbn [year_loop]. rewrite isleap_leap. fold (year_days y).
  destruct (Z.ltb_spec days 0), (Z.leb_spec (year_days y) days); try lia. split; [reflexivity | split; lia].
Qed.

(** One iteration. *)
Lemma year_step fuel days y : ~ 0 <= days < year_days y -> - 2 ^ 50 <= days <= 2 ^ 50 -> - 2 ^ 50 <= y <= 2 ^ 50 ->
  let q := days / 365 in let days' := days mod 365 - (leaps (y + q - 1) - leaps (y - 1)) in
  year_loop (S fuel) days y = year_loop fuel days' (y + q) /\ jan1 (y + q) + days' = jan1 y + days.
Proof.
  intros H Hd Hy q days'. cbn [year_loop]. rewrite isleap_leap. fold (year_days y).
  assert (((days <? 0) || (year_days y <=? days)) = true) as ->.
  { destruct (Z.ltb_spec days 0), (Z.leb_spec (year_days y) days); try reflexivity. lia. }
  assert (y + Z.quot days 365 - b2z (Z.rem days 365 <? 0) = y + q) as ->.
  { pose proof (DIV_floor days 365 ltac:(lia)) as E. unfold DIV in E. lia. }
  rewrite (i64_ok (y + q)) by lia. replace ((y + q - y) * 365) with (365 * q) by lia. rewrite (i64_ok (365 * q)) by lia.
  rewrite !LEAPS_leaps. assert (days - (365 * q + leaps (y + q - 1) - leaps (y - 1)) = days') as -> by (unfold days', q; lia).
  rewrite i64_ok; [|unfold days', leaps; lia]. split; [reflexivity|].
  rewrite !jan1_leaps. unfold days', q. lia.
Qed.

Lemma year_close fuel Y : Y <= 2 ^ 50 -> year_loop_ok (S (S fuel)) 1 Y.
Proof.
  intros HY days y Hq Hy. destruct (Z.le_gt_cases 0 days) as [H0|H0]; [destruct (Z.lt_ge_cases days (year_days y)) as [H1|H1]|].
  - apply year_in. lia.
  - assert (365 <= days <= 729) as Hd by (unfold year_days in H1; destruct (leap y); lia).
    destruct (year_step (S fuel) days y) as [-> <-]; [lia | lia | lia|]. apply year_in.
    replace (days / 365) with 1 by lia. replace (y + 1 - 1) with y by lia. rewrite (leaps_succ y).
    unfold year_days in *. destruct (leap y), (leap (y + 1)); simpl b2z; lia.
  - destruct (year_step (S fuel) days y) as [-> <-]; [lia | lia | lia|]. apply year_in.
    replace (days / 365) with (-1) by lia. replace (y + -1 - 1) with (y - 1 - 1) by lia. rewrite (leaps_succ (y - 1)).
    unfold year_days. replace (y + -1) with (y - 1) by lia. destruct (leap (y - 1)); simpl b2z; lia.
Qed.

Lemma year_far fuel M M' Y : 0 <= M <= 2 ^ 40 -> 0 <= Y -> Y + M <= 2 ^ 50 -> M / 1460 + 1 <= M' -> year_loop_ok fuel M' (Y + M) -> year_loop_ok (S fuel) M Y.
Proof.
  intros HM HY0 HY HM' IH days y Hq Hy. destruct (Z.le_gt_cases 0 days) as [H0|H0]; [destruct (Z.lt_ge_cases days (year_days y)) as [H1|H1]|].
  - apply year_in. lia.
  - destruct (year_step fuel days y) as [-> <-]; [lia | lia | lia|].
    pose proof (leaps_diff (y - 1) (days / 365) ltac:(lia)) as Hl. replace (y - 1 + days / 365) with (y + days / 365 - 1) in Hl by lia.
    apply IH; lia.
  - destruct (year_step fuel days y) as [-> <-]; [lia | lia | lia|].
    pose proof (leaps_diff (y + days / 365 - 1) (- (days / 365)) ltac:(lia)) as Hl.
    replace (y + days / 365 - 1 + - (days / 365)) with (y - 1) in Hl by lia.
    apply IH; lia.
Qed.

(** Six iterations are enough for every 64-bit time. *)
Lemma year_loop_total fuel days : (6 <= fuel)%nat -> - 109 * 10 ^ 12 <= days <= 109 * 10 ^ 12 ->
  exists d y, year_loop fuel days 1970 = Some (d, y) /\ year_day days y d.
Proof.
  intros Hf Hd. assert (year_loop_ok fuel (3 * 10 ^ 11) 1970) as H.
  { do 6 (destruct fuel as [|fuel]; [lia|]).
    apply (year_far _ _ 205479453); [lia .. | ]. apply (year_far _ _ 140740); [lia .. |]. apply (year_far _ _ 97); [lia .. |].
    apply (year_far _ _ 1); [lia .. |]. apply year_close. lia. }
  destruct (H days 1970) as (d & y & E & Hy); [lia | lia|]. exists d, y. split; [exact E|]. exact Hy.
Qed.

(** ** The month *)

Lemma mon_yday_months lp mon : (mon <= 12)%nat -> nth_error (mon_yday lp) mon = Some (months_days lp mon).
Proof. intros H. do 13 (destruct mon as [|mon]; [destruct lp; reflexivity|]). lia. Qed.

Lemma month_loop_spec lp days : forall mon, (mon <= 11)%nat -> 0 <= days < months_days lp (S mon) ->
  exists mo, month_loop mon days (mon_yday lp) = Some mo /\ (mo <= mon)%nat /\ months_days lp mo <= days < months_days lp (S mo).
Proof.
  induction mon as [|mon IH]; intros Hm Hd; cbn [month_loop]; rewrite mon_yday_months by lia.
  - exists O. destruct (Z.ltb_spec days (months_days lp 0)) as [H|H]; [cbn [months_days] in H; lia|]. split; [reflexivity|]. split; [lia | exact (conj H (proj2 Hd))].
  - destruct (Z.ltb_spec days (months_days lp (S mon))) as [H|H].
    + destruct (IH ltac:(lia) (conj (proj1 Hd) H)) as (mo & E & Hle & Hr). exists mo. split; [exact E|]. split; [lia | exact Hr].
    + exists (S mon). split; [reflexivity|]. split; [lia|]. exact (conj H (proj2 Hd)).
Qed.

Lemma months_days_year y : months_days (leap y) 12 = year_days y.
Proof. unfold year_days. destruct (leap y); reflexivity. Qed.

(** * offtime *)

(** The fields of a structure that stands for [T] seconds after the epoch. *)
Record tm_of (T : Z) (tp : tm) : Prop := {
  of_sec : 0 <= tm_sec tp < 60;
  of_min : 0 <= tm_min tp < 60;
  of_hour : 0 <= tm_hour tp < 24;
  of_mon : 0 <= tm_mon tp < 12;
  of_mday : 1 <= tm_mday tp <= month_days (leap (1900 + tm_year tp)) (Z.to_nat (tm_mon tp));
  of_year : - 2 ^ 31 <= tm_year tp < 2 ^ 31;
  of_yday : tm_yday tp = months_days (leap (1900 + tm_year tp)) (Z.to_nat (tm_mon tp)) + tm_mday tp - 1;
  of_wday : tm_wday tp = (4 + T / 86400) mod 7;
  of_time : ((jan1 (1900 + tm_year tp) + tm_yday tp) * 24 + tm_hour tp) * 3600 + tm_min tp * 60 + tm_sec tp = T }.

(** A year that tm_year can hold. *)
Definition int_year (y : Z) : bool := (- 2 ^ 31 <=? y - 1900) && (y - 1900 <? 2 ^ 31).

Lemma int_year_wrap y : (swrap 32 (y - 1900) =? y - 1900) = int_year y.
Proof.
  unfold int_year, swrap. change (32 - 1) with 31. change (2 ^ 32) with 4294967296. change (2 ^ 31) with 2147483648.
  destruct (Z.eqb_spec ((y - 1900 + 2147483648) mod 4294967296 - 2147483648) (y - 1900)),
    (Z.leb_spec (- 2147483648) (y - 1900)), (Z.ltb_spec (y - 1900) 2147483648); simpl; try reflexivity; lia.
Qed.

Lemma swrap_int x : - 2 ^ 31 <= x < 2 ^ 31 -> swrap 32 x = x.
Proof. intros H. unfold swrap. change (32 - 1) with 31. rewrite Z.mod_small by lia. lia. Qed.

(** Both loops: the day and the second in it. *)
Lemma rem_loops fuel days rem : - 2 ^ 33 <= rem <= 2 ^ 33 -> - 2 ^ 50 <= days <= 2 ^ 50 -> Z.abs rem / 86400 < Z.of_nat fuel < 2 ^ 60 ->
  exists d1 r1, rem_up (S fuel) days rem = Some (d1, r1) /\ rem_down (S fuel) d1 r1 = Some (days + rem / 86400, rem mod 86400).
Proof.
  intros Hr Hd Hf. rewrite rem_up_spec by lia. destruct (Z.ltb_spec rem 0).
  - eexists _, _. split; [reflexivity|]. rewrite rem_down_spec by lia. do 2 f_equal; lia.
  - eexists _, _. split; [reflexivity|]. rewrite rem_down_spec by lia. reflexivity.
Qed.

Lemma wday_mod x : (if Z.rem x 7 <? 0 then Z.rem x 7 + 7 else Z.rem x 7) = x mod 7.
Proof. destruct (Z.ltb_spec (Z.rem x 7) 0); lia. Qed.

Lemma offtime_spec fuel t offset tp : - 2 ^ 63 <= t < 2 ^ 63 -> - 2 ^ 32 <= offset <= 2 ^ 32 ->
  (6 <= fuel)%nat -> Z.abs offset / 86400 + 3 <= Z.of_nat fuel < 2 ^ 60 ->
  exists y d tp', year_day ((t + offset) / 86400) y d /\ offtime fuel t offset tp = Some (int_year y, tp') /\
    (int_year y = true -> tm_of (t + offset) tp' /\ tm_year tp' = y - 1900 /\ tm_isdst tp' = tm_isdst tp /\ tm_gmtoff tp' = tm_gmtoff tp).
Proof.
  intros Ht Ho Hf Hf2. unfold offtime. change SECS_PER_DAY with 86400. change SECS_PER_HOUR with 3600.
  rewrite i64_ok by lia. destruct fuel as [|fuel]; [lia|].
  destruct (rem_loops fuel (Z.quot t 86400) (Z.rem t 86400 + offset)) as (d1 & r1 & -> & ->); [lia .. |].
  replace (Z.quot t 86400 + (Z.rem t 86400 + offset) / 86400) with ((t + offset) / 86400) by lia.
  replace ((Z.rem t 86400 + offset) mod 86400) with ((t + offset) mod 86400) by lia. rewrite wday_mod.
  set (T := t + offset) in *. assert (HD : - 109 * 10 ^ 12 <= T / 86400 <= 109 * 10 ^ 12) by (unfold T; lia).
  destruct (year_loop_total (S fuel) (T / 86400) Hf HD) as (d & y & -> & Hy). rewrite int_year_wrap, isleap_leap.
  destruct (int_year y) eqn:Ey; cbn [negb].
  2: { eexists y, d, _. split; [exact Hy|]. rewrite Ey. split; [reflexivity | discriminate]. }
  assert (Hyr : - 2 ^ 31 <= y - 1900 < 2 ^ 31).
  { unfold int_year in Ey. apply andb_prop in Ey as [E1 E2]. apply Z.leb_le in E1. apply Z.ltb_lt in E2. lia. }
  assert (Hy' := Hy). destruct Hy' as [Hd HD2]. rewrite <- (months_days_year y) in Hd.
  destruct (month_loop_spec (leap y) d 11 ltac:(lia) Hd) as (mo & -> & Hmo & Hr). rewrite mon_yday_months by lia. rewrite swrap_int by lia.
  eexists y, d, _. split; [exact Hy|]. rewrite Ey. split; [reflexivity|]. intros _. split; [|repeat split; reflexivity].
  cbn [months_days] in Hr. assert (HR : 0 <= T mod 86400 < 86400) by lia.
  split; cbn [tm_sec tm_min tm_hour tm_mday tm_mon tm_year tm_wday tm_yday]; rewrite ?Nat2Z.id; replace (1900 + (y - 1900)) with y by lia; try lia.
Qed.

(** ** gmtime *)

(** The times whose year an int can hold. *)
Definition gm_min : Z := -67768040609740800.
Definition gm_max : Z := 67768036191676799.

Lemma gm_min_jan1 : 86400 * jan1 (1900 - 2 ^ 31) = gm_min.
Proof. rewrite jan1_leaps. reflexivity. Qed.

Lemma gm_max_jan1 : 86400 * jan1 (1900 + 2 ^ 31) = gm_max + 1.
Proof. rewrite jan1_leaps. reflexivity. Qed.

Lemma year_ge T y d lo : year_day (T / 86400) y d -> lo <= y <-> 86400 * jan1 lo <= T.
Proof.
  intros [Hd HD]. pose proof (jan1_succ y) as Hs. split; intros H.
  - pose proof (jan1_mono lo y H). lia.
  - destruct (Z.le_gt_cases lo y) as [Hl|Hl]; [exact Hl|]. pose proof (jan1_mono (y + 1) lo ltac:(lia)). lia.
Qed.

Lemma int_year_range T y d : year_day (T / 86400) y d -> int_year y = (gm_min <=? T) && (T <=? gm_max).
Proof.
  intros H. pose proof (year_ge T y d (1900 - 2 ^ 31) H) as H1. pose proof (year_ge T y d (1900 + 2 ^ 31) H) as H2. clear H.
  rewrite gm_min_jan1 in H1. rewrite gm_max_jan1 in H2. unfold int_year.
  destruct (Z.leb_spec (- 2 ^ 31) (y - 1900)), (Z.ltb_spec (y - 1900) (2 ^ 31)), (Z.leb_spec gm_min T), (Z.leb_spec T gm_max); cbn [andb]; try reflexivity; exfalso; lia.
Qed.

Lemma months_days_le lp m : (m < 12)%nat -> 0 < month_days lp m.
Proof. intros H. do 12 (destruct m as [|m]; [destruct lp; reflexivity|]). lia. Qed.

Lemma month_days_max lp m : month_days lp m <= 31.
Proof. do 12 (destruct m as [|m]; [destruct lp; discriminate|]). destruct m; discriminate. Qed.

Lemma months_days_mono lp m m' : (m <= m' <= 12)%nat -> months_days lp m <= months_days lp m'.
Proof.
  intros [H H']. induction H as [|m' H IH]; [lia|]. cbn [months_days]. pose proof (months_days_le lp m' ltac:(lia)). lia.
Qed.

(** The day of the year of such a structure. *)
Lemma tm_of_year_day T tp : tm_of T tp -> year_day (T / 86400) (1900 + tm_year tp) (tm_yday tp).
Proof.
  intros H. pose proof (of_time _ _ H) as E. pose proof (of_yday _ _ H) as Ey. pose proof (of_mday _ _ H) as Hm.
  pose proof (of_mon _ _ H) as Hmo. pose proof (of_sec _ _ H). pose proof (of_min _ _ H). pose proof (of_hour _ _ H).
  set (lp := leap (1900 + tm_year tp)) in *. set (mo := Z.to_nat (tm_mon tp)) in *.
  pose proof (months_days_mono lp 0 mo ltac:(lia)) as L1. pose proof (months_days_mono lp (S mo) 12 ltac:(lia)) as L2.
  cbn [months_days] in L1. change (months_days lp (S mo)) with (months_days lp mo + month_days lp mo) in L2.
  unfold lp in L2. rewrite months_days_year in L2. fold lp in L2. split; lia.
Qed.

(** The time determines the fields. *)
Lemma tm_of_unique T tp tp' : tm_of T tp -> tm_of T tp' -> tm_isdst tp = tm_isdst tp' -> tm_gmtoff tp = tm_gmtoff tp' -> tp = tp'.
Proof.
  intros H H' E1 E2. destruct (year_day_unique _ _ _ _ _ (tm_of_year_day _ _ H) (tm_of_year_day _ _ H')) as [Ey Ed].
  destruct H as [S1 S2 S3 S4 S5 S6 S7 S8 S9], H' as [P1 P2 P3 P4 P5 P6 P7 P8 P9]. destruct tp, tp'; cbn [tm_sec tm_min tm_hour tm_mday tm_mon tm_year tm_wday tm_yday tm_isdst tm_gmtoff] in *.
  assert (tm_year0 = tm_year1) as <- by lia. subst. set (lp := leap (1900 + tm_year0)) in *.
  assert (Z.to_nat tm_mon0 = Z.to_nat tm_mon1) as Em.
  { destruct (Nat.lt_trichotomy (Z.to_nat tm_mon0) (Z.to_nat tm_mon1)) as [H|[H|H]]; [exfalso | exact H | exfalso].
    - pose proof (months_days_mono lp (S (Z.to_nat tm_mon0)) (Z.to_nat tm_mon1) ltac:(lia)) as L. cbn [months_days] in L. lia.
    - pose proof (months_days_mono lp (S (Z.to_nat tm_mon1)) (Z.to_nat tm_mon0) ltac:(lia)) as L. cbn [months_days] in L. lia. }
  apply Z2Nat.inj in Em; [|lia|lia]. subst tm_mon1. f_equal; lia.
Qed.

(** Without leap seconds. *)
Definition no_leap (tzfile : option (Z * Z)) : Prop := tzfile = None \/ tzfile = Some (0, 0).

Lemma gmtime_spec fuel tzfile t tp : - 2 ^ 63 <= t < 2 ^ 63 -> (6 <= fuel)%nat -> Z.of_nat fuel < 2 ^ 60 -> no_leap tzfile ->
  if (gm_min <=? t) && (t <=? gm_max) then
    exists tp', tz_convert_utc fuel tzfile t tp = Some (Some tp') /\ tm_of t tp' /\ tm_isdst tp' = 0 /\ tm_gmtoff tp' = 0
  else tz_convert_utc fuel tzfile t tp = Some None.
Proof.
  intros Ht Hf Hf2 Hl. unfold tz_convert_utc.
  assert (Ho : forall tp, exists y d tp', year_day (t / 86400) y d /\ offtime fuel t 0 tp = Some (int_year y, tp') /\
    (int_year y = true -> tm_of t tp' /\ tm_isdst tp' = tm_isdst tp /\ tm_gmtoff tp' = tm_gmtoff tp)).
  { intros tp0. destruct (offtime_spec fuel t 0 tp0) as (y & d & tp' & H1 & H2 & H3); [lia | lia | lia | cbn; lia |].
    rewrite Z.add_0_r in *. exists y, d, tp'. split; [exact H1|]. split; [exact H2|]. intros E. destruct (H3 E) as (? & _ & ? & ?). auto. }
  assert (exists tp1, (match tzfile with Some (lc, le) => Some (true, tp, lc, le) | None => let? (ok, tp0) := offtime fuel t 0 tp in Some (ok, tp0, 0, 0) end)
     = Some (true, tp1, 0, 0) \/ ((gm_min <=? t) && (t <=? gm_max) = false /\ (match tzfile with Some (lc, le) => Some (true, tp, lc, le) | None => let? (ok, tp0) := offtime fuel t 0 tp in Some (ok, tp0, 0, 0) end)
     = Some (false, tp1, 0, 0))) as (tp1 & [E1|(Er & E1)]).
  { destruct Hl as [-> | ->]; [|exists tp; left; reflexivity]. destruct (Ho tp) as (y & d & tp' & H1 & -> & H3). exists tp'.
    rewrite <- (int_year_range _ _ _ H1). destruct (int_year y); [left; reflexivity | right; split; reflexivity]. }
  - rewrite E1. cbn [tm_gmtoff]. change (0 - 0) with 0. set (tp2 := {| tm_sec := _ |}). destruct (Ho tp2) as (y & d & tp' & H1 & -> & H3).
    rewrite <- (int_year_range _ _ _ H1). destruct (int_year y); [|reflexivity]. destruct (H3 eq_refl) as (H4 & H5 & H6).
    eexists. split; [reflexivity|]. destruct tp'; cbn [tm_sec tm_min tm_hour tm_mday tm_mon tm_year tm_wday tm_yday tm_isdst tm_gmtoff tp2] in *. rewrite Z.add_0_r. subst. split; [exact H4 | split; reflexivity].
  - rewrite Er, E1. reflexivity.
Qed.

(** C30: for every 64-bit time and offsets of up to 2^32 seconds, __offtime ends (the
    year is found in six iterations), its arithmetic does not overflow, and it fails
    exactly when tm_year cannot hold the year.  Otherwise the fields are in their
    ranges, the date is the one that counting whole years and months from 1970 gives,
    and together they are exactly t + offset; the weekday is right, and tm_isdst and
    tm_gmtoff are untouched. *)
Theorem offtime_correct fuel t offset tp : - 2 ^ 63 <= t < 2 ^ 63 -> - 2 ^ 32 <= offset <= 2 ^ 32 ->
  (6 <= fuel)%nat -> Z.abs offset / 86400 + 3 <= Z.of_nat fuel < 2 ^ 60 ->
  exists y d tp', year_day ((t + offset) / 86400) y d /\ offtime fuel t offset tp = Some (int_year y, tp') /\
    (int_year y = true -> tm_of (t + offset) tp' /\ tm_year tp' = y - 1900 /\ tm_isdst tp' = tm_isdst tp /\ tm_gmtoff tp' = tm_gmtoff tp).
Proof. apply offtime_spec. Qed.

(** The time 1700000000 in a zone one hour east. *)
Lemma offtime_correct_witness : let tp := {| tm_sec := 0; tm_min := 0; tm_hour := 0; tm_mday := 0; tm_mon := 0; tm_year := 0;
    tm_wday := 0; tm_yday := 0; tm_isdst := 1; tm_gmtoff := 3600 |} in
  exists y d tp', year_day ((1700000000 + 3600) / 86400) y d /\ offtime 6 1700000000 3600 tp = Some (int_year y, tp') /\
    (int_year y = true -> tm_of (1700000000 + 3600) tp' /\ tm_year tp' = y - 1900 /\ tm_isdst tp' = tm_isdst tp /\ tm_gmtoff tp' = tm_gmtoff tp).
Proof. intros tp. apply (offtime_correct 6 1700000000 3600 tp); [lia | lia | lia | change (Z.abs 3600 / 86400) with 0; lia]. Defined.
