(* ===== verification/Mktime.v ===== *)
(** * From broken-down time to time_t (time/mktime.c, time/timegm.c)

    __mktime_internal inverts a conversion function by probing it.  The
    conversion function gives a structure or an errno; [long_int] is a 64-bit
    long, time_t has 64 bits and [LEAP_SECONDS_POSSIBLE] is 1.  Signed 64-bit
    arithmetic that could overflow goes through [i64]. *)

From Stdlib Require Import ZArith List Lia Bool.
From S2P Require Import Prelude Time.
Import ListNotations.
#[local] Open Scope Z_scope.
#[local] Open Scope glibc_scope.

Definition EOVERFLOW : Z := 75.

Definition shr (a b : Z) : Z := Z.shiftr a b.

Definition mktime_min : Z := - 2 ^ 63.
Definition mktime_max : Z := 2 ^ 63 - 1.

Definition EPOCH_YEAR : Z := 1970.
Definition TM_YEAR_BASE : Z := 1900.

(** Is YEAR + TM_YEAR_BASE a leap year? *)
Definition leapyear (year : Z) : bool :=
  (Z.land year 3 =? 0) &&
  (negb (Z.rem year 100 =? 0) || (Z.land (Z.quot year 100) 3 =? Z.land (- (TM_YEAR_BASE / 100)) 3)).

(** (!a != !b) && (0 <= a) && (0 <= b) *)
Definition isdst_differ (a b : Z) : bool := negb (eqb (a =? 0) (b =? 0)) && (0 <=? a) && (0 <=? b).

(** Arithmetic of type int. *)
Definition i32 (x : Z) : option Z := if (- 2 ^ 31 <=? x) && (x <? 2 ^ 31) then Some x else None.

(** shr is of type long_int; its results are converted to int. *)
Definition ydhms_diff (year1 yday1 hour1 min1 sec1 year0 yday0 hour0 min0 sec0 : Z) : option Z :=
  let a4 := swrap 32 (shr year1 2 + shr TM_YEAR_BASE 2 - b2z (Z.land year1 3 =? 0)) in
  let b4 := swrap 32 (shr year0 2 + shr TM_YEAR_BASE 2 - b2z (Z.land year0 3 =? 0)) in
  let a100 := Z.quot (a4 + b2z (a4 <? 0)) 25 - b2z (a4 <? 0) in
  let b100 := Z.quot (b4 + b2z (b4 <? 0)) 25 - b2z (b4 <? 0) in
  let a400 := shr a100 2 in
  let b400 := shr b100 2 in
  let? d4 := i32 (a4 - b4) in
  let? d100 := i32 (a100 - b100) in
  let? d := i32 (d4 - d100) in
  let? intervening_leap_days := i32 (d + (a400 - b400)) in
  let? years := i64 (year1 - year0) in
  let? days := i64 (365 * years + yday1 - yday0 + intervening_leap_days) in
  let? hours := i64 (24 * days + hour1 - hour0) in
  let? minutes := i64 (60 * hours + min1 - min0) in
  i64 (60 * minutes + sec1 - sec0).

Definition long_int_avg (a b : Z) : Z := shr a 1 + shr b 1 + Z.land (Z.lor a b) 1.

Definition tm_diff (year yday hour min sec : Z) (tp : tm) : option Z :=
  ydhms_diff year yday hour min sec (tm_year tp) (tm_yday tp) (tm_hour tp) (tm_min tp) (tm_sec tp).

Section Convert.
(** What CONVERT gives for a time: the errno if it fails. *)
Context (convert : Z -> Z + tm).

(** struct tm oktm; oktm.tm_sec = -1; *)
Definition no_tm : tm := {| tm_sec := -1; tm_min := 0; tm_hour := 0; tm_mday := 0; tm_mon := 0; tm_year := 0;
                            tm_wday := 0; tm_yday := 0; tm_isdst := 0; tm_gmtoff := 0 |}.

(** The binary search: OK and its structure. *)
Fixpoint narrow (fuel : nat) (ok bad : Z) (oktm : tm) : option (Z + Z * tm) :=
  match fuel with
  | O => None
  | S fuel =>
      let mid := long_int_avg ok bad in
      if (mid =? ok) || (mid =? bad) then Some (inr (ok, oktm))
      else
        match convert mid with
        | inr tp => narrow fuel mid bad tp
        | inl errno => if negb (errno =? EOVERFLOW) then Some (inl errno) else narrow fuel ok mid oktm
        end
  end.

(** The time that was converted, and the structure. *)
Definition ranged_convert (fuel : nat) (t : Z) : option (Z + Z * tm) :=
  let t1 := if t <? mktime_min then mktime_min else if t <=? mktime_max then t else mktime_max in
  match convert t1 with
  | inr tp => Some (inr (t1, tp))
  | inl errno =>
      if negb (errno =? EOVERFLOW) then Some (inl errno)
      else
        let? r := narrow fuel 0 t1 no_tm in
        match r with
        | inl errno => Some (inl errno)
        | inr (ok, oktm) => if tm_sec oktm <? 0 then Some (inl EOVERFLOW) else Some (inr (ok, oktm))
        end
  end.

(** The time requested. *)
Record request := { rq_year : Z; rq_yday : Z; rq_hour : Z; rq_min : Z; rq_sec : Z; rq_isdst : Z }.

Definition rq_diff (rq : request) (tp : tm) : option Z := tm_diff (rq_year rq) (rq_yday rq) (rq_hour rq) (rq_min rq) (rq_sec rq) tp.

(** Repeatedly use the error to improve the guess: the time, its structure and
    whether it is a match (otherwise goto offset_found).  [remaining_probes] is
    decreased after a probe that does not end the loop. *)
Fixpoint probe (fuel : nat) (rq : request) (remaining_probes : nat) (t t1 t2 dst2 : Z) : option (Z + Z * tm * bool) :=
  match remaining_probes with
  | O => None
  | S remaining_probes =>
      let? r := ranged_convert fuel t in
      match r with
      | inl errno => Some (inl errno)
      | inr (t, tp) =>
          let? dt := rq_diff rq tp in
          if dt =? 0 then Some (inr (t, tp, true))
          else if (t =? t1) && negb (t =? t2) &&
                  ((tm_isdst tp <? 0) ||
                   (if rq_isdst rq <? 0 then dst2 <=? b2z (negb (tm_isdst tp =? 0))
                    else negb (eqb (negb (rq_isdst rq =? 0)) (negb (tm_isdst tp =? 0)))))
          then Some (inr (t, tp, false))
          else
            match remaining_probes with
            | O => Some (inl EOVERFLOW)
            | S _ =>
                let? t' := i64 (t + dt) in
                probe fuel rq remaining_probes t' t2 t (b2z (negb (tm_isdst tp =? 0)))
            end
      end
  end.

Definition stride : Z := 601200.
Definition duration_max : Z := 457243209.
Definition delta_bound : Z := Z.quot duration_max 2 + stride.

(** One direction: a time found, or go on. *)
Definition dst_probe (fuel : nat) (rq : request) (t delta direction : Z) : option (Z + option (Z * tm)) :=
  match i64 (t + delta * direction) with
  | None => Some (inr None)
  | Some ot =>
      let? r := ranged_convert fuel ot in
      match r with
      | inl errno => Some (inl errno)
      | inr (ot, otm) =>
          if negb (isdst_differ (rq_isdst rq) (tm_isdst otm)) then
            let? dt := rq_diff rq otm in
            let? gt := i64 (ot + dt) in
            if (mktime_min <=? gt) && (gt <=? mktime_max) then
              match convert gt with
              | inr tp => Some (inr (Some (gt, tp)))
              | inl errno => if negb (errno =? EOVERFLOW) then Some (inl errno) else Some (inr None)
              end
            else Some (inr None)
          else Some (inr None)
      end
  end.

(** for (delta = stride; delta < delta_bound; delta += stride), both directions *)
Fixpoint dst_search (n fuel : nat) (rq : request) (t delta : Z) : option (Z + option (Z * tm)) :=
  match n with
  | O => None
  | S n =>
      if delta <? delta_bound then
        let? r := dst_probe fuel rq t delta (-1) in
        match r with
        | inl errno => Some (inl errno)
        | inr (Some x) => Some (inr (Some x))
        | inr None =>
            let? r := dst_probe fuel rq t delta 1 in
            match r with
            | inl errno => Some (inl errno)
            | inr (Some x) => Some (inr (Some x))
            | inr None => dst_search n fuel rq t (delta + stride)
            end
        end
      else Some (inr None)
  end.

(** The match has the wrong tm_isdst. *)
Definition other_dst (n fuel : nat) (rq : request) (t : Z) (tp : tm) : option (Z + Z * tm) :=
  let dst_difference := b2z (rq_isdst rq =? 0) - b2z (tm_isdst tp =? 0) in
  let? r := dst_search n fuel rq t stride in
  match r with
  | inl errno => Some (inl errno)
  | inr (Some x) => Some (inr x)
  | inr None =>
      let? t := i64 (t + 60 * 60 * dst_difference) in
      if (mktime_min <=? t) && (t <=? mktime_max) then
        match convert t with inr tp => Some (inr (t, tp)) | inl _ => Some (inl EOVERFLOW) end
      else Some (inl EOVERFLOW)
  end.

(** The request: month and seconds in range. *)
Definition make_request (tp : tm) : option request :=
  let mon := tm_mon tp in
  let mon_remainder := Z.rem mon 12 in
  let negative_mon_remainder := b2z (mon_remainder <? 0) in
  let mon_years := Z.quot mon 12 - negative_mon_remainder in
  let year := tm_year tp + mon_years in
  let? x := nth_error (mon_yday (leapyear year)) (Z.to_nat (mon_remainder + 12 * negative_mon_remainder)) in
  let yday := x - 1 + tm_mday tp in
  let sec := tm_sec tp in
  let sec := if sec <? 0 then 0 else sec in
  let sec := if 59 <? sec then 59 else sec in
  Some {| rq_year := year; rq_yday := yday; rq_hour := tm_hour tp; rq_min := tm_min tp; rq_sec := sec; rq_isdst := tm_isdst tp |}.

(** Adjusts for the seconds requested. *)
Definition adjust_sec (sec sec_requested t : Z) (tp : tm) : option (Z + Z * tm) :=
  if negb (sec_requested =? tm_sec tp) then
    let sec_adjustment := b2z ((sec =? 0) && (tm_sec tp =? 60)) - sec + sec_requested in
    match i64 (t + sec_adjustment) with
    | None => Some (inl EOVERFLOW)
    | Some t =>
        if (mktime_min <=? t) && (t <=? mktime_max) then
          match convert t with inr tp => Some (inr (t, tp)) | inl errno => Some (inl errno) end
        else Some (inl EOVERFLOW)
    end
  else Some (inr (t, tp)).

(** __mktime_internal: the time or an errno, *TP and *OFFSET. *)
Definition mktime_internal (fuel : nat) (tp : tm) (offset : Z) : option ((Z + Z) * tm * Z) :=
  let? rq := make_request tp in
  let negative_offset_guess := swrap 32 (0 - offset) in
  let? t0 := ydhms_diff (rq_year rq) (rq_yday rq) (rq_hour rq) (rq_min rq) (rq_sec rq)
               (EPOCH_YEAR - TM_YEAR_BASE) 0 0 0 negative_offset_guess in
  let? r := probe fuel rq 6 t0 t0 t0 0 in
  let? r := match r with
            | inl errno => Some (inl errno)
            | inr (t, tm, matched) =>
                if matched && isdst_differ (rq_isdst rq) (tm_isdst tm) then other_dst fuel fuel rq t tm
                else Some (inr (t, tm))
            end in
  match r with
  | inl errno => Some (inl errno, tp, offset)
  | inr (t, tm) =>
      let offset := swrap 64 (t - t0) in
      let offset := swrap 64 (offset - negative_offset_guess) in
      let? r := adjust_sec (rq_sec rq) (tm_sec tp) t tm in
      match r with
      | inl errno => Some (inl errno, tp, offset)
      | inr (t, tm) => Some (inr t, tm, offset)
      end
  end.
End Convert.

(** __gmtime64_r as a conversion function.  Lack of fuel would be taken for EOVERFLOW; the
    theorems give the fuel with which there is none. *)
Definition gmtime_r (fuel : nat) (tzfile : option (Z * Z)) (t : Z) : Z + tm :=
  match tz_convert_utc fuel tzfile t no_tm with Some (Some tp) => inr tp | _ => inl EOVERFLOW end.

(** __timegm64 with its static gmtime_offset. *)
Definition timegm (fuel : nat) (tzfile : option (Z * Z)) (tmp : tm) (gmtime_offset : Z) : option ((Z + Z) * tm * Z) :=
  let tmp := {| tm_sec := tm_sec tmp; tm_min := tm_min tmp; tm_hour := tm_hour tmp; tm_mday := tm_mday tmp; tm_mon := tm_mon tmp;
                tm_year := tm_year tmp; tm_wday := tm_wday tmp; tm_yday := tm_yday tmp; tm_isdst := 0; tm_gmtoff := tm_gmtoff tmp |} in
  mktime_internal (gmtime_r fuel tzfile) fuel tmp gmtime_offset.

(** * Proofs *)

#[local] Ltac Zify.zify_post_hook ::= Z.to_euclidean_division_equations.

Lemma land3 x : Z.land x 3 = x mod 4.
Proof. exact (land_low_mask x 2 ltac:(lia)). Qed.

Lemma shr_div x n : 0 <= n -> shr x n = x / 2 ^ n.
Proof. apply Z.shiftr_div_pow2. Qed.

Lemma leapyear_leap year : leapyear year = leap (1900 + year).
Proof.
  unfold leapyear, leap. rewrite !land3. change ((- (TM_YEAR_BASE / 100)) mod 4) with 1.
  destruct (Z.eqb_spec (year mod 4) 0), (Z.eqb_spec ((1900 + year) mod 4) 0); lia.
Qed.

(** The leap years before a year. *)
Lemma leap_days_before year : - 5 * 2 ^ 29 <= year <= 5 * 2 ^ 29 ->
  let a4 := swrap 32 (shr year 2 + shr TM_YEAR_BASE 2 - b2z (Z.land year 3 =? 0)) in
  let a100 := Z.quot (a4 + b2z (a4 <? 0)) 25 - b2z (a4 <? 0) in
  a4 - a100 + shr a100 2 = leaps (1900 + year - 1) /\ - 5 * 2 ^ 27 - 500 <= a4 <= 5 * 2 ^ 27 + 500.
Proof.
  intros Hy a4. assert (a4 = (1900 + year - 1) / 4) as E4.
  { unfold a4. rewrite land3, !shr_div by lia. change (TM_YEAR_BASE / 2 ^ 2) with 475. change (2 ^ 2) with 4.
    rewrite swrap_int; destruct (Z.eqb_spec (year mod 4) 0); simpl b2z; lia. }
  clearbody a4. intros a100. assert (a100 = a4 / 25) as E100.
  { unfold a100. destruct (Z.ltb_spec a4 0); simpl b2z; lia. }
  clearbody a100. rewrite shr_div by lia. change (2 ^ 2) with 4. split; [unfold leaps|]; lia.
Qed.

(** Seconds from the epoch. *)
Definition seconds (year yday hour min sec : Z) : Z := ((jan1 (1900 + year) + yday) * 24 + hour) * 3600 + min * 60 + sec.

Lemma jan1_small y : - 2 ^ 33 <= y <= 2 ^ 33 -> - 2 ^ 42 <= jan1 y <= 2 ^ 42.
Proof. intros H. rewrite jan1_leaps. unfold leaps. lia. Qed.

Lemma i32_ok x : - 2 ^ 31 <= x < 2 ^ 31 -> i32 x = Some x.
Proof. intros H. unfold i32. destruct (Z.leb_spec (- 2 ^ 31) x), (Z.ltb_spec x (2 ^ 31)); try reflexivity; exfalso; lia. Qed.

Lemma ydhms_diff_spec year1 yday1 hour1 min1 sec1 year0 yday0 hour0 min0 sec0 :
  - 5 * 2 ^ 29 <= year1 <= 5 * 2 ^ 29 -> - 5 * 2 ^ 29 <= year0 <= 5 * 2 ^ 29 -> - 2 ^ 32 <= yday1 <= 2 ^ 32 -> - 2 ^ 32 <= yday0 <= 2 ^ 32 ->
  - 2 ^ 32 <= hour1 <= 2 ^ 32 -> - 2 ^ 32 <= hour0 <= 2 ^ 32 -> - 2 ^ 32 <= min1 <= 2 ^ 32 -> - 2 ^ 32 <= min0 <= 2 ^ 32 ->
  - 2 ^ 32 <= sec1 <= 2 ^ 32 -> - 2 ^ 32 <= sec0 <= 2 ^ 32 ->
  ydhms_diff year1 yday1 hour1 min1 sec1 year0 yday0 hour0 min0 sec0 =
    Some (seconds year1 yday1 hour1 min1 sec1 - seconds year0 yday0 hour0 min0 sec0).
Proof.
  intros. unfold ydhms_diff. destruct (leap_days_before year1) as [E1 B1]; [lia|]. destruct (leap_days_before year0) as [E0 B0]; [lia|].
  set (a4 := swrap 32 (shr year1 2 + _ - _)) in *. set (b4 := swrap 32 (shr year0 2 + _ - _)) in *.
  set (a100 := Z.quot (a4 + _) 25 - _) in *. set (b100 := Z.quot (b4 + _) 25 - _) in *.
  assert (Ha : - 2 ^ 26 <= a100 <= 2 ^ 26) by (unfold a100; clear -B1; clearbody a4; destruct (Z.ltb_spec a4 0); simpl b2z; lia).
  assert (Hb : - 2 ^ 26 <= b100 <= 2 ^ 26) by (unfold b100; clear -B0; clearbody b4; destruct (Z.ltb_spec b4 0); simpl b2z; lia).
  pose proof (jan1_leaps (1900 + year1)) as J1. pose proof (jan1_leaps (1900 + year0)) as J0.
  pose proof (jan1_small (1900 + year1) ltac:(lia)) as JB1. pose proof (jan1_small (1900 + year0) ltac:(lia)) as JB0.
  rewrite !shr_div in * by lia. change (2 ^ 2) with 4 in *. unfold seconds.
  clearbody a4 b4 a100 b100. generalize dependent (leaps (1900 + year1 - 1)). generalize dependent (leaps (1900 + year0 - 1)).
  intros l0 El0 J0 l1 El1 J1. generalize dependent (jan1 (1900 + year1)). intros j1 J1 JB1. generalize dependent (jan1 (1900 + year0)). intros j0 J0 JB0.
  rewrite (i32_ok (a4 - b4)), (i32_ok (a100 - b100)), (i32_ok (a4 - b4 - (a100 - b100))) by lia.
  assert ((a4 - b4) - (a100 - b100) + (a100 / 4 - b100 / 4) = l1 - l0) as -> by lia.
  rewrite i32_ok by lia. rewrite (i64_ok (year1 - year0)) by lia.
  replace (365 * (year1 - year0) + yday1 - yday0 + (l1 - l0)) with (j1 + yday1 - (j0 + yday0)) by lia.
  rewrite (i64_ok (j1 + yday1 - (j0 + yday0))) by lia.
  rewrite (i64_ok (24 * (j1 + yday1 - (j0 + yday0)) + hour1 - hour0)) by lia.
  rewrite (i64_ok (60 * (24 * (j1 + yday1 - (j0 + yday0)) + hour1 - hour0) + min1 - min0)) by lia.
  rewrite i64_ok by lia. f_equal. lia.
Qed.

Lemma long_int_avg_spec a b : long_int_avg a b = (a + b + 1) / 2.
Proof.
  unfold long_int_avg. rewrite !shr_div by lia. change (2 ^ 1) with 2.
  assert (Z.land (Z.lor a b) 1 = Z.lor (a mod 2) (b mod 2)) as ->.
  { change (a mod 2) with (a mod 2 ^ 1). change (b mod 2) with (b mod 2 ^ 1). rewrite <- !(land_low_mask _ 1) by lia.
    apply Z.land_lor_distr_l. }
  destruct (Z.mod_pos_bound a 2), (Z.mod_pos_bound b 2); try lia.
  assert (a mod 2 = 0 \/ a mod 2 = 1) as [Ea|Ea] by lia; assert (b mod 2 = 0 \/ b mod 2 = 1) as [Eb|Eb] by lia;
    rewrite Ea, Eb; (change (Z.lor _ _) with 0 || change (Z.lor _ _) with 1); lia.
Qed.

(** ** Every conversion function *)

Lemma in_range t : (mktime_min <=? t) && (t <=? mktime_max) = true -> - 2 ^ 63 <= t < 2 ^ 63.
Proof. unfold mktime_min, mktime_max. lia. Qed.

Section Any.
Context (convert : Z -> Z + tm).

Lemma narrow_converts fuel : forall ok bad oktm t tp,
  - 2 ^ 63 <= ok < 2 ^ 63 -> - 2 ^ 63 <= bad < 2 ^ 63 -> convert ok = inr oktm \/ tm_sec oktm < 0 ->
  narrow convert fuel ok bad oktm = Some (inr (t, tp)) -> - 2 ^ 63 <= t < 2 ^ 63 /\ (convert t = inr tp \/ tm_sec tp < 0).
Proof using Type.
  induction fuel as [|fuel IH]; intros ok bad oktm t tp Hok Hbad Hi; cbn [narrow]; [discriminate|].
  rewrite long_int_avg_spec. destruct (((ok + bad + 1) / 2 =? ok) || ((ok + bad + 1) / 2 =? bad)) eqn:E.
  - intros [= <- <-]. auto.
  - assert (- 2 ^ 63 <= (ok + bad + 1) / 2 < 2 ^ 63) by lia.
    destruct (convert ((ok + bad + 1) / 2)) as [errno|tm'] eqn:Ec.
    + destruct (negb (errno =? EOVERFLOW)); [discriminate|]. apply IH; auto.
    + apply IH; auto.
Qed.

Lemma ranged_convert_converts fuel t t' tp : ranged_convert convert fuel t = Some (inr (t', tp)) ->
  - 2 ^ 63 <= t' < 2 ^ 63 /\ convert t' = inr tp.
Proof using Type.
  unfold ranged_convert. set (t1 := if t <? mktime_min then _ else _).
  assert (H1 : - 2 ^ 63 <= t1 < 2 ^ 63).
  { unfold t1, mktime_min, mktime_max. destruct (Z.ltb_spec t (- 2 ^ 63)), (Z.leb_spec t (2 ^ 63 - 1)); lia. }
  destruct (convert t1) as [errno|tm'] eqn:Ec; [|intros [= <- <-]; auto].
  destruct (negb (errno =? EOVERFLOW)); [discriminate|].
  destruct (narrow convert fuel 0 t1 no_tm) as [[e|[ok oktm]]|] eqn:En; [discriminate | | discriminate].
  destruct (Z.ltb_spec (tm_sec oktm) 0); [discriminate|]. intros [= <- <-].
  destruct (narrow_converts fuel 0 t1 no_tm ok oktm) as [H2 [H3|H3]]; auto; [lia | right; reflexivity | lia].
Qed.

Lemma probe_converts fuel rq n : forall t t1 t2 dst2 t' tp b, probe convert fuel rq n t t1 t2 dst2 = Some (inr (t', tp, b)) ->
  - 2 ^ 63 <= t' < 2 ^ 63 /\ convert t' = inr tp /\ (b = true -> rq_diff rq tp = Some 0).
Proof using Type.
  induction n as [|n IH]; intros t t1 t2 dst2 t' tp b; cbn [probe]; [discriminate|].
  destruct (ranged_convert convert fuel t) as [[e|[tt ttm]]|] eqn:Er; [discriminate | | discriminate].
  destruct (ranged_convert_converts _ _ _ _ Er) as [H1 H2].
  destruct (rq_diff rq ttm) as [dt|] eqn:Ed; [|discriminate]. destruct (Z.eqb_spec dt 0) as [->|Hn].
  - intros [= <- <- <-]. auto.
  - destruct (_ && _ && _).
    + intros [= <- <- <-]. split; [exact H1|]. split; [exact H2 | discriminate].
    + destruct n; [discriminate|]. destruct (i64 (tt + dt)); [|discriminate]. apply IH.
Qed.

Lemma dst_probe_converts fuel rq t delta dir t' tp : dst_probe convert fuel rq t delta dir = Some (inr (Some (t', tp))) ->
  - 2 ^ 63 <= t' < 2 ^ 63 /\ convert t' = inr tp.
Proof using Type.
  unfold dst_probe. destruct (i64 (t + delta * dir)) as [ot|]; [|discriminate].
  destruct (ranged_convert convert fuel ot) as [[e|[tt ttm]]|]; [discriminate | | discriminate].
  destruct (negb (isdst_differ (rq_isdst rq) (tm_isdst ttm))); [|discriminate].
  destruct (rq_diff rq ttm) as [dt|]; [|discriminate]. destruct (i64 (tt + dt)) as [gt|]; [|discriminate].
  destruct (_ && _) eqn:Eb; [|discriminate]. apply in_range in Eb.
  destruct (convert gt) as [e|gtm] eqn:Ec; [destruct (negb (e =? EOVERFLOW)); discriminate|]. intros [= <- <-]. auto.
Qed.

Lemma dst_search_converts fuel rq t t' tp n : forall delta, dst_search convert n fuel rq t delta = Some (inr (Some (t', tp))) ->
  - 2 ^ 63 <= t' < 2 ^ 63 /\ convert t' = inr tp.
Proof using Type.
  induction n as [|n IH]; intros delta; cbn [dst_search]; [discriminate|]. destruct (delta <? delta_bound); [|discriminate].
  destruct (dst_probe convert fuel rq t delta (-1)) as [[e|[[x xtm]|]]|] eqn:E1; try discriminate.
  - intros [= <- <-]. exact (dst_probe_converts _ _ _ _ _ _ _ E1).
  - destruct (dst_probe convert fuel rq t delta 1) as [[e|[[x xtm]|]]|] eqn:E2; try discriminate.
    + intros [= <- <-]. exact (dst_probe_converts _ _ _ _ _ _ _ E2).
    + apply IH.
Qed.

Lemma mktime_internal_converts fuel tp offset t tp' offset' :
  mktime_internal convert fuel tp offset = Some (inr t, tp', offset') -> - 2 ^ 63 <= t < 2 ^ 63 /\ convert t = inr tp'.
Proof using Type.
  unfold mktime_internal. destruct (make_request tp) as [rq|]; [|discriminate].
  destruct (ydhms_diff _ _ _ _ _ _ _ _ _ _) as [t0|]; [|discriminate].
  destruct (probe convert fuel rq 6 t0 t0 t0 0) as [[e|[[t1 tm1] b]]|] eqn:Ep; [discriminate | | discriminate].
  destruct (probe_converts _ _ _ _ _ _ _ _ _ _ Ep) as (H1 & H2 & _).
  assert (Hr : forall t2 tm2, (if b && isdst_differ (rq_isdst rq) (tm_isdst tm1) then other_dst convert fuel fuel rq t1 tm1 else Some (inr (t1, tm1))) = Some (inr (t2, tm2)) ->
    - 2 ^ 63 <= t2 < 2 ^ 63 /\ convert t2 = inr tm2).
  { intros t2 tm2. destruct (b && _); [|intros [= <- <-]; auto]. unfold other_dst.
    destruct (dst_search convert fuel fuel rq t1 stride) as [[e|[[x xtm]|]]|] eqn:Es; try discriminate.
    - intros [= <- <-]. exact (dst_search_converts _ _ _ _ _ _ _ Es).
    - destruct (i64 _) as [t3|]; [|discriminate]. destruct (_ && _) eqn:Eb; [|discriminate]. apply in_range in Eb.
      destruct (convert t3) eqn:E3; [discriminate|]. intros [= <- <-]. auto. }
  destruct (if b && _ then _ else _) as [[e|[t2 tm2]]|]; [discriminate | | discriminate].
  destruct (Hr t2 tm2 eq_refl) as [H3 H4]. unfold adjust_sec. destruct (negb _).
  - destruct (i64 _) as [t3|]; [|discriminate]. destruct (_ && _) eqn:Eb; [|discriminate]. apply in_range in Eb.
    destruct (convert t3) eqn:E3; [discriminate|]. intros [= <- <- <-]. auto.
  - intros [= <- <- <-]. auto.
Qed.
End Any.

(** ** UTC *)

Definition in_gm (t : Z) : bool := (gm_min <=? t) && (t <=? gm_max).

Definition clamp (t : Z) : Z := Z.max gm_min (Z.min gm_max t).

Lemma clamp_in t : in_gm (clamp t) = true.
Proof. unfold in_gm, clamp, gm_min, gm_max. lia. Qed.

Lemma clamp_id t : in_gm t = true -> clamp t = t.
Proof. unfold in_gm, clamp, gm_min, gm_max. lia. Qed.

Section Utc.
Context (convert : Z -> Z + tm).
(** CONVERT is UTC without leap seconds. *)
Context (Hconv : forall t, - 2 ^ 63 <= t < 2 ^ 63 ->
  if in_gm t then exists tp, convert t = inr tp /\ tm_of t tp /\ tm_isdst tp = 0 else convert t = inl EOVERFLOW).

Lemma convert_in t : in_gm t = true -> exists tp, convert t = inr tp /\ tm_of t tp /\ tm_isdst tp = 0.
Proof using Hconv. intros H. specialize (Hconv t). rewrite H in Hconv. apply Hconv. unfold in_gm, gm_min, gm_max in H. lia. Qed.

Lemma convert_out t : - 2 ^ 63 <= t < 2 ^ 63 -> in_gm t = false -> convert t = inl EOVERFLOW.
Proof using Hconv. intros H E. specialize (Hconv t H). rewrite E in Hconv. exact Hconv. Qed.

Lemma narrow_up fuel : forall ok bad oktm, 0 <= ok <= gm_max -> gm_max < bad < 2 ^ 63 -> bad - ok <= 2 ^ Z.of_nat fuel ->
  (ok = 0 \/ convert ok = inr oktm) -> exists tp, narrow convert (S fuel) ok bad oktm = Some (inr (gm_max, tp)) /\ convert gm_max = inr tp.
Proof using Hconv.
  induction fuel as [|fuel IH]; intros ok bad oktm Hok Hbad Hd Hi.
  - change (2 ^ Z.of_nat 0) with 1 in Hd. assert (ok = gm_max) as -> by lia. assert (bad = gm_max + 1) as -> by lia.
    cbn [narrow]. rewrite long_int_avg_spec. assert (((gm_max + (gm_max + 1) + 1) / 2 =? gm_max + 1) = true) as -> by (apply Z.eqb_eq; lia).
    rewrite orb_true_r. exists oktm. split; [reflexivity|]. destruct Hi as [Hi|Hi]; [discriminate Hi | exact Hi].
  - rewrite Nat2Z.inj_succ, Z.pow_succ_r in Hd by lia. remember (S fuel) as f1. cbn [narrow]. rewrite long_int_avg_spec. subst f1.
    destruct (Z.eqb_spec ((ok + bad + 1) / 2) ok) as [E|E]; [lia|]. destruct (Z.eqb_spec ((ok + bad + 1) / 2) bad) as [E'|E']; cbn [orb].
    + assert (ok = gm_max) as -> by lia. exists oktm. split; [reflexivity|]. destruct Hi as [Hi|Hi]; [discriminate Hi | exact Hi].
    + set (mid := (ok + bad + 1) / 2) in *. assert (ok < mid < bad) by (unfold mid; lia).
      assert (mid - ok <= 2 ^ Z.of_nat fuel /\ bad - mid <= 2 ^ Z.of_nat fuel) as [Hm1 Hm2] by (unfold mid; lia).
      destruct (in_gm mid) eqn:Em.
      * destruct (convert_in mid Em) as (tp & Ec & _). rewrite Ec. apply IH; [unfold in_gm in Em; lia | lia | lia | right; exact Ec].
      * rewrite convert_out by (exact Em || lia). cbn [negb Z.eqb EOVERFLOW Pos.eqb]. apply IH; [lia | unfold in_gm, gm_min in *; lia | lia | exact Hi].
Qed.

Lemma narrow_down fuel : forall ok bad oktm, gm_min <= ok <= 0 -> - 2 ^ 63 <= bad < gm_min -> ok - bad <= 2 ^ Z.of_nat fuel ->
  (ok = 0 \/ convert ok = inr oktm) -> exists tp, narrow convert (S fuel) ok bad oktm = Some (inr (gm_min, tp)) /\ convert gm_min = inr tp.
Proof using Hconv.
  induction fuel as [|fuel IH]; intros ok bad oktm Hok Hbad Hd Hi.
  - change (2 ^ Z.of_nat 0) with 1 in Hd. assert (ok = gm_min) as -> by lia. assert (bad = gm_min - 1) as -> by lia.
    cbn [narrow]. rewrite long_int_avg_spec. assert (((gm_min + (gm_min - 1) + 1) / 2 =? gm_min) = true) as -> by (apply Z.eqb_eq; lia).
    exists oktm. split; [reflexivity|]. destruct Hi as [Hi|Hi]; [discriminate Hi | exact Hi].
  - rewrite Nat2Z.inj_succ, Z.pow_succ_r in Hd by lia. remember (S fuel) as f1. cbn [narrow]. rewrite long_int_avg_spec. subst f1.
    destruct (Z.eqb_spec ((ok + bad + 1) / 2) ok) as [E|E]; cbn [orb].
    + assert (ok = gm_min) as -> by lia. exists oktm. split; [reflexivity|]. destruct Hi as [Hi|Hi]; [discriminate Hi | exact Hi].
    + destruct (Z.eqb_spec ((ok + bad + 1) / 2) bad) as [E'|E']; [lia|].
      set (mid := (ok + bad + 1) / 2) in *. assert (bad < mid < ok) by (unfold mid; lia).
      assert (ok - mid <= 2 ^ Z.of_nat fuel /\ mid - bad <= 2 ^ Z.of_nat fuel) as [Hm1 Hm2] by (unfold mid; lia).
      destruct (in_gm mid) eqn:Em.
      * destruct (convert_in mid Em) as (tp & Ec & _). rewrite Ec. apply IH; [unfold in_gm in Em; lia | lia | lia | right; exact Ec].
      * rewrite convert_out by (exact Em || lia). cbn [negb Z.eqb EOVERFLOW Pos.eqb]. apply IH; [lia | unfold in_gm, gm_max in *; lia | lia | exact Hi].
Qed.

Lemma ranged_convert_spec fuel t : (65 <= fuel)%nat -> - 2 ^ 63 <= t < 2 ^ 63 ->
  exists tp, ranged_convert convert fuel t = Some (inr (clamp t, tp)) /\ convert (clamp t) = inr tp /\ tm_of (clamp t) tp /\ tm_isdst tp = 0.
Proof using Hconv.
  intros Hf Ht. destruct (convert_in (clamp t) (clamp_in t)) as (tp & Ec & Hof & Hdst). exists tp. split; [|auto].
  unfold ranged_convert. assert ((if t <? mktime_min then mktime_min else if t <=? mktime_max then t else mktime_max) = t) as ->.
  { unfold mktime_min, mktime_max. destruct (Z.ltb_spec t (- 2 ^ 63)), (Z.leb_spec t (2 ^ 63 - 1)); lia. }
  destruct (in_gm t) eqn:Et; [rewrite (clamp_id t Et) in *; rewrite Ec; reflexivity|].
  rewrite convert_out by assumption. cbn [negb Z.eqb EOVERFLOW Pos.eqb]. destruct fuel as [|fuel]; [lia|].
  assert (Hp : 2 ^ 64 <= 2 ^ Z.of_nat fuel) by (apply Z.pow_le_mono_r; lia).
  assert (exists tp', narrow convert (S fuel) 0 t no_tm = Some (inr (clamp t, tp')) /\ convert (clamp t) = inr tp') as (tp' & -> & E).
  { destruct (Z.le_gt_cases t 0) as [H|H].
    - replace (clamp t) with gm_min by (unfold in_gm, clamp, gm_min, gm_max in *; lia).
      apply narrow_down; [unfold gm_min; lia | unfold in_gm, gm_min, gm_max in *; lia | lia | left; reflexivity].
    - replace (clamp t) with gm_max by (unfold in_gm, clamp, gm_min, gm_max in *; lia).
      apply narrow_up; [unfold gm_max; lia | unfold in_gm, gm_min, gm_max in *; lia | lia | left; reflexivity]. }
  rewrite Ec in E. injection E as <-. pose proof (of_sec _ _ Hof). destruct (Z.ltb_spec (tm_sec tp) 0); [lia | reflexivity].
Qed.

(** A request within the bounds that int fields give. *)
Record rq_ok (rq : request) : Prop := {
  ok_year : - 5 * 2 ^ 29 <= rq_year rq <= 5 * 2 ^ 29;
  ok_yday : - 2 ^ 32 <= rq_yday rq <= 2 ^ 32;
  ok_hour : - 2 ^ 32 <= rq_hour rq <= 2 ^ 32;
  ok_min : - 2 ^ 32 <= rq_min rq <= 2 ^ 32;
  ok_sec : 0 <= rq_sec rq <= 59 }.

(** The time it stands for. *)
Definition rq_time (rq : request) : Z := seconds (rq_year rq) (rq_yday rq) (rq_hour rq) (rq_min rq) (rq_sec rq).

Lemma rq_time_small rq : rq_ok rq -> - 2 ^ 60 <= rq_time rq <= 2 ^ 60.
Proof using Type.
  intros [H1 H2 H3 H4 H5]. unfold rq_time, seconds. pose proof (jan1_small (1900 + rq_year rq) ltac:(lia)) as HJ.
  generalize dependent (jan1 (1900 + rq_year rq)). intros. lia.
Qed.

Lemma rq_diff_spec rq t tp : rq_ok rq -> tm_of t tp -> rq_diff rq tp = Some (rq_time rq - t).
Proof using Type.
  intros [H1 H2 H3 H4 H5] Hof. unfold rq_diff, tm_diff. pose proof (tm_of_year_day _ _ Hof) as [Hd _].
  assert (year_days (1900 + tm_year tp) <= 366) by (unfold year_days; destruct (leap (1900 + tm_year tp)); lia).
  pose proof (of_year _ _ Hof). pose proof (of_hour _ _ Hof). pose proof (of_min _ _ Hof). pose proof (of_sec _ _ Hof).
  rewrite ydhms_diff_spec by lia. do 2 f_equal. exact (of_time _ _ Hof).
Qed.

(** In UTC the loop never stops between two values. *)
Lemma no_oscillation (rq : request) tp (x : bool) dst2 : rq_isdst rq = 0 -> tm_isdst tp = 0 ->
  x && ((tm_isdst tp <? 0) || (if rq_isdst rq <? 0 then dst2 <=? b2z (negb (tm_isdst tp =? 0))
        else negb (eqb (negb (rq_isdst rq =? 0)) (negb (tm_isdst tp =? 0))))) = false.
Proof using Type. intros -> ->. apply andb_false_r. Qed.

Section Probe.
Context (fuel : nat) (Hf : (65 <= fuel)%nat) (rq : request) (Hrq : rq_ok rq) (Hdst : rq_isdst rq = 0).

Lemma probe_hit n t t1 t2 dst2 : - 2 ^ 63 <= t < 2 ^ 63 -> in_gm (rq_time rq) = true ->
  exists tp, probe convert fuel rq (S (S n)) t t1 t2 dst2 = Some (inr (rq_time rq, tp, true)) /\ convert (rq_time rq) = inr tp.
Proof using Hconv Hf Hrq Hdst.
  intros Ht Hin. pose proof (rq_time_small rq Hrq) as Hs.
  assert (Hlast : forall m t1 t2 dst2, exists tp, probe convert fuel rq (S m) (rq_time rq) t1 t2 dst2 = Some (inr (rq_time rq, tp, true)) /\ convert (rq_time rq) = inr tp).
  { intros m u1 u2 d. destruct (ranged_convert_spec fuel (rq_time rq) Hf ltac:(lia)) as (tp & E & Ec & Hof & _).
    rewrite (clamp_id _ Hin) in *. exists tp. split; [|exact Ec]. cbn [probe]. rewrite E, (rq_diff_spec rq _ tp Hrq Hof), Z.sub_diag. reflexivity. }
  destruct (ranged_convert_spec fuel t Hf Ht) as (tp & E & Ec & Hof & Hd). remember (S n) as m. cbn [probe]. rewrite E, (rq_diff_spec rq _ tp Hrq Hof).
  destruct (Z.eqb_spec (rq_time rq - clamp t) 0) as [Ez|Ez].
  - exists tp. replace (clamp t) with (rq_time rq) in * by lia. auto.
  - rewrite no_oscillation by assumption. subst m. rewrite i64_ok by lia.
    replace (clamp t + (rq_time rq - clamp t)) with (rq_time rq) by lia. apply Hlast.
Qed.

Lemma probe_miss n : forall t t1 t2 dst2, - 2 ^ 63 <= t < 2 ^ 63 -> in_gm (rq_time rq) = false ->
  probe convert fuel rq (S n) t t1 t2 dst2 = Some (inl EOVERFLOW).
Proof using Hconv Hf Hrq Hdst.
  induction n as [|n IH]; intros t t1 t2 dst2 Ht Hin; pose proof (rq_time_small rq Hrq) as Hs;
    destruct (ranged_convert_spec fuel t Hf Ht) as (tp & E & Ec & Hof & Hd); pose proof (clamp_in t) as Hc.
  - cbn [probe]. rewrite E, (rq_diff_spec rq _ tp Hrq Hof). destruct (Z.eqb_spec (rq_time rq - clamp t) 0) as [Ez|Ez].
    + replace (clamp t) with (rq_time rq) in Hc by lia. congruence.
    + rewrite no_oscillation by assumption. reflexivity.
  - remember (S n) as m. cbn [probe]. rewrite E, (rq_diff_spec rq _ tp Hrq Hof). destruct (Z.eqb_spec (rq_time rq - clamp t) 0) as [Ez|Ez].
    + replace (clamp t) with (rq_time rq) in Hc by lia. congruence.
    + rewrite no_oscillation by assumption. subst m. rewrite i64_ok by lia. apply IH; [lia | exact Hin].
Qed.
End Probe.

(** The fields of an int. *)
Record int_fields (tp : tm) : Prop := {
  i_sec : - 2 ^ 31 <= tm_sec tp < 2 ^ 31; i_min : - 2 ^ 31 <= tm_min tp < 2 ^ 31; i_hour : - 2 ^ 31 <= tm_hour tp < 2 ^ 31;
  i_mday : - 2 ^ 31 <= tm_mday tp < 2 ^ 31; i_mon : - 2 ^ 31 <= tm_mon tp < 2 ^ 31; i_year : - 2 ^ 31 <= tm_year tp < 2 ^ 31 }.

(** The time that fields stand for, normal or not, with [sec] seconds. *)
Definition field_time (tp : tm) (sec : Z) : Z :=
  let y := tm_year tp + tm_mon tp / 12 in
  seconds y (months_days (leap (1900 + y)) (Z.to_nat (tm_mon tp mod 12)) + tm_mday tp - 1) (tm_hour tp) (tm_min tp) sec.

(** The seconds the search uses. *)
Definition clamp_sec (s : Z) : Z := Z.max 0 (Z.min 59 s).

Lemma make_request_spec tp : int_fields tp -> exists rq, make_request tp = Some rq /\ rq_ok rq /\ rq_isdst rq = tm_isdst tp /\
  rq_sec rq = clamp_sec (tm_sec tp) /\ rq_time rq = field_time tp (clamp_sec (tm_sec tp)).
Proof using Type.
  intros [H1 H2 H3 H4 H5 H6]. unfold make_request.
  assert (tm_year tp + (Z.quot (tm_mon tp) 12 - b2z (Z.rem (tm_mon tp) 12 <? 0)) = tm_year tp + tm_mon tp / 12) as ->.
  { pose proof (DIV_floor (tm_mon tp) 12 ltac:(lia)) as E. unfold DIV in E. lia. }
  assert (Z.rem (tm_mon tp) 12 + 12 * b2z (Z.rem (tm_mon tp) 12 <? 0) = tm_mon tp mod 12) as ->.
  { destruct (Z.ltb_spec (Z.rem (tm_mon tp) 12) 0); simpl b2z; lia. }
  assert ((if 59 <? (if tm_sec tp <? 0 then 0 else tm_sec tp) then 59 else (if tm_sec tp <? 0 then 0 else tm_sec tp)) = clamp_sec (tm_sec tp)) as ->.
  { unfold clamp_sec. destruct (Z.ltb_spec (tm_sec tp) 0); [change (59 <? 0) with false; cbv iota; lia | destruct (Z.ltb_spec 59 (tm_sec tp)); lia]. }
  set (y := tm_year tp + tm_mon tp / 12). rewrite leapyear_leap, mon_yday_months by lia.
  eexists. split; [reflexivity|]. cbn [rq_isdst rq_sec].
  pose proof (months_days_mono (leap (1900 + y)) 0 (Z.to_nat (tm_mon tp mod 12)) ltac:(lia)) as L1.
  pose proof (months_days_mono (leap (1900 + y)) (Z.to_nat (tm_mon tp mod 12)) 12 ltac:(lia)) as L2.
  rewrite months_days_year in L2. cbn [months_days] in L1.
  assert (year_days (1900 + y) <= 366) by (unfold year_days; destruct (leap (1900 + y)); lia).
  split; [split; cbn [rq_year rq_yday rq_hour rq_min rq_sec]; unfold clamp_sec, y in *; lia|]. split; [reflexivity|]. split; [reflexivity|].
  unfold rq_time, field_time. cbn [rq_year rq_yday rq_hour rq_min rq_sec]. fold y. f_equal. lia.
Qed.

Lemma field_time_sec tp s s' : field_time tp s' = field_time tp s - s + s'.
Proof using Type. unfold field_time, seconds. lia. Qed.

Lemma mktime_internal_utc fuel tp offset : (65 <= fuel)%nat -> int_fields tp -> tm_isdst tp = 0 ->
  let T' := field_time tp (clamp_sec (tm_sec tp)) in
  let T := field_time tp (tm_sec tp) in
  if in_gm T' && in_gm T then
    exists tp', mktime_internal convert fuel tp offset = Some (inr T, tp', 0) /\ convert T = inr tp'
  else exists offset', mktime_internal convert fuel tp offset = Some (inl EOVERFLOW, tp, offset').
Proof using Hconv.
  intros Hf Hi Hd T' T. destruct (make_request_spec tp Hi) as (rq & E & Hrq & Hdst & Hsec & Htime). unfold mktime_internal. rewrite E.
  assert (Hg : - 2 ^ 31 <= swrap 32 (0 - offset) < 2 ^ 31) by (unfold swrap; change (32 - 1) with 31; lia).
  set (g := swrap 32 (0 - offset)) in *. pose proof (rq_time_small rq Hrq) as Hs.
  assert (ydhms_diff (rq_year rq) (rq_yday rq) (rq_hour rq) (rq_min rq) (rq_sec rq) (EPOCH_YEAR - TM_YEAR_BASE) 0 0 0 g = Some (rq_time rq - g)) as ->.
  { destruct Hrq. rewrite ydhms_diff_spec; [| unfold EPOCH_YEAR, TM_YEAR_BASE; lia ..]. f_equal. }
  fold T' in Htime. rewrite Hd in Hdst. assert (HT : T = T' - clamp_sec (tm_sec tp) + tm_sec tp) by (unfold T, T'; apply field_time_sec).
  assert (HTs : - 2 ^ 63 <= T < 2 ^ 63) by (destruct Hi; unfold clamp_sec in HT; lia).
  destruct (in_gm T') eqn:ET'; cbn [andb].
  2: { exists offset. rewrite (probe_miss fuel Hf rq Hrq Hdst 5) by (congruence || lia). reflexivity. }
  destruct (probe_hit fuel Hf rq Hrq Hdst 4 (rq_time rq - g) (rq_time rq - g) (rq_time rq - g) 0) as (tp1 & -> & Ec); [lia | congruence|].
  rewrite Htime in *. destruct (convert_in T' ET') as (tp1' & Ec' & Hof & Hd1). rewrite Ec in Ec'. injection Ec' as <-.
  rewrite Hdst, Hd1. cbn [isdst_differ Z.eqb eqb negb andb].
  replace (swrap 64 (swrap 64 (T' - (T' - g)) - g)) with 0.
  2: { replace (T' - (T' - g)) with g by lia. assert (swrap 64 g = g) as -> by (unfold swrap; change (64 - 1) with 63; rewrite Z.mod_small; lia).
       rewrite Z.sub_diag. reflexivity. }
  assert (Hsec1 : tm_sec tp1 = T' mod 60) by (pose proof (of_time _ _ Hof); pose proof (of_sec _ _ Hof); lia).
  assert (Hsec2 : T' mod 60 = clamp_sec (tm_sec tp)) by (unfold T', field_time, seconds, clamp_sec; lia).
  unfold adjust_sec. destruct (Z.eqb_spec (tm_sec tp) (tm_sec tp1)) as [Es|Es]; cbn [negb].
  - assert (T = T') as -> by lia. rewrite ET'. exists tp1. auto.
  - assert ((tm_sec tp1 =? 60) = false) as -> by (apply Z.eqb_neq; unfold clamp_sec in *; lia).
    rewrite andb_false_r. simpl b2z. rewrite Hsec. replace (T' + (0 - clamp_sec (tm_sec tp) + tm_sec tp)) with T by lia. rewrite i64_ok by lia.
    assert ((mktime_min <=? T) && (T <=? mktime_max) = true) as -> by (unfold mktime_min, mktime_max; lia).
    destruct (in_gm T) eqn:ET.
    + destruct (convert_in T ET) as (tp2 & Ec2 & _). rewrite Ec2. exists tp2. auto.
    + rewrite convert_out by assumption. eauto.
Qed.
End Utc.

(** ** Local time *)

(** What a conversion function for local time gives: fields in their usual ranges
    (a leap second included), and a time that differs little from UTC. *)
Definition local_clock (convert : Z -> Z + tm) : Prop := forall t tp, convert t = inr tp ->
  - 2 ^ 31 <= tm_year tp < 2 ^ 31 /\ 0 <= tm_yday tp <= 365 /\ 0 <= tm_hour tp < 24 /\ 0 <= tm_min tp < 60 /\ 0 <= tm_sec tp <= 60 /\
  - 2 ^ 40 <= seconds (tm_year tp) (tm_yday tp) (tm_hour tp) (tm_min tp) (tm_sec tp) - t <= 2 ^ 40.

Section Total.
Context (convert : Z -> Z + tm).

Lemma narrow_total fuel : forall ok bad oktm, - 2 ^ Z.of_nat fuel <= bad - ok <= 2 ^ Z.of_nat fuel ->
  exists r, narrow convert (S fuel) ok bad oktm = Some r.
Proof using Type.
  induction fuel as [|fuel IH]; intros ok bad oktm Hd.
  - change (2 ^ Z.of_nat 0) with 1 in Hd. cbn [narrow]. rewrite long_int_avg_spec.
    destruct (Z.eqb_spec ((ok + bad + 1) / 2) ok), (Z.eqb_spec ((ok + bad + 1) / 2) bad); cbn [orb]; eauto. lia.
  - rewrite Nat2Z.inj_succ, Z.pow_succ_r in Hd by lia. remember (S fuel) as f1. cbn [narrow]. rewrite long_int_avg_spec. subst f1.
    destruct (_ || _) eqn:E; [eauto|]. destruct (convert _) as [e|tp].
    + destruct (negb _); [eauto|]. apply IH. lia.
    + apply IH. lia.
Qed.

Lemma ranged_convert_total fuel t : (65 <= fuel)%nat -> exists r, ranged_convert convert fuel t = Some r.
Proof using Type.
  intros Hf. unfold ranged_convert. set (t1 := if t <? mktime_min then _ else _).
  assert (H1 : - 2 ^ 63 <= t1 < 2 ^ 63).
  { unfold t1, mktime_min, mktime_max. destruct (Z.ltb_spec t (- 2 ^ 63)), (Z.leb_spec t (2 ^ 63 - 1)); lia. }
  destruct (convert t1) as [e|tp]; [|eauto]. destruct (negb _); [eauto|]. destruct fuel as [|fuel]; [lia|].
  assert (Hp : 2 ^ 64 <= 2 ^ Z.of_nat fuel) by (apply Z.pow_le_mono_r; lia).
  destruct (narrow_total fuel 0 t1 no_tm ltac:(lia)) as ([e'|[ok oktm]] & ->); [eauto|]. destruct (tm_sec oktm <? 0); eauto.
Qed.

Context (Hlocal : local_clock convert) (rq : request) (Hrq : rq_ok rq).

(** The next guess is close to the time requested. *)
Lemma next_guess t tp : convert t = inr tp -> exists dt, rq_diff rq tp = Some dt /\ - 2 ^ 61 <= t + dt <= 2 ^ 61.
Proof using Hlocal Hrq.
  intros E. destruct (Hlocal t tp E) as (H1 & H2 & H3 & H4 & H5 & H6). pose proof (rq_time_small rq Hrq) as Hs. destruct Hrq.
  unfold rq_diff, tm_diff. rewrite ydhms_diff_spec by lia. eexists. split; [reflexivity|]. fold (rq_time rq). lia.
Qed.

Lemma convert_small t tp : convert t = inr tp -> - 2 ^ 61 <= t <= 2 ^ 61.
Proof using Hlocal.
  intros E. destruct (Hlocal t tp E) as (H1 & H2 & H3 & H4 & H5 & H6). unfold seconds in H6.
  pose proof (jan1_small (1900 + tm_year tp) ltac:(lia)). generalize dependent (jan1 (1900 + tm_year tp)). intros. lia.
Qed.

Context (fuel : nat) (Hf : (65 <= fuel)%nat).

Lemma probe_total n : forall t t1 t2 dst2, exists r, probe convert fuel rq (S n) t t1 t2 dst2 = Some r.
Proof using Hlocal Hf Hrq.
  induction n as [|n IH]; intros t t1 t2 dst2; destruct (ranged_convert_total fuel t Hf) as ([e|[t' tp]] & E).
  - cbn [probe]. rewrite E. eauto.
  - destruct (ranged_convert_converts _ _ _ _ _ E) as [_ Ec]. destruct (next_guess t' tp Ec) as (dt & Ed & _).
    cbn [probe]. rewrite E, Ed. destruct (dt =? 0); [eauto|]. destruct (_ && _ && _); eauto.
  - cbn [probe]. rewrite E. eauto.
  - destruct (ranged_convert_converts _ _ _ _ _ E) as [_ Ec]. destruct (next_guess t' tp Ec) as (dt & Ed & Hdt).
    remember (S n) as m. cbn [probe]. rewrite E, Ed. destruct (dt =? 0); [eauto|]. destruct (_ && _ && _); [eauto|].
    subst m. rewrite i64_ok by lia. apply IH.
Qed.

Lemma dst_probe_total t delta dir : exists r, dst_probe convert fuel rq t delta dir = Some r.
Proof using Hlocal Hf Hrq.
  unfold dst_probe. destruct (i64 (t + delta * dir)) as [ot|]; [|eauto].
  destruct (ranged_convert_total fuel ot Hf) as ([e|[t' tp]] & E); rewrite E; [eauto|]. destruct (negb _); [|eauto].
  destruct (ranged_convert_converts _ _ _ _ _ E) as [_ Ec]. destruct (next_guess t' tp Ec) as (dt & -> & Hdt).
  rewrite i64_ok by lia. destruct (_ && _); [|eauto]. destruct (convert (t' + dt)); [destruct (negb _)|]; eauto.
Qed.

Lemma dst_search_total t n : forall delta, delta_bound - delta < Z.of_nat n * stride -> exists r, dst_search convert (S n) fuel rq t delta = Some r.
Proof using Hlocal Hf Hrq.
  induction n as [|n IH]; intros delta Hd.
  - cbn [dst_search]. destruct (Z.ltb_spec delta delta_bound); [lia | eauto].
  - remember (S n) as m. cbn [dst_search]. destruct (Z.ltb_spec delta delta_bound) as [Hb|Hb]; [|eauto]. subst m.
    destruct (dst_probe_total t delta (-1)) as ([e|[x|]] & ->); [eauto | eauto |].
    destruct (dst_probe_total t delta 1) as ([e|[x|]] & ->); [eauto | eauto |]. apply IH. lia.
Qed.
End Total.

Lemma mktime_internal_total convert fuel tp offset : local_clock convert -> (400 <= fuel)%nat -> int_fields tp ->
  exists r, mktime_internal convert fuel tp offset = Some r.
Proof.
  intros Hl Hf Hi. destruct (make_request_spec tp Hi) as (rq & E & Hrq & _). unfold mktime_internal. rewrite E.
  assert (Hg : - 2 ^ 31 <= swrap 32 (0 - offset) < 2 ^ 31) by (unfold swrap; change (32 - 1) with 31; lia).
  set (g := swrap 32 (0 - offset)) in *. pose proof (rq_time_small rq Hrq) as Hs.
  assert (ydhms_diff (rq_year rq) (rq_yday rq) (rq_hour rq) (rq_min rq) (rq_sec rq) (EPOCH_YEAR - TM_YEAR_BASE) 0 0 0 g = Some (rq_time rq - g)) as ->.
  { destruct Hrq. rewrite ydhms_diff_spec; [| unfold EPOCH_YEAR, TM_YEAR_BASE; lia ..]. f_equal. }
  set (t0 := rq_time rq - g).
  assert (Ha : forall s s' t tm, exists r, adjust_sec convert s s' t tm = Some r).
  { intros s s' t tm. unfold adjust_sec. destruct (negb _); [|eauto]. destruct (i64 _) as [t3|]; [|eauto]. destruct (_ && _); [|eauto]. destruct (convert t3); eauto. }
  assert (Ho : forall t tm, convert t = inr tm -> exists r, other_dst convert fuel fuel rq t tm = Some r).
  { intros t tm Ec. unfold other_dst. destruct fuel as [|f]; [lia|].
    destruct (dst_search_total convert Hl rq Hrq (S f) ltac:(lia) t f stride) as ([e|[x|]] & ->); [| eauto | eauto |].
    - unfold delta_bound, duration_max, stride. change (Z.quot 457243209 2) with 228621604. lia.
    - pose proof (convert_small convert Hl t tm Ec). rewrite i64_ok by (destruct (rq_isdst rq =? 0), (tm_isdst tm =? 0); simpl b2z; lia).
      destruct (_ && _); [|eauto]. match goal with |- context [match convert ?x with _ => _ end] => destruct (convert x) end; eauto. }
  destruct (probe_total convert Hl rq Hrq fuel ltac:(lia) 5 t0 t0 t0 0) as ([e|[[t tm] b]] & Ep); rewrite Ep; [eauto|].
  destruct (probe_converts _ _ _ _ _ _ _ _ _ _ _ Ep) as (_ & Ec & _).
  destruct (b && isdst_differ (rq_isdst rq) (tm_isdst tm)).
  - destruct (Ho t tm Ec) as ([e|[t' tm']] & ->); [eauto|]. destruct (Ha (rq_sec rq) (tm_sec tp) t' tm') as ([e|[t3 tm3]] & ->); eauto.
  - destruct (Ha (rq_sec rq) (tm_sec tp) t tm) as ([e|[t3 tm3]] & ->); eauto.
Qed.

(** ** The functions *)

Lemma gmtime_r_spec fuel tzfile t : (6 <= fuel)%nat -> Z.of_nat fuel < 2 ^ 60 -> no_leap tzfile -> - 2 ^ 63 <= t < 2 ^ 63 ->
  if in_gm t then exists tp, gmtime_r fuel tzfile t = inr tp /\ tm_of t tp /\ tm_isdst tp = 0 /\ tm_gmtoff tp = 0
  else gmtime_r fuel tzfile t = inl EOVERFLOW.
Proof.
  intros Hf Hf2 Hl Ht. pose proof (gmtime_spec fuel tzfile t no_tm Ht Hf Hf2 Hl) as H. unfold in_gm, gmtime_r.
  destruct ((gm_min <=? t) && (t <=? gm_max)); [|rewrite H; reflexivity]. destruct H as (tp & -> & H). eauto.
Qed.

Lemma gmtime_r_converts fuel tzfile : (6 <= fuel)%nat -> Z.of_nat fuel < 2 ^ 60 -> no_leap tzfile -> forall t, - 2 ^ 63 <= t < 2 ^ 63 ->
  if in_gm t then exists tp, gmtime_r fuel tzfile t = inr tp /\ tm_of t tp /\ tm_isdst tp = 0 else gmtime_r fuel tzfile t = inl EOVERFLOW.
Proof.
  intros Hf Hf2 Hl t Ht. pose proof (gmtime_r_spec fuel tzfile t Hf Hf2 Hl Ht) as H. destruct (in_gm t); [|exact H].
  destruct H as (tp & H1 & H2 & H3 & _). eauto.
Qed.

(** Normal fields stand for the time they were made from. *)
Lemma field_time_of t tp : tm_of t tp -> field_time tp (tm_sec tp) = t /\ clamp_sec (tm_sec tp) = tm_sec tp /\ int_fields tp.
Proof.
  intros H. pose proof (of_time _ _ H) as E. pose proof (of_yday _ _ H) as Ey. destruct H as [S1 S2 S3 S4 S5 S6 _ _ _].
  assert (tm_mon tp / 12 = 0) as Em by lia. assert (tm_mon tp mod 12 = tm_mon tp) as Em' by lia.
  split; [|split].
  - unfold field_time, seconds. rewrite Em, Em', Z.add_0_r, <- Ey. exact E.
  - unfold clamp_sec. lia.
  - pose proof (month_days_max (leap (1900 + tm_year tp)) (Z.to_nat (tm_mon tp))). split; lia.
Qed.

(** C29: timegm without leap seconds, for arbitrary int fields and any remembered
    offset: if both the time requested and the one with the seconds cut to the range
    from 0 to 59 have a year that fits, it returns exactly the time the fields stand
    for (months carried into years, days, hours, minutes and seconds counted as they
    are), the structure becomes the normal one for that time, and the offset becomes
    0; otherwise it fails with EOVERFLOW and changes no time field.  For every time
    that gmtime_r converts, timegm gives back the time and the same structure. *)
Theorem timegm_correct fuel tzfile tp offset : (65 <= fuel)%nat -> Z.of_nat fuel < 2 ^ 60 -> no_leap tzfile -> int_fields tp ->
  (let T' := field_time tp (clamp_sec (tm_sec tp)) in
   let T := field_time tp (tm_sec tp) in
   if in_gm T' && in_gm T then
     exists tp', timegm fuel tzfile tp offset = Some (inr T, tp', 0) /\ tm_of T tp' /\ tm_isdst tp' = 0 /\ tm_gmtoff tp' = 0
   else exists tp' offset', timegm fuel tzfile tp offset = Some (inl EOVERFLOW, tp', offset') /\
     tm_isdst tp' = 0 /\ tm_sec tp' = tm_sec tp /\ tm_min tp' = tm_min tp /\ tm_hour tp' = tm_hour tp /\
     tm_mday tp' = tm_mday tp /\ tm_mon tp' = tm_mon tp /\ tm_year tp' = tm_year tp) /\
  (forall t, gm_min <= t <= gm_max ->
     exists tp', gmtime_r fuel tzfile t = inr tp' /\ tm_of t tp' /\ timegm fuel tzfile tp' offset = Some (inr t, tp', 0)).
Proof.
  intros Hf Hf2 Hl Hi. pose proof (gmtime_r_converts fuel tzfile ltac:(lia) Hf2 Hl) as Hconv.
  assert (Hgm : forall T, in_gm T = true -> exists tp', gmtime_r fuel tzfile T = inr tp' /\ tm_of T tp' /\ tm_isdst tp' = 0 /\ tm_gmtoff tp' = 0).
  { intros T ET. pose proof (gmtime_r_spec fuel tzfile T ltac:(lia) Hf2 Hl) as H. rewrite ET in H. apply H. unfold in_gm, gm_min, gm_max in ET. lia. }
  split.
  - intros T' T. unfold timegm. set (tmp := {| tm_sec := tm_sec tp |}).
    assert (Hi' : int_fields tmp) by (destruct Hi; split; assumption).
    pose proof (mktime_internal_utc _ Hconv fuel tmp offset Hf Hi' eq_refl) as H. cbv zeta in H.
    change (field_time tmp (clamp_sec (tm_sec tmp))) with T' in H. change (field_time tmp (tm_sec tmp)) with T in H.
    destruct (in_gm T' && in_gm T) eqn:E.
    + destruct H as (tp' & -> & Ec). apply andb_prop in E as [_ ET]. destruct (Hgm T ET) as (tp2 & Ec2 & H2). rewrite Ec in Ec2. injection Ec2 as <-.
      exists tp'. split; [reflexivity | exact H2].
    + destruct H as (offset' & ->). exists tmp, offset'. repeat split; reflexivity.
  - intros t Ht. assert (Ein : in_gm t = true) by (unfold in_gm; lia). destruct (Hgm t Ein) as (tp' & Ec & Hof & Hd & Hg).
    exists tp'. split; [exact Ec|]. split; [exact Hof|]. destruct (field_time_of t tp' Hof) as (E1 & E2 & Hi').
    unfold timegm. assert ({| tm_sec := tm_sec tp'; tm_min := tm_min tp'; tm_hour := tm_hour tp'; tm_mday := tm_mday tp'; tm_mon := tm_mon tp';
      tm_year := tm_year tp'; tm_wday := tm_wday tp'; tm_yday := tm_yday tp'; tm_isdst := 0; tm_gmtoff := tm_gmtoff tp' |} = tp') as -> by (destruct tp'; cbn in Hd; subst; reflexivity).
    pose proof (mktime_internal_utc _ Hconv fuel tp' offset Hf Hi' Hd) as H. cbv zeta in H. rewrite E2, E1, Ein in H. cbn [andb] in H.
    destruct H as (tp2 & -> & Ec2). rewrite Ec in Ec2. injection Ec2 as <-. reflexivity.
Qed.

(** The 61st second of the year 1999. *)
Definition sample_tm : tm := {| tm_sec := 60; tm_min := 59; tm_hour := 23; tm_mday := 31; tm_mon := 11; tm_year := 99;
                                tm_wday := 0; tm_yday := 0; tm_isdst := 1; tm_gmtoff := 0 |}.

Lemma sample_int : int_fields sample_tm.
Proof. split; cbn; lia. Qed.

Lemma timegm_correct_witness :
  (exists tp', timegm 65 None sample_tm 7 = Some (inr (field_time sample_tm 60), tp', 0) /\ tm_of (field_time sample_tm 60) tp' /\
     tm_isdst tp' = 0 /\ tm_gmtoff tp' = 0) /\
  (forall t, gm_min <= t <= gm_max ->
     exists tp', gmtime_r 65 None t = inr tp' /\ tm_of t tp' /\ timegm 65 None tp' 7 = Some (inr t, tp', 0)).
Proof. exact (timegm_correct 65 None sample_tm 7 ltac:(lia) ltac:(lia) (or_introl eq_refl) sample_int). Defined.

(** C31: __mktime_internal with any conversion function whose structures have fields
    in the usual ranges and are near UTC, such as localtime_r: it always returns, its
    signed arithmetic does not overflow and its searches end; when it gives a time,
    the conversion function turns this time into exactly the structure it stored;
    when it fails, the structure is unchanged. *)
Theorem mktime_internal_correct convert fuel tp offset : local_clock convert -> (400 <= fuel)%nat -> int_fields tp ->
  exists r tp' offset', mktime_internal convert fuel tp offset = Some (r, tp', offset') /\
    match r with inr t => - 2 ^ 63 <= t < 2 ^ 63 /\ convert t = inr tp' | inl _ => tp' = tp end.
Proof.
  intros Hl Hf Hi. destruct (mktime_internal_total convert fuel tp offset Hl Hf Hi) as ([[[e|t] tp'] offset'] & E).
  - exists (inl e), tp', offset'. split; [exact E|]. revert E. unfold mktime_internal.
    destruct (make_request tp) as [rq|]; [|discriminate]. destruct (ydhms_diff _ _ _ _ _ _ _ _ _ _) as [t0|]; [|discriminate].
    destruct (probe _ _ _ _ _ _ _ _) as [[?|[[? ?] ?]]|]; [intros [= _ <- _]; reflexivity | | discriminate].
    destruct (if _ && _ then _ else _) as [[?|[? ?]]|]; [intros [= _ <- _]; reflexivity | | discriminate].
    destruct (adjust_sec _ _ _ _ _) as [[?|[? ?]]|]; [intros [= _ <- _]; reflexivity | discriminate | discriminate].
  - exists (inr t), tp', offset'. split; [exact E|]. exact (mktime_internal_converts convert fuel tp offset t tp' offset' E).
Qed.

(** UTC is such a clock. *)
Lemma gmtime_local_clock : local_clock (fun t => if (- 2 ^ 63 <=? t) && (t <? 2 ^ 63) then gmtime_r 10 None t else inl EOVERFLOW).
Proof.
  intros t tp. destruct ((- 2 ^ 63 <=? t) && (t <? 2 ^ 63)) eqn:Et; [|discriminate]. intros E.
  pose proof (gmtime_r_spec 10 None t ltac:(lia) ltac:(lia) (or_introl eq_refl) ltac:(lia)) as H.
  destruct (in_gm t); [|congruence]. destruct H as (tp' & E' & Hof & _). rewrite E in E'. injection E' as <-.
  pose proof (tm_of_year_day _ _ Hof) as [Hd _]. pose proof (of_time _ _ Hof) as Et'. destruct Hof.
  assert (year_days (1900 + tm_year tp) <= 366) by (unfold year_days; destruct (leap (1900 + tm_year tp)); lia).
  unfold seconds. rewrite Et'. lia.
Qed.

Lemma mktime_internal_correct_witness :
  exists r tp' offset', mktime_internal (fun t => if (- 2 ^ 63 <=? t) && (t <? 2 ^ 63) then gmtime_r 10 None t else inl EOVERFLOW) 400 sample_tm 3600
      = Some (r, tp', offset') /\
    match r with inr t => - 2 ^ 63 <= t < 2 ^ 63 /\
      (if (- 2 ^ 63 <=? t) && (t <? 2 ^ 63) then gmtime_r 10 None t else inl EOVERFLOW) = inr tp' | inl _ => tp' = sample_tm end.
Proof. exact (mktime_internal_correct _ 400 sample_tm 3600 gmtime_local_clock ltac:(lia) sample_int). Defined.
