(* ===== verification/Gconv.v ===== *)
(** * Character set conversion (iconv/gconv_simple.c, loop.c, skeleton.c)

    A conversion loop reads bytes between two pointers and writes bytes between
    two others.  Here the bytes that are left to read and the bytes written are
    lists, and [room] is the number of bytes that can still be written.  The
    macro BODY of a conversion is a function from the cursor to what the loop
    does next.  Machine words are little endian.  The transliteration that a flag
    can enable is a parameter. *)

From Stdlib Require Import ZArith List Lia Bool.
From S2P Require Import Prelude.
Import ListNotations.
#[local] Open Scope Z_scope.
#[local] Open Scope glibc_scope.

(** ** The state of a loop *)

(** The results of gconv.h that the loops give. *)
Inductive status := GCONV_OK | GCONV_EMPTY_INPUT | GCONV_FULL_OUTPUT | GCONV_ILLEGAL_INPUT | GCONV_INCOMPLETE_INPUT.

(** [inp]: from inptr to inend; [out]: what was written; [room]: outend - outptr;
    [irr]: *irreversible, [None] if the pointer is NULL; [seen]: the flag
    __GCONV_ENCOUNTERED_ILLEGAL_INPUT. *)
Record cursor := { inp : list Z; out : list Z; room : Z; irr : option Z; seen : bool }.

(** The other flags of the step. *)
Record gflags := { IGNORE_ERRORS : bool; TRANSLIT : bool }.

(** inptr += n *)
Definition advance (n : nat) (c : cursor) : cursor :=
  {| inp := skipn n (inp c); out := out c; room := room c; irr := irr c; seen := seen c |}.

(** Writes the bytes at outptr and moves it. *)
Definition write (l : list Z) (c : cursor) : cursor :=
  {| inp := inp c; out := out c ++ l; room := room c - Z.of_nat (length l); irr := irr c; seen := seen c |}.

(** ++*irreversible *)
Definition irreversible_incr (c : cursor) : cursor :=
  {| inp := inp c; out := out c; room := room c; irr := option_map (fun n => n + 1) (irr c); seen := seen c |}.

(** __gconv_mark_illegal_input sets the flag. *)
Definition mark_illegal (c : cursor) : cursor :=
  {| inp := inp c; out := out c; room := room c; irr := irr c; seen := true |}.

(** irreversible != NULL && (flags & __GCONV_IGNORE_ERRORS) *)
Definition ignore_errors_p (fl : gflags) (c : cursor) : bool :=
  match irr c with Some _ => IGNORE_ERRORS fl | None => false end.

(** How BODY ends: by break or at the end of the iteration, with [result]. *)
Inductive control := Break (result : status) (c : cursor) | Continue (result : status) (c : cursor).

(** get32, get16, put32, put16 *)
Definition get16 (l : list Z) : Z := nth 0 l 0 + 256 * nth 1 l 0.
Definition get32 (l : list Z) : Z := nth 0 l 0 + 256 * nth 1 l 0 + 65536 * nth 2 l 0 + 16777216 * nth 3 l 0.
Definition put16 (x : Z) : list Z := [Z.land x 255; Z.land (Z.shiftr x 8) 255].
Definition put32 (x : Z) : list Z :=
  [Z.land x 255; Z.land (Z.shiftr x 8) 255; Z.land (Z.shiftr x 16) 255; Z.land (Z.shiftr x 24) 255].
Definition bswap_16 (x : Z) : Z := Z.lor (Z.land (Z.shiftr x 8) 255) (Z.shiftl (Z.land x 255) 8).
Definition bswap_32 (x : Z) : Z :=
  Z.lor (Z.lor (Z.shiftr (Z.land x 4278190080) 24) (Z.shiftr (Z.land x 16711680) 8))
        (Z.lor (Z.shiftl (Z.land x 65280) 8) (Z.shiftl (Z.land x 255) 24)).

Section Gconv.
Context (fl : gflags) (transliterate : cursor -> status * cursor).

Definition STANDARD_FROM_LOOP_ERR_HANDLER (incr : nat) (c : cursor) : control :=
  let c := mark_illegal c in
  if negb (ignore_errors_p fl c) then Break GCONV_ILLEGAL_INPUT c
  else Continue GCONV_ILLEGAL_INPUT (irreversible_incr (advance incr c)).

Definition STANDARD_TO_LOOP_ERR_HANDLER (incr : nat) (c : cursor) : control :=
  match irr c with
  | None => Break GCONV_ILLEGAL_INPUT c
  | Some _ =>
      let '(result, c) := if TRANSLIT fl then transliterate c else (GCONV_ILLEGAL_INPUT, mark_illegal c) in
      match result with
      | GCONV_ILLEGAL_INPUT =>
          if negb (ignore_errors_p fl c) then Break result c
          else Continue result (advance incr (irreversible_incr c))
      | GCONV_FULL_OUTPUT => Break result c
      | _ => Continue result c
      end
  end.

(** Tag characters are skipped. *)
Definition UNICODE_TAG_HANDLER (ch : Z) (incr : nat) (result : status) (c : cursor) (k : control) : control :=
  if Z.shiftr ch 7 =? Z.shiftr 917504 7 then Continue result (advance incr c) else k.

(** ** The bodies *)

Definition ascii_internal_body (result : status) (c : cursor) : control :=
  let x := nth 0 (inp c) 0 in
  if 127 <? x then STANDARD_FROM_LOOP_ERR_HANDLER 1 c
  else Continue result (advance 1 (write (put32 x) c)).

Definition internal_ascii_body (result : status) (c : cursor) : control :=
  let x := get32 (inp c) in
  if 127 <? x then UNICODE_TAG_HANDLER x 4 result c (STANDARD_TO_LOOP_ERR_HANDLER 4 c)
  else Continue result (advance 4 (write [Z.land x 255] c)).

(** for (step = 2; step < 6; ++step) if (no bits above 5 * step + 1) break; *)
Fixpoint utf8_step (n : nat) (step : Z) (wc : Z) : Z :=
  match n with
  | O => step
  | S n => if step <? 6 then if Z.land wc (wrap 32 (Z.shiftl (2 ^ 32 - 1) (5 * step + 1))) =? 0 then step else utf8_step n (step + 1) wc
           else step
  end.

(** do start[--step] = 0x80 | (wc & 0x3f), wc >>= 6; while (step > 1); start[0] |= wc; *)
Fixpoint utf8_fill (n : nat) (wc first : Z) (acc : list Z) : list Z :=
  match n with
  | O => Z.lor first wc :: acc
  | S n => utf8_fill n (Z.shiftr wc 6) first (Z.lor 128 (Z.land wc 63) :: acc)
  end.

(** (unsigned char) (~0xff >> step) *)
Definition utf8_first (step : Z) : Z := Z.land (Z.shiftr (-256) step) 255.

Definition utf8_sequence (wc step : Z) : list Z := utf8_fill (Z.to_nat (step - 1)) wc (utf8_first step) [].

Definition internal_utf8_body (result : status) (c : cursor) : control :=
  let wc := get32 (inp c) in
  if wc <? 128 then Continue result (advance 4 (write [wc] c))
  else if (wc <=? 2147483647) && ((wc <? 55296) || (57343 <? wc)) then
    let step := utf8_step 4 2 wc in
    if room c <? step then Break GCONV_FULL_OUTPUT c
    else Continue result (advance 4 (write (utf8_sequence wc step) c))
  else STANDARD_TO_LOOP_ERR_HANDLER 4 c.

(** The length of a sequence and the bits of its first byte. *)
Definition utf8_lead (ch : Z) : option (Z * Z) :=
  if (194 <=? ch) && (ch <? 224) then Some (2, Z.land ch 31)
  else if Z.land ch 240 =? 224 then Some (3, Z.land ch 15)
  else if Z.land ch 248 =? 240 then Some (4, Z.land ch 7)
  else if Z.land ch 252 =? 248 then Some (5, Z.land ch 3)
  else if Z.land ch 254 =? 252 then Some (6, Z.land ch 1)
  else None.

(** (x & 0xc0) == 0x80 *)
Definition is_cont (x : Z) : bool := Z.land x 192 =? 128.

(** do ++i; while (inptr + i < inend && is_cont && i < 5), on the bytes behind. *)
Fixpoint ill_formed_end (n : nat) (l : list Z) (i : nat) : nat :=
  match n with
  | O => i
  | S n => match l with x :: l => if is_cont x && (Nat.ltb i 5) then ill_formed_end n l (S i) else i | [] => i end
  end.

(** for (i = 1; inptr + i < inend; ++i) if (!is_cont) break; *)
Fixpoint cont_prefix (l : list Z) (i : nat) : nat :=
  match l with x :: l => if is_cont x then cont_prefix l (S i) else i | [] => i end.

(** for (i = 1; i < cnt; ++i): i and ch. *)
Fixpoint utf8_trail (n : nat) (l : list Z) (i : nat) (ch : Z) : nat * Z :=
  match n with
  | O => (i, ch)
  | S n =>
      let byte := nth 0 l 0 in
      if negb (is_cont byte) then (i, ch)
      else utf8_trail n (tl l) (S i) (Z.lor (wrap 32 (Z.shiftl ch 6)) (Z.land byte 63))
  end.

Definition utf8_internal_body (result : status) (c : cursor) : control :=
  let ch := nth 0 (inp c) 0 in
  if ch <? 128 then Continue result (write (put32 ch) (advance 1 c))
  else
    match utf8_lead ch with
    | None => STANDARD_FROM_LOOP_ERR_HANDLER (ill_formed_end 5 (tl (inp c)) 1) c
    | Some (cnt, ch) =>
        if Z.of_nat (length (inp c)) <? cnt then
          let i := cont_prefix (tl (inp c)) 1 in
          if Nat.eqb i (length (inp c)) then Break GCONV_INCOMPLETE_INPUT c
          else STANDARD_FROM_LOOP_ERR_HANDLER i c
        else
          let '(i, ch) := utf8_trail (Z.to_nat (cnt - 1)) (tl (inp c)) 1 ch in
          if (Z.of_nat i <? cnt) || ((2 <? cnt) && (Z.shiftr ch (5 * cnt - 4) =? 0)) || ((55296 <=? ch) && (ch <=? 57343))
          then STANDARD_FROM_LOOP_ERR_HANDLER i c
          else Continue result (write (put32 ch) (advance (Z.to_nat cnt) c))
    end.

Definition ucs2_internal_body (result : status) (c : cursor) : control :=
  let u1 := get16 (inp c) in
  if (55296 <=? u1) && (u1 <? 57344) then STANDARD_FROM_LOOP_ERR_HANDLER 2 c
  else Continue result (advance 2 (write (put32 u1) c)).

Definition internal_ucs2_body (result : status) (c : cursor) : control :=
  let val := get32 (inp c) in
  if 65536 <=? val then UNICODE_TAG_HANDLER val 4 result c (STANDARD_TO_LOOP_ERR_HANDLER 4 c)
  else if (55296 <=? val) && (val <? 57344) then
    let c := mark_illegal c in
    if negb (ignore_errors_p fl c) then Break GCONV_ILLEGAL_INPUT c
    else Continue GCONV_ILLEGAL_INPUT (irreversible_incr (advance 4 c))
  else Continue result (advance 4 (write (put16 val) c)).

(** Errors that are ignored leave [result] alone here. *)
Definition ucs2reverse_internal_body (result : status) (c : cursor) : control :=
  let u1 := bswap_16 (get16 (inp c)) in
  if (55296 <=? u1) && (u1 <? 57344) then
    if negb (ignore_errors_p fl c) then Break GCONV_ILLEGAL_INPUT (mark_illegal c)
    else Continue result (irreversible_incr (advance 2 c))
  else Continue result (advance 2 (write (put32 u1) c)).

Definition internal_ucs2reverse_body (result : status) (c : cursor) : control :=
  let val := get32 (inp c) in
  if 65536 <=? val then UNICODE_TAG_HANDLER val 4 result c (STANDARD_TO_LOOP_ERR_HANDLER 4 c)
  else if (55296 <=? val) && (val <? 57344) then
    if negb (ignore_errors_p fl c) then Break GCONV_ILLEGAL_INPUT (mark_illegal c)
    else Continue result (irreversible_incr (advance 4 c))
  else Continue result (advance 4 (write (put16 (bswap_16 val)) c)).

(** ** The loop of loop.c *)

Fixpoint loop (min_in min_out : Z) (body : status -> cursor -> control) (fuel : nat) (result : status) (c : cursor)
    : option (status * cursor) :=
  match fuel with
  | O => None
  | S fuel =>
      match inp c with
      | [] => Some (result, c)
      | _ =>
          if (1 <? min_in) && (Z.of_nat (length (inp c)) <? min_in) then Some (GCONV_INCOMPLETE_INPUT, c)
          else if room c <? min_out then Some (GCONV_FULL_OUTPUT, c)
          else
            match body result c with
            | Break result c => Some (result, c)
            | Continue result c => loop min_in min_out body fuel result c
            end
      end
  end.

Definition ascii_internal_loop fuel c := loop 1 4 ascii_internal_body fuel GCONV_EMPTY_INPUT c.
Definition internal_ascii_loop fuel c := loop 4 1 internal_ascii_body fuel GCONV_EMPTY_INPUT c.
Definition internal_utf8_loop fuel c := loop 4 1 internal_utf8_body fuel GCONV_EMPTY_INPUT c.
Definition utf8_internal_loop fuel c := loop 1 4 utf8_internal_body fuel GCONV_EMPTY_INPUT c.
Definition ucs2_internal_loop fuel c := loop 2 4 ucs2_internal_body fuel GCONV_EMPTY_INPUT c.
Definition internal_ucs2_loop fuel c := loop 4 2 internal_ucs2_body fuel GCONV_EMPTY_INPUT c.
Definition ucs2reverse_internal_loop fuel c := loop 2 4 ucs2reverse_internal_body fuel GCONV_EMPTY_INPUT c.
Definition internal_ucs2reverse_loop fuel c := loop 4 2 internal_ucs2reverse_body fuel GCONV_EMPTY_INPUT c.

(** The loops for UCS-4; [swap] says whether bytes are swapped (UCS-4) or not (UCS-4LE). *)
Fixpoint ucs4_copy (n : nat) (swap : bool) (c : cursor) : cursor :=
  match n with
  | O => c
  | S n =>
      let val := get32 (inp c) in
      ucs4_copy n swap (advance 4 (write (put32 (if swap then bswap_32 val else val)) c))
  end.

Definition internal_ucs4_loop (swap : bool) (c : cursor) : status * cursor :=
  let n_convert := Z.quot (Z.min (Z.of_nat (length (inp c))) (room c)) 4 in
  let c := ucs4_copy (Z.to_nat n_convert) swap c in
  (match inp c with
   | [] => GCONV_EMPTY_INPUT
   | _ => if room c <? 4 then GCONV_FULL_OUTPUT else GCONV_INCOMPLETE_INPUT
   end, c).

(** The loop proper: the error, or where it stopped. *)
Fixpoint ucs4_read (fuel : nat) (swap : bool) (c : cursor) : option (option status * cursor) :=
  match fuel with
  | O => None
  | S fuel =>
      if (4 <=? Z.of_nat (length (inp c))) && (4 <=? room c) then
        let inval := get32 (inp c) in
        let inval := if swap then bswap_32 inval else inval in
        if 2147483647 <? inval then
          match irr c with
          | None => Some (Some GCONV_ILLEGAL_INPUT, mark_illegal c)
          | Some _ =>
              if IGNORE_ERRORS fl then ucs4_read fuel swap (advance 4 (irreversible_incr c))
              else Some (Some GCONV_ILLEGAL_INPUT, mark_illegal c)
          end
        else ucs4_read fuel swap (advance 4 (write (put32 inval) c))
      else Some (None, c)
  end.

(** [c0] is returned where the pointers are not updated. *)
Definition ucs4_internal_loop (fuel : nat) (swap : bool) (c0 : cursor) : option (status * cursor) :=
  let? (e, c) := ucs4_read fuel swap c0 in
  match e with
  | Some result =>
      Some (result, match irr c with
                    | None => {| inp := inp c0; out := out c0; room := room c0; irr := irr c; seen := seen c |}
                    | Some _ => c
                    end)
  | None =>
      Some (match inp c with
            | [] => GCONV_EMPTY_INPUT
            | _ =>
                if swap then if room c <? 4 then GCONV_FULL_OUTPUT else GCONV_INCOMPLETE_INPUT
                else if Z.of_nat (length (inp c)) <? 4 then GCONV_INCOMPLETE_INPUT else GCONV_FULL_OUTPUT
            end, c)
  end.
End Gconv.

(** ** Bytes kept between calls *)

(** mbstate_t; the value is a wint_t or its four bytes. *)
Record mbstate := { count : Z; wchb : list Z }.

Definition wch (st : mbstate) : Z := get32 (wchb st).

(** CLEAR_STATE, and state->__count &= ~7 *)
Definition clear_state (st : mbstate) : mbstate := {| count := 0; wchb := wchb st |}.
Definition clear_count (st : mbstate) : mbstate := {| count := Z.land (count st) (Z.lnot 7); wchb := wchb st |}.

(** *** UTF-8 *)

Definition inmask : list Z := [192; 224; 240; 248; 252].

(** do if (--ntotal < inlen) bytebuf[ntotal] = 0x80 | (wch & 0x3f), wch >>= 6; while (ntotal > 1); *)
Fixpoint unpack_loop (n inlen : nat) (wch first : Z) (acc : list Z) : list Z :=
  match n with
  | O => Z.lor first wch :: acc
  | S n' => unpack_loop n' inlen (Z.shiftr wch 6) first (if Nat.ltb n inlen then Z.lor 128 (Z.land wch 63) :: acc else acc)
  end.

(** UNPACK_BYTES: the first inlen bytes of bytebuf. *)
Definition UNPACK_BYTES (st : mbstate) : option (list Z) :=
  let ntotal := Z.shiftr (count st) 8 in
  let inlen := Z.land (count st) 255 in
  let? first := nth_error inmask (Z.to_nat (ntotal - 2)) in
  Some (unpack_loop (Z.to_nat (ntotal - 1)) (Z.to_nat inlen) (wch st) first []).

(** while (++( *inptrp) < inend) ch <<= 6, ch |= **inptrp & 0x3f, --r; *)
Fixpoint store_loop (l : list Z) (ch r : Z) : Z * Z :=
  match l with
  | [] => (ch, r)
  | x :: l => store_loop l (Z.lor (wrap 32 (Z.shiftl ch 6)) (Z.land x 63)) (r - 1)
  end.

(** STORE_REST of the bytes [l]. *)
Definition STORE_REST (l : list Z) : option mbstate :=
  let ch := nth 0 l 0 in
  if (ch =? 192) || (ch =? 193) then None    (* the assertion *)
  else
    let '(cnt, ch) := match utf8_lead ch with Some x => x | None => (6, Z.land ch 1) end in
    let '(ch, r) := store_loop (tl l) ch (cnt - 1) in
    let ch := wrap 32 (Z.shiftl ch (r * 6)) in
    Some {| count := Z.lor (Z.of_nat (length l)) (Z.shiftl cnt 8); wchb := put32 ch |}.

Section Single.
Context (fl : gflags) (transliterate : cursor -> status * cursor).

(** What a body leaves in the local variables. *)
Definition body_end (x : control) : status * cursor := match x with Break r c | Continue r c => (r, c) end.

Definition with_inp (l : list Z) (c : cursor) : cursor :=
  {| inp := l; out := out c; room := room c; irr := irr c; seen := seen c |}.

(** utf8_internal_loop_single *)
Definition utf8_internal_single (st : mbstate) (c : cursor) : option (status * mbstate * cursor) :=
  let? bytes := UNPACK_BYTES st in
  if room c <? 4 then Some (GCONV_FULL_OUTPUT, st, c)
  else if Nat.leb 6 (length bytes) || Nat.eqb (length (inp c)) 0 then None    (* unreachable *)
  else
    let kept := Z.land (count st) 7 in
    let bytebuf := bytes ++ firstn (6 - length bytes) (inp c) in
    let '(r, c1) := body_end (utf8_internal_body fl GCONV_OK (with_inp bytebuf c)) in
    let used := Z.of_nat (length bytebuf) - Z.of_nat (length (inp c1)) in
    if negb (used =? 0) then
      if negb (kept <? used) then None    (* the assertion *)
      else Some (GCONV_OK, clear_state st, with_inp (skipn (Z.to_nat (used - kept)) (inp c)) c1)
    else
      match r with
      | GCONV_INCOMPLETE_INPUT =>
          if Nat.eqb (length bytebuf) 6 then None    (* the assertion *)
          else
            let? st := STORE_REST bytebuf in
            Some (r, st, with_inp (skipn (Z.to_nat (Z.of_nat (length bytebuf) - kept)) (inp c)) c1)
      | _ => Some (r, st, with_inp (inp c) c1)
      end.

(** __gconv_transform_utf8_internal as the last step (__GCONV_IS_LAST), not called to
    reset the state. *)
Definition transform_utf8_internal (fuel : nat) (consume_incomplete : bool) (st : mbstate) (c : cursor)
    : option (status * mbstate * cursor) :=
  let? (status, st, c) :=
    (if consume_incomplete && negb (Z.land (count st) 7 =? 0) then utf8_internal_single st c else Some (GCONV_OK, st, c)) in
  match status with
  | GCONV_OK =>
      let? (status, c) := utf8_internal_loop fl fuel c in
      match status with
      | GCONV_INCOMPLETE_INPUT =>
          if consume_incomplete then
            let? st := STORE_REST (inp c) in
            Some (status, st, with_inp [] c)
          else Some (status, st, c)
      | _ => Some (status, st, c)
      end
  | _ => Some (status, st, c)
  end.

(** *** Sequences of a fixed length *)

(** loopfct_single without STORE_REST: MIN_NEEDED_INPUT and MAX_NEEDED_INPUT are [n]. *)
Definition fixed_single (n : nat) (min_out : Z) (body : status -> cursor -> control) (st : mbstate) (c : cursor)
    : option (status * mbstate * cursor) :=
  let kept := Z.to_nat (Z.land (count st) 7) in
  if Nat.ltb 4 kept then None    (* the assertion *)
  else
    let bytes := firstn kept (wchb st) in
    if Nat.ltb (length (inp c)) (n - kept) then
      if Nat.ltb 4 (kept + length (inp c)) then None    (* the assertion *)
      else Some (GCONV_INCOMPLETE_INPUT,
                 {| count := count st; wchb := bytes ++ inp c ++ skipn (kept + length (inp c)) (wchb st) |}, with_inp [] c)
    else if room c <? min_out then Some (GCONV_FULL_OUTPUT, st, c)
    else if Nat.leb n kept || Nat.eqb (length (inp c)) 0 then None    (* unreachable *)
    else
      let bytebuf := bytes ++ firstn (n - kept) (inp c) in
      let '(r, c1) := body_end (body GCONV_OK (with_inp bytebuf c)) in
      let used := (length bytebuf - length (inp c1))%nat in
      if negb (Nat.eqb used 0) then
        if negb (Nat.ltb kept used) then None    (* the assertion *)
        else Some (GCONV_OK, clear_count st, with_inp (skipn (used - kept) (inp c)) c1)
      else
        match r with
        | GCONV_INCOMPLETE_INPUT =>
            if negb (Z.of_nat (length bytebuf) >? Z.land (count st) (Z.lnot 7)) || Nat.ltb 4 (length bytebuf) then None
            else Some (r, {| count := Z.lor (Z.land (count st) (Z.lnot 7)) (Z.of_nat (length bytebuf));
                             wchb := bytebuf ++ skipn (length bytebuf) (wchb st) |},
                       with_inp (skipn (length bytebuf - kept) (inp c)) c1)
        | _ => Some (r, st, with_inp (inp c) c1)
        end.

(** while ( *inptrp < inend && cnt < 4) wchb[cnt++] = *( *inptrp)++; *)
Definition fill_wchb (st : mbstate) (c : cursor) : Z * list Z * cursor :=
  let kept := Z.land (count st) 7 in
  let n := Nat.min (Z.to_nat (4 - kept)) (length (inp c)) in
  let bytes := firstn (Z.to_nat kept) (wchb st) ++ firstn n (inp c) in
  (kept + Z.of_nat n, bytes ++ skipn (length bytes) (wchb st), advance n c).

(** internal_ucs4_loop_single and internal_ucs4le_loop_single; there is no test of
    the room for the output, so that a missing one is undefined. *)
Definition internal_ucs4_single (swap : bool) (st : mbstate) (c : cursor) : option (status * mbstate * cursor) :=
  let '(cnt, b, c) := fill_wchb st c in
  if cnt <? 4 then
    Some (GCONV_INCOMPLETE_INPUT, {| count := Z.lor (Z.land (count st) (Z.lnot 7)) cnt; wchb := b |}, c)
  else if room c <? 4 then None
  else Some (GCONV_OK, clear_count {| count := count st; wchb := b |}, write (if swap then rev b else b) c).

(** ucs4_internal_loop_single and ucs4le_internal_loop_single.  The byte that has the
    top bits is number 0 or 3; only the former moves the input back on an error. *)
Definition ucs4_internal_single (swap : bool) (st : mbstate) (c0 : cursor) : option (status * mbstate * cursor) :=
  let '(cnt, b, c) := fill_wchb st c0 in
  if cnt <? 4 then
    Some (GCONV_INCOMPLETE_INPUT, {| count := Z.lor (Z.land (count st) (Z.lnot 7)) cnt; wchb := b |}, c)
  else
    let st' := {| count := count st; wchb := b |} in
    if 128 <? nth (if swap then 0 else 3) b 0 then
      if negb (IGNORE_ERRORS fl) then
        Some (GCONV_ILLEGAL_INPUT, st', mark_illegal (if swap then with_inp (inp c0) c else c))
      else Some (GCONV_OK, clear_count st', c)
    else if room c <? 4 then None
    else Some (GCONV_OK, clear_count st', write (if swap then rev b else b) c).
End Single.

(** * Proofs *)

(** ** Bytes *)

(** The bytes that begin a sequence of [n] bytes, without their bits. *)
Definition mark (n : Z) : Z := 256 - 2 ^ (8 - n).

Definition lead_ref (ch : Z) : option (Z * Z) :=
  if (194 <=? ch) && (ch <? 224) then Some (2, ch - 192)
  else if (224 <=? ch) && (ch <? 240) then Some (3, ch - 224)
  else if (240 <=? ch) && (ch <? 248) then Some (4, ch - 240)
  else if (248 <=? ch) && (ch <? 252) then Some (5, ch - 248)
  else if (252 <=? ch) && (ch <? 254) then Some (6, ch - 252)
  else None.

Definition lead_eqb (a b : option (Z * Z)) : bool :=
  match a, b with Some (x, y), Some (x', y') => (x =? x') && (y =? y') | None, None => true | _, _ => false end.

Lemma utf8_lead_ref ch : byte ch -> utf8_lead ch = lead_ref ch.
Proof.
  intros H. pose proof (byte_check (fun x => lead_eqb (utf8_lead x) (lead_ref x)) ltac:(vm_compute; reflexivity) ch H) as E. cbn beta in E.
  destruct (utf8_lead ch) as [[a b]|], (lead_ref ch) as [[a' b']|]; cbn in E; try discriminate; [|reflexivity].
  apply andb_prop in E as [E1%Z.eqb_eq E2%Z.eqb_eq]. subst. reflexivity.
Qed.

Lemma is_cont_ref x : byte x -> is_cont x = (128 <=? x) && (x <? 192).
Proof.
  intros H. apply eqb_prop. exact (byte_check (fun x => eqb (is_cont x) ((128 <=? x) && (x <? 192))) ltac:(vm_compute; reflexivity) x H).
Qed.

Lemma cont_bits x : 128 <= x < 192 -> Z.land x 63 = x - 128.
Proof.
  intros H. apply Z.eqb_eq. pose proof (byte_check (fun x => negb ((128 <=? x) && (x <? 192)) || (Z.land x 63 =? x - 128)) ltac:(vm_compute; reflexivity) x ltac:(unfold byte; lia)) as E.
  cbn beta in E. destruct (Z.leb_spec 128 x), (Z.ltb_spec x 192); lia.
Qed.

Lemma lor_128 x : 0 <= x < 64 -> Z.lor 128 x = 128 + x.
Proof. intros H. exact (lor_add_low 2 x 6 ltac:(lia) ltac:(lia)). Qed.

Lemma land_63 x : Z.land x 63 = x mod 64.
Proof. exact (land_low_mask x 6 ltac:(lia)). Qed.

Lemma land_255 x : Z.land x 255 = x mod 256.
Proof. exact (land_low_mask x 8 ltac:(lia)). Qed.

(** ** The reference encoding *)

(** [k] continuation bytes. *)
Fixpoint trail (k : nat) (ch : Z) : list Z :=
  match k with O => [] | S k => 128 + (ch / 64 ^ Z.of_nat k) mod 64 :: trail k ch end.

Definition ulen (ch : Z) : Z :=
  if ch <? 2 ^ 7 then 1 else if ch <? 2 ^ 11 then 2 else if ch <? 2 ^ 16 then 3
  else if ch <? 2 ^ 21 then 4 else if ch <? 2 ^ 26 then 5 else 6.

Definition utf8_encode (ch : Z) : list Z :=
  if ch <? 128 then [ch]
  else mark (ulen ch) + ch / 64 ^ (ulen ch - 1) :: trail (Z.to_nat (ulen ch - 1)) ch.

(** The characters: 31 bits, no surrogates. *)
Definition character (ch : Z) : Prop := 0 <= ch <= 2147483647 /\ ~ (55296 <= ch <= 57343).

Lemma trail_snoc k : forall ch, 0 <= ch -> trail (S k) ch = trail k (ch / 64) ++ [128 + ch mod 64].
Proof.
  induction k as [|k IH]; intros ch Hc.
  - cbn [trail app]. change (64 ^ Z.of_nat 0) with 1. rewrite Z.div_1_r. reflexivity.
  - remember (S k) as k1. cbn [trail]. rewrite IH by exact Hc. subst k1. cbn [trail app].
    rewrite Nat2Z.inj_succ, Z.pow_succ_r by lia. rewrite Z.div_div by (try apply Z.pow_pos_nonneg; lia). reflexivity.
Qed.

Lemma length_trail k ch : length (trail k ch) = k.
Proof. induction k as [|k IH]; [reflexivity|]. cbn [trail length]. rewrite IH. reflexivity. Qed.

Lemma utf8_fill_trail n : forall wc first acc, 0 <= wc -> utf8_fill n wc first acc = Z.lor first (wc / 64 ^ Z.of_nat n) :: trail n wc ++ acc.
Proof.
  induction n as [|n IH]; intros wc first acc Hw.
  - cbn [utf8_fill trail app]. change (64 ^ Z.of_nat 0) with 1. rewrite Z.div_1_r. reflexivity.
  - remember (S n) as n1. rewrite Heqn1. cbn [utf8_fill]. rewrite IH by (apply Z.shiftr_nonneg; exact Hw).
    rewrite Z.shiftr_div_pow2 by lia. change (2 ^ 6) with 64. rewrite trail_snoc by exact Hw. rewrite <- app_assoc. cbn [app].
    rewrite land_63, lor_128 by (apply Z.mod_pos_bound; lia).
    rewrite Nat2Z.inj_succ, Z.pow_succ_r by lia. rewrite Z.div_div by (try apply Z.pow_pos_nonneg; lia). reflexivity.
Qed.

(** The test for bits at [k] or above. *)
Lemma high_bits wc k : 0 <= wc < 2 ^ 32 -> 0 <= k <= 32 -> (Z.land wc (wrap 32 (Z.shiftl (2 ^ 32 - 1) k)) =? 0) = (wc <? 2 ^ k).
Proof.
  intros Hw Hk. assert (Z.land wc (wrap 32 (Z.shiftl (2 ^ 32 - 1) k)) = Z.shiftl (Z.shiftr wc k) k) as ->.
  { apply Z.bits_inj'. intros i Hi. unfold wrap. rewrite Z.land_spec, Z.shiftl_spec by lia. change (2 ^ 32 - 1) with (Z.ones 32).
    destruct (Z.ltb_spec i 32) as [H|H].
    - rewrite Z.mod_pow2_bits_low by lia. rewrite Z.shiftl_spec by lia. destruct (Z.ltb_spec i k) as [H'|H'].
      + rewrite !(Z.testbit_neg_r _ (i - k)) by lia. apply andb_false_r.
      + rewrite Z.ones_spec_low by lia. rewrite Z.shiftr_spec by lia. rewrite andb_true_r. f_equal. lia.
    - rewrite Z.mod_pow2_bits_high by lia. rewrite andb_false_r. destruct (Z.ltb_spec i k) as [H'|H'].
      + rewrite (Z.testbit_neg_r _ (i - k)) by lia. reflexivity.
      + rewrite Z.shiftr_spec by lia. replace (i - k + k) with i by lia. symmetry.
        rewrite <- (Z.mod_small wc (2 ^ 32)) by lia. apply Z.mod_pow2_bits_high. lia. }
  rewrite Z.shiftl_mul_pow2, Z.shiftr_div_pow2 by lia. pose proof (Z.pow_pos_nonneg 2 k ltac:(lia) ltac:(lia)) as Hp.
  destruct (Z.ltb_spec wc (2 ^ k)) as [H|H].
  - rewrite Z.div_small by lia. reflexivity.
  - apply Z.eqb_neq. assert (1 <= wc / 2 ^ k) by (apply Z.div_le_lower_bound; lia). nia.
Qed.

(** The five lengths of sequences, with their bounds. *)
Lemma ulen_cases ch : 128 <= ch < 2 ^ 31 ->
  (ulen ch = 2 /\ 2 ^ 7 <= ch < 2 ^ 11) \/ (ulen ch = 3 /\ 2 ^ 11 <= ch < 2 ^ 16) \/ (ulen ch = 4 /\ 2 ^ 16 <= ch < 2 ^ 21) \/
  (ulen ch = 5 /\ 2 ^ 21 <= ch < 2 ^ 26) \/ (ulen ch = 6 /\ 2 ^ 26 <= ch < 2 ^ 31).
Proof.
  intros H. unfold ulen. destruct (Z.ltb_spec ch (2 ^ 7)), (Z.ltb_spec ch (2 ^ 11)), (Z.ltb_spec ch (2 ^ 16)), (Z.ltb_spec ch (2 ^ 21)), (Z.ltb_spec ch (2 ^ 26)); lia.
Qed.

Ltac ulen_case H := destruct (ulen_cases _ H) as [[-> ?]|[[-> ?]|[[-> ?]|[[-> ?]|[-> ?]]]]].

Lemma utf8_step_ulen wc : 128 <= wc < 2 ^ 31 -> utf8_step 4 2 wc = ulen wc.
Proof.
  intros H. unfold utf8_step, ulen. rewrite !high_bits by lia. cbn [Z.ltb Z.compare Pos.compare Pos.compare_cont Z.add Z.mul Pos.mul Pos.add Pos.succ].
  destruct (Z.ltb_spec wc (2 ^ 7)); [lia|].
  destruct (Z.ltb_spec wc (2 ^ 11)), (Z.ltb_spec wc (2 ^ 16)), (Z.ltb_spec wc (2 ^ 21)), (Z.ltb_spec wc (2 ^ 26)); reflexivity || lia.
Qed.

(** The first byte of a sequence. *)
Lemma lead_bits n x : 2 <= n <= 6 -> 0 <= x < 2 ^ (7 - n) -> Z.lor (utf8_first n) x = mark n + x.
Proof.
  intros Hn Hx. assert (n = 2 \/ n = 3 \/ n = 4 \/ n = 5 \/ n = 6) as [-> | [-> | [-> | [-> | ->]]]] by lia.
  - exact (lor_add_low 6 x 5 ltac:(lia) Hx).
  - exact (lor_add_low 14 x 4 ltac:(lia) Hx).
  - exact (lor_add_low 30 x 3 ltac:(lia) Hx).
  - exact (lor_add_low 62 x 2 ltac:(lia) Hx).
  - exact (lor_add_low 126 x 1 ltac:(lia) Hx).
Qed.

(** The bits that the first byte holds. *)
Lemma lead_value ch : 128 <= ch < 2 ^ 31 -> 2 <= ulen ch <= 6 /\ 0 <= ch / 64 ^ (ulen ch - 1) < 2 ^ (7 - ulen ch).
Proof.
  intros H. ulen_case H; (split; [lia|]); cbn [Z.sub Z.add Z.opp Z.pos_sub Pos.pred_double];
    (split; [apply Z.div_pos; [lia | reflexivity] | apply Z.div_lt_upper_bound; [reflexivity | cbn; lia]]).
Qed.

Lemma utf8_sequence_encode wc : 128 <= wc < 2 ^ 31 -> utf8_sequence wc (utf8_step 4 2 wc) = utf8_encode wc.
Proof.
  intros H. rewrite utf8_step_ulen by exact H. unfold utf8_sequence, utf8_encode. destruct (Z.ltb_spec wc 128); [lia|].
  destruct (lead_value wc H) as [Hn Hv]. rewrite utf8_fill_trail by lia. rewrite Z2Nat.id by lia. rewrite lead_bits by assumption.
  rewrite app_nil_r. reflexivity.
Qed.

Lemma length_encode ch : character ch -> Z.of_nat (length (utf8_encode ch)) = ulen ch /\ 1 <= ulen ch <= 6.
Proof.
  intros [H _]. unfold utf8_encode. destruct (Z.ltb_spec ch 128) as [Hs|Hs].
  - unfold ulen. destruct (Z.ltb_spec ch (2 ^ 7)); [cbn; lia | lia].
  - cbn [length]. rewrite length_trail. ulen_case (conj Hs (ltac:(lia) : ch < 2 ^ 31)); cbn; lia.
Qed.

(** ** Words *)

Lemma get32_put32 x rest : 0 <= x < 2 ^ 32 -> get32 (put32 x ++ rest) = x.
Proof.
  intros H. unfold get32, put32. cbn [app nth]. rewrite !land_255, !Z.shiftr_div_pow2 by lia.
  change (2 ^ 8) with 256. change (2 ^ 16) with 65536. change (2 ^ 24) with 16777216.
  pose proof (Z.div_mod x 256 ltac:(lia)). pose proof (Z.div_mod x 65536 ltac:(lia)). pose proof (Z.div_mod x 16777216 ltac:(lia)).
  rewrite (Z.mod_small (x / 16777216) 256) by (split; [apply Z.div_pos | apply Z.div_lt_upper_bound]; lia).
  assert (x / 65536 = x / 256 / 256) as E1 by (rewrite Z.div_div by lia; reflexivity).
  assert (x / 16777216 = x / 256 / 256 / 256) as E2 by (rewrite !Z.div_div by lia; reflexivity).
  rewrite E1, E2. pose proof (Z.div_mod (x / 256) 256 ltac:(lia)). pose proof (Z.div_mod (x / 256 / 256) 256 ltac:(lia)). lia.
Qed.

(** ** Encoding *)

Section Encode.
Context (fl : gflags) (transliterate : cursor -> status * cursor).

Lemma internal_utf8_step r c ch rest : character ch -> inp c = put32 ch ++ rest -> 1 <= room c ->
  internal_utf8_body fl transliterate r c =
    if room c <? Z.of_nat (length (utf8_encode ch)) then Break GCONV_FULL_OUTPUT c
    else Continue r (write (utf8_encode ch) (with_inp rest c)).
Proof using Type.
  intros Hc Hi Hr. pose proof (length_encode ch Hc) as [Hl _]. destruct Hc as [Hc Hs]. unfold internal_utf8_body. rewrite Hi, get32_put32 by lia.
  assert (Hadv : forall l, advance 4 (write l c) = write l (with_inp rest c)) by (intros l; unfold advance, write, with_inp; cbn; rewrite Hi; reflexivity).
  unfold utf8_encode in *. destruct (Z.ltb_spec ch 128) as [H|H].
  - cbn [length] in *. destruct (Z.ltb_spec (room c) (Z.of_nat 1)); [lia|]. rewrite Hadv. reflexivity.
  - destruct (Z.leb_spec ch 2147483647); [|lia]. assert ((ch <? 55296) || (57343 <? ch) = true) as -> by lia. cbn [andb].
    rewrite utf8_step_ulen by lia. rewrite Hl. destruct (room c <? ulen ch); [reflexivity|]. rewrite Hadv.
    rewrite <- (utf8_step_ulen ch), utf8_sequence_encode by lia. unfold utf8_encode. destruct (Z.ltb_spec ch 128); [lia | ].
    rewrite utf8_step_ulen by lia. reflexivity.
Qed.
End Encode.

(** ** Decoding *)

(** What the body finds at the input: a character and its length, the beginning of a
    sequence, or the number of bytes to skip. *)
Inductive scan := Char (ch : Z) (n : nat) | Short | Bad (i : nat).

Definition utf8_scan (l : list Z) : scan :=
  let ch := nth 0 l 0 in
  if ch <? 128 then Char ch 1
  else
    match utf8_lead ch with
    | None => Bad (ill_formed_end 5 (tl l) 1)
    | Some (cnt, ch) =>
        if Z.of_nat (length l) <? cnt then
          let i := cont_prefix (tl l) 1 in if Nat.eqb i (length l) then Short else Bad i
        else
          let '(i, ch) := utf8_trail (Z.to_nat (cnt - 1)) (tl l) 1 ch in
          if (Z.of_nat i <? cnt) || ((2 <? cnt) && (Z.shiftr ch (5 * cnt - 4) =? 0)) || ((55296 <=? ch) && (ch <=? 57343))
          then Bad i else Char ch (Z.to_nat cnt)
    end.

Lemma body_scan fl r c : utf8_internal_body fl r c =
  match utf8_scan (inp c) with
  | Char ch n => Continue r (write (put32 ch) (advance n c))
  | Short => Break GCONV_INCOMPLETE_INPUT c
  | Bad i => STANDARD_FROM_LOOP_ERR_HANDLER fl i c
  end.
Proof.
  unfold utf8_internal_body, utf8_scan. destruct (nth 0 (inp c) 0 <? 128); [reflexivity|].
  destruct (utf8_lead (nth 0 (inp c) 0)) as [[cnt ch]|]; [|reflexivity]. destruct (Z.of_nat (length (inp c)) <? cnt).
  - destruct (Nat.eqb _ _); reflexivity.
  - destruct (utf8_trail _ _ _ _) as [i ch']. destruct (_ || _); reflexivity.
Qed.

(** The continuation bytes at the front. *)
Fixpoint contlen (l : list Z) : nat := match l with x :: l => if is_cont x then S (contlen l) else O | [] => O end.

(** The value of continuation bytes behind [a]. *)
Definition trail_value (t : list Z) (a : Z) : Z := fold_left (fun a x => a * 64 + (x - 128)) t a.

Definition cont (x : Z) : Prop := 128 <= x < 192.

Lemma cont_prefix_len l : forall i, cont_prefix l i = (i + contlen l)%nat.
Proof. induction l as [|x l IH]; intros i; cbn [cont_prefix contlen]; [lia|]. destruct (is_cont x); [rewrite IH; lia | lia]. Qed.

Lemma contlen_le l : (contlen l <= length l)%nat.
Proof. induction l as [|x l IH]; cbn [contlen length]; [lia|]. destruct (is_cont x); lia. Qed.

Lemma contlen_cont l : Forall byte l -> Forall cont (firstn (contlen l) l).
Proof.
  induction 1 as [|x l Hx Hl IH]; [constructor|]. cbn [contlen]. destruct (is_cont x) eqn:E; [|constructor]. cbn [firstn]. constructor; [|exact IH].
  rewrite is_cont_ref in E by exact Hx. unfold cont. lia.
Qed.

Lemma contlen_app t l : Forall cont t -> contlen (t ++ l) = (length t + contlen l)%nat.
Proof.
  induction 1 as [|x t Hx Ht IH]; [reflexivity|]. cbn [app contlen length]. rewrite is_cont_ref by (unfold byte, cont in *; lia).
  unfold cont in Hx. destruct (Z.leb_spec 128 x), (Z.ltb_spec x 192); try lia. cbn [andb]. rewrite IH. lia.
Qed.

Lemma utf8_trail_fst n : forall l i ch, fst (utf8_trail n l i ch) = (i + Nat.min n (contlen l))%nat.
Proof.
  induction n as [|n IH]; intros l i ch; cbn [utf8_trail]; [cbn [fst Nat.min]; lia|].
  destruct l as [|x l]; cbn [nth tl contlen]; [cbn; lia|]. destruct (is_cont x); cbn [negb fst]; [rewrite IH; lia | lia].
Qed.

Lemma trail_value_bound t : Forall cont t -> forall a, 0 <= a -> 0 <= trail_value t a < (a + 1) * 64 ^ Z.of_nat (length t).
Proof.
  induction 1 as [|x t Hx Ht IH]; intros a Ha; cbn [trail_value fold_left length].
  - change (64 ^ Z.of_nat 0) with 1. lia.
  - fold (trail_value t (a * 64 + (x - 128))). unfold cont in Hx. rewrite Nat2Z.inj_succ, Z.pow_succ_r by lia.
    specialize (IH (a * 64 + (x - 128)) ltac:(lia)). pose proof (Z.pow_pos_nonneg 64 (Z.of_nat (length t)) ltac:(lia) ltac:(lia)). nia.
Qed.

Lemma utf8_trail_snd t : Forall cont t -> forall l i ch, 0 <= ch -> (ch + 1) * 64 ^ Z.of_nat (length t) <= 2 ^ 32 ->
  snd (utf8_trail (length t) (t ++ l) i ch) = trail_value t ch.
Proof.
  induction 1 as [|x t Hx Ht IH]; intros l i ch Hc Hb; [reflexivity|]. cbn [length utf8_trail app nth tl].
  assert (is_cont x = true) as -> by (rewrite is_cont_ref; unfold byte, cont in *; lia). cbn [negb].
  rewrite cont_bits by exact Hx. cbn [length] in Hb. rewrite Nat2Z.inj_succ, Z.pow_succ_r in Hb by lia.
  pose proof (Z.pow_pos_nonneg 64 (Z.of_nat (length t)) ltac:(lia) ltac:(lia)) as Hp.
  assert (Z.lor (wrap 32 (Z.shiftl ch 6)) (x - 128) = ch * 64 + (x - 128)) as ->.
  { unfold cont in Hx. rewrite Z.shiftl_mul_pow2 by lia. rewrite wrap_small by nia. apply lor_add_low; lia. }
  unfold cont in Hx. rewrite IH by nia. reflexivity.
Qed.

Lemma trail_value_app t x a : trail_value (t ++ [x]) a = trail_value t a * 64 + (x - 128).
Proof. unfold trail_value. rewrite fold_left_app. reflexivity. Qed.

Lemma trail_value_inv t : Forall cont t -> forall a, 0 <= a ->
  t = trail (length t) (trail_value t a) /\ trail_value t a / 64 ^ Z.of_nat (length t) = a.
Proof.
  intros Ht. induction t as [|x t IH] using rev_ind; intros a Ha.
  - cbn [length trail]. split; [reflexivity|]. apply Z.div_1_r.
  - apply Forall_app in Ht as [Ht Hx]. inversion Hx as [|? ? Hx' _]; subst. unfold cont in Hx'. destruct (IH Ht a Ha) as [E1 E2].
    pose proof (trail_value_bound t Ht a Ha) as Hb. rewrite trail_value_app, length_app. cbn [length]. rewrite Nat.add_1_r.
    assert (Eq : (trail_value t a * 64 + (x - 128)) / 64 = trail_value t a) by (rewrite Z.div_add_l by lia; rewrite (Z.div_small (x - 128)) by lia; lia).
    rewrite trail_snoc by lia. rewrite Eq, <- E1. split.
    + assert ((trail_value t a * 64 + (x - 128)) mod 64 = x - 128) as -> by (rewrite Z.add_comm, Z.mod_add by lia; apply Z.mod_small; lia).
      do 2 f_equal. lia.
    + rewrite Nat2Z.inj_succ, Z.pow_succ_r by lia. rewrite <- Z.div_div by (try apply Z.pow_pos_nonneg; lia). rewrite Eq. exact E2.
Qed.

Lemma trail_cont k ch : Forall cont (trail k ch).
Proof.
  induction k as [|k IH]; cbn [trail]; constructor; [|exact IH]. unfold cont. pose proof (Z.mod_pos_bound (ch / 64 ^ Z.of_nat k) 64 ltac:(lia)). lia.
Qed.

Lemma trail_value_trail k : forall ch, 0 <= ch -> trail_value (trail k ch) (ch / 64 ^ Z.of_nat k) = ch.
Proof.
  induction k as [|k IH]; intros ch Hc.
  - apply Z.div_1_r.
  - rewrite trail_snoc by exact Hc. rewrite trail_value_app. rewrite Nat2Z.inj_succ, Z.pow_succ_r by lia.
    rewrite <- Z.div_div by (try apply Z.pow_pos_nonneg; lia). rewrite IH by (apply Z.div_pos; lia).
    pose proof (Z.div_mod ch 64 ltac:(lia)). lia.
Qed.

(** The constants of the five lengths. *)
Ltac consts :=
  change (mark 2) with 192 in *; change (mark 3) with 224 in *; change (mark 4) with 240 in *; change (mark 5) with 248 in *;
  change (mark 6) with 252 in *; change (2 ^ (7 - 2)) with 32 in *; change (2 ^ (7 - 3)) with 16 in *; change (2 ^ (7 - 4)) with 8 in *;
  change (2 ^ (7 - 5)) with 4 in *; change (2 ^ (7 - 6)) with 2 in *; change (5 * 2 + 1) with 11 in *; change (5 * 3 + 1) with 16 in *;
  change (5 * 4 + 1) with 21 in *; change (5 * 5 + 1) with 26 in *; change (5 * 6 + 1) with 31 in *; change (5 * 2 - 4) with 6 in *;
  change (5 * 3 - 4) with 11 in *; change (5 * 4 - 4) with 16 in *; change (5 * 5 - 4) with 21 in *; change (5 * 6 - 4) with 26 in *.

(** The first byte of a sequence of [cnt] bytes that holds the bits [v]. *)
Definition lead_ok (b cnt v : Z) : Prop := 2 <= cnt <= 6 /\ b = mark cnt + v /\ 0 <= v < 2 ^ (7 - cnt) /\ (cnt = 2 -> 2 <= v).

Lemma lead_ref_ok b cnt v : utf8_lead b = Some (cnt, v) -> byte b -> lead_ok b cnt v.
Proof.
  intros E Hb. rewrite utf8_lead_ref in E by exact Hb. unfold lead_ref in E. unfold lead_ok.
  destruct ((194 <=? b) && (b <? 224)) eqn:E1; [|destruct ((224 <=? b) && (b <? 240)) eqn:E2; [|destruct ((240 <=? b) && (b <? 248)) eqn:E3;
    [|destruct ((248 <=? b) && (b <? 252)) eqn:E4; [|destruct ((252 <=? b) && (b <? 254)) eqn:E5; [|discriminate]]]]];
    injection E as <- <-; consts; lia.
Qed.

Lemma lead_ok_ref b cnt v : lead_ok b cnt v -> utf8_lead b = Some (cnt, v) /\ 194 <= b < 254.
Proof.
  intros (Hn & -> & Hv & H2). assert (cnt = 2 \/ cnt = 3 \/ cnt = 4 \/ cnt = 5 \/ cnt = 6) as [-> | [-> | [-> | [-> | ->]]]] by lia;
    consts; try specialize (H2 eq_refl); (rewrite utf8_lead_ref by (unfold byte; lia); unfold lead_ref; split; [|lia]).
  - destruct (Z.leb_spec 194 (192 + v)), (Z.ltb_spec (192 + v) 224); try lia. cbn [andb]. do 2 f_equal. lia.
  - destruct (Z.leb_spec 194 (224 + v)), (Z.ltb_spec (224 + v) 224), (Z.leb_spec 224 (224 + v)), (Z.ltb_spec (224 + v) 240); try lia. cbn [andb]. do 2 f_equal. lia.
  - destruct (Z.ltb_spec (240 + v) 224), (Z.ltb_spec (240 + v) 240), (Z.leb_spec 240 (240 + v)), (Z.ltb_spec (240 + v) 248); try lia. rewrite !andb_false_r. cbn [andb]. do 2 f_equal. lia.
  - destruct (Z.ltb_spec (248 + v) 224), (Z.ltb_spec (248 + v) 240), (Z.ltb_spec (248 + v) 248), (Z.leb_spec 248 (248 + v)), (Z.ltb_spec (248 + v) 252); try lia. rewrite !andb_false_r. cbn [andb]. do 2 f_equal. lia.
  - destruct (Z.ltb_spec (252 + v) 224), (Z.ltb_spec (252 + v) 240), (Z.ltb_spec (252 + v) 248), (Z.ltb_spec (252 + v) 252), (Z.leb_spec 252 (252 + v)), (Z.ltb_spec (252 + v) 254); try lia. rewrite !andb_false_r. cbn [andb]. do 2 f_equal. lia.
Qed.

(** [cnt - 1] as a number of bytes. *)
Lemma cnt_power cnt v : 2 <= cnt <= 6 -> 0 <= v < 2 ^ (7 - cnt) -> (v + 1) * 64 ^ (cnt - 1) <= 2 ^ (5 * cnt + 1).
Proof.
  intros Hn Hv. replace (2 ^ (5 * cnt + 1)) with (2 ^ (7 - cnt) * 64 ^ (cnt - 1)).
  - apply Z.mul_le_mono_nonneg_r; [apply Z.pow_nonneg; lia | lia].
  - change 64 with (2 ^ 6). rewrite <- Z.pow_mul_r, <- Z.pow_add_r by lia. f_equal. lia.
Qed.

(** A sequence that is not too long is the encoding of its value. *)
Lemma not_overlong cnt v ch : 2 <= cnt <= 6 -> (cnt = 2 -> 128 <= ch) -> (2 < cnt -> 2 ^ (5 * cnt - 4) <= ch) -> 0 <= ch < 2 ^ (5 * cnt + 1) ->
  ch / 64 ^ (cnt - 1) = v -> ulen ch = cnt /\ 128 <= ch < 2 ^ 31 /\ utf8_encode ch = mark cnt + v :: trail (Z.to_nat (cnt - 1)) ch.
Proof.
  intros Hn H2 H3 Hc Hv. assert (ulen ch = cnt /\ 128 <= ch < 2 ^ 31) as [E Hr].
  { assert (cnt = 2 \/ cnt = 3 \/ cnt = 4 \/ cnt = 5 \/ cnt = 6) as [-> | [-> | [-> | [-> | ->]]]] by lia;
      consts; unfold ulen;
      destruct (Z.ltb_spec ch (2 ^ 7)), (Z.ltb_spec ch (2 ^ 11)), (Z.ltb_spec ch (2 ^ 16)), (Z.ltb_spec ch (2 ^ 21)), (Z.ltb_spec ch (2 ^ 26)); lia. }
  split; [exact E|]. split; [exact Hr|]. unfold utf8_encode. destruct (Z.ltb_spec ch 128); [lia|]. rewrite E, Hv. reflexivity.
Qed.

Lemma scan_encode ch rest : character ch -> utf8_scan (utf8_encode ch ++ rest) = Char ch (length (utf8_encode ch)).
Proof.
  intros [Hc Hs]. unfold utf8_encode, utf8_scan. destruct (Z.ltb_spec ch 128) as [H|H].
  - cbn [app nth length]. destruct (Z.ltb_spec ch 128); [reflexivity | lia].
  - destruct (lead_value ch ltac:(lia)) as [Hn Hv]. set (n := ulen ch) in *. set (v := ch / 64 ^ (n - 1)) in *. cbn [app nth tl length].
    assert (Hl : lead_ok (mark n + v) n v).
    { split; [exact Hn|]. split; [reflexivity|]. split; [exact Hv|]. intros E2. unfold v. rewrite E2. change (64 ^ (2 - 1)) with 64.
      apply Z.div_le_lower_bound; lia. }
    destruct (lead_ok_ref _ _ _ Hl) as [El Hb]. destruct (Z.ltb_spec (mark n + v) 128); [lia|]. rewrite El.
    assert (Ht : length (trail (Z.to_nat (n - 1)) ch) = Z.to_nat (n - 1)) by apply length_trail.
    rewrite length_app, Ht. destruct (Z.ltb_spec (Z.of_nat (S (Z.to_nat (n - 1) + length rest))) n) as [Hx|_]; [lia|].
    pose proof (utf8_trail_fst (Z.to_nat (n - 1)) (trail (Z.to_nat (n - 1)) ch ++ rest) 1 v) as E1.
    pose proof (utf8_trail_snd _ (trail_cont (Z.to_nat (n - 1)) ch) rest 1%nat v ltac:(lia)) as E2. rewrite Ht, Z2Nat.id in E2 by lia.
    specialize (E2 ltac:(pose proof (cnt_power n v Hn Hv); assert (2 ^ (5 * n + 1) <= 2 ^ 32) by (apply Z.pow_le_mono_r; lia); lia)).
    rewrite contlen_app, Ht in E1 by apply trail_cont.
    pose proof (trail_value_trail (Z.to_nat (n - 1)) ch ltac:(lia)) as E3. rewrite Z2Nat.id in E3 by lia. fold v in E3. rewrite E3 in E2.
    destruct (utf8_trail (Z.to_nat (n - 1)) (trail (Z.to_nat (n - 1)) ch ++ rest) 1 v) as [i ch']. cbn [fst snd] in E1, E2. subst ch' i.
    replace (1 + Nat.min (Z.to_nat (n - 1)) (Z.to_nat (n - 1) + contlen rest))%nat with (S (Z.to_nat (n - 1))) by lia.
    destruct (Z.ltb_spec (Z.of_nat (S (Z.to_nat (n - 1)))) n) as [Hx|_]; [lia|]. cbn [orb].
    assert ((2 <? n) && (Z.shiftr ch (5 * n - 4) =? 0) = false) as ->.
    { destruct (Z.ltb_spec 2 n) as [H2|H2]; [|reflexivity]. cbn [andb]. apply Z.eqb_neq. rewrite Z.shiftr_div_pow2 by lia.
      assert (1 <= ch / 2 ^ (5 * n - 4)); [|lia]. apply Z.div_le_lower_bound; [apply Z.pow_pos_nonneg; lia|]. rewrite Z.mul_1_r.
      unfold n. ulen_case (conj H (ltac:(lia) : ch < 2 ^ 31)); consts; lia. }
    assert ((55296 <=? ch) && (ch <=? 57343) = false) as -> by lia. cbn [orb]. f_equal. lia.
Qed.

(** The complete sequence behind a first byte. *)
Lemma scan_sequence b cnt v t rest : lead_ok b cnt v -> byte b -> Forall cont t -> Z.of_nat (length t) = cnt - 1 ->
  let ch := trail_value t v in
  utf8_scan (b :: t ++ rest) =
    (if ((2 <? cnt) && (ch <? 2 ^ (5 * cnt - 4))) || ((55296 <=? ch) && (ch <=? 57343)) then Bad (Z.to_nat cnt) else Char ch (Z.to_nat cnt)) /\
  0 <= ch < 2 ^ (5 * cnt + 1) /\ ch / 64 ^ (cnt - 1) = v /\ t = trail (Z.to_nat (cnt - 1)) ch.
Proof.
  intros Hl Hb Ht Hlen ch. assert (Hl' := Hl). destruct Hl' as (Hn & Eb & Hv & H2). destruct (lead_ok_ref _ _ _ Hl) as [El Hr].
  pose proof (trail_value_bound t Ht v ltac:(lia)) as Hbd. rewrite Hlen in Hbd. fold ch in Hbd. pose proof (cnt_power cnt v Hn Hv) as Hp.
  destruct (trail_value_inv t Ht v ltac:(lia)) as [E1 E2]. fold ch in E1, E2. rewrite Hlen in E2.
  assert (Hlt : length t = Z.to_nat (cnt - 1)) by lia.
  split; [|split; [lia|]; split; [exact E2|]; rewrite <- Hlt; exact E1].
  unfold utf8_scan. cbn [nth tl length]. destruct (Z.ltb_spec b 128); [lia|]. rewrite El, length_app.
  destruct (Z.ltb_spec (Z.of_nat (S (length t + length rest))) cnt); [lia|].
  pose proof (utf8_trail_fst (length t) (t ++ rest) 1 v) as F1. rewrite contlen_app in F1 by exact Ht.
  pose proof (utf8_trail_snd t Ht rest 1%nat v ltac:(lia)) as F2. rewrite Hlen in F2.
  specialize (F2 ltac:(assert (2 ^ (5 * cnt + 1) <= 2 ^ 32) by (apply Z.pow_le_mono_r; lia); lia)). fold ch in F2. rewrite <- Hlt.
  destruct (utf8_trail (length t) (t ++ rest) 1 v) as [i ch']. cbn [fst snd] in F1, F2. subst ch'.
  replace i with (Z.to_nat cnt) by lia. rewrite Z2Nat.id by lia. rewrite Z.ltb_irrefl. cbn [orb].
  assert ((Z.shiftr ch (5 * cnt - 4) =? 0) = (ch <? 2 ^ (5 * cnt - 4))) as ->; [|reflexivity].
  rewrite Z.shiftr_div_pow2 by lia. pose proof (Z.pow_pos_nonneg 2 (5 * cnt - 4) ltac:(lia) ltac:(lia)).
  destruct (Z.ltb_spec ch (2 ^ (5 * cnt - 4))); [rewrite Z.div_small by lia; reflexivity|].
  apply Z.eqb_neq. assert (1 <= ch / 2 ^ (5 * cnt - 4)) by (apply Z.div_le_lower_bound; lia). lia.
Qed.

(** What the bytes behind a first byte are: enough continuation bytes, only
    continuation bytes, or another byte among them. *)
Lemma scan_lead b cnt v l : lead_ok b cnt v -> byte b -> Forall byte l ->
  (exists t rest, l = t ++ rest /\ Forall cont t /\ Z.of_nat (length t) = cnt - 1) \/
  (Forall cont l /\ Z.of_nat (S (length l)) < cnt /\ utf8_scan (b :: l) = Short) \/
  ((contlen l < length l)%nat /\ Z.of_nat (S (contlen l)) < cnt /\ utf8_scan (b :: l) = Bad (S (contlen l))).
Proof.
  intros Hl Hb Hby. pose proof (contlen_le l) as Hle. destruct (lead_ok_ref _ _ _ Hl) as [El Hr]. destruct Hl as (Hn & _).
  destruct (Z.le_gt_cases (cnt - 1) (Z.of_nat (contlen l))) as [H|H].
  - left. exists (firstn (Z.to_nat (cnt - 1)) l), (skipn (Z.to_nat (cnt - 1)) l). rewrite firstn_skipn. split; [reflexivity|].
    rewrite length_firstn. split; [|lia]. pose proof (contlen_cont l Hby) as Hc.
    replace (firstn (Z.to_nat (cnt - 1)) l) with (firstn (Z.to_nat (cnt - 1)) (firstn (contlen l) l)) by (rewrite firstn_firstn; f_equal; lia).
    apply Forall_forall. intros x Hx. rewrite Forall_forall in Hc. apply Hc. rewrite <- (firstn_skipn (Z.to_nat (cnt - 1)) (firstn (contlen l) l)).
    apply in_or_app. left. exact Hx.
  - right. unfold utf8_scan. cbn [nth tl length]. destruct (Z.ltb_spec b 128); [lia|]. rewrite El.
    destruct (Nat.eq_dec (contlen l) (length l)) as [He|He].
    + left. split; [pose proof (contlen_cont l Hby) as Hc; rewrite He, firstn_all in Hc; exact Hc|].
      split; [lia|]. destruct (Z.ltb_spec (Z.of_nat (S (length l))) cnt); [|lia]. rewrite cont_prefix_len.
      destruct (Nat.eqb_spec (1 + contlen l) (S (length l))); [reflexivity | lia].
    + right. split; [lia|]. split; [lia|]. destruct (Z.ltb_spec (Z.of_nat (S (length l))) cnt).
      * rewrite cont_prefix_len. destruct (Nat.eqb_spec (1 + contlen l) (S (length l))); [lia | reflexivity].
      * pose proof (utf8_trail_fst (Z.to_nat (cnt - 1)) l 1 v) as F1. destruct (utf8_trail (Z.to_nat (cnt - 1)) l 1 v) as [i ch']. cbn [fst] in F1.
        replace i with (S (contlen l)) by lia. destruct (Z.ltb_spec (Z.of_nat (S (contlen l))) cnt); [reflexivity | lia].
Qed.

Lemma ill_formed_bound n : forall l i, (i <= ill_formed_end n l i <= i + length l)%nat.
Proof.
  induction n as [|n IH]; intros l i; cbn [ill_formed_end]; [lia|]. destruct l as [|x l]; [lia|]. cbn [length].
  destruct (is_cont x && Nat.ltb i 5); [specialize (IH l (S i)); lia | lia].
Qed.

(** A character is found exactly where its encoding is. *)
Lemma scan_char l ch n : Forall byte l -> l <> [] -> utf8_scan l = Char ch n ->
  character ch /\ n = length (utf8_encode ch) /\ l = utf8_encode ch ++ skipn n l.
Proof.
  intros Hby Hl E. destruct l as [|b l]; [contradiction|]. inversion Hby as [|? ? Hb Hby']; subst.
  destruct (Z.ltb_spec b 128) as [H|H].
  - unfold utf8_scan in E. cbn [nth] in E. destruct (Z.ltb_spec b 128); [|lia]. injection E as <- <-.
    unfold utf8_encode. destruct (Z.ltb_spec b 128); [|lia]. split; [unfold character, byte in *; lia | split; reflexivity].
  - destruct (utf8_lead b) as [[cnt v]|] eqn:El.
    + pose proof (lead_ref_ok _ _ _ El Hb) as Hlo. destruct (scan_lead b cnt v l Hlo Hb Hby') as [(t & rest & -> & Ht & Hlen)|[(_ & _ & E')|(_ & _ & E')]];
        [|rewrite E' in E; discriminate|rewrite E' in E; discriminate].
      destruct (scan_sequence b cnt v t rest Hlo Hb Ht Hlen) as (Es & Hr & Hd & Et). rewrite Es in E.
      set (c := trail_value t v) in *. destruct (((2 <? cnt) && (c <? 2 ^ (5 * cnt - 4))) || ((55296 <=? c) && (c <=? 57343))) eqn:Ec; [discriminate|].
      injection E as <- <-. apply orb_false_iff in Ec as [Eo Esur]. destruct Hlo as (Hn & Eb & Hv & H2).
      destruct (not_overlong cnt v c) as (Eu & Hcr & Een); [exact Hn | | | lia | exact Hd |].
      * intros ->. specialize (H2 eq_refl). change (64 ^ (2 - 1)) with 64 in Hd. pose proof (Z.div_mod c 64 ltac:(lia)). pose proof (Z.mod_pos_bound c 64 ltac:(lia)). lia.
      * intros Hg. destruct (Z.ltb_spec 2 cnt), (Z.ltb_spec c (2 ^ (5 * cnt - 4))); lia.
      * rewrite Een, <- Et, <- Eb. cbn [length]. split; [split; lia|]. split; [lia|].
        replace (Z.to_nat cnt) with (length (b :: t)) by (cbn [length]; lia). change (b :: t ++ rest) with ((b :: t) ++ rest).
        rewrite skipn_app, skipn_all, Nat.sub_diag. reflexivity.
    + unfold utf8_scan in E. cbn [nth] in E. destruct (Z.ltb_spec b 128); [lia|]. rewrite El in E. discriminate.
Qed.

(** More input does not change the verdict on a character or an error. *)
Lemma scan_app l x : Forall byte l -> Forall byte x -> l <> [] ->
  match utf8_scan l with
  | Char ch n => utf8_scan (l ++ x) = Char ch n
  | Bad i => (1 <= i <= length l)%nat /\ exists j, utf8_scan (l ++ x) = Bad j
  | Short => (length l <= 5)%nat /\ exists b t cnt v, l = b :: t /\ lead_ok b cnt v /\ Forall cont t /\ Z.of_nat (length l) < cnt
  end.
Proof.
  intros Hby Hx Hl. destruct (utf8_scan l) as [ch n| |i] eqn:E.
  - destruct (scan_char l ch n Hby Hl E) as (Hc & -> & El). rewrite El, <- app_assoc. apply scan_encode. exact Hc.
  - destruct l as [|b l]; [contradiction|]. inversion Hby as [|? ? Hb Hby']; subst. unfold utf8_scan in E. cbn [nth] in E.
    destruct (b <? 128); [discriminate|]. destruct (utf8_lead b) as [[cnt v]|] eqn:El; [|discriminate].
    pose proof (lead_ref_ok _ _ _ El Hb) as Hlo. destruct (scan_lead b cnt v l Hlo Hb Hby') as [(t & rest & -> & Ht & Hlen)|[(Hc & Hs & _)|(H1 & H2 & E')]].
    + exfalso. destruct (scan_sequence b cnt v t rest Hlo Hb Ht Hlen) as (Es & _). unfold utf8_scan in Es. cbn [nth] in Es.
      destruct (lead_ok_ref _ _ _ Hlo) as [_ Hr]. destruct (Z.ltb_spec b 128); [lia|]. rewrite El in Es. rewrite Es in E. destruct (_ || _); discriminate.
    + split; [destruct Hlo; cbn [length]; lia|]. exists b, l, cnt, v. split; [reflexivity|]. split; [exact Hlo|]. split; [exact Hc | exact Hs].
    + exfalso. unfold utf8_scan in E'. cbn [nth] in E'. destruct (lead_ok_ref _ _ _ Hlo) as [_ Hr]. destruct (Z.ltb_spec b 128); [lia|]. rewrite El in E'. rewrite E' in E. discriminate.
  - destruct l as [|b l]; [contradiction|]. inversion Hby as [|? ? Hb Hby']; subst.
    destruct (Z.ltb_spec b 128) as [H|H]; [unfold utf8_scan in E; cbn [nth] in E; destruct (Z.ltb_spec b 128); [discriminate | lia]|].
    destruct (utf8_lead b) as [[cnt v]|] eqn:El.
    + pose proof (lead_ref_ok _ _ _ El Hb) as Hlo. destruct (scan_lead b cnt v l Hlo Hb Hby') as [(t & rest & -> & Ht & Hlen)|[(_ & _ & E')|(H1 & H2 & E')]].
      * destruct (scan_sequence b cnt v t rest Hlo Hb Ht Hlen) as (Es & _). destruct (scan_sequence b cnt v t (rest ++ x) Hlo Hb Ht Hlen) as (Es' & _).
        rewrite Es in E. cbn [app]. rewrite <- app_assoc, Es'. destruct (_ || _); [|discriminate]. injection E as <-. split; [|eauto].
        cbn [length]. rewrite length_app. destruct Hlo. lia.
      * rewrite E' in E. discriminate.
      * rewrite E' in E. injection E as <-. split; [cbn [length]; lia|]. cbn [app].
        assert (Hc : contlen (l ++ x) = contlen l).
        { clear -H1 Hby'. induction l as [|y l IH]; [cbn in H1; lia|]. cbn [app contlen length] in *. inversion Hby'; subst. destruct (is_cont y); [|reflexivity]. f_equal. apply IH; [assumption | lia]. }
        destruct (scan_lead b cnt v (l ++ x) Hlo Hb ltac:(apply Forall_app; auto)) as [(t & rest & Et & Ht & Hlen)|[(Hcc & _)|(H3 & H4 & ->)]]; [| |eauto].
        -- exfalso. rewrite Et, contlen_app in Hc by exact Ht. lia.
        -- exfalso. pose proof (contlen_app (l ++ x) [] Hcc) as Hc'. rewrite app_nil_r, length_app in Hc'. cbn [contlen] in Hc'. lia.
    + unfold utf8_scan in *. cbn [nth app tl length] in *. destruct (Z.ltb_spec b 128); [lia|]. rewrite El in *.
      assert (i = ill_formed_end 5 l 1) as -> by congruence. split; [|eauto]. pose proof (ill_formed_bound 5 l 1). lia.
Qed.

(** ** The bytes kept in the state *)

Lemma unpack_loop_spec n : forall inlen w first acc, 0 <= w -> (1 <= inlen)%nat -> acc = [] \/ (n < inlen)%nat ->
  unpack_loop n inlen w first acc = Z.lor first (w / 64 ^ Z.of_nat n) :: firstn (inlen - 1) (trail n w) ++ acc.
Proof.
  induction n as [|n IH]; intros inlen w first acc Hw Hi Ha.
  - cbn [unpack_loop trail]. rewrite firstn_nil. change (64 ^ Z.of_nat 0) with 1. rewrite Z.div_1_r. reflexivity.
  - cbn [unpack_loop]. assert (Hw' : 0 <= Z.shiftr w 6) by (apply Z.shiftr_nonneg; exact Hw).
    rewrite Nat2Z.inj_succ, Z.pow_succ_r by lia. rewrite <- Z.div_div by (try apply Z.pow_pos_nonneg; lia).
    assert (Es : Z.shiftr w 6 = w / 64) by (apply Z.shiftr_div_pow2; lia). rewrite trail_snoc by exact Hw.
    destruct (Nat.ltb_spec (S n) inlen) as [H|H].
    + rewrite IH by (try right; try lia; assumption). rewrite Es, land_63, lor_128 by (apply Z.mod_pos_bound; lia).
      rewrite !firstn_all2 by (rewrite ?length_app, ?length_trail; cbn [length]; lia). rewrite <- app_assoc. reflexivity.
    + destruct Ha as [-> | Ha]; [|lia]. rewrite IH by (auto; lia). rewrite Es. rewrite firstn_app, length_trail.
      replace (inlen - 1 - n)%nat with O by lia. rewrite firstn_O, !app_nil_r. reflexivity.
Qed.

Lemma trail_shift r k : forall x, 0 <= x -> firstn k (trail (k + r) (x * 64 ^ Z.of_nat r)) = trail k x.
Proof.
  induction k as [|k IH]; intros x Hx; [reflexivity|]. cbn [Nat.add trail firstn]. rewrite IH by exact Hx. f_equal. f_equal. f_equal.
  rewrite Nat2Z.inj_add, Z.pow_add_r by lia. rewrite Z.mul_comm, (Z.mul_comm (64 ^ Z.of_nat k)).
  rewrite Z.div_mul_cancel_l by (try (apply Z.pow_nonzero; lia)). reflexivity.
Qed.

Lemma store_loop_spec t : Forall cont t -> forall ch r, 0 <= ch -> (ch + 1) * 64 ^ Z.of_nat (length t) <= 2 ^ 32 ->
  store_loop t ch r = (trail_value t ch, r - Z.of_nat (length t)).
Proof.
  induction 1 as [|x t Hx Ht IH]; intros ch r Hc Hb; [cbn [store_loop length]; f_equal; cbn; lia|]. cbn [store_loop].
  rewrite cont_bits by exact Hx. cbn [length] in *. rewrite Nat2Z.inj_succ, Z.pow_succ_r in Hb by lia.
  pose proof (Z.pow_pos_nonneg 64 (Z.of_nat (length t)) ltac:(lia) ltac:(lia)) as Hp.
  assert (Z.lor (wrap 32 (Z.shiftl ch 6)) (x - 128) = ch * 64 + (x - 128)) as ->.
  { unfold cont in Hx. rewrite Z.shiftl_mul_pow2 by lia. rewrite wrap_small by nia. apply lor_add_low; lia. }
  unfold cont in Hx. rewrite IH by nia. f_equal. lia.
Qed.

(** What STORE_REST keeps, UNPACK_BYTES gives back. *)
Lemma store_unpack b cnt v t : lead_ok b cnt v -> Forall cont t -> Z.of_nat (length (b :: t)) < cnt ->
  exists st, STORE_REST (b :: t) = Some st /\ UNPACK_BYTES st = Some (b :: t) /\ Z.land (count st) 7 = Z.of_nat (length (b :: t)).
Proof.
  intros Hl Ht Hlen. destruct (lead_ok_ref _ _ _ Hl) as [El Hr]. destruct Hl as (Hn & Eb & Hv & H2). cbn [length] in Hlen.
  pose proof (cnt_power cnt v Hn Hv) as Hp. assert (Hp32 : 2 ^ (5 * cnt + 1) <= 2 ^ 31) by (apply Z.pow_le_mono_r; lia).
  set (k := length t) in *. set (r := Z.to_nat (cnt - 1 - Z.of_nat k)). assert (Hk : cnt - 1 = Z.of_nat (k + r)) by lia.
  assert (Hpk : 64 ^ (cnt - 1) = 64 ^ Z.of_nat k * 64 ^ Z.of_nat r) by (rewrite Hk, Nat2Z.inj_add, Z.pow_add_r by lia; reflexivity).
  pose proof (Z.pow_pos_nonneg 64 (Z.of_nat k) ltac:(lia) ltac:(lia)) as Hp1. pose proof (Z.pow_pos_nonneg 64 (Z.of_nat r) ltac:(lia) ltac:(lia)) as Hp2.
  pose proof (trail_value_bound t Ht v ltac:(lia)) as Hb. fold k in Hb. set (x := trail_value t v) in *.
  assert (HV : 0 <= x * 64 ^ Z.of_nat r < 2 ^ 31) by nia.
  destruct (trail_value_inv t Ht v ltac:(lia)) as [Et Ed]. fold k x in Et, Ed.
  exists {| count := cnt * 256 + Z.of_nat (S k); wchb := put32 (x * 64 ^ Z.of_nat r) |}. split; [|split].
  - unfold STORE_REST. cbn [nth tl]. destruct (Z.eqb_spec b 192), (Z.eqb_spec b 193); try lia. cbn [orb]. rewrite El.
    rewrite store_loop_spec by (try assumption; fold k; nia || lia). fold x k. cbn [length]. fold k.
    replace ((cnt - 1 - Z.of_nat k) * 6) with (6 * Z.of_nat r) by lia. rewrite (Z.shiftl_mul_pow2 x) by lia. rewrite Z.pow_mul_r by lia. change (2 ^ 6) with 64.
    rewrite wrap_small by lia. rewrite Z.lor_comm, Z.shiftl_mul_pow2 by lia. rewrite lor_add_low by lia. reflexivity.
  - unfold UNPACK_BYTES. cbn [count]. rewrite Z.shiftr_div_pow2 by lia. change (2 ^ 8) with 256. rewrite Z.div_add_l by lia.
    rewrite (Z.div_small (Z.of_nat (S k))) by lia. rewrite Z.add_0_r, land_255. rewrite Z.add_comm, Z.mod_add by lia. rewrite Z.mod_small by lia. rewrite Nat2Z.id.
    assert (nth_error inmask (Z.to_nat (cnt - 2)) = Some (utf8_first cnt)) as ->.
    { assert (cnt = 2 \/ cnt = 3 \/ cnt = 4 \/ cnt = 5 \/ cnt = 6) as [-> | [-> | [-> | [-> | ->]]]] by lia; reflexivity. }
    unfold wch. cbn [wchb]. pose proof (get32_put32 (x * 64 ^ Z.of_nat r) [] ltac:(lia)) as Eg. rewrite app_nil_r in Eg. rewrite Eg.
    rewrite unpack_loop_spec by (try lia; left; reflexivity). rewrite app_nil_r. replace (Z.to_nat (cnt - 1)) with (k + r)%nat by lia.
    replace (S k - 1)%nat with k by lia. rewrite trail_shift by lia. rewrite <- Et.
    assert (x * 64 ^ Z.of_nat r / 64 ^ Z.of_nat (k + r) = v) as ->.
    { rewrite <- Hk, Hpk. rewrite Z.mul_comm, (Z.mul_comm (64 ^ Z.of_nat k)). rewrite Z.div_mul_cancel_l by lia. exact Ed. }
    rewrite lead_bits by assumption. rewrite <- Eb. reflexivity.
  - cbn [count length]. fold k. change 7 with (2 ^ 3 - 1). rewrite land_low_mask by lia. change (2 ^ 3) with 8.
    replace (cnt * 256 + Z.of_nat (S k)) with (Z.of_nat (S k) + cnt * 32 * 8) by lia. rewrite Z.mod_add by lia. apply Z.mod_small. lia.
Qed.

(** ** The loops *)

Section Loops.
Context (fl : gflags) (transliterate : cursor -> status * cursor).

Lemma loop_fuel mi mo body f f' : (f <= f')%nat -> forall r c x, loop mi mo body f r c = Some x -> loop mi mo body f' r c = Some x.
Proof using Type.
  revert f'. induction f as [|f IH]; intros f' Hf r c x E; [discriminate|]. destruct f' as [|f']; [lia|]. cbn [loop] in *.
  destruct (inp c); [exact E|]. destruct (_ && _); [exact E|]. destruct (room c <? mo); [exact E|].
  destruct (body r c); [exact E|]. apply IH; [lia | exact E].
Qed.

(** The characters that fit into [room] bytes. *)
Fixpoint fitting (len : Z -> Z) (room : Z) (chs : list Z) : nat :=
  match chs with [] => O | ch :: chs => if room <? len ch then O else S (fitting len (room - len ch) chs) end.

Lemma write_nothing l c : inp c = l -> write [] (with_inp l c) = c.
Proof using Type. intros <-. destruct c. unfold write, with_inp. cbn. rewrite app_nil_r, Z.sub_0_r. reflexivity. Qed.

Lemma length_put32 x l : length (put32 x ++ l) = (4 + length l)%nat.
Proof using Type. reflexivity. Qed.

(** Encoding stops at the first character that does not fit. *)
Lemma internal_utf8_run fuel : forall chs c, (length chs < fuel)%nat -> Forall character chs -> inp c = concat (map put32 chs) ->
  let k := fitting ulen (room c) chs in
  internal_utf8_loop fl transliterate fuel c =
    Some (if Nat.eqb k (length chs) then GCONV_EMPTY_INPUT else GCONV_FULL_OUTPUT,
          write (concat (map utf8_encode (firstn k chs))) (with_inp (concat (map put32 (skipn k chs))) c)).
Proof using Type.
  unfold internal_utf8_loop. induction fuel as [|fuel IH]; intros chs c Hf Hc Hi; [lia|]. destruct chs as [|ch chs]; cbn [loop].
  - rewrite Hi. cbn [fitting length Nat.eqb firstn skipn map concat]. rewrite write_nothing by exact Hi. reflexivity.
  - cbn [map concat] in Hi. inversion Hc as [|? ? Hch Hc']; subst. rewrite Hi. cbn [put32 app].
    change (Z.land ch 255 :: _) with (put32 ch ++ concat (map put32 chs)).
    assert (((1 <? 4) && (Z.of_nat (length (put32 ch ++ concat (map put32 chs))) <? 4)) = false) as -> by (rewrite length_put32; apply Z.ltb_ge; lia).
    destruct (length_encode ch Hch) as [Hlen Hu]. cbn [fitting]. destruct (Z.ltb_spec (room c) 1) as [H1|H1].
    + destruct (Z.ltb_spec (room c) (ulen ch)); [|lia]. cbn [Nat.eqb length firstn skipn map concat]. rewrite write_nothing by exact Hi. reflexivity.
    + rewrite (internal_utf8_step fl transliterate _ c ch _ Hch Hi H1), Hlen. destruct (Z.ltb_spec (room c) (ulen ch)) as [H2|H2].
      * cbn [Nat.eqb length firstn skipn map concat]. rewrite write_nothing by exact Hi. reflexivity.
      * rewrite IH with (chs := chs) by (cbn [length] in Hf; try lia; try assumption; reflexivity). cbn [room write with_inp].
        rewrite Hlen. cbn [Nat.eqb length firstn skipn map concat]. do 2 f_equal. unfold write, with_inp. cbn. rewrite app_assoc, length_app. f_equal. lia.
Qed.

Lemma encode_nonempty ch : exists b l, utf8_encode ch = b :: l.
Proof using Type. unfold utf8_encode. destruct (ch <? 128); eauto. Qed.

(** Decoding stops when there is no room for a character. *)
Lemma utf8_internal_run fuel : forall chs c, (length chs < fuel)%nat -> Forall character chs -> inp c = concat (map utf8_encode chs) ->
  let k := fitting (fun _ => 4) (room c) chs in
  utf8_internal_loop fl fuel c =
    Some (if Nat.eqb k (length chs) then GCONV_EMPTY_INPUT else GCONV_FULL_OUTPUT,
          write (concat (map put32 (firstn k chs))) (with_inp (concat (map utf8_encode (skipn k chs))) c)).
Proof using Type.
  unfold utf8_internal_loop. induction fuel as [|fuel IH]; intros chs c Hf Hc Hi; [lia|]. destruct chs as [|ch chs]; cbn [loop].
  - rewrite Hi. cbn [fitting length Nat.eqb firstn skipn map concat]. rewrite write_nothing by exact Hi. reflexivity.
  - cbn [map concat] in Hi. inversion Hc as [|? ? Hch Hc']; subst. destruct (encode_nonempty ch) as (b & l & Eb). rewrite Hi, Eb. cbn [app].
    change (1 <? 1) with false. cbn [andb fitting]. destruct (Z.ltb_spec (room c) 4) as [H|H].
    + cbn [Nat.eqb length firstn skipn map concat]. rewrite write_nothing by exact Hi. reflexivity.
    + rewrite body_scan, Hi, scan_encode by exact Hch.
      assert (advance (length (utf8_encode ch)) c = with_inp (concat (map utf8_encode chs)) c) as ->.
      { unfold advance, with_inp. rewrite Hi, skipn_app, skipn_all, Nat.sub_diag. reflexivity. }
      rewrite IH with (chs := chs) by (cbn [length] in Hf; try lia; try assumption; reflexivity). cbn [room write with_inp].
      cbn [Nat.eqb length firstn skipn map concat]. do 2 f_equal. unfold write, with_inp. cbn [inp out room irr seen].
      change (Z.of_nat (length (put32 ch))) with 4. f_equal; [symmetry; apply app_assoc | rewrite length_put32; lia].
Qed.
End Loops.

(** ** Input in pieces *)

(** The beginning of a sequence. *)
Definition short (p : list Z) : Prop :=
  exists b t cnt v, p = b :: t /\ lead_ok b cnt v /\ Forall cont t /\ Z.of_nat (length p) < cnt.

(** The state holds the bytes [p]. *)
Definition kept (st : mbstate) (p : list Z) : Prop :=
  (p = [] /\ Z.land (count st) 7 = 0) \/
  (short p /\ UNPACK_BYTES st = Some p /\ Z.land (count st) 7 = Z.of_nat (length p)).

Lemma short_bytes p : short p -> Forall byte p /\ p <> [] /\ (length p <= 5)%nat.
Proof.
  intros (b & t & cnt & v & -> & Hl & Ht & Hn). destruct (lead_ok_ref _ _ _ Hl) as [_ Hb]. destruct Hl as (Hc & _).
  split; [|split; [discriminate | lia]]. constructor; [unfold byte; lia|]. eapply Forall_impl; [|exact Ht]. unfold cont, byte. intros; lia.
Qed.

Lemma short_scan p : short p -> utf8_scan p = Short.
Proof.
  intros Hp. pose proof (short_bytes p Hp) as (Hby & _ & _). destruct Hp as (b & t & cnt & v & -> & Hl & Ht & Hn). inversion Hby as [|? ? Hb Hby']; subst.
  destruct (scan_lead b cnt v t Hl Hb Hby') as [(t' & rest & -> & _ & Hlen)|[(_ & _ & E)|(H1 & _)]]; [|exact E|].
  - cbn [length] in Hn. rewrite length_app in Hn. lia.
  - pose proof (contlen_app t [] Ht) as E. rewrite app_nil_r in E. cbn [contlen] in E. lia.
Qed.

Lemma scan_short l : Forall byte l -> l <> [] -> utf8_scan l = Short -> short l.
Proof. intros Hb Hn E. pose proof (scan_app l [] Hb ltac:(constructor) Hn) as H. rewrite E in H. destruct H as [_ H]. exact H. Qed.

Section Pieces.
Context (fl : gflags) (strict : IGNORE_ERRORS fl = false).

Lemma decode_unfold fuel c : utf8_internal_loop fl (S fuel) c =
  match inp c with
  | [] => Some (GCONV_EMPTY_INPUT, c)
  | _ =>
      if room c <? 4 then Some (GCONV_FULL_OUTPUT, c)
      else
        match utf8_scan (inp c) with
        | Char ch n => utf8_internal_loop fl fuel (write (put32 ch) (advance n c))
        | Short => Some (GCONV_INCOMPLETE_INPUT, c)
        | Bad _ => Some (GCONV_ILLEGAL_INPUT, mark_illegal c)
        end
  end.
Proof using strict.
  unfold utf8_internal_loop. cbn [loop]. destruct (inp c) eqn:E; [reflexivity|]. change (1 <? 1) with false. cbn [andb].
  destruct (room c <? 4); [reflexivity|]. rewrite body_scan, <- E. destruct (utf8_scan (inp c)); try reflexivity.
  unfold STANDARD_FROM_LOOP_ERR_HANDLER, ignore_errors_p. rewrite strict. destruct (irr (mark_illegal c)); reflexivity.
Qed.

(** A character takes at least one byte. *)
Lemma scan_skip l ch n : Forall byte l -> l <> [] -> utf8_scan l = Char ch n -> Forall byte (skipn n l) /\ (length (skipn n l) < length l)%nat /\ (n <= length l)%nat.
Proof using Type.
  intros Hb Hn E. destruct (scan_char l ch n Hb Hn E) as (Hc & -> & El). destruct (length_encode ch Hc) as [Hl Hu].
  assert (length l = length (utf8_encode ch) + length (skipn (length (utf8_encode ch)) l))%nat by (rewrite El at 1; apply length_app).
  split; [|lia]. rewrite El in Hb. apply Forall_app in Hb as [_ Hb]. exact Hb.
Qed.

(** The loop ends, and what it leaves. *)
Lemma decode_total fuel : forall c, (length (inp c) < fuel)%nat -> Forall byte (inp c) ->
  exists r c', utf8_internal_loop fl fuel c = Some (r, c') /\ Forall byte (inp c') /\
    match r with
    | GCONV_EMPTY_INPUT => inp c' = []
    | GCONV_INCOMPLETE_INPUT => short (inp c')
    | GCONV_OK => False
    | _ => inp c' <> []
    end.
Proof using strict.
  induction fuel as [|fuel IH]; intros c Hf Hb; [lia|]. rewrite decode_unfold. destruct (inp c) as [|x l] eqn:Ei.
  - exists GCONV_EMPTY_INPUT, c. rewrite Ei. auto.
  - destruct (room c <? 4).
    + exists GCONV_FULL_OUTPUT, c. rewrite Ei. split; [reflexivity|]. split; [exact Hb | discriminate].
    + destruct (utf8_scan (x :: l)) as [ch n| |i] eqn:E.
      * destruct (scan_skip _ _ _ Hb ltac:(discriminate) E) as (Hb' & Hl & _). cbn [length] in Hf, Hl. apply IH; cbn [write advance inp]; rewrite Ei; [lia | exact Hb'].
      * exists GCONV_INCOMPLETE_INPUT, c. rewrite Ei. split; [reflexivity|]. split; [exact Hb|]. apply scan_short; [exact Hb | discriminate | exact E].
      * exists GCONV_ILLEGAL_INPUT, (mark_illegal c). split; [reflexivity|]. cbn [mark_illegal inp]. rewrite Ei. split; [exact Hb | discriminate].
Qed.

(** An end at the limit of the output or at an error does not depend on more input. *)
Lemma decode_stop fuel b : forall c r c', (length (inp c) < fuel)%nat -> Forall byte (inp c) -> Forall byte b -> utf8_internal_loop fl fuel c = Some (r, c') ->
  r = GCONV_FULL_OUTPUT \/ r = GCONV_ILLEGAL_INPUT -> utf8_internal_loop fl fuel (with_inp (inp c ++ b) c) = Some (r, with_inp (inp c' ++ b) c').
Proof using strict.
  induction fuel as [|fuel IH]; intros c r c' Hf Hb Hb' E Hr; [lia|]. rewrite decode_unfold in *. cbn [inp with_inp room]. destruct (inp c) as [|x l] eqn:Ei.
  - injection E as <- <-. destruct Hr; discriminate.
  - cbn [app]. destruct (room c <? 4).
    + injection E as <- <-. rewrite Ei. reflexivity.
    + pose proof (scan_app (x :: l) b Hb Hb' ltac:(discriminate)) as Hs. destruct (utf8_scan (x :: l)) as [ch n| |i] eqn:Es.
      * cbn [app] in Hs. rewrite Hs. destruct (scan_skip _ _ _ Hb ltac:(discriminate) Es) as (Hb'' & Hl & Hn). cbn [length] in Hf, Hl.
        specialize (IH (write (put32 ch) (advance n c)) r c'). cbn [write advance inp] in IH. rewrite Ei in IH. specialize (IH ltac:(lia) Hb'' Hb' E Hr).
        rewrite <- IH. f_equal. unfold write, advance, with_inp. cbn [inp out room irr seen]. f_equal.
        change (x :: l ++ b) with ((x :: l) ++ b). rewrite skipn_app. replace (n - length (x :: l))%nat with O by lia. reflexivity.
      * injection E as <- <-. destruct Hr; discriminate.
      * destruct Hs as [_ [j Hs]]. cbn [app] in Hs. rewrite Hs. injection E as <- <-. cbn [mark_illegal inp]. rewrite Ei. reflexivity.
Qed.

(** After the end of the input, or in a sequence, the loop goes on with the next piece. *)
Lemma decode_go fuel b g x : forall c r c', (length (inp c) < fuel)%nat -> Forall byte (inp c) -> Forall byte b -> utf8_internal_loop fl fuel c = Some (r, c') ->
  r = GCONV_EMPTY_INPUT \/ r = GCONV_INCOMPLETE_INPUT -> utf8_internal_loop fl g (with_inp (inp c' ++ b) c') = Some x ->
  utf8_internal_loop fl (fuel + g) (with_inp (inp c ++ b) c) = Some x.
Proof using strict.
  induction fuel as [|fuel IH]; intros c r c' Hf Hb Hb' E Hr Hx; [lia|]. rewrite decode_unfold in E.
  destruct (inp c) as [|y l] eqn:Ei.
  - injection E as <- <-. rewrite Ei in Hx. eapply (loop_fuel _ _ _ g); [lia | exact Hx].
  - destruct (Z.ltb_spec (room c) 4) as [H|H]; [injection E as <- <-; destruct Hr; discriminate|].
    pose proof (scan_app (y :: l) b Hb Hb' ltac:(discriminate)) as Hs. destruct (utf8_scan (y :: l)) as [ch n| |i] eqn:Es.
    + cbn [Nat.add]. rewrite decode_unfold. cbn [inp with_inp room app]. destruct (Z.ltb_spec (room c) 4); [lia|]. cbn [app] in Hs. rewrite Hs.
      destruct (scan_skip _ _ _ Hb ltac:(discriminate) Es) as (Hb'' & Hl & Hn). cbn [length] in Hf, Hl.
      specialize (IH (write (put32 ch) (advance n c)) r c'). cbn [write advance inp] in IH. rewrite Ei in IH. specialize (IH ltac:(lia) Hb'' Hb' E Hr Hx).
      rewrite <- IH. f_equal. unfold write, advance, with_inp. cbn [inp out room irr seen]. f_equal.
      change (y :: l ++ b) with ((y :: l) ++ b). rewrite skipn_app. replace (n - length (y :: l))%nat with O by lia. reflexivity.
    + injection E as <- <-. rewrite Ei in Hx. eapply (loop_fuel _ _ _ g); [lia | exact Hx].
    + injection E as <- <-. destruct Hr; discriminate.
Qed.

Lemma store_kept p : short p -> exists st, STORE_REST p = Some st /\ kept st p.
Proof using Type.
  intros Hp. destruct (Hp) as (b & t & cnt & v & -> & Hl & Ht & Hn). destruct (store_unpack b cnt v t Hl Ht Hn) as (st & E1 & E2 & E3).
  exists st. split; [exact E1|]. right. auto.
Qed.

(** A loop that begins without kept bytes, and what is then kept. *)
Lemma transform_loop fuel st c : Z.land (count st) 7 = 0 -> Forall byte (inp c) -> (length (inp c) < fuel)%nat ->
  exists r c' st' p' c'',
    utf8_internal_loop fl fuel c = Some (r, c') /\
    (let? (status, c) := utf8_internal_loop fl fuel c in
     match status with
     | GCONV_INCOMPLETE_INPUT => let? st := STORE_REST (inp c) in Some (status, st, with_inp [] c)
     | _ => Some (status, st, c)
     end) = Some (r, st', c'') /\
    kept st' p' /\ p' ++ inp c'' = inp c' /\ with_inp [] c'' = with_inp [] c' /\ (r = GCONV_EMPTY_INPUT \/ r = GCONV_INCOMPLETE_INPUT -> inp c'' = []).
Proof using strict.
  intros Hk Hb Hf. destruct (decode_total fuel c Hf Hb) as (r & c' & E & Hb' & Hr). rewrite E. exists r, c'.
  destruct (match r with GCONV_INCOMPLETE_INPUT => true | _ => false end) eqn:Ei.
  - destruct r; try discriminate. destruct (store_kept _ Hr) as (st' & Es & Hk'). rewrite Es. exists st', (inp c'), (with_inp [] c').
    cbn [inp with_inp]. rewrite app_nil_r. auto 10.
  - exists st, [], c'. split; [reflexivity|]. split; [destruct r; reflexivity || discriminate|]. split; [left; auto|]. split; [reflexivity|]. split; [reflexivity|].
    intros [-> | ->]; [exact Hr | discriminate].
Qed.

Lemma with_inp_id c : with_inp (inp c) c = c.
Proof using Type. destruct c. reflexivity. Qed.

(** The character that the kept bytes begin. *)
Lemma single_refines st p c : short p -> UNPACK_BYTES st = Some p -> Z.land (count st) 7 = Z.of_nat (length p) ->
  inp c <> [] -> Forall byte (inp c) -> 4 <= room c ->
  match utf8_scan (p ++ inp c) with
  | Char ch n => utf8_internal_single fl st c = Some (GCONV_OK, clear_state st, write (put32 ch) (with_inp (skipn n (p ++ inp c)) c))
  | Short => exists st', utf8_internal_single fl st c = Some (GCONV_INCOMPLETE_INPUT, st', with_inp [] c) /\ kept st' (p ++ inp c)
  | Bad _ => utf8_internal_single fl st c = Some (GCONV_ILLEGAL_INPUT, st, mark_illegal c)
  end.
Proof using strict.
  intros Hs Eu Hz Hn Hb Hr. destruct (short_bytes p Hs) as (Hpb & Hpn & Hp5). unfold utf8_internal_single. rewrite Eu, Hz.
  destruct (Z.ltb_spec (room c) 4); [lia|]. destruct (Nat.leb_spec 6 (length p)); [lia|].
  destruct (Nat.eqb_spec (length (inp c)) 0) as [Hi0|Hi0]; [destruct (inp c); [contradiction | discriminate]|]. cbn [orb].
  set (m := (6 - length p)%nat). set (buf := p ++ firstn m (inp c)).
  assert (Ebuf : p ++ inp c = buf ++ skipn m (inp c)) by (unfold buf; rewrite <- app_assoc, firstn_skipn; reflexivity).
  assert (Hbuf : Forall byte buf /\ Forall byte (skipn m (inp c))).
  { apply Forall_app. rewrite <- Ebuf. apply Forall_app. auto. }
  destruct Hbuf as [Hbb Hbr]. assert (Hbn : buf <> []) by (unfold buf; destruct p; [contradiction | discriminate]).
  assert (Hlb : length buf = (length p + Nat.min m (length (inp c)))%nat) by (unfold buf; rewrite length_app, length_firstn; reflexivity).
  pose proof (scan_app buf _ Hbb Hbr Hbn) as Ha. rewrite <- Ebuf in Ha. rewrite body_scan. cbn [with_inp inp].
  destruct (utf8_scan buf) as [ch n| |i] eqn:Es.
  - rewrite Ha. cbn [body_end]. destruct (scan_skip _ _ _ Hbb Hbn Es) as (_ & _ & Hnb).
    assert (Hgt : (length p < n)%nat).
    { destruct (Nat.le_gt_cases n (length p)) as [Hle|H']; [exfalso|exact H'].
      destruct (scan_char _ _ _ Hbb Hbn Es) as (Hc & En & Eb). assert (Ep : p = utf8_encode ch ++ skipn n p).
      { rewrite <- (firstn_skipn n p) at 1. f_equal. transitivity (firstn n buf); [unfold buf; rewrite firstn_app; replace (n - length p)%nat with O by lia; rewrite firstn_O, app_nil_r; reflexivity|].
        rewrite Eb, En, firstn_app, Nat.sub_diag, firstn_all, firstn_O, app_nil_r. reflexivity. }
      pose proof (short_scan p Hs) as Ex. rewrite Ep, scan_encode in Ex by exact Hc. discriminate. }
    cbn [write advance inp with_inp]. rewrite length_skipn.
    replace (Z.of_nat (length buf) - Z.of_nat (length buf - n)) with (Z.of_nat n) by lia.
    destruct (Z.eqb_spec (Z.of_nat n) 0); [lia|]. cbn [negb]. destruct (Z.ltb_spec (Z.of_nat (length p)) (Z.of_nat n)); [|lia]. cbn [negb].
    do 2 f_equal. unfold with_inp, write. cbn [inp out room irr seen]. f_equal. rewrite skipn_app, (skipn_all2 p) by lia. cbn [app]. f_equal. lia.
  - destruct Ha as [H5 Hsh]. assert (Hmin : Nat.min m (length (inp c)) = length (inp c)) by lia.
    assert (Ebi : buf = p ++ inp c) by (unfold buf; rewrite firstn_all2 by lia; reflexivity). rewrite <- Ebi, Es. cbn [body_end inp].
    rewrite Z.sub_diag. cbn [Z.eqb negb]. destruct (Nat.eqb_spec (length buf) 6); [lia|]. destruct (store_kept buf Hsh) as (st' & E1 & E2). rewrite E1. exists st'. split; [|exact E2].
    do 2 f_equal. unfold with_inp. cbn [inp out room irr seen]. f_equal. apply skipn_all2. lia.
  - destruct Ha as [_ [j ->]]. unfold STANDARD_FROM_LOOP_ERR_HANDLER, ignore_errors_p. rewrite strict.
    destruct (irr (mark_illegal _)); cbn [negb body_end inp mark_illegal]; rewrite Z.sub_diag; reflexivity.
Qed.

(** With bytes kept from the calls before, a call does what the loop does on those
    bytes and the new ones. *)
Lemma transform_refines fuel st p c : kept st p -> inp c <> [] -> Forall byte (inp c) -> (length p + length (inp c) < fuel)%nat ->
  exists r c' st' p' c'',
    utf8_internal_loop fl fuel (with_inp (p ++ inp c) c) = Some (r, c') /\
    transform_utf8_internal fl fuel true st c = Some (r, st', c'') /\
    kept st' p' /\ p' ++ inp c'' = inp c' /\ with_inp [] c'' = with_inp [] c' /\ (r = GCONV_EMPTY_INPUT \/ r = GCONV_INCOMPLETE_INPUT -> inp c'' = []).
Proof using strict.
  intros Hk Hn Hb Hf. unfold transform_utf8_internal. destruct Hk as [[-> Hz]|(Hs & Eu & Hz)].
  - rewrite Hz. cbn [Z.eqb negb andb app]. rewrite (with_inp_id c). apply (transform_loop fuel st c Hz Hb). exact Hf.
  - destruct (short_bytes p Hs) as (Hpb & Hpn & Hp5). assert (Hl0 : length p <> O) by (destruct p; [contradiction | discriminate]).
    assert (Hpl : Forall byte (p ++ inp c)) by (apply Forall_app; auto). assert (Hpln : p ++ inp c <> []) by (destruct p; [contradiction | discriminate]).
    destruct (Z.eqb_spec (Z.land (count st) 7) 0); [lia|]. cbn [negb andb].
    destruct fuel as [|fuel]; [lia|]. rewrite (decode_unfold fuel (with_inp (p ++ inp c) c)). cbn [inp with_inp room].
    assert (Hm : forall (A : Type) (x y : A), match p ++ inp c with [] => x | _ => y end = y) by (intros; destruct p; [contradiction | reflexivity]). rewrite Hm.
    destruct (Z.ltb_spec (room c) 4) as [Hr|Hr].
    + exists GCONV_FULL_OUTPUT, (with_inp (p ++ inp c) c), st, p, c. split; [reflexivity|].
      split; [unfold utf8_internal_single; rewrite Eu; destruct (Z.ltb_spec (room c) 4); [reflexivity | lia]|]. split; [right; auto|].
      split; [reflexivity|]. split; [reflexivity|]. intros []; discriminate.
    + pose proof (single_refines st p c Hs Eu Hz Hn Hb Hr) as H1. destruct (utf8_scan (p ++ inp c)) as [ch m| |i] eqn:Es.
      * rewrite H1. destruct (scan_skip _ _ _ Hpl Hpln Es) as (Hb' & Hl & _). rewrite length_app in Hl.
        assert (Ead : write (put32 ch) (advance m (with_inp (p ++ inp c) c)) = write (put32 ch) (with_inp (skipn m (p ++ inp c)) c)) by reflexivity. rewrite Ead.
        destruct (transform_loop (S fuel) (clear_state st) (write (put32 ch) (with_inp (skipn m (p ++ inp c)) c)) eq_refl Hb' ltac:(cbn [write with_inp inp]; lia)) as (r & c' & st' & p' & c'' & T1 & T).
        exists r, c', st', p', c''. split; [|exact T].
        destruct (decode_total fuel (write (put32 ch) (with_inp (skipn m (p ++ inp c)) c)) ltac:(cbn [write with_inp inp]; lia) Hb') as (r2 & c2 & T2 & _).
        pose proof (loop_fuel _ _ _ fuel (S fuel) ltac:(lia) _ _ _ T2) as T3. unfold utf8_internal_loop in *. congruence.
      * destruct H1 as (st' & H1 & Hk'). rewrite H1. exists GCONV_INCOMPLETE_INPUT, (with_inp (p ++ inp c) c), st', (p ++ inp c), (with_inp [] c).
        cbn [inp with_inp]. rewrite app_nil_r. auto 10.
      * rewrite H1. exists GCONV_ILLEGAL_INPUT, (mark_illegal (with_inp (p ++ inp c) c)), st, p, (mark_illegal c). split; [reflexivity|]. split; [reflexivity|].
        split; [right; auto|]. split; [reflexivity|]. split; [reflexivity|]. intros []; discriminate.
Qed.

(** What is left is not longer than the input; there was room when a sequence is cut. *)
Lemma decode_left fuel : forall c r c', Forall byte (inp c) -> utf8_internal_loop fl fuel c = Some (r, c') ->
  (length (inp c') <= length (inp c))%nat /\ (r = GCONV_INCOMPLETE_INPUT -> 4 <= room c').
Proof using strict.
  induction fuel as [|fuel IH]; intros c r c' Hb E; [discriminate|]. rewrite decode_unfold in E. destruct (inp c) as [|x l] eqn:Ei.
  - injection E as <- <-. rewrite Ei. split; [lia | discriminate].
  - destruct (Z.ltb_spec (room c) 4) as [H|H]; [injection E as <- <-; rewrite Ei; split; [lia | discriminate]|].
    destruct (utf8_scan (x :: l)) as [ch n| |i] eqn:Es.
    + destruct (scan_skip _ _ _ Hb ltac:(discriminate) Es) as (Hb' & Hl & _). apply IH in E; cbn [write advance inp] in *; rewrite Ei in *; [|exact Hb'].
      split; [lia | tauto].
    + injection E as <- <-. rewrite Ei. split; [lia | intros _; exact H].
    + injection E as <- <-. cbn [mark_illegal inp]. rewrite Ei. split; [lia | discriminate].
Qed.

(** The input in pieces, one call each, as long as the calls take all of it. *)
Fixpoint feed (fuel : nat) (pieces : list (list Z)) (r : status) (st : mbstate) (c : cursor) : option (status * mbstate * cursor) :=
  match pieces with
  | [] => Some (r, st, c)
  | l :: pieces =>
      let? (r, st, c) := transform_utf8_internal fl fuel true st (with_inp l c) in
      match r with GCONV_EMPTY_INPUT | GCONV_INCOMPLETE_INPUT => feed fuel pieces r st c | _ => Some (r, st, c) end
  end.

Lemma feed_refines fuel : forall pieces r0 st p c, kept st p -> (p = [] /\ r0 = GCONV_EMPTY_INPUT) \/ (short p /\ r0 = GCONV_INCOMPLETE_INPUT /\ 4 <= room c) ->
  inp c = [] -> Forall (fun l => l <> [] /\ Forall byte l) pieces -> (length p + length (concat pieces) < fuel)%nat ->
  exists r c' st' p' c'',
    utf8_internal_loop fl fuel (with_inp (p ++ concat pieces) c) = Some (r, c') /\ feed fuel pieces r0 st c = Some (r, st', c'') /\
    kept st' p' /\ (exists rest, p' ++ inp c'' ++ rest = inp c') /\ with_inp [] c'' = with_inp [] c'.
Proof using strict.
  induction pieces as [|l pieces IH]; intros r0 st p c Hk Hp Hc Hpc Hf.
  - cbn [concat feed]. rewrite app_nil_r. cbn [concat length] in Hf. destruct fuel as [|fuel]; [lia|]. rewrite decode_unfold. cbn [inp with_inp room].
    destruct Hp as [[-> ->]|(Hs & -> & Hr)].
    + exists GCONV_EMPTY_INPUT, (with_inp [] c), st, [], c. split; [reflexivity|]. split; [reflexivity|]. split; [exact Hk|]. split; [exists []; rewrite Hc; reflexivity | reflexivity].
    + exists GCONV_INCOMPLETE_INPUT, (with_inp p c), st, p, c. pose proof (short_scan p Hs) as Es. destruct (short_bytes p Hs) as (_ & Hn & _).
      destruct p as [|x p]; [contradiction|]. destruct (Z.ltb_spec (room c) 4); [lia|]. rewrite Es.
      split; [reflexivity|]. split; [reflexivity|]. split; [exact Hk|]. split; [exists []; rewrite Hc, !app_nil_r; reflexivity | reflexivity].
  - inversion Hpc as [|? ? [Hn Hb] Hpc']; subst. cbn [concat] in *. rewrite length_app in Hf. rewrite app_assoc. cbn [feed].
    assert (Hbc : Forall byte (concat pieces)) by (apply Forall_concat; eapply Forall_impl; [|exact Hpc']; cbn beta; tauto).
    assert (Hbp : Forall byte p) by (destruct Hp as [[-> _]|[Hs _]]; [constructor | apply (short_bytes p Hs)]).
    assert (Hbl : Forall byte (p ++ l)) by (apply Forall_app; auto).
    destruct (transform_refines fuel st p (with_inp l c) Hk Hn Hb ltac:(cbn [inp with_inp]; lia)) as (r1 & c1 & st1 & p1 & c2 & L1 & T1 & K1 & A1 & W1 & N1).
    cbn [inp with_inp] in L1. change (with_inp (p ++ l) (with_inp l c)) with (with_inp (p ++ l) c) in L1. rewrite T1.
    destruct (decode_total fuel (with_inp (p ++ l) c) ltac:(cbn [inp with_inp]; rewrite length_app; lia) Hbl) as (r1' & c1' & L1' & Hb1 & Hr1).
    rewrite L1 in L1'. injection L1' as <- <-. destruct (decode_left fuel (with_inp (p ++ l) c) _ _ Hbl L1) as [Hlen Hroom]. cbn [inp with_inp] in Hlen. rewrite length_app in Hlen.
    assert (Hfields : forall y, with_inp y c2 = with_inp y c1) by (intros y; unfold with_inp in *; congruence).
    destruct (match r1 with GCONV_EMPTY_INPUT | GCONV_INCOMPLETE_INPUT => true | _ => false end) eqn:Er.
    + assert (Hr : r1 = GCONV_EMPTY_INPUT \/ r1 = GCONV_INCOMPLETE_INPUT) by (destruct r1; auto; discriminate).
      specialize (N1 Hr). rewrite N1, app_nil_r in A1. subst p1.
      assert (Hst : (inp c1 = [] /\ r1 = GCONV_EMPTY_INPUT) \/ (short (inp c1) /\ r1 = GCONV_INCOMPLETE_INPUT /\ 4 <= room c2)).
      { assert (room c2 = room c1) as -> by (unfold with_inp in W1; congruence). destruct Hr as [-> | ->]; auto. }
      destruct (IH r1 st1 (inp c1) c2 K1 Hst N1 Hpc' ltac:(lia)) as (r & c' & st' & p' & c'' & L2 & F2 & K2 & A2 & W2).
      exists r, c', st', p', c''. split; [|destruct Hr as [-> | ->]; auto].
      rewrite Hfields in L2. pose proof (decode_go fuel (concat pieces) fuel (r, c') (with_inp (p ++ l) c) r1 c1
        ltac:(cbn [inp with_inp]; rewrite length_app; lia) Hbl Hbc L1 Hr L2) as G. cbn [inp with_inp] in G.
      destruct (decode_total fuel (with_inp ((p ++ l) ++ concat pieces) c) ltac:(cbn [inp with_inp]; rewrite !length_app; lia) ltac:(apply Forall_app; auto)) as (r3 & c3 & L3 & _).
      pose proof (loop_fuel _ _ _ fuel (fuel + fuel) ltac:(lia) _ _ _ L3) as L4. unfold utf8_internal_loop in *.
      change (with_inp ((p ++ l) ++ concat pieces) (with_inp (p ++ l) c)) with (with_inp ((p ++ l) ++ concat pieces) c) in G. congruence.
    + assert (Hr : r1 = GCONV_FULL_OUTPUT \/ r1 = GCONV_ILLEGAL_INPUT) by (destruct r1; auto; contradiction || discriminate).
      exists r1, (with_inp (inp c1 ++ concat pieces) c1), st1, p1, c2.
      pose proof (decode_stop fuel (concat pieces) (with_inp (p ++ l) c) r1 c1 ltac:(cbn [inp with_inp]; rewrite length_app; lia) Hbl Hbc L1 Hr) as G.
      split; [exact G|]. split; [destruct Hr as [-> | ->]; reflexivity|]. split; [exact K1|]. split; [|rewrite W1; reflexivity].
      exists (concat pieces). cbn [inp with_inp]. rewrite app_assoc, A1. reflexivity.
Qed.
End Pieces.

(** ** Words of a fixed length *)

Lemma get16_put16 x rest : 0 <= x < 2 ^ 16 -> get16 (put16 x ++ rest) = x.
Proof.
  intros H. unfold get16, put16. cbn [app nth]. rewrite !land_255, Z.shiftr_div_pow2 by lia. change (2 ^ 8) with 256.
  pose proof (Z.div_mod x 256 ltac:(lia)). rewrite (Z.mod_small (x / 256)) by (split; [apply Z.div_pos | apply Z.div_lt_upper_bound]; lia). lia.
Qed.

Lemma bswap_16_spec x : 0 <= x < 2 ^ 16 -> bswap_16 x = (x mod 256) * 256 + x / 256.
Proof.
  intros H. unfold bswap_16. rewrite !land_255, Z.shiftr_div_pow2, Z.shiftl_mul_pow2 by lia. change (2 ^ 8) with 256.
  assert (0 <= x / 256 < 256) by (split; [apply Z.div_pos | apply Z.div_lt_upper_bound]; lia). rewrite (Z.mod_small (x / 256)) by lia.
  rewrite Z.lor_comm. exact (lor_add_low (x mod 256) (x / 256) 8 ltac:(lia) ltac:(change (2 ^ 8) with 256; lia)).
Qed.

Lemma bswap_16_range x : 0 <= x < 2 ^ 16 -> 0 <= bswap_16 x < 2 ^ 16.
Proof.
  intros H. rewrite bswap_16_spec by exact H. pose proof (Z.mod_pos_bound x 256 ltac:(lia)).
  assert (0 <= x / 256 < 256) by (split; [apply Z.div_pos | apply Z.div_lt_upper_bound]; lia). lia.
Qed.

Lemma bswap_16_involutive x : 0 <= x < 2 ^ 16 -> bswap_16 (bswap_16 x) = x.
Proof.
  intros H. rewrite (bswap_16_spec (bswap_16 x)) by (apply bswap_16_range; exact H). rewrite (bswap_16_spec x H).
  pose proof (Z.mod_pos_bound x 256 ltac:(lia)). assert (0 <= x / 256 < 256) by (split; [apply Z.div_pos | apply Z.div_lt_upper_bound]; lia).
  rewrite Z.div_add_l, (Z.div_small (x / 256)) by lia. rewrite (Z.add_comm (x mod 256 * 256)), Z.mod_add, (Z.mod_small (x / 256)) by lia. pose proof (Z.div_mod x 256 ltac:(lia)). lia.
Qed.

(** A body that turns [A x] into [B x], for the characters [P]. *)
Definition converts (P : Z -> Prop) (A B : Z -> list Z) (body : status -> cursor -> control) : Prop :=
  forall r c x rest, P x -> inp c = A x ++ rest -> body r c = Continue r (write (B x) (with_inp rest c)).

Lemma loop_run (P : Z -> Prop) A B body mi mo : converts P A B body -> 0 < mi -> (forall x, Z.of_nat (length (A x)) = mi) -> (forall x, Z.of_nat (length (B x)) = mo) ->
  forall fuel xs c, (length xs < fuel)%nat -> Forall P xs -> inp c = concat (map A xs) ->
  let k := fitting (fun _ => mo) (room c) xs in
  loop mi mo body fuel GCONV_EMPTY_INPUT c =
    Some (if Nat.eqb k (length xs) then GCONV_EMPTY_INPUT else GCONV_FULL_OUTPUT,
          write (concat (map B (firstn k xs))) (with_inp (concat (map A (skipn k xs))) c)).
Proof.
  intros Hbody Hmi HA HB. induction fuel as [|fuel IH]; intros xs c Hf Hx Hi; [lia|]. destruct xs as [|x xs]; cbn [loop].
  - rewrite Hi. cbn [fitting length Nat.eqb firstn skipn map concat]. rewrite write_nothing by exact Hi. reflexivity.
  - cbn [map concat] in Hi. inversion Hx as [|? ? Hpx Hx']; subst. rewrite Hi.
    assert (Hm : forall (T : Type) (a b : T), match A x ++ concat (map A xs) with [] => a | _ => b end = b).
    { intros. specialize (HA x). destruct (A x); [cbn in HA; lia | reflexivity]. }
    rewrite Hm. assert ((Z.of_nat (length (A x ++ concat (map A xs))) <? mi) = false) as -> by (apply Z.ltb_ge; rewrite length_app; specialize (HA x); lia).
    rewrite andb_false_r. cbn [fitting]. destruct (Z.ltb_spec (room c) mo) as [H|H].
    + cbn [Nat.eqb length firstn skipn map concat]. rewrite write_nothing by exact Hi. reflexivity.
    + rewrite (Hbody _ c x _ Hpx Hi). rewrite IH with (xs := xs) by (cbn [length] in Hf; try lia; try assumption; reflexivity).
      cbn [room write with_inp]. rewrite HB. cbn [Nat.eqb length firstn skipn map concat]. do 2 f_equal. unfold write, with_inp. cbn [inp out room irr seen].
      rewrite HB. f_equal; [symmetry; apply app_assoc | rewrite length_app, Nat2Z.inj_add, HB; lia].
Qed.

(** The characters of ASCII and of UCS-2. *)
Definition is_ascii (x : Z) : Prop := 0 <= x < 128.
Definition is_ucs2 (x : Z) : Prop := 0 <= x < 65536 /\ ~ (55296 <= x < 57344).

Ltac converts_by E :=
  unfold advance, with_inp, write in *; cbn [inp out room irr seen] in *; rewrite ?E; reflexivity.

Lemma ascii_internal_converts fl : converts is_ascii (fun x => [x]) put32 (ascii_internal_body fl).
Proof.
  intros r c x rest Hx E. unfold is_ascii, ascii_internal_body in *. rewrite E. cbn [app nth]. destruct (Z.ltb_spec 127 x); [lia|]. converts_by E.
Qed.

Lemma internal_ascii_converts fl tr : converts is_ascii put32 (fun x => [x]) (internal_ascii_body fl tr).
Proof.
  intros r c x rest Hx E. unfold is_ascii, internal_ascii_body in *. rewrite E, get32_put32 by lia. destruct (Z.ltb_spec 127 x); [lia|].
  rewrite land_255, Z.mod_small by lia. converts_by E.
Qed.

Lemma ucs2_internal_converts fl : converts is_ucs2 put16 put32 (ucs2_internal_body fl).
Proof.
  intros r c x rest Hx E. unfold is_ucs2, ucs2_internal_body in *. rewrite E, get16_put16 by lia.
  assert ((55296 <=? x) && (x <? 57344) = false) as -> by lia. converts_by E.
Qed.

Lemma internal_ucs2_converts fl tr : converts is_ucs2 put32 put16 (internal_ucs2_body fl tr).
Proof.
  intros r c x rest Hx E. unfold is_ucs2, internal_ucs2_body in *. rewrite E, get32_put32 by lia. destruct (Z.leb_spec 65536 x); [lia|].
  assert ((55296 <=? x) && (x <? 57344) = false) as -> by lia. converts_by E.
Qed.

Lemma ucs2reverse_internal_converts fl : converts is_ucs2 (fun x => put16 (bswap_16 x)) put32 (ucs2reverse_internal_body fl).
Proof.
  intros r c x rest Hx E. unfold is_ucs2, ucs2reverse_internal_body in *. rewrite E, get16_put16 by (apply bswap_16_range; lia).
  rewrite bswap_16_involutive by lia. assert ((55296 <=? x) && (x <? 57344) = false) as -> by lia. converts_by E.
Qed.

Lemma internal_ucs2reverse_converts fl tr : converts is_ucs2 put32 (fun x => put16 (bswap_16 x)) (internal_ucs2reverse_body fl tr).
Proof.
  intros r c x rest Hx E. unfold is_ucs2, internal_ucs2reverse_body in *. rewrite E, get32_put32 by lia. destruct (Z.leb_spec 65536 x); [lia|].
  assert ((55296 <=? x) && (x <? 57344) = false) as -> by lia. converts_by E.
Qed.

(** ** UCS-4 *)

Lemma land_byte x : byte (Z.land x 255).
Proof. unfold byte. rewrite land_255. apply Z.mod_pos_bound. lia. Qed.

Lemma bswap_32_spec x : 0 <= x < 2 ^ 32 -> bswap_32 x = get32 (rev (put32 x)).
Proof.
  intros H. unfold bswap_32.
  rewrite (Z.shiftr_land x 4278190080 24), (Z.shiftr_land x 16711680 8). change (Z.shiftr 4278190080 24) with 255. change (Z.shiftr 16711680 8) with (Z.shiftl 255 8).
  assert (E1 : Z.shiftl (Z.land x 65280) 8 = Z.shiftl (Z.land (Z.shiftr x 8) 255) 16).
  { apply Z.bits_inj'. intros i Hi. rewrite !Z.shiftl_spec, !Z.land_spec by lia. change 65280 with (Z.shiftl 255 8).
    destruct (Z.ltb_spec i 16).
    - rewrite (Z.testbit_neg_r 255 (i - 16)) by lia. rewrite andb_false_r. destruct (Z.ltb_spec i 8); [rewrite (Z.testbit_neg_r _ (i - 8)) by lia; reflexivity|].
      rewrite Z.shiftl_spec, (Z.testbit_neg_r 255 (i - 8 - 8)) by lia. apply andb_false_r.
    - rewrite Z.shiftl_spec, Z.shiftr_spec by lia. f_equal; f_equal; lia. }
  assert (E2 : Z.land (Z.shiftr x 8) (Z.shiftl 255 8) = Z.shiftl (Z.land (Z.shiftr x 16) 255) 8).
  { apply Z.bits_inj'. intros i Hi. rewrite Z.land_spec, !Z.shiftl_spec, Z.land_spec by lia. destruct (Z.ltb_spec i 8).
    - rewrite (Z.testbit_neg_r 255 (i - 8)) by lia. rewrite !andb_false_r. reflexivity.
    - rewrite !Z.shiftr_spec by lia. f_equal; f_equal; lia. }
  rewrite E1, E2. unfold get32, put32. cbn [rev app nth]. rewrite !land_255.
  pose proof (Z.mod_pos_bound x 256 ltac:(lia)) as B0. pose proof (Z.mod_pos_bound (Z.shiftr x 8) 256 ltac:(lia)) as B1.
  pose proof (Z.mod_pos_bound (Z.shiftr x 16) 256 ltac:(lia)) as B2. pose proof (Z.mod_pos_bound (Z.shiftr x 24) 256 ltac:(lia)) as B3.
  set (b0 := x mod 256) in *. set (b1 := Z.shiftr x 8 mod 256) in *. set (b2 := Z.shiftr x 16 mod 256) in *. set (b3 := Z.shiftr x 24 mod 256) in *.
  rewrite !Z.shiftl_mul_pow2 by lia. rewrite (Z.lor_comm b3), (lor_add_low b2 b3 8) by lia.
  rewrite (Z.lor_comm (b1 * 2 ^ 16)), (lor_add_low b0 (b1 * 2 ^ 16) 24) by lia.
  rewrite Z.lor_comm. replace (b0 * 2 ^ 24 + b1 * 2 ^ 16) with ((b0 * 2 ^ 8 + b1) * 2 ^ 16) by lia. rewrite lor_add_low by lia. lia.
Qed.

Lemma put32_get32 a b c d : byte a -> byte b -> byte c -> byte d -> put32 (get32 [a; b; c; d]) = [a; b; c; d].
Proof.
  unfold byte, put32, get32. cbn [nth]. intros Ha Hb Hc Hd. rewrite !land_255, !Z.shiftr_div_pow2 by lia.
  change (2 ^ 8) with 256. change (2 ^ 16) with 65536. change (2 ^ 24) with 16777216.
  set (v := a + 256 * b + 65536 * c + 16777216 * d).
  assert (E1 : v / 256 = b + 256 * c + 65536 * d) by (symmetry; apply (Z.div_unique v 256 _ a); lia).
  assert (E2 : v / 65536 = c + 256 * d) by (symmetry; apply (Z.div_unique v 65536 _ (a + 256 * b)); lia).
  assert (E3 : v / 16777216 = d) by (symmetry; apply (Z.div_unique v 16777216 _ (a + 256 * b + 65536 * c)); lia).
  rewrite E1, E2, E3. repeat f_equal.
  - symmetry. apply (Z.mod_unique v 256 (b + 256 * c + 65536 * d)); lia.
  - symmetry. apply (Z.mod_unique _ 256 (c + 256 * d)); lia.
  - symmetry. apply (Z.mod_unique _ 256 d); lia.
  - apply Z.mod_small. lia.
Qed.

Lemma put32_bswap x : 0 <= x < 2 ^ 32 -> put32 (bswap_32 x) = rev (put32 x).
Proof.
  intros H. rewrite bswap_32_spec by exact H. unfold put32 at 2 3. cbn [rev app]. apply put32_get32; apply land_byte.
Qed.

(** The bytes of a character in UCS-4. *)
Definition ucs4 (swap : bool) (x : Z) : list Z := if swap then rev (put32 x) else put32 x.

Lemma bswap_32_range x : 0 <= x < 2 ^ 32 -> 0 <= bswap_32 x < 2 ^ 32.
Proof.
  intros H. rewrite bswap_32_spec by exact H. unfold put32, get32. cbn [rev app nth].
  pose proof (land_byte x). pose proof (land_byte (Z.shiftr x 8)). pose proof (land_byte (Z.shiftr x 16)). pose proof (land_byte (Z.shiftr x 24)).
  unfold byte in *. lia.
Qed.

Lemma bswap_32_involutive x : 0 <= x < 2 ^ 32 -> bswap_32 (bswap_32 x) = x.
Proof.
  intros H. rewrite bswap_32_spec, put32_bswap, rev_involutive by (try apply bswap_32_range; exact H).
  rewrite <- (app_nil_r (put32 x)). apply get32_put32. exact H.
Qed.

Lemma fitting_four xs : forall n, 0 <= n -> fitting (fun _ : Z => 4) n xs = Nat.min (length xs) (Z.to_nat (n / 4)).
Proof.
  induction xs as [|x xs IH]; intros n Hn; [reflexivity|]. cbn [fitting length]. destruct (Z.ltb_spec n 4) as [H|H].
  - rewrite Z.div_small by lia. reflexivity.
  - rewrite IH by lia. replace (n / 4) with (Z.succ ((n - 4) / 4)) by (pose proof (Z.div_add (n - 4) 1 4 ltac:(lia)) as E; replace (n - 4 + 1 * 4) with n in E by lia; lia).
    rewrite Z2Nat.inj_succ by (apply Z.div_pos; lia). reflexivity.
Qed.

Definition is_ucs4 (x : Z) : Prop := 0 <= x <= 2147483647.

Lemma ucs4_copy_run swap k : forall xs c, Forall is_ucs4 xs -> (k <= length xs)%nat -> inp c = concat (map put32 xs) ->
  ucs4_copy k swap c = write (concat (map (ucs4 swap) (firstn k xs))) (with_inp (concat (map put32 (skipn k xs))) c).
Proof.
  induction k as [|k IH]; intros xs c Hx Hk Hi; cbn [ucs4_copy firstn skipn map concat].
  - rewrite write_nothing by exact Hi. reflexivity.
  - destruct xs as [|x xs]; [cbn in Hk; lia|]. inversion Hx as [|? ? Hx0 Hx']; subst. unfold is_ucs4 in Hx0. cbn [map concat] in Hi. cbn [length] in Hk.
    rewrite Hi, get32_put32 by lia. rewrite (IH xs) by (try assumption; try lia; cbn [write advance inp]; rewrite Hi; reflexivity).
    cbn [map concat skipn]. unfold write, advance, with_inp. cbn [inp out room irr seen]. f_equal.
    + rewrite <- app_assoc. do 2 f_equal. unfold ucs4. destruct swap; [apply put32_bswap; lia | reflexivity].
    + rewrite length_app. unfold ucs4. destruct swap; cbn [put32 rev app length]; lia.
Qed.

Lemma internal_ucs4_run swap xs c : Forall is_ucs4 xs -> 0 <= room c -> inp c = concat (map put32 xs) ->
  let k := fitting (fun _ => 4) (room c) xs in
  internal_ucs4_loop swap c =
    (if Nat.eqb k (length xs) then GCONV_EMPTY_INPUT else GCONV_FULL_OUTPUT,
     write (concat (map (ucs4 swap) (firstn k xs))) (with_inp (concat (map put32 (skipn k xs))) c)).
Proof.
  intros Hx Hr Hi k. assert (Hlen : forall ys, length (concat (map put32 ys)) = (4 * length ys)%nat).
  { induction ys as [|y ys IH]; [reflexivity|]. cbn [map concat]. rewrite length_put32, IH. cbn [length]. lia. }
  assert (Hlen' : forall ys, length (concat (map (ucs4 swap) ys)) = (4 * length ys)%nat).
  { induction ys as [|y ys IH]; [reflexivity|]. cbn [map concat]. rewrite length_app, IH. unfold ucs4. destruct swap; cbn [put32 rev app length]; lia. }
  unfold internal_ucs4_loop. assert (Hk : Z.to_nat (Z.quot (Z.min (Z.of_nat (length (inp c))) (room c)) 4) = k).
  { unfold k. rewrite fitting_four by exact Hr. rewrite Hi, Hlen, Z.quot_div_nonneg by lia.
    pose proof (Z.div_mod (room c) 4 ltac:(lia)). pose proof (Z.mod_pos_bound (room c) 4 ltac:(lia)).
    destruct (Z.le_ge_cases (Z.of_nat (4 * length xs)) (room c)).
    - rewrite Z.min_l by lia. replace (Z.of_nat (4 * length xs)) with (Z.of_nat (length xs) * 4) by lia. rewrite Z.div_mul by lia. lia.
    - rewrite Z.min_r by lia. lia. }
  rewrite Hk. assert (Hkl : (k <= length xs)%nat) by (unfold k; rewrite fitting_four by exact Hr; lia).
  rewrite (ucs4_copy_run swap k xs c Hx Hkl Hi). cbn [write with_inp inp room]. f_equal. destruct (Nat.eqb_spec k (length xs)) as [E|E].
  - rewrite E, skipn_all. reflexivity.
  - destruct (concat (map put32 (skipn k xs))) as [|y ys] eqn:Es; [apply (f_equal (@length Z)) in Es; rewrite Hlen, length_skipn in Es; cbn in Es; lia|].
    rewrite Hlen', length_firstn. destruct (Z.ltb_spec (room c - Z.of_nat (4 * Nat.min k (length xs))) 4) as [H|H]; [reflexivity|].
    unfold k in *. rewrite fitting_four in * by exact Hr. pose proof (Z.div_mod (room c) 4 ltac:(lia)). pose proof (Z.mod_pos_bound (room c) 4 ltac:(lia)). lia.
Qed.

Lemma ucs4_read_run fl swap fuel : forall xs c, (length xs < fuel)%nat -> Forall is_ucs4 xs -> inp c = concat (map (ucs4 swap) xs) ->
  let k := fitting (fun _ => 4) (room c) xs in
  ucs4_read fl fuel swap c = Some (None, write (concat (map put32 (firstn k xs))) (with_inp (concat (map (ucs4 swap) (skipn k xs))) c)) /\
  ((k < length xs)%nat -> room c - 4 * Z.of_nat k < 4).
Proof.
  induction fuel as [|fuel IH]; intros xs c Hf Hx Hi; [lia|]. cbn [ucs4_read]. destruct xs as [|x xs].
  - rewrite Hi. cbn [map concat length Z.of_nat Z.leb Z.compare andb fitting firstn skipn]. rewrite write_nothing by exact Hi. split; [reflexivity | lia].
  - inversion Hx as [|? ? Hx0 Hx']; subst. unfold is_ucs4 in Hx0. cbn [map concat length] in *.
    assert (Hu : ucs4 swap x = put32 (if swap then bswap_32 x else x)) by (unfold ucs4; destruct swap; [symmetry; apply put32_bswap; lia | reflexivity]).
    assert (Hr : 0 <= (if swap then bswap_32 x else x) < 2 ^ 32) by (destruct swap; [apply bswap_32_range; lia | lia]).
    rewrite Hi, Hu, length_put32, get32_put32 by exact Hr.
    assert ((if swap then bswap_32 (if swap then bswap_32 x else x) else (if swap then bswap_32 x else x)) = x) as -> by (destruct swap; [apply bswap_32_involutive; lia | reflexivity]).
    destruct (Z.leb_spec 4 (Z.of_nat (4 + length (concat (map (ucs4 swap) xs))))); [|lia]. cbn [fitting andb].
    destruct (Z.leb_spec 4 (room c)) as [H4|H4].
    + destruct (Z.ltb_spec (room c) 4); [lia|]. destruct (Z.ltb_spec 2147483647 x); [lia|].
      destruct (IH xs (advance 4 (write (put32 x) c))) as [IH1 IH2]; [lia | exact Hx' | cbn [advance write inp]; rewrite Hi, Hu; reflexivity|].
      rewrite IH1. cbn [advance write room inp] in IH2 |- *. change (Z.of_nat (length (put32 x))) with 4 in *. cbn [firstn skipn map concat].
      split; [|intros Hk; specialize (IH2 ltac:(lia)); lia]. do 2 f_equal. unfold write, advance, with_inp. cbn [inp out room irr seen].
      f_equal; [symmetry; apply app_assoc | rewrite length_put32; change (Z.of_nat (length (put32 x))) with 4; lia].
    + destruct (Z.ltb_spec (room c) 4); [|lia]. cbn [firstn skipn map concat]. rewrite write_nothing by (rewrite Hi; reflexivity). split; [reflexivity | lia].
Qed.

Lemma ucs4_internal_run fl swap fuel xs c : (length xs < fuel)%nat -> Forall is_ucs4 xs -> 0 <= room c -> inp c = concat (map (ucs4 swap) xs) ->
  let k := fitting (fun _ => 4) (room c) xs in
  ucs4_internal_loop fl fuel swap c =
    Some (if Nat.eqb k (length xs) then GCONV_EMPTY_INPUT else GCONV_FULL_OUTPUT,
          write (concat (map put32 (firstn k xs))) (with_inp (concat (map (ucs4 swap) (skipn k xs))) c)).
Proof.
  intros Hf Hx Hr Hi k. destruct (ucs4_read_run fl swap fuel xs c Hf Hx Hi) as [E Hk]. fold k in E, Hk. unfold ucs4_internal_loop. rewrite E. do 2 f_equal.
  assert (Hkl : (k <= length xs)%nat) by (unfold k; rewrite fitting_four by exact Hr; lia).
  assert (Hl32 : length (concat (map put32 (firstn k xs))) = (4 * k)%nat).
  { rewrite <- (firstn_length_le xs Hkl) at 2. generalize (firstn k xs). intros l. induction l as [|y l IH]; [reflexivity|]. cbn [map concat]. rewrite length_put32, IH. cbn [length]. lia. }
  cbn [write with_inp inp room]. rewrite Hl32. destruct (Nat.eqb_spec k (length xs)) as [Ek|Ek]; [rewrite Ek, skipn_all; reflexivity|].
  specialize (Hk ltac:(lia)). destruct (skipn k xs) as [|y ys] eqn:Es; [apply (f_equal (@length Z)) in Es; rewrite length_skipn in Es; cbn in Es; lia|].
  cbn [map concat]. assert (Hy : length (ucs4 swap y) = 4%nat) by (unfold ucs4; destruct swap; reflexivity).
  destruct (ucs4 swap y ++ concat (map (ucs4 swap) ys)) as [|z zs] eqn:Ez; [apply (f_equal (@length Z)) in Ez; rewrite length_app in Ez; cbn in Ez; lia|].
  rewrite <- Ez, length_app, Hy. destruct swap.
  - destruct (Z.ltb_spec (room c - Z.of_nat (4 * k)) 4); [reflexivity | lia].
  - destruct (Z.ltb_spec (Z.of_nat (4 + length (concat (map (ucs4 false) ys)))) 4); [lia | reflexivity].
Qed.

(** ** Properties *)

Definition start (l : list Z) (n : Z) : cursor := {| inp := l; out := []; room := n; irr := Some 0; seen := false |}.

(** The conversion of [xs] from the internal format into [n] bytes and back: [to]
    converts as many characters as there is room for, and [from] gives them back. *)
Definition round_trip (to from : nat -> cursor -> option (status * cursor)) (enc : Z -> list Z) (fuel : nat) (xs : list Z) (n : Z) : Prop :=
  exists k c1 c2,
    to fuel (start (concat (map put32 xs)) n) = Some (if Nat.eqb k (length xs) then GCONV_EMPTY_INPUT else GCONV_FULL_OUTPUT, c1) /\
    (k <= length xs)%nat /\ out c1 = concat (map enc (firstn k xs)) /\ inp c1 = concat (map put32 (skipn k xs)) /\
    Z.of_nat (length (out c1)) <= n /\ ((k < length xs)%nat -> n < Z.of_nat (length (out c1 ++ enc (nth k xs 0)))) /\
    from fuel (start (out c1) (4 * Z.of_nat k)) = Some (GCONV_EMPTY_INPUT, c2) /\ inp c2 = [] /\ out c2 = concat (map put32 (firstn k xs)).

Lemma fitting_spec (enc : Z -> list Z) (len : Z -> Z) (xs : list Z) : (forall x, In x xs -> Z.of_nat (length (enc x)) = len x) -> forall n, 0 <= n ->
  let k := fitting len n xs in
  (k <= length xs)%nat /\ Z.of_nat (length (concat (map enc (firstn k xs)))) <= n /\
  ((k < length xs)%nat -> n < Z.of_nat (length (concat (map enc (firstn k xs)) ++ enc (nth k xs 0)))).
Proof.
  induction xs as [|x xs IH]; intros Hlen n Hn; cbn [fitting length firstn map concat]; [cbn; lia|].
  pose proof (Hlen x (or_introl eq_refl)) as Hx. destruct (Z.ltb_spec n (len x)) as [H|H].
  - cbn [firstn map concat app nth length]. lia.
  - destruct (IH (fun y Hy => Hlen y (or_intror Hy)) (n - len x) ltac:(lia)) as (H1 & H2 & H3). cbn [firstn map concat nth].
    rewrite !length_app in *. split; [lia|]. split; [lia|]. intros Hk. specialize (H3 ltac:(lia)). lia.
Qed.

Lemma fitting_all (xs : list Z) : fitting (fun _ => 4) (4 * Z.of_nat (length xs)) xs = length xs.
Proof.
  induction xs as [|x xs IH]; [reflexivity|]. cbn [fitting length]. destruct (Z.ltb_spec (4 * Z.of_nat (S (length xs))) 4); [lia|].
  f_equal. rewrite <- IH at 2. f_equal. lia.
Qed.

(** From the two runs to the round trip. *)
Lemma round_trip_runs (P : Z -> Prop) to from (enc : Z -> list Z) (len : Z -> Z) fuel xs n : (forall x, P x -> Z.of_nat (length (enc x)) = len x) -> Forall P xs -> 0 <= n ->
  (forall c, 0 <= room c -> inp c = concat (map put32 xs) -> let k := fitting len (room c) xs in
    to fuel c = Some (if Nat.eqb k (length xs) then GCONV_EMPTY_INPUT else GCONV_FULL_OUTPUT,
                      write (concat (map enc (firstn k xs))) (with_inp (concat (map put32 (skipn k xs))) c))) ->
  (forall ys c, 0 <= room c -> (length ys <= length xs)%nat -> Forall P ys -> inp c = concat (map enc ys) -> let k := fitting (fun _ => 4) (room c) ys in
    from fuel c = Some (if Nat.eqb k (length ys) then GCONV_EMPTY_INPUT else GCONV_FULL_OUTPUT,
                        write (concat (map put32 (firstn k ys))) (with_inp (concat (map enc (skipn k ys))) c))) ->
  round_trip to from enc fuel xs n.
Proof.
  intros Hlen HP Hn Hto Hfrom. rewrite Forall_forall in HP. destruct (fitting_spec enc len xs (fun x Hx => Hlen x (HP x Hx)) n Hn) as (H1 & H2 & H3).
  set (k := fitting len n xs) in *. exists k. eexists. eexists. split; [exact (Hto (start (concat (map put32 xs)) n) Hn eq_refl)|]. cbn [start write with_inp out inp app room].
  fold k. split; [exact H1|]. split; [reflexivity|]. split; [reflexivity|]. split; [exact H2|]. split; [exact H3|].
  assert (Hk : length (firstn k xs) = k) by (rewrite length_firstn; lia).
  split; [rewrite (Hfrom (firstn k xs)); [|cbn [start room]; lia|lia|apply Forall_forall; intros x Hx; apply HP; rewrite <- (firstn_skipn k xs); apply in_or_app; auto|reflexivity]|].
  - cbn [start room]. pose proof (fitting_all (firstn k xs)) as E. rewrite Hk in E. rewrite E, Hk, Nat.eqb_refl. reflexivity.
  - cbn [start room write with_inp out inp app]. rewrite (firstn_all2 (firstn k xs)), skipn_all2 by lia. split; reflexivity.
Qed.

(** C34: Characters converted from the internal format to UTF-8 and back are the same.
    The first loop converts the characters up to the first one whose sequence does
    not fit into the output, with the status that says so, and never writes past the
    end; the second one takes all of that output and gives exactly the characters
    that were converted. *)
Theorem utf8_round_trip fl transliterate fuel xs n : Forall character xs -> 0 <= n -> (length xs < fuel)%nat ->
  round_trip (internal_utf8_loop fl transliterate) (utf8_internal_loop fl) utf8_encode fuel xs n.
Proof.
  intros HP Hn Hf. apply (round_trip_runs character _ _ _ ulen); [apply length_encode | exact HP | exact Hn | |].
  - intros c Hr Hc. apply internal_utf8_run; assumption.
  - intros ys c Hr Hl Hy Hc. apply utf8_internal_run; [lia | exact Hy | exact Hc].
Qed.

Lemma utf8_round_trip_witness :
  round_trip (internal_utf8_loop {| IGNORE_ERRORS := false; TRANSLIT := false |} (fun c => (GCONV_ILLEGAL_INPUT, c)))
    (utf8_internal_loop {| IGNORE_ERRORS := false; TRANSLIT := false |}) utf8_encode 4 [65; 8364; 128512] 7.
Proof.
  apply utf8_round_trip; [|lia|cbn; lia]. unfold character. repeat constructor; lia.
Defined.

(** The same for ASCII, for UCS-2 and UCS-2 with the other byte order, and for UCS-4
    with both byte orders: what the loops from the internal format write, up to the last character that fits, the
    loops to the internal format turn back into the same characters. *)
Lemma fixed_round_trips fl transliterate fuel xs n : 0 <= n -> (length xs < fuel)%nat ->
  (Forall is_ascii xs -> round_trip (internal_ascii_loop fl transliterate) (ascii_internal_loop fl) (fun x => [x]) fuel xs n) /\
  (Forall is_ucs2 xs -> round_trip (internal_ucs2_loop fl transliterate) (ucs2_internal_loop fl) put16 fuel xs n) /\
  (Forall is_ucs2 xs ->
     round_trip (internal_ucs2reverse_loop fl transliterate) (ucs2reverse_internal_loop fl) (fun x => put16 (bswap_16 x)) fuel xs n) /\
  (forall swap, Forall is_ucs4 xs ->
     round_trip (fun _ c => Some (internal_ucs4_loop swap c)) (fun fuel => ucs4_internal_loop fl fuel swap) (ucs4 swap) fuel xs n).
Proof.
  intros Hn Hf. split; [|split; [|split; [|intros swap]]]; intros HP.
  - apply (round_trip_runs is_ascii _ _ _ (fun _ => 1)); [reflexivity | exact HP | exact Hn | |].
    + intros c Hr Hc. eapply (loop_run is_ascii _ _ _ 4 1 (internal_ascii_converts fl transliterate)); [lia | reflexivity | reflexivity | exact Hf | exact HP | exact Hc].
    + intros ys c Hr Hl Hy Hc. eapply (loop_run is_ascii _ _ _ 1 4 (ascii_internal_converts fl)); [lia | reflexivity | reflexivity | lia | exact Hy | exact Hc].
  - apply (round_trip_runs is_ucs2 _ _ _ (fun _ => 2)); [reflexivity | exact HP | exact Hn | |].
    + intros c Hr Hc. eapply (loop_run is_ucs2 _ _ _ 4 2 (internal_ucs2_converts fl transliterate)); [lia | reflexivity | reflexivity | exact Hf | exact HP | exact Hc].
    + intros ys c Hr Hl Hy Hc. eapply (loop_run is_ucs2 _ _ _ 2 4 (ucs2_internal_converts fl)); [lia | reflexivity | reflexivity | lia | exact Hy | exact Hc].
  - apply (round_trip_runs is_ucs2 _ _ _ (fun _ => 2)); [reflexivity | exact HP | exact Hn | |].
    + intros c Hr Hc. eapply (loop_run is_ucs2 _ _ _ 4 2 (internal_ucs2reverse_converts fl transliterate)); [lia | reflexivity | reflexivity | exact Hf | exact HP | exact Hc].
    + intros ys c Hr Hl Hy Hc. eapply (loop_run is_ucs2 _ _ _ 2 4 (ucs2reverse_internal_converts fl)); [lia | reflexivity | reflexivity | lia | exact Hy | exact Hc].
  - apply (round_trip_runs is_ucs4 _ _ _ (fun _ => 4)); [intros x _; unfold ucs4; destruct swap; reflexivity | exact HP | exact Hn | |].
    + intros c Hr Hc. cbn zeta. rewrite (internal_ucs4_run swap xs c HP Hr Hc). reflexivity.
    + intros ys c Hr Hl Hy Hc. apply ucs4_internal_run; [lia | exact Hy | exact Hr | exact Hc].
Qed.

Lemma fixed_round_trips_witness :
  round_trip (internal_ucs2_loop {| IGNORE_ERRORS := false; TRANSLIT := false |} (fun c => (GCONV_ILLEGAL_INPUT, c)))
    (ucs2_internal_loop {| IGNORE_ERRORS := false; TRANSLIT := false |}) put16 3 [65; 8364] 3.
Proof.
  apply (fixed_round_trips {| IGNORE_ERRORS := false; TRANSLIT := false |} (fun c => (GCONV_ILLEGAL_INPUT, c)) 3 [65; 8364] 3); [lia | cbn; lia |].
  unfold is_ucs2. repeat constructor; lia.
Defined.

(** What happens to [i] bytes of ill-formed input: they are noticed, and skipped and
    counted if errors are ignored; nothing is written, the status is the error. *)
Definition error_outcome (fl : gflags) (i : nat) (c : cursor) : control :=
  match IGNORE_ERRORS fl, irr c with
  | true, Some n => Continue GCONV_ILLEGAL_INPUT {| inp := skipn i (inp c); out := out c; room := room c; irr := Some (n + 1); seen := true |}
  | _, _ => Break GCONV_ILLEGAL_INPUT {| inp := inp c; out := out c; room := room c; irr := irr c; seen := true |}
  end.

Lemma err_handler_outcome fl i c : STANDARD_FROM_LOOP_ERR_HANDLER fl i c = error_outcome fl i c.
Proof.
  destruct c as [a b n [k|] q], fl as [[|] x]; reflexivity.
Qed.

(** C33: The decoder of UTF-8 accepts exactly the encodings: at the front of any bytes it
    takes a character when its encoding (the shortest, of 1 to 6 bytes, no surrogate)
    is there; it asks for more input exactly when all the bytes are a proper beginning
    of a sequence; and everything else is an error: with errors ignored at least one
    byte and not more than there are are skipped and counted, otherwise the loop stops
    there. *)
Theorem utf8_internal_exact fl r c : Forall byte (inp c) -> inp c <> [] ->
  (exists ch, character ch /\ inp c = utf8_encode ch ++ skipn (length (utf8_encode ch)) (inp c) /\
     utf8_internal_body fl r c = Continue r (write (put32 ch) (advance (length (utf8_encode ch)) c))) \/
  ((forall ch rest, character ch -> inp c <> utf8_encode ch ++ rest) /\
   ((short (inp c) /\ utf8_internal_body fl r c = Break GCONV_INCOMPLETE_INPUT c) \/
    (~ short (inp c) /\ exists i, (1 <= i <= length (inp c))%nat /\ utf8_internal_body fl r c = error_outcome fl i c))).
Proof.
  intros Hb Hn. rewrite body_scan. destruct (utf8_scan (inp c)) as [ch n| |i] eqn:E.
  - left. destruct (scan_char _ _ _ Hb Hn E) as (Hc & -> & El). exists ch. auto.
  - right. split; [intros ch rest Hc Ei; rewrite Ei, scan_encode in E by exact Hc; discriminate|]. left. split; [apply scan_short; assumption | reflexivity].
  - right. split; [intros ch rest Hc Ei; rewrite Ei, scan_encode in E by exact Hc; discriminate|]. right.
    split; [intros Hs; rewrite (short_scan _ Hs) in E; discriminate|]. exists i.
    pose proof (scan_app (inp c) [] Hb ltac:(constructor) Hn) as H. rewrite E in H. destruct H as [H _].
    split; [auto | apply err_handler_outcome].
Qed.

Lemma utf8_internal_exact_witness :
  (exists ch, character ch /\ [224; 128; 128] = utf8_encode ch ++ skipn (length (utf8_encode ch)) [224; 128; 128] /\
     utf8_internal_body {| IGNORE_ERRORS := false; TRANSLIT := false |} GCONV_EMPTY_INPUT (start [224; 128; 128] 8) =
       Continue GCONV_EMPTY_INPUT (write (put32 ch) (advance (length (utf8_encode ch)) (start [224; 128; 128] 8)))) \/
  ((forall ch rest, character ch -> [224; 128; 128] <> utf8_encode ch ++ rest) /\
   ((short [224; 128; 128] /\
     utf8_internal_body {| IGNORE_ERRORS := false; TRANSLIT := false |} GCONV_EMPTY_INPUT (start [224; 128; 128] 8) =
       Break GCONV_INCOMPLETE_INPUT (start [224; 128; 128] 8)) \/
    (~ short [224; 128; 128] /\ exists i, (1 <= i <= 3)%nat /\
       utf8_internal_body {| IGNORE_ERRORS := false; TRANSLIT := false |} GCONV_EMPTY_INPUT (start [224; 128; 128] 8) =
         error_outcome {| IGNORE_ERRORS := false; TRANSLIT := false |} i (start [224; 128; 128] 8)))).
Proof.
  exact (utf8_internal_exact {| IGNORE_ERRORS := false; TRANSLIT := false |} GCONV_EMPTY_INPUT (start [224; 128; 128] 8)
           ltac:(unfold byte; repeat constructor; lia) ltac:(discriminate)).
Defined.

(** C32: Input can be cut anywhere, as long as errors are not ignored (the functions of
    wcsmbs that keep a state between calls never set __GCONV_IGNORE_ERRORS; the example
    below shows what happens if it is set).  Bytes of UTF-8 given in pieces, one call after the
    other with the incomplete sequence kept in the shift state in between, are
    converted as the loop converts all of them at once: the same status and the same
    output, and the bytes kept are those of the incomplete sequence at the end.  In
    particular no assertion fails on the way. *)
Theorem utf8_pieces fl fuel pieces n w : IGNORE_ERRORS fl = false -> Forall (fun l => l <> [] /\ Forall byte l) pieces -> (length (concat pieces) < fuel)%nat ->
  exists r c' st' p' c'',
    utf8_internal_loop fl fuel (start (concat pieces) n) = Some (r, c') /\
    feed fl fuel pieces GCONV_EMPTY_INPUT {| count := 0; wchb := w |} (start [] n) = Some (r, st', c'') /\
    out c'' = out c' /\ kept st' p' /\ (exists rest, p' ++ inp c'' ++ rest = inp c').
Proof.
  intros Hi Hp Hf. destruct (feed_refines fl Hi fuel pieces GCONV_EMPTY_INPUT {| count := 0; wchb := w |} [] (start [] n)) as (r & c' & st' & p' & c'' & H1 & H2 & H3 & H4 & H5);
    [left; auto | left; auto | reflexivity | exact Hp | exact Hf |].
  exists r, c', st', p', c''. split; [exact H1|]. split; [exact H2|]. split; [unfold with_inp in H5; congruence | auto].
Qed.

Lemma utf8_pieces_witness :
  exists r c' st' p' c'',
    utf8_internal_loop {| IGNORE_ERRORS := false; TRANSLIT := false |} 8 (start (concat [[226]; [130]; [172; 65]; [240; 159]]) 64) = Some (r, c') /\
    feed {| IGNORE_ERRORS := false; TRANSLIT := false |} 8 [[226]; [130]; [172; 65]; [240; 159]] GCONV_EMPTY_INPUT {| count := 0; wchb := [0; 0; 0; 0] |} (start [] 64) =
      Some (r, st', c'') /\
    out c'' = out c' /\ kept st' p' /\ (exists rest, p' ++ inp c'' ++ rest = inp c').
Proof.
  apply (utf8_pieces {| IGNORE_ERRORS := false; TRANSLIT := false |} 8 [[226]; [130]; [172; 65]; [240; 159]] 64 [0; 0; 0; 0]);
    [reflexivity | | cbn; lia]. repeat (constructor; [split; [discriminate | unfold byte; repeat constructor; lia] | ]). constructor.
Defined.

(** With errors ignored the bytes kept can turn out to be ill-formed on their own: the
    body skips exactly them, and the assertion that more was used fails, although the
    loop over all the bytes skips them and converts the rest. *)
Example utf8_pieces_ignore :
  let fl := {| IGNORE_ERRORS := true; TRANSLIT := false |} in
  feed fl 8 [[226; 130]; [65]] GCONV_EMPTY_INPUT {| count := 0; wchb := [0; 0; 0; 0] |} (start [] 64) = None /\
  utf8_internal_loop fl 8 (start [226; 130; 65] 64) =
    Some (GCONV_ILLEGAL_INPUT, {| inp := []; out := [65; 0; 0; 0]; room := 60; irr := Some 1; seen := true |}).
Proof. vm_compute. auto. Qed.
