(* ===== verification/NsName.v ===== *)
(** * Domain names (resolv/ns_name_*.c)

    A name in a message is a sequence of labels, each with its length in front, that
    ends with a zero byte or with a pointer of two bytes to an earlier place in the
    message.  The message is a list of bytes and pointers into it are offsets; reading
    or writing outside of it is [None].  Strings are lists of bytes without the zero
    at the end. *)

From Stdlib Require Import String ZArith List Lia Bool.
From S2P Require Import Prelude.
Import ListNotations.
#[local] Open Scope Z_scope.
#[local] Open Scope glibc_scope.

Inductive errno := EMSGSIZE | ENOENT.

Definition NS_CMPRSFLGS : Z := 192.
Definition NS_MAXCDNAME : Z := 255.

(** The offset that the two bytes of a pointer hold. *)
Definition target (n lo : Z) : Z := Z.lor (Z.shiftl (Z.land n 63) 8) lo.

(** ** ns_name_unpack *)

(** An int that does not fit is undefined. *)
Definition int_add (a b : Z) : option Z := if 2147483647 <? a + b then None else Some (a + b).

(** [dst]: what is written in front of dstp; [len], [checked] as in the code. *)
Fixpoint unpack_loop (fuel : nat) (msg : list Z) (src : nat) (dstsiz : Z) (srcp : nat) (dst : list Z) (len checked : Z)
    : option (errno + Z * list Z) :=
  match fuel with
  | O => None
  | S fuel =>
      let? n := nth_error msg srcp in
      let srcp := S srcp in
      if n =? 0 then
        if Z.of_nat (length dst) <? dstsiz
        then Some (inr (if len <? 0 then Z.of_nat srcp - Z.of_nat src else len, dst ++ [0]))
        else None
      else if Z.land n NS_CMPRSFLGS =? 0 then
        if 64 <=? n then Some (inl EMSGSIZE)
        else if (dstsiz - Z.of_nat (length dst) <=? n + 1) || (Z.of_nat (length msg) - Z.of_nat srcp <=? n) then Some (inl EMSGSIZE)
        else
          let? checked := int_add checked (n + 1) in
          unpack_loop fuel msg src dstsiz (srcp + Z.to_nat n) (dst ++ n :: firstn (Z.to_nat n) (skipn srcp msg)) len checked
      else if Z.land n NS_CMPRSFLGS =? NS_CMPRSFLGS then
        if (length msg <=? srcp)%nat then Some (inl EMSGSIZE)
        else
          let len := if len <? 0 then Z.of_nat srcp - Z.of_nat src + 1 else len in
          let? lo := nth_error msg srcp in
          if Z.of_nat (length msg) <=? target n lo then Some (inl EMSGSIZE)
          else
            let? checked := int_add checked 2 in
            if Z.of_nat (length msg) <=? checked then Some (inl EMSGSIZE)
            else unpack_loop fuel msg src dstsiz (Z.to_nat (target n lo)) dst len checked
      else Some (inl EMSGSIZE)
  end.

Definition ns_name_unpack (fuel : nat) (msg : list Z) (src : Z) (dstsiz : Z) : option (errno + Z * list Z) :=
  if (src <? 0) || (Z.of_nat (length msg) <=? src) then Some (inl EMSGSIZE)
  else unpack_loop fuel msg (Z.to_nat src) dstsiz (Z.to_nat src) [] (-1) 0.

(** ** ns_name_skip *)

Fixpoint skip_loop (fuel : nat) (msg : list Z) (cp : nat) : option (errno + nat) :=
  match fuel with
  | O => None
  | S fuel =>
      if (cp <? length msg)%nat then
        let? n := nth_error msg cp in
        let cp := S cp in
        if n =? 0 then Some (inr cp)
        else if Z.land n NS_CMPRSFLGS =? 0 then
          if Z.of_nat (length msg) - Z.of_nat cp <? n then Some (inl EMSGSIZE) else skip_loop fuel msg (cp + Z.to_nat n)
        else if Z.land n NS_CMPRSFLGS =? NS_CMPRSFLGS then
          if (cp =? length msg)%nat then Some (inl EMSGSIZE) else Some (inr (S cp))
        else Some (inl EMSGSIZE)
      else Some (inl EMSGSIZE)
  end.

(** The new value of *ptrptr. *)
Definition ns_name_skip (fuel : nat) (msg : list Z) (ptr : nat) : option (errno + nat) := skip_loop fuel msg ptr.

(** ** ns_name_length_uncompressed *)

Fixpoint length_loop (fuel : nat) (msg : list Z) (start p : nat) : option (errno + Z) :=
  match fuel with
  | O => None
  | S fuel =>
      if (p =? length msg)%nat then Some (inl EMSGSIZE)
      else
        let? b := nth_error msg p in
        let p := S p in
        if b =? 0 then
          let length := Z.of_nat p - Z.of_nat start in
          if NS_MAXCDNAME <? length then Some (inl EMSGSIZE) else Some (inr length)
        else if b <=? 63 then
          if b <=? Z.of_nat (length msg) - Z.of_nat p then length_loop fuel msg start (p + Z.to_nat b) else Some (inl EMSGSIZE)
        else Some (inl EMSGSIZE)
  end.

Definition ns_name_length_uncompressed (fuel : nat) (msg : list Z) (p : nat) : option (errno + Z) := length_loop fuel msg p p.

(** ** ns_name_ntop *)

(** The characters quote, dot, semicolon, backslash, parentheses, at sign and dollar. *)
Definition special (ch : Z) : bool := existsb (Z.eqb ch) [34; 46; 59; 92; 40; 41; 64; 36].
Definition printable (ch : Z) : bool := (32 <? ch) && (ch <? 127).

(** One byte of a label: dn afterwards. *)
Definition ntop_char (c : Z) (dstsiz : Z) (dn : list Z) : errno + list Z :=
  let left := dstsiz - Z.of_nat (length dn) in
  if special c then if left <? 2 then inl EMSGSIZE else inr (dn ++ [92; c])
  else if negb (printable c) then
    if left <? 4 then inl EMSGSIZE
    else inr (dn ++ [92; 48 + Z.quot c 100; 48 + Z.quot (Z.rem c 100) 10; 48 + Z.rem c 10])
  else if left <? 2 then inl EMSGSIZE
  else inr (dn ++ [c]).

(** for (; l > 0; l--) *)
Fixpoint ntop_label (l : nat) (cp : list Z) (dstsiz : Z) (dn : list Z) : option (errno + list Z * list Z) :=
  match l with
  | O => Some (inr (cp, dn))
  | S l =>
      match cp with
      | [] => None
      | c :: cp => match ntop_char c dstsiz dn with inl e => Some (inl e) | inr dn => ntop_label l cp dstsiz dn end
      end
  end.

(** if (dn >= eom) error; *dn++ = c; *)
Definition ntop_put (c : Z) (dstsiz : Z) (dn : list Z) : errno + list Z :=
  if dstsiz <=? Z.of_nat (length dn) then inl EMSGSIZE else inr (dn ++ [c]).

Fixpoint ntop_loop (fuel : nat) (cp : list Z) (dstsiz : Z) (dn : list Z) : option (errno + list Z) :=
  match fuel, cp with
  | S fuel, l :: cp =>
      if l =? 0 then Some (inr dn)
      else if 64 <=? l then Some (inl EMSGSIZE)
      else
        match (match dn with [] => inr dn | _ => ntop_put 46 dstsiz dn end) with
        | inl e => Some (inl e)
        | inr dn =>
            let? r := ntop_label (Z.to_nat l) cp dstsiz dn in
            match r with inl e => Some (inl e) | inr (cp, dn) => ntop_loop fuel cp dstsiz dn end
        end
  | _, _ => None
  end.

(** The string with its zero byte; the value returned is its length. *)
Definition ns_name_ntop (fuel : nat) (src : list Z) (dstsiz : Z) : option (errno + list Z) :=
  let? r := ntop_loop fuel src dstsiz [] in
  match r with
  | inl e => Some (inl e)
  | inr dn =>
      Some (match (match dn with [] => ntop_put 46 dstsiz dn | _ => inr dn end) with
            | inl e => inl e
            | inr dn => ntop_put 0 dstsiz dn
            end)
  end.

(** ** ns_name_pton *)

(** *label = c, as an unsigned char *)
Definition set_label (label : nat) (c : Z) (dst : list Z) : list Z :=
  firstn label dst ++ Z.land c 255 :: skipn (S label) dst.

(** The length of the label that ends at bp, stored in front of it. *)
Definition end_label (label : nat) (dstsiz : Z) (dst : list Z) : errno + Z * list Z :=
  let c := Z.of_nat (length dst) - Z.of_nat label - 1 in
  if negb (Z.land c NS_CMPRSFLGS =? 0) then inl EMSGSIZE
  else if dstsiz <=? Z.of_nat label then inl EMSGSIZE
  else inr (c, set_label label c dst).

(** The zero byte behind the last label, and the test of the length. *)
Definition end_name (c : Z) (dstsiz : Z) (dst : list Z) (result : Z) : errno + Z * list Z :=
  if negb (c =? 0) && (dstsiz <=? Z.of_nat (length dst)) then inl EMSGSIZE
  else
    let dst := if negb (c =? 0) then dst ++ [0] else dst in
    if NS_MAXCDNAME <? Z.of_nat (length dst) then inl EMSGSIZE else inr (result, dst).

Definition isdigit (c : Z) : bool := (48 <=? c) && (c <=? 57).

(** if (bp >= eom) error; *bp++ = c *)
Definition pton_put (c : Z) (dstsiz : Z) (dst : list Z) : errno + list Z :=
  if dstsiz <=? Z.of_nat (length dst) then inl EMSGSIZE else inr (dst ++ [Z.land c 255]).

(** [dst]: the bytes in front of bp, with an arbitrary one where label points. *)
Fixpoint pton_loop (src : list Z) (escaped : bool) (label : nat) (dstsiz : Z) (dst : list Z) : errno + Z * list Z :=
  match src with
  | [] =>
      if escaped then inl EMSGSIZE
      else match end_label label dstsiz dst with inl e => inl e | inr (c, dst) => end_name c dstsiz dst 0 end
  | c :: src =>
      if escaped then
        if isdigit c then
          match src with
          | c1 :: c2 :: src =>
              if negb (isdigit c1) then inl EMSGSIZE
              else if negb (isdigit c2) then inl EMSGSIZE
              else
                let n := (c - 48) * 100 + (c1 - 48) * 10 + (c2 - 48) in
                if 255 <? n then inl EMSGSIZE
                else match pton_put n dstsiz dst with inl e => inl e | inr dst => pton_loop src false label dstsiz dst end
          | _ => inl EMSGSIZE
          end
        else match pton_put c dstsiz dst with inl e => inl e | inr dst => pton_loop src false label dstsiz dst end
      else if c =? 92 then pton_loop src true label dstsiz dst
      else if c =? 46 then
        match end_label label dstsiz dst with
        | inl e => inl e
        | inr (n, dst) =>
            match src with
            | [] => end_name n dstsiz dst 1
            | c' :: _ =>
                if (n =? 0) || (c' =? 46) then inl EMSGSIZE
                else pton_loop src false (length dst) dstsiz (dst ++ [0])
            end
        end
      else match pton_put c dstsiz dst with inl e => inl e | inr dst => pton_loop src false label dstsiz dst end
  end.

(** Whether the name was fully qualified, and the name. *)
Definition ns_name_pton (src : list Z) (dstsiz : Z) : errno + Z * list Z := pton_loop src false 0 dstsiz [0].

(** ** ns_name_pack *)

Definition mklower (ch : Z) : Z := if (65 <=? ch) && (ch <=? 90) then ch - 65 + 97 else ch.

(** How the comparison of a name with the domain ends: by return, by goto next, or with
    an illegal byte. *)
Inductive comparison := Found | Next | Illegal.

(** for (; n > 0; n--) if (mklower ( *dn++) != mklower ( *cp++)) goto next; *)
Fixpoint label_eq (n : nat) (dn : list Z) (msg : list Z) (cp : nat) : option bool :=
  match n with
  | O => Some true
  | S n =>
      match dn with
      | [] => None
      | d :: dn => let? c := nth_error msg cp in if mklower d =? mklower c then label_eq n dn msg (S cp) else Some false
      end
  end.

(** The inner while loop of dn_find. *)
Fixpoint dn_compare (fuel : nat) (msg : list Z) (dn : list Z) (cp : nat) : option comparison :=
  match fuel with
  | O => None
  | S fuel =>
      let? n := nth_error msg cp in
      let cp := S cp in
      if n =? 0 then Some Next
      else if Z.land n NS_CMPRSFLGS =? 0 then
        match dn with
        | [] => None
        | d :: dn =>
            if negb (n =? d) then Some Next
            else
              let? e := label_eq (Z.to_nat n) dn msg cp in
              if negb e then Some Next
              else
                let dn := skipn (Z.to_nat n) dn in
                let cp := (cp + Z.to_nat n)%nat in
                let? d := nth_error dn 0 in
                if negb (d =? 0) then dn_compare fuel msg dn cp
                else let? c := nth_error msg cp in if c =? 0 then Some Found else Some Next
        end
      else if Z.land n NS_CMPRSFLGS =? NS_CMPRSFLGS then
        let? lo := nth_error msg cp in dn_compare fuel msg dn (Z.to_nat (target n lo))
      else Some Illegal
  end.

(** The suffixes of one name: the offset found, or how the search goes on. *)
Fixpoint find_suffix (fuel : nat) (msg : list Z) (domain : list Z) (sp : nat) : option (comparison * nat) :=
  match fuel with
  | O => None
  | S fuel =>
      let? b := nth_error msg sp in
      if negb (b =? 0) && (Z.land b NS_CMPRSFLGS =? 0) && (Z.of_nat sp <? 16384) then
        let? r := dn_compare (S (length msg)) msg domain sp in
        match r with
        | Next => find_suffix fuel msg domain (sp + Z.to_nat b + 1)
        | _ => Some (r, sp)
        end
      else Some (Next, sp)
  end.

(** The offset, [inr], or the error. *)
Fixpoint dn_find (msg : list Z) (domain : list Z) (dnptrs : list nat) : option (errno + nat) :=
  match dnptrs with
  | [] => Some (inl ENOENT)
  | sp :: dnptrs =>
      let? (r, sp) := find_suffix (S (length msg)) msg domain sp in
      match r with
      | Found => Some (inr sp)
      | Illegal => Some (inl EMSGSIZE)
      | Next => dn_find msg domain dnptrs
      end
  end.

(** Make sure the domain we are about to add is legal. *)
Fixpoint pack_legal (fuel : nat) (srcp : list Z) (l : Z) : option (option errno) :=
  match fuel, srcp with
  | S fuel, n :: _ =>
      if 64 <=? n then Some (Some EMSGSIZE)
      else
        let l := l + n + 1 in
        if NS_MAXCDNAME <? l then Some (Some EMSGSIZE)
        else if n =? 0 then Some None
        else pack_legal fuel (skipn (Z.to_nat (n + 1)) srcp) l
  | _, _ => None
  end.

(** Bytes written to the message. *)
Definition store (msg : list Z) (p : nat) (l : list Z) : option (list Z) :=
  if (p + length l <=? length msg)%nat then Some (firstn p msg ++ l ++ skipn (p + length l) msg) else None.

(** The message, the list of names and the size or the error. *)
Definition pack_result := (errno + Z)%type.

(** [search]: the names to search, up to lpp, if there is a message; [names]: up to cpp;
    [last]: the index of lastdnptr in the array. *)
Fixpoint pack_loop (fuel : nat) (search : option (list nat)) (last : option Z) (dst eob : nat)
    (msg : list Z) (srcp : list Z) (dstp : nat) (names : list nat) (first : bool) : option (pack_result * list Z * list nat) :=
  let cleanup := Some (inl EMSGSIZE, msg, match search with Some s => s | None => names end) in
  match fuel, srcp with
  | S fuel, n :: _ =>
      let? found := (match search with
                     | Some s => if negb (n =? 0) then let? r := dn_find msg srcp s in Some (match r with inr l => Some l | inl _ => None end) else Some None
                     | None => Some None
                     end) in
      match found with
      | Some l =>
          if Z.of_nat eob - Z.of_nat dstp <=? 1 then cleanup
          else
            let? msg := store msg dstp [Z.lor (Z.shiftr (Z.of_nat l) 8) NS_CMPRSFLGS; Z.rem (Z.of_nat l) 256] in
            Some (inr (Z.of_nat dstp + 2 - Z.of_nat dst), msg, names)
      | None =>
          let save := match search, last with
                      | Some _, Some last => negb (n =? 0) && (Z.of_nat (length names) + 1 <? last - 1) && (Z.of_nat dstp <? 16384) && first
                      | _, _ => false
                      end in
          let names := if save then names ++ [dstp] else names in
          let first := first && negb save in
          if 64 <=? n then cleanup
          else if Z.of_nat eob - Z.of_nat dstp <? n + 1 then cleanup
          else if Z.of_nat (length srcp) <? n + 1 then None
          else
            let? msg := store msg dstp (firstn (Z.to_nat (n + 1)) srcp) in
            let srcp := skipn (Z.to_nat (n + 1)) srcp in
            let dstp := (dstp + Z.to_nat (n + 1))%nat in
            if n =? 0 then Some (inr (Z.of_nat dstp - Z.of_nat dst), msg, names)
            else pack_loop fuel search last dst eob msg srcp dstp names first
      end
  | _, _ => None
  end.

(** [dnptrs]: the pointers behind the first one, which is the start of the message. *)
Definition ns_name_pack (msg : list Z) (src : list Z) (dst : nat) (dstsiz : nat) (dnptrs : option (list nat)) (last : option Z)
    : option (pack_result * list Z * list nat) :=
  let names := match dnptrs with Some l => l | None => [] end in
  let? e := pack_legal 256 src 0 in
  match e with
  | Some e => Some (inl e, msg, names)
  | None => pack_loop 256 dnptrs last dst (dst + dstsiz) msg src dst names true
  end.

(** ** ns_name_compress, ns_name_uncompress *)

Definition ns_name_compress (msg : list Z) (src : list Z) (dst : nat) (dstsiz : nat) (dnptrs : option (list nat)) (last : option Z)
    : option (pack_result * list Z * list nat) :=
  match ns_name_pton src NS_MAXCDNAME with
  | inl e => Some (inl e, msg, match dnptrs with Some l => l | None => [] end)
  | inr (_, tmp) => ns_name_pack msg tmp dst dstsiz dnptrs last
  end.

(** The number of bytes read and the string. *)
Definition ns_name_uncompress (fuel : nat) (msg : list Z) (src : Z) (dstsiz : Z) : option (errno + Z * list Z) :=
  let? r := ns_name_unpack fuel msg src NS_MAXCDNAME in
  match r with
  | inl e => Some (inl e)
  | inr (n, tmp) =>
      let? r := ns_name_ntop 256 tmp dstsiz in
      match r with
      | inl e => Some (inl e)
      | inr s => Some (inr (n, s))
      end
  end.

(** * Proofs *)

Lemma flags_low n : byte n -> (Z.land n NS_CMPRSFLGS =? 0) = (n <? 64).
Proof. intros H. apply eqb_prop. exact (byte_check (fun n => eqb (Z.land n NS_CMPRSFLGS =? 0) (n <? 64)) ltac:(vm_compute; reflexivity) n H). Qed.

Lemma flags_high n : byte n -> (Z.land n NS_CMPRSFLGS =? NS_CMPRSFLGS) = (192 <=? n).
Proof. intros H. apply eqb_prop. exact (byte_check (fun n => eqb (Z.land n NS_CMPRSFLGS =? NS_CMPRSFLGS) (192 <=? n)) ltac:(vm_compute; reflexivity) n H). Qed.

Lemma target_spec n lo : byte lo -> target n lo = (n mod 64) * 256 + lo.
Proof.
  intros H. unfold target. change 63 with (2 ^ 6 - 1). rewrite land_low_mask by lia. rewrite Z.shiftl_mul_pow2 by lia.
  apply (lor_add_low _ _ 8); unfold byte in H; lia.
Qed.

(** ** Names in a message *)

(** The place a pointer of two bytes, the first at least 192, leads to. *)
Definition pointed (n lo : Z) : Z := (n - 192) * 256 + lo.

Lemma target_pointed n lo : byte n -> byte lo -> 192 <= n -> target n lo = pointed n lo.
Proof.
  intros Hn Hl H. rewrite target_spec by exact Hl. unfold pointed, byte in *. f_equal. f_equal.
  symmetry. apply (Z.mod_unique_pos n 64 3); lia.
Qed.

(** The labels of a name, and the name without pointers. *)
Definition wf_label (l : list Z) : Prop := (1 <= length l <= 63)%nat /\ Forall byte l.
Definition wf_labels (ls : list (list Z)) : Prop := Forall wf_label ls.

Definition enc_label (l : list Z) : list Z := Z.of_nat (length l) :: l.
Definition encode (ls : list (list Z)) : list Z := concat (map enc_label ls) ++ [0].

(** [l] is in the message at [p]. *)
Definition slice (msg : list Z) (p : nat) (l : list Z) : Prop := firstn (length l) (skipn p msg) = l.

Inductive name_at (msg : list Z) : nat -> list (list Z) -> Prop :=
| name_root p : nth_error msg p = Some 0 -> name_at msg p []
| name_label p l ls : wf_label l -> slice msg p (enc_label l) -> name_at msg (p + S (length l)) ls -> name_at msg p (l :: ls)
| name_pointer p n lo ls : 192 <= n -> slice msg p [n; lo] -> name_at msg (Z.to_nat (pointed n lo)) ls -> name_at msg p ls.

Lemma bytes_nth msg p n : Forall byte msg -> nth_error msg p = Some n -> byte n.
Proof. intros H E. rewrite Forall_forall in H. apply H. eapply nth_error_In. exact E. Qed.

Lemma nth_skipn (msg : list Z) p n : nth_error msg p = Some n -> skipn p msg = n :: skipn (S p) msg.
Proof.
  revert msg. induction p as [|p IH]; intros [|x msg] E; try discriminate; cbn in *; [congruence|]. apply IH. exact E.
Qed.

Lemma slice_cons msg p n l : nth_error msg p = Some n -> slice msg (S p) l -> slice msg p (n :: l).
Proof. intros E H. unfold slice in *. rewrite (nth_skipn _ _ _ E). cbn [length firstn]. rewrite H. reflexivity. Qed.

Lemma slice_uncons msg p n l : slice msg p (n :: l) -> nth_error msg p = Some n /\ slice msg (S p) l.
Proof.
  unfold slice. intros H. destruct (nth_error msg p) as [x|] eqn:E.
  - rewrite (nth_skipn _ _ _ E) in H. cbn [length firstn] in H. split; congruence.
  - apply nth_error_None in E. rewrite skipn_all2 in H by exact E. cbn [length] in H. rewrite firstn_nil in H. discriminate.
Qed.

Lemma slice_firstn msg p n : (p + n <= length msg)%nat -> slice msg p (firstn n (skipn p msg)) /\ length (firstn n (skipn p msg)) = n.
Proof.
  intros H. assert (L : length (firstn n (skipn p msg)) = n) by (rewrite length_firstn, length_skipn; lia). unfold slice. rewrite L. split; reflexivity.
Qed.

Lemma slice_length msg p l : slice msg p l -> l <> [] -> (p + length l <= length msg)%nat.
Proof.
  unfold slice. intros H Hl. pose proof (f_equal (@length Z) H) as E. rewrite length_firstn, length_skipn in E. destruct l; [contradiction|]. cbn [length] in *. lia.
Qed.

Lemma bytes_firstn_skipn msg p n : Forall byte msg -> Forall byte (firstn n (skipn p msg)).
Proof.
  intros H. rewrite <- (firstn_skipn p msg) in H. apply Forall_app in H as [_ H]. rewrite <- (firstn_skipn n (skipn p msg)) in H. apply Forall_app in H. tauto.
Qed.

(** ** Unpacking *)

Section Unpack.
Context (msg : list Z) (Hmsg : Forall byte msg) (small : Z.of_nat (length msg) < 2 ^ 30).

Let L := Z.of_nat (length msg).

(** Where ns_name_skip stops; it is where unpacking has read to. *)
Definition read_to (p : nat) (q : nat) : Prop := forall fuel, (length msg <= fuel + p)%nat -> skip_loop (S fuel) msg p = Some (inr q).

(** The iterations that are left. *)
Definition unpack_bound (srcp : nat) (checked : Z) : Z := if checked <? L then L - checked + L + 1 else L - Z.of_nat srcp + 1.

Lemma unpack_loop_sound fuel : forall src dstsiz srcp dst len checked,
  (srcp < length msg)%nat -> Z.of_nat (length dst) < dstsiz -> unpack_bound srcp checked <= Z.of_nat fuel ->
  0 <= checked -> checked + (L - Z.of_nat srcp) <= 2 * L ->
  exists r, unpack_loop fuel msg src dstsiz srcp dst len checked = Some r /\
    match r with
    | inl e => e = EMSGSIZE
    | inr (len', dst') =>
        exists ls, name_at msg srcp ls /\ wf_labels ls /\ dst' = dst ++ encode ls /\ Z.of_nat (length dst') <= dstsiz /\
          (0 <= len -> len' = len) /\ (len < 0 -> (src <= srcp)%nat -> exists q, read_to srcp q /\ (srcp < q <= length msg)%nat /\ len' = Z.of_nat q - Z.of_nat src)
    end.
Proof using Hmsg small.
  induction fuel as [|fuel IH]; intros src dstsiz srcp dst len checked Hs Hd Hf Hc Hi.
  { exfalso. unfold unpack_bound in Hf. destruct (Z.ltb_spec checked L); unfold L in *; lia. }
  cbn [unpack_loop]. destruct (nth_error msg srcp) as [n|] eqn:En; [|apply nth_error_None in En; lia].
  pose proof (bytes_nth _ _ _ Hmsg En) as Hn. rewrite flags_low, flags_high by exact Hn.
  destruct (Z.eqb_spec n 0) as [->|Hn0].
  - destruct (Z.ltb_spec (Z.of_nat (length dst)) dstsiz); [|lia]. eexists. split; [reflexivity|]. cbn beta iota. exists []. split; [constructor; exact En|].
    split; [constructor|]. split; [reflexivity|]. split; [rewrite length_app; cbn [length]; lia|].
    destruct (Z.ltb_spec len 0); split; try lia; intros _ _. exists (S srcp). split; [|split; lia].
    intros f Hf'. cbn [skip_loop]. destruct (Nat.ltb_spec srcp (length msg)); [|lia]. rewrite En. reflexivity.
  - destruct (Z.ltb_spec n 64) as [H64|H64].
    + destruct (Z.leb_spec 64 n); [lia|].
      destruct (Z.leb_spec (dstsiz - Z.of_nat (length dst)) (n + 1)); [eexists; split; reflexivity|].
      destruct (Z.leb_spec (Z.of_nat (length msg) - Z.of_nat (S srcp)) n); [eexists; split; reflexivity|]. cbn [orb].
      unfold byte in Hn. unfold int_add. unfold L in *. destruct (Z.ltb_spec 2147483647 (checked + (n + 1))); [lia|].
      destruct (slice_firstn msg (S srcp) (Z.to_nat n) ltac:(lia)) as [Hsl Hlen]. set (l := firstn (Z.to_nat n) (skipn (S srcp) msg)) in *.
      destruct (IH src dstsiz (S srcp + Z.to_nat n)%nat (dst ++ n :: l) len (checked + (n + 1))) as (r & Er & Hr); [lia | rewrite length_app; cbn [length]; lia | | lia | lia |].
      { unfold unpack_bound, L in *. destruct (Z.ltb_spec checked (Z.of_nat (length msg))), (Z.ltb_spec (checked + (n + 1)) (Z.of_nat (length msg))); lia. }
      exists r. split; [exact Er|]. destruct r as [e|[len' dst']]; [exact Hr|]. destruct Hr as (ls & Hna & Hwf & -> & Hl1 & Hl2 & Hl3).
      assert (Hel : enc_label l = n :: l) by (unfold enc_label; f_equal; lia).
      exists (l :: ls). split; [|split; [|split; [|split; [|split; [exact Hl2|]]]]].
      * apply name_label; [split; [lia | apply bytes_firstn_skipn; exact Hmsg] | rewrite Hel; apply slice_cons; assumption |].
        replace (srcp + S (length l))%nat with (S srcp + Z.to_nat n)%nat by lia. exact Hna.
      * constructor; [split; [lia | apply bytes_firstn_skipn; exact Hmsg] | exact Hwf].
      * unfold encode. cbn [map concat]. rewrite Hel, <- !app_assoc. reflexivity.
      * exact Hl1.
      * intros Hneg Hle. destruct (Hl3 Hneg ltac:(lia)) as (q & Hq & Hq1 & Hq2). exists q. split; [|split; lia].
        intros f Hf'. cbn [skip_loop]. destruct (Nat.ltb_spec srcp (length msg)); [|lia]. rewrite En, flags_low by exact Hn.
        destruct (Z.eqb_spec n 0); [lia|]. destruct (Z.ltb_spec n 64); [|lia]. destruct (Z.ltb_spec (Z.of_nat (length msg) - Z.of_nat (S srcp)) n); [lia|].
        destruct f as [|f]; [lia|]. apply Hq. lia.
    + destruct (Z.leb_spec 192 n) as [Hp|Hp]; [|eexists; split; reflexivity].
      destruct (Nat.leb_spec (length msg) (S srcp)) as [|Hp1]; [eexists; split; reflexivity|].
      destruct (nth_error msg (S srcp)) as [lo|] eqn:Elo; [|apply nth_error_None in Elo; lia]. pose proof (bytes_nth _ _ _ Hmsg Elo) as Hlo.
      rewrite (target_pointed n lo Hn Hlo Hp). pose proof (target_pointed n lo Hn Hlo Hp) as Eq.
      pose proof (target_spec n lo Hlo) as Et. rewrite Eq in Et. assert (0 <= pointed n lo) as Ht0 by (rewrite Et; pose proof (Z.mod_pos_bound n 64 ltac:(lia)); unfold byte in Hlo; lia).
      destruct (Z.leb_spec (Z.of_nat (length msg)) (pointed n lo)); [eexists; split; reflexivity|].
      unfold int_add. unfold L in *. destruct (Z.ltb_spec 2147483647 (checked + 2)); [lia|].
      destruct (Z.leb_spec (Z.of_nat (length msg)) (checked + 2)); [eexists; split; reflexivity|].
      set (len2 := if len <? 0 then Z.of_nat (S srcp) - Z.of_nat src + 1 else len).
      destruct (IH src dstsiz (Z.to_nat (pointed n lo)) dst len2 (checked + 2)) as (r & Er & Hr); [lia | lia | | lia | lia |].
      { unfold unpack_bound, L in *. destruct (Z.ltb_spec checked (Z.of_nat (length msg))), (Z.ltb_spec (checked + 2) (Z.of_nat (length msg))); lia. }
      exists r. split; [exact Er|]. destruct r as [e|[len' dst']]; [exact Hr|]. destruct Hr as (ls & Hna & Hwf & -> & Hl1 & Hl2 & _). exists ls.
      split; [apply (name_pointer msg srcp n lo); [exact Hp | apply slice_cons; [exact En | apply slice_cons; [exact Elo | reflexivity]] | exact Hna]|].
      split; [exact Hwf|]. split; [reflexivity|]. split; [exact Hl1|]. split.
      * intros Hpos. unfold len2 in Hl2. destruct (Z.ltb_spec len 0); [lia | auto].
      * intros Hneg Hle. exists (S (S srcp)). split; [|split; [lia|]].
        -- intros f Hf'. cbn [skip_loop]. destruct (Nat.ltb_spec srcp (length msg)); [|lia]. rewrite En, flags_low, flags_high by exact Hn.
           destruct (Z.eqb_spec n 0); [lia|]. destruct (Z.ltb_spec n 64); [lia|]. destruct (Z.leb_spec 192 n); [|lia].
           destruct (Nat.eqb_spec (S srcp) (length msg)); [lia | reflexivity].
        -- unfold len2 in Hl2. destruct (Z.ltb_spec len 0); [|lia]. rewrite Hl2 by lia. lia.
Qed.
End Unpack.

(** ** Names whose pointers lead backwards *)

(** A name at [p], in a piece that begins at [s] and ends at [e]; a pointer leads to a
    piece that ends at [s] or before. *)
Inductive bname (msg : list Z) : nat -> nat -> nat -> list (list Z) -> Prop :=
| bname_root s p : nth_error msg p = Some 0 -> bname msg s p (S p) []
| bname_label s p e l ls : wf_label l -> slice msg p (enc_label l) -> bname msg s (p + S (length l)) e ls -> bname msg s p e (l :: ls)
| bname_pointer s p n lo e' ls : 192 <= n -> slice msg p [n; lo] -> bname msg (Z.to_nat (pointed n lo)) (Z.to_nat (pointed n lo)) e' ls -> (e' <= s)%nat ->
    bname msg s p (p + 2) ls.

Lemma bname_end msg s p e ls : bname msg s p e ls -> (p < e <= length msg)%nat.
Proof.
  induction 1 as [s p E|s p e l ls Hw Hs Hb IH|s p n lo e' ls Hn Hs Hb IH He].
  - assert (p < length msg)%nat by (apply nth_error_Some; congruence). lia.
  - lia.
  - apply slice_length in Hs; [|discriminate]. cbn [length] in Hs. lia.
Qed.

Lemma bname_wf msg s p e ls : bname msg s p e ls -> wf_labels ls.
Proof. unfold wf_labels. induction 1; auto. Qed.

Lemma bname_start msg s s' p e ls : bname msg s p e ls -> (s <= s')%nat -> bname msg s' p e ls.
Proof.
  intros H. revert s'. induction H as [s p E|s p e l ls Hw Hs Hb IH|s p n lo e' ls Hn Hs Hb IH He]; intros s' Hle.
  - constructor. exact E.
  - apply bname_label; auto.
  - eapply bname_pointer; [exact Hn | exact Hs | exact Hb | lia].
Qed.

(** Messages that agree in front of [k]. *)
Definition agree (k : nat) (m m' : list Z) : Prop := firstn k m = firstn k m'.

Lemma agree_le k k' m m' : agree k m m' -> (k' <= k)%nat -> agree k' m m'.
Proof.
  unfold agree. intros H Hk. replace k' with (Nat.min k' k) by lia. rewrite <- !firstn_firstn, H. reflexivity.
Qed.

Lemma slice_agree k m m' p l : slice m p l -> agree k m m' -> (p + length l <= k)%nat -> slice m' p l.
Proof.
  unfold slice, agree. intros H E Hk.
  assert (F : forall x : list Z, firstn (length l) (skipn p x) = firstn (length l) (skipn p (firstn k x))).
  { intros x. rewrite skipn_firstn_comm, firstn_firstn. f_equal. lia. }
  rewrite F, <- E, <- F. exact H.
Qed.

Lemma nth_agree k m m' p : agree k m m' -> (p < k)%nat -> nth_error m' p = nth_error m p.
Proof.
  unfold agree. intros E Hk.
  assert (F : forall x : list Z, nth_error x p = nth_error (firstn k x) p) by (intros x; rewrite nth_error_firstn; destruct (Nat.ltb_spec p k); [reflexivity | lia]).
  rewrite (F m'), <- E, <- F. reflexivity.
Qed.

Lemma bname_agree m m' s p e ls : bname m s p e ls -> forall k, agree k m m' -> (s <= p)%nat -> (e <= k)%nat -> bname m' s p e ls.
Proof.
  induction 1 as [s p E|s p e l ls Hw Hs Hb IH|s p n lo e' ls Hn Hs Hb IH He]; intros k Ha Hsp Hk.
  - constructor. rewrite (nth_agree k m m' p Ha) by lia. exact E.
  - pose proof (bname_end _ _ _ _ _ Hb). apply bname_label; [exact Hw | | apply (IH k); [exact Ha | lia | exact Hk]].
    apply (slice_agree k m); [exact Hs | exact Ha | unfold enc_label; cbn [length]; lia].
  - eapply bname_pointer; [exact Hn | apply (slice_agree k m); [exact Hs | exact Ha | cbn [length]; lia] | apply (IH k); [exact Ha | lia | lia] | exact He].
Qed.

Lemma encode_cons l ls : encode (l :: ls) = Z.of_nat (length l) :: l ++ encode ls.
Proof. unfold encode. cbn [map concat enc_label app]. rewrite <- app_assoc. reflexivity. Qed.

Lemma encode_length l ls : length (encode (l :: ls)) = (S (length l) + length (encode ls))%nat.
Proof. rewrite encode_cons. cbn [length]. rewrite length_app. lia. Qed.

Lemma encode_pos ls : (1 <= length (encode ls))%nat.
Proof. unfold encode. rewrite length_app. cbn [length]. lia. Qed.

(** A name with backward pointers is unpacked if there is room for it. *)
Lemma unpack_loop_complete msg s p e ls : Forall byte msg -> Z.of_nat (length msg) < 2 ^ 30 -> bname msg s p e ls ->
  forall fuel src dstsiz dst len checked, (s <= p)%nat -> (len < 0 -> (src <= p)%nat) -> (e - p + s < fuel)%nat -> 0 <= checked ->
  checked <= Z.of_nat (length msg) - Z.of_nat e + (Z.of_nat p - Z.of_nat s) -> Z.of_nat (length (dst ++ encode ls)) <= dstsiz ->
  unpack_loop fuel msg src dstsiz p dst len checked = Some (inr (if len <? 0 then Z.of_nat e - Z.of_nat src else len, dst ++ encode ls)).
Proof.
  intros Hmsg Hsm Hb. induction Hb as [s p E|s p e l ls Hw Hs Hb IH|s p n lo e' ls Hn Hs Hb IH He]; intros fuel src dstsiz dst len checked Hsp Hsrc Hf Hc Hck Hd.
  - destruct fuel as [|fuel]; [lia|]. cbn [unpack_loop]. rewrite E. cbn [Z.eqb]. rewrite length_app in Hd. cbn in Hd.
    destruct (Z.ltb_spec (Z.of_nat (length dst)) dstsiz); [reflexivity | lia].
  - destruct fuel as [|fuel]; [lia|]. pose proof (bname_end _ _ _ _ _ Hb) as He. destruct Hw as [Hlen Hby]. unfold enc_label in Hs. destruct (slice_uncons _ _ _ _ Hs) as [En Hs'].
    cbn [unpack_loop]. rewrite En. rewrite flags_low by (unfold byte; lia). destruct (Z.eqb_spec (Z.of_nat (length l)) 0); [lia|].
    destruct (Z.ltb_spec (Z.of_nat (length l)) 64); [|lia]. destruct (Z.leb_spec 64 (Z.of_nat (length l))); [lia|].
    rewrite length_app, encode_length in Hd. pose proof (encode_pos ls).
    destruct (Z.leb_spec (dstsiz - Z.of_nat (length dst)) (Z.of_nat (length l) + 1)); [lia|].
    destruct (Z.leb_spec (Z.of_nat (length msg) - Z.of_nat (S p)) (Z.of_nat (length l))); [lia|]. cbn [orb].
    unfold int_add. destruct (Z.ltb_spec 2147483647 (checked + (Z.of_nat (length l) + 1))); [lia|]. rewrite Nat2Z.id. unfold slice in Hs'. rewrite Hs'.
    replace (S p + length l)%nat with (p + S (length l))%nat by lia. rewrite IH; [|lia|lia|lia|lia|lia|].
    + rewrite encode_cons, <- app_assoc. reflexivity.
    + rewrite !length_app. cbn [length]. lia.
  - destruct fuel as [|fuel]; [lia|]. pose proof (bname_end _ _ _ _ _ Hb) as He'. destruct (slice_uncons _ _ _ _ Hs) as [En Hs']. destruct (slice_uncons _ _ _ _ Hs') as [El _].
    pose proof (bytes_nth _ _ _ Hmsg En) as Hbn. pose proof (bytes_nth _ _ _ Hmsg El) as Hbl.
    assert (Hpl : (S p < length msg)%nat) by (apply nth_error_Some; congruence).
    cbn [unpack_loop]. rewrite En, flags_low, flags_high by exact Hbn. destruct (Z.eqb_spec n 0); [lia|]. destruct (Z.ltb_spec n 64); [lia|]. destruct (Z.leb_spec 192 n); [|lia].
    destruct (Nat.leb_spec (length msg) (S p)); [lia|]. rewrite El, (target_pointed n lo Hbn Hbl Hn). destruct (Z.leb_spec (Z.of_nat (length msg)) (pointed n lo)); [lia|].
    unfold int_add. destruct (Z.ltb_spec 2147483647 (checked + 2)); [lia|]. destruct (Z.leb_spec (Z.of_nat (length msg)) (checked + 2)); [lia|].
    assert (Hl : (if len <? 0 then Z.of_nat (S p) - Z.of_nat src + 1 else len) = (if len <? 0 then Z.of_nat (p + 2) - Z.of_nat src else len)) by (destruct (len <? 0); lia).
    rewrite IH; [|lia| |lia|lia|lia|exact Hd]; rewrite Hl; destruct (Z.ltb_spec len 0).
    + destruct (Z.ltb_spec (Z.of_nat (p + 2) - Z.of_nat src) 0); [lia | reflexivity].
    + destruct (Z.ltb_spec len 0); [lia | reflexivity].
    + lia.
    + lia.
Qed.

(** ** Finding a name *)

Definition lower (ls : list (list Z)) : list (list Z) := map (map mklower) ls.

Lemma label_eq_spec l : forall d rest msg cp, length d = length l -> slice msg cp l ->
  exists b, label_eq (length l) (d ++ rest) msg cp = Some b /\ (b = true -> map mklower l = map mklower d).
Proof.
  induction l as [|x l IH]; intros d rest msg cp Hd Hs; destruct d as [|y d]; try discriminate; cbn [label_eq length app].
  - exists true. auto.
  - destruct (slice_uncons _ _ _ _ Hs) as [E Hs']. rewrite E. destruct (Z.eqb_spec (mklower y) (mklower x)) as [Exy|_].
    + destruct (IH d rest msg (S cp) ltac:(cbn in Hd; lia) Hs') as (b & Eb & Hb). exists b. split; [exact Eb|]. intros ->. cbn [map]. rewrite Exy, Hb by reflexivity. reflexivity.
    + exists false. split; [reflexivity | discriminate].
Qed.

Lemma bname_first msg s p e ls : bname msg s p e ls -> exists n, nth_error msg p = Some n /\ (n = 0 <-> ls = [] /\ e = S p).
Proof.
  intros H. destruct H as [s p E|s p e l ls [Hl _] Hs Hb|s p n lo e' ls Hn Hs Hb He].
  - exists 0. split; [exact E | tauto].
  - destruct (slice_uncons _ _ _ _ Hs) as [E _]. exists (Z.of_nat (length l)). split; [exact E|]. split; [lia | intros [? _]; discriminate].
  - destruct (slice_uncons _ _ _ _ Hs) as [E _]. exists n. split; [exact E|]. split; lia.
Qed.

Lemma dn_compare_spec msg s p e ls : Forall byte msg -> bname msg s p e ls -> forall fuel dls, (s <= p)%nat -> (e - p + s < fuel)%nat -> wf_labels dls -> dls <> [] ->
  exists r, dn_compare fuel msg (encode dls) p = Some r /\ r <> Illegal /\ (r = Found -> lower ls = lower dls).
Proof.
  intros Hmsg Hb. induction Hb as [s p E|s p e l ls Hw Hs Hb IH|s p n lo e' ls Hn Hs Hb IH He]; intros fuel dls Hsp Hf Hd Hne; (destruct fuel as [|fuel]; [lia|]); cbn [dn_compare].
  - rewrite E. exists Next. split; [reflexivity|]. split; discriminate.
  - pose proof (bname_end _ _ _ _ _ Hb) as Hend. unfold enc_label in Hs. destruct (slice_uncons _ _ _ _ Hs) as [En Hs']. destruct Hw as [Hlen _]. rewrite En, flags_low by (unfold byte; lia).
    destruct (Z.eqb_spec (Z.of_nat (length l)) 0); [lia|]. destruct (Z.ltb_spec (Z.of_nat (length l)) 64); [|lia].
    destruct dls as [|d dls]; [contradiction|]. inversion Hd as [|? ? Hd0 Hd']; subst. rewrite encode_cons.
    destruct (Z.eqb_spec (Z.of_nat (length l)) (Z.of_nat (length d))) as [El|_]; cbn [negb]; [|exists Next; repeat split; discriminate]. rewrite Nat2Z.id.
    destruct (label_eq_spec l d (encode dls) msg (S p) ltac:(lia) Hs') as (b & Eb & Hbt). rewrite Eb. destruct b; cbn [negb]; [|exists Next; repeat split; discriminate].
    specialize (Hbt eq_refl). rewrite skipn_app, skipn_all2, (ltac:(lia) : (length l - length d = 0)%nat) by lia. cbn [app skipn].
    replace (S p + length l)%nat with (p + S (length l))%nat by lia. destruct dls as [|d' dls].
    + cbn [encode map concat app nth_error Z.eqb negb]. destruct (bname_first _ _ _ _ _ Hb) as (c & Ec & Hc). rewrite Ec. destruct (Z.eqb_spec c 0) as [E0|_].
      * exists Found. split; [reflexivity|]. split; [discriminate|]. intros _. apply Hc in E0 as [-> _]. cbn [lower map]. rewrite Hbt. reflexivity.
      * exists Next. repeat split; discriminate.
    + assert (nth_error (encode (d' :: dls)) 0 = Some (Z.of_nat (length d'))) as -> by (rewrite encode_cons; reflexivity). inversion Hd' as [|? ? [Hd1 _] _]; subst. destruct (Z.eqb_spec (Z.of_nat (length d')) 0); [lia|]. cbn [negb].
      destruct (IH fuel (d' :: dls) ltac:(lia) ltac:(lia) Hd' ltac:(discriminate)) as (r & Er & Hr & Hfound). exists r. split; [exact Er|]. split; [exact Hr|].
      intros E. cbn [lower map] in *. rewrite Hbt. f_equal. exact (Hfound E).
  - pose proof (bname_end _ _ _ _ _ Hb) as Hend. destruct (slice_uncons _ _ _ _ Hs) as [En Hs']. destruct (slice_uncons _ _ _ _ Hs') as [El _].
    pose proof (bytes_nth _ _ _ Hmsg En) as Hbn. rewrite En, flags_low, flags_high by exact Hbn.
    destruct (Z.eqb_spec n 0); [lia|]. destruct (Z.ltb_spec n 64); [lia|]. destruct (Z.leb_spec 192 n); [|lia]. rewrite El. rewrite (target_pointed n lo Hbn (bytes_nth _ _ _ Hmsg El) Hn). apply IH; [lia | lia | exact Hd | exact Hne].
Qed.

Lemma find_suffix_spec msg dls : Forall byte msg -> wf_labels dls -> dls <> [] -> forall fuel o p e ls, bname msg o p e ls -> (o <= p)%nat -> (e - p <= fuel)%nat ->
  exists r q, find_suffix fuel msg (encode dls) p = Some (r, q) /\ r <> Illegal /\
    (r = Found -> Z.of_nat q < 16384 /\ exists ls', bname msg q q e ls' /\ lower ls' = lower dls).
Proof.
  intros Hmsg Hd Hne. induction fuel as [|fuel IH]; intros o p e ls Hb Hop Hf; pose proof (bname_end _ _ _ _ _ Hb) as Hend; [lia|].
  assert (Hb' : bname msg p p e ls) by (apply (bname_start _ o); assumption). cbn [find_suffix].
  assert (Hcmp : exists r, dn_compare (S (length msg)) msg (encode dls) p = Some r /\ r <> Illegal /\ (r = Found -> lower ls = lower dls)).
  { apply (dn_compare_spec msg p p e ls Hmsg Hb'); [lia | lia | exact Hd | exact Hne]. }
  destruct Hcmp as (r & Er & Hr & Hfound). destruct (bname_first _ _ _ _ _ Hb) as (b & Eb & Hb0). rewrite Eb. pose proof (bytes_nth _ _ _ Hmsg Eb) as Hbb.
  destruct (negb (b =? 0) && (Z.land b NS_CMPRSFLGS =? 0) && (Z.of_nat p <? 16384)) eqn:Ec; [|exists Next, p; repeat split; discriminate].
  apply andb_prop in Ec as [Ec Ep]. apply andb_prop in Ec as [Ec0 Ec]. rewrite flags_low in Ec by exact Hbb. rewrite Er. destruct r; [|clear Hfound|contradiction].
  - exists Found, p. split; [reflexivity|]. split; [discriminate|]. intros _. split; [lia|]. exists ls. auto.
  - inversion Hb as [? ? E|? ? ? l ls' Hw Hs Hb2|? ? n lo e' ? Hn Hs Hb2 He]; subst.
    + rewrite Eb in E. injection E as ->. discriminate.
    + destruct (slice_uncons _ _ _ _ Hs) as [En _]. assert (b = Z.of_nat (length l)) as -> by congruence. rewrite Nat2Z.id.
      replace (p + length l + 1)%nat with (p + S (length l))%nat by lia. apply (IH o _ _ ls'); [exact Hb2 | lia | lia].
    + destruct (slice_uncons _ _ _ _ Hs) as [En _]. assert (b = n) as -> by congruence. lia.
Qed.

(** The pointers are to names that end at [k] or before. *)
Definition names_ok (msg : list Z) (k : nat) (names : list nat) : Prop := Forall (fun o => exists e ls, bname msg o o e ls /\ (e <= k)%nat) names.

Lemma dn_find_spec msg k dls names : Forall byte msg -> wf_labels dls -> dls <> [] -> names_ok msg k names ->
  exists r, dn_find msg (encode dls) names = Some r /\
    (forall q, r = inr q -> Z.of_nat q < 16384 /\ exists e ls, bname msg q q e ls /\ (e <= k)%nat /\ lower ls = lower dls).
Proof.
  intros Hmsg Hd Hne. induction 1 as [|o names (e & ls & Hb & He) Hn IH]; cbn [dn_find].
  - exists (inl ENOENT). split; [reflexivity | discriminate].
  - pose proof (bname_end _ _ _ _ _ Hb) as Hend.
    destruct (find_suffix_spec msg dls Hmsg Hd Hne (S (length msg)) o o e ls Hb ltac:(lia) ltac:(lia)) as (r & q & Er & Hr & Hf). rewrite Er. destruct r; [|exact IH|contradiction].
    exists (inr q). split; [reflexivity|]. intros q' E. injection E as <-. destruct (Hf eq_refl) as (Hq & ls' & Hb' & Hl). split; [exact Hq|]. exists e, ls'. auto.
Qed.

(** ** Packing *)

Lemma store_spec m p l : (p + length l <= length m)%nat -> Forall byte m -> Forall byte l ->
  exists m', store m p l = Some m' /\ length m' = length m /\ Forall byte m' /\ agree p m m' /\ slice m' p l /\
    (forall k, (p + length l <= k)%nat -> skipn k m' = skipn k m).
Proof.
  intros Hp Hm Hl. unfold store. destruct (Nat.leb_spec (p + length l) (length m)); [|lia]. eexists. split; [reflexivity|].
  assert (Lp : length (firstn p m) = p) by (rewrite length_firstn; lia).
  split; [rewrite !length_app, Lp, length_skipn; lia|]. split; [|split; [|split]].
  - rewrite <- (firstn_skipn p m) in Hm. apply Forall_app in Hm as [Hm1 Hm2]. apply Forall_app. split; [exact Hm1|]. apply Forall_app. split; [exact Hl|].
    rewrite Nat.add_comm, <- skipn_skipn. rewrite <- (firstn_skipn (length l) (skipn p m)) in Hm2. apply Forall_app in Hm2. tauto.
  - unfold agree. rewrite firstn_app, Lp, Nat.sub_diag, firstn_O, app_nil_r, firstn_firstn. f_equal. lia.
  - unfold slice. rewrite skipn_app, Lp, Nat.sub_diag, skipn_all2 by lia. cbn [app skipn]. rewrite firstn_app, Nat.sub_diag, firstn_all, firstn_O, app_nil_r. reflexivity.
  - intros k Hk. rewrite !skipn_app, Lp. rewrite (skipn_all2 (firstn p m)), (skipn_all2 l) by lia. cbn [app]. rewrite skipn_skipn. f_equal. lia.
Qed.

(** The two bytes of a pointer. *)
Lemma pointer_bytes q : 0 <= q < 16384 -> let hi := Z.lor (Z.shiftr q 8) NS_CMPRSFLGS in let lo := Z.rem q 256 in
  byte hi /\ byte lo /\ 192 <= hi /\ pointed hi lo = q.
Proof.
  intros H hi lo. assert (Hq : 0 <= q / 256 < 64) by (split; [apply Z.div_pos | apply Z.div_lt_upper_bound]; lia).
  assert (hi = 192 + q / 256) as ->.
  { unfold hi, NS_CMPRSFLGS. rewrite Z.shiftr_div_pow2 by lia. change (2 ^ 8) with 256. rewrite Z.lor_comm. exact (lor_add_low 3 (q / 256) 6 ltac:(lia) ltac:(lia)). }
  assert (lo = q mod 256) as -> by (unfold lo; apply Z.rem_mod_nonneg; lia). pose proof (Z.mod_pos_bound q 256 ltac:(lia)).
  unfold byte. repeat (split; [lia|]). unfold pointed. pose proof (Z.div_mod q 256 ltac:(lia)). lia.
Qed.

Section Pack.
Context (search : option (list nat)) (last : option Z) (dst eob : nat).

(** The list of names when packing fails. *)
Definition old_names (names : list nat) : list nat := match search with Some s => s | None => names end.

Definition packed (m : list Z) (dstp : nat) (rest : list (list Z)) (names : list nat) (first : bool) (x : pack_result * list Z * list nat) : Prop :=
  let '(r, m', names') := x in
  length m' = length m /\ Forall byte m' /\ agree dstp m m' /\ skipn eob m' = skipn eob m /\
  match r with
  | inl e => e = EMSGSIZE /\ names' = old_names names /\ (eob < dstp + length (encode rest))%nat
  | inr len =>
      exists e ls, Z.of_nat e = Z.of_nat dst + len /\ (e <= eob)%nat /\ bname m' dst dstp e ls /\ lower ls = lower rest /\
        (names' = names \/ (first = true /\ exists x ls', names' = names ++ [x] /\ bname m' x x e ls'))
  end.

(** What a step needs to know of the search. *)
Lemma pack_search m rest : Forall byte m -> wf_labels rest -> match search with Some s => names_ok m dst s | None => True end ->
  exists found,
    (match search with
     | Some s => if negb (hd 0 (encode rest) =? 0) then let? r := dn_find m (encode rest) s in Some (match r with inr l => Some l | inl _ => None end) else Some None
     | None => Some None
     end) = Some found /\
    (forall q, found = Some q -> rest <> [] /\ Z.of_nat q < 16384 /\ exists e ls, bname m q q e ls /\ (e <= dst)%nat /\ lower ls = lower rest).
Proof using Type.
  intros Hm Hw Hs. destruct search as [s|]; [|exists None; split; [reflexivity | discriminate]]. destruct rest as [|l rest].
  - exists None. split; [reflexivity | discriminate].
  - destruct (dn_find_spec m dst (l :: rest) s Hm Hw ltac:(discriminate) Hs) as (r & Er & Hr). inversion Hw as [|? ? [Hl _] _]; subst.
    assert (negb (hd 0 (encode (l :: rest)) =? 0) = true) as -> by (rewrite encode_cons; cbn [hd]; destruct (Z.eqb_spec (Z.of_nat (length l)) 0); [lia | reflexivity]).
    rewrite Er. eexists. split; [reflexivity|]. intros q E. split; [discriminate|]. destruct r as [e|q']; [discriminate|]. injection E as <-. apply Hr. reflexivity.
Qed.

Lemma pack_loop_spec rest : forall fuel m dstp names first, Forall byte m -> wf_labels rest -> (length rest < fuel)%nat -> (dst <= dstp <= eob)%nat -> (eob <= length m)%nat ->
  match search with Some s => names_ok m dst s | None => True end ->
  exists x, pack_loop fuel search last dst eob m (encode rest) dstp names first = Some x /\
    packed m dstp rest names first x.
Proof using Type.
  induction rest as [|l rest IH]; intros fuel m dstp names first Hm Hw Hf Hd He Hs; (destruct fuel as [|fuel]; [lia|]).
  - cbn [pack_loop encode map concat app]. assert ((match search with
      | Some s => if negb (0 =? 0) then let? r := dn_find m [0] s in Some (match r with inr l => Some l | inl _ => None end) else Some None
      | None => Some None end) = Some (@None nat)) as -> by (destruct search; reflexivity).
    assert (Hsave : forall f, (match search, last with Some _, Some last => negb (0 =? 0) && (Z.of_nat (length names) + 1 <? last - 1) && (Z.of_nat dstp <? 16384) && f | _, _ => false end) = false)
      by (intros; destruct search, last; reflexivity).
    rewrite Hsave. change (64 <=? 0) with false. change (0 =? 0) with true. change (firstn (Z.to_nat (0 + 1)) [0]) with [0]. change (0 + 1) with 1. change (Z.to_nat 1) with 1%nat. cbn match.
    destruct (Z.ltb_spec (Z.of_nat eob - Z.of_nat dstp) 1) as [H|H].
    + eexists. split; [reflexivity|]. cbn [packed encode map concat app length]. unfold agree, old_names. repeat (split; [auto; lia|]). lia.
    + change (Z.of_nat (length [0]) <? 1) with false. cbn match. destruct (store_spec m dstp [0] ltac:(cbn [length]; lia) Hm ltac:(repeat constructor; lia)) as (m' & Es & L1 & B1 & A1 & S1 & K1).
      rewrite Es. eexists. split; [reflexivity|]. unfold packed. split; [exact L1|]. split; [exact B1|]. split; [exact A1|]. split; [apply K1; cbn [length]; lia|].
      exists (dstp + 1)%nat, []. split; [lia|]. split; [lia|]. split; [replace (dstp + 1)%nat with (S dstp) by lia; constructor; apply (slice_uncons _ _ _ _ S1)|]. split; [reflexivity | left; reflexivity].
  - inversion Hw as [|? ? Hwl Hw']; subst. destruct (Hwl) as [Hlen Hlb].
    destruct (pack_search m (l :: rest) Hm Hw Hs) as (found & Ef & Hfound). pose proof (encode_length l rest) as Hel. pose proof (encode_pos rest) as Hep.
    assert (Ehd : encode (l :: rest) = Z.of_nat (length l) :: l ++ encode rest) by apply encode_cons. set (n := Z.of_nat (length l)) in *.
    cbn [pack_loop]. rewrite Ehd in *. cbn [hd] in Ef. rewrite Ef. destruct found as [q|].
    + destruct (Hfound q eq_refl) as (_ & Hq & e & ls & Hb & Heq & Hlow). destruct (pointer_bytes (Z.of_nat q) ltac:(lia)) as (B1 & B2 & B3 & Et).
      destruct (Z.leb_spec (Z.of_nat eob - Z.of_nat dstp) 1) as [H|H].
      * eexists. split; [reflexivity|]. unfold packed. split; [reflexivity|]. split; [exact Hm|]. split; [reflexivity|]. split; [reflexivity|]. split; [reflexivity|]. split; [reflexivity | rewrite Ehd; lia].
      * destruct (store_spec m dstp [Z.lor (Z.shiftr (Z.of_nat q) 8) NS_CMPRSFLGS; Z.rem (Z.of_nat q) 256] ltac:(cbn [length]; lia) Hm ltac:(constructor; [exact B1 | constructor; [exact B2 | constructor]])) as (m' & Es & L1 & F1 & A1 & S1 & K1).
        rewrite Es. eexists. split; [reflexivity|]. unfold packed. split; [exact L1|]. split; [exact F1|]. split; [exact A1|]. split; [apply K1; cbn [length]; lia|].
        exists (dstp + 2)%nat, ls. split; [lia|]. split; [lia|]. split; [|split; [exact Hlow | left; reflexivity]].
        eapply bname_pointer; [exact B3 | exact S1 | rewrite Et, Nat2Z.id; apply (bname_agree m m' q q e ls Hb dst); [apply (agree_le dstp); [exact A1 | lia] | lia | exact Heq] | exact Heq].
    + clear Hfound. set (save := match search, last with Some _, Some _ => _ | _, _ => _ end). set (names1 := if save then names ++ [dstp] else names).
      destruct (Z.leb_spec 64 n); [unfold n in *; lia|]. destruct (Z.ltb_spec (Z.of_nat eob - Z.of_nat dstp) (n + 1)) as [H1|H1].
      * eexists. split; [reflexivity|]. unfold packed. split; [reflexivity|]. split; [exact Hm|]. split; [reflexivity|]. split; [reflexivity|]. split; [reflexivity|].
        split; [unfold old_names, names1, save; destruct search; [reflexivity | destruct last; reflexivity] | rewrite Ehd; unfold n in *; cbn [length]; rewrite length_app; lia].
      * destruct (Z.ltb_spec (Z.of_nat (length (n :: l ++ encode rest))) (n + 1)) as [H2|_]; [cbn [length] in H2; rewrite length_app in H2; unfold n in *; lia|].
        assert (Hn1 : Z.to_nat (n + 1) = S (length l)) by (unfold n; lia). rewrite Hn1. cbn [firstn skipn]. rewrite firstn_app, firstn_all, Nat.sub_diag, firstn_O, app_nil_r.
        rewrite skipn_app, skipn_all, Nat.sub_diag. cbn [app skipn].
        destruct (store_spec m dstp (n :: l) ltac:(cbn [length]; unfold n in *; lia) Hm ltac:(constructor; [unfold byte, n; lia | exact Hlb])) as (m1 & Es & L1 & F1 & A1 & S1 & K1). rewrite Es.
        destruct (Z.eqb_spec n 0); [unfold n in *; lia|].
        assert (Hs1 : match search with Some s => names_ok m1 dst s | None => True end).
        { destruct search as [s|]; [|exact I]. eapply Forall_impl; [|exact Hs]. cbn beta. intros o (e & ls & Hb & He'). exists e, ls. split; [|exact He'].
          apply (bname_agree m m1 o o e ls Hb dst); [apply (agree_le dstp); [exact A1 | lia] | lia | exact He']. }
        cbn [length] in Hf, S1, K1. destruct (IH fuel m1 (dstp + S (length l))%nat names1 (first && negb save) F1 Hw' ltac:(lia) ltac:(unfold n in *; lia) ltac:(lia) Hs1) as (x & Ex & Hx).
        exists x. split; [exact Ex|]. destruct x as [[r m'] names']. destruct Hx as (L2 & F2 & A2 & K2 & Hr). unfold packed.
        split; [lia|]. split; [exact F2|]. split; [unfold agree in *; rewrite A1; apply (agree_le _ dstp _ _ A2); lia|].
        split; [rewrite K2; apply K1; unfold n in *; lia|]. destruct r as [e|len].
        -- destruct Hr as (-> & -> & Hr). split; [reflexivity|]. split; [unfold old_names, names1, save; destruct search; [reflexivity | destruct last; reflexivity]|]. rewrite encode_length. lia.
        -- destruct Hr as (e & ls & E1 & E2 & Hb & Hlow & Hnames). exists e, (l :: ls). split; [exact E1|]. split; [exact E2|].
           assert (Hb0 : bname m' dst dstp e (l :: ls)).
           { apply bname_label; [exact Hwl | apply (slice_agree (dstp + S (length l)) m1); [exact S1 | exact A2 | unfold enc_label; cbn [length]; lia] | exact Hb]. }
           split; [exact Hb0|]. split; [cbn [lower map] in *; f_equal; exact Hlow|]. unfold names1 in Hnames.
           assert (Hsp : bname m' dstp dstp e (l :: ls)) by (apply (bname_start _ dst); [exact Hb0 | lia]).
           destruct save eqn:Esv; cbn [negb] in *; rewrite ?andb_false_r, ?andb_true_r in *.
           ++ assert (first = true) as Hfi by (unfold save in Esv; destruct search, last; try discriminate; apply andb_prop in Esv; tauto).
              destruct Hnames as [-> | [Hfi' _]]; [|discriminate]. right. split; [exact Hfi|]. exists dstp, (l :: ls). auto.
           ++ exact Hnames.
Qed.
End Pack.

Lemma pack_legal_spec ls : forall fuel l, wf_labels ls -> l <= NS_MAXCDNAME < l + 2 * Z.of_nat fuel ->
  pack_legal fuel (encode ls) l = Some (if NS_MAXCDNAME <? l + Z.of_nat (length (encode ls)) then Some EMSGSIZE else None).
Proof.
  induction ls as [|x ls IH]; intros fuel l Hw Hf; (destruct fuel as [|fuel]; [lia|]).
  - cbn [pack_legal encode map concat app length]. change (64 <=? 0) with false. change (0 =? 0) with true. cbn match. replace (l + 0 + 1) with (l + Z.of_nat 1) by lia.
    destruct (NS_MAXCDNAME <? _); reflexivity.
  - inversion Hw as [|? ? [Hl _] Hw']; subst. rewrite encode_length, encode_cons. cbn [pack_legal].
    destruct (Z.leb_spec 64 (Z.of_nat (length x))); [lia|]. destruct (Z.eqb_spec (Z.of_nat (length x)) 0); [lia|].
    replace (Z.to_nat (Z.of_nat (length x) + 1)) with (S (length x)) by lia. cbn [skipn]. rewrite skipn_app, skipn_all, Nat.sub_diag. cbn [app skipn].
    destruct (Z.ltb_spec NS_MAXCDNAME (l + Z.of_nat (length x) + 1)) as [H1|H1].
    + destruct (Z.ltb_spec NS_MAXCDNAME (l + Z.of_nat (S (length x) + length (encode ls)))); [reflexivity | lia].
    + rewrite IH by (try assumption; lia). do 2 f_equal.
      destruct (Z.ltb_spec NS_MAXCDNAME (l + Z.of_nat (length x) + 1 + Z.of_nat (length (encode ls)))), (Z.ltb_spec NS_MAXCDNAME (l + Z.of_nat (S (length x) + length (encode ls)))); reflexivity || lia.
Qed.

Lemma lower_length a : forall b, lower a = lower b -> length (encode a) = length (encode b).
Proof.
  induction a as [|x a IH]; intros [|y b] E; try discriminate; [reflexivity|]. unfold lower in *. cbn [map] in E. injection E as E1 E2.
  rewrite !encode_length, (IH b E2). apply (f_equal (@length Z)) in E1. rewrite !length_map in E1. lia.
Qed.

Lemma labels_count ls : wf_labels ls -> (2 * length ls < length (encode ls))%nat.
Proof.
  induction 1 as [|l ls [Hl _] Hw IH]; [cbn; lia|]. rewrite encode_length. cbn [length]. lia.
Qed.

(** ** Text *)

(** How a byte and a label are written. *)
Definition esc (c : Z) : list Z :=
  if special c then [92; c]
  else if negb (printable c) then [92; 48 + Z.quot c 100; 48 + Z.quot (Z.rem c 100) 10; 48 + Z.rem c 10]
  else [c].

Definition text_label (l : list Z) : list Z := concat (map esc l).
Definition text_tail (ls : list (list Z)) : list Z := concat (map (fun l => 46 :: text_label l) ls).
Definition text (ls : list (list Z)) : list Z := match ls with [] => [46] | l :: ls => text_label l ++ text_tail ls end.

Section Ntop.
Context (dstsiz : Z).

Lemma ntop_char_spec c dn : ntop_char c dstsiz dn = inr (dn ++ esc c) \/ (ntop_char c dstsiz dn = inl EMSGSIZE /\ dstsiz < Z.of_nat (length (dn ++ esc c)) + 1).
Proof using Type.
  unfold ntop_char, esc. destruct (special c); [|destruct (negb (printable c))].
  - destruct (Z.ltb_spec (dstsiz - Z.of_nat (length dn)) 2); [right; split; [reflexivity | rewrite length_app; cbn [length]; lia] | left; reflexivity].
  - destruct (Z.ltb_spec (dstsiz - Z.of_nat (length dn)) 4); [right; split; [reflexivity | rewrite length_app; cbn [length]; lia] | left; reflexivity].
  - destruct (Z.ltb_spec (dstsiz - Z.of_nat (length dn)) 2); [right; split; [reflexivity | rewrite length_app; cbn [length]; lia] | left; reflexivity].
Qed.

Lemma ntop_label_spec l : forall cp dn, ntop_label (length l) (l ++ cp) dstsiz dn = Some (inr (cp, dn ++ text_label l)) \/
  (ntop_label (length l) (l ++ cp) dstsiz dn = Some (inl EMSGSIZE) /\ dstsiz < Z.of_nat (length (dn ++ text_label l)) + 1).
Proof using Type.
  induction l as [|c l IH]; intros cp dn; cbn [ntop_label length app].
  - left. unfold text_label. cbn. rewrite app_nil_r. reflexivity.
  - unfold text_label in *. cbn [map concat]. destruct (ntop_char_spec c dn) as [E|[E H]]; rewrite E.
    + destruct (IH cp (dn ++ esc c)) as [E'|[E' H']]; rewrite E'; [left | right]; rewrite <- app_assoc in *; auto.
    + right. split; [reflexivity|]. rewrite app_assoc, length_app. lia.
Qed.

Lemma esc_pos c : (1 <= length (esc c))%nat.
Proof using Type. unfold esc. destruct (special c), (negb (printable c)); cbn; lia. Qed.

Lemma text_label_pos l : wf_label l -> text_label l <> [].
Proof using Type.
  intros [H _]. destruct l as [|c l]; [cbn in H; lia|]. unfold text_label. cbn [map concat]. pose proof (esc_pos c). destruct (esc c); [cbn in *; lia | discriminate].
Qed.

Lemma ntop_loop_spec ls : forall fuel dn, wf_labels ls -> (length ls < fuel)%nat ->
  let t := match dn with [] => match ls with [] => [] | l :: ls => text_label l ++ text_tail ls end | _ => text_tail ls end in
  ntop_loop fuel (encode ls) dstsiz dn = Some (inr (dn ++ t)) \/
  (ntop_loop fuel (encode ls) dstsiz dn = Some (inl EMSGSIZE) /\ dstsiz < Z.of_nat (length (dn ++ t)) + 1).
Proof using Type.
  induction ls as [|l ls IH]; intros fuel dn Hw Hf t; (destruct fuel as [|fuel]; [lia|]).
  - left. cbn. unfold t. destruct dn; cbn; rewrite ?app_nil_r; reflexivity.
  - inversion Hw as [|? ? Hl Hw']; subst. pose proof (text_label_pos l Hl) as Hne. destruct (Hl) as [Hlen _]. rewrite encode_cons. cbn [ntop_loop]. cbn [length] in Hf.
    destruct (Z.eqb_spec (Z.of_nat (length l)) 0); [lia|]. destruct (Z.leb_spec 64 (Z.of_nat (length l))); [lia|]. rewrite Nat2Z.id.
    assert (Hdn : (match dn with [] => inr dn | _ => ntop_put 46 dstsiz dn end) = inr (match dn with [] => [] | _ => dn ++ [46] end) \/
                  ((match dn with [] => inr dn | _ => ntop_put 46 dstsiz dn end) = inl EMSGSIZE /\ dn <> [] /\ dstsiz <= Z.of_nat (length dn))).
    { destruct dn as [|x dn]; [left; reflexivity|]. unfold ntop_put. destruct (Z.leb_spec dstsiz (Z.of_nat (length (x :: dn)))); [right; split; [reflexivity | split; [discriminate | assumption]] | left; reflexivity]. }
    destruct Hdn as [Hdn|(Hdn & Hd0 & Hd1)]; rewrite Hdn.
    + set (dn1 := match dn with [] => [] | _ => dn ++ [46] end). assert (Ht : dn ++ t = dn1 ++ text_label l ++ text_tail ls).
      { unfold dn1, t. destruct dn as [|x dn]; [reflexivity|]. unfold text_tail. cbn [map concat app]. rewrite <- app_assoc. reflexivity. }
      rewrite Ht. destruct (ntop_label_spec l (encode ls) dn1) as [E|[E H']]; rewrite E.
      * assert (Hd1 : dn1 ++ text_label l <> []) by (destruct dn1; [exact Hne | discriminate]).
        specialize (IH fuel (dn1 ++ text_label l) Hw' ltac:(lia)). cbn zeta in IH. destruct (dn1 ++ text_label l) as [|y ys] eqn:Ed; [contradiction|]. rewrite <- Ed in IH |- *. rewrite <- app_assoc in IH. exact IH.
      * right. split; [reflexivity|]. rewrite app_assoc, length_app. lia.
    + right. split; [reflexivity|]. rewrite length_app. lia.
Qed.

Lemma ntop_spec ls fuel : wf_labels ls -> (length ls < fuel)%nat ->
  ns_name_ntop fuel (encode ls) dstsiz = Some (if Z.of_nat (length (text ls)) + 1 <=? dstsiz then inr (text ls ++ [0]) else inl EMSGSIZE).
Proof using Type.
  intros Hw Hf. unfold ns_name_ntop. destruct (ntop_loop_spec ls fuel [] Hw Hf) as [E|[E H]]; rewrite E; f_equal.
  - cbn [app]. destruct ls as [|l ls].
    + unfold ntop_put. cbn [length text app]. destruct (Z.leb_spec dstsiz (Z.of_nat 0)), (Z.leb_spec (Z.of_nat 1 + 1) dstsiz); try lia; try reflexivity; cbn [length app].
      * destruct (Z.leb_spec dstsiz (Z.of_nat 1)); [lia | reflexivity].
      * destruct (Z.leb_spec dstsiz (Z.of_nat 1)); [reflexivity | lia].
    + inversion Hw as [|? ? Hl _]; subst. pose proof (text_label_pos l Hl) as Hne. cbn [text]. destruct (text_label l ++ text_tail ls) as [|y ys] eqn:Ed.
      { apply app_eq_nil in Ed as [? _]. contradiction. }
      rewrite <- Ed. unfold ntop_put. destruct (Z.leb_spec dstsiz (Z.of_nat (length (text_label l ++ text_tail ls)))), (Z.leb_spec (Z.of_nat (length (text_label l ++ text_tail ls)) + 1) dstsiz); try lia; reflexivity.
  - destruct ls as [|l ls]; [cbn in E; destruct fuel; discriminate|]. cbn [app text] in *. destruct (Z.leb_spec (Z.of_nat (length (text_label l ++ text_tail ls)) + 1) dstsiz); [lia | reflexivity].
Qed.
End Ntop.

Section Pton.
Context (dstsiz : Z).

Lemma pton_put_ok c dst : byte c -> Z.of_nat (length dst) < dstsiz -> pton_put c dstsiz dst = inr (dst ++ [c]).
Proof using Type.
  intros Hc Hd. unfold pton_put. destruct (Z.leb_spec dstsiz (Z.of_nat (length dst))); [lia|]. do 3 f_equal.
  change 255 with (2 ^ 8 - 1). rewrite land_low_mask by lia. apply Z.mod_small. exact Hc.
Qed.

(** The digits of an escaped byte. *)
Lemma esc_digits c : byte c ->
  isdigit (48 + Z.quot c 100) = true /\ isdigit (48 + Z.quot (Z.rem c 100) 10) = true /\ isdigit (48 + Z.rem c 10) = true /\
  (48 + Z.quot c 100 - 48) * 100 + (48 + Z.quot (Z.rem c 100) 10 - 48) * 10 + (48 + Z.rem c 10 - 48) = c.
Proof using Type.
  intros H. pose proof (byte_check (fun c => isdigit (48 + Z.quot c 100) && isdigit (48 + Z.quot (Z.rem c 100) 10) && isdigit (48 + Z.rem c 10) &&
    ((48 + Z.quot c 100 - 48) * 100 + (48 + Z.quot (Z.rem c 100) 10 - 48) * 10 + (48 + Z.rem c 10 - 48) =? c)) ltac:(vm_compute; reflexivity) c H) as E. cbn beta in E.
  apply andb_prop in E as [E E4%Z.eqb_eq]. apply andb_prop in E as [E E3]. apply andb_prop in E as [E1 E2]. auto.
Qed.

Lemma special_facts c : byte c -> special c = true -> isdigit c = false.
Proof using Type.
  intros H E. pose proof (byte_check (fun c => negb (special c && isdigit c)) ltac:(vm_compute; reflexivity) c H) as F. cbn beta in F. rewrite E in F. cbn in F. destruct (isdigit c); [discriminate | reflexivity].
Qed.

Lemma plain_facts c : byte c -> special c = false -> (c =? 92) = false /\ (c =? 46) = false.
Proof using Type.
  intros H E. pose proof (byte_check (fun c => special c || (negb (c =? 92) && negb (c =? 46))) ltac:(vm_compute; reflexivity) c H) as F. cbn beta in F. rewrite E in F. cbn in F.
  destruct (c =? 92), (c =? 46); auto; discriminate.
Qed.

Lemma pton_esc c src label dst : byte c -> Z.of_nat (length dst) < dstsiz ->
  pton_loop (esc c ++ src) false label dstsiz dst = pton_loop src false label dstsiz (dst ++ [c]).
Proof using Type.
  intros Hc Hd. unfold esc. destruct (special c) eqn:Es.
  - cbn [app pton_loop]. change (92 =? 92) with true. cbn match. rewrite (special_facts c Hc Es), (pton_put_ok c dst Hc Hd). reflexivity.
  - destruct (plain_facts c Hc Es) as [E1 E2]. destruct (negb (printable c)).
    + destruct (esc_digits c Hc) as (D1 & D2 & D3 & En). cbn [app pton_loop]. change (92 =? 92) with true. cbn match. rewrite D1, D2, D3. cbn [negb]. rewrite En.
      destruct (Z.ltb_spec 255 c); [unfold byte in Hc; lia|]. rewrite (pton_put_ok c dst Hc Hd). reflexivity.
    + cbn [app pton_loop]. rewrite E1, E2, (pton_put_ok c dst Hc Hd). reflexivity.
Qed.

Lemma pton_label l : forall src label dst, Forall byte l -> Z.of_nat (length dst + length l) <= dstsiz ->
  pton_loop (text_label l ++ src) false label dstsiz dst = pton_loop src false label dstsiz (dst ++ l).
Proof using Type.
  induction l as [|c l IH]; intros src label dst Hl Hd; unfold text_label in *; cbn [map concat app length] in *.
  - rewrite app_nil_r. reflexivity.
  - inversion Hl as [|? ? Hc Hl']; subst. rewrite <- app_assoc, pton_esc by (try assumption; lia). rewrite IH by (try assumption; rewrite length_app; cbn [length]; lia).
    rewrite <- app_assoc. reflexivity.
Qed.

Lemma end_label_ok pre l x : wf_label l -> Z.of_nat (length pre) < dstsiz ->
  end_label (length pre) dstsiz (pre ++ x :: l) = inr (Z.of_nat (length l), pre ++ enc_label l).
Proof using Type.
  intros [Hl Hb] Hd. unfold end_label. rewrite length_app. cbn [length]. replace (Z.of_nat (length pre + S (length l)) - Z.of_nat (length pre) - 1) with (Z.of_nat (length l)) by lia.
  rewrite flags_low by (unfold byte; lia). destruct (Z.ltb_spec (Z.of_nat (length l)) 64); [|lia]. cbn [negb].
  destruct (Z.leb_spec dstsiz (Z.of_nat (length pre))); [lia|]. do 2 f_equal. unfold set_label. rewrite firstn_app, firstn_all, Nat.sub_diag, firstn_O, app_nil_r.
  f_equal. change 255 with (2 ^ 8 - 1). rewrite land_low_mask, Z.mod_small by lia. unfold enc_label. f_equal.
  rewrite skipn_app, skipn_all2, (ltac:(lia) : (S (length pre) - length pre = 1)%nat) by lia. reflexivity.
Qed.

(** A label does not begin with a dot. *)
Lemma text_first l : wf_label l -> exists c t, text_label l = c :: t /\ (c =? 46) = false.
Proof using Type.
  intros [Hl Hb]. destruct l as [|c l]; [cbn in Hl; lia|]. inversion Hb as [|? ? Hc _]; subst. unfold text_label, esc. cbn [map concat].
  destruct (special c) eqn:E; [exists 92; eexists; split; reflexivity|]. destruct (plain_facts c Hc E) as [_ E2].
  destruct (negb (printable c)); [exists 92; eexists; split; reflexivity | exists c; eexists; split; [reflexivity | exact E2]].
Qed.

Lemma pton_labels ls : forall l pre x, wf_labels (l :: ls) -> Z.of_nat (length (pre ++ encode (l :: ls))) <= Z.min dstsiz NS_MAXCDNAME ->
  pton_loop (text_label l ++ text_tail ls) false (length pre) dstsiz (pre ++ [x]) = inr (0, pre ++ encode (l :: ls)).
Proof using Type.
  induction ls as [|l' ls IH]; intros l pre x Hw Hd; inversion Hw as [|? ? Hl Hw']; subst; rewrite length_app, encode_length in Hd; destruct (Hl) as [Hlen Hlb].
  - pose proof (encode_pos []). rewrite pton_label by (try assumption; rewrite length_app; cbn [length] in *; lia).
    rewrite <- app_assoc. cbn [app text_tail map concat pton_loop]. rewrite end_label_ok by (try assumption; lia).
    assert (He : length (pre ++ enc_label l) = (length pre + S (length l))%nat) by (rewrite length_app; reflexivity).
    unfold end_name. destruct (Z.eqb_spec (Z.of_nat (length l)) 0); [lia|]. cbn [negb andb]. rewrite (length_app (pre ++ enc_label l)), He. cbn [length].
    destruct (Z.leb_spec dstsiz (Z.of_nat (length pre + S (length l)))); [lia|].
    destruct (Z.ltb_spec NS_MAXCDNAME (Z.of_nat (length pre + S (length l) + 1))); [lia|]. do 2 f_equal. rewrite <- app_assoc, encode_cons. reflexivity.
  - pose proof (encode_pos (l' :: ls)). rewrite pton_label by (try assumption; rewrite length_app; cbn [length] in *; lia).
    rewrite <- app_assoc. unfold text_tail. cbn [map concat app]. fold (text_tail ls). cbn [pton_loop]. change (46 =? 92) with false. change (46 =? 46) with true. cbn match.
    rewrite end_label_ok by (try assumption; lia). inversion Hw' as [|? ? Hl' _]; subst. destruct (text_first l' Hl') as (c & t & Et & Ec). rewrite Et. cbn [app]. rewrite Ec.
    destruct (Z.eqb_spec (Z.of_nat (length l)) 0); [lia|]. cbn [orb]. change (c :: t ++ text_tail ls) with ((c :: t) ++ text_tail ls). rewrite <- Et.
    rewrite (IH l' (pre ++ enc_label l) 0 Hw'); [rewrite <- app_assoc, (encode_cons l); reflexivity|]. rewrite !length_app. cbn [enc_label length]. lia.
Qed.

Lemma pton_text ls : wf_labels ls -> Z.of_nat (length (encode ls)) <= Z.min dstsiz NS_MAXCDNAME ->
  ns_name_pton (text ls) dstsiz = inr (match ls with [] => 1 | _ => 0 end, encode ls).
Proof using Type.
  intros Hw Hd. unfold ns_name_pton. destruct ls as [|l ls]; [|exact (pton_labels ls l [] 0 Hw Hd)].
  cbn [text pton_loop]. change (46 =? 92) with false. change (46 =? 46) with true. cbn in Hd. cbn match.
  unfold end_label. cbn [length]. change (Z.land (Z.of_nat 1 - Z.of_nat 0 - 1) NS_CMPRSFLGS =? 0) with true. cbn [negb].
  destruct (Z.leb_spec dstsiz (Z.of_nat 0)); [lia|]. reflexivity.
Qed.

(** The labels that are complete, and the bytes of the next one behind its length; or
    more than a name can have. *)
Definition pton_inv (label : nat) (dst : list Z) : Prop :=
  exists pre x l, dst = pre ++ x :: l /\ label = length pre /\ Forall byte l /\
    ((exists ls, wf_labels ls /\ pre = concat (map enc_label ls)) \/ 255 < Z.of_nat (length dst)).

Definition good_name (d : list Z) : Prop := exists ls, wf_labels ls /\ d = encode ls /\ Z.of_nat (length d) <= Z.min dstsiz NS_MAXCDNAME.

Lemma end_label_spec label dst c d1 : pton_inv label dst -> end_label label dstsiz dst = inr (c, d1) ->
  length d1 = length dst /\ Z.of_nat label < dstsiz /\ c = Z.of_nat (length dst) - Z.of_nat label - 1 /\ 0 <= c /\
  ((exists ls, wf_labels ls /\ d1 = (if c =? 0 then encode ls else concat (map enc_label ls))) \/ 255 < Z.of_nat (length d1)).
Proof using Type.
  intros (pre & x & l & -> & -> & Hb & Hor) E. unfold end_label in E. assert (Ec : Z.of_nat (length (pre ++ x :: l)) - Z.of_nat (length pre) - 1 = Z.of_nat (length l)) by (rewrite length_app; cbn [length]; lia).
  rewrite Ec in *. destruct (negb (Z.land (Z.of_nat (length l)) NS_CMPRSFLGS =? 0)) eqn:Ef; [discriminate|]. destruct (Z.leb_spec dstsiz (Z.of_nat (length pre))) as [|Hd]; [discriminate|].
  injection E as <- <-. unfold set_label. rewrite firstn_app, firstn_all, Nat.sub_diag, firstn_O, app_nil_r.
  rewrite skipn_app, skipn_all2, (ltac:(lia) : (S (length pre) - length pre = 1)%nat) by lia. cbn [skipn app].
  split; [rewrite !length_app; reflexivity|]. split; [lia|]. split; [reflexivity|]. split; [lia|].
  destruct (Z.ltb_spec (Z.of_nat (length l)) 256) as [H|H]; [|right; rewrite length_app; cbn [length]; lia].
  rewrite flags_low in Ef by (unfold byte; lia). destruct (Z.ltb_spec (Z.of_nat (length l)) 64) as [H6|]; [|discriminate].
  destruct Hor as [(ls & Hw & ->)|Hor]; [left | right; rewrite length_app in *; exact Hor].
  change 255 with (2 ^ 8 - 1). rewrite land_low_mask, Z.mod_small by lia. destruct (Z.eqb_spec (Z.of_nat (length l)) 0) as [E0|E0].
  - exists ls. split; [exact Hw|]. destruct l; [reflexivity | cbn in E0; lia].
  - exists (ls ++ [l]). split; [apply Forall_app; split; [exact Hw | constructor; [split; [lia | exact Hb] | constructor]]|].
    rewrite map_app, concat_app. cbn [map concat]. rewrite app_nil_r. reflexivity.
Qed.

Lemma end_name_good label dst c d1 r x : pton_inv label dst -> end_label label dstsiz dst = inr (c, d1) -> end_name c dstsiz d1 r = inr x -> good_name (snd x).
Proof using Type.
  intros Hi E E'. destruct (end_label_spec label dst c d1 Hi E) as (Hl & Hd & Hc & Hc0 & Hor). unfold end_name in E'. unfold good_name. destruct (Z.eqb_spec c 0) as [->|Hc'].
  - cbn [negb andb] in E'. destruct (Z.ltb_spec NS_MAXCDNAME (Z.of_nat (length d1))) as [|H]; [discriminate|]. injection E' as <-. cbn [snd].
    destruct Hor as [(ls & Hw & ->)|H']; [|unfold NS_MAXCDNAME in H; lia]. exists ls. split; [exact Hw|]. split; [reflexivity | lia].
  - cbn [negb andb] in E'. destruct (Z.leb_spec dstsiz (Z.of_nat (length d1))) as [|Hb]; [discriminate|].
    destruct (Z.ltb_spec NS_MAXCDNAME (Z.of_nat (length (d1 ++ [0])))) as [|H]; [discriminate|]. injection E' as <-. cbn [snd]. rewrite length_app in H |- *. cbn [length] in *.
    destruct Hor as [(ls & Hw & ->)|H']; [|unfold NS_MAXCDNAME in H; lia]. exists ls. split; [exact Hw|]. split; [reflexivity | lia].
Qed.

Lemma pton_put_inv label dst c d1 : pton_inv label dst -> pton_put c dstsiz dst = inr d1 -> pton_inv label d1.
Proof using Type.
  intros (pre & x & l & -> & -> & Hb & Hor) E. unfold pton_put in E. destruct (_ <=? _); [discriminate|]. injection E as <-.
  exists pre, x, (l ++ [Z.land c 255]). split; [rewrite <- app_assoc; reflexivity|]. split; [reflexivity|].
  split; [apply Forall_app; split; [exact Hb | constructor; [|constructor]]|].
  - unfold byte. change 255 with (2 ^ 8 - 1). rewrite land_low_mask by lia. apply Z.mod_pos_bound. lia.
  - destruct Hor as [Hor|Hor]; [left; exact Hor | right; rewrite length_app; lia].
Qed.

Lemma pton_good n : forall src escaped label dst x, (length src <= n)%nat -> pton_inv label dst -> pton_loop src escaped label dstsiz dst = inr x -> good_name (snd x).
Proof using Type.
  induction n as [|n IH]; intros src escaped label dst x Hn Hi E; (destruct src as [|c src]; cbn [pton_loop length] in *; [|]); try lia.
  1, 2: destruct escaped; [discriminate|]; destruct (end_label label dstsiz dst) as [|[k d1]] eqn:El; [discriminate|]; exact (end_name_good _ _ _ _ _ _ Hi El E).
  assert (Hput : forall v s, (length s <= n)%nat -> (match pton_put v dstsiz dst with inl e => inl e | inr dst => pton_loop s false label dstsiz dst end) = inr x -> good_name (snd x)).
  { intros v s Hs Ep. destruct (pton_put v dstsiz dst) as [|d1] eqn:Epp; [discriminate|]. exact (IH _ _ _ _ _ Hs (pton_put_inv _ _ _ _ Hi Epp) Ep). }
  destruct escaped.
  - destruct (isdigit c); [|exact (Hput c src ltac:(lia) E)]. destruct src as [|c1 [|c2 src]]; try discriminate. cbn [length] in Hn.
    destruct (negb (isdigit c1)); [discriminate|]. destruct (negb (isdigit c2)); [discriminate|]. destruct (255 <? _); [discriminate|]. exact (Hput _ src ltac:(lia) E).
  - destruct (c =? 92); [exact (IH src true label dst x ltac:(lia) Hi E)|]. destruct (c =? 46); [|exact (Hput c src ltac:(lia) E)].
    destruct (end_label label dstsiz dst) as [|[k d1]] eqn:El; [discriminate|]. destruct src as [|c' src]; [exact (end_name_good _ _ _ _ _ _ Hi El E)|].
    destruct (end_label_spec _ _ _ _ Hi El) as (Hl & _ & _ & _ & Hor). destruct (Z.eqb_spec k 0) as [->|Hk]; [discriminate|]. destruct (c' =? 46); [discriminate|]. cbn [orb] in E.
    apply (IH (c' :: src) false (length d1) (d1 ++ [0]) x); [lia | | exact E]. exists d1, 0, []. split; [reflexivity|]. split; [reflexivity|]. split; [constructor|].
    destruct Hor as [Hor|Hor]; [left; exact Hor | right; rewrite length_app; lia].
Qed.
End Pton.

Lemma pton_name src dstsiz q d : ns_name_pton src dstsiz = inr (q, d) ->
  exists ls, wf_labels ls /\ d = encode ls /\ Z.of_nat (length d) <= Z.min dstsiz NS_MAXCDNAME.
Proof.
  intros E. apply (pton_good dstsiz (length src) src false 0 [0] (q, d)); [lia | | exact E].
  exists [], 0, []. split; [reflexivity|]. split; [reflexivity|]. split; [constructor|]. left. exists []. split; [constructor | reflexivity].
Qed.

(** A name packed into a message can be unpacked from it, up to the case of letters. *)
Lemma pack_unpack msg ls dst dstsiz dnptrs last : Forall byte msg -> Z.of_nat (length msg) < 2 ^ 30 -> wf_labels ls -> (dst + dstsiz <= length msg)%nat ->
  match dnptrs with Some s => names_ok msg dst s | None => True end ->
  let names := match dnptrs with Some s => s | None => [] end in
  exists r msg' names', ns_name_pack msg (encode ls) dst dstsiz dnptrs last = Some (r, msg', names') /\
    length msg' = length msg /\ Forall byte msg' /\ firstn dst msg' = firstn dst msg /\ skipn (dst + dstsiz) msg' = skipn (dst + dstsiz) msg /\
    match r with
    | inl e => e = EMSGSIZE /\ names' = names /\ (NS_MAXCDNAME < Z.of_nat (length (encode ls)) \/ (dstsiz < length (encode ls))%nat)
    | inr len =>
        0 < len <= Z.of_nat dstsiz /\ Z.of_nat (length (encode ls)) <= NS_MAXCDNAME /\ names_ok msg' (Z.to_nat (Z.of_nat dst + len)) names' /\
        exists ls', lower ls' = lower ls /\ wf_labels ls' /\ ns_name_unpack (S (length msg)) msg' (Z.of_nat dst) NS_MAXCDNAME = Some (inr (len, encode ls'))
    end.
Proof.
  intros Hm Hs Hw Hd Hn names. unfold ns_name_pack. fold names. pose proof (labels_count ls Hw) as Hcount.
  rewrite pack_legal_spec by (try assumption; unfold NS_MAXCDNAME; lia). cbn [Z.add]. destruct (Z.ltb_spec NS_MAXCDNAME (Z.of_nat (length (encode ls)))) as [Hbig|Hbig].
  - exists (inl EMSGSIZE), msg, names. repeat (split; [auto; reflexivity|]). left. lia.
  - destruct (pack_loop_spec dnptrs last dst (dst + dstsiz) ls 256 msg dst names true Hm Hw ltac:(unfold NS_MAXCDNAME in Hbig; lia) ltac:(lia) Hd Hn) as ([[r m'] names'] & Ep & Hp).
    exists r, m', names'. split; [exact Ep|]. destruct Hp as (L & B & A & K & Hr). unfold agree in A. split; [exact L|]. split; [exact B|]. split; [symmetry; exact A|]. split; [exact K|].
    destruct r as [e|len].
    + destruct Hr as (-> & -> & Hr). split; [reflexivity|]. split; [unfold old_names, names; destruct dnptrs; reflexivity | right; lia].
    + destruct Hr as (e & ls' & E1 & E2 & Hb & Hlow & Hnames). pose proof (bname_end _ _ _ _ _ Hb) as Hend. pose proof (lower_length ls' ls Hlow) as Hlen.
      split; [lia|]. split; [exact Hbig|]. replace (Z.to_nat (Z.of_nat dst + len)) with e by lia. split.
      * assert (Hold : names_ok m' e names).
        { unfold names. destruct dnptrs as [s|]; [|constructor]. eapply Forall_impl; [|exact Hn]. cbn beta. intros o (eo & lo & Hbo & Heo). exists eo, lo. split; [|lia].
          pose proof (bname_end _ _ _ _ _ Hbo). apply (bname_agree msg m' o o eo lo Hbo dst); [exact A | lia | exact Heo]. }
        destruct Hnames as [-> | (_ & x & lx & -> & Hbx)]; [exact Hold|]. apply Forall_app. split; [exact Hold|]. constructor; [exists e, lx; split; [exact Hbx | lia] | constructor].
      * exists ls'. split; [exact Hlow|]. split; [exact (bname_wf _ _ _ _ _ Hb)|]. unfold ns_name_unpack. destruct (Z.ltb_spec (Z.of_nat dst) 0); [lia|]. destruct (Z.leb_spec (Z.of_nat (length m')) (Z.of_nat dst)); [lia|]. cbn [orb].
        rewrite Nat2Z.id, (unpack_loop_complete m' dst dst e ls' B ltac:(lia) Hb) by (try lia; cbn [app]; lia). cbn [app]. do 3 f_equal. change (-1 <? 0) with true. cbn match. lia.
Qed.

(** ** Names as text

    The specification of the text form and of equality up to case, apart from the
    code: the characters are listed, and a name is read by a grammar. *)

(** The lower-case form of a letter. *)
Definition to_lower (c : Z) : Z :=
  match char_index c (codes "ABCDEFGHIJKLMNOPQRSTUVWXYZ"%string) 0 with
  | Some i => nth (Z.to_nat i) (codes "abcdefghijklmnopqrstuvwxyz"%string) 0
  | None => c
  end.

Definition same_name (a b : list (list Z)) : Prop := map (map to_lower) a = map (map to_lower) b.

Lemma mklower_spec c : mklower c = to_lower c.
Proof.
  destruct (Z_le_gt_dec 0 c) as [H0|H0]; [destruct (Z_lt_ge_dec c 256) as [H1|H1]|].
  - apply Z.eqb_eq. exact (byte_check (fun c => mklower c =? to_lower c) ltac:(vm_compute; reflexivity) c ltac:(unfold byte; lia)).
  - unfold to_lower. rewrite char_index_none by (unfold byte; lia || (vm_compute; repeat constructor; congruence)).
    unfold mklower. repeat case_cmp; cbn; (lia || reflexivity).
  - unfold to_lower. rewrite char_index_none by (unfold byte; lia || (vm_compute; repeat constructor; congruence)).
    unfold mklower. repeat case_cmp; cbn; (lia || reflexivity).
Qed.

Lemma lower_same a b : lower a = lower b <-> same_name a b.
Proof.
  assert (E : forall ls, lower ls = map (map to_lower) ls).
  { intros ls. apply map_ext. intros l. apply map_ext. exact mklower_spec. }
  unfold same_name. now rewrite !E.
Qed.

(** How a byte is shown: with a backslash if it means something in a zone file, as
    three decimal digits behind a backslash if it is no visible character. *)
Definition show_byte (c : Z) : list Z :=
  if existsb (Z.eqb c) (34 :: codes ".;\()@$"%string) then [92; c]
  else if (33 <=? c) && (c <=? 126) then [c]
  else [92; 48 + c / 100; 48 + (c / 10) mod 10; 48 + c mod 10].
Definition show_label (l : list Z) : list Z := concat (map show_byte l).
Definition show_name (ls : list (list Z)) : list Z :=
  match ls with [] => [46] | l :: ls => show_label l ++ concat (map (fun l => 46 :: show_label l) ls) end.

Lemma esc_show c : byte c -> esc c = show_byte c.
Proof.
  intros Hc. pose proof (byte_check (fun c => if list_eq_dec Z.eq_dec (esc c) (show_byte c) then true else false) ltac:(vm_compute; reflexivity) c Hc) as E.
  cbn beta in E. destruct (list_eq_dec _ _ _); [assumption | discriminate].
Qed.

Lemma text_show ls : wf_labels ls -> text ls = show_name ls.
Proof.
  intros Hw. assert (L : forall l, wf_label l -> text_label l = show_label l).
  { intros l [_ Hl]. unfold text_label, show_label. f_equal. apply map_ext_in. intros c Hc. apply esc_show. rewrite Forall_forall in Hl. auto. }
  destruct ls as [|l ls]; [reflexivity|]. inversion Hw as [|? ? Hl Hw']; subst. cbn [text show_name]. rewrite (L l Hl). f_equal.
  unfold text_tail. f_equal. apply map_ext_in. intros x Hx. f_equal. apply L. unfold wf_labels in Hw'. rewrite Forall_forall in Hw'. auto.
Qed.

(** What is read as one byte of a label. *)
Inductive char_text : list Z -> Z -> Prop :=
| ct_plain c : c <> 92 -> c <> 46 -> char_text [c] c
| ct_quoted c : ~ (48 <= c <= 57) -> char_text [92; c] c
| ct_decimal d1 d2 d3 : 0 <= d1 <= 9 -> 0 <= d2 <= 9 -> 0 <= d3 <= 9 -> 100 * d1 + 10 * d2 + d3 <= 255 ->
    char_text [92; 48 + d1; 48 + d2; 48 + d3] (100 * d1 + 10 * d2 + d3).

Inductive label_text : list Z -> list Z -> Prop :=
| lt_nil : label_text [] []
| lt_cons t c s l : char_text t c -> label_text s l -> label_text (t ++ s) (c :: l).

(** Labels with dots between them; the name is fully qualified with one at the end. *)
Inductive labels_text : list Z -> list (list Z) -> Z -> Prop :=
| ls_last t l : label_text t l -> l <> [] -> labels_text t [l] 0
| ls_last_dot t l : label_text t l -> l <> [] -> labels_text (t ++ [46]) [l] 1
| ls_more t l s ls q : label_text t l -> l <> [] -> labels_text s ls q -> labels_text (t ++ 46 :: s) (l :: ls) q.

(** The root is a dot, or nothing. *)
Inductive name_text : list Z -> list (list Z) -> Z -> Prop :=
| nt_empty : name_text [] [] 0
| nt_root : name_text [46] [] 1
| nt_labels s ls q : labels_text s ls q -> name_text s ls q.

(** A name within the limits of 63 bytes for a label and 255 for all. *)
Definition legal_name (src : list Z) (ls : list (list Z)) (q : Z) : Prop :=
  name_text src ls q /\ wf_labels ls /\ Z.of_nat (length (encode ls)) <= 255.

(** What is left of a name in the middle of a label: the rest [l] of the label and the
    labels behind it. *)
Definition rest_text (s l : list Z) (ls : list (list Z)) (q : Z) : Prop :=
  (label_text s l /\ ls = [] /\ q = 0) \/
  (exists t, s = t ++ [46] /\ label_text t l /\ ls = [] /\ q = 1) \/
  (exists t s', s = t ++ 46 :: s' /\ label_text t l /\ labels_text s' ls q).

Lemma rest_text_cons t c s l ls q : char_text t c -> rest_text s l ls q -> rest_text (t ++ s) (c :: l) ls q.
Proof.
  intros Hc [(H1 & H2 & H3)|[(u & -> & H1 & H2 & H3)|(u & s' & -> & H1 & H2)]].
  - left. split; [now constructor | auto].
  - right; left. exists (t ++ u). rewrite <- app_assoc. split; [reflexivity|]. split; [now constructor | auto].
  - right; right. exists (t ++ u), s'. rewrite <- app_assoc. split; [reflexivity|]. split; [now constructor | auto].
Qed.

Lemma rest_text_labels s l ls q : rest_text s l ls q -> l <> [] -> labels_text s (l :: ls) q.
Proof.
  intros [(H1 & -> & ->)|[(t & -> & H1 & -> & ->)|(t & s' & -> & H1 & H2)]] Hl; now constructor.
Qed.

Lemma label_text_nil t : label_text t [] -> t = [].
Proof. inversion 1. reflexivity. Qed.

Lemma rest_text_nil s ls q : rest_text s [] ls q -> s = [] /\ ls = [] /\ q = 0 \/ exists s', s = 46 :: s' /\ (s' = [] /\ ls = [] /\ q = 1 \/ labels_text s' ls q).
Proof.
  intros [(H1%label_text_nil & -> & ->)|[(t & -> & H1%label_text_nil & -> & ->)|(t & s' & -> & H1%label_text_nil & H2)]]; subst; cbn [app];
    [left; auto | right; exists []; split; [reflexivity | left; auto] | right; exists s'; auto].
Qed.

Lemma labels_text_first s ls q : labels_text s ls q -> exists c s', s = c :: s' /\ c <> 46.
Proof.
  assert (L : forall t l, label_text t l -> l <> [] -> exists c s', t = c :: s' /\ c <> 46).
  { intros t l [|u c r l' [x ? ?|x ?|d1 d2 d3 ? ? ? ?] Hr] Hl; [contradiction|..]; cbn [app]; eexists _, _; (split; [reflexivity|]); congruence || assumption. }
  intros [t l Ht Hl|t l Ht Hl|t l r ls' q' Ht Hl _]; destruct (L t l Ht Hl) as (c & u & -> & Hc); cbn [app]; eauto.
Qed.

Section Reading.
Context (dstsiz : Z).

Lemma pton_put_len c dst d : pton_put c dstsiz dst = inr d -> byte c -> d = dst ++ [c].
Proof using Type.
  unfold pton_put. destruct (_ <=? _); [discriminate|]. intros E Hc. injection E as <-. do 2 f_equal.
  change 255 with (2 ^ 8 - 1). rewrite land_low_mask by lia. now apply Z.mod_small.
Qed.

Lemma isdigit_val c : isdigit c = true -> exists d, 0 <= d <= 9 /\ c = 48 + d.
Proof using Type. unfold isdigit. intros H. apply andb_prop in H as [H1 H2]. exists (c - 48). lia. Qed.

(** The bytes in front of the label [l] under way are kept, with its length when it
    is complete. *)
Lemma end_label_len pre x l c d : end_label (length pre) dstsiz (pre ++ x :: l) = inr (c, d) ->
  c = Z.of_nat (length l) /\ length d = length (pre ++ x :: l) /\ (Z.of_nat (length l) < 256 -> (length l <= 63)%nat /\ d = pre ++ enc_label l).
Proof using Type.
  unfold end_label. rewrite length_app. cbn [length]. replace (Z.of_nat (length pre + S (length l)) - Z.of_nat (length pre) - 1) with (Z.of_nat (length l)) by lia.
  destruct (negb (Z.land (Z.of_nat (length l)) NS_CMPRSFLGS =? 0)) eqn:Ef; [discriminate|]. destruct (_ <=? _); [discriminate|]. intros E. injection E as <- <-.
  unfold set_label. rewrite firstn_app, firstn_all, Nat.sub_diag, firstn_O, app_nil_r.
  rewrite skipn_app, skipn_all2, (ltac:(lia) : (S (length pre) - length pre = 1)%nat) by lia. cbn [skipn app].
  split; [reflexivity|]. split; [rewrite length_app; cbn [length]; lia|]. intros H. rewrite flags_low in Ef by (unfold byte; lia).
  destruct (Z.ltb_spec (Z.of_nat (length l)) 64); [|discriminate]. split; [lia|]. unfold enc_label.
  change 255 with (2 ^ 8 - 1). rewrite land_low_mask, Z.mod_small by lia. reflexivity.
Qed.

Lemma end_name_len c d r q d' : end_name c dstsiz d r = inr (q, d') ->
  q = r /\ d' = (if c =? 0 then d else d ++ [0]) /\ Z.of_nat (length d') <= 255.
Proof using Type.
  unfold end_name. destruct (_ && _); [discriminate|]. destruct (Z.ltb_spec NS_MAXCDNAME (Z.of_nat (length (if negb (c =? 0) then d ++ [0] else d)))) as [|H]; [discriminate|].
  intros E. injection E as <- <-. unfold NS_MAXCDNAME in H. destruct (c =? 0); cbn [negb] in *; auto.
Qed.

(** The name that [pton_loop] has when it ends in the label [l0 ++ l]. *)
Definition finished (pre l : list Z) (ls : list (list Z)) (d : list Z) : Prop :=
  (l = [] -> ls = []) /\ d = pre ++ (match l with [] => encode [] | _ => encode (l :: ls) end) /\ (length l <= 63)%nat /\ wf_labels ls /\ Forall byte l.

Lemma finish_label pre x l c d r q d' : end_label (length pre) dstsiz (pre ++ x :: l) = inr (c, d) -> end_name c dstsiz d r = inr (q, d') -> Forall byte l ->
  q = r /\ finished pre l [] d' /\ (length (pre ++ x :: l) <= length d' <= 255)%nat.
Proof using Type.
  intros E1 E2 Hb. destruct (end_label_len _ _ _ _ _ E1) as (-> & Hlen & Hd). destruct (end_name_len _ _ _ _ _ E2) as (-> & E & Hl).
  assert (Hle : (length d <= length d')%nat) by (rewrite E; destruct (_ =? 0); [lia | rewrite length_app; lia]).
  rewrite Hlen in Hle. pose proof Hle as Hle'. rewrite length_app in Hle'. cbn [length] in Hle'. destruct (Hd ltac:(lia)) as [H63 ->].
  split; [reflexivity|]. split; [|lia]. split; [auto|]. split; [|split; [exact H63 | split; [constructor | exact Hb]]].
  rewrite E. destruct l as [|y l]; [reflexivity|]. destruct (Z.eqb_spec (Z.of_nat (length (y :: l))) 0); [cbn [length] in *; lia|].
  rewrite encode_cons, <- app_assoc. reflexivity.
Qed.

Lemma pton_reads n : forall src escaped pre x l0 q d, (length src <= n)%nat -> Forall byte src -> Forall byte l0 ->
  pton_loop src escaped (length pre) dstsiz (pre ++ x :: l0) = inr (q, d) ->
  (length (pre ++ x :: l0) <= length d <= 255)%nat /\
  exists l ls, rest_text (if escaped then 92 :: src else src) l ls q /\ finished pre (l0 ++ l) ls d.
Proof using Type.
  induction n as [|n IH]; intros src escaped pre x l0 q d Hn Hsrc Hl0 E; (destruct src as [|c src]; cbn [pton_loop length] in *; [|]); try lia.
  1, 2: destruct escaped; [discriminate|]; destruct (end_label _ dstsiz _) as [|[k d1]] eqn:El; [discriminate|];
    destruct (finish_label _ _ _ _ _ _ _ _ El E Hl0) as (-> & Hf & Hlen); (split; [exact Hlen|]); exists [], [];
    rewrite app_nil_r; (split; [left; split; [constructor | auto] | exact Hf]).
  inversion Hsrc as [|? ? Hc Hsrc']; subst.
  assert (Hput : forall v t s, char_text t v -> byte v -> Forall byte s -> (length s <= n)%nat ->
    (match pton_put v dstsiz (pre ++ x :: l0) with inl e => inl e | inr dst => pton_loop s false (length pre) dstsiz dst end) = inr (q, d) ->
    (length (pre ++ x :: l0) <= length d <= 255)%nat /\ exists l ls, rest_text (t ++ s) l ls q /\ finished pre (l0 ++ l) ls d).
  { intros v t s Ht Hv Hs Hsn Ep. destruct (pton_put v dstsiz _) as [|d1] eqn:Epp; [discriminate|]. rewrite (pton_put_len _ _ _ Epp Hv), <- app_assoc in Ep. cbn [app] in Ep.
    destruct (IH s false pre x (l0 ++ [v]) q d Hsn Hs) as (Hlen & l & ls & Hr & Hf); [apply Forall_app; auto | exact Ep|].
    split; [rewrite !length_app in *; cbn [length] in *; rewrite length_app in Hlen; lia|]. exists (v :: l), ls. split; [now apply rest_text_cons|]. now rewrite <- app_assoc in Hf. }
  destruct escaped.
  - destruct (isdigit c) eqn:Ed.
    + destruct src as [|c1 [|c2 src]]; try discriminate. cbn [length] in Hn. inversion Hsrc' as [|? ? Hc1 Hs1]; subst. inversion Hs1 as [|? ? Hc2 Hs2]; subst.
      destruct (isdigit c1) eqn:Ed1; [|discriminate]. destruct (isdigit c2) eqn:Ed2; [|discriminate]. cbn [negb] in E.
      destruct (isdigit_val _ Ed) as (d1 & R1 & ->). destruct (isdigit_val _ Ed1) as (d2 & R2 & ->). destruct (isdigit_val _ Ed2) as (d3 & R3 & ->).
      replace ((48 + d1 - 48) * 100 + (48 + d2 - 48) * 10 + (48 + d3 - 48)) with (100 * d1 + 10 * d2 + d3) in E by lia.
      destruct (Z.ltb_spec 255 (100 * d1 + 10 * d2 + d3)); [discriminate|].
      apply (Hput (100 * d1 + 10 * d2 + d3) [92; 48 + d1; 48 + d2; 48 + d3] src); [now constructor | unfold byte; lia | exact Hs2 | lia | exact E].
    + apply (Hput c [92; c] src); [|exact Hc | exact Hsrc' | lia | exact E]. constructor. unfold isdigit in Ed. apply andb_false_iff in Ed. lia.
  - destruct (Z.eqb_spec c 92) as [->|N92]; [exact (IH src true pre x l0 q d ltac:(lia) Hsrc' Hl0 E)|].
    destruct (Z.eqb_spec c 46) as [->|N46]; [|apply (Hput c [c] src); [now constructor | exact Hc | exact Hsrc' | lia | exact E]].
    destruct (end_label _ dstsiz _) as [|[k d1]] eqn:El; [discriminate|]. destruct src as [|c' src].
    + destruct (finish_label _ _ _ _ _ _ _ _ El E Hl0) as (-> & Hf & Hlen). split; [exact Hlen|]. exists [], []. rewrite app_nil_r.
      split; [|exact Hf]. right; left. exists []. split; [reflexivity|]. split; [constructor | auto].
    + destruct (end_label_len _ _ _ _ _ El) as (-> & Hlen & Hd). destruct (Z.eqb_spec (Z.of_nat (length l0)) 0) as [|Hk]; [discriminate|].
      destruct (Z.eqb_spec c' 46) as [|Nc']; [discriminate|]. cbn [orb] in E.
      destruct (IH (c' :: src) false d1 0 [] q d ltac:(lia) Hsrc' ltac:(constructor) E) as (Hl & l & ls & Hr & Hf1 & Hf2 & Hf3 & Hf4 & Hf5).
      rewrite length_app, Hlen in Hl. cbn [length] in Hl. pose proof Hl as Hl'. rewrite length_app in Hl'. cbn [length] in Hl'.
      destruct (Hd ltac:(lia)) as [H63 ->]. split; [lia|]. cbn [app] in *.
      assert (Hne : l <> []).
      { intros ->. apply rest_text_nil in Hr as [(? & _)|(s' & Es & _)]; [discriminate | congruence]. }
      exists [], (l :: ls). split; [right; right; exists [], (c' :: src); split; [reflexivity|]; split; [constructor | now apply rest_text_labels]|].
      rewrite app_nil_r. split; [intros ->; cbn in Hk; lia|]. split; [|split; [exact H63 | split; [|exact Hl0]]].
      * rewrite Hf2. destruct l as [|y l]; [contradiction|]. destruct l0 as [|z l0]; [cbn in Hk; lia|]. rewrite (encode_cons (z :: l0)), <- app_assoc. reflexivity.
      * constructor; [|exact Hf4]. split; [|exact Hf5]. destruct l; [contradiction | cbn [length] in *; lia].
Qed.

(** ** Every text of a legal name is read *)

Lemma pton_char t c src label dst : char_text t c -> byte c -> Z.of_nat (length dst) < dstsiz ->
  pton_loop (t ++ src) false label dstsiz dst = pton_loop src false label dstsiz (dst ++ [c]).
Proof using Type.
  intros Ht Hc Hd. destruct Ht as [c N1 N2|c Nd|d1 d2 d3 R1 R2 R3 Hle]; cbn [app pton_loop].
  - apply Z.eqb_neq in N1, N2. rewrite N1, N2, (pton_put_ok dstsiz c dst Hc Hd). reflexivity.
  - change (92 =? 92) with true. cbn match. assert (isdigit c = false) as -> by (unfold isdigit; apply andb_false_iff; lia).
    rewrite (pton_put_ok dstsiz c dst Hc Hd). reflexivity.
  - change (92 =? 92) with true. cbn match. assert (D : forall x, 0 <= x <= 9 -> isdigit (48 + x) = true) by (intros; unfold isdigit; apply andb_true_iff; lia).
    rewrite !D by assumption. cbn [negb]. replace ((48 + d1 - 48) * 100 + (48 + d2 - 48) * 10 + (48 + d3 - 48)) with (100 * d1 + 10 * d2 + d3) by lia.
    destruct (Z.ltb_spec 255 (100 * d1 + 10 * d2 + d3)); [lia|]. rewrite (pton_put_ok dstsiz _ dst Hc Hd). reflexivity.
Qed.

Lemma pton_label_text t l : label_text t l -> forall src label dst, Forall byte l -> Z.of_nat (length dst + length l) <= dstsiz ->
  pton_loop (t ++ src) false label dstsiz dst = pton_loop src false label dstsiz (dst ++ l).
Proof using Type.
  induction 1 as [|t c s l Hc Hl IH]; intros src label dst Hb Hd; [cbn; now rewrite app_nil_r|]. inversion Hb; subst. cbn [length] in Hd.
  rewrite <- app_assoc, (pton_char t c) by (try assumption; lia). rewrite IH by (try assumption; rewrite length_app; cbn [length]; lia). now rewrite <- app_assoc.
Qed.

Lemma pton_labels_text s ls q : labels_text s ls q -> forall pre x, wf_labels ls -> Z.of_nat (length (pre ++ encode ls)) <= Z.min dstsiz 255 ->
  pton_loop s false (length pre) dstsiz (pre ++ [x]) = inr (q, pre ++ encode ls).
Proof using Type.
  assert (Hend : forall pre l r, wf_label l -> Z.of_nat (length (pre ++ encode [l])) <= Z.min dstsiz 255 ->
    end_name (Z.of_nat (length l)) dstsiz (pre ++ enc_label l) r = inr (r, pre ++ encode [l])).
  { intros pre l r [Hl _] Hd. rewrite length_app, encode_length in Hd. cbn [encode map concat app length] in Hd.
    assert (He : length (pre ++ enc_label l) = (length pre + S (length l))%nat) by (rewrite length_app; reflexivity).
    unfold end_name. destruct (Z.eqb_spec (Z.of_nat (length l)) 0); [lia|]. cbn [negb andb]. rewrite (length_app (pre ++ enc_label l)), He. cbn [length].
    destruct (Z.leb_spec dstsiz (Z.of_nat (length pre + S (length l)))); [lia|]. unfold NS_MAXCDNAME.
    destruct (Z.ltb_spec 255 (Z.of_nat (length pre + S (length l) + 1))); [lia|]. do 2 f_equal. rewrite <- app_assoc, encode_cons. reflexivity. }
  induction 1 as [t l Ht Hl|t l Ht Hl|t l s ls q Ht Hl Hs IH]; intros pre x Hw Hd; inversion Hw as [|? ? Hwl Hw']; subst; destruct (Hwl) as [Hlen Hlb];
    pose proof Hd as Hd'; rewrite length_app, encode_length in Hd'; pose proof (encode_pos ls) as Hp || pose proof (encode_pos []) as Hp.
  - rewrite <- (app_nil_r t), (pton_label_text t l Ht) by (try assumption; rewrite length_app; cbn [length]; lia). rewrite <- app_assoc. cbn [app pton_loop].
    rewrite end_label_ok by (try assumption; lia). now apply Hend.
  - rewrite (pton_label_text t l Ht) by (try assumption; rewrite length_app; cbn [length]; lia). rewrite <- app_assoc. cbn [app pton_loop].
    change (46 =? 92) with false. change (46 =? 46) with true. cbn match. rewrite end_label_ok by (try assumption; lia). now apply Hend.
  - rewrite (pton_label_text t l Ht) by (try assumption; rewrite length_app; cbn [length]; lia). rewrite <- app_assoc. cbn [app pton_loop].
    change (46 =? 92) with false. change (46 =? 46) with true. cbn match. rewrite end_label_ok by (try assumption; lia).
    destruct (labels_text_first _ _ _ Hs) as (c & s' & -> & Hc). apply Z.eqb_neq in Hc. rewrite Hc.
    destruct (Z.eqb_spec (Z.of_nat (length l)) 0); [lia|]. cbn [orb].
    rewrite (IH (pre ++ enc_label l) 0 Hw'); [rewrite <- app_assoc, (encode_cons l); reflexivity|]. rewrite !length_app. cbn [enc_label length]. lia.
Qed.

Lemma pton_error n : forall src escaped label dst e, (length src <= n)%nat -> pton_loop src escaped label dstsiz dst = inl e -> e = EMSGSIZE.
Proof using Type.
  assert (L : forall label dst e, end_label label dstsiz dst = inl e -> e = EMSGSIZE) by (unfold end_label; intros label dst e; destruct (negb _); [congruence|]; destruct (_ <=? _); congruence).
  assert (N : forall c d r e, end_name c dstsiz d r = inl e -> e = EMSGSIZE) by (unfold end_name; intros c d r e; destruct (_ && _); [congruence|]; destruct (_ <? _); congruence).
  assert (P : forall c d e, pton_put c dstsiz d = inl e -> e = EMSGSIZE) by (unfold pton_put; intros c d e; destruct (_ <=? _); congruence).
  induction n as [|n IH]; intros src escaped label dst e Hn E; (destruct src as [|c src]; cbn [pton_loop length] in *; [|]); try lia.
  1, 2: destruct escaped; [congruence|]; destruct (end_label label dstsiz dst) as [|[k d]] eqn:El; [injection E as <-; eauto | eauto].
  assert (Hput : forall v s, (length s <= n)%nat -> (match pton_put v dstsiz dst with inl e => inl e | inr dst => pton_loop s false label dstsiz dst end) = inl e -> e = EMSGSIZE).
  { intros v s Hs Ep. destruct (pton_put v dstsiz dst) as [|d1] eqn:Epp; [injection Ep as <-; eauto | eauto]. }
  destruct escaped.
  - destruct (isdigit c); [|exact (Hput c src ltac:(lia) E)]. destruct src as [|c1 [|c2 src]]; try congruence. cbn [length] in Hn.
    destruct (negb (isdigit c1)); [congruence|]. destruct (negb (isdigit c2)); [congruence|]. destruct (255 <? _); [congruence|]. exact (Hput _ src ltac:(lia) E).
  - destruct (c =? 92); [exact (IH src true label dst e ltac:(lia) E)|]. destruct (c =? 46); [|exact (Hput c src ltac:(lia) E)].
    destruct (end_label label dstsiz dst) as [|[k d1]] eqn:El; [injection E as <-; eauto|]. destruct src as [|c' src]; [eauto|].
    destruct (_ || _); [congruence|]. exact (IH (c' :: src) false _ _ e ltac:(cbn [length] in *; lia) E).
Qed.
End Reading.

(** ns_name_pton reads exactly the legal names. *)
Lemma pton_legal src : Forall byte src ->
  match ns_name_pton src NS_MAXCDNAME with
  | inr (q, d) => exists ls, d = encode ls /\ legal_name src ls q
  | inl e => e = EMSGSIZE /\ forall ls q, ~ legal_name src ls q
  end.
Proof.
  intros Hb. unfold ns_name_pton. destruct (pton_loop src false 0 NS_MAXCDNAME [0]) as [e|[q d]] eqn:E.
  - split; [exact (pton_error _ _ _ _ _ _ _ (le_n _) E)|]. intros ls q (Ht & Hw & Hl).
    assert (ns_name_pton src NS_MAXCDNAME = inr (q, encode ls)) as E'; [|unfold ns_name_pton in E'; congruence].
    destruct Ht as [| |s ls q Ht]; [reflexivity | reflexivity|]. apply (pton_labels_text NS_MAXCDNAME s ls q Ht [] 0 Hw). unfold NS_MAXCDNAME. cbn [app]. lia.
  - destruct (pton_reads NS_MAXCDNAME (length src) src false [] 0 [] q d (le_n _) Hb ltac:(constructor) E) as (Hlen & l & ls & Hr & H1 & H2 & H3 & H4 & H5).
    cbn [app] in *. destruct l as [|c l].
    + rewrite (H1 eq_refl) in *. exists []. split; [exact H2|]. split; [|split; [constructor | cbn; lia]].
      apply rest_text_nil in Hr as [(-> & _ & ->)|(s' & -> & [(-> & _ & ->)|Hl])]; [constructor | constructor | inversion Hl].
    + exists ((c :: l) :: ls). split; [exact H2|]. split; [constructor; apply rest_text_labels; [exact Hr | discriminate]|].
      split; [constructor; [split; [cbn [length] in *; lia | exact H5] | exact H4]|]. rewrite <- H2. lia.
Qed.

(** ** Properties *)

(** C35: ns_name_unpack on any message of less than 2^30 bytes and any place in it, into
    a buffer of at least one byte: it returns after at most 2 * n + 1 iterations
    for n bytes, reads nothing outside of the message and writes nothing outside of
    the buffer, whatever the pointers in the message are.  On success it has stored
    the labels of the name at that place, at most as many bytes as the buffer has, and
    it returns the distance to the place to which ns_name_skip moves. *)
Theorem ns_name_unpack_correct msg src dstsiz : Forall byte msg -> Z.of_nat (length msg) < 2 ^ 30 -> 1 <= dstsiz ->
  exists r, ns_name_unpack (2 * length msg + 1) msg src dstsiz = Some r /\
    match r with
    | inl e => e = EMSGSIZE
    | inr (len, dst) =>
        exists ls, name_at msg (Z.to_nat src) ls /\ wf_labels ls /\ dst = encode ls /\ Z.of_nat (length dst) <= dstsiz /\
          0 < len /\ src + len <= Z.of_nat (length msg) /\ ns_name_skip (S (length msg)) msg (Z.to_nat src) = Some (inr (Z.to_nat (src + len)))
    end.
Proof.
  intros Hm Hs Hd. unfold ns_name_unpack. destruct (Z.ltb_spec src 0); [eexists; split; reflexivity|].
  destruct (Z.leb_spec (Z.of_nat (length msg)) src); [eexists; split; reflexivity|]. cbn [orb].
  destruct (unpack_loop_sound msg Hm Hs (2 * length msg + 1) (Z.to_nat src) dstsiz (Z.to_nat src) [] (-1) 0) as (r & Er & Hr); [lia | cbn; lia | | lia | lia |].
  { unfold unpack_bound. destruct (Z.ltb_spec 0 (Z.of_nat (length msg))); lia. }
  exists r. split; [exact Er|]. destruct r as [e|[len dst]]; [exact Hr|]. destruct Hr as (ls & H1 & H2 & H3 & H4 & _ & H5).
  destruct (H5 ltac:(lia) ltac:(lia)) as (q & Hq & Hq1 & ->). exists ls. split; [exact H1|]. split; [exact H2|]. split; [exact H3|]. split; [exact H4|].
  split; [lia|]. split; [lia|]. unfold ns_name_skip. rewrite (Hq (length msg)) by lia. do 2 f_equal. lia.
Qed.

Lemma ns_name_unpack_correct_witness :
  exists r, ns_name_unpack 13 [1; 97; 0; 2; 98; 192] 3 255 = Some r /\
    match r with
    | inl e => e = EMSGSIZE
    | inr (len, dst) =>
        exists ls, name_at [1; 97; 0; 2; 98; 192] (Z.to_nat 3) ls /\ wf_labels ls /\ dst = encode ls /\ Z.of_nat (length dst) <= 255 /\
          0 < len /\ 3 + len <= 6 /\ ns_name_skip 7 [1; 97; 0; 2; 98; 192] (Z.to_nat 3) = Some (inr (Z.to_nat (3 + len)))
    end.
Proof.
  exact (ns_name_unpack_correct [1; 97; 0; 2; 98; 192] 3 255 ltac:(unfold byte; repeat constructor; lia) ltac:(cbn; lia) ltac:(lia)).
Defined.

(** Names and their text.  What ns_name_ntop writes for a name, if the buffer is large
    enough for it and exactly then, ns_name_pton turns back into the name; and every
    name that ns_name_pton accepts from any string is well formed: labels of 1 to 63
    bytes, at most 255 bytes, no more than the buffer has. *)
Lemma ns_name_text_correct :
  (forall ls fuel dstsiz, wf_labels ls -> (length ls < fuel)%nat ->
     ns_name_ntop fuel (encode ls) dstsiz = Some (if Z.of_nat (length (text ls)) + 1 <=? dstsiz then inr (text ls ++ [0]) else inl EMSGSIZE)) /\
  (forall ls dstsiz, wf_labels ls -> Z.of_nat (length (encode ls)) <= Z.min dstsiz NS_MAXCDNAME ->
     exists q, ns_name_pton (text ls) dstsiz = inr (q, encode ls)) /\
  (forall src dstsiz q d, ns_name_pton src dstsiz = inr (q, d) ->
     exists ls, wf_labels ls /\ d = encode ls /\ Z.of_nat (length d) <= Z.min dstsiz NS_MAXCDNAME).
Proof.
  split; [|split].
  - intros ls fuel dstsiz Hw Hf. apply ntop_spec; assumption.
  - intros ls dstsiz Hw Hd. eexists. apply pton_text; assumption.
  - intros src dstsiz q d E. apply (pton_name src dstsiz q d E).
Qed.

Lemma ns_name_text_correct_witness :
  exists q, ns_name_pton (text [[119; 46; 255]; [99]]) 8 = inr (q, encode [[119; 46; 255]; [99]]).
Proof.
  apply ns_name_text_correct; [unfold wf_labels, wf_label, byte; repeat constructor; lia | cbn; lia].
Defined.

(** C36: A name compressed into a message can be uncompressed from it.  Given names in
    front of the place to which the list points (with backward pointers, as compressing
    makes them), ns_name_compress stores the name that any string of bytes is the text of
    there and nowhere else, sharing suffixes that are already in the message, and keeps the
    list valid for the next one; ns_name_uncompress there shows the same name up to the
    case of the letters A to Z, and gives the number of bytes that were written.  It fails only for
    a string that is not the text of a name of at most 255 bytes with labels of 1 to 63
    bytes, or where the name has no room, and leaves the list as it was.  The text form
    (escapes, dots) and the case of letters are those of [name_text], [show_name] and
    [same_name]. *)
Theorem ns_name_compress_uncompress msg src dst dstsiz dnptrs last : Forall byte msg -> Forall byte src ->
  Z.of_nat (length msg) < 2 ^ 30 -> (dst + dstsiz <= length msg)%nat ->
  match dnptrs with Some s => names_ok msg dst s | None => True end ->
  let names := match dnptrs with Some s => s | None => [] end in
  exists r msg' names', ns_name_compress msg src dst dstsiz dnptrs last = Some (r, msg', names') /\
    length msg' = length msg /\ Forall byte msg' /\ firstn dst msg' = firstn dst msg /\ skipn (dst + dstsiz) msg' = skipn (dst + dstsiz) msg /\
    match r with
    | inl e =>
        e = EMSGSIZE /\ names' = names /\
        ((forall ls q, ~ legal_name src ls q) \/ exists ls q, legal_name src ls q /\ (dstsiz < length (encode ls))%nat)
    | inr len =>
        0 < len <= Z.of_nat dstsiz /\ names_ok msg' (Z.to_nat (Z.of_nat dst + len)) names' /\
        exists q ls ls', legal_name src ls q /\ same_name ls' ls /\
          forall n, Z.of_nat (length (show_name ls')) + 1 <= n -> ns_name_uncompress (S (length msg)) msg' (Z.of_nat dst) n = Some (inr (len, show_name ls' ++ [0]))
    end.
Proof.
  intros Hm Hsrc Hs Hd Hn names. unfold ns_name_compress. fold names. pose proof (pton_legal src Hsrc) as HL.
  destruct (ns_name_pton src NS_MAXCDNAME) as [e|[q d]] eqn:Ep.
  - destruct HL as [-> HL]. exists (inl EMSGSIZE), msg, names. repeat (split; [auto; reflexivity|]). auto.
  - destruct HL as (ls & -> & HL). pose proof HL as (_ & Hw & Hlen).
    destruct (pack_unpack msg ls dst dstsiz dnptrs last Hm Hs Hw Hd Hn) as (r & msg' & names' & E & H1 & H2 & H3 & H4 & Hr).
    exists r, msg', names'. split; [exact E|]. repeat (split; [assumption|]). destruct r as [e|len].
    + destruct Hr as (-> & -> & [Hr|Hr]); [unfold NS_MAXCDNAME in Hr; lia|]. split; [reflexivity|]. split; [reflexivity|]. right. exists ls, q. auto.
    + destruct Hr as (Hr1 & _ & Hr2 & ls' & Hlow & Hw' & Eu). split; [exact Hr1|]. split; [exact Hr2|]. exists q, ls, ls'. split; [exact HL|]. split; [now apply lower_same|].
      intros n Hn'. rewrite <- (text_show ls' Hw') in *. unfold ns_name_uncompress. rewrite Eu. pose proof (labels_count ls' Hw'). pose proof (lower_length _ _ Hlow).
      rewrite ntop_spec by (try assumption; lia). destruct (Z.leb_spec (Z.of_nat (length (text ls')) + 1) n); [reflexivity | lia].
Qed.

Lemma ns_name_compress_uncompress_witness :
  exists r msg' names', ns_name_compress ([1; 97; 0] ++ repeat 0 20) [98; 46; 65] 3 20 (Some [0%nat]) (Some 8) = Some (r, msg', names') /\
    length msg' = 23%nat /\ Forall byte msg' /\ firstn 3 msg' = [1; 97; 0] /\ skipn (3 + 20) msg' = [] /\
    match r with
    | inl e =>
        e = EMSGSIZE /\ names' = [0%nat] /\
        ((forall ls q, ~ legal_name [98; 46; 65] ls q) \/ exists ls q, legal_name [98; 46; 65] ls q /\ (20 < length (encode ls))%nat)
    | inr len =>
        0 < len <= Z.of_nat 20 /\ names_ok msg' (Z.to_nat (Z.of_nat 3 + len)) names' /\
        exists q ls ls', legal_name [98; 46; 65] ls q /\ same_name ls' ls /\
          forall n, Z.of_nat (length (show_name ls')) + 1 <= n -> ns_name_uncompress 24 msg' (Z.of_nat 3) n = Some (inr (len, show_name ls' ++ [0]))
    end.
Proof.
  apply (ns_name_compress_uncompress ([1; 97; 0] ++ repeat 0 20) [98; 46; 65] 3 20 (Some [0%nat]) (Some 8)).
  - unfold byte. repeat constructor; lia.
  - unfold byte. repeat constructor; lia.
  - cbn. lia.
  - cbn. lia.
  - constructor; [|constructor]. exists 3%nat, [[97]]. split; [|lia]. apply (bname_label _ 0 0 3 [97] []); [unfold wf_label, byte; split; [cbn; lia | repeat constructor; lia] | reflexivity|].
    apply (bname_root ([1; 97; 0] ++ repeat 0 20) 0 2). reflexivity.
Defined.
