(* ===== verification/Inet.v ===== *)
(** * Network addresses as text (resolv/inet_ntop.c, inet_pton_length.c)

    Addresses are lists of bytes in network order, strings are lists of characters.
    What a function writes to a buffer is a list, and more than the buffer has is
    [None]. *)

From Stdlib Require Import ZArith List Lia Bool.
From S2P Require Import Prelude.
Import ListNotations.
#[local] Open Scope Z_scope.
#[local] Open Scope glibc_scope.

Definition INET_ADDRSTRLEN : Z := 16.
Definition INET6_ADDRSTRLEN : Z := 46.

(** A character of the address: '.' and ':'. *)
#[local] Abbreviation DOT := 46.
#[local] Abbreviation COLON := 58.

(** ** inet_ntop *)

Definition put_uint8 (word : Z) : list Z :=
  if 10 <=? word then
    let tp2 := if 100 <=? word then [48 + Z.rem word 10] else [] in
    let word := if 100 <=? word then Z.quot word 10 else word in
    let tp1 := 48 + Z.rem word 10 in
    let word := Z.quot word 10 in
    (48 + word) :: tp1 :: tp2
  else [48 + word].

(** _itoa_lower_digits[d] *)
Definition lower_digit (d : Z) : Z := if d <? 10 then 48 + d else 97 + d - 10.

Definition put_uint16 (word : Z) : list Z :=
  (if 4096 <=? word then [lower_digit (Z.land (Z.shiftr word 12) 15)] else []) ++
  (if 256 <=? word then [lower_digit (Z.land (Z.shiftr word 8) 15)] else []) ++
  (if 16 <=? word then [lower_digit (Z.land (Z.shiftr word 4) 15)] else []) ++
  [lower_digit (Z.land word 15)].

(** With the zero byte at the end. *)
Definition inet_ntop4_format (src : list Z) : list Z :=
  put_uint8 (nth 0 src 0) ++ [DOT] ++ put_uint8 (nth 1 src 0) ++ [DOT] ++ put_uint8 (nth 2 src 0) ++ [DOT] ++ put_uint8 (nth 3 src 0) ++ [0].

Inductive inet_errno := ENOSPC | EAFNOSUPPORT.

(** Text written to a buffer of [size] bytes. *)
Definition written (size : Z) (l : list Z) : option (list Z) := if Z.of_nat (length l) <=? size then Some l else None.

(** The direct format, or the one through a buffer of [max] bytes. *)
Definition format_to (max : Z) (text : list Z) (size : Z) : option (inet_errno + list Z) :=
  if max <=? size then let? l := written size text in Some (inr l)
  else
    let? tmp := written max text in
    if size <? Z.of_nat (length tmp) then Some (inl ENOSPC) else Some (inr tmp).

Definition inet_ntop4 (src : list Z) (size : Z) : option (inet_errno + list Z) := format_to INET_ADDRSTRLEN (inet_ntop4_format src) size.

Record best_t := { base : Z; len : Z }.

Definition in6_addr_addr16 (src : list Z) (idx : Z) : Z := 256 * nth (Z.to_nat (2 * idx)) src 0 + nth (Z.to_nat (2 * idx + 1)) src 0.

(** The body of the loop of inet_ntop6: best and cur. *)
Definition best_step (w i : Z) (st : best_t * best_t) : best_t * best_t :=
  let '(best, cur) := st in
  if w =? 0 then
    if base cur =? -1 then (best, {| base := i; len := 1 |}) else (best, {| base := base cur; len := len cur + 1 |})
  else if negb (base cur =? -1) then
    (if (base best =? -1) || (len best <? len cur) then cur else best, {| base := -1; len := len cur |})
  else (best, cur).

Fixpoint best_loop (n : nat) (src : list Z) (i : Z) (st : best_t * best_t) : best_t * best_t :=
  match n with O => st | S n => best_loop n src (i + 1) (best_step (in6_addr_addr16 src i) i st) end.

(** The end of the search. *)
Definition best_end (st : best_t * best_t) : best_t :=
  let '(best, cur) := st in
  let best := if negb (base cur =? -1) && ((base best =? -1) || (len best <? len cur)) then cur else best in
  if negb (base best =? -1) && (len best <? 2) then {| base := -1; len := len best |} else best.

Definition best_run (src : list Z) : best_t := best_end (best_loop 8 src 0 ({| base := -1; len := 0 |}, {| base := -1; len := 0 |})).

(** for (i = 0; i < 8; i++), with the [n] words that are left. *)
Fixpoint format6_loop (n : nat) (src : list Z) (best : best_t) (i : Z) (tp : list Z) : option (list Z) :=
  match n with
  | O => Some tp
  | S n =>
      if negb (base best =? -1) && (base best <=? i) && (i <? base best + len best) then
        format6_loop n src best (i + 1) (if i =? base best then tp ++ [COLON] else tp)
      else
        let tp := if negb (i =? 0) then tp ++ [COLON] else tp in
        if (i =? 6) && (base best =? 0) && ((len best =? 6) || ((len best =? 5) && (in6_addr_addr16 src 5 =? 65535))) then
          let? r := inet_ntop4 (skipn 12 src) (INET6_ADDRSTRLEN - Z.of_nat (length tp)) in
          match r with
          | inl _ => None    (* inet_ntop6 would go on with a null pointer *)
          | inr l => Some (tp ++ removelast l)
          end
        else format6_loop n src best (i + 1) (tp ++ put_uint16 (in6_addr_addr16 src i))
  end.

Definition inet_ntop6_format (src : list Z) (best : best_t) : option (list Z) :=
  let? tp := format6_loop 8 src best 0 [] in
  let tp := if negb (base best =? -1) && (base best + len best =? 8) then tp ++ [COLON] else tp in
  Some (tp ++ [0]).

Definition inet_ntop6 (src : list Z) (size : Z) : option (inet_errno + list Z) :=
  let? text := inet_ntop6_format src (best_run src) in
  format_to INET6_ADDRSTRLEN text size.

(** The address families, AF_INET, AF_INET6 or another one. *)
Inductive af := AF_INET | AF_INET6 | AF_OTHER.

Definition inet_ntop (a : af) (src : list Z) (size : Z) : option (inet_errno + list Z) :=
  match a with
  | AF_INET => inet_ntop4 src size
  | AF_INET6 => inet_ntop6 src size
  | AF_OTHER => Some (inl EAFNOSUPPORT)
  end.

(** ** inet_pton *)

(** [tmp]: the octets in front of tp, [cur]: *tp.  The result is [Some (Some _)], the
    bytes to store, [Some None] for 0. *)
Fixpoint pton4_loop (src : list Z) (saw_digit : bool) (octets : Z) (tmp : list Z) (cur : Z) : option (option (list Z)) :=
  match src with
  | [] => if octets <? 4 then Some None else Some (Some (tmp ++ [cur]))
  | ch :: src =>
      if (48 <=? ch) && (ch <=? 57) then
        let new := cur * 10 + (ch - 48) in
        if saw_digit && (cur =? 0) then Some None
        else if 255 <? new then Some None
        else if negb saw_digit then if 4 <? octets + 1 then Some None else pton4_loop src true (octets + 1) tmp new
        else pton4_loop src saw_digit octets tmp new
      else if (ch =? DOT) && saw_digit then
        if octets =? 4 then Some None
        else if (3 <=? length tmp)%nat then None    (* tp behind tmp *)
        else pton4_loop src false octets (tmp ++ [cur]) 0
      else Some None
  end.

Definition inet_pton4 (src : list Z) : option (option (list Z)) := pton4_loop src false 0 [] 0.

Definition hex_digit_value (ch : Z) : Z :=
  if (48 <=? ch) && (ch <=? 57) then ch - 48
  else if (97 <=? ch) && (ch <=? 102) then ch - 97 + 10
  else if (65 <=? ch) && (ch <=? 70) then ch - 65 + 10
  else -1.

(** *tp++ = (unsigned char) (val >> 8) & 0xff; *tp++ = (unsigned char) val & 0xff; *)
Definition put_val (val : Z) (tp : list Z) : list Z := tp ++ [Z.land (Z.shiftr val 8) 255; Z.land val 255].

(** Behind the loop; [tp] are the bytes in front of tp. *)
Definition pton6_end (tp : list Z) (colonp : option nat) (xdigits_seen val : Z) : option (list Z) :=
  if (0 <? xdigits_seen) && (16 <? Z.of_nat (length tp) + 2) then None
  else
    let tp := if 0 <? xdigits_seen then put_val val tp else tp in
    match colonp with
    | Some c => if (length tp =? 16)%nat then None else Some (firstn c tp ++ repeat 0 (16 - length tp) ++ skipn c tp)
    | None => if (length tp =? 16)%nat then Some tp else None
    end.

Fixpoint pton6_loop (src curtok tp : list Z) (colonp : option nat) (xdigits_seen val : Z) : option (option (list Z)) :=
  match src with
  | [] => Some (pton6_end tp colonp xdigits_seen val)
  | ch :: src =>
      let digit := hex_digit_value ch in
      if 0 <=? digit then
        if xdigits_seen =? 4 then Some None
        else
          let val := Z.lor (wrap 32 (Z.shiftl val 4)) digit in
          if 65535 <? val then Some None else pton6_loop src curtok tp colonp (xdigits_seen + 1) val
      else if ch =? COLON then
        let curtok := src in
        if xdigits_seen =? 0 then
          match colonp with
          | Some _ => Some None
          | None => pton6_loop src curtok tp (Some (length tp)) xdigits_seen val
          end
        else
          match src with
          | [] => Some None
          | _ =>
              if 16 <? Z.of_nat (length tp) + 2 then Some None
              else pton6_loop src curtok (put_val val tp) colonp 0 0
          end
      else if (ch =? DOT) && (Z.of_nat (length tp) + 4 <=? 16) then
        let? r := inet_pton4 curtok in
        match r with
        | Some l => Some (pton6_end (tp ++ l) colonp 0 val)
        | None => Some None
        end
      else Some None
  end.

Definition inet_pton6 (src : list Z) : option (option (list Z)) :=
  match src with
  | [] => Some None
  | c :: src' =>
      if c =? COLON then
        match src' with
        | c' :: _ => if c' =? COLON then pton6_loop src' src' [] None 0 0 else Some None
        | [] => Some None
        end
      else pton6_loop src src [] None 0 0
  end.

(** The bytes stored, 0 for a string that is no address, or the error. *)
Definition inet_pton_length (a : af) (src : list Z) : option (inet_errno + option (list Z)) :=
  match a with
  | AF_INET => let? r := inet_pton4 src in Some (inr r)
  | AF_INET6 => let? r := inet_pton6 src in Some (inr r)
  | AF_OTHER => Some (inl EAFNOSUPPORT)
  end.

(** * Proofs *)

(** ** Addresses with four bytes *)

(** The octets with a dot behind each. *)
Definition octets_text (l : list Z) : list Z := concat (map (fun o => put_uint8 o ++ [DOT]) l).
Definition text4 (l : list Z) : list Z := octets_text (removelast l) ++ put_uint8 (last l 0).

Lemma put_uint8_digit d : 0 <= d < 10 -> put_uint8 d = [48 + d].
Proof. intros H. unfold put_uint8. destruct (Z.leb_spec 10 d); [lia | reflexivity]. Qed.

(** One more digit. *)
Lemma put_uint8_snoc cur d : 1 <= cur -> 0 <= d < 10 -> cur * 10 + d <= 255 -> put_uint8 (cur * 10 + d) = put_uint8 cur ++ [48 + d].
Proof.
  intros H1 H2 H3. unfold put_uint8. destruct (Z.leb_spec 10 (cur * 10 + d)); [|lia].
  assert (Hq : Z.quot (cur * 10 + d) 10 = cur /\ Z.rem (cur * 10 + d) 10 = d).
  { rewrite Z.quot_div_nonneg, Z.rem_mod_nonneg by lia. rewrite Z.div_add_l, Z.div_small by lia. rewrite (Z.add_comm (cur * 10) d), Z.mod_add, Z.mod_small by lia. lia. }
  destruct Hq as [Eq Er]. destruct (Z.leb_spec 100 (cur * 10 + d)).
  - rewrite Eq, Er. destruct (Z.leb_spec 10 cur); [|lia]. destruct (Z.leb_spec 100 cur); [lia | reflexivity].
  - rewrite Eq, Er. destruct (Z.leb_spec 10 cur); [lia | reflexivity].
Qed.

Lemma octets_text_snoc l o : octets_text (l ++ [o]) = octets_text l ++ put_uint8 o ++ [DOT].
Proof. unfold octets_text. rewrite map_app, concat_app. cbn [map concat]. rewrite app_nil_r. reflexivity. Qed.

(** The text that has been read. *)
Definition read4 (saw : bool) (tmp : list Z) (cur : Z) : list Z := octets_text tmp ++ (if saw then put_uint8 cur else []).

Definition inv4 (saw : bool) (octets : Z) (tmp : list Z) (cur : Z) : Prop :=
  octets = Z.of_nat (length tmp) + b2z saw /\ (length tmp <= 3)%nat /\ Forall byte tmp /\ byte cur /\ (saw = false -> cur = 0).

Lemma pton4_loop_sound src : forall saw octets tmp cur, inv4 saw octets tmp cur ->
  exists r, pton4_loop src saw octets tmp cur = Some r /\
    forall l, r = Some l -> length l = 4%nat /\ Forall byte l /\ text4 l = read4 saw tmp cur ++ src.
Proof.
  induction src as [|ch src IH]; intros saw octets tmp cur (Ho & Ht & Hb & Hc & Hs); cbn [pton4_loop].
  - destruct (Z.ltb_spec octets 4) as [H|H]; [eexists; split; [reflexivity | discriminate]|]. eexists. split; [reflexivity|]. intros l E. injection E as <-.
    destruct saw; [|cbn in Ho; lia]. cbn in Ho. split; [rewrite length_app; cbn; lia|]. split; [apply Forall_app; auto|].
    unfold text4, read4. rewrite removelast_last, last_last, app_nil_r. reflexivity.
  - destruct (Z.leb_spec 48 ch) as [H1|H1], (Z.leb_spec ch 57) as [H2|H2]; cbn [andb].
    2,3,4: destruct (Z.eqb_spec ch DOT) as [->|]; [|eexists; split; [reflexivity | discriminate]]; try lia.
    + destruct (saw && (cur =? 0)) eqn:E0; [eexists; split; [reflexivity | discriminate]|].
      destruct (Z.ltb_spec 255 (cur * 10 + (ch - 48))); [eexists; split; [reflexivity | discriminate]|]. unfold byte in Hc. destruct saw; cbn [negb].
      * cbn [andb] in E0. apply Z.eqb_neq in E0. destruct (IH true octets tmp (cur * 10 + (ch - 48))) as (r & Er & Hr); [repeat split; try assumption; try lia; unfold byte; lia|].
        exists r. split; [exact Er|]. intros l El. destruct (Hr l El) as (L1 & L2 & L3). split; [exact L1|]. split; [exact L2|]. rewrite L3. unfold read4.
        rewrite put_uint8_snoc by lia. rewrite <- !app_assoc. cbn [app]. do 3 f_equal. lia.
      * destruct (Z.ltb_spec 4 (octets + 1)); [eexists; split; [reflexivity | discriminate]|]. rewrite (Hs eq_refl) in *.
        destruct (IH true (octets + 1) tmp (0 * 10 + (ch - 48))) as (r & Er & Hr); [unfold inv4; cbn [b2z] in *; repeat split; try assumption; try lia; try discriminate|].
        exists r. split; [exact Er|]. intros l El. destruct (Hr l El) as (L1 & L2 & L3). split; [exact L1|]. split; [exact L2|]. rewrite L3. unfold read4.
        rewrite put_uint8_digit by lia. rewrite <- !app_assoc. cbn [app]. do 2 f_equal. lia.
    + destruct saw; cbn [andb]; [|eexists; split; [reflexivity | discriminate]]. destruct (Z.eqb_spec octets 4); [eexists; split; [reflexivity | discriminate]|].
      cbn [b2z] in Ho. destruct (Nat.leb_spec 3 (length tmp)); [lia|]. destruct (IH false octets (tmp ++ [cur]) 0) as (r & Er & Hr).
      { repeat split; try lia; [rewrite length_app; cbn; lia | rewrite length_app; cbn; lia | apply Forall_app; auto]. }
      exists r. split; [exact Er|]. intros l El. destruct (Hr l El) as (L1 & L2 & L3). split; [exact L1|]. split; [exact L2|]. rewrite L3. unfold read4.
      rewrite octets_text_snoc. rewrite <- !app_assoc. reflexivity.
Qed.

(** Reading an octet. *)
Lemma pton4_octet o octets tmp rest : byte o -> octets < 4 -> pton4_loop (put_uint8 o ++ rest) false octets tmp 0 = pton4_loop rest true (octets + 1) tmp o.
Proof.
  intros Ho H4. assert (Hd : forall d saw cur k r, 0 <= d < 10 -> saw && (cur =? 0) = false -> cur * 10 + d <= 255 -> (saw = false -> k < 4) ->
    pton4_loop ((48 + d) :: r) saw k tmp cur = pton4_loop r true (if saw then k else k + 1) tmp (cur * 10 + d)).
  { intros d saw cur k r Hd Hz Hb Hk. cbn [pton4_loop]. destruct (Z.leb_spec 48 (48 + d)), (Z.leb_spec (48 + d) 57); try lia. cbn [andb].
    rewrite Hz. replace (48 + d - 48) with d by lia. destruct (Z.ltb_spec 255 (cur * 10 + d)); [lia|]. destruct saw; cbn [negb]; [reflexivity|].
    destruct (Z.ltb_spec 4 (k + 1)); [specialize (Hk eq_refl); lia | reflexivity]. }
  unfold byte in Ho. unfold put_uint8. destruct (Z.leb_spec 10 o) as [H10|H10].
  - destruct (Z.leb_spec 100 o) as [H100|H100].
    + pose proof (Z.quot_rem o 10 ltac:(lia)). pose proof (Z.rem_bound_pos o 10 ltac:(lia) ltac:(lia)).
      set (q := Z.quot o 10) in *. pose proof (Z.quot_rem q 10 ltac:(lia)). pose proof (Z.rem_bound_pos q 10 ltac:(lia) ltac:(lia)). set (a := Z.quot q 10) in *.
      cbn [app]. rewrite Hd by (try reflexivity; lia). rewrite Hd by (try lia; cbn [andb]; apply Z.eqb_neq; lia). rewrite Hd by (try lia; cbn [andb]; apply Z.eqb_neq; lia). f_equal. lia.
    + pose proof (Z.quot_rem o 10 ltac:(lia)). pose proof (Z.rem_bound_pos o 10 ltac:(lia) ltac:(lia)).
      cbn [app]. rewrite Hd by (try reflexivity; lia). rewrite Hd by (try lia; cbn [andb]; apply Z.eqb_neq; lia). f_equal. lia.
  - cbn [app]. rewrite Hd by (try reflexivity; lia). f_equal.
Qed.

Lemma pton4_text a b c d : byte a -> byte b -> byte c -> byte d -> inet_pton4 (text4 [a; b; c; d]) = Some (Some [a; b; c; d]).
Proof.
  intros Ha Hb Hc Hd. unfold inet_pton4, text4, octets_text. cbn [removelast last map concat]. rewrite app_nil_r, <- !app_assoc.
  rewrite pton4_octet by (try assumption; lia). cbn [app pton4_loop]. change (DOT =? DOT) with true. cbn [Z.leb Z.compare Pos.compare Pos.compare_cont andb Z.add Z.eqb Pos.eqb length Nat.leb app].
  rewrite <- ?app_assoc. rewrite pton4_octet by (try assumption; lia). cbn [app pton4_loop Z.leb Z.compare Pos.compare Pos.compare_cont andb Z.add Z.eqb Pos.eqb Pos.add Pos.succ length Nat.leb].
  rewrite <- ?app_assoc. rewrite pton4_octet by (try assumption; lia). cbn [app pton4_loop Z.leb Z.compare Pos.compare Pos.compare_cont andb Z.add Z.eqb Pos.eqb Pos.add Pos.succ length Nat.leb].
  rewrite <- (app_nil_r (put_uint8 d)). rewrite pton4_octet by (try assumption; lia). reflexivity.
Qed.

(** ** Addresses with sixteen bytes *)

Definition word (w : Z) : Prop := 0 <= w < 65536.
Definition wbytes (w : Z) : list Z := [w / 256; w mod 256].

Lemma nibble x k : 0 <= k -> Z.land (Z.shiftr x k) 15 = (x / 2 ^ k) mod 16.
Proof. intros Hk. change 15 with (2 ^ 4 - 1). rewrite land_low_mask, Z.shiftr_div_pow2 by lia. reflexivity. Qed.

Lemma hex_lower d : 0 <= d < 16 -> hex_digit_value (lower_digit d) = d.
Proof.
  intros H. apply Z.eqb_eq. pose proof (byte_check (fun d => negb (d <? 16) || (hex_digit_value (lower_digit d) =? d)) ltac:(vm_compute; reflexivity) d ltac:(unfold byte; lia)) as E.
  cbn beta in E. destruct (Z.ltb_spec d 16); [exact E | lia].
Qed.

Lemma hex_step d rest cur tp c xd val : 0 <= d < 16 -> xd <> 4 -> 0 <= val -> val * 16 + d <= 65535 ->
  pton6_loop (lower_digit d :: rest) cur tp c xd val = pton6_loop rest cur tp c (xd + 1) (val * 16 + d).
Proof.
  intros Hd Hx Hv Hb. cbn [pton6_loop]. rewrite hex_lower by exact Hd. destruct (Z.leb_spec 0 d); [|lia]. destruct (Z.eqb_spec xd 4); [contradiction|].
  assert (Z.lor (wrap 32 (Z.shiftl val 4)) d = val * 16 + d) as ->.
  { rewrite Z.shiftl_mul_pow2 by lia. rewrite wrap_small by lia. apply (lor_add_low val d 4); lia. }
  destruct (Z.ltb_spec 65535 (val * 16 + d)); [lia | reflexivity].
Qed.

(** Reading a word. *)
Lemma hex_word w rest cur tp c : word w -> exists k, 1 <= k <= 4 /\ pton6_loop (put_uint16 w ++ rest) cur tp c 0 0 = pton6_loop rest cur tp c k w.
Proof.
  unfold word. intros H. unfold put_uint16. rewrite !nibble by lia. assert (Z.land w 15 = w mod 16) as -> by exact (land_low_mask w 4 ltac:(lia)).
  change (2 ^ 12) with 4096. change (2 ^ 8) with 256. change (2 ^ 4) with 16.
  pose proof (Z.div_mod w 16 ltac:(lia)). pose proof (Z.mod_pos_bound w 16 ltac:(lia)).
  assert (E1 : w / 256 = w / 16 / 16) by (rewrite Z.div_div by lia; reflexivity). assert (E2 : w / 4096 = w / 16 / 16 / 16) by (rewrite !Z.div_div by lia; reflexivity).
  pose proof (Z.div_mod (w / 16) 16 ltac:(lia)). pose proof (Z.mod_pos_bound (w / 16) 16 ltac:(lia)).
  pose proof (Z.div_mod (w / 16 / 16) 16 ltac:(lia)). pose proof (Z.mod_pos_bound (w / 16 / 16) 16 ltac:(lia)).
  assert (0 <= w / 16 / 16 / 16 < 16) by (rewrite <- E2; split; [apply Z.div_pos; lia | apply Z.div_lt_upper_bound; lia]). rewrite E1, E2, (Z.mod_small (w / 16 / 16 / 16)) by lia.
  set (d := w mod 16) in *. set (b2 := (w / 16) mod 16) in *. set (b1 := (w / 16 / 16) mod 16) in *. set (b0 := w / 16 / 16 / 16) in *.
  assert (Ew : w = ((b0 * 16 + b1) * 16 + b2) * 16 + d) by lia.
  destruct (Z.leb_spec 4096 w); [exists 4|destruct (Z.leb_spec 256 w); [exists 3|destruct (Z.leb_spec 16 w); [exists 2|exists 1]]]; (split; [lia|]).
  - destruct (Z.leb_spec 256 w), (Z.leb_spec 16 w); try lia. cbn [app]. rewrite !hex_step by lia. f_equal; lia.
  - destruct (Z.leb_spec 16 w); try lia. cbn [app]. rewrite !hex_step by lia. f_equal; lia.
  - cbn [app]. rewrite !hex_step by lia. f_equal; lia.
  - cbn [app]. rewrite !hex_step by lia. f_equal; lia.
Qed.

Lemma put_val_bytes w tp : word w -> put_val w tp = tp ++ wbytes w.
Proof.
  intros H. unfold put_val, wbytes. change 255 with (2 ^ 8 - 1). rewrite !land_low_mask, Z.shiftr_div_pow2 by lia. change (2 ^ 8) with 256.
  unfold word in H. rewrite (Z.mod_small (w / 256)) by (split; [apply Z.div_pos; lia | apply Z.div_lt_upper_bound; lia]). reflexivity.
Qed.

(** Words with a colon behind each. *)
Definition words_text (ws : list Z) : list Z := concat (map (fun w => put_uint16 w ++ [COLON]) ws).
Definition words_bytes (ws : list Z) : list Z := concat (map wbytes ws).

Lemma words_bytes_length ws : length (words_bytes ws) = (2 * length ws)%nat.
Proof. induction ws as [|w ws IH]; [reflexivity|]. unfold words_bytes in *. cbn [map concat wbytes app length]. lia. Qed.

Lemma words_read ws : forall rest cur tp c, Forall word ws -> rest <> [] -> (length tp + 2 * length ws <= 16)%nat ->
  pton6_loop (words_text ws ++ rest) cur tp c 0 0 = pton6_loop rest (match ws with [] => cur | _ => rest end) (tp ++ words_bytes ws) c 0 0.
Proof.
  induction ws as [|w ws IH]; intros rest cur tp c Hw Hr Hl; unfold words_text, words_bytes in *; cbn [map concat app length] in *.
  - rewrite app_nil_r. reflexivity.
  - inversion Hw as [|? ? Hw0 Hw']; subst. rewrite <- !app_assoc. destruct (hex_word w ([COLON] ++ concat (map (fun w => put_uint16 w ++ [COLON]) ws) ++ rest) cur tp c Hw0) as (k & Hk & E). rewrite E.
    set (r := concat (map (fun w => put_uint16 w ++ [COLON]) ws) ++ rest) in *. assert (Hr' : r <> []) by (unfold r; intros E'; apply app_eq_nil in E' as [_ ?]; contradiction).
    cbn [app pton6_loop]. change (hex_digit_value COLON) with (-1). cbn [Z.leb Z.compare]. rewrite Z.eqb_refl. destruct (Z.eqb_spec k 0); [lia|]. destruct r as [|y r'] eqn:Er; [contradiction|].
    rewrite <- Er in *. destruct (Z.ltb_spec 16 (Z.of_nat (length tp) + 2)); [lia|]. rewrite put_val_bytes by exact Hw0. unfold r. rewrite IH; [|exact Hw'|exact Hr|rewrite length_app; cbn [wbytes length]; lia].
    rewrite <- app_assoc. f_equal. destruct ws; [|reflexivity]. unfold r. reflexivity.
Qed.

(** The address that is complete behind the loop. *)
Definition fin6 (tp : list Z) (colonp : option nat) : option (list Z) := pton6_end tp colonp 0 0.

Lemma word_last w cur tp c : word w -> (length tp + 2 <= 16)%nat -> pton6_loop (put_uint16 w) cur tp c 0 0 = Some (fin6 (tp ++ wbytes w) c).
Proof.
  intros Hw Hl. destruct (hex_word w [] cur tp c Hw) as (k & Hk & E). rewrite app_nil_r in E. rewrite E. cbn [pton6_loop]. f_equal. unfold fin6, pton6_end.
  destruct (Z.ltb_spec 0 k); [|lia]. destruct (Z.ltb_spec 16 (Z.of_nat (length tp) + 2)); [lia|]. cbn [andb]. rewrite put_val_bytes by exact Hw. reflexivity.
Qed.

Lemma colon_read rest cur tp : pton6_loop (COLON :: rest) cur tp None 0 0 = pton6_loop rest rest tp (Some (length tp)) 0 0.
Proof. reflexivity. Qed.

(** Words up to the end. *)
Definition tail_text (ws : list Z) : list Z := match ws with [] => [] | _ => words_text (removelast ws) ++ put_uint16 (last ws 0) end.

Lemma put_uint16_pos w : put_uint16 w <> [].
Proof. unfold put_uint16. intros E. apply (f_equal (@length Z)) in E. rewrite !length_app in E. cbn in E. lia. Qed.

Lemma tail_read ws cur tp c : Forall word ws -> (length tp + 2 * length ws <= 16)%nat -> pton6_loop (tail_text ws) cur tp c 0 0 = Some (fin6 (tp ++ words_bytes ws) c).
Proof.
  intros Hw Hl. destruct ws as [|w ws] using rev_ind; [cbn [tail_text words_bytes map concat]; rewrite app_nil_r; reflexivity|]. clear IHws.
  apply Forall_app in Hw as [Hw Hw1]. inversion Hw1 as [|? ? Hw0 _]; subst. rewrite length_app in Hl. cbn [length] in Hl.
  assert (tail_text (ws ++ [w]) = words_text ws ++ put_uint16 w) as -> by (unfold tail_text; rewrite removelast_last, last_last; destruct ws; reflexivity).
  rewrite words_read by (try assumption; try apply put_uint16_pos; lia). rewrite word_last by (try assumption; rewrite length_app, words_bytes_length; lia).
  do 2 f_equal. unfold words_bytes. rewrite map_app, concat_app. cbn [map concat]. rewrite app_nil_r, app_assoc. reflexivity.
Qed.

(** The digits of an octet are hexadecimal digits too. *)
Lemma octet_hex o rest cur tp c : byte o -> exists k v, pton6_loop (put_uint8 o ++ rest) cur tp c 0 0 = pton6_loop rest cur tp c k v.
Proof.
  intros Ho. assert (Hd : forall d r xd val, 0 <= d < 10 -> xd <> 4 -> 0 <= val -> val * 16 + d <= 65535 ->
    pton6_loop ((48 + d) :: r) cur tp c xd val = pton6_loop r cur tp c (xd + 1) (val * 16 + d)).
  { intros d r xd val H1 H2 H3 H4. replace (48 + d) with (lower_digit d) by (unfold lower_digit; destruct (Z.ltb_spec d 10); lia). apply hex_step; lia. }
  unfold byte in Ho. unfold put_uint8. destruct (Z.leb_spec 10 o) as [H10|H10].
  - pose proof (Z.quot_rem o 10 ltac:(lia)). pose proof (Z.rem_bound_pos o 10 ltac:(lia) ltac:(lia)). destruct (Z.leb_spec 100 o) as [H100|H100].
    + set (q := Z.quot o 10) in *. pose proof (Z.quot_rem q 10 ltac:(lia)). pose proof (Z.rem_bound_pos q 10 ltac:(lia) ltac:(lia)). set (a := Z.quot q 10) in *.
      cbn [app]. rewrite !Hd by lia. eauto.
    + cbn [app]. rewrite !Hd by lia. eauto.
  - cbn [app]. rewrite Hd by lia. eauto.
Qed.

Lemma v4_read a b c d tp colonp : byte a -> byte b -> byte c -> byte d -> (length tp + 4 <= 16)%nat ->
  pton6_loop (text4 [a; b; c; d]) (text4 [a; b; c; d]) tp colonp 0 0 = Some (fin6 (tp ++ [a; b; c; d]) colonp).
Proof.
  intros Ha Hb Hc Hd Hl. pose proof (pton4_text a b c d Ha Hb Hc Hd) as E4. unfold text4, octets_text in *. cbn [removelast last map concat] in *. rewrite <- !app_assoc in *.
  match type of E4 with inet_pton4 ?t = _ => set (cur := t) in * end. unfold cur at 1.
  destruct (octet_hex a ([DOT] ++ put_uint8 b ++ [DOT] ++ put_uint8 c ++ [DOT] ++ [] ++ put_uint8 d) cur tp colonp Ha) as (k & v & E). rewrite E.
  cbn [app pton6_loop]. change (hex_digit_value DOT) with (-1). change (0 <=? -1) with false. change (DOT =? COLON) with false. change (DOT =? DOT) with true.
  destruct (Z.leb_spec (Z.of_nat (length tp) + 4) 16); [|lia]. cbn [andb]. rewrite E4. reflexivity.
Qed.

(** ** The text of an address *)

(** A run of [n] zero words at [b] is left out. *)
Definition text6 (ws : list Z) (b n : nat) : list Z :=
  words_text (firstn b ws) ++ (match b with O => [COLON] | _ => [] end) ++ [COLON] ++ tail_text (skipn (b + n) ws).

(** The runs, one by one. *)
Lemma run_cases (P : nat -> nat -> Prop) : (forall b n, In (b, n) (list_prod (seq 0 7) (seq 2 7)) -> (b + n <= 8)%nat -> P b n) ->
  forall b n, (2 <= n)%nat -> (b + n <= 8)%nat -> P b n.
Proof. intros H b n Hn Hb. apply H; [|exact Hb]. apply in_prod; apply in_seq; lia. Qed.

Section Format.
Context (src : list Z).

Definition src_words : list Z := map (in6_addr_addr16 src) [0; 1; 2; 3; 4; 5; 6; 7].

Lemma format_plain l : inet_ntop6_format src {| base := -1; len := l |} = Some (tail_text src_words ++ [0]).
Proof using Type.
  unfold inet_ntop6_format, src_words, tail_text, words_text. cbn -[in6_addr_addr16 put_uint16 inet_ntop4].
  rewrite <- !app_assoc. cbn -[in6_addr_addr16 put_uint16]. reflexivity.
Qed.

(** Whether the address is one with four bytes. *)
Definition embedded (b n : nat) : bool :=
  Nat.eqb b 0 && (Nat.eqb n 6 || (Nat.eqb n 5 && (in6_addr_addr16 src 5 =? 65535))).

Lemma format_run b n : (2 <= n)%nat -> (b + n <= 8)%nat -> embedded b n = false ->
  inet_ntop6_format src {| base := Z.of_nat b; len := Z.of_nat n |} = Some (text6 src_words b n ++ [0]).
Proof using Type.
  revert b n. refine (run_cases _ _). intros b n Hin Hle. unfold text6, embedded, inet_ntop6_format, src_words, tail_text, words_text.
  cbn [list_prod map seq app In] in Hin. repeat match type of Hin with _ \/ _ => destruct Hin as [Hin|Hin] end; [injection Hin as <- <-; try (exfalso; lia) ..|contradiction];
    cbn -[in6_addr_addr16 put_uint16 inet_ntop4]; intros He; try discriminate He; rewrite ?He; do 8 (rewrite <- ?app_assoc; cbn -[in6_addr_addr16 put_uint16]); reflexivity.
Qed.

Lemma format_embedded n l : (n = 6 \/ n = 5)%nat -> embedded 0 n = true ->
  inet_ntop4 (skipn 12 src) (INET6_ADDRSTRLEN - (if Nat.eqb n 6 then 2 else 7)) = Some (inr l) ->
  inet_ntop6_format src {| base := 0; len := Z.of_nat n |} =
    Some ([COLON; COLON] ++ (if Nat.eqb n 6 then [] else put_uint16 65535 ++ [COLON]) ++ removelast l ++ [0]).
Proof using Type.
  intros [-> | ->] He El; unfold inet_ntop6_format, embedded in *.
  - cbn -[in6_addr_addr16 put_uint16 inet_ntop4 INET6_ADDRSTRLEN] in *. change (INET6_ADDRSTRLEN - 2) with 44 in El. change (INET6_ADDRSTRLEN - 2) with 44. rewrite El. reflexivity.
  - cbn -[in6_addr_addr16 put_uint16 inet_ntop4 INET6_ADDRSTRLEN] in *. rewrite He. apply Z.eqb_eq in He. rewrite He.
    change (put_uint16 65535) with [102; 102; 102; 102]. cbn -[in6_addr_addr16 inet_ntop4 INET6_ADDRSTRLEN]. change (INET6_ADDRSTRLEN - 7) with 39 in *. rewrite El. reflexivity.
Qed.
End Format.

(** ** The longest run of zeros *)

(** The search depends only on which words are zero. *)
Definition zstep (z : bool) (i : Z) (st : best_t * best_t) : best_t * best_t := best_step (if z then 0 else 1) i st.

Definition best_pat (zs : list bool) : best_t :=
  best_end (fst (fold_left (fun s z => (zstep z (snd s) (fst s), snd s + 1)) zs (({| base := -1; len := 0 |}, {| base := -1; len := 0 |}), 0))).

Lemma best_run_pat src : best_run src = best_pat (map (fun w => w =? 0) (src_words src)).
Proof.
  assert (H : forall w i st, best_step w i st = zstep (w =? 0) i st) by (intros w i [best cur]; unfold zstep, best_step; destruct (w =? 0); reflexivity).
  unfold best_run, best_pat, src_words. cbn [best_loop map fold_left fst snd]. rewrite !H. reflexivity.
Qed.

(** [n] zeros at [b]. *)
Definition zeros_at (zs : list bool) (b n : nat) : bool := forallb (fun i => nth i zs false) (seq b n).

(** Every other run is shorter, or as long and further behind. *)
Definition longest (zs : list bool) (b n : nat) : bool :=
  forallb (fun x => let '(b', n') := x in negb (zeros_at zs b' n') || Nat.ltb n' n || (Nat.eqb n' n && Nat.leb b b')) (list_prod (seq 0 8) (seq 2 7)).

Definition pat_ok (zs : list bool) : bool :=
  let b := best_pat zs in
  if base b =? -1 then forallb (fun i => negb (zeros_at zs i 2)) (seq 0 7)
  else (0 <=? base b) && (2 <=? len b) && (base b + len b <=? 8) && zeros_at zs (Z.to_nat (base b)) (Z.to_nat (len b)) && longest zs (Z.to_nat (base b)) (Z.to_nat (len b)).

Fixpoint patterns (n : nat) : list (list bool) := match n with O => [[]] | S n => map (cons true) (patterns n) ++ map (cons false) (patterns n) end.

Lemma patterns_all n : forall zs, length zs = n -> In zs (patterns n).
Proof.
  induction n as [|n IH]; intros zs H; destruct zs as [|z zs]; try discriminate; [left; reflexivity|]. cbn [patterns]. apply in_or_app.
  destruct z; [left | right]; apply in_map; apply IH; cbn in H; lia.
Qed.

Lemma all_pat_ok : forallb pat_ok (patterns 8) = true.
Proof. vm_compute. reflexivity. Qed.

Definition zeros (src : list Z) : list bool := map (fun w => w =? 0) (src_words src).

Lemma best_run_cases src :
  (base (best_run src) = -1 /\ forall i, (i < 7)%nat -> zeros_at (zeros src) i 2 = false) \/
  exists b n, best_run src = {| base := Z.of_nat b; len := Z.of_nat n |} /\ (2 <= n)%nat /\ (b + n <= 8)%nat /\ zeros_at (zeros src) b n = true /\ longest (zeros src) b n = true.
Proof.
  pose proof all_pat_ok as H. rewrite forallb_forall in H. specialize (H (zeros src) (patterns_all 8 (zeros src) eq_refl)). unfold pat_ok in H. unfold zeros in *. rewrite <- best_run_pat in H.
  destruct (Z.eqb_spec (base (best_run src)) (-1)) as [E|E].
  - left. split; [exact E|]. intros i Hi. rewrite forallb_forall in H. specialize (H i). rewrite in_seq in H. specialize (H ltac:(lia)). destruct (zeros_at _ i 2); [discriminate | reflexivity].
  - right. repeat match goal with X : _ && _ = true |- _ => apply andb_prop in X as [X ?] end. exists (Z.to_nat (base (best_run src))), (Z.to_nat (len (best_run src))).
    split; [destruct (best_run src); cbn [base len] in *; f_equal; lia|]. split; [lia|]. split; [lia|]. auto.
Qed.

(** ** Reading the text back *)

Lemma src_words_ok src : length src = 16%nat -> Forall byte src -> Forall word (src_words src) /\ words_bytes (src_words src) = src /\ length (src_words src) = 8%nat.
Proof.
  intros Hlen Hsrc. do 16 (destruct src as [|? src]; [discriminate|]). destruct src; [|discriminate]. repeat match goal with X : Forall byte (_ :: _) |- _ => inversion X; clear X; subst end.
  unfold byte in *. assert (Hw : forall x y, 0 <= x < 256 -> 0 <= y < 256 -> word (256 * x + y) /\ (256 * x + y) / 256 = x /\ (256 * x + y) mod 256 = y).
  { intros x y Hx Hy. unfold word. split; [lia|]. split; symmetry; [apply (Z.div_unique _ 256 x y); lia | apply (Z.mod_unique _ 256 x y); lia]. }
  unfold src_words, in6_addr_addr16, words_bytes, wbytes. cbn -[Z.mul Z.add Z.div Z.modulo]. split; [|split; [|reflexivity]].
  - repeat constructor; apply Hw; assumption.
  - repeat match goal with |- context [(256 * ?x + ?y) / 256] => destruct (Hw x y ltac:(assumption) ltac:(assumption)) as (_ & -> & ->) end. reflexivity.
Qed.

Lemma words_bytes_app a b : words_bytes (a ++ b) = words_bytes a ++ words_bytes b.
Proof. unfold words_bytes. rewrite map_app, concat_app. reflexivity. Qed.

(** The words of the run are zero. *)
Lemma run_zero src b n : (b + n <= 8)%nat -> zeros_at (zeros src) b n = true -> firstn n (skipn b (src_words src)) = repeat 0 n.
Proof.
  intros Hb Hz. assert (L : length (src_words src) = 8%nat) by reflexivity. apply nth_ext with (d := 1) (d' := 0); [rewrite length_firstn, length_skipn, repeat_length; lia|].
  intros i Hi. rewrite length_firstn, length_skipn in Hi. rewrite nth_repeat. unfold zeros_at in Hz. rewrite forallb_forall in Hz. specialize (Hz (b + i)%nat). rewrite in_seq in Hz.
  specialize (Hz ltac:(lia)). unfold zeros in Hz. rewrite nth_indep with (d' := 1 =? 0) in Hz by (rewrite length_map; lia). rewrite (map_nth (fun w => w =? 0)) in Hz. apply Z.eqb_eq in Hz.
  rewrite <- Hz. rewrite nth_firstn. destruct (Nat.ltb_spec i n); [|lia]. rewrite nth_skipn. reflexivity.
Qed.

Lemma words_bytes_zeros n : words_bytes (repeat 0 n) = repeat 0 (2 * n).
Proof. induction n as [|n IH]; [reflexivity|]. replace (2 * S n)%nat with (S (S (2 * n))) by lia. cbn [repeat]. rewrite <- IH. reflexivity. Qed.

(** The address is its beginning, the zeros and its end. *)
Lemma split_run src b n : length src = 16%nat -> Forall byte src -> (b + n <= 8)%nat -> zeros_at (zeros src) b n = true ->
  words_bytes (firstn b (src_words src)) ++ repeat 0 (2 * n) ++ words_bytes (skipn (b + n) (src_words src)) = src.
Proof.
  intros Hl Hs Hb Hz. destruct (src_words_ok src Hl Hs) as (_ & E & _). rewrite <- words_bytes_zeros, <- (run_zero src b n Hb Hz), <- !words_bytes_app. rewrite <- E at 4. f_equal.
  rewrite Nat.add_comm, <- skipn_skipn, firstn_skipn, firstn_skipn. reflexivity.
Qed.

Lemma fin6_run before after n : (length before + 2 * n + length after = 16)%nat -> (1 <= n)%nat ->
  fin6 (before ++ after) (Some (length before)) = Some (before ++ repeat 0 (2 * n) ++ after).
Proof.
  intros Hl Hn. unfold fin6, pton6_end. change (0 <? 0) with false. cbn [andb]. rewrite length_app. destruct (Nat.eqb_spec (length before + length after) 16); [lia|].
  rewrite firstn_app, firstn_all, Nat.sub_diag, firstn_O, app_nil_r, skipn_app, skipn_all, Nat.sub_diag. cbn [app skipn]. do 4 f_equal. lia.
Qed.

(** A word does not begin with a colon. *)
Lemma pton6_word w rest : word w -> inet_pton6 (put_uint16 w ++ rest) = pton6_loop (put_uint16 w ++ rest) (put_uint16 w ++ rest) [] None 0 0.
Proof.
  intros Hw. assert (Hd : forall d, 0 <= d < 16 -> (lower_digit d =? COLON) = false).
  { intros d Hd. unfold lower_digit. destruct (Z.ltb_spec d 10); apply Z.eqb_neq; lia. }
  assert (Hc : exists c t, put_uint16 w = c :: t /\ (c =? COLON) = false).
  { unfold put_uint16. assert (Hn : forall x, 0 <= Z.land x 15 < 16) by (intros x; change 15 with (2 ^ 4 - 1); rewrite land_low_mask by lia; apply Z.mod_pos_bound; lia).
    destruct (4096 <=? w), (256 <=? w), (16 <=? w); cbn [app]; eexists; eexists; (split; [reflexivity | apply Hd, Hn]). }
  destruct Hc as (c & t & -> & E). cbn [app inet_pton6]. rewrite E. reflexivity.
Qed.

Lemma Forall_part (P : Z -> Prop) b l : Forall P l -> Forall P (firstn b l) /\ Forall P (skipn b l).
Proof. intros H. apply Forall_app. rewrite firstn_skipn. exact H. Qed.

Lemma pton6_run src b n : length src = 16%nat -> Forall byte src -> (2 <= n)%nat -> (b + n <= 8)%nat -> zeros_at (zeros src) b n = true ->
  inet_pton6 (text6 (src_words src) b n) = Some (Some src).
Proof.
  intros Hl Hs Hn Hb Hz. destruct (src_words_ok src Hl Hs) as (Hw & Ebytes & Lw). destruct (Forall_part word b _ Hw) as [Hw1 _]. destruct (Forall_part word (b + n) _ Hw) as [_ Hw2].
  pose proof (split_run src b n Hl Hs Hb Hz) as Esp. set (ws1 := firstn b (src_words src)) in *. set (ws2 := skipn (b + n) (src_words src)) in *.
  assert (L1 : length ws1 = b) by (unfold ws1; rewrite length_firstn; lia). assert (L2 : length ws2 = (8 - (b + n))%nat) by (unfold ws2; rewrite length_skipn; lia).
  assert (Hfin : forall cur, pton6_loop (tail_text ws2) cur (words_bytes ws1) (Some (length (words_bytes ws1))) 0 0 = Some (Some src)).
  { intros cur. rewrite tail_read by (try assumption; rewrite words_bytes_length; lia). f_equal. rewrite (fin6_run _ _ n) by (rewrite ?words_bytes_length; lia). f_equal. exact Esp. }
  unfold text6. fold ws1 ws2. clearbody ws1 ws2. destruct b as [|b].
  - assert (ws1 = []) as E1 by (destruct ws1; [reflexivity | discriminate]). rewrite E1 in *. cbn [words_text map concat app inet_pton6]. change (COLON =? COLON) with true. cbn match.
    rewrite colon_read. apply Hfin.
  - cbn [app]. assert (Hp : inet_pton6 (words_text ws1 ++ COLON :: tail_text ws2) = pton6_loop (words_text ws1 ++ COLON :: tail_text ws2) (words_text ws1 ++ COLON :: tail_text ws2) [] None 0 0).
    { destruct ws1 as [|w ws1']; [discriminate|]. inversion Hw1; subst. unfold words_text. cbn [map concat]. rewrite <- !app_assoc. apply pton6_word. assumption. }
    rewrite Hp, words_read by (try assumption; try discriminate; cbn [length]; lia). cbn [app]. rewrite colon_read. apply Hfin.
Qed.

Lemma pton6_plain src : length src = 16%nat -> Forall byte src -> inet_pton6 (tail_text (src_words src)) = Some (Some src).
Proof.
  intros Hl Hs. destruct (src_words_ok src Hl Hs) as (Hw & Ebytes & Lw).
  assert (Hp : inet_pton6 (tail_text (src_words src)) = pton6_loop (tail_text (src_words src)) (tail_text (src_words src)) [] None 0 0).
  { unfold src_words, tail_text, words_text in *. cbn [map concat removelast last] in *. rewrite <- !app_assoc. apply pton6_word. inversion Hw; assumption. }
  rewrite Hp, tail_read by (try assumption; cbn [length]; lia). cbn [app]. rewrite Ebytes. unfold fin6, pton6_end. change (0 <? 0) with false. cbn [andb]. rewrite Hl. reflexivity.
Qed.

(** ** Lengths *)

Lemma put_uint8_len o : (1 <= length (put_uint8 o) <= 3)%nat.
Proof. unfold put_uint8. destruct (10 <=? o), (100 <=? o); cbn; lia. Qed.

Lemma put_uint16_len w : (1 <= length (put_uint16 w) <= 4)%nat.
Proof. unfold put_uint16. destruct (4096 <=? w), (256 <=? w), (16 <=? w); cbn; lia. Qed.

Lemma words_text_len ws : (length (words_text ws) <= 5 * length ws)%nat.
Proof. induction ws as [|w ws IH]; [cbn; lia|]. unfold words_text in *. cbn [map concat length]. rewrite !length_app. cbn [length]. pose proof (put_uint16_len w). lia. Qed.

Lemma tail_text_len ws : (length (tail_text ws) <= 5 * length ws)%nat.
Proof.
  destruct ws as [|w ws] using rev_ind; [cbn; lia|]. clear IHws.
  assert (tail_text (ws ++ [w]) = words_text ws ++ put_uint16 w) as -> by (unfold tail_text; rewrite removelast_last, last_last; destruct ws; reflexivity).
  rewrite !length_app. cbn [length]. pose proof (words_text_len ws). pose proof (put_uint16_len w). lia.
Qed.

Lemma text4_len a b c d : (7 <= length (text4 [a; b; c; d]) <= 15)%nat.
Proof.
  unfold text4, octets_text. cbn [removelast last map concat]. rewrite !length_app. cbn [length].
  pose proof (put_uint8_len a). pose proof (put_uint8_len b). pose proof (put_uint8_len c). pose proof (put_uint8_len d). lia.
Qed.

(** What the functions store, or the error without room. *)
Definition ntop_result (text : list Z) (size : Z) : option (inet_errno + list Z) :=
  Some (if Z.of_nat (length text) + 1 <=? size then inr (text ++ [0]) else inl ENOSPC).

Lemma format_to_spec max text size : Z.of_nat (length text) + 1 <= max -> format_to max (text ++ [0]) size = ntop_result text size.
Proof.
  intros H. unfold format_to, ntop_result, written. rewrite length_app. cbn [length].
  destruct (Z.leb_spec max size), (Z.leb_spec (Z.of_nat (length text) + 1) size), (Z.leb_spec (Z.of_nat (length text + 1)) size), (Z.leb_spec (Z.of_nat (length text + 1)) max); try lia; try reflexivity.
  - rewrite length_app. cbn [length]. destruct (Z.ltb_spec size (Z.of_nat (length text + 1))); [lia | reflexivity].
  - rewrite length_app. cbn [length]. destruct (Z.ltb_spec size (Z.of_nat (length text + 1))); [reflexivity | lia].
Qed.

Lemma ntop4_spec a b c d size : inet_ntop4 [a; b; c; d] size = ntop_result (text4 [a; b; c; d]) size.
Proof.
  unfold inet_ntop4. assert (inet_ntop4_format [a; b; c; d] = text4 [a; b; c; d] ++ [0]) as ->.
  { unfold inet_ntop4_format, text4, octets_text. cbn [nth removelast last map concat]. rewrite <- !app_assoc. reflexivity. }
  pose proof (text4_len a b c d). apply format_to_spec. unfold INET_ADDRSTRLEN. lia.
Qed.

(** ** The embedded addresses *)

Lemma four_bytes (l : list Z) : length l = 4%nat -> exists a b c d, l = [a; b; c; d].
Proof. intros H. do 4 (destruct l as [|? l]; [discriminate|]). destruct l; [|discriminate]. eauto. Qed.

Lemma fin6_front after n : (2 * n + length after = 16)%nat -> (1 <= n)%nat -> fin6 after (Some O) = Some (repeat 0 (2 * n) ++ after).
Proof. intros Hl Hn. exact (fin6_run [] after n ltac:(cbn; lia) Hn). Qed.

Lemma embedded_text src n : length src = 16%nat -> Forall byte src -> (n = 6 \/ n = 5)%nat -> embedded src 0 n = true -> zeros_at (zeros src) 0 n = true ->
  exists text, inet_ntop6_format src {| base := 0; len := Z.of_nat n |} = Some (text ++ [0]) /\ Z.of_nat (length text) + 1 <= 46 /\ inet_pton6 text = Some (Some src).
Proof.
  intros Hl Hs Hn He Hz. destruct (four_bytes (skipn 12 src) ltac:(rewrite length_skipn; lia)) as (a & b & c & d & E4). destruct (Forall_part byte 12 src Hs) as [_ Hb]. rewrite E4 in Hb.
  assert (Habcd : byte a /\ byte b /\ byte c /\ byte d) by (repeat match goal with X : Forall byte (_ :: _) |- _ => inversion X; clear X; subst end; auto). destruct Habcd as (Ha & Hbb & Hc & Hd).
  pose proof (text4_len a b c d) as Ht.
  assert (E' : inet_ntop4 (skipn 12 src) (INET6_ADDRSTRLEN - (if Nat.eqb n 6 then 2 else 7)) = Some (inr (text4 [a; b; c; d] ++ [0]))).
  { rewrite E4, ntop4_spec. unfold ntop_result, INET6_ADDRSTRLEN. destruct (Z.leb_spec (Z.of_nat (length (text4 [a; b; c; d])) + 1) (46 - (if Nat.eqb n 6 then 2 else 7))); [reflexivity|]. destruct (Nat.eqb n 6); lia. }
  pose proof (format_embedded src n _ Hn He E') as Ef. rewrite removelast_last in Ef. set (mid := if Nat.eqb n 6 then [] else put_uint16 65535 ++ [COLON]) in *.
  exists ([COLON; COLON] ++ mid ++ text4 [a; b; c; d]). split; [rewrite Ef, <- !app_assoc; reflexivity|].
  split; [rewrite !length_app; unfold mid; destruct (Nat.eqb n 6); cbn [length app]; [lia | change (length (put_uint16 65535 ++ [COLON])) with 5%nat; lia]|].
  pose proof (split_run src 0 n Hl Hs ltac:(lia) Hz) as Esp. cbn [firstn words_bytes map concat app Nat.add] in Esp. cbn [app inet_pton6]. change (COLON =? COLON) with true. cbn match. rewrite colon_read. cbn [length].
  assert (Etail : skipn 12 src = words_bytes (skipn 6 (src_words src))).
  { destruct (src_words_ok src Hl Hs) as (_ & Eb & Lw). rewrite <- Eb at 1. rewrite <- (firstn_skipn 6 (src_words src)) at 1. rewrite words_bytes_app, skipn_app, skipn_all2 by (rewrite words_bytes_length, length_firstn; lia).
    rewrite words_bytes_length, length_firstn, Lw. reflexivity. }
  destruct Hn as [-> | ->]; unfold mid; cbn [Nat.eqb].
  - cbn [app]. rewrite v4_read by (try assumption; cbn; lia). cbn [app]. rewrite (fin6_front _ 6) by (cbn [length]; lia). rewrite <- E4, Etail. do 2 f_equal. exact Esp.
  - assert (Hffff : in6_addr_addr16 src 5 = 65535) by (unfold embedded in He; cbn [Nat.eqb andb orb] in He; apply Z.eqb_eq; exact He).
    pose proof (words_read [65535] (text4 [a; b; c; d])) as Hr. unfold words_text in Hr. cbn [map concat] in Hr. rewrite app_nil_r in Hr.
    rewrite Hr by (try (repeat constructor; lia); try (intros E0; rewrite E0 in Ht; cbn in Ht; lia); cbn; lia). rewrite v4_read by (try assumption; cbn; lia).
    cbn [app words_bytes map concat wbytes]. rewrite (fin6_front _ 5) by (cbn [length app]; lia). do 2 f_equal. transitivity (repeat 0 (2 * 5) ++ words_bytes (skipn 5 (src_words src))); [f_equal | exact Esp].
    unfold src_words in *. cbn [skipn map] in *. unfold words_bytes at 1. cbn [map concat]. rewrite Hffff. cbn [wbytes app]. f_equal. f_equal. rewrite <- E4. exact Etail.
Qed.

(** ** What inet_pton6 stores *)

Lemma pton6_end_bytes tp c xd val l : Forall byte tp -> (length tp <= 16)%nat -> match c with Some k => (k <= length tp)%nat | None => True end -> 0 <= val <= 65535 ->
  pton6_end tp c xd val = Some l -> length l = 16%nat /\ Forall byte l.
Proof.
  intros Hb Hl Hc Hv. unfold pton6_end. destruct ((0 <? xd) && (16 <? Z.of_nat (length tp) + 2)) eqn:E0; [discriminate|].
  set (tp' := if 0 <? xd then put_val val tp else tp). assert (Ht : Forall byte tp' /\ (length tp <= length tp' <= 16)%nat).
  { unfold tp'. destruct (0 <? xd); [|split; [exact Hb | lia]]. cbn [andb] in E0. apply Z.ltb_ge in E0. rewrite put_val_bytes by (unfold word; lia). rewrite length_app. cbn [wbytes length]. split; [|lia].
    apply Forall_app. split; [exact Hb|]. unfold wbytes, byte. constructor; [split; [apply Z.div_pos; lia | apply Z.div_lt_upper_bound; lia]|]. constructor; [apply Z.mod_pos_bound; lia | constructor]. }
  destruct Ht as [Ht1 Ht2]. clearbody tp'. destruct c as [k|]; cbn beta iota in Hc.
  - destruct (Nat.eqb_spec (length tp') 16); [discriminate|]. intros E. assert (l = firstn k tp' ++ repeat 0 (16 - length tp') ++ skipn k tp') as -> by congruence. destruct (Forall_part byte k tp' Ht1) as [F1 F2].
    split; [rewrite !length_app, length_firstn, repeat_length, length_skipn; lia|]. apply Forall_app. split; [exact F1|]. apply Forall_app. split; [|exact F2].
    apply Forall_forall. intros x Hx. apply repeat_spec in Hx. subst. unfold byte. lia.
  - destruct (Nat.eqb_spec (length tp') 16); [|discriminate]. intros E. injection E as <-. auto.
Qed.

Lemma pton4_total s : exists r, inet_pton4 s = Some r /\ forall l, r = Some l -> length l = 4%nat /\ Forall byte l /\ text4 l = s.
Proof.
  destruct (pton4_loop_sound s false 0 [] 0) as (r & E & H); [repeat split; try (cbn; lia); constructor|]. exists r. split; [exact E|]. exact H.
Qed.

Lemma pton6_loop_total src : forall cur tp c xd val, Forall byte tp -> (length tp <= 16)%nat -> match c with Some k => (k <= length tp)%nat | None => True end ->
  0 <= xd -> 0 <= val <= 65535 ->
  exists r, pton6_loop src cur tp c xd val = Some r /\ forall l, r = Some l -> length l = 16%nat /\ Forall byte l.
Proof.
  assert (Hno : forall P : list Z -> Prop, exists r : option (list Z), Some None = Some r /\ forall l, r = Some l -> P l) by (intros P; exists None; split; [reflexivity | discriminate]).
  induction src as [|ch src IH]; intros cur tp c xd val Hb Hl Hc Hx Hv; cbn [pton6_loop].
  - eexists. split; [reflexivity|]. intros l E. apply (pton6_end_bytes tp c xd val l Hb Hl Hc Hv E).
  - destruct (Z.leb_spec 0 (hex_digit_value ch)) as [Hd|Hd].
    + destruct (xd =? 4); [apply Hno|]. set (v := Z.lor _ _). destruct (Z.ltb_spec 65535 v); [apply Hno|].
      apply IH; try assumption; try lia. split; [|lia]. unfold v. apply Z.lor_nonneg. split; [apply wrap_range; lia | exact Hd].
    + destruct (ch =? COLON).
      * destruct (Z.eqb_spec xd 0).
        -- destruct c; [apply Hno|]. apply IH; try assumption; lia.
        -- destruct src as [|y src]; [apply Hno|]. destruct (Z.ltb_spec 16 (Z.of_nat (length tp) + 2)); [apply Hno|]. rewrite put_val_bytes by (unfold word; lia).
           apply IH; try lia; [|rewrite length_app; cbn [wbytes length]; lia|destruct c; [rewrite length_app; lia | exact I]].
           apply Forall_app. split; [exact Hb|]. unfold wbytes, byte. constructor; [split; [apply Z.div_pos; lia | apply Z.div_lt_upper_bound; lia]|]. constructor; [apply Z.mod_pos_bound; lia | constructor].
      * destruct ((ch =? DOT) && (Z.of_nat (length tp) + 4 <=? 16)) eqn:E4; [|apply Hno]. apply andb_prop in E4 as [_ E4%Z.leb_le].
        destruct (pton4_total cur) as (r & Er & Hr). rewrite Er. destruct r as [l4|]; [|apply Hno]. destruct (Hr l4 eq_refl) as (L4 & B4 & _).
        eexists. split; [reflexivity|]. intros l E. refine (pton6_end_bytes (tp ++ l4) c 0 val l _ _ _ Hv E); [apply Forall_app; auto | rewrite length_app; lia | destruct c; [rewrite length_app; lia | exact I]].
Qed.

(** ** Properties *)

(** C40: inet_pton reads back what inet_ntop writes.  For every IPv4 and every IPv6
    address inet_ntop stores a text of at most 16 and 46 bytes, if the buffer has that
    many bytes, and fails with ENOSPC exactly if it does not; and inet_pton turns this
    text, with its run of zeros left out or its embedded IPv4 address, into the same
    bytes. *)
Theorem inet_round_trip src size :
  (length src = 4%nat -> Forall byte src ->
     exists text, inet_ntop AF_INET src size = ntop_result text size /\ Z.of_nat (length text) + 1 <= INET_ADDRSTRLEN /\ inet_pton_length AF_INET text = Some (inr (Some src))) /\
  (length src = 16%nat -> Forall byte src ->
     exists text, inet_ntop AF_INET6 src size = ntop_result text size /\ Z.of_nat (length text) + 1 <= INET6_ADDRSTRLEN /\ inet_pton_length AF_INET6 text = Some (inr (Some src))).
Proof.
  split; intros Hl Hs.
  - destruct (four_bytes src Hl) as (a & b & c & d & ->). repeat match goal with X : Forall byte (_ :: _) |- _ => inversion X; clear X; subst end. exists (text4 [a; b; c; d]).
    split; [apply ntop4_spec|]. pose proof (text4_len a b c d). split; [unfold INET_ADDRSTRLEN; lia|]. unfold inet_pton_length. rewrite pton4_text by assumption. reflexivity.
  - assert (H : exists text, inet_ntop6_format src (best_run src) = Some (text ++ [0]) /\ Z.of_nat (length text) + 1 <= 46 /\ inet_pton6 text = Some (Some src)).
    { destruct (best_run_cases src) as [[Eb _]|(b & n & Eb & Hn & Hbn & Hz & _)].
      - destruct (best_run src) as [b0 l0]. cbn [base] in Eb. subst b0. exists (tail_text (src_words src)). split; [apply format_plain|].
        split; [pose proof (tail_text_len (src_words src)) as Ht; change (length (src_words src)) with 8%nat in Ht; lia | apply pton6_plain; assumption].
      - rewrite Eb. destruct (embedded src b n) eqn:He.
        + assert (b = O /\ (n = 6 \/ n = 5)%nat) as [-> Hn'].
          { unfold embedded in He. apply andb_prop in He as [He1%Nat.eqb_eq He2]. split; [exact He1|]. apply orb_prop in He2 as [He2|He2]; [left; apply Nat.eqb_eq; exact He2|].
            apply andb_prop in He2 as [He2 _]. right. apply Nat.eqb_eq. exact He2. }
          apply (embedded_text src n); assumption.
        + exists (text6 (src_words src) b n). split; [apply format_run; assumption|]. split; [|apply pton6_run; assumption]. unfold text6. rewrite !length_app.
          pose proof (words_text_len (firstn b (src_words src))) as H1. pose proof (tail_text_len (skipn (b + n) (src_words src))) as H2.
          rewrite length_firstn in H1. rewrite length_skipn in H2. change (length (src_words src)) with 8%nat in *. destruct b; cbn [length] in *; lia. }
    destruct H as (text & Ef & Ht & Ep). exists text. split; [|split; [exact Ht | unfold inet_pton_length; rewrite Ep; reflexivity]].
    unfold inet_ntop, inet_ntop6. rewrite Ef. apply format_to_spec. exact Ht.
Qed.

Lemma inet_round_trip_witness :
  exists text, inet_ntop AF_INET6 [0; 0; 0; 0; 0; 0; 0; 0; 0; 0; 255; 255; 192; 0; 2; 1] 20 = ntop_result text 20 /\
    Z.of_nat (length text) + 1 <= INET6_ADDRSTRLEN /\ inet_pton_length AF_INET6 text = Some (inr (Some [0; 0; 0; 0; 0; 0; 0; 0; 0; 0; 255; 255; 192; 0; 2; 1])).
Proof.
  destruct (inet_round_trip [0; 0; 0; 0; 0; 0; 0; 0; 0; 0; 255; 255; 192; 0; 2; 1] 20) as [_ H]. apply H; [reflexivity | unfold byte; repeat constructor; lia].
Defined.

(** inet_pton returns for every string without writing behind its buffer.  It
    accepts as an IPv4 address exactly the texts that inet_ntop writes (four decimal
    numbers up to 255 without leading zeros); for IPv6 it stores sixteen bytes.  The
    run of zeros that inet_ntop leaves out is the first of the longest ones, and it
    leaves one out if there are two zero words in a row. *)
Lemma inet_pton_correct :
  (forall s, exists r, inet_pton_length AF_INET s = Some (inr r) /\ forall l, r = Some l <-> (length l = 4%nat /\ Forall byte l /\ inet_ntop4_format l = s ++ [0])) /\
  (forall s, exists r, inet_pton_length AF_INET6 s = Some (inr r) /\ forall l, r = Some l -> length l = 16%nat /\ Forall byte l) /\
  (forall src,
     (base (best_run src) = -1 /\ forall i, (i < 7)%nat -> zeros_at (zeros src) i 2 = false) \/
     exists b n, best_run src = {| base := Z.of_nat b; len := Z.of_nat n |} /\ (2 <= n)%nat /\ (b + n <= 8)%nat /\ zeros_at (zeros src) b n = true /\ longest (zeros src) b n = true).
Proof.
  assert (Hf : forall l, length l = 4%nat -> inet_ntop4_format l = text4 l ++ [0]).
  { intros l Hl. destruct (four_bytes l Hl) as (a & b & c & d & ->). unfold inet_ntop4_format, text4, octets_text. cbn [nth removelast last map concat]. rewrite <- !app_assoc. reflexivity. }
  split; [|split].
  - intros s. destruct (pton4_total s) as (r & Er & Hr). exists r. split; [unfold inet_pton_length; rewrite Er; reflexivity|]. intros l. split.
    + intros ->. destruct (Hr l eq_refl) as (H1 & H2 & H3). split; [exact H1|]. split; [exact H2|]. rewrite Hf, H3 by exact H1. reflexivity.
    + intros (H1 & H2 & H3). rewrite Hf in H3 by exact H1. apply app_inv_tail in H3. destruct (four_bytes l H1) as (a & b & c & d & ->).
      repeat match goal with X : Forall byte (_ :: _) |- _ => inversion X; clear X; subst end. rewrite pton4_text in Er by assumption. congruence.
  - intros s. assert (H : exists r, inet_pton6 s = Some r /\ forall l, r = Some l -> length l = 16%nat /\ Forall byte l).
    { assert (Hno : exists r : option (list Z), Some None = Some r /\ forall l, r = Some l -> length l = 16%nat /\ Forall byte l) by (exists None; split; [reflexivity | discriminate]).
      unfold inet_pton6. destruct s as [|c s]; [exact Hno|]. destruct (c =? COLON); [destruct s as [|c' s]; [exact Hno|]; destruct (c' =? COLON); [|exact Hno]|];
        apply pton6_loop_total; try constructor; cbn; lia. }
    destruct H as (r & Er & Hr). exists r. split; [unfold inet_pton_length; rewrite Er; reflexivity | exact Hr].
  - apply best_run_cases.
Qed.
