(* ===== verification/Getopt.v ===== *)
(** * Option parsing (posix/getopt.c)

    Strings are lists of characters without the zero at the end, argv is the list of
    its elements and optind an index into it.  A pointer into an element (nextchar,
    optarg) is the rest of the string from there.  [posixly_correct] is the argument
    of that name or the variable POSIXLY_CORRECT of the environment.  Reading behind argv or through a null
    pointer is [None].  The messages on stderr are left out, and with them opterr. *)

From Stdlib Require Import ZArith List Lia Bool Permutation.
From S2P Require Import Prelude.
Import ListNotations.
#[local] Open Scope Z_scope.
#[local] Open Scope glibc_scope.

Definition str := list Z.

(** struct option; a flag is the address of a variable. *)
Record long_option := { name : str; has_arg : Z; flag : option Z; val : Z }.

Inductive ord := REQUIRE_ORDER | PERMUTE | RETURN_IN_ORDER.

Record getopt_data := {
  optind : nat; optopt : Z; optarg : option str; initialized : bool; nextchar : option str;
  ordering : ord; first_nonopt : nat; last_nonopt : nat }.

Definition set_optind (n : nat) (d : getopt_data) : getopt_data :=
  {| optind := n; optopt := optopt d; optarg := optarg d; initialized := initialized d; nextchar := nextchar d;
     ordering := ordering d; first_nonopt := first_nonopt d; last_nonopt := last_nonopt d |}.
Definition set_optopt (c : Z) (d : getopt_data) : getopt_data :=
  {| optind := optind d; optopt := c; optarg := optarg d; initialized := initialized d; nextchar := nextchar d;
     ordering := ordering d; first_nonopt := first_nonopt d; last_nonopt := last_nonopt d |}.
Definition set_optarg (a : option str) (d : getopt_data) : getopt_data :=
  {| optind := optind d; optopt := optopt d; optarg := a; initialized := initialized d; nextchar := nextchar d;
     ordering := ordering d; first_nonopt := first_nonopt d; last_nonopt := last_nonopt d |}.
Definition set_nextchar (s : option str) (d : getopt_data) : getopt_data :=
  {| optind := optind d; optopt := optopt d; optarg := optarg d; initialized := initialized d; nextchar := s;
     ordering := ordering d; first_nonopt := first_nonopt d; last_nonopt := last_nonopt d |}.
Definition set_nonopts (f l : nat) (d : getopt_data) : getopt_data :=
  {| optind := optind d; optopt := optopt d; optarg := optarg d; initialized := initialized d; nextchar := nextchar d;
     ordering := ordering d; first_nonopt := f; last_nonopt := l |}.

(** d->optind++ *)
Definition next_arg (d : getopt_data) : getopt_data := set_optind (S (optind d)) d.

(** What is stored through longind and through a flag. *)
Record effects := { longind : option nat; stored : option (Z * Z) }.
Definition no_effects : effects := {| longind := None; stored := None |}.

(** The characters of the code: dash, colon, semicolon, question mark, equals sign, W. *)
#[local] Abbreviation DASH := 45.
#[local] Abbreviation COLON := 58.
#[local] Abbreviation SEMICOLON := 59.
#[local] Abbreviation QUESTION := 63.

(** ** Exchanging arguments *)

Definition swap (argv : list str) (i j : nat) : option (list str) :=
  let? a := nth_error argv i in
  let? b := nth_error argv j in
  let set (k : nat) (x : str) (l : list str) := firstn k l ++ x :: skipn (S k) l in
  Some (set j a (set i b argv)).

(** for (i = 0; i < len; i++) swap argv[a + i] and argv[b + i] *)
Fixpoint swap_range (len : nat) (a b : nat) (argv : list str) : option (list str) :=
  match len with O => Some argv | S len => let? argv := swap argv a b in swap_range len (S a) (S b) argv end.

Fixpoint exchange_loop (fuel : nat) (argv : list str) (bottom middle top : nat) : option (list str) :=
  match fuel with
  | O => None
  | S fuel =>
      if (middle <? top)%nat && (bottom <? middle)%nat then
        if (middle - bottom <? top - middle)%nat then
          let len := (middle - bottom)%nat in
          let? argv := swap_range len bottom (top - (middle - bottom)) argv in
          exchange_loop fuel argv bottom middle (top - len)
        else
          let len := (top - middle)%nat in
          let? argv := swap_range len bottom middle argv in
          exchange_loop fuel argv (bottom + len) middle top
      else Some argv
  end.

Definition exchange (argv : list str) (d : getopt_data) : option (list str * getopt_data) :=
  let? argv := exchange_loop (S (length argv)) argv (first_nonopt d) (last_nonopt d) (optind d) in
  Some (argv, set_nonopts (first_nonopt d + (optind d - last_nonopt d)) (optind d) d).

(** ** Strings *)

(** The rest of the string from the first [c] on; the zero at the end counts. *)
Fixpoint strchr (s : str) (c : Z) : option str :=
  match s with
  | [] => if c =? 0 then Some [] else None
  | x :: s' => if x =? c then Some s else strchr s' c
  end.

(** nameend - nextchar *)
Fixpoint name_end (s : str) : nat :=
  match s with [] => O | c :: s => if c =? 61 then O else S (name_end s) end.

Fixpoint str_eqb (a b : str) : bool :=
  match a, b with [], [] => true | x :: a, y :: b => (x =? y) && str_eqb a b | _, _ => false end.

(** !strncmp (p->name, nextchar, namelen) *)
Definition name_matches (p : long_option) (next : str) (namelen : nat) : bool := str_eqb (firstn namelen (name p)) (firstn namelen next).

(** ** Long options *)

Fixpoint find_exact (opts : list long_option) (i : nat) (next : str) (namelen : nat) : option (long_option * nat) :=
  match opts with
  | [] => None
  | p :: opts => if name_matches p next namelen && Nat.eqb namelen (length (name p)) then Some (p, i) else find_exact opts (S i) next namelen
  end.

Definition flag_eqb (a b : option Z) : bool :=
  match a, b with Some x, Some y => x =? y | None, None => true | _, _ => false end.

(** pfound and indfound, and whether another, different, abbreviation was found. *)
Fixpoint find_abbrev (opts : list long_option) (i : nat) (next : str) (namelen : nat) (long_only : bool)
    (pfound : option (long_option * nat)) (ambig : bool) : option (long_option * nat) * bool :=
  match opts with
  | [] => (pfound, ambig)
  | p :: opts =>
      if name_matches p next namelen then
        match pfound with
        | None => find_abbrev opts (S i) next namelen long_only (Some (p, i)) ambig
        | Some (f, _) =>
            find_abbrev opts (S i) next namelen long_only pfound
              (ambig || long_only || negb (has_arg f =? has_arg p) || negb (flag_eqb (flag f) (flag p)) || negb (val f =? val p))
        end
      else find_abbrev opts (S i) next namelen long_only pfound ambig
  end.

Definition process_long_option (argv : list str) (optstring : str) (longopts : list long_option) (long_only : bool) (d : getopt_data)
    : option (Z * getopt_data * effects) :=
  let? next := nextchar d in
  let namelen := name_end next in
  let '(found, ambig) :=
    match find_exact longopts 0 next namelen with
    | Some p => (Some p, false)
    | None => find_abbrev longopts 0 next namelen long_only None false
    end in
  if ambig then Some (QUESTION, set_optopt 0 (next_arg (set_nextchar (Some []) d)), no_effects)
  else
    match found with
    | None =>
        let? cur := (if long_only then nth_error argv (optind d) else Some []) in
        if negb long_only || (nth 1 cur 0 =? DASH) || match strchr optstring (nth 0 next 0) with None => true | Some _ => false end
        then Some (QUESTION, set_optopt 0 (next_arg (set_nextchar None d)), no_effects)
        else Some (-1, d, no_effects)
    | Some (p, option_index) =>
        let d := set_nextchar None (next_arg d) in
        let done (d : getopt_data) : option (Z * getopt_data * effects) :=
          match flag p with
          | Some f => Some (0, d, {| longind := Some option_index; stored := Some (f, val p) |})
          | None => Some (val p, d, {| longind := Some option_index; stored := None |})
          end in
        match skipn namelen next with
        | _ :: arg =>
            if negb (has_arg p =? 0) then done (set_optarg (Some arg) d)
            else Some (QUESTION, set_optopt (val p) d, no_effects)
        | [] =>
            if has_arg p =? 1 then
              if (optind d <? length argv)%nat then
                let? a := nth_error argv (optind d) in done (next_arg (set_optarg (Some a) d))
              else Some (if nth 0 optstring 0 =? COLON then COLON else QUESTION, set_optopt (val p) d, no_effects)
            else done d
        end
    end.

(** ** Short options *)

Definition short_option (argv : list str) (optstring : str) (longopts : option (list long_option)) (d : getopt_data)
    : option (Z * getopt_data * effects) :=
  match nextchar d with
  | Some (c :: next) =>
      let temp := strchr optstring c in
      let d := set_nextchar (Some next) d in
      let d := match next with [] => next_arg d | _ => d end in
      let missing := if nth 0 optstring 0 =? COLON then COLON else QUESTION in
      match temp with
      | None => Some (QUESTION, set_optopt c d, no_effects)
      | Some temp =>
          if (c =? COLON) || (c =? SEMICOLON) then Some (QUESTION, set_optopt c d, no_effects)
          else
            match (if (nth 0 temp 0 =? 87) && (nth 1 temp 0 =? SEMICOLON) then longopts else None) with
            | Some opts =>
                match next with
                | _ :: _ => process_long_option argv optstring opts false (set_optarg None (set_nextchar (Some next) d))
                | [] =>
                    if Nat.eqb (optind d) (length argv) then Some (missing, set_optopt c d, no_effects)
                    else let? a := nth_error argv (optind d) in process_long_option argv optstring opts false (set_optarg None (set_nextchar (Some a) d))
                end
            | None =>
                if nth 1 temp 0 =? COLON then
                  if nth 2 temp 0 =? COLON then
                    match next with
                    | _ :: _ => Some (c, set_nextchar None (next_arg (set_optarg (Some next) d)), no_effects)
                    | [] => Some (c, set_nextchar None (set_optarg None d), no_effects)
                    end
                  else
                    match next with
                    | _ :: _ => Some (c, set_nextchar None (next_arg (set_optarg (Some next) d)), no_effects)
                    | [] =>
                        if Nat.eqb (optind d) (length argv) then Some (missing, set_nextchar None (set_optopt c d), no_effects)
                        else let? a := nth_error argv (optind d) in Some (c, set_nextchar None (next_arg (set_optarg (Some a) d)), no_effects)
                    end
                else Some (c, d, no_effects)
            end
      end
  | _ => None
  end.

(** ** _getopt_internal_r *)

Definition getopt_initialize (optstring : str) (posixly_correct : bool) (d : getopt_data) : str * getopt_data :=
  let ind := if Nat.eqb (optind d) 0 then 1%nat else optind d in
  let '(o, s) :=
    if nth 0 optstring 0 =? DASH then (RETURN_IN_ORDER, tl optstring)
    else if nth 0 optstring 0 =? 43 then (REQUIRE_ORDER, tl optstring)
    else if posixly_correct then (REQUIRE_ORDER, optstring)
    else (PERMUTE, optstring) in
  (s, {| optind := ind; optopt := optopt d; optarg := optarg d; initialized := true; nextchar := None;
         ordering := o; first_nonopt := ind; last_nonopt := ind |}).

(** argv[optind][0] != '-' || argv[optind][1] == 0 *)
Definition NONOPTION_P (s : str) : bool := negb (nth 0 s 0 =? DASH) || (nth 1 s 0 =? 0).

(** while (optind < argc && NONOPTION_P) optind++; *)
Fixpoint skip_nonoptions (rest : list str) (i : nat) : nat :=
  match rest with s :: rest => if NONOPTION_P s then skip_nonoptions rest (S i) else i | [] => i end.

Definition is_dashdash (s : str) : bool := str_eqb s [DASH; DASH].

(** The part that advances to the next element. *)
Definition permute (argv : list str) (d : getopt_data) : option (list str * getopt_data) :=
  let? (argv, d) :=
    (if negb (Nat.eqb (first_nonopt d) (last_nonopt d)) && negb (Nat.eqb (last_nonopt d) (optind d)) then exchange argv d
     else Some (argv, if negb (Nat.eqb (last_nonopt d) (optind d)) then set_nonopts (optind d) (last_nonopt d) d else d)) in
  let i := skip_nonoptions (skipn (optind d) argv) (optind d) in
  Some (argv, set_nonopts (first_nonopt d) i (set_optind i d)).

(** The special element "--". *)
Definition dashdash (argv : list str) (d : getopt_data) : option (list str * getopt_data) :=
  let d := next_arg d in
  let? (argv, d) :=
    (if negb (Nat.eqb (first_nonopt d) (last_nonopt d)) && negb (Nat.eqb (last_nonopt d) (optind d)) then exchange argv d
     else Some (argv, if Nat.eqb (first_nonopt d) (last_nonopt d) then set_nonopts (optind d) (last_nonopt d) d else d)) in
  Some (argv, set_optind (length argv) (set_nonopts (first_nonopt d) (length argv) d)).

(** The value returned, the data, argv and what was stored. *)
Definition result := (Z * getopt_data * list str * effects)%type.

Section Getopt.
Context (optstring0 : str) (longopts : option (list long_option)) (long_only posixly_correct : bool).

(** An element with options; [optstring] without its first mode character. *)
Definition option_element (optstring : str) (argv : list str) (d : getopt_data) : option (Z * getopt_data * effects) :=
  let? cur := nth_error argv (optind d) in
  match longopts with
  | Some opts =>
      if nth 1 cur 0 =? DASH then process_long_option argv optstring opts long_only (set_nextchar (Some (skipn 2 cur)) d)
      else if long_only && (negb (nth 2 cur 0 =? 0) || match strchr optstring (nth 1 cur 0) with None => true | Some _ => false end) then
        let? (code, d, e) := process_long_option argv optstring opts long_only (set_nextchar (Some (skipn 1 cur)) d) in
        if negb (code =? -1) then Some (code, d, e)
        else let? cur := nth_error argv (optind d) in short_option argv optstring longopts (set_nextchar (Some (skipn 1 cur)) d)
      else short_option argv optstring longopts (set_nextchar (Some (skipn 1 cur)) d)
  | None => short_option argv optstring longopts (set_nextchar (Some (skipn 1 cur)) d)
  end.

(** Behind the handling of "--". *)
Definition element (optstring : str) (argv : list str) (d : getopt_data) : option result :=
  if Nat.eqb (optind d) (length argv) then
    Some (-1, if negb (Nat.eqb (first_nonopt d) (last_nonopt d)) then set_optind (first_nonopt d) d else d, argv, no_effects)
  else
    let? cur := nth_error argv (optind d) in
    if NONOPTION_P cur then
      match ordering d with
      | REQUIRE_ORDER => Some (-1, d, argv, no_effects)
      | _ => Some (1, next_arg (set_optarg (Some cur) d), argv, no_effects)
      end
    else let? (r, d, e) := option_element optstring argv d in Some (r, d, argv, e).

Definition getopt_internal_r (argv : list str) (d : getopt_data) : option result :=
  if (length argv <? 1)%nat then Some (-1, d, argv, no_effects)
  else
    let d := set_optarg None d in
    let '(optstring, d) :=
      if Nat.eqb (optind d) 0 || negb (initialized d) then getopt_initialize optstring0 posixly_correct d
      else (if (nth 0 optstring0 0 =? DASH) || (nth 0 optstring0 0 =? 43) then tl optstring0 else optstring0, d) in
    match nextchar d with
    | Some (_ :: _) => let? (r, d, e) := short_option argv optstring longopts d in Some (r, d, argv, e)
    | _ =>
        let l := Nat.min (last_nonopt d) (optind d) in
        let f := Nat.min (first_nonopt d) (optind d) in
        let d := set_nonopts f l d in
        let? (argv, d) := match ordering d with PERMUTE => permute argv d | _ => Some (argv, d) end in
        let? (argv, d) :=
          (if Nat.eqb (optind d) (length argv) then Some (argv, d)
           else let? cur := nth_error argv (optind d) in if is_dashdash cur then dashdash argv d else Some (argv, d)) in
        element optstring argv d
    end.

(** The variables optind, optarg and optopt of the caller, beside the static getopt_data. *)
Record globals := { g_optind : nat; g_optarg : option str; g_optopt : Z }.

Definition getopt_internal (argv : list str) (g : globals) (getopt_data : getopt_data) : option (Z * globals * Getopt.getopt_data * list str * effects) :=
  let? (r, d, argv, e) := getopt_internal_r argv (set_optind (g_optind g) getopt_data) in
  Some (r, {| g_optind := optind d; g_optarg := optarg d; g_optopt := optopt d |}, d, argv, e).
End Getopt.

(** * Proofs *)

(** ** Exchanging *)

Lemma nth_app_at (P : list str) x R : nth_error (P ++ x :: R) (length P) = Some x.
Proof. rewrite nth_error_app2, Nat.sub_diag by lia. reflexivity. Qed.

Lemma set_app_at (P : list str) x y R : firstn (length P) (P ++ x :: R) ++ y :: skipn (S (length P)) (P ++ x :: R) = P ++ y :: R.
Proof.
  rewrite firstn_app, firstn_all, Nat.sub_diag, firstn_O, app_nil_r. f_equal. f_equal.
  rewrite skipn_app, skipn_all2, (ltac:(lia) : (S (length P) - length P = 1)%nat) by lia. reflexivity.
Qed.

Lemma swap_app P x Q y R : swap (P ++ x :: Q ++ y :: R) (length P) (length P + S (length Q)) = Some (P ++ y :: Q ++ x :: R).
Proof.
  unfold swap. rewrite nth_app_at. assert (Ep : forall z, P ++ z :: Q ++ y :: R = (P ++ z :: Q) ++ y :: R) by (intros; rewrite <- app_assoc; reflexivity).
  assert (El : forall z, (length P + S (length Q))%nat = length (P ++ z :: Q)) by (intros; rewrite length_app; reflexivity).
  rewrite (Ep x), (El x), nth_app_at, <- (Ep x), set_app_at, (Ep y). f_equal. replace (length (P ++ x :: Q)) with (length (P ++ y :: Q)) by (rewrite !length_app; reflexivity).
  rewrite set_app_at, <- app_assoc. reflexivity.
Qed.

Lemma swap_range_app X : forall Y P Q R, length Y = length X ->
  swap_range (length X) (length P) (length P + length X + length Q) (P ++ X ++ Q ++ Y ++ R) = Some (P ++ Y ++ Q ++ X ++ R).
Proof.
  induction X as [|x X IH]; intros [|y Y] P Q R Hl; try discriminate; [reflexivity|]. cbn [swap_range length app] in *.
  replace (P ++ x :: X ++ Q ++ y :: Y ++ R) with (P ++ x :: (X ++ Q) ++ y :: (Y ++ R)) by (rewrite <- !app_assoc; reflexivity).
  replace (length P + S (length X) + length Q)%nat with (length P + S (length (X ++ Q)))%nat by (rewrite length_app; lia). rewrite swap_app.
  specialize (IH Y (P ++ [y]) (Q ++ [x]) R ltac:(lia)). rewrite !length_app in IH. cbn [length] in IH.
  replace (length P + 1)%nat with (S (length P)) in IH by lia. replace (S (length P) + length X + (length Q + 1))%nat with (S (length P + S (length (X ++ Q))))%nat in IH by (rewrite length_app; lia).
  rewrite <- !app_assoc in IH. cbn [app] in IH. rewrite <- !app_assoc. cbn [app]. exact IH.
Qed.

Lemma split_at (l : list str) n : (n <= length l)%nat -> exists a b, l = a ++ b /\ length a = n.
Proof. intros H. exists (firstn n l), (skipn n l). rewrite firstn_skipn, length_firstn. split; [reflexivity | lia]. Qed.

(** The two segments change places and keep their order. *)
Lemma exchange_loop_app fuel : forall A B C D, (length B + length C < fuel)%nat ->
  exchange_loop fuel (A ++ B ++ C ++ D) (length A) (length A + length B) (length A + length B + length C) = Some (A ++ C ++ B ++ D).
Proof.
  induction fuel as [|fuel IH]; intros A B C D Hf; [lia|]. cbn [exchange_loop].
  destruct B as [|b B']; [cbn [length app]; rewrite Nat.add_0_r, Nat.ltb_irrefl, andb_false_r; reflexivity|].
  destruct C as [|c C']; [cbn [length app]; rewrite Nat.add_0_r, Nat.ltb_irrefl; reflexivity|]. set (B := b :: B') in *. set (C := c :: C') in *.
  assert (HB : (1 <= length B)%nat) by (cbn; lia). assert (HC : (1 <= length C)%nat) by (cbn; lia). clearbody B C.
  destruct (Nat.ltb_spec (length A + length B) (length A + length B + length C)); [|lia]. destruct (Nat.ltb_spec (length A) (length A + length B)); [|lia]. cbn [andb].
  replace (length A + length B - length A)%nat with (length B) by lia. replace (length A + length B + length C - (length A + length B))%nat with (length C) by lia.
  destruct (Nat.ltb_spec (length B) (length C)) as [H1|H1].
  - destruct (split_at C (length C - length B) ltac:(lia)) as (C1 & C2 & EC & L1). assert (L2 : length C2 = length B) by (apply (f_equal (@length str)) in EC; rewrite length_app in EC; lia).
    pose proof (swap_range_app B C2 A C1 D L2) as Es. rewrite EC, <- app_assoc. replace (length A + length B + length (C1 ++ C2) - length B)%nat with (length A + length B + length C1)%nat by (rewrite length_app; lia).
    rewrite Es. specialize (IH A C2 C1 (B ++ D) ltac:(lia)). rewrite L2 in IH. rewrite IH, <- app_assoc. reflexivity.
  - destruct (split_at B (length C) ltac:(lia)) as (B1 & B2 & EB & L1). assert (L2 : (length C + length B2 = length B)%nat) by (apply (f_equal (@length str)) in EB; rewrite length_app in EB; lia).
    pose proof (swap_range_app B1 C A B2 D ltac:(lia)) as Es. rewrite L1 in Es. rewrite EB, <- app_assoc. replace (length A + length (B1 ++ B2))%nat with (length A + length C + length B2)%nat by (rewrite length_app; lia).
    rewrite Es. specialize (IH (A ++ C) B2 B1 D ltac:(lia)). rewrite length_app, L1 in IH. rewrite <- !app_assoc in IH.
    replace (length A + length C + length B2 + length C)%nat with (length A + length C + length B2 + length C)%nat by lia. rewrite IH, <- app_assoc. reflexivity.
Qed.

(** ** Locality

    An operation on one element reads argv only from optind on, and neither reads nor
    changes first_nonopt and last_nonopt: on [pre ++ rest] with optind at [length pre]
    it does what it does on [rest] with optind 0. *)

Definition relocate (k f l : nat) (d : getopt_data) : getopt_data := set_nonopts f l (set_optind (k + optind d) d).

Definition relocate_result (k f l : nat) (x : option (Z * getopt_data * effects)) : option (Z * getopt_data * effects) :=
  match x with Some (r, d, e) => Some (r, relocate k f l d, e) | None => None end.

Lemma relocate_next_arg k f l d : next_arg (relocate k f l d) = relocate k f l (next_arg d).
Proof. unfold next_arg, relocate, set_optind, set_nonopts. cbn. rewrite Nat.add_succ_r. reflexivity. Qed.
Lemma relocate_optopt k f l c d : set_optopt c (relocate k f l d) = relocate k f l (set_optopt c d).
Proof. reflexivity. Qed.
Lemma relocate_optarg k f l a d : set_optarg a (relocate k f l d) = relocate k f l (set_optarg a d).
Proof. reflexivity. Qed.
Lemma relocate_nextchar k f l s d : set_nextchar s (relocate k f l d) = relocate k f l (set_nextchar s d).
Proof. reflexivity. Qed.
Lemma relocate_nth pre (rest : list str) f l d : nth_error (pre ++ rest) (optind (relocate (length pre) f l d)) = nth_error rest (optind d).
Proof. cbn. rewrite nth_error_app2 by lia. f_equal. lia. Qed.
Lemma relocate_ltb pre (rest : list str) f l d : (optind (relocate (length pre) f l d) <? length (pre ++ rest))%nat = (optind d <? length rest)%nat.
Proof. unfold relocate. cbn [optind set_nonopts set_optind]. rewrite length_app. destruct (Nat.ltb_spec (optind d) (length rest)), (Nat.ltb_spec (length pre + optind d) (length pre + length rest)); try reflexivity; exfalso; lia. Qed.
Lemma relocate_eqb pre (rest : list str) f l d : Nat.eqb (optind (relocate (length pre) f l d)) (length (pre ++ rest)) = Nat.eqb (optind d) (length rest).
Proof. unfold relocate. cbn [optind set_nonopts set_optind]. rewrite length_app. destruct (Nat.eqb_spec (optind d) (length rest)), (Nat.eqb_spec (length pre + optind d) (length pre + length rest)); try reflexivity; exfalso; lia. Qed.

Create Rewrite HintDb getopt_local.
#[local] Hint Rewrite relocate_next_arg relocate_optopt relocate_optarg relocate_nextchar relocate_nth relocate_ltb relocate_eqb : getopt_local.

#[local] Ltac local_cases :=
  repeat (autorewrite with getopt_local;
    match goal with
    | |- ?a = ?a => reflexivity
    | |- context [match ?x with _ => _ end] => lazymatch x with relocate_result _ _ _ _ => fail | context [relocate] => fail | context [match _ with _ => _ end] => fail | _ => destruct x end
    | |- _ => progress cbn [relocate_result negb andb orb]
    end).

Lemma process_long_option_local pre rest os lo only f l d :
  process_long_option (pre ++ rest) os lo only (relocate (length pre) f l d) = relocate_result (length pre) f l (process_long_option rest os lo only d).
Proof.
  unfold process_long_option. change (nextchar (relocate (length pre) f l d)) with (nextchar d). destruct (nextchar d) as [next|]; [|reflexivity]. local_cases.
Qed.

Lemma short_option_local pre rest os lo f l d :
  short_option (pre ++ rest) os lo (relocate (length pre) f l d) = relocate_result (length pre) f l (short_option rest os lo d).
Proof.
  unfold short_option. change (nextchar (relocate (length pre) f l d)) with (nextchar d). destruct (nextchar d) as [[|c next]|]; [reflexivity| |reflexivity].
  autorewrite with getopt_local. destruct next as [|c2 next]; autorewrite with getopt_local; local_cases; autorewrite with getopt_local; rewrite ?process_long_option_local; reflexivity.
Qed.

Lemma option_element_local lo only pre rest os f l d :
  option_element lo only os (pre ++ rest) (relocate (length pre) f l d) = relocate_result (length pre) f l (option_element lo only os rest d).
Proof.
  unfold option_element. autorewrite with getopt_local. destruct (nth_error rest (optind d)) as [cur|]; [|reflexivity].
  destruct lo as [opts|]; autorewrite with getopt_local; rewrite ?short_option_local, ?process_long_option_local; [|reflexivity].
  destruct (nth 1 cur 0 =? 45); [reflexivity|]. destruct (only && _); [|reflexivity].
  destruct (process_long_option rest os opts only _) as [[[code d'] e]|]; cbn [relocate_result]; [|reflexivity]. destruct (negb _); [reflexivity|].
  autorewrite with getopt_local. destruct (nth_error rest (optind d')); [|reflexivity]. autorewrite with getopt_local. apply short_option_local.
Qed.

(** ** What an operation consumes *)

Definition pending (s : option str) : str := match s with Some s => s | None => [] end.

(** A value that could be taken for the end of the options. *)
Definition vals_ok (longopts : list long_option) : Prop := Forall (fun p => val p <> -1) longopts.

Definition same_mode (d d' : getopt_data) : Prop := ordering d' = ordering d /\ initialized d' = initialized d.

Lemma find_exact_in opts : forall i next n p k, find_exact opts i next n = Some (p, k) -> In p opts.
Proof. induction opts as [|q opts IH]; intros i next n p k; cbn; [discriminate|]. destruct (_ && _); [intros [= <- _]; auto | eauto]. Qed.

Lemma find_abbrev_in opts : forall i next n only found ambig p k, fst (find_abbrev opts i next n only found ambig) = Some (p, k) -> In p opts \/ found = Some (p, k).
Proof.
  induction opts as [|q opts IH]; intros i next n only found ambig p k; cbn [find_abbrev]; [auto|]. destruct (name_matches q next n).
  - destruct found as [[f j]|]; intros H; apply IH in H as [H|H]; cbn; auto. injection H as <- _. auto.
  - intros H. apply IH in H as [H|H]; cbn; auto.
Qed.

Lemma strchr_in s c t : strchr s c = Some t -> c = 0 \/ In c s.
Proof.
  induction s as [|x s IH]; cbn.
  - destruct (Z.eqb_spec c 0); auto; discriminate.
  - destruct (Z.eqb_spec x c); [auto|]. intros H. destruct (IH H); auto.
Qed.

Lemma nth_error_lt (rest : list str) i : (i < length rest)%nat -> exists a, nth_error rest i = Some a.
Proof. intros H. destruct (nth_error rest i) eqn:E; [eauto|]. apply nth_error_None in E. lia. Qed.

(** The operation finished: it returned something other than -1 and moved optind. *)
Definition finished (rest : list str) (d : getopt_data) (r : Z) (d' : getopt_data) : Prop :=
  r <> -1 /\ same_mode d d' /\ (S (optind d) <= optind d' <= Nat.max (S (optind d)) (length rest))%nat /\ pending (nextchar d') = [].

#[local] Ltac consumed := unfold finished, same_mode; cbn -[Nat.max]; repeat split; first [lia | congruence | eauto].
#[local] Ltac finish := do 3 eexists; split; [reflexivity | left; consumed].

Lemma process_long_option_finishes rest os lo only d next :
  nextchar d = Some next -> (only = true -> (optind d < length rest)%nat) -> vals_ok lo ->
  exists r d' e, process_long_option rest os lo only d = Some (r, d', e) /\
    (finished rest d r d' \/ (r = -1 /\ d' = d /\ only = true /\ nth 1 (nth (optind d) rest []) 0 <> 45)).
Proof.
  intros En Ho Hv. unfold process_long_option. rewrite En.
  assert (Hin : forall p k, fst (match find_exact lo 0 next (name_end next) with Some p => (Some p, false) | None => find_abbrev lo 0 next (name_end next) only None false end) = Some (p, k) -> val p <> -1).
  { intros p k H. eapply Forall_forall in Hv; [exact Hv|]. destruct (find_exact _ _ _ _) as [[q j]|] eqn:E; [injection H as -> ->; eapply find_exact_in; eauto|].
    apply find_abbrev_in in H as [H|H]; [exact H | discriminate]. }
  destruct (match find_exact _ _ _ _ with Some _ => _ | None => _ end) as [found ambig]. cbn [fst] in Hin.
  destruct ambig; [finish|]. destruct found as [[p k]|].
  - specialize (Hin p k eq_refl). destruct (skipn (name_end next) next) as [|x arg].
    + destruct (has_arg p =? 1).
      * cbv zeta. cbn [optind set_nextchar next_arg set_optind]. destruct (Nat.ltb_spec (S (optind d)) (length rest)) as [Hl|Hl].
        -- destruct (nth_error_lt _ _ Hl) as [a ->]. destruct (flag p); finish.
        -- do 3 eexists. split; [reflexivity|]. left. destruct (_ =? _); consumed.
      * destruct (flag p); finish.
    + destruct (has_arg p =? 0); cbn [negb]; [|destruct (flag p)]; finish.
  - destruct only; cbn [negb orb]; [|finish].
    destruct (nth_error_lt _ _ (Ho eq_refl)) as [a Ea]. rewrite Ea. erewrite (nth_error_nth rest _ []) by exact Ea.
    destruct (Z.eqb_spec (nth 1 a 0) 45); cbn [orb]; [finish|].
    destruct (strchr os _); [do 3 eexists; split; [reflexivity | right; auto] | finish].
Qed.

Definition opts_ok (os : str) (longopts : option (list long_option)) : Prop :=
  ~ In (-1) os /\ match longopts with Some lo => vals_ok lo | None => True end.

(** An operation on the element at optind: it finished with the element, or it is
    still inside it, with less of it pending. *)
Definition progress (rest : list str) (d : getopt_data) (size : nat) (r : Z) (d' : getopt_data) : Prop :=
  r <> -1 /\ same_mode d d' /\
  ((S (optind d) <= optind d' <= length rest)%nat /\ pending (nextchar d') = [] \/
   optind d' = optind d /\ (0 < length (pending (nextchar d')) < size)%nat).

Lemma finished_progress rest d d1 r d' size : (optind d < length rest)%nat -> same_mode d d1 -> (optind d1 = optind d \/ S (optind d) = optind d1 /\ optind d1 < length rest)%nat ->
  finished rest d1 r d' -> progress rest d size r d'.
Proof. intros Hl [H1 H2] Hi (Hr & [H3 H4] & Ho & Hp). split; [exact Hr|]. split; [split; congruence|]. left. split; [lia | exact Hp]. Qed.

Lemma short_option_progress rest os lo d c next :
  nextchar d = Some (c :: next) -> (optind d < length rest)%nat -> opts_ok os lo ->
  exists r d' e, short_option rest os lo d = Some (r, d', e) /\ progress rest d (S (length next)) r d'.
Proof.
  intros En Hl [Hos Hlo]. unfold short_option. rewrite En.
  assert (Hd : exists d1, d1 = (match next with [] => next_arg (set_nextchar (Some next) d) | _ => set_nextchar (Some next) d end) /\ same_mode d d1 /\ nextchar d1 = Some next /\
    optind d1 = (match next with [] => S (optind d) | _ => optind d end)) by (destruct next; eexists; (split; [reflexivity|]); unfold same_mode; cbn; auto).
  cbv zeta. destruct Hd as (d1 & <- & [Hm1 Hm2] & E1 & E2).
  assert (Hq : forall r d', r <> -1 -> optind d' = optind d1 -> nextchar d' = Some next -> same_mode d d' -> progress rest d (S (length next)) r d').
  { intros r d' Hr Hi Hn Hm. split; [exact Hr|]. split; [exact Hm|]. rewrite Hi, Hn, E2. destruct next; cbn; [left | right]; split; auto; lia. }
  assert (Hn : forall r d', r <> -1 -> (S (optind d) <= optind d' <= length rest)%nat -> nextchar d' = None -> same_mode d d' -> progress rest d (S (length next)) r d').
  { intros r d' Hr Hi Hn' Hm. split; [exact Hr|]. split; [exact Hm|]. left. rewrite Hn'. auto. }
  assert (Hmiss : (if nth 0 os 0 =? 58 then 58 else 63) <> -1) by (destruct (_ =? _); lia).
  destruct (strchr os c) as [temp|] eqn:Es; [|do 3 eexists; split; [reflexivity|]; apply Hq; unfold same_mode; cbn; auto; lia].
  assert (Hc : c <> -1) by (intros ->; apply strchr_in in Es as [Es|Es]; [lia | exact (Hos Es)]).
  destruct (_ || _); [do 3 eexists; split; [reflexivity|]; apply Hq; unfold same_mode; cbn; auto; lia|].
  destruct (if (nth 0 temp 0 =? 87) && _ then lo else None) as [opts|] eqn:Ew.
  - assert (lo = Some opts) as -> by (destruct (_ && _); [exact Ew | discriminate]). clear Ew. destruct next as [|c2 next].
    + destruct (Nat.eqb_spec (optind d1) (length rest)) as [He|He]; [do 3 eexists; split; [reflexivity|]; apply Hq; unfold same_mode; cbn; auto|].
      destruct (nth_error_lt rest (optind d1) ltac:(lia)) as [a ->].
      destruct (process_long_option_finishes rest os opts false (set_optarg None (set_nextchar (Some a) d1)) a) as (r & d' & e & E & [Hf|Hf]); [reflexivity | discriminate | exact Hlo | | destruct Hf as (_ & _ & ? & _); discriminate].
      do 3 eexists. split; [exact E|]. eapply finished_progress; [exact Hl| | |exact Hf]; unfold same_mode; cbn; auto. lia.
    + destruct (process_long_option_finishes rest os opts false (set_optarg None (set_nextchar (Some (c2 :: next)) d1)) (c2 :: next)) as (r & d' & e & E & [Hf|Hf]); [reflexivity | discriminate | exact Hlo | | destruct Hf as (_ & _ & ? & _); discriminate].
      do 3 eexists. split; [exact E|]. eapply finished_progress; [exact Hl| | |exact Hf]; unfold same_mode; cbn; auto.
  - destruct (nth 1 temp 0 =? 58); [|do 3 eexists; split; [reflexivity|]; apply Hq; unfold same_mode; auto].
    destruct next as [|c2 next]; destruct (nth 2 temp 0 =? 58).
    2: { destruct (Nat.eqb_spec (optind d1) (length rest)) as [He|He]; [|destruct (nth_error_lt rest (optind d1) ltac:(lia)) as [a ->]];
      (do 3 eexists; split; [reflexivity|]; apply Hn; unfold same_mode; cbn; auto; lia). }
    all: do 3 eexists; split; [reflexivity|]; apply Hn; unfold same_mode; cbn; auto; lia.
Qed.

Lemma option_element_progress lo only rest os d cur :
  nth_error rest (optind d) = Some cur -> NONOPTION_P cur = false -> opts_ok os lo ->
  exists r d' e, option_element lo only os rest d = Some (r, d', e) /\ progress rest d (length cur) r d'.
Proof.
  intros Ec Hnp Hok. assert (Hl : (optind d < length rest)%nat) by (apply nth_error_Some; congruence).
  assert (Hcur : exists x c next, cur = x :: c :: next).
  { unfold NONOPTION_P in Hnp. destruct cur as [|x [|c next]]; cbn in Hnp; try discriminate; [rewrite orb_true_r in Hnp; discriminate | eauto]. }
  destruct Hcur as (x & c & next & ->). unfold option_element. rewrite Ec.
  assert (Hs : forall d1, optind d1 = optind d -> same_mode d d1 ->
    exists r d' e, short_option rest os lo (set_nextchar (Some (skipn 1 (x :: c :: next))) d1) = Some (r, d', e) /\ progress rest d (length (x :: c :: next)) r d').
  { intros d1 Hi [Hm1 Hm2]. destruct (short_option_progress rest os lo (set_nextchar (Some (c :: next)) d1) c next) as (r & d' & e & E & Hr & [Hm3 Hm4] & Hp); [reflexivity | cbn; lia | exact Hok|].
    do 3 eexists. split; [exact E|]. split; [exact Hr|]. split; [unfold same_mode; cbn in *; split; congruence|]. cbn [optind set_nextchar] in Hp. rewrite Hi in Hp. cbn [length]. destruct Hp as [Hp|[Hp1 Hp2]]; [left; exact Hp | right; lia]. }
  destruct lo as [opts|]; [|apply Hs; unfold same_mode; auto]. pose proof (proj2 Hok) as Hv. cbv beta iota in Hv.
  destruct (Z.eqb_spec (nth 1 (x :: c :: next) 0) 45) as [Hd|Hd].
  - destruct (process_long_option_finishes rest os opts only (set_nextchar (Some (skipn 2 (x :: c :: next))) d) (skipn 2 (x :: c :: next))) as (r & d' & e & E & [Hf|Hf]); [reflexivity | intros _; exact Hl | exact Hv | |].
    + do 3 eexists. split; [exact E|]. eapply finished_progress; [exact Hl| | |exact Hf]; unfold same_mode; cbn; auto.
    + destruct Hf as (_ & _ & _ & Hf). cbn [optind set_nextchar] in Hf. erewrite (nth_error_nth rest _ []) in Hf by exact Ec. exfalso. exact (Hf Hd).
  - destruct (only && _); [|apply Hs; unfold same_mode; auto].
    destruct (process_long_option_finishes rest os opts only (set_nextchar (Some (skipn 1 (x :: c :: next))) d) (skipn 1 (x :: c :: next))) as (r & d' & e & E & [Hf|Hf]); [reflexivity | intros _; exact Hl | exact Hv | |].
    + rewrite E. pose proof Hf as (Hr & _). destruct (Z.eqb_spec r (-1)); [contradiction|]. cbn [negb]. do 3 eexists. split; [reflexivity|]. eapply finished_progress; [exact Hl| | |exact Hf]; unfold same_mode; cbn; auto.
    + rewrite E. destruct Hf as (-> & -> & _). cbn [Z.eqb negb optind set_nextchar Pos.eqb]. rewrite Ec. apply (Hs (set_nextchar (Some (skipn 1 (x :: c :: next))) d)); unfold same_mode; auto.
Qed.

(** ** Without indices

    A first step of the refinement: the elements of argv that are done with as options,
    those skipped as operands, and the rest.  Nothing is moved, but one element is still
    handled by the operations of the code; [parse] below states what these do. *)

(** The mode that the first character of optstring, or POSIXLY_CORRECT, selects, and the
    other characters. *)
Definition mode (optstring : str) (posixly_correct : bool) : ord * str :=
  match optstring with
  | 45 :: os => (RETURN_IN_ORDER, os)
  | 43 :: os => (REQUIRE_ORDER, os)
  | _ => (if posixly_correct then REQUIRE_ORDER else PERMUTE, optstring)
  end.

(** What one call gives the caller: the value, optarg, optopt and what was stored. *)
Definition event := (Z * option str * Z * effects)%type.

Fixpoint span (l : list str) : list str * list str :=
  match l with s :: t => if NONOPTION_P s then let '(a, b) := span t in (s :: a, b) else ([], l) | [] => ([], []) end.

Section Spec.
Context (longopts : option (list long_option)) (long_only : bool) (o : ord) (os : str).

Inductive outcome :=
| End (opts operands : list str)
| Event (r : Z) (opts skipped rest : list str) (d : getopt_data) (e : effects).

(** The operation on one element took optind elements of [rest]. *)
Definition take (opts skipped rest : list str) (x : option (Z * getopt_data * effects)) : option outcome :=
  let? (r, d, e) := x in
  Some (Event r (opts ++ firstn (optind d) rest) skipped (skipn (optind d) rest) (set_optind 0 d) e).

Definition spec_call (opts skipped rest : list str) (d : getopt_data) : option outcome :=
  let d := set_optarg None d in
  match pending (nextchar d) with
  | _ :: _ => take opts skipped rest (short_option rest os longopts d)
  | [] =>
      let '(nonopts, rest) := match o with PERMUTE => span rest | _ => ([], rest) end in
      let skipped := skipped ++ nonopts in
      match rest with
      | [] => Some (End opts skipped)
      | cur :: rest' =>
          if is_dashdash cur then Some (End (opts ++ [cur]) (skipped ++ rest'))
          else if NONOPTION_P cur then
            match o with
            | REQUIRE_ORDER => Some (End opts (skipped ++ rest))
            | _ => Some (Event 1 (opts ++ [cur]) skipped rest' (set_optarg (Some cur) d) no_effects)
            end
          else take opts skipped rest (option_element longopts long_only os rest d)
      end
  end.

(** The events up to the end, the options and the operands. *)
Fixpoint spec_run (fuel : nat) (opts skipped rest : list str) (d : getopt_data) : option (list event * list str * list str) :=
  match fuel with
  | O => None
  | S fuel =>
      let? x := spec_call opts skipped rest d in
      match x with
      | End opts operands => Some ([], opts, operands)
      | Event r opts skipped rest d e =>
          let? (l, opts, operands) := spec_run fuel opts skipped rest d in Some ((r, optarg d, optopt d, e) :: l, opts, operands)
      end
  end.
End Spec.

(** while ((r = getopt_internal_r (...)) != -1) *)
Fixpoint getopt_run (fuel : nat) (optstring : str) (longopts : option (list long_option)) (long_only posixly_correct : bool) (argv : list str) (d : getopt_data)
    : option (list event * list str * getopt_data) :=
  match fuel with
  | O => None
  | S fuel =>
      let? (r, d, argv, e) := getopt_internal_r optstring longopts long_only posixly_correct argv d in
      if r =? -1 then Some ([], argv, d)
      else let? (l, argv, d') := getopt_run fuel optstring longopts long_only posixly_correct argv d in Some ((r, optarg d, optopt d, e) :: l, argv, d')
  end.

(** ** The moves of the segments *)

Lemma exchange_segments A B R rest d : optind d = 0%nat ->
  exchange ((A ++ B ++ R) ++ rest) (relocate (length (A ++ B ++ R)) (length A) (length A + length B) d) =
  Some (A ++ R ++ B ++ rest, relocate (length (A ++ B ++ R)) (length (A ++ R)) (length (A ++ B ++ R)) d).
Proof.
  intros E0. unfold exchange, relocate. cbn [first_nonopt last_nonopt optind set_nonopts set_optind]. rewrite E0, Nat.add_0_r.
  replace (length (A ++ B ++ R)) with (length A + length B + length R)%nat by (rewrite !length_app; lia).
  rewrite <- !app_assoc, exchange_loop_app by (rewrite !length_app; lia). do 2 f_equal. unfold set_nonopts, set_optind. cbn. f_equal. rewrite length_app. lia.
Qed.

Lemma skip_nonoptions_span rest : forall i, skip_nonoptions rest i = (i + length (fst (span rest)))%nat.
Proof. induction rest as [|s rest IH]; intros i; cbn; [lia|]. destruct (NONOPTION_P s); [|cbn; lia]. rewrite IH. destruct (span rest). cbn. lia. Qed.

Lemma span_app rest : fst (span rest) ++ snd (span rest) = rest.
Proof. induction rest as [|s rest IH]; [reflexivity|]. cbn. destruct (NONOPTION_P s); [|reflexivity]. destruct (span rest). cbn in *. congruence. Qed.

Lemma permute_segments A B R rest d : optind d = 0%nat ->
  permute ((A ++ B ++ R) ++ rest) (relocate (length (A ++ B ++ R)) (length A) (length A + length B) d) =
  let '(n, rest') := span rest in
  Some (((A ++ R) ++ B ++ n) ++ rest', relocate (length ((A ++ R) ++ B ++ n)) (length (A ++ R)) (length (A ++ R) + length (B ++ n)) d).
Proof.
  intros E0. assert (H : forall argv' l' n rest' D', span rest = (n, rest') -> argv' = A ++ R ++ B ++ rest -> D' = relocate (length (A ++ B ++ R)) (length (A ++ R)) l' d ->
    (let i := skip_nonoptions (skipn (optind D') argv') (optind D') in Some (argv', set_nonopts (first_nonopt D') i (set_optind i D'))) =
    Some (((A ++ R) ++ B ++ n) ++ rest', relocate (length ((A ++ R) ++ B ++ n)) (length (A ++ R)) (length (A ++ R) + length (B ++ n)) d)).
  { intros argv' l' n rest' D' Es -> ->. cbn [optind first_nonopt relocate set_nonopts set_optind]. rewrite E0, Nat.add_0_r. replace (A ++ R ++ B ++ rest) with ((A ++ R ++ B) ++ rest) by (rewrite <- !app_assoc; reflexivity).
    replace (length (A ++ B ++ R)) with (length (A ++ R ++ B)) by (rewrite !length_app; lia). rewrite skipn_app, skipn_all, Nat.sub_diag. cbn [skipn app].
    rewrite skip_nonoptions_span, Es. cbn [fst]. pose proof (span_app rest) as Ea. rewrite Es in Ea. cbn [fst snd] in Ea. rewrite <- Ea, <- !app_assoc. do 2 f_equal.
    unfold relocate, set_nonopts, set_optind. cbn. rewrite E0. f_equal; rewrite !length_app; lia. }
  destruct (span rest) as [n rest'] eqn:Es. specialize (fun a l D => H a l n rest' D eq_refl). unfold permute.
  cbn [first_nonopt last_nonopt relocate set_nonopts set_optind optind]. fold (relocate (length (A ++ B ++ R)) (length A) (length A + length B) d).
  rewrite E0, Nat.add_0_r. destruct B as [|b B]; [|destruct R as [|r R]].
  - cbn [length app] in *. rewrite Nat.add_0_r, Nat.eqb_refl. cbn [negb andb]. destruct (Nat.eqb_spec (length A) (length (A ++ R))) as [El|El]; cbn [negb].
    + assert (R = []) as -> by (destruct R; [reflexivity | rewrite length_app in El; cbn in El; lia]). rewrite app_nil_r in *. apply (H _ (length A)); reflexivity.
    + apply (H _ (length A)); [symmetry; apply app_assoc | reflexivity].
  - rewrite !app_nil_r in *. rewrite length_app, Nat.eqb_refl, andb_false_r. cbn [negb]. apply (H _ (length A + length (b :: B))%nat); [symmetry; exact (app_assoc A (b :: B) rest) | rewrite length_app; reflexivity].
  - destruct (Nat.eqb_spec (length A) (length A + length (b :: B))); [cbn in *; lia|]. destruct (Nat.eqb_spec (length A + length (b :: B)) (length (A ++ (b :: B) ++ r :: R))) as [El|El]; [rewrite !length_app in El; cbn in El; lia|].
    cbn [negb andb]. rewrite exchange_segments by exact E0. apply (H _ (length (A ++ (b :: B) ++ r :: R))); reflexivity.
Qed.

Lemma dashdash_segments A B R cur rest d : optind d = 0%nat ->
  exists D', dashdash ((A ++ B ++ R) ++ cur :: rest) (relocate (length (A ++ B ++ R)) (length A) (length A + length B) d) = Some ((A ++ R ++ [cur]) ++ B ++ rest, D') /\
    optind D' = length ((A ++ R ++ [cur]) ++ B ++ rest) /\ first_nonopt D' = length (A ++ R ++ [cur]) /\ last_nonopt D' = length ((A ++ R ++ [cur]) ++ B ++ rest).
Proof.
  intros E0. unfold dashdash.
  assert (En : next_arg (relocate (length (A ++ B ++ R)) (length A) (length A + length B) d) = relocate (length (A ++ B ++ R ++ [cur])) (length A) (length A + length B) d).
  { unfold next_arg, relocate, set_nonopts, set_optind. cbn. rewrite E0. f_equal. rewrite !length_app. cbn. lia. }
  rewrite En. replace ((A ++ B ++ R) ++ cur :: rest) with ((A ++ B ++ R ++ [cur]) ++ rest) by (rewrite <- !app_assoc; reflexivity).
  assert (Ho : forall f l, optind (relocate (length (A ++ B ++ R ++ [cur])) f l d) = length (A ++ B ++ R ++ [cur])) by (intros; cbn; rewrite E0; lia). rewrite !Ho.
  cbn [first_nonopt last_nonopt relocate set_nonopts set_optind]. fold (relocate (length (A ++ B ++ R ++ [cur])) (length A) (length A + length B) d).
  destruct (Nat.eqb_spec (length A + length B) (length (A ++ B ++ R ++ [cur]))) as [El|El]; [rewrite !length_app in El; cbn in El; lia|]. cbn [negb]. rewrite andb_true_r.
  destruct B as [|b B].
  - cbn [length app]. rewrite Nat.add_0_r, Nat.eqb_refl. cbn [negb]. eexists. split; [reflexivity|]. cbn. auto.
  - destruct (Nat.eqb_spec (length A) (length A + length (b :: B))); [cbn in *; lia|]. cbn [negb]. rewrite exchange_segments by exact E0.
    replace (A ++ (R ++ [cur]) ++ (b :: B) ++ rest) with ((A ++ R ++ [cur]) ++ (b :: B) ++ rest) by (rewrite <- !app_assoc; reflexivity). eexists. split; [reflexivity|]. auto.
Qed.

(** ** Refinement *)

Definition measure (rest : list str) (next : str) : nat :=
  let size := fold_right (fun s n => (S (length s) + n)%nat) 0%nat in
  match next with [] => size rest | _ => (length next + size (tl rest))%nat end.

Lemma measure_skipn rest : forall k, (measure (skipn k rest) [] <= measure rest [])%nat.
Proof. unfold measure. induction rest as [|s rest IH]; intros [|k]; cbn [skipn fold_right]; try lia. specialize (IH k). lia. Qed.

Lemma measure_skip rest k : (1 <= k)%nat -> (measure (skipn k rest) [] <= measure (tl rest) [])%nat.
Proof. destruct k as [|k]; [lia|]. intros _. destruct rest as [|s rest]; [cbn; lia|]. cbn [skipn tl]. apply measure_skipn. Qed.

Lemma mode_eq s pc : mode s pc =
  if nth 0 s 0 =? 45 then (RETURN_IN_ORDER, tl s) else if nth 0 s 0 =? 43 then (REQUIRE_ORDER, tl s) else (if pc then REQUIRE_ORDER else PERMUTE, s).
Proof.
  destruct s as [|c s]; [reflexivity|]. cbn [nth tl]. destruct (Z.eqb_spec c 45) as [->|H1]; [reflexivity|]. destruct (Z.eqb_spec c 43) as [->|H2]; [reflexivity|].
  unfold mode. destruct c as [|p|p]; try reflexivity. do 6 (destruct p as [p|p|]; try reflexivity); contradiction.
Qed.

Section Refine.
Context (optstring : str) (longopts : option (list long_option)) (long_only posixly_correct : bool) (o : ord) (os prog : str).
Hypothesis (Hmode : mode optstring posixly_correct = (o, os)) (Hok : opts_ok os longopts).

(** argv and the data that correspond to a state of the specification: the options [R]
    found since the last exchange are behind the skipped operands. *)
Definition refines (argv : list str) (D : getopt_data) (opts skipped rest : list str) (d : getopt_data) : Prop :=
  exists A R, prog :: opts = A ++ R /\ A <> [] /\ argv = (A ++ skipped ++ R) ++ rest /\
    D = relocate (length (A ++ skipped ++ R)) (length A) (length A + length skipped) d /\
    optind d = 0%nat /\ initialized d = true /\ ordering d = o /\ (o <> PERMUTE -> skipped = []) /\ (pending (nextchar d) <> [] -> rest <> []).

(** What a call must do where the specification has this outcome. *)
Definition simulated (call : option result) (next : nat) (x : option outcome) : Prop :=
  match x with
  | None => False
  | Some (End opts operands) =>
      exists D', call = Some (-1, D', (prog :: opts) ++ operands, no_effects) /\ optind D' = S (length opts)
  | Some (Event r opts skipped rest d e) =>
      exists argv' D', call = Some (r, D', argv', e) /\ r <> -1 /\
        refines argv' D' opts skipped rest d /\ optarg D' = optarg d /\ optopt D' = optopt d /\ (measure rest (pending (nextchar d)) < next)%nat
  end.

Lemma taken_elements A opts skipped R rest d d' size r : prog :: opts = A ++ R -> A <> [] -> optind d = 0%nat -> initialized d = true -> ordering d = o -> (o <> PERMUTE -> skipped = []) ->
  rest <> [] -> (0 < size)%nat -> progress rest d size r d' ->
  refines ((A ++ skipped ++ R) ++ rest) (relocate (length (A ++ skipped ++ R)) (length A) (length A + length skipped) d')
    (opts ++ firstn (optind d') rest) skipped (skipn (optind d') rest) (set_optind 0 d') /\
  (measure (skipn (optind d') rest) (pending (nextchar d')) < size + measure (tl rest) [])%nat.
Proof using Type.
  intros EA HA E0 Ei Eo Hs Hr Hsz (Hr1 & [Hm1 Hm2] & Hp). rewrite E0 in Hp. split.
  - exists A, (R ++ firstn (optind d') rest). rewrite app_assoc, <- EA. split; [reflexivity|]. split; [exact HA|].
    assert (Hk : (optind d' <= length rest)%nat) by (destruct Hp as [Hp|Hp]; lia).
    replace (A ++ skipped ++ R ++ firstn (optind d') rest) with ((A ++ skipped ++ R) ++ firstn (optind d') rest) by (rewrite <- !app_assoc; reflexivity).
    split; [rewrite <- (app_assoc _ (firstn _ _)), firstn_skipn; reflexivity|]. split.
    { unfold relocate, set_nonopts, set_optind. cbn. f_equal. rewrite (length_app _ (firstn _ _)), length_firstn. lia. }
    cbn. repeat split; try congruence; auto. intros Hn. destruct Hp as [[_ Hp]|[-> _]]; [contradiction | exact Hr].
  - destruct Hp as [[Hk ->]|[-> Hp]].
    + pose proof (measure_skip rest _ (proj1 Hk)). lia.
    + unfold measure at 1. cbn [skipn]. destruct (pending (nextchar d')) eqn:E; [cbn in Hp; lia|]. unfold measure. lia.
Qed.

Lemma simulated_le call n n' x : (n <= n')%nat -> simulated call n x -> simulated call n' x.
Proof using Type. intros Hn. destruct x as [[opts ops|r opts sk rest d e]|]; cbn; auto. intros (a & D & H1 & H2 & H3 & H4 & H5 & H6). exists a, D. repeat split; auto. lia. Qed.

Lemma take_simulated A opts skipped R rest d size x : prog :: opts = A ++ R -> A <> [] -> optind d = 0%nat -> initialized d = true -> ordering d = o -> (o <> PERMUTE -> skipped = []) ->
  rest <> [] -> (0 < size)%nat -> (exists r d' e, x = Some (r, d', e) /\ progress rest d size r d') ->
  simulated (let? (r, d, e) := relocate_result (length (A ++ skipped ++ R)) (length A) (length A + length skipped) x in Some (r, d, (A ++ skipped ++ R) ++ rest, e))
    (size + measure (tl rest) []) (take opts skipped rest x).
Proof using Type.
  intros EA HA E0 Ei Eo Hs Hr Hsz (r & d' & e & -> & Hp). cbn [relocate_result take simulated]. do 2 eexists. split; [reflexivity|]. split; [exact (proj1 Hp)|].
  destruct (taken_elements A opts skipped R rest d d' size r) as [H1 H2]; auto.
Qed.

(** The part of a call behind the permutation. *)
Definition behind (argv : list str) (D : getopt_data) : option result :=
  let? (argv, d) :=
    (if Nat.eqb (optind D) (length argv) then Some (argv, D)
     else let? cur := nth_error argv (optind D) in if is_dashdash cur then dashdash argv D else Some (argv, D)) in
  element longopts long_only os argv d.

Definition spec_behind (opts skipped rest : list str) (d : getopt_data) : option outcome :=
  match rest with
  | [] => Some (End opts skipped)
  | cur :: rest' =>
      if is_dashdash cur then Some (End (opts ++ [cur]) (skipped ++ rest'))
      else if NONOPTION_P cur then
        match o with
        | REQUIRE_ORDER => Some (End opts (skipped ++ rest))
        | _ => Some (Event 1 (opts ++ [cur]) skipped rest' (set_optarg (Some cur) d) no_effects)
        end
      else take opts skipped rest (option_element longopts long_only os rest d)
  end.

Lemma behind_simulated A opts skipped R rest d : prog :: opts = A ++ R -> A <> [] -> optind d = 0%nat -> initialized d = true -> ordering d = o -> (o <> PERMUTE -> skipped = []) ->
  (o = PERMUTE -> R = []) -> pending (nextchar d) = [] ->
  simulated (behind ((A ++ skipped ++ R) ++ rest) (relocate (length (A ++ skipped ++ R)) (length A) (length A + length skipped) d)) (measure rest []) (spec_behind opts skipped rest d).
Proof using Hmode Hok.
  intros EA HA E0 Ei Eo Hs HR Hp. assert (El : S (length opts) = length (A ++ R)) by (rewrite <- EA; reflexivity).
  set (D := relocate _ _ _ d). assert (ED : optind D = length (A ++ skipped ++ R)) by (cbn; rewrite E0; lia). unfold behind, spec_behind. rewrite ED. destruct rest as [|cur rest].
  - rewrite app_nil_r, Nat.eqb_refl. unfold element. rewrite ED, Nat.eqb_refl. cbn [simulated first_nonopt last_nonopt relocate set_nonopts set_optind D].
    destruct o; [pose proof (Hs ltac:(discriminate)) as ->| pose proof (HR eq_refl) as -> |pose proof (Hs ltac:(discriminate)) as ->].
    1, 3: rewrite EA; cbn [app length]; rewrite Nat.add_0_r, Nat.eqb_refl, app_nil_r; cbn [negb]; eexists; split; [reflexivity|]; fold D; cbn [app] in ED; congruence.
    rewrite EA. rewrite app_nil_r in El. rewrite !app_nil_r. rewrite app_nil_r in ED. eexists. split; [reflexivity|]. destruct (Nat.eqb_spec (length A) (length A + length skipped)) as [E|E]; cbn [negb]; [rewrite ED, length_app; lia | cbn; lia].
  - destruct (Nat.eqb_spec (length (A ++ skipped ++ R)) (length ((A ++ skipped ++ R) ++ cur :: rest))) as [E|_]; [rewrite (length_app _ (cur :: rest)) in E; cbn in E; lia|]. rewrite nth_app_at.
    destruct (is_dashdash cur) eqn:Ed.
    { destruct (dashdash_segments A skipped R cur rest d E0) as (D' & Edd & E1 & E2 & E3). fold D in Edd. rewrite Edd. unfold element. rewrite E1, Nat.eqb_refl, E2, E3. cbn [simulated].
      replace (prog :: opts ++ [cur]) with (A ++ R ++ [cur]) by (rewrite app_assoc, <- EA; reflexivity). eexists. split; [reflexivity|].
      assert (Ho : S (length (opts ++ [cur])) = length (A ++ R ++ [cur])) by (rewrite (app_assoc A), !(length_app _ [cur]), <- El; reflexivity). rewrite Ho.
      destruct (Nat.eqb_spec (length (A ++ R ++ [cur])) (length ((A ++ R ++ [cur]) ++ skipped ++ rest))) as [E|E]; cbn; congruence. }
    unfold element. rewrite ED. destruct (Nat.eqb_spec (length (A ++ skipped ++ R)) (length ((A ++ skipped ++ R) ++ cur :: rest))) as [E|_]; [rewrite (length_app _ (cur :: rest)) in E; cbn in E; lia|]. rewrite nth_app_at.
    destruct (NONOPTION_P cur) eqn:En.
    + assert (Em : ordering D = o) by exact Eo. rewrite Em.
      assert (Hev : simulated (Some (1, next_arg (set_optarg (Some cur) D), (A ++ skipped ++ R) ++ cur :: rest, no_effects)) (measure (cur :: rest) [])
        (Some (Event 1 (opts ++ [cur]) skipped rest (set_optarg (Some cur) d) no_effects))).
      { cbn [simulated]. do 2 eexists. split; [reflexivity|]. split; [lia|]. split; [|split; [reflexivity | split; [reflexivity|]]].
        - exists A, (R ++ [cur]). rewrite (app_assoc A R), <- EA. split; [reflexivity|]. split; [exact HA|]. split; [rewrite <- !app_assoc; reflexivity|]. split.
          { unfold D, next_arg, relocate, set_optind, set_optarg, set_nonopts. cbn. rewrite E0. f_equal. rewrite !length_app. cbn. lia. }
          repeat split; auto.
        - cbn [nextchar set_optarg]. rewrite Hp. cbn. lia. }
      destruct o; try exact Hev. pose proof (Hs ltac:(discriminate)) as ->. cbn [simulated]. cbn [app] in *. change (prog :: opts ++ cur :: rest) with ((prog :: opts) ++ cur :: rest). rewrite EA. eexists. split; [reflexivity|]. congruence.
    + unfold D. rewrite option_element_local. apply (simulated_le _ (length cur + measure rest [])); [cbn; lia|].
      apply (take_simulated A opts skipped R (cur :: rest) d); auto; [discriminate | destruct cur; [discriminate | cbn; lia]|]. apply option_element_progress; auto. rewrite E0. reflexivity.
Qed.

Lemma ord_permute (p : ord) :
  p = PERMUTE /\ (forall T (x y : T), match p with PERMUTE => x | _ => y end = x) \/ p <> PERMUTE /\ (forall T (x y : T), match p with PERMUTE => x | _ => y end = y).
Proof using Type. destruct p; [right | left | right]; (split; [congruence | reflexivity]). Qed.

Lemma optstring_mode : (if (nth 0 optstring 0 =? 45) || (nth 0 optstring 0 =? 43) then tl optstring else optstring) = os.
Proof using Hmode Hok. rewrite mode_eq in Hmode. destruct (nth 0 optstring 0 =? 45); [|destruct (nth 0 optstring 0 =? 43)]; injection Hmode as _ <-; reflexivity. Qed.

Lemma getopt_internal_r_refined argv D opts skipped rest d : refines argv D opts skipped rest d ->
  simulated (getopt_internal_r optstring longopts long_only posixly_correct argv D) (measure rest (pending (nextchar d))) (spec_call longopts long_only o os opts skipped rest d).
Proof using Hmode Hok.
  intros (A & R & EA & HA & -> & -> & E0 & Ei & Eo & Hs & Hn). set (d1 := set_optarg None d).
  assert (HlA : (1 <= length A)%nat) by (destruct A; [contradiction | cbn; lia]). unfold getopt_internal_r.
  destruct (Nat.ltb_spec (length ((A ++ skipped ++ R) ++ rest)) 1) as [H|_]; [rewrite !length_app in H; lia|]. rewrite relocate_optarg. fold d1.
  assert (Eo1 : optind (relocate (length (A ++ skipped ++ R)) (length A) (length A + length skipped) d1) = length (A ++ skipped ++ R)) by (cbn; rewrite E0; lia). rewrite Eo1.
  destruct (Nat.eqb_spec (length (A ++ skipped ++ R)) 0) as [H|_]; [rewrite !length_app in H; lia|].
  replace (initialized _) with true by (symmetry; exact Ei). cbn [orb negb]. rewrite optstring_mode.
  cbn [nextchar first_nonopt last_nonopt relocate set_nonopts set_optind]. fold (relocate (length (A ++ skipped ++ R)) (length A) (length A + length skipped) d1). rewrite Eo1.
  replace (Nat.min (length A + length skipped) _) with (length A + length skipped)%nat by (rewrite !length_app; lia). replace (Nat.min (length A) _) with (length A) by (rewrite !length_app; lia).
  change (set_nonopts (length A) (length A + length skipped) (relocate (length (A ++ skipped ++ R)) (length A) (length A + length skipped) d1)) with (relocate (length (A ++ skipped ++ R)) (length A) (length A + length skipped) d1).
  unfold spec_call. fold d1. change (nextchar d) with (nextchar d1) in *. destruct (pending (nextchar d1)) as [|c next] eqn:Ep.
  - assert (Hcase : match nextchar d1 with Some (_ :: _) => False | _ => True end) by (destruct (nextchar d1) as [[|]|]; cbn in Ep; try discriminate; exact I).
    assert (Egoal : forall x y : option result, match nextchar d1 with Some (_ :: _) => x | _ => y end = y) by (intros; destruct (nextchar d1) as [[|]|]; auto; contradiction). rewrite Egoal. clear Egoal Hcase.
    change (ordering (relocate (length (A ++ skipped ++ R)) (length A) (length A + length skipped) d1)) with (ordering d). rewrite Eo.
    assert (Hperm : o <> PERMUTE -> simulated (behind ((A ++ skipped ++ R) ++ rest) (relocate (length (A ++ skipped ++ R)) (length A) (length A + length skipped) d1)) (measure rest []) (spec_behind opts (skipped ++ []) rest d1)).
    { intros Ho. rewrite app_nil_r. apply behind_simulated; auto. intros E. contradiction. }
    destruct (ord_permute o) as [[Eoo Hm]|[Eoo Hm]]; rewrite !Hm; [|exact (Hperm Eoo)]. rewrite permute_segments by exact E0. pose proof (span_app rest) as Esp. destruct (span rest) as [n rest'] eqn:Es. cbn [fst snd] in Esp.
    replace ((A ++ R) ++ skipped ++ n) with ((A ++ R) ++ (skipped ++ n) ++ []) by (rewrite app_nil_r; reflexivity).
    apply (simulated_le _ (measure rest' [])). { rewrite <- Esp. pose proof (measure_skipn (n ++ rest') (length n)) as Hk. rewrite skipn_app, skipn_all, Nat.sub_diag in Hk. exact Hk. }
    apply behind_simulated; auto; try congruence. rewrite app_nil_r. exact EA.
  - destruct (nextchar d1) as [[|c' next']|] eqn:En; cbn in Ep; try discriminate. injection Ep as -> ->. rewrite short_option_local.
    assert (Hne : rest <> []) by (apply Hn; discriminate). apply (simulated_le _ (S (length next) + measure (tl rest) [])); [unfold measure; cbn; lia|].
    apply (take_simulated A opts skipped R rest d1); auto; [lia|]. apply short_option_progress with c; auto. cbn. rewrite E0. destruct rest; [contradiction | cbn; lia].
Qed.

Lemma getopt_run_refined fuel : forall argv D opts skipped rest d, refines argv D opts skipped rest d -> (measure rest (pending (nextchar d)) < fuel)%nat ->
  exists events opts' operands D', spec_run longopts long_only o os fuel opts skipped rest d = Some (events, opts', operands) /\
    getopt_run fuel optstring longopts long_only posixly_correct argv D = Some (events, (prog :: opts') ++ operands, D') /\ optind D' = S (length opts').
Proof using Hmode Hok.
  induction fuel as [|fuel IH]; intros argv D opts skipped rest d Hr Hf; [lia|]. pose proof (getopt_internal_r_refined _ _ _ _ _ _ Hr) as Hs. cbn [spec_run getopt_run].
  destruct (spec_call _ _ _ _ _ _ _ _) as [[opts' ops|r opts' sk' rest' d' e]|]; cbn [simulated] in Hs; [| |contradiction].
  - destruct Hs as (D' & -> & Ho). exists [], opts', ops, D'. auto.
  - destruct Hs as (argv' & D' & -> & Hne & Hr' & Ea & Eo & Hm). destruct (Z.eqb_spec r (-1)); [contradiction|].
    destruct (IH _ _ _ _ _ _ Hr' ltac:(lia)) as (ev & o2 & p2 & D2 & -> & -> & Ho2). rewrite Ea, Eo. do 4 eexists. split; [reflexivity|]. split; [reflexivity | exact Ho2].
Qed.
End Refine.

(** [l] is an interleaving of [a] and [b]. *)
Inductive merge {T} : list T -> list T -> list T -> Prop :=
| merge_nil : merge [] [] []
| merge_left x a b l : merge a b l -> merge (x :: a) b (x :: l)
| merge_right x a b l : merge a b l -> merge a (x :: b) (x :: l).
#[local] Hint Constructors merge : glibc.

Lemma merge_lefts {T} (p a b l : list T) : merge a b l -> merge (p ++ a) b (p ++ l).
Proof. intros H. induction p; cbn; auto with glibc. Qed.
Lemma merge_rights {T} (p a b l : list T) : merge a b l -> merge a (p ++ b) (p ++ l).
Proof. intros H. induction p; cbn; auto with glibc. Qed.
Lemma merge_only {T} (l : list T) : merge [] l l.
Proof. induction l; auto with glibc. Qed.

Lemma spec_run_merge lo only o os fuel : forall opts skipped rest d events opts' operands,
  spec_run lo only o os fuel opts skipped rest d = Some (events, opts', operands) ->
  exists a b, opts' = opts ++ a /\ operands = skipped ++ b /\ merge a b rest /\ (o <> PERMUTE -> a ++ b = rest).
Proof.
  induction fuel as [|fuel IH]; intros opts skipped rest d events opts' operands; [discriminate|]. cbn [spec_run].
  assert (Hend : forall nonopts a b rest' A B, rest = nonopts ++ a ++ b ++ rest' -> rest' = [] -> (o <> PERMUTE -> nonopts = []) -> A = opts ++ a -> B = (skipped ++ nonopts) ++ b ->
    exists a b, A = opts ++ a /\ B = skipped ++ b /\ merge a b rest /\ (o <> PERMUTE -> a ++ b = rest)).
  { intros n a b rest' A B -> -> Hn -> ->. exists a, (n ++ b). rewrite app_nil_r, app_assoc. repeat split; auto.
    - apply merge_rights. rewrite <- (app_nil_r a) at 1. apply merge_lefts, merge_only.
    - intros Ho. rewrite (Hn Ho). reflexivity. }
  assert (Hev : forall nonopts a rest' d' ev A B, rest = nonopts ++ a ++ rest' -> (o <> PERMUTE -> nonopts = []) ->
    spec_run lo only o os fuel (opts ++ a) (skipped ++ nonopts) rest' d' = Some (ev, A, B) ->
    exists a b, A = opts ++ a /\ B = skipped ++ b /\ merge a b rest /\ (o <> PERMUTE -> a ++ b = rest)).
  { intros n a rest' d' ev A B -> Hn Hrun. apply IH in Hrun as (a' & b' & -> & -> & Hm & Ho). exists (a ++ a'), (n ++ b'). rewrite <- !app_assoc. repeat split; auto.
    - apply merge_rights, merge_lefts, Hm.
    - intros Hne. rewrite (Hn Hne). cbn [app]. rewrite <- ?app_assoc, (Ho Hne). reflexivity. }
  assert (Htake : forall n r x, rest = n ++ r -> (o <> PERMUTE -> n = []) ->
    (let? x := take opts (skipped ++ n) r x in match x with End opts operands => Some ([], opts, operands) | Event r opts skipped rest d e =>
       let? (l, opts, operands) := spec_run lo only o os fuel opts skipped rest d in Some ((r, optarg d, optopt d, e) :: l, opts, operands) end) = Some (events, opts', operands) ->
    exists a b, opts' = opts ++ a /\ operands = skipped ++ b /\ merge a b rest /\ (o <> PERMUTE -> a ++ b = rest)).
  { intros n r [[[v d'] e]|] Er Hn; cbn [take]; [|discriminate]. destruct (spec_run _ _ _ _ _ _ _ _ _) as [[[l A] B]|] eqn:Erun; [|discriminate]. intros [= _ <- <-].
    eapply Hev; [|exact Hn|exact Erun]. rewrite firstn_skipn. exact Er. }
  unfold spec_call. destruct (pending _); [|intros H; eapply (Htake [] rest); [reflexivity | auto | rewrite app_nil_r; exact H]].
  destruct (match o with PERMUTE => span rest | _ => ([], rest) end) as [n r] eqn:Esp.
  assert (Hsp : rest = n ++ r /\ (o <> PERMUTE -> n = [])).
  { destruct o; [injection Esp as <- <-; auto| |injection Esp as <- <-; auto]. split; [|congruence]. rewrite <- (span_app rest), Esp. reflexivity. }
  destruct Hsp as [Er Hn]. destruct r as [|cur r].
  - intros [= _ <- <-]. apply (Hend n [] [] []); auto; rewrite ?app_nil_r; auto.
  - destruct (is_dashdash cur); [intros [= _ <- <-]; apply (Hend n [cur] r []); auto; rewrite app_nil_r; exact Er|].
    destruct (NONOPTION_P cur); [|intros H; eapply Htake; [exact Er | exact Hn | exact H]].
    destruct o eqn:Eo; [intros [= _ <- <-]; apply (Hend n [] (cur :: r) []); auto; rewrite ?app_nil_r; auto| |];
      (destruct (spec_run _ _ _ _ _ _ _ _ _) as [[[l A] B]|] eqn:Erun; [|discriminate]; intros [= _ <- <-]; eapply Hev; [|exact Hn|exact Erun]; exact Er).
Qed.

(** The data behind the initialisation, in the terms of the specification. *)
Definition start (o : ord) (d : getopt_data) : getopt_data :=
  {| optind := 0; optopt := optopt d; optarg := optarg d; initialized := true; nextchar := None; ordering := o; first_nonopt := 0; last_nonopt := 0 |}.

Lemma getopt_run_initialize optstring lo only posix prog args D fuel : optind D = 0%nat \/ optind D = 1%nat /\ initialized D = false ->
  getopt_run fuel optstring lo only posix (prog :: args) D =
  getopt_run fuel optstring lo only posix (prog :: args) (relocate 1 1 1 (start (fst (mode optstring posix)) D)).
Proof.
  intros HD. destruct fuel as [|fuel]; [reflexivity|]. cbn [getopt_run]. unfold getopt_internal_r. cbn [length].
  destruct (Nat.ltb_spec (S (length args)) 1); [lia|]. set (D1 := set_optarg None (relocate _ _ _ _)). set (D0 := set_optarg None D).
  replace (Nat.eqb (optind D0) 0 || negb (initialized D0)) with true by (destruct HD as [HD|[_ HD]]; cbn; rewrite HD; [reflexivity | symmetry; apply orb_true_r]).
  replace (Nat.eqb (optind D1) 0 || negb (initialized D1)) with false by reflexivity.
  assert (Ei : getopt_initialize optstring posix D0 = (if (nth 0 optstring 0 =? 45) || (nth 0 optstring 0 =? 43) then tl optstring else optstring, D1)).
  { unfold getopt_initialize, D1, start. rewrite mode_eq. replace (if Nat.eqb (optind D0) 0 then 1%nat else optind D0) with 1%nat by (destruct HD as [HD|[HD _]]; cbn; rewrite HD; reflexivity).
    destruct (nth 0 optstring 0 =? 45), (nth 0 optstring 0 =? 43), posix; reflexivity. }
  rewrite Ei. reflexivity.
Qed.

(** The same loop through the interface with global variables. *)
Fixpoint getopt_global_run (fuel : nat) (optstring : str) (longopts : option (list long_option)) (long_only posixly_correct : bool) (argv : list str) (g : globals) (d : getopt_data)
    : option (list event * list str * globals) :=
  match fuel with
  | O => None
  | S fuel =>
      let? (r, g, d, argv, e) := getopt_internal optstring longopts long_only posixly_correct argv g d in
      if r =? -1 then Some ([], argv, g)
      else let? (l, argv, g') := getopt_global_run fuel optstring longopts long_only posixly_correct argv g d in Some ((r, g_optarg g, g_optopt g, e) :: l, argv, g')
  end.

Lemma set_optind_id d : set_optind (optind d) d = d.
Proof. destruct d. reflexivity. Qed.

Lemma getopt_global_run_eq optstring lo only posix fuel : forall argv g d,
  getopt_global_run fuel optstring lo only posix argv g d =
  match getopt_run fuel optstring lo only posix argv (set_optind (g_optind g) d) with
  | Some (l, argv, d) => Some (l, argv, {| g_optind := optind d; g_optarg := optarg d; g_optopt := optopt d |})
  | None => None
  end.
Proof.
  induction fuel as [|fuel IH]; intros argv g d; [reflexivity|]. cbn [getopt_global_run getopt_run]. unfold getopt_internal.
  destruct (getopt_internal_r _ _ _ _ _ _) as [[[[r d'] argv'] e]|]; [|reflexivity]. destruct (r =? -1); [reflexivity|].
  rewrite IH. cbn [g_optind g_optarg g_optopt]. rewrite set_optind_id. destruct (getopt_run _ _ _ _ _ _ _) as [[[l a] d2]|]; reflexivity.
Qed.

(** ** What the options of an element mean

    The rules of the manual, without the data of the parser: how a character is declared
    in optstring, how a name is looked up among the long options, and where the argument
    of an option comes from. *)

Fixpoint is_prefix (a b : str) : bool :=
  match a, b with [], _ => true | x :: a, y :: b => (x =? y) && is_prefix a b | _, _ => false end.

Definition same_text (a b : str) : bool := if list_eq_dec Z.eq_dec a b then true else false.

(** An element that is not an operand: a dash and something behind it. *)
Definition is_option (s : str) : bool := is_prefix [DASH] s && (2 <=? length s)%nat.

Inductive policy := NoArgument | Required | Optional.

(** What is behind the first [c] of optstring: c, c: or c::. *)
Fixpoint declared (os : str) (c : Z) : option (policy * str) :=
  match os with
  | [] => None
  | x :: behind =>
      if x =? c then Some (if is_prefix [COLON; COLON] behind then Optional else if is_prefix [COLON] behind then Required else NoArgument, behind)
      else declared behind c
  end.

(** name and name=argument *)
Fixpoint split_equals (s : str) : str * option str :=
  match s with
  | [] => ([], None)
  | c :: s => if c =? 61 then ([], Some s) else let '(a, b) := split_equals s in (c :: a, b)
  end.

(** The options with their indices whose names satisfy [P]. *)
Fixpoint candidates (P : str -> bool) (i : nat) (lo : list long_option) : list (long_option * nat) :=
  match lo with [] => [] | p :: lo => if P (name p) then (p, i) :: candidates P (S i) lo else candidates P (S i) lo end.

Definition meaning_eq_dec : forall a b : Z * option Z * Z, {a = b} + {a <> b}.
Proof. repeat decide equality. Defined.

(** Two options an abbreviation may stand for without being ambiguous. *)
Definition interchangeable (p q : long_option) : bool :=
  if meaning_eq_dec (has_arg p, flag p, val p) (has_arg q, flag q, val q) then true else false.

Inductive found := NoMatch | Ambiguous | Match (p : long_option) (index : nat).

(** The first exact match; or else the first option the name abbreviates, if every other
    one has the same meaning (with getopt_long_only: if there is no other). *)
Definition lookup (lo : list long_option) (only : bool) (nm : str) : found :=
  match candidates (same_text nm) 0 lo with
  | (p, i) :: _ => Match p i
  | [] =>
      match candidates (is_prefix nm) 0 lo with
      | [] => NoMatch
      | (f, i) :: others => if forallb (fun '(p, _) => negb only && interchangeable f p) others then Match f i else Ambiguous
      end
  end.

(** The argument of an option: the text attached to it, or the element behind. *)
Inductive argument_result := Got (a : option str) (taken : nat) | Missing | Superfluous.

Definition argument_of (p : policy) (attached : option str) (following : list str) : argument_result :=
  match p, attached with
  | NoArgument, Some _ => Superfluous
  | NoArgument, None | Optional, None => Got None 0
  | _, Some a => Got (Some a) 0
  | Required, None => match following with a :: _ => Got (Some a) 1 | [] => Missing end
  end.

(** What one option gives: the value, optarg, the new optopt if it is set, what is
    stored, the characters of the element still to be read, and how many of the elements
    behind it were taken. *)
Record answer := { value : Z; argument : option str; culprit : option Z; stores : effects; left_over : str; taken : nat }.

Definition failure (v c : Z) (text : str) : answer :=
  {| value := v; argument := None; culprit := Some c; stores := no_effects; left_over := text; taken := 0 |}.

Section Answers.
Context (longopts : option (list long_option)) (long_only : bool) (os : str).

Definition missing : Z := if is_prefix [COLON] os then COLON else QUESTION.

Definition long_policy (p : long_option) : policy := if has_arg p =? 0 then NoArgument else if has_arg p =? 1 then Required else Optional.

(** A long option: its text behind the dashes (or behind -W). *)
Definition long_answer (lo : list long_option) (only : bool) (text : str) (following : list str) : answer :=
  let '(nm, attached) := split_equals text in
  match lookup lo only nm with
  | NoMatch | Ambiguous => failure QUESTION 0 []
  | Match p i =>
      match argument_of (long_policy p) attached following with
      | Superfluous => failure QUESTION (val p) []
      | Missing => failure missing (val p) []
      | Got a n =>
          {| value := match flag p with Some _ => 0 | None => val p end; argument := a; culprit := None;
             stores := {| longind := Some i; stored := match flag p with Some f => Some (f, val p) | None => None end |};
             left_over := []; taken := n |}
      end
  end.

Definition take_one (a : answer) : answer :=
  {| value := value a; argument := argument a; culprit := culprit a; stores := stores a; left_over := left_over a; taken := S (taken a) |}.

(** The short option [c] with [text] behind it in the same element. *)
Definition short_answer (c : Z) (text : str) (following : list str) : answer :=
  if (c =? COLON) || (c =? SEMICOLON) then failure QUESTION c text
  else
    match declared os c, longopts with
    | None, _ => failure QUESTION c text
    | Some (p, behind), lo =>
        match (if (c =? 87) && is_prefix [SEMICOLON] behind then lo else None) with
        | Some lo =>
            match text, following with
            | _ :: _, _ => long_answer lo false text following
            | [], a :: following => take_one (long_answer lo false a following)
            | [], [] => failure missing c []
            end
        | None =>
            match p with
            | NoArgument => {| value := c; argument := None; culprit := None; stores := no_effects; left_over := text; taken := 0 |}
            | _ =>
                match argument_of p (match text with [] => None | _ => Some text end) following with
                | Got a n => {| value := c; argument := a; culprit := None; stores := no_effects; left_over := []; taken := n |}
                | _ => failure missing c []
                end
            end
        end
    end.

Definition cluster_answer (text : str) (following : list str) : answer :=
  match text with c :: text => short_answer c text following | [] => failure QUESTION 0 [] end.

Definition occurs (c : Z) : bool := existsb (Z.eqb c) os.

(** An element with a dash: --name, or characters; with getopt_long_only also -name, but
    not -c for a character c of optstring, and not what is no name and begins with one. *)
Definition element_answer (cur : str) (following : list str) : answer :=
  match longopts with
  | None => cluster_answer (skipn 1 cur) following
  | Some lo =>
      if is_prefix [DASH; DASH] cur then long_answer lo long_only (skipn 2 cur) following
      else
        let text := skipn 1 cur in
        if long_only && negb (Nat.eqb (length text) 1 && occurs (hd 0 text)) &&
          negb (match lookup lo long_only (fst (split_equals text)) with NoMatch => occurs (hd 0 text) | _ => false end)
        then long_answer lo long_only text following
        else cluster_answer text following
  end.
End Answers.

(** Parsing without indices: [opts] are the elements done with as options, [operands]
    those passed over, [text] what is left of the first element of [rest]. *)
Section Parse.
Context (longopts : option (list long_option)) (long_only : bool) (o : ord) (os : str).

Fixpoint passed_over (rest : list str) : list str * list str :=
  match rest with s :: t => if is_option s then ([], rest) else let '(a, b) := passed_over t in (s :: a, b) | [] => ([], []) end.

Fixpoint parse (fuel : nat) (opts operands rest : list str) (text : str) (optopt : Z) : option (list event * list str * list str) :=
  match fuel with
  | O => None
  | S fuel =>
      let answered (a : answer) operands cur following :=
        let optopt := match culprit a with Some c => c | None => optopt end in
        let? (l, opts, operands) :=
          match left_over a with
          | [] => parse fuel (opts ++ cur :: firstn (taken a) following) operands (skipn (taken a) following) [] optopt
          | text => parse fuel opts operands (cur :: following) text optopt
          end in
        Some ((value a, argument a, optopt, stores a) :: l, opts, operands) in
      match text, rest with
      | _ :: _, cur :: following => answered (cluster_answer longopts os text following) operands cur following
      | _ :: _, [] => None
      | [], _ =>
          let '(nonopts, rest) := match o with PERMUTE => passed_over rest | _ => ([], rest) end in
          let operands := operands ++ nonopts in
          match rest with
          | [] => Some ([], opts, operands)
          | cur :: following =>
              if same_text cur [DASH; DASH] then Some ([], opts ++ [cur], operands ++ following)
              else if is_option cur then answered (element_answer longopts long_only os cur following) operands cur following
              else
                match o with
                | REQUIRE_ORDER => Some ([], opts, operands ++ rest)
                | _ =>
                    let? (l, opts, operands) := parse fuel (opts ++ [cur]) operands following [] optopt in
                    Some ((1, Some cur, optopt, no_effects) :: l, opts, operands)
                end
          end
      end
  end.
End Parse.

(** ** The code gives these answers *)

(** A C string ends at its first zero. *)
Definition c_string (s : str) : Prop := ~ In 0 s.

Lemma str_eqb_same a : forall b, str_eqb a b = same_text a b.
Proof.
  unfold same_text. induction a as [|x a IH]; intros [|y b]; cbn [str_eqb]; try (destruct (list_eq_dec _ _ _); congruence).
  rewrite IH. destruct (Z.eqb_spec x y) as [->|H]; destruct (list_eq_dec Z.eq_dec (_ :: _) _) as [E|E], (list_eq_dec Z.eq_dec a b); cbn [andb]; congruence.
Qed.

Lemma is_option_nonoption s : c_string s -> NONOPTION_P s = negb (is_option s).
Proof.
  intros H. unfold NONOPTION_P, is_option. destruct s as [|x [|y s]]; cbn; [reflexivity|rewrite orb_true_r, andb_false_r; reflexivity|].
  destruct (Z.eqb_spec y 0) as [->|_]; [exfalso; apply H; cbn; auto|]. rewrite (Z.eqb_sym x 45), orb_false_r, !andb_true_r. reflexivity.
Qed.

Lemma nth_prefix1 (s : str) c : (nth 0 s 0 =? c) = is_prefix [c] s || (match s with [] => 0 =? c | _ => false end).
Proof. destruct s as [|x s]; cbn; [reflexivity|]. rewrite andb_true_r, orb_false_r. apply Z.eqb_sym. Qed.

Lemma strchr_declared os c : c <> 0 ->
  match declared os c with
  | None => strchr os c = None
  | Some (p, behind) => strchr os c = Some (c :: behind) /\
      p = (if nth 0 behind 0 =? COLON then if nth 1 behind 0 =? COLON then Optional else Required else NoArgument)
  end.
Proof.
  intros Hc. induction os as [|x os IH]; cbn [declared strchr]; [destruct (Z.eqb_spec c 0); congruence|]. destruct (Z.eqb_spec x c) as [->|Hx]; [|exact IH].
  split; [reflexivity|]. destruct os as [|y [|z os]]; try reflexivity; cbn [is_prefix nth]; rewrite (Z.eqb_sym 58 y), ?(Z.eqb_sym 58 z), ?andb_true_r, ?andb_false_r;
    destruct (y =? 58); try reflexivity; destruct (z =? 58); reflexivity.
Qed.

Lemma strchr_occurs os c : c <> 0 -> match strchr os c with None => true | Some _ => false end = negb (occurs os c).
Proof.
  intros Hc. unfold occurs. induction os as [|x os IH]; cbn [strchr existsb]; [destruct (Z.eqb_spec c 0); [contradiction | reflexivity]|].
  rewrite (Z.eqb_sym c x). destruct (x =? c); [reflexivity | exact IH].
Qed.

Lemma split_equals_eq s : split_equals s = (firstn (name_end s) s, match skipn (name_end s) s with [] => None | _ :: a => Some a end).
Proof. induction s as [|c s IH]; [reflexivity|]. cbn [split_equals name_end]. destruct (c =? 61); [reflexivity|]. rewrite IH. reflexivity. Qed.

Lemma missing_eq os : (if nth 0 os 0 =? COLON then COLON else QUESTION) = missing os.
Proof. unfold missing. rewrite nth_prefix1. destruct os; [reflexivity|]. rewrite orb_false_r. reflexivity. Qed.

Lemma name_end_le next : (name_end next <= length next)%nat.
Proof. induction next as [|c next IH]; cbn; [lia|]. destruct (c =? 61); lia. Qed.

Lemma str_eqb_prefix b : forall a n, n = length a -> str_eqb (firstn n b) a = is_prefix a b.
Proof.
  induction b as [|y b IH]; intros [|x a] n ->; cbn; try reflexivity. rewrite IH by reflexivity. rewrite Z.eqb_sym. reflexivity.
Qed.

Lemma is_prefix_exact a : forall b, is_prefix a b && Nat.eqb (length a) (length b) = str_eqb a b.
Proof. induction a as [|x a IH]; intros [|y b]; cbn; try reflexivity. rewrite <- andb_assoc, IH. reflexivity. Qed.

Lemma name_matches_prefix p next : name_matches p next (name_end next) = is_prefix (firstn (name_end next) next) (name p).
Proof. apply str_eqb_prefix. rewrite length_firstn. pose proof (name_end_le next). lia. Qed.

Lemma find_exact_candidates next lo : forall i,
  find_exact lo i next (name_end next) = match candidates (same_text (firstn (name_end next) next)) i lo with p :: _ => Some p | [] => None end.
Proof.
  induction lo as [|p lo IH]; intros i; [reflexivity|]. cbn [find_exact candidates]. rewrite name_matches_prefix, IH.
  replace (Nat.eqb (name_end next) (length (name p))) with (Nat.eqb (length (firstn (name_end next) next)) (length (name p))) by (rewrite length_firstn; f_equal; pose proof (name_end_le next); lia).
  rewrite is_prefix_exact, str_eqb_same. destruct (same_text _ _); reflexivity.
Qed.

Lemma interchangeable_eq f p : negb (interchangeable f p) = negb (has_arg f =? has_arg p) || negb (flag_eqb (flag f) (flag p)) || negb (val f =? val p).
Proof.
  unfold interchangeable. destruct (meaning_eq_dec _ _) as [E|E]; cbn [negb].
  - injection E as -> -> ->. rewrite !Z.eqb_refl. destruct (flag p); cbn; rewrite ?Z.eqb_refl; reflexivity.
  - destruct (Z.eqb_spec (has_arg f) (has_arg p)), (Z.eqb_spec (val f) (val p)); cbn; rewrite ?orb_true_r; try reflexivity.
    destruct (flag f) as [x|], (flag p) as [y|]; cbn; try reflexivity; [|congruence]. destruct (Z.eqb_spec x y); [congruence | reflexivity].
Qed.

Lemma find_abbrev_some next only f k lo : forall i ambig,
  find_abbrev lo i next (name_end next) only (Some (f, k)) ambig =
  (Some (f, k), ambig || negb (forallb (fun '(p, _) => negb only && interchangeable f p) (candidates (is_prefix (firstn (name_end next) next)) i lo))).
Proof.
  induction lo as [|p lo IH]; intros i ambig; cbn [find_abbrev candidates]; [rewrite orb_false_r; reflexivity|]. rewrite name_matches_prefix.
  destruct (is_prefix _ (name p)); rewrite IH; [|reflexivity]. cbn [forallb]. rewrite !negb_andb, interchangeable_eq, negb_involutive, !orb_assoc. reflexivity.
Qed.

Lemma find_abbrev_none next only lo : forall i,
  find_abbrev lo i next (name_end next) only None false =
  match candidates (is_prefix (firstn (name_end next) next)) i lo with
  | [] => (None, false)
  | (f, k) :: others => (Some (f, k), negb (forallb (fun '(p, _) => negb only && interchangeable f p) others))
  end.
Proof.
  induction lo as [|p lo IH]; intros i; cbn [find_abbrev candidates]; [reflexivity|]. rewrite name_matches_prefix.
  destruct (is_prefix _ (name p)); [rewrite find_abbrev_some; reflexivity | apply IH].
Qed.

(** The two loops of process_long_option find what [lookup] finds for the name before
    the equals sign. *)
Lemma long_option_lookup lo only next :
  let x :=
    match find_exact lo 0 next (name_end next) with
    | Some p => (Some p, false)
    | None => find_abbrev lo 0 next (name_end next) only None false
    end in
  match lookup lo only (fst (split_equals next)) with
  | NoMatch => x = (None, false)
  | Ambiguous => snd x = true
  | Match p i => x = (Some (p, i), false)
  end.
Proof.
  rewrite split_equals_eq. cbn [fst]. unfold lookup. rewrite find_exact_candidates, find_abbrev_none. destruct (candidates (same_text _) 0 lo) as [|[p i] l]; [|reflexivity].
  destruct (candidates (is_prefix _) 0 lo) as [|[f k] others]; [reflexivity|]. destruct (forallb _ others); reflexivity.
Qed.

(** The operation on the element at optind gives this answer. *)
Definition answers (d : getopt_data) (x : option (Z * getopt_data * effects)) (a : answer) : Prop :=
  exists d', x = Some (value a, d', stores a) /\ optarg d' = argument a /\
    optopt d' = match culprit a with Some c => c | None => optopt d end /\ pending (nextchar d') = left_over a /\
    optind d' = match left_over a with [] => (optind d + S (taken a))%nat | _ => optind d end.

#[local] Ltac answered := eexists; split; [reflexivity|]; cbn; repeat split; solve [auto | lia].

Lemma argument_found (argv following : list str) i : skipn (S i) argv = following ->
  (S i <? length argv)%nat = match following with [] => false | _ => true end /\ (forall a more, following = a :: more -> nth_error argv (S i) = Some a).
Proof.
  intros <-. split.
  - destruct (Nat.ltb_spec (S i) (length argv)) as [H|H]; [|rewrite skipn_all2 by lia; reflexivity].
    destruct (skipn (S i) argv) eqn:E; [|reflexivity]. apply (f_equal (@length str)) in E. rewrite length_skipn in E. cbn in E. lia.
  - intros a more E. rewrite <- (Nat.add_0_r (S i)), <- nth_error_skipn, E. reflexivity.
Qed.

Lemma long_answers (argv : list str) os lo only d text following : nextchar d = Some text -> optarg d = None -> skipn (S (optind d)) argv = following ->
  (lookup lo only (fst (split_equals text)) = NoMatch -> only = true ->
     exists cur, nth_error argv (optind d) = Some cur /\ ((nth 1 cur 0 =? DASH) = true \/ strchr os (nth 0 text 0) = None)) ->
  answers d (process_long_option argv os lo only d) (long_answer os lo only text following).
Proof.
  intros En Ea Ef Hno. unfold process_long_option, long_answer. rewrite En. pose proof (long_option_lookup lo only text) as Hl. cbv zeta in Hl.
  destruct (match find_exact _ _ _ _ with Some _ => _ | None => _ end) as [found ambig]. cbn [snd] in Hl. rewrite split_equals_eq in *. cbn [fst] in *.
  destruct (lookup lo only _) as [| |p i]; [injection Hl as -> ->|subst; answered|injection Hl as -> ->].
  - destruct only; cbn [negb orb]; [|answered]. destruct (Hno eq_refl eq_refl) as (cur & -> & [-> | ->]); cbn [orb]; [answered|]. rewrite orb_true_r. answered.
  - cbv zeta. destruct (skipn (name_end text) text) as [|x arg].
    + unfold long_policy. destruct (Z.eqb_spec (has_arg p) 1) as [E1|E1].
      * destruct (Z.eqb_spec (has_arg p) 0); [congruence|]. cbn [argument_of optind set_nextchar next_arg set_optind]. destruct (argument_found argv following (optind d) Ef) as [-> Hn].
        destruct following as [|a more]; [rewrite missing_eq; answered|]. rewrite (Hn a more eq_refl). destruct (flag p); answered.
      * destruct (Z.eqb_spec (has_arg p) 0); cbn [argument_of]; destruct (flag p); answered.
    + unfold long_policy. destruct (Z.eqb_spec (has_arg p) 0); cbn [negb argument_of]; [answered|]. destruct (Z.eqb_spec (has_arg p) 1); cbn [argument_of]; destruct (flag p); answered.
Qed.

Lemma long_not_an_option (argv : list str) os lo d text cur : nextchar d = Some text -> nth_error argv (optind d) = Some cur ->
  lookup lo true (fst (split_equals text)) = NoMatch -> (nth 1 cur 0 =? DASH) = false -> strchr os (nth 0 text 0) <> None ->
  process_long_option argv os lo true d = Some (-1, d, no_effects).
Proof.
  intros En Ec El Ed Eo. unfold process_long_option. rewrite En. pose proof (long_option_lookup lo true text) as Hl. cbv zeta in Hl. rewrite El in Hl. rewrite Hl, Ec, Ed.
  destruct (strchr os _); [reflexivity | contradiction].
Qed.

Lemma long_left_over os lo only text following : left_over (long_answer os lo only text following) = [].
Proof. unfold long_answer. destruct (split_equals text) as [nm att]. destruct (lookup lo only nm) as [| |p i]; try reflexivity. destruct (argument_of _ _ _); reflexivity. Qed.

(** What -W hands on. *)
Lemma long_answers_w (argv : list str) os lo d d1 text following : optarg d = None -> skipn (S (optind d1)) argv = following -> optopt d1 = optopt d ->
  (optind d1 = optind d -> answers d (process_long_option argv os lo false (set_optarg None (set_nextchar (Some text) d1))) (long_answer os lo false text following)) /\
  (optind d1 = S (optind d) -> answers d (process_long_option argv os lo false (set_optarg None (set_nextchar (Some text) d1))) (take_one (long_answer os lo false text following))).
Proof.
  intros Ea Ef Eo. destruct (long_answers argv os lo false (set_optarg None (set_nextchar (Some text) d1)) text following) as (d' & -> & H1 & H2 & H3 & H4); auto; [discriminate|].
  cbn [optopt optind set_optarg set_nextchar] in *. rewrite Eo in H2. rewrite long_left_over in *. split; intros Ei; exists d'; cbn [value argument culprit stores left_over taken take_one]; rewrite long_left_over; repeat split; auto; rewrite H4, Ei; lia.
Qed.

Lemma short_answers lo os cur following d c text : nextchar d = Some (c :: text) -> optarg d = None -> optind d = 0%nat -> c <> 0 ->
  answers d (short_option (cur :: following) os lo d) (short_answer lo os c text following).
Proof.
  intros En Ea E0 Hc. unfold short_option, short_answer. rewrite En, missing_eq. cbv zeta.
  set (d1 := match text with [] => next_arg (set_nextchar (Some text) d) | _ => set_nextchar (Some text) d end).
  assert (Hd1 : optind d1 = (match text with [] => 1%nat | _ => 0%nat end) /\ optopt d1 = optopt d /\ nextchar d1 = Some text /\ optarg d1 = None) by (unfold d1; destruct text; cbn; rewrite ?E0; auto).
  clearbody d1. destruct Hd1 as (E1 & E2 & E3 & E4).
  assert (Hbad : forall v, answers d (Some (v, set_optopt c d1, no_effects)) (failure v c text)).
  { intros v. eexists. split; [reflexivity|]. cbn. rewrite E1, E3, E4, E0. destruct text; auto. }
  pose proof (strchr_declared os c Hc) as Hs. destruct (declared os c) as [[p behind]|]; [destruct Hs as [-> Hp] | rewrite Hs; destruct (_ || _); apply Hbad].
  destruct (_ || _); [apply Hbad|]. cbn [nth].
  replace (nth 0 behind 0 =? 59) with (is_prefix [59] behind) by (rewrite nth_prefix1; destruct behind; [reflexivity | symmetry; apply orb_false_r]).
  destruct (if _ && _ then lo else None) as [opts|].
  - destruct text as [|c2 text]; [destruct following as [|a more]|].
    + rewrite E1. apply (Hbad (missing os)).
    + rewrite E1. cbn [length Nat.eqb nth_error]. apply (long_answers_w (cur :: a :: more)); auto; rewrite E1, ?E0; reflexivity.
    + apply (long_answers_w (cur :: following)); auto; rewrite E1, ?E0; reflexivity.
  - subst p. destruct (nth 0 behind 0 =? 58); [|eexists; split; [reflexivity|]; cbn; rewrite E1, E3, E0; destruct text; auto].
    destruct text as [|c2 text]; destruct (nth 1 behind 0 =? 58); cbn [argument_of].
    2: { rewrite E1. destruct following as [|a more]; cbn [length Nat.eqb nth_error]; eexists; (split; [reflexivity|]); cbn; rewrite E1, E0; auto. }
    all: eexists; (split; [reflexivity|]); cbn; rewrite E1, E0; auto.
Qed.

Lemma element_answers lo only os cur following d : optarg d = None -> optind d = 0%nat -> c_string cur -> is_option cur = true -> opts_ok os lo ->
  answers d (option_element lo only os (cur :: following) d) (element_answer lo only os cur following).
Proof.
  intros Ea E0 Hc Ho Hok. unfold option_element, element_answer. rewrite E0. cbn [nth_error].
  destruct cur as [|x [|c text]]; [discriminate | unfold is_option in Ho; cbn in Ho; rewrite andb_false_r in Ho; discriminate |].
  assert (Ex : x = 45) by (unfold is_option in Ho; cbn [is_prefix] in Ho; destruct (Z.eqb_spec 45 x); [auto | discriminate]). subst x. clear Ho.
  assert (Hc0 : c <> 0) by (intros ->; apply Hc; cbn; auto).
  assert (Hshort : forall d1, optarg d1 = None -> optind d1 = 0%nat -> optopt d1 = optopt d ->
    answers d (short_option ((45 :: c :: text) :: following) os lo (set_nextchar (Some (c :: text)) d1)) (cluster_answer lo os (c :: text) following)).
  { intros d1 H1 H2 H3. destruct (short_answers lo os (45 :: c :: text) following (set_nextchar (Some (c :: text)) d1) c text) as (d' & H); auto. exists d'. cbn [optopt optind set_nextchar] in H. rewrite H2, H3 in H. rewrite E0. exact H. }
  destruct lo as [opts|]; [|apply Hshort; auto]. cbn [nth skipn hd length].
  replace (is_prefix [45; 45] (45 :: c :: text)) with (c =? 45) by (cbn; rewrite andb_true_r; apply Z.eqb_sym).
  assert (Hlong : forall t, (lookup opts only (fst (split_equals t)) = NoMatch -> only = true -> (c =? 45) = true \/ strchr os (nth 0 t 0) = None) ->
    answers d (process_long_option ((45 :: c :: text) :: following) os opts only (set_nextchar (Some t) d)) (long_answer os opts only t following)).
  { intros t Ht. destruct (long_answers ((45 :: c :: text) :: following) os opts only (set_nextchar (Some t) d) t following) as (d' & H); auto.
    - cbn. rewrite E0. reflexivity.
    - intros H1 H2. exists (45 :: c :: text). split; [cbn; rewrite E0; reflexivity|]. apply Ht; auto.
    - exists d'. exact H. }
  destruct (Z.eqb_spec c 45) as [Ed|Ed]; [apply Hlong; auto|]. destruct only; cbn [andb]; [|apply Hshort; auto].
  rewrite strchr_occurs by exact Hc0.
  assert (El : negb (nth 0 text 0 =? 0) = negb (Nat.eqb (S (length text)) 1)).
  { destruct text as [|y text]; [reflexivity|]. cbn [nth length Nat.eqb]. destruct (Z.eqb_spec y 0) as [->|_]; [exfalso; apply Hc; cbn; auto | reflexivity]. }
  rewrite El, <- negb_andb. destruct (Nat.eqb _ 1 && occurs os c); cbn [negb andb]; [apply Hshort; auto|].
  destruct (match lookup opts true (fst (split_equals (c :: text))) with NoMatch => occurs os c | _ => false end) eqn:Em; cbn [negb].
  - destruct (lookup opts true (fst (split_equals (c :: text)))) eqn:Elk; try discriminate.
    rewrite (long_not_an_option _ os opts _ (c :: text) (45 :: c :: text)); auto; [|cbn; rewrite E0; reflexivity|apply Z.eqb_neq; exact Ed|].
    + cbn [Z.eqb Pos.eqb negb optind set_nextchar]. rewrite E0. cbn [nth_error skipn]. apply Hshort; auto.
    + cbn [nth]. pose proof (strchr_occurs os c Hc0) as H. rewrite Em in H. destruct (strchr os c); [discriminate | discriminate H].
  - assert (Hl : answers d (process_long_option ((45 :: c :: text) :: following) os opts true (set_nextchar (Some (c :: text)) d)) (long_answer os opts true (c :: text) following)).
    { apply Hlong. intros H1 _. right. rewrite H1 in Em. pose proof (strchr_occurs os c Hc0) as H. rewrite Em in H. cbn [nth]. destruct (strchr os c); [discriminate H | reflexivity]. }
    destruct Hl as (d' & E & Hl).
    destruct (process_long_option_finishes ((45 :: c :: text) :: following) os opts true (set_nextchar (Some (c :: text)) d) (c :: text)) as (r & d2 & e & E' & Hf); [reflexivity | cbn; lia | exact (proj2 Hok) |].
    rewrite E in E'. injection E' as <- <- <-. assert (Hr : value (long_answer os opts true (c :: text) following) <> -1).
    { destruct Hf as [Hf|(_ & -> & _)]; [exact (proj1 Hf)|]. destruct Hl as (_ & _ & _ & Hi). rewrite long_left_over in Hi. cbn in Hi. lia. }
    match goal with |- context [process_long_option ?a ?b ?q ?u ?v] => change (process_long_option a b q u v) with (process_long_option ((45 :: c :: text) :: following) os opts true (set_nextchar (Some (c :: text)) d)) end.
    rewrite E. apply Z.eqb_neq in Hr. rewrite Hr. cbn [negb]. exists d'. auto.
Qed.

Lemma short_left_over lo os c text following : forall x, In x (left_over (short_answer lo os c text following)) -> In x text.
Proof.
  unfold short_answer. intros x. destruct (_ || _); [auto|]. destruct (declared os c) as [[p behind]|]; [|auto]. destruct (if _ && _ then lo else None) as [opts|].
  - destruct text; [destruct following|]; cbn [left_over take_one failure]; rewrite ?long_left_over; contradiction.
  - destruct p; [auto| |]; destruct (argument_of _ _ _); contradiction.
Qed.

Lemma element_left_over lo only os cur following : forall x, In x (left_over (element_answer lo only os cur following)) -> In x cur.
Proof.
  intros x. assert (Hs : In x (left_over (cluster_answer lo os (skipn 1 cur) following)) -> In x cur).
  { destruct cur as [|y [|c text]]; cbn [skipn cluster_answer failure left_over]; try contradiction. intros H. apply short_left_over in H. cbn. auto. }
  unfold element_answer. destruct lo as [opts|]; [|exact Hs]. destruct (is_prefix _ cur); [rewrite long_left_over; contradiction|]. destruct (_ && _); [rewrite long_left_over; contradiction | exact Hs].
Qed.

Lemma span_passed_over rest : Forall c_string rest -> span rest = passed_over rest.
Proof. induction 1 as [|s rest Hs _ IH]; [reflexivity|]. cbn. rewrite is_option_nonoption, IH by exact Hs. destruct (is_option s); reflexivity. Qed.

Section RunParse.
Context (lo : option (list long_option)) (only : bool) (os : str).
Hypothesis Hok : opts_ok os lo.

Definition run_parses (o : ord) (fuel : nat) : Prop := forall opts skipped rest d, optind d = 0%nat -> Forall c_string rest -> c_string (pending (nextchar d)) -> (pending (nextchar d) <> [] -> rest <> []) ->
  spec_run lo only o os fuel opts skipped rest d = parse lo only o os fuel opts skipped rest (pending (nextchar d)) (optopt d).

Lemma take_parses o fuel opts skipped cur following d x a : run_parses o fuel -> optind d = 0%nat -> Forall c_string (cur :: following) -> c_string (left_over a) -> answers d x a ->
  (let? y := take opts skipped (cur :: following) x in
   match y with
   | End opts operands => Some ([], opts, operands)
   | Event r opts skipped rest d e => let? (l, opts, operands) := spec_run lo only o os fuel opts skipped rest d in Some ((r, optarg d, optopt d, e) :: l, opts, operands)
   end) =
  let optopt := match culprit a with Some c => c | None => optopt d end in
  let? (l, opts, operands) :=
    match left_over a with
    | [] => parse lo only o os fuel (opts ++ cur :: firstn (taken a) following) skipped (skipn (taken a) following) [] optopt
    | text => parse lo only o os fuel opts skipped (cur :: following) text optopt
    end in
  Some ((value a, argument a, optopt, stores a) :: l, opts, operands).
Proof using Type.
  intros IH E0 Hr Hl (d' & -> & Ha & Ho & Hp & Hi). cbn [take]. rewrite IH; cbn [optind nextchar optopt optarg set_optind]; rewrite ?Hp; auto.
  - rewrite Ha, Ho, Hi, E0. destruct (left_over a); [reflexivity|]. cbn [firstn skipn]. rewrite app_nil_r. reflexivity.
  - apply Forall_forall. intros s Hs. rewrite <- (firstn_skipn (optind d') (cur :: following)) in Hr. apply Forall_app in Hr as [_ Hr]. rewrite Forall_forall in Hr. auto.
  - rewrite Hi, E0. destruct (left_over a); [contradiction | discriminate].
Qed.

Lemma spec_run_parses o fuel : run_parses o fuel.
Proof using Hok.
  induction fuel as [|fuel IH]; intros opts skipped rest d E0 Hr Hp Hn; [reflexivity|]. cbn [spec_run parse]. unfold spec_call. change (nextchar (set_optarg None d)) with (nextchar d).
  destruct (pending (nextchar d)) as [|c text] eqn:Ep.
  - assert (Esp : (match o with PERMUTE => span rest | _ => ([], rest) end) = (match o with PERMUTE => passed_over rest | _ => ([], rest) end)) by (destruct o; rewrite ?span_passed_over by exact Hr; reflexivity).
    rewrite Esp. destruct (match o with PERMUTE => passed_over rest | _ => ([], rest) end) as [n r] eqn:En.
    assert (Hr2 : Forall c_string r).
    { destruct o; [injection En as <- <-; exact Hr| |injection En as <- <-; exact Hr]. pose proof (span_app rest) as H. rewrite (span_passed_over rest Hr), En in H. cbn [fst snd] in H. rewrite <- H in Hr. apply Forall_app in Hr as [_ Hr]. exact Hr. }
    destruct r as [|cur r]; [reflexivity|]. inversion Hr2; subst. unfold is_dashdash. rewrite str_eqb_same. destruct (same_text _ _); [reflexivity|].
    rewrite is_option_nonoption by assumption. destruct (is_option cur) eqn:Eo; cbn [negb].
    + rewrite (take_parses o fuel opts _ cur r (set_optarg None d) _ (element_answer lo only os cur r)); auto; [intros H0; apply element_left_over in H0; auto | apply element_answers; auto].
    + destruct o; try reflexivity; (rewrite IH by (cbn [optind nextchar set_optarg]; rewrite ?Ep; auto; contradiction)); cbn [nextchar optopt optarg set_optarg]; rewrite Ep; reflexivity.
  - destruct rest as [|cur r]; [exfalso; apply Hn; auto; discriminate|].
    assert (En : nextchar d = Some (c :: text)) by (destruct (nextchar d); cbn in Ep; [f_equal; exact Ep | discriminate]).
    rewrite (take_parses o fuel opts skipped cur r (set_optarg None d) _ (cluster_answer lo os (c :: text) r)); auto.
    + intros H. apply short_left_over in H. apply Hp. cbn. auto.
    + apply short_answers; auto. intros ->. apply Hp. cbn. auto.
Qed.
End RunParse.

(** C37: parsing a whole argument vector.  For an argv of C strings, from the state before
    the first call (or with optind reset to 0), calling _getopt_internal_r until it
    returns -1 always comes to an end, and gives exactly the values, optarg, optopt,
    longind and flag stores of [parse], which has no indices, moves nothing and states the
    rules of the options: how optstring declares a character, which long option a name or
    an abbreviation stands for, whether an argument is attached, is the next element or
    is missing, and which elements are therefore options, arguments and operands.  At the
    end argv holds the program's name, the options and their arguments, and then the
    operands, each group in the order in which they were given, and optind is the index of
    the first operand.  Unless the mode is PERMUTE, argv is unchanged.  No character of
    optstring and no val of a long option is -1, the value that stands for the end. *)
Theorem getopt_refines optstring longopts long_only posixly_correct prog args g D fuel :
  opts_ok (snd (mode optstring posixly_correct)) longopts ->
  Forall c_string args ->
  g_optind g = 0%nat \/ g_optind g = 1%nat /\ initialized D = false ->
  (measure args [] < fuel)%nat ->
  let '(o, os) := mode optstring posixly_correct in
  exists events opts operands g',
    getopt_global_run fuel optstring longopts long_only posixly_correct (prog :: args) g D = Some (events, prog :: opts ++ operands, g') /\
    g_optind g' = S (length opts) /\
    parse longopts long_only o os fuel [] [] args [] (optopt D) = Some (events, opts, operands) /\
    merge opts operands args /\ (o <> PERMUTE -> opts ++ operands = args).
Proof.
  intros Hok Hargs HD Hf. destruct (mode optstring posixly_correct) as [o os] eqn:Em. rewrite getopt_global_run_eq. set (D0 := set_optind (g_optind g) D).
  assert (HD0 : optind D0 = 0%nat \/ optind D0 = 1%nat /\ initialized D0 = false) by exact HD. rewrite getopt_run_initialize by exact HD0. rewrite Em. cbn [fst snd] in *.
  assert (Hr : refines o prog (prog :: args) (relocate 1 1 1 (start o D0)) [] [] args (start o D0)).
  { exists [prog], []. repeat split; auto; discriminate. }
  destruct (getopt_run_refined optstring longopts long_only posixly_correct o os prog Em Hok fuel _ _ _ _ _ _ Hr Hf) as (events & opts & operands & D' & Es & Er & Eo).
  rewrite Er. do 4 eexists. split; [reflexivity|]. split; [exact Eo|]. split.
  - rewrite <- Es. symmetry. apply (spec_run_parses longopts long_only os Hok o fuel [] [] args (start o D0)); auto; first [intros [] | intros H; exfalso; apply H; reflexivity].
  - pose proof (spec_run_merge _ _ _ _ _ _ _ _ _ _ _ _ Es) as (a & b & -> & -> & Hm & Ho). auto.
Qed.

(** getopt_long with ab: and the long option verbose on x -a y --verb -b foo -- -z *)
Lemma getopt_refines_witness :
  let lo := [{| name := [118; 101; 114; 98; 111; 115; 101]; has_arg := 0; flag := None; val := 118 |}] in
  let D := {| optind := 0; optopt := 0; optarg := None; initialized := false; nextchar := None; ordering := PERMUTE; first_nonopt := 0; last_nonopt := 0 |} in
  let g := {| g_optind := 1; g_optarg := None; g_optopt := 63 |} in
  let args := [[120]; [45; 97]; [121]; [45; 45; 118; 101; 114; 98]; [45; 98]; [102; 111; 111]; [45; 45]; [45; 122]] in
  exists events g',
    getopt_global_run 40 [97; 98; 58] (Some lo) false false ([112] :: args) g D =
      Some (events, [[112]; [45; 97]; [45; 45; 118; 101; 114; 98]; [45; 98]; [102; 111; 111]; [45; 45]; [120]; [121]; [45; 122]], g') /\
    map (fun '(r, a, _, _) => (r, a)) events = [(97, None); (118, None); (98, Some [102; 111; 111])] /\ g_optind g' = 6%nat.
Proof.
  intros lo D g args.
  assert (H : opts_ok (snd (mode [97; 98; 58] false)) (Some lo)).
  { split; [cbn; lia|]. repeat constructor. cbn. lia. }
  assert (Hm : (measure args [] < 40)%nat) by (cbn; lia).
  assert (Hc : Forall c_string args) by (repeat constructor; unfold c_string; cbn; lia).
  destruct (getopt_refines [97; 98; 58] (Some lo) false false [112] args g D 40 H Hc (or_intror (conj eq_refl eq_refl)) Hm) as (ev & o & p & g' & E1 & E2 & E3 & _).
  exists ev, g'. vm_compute in E3. injection E3 as <- <- <-. split; [exact E1|]. split; [reflexivity | exact E2].
Defined.
