(* ===== verification/DlSort.v ===== *)
(** * Sorting loaded objects by their dependencies (elf/dl-sort-maps.c)

    A link map is an address; [obj] gives its members.  The array maps is a list of
    addresses.  l_visited is a function of the state. *)

From Stdlib Require Import ZArith List Lia Bool Permutation Relation_Operators Operators_Properties.
From S2P Require Import Prelude.
Import ListNotations.
#[local] Open Scope Z_scope.
#[local] Open Scope glibc_scope.

(** The members of struct link_map that the sorting reads; l_initfini without the null
    pointer at its end, l_reldeps as its list of [act] entries. *)
Record link_map := {
  l_initfini : option (list Z); l_reldeps : option (list Z);
  l_main_map : bool; l_faked : bool; l_real : Z; l_idx : Z }.

Definition memb (x : Z) (l : list Z) : bool := existsb (Z.eqb x) l.

Section Sort.
Context (obj : Z -> link_map).

(** ** The original algorithm *)

(** maps[k] has [thisp] as a dependency: the two searches for one [k]. *)
Definition depends_on (for_fini : bool) (mk thisp : Z) : bool :=
  if match l_initfini (obj mk) with Some deps => memb thisp deps | None => false end then true
  else
    if for_fini then
      match l_reldeps (obj mk) with
      | Some rel => if memb thisp rel then negb (match l_initfini (obj thisp) with Some deps => memb mk deps | None => false end) else false
      | None => false
      end
    else false.

(** while (k > i) ... --k: the index of the last object behind [i] that depends on
    [thisp].  [after] holds maps[i + 1], maps[i + 2], ... *)
Fixpoint last_dependent (for_fini : bool) (thisp : Z) (after : list Z) (k : nat) : option nat :=
  match after with
  | [] => None
  | mk :: after =>
      match last_dependent for_fini thisp after (S k) with
      | Some k' => Some k'
      | None => if depends_on for_fini mk thisp then Some k else None
      end
  end.

(** memmove (&a[i], &a[i + 1], (k - i) * sizeof (a[0])); a[k] = old a[i]; *)
Definition rotate {T} (i k : nat) (a : list T) : list T :=
  match skipn i a with
  | x :: rest => firstn i a ++ firstn (k - i) rest ++ x :: skipn (k - i) rest
  | [] => a
  end.

Definition clear_from (i : nat) (seen : list Z) : list Z := firstn i seen ++ repeat 0 (length seen - i).

(** The main loop; seen holds 16-bit counters. *)
Fixpoint sort_original_loop (fuel : nat) (for_fini : bool) (maps : list Z) (seen : list Z) (i : nat) : option (list Z) :=
  match fuel with
  | O => None
  | S fuel =>
      let nmaps := length maps in
      let? thisp := nth_error maps i in
      let? s := nth_error seen i in
      let seen := firstn i seen ++ wrap 16 (s + 1) :: skipn (S i) seen in
      let skip (_ : unit) :=
        let i := S i in
        if Nat.eqb i nmaps then Some maps else sort_original_loop fuel for_fini maps (clear_from i seen) i in
      if for_fini && (negb (thisp =? l_real (obj thisp)) || (l_idx (obj thisp) =? -1)) then skip tt
      else
        match last_dependent for_fini thisp (skipn (S i) maps) (S i) with
        | None => skip tt
        | Some k =>
            let maps := rotate i k maps in
            let? next_seen := nth_error seen (S i) in
            if Z.of_nat (nmaps - i) <? next_seen then let i := S i in sort_original_loop fuel for_fini maps (clear_from i seen) i
            else sort_original_loop fuel for_fini maps (rotate i k seen) i
        end
  end.

Definition dl_sort_maps_original (fuel : nat) (maps : list Z) (force_first for_fini : bool) : option (list Z) :=
  let? (first, maps) := (if force_first then match maps with [] => None | m :: maps => Some ([m], maps) end else Some ([], maps)) in
  if (length maps <=? 1)%nat then Some (first ++ maps)
  else
    let? maps := sort_original_loop fuel for_fini maps (repeat 0 (length maps)) 0 in
    Some (first ++ maps).

(** ** Depth-first search *)

(** l_visited, the room left in the array below the head, the part of the array from the
    head on, and *do_reldeps. *)
Record dfs_state := { visited : Z -> bool; room : nat; filled : list Z; reldeps_found : bool }.

(** if (dep->l_visited == 0 && dep->l_main_map == 0) traverse for each of [deps] *)
Fixpoint traverse_deps (traverse : Z -> dfs_state -> option dfs_state) (deps : list Z) (s : dfs_state) : option dfs_state :=
  match deps with
  | [] => Some s
  | dep :: deps =>
      let? s := (if negb (visited s dep) && negb (l_main_map (obj dep)) then traverse dep s else Some s) in
      traverse_deps traverse deps s
  end.

(** [do_reldeps]: the pointer is not null. *)
Fixpoint dfs_traversal (fuel : nat) (do_reldeps : bool) (map : Z) (s : dfs_state) : option dfs_state :=
  match fuel with
  | O => None
  | S fuel =>
      if visited s map || l_faked (obj map) then Some s
      else
        let s := {| visited := fun x => (x =? map) || visited s x; room := room s; filled := filled s; reldeps_found := reldeps_found s |} in
        let? s := match l_initfini (obj map) with Some deps => traverse_deps (dfs_traversal fuel do_reldeps) deps s | None => Some s end in
        let? s :=
          match (if do_reldeps then l_reldeps (obj map) else None) with
          | Some rel =>
              let s := {| visited := visited s; room := room s; filled := filled s; reldeps_found := true |} in
              traverse_deps (dfs_traversal fuel do_reldeps) (rev rel) s
          | None => Some s
          end in
        match room s with
        | O => None
        | S room => Some {| visited := visited s; room := room; filled := map :: filled s; reldeps_found := reldeps_found s |}
        end
  end.

(** for (i = nmaps - 1; i >= 0; i--) dfs_traversal (head, maps[i], ...), until the
    array is full; [maps] from the back. *)
Fixpoint dfs_all (fuel : nat) (do_reldeps : bool) (maps : list Z) (s : dfs_state) : option dfs_state :=
  match maps with
  | [] => Some s
  | map :: maps =>
      let? s := dfs_traversal fuel do_reldeps map s in
      match room s with O => Some s | S _ => dfs_all fuel do_reldeps maps s end
  end.

(** One pass: the marks of [maps] are cleared, and the array must be full at the end. *)
Definition dfs_pass (fuel : nat) (do_reldeps : bool) (maps : list Z) (v : Z -> bool) : option dfs_state :=
  let? s := dfs_all fuel do_reldeps (rev maps) {| visited := fun x => negb (memb x maps) && v x; room := length maps; filled := []; reldeps_found := false |} in
  match room s with O => Some s | S _ => None end.

(** The objects before [first_map]; [None] if it is missing. *)
Fixpoint before_first (first_map : Z) (maps : list Z) : option (list Z * list Z) :=
  match maps with
  | [] => None
  | x :: maps => if x =? first_map then Some ([], maps) else let? (a, b) := before_first first_map maps in Some (x :: a, b)
  end.

Definition dl_sort_maps_dfs (fuel : nat) (maps : list Z) (force_first for_fini : bool) (v : Z -> bool) : option (list Z) :=
  let? first_map := nth_error maps 0 in
  let? s := dfs_pass fuel for_fini maps v in
  let? maps :=
    (if reldeps_found s then let? s2 := dfs_pass fuel false (filled s) (visited s) in Some (filled s2)
     else Some (filled s)) in
  let? head := nth_error maps 0 in
  if force_first && negb (head =? first_map) then
    let? (a, b) := before_first first_map maps in Some (first_map :: a ++ b)
  else Some maps.

(** [original]: the tunable selects the original algorithm. *)
Definition dl_sort_maps (fuel : nat) (original : bool) (maps : list Z) (force_first for_fini : bool) (v : Z -> bool) : option (list Z) :=
  if original then dl_sort_maps_original fuel maps force_first for_fini else dl_sort_maps_dfs fuel maps force_first for_fini v.
End Sort.

(** * Proofs *)

Lemma memb_In x l : memb x l = true <-> In x l.
Proof. unfold memb. rewrite existsb_exists. split; [intros (y & H & E); apply Z.eqb_eq in E; congruence | intros H; exists x; split; [exact H | apply Z.eqb_refl]]. Qed.

Lemma NoDup_incl_le (a b : list Z) : NoDup a -> incl a b -> (length a <= length b)%nat.
Proof. apply NoDup_incl_length. Qed.

(** [x] comes before [y]. *)
Definition precedes (l : list Z) (x y : Z) : Prop := exists a b, l = a ++ x :: b /\ In y b.

(** ** Depth-first search *)
Section DFS.
Context (obj : Z -> link_map) (flag : bool) (maps : list Z) (v0 : Z -> bool).

(** The dependencies that are followed; [flag] for the relocation dependencies. *)
Definition deps_of (x : Z) : list Z :=
  (match l_initfini (obj x) with Some deps => deps | None => [] end) ++
  (if flag then match l_reldeps (obj x) with Some rel => rev rel | None => [] end else []).

Definition edge (x y : Z) : Prop := In y (deps_of x) /\ l_main_map (obj y) = false /\ In y maps /\ y <> x.
Definition reach : Z -> Z -> Prop := clos_refl_trans Z edge.

Hypothesis (Hnd : NoDup maps) (Hfaked : forall x, In x maps -> l_faked (obj x) = false).
Hypothesis (Hclosed : forall x d, In x maps -> In d (deps_of x) -> In d maps \/ l_main_map (obj d) = true \/ l_faked (obj d) = true \/ v0 d = true).

(** Each object is in front of its dependencies, except for those that depend on it. *)
Definition ordered (l : list Z) : Prop := forall a x b, l = a ++ x :: b -> forall y, edge x y -> In y b \/ reach y x.

Lemma ordered_cons x b : ordered b -> (forall y, edge x y -> In y b \/ reach y x) -> ordered (x :: b).
Proof using Type. intros Hb Hx [|z a] x' b' E; injection E; intros; subst; [auto | eapply Hb; eauto]. Qed.

(** [G] are the objects whose traversal is under way. *)
Record inv (G : list Z) (s : dfs_state) : Prop := {
  inv_visited : forall x, In x maps -> visited s x = true <-> In x (filled s ++ G);
  inv_outside : forall x, ~ In x maps -> visited s x = v0 x;
  inv_nodup : NoDup (filled s ++ G);
  inv_incl : incl (filled s ++ G) maps;
  inv_room : (room s + length (filled s) = length maps)%nat;
  inv_ordered : ordered (filled s);
  inv_reldeps : reldeps_found s = false -> forall x, In x (filled s) -> (if flag then l_reldeps (obj x) else None) = None;
  inv_flag : flag = false -> reldeps_found s = false }.

(** What a traversal keeps. *)
Record extends (s s' : dfs_state) : Prop := {
  ext_visited : forall x, visited s x = true -> visited s' x = true;
  ext_filled : exists new, filled s' = new ++ filled s;
  ext_reldeps : reldeps_found s = true -> reldeps_found s' = true }.

Lemma extends_refl s : extends s s.
Proof using Type. split; auto. exists []. reflexivity. Qed.

Lemma extends_trans s s' s'' : extends s s' -> extends s' s'' -> extends s s''.
Proof using Type. intros [H1 (n1 & E1) H2] [H3 (n2 & E2) H4]. split; auto. exists (n2 ++ n1). rewrite E2, E1, app_assoc. reflexivity. Qed.

Definition good (traverse : Z -> dfs_state -> option dfs_state) (G : list Z) : Prop := forall d s,
  inv G s -> (In d maps \/ l_faked (obj d) = true) -> (In d maps -> forall g, In g G -> reach g d) ->
  exists s', traverse d s = Some s' /\ inv G s' /\ extends s s' /\ (In d maps -> visited s' d = true).

Lemma traverse_deps_spec traverse x G : good traverse (x :: G) -> In x maps -> (forall g, In g G -> reach g x) ->
  forall ds s, inv (x :: G) s -> incl ds (deps_of x) ->
  exists s', traverse_deps obj traverse ds s = Some s' /\ inv (x :: G) s' /\ extends s s' /\
    forall d, In d ds -> In d maps -> l_main_map (obj d) = false -> visited s' d = true.
Proof using Hclosed.
  intros Hgood Hx HG. induction ds as [|d ds IH]; intros s Hs Hds; [exists s; split; [reflexivity|]; split; [exact Hs|]; split; [apply extends_refl | intros d []]|]. cbn [traverse_deps].
  assert (Hd : In d (deps_of x)) by (apply Hds; left; reflexivity). assert (Hds' : incl ds (deps_of x)) by (intros y Hy; apply Hds; right; exact Hy).
  assert (Hstep : exists s1, (if negb (visited s d) && negb (l_main_map (obj d)) then traverse d s else Some s) = Some s1 /\ inv (x :: G) s1 /\ extends s s1 /\ (In d maps -> l_main_map (obj d) = false -> visited s1 d = true)).
  { destruct (visited s d) eqn:Ev; cbn [negb andb]; [exists s; auto using extends_refl|]. destruct (l_main_map (obj d)) eqn:Em; cbn [negb]; [exists s; split; [reflexivity|]; split; [exact Hs|]; split; [apply extends_refl | discriminate]|].
    assert (Hd2 : In d maps \/ l_faked (obj d) = true).
    { destruct (Hclosed x d Hx Hd) as [H|[H|[H|H]]]; auto; [congruence|]. destruct (in_dec Z.eq_dec d maps) as [Hi|Hi]; [auto|]. rewrite (inv_outside _ _ Hs d Hi) in Ev. congruence. }
    destruct (Hgood d s Hs Hd2) as (s1 & E1 & I1 & X1 & V1); [|exists s1; auto]. intros Hi.
    assert (Hne : d <> x). { intros ->. assert (visited s x = true) by (apply (inv_visited _ _ Hs); [exact Hx | apply in_app_iff; right; left; reflexivity]). congruence. }
    assert (He : edge x d) by (repeat split; auto). intros g [<-|Hg]; [apply rt_step, He | eapply rt_trans; [apply HG, Hg | apply rt_step, He]]. }
  destruct Hstep as (s1 & -> & I1 & X1 & V1). destruct (IH s1 I1 Hds') as (s2 & -> & I2 & X2 & V2). exists s2. split; [reflexivity|]. split; [exact I2|]. split; [eapply extends_trans; eauto|].
  intros d' [<-|Hd'] Hm Hmm; [apply (ext_visited _ _ X2), V1; assumption | apply V2; assumption].
Qed.

Lemma inv_mark G s x : inv G s -> In x maps -> visited s x = false ->
  inv (x :: G) {| visited := fun y => (y =? x) || visited s y; room := room s; filled := filled s; reldeps_found := reldeps_found s |}.
Proof using Type.
  intros [H1 H2 H3 H4 H5 H6 H7 H8] Hx Hv. assert (Hn : ~ In x (filled s ++ G)) by (rewrite <- H1 by exact Hx; congruence). split; cbn [visited room filled reldeps_found]; auto.
  - intros y Hy. rewrite orb_true_iff, Z.eqb_eq, (H1 y Hy), !in_app_iff. cbn [In]. intuition congruence.
  - intros y Hy. destruct (Z.eqb_spec y x) as [->|]; [contradiction | apply H2, Hy].
  - apply NoDup_Add with (a := x) (l := filled s ++ G); [apply Add_app | auto].
  - intros y Hy. apply in_app_iff in Hy as [Hy|[<-|Hy]]; auto; apply H4, in_app_iff; auto.
Qed.

Lemma inv_place G s x : inv (x :: G) s -> (forall y, edge x y -> visited s y = true) -> (forall g, In g G -> reach g x) -> (reldeps_found s = false -> (if flag then l_reldeps (obj x) else None) = None) ->
  exists r, room s = S r /\ inv G {| visited := visited s; room := r; filled := x :: filled s; reldeps_found := reldeps_found s |}.
Proof using Hnd.
  intros [H1 H2 H3 H4 H5 H6 H7 H8] He HG Hr. pose proof (NoDup_incl_le _ _ H3 H4) as Hlen. rewrite length_app in Hlen. cbn [length] in Hlen.
  destruct (room s) as [|r] eqn:Er; [lia|]. exists r. split; [reflexivity|].
  assert (Hiff : forall y, In y (x :: filled s ++ G) <-> In y (filled s ++ x :: G)) by (intros y; cbn [In]; rewrite !in_app_iff; cbn [In]; tauto).
  split; cbn [visited room filled reldeps_found app]; auto.
  - intros y Hy. rewrite Hiff. apply H1, Hy.
  - apply NoDup_remove in H3 as [H3 H3']. constructor; assumption.
  - intros y Hy. apply H4, Hiff, Hy.
  - cbn [length]. lia.
  - apply ordered_cons; [exact H6|]. intros y Hy. pose proof (He y Hy) as Hv. destruct Hy as (_ & _ & Hym & Hne). apply H1 in Hv; [|exact Hym]. apply in_app_iff in Hv as [Hv|[Hv|Hv]]; [auto | congruence | right; apply HG, Hv].
  - intros Hf y [<-|Hy]; [apply Hr, Hf | apply H7; assumption].
Qed.

Lemma dfs_traversal_spec fuel : forall G, (length maps < fuel + length G)%nat -> good (dfs_traversal obj fuel flag) G.
Proof using Hnd Hfaked Hclosed.
  induction fuel as [|fuel IH]; intros G Hf d s Hs Hd HG.
  { exfalso. pose proof (NoDup_incl_le _ _ (inv_nodup _ _ Hs) (inv_incl _ _ Hs)) as Hlen. rewrite length_app in Hlen. lia. }
  cbn [dfs_traversal]. destruct (visited s d) eqn:Ev; cbn [orb]; [exists s; auto using extends_refl|].
  destruct (l_faked (obj d)) eqn:Efk; [exists s; split; [reflexivity|]; split; [exact Hs|]; split; [apply extends_refl | intros H; rewrite (Hfaked d H) in Efk; discriminate]|].
  destruct Hd as [Hd|Hd]; [|discriminate]. specialize (HG Hd). pose proof (inv_mark G s d Hs Hd Ev) as Hs1. set (s1 := {| visited := fun y => (y =? d) || visited s y; room := _; filled := _; reldeps_found := _ |}) in *.
  assert (X1 : extends s s1) by (split; cbn; auto; [intros x Hx; rewrite Hx; apply orb_true_r | exists []; reflexivity]).
  assert (Hgood : good (dfs_traversal obj fuel flag) (d :: G)) by (apply IH; cbn [length]; lia).
  assert (Hstat : exists s2, (match l_initfini (obj d) with Some deps => traverse_deps obj (dfs_traversal obj fuel flag) deps s1 | None => Some s1 end) = Some s2 /\ inv (d :: G) s2 /\ extends s1 s2 /\
    forall y, In y (match l_initfini (obj d) with Some deps => deps | None => [] end) -> In y maps -> l_main_map (obj y) = false -> visited s2 y = true).
  { destruct (l_initfini (obj d)) as [deps|] eqn:Ei; [|exists s1; split; [reflexivity|]; split; [exact Hs1|]; split; [apply extends_refl | intros y []]].
    apply (traverse_deps_spec _ d G Hgood Hd HG); [exact Hs1|]. intros y Hy. unfold deps_of. rewrite Ei. apply in_app_iff. auto. }
  destruct Hstat as (s2 & -> & Hs2 & X2 & V2).
  assert (Hrel : exists s3, (match (if flag then l_reldeps (obj d) else None) with
      | Some rel => traverse_deps obj (dfs_traversal obj fuel flag) (rev rel) {| visited := visited s2; room := room s2; filled := filled s2; reldeps_found := true |}
      | None => Some s2 end) = Some s3 /\ inv (d :: G) s3 /\ extends s2 s3 /\ (reldeps_found s3 = false -> (if flag then l_reldeps (obj d) else None) = None) /\
    forall y, In y (if flag then match l_reldeps (obj d) with Some rel => rev rel | None => [] end else []) -> In y maps -> l_main_map (obj y) = false -> visited s3 y = true).
  { destruct (if flag then l_reldeps (obj d) else None) as [rel|] eqn:Er.
    - destruct flag eqn:Efl; [|discriminate]. rewrite Er.
      destruct (traverse_deps_spec _ d G Hgood Hd HG (rev rel) {| visited := visited s2; room := room s2; filled := filled s2; reldeps_found := true |}) as (s3 & E3 & I3 & X3 & V3).
      + destruct Hs2 as [H1 H2 H3 H4 H5 H6 H7 H8]. split; cbn; auto; congruence.
      + intros y Hy. unfold deps_of. rewrite Er. apply in_app_iff. rewrite Efl. auto.
      + exists s3. split; [exact E3|]. split; [exact I3|]. split; [destruct X3 as [A1 A2 A3]; split; auto|]. split; [|exact V3]. intros Hc. pose proof (ext_reldeps _ _ X3 eq_refl). congruence.
    - exists s2. split; [reflexivity|]. split; [exact Hs2|]. split; [apply extends_refl|]. split; [auto|]. intros y Hy. destruct flag; [rewrite Er in Hy|]; destruct Hy. }
  destruct Hrel as (s3 & -> & Hs3 & X3 & R3 & V3).
  destruct (inv_place G s3 d Hs3) as (r & -> & Hs4); auto.
  { intros y (Hy & Hmm & Hym & _). unfold deps_of in Hy. apply in_app_iff in Hy as [Hy|Hy]; [apply (ext_visited _ _ X3), V2 | apply V3]; assumption. }
  eexists. split; [reflexivity|]. split; [exact Hs4|]. split.
  - eapply extends_trans; [exact X1|]. eapply extends_trans; [exact X2|]. eapply extends_trans; [exact X3|]. split; cbn; auto. exists [d]. reflexivity.
  - intros _. cbn [visited]. apply (inv_visited _ _ Hs4); [exact Hd | left; reflexivity].
Qed.

Lemma dfs_all_spec fuel : (length maps < fuel)%nat -> forall ms s, inv [] s -> incl ms maps ->
  exists s', dfs_all obj fuel flag ms s = Some s' /\ inv [] s' /\ extends s s' /\ (room s' = 0%nat \/ forall x, In x ms -> visited s' x = true).
Proof using Hnd Hfaked Hclosed.
  intros Hf. induction ms as [|x ms IH]; intros s Hs Hms; [exists s; split; [reflexivity|]; split; [exact Hs|]; split; [apply extends_refl | right; intros x []]|]. cbn [dfs_all].
  destruct (dfs_traversal_spec fuel [] ltac:(cbn [length]; lia) x s Hs) as (s1 & -> & I1 & X1 & V1); [left; apply Hms; left; reflexivity | intros _ g []|].
  destruct (room s1) eqn:Er; [exists s1; auto|]. destruct (IH s1 I1) as (s2 & -> & I2 & X2 & H2); [intros y Hy; apply Hms; right; exact Hy|].
  exists s2. split; [reflexivity|]. split; [exact I2|]. split; [eapply extends_trans; eauto|]. destruct H2 as [H2|H2]; [auto|]. right.
  intros y [<-|Hy]; [apply (ext_visited _ _ X2), V1, Hms; left; reflexivity | apply H2, Hy].
Qed.

Lemma inv_start : inv [] {| visited := fun x => negb (memb x maps) && v0 x; room := length maps; filled := []; reldeps_found := false |}.
Proof using Type.
  split; cbn; auto; try (intros; contradiction).
  - intros x Hx. assert (E : memb x maps = true) by (apply memb_In, Hx). rewrite E. cbn. split; [discriminate | intros []].
  - intros x Hx. destruct (memb x maps) eqn:E; [apply memb_In in E; contradiction | reflexivity].
  - constructor.
  - intros y [].
  - intros [|z a] x b E; discriminate.
Qed.

Lemma dfs_pass_spec fuel : (length maps < fuel)%nat ->
  exists s, dfs_pass obj fuel flag maps v0 = Some s /\ Permutation maps (filled s) /\ ordered (filled s) /\
    (forall x, ~ In x maps -> visited s x = v0 x) /\
    (reldeps_found s = false -> forall x, In x maps -> (if flag then l_reldeps (obj x) else None) = None) /\ (flag = false -> reldeps_found s = false).
Proof using Hnd Hfaked Hclosed.
  intros Hf. unfold dfs_pass. destruct (dfs_all_spec fuel Hf (rev maps) _ inv_start) as (s & -> & Hs & _ & Hfull); [intros x Hx; apply in_rev, Hx|].
  destruct Hs as [H1 H2 H3 H4 H5 H6 H7 H8]. rewrite app_nil_r in H3, H4.
  assert (Hperm : (length maps <= length (filled s))%nat).
  { destruct Hfull as [E|Hall]; [lia|]. apply NoDup_incl_le; [exact Hnd|]. intros x Hx. specialize (Hall x ltac:(rewrite <- in_rev; exact Hx)). apply H1 in Hall; [|exact Hx]. rewrite app_nil_r in Hall. exact Hall. }
  assert (Er : room s = 0%nat) by (pose proof (NoDup_incl_le _ _ H3 H4); lia). rewrite Er. exists s.
  assert (P : Permutation maps (filled s)) by (apply Permutation_sym, NoDup_Permutation_bis; assumption).
  split; [reflexivity|]. split; [exact P|]. split; [exact H6|]. split; [exact H2|]. split; [|exact H8]. intros Hr x Hx. apply H7; [exact Hr|]. apply (Permutation_in _ P), Hx.
Qed.
End DFS.

(** ** The second pass *)

Lemma deps_static obj x d : In d (deps_of obj false x) -> forall flag : bool, In d (deps_of obj flag x).
Proof. unfold deps_of. rewrite app_nil_r. intros H flag. apply in_app_iff. auto. Qed.

Lemma edge_static obj maps x y : edge obj false maps x y -> forall flag, edge obj flag maps x y.
Proof. intros (H1 & H2) flag. split; [apply deps_static, H1 | exact H2]. Qed.

Lemma edge_perm obj flag maps maps' x y : Permutation maps maps' -> edge obj flag maps x y -> edge obj flag maps' x y.
Proof. intros P (H1 & H2 & H3 & H4). split; [exact H1|]. split; [exact H2|]. split; [apply (Permutation_in _ P), H3 | exact H4]. Qed.

Lemma reach_perm obj flag maps maps' x y : Permutation maps maps' -> reach obj flag maps x y -> reach obj flag maps' x y.
Proof. intros P H. induction H; [apply rt_step; eapply edge_perm; eauto | apply rt_refl | eapply rt_trans; eauto]. Qed.

(** Without relocation dependencies both kinds of edges are the same. *)
Lemma reach_no_reldeps obj (flag : bool) maps x y : (forall x, In x maps -> (if flag then l_reldeps (obj x) else None) = None) -> In x maps ->
  reach obj flag maps x y -> reach obj false maps x y.
Proof.
  intros Hr Hx H. assert (He : forall a b, In a maps -> edge obj flag maps a b -> edge obj false maps a b).
  { intros a b Ha (H1 & H2). split; [|exact H2]. unfold deps_of in *. specialize (Hr a Ha). destruct flag; [rewrite Hr in H1|]; exact H1. }
  apply clos_rt_rt1n_iff in H. induction H as [|a b c Hab Hbc IH]; [apply rt_refl|]. eapply rt_trans; [apply rt_step, He; [exact Hx | exact Hab]|]. apply IH. apply Hab.
Qed.

Section Stable.
Context (obj : Z -> link_map) (l : list Z) (v0 : Z -> bool).
Hypothesis (Hnd : NoDup l) (Hfaked : forall x, In x l -> l_faked (obj x) = false).
Hypothesis (Hclosed : forall x d, In x l -> In d (deps_of obj false x) -> In d l \/ l_main_map (obj d) = true \/ l_faked (obj d) = true \/ v0 d = true).
Hypothesis (Hsorted : forall a x b, l = a ++ x :: b -> forall y, edge obj false l x y -> In y b).

Lemma traverse_nothing fuel ds s : (forall d, In d ds -> visited s d = true \/ l_main_map (obj d) = true \/ l_faked (obj d) = true) ->
  traverse_deps obj (dfs_traversal obj (S fuel) false) ds s = Some s.
Proof using Type.
  induction ds as [|d ds IH]; intros H; [reflexivity|]. cbn [traverse_deps].
  assert (Hhead : (if negb (visited s d) && negb (l_main_map (obj d)) then dfs_traversal obj (S fuel) false d s else Some s) = Some s).
  { destruct (H d (or_introl eq_refl)) as [Hd|[Hd|Hd]]; [rewrite Hd; reflexivity | rewrite Hd, andb_false_r; reflexivity|].
    destruct (_ && _); [|reflexivity]. cbn [dfs_traversal]. rewrite Hd, orb_true_r. reflexivity. }
  rewrite Hhead. apply IH. intros; apply H; right; assumption.
Qed.

Lemma dfs_all_stable fuel : forall ms b s, l = rev ms ++ b -> filled s = b -> (room s + length b = length l)%nat ->
  (forall y, In y l -> visited s y = true <-> In y b) -> (forall y, ~ In y l -> visited s y = v0 y) ->
  exists s', dfs_all obj (S (S fuel)) false ms s = Some s' /\ filled s' = l /\ room s' = 0%nat.
Proof using Hnd Hfaked Hclosed Hsorted.
  induction ms as [|x ms IH]; intros b s El Eb Er Hv Ho; [exists s; cbn in El; subst; repeat split; lia|]. cbn [dfs_all rev] in *. rewrite <- app_assoc in El. cbn [app] in El.
  assert (Hx : In x l) by (rewrite El; apply in_app_iff; right; left; reflexivity). assert (Hxb : ~ In x b) by (rewrite El in Hnd; apply NoDup_remove in Hnd as [_ H]; intros Hb; apply H, in_app_iff; auto).
  assert (Ev : visited s x = false) by (destruct (visited s x) eqn:E; [apply Hv in E; [contradiction | exact Hx] | reflexivity]).
  assert (Edfs : dfs_traversal obj (S (S fuel)) false x s = match room s with O => None | S r => Some {| visited := fun y => (y =? x) || visited s y; room := r; filled := x :: filled s; reldeps_found := reldeps_found s |} end).
  { cbn [dfs_traversal]. rewrite Ev, (Hfaked x Hx). cbn [orb]. destruct (l_initfini (obj x)) as [deps|] eqn:Ei; [|reflexivity]. rewrite (traverse_nothing fuel deps); [reflexivity|].
    intros d Hd. cbn [visited]. destruct (Z.eqb_spec d x) as [->|Hne]; [auto|]. cbn [orb]. assert (Hdd : In d (deps_of obj false x)) by (unfold deps_of; rewrite Ei; apply in_app_iff; auto).
    destruct (l_main_map (obj d)) eqn:Em; [auto|]. destruct (in_dec Z.eq_dec d l) as [Hi|Hi].
    - left. apply Hv; [exact Hi|]. apply (Hsorted _ x b El). repeat split; auto.
    - destruct (Hclosed x d Hx Hdd) as [H|[H|[H|H]]]; [contradiction | congruence | auto | left; rewrite Ho by exact Hi; exact H]. }
  assert (Hroom : exists r, room s = S r).
  { destruct (room s) as [|r]; [|eauto]. exfalso. apply (f_equal (@length Z)) in El. rewrite length_app in El. cbn [length] in El. lia. }
  destruct Hroom as (r & Hroom). rewrite Edfs, Hroom. cbn [room]. set (s1 := {| visited := _; room := r; filled := _; reldeps_found := _ |}).
  assert (Hlen : (r + length (x :: b) = length l)%nat) by (cbn [length]; lia). destruct r as [|r].
  - exists s1. split; [reflexivity|]. split; [|reflexivity]. cbn [filled s1]. rewrite Eb. pose proof El as El'. apply (f_equal (@length Z)) in El. rewrite length_app in El. destruct (rev ms) as [|z zs] eqn:Ez; [symmetry; exact El' | cbn [length] in *; lia].
  - apply (IH (x :: b) s1); auto; cbn [filled visited s1]; [rewrite Eb; reflexivity| |].
    + intros y Hy. rewrite orb_true_iff, Z.eqb_eq, (Hv y Hy). cbn [In]. intuition congruence.
    + intros y Hy. destruct (Z.eqb_spec y x) as [->|]; [contradiction | apply Ho, Hy].
Qed.

Lemma dfs_pass_stable fuel : exists s, dfs_pass obj (S (S fuel)) false l v0 = Some s /\ filled s = l.
Proof using Hnd Hfaked Hclosed Hsorted.
  unfold dfs_pass. destruct (dfs_all_stable fuel (rev l) [] {| visited := fun x => negb (memb x l) && v0 x; room := length l; filled := []; reldeps_found := false |}) as (s & -> & E1 & E2).
  - rewrite rev_involutive, app_nil_r. reflexivity.
  - reflexivity.
  - cbn. lia.
  - intros y Hy. cbn [visited]. assert (E : memb y l = true) by (apply memb_In, Hy). rewrite E. cbn. split; [discriminate | intros []].
  - intros y Hy. cbn [visited]. destruct (memb y l) eqn:E; [apply memb_In in E; contradiction | reflexivity].
  - rewrite E2. exists s. auto.
Qed.
End Stable.

(** ** The whole sort *)

(** Every dependency that is not sorted is left out for a reason. *)
Definition closed (obj : Z -> link_map) (flag : bool) (maps : list Z) (v : Z -> bool) : Prop :=
  forall x d, In x maps -> In d (deps_of obj flag x) -> In d maps \/ l_main_map (obj d) = true \/ l_faked (obj d) = true \/ v d = true.

Lemma before_first_spec f l : In f l -> exists a b, before_first f l = Some (a, b) /\ l = a ++ f :: b.
Proof.
  induction l as [|x l IH]; intros H; [destruct H|]. cbn [before_first]. destruct (Z.eqb_spec x f) as [->|E]; [exists [], l; auto|].
  destruct IH as (a & b & -> & ->); [destruct H; [contradiction | assumption]|]. exists (x :: a), b. auto.
Qed.

(** Moving one object to the front. *)
Lemma precedes_front f a b x y : precedes (a ++ f :: b) x y -> y <> f -> precedes (f :: a ++ b) x y.
Proof.
  intros (c & d & E & Hy) Hne. apply app_eq_app in E as (l & [[Ea Eb]|[Ea Eb]]).
  - destruct l as [|z l]; cbn in Eb; injection Eb; intros; subst.
    + exists [], ((c ++ []) ++ b). split; [reflexivity|]. apply in_app_iff. auto.
    + exists (f :: c), (l ++ b). rewrite <- app_assoc. split; [reflexivity|]. apply in_app_iff in Hy as [Hy|[Hy|Hy]]; [apply in_app_iff; auto | congruence | apply in_app_iff; auto].
  - destruct l as [|z l]; cbn in Eb; injection Eb; intros; subst.
    + exists [], (a ++ d). split; [reflexivity|]. apply in_app_iff. auto.
    + exists (z :: a ++ l), d. cbn. rewrite <- app_assoc. split; [reflexivity | exact Hy].
Qed.

Lemma ordered_precedes obj flag maps l x y : ordered obj flag maps l -> Permutation maps l -> In x maps -> edge obj flag maps x y -> ~ reach obj flag maps y x -> precedes l x y.
Proof.
  intros Ho P Hx He Hr. destruct (in_split x l (Permutation_in _ P Hx)) as (a & b & ->). exists a, b. split; [reflexivity|]. destruct (Ho a x b eq_refl y He) as [H|H]; [exact H | contradiction].
Qed.

Section Whole.
Context (obj : Z -> link_map) (maps : list Z) (for_fini : bool) (v : Z -> bool).
Hypothesis (Hnd : NoDup maps) (Hfaked : forall x, In x maps -> l_faked (obj x) = false) (Hclosed : closed obj for_fini maps v).

(** The result of the passes, before the first object is forced into its place. *)
Lemma dfs_passes_spec fuel : (length maps < fuel)%nat ->
  exists s r, dfs_pass obj fuel for_fini maps v = Some s /\
    (if reldeps_found s then let? s2 := dfs_pass obj fuel false (filled s) (visited s) in Some (filled s2) else Some (filled s)) = Some r /\
    Permutation maps r /\
    (forall x y, In x maps -> edge obj false maps x y -> ~ reach obj false maps y x -> precedes r x y) /\
    ((forall x y, edge obj for_fini maps x y -> ~ reach obj for_fini maps y x) -> forall x y, In x maps -> edge obj for_fini maps x y -> precedes r x y).
Proof using Hnd Hfaked Hclosed.
  intros Hf. destruct (dfs_pass_spec obj for_fini maps v Hnd Hfaked Hclosed fuel Hf) as (s & E1 & P1 & O1 & Hout & Hrel & Hflag). exists s.
  destruct (reldeps_found s) eqn:Er.
  - assert (Hnd2 : NoDup (filled s)) by (eapply Permutation_NoDup; eauto). assert (Hfk2 : forall x, In x (filled s) -> l_faked (obj x) = false) by (intros x Hx; apply Hfaked, (Permutation_in _ (Permutation_sym P1)), Hx).
    assert (Hcl2 : closed obj false (filled s) (visited s)).
    { intros x d Hx Hd. assert (Hx' : In x maps) by (apply (Permutation_in _ (Permutation_sym P1)), Hx). destruct (Hclosed x d Hx' (deps_static _ _ _ Hd for_fini)) as [H|[H|[H|H]]]; auto; [left; apply (Permutation_in _ P1), H|].
      destruct (in_dec Z.eq_dec d maps) as [Hi|Hi]; [left; apply (Permutation_in _ P1), Hi | right; right; right; rewrite Hout by exact Hi; exact H]. }
    assert (Hf2 : (length (filled s) < fuel)%nat) by (rewrite <- (Permutation_length P1); exact Hf).
    destruct (dfs_pass_spec obj false (filled s) (visited s) Hnd2 Hfk2 Hcl2 fuel Hf2) as (s2 & E2 & P2 & O2 & _). exists (filled s2). split; [exact E1|]. rewrite E2. split; [reflexivity|].
    assert (P : Permutation maps (filled s2)) by (eapply perm_trans; eauto). split; [exact P|]. split.
    + intros x y Hx He Hr. apply (ordered_precedes obj false (filled s) _ x y O2 P2); [apply (Permutation_in _ P1), Hx | apply (edge_perm _ _ maps); auto|].
      intros H. apply Hr. apply (reach_perm _ _ (filled s)); [apply Permutation_sym, P1 | exact H].
    + intros Hac x y Hx He. assert (Hsorted : forall a z b, filled s = a ++ z :: b -> forall t, edge obj false (filled s) z t -> In t b).
      { intros a z b Ez t Ht. assert (Ht1 : edge obj for_fini maps z t) by (apply edge_static, (edge_perm _ _ (filled s)); [apply Permutation_sym, P1 | exact Ht]). destruct (O1 a z b Ez t Ht1) as [H|H]; [exact H | destruct (Hac z t Ht1 H)]. }
      assert (H2 : exists fuel', fuel = S (S fuel')).
      { destruct fuel as [|[|fuel']]; [lia | | eauto]. exfalso. assert (length maps = 0%nat) by lia. destruct maps; [destruct Hx | discriminate]. }
      destruct H2 as (fuel' & ->). destruct (dfs_pass_stable obj (filled s) (visited s) Hnd2 Hfk2 Hcl2 Hsorted fuel') as (s3 & E3 & E4). assert (filled s2 = filled s) as -> by congruence.
      apply (ordered_precedes obj for_fini maps _ x y O1 P1); auto.
  - exists (filled s). split; [exact E1|]. split; [reflexivity|]. split; [exact P1|]. specialize (Hrel eq_refl). split.
    + intros x y Hx He Hr. apply (ordered_precedes obj for_fini maps _ x y O1 P1 Hx); [apply edge_static, He|]. intros H. apply Hr. apply (reach_no_reldeps obj for_fini maps); auto. apply He.
    + intros Hac x y Hx He. apply (ordered_precedes obj for_fini maps _ x y O1 P1); auto.
Qed.
End Whole.

(** C38: _dl_sort_maps with the depth-first algorithm.  When each dependency of a map is
    one of the maps, or is excluded from sorting, the sort runs without an assertion
    failing or a write outside the array and returns a permutation of the maps, with
    the first map in its place if that is asked for.  Each object precedes its
    link-time dependencies, except those that depend on it in turn (and the forced first
    object); if there are no cycles at all, this holds for the relocation
    dependencies that count for finalization, too. *)
Theorem dl_sort_maps_dfs_correct obj fuel first_map rest force_first for_fini v : let maps := first_map :: rest in
  NoDup maps -> (forall x, In x maps -> l_faked (obj x) = false) -> closed obj for_fini maps v -> (length maps < fuel)%nat ->
  exists r, dl_sort_maps obj fuel false maps force_first for_fini v = Some r /\ Permutation maps r /\
    (force_first = true -> nth_error r 0 = Some first_map) /\
    (forall x y, In x maps -> edge obj false maps x y -> ~ reach obj false maps y x -> (force_first = true -> y <> first_map) -> precedes r x y) /\
    ((forall x y, edge obj for_fini maps x y -> ~ reach obj for_fini maps y x) ->
     forall x y, In x maps -> edge obj for_fini maps x y -> (force_first = true -> y <> first_map) -> precedes r x y).
Proof.
  intros maps Hnd Hfaked Hclosed Hf. unfold dl_sort_maps, dl_sort_maps_dfs. change (nth_error maps 0) with (Some first_map). cbv beta iota.
  destruct (dfs_passes_spec obj maps for_fini v Hnd Hfaked Hclosed fuel Hf) as (s & r & -> & Er & P & O1 & O2). rewrite Er.
  destruct r as [|h r]; [apply Permutation_length in P; discriminate|]. cbn [nth_error]. destruct (force_first && negb (h =? first_map)) eqn:Ec.
  - apply andb_true_iff in Ec as [-> Ec]. destruct (before_first_spec first_map (h :: r)) as (a & b & -> & E); [apply (Permutation_in _ P); left; reflexivity|].
    eexists. split; [reflexivity|]. rewrite E in *. split; [eapply perm_trans; [exact P | apply Permutation_sym, Permutation_middle]|]. split; [auto|].
    split; [intros x y Hx He Hr Hne | intros Hac x y Hx He Hne]; (apply precedes_front; [|apply Hne; reflexivity]); [apply O1 | apply O2]; assumption.
  - exists (h :: r). split; [reflexivity|]. split; [exact P|]. split; [intros ->; cbn [andb] in Ec; apply negb_false_iff, Z.eqb_eq in Ec; cbn; congruence|]. split; [intros; apply O1; assumption | intros; apply O2; assumption].
Qed.

(** ** The original algorithm *)

Section Original.
Context (obj : Z -> link_map) (for_fini : bool).
Let dep (y x : Z) : Prop := depends_on obj for_fini y x = true.
Let kept (x : Z) : bool := for_fini && (negb (x =? l_real (obj x)) || (l_idx (obj x) =? -1)).

Lemma last_dependent_some x after : forall k k', last_dependent obj for_fini x after k = Some k' ->
  exists b y c, after = b ++ y :: c /\ k' = (k + length b)%nat /\ dep y x /\ forall z, In z c -> ~ dep z x.
Proof using Type.
  induction after as [|y after IH]; intros k k' H; [discriminate|]. cbn [last_dependent] in H. destruct (last_dependent obj for_fini x after (S k)) as [k''|] eqn:E.
  - injection H as <-. destruct (IH _ _ E) as (b & z & c & -> & -> & H). exists (y :: b), z, c. cbn. split; [reflexivity|]. split; [lia | exact H].
  - destruct (depends_on obj for_fini y x) eqn:Ed; [|discriminate]. injection H as <-. exists [], y, after. cbn. split; [reflexivity|]. split; [lia|]. split; [exact Ed|].
    clear IH. revert E. generalize (S k). induction after as [|z after IH]; intros q E w Hw; [destruct Hw|]. cbn [last_dependent] in E.
    destruct (last_dependent obj for_fini x after (S q)) eqn:E2; [discriminate|]. destruct (depends_on obj for_fini z x) eqn:Ez; [discriminate|]. destruct Hw as [<-|Hw]; [unfold dep; congruence | apply (IH _ E2), Hw].
Qed.

Lemma last_dependent_none x after : forall k, last_dependent obj for_fini x after k = None -> forall z, In z after -> ~ dep z x.
Proof using Type.
  induction after as [|y after IH]; intros k E z Hz; [destruct Hz|]. cbn [last_dependent] in E. destruct (last_dependent obj for_fini x after (S k)) eqn:E2; [discriminate|].
  destruct (depends_on obj for_fini y x) eqn:Ey; [discriminate|]. destruct Hz as [<-|Hz]; [unfold dep; congruence | apply (IH _ E2), Hz].
Qed.

Lemma rotate_app {T} (d : list T) x b y c : rotate (length d) (length d + S (length b)) (d ++ x :: b ++ y :: c) = d ++ b ++ y :: x :: c.
Proof using Type.
  clear dep kept. unfold rotate. rewrite skipn_app, skipn_all, Nat.sub_diag. cbn [skipn app]. rewrite firstn_app, firstn_all, Nat.sub_diag. cbn [firstn]. rewrite app_nil_r.
  replace (length d + S (length b) - length d)%nat with (length (b ++ [y])) by (rewrite length_app; cbn; lia). replace (b ++ y :: c) with ((b ++ [y]) ++ c) by (rewrite <- app_assoc; reflexivity).
  rewrite firstn_app, firstn_all, Nat.sub_diag, skipn_app, skipn_all, Nat.sub_diag. cbn [firstn skipn app]. rewrite app_nil_r, <- app_assoc. reflexivity.
Qed.

Lemma clear_from_app (d c : list Z) x : clear_from (S (length d)) (d ++ x :: c) = (d ++ [x]) ++ repeat 0 (length c).
Proof using Type.
  clear dep kept. unfold clear_from. replace (S (length d)) with (length (d ++ [x])) by (rewrite length_app; cbn; lia). replace (d ++ x :: c) with ((d ++ [x]) ++ c) by (rewrite <- app_assoc; reflexivity).
  rewrite firstn_app, firstn_all, Nat.sub_diag. cbn [firstn]. rewrite app_nil_r, (length_app (d ++ [x]) c). f_equal. f_equal. lia.
Qed.

(** The objects from position i on with their counters. *)
Definition counts := list (Z * Z).

Definition sum (cs : counts) : Z := fold_right (fun p a => snd p + a) 0 cs.

Lemma sum_app a b : sum (a ++ b) = sum a + sum b.
Proof using Type. clear dep kept. induction a as [|p a IH]; [reflexivity|]. change (sum ((p :: a) ++ b)) with (snd p + sum (a ++ b)). change (sum (p :: a)) with (snd p + sum a). rewrite IH. lia. Qed.

Lemma sum_bound cs k : (forall p, In p cs -> 0 <= snd p <= k) -> 0 <= sum cs <= Z.of_nat (length cs) * k.
Proof using Type.
  clear dep kept. induction cs as [|p cs IH]; intros H; cbn [sum fold_right length]; [lia|]. fold (sum cs). pose proof (H p (or_introl eq_refl)). specialize (IH ltac:(intros; apply H; right; assumption)). nia.
Qed.

(** An object comes to the front again only after all that depend on it have been
    there, too. *)
Definition in_step (p q : Z * Z) : Prop := (dep (fst q) (fst p) -> snd p <= snd q) /\ (dep (fst p) (fst q) -> snd q - 1 <= snd p).
Definition paced : counts -> Prop := ForallOrdPairs in_step.

Definition moved_back (cs : counts) : Prop := forall x cx, In (x, cx) cs -> 1 <= cx -> exists y cy, In (y, cy) cs /\ dep y x /\ y <> x.

Definition above (l : list Z) : Z -> Z -> Prop := clos_trans Z (fun a b => In a l /\ In b l /\ a <> b /\ dep b a).
Definition acyclic (l : list Z) : Prop := forall x, ~ above l x x.

(** No object of [done] depends on one before it, nor does one of [rest]; objects that
    are not removed are not sorted. *)
Definition settled (done rest : list Z) : Prop := forall a x b, done = a ++ x :: b -> kept x = false -> forall y, In y (b ++ rest) -> ~ dep y x.

Lemma settled_snoc done rest x : settled done (x :: rest) -> (kept x = false -> forall y, In y rest -> ~ dep y x) -> settled (done ++ [x]) rest.
Proof using Type.
  intros H Hx a z b E Hk y Hy. apply app_eq_app in E as (l & [[Ea Eb]|[Ea Eb]]).
  - destruct l as [|w l]; cbn in Eb; injection Eb; intros; subst; [cbn in Hy; apply Hx; assumption|]. apply (H a w l eq_refl Hk). apply in_app_iff. rewrite <- app_assoc in Hy. apply in_app_iff in Hy as [Hy|Hy]; auto.
  - destruct l as [|w l]; cbn in Eb; [injection Eb; intros; subst; cbn in Hy; apply Hx; assumption|]. injection Eb; intros E' _. destruct l; discriminate.
Qed.

Lemma settled_perm done rest rest' : settled done rest -> Permutation rest rest' -> settled done rest'.
Proof using Type. intros H P a x b E Hk y Hy. apply (H a x b E Hk). apply in_app_iff in Hy as [Hy|Hy]; apply in_app_iff; auto. right. apply (Permutation_in _ (Permutation_sym P)), Hy. Qed.

Lemma paced_dep cs x cx y cy : paced cs -> In (x, cx) cs -> In (y, cy) cs -> y <> x -> dep y x -> cx - 1 <= cy.
Proof using Type.
  intros Hp Hx Hy Hne Hd. destruct (ForallOrdPairs_In Hp _ _ Hx Hy) as [H|[[H _]|[_ H]]]; [congruence | |]; cbn in H; specialize (H Hd); lia.
Qed.

Lemma paced_app a b : paced (a ++ b) <-> paced a /\ paced b /\ forall p q, In p a -> In q b -> in_step p q.
Proof using Type.
  induction a as [|p a IH]; cbn [app]; [split; [intros H; split; [constructor|]; split; [exact H | intros p q []] | tauto]|]. split.
  - intros H. inversion_clear H as [|? ? H1 H2]. apply IH in H2 as (H2 & H3 & H4). rewrite Forall_app in H1. destruct H1 as [H1 H1']. split; [constructor; assumption|]. split; [exact H3|].
    rewrite Forall_forall in H1'. intros p' q [<-|Hp] Hq; auto.
  - intros (H1 & H2 & H3). inversion_clear H1 as [|? ? H4 H5]. constructor; [apply Forall_app; split; [exact H4 | apply Forall_forall; intros q Hq; apply H3; [left; reflexivity | exact Hq]]|].
    apply IH. split; [exact H5|]. split; [exact H2|]. intros; apply H3; [right|]; assumption.
Qed.

(** Moving the front object behind the last one that depends on it. *)
Lemma paced_move x cx b c : paced ((x, cx) :: b ++ c) -> (forall z, In z (map fst c) -> ~ dep z x) -> paced (b ++ (x, cx + 1) :: c).
Proof using Type.
  intros H Hc. inversion_clear H as [|? ? H1 H2]. apply paced_app in H2 as (Hb & Hcc & Hbc). apply Forall_app in H1 as [H1 H1']. rewrite Forall_forall in H1, H1'. apply paced_app. split; [exact Hb|].
  split; [constructor; [|exact Hcc] | intros p q Hp [<-|Hq]; [|auto]].
  - apply Forall_forall. intros q Hq. split; cbn; intros Hd; [destruct (Hc (fst q)); [apply in_map, Hq | exact Hd]|]. destruct (H1' q Hq) as [_ H]. specialize (H Hd). cbn in H. lia.
  - destruct (H1 p Hp) as [H3 H4]. split; cbn in *; intros Hd; [specialize (H4 Hd) | specialize (H3 Hd)]; lia.
Qed.

Lemma paced_start l : paced (map (fun x => (x, 0)) l).
Proof using Type. induction l as [|x l IH]; cbn; constructor; [|exact IH]. apply Forall_forall. intros q Hq. apply in_map_iff in Hq as (y & <- & _). split; cbn; lia. Qed.

Lemma moved_back_start l : moved_back (map (fun x => (x, 0)) l).
Proof using Type. intros x cx Hx. apply in_map_iff in Hx as (y & E & _). injection E as <- <-. lia. Qed.

Lemma moved_back_move x cx b y cy c : moved_back ((x, cx) :: b ++ (y, cy) :: c) -> dep y x -> y <> x -> moved_back (b ++ (y, cy) :: (x, cx + 1) :: c).
Proof using Type.
  intros H Hd Hne. assert (Hin : forall p, In p (b ++ (y, cy) :: (x, cx + 1) :: c) -> p = (x, cx + 1) \/ In p ((x, cx) :: b ++ (y, cy) :: c)) by (intros p; rewrite !in_app_iff; cbn [In]; rewrite in_app_iff; cbn [In]; intuition).
  assert (Hin2 : forall z cz, In (z, cz) ((x, cx) :: b ++ (y, cy) :: c) -> exists cz', In (z, cz') (b ++ (y, cy) :: (x, cx + 1) :: c)).
  { intros z cz [E|Hz]; [injection E as <- <-; exists (cx + 1); apply in_app_iff; right; right; left; reflexivity|]. exists cz. rewrite in_app_iff in *. cbn [In] in *. tauto. }
  intros z cz Hz Hc. destruct (Hin _ Hz) as [E|Hz'].
  - injection E as -> ->. destruct (Hin2 y cy) as (cy' & Hy); [right; apply in_app_iff; right; left; reflexivity|]. exists y, cy'. auto.
  - destruct (H z cz Hz' Hc) as (w & cw & Hw & Hdw & Hnw). destruct (Hin2 w cw Hw) as (cw' & Hw'). exists w, cw'. auto.
Qed.

(** A counter of [c] is the end of a chain of [c + 1] objects that depend on each other. *)
Lemma chain_of_count L cs : acyclic L -> incl (map fst cs) L -> paced cs -> moved_back cs -> forall c x cx, In (x, cx) cs -> Z.of_nat c <= cx ->
  exists l, length l = S c /\ NoDup l /\ incl l (map fst cs) /\ forall z, In z l -> z = x \/ above L x z.
Proof using Type.
  intros Hac HL Hp Hm. induction c as [|c IH]; intros x cx Hx Hc.
  - exists [x]. split; [reflexivity|]. split; [repeat constructor; intros []|]. split; [intros z [<-|[]]; apply (in_map fst _ _ Hx) | intros z [<-|[]]; auto].
  - destruct (Hm x cx Hx ltac:(lia)) as (y & cy & Hy & Hd & Hne). pose proof (paced_dep cs x cx y cy Hp Hx Hy Hne Hd) as Hle.
    destruct (IH y cy Hy ltac:(lia)) as (l & Hlen & Hnd & Hi & Hab). assert (Hxy : above L x y) by (apply t_step; split; [apply HL, (in_map fst _ _ Hx)|]; split; [apply HL, (in_map fst _ _ Hy)|]; auto).
    assert (Hup : forall z, In z l -> above L x z) by (intros z Hz; destruct (Hab z Hz) as [->|H]; [exact Hxy | eapply t_trans; eauto]).
    exists (x :: l). split; [cbn; lia|]. split; [constructor; [intros H; apply (Hac x), Hup, H | exact Hnd]|]. split; [intros z [<-|Hz]; [apply (in_map fst _ _ Hx) | apply Hi, Hz]|]. intros z [<-|Hz]; auto.
Qed.

Lemma count_small L cs x cx : acyclic L -> incl (map fst cs) L -> paced cs -> moved_back cs -> In (x, cx) cs -> cx < Z.of_nat (length cs).
Proof using Type.
  intros Hac HL Hp Hm Hx. destruct (Z_lt_le_dec cx (Z.of_nat (length cs))) as [H|H]; [exact H|]. exfalso.
  destruct (chain_of_count L cs Hac HL Hp Hm (length cs) x cx Hx H) as (l & Hlen & Hnd & Hi & _). pose proof (NoDup_incl_le _ _ Hnd Hi). rewrite length_map in H0. lia.
Qed.

(** The counters stay below the threshold: the front one at most the number of objects
    that are left, any one at most one more. *)
Definition bounded (cs : counts) : Prop :=
  (forall p, In p cs -> 0 <= snd p <= Z.of_nat (length cs) + 1) /\ forall p, nth_error cs 0 = Some p -> snd p <= Z.of_nat (length cs).

Lemma bounded_start l : bounded (map (fun x => (x, 0)) l).
Proof using Type.
  clear dep kept. split; intros p Hp; [|apply nth_error_In in Hp]; apply in_map_iff in Hp as (x & <- & _); cbn; lia.
Qed.

(** What is left to do: the steps for [cs] when [n] objects are sorted. *)
Definition steps (n : nat) (cs : counts) : Z := Z.of_nat (length cs) * (Z.of_nat n * (Z.of_nat n + 1) + 1) - sum cs.

Lemma steps_start n l : steps n (map (fun x => (x, 0)) l) = Z.of_nat (length l) * (Z.of_nat n * (Z.of_nat n + 1) + 1).
Proof using Type.
  clear dep kept. unfold steps. rewrite length_map. replace (sum (map (fun x => (x, 0)) l)) with 0; [lia|]. induction l as [|x l IH]; [reflexivity|]. cbn [map]. change (0 = 0 + sum (map (fun x => (x, 0)) l)). lia.
Qed.

Lemma steps_advance n cs l : bounded cs -> length cs = S (length l) -> (length cs <= n)%nat -> steps n (map (fun x => (x, 0)) l) < steps n cs.
Proof using Type.
  clear dep kept. intros [Hb _] Hl Hn. rewrite steps_start. unfold steps. pose proof (sum_bound cs _ Hb). rewrite Hl in *. nia.
Qed.

Lemma zero_counts (l : list Z) : map fst (map (fun x => (x, 0)) l) = l /\ map snd (map (fun x => (x, 0)) l) = repeat 0 (length l).
Proof using Type. clear dep kept. induction l as [|x l [IH1 IH2]]; cbn; [auto|]. rewrite IH1, IH2. auto. Qed.

Lemma map_split {A B} (f : A -> B) cs : forall b y c, map f cs = b ++ y :: c -> exists b' p c', cs = b' ++ p :: c' /\ map f b' = b /\ f p = y /\ map f c' = c.
Proof using Type.
  intros b y c E. apply map_eq_app in E as (b' & r & -> & <- & E). destruct r as [|p c']; [discriminate|]. injection E as <- <-. exists b', p, c'. auto.
Qed.

(** The state of the loop. *)
Record sorting (L done : list Z) (cs : counts) : Prop := {
  srt_perm : Permutation L (done ++ map fst cs);
  srt_bounded : bounded cs;
  srt_acyclic : NoDup L -> acyclic L -> paced cs /\ moved_back cs /\ settled done (map fst cs) }.

Definition sorted_result (L r : list Z) : Prop := Permutation L r /\ (NoDup L -> acyclic L -> settled r []).

Lemma sorting_advance L done x l cs : Permutation (map fst cs) (x :: l) -> sorting L done cs ->
  (NoDup L -> acyclic L -> kept x = false -> forall y, In y l -> ~ dep y x) -> sorting L (done ++ [x]) (map (fun x => (x, 0)) l).
Proof using Type.
  intros P [H1 H2 H3] Hx. destruct (zero_counts l) as [E _]. split; [rewrite E, <- app_assoc; eapply perm_trans; [exact H1|]; apply Permutation_app_head; exact P | apply bounded_start|].
  intros Hnd Hac. destruct (H3 Hnd Hac) as (_ & _ & Hs). split; [apply paced_start|]. split; [apply moved_back_start|]. rewrite E. apply settled_snoc; [eapply settled_perm; eauto | auto].
Qed.

Lemma sorting_move L done x cx b y cy c : sorting L done ((x, cx) :: b ++ (y, cy) :: c) -> dep y x -> (forall z, In z (map fst c) -> ~ dep z x) ->
  (forall p, nth_error (b ++ [(y, cy)]) 0 = Some p -> snd p <= Z.of_nat (length ((x, cx) :: b ++ (y, cy) :: c))) ->
  sorting L done (b ++ (y, cy) :: (x, cx + 1) :: c).
Proof using Type.
  intros [H1 H2 H3] Hd Hc Hfront. assert (P : Permutation (map fst ((x, cx) :: b ++ (y, cy) :: c)) (map fst (b ++ (y, cy) :: (x, cx + 1) :: c))).
  { cbn [map fst]. rewrite !map_app. cbn [map fst]. eapply perm_trans; [apply Permutation_middle|]. apply Permutation_app_head. apply perm_swap. }
  assert (Hlen : length (b ++ (y, cy) :: (x, cx + 1) :: c) = length ((x, cx) :: b ++ (y, cy) :: c)) by (cbn [length]; rewrite !length_app; cbn [length]; lia).
  split; [eapply perm_trans; [exact H1 | apply Permutation_app_head, P] | |].
  - destruct H2 as [H2 H2']. pose proof (H2 (x, cx) (or_introl eq_refl)) as Hx. specialize (H2' (x, cx) eq_refl). cbn [snd] in *. split; rewrite Hlen.
    + intros p Hp. apply in_app_iff in Hp as [Hp|[<-|[<-|Hp]]]; [apply H2; right; apply in_app_iff; auto | apply H2; right; apply in_app_iff; right; left; reflexivity | cbn [snd]; lia | apply H2; right; apply in_app_iff; right; right; exact Hp].
    + intros p Hp. apply Hfront. destruct b; exact Hp.
  - intros Hnd Hac. destruct (H3 Hnd Hac) as (Hp & Hm & Hs). assert (Hne : y <> x).
    { intros ->. apply (Permutation_NoDup H1), NoDup_app_remove_l in Hnd. inversion_clear Hnd as [|? ? Hn _]. apply Hn. rewrite map_app. apply in_app_iff. right. left. reflexivity. }
    split; [|split; [apply moved_back_move; assumption | eapply settled_perm; eauto]]. replace (b ++ (y, cy) :: (x, cx + 1) :: c) with ((b ++ [(y, cy)]) ++ (x, cx + 1) :: c) by (rewrite <- app_assoc; reflexivity).
    apply paced_move; [rewrite <- app_assoc; exact Hp | exact Hc].
Qed.

Lemma nth_error_at {T} (d : list T) x c : nth_error (d ++ x :: c) (length d) = Some x.
Proof using Type. clear dep kept. rewrite nth_error_app2, Nat.sub_diag by lia. reflexivity. Qed.

Lemma nth_error_behind {T} (d : list T) x c : nth_error (d ++ x :: c) (S (length d)) = nth_error c 0.
Proof using Type. clear dep kept. rewrite nth_error_app2 by lia. replace (S (length d) - length d)%nat with 1%nat by lia. reflexivity. Qed.

Lemma skipn_behind {T} (d : list T) x c : skipn (S (length d)) (d ++ x :: c) = c.
Proof using Type. clear dep kept. rewrite skipn_app, skipn_all2 by lia. replace (S (length d) - length d)%nat with 1%nat by lia. reflexivity. Qed.

Lemma firstn_at {T} (d c : list T) : firstn (length d) (d ++ c) = d.
Proof using Type. clear dep kept. rewrite firstn_app, firstn_all, Nat.sub_diag. apply app_nil_r. Qed.

(** What the loop does with [fuel] steps. *)
Definition loop_sorts (L : list Z) (fuel : nat) : Prop := forall done sd cs, sorting L done cs -> length sd = length done -> cs <> [] -> steps (length L) cs <= Z.of_nat fuel ->
  exists r, sort_original_loop obj fuel for_fini (done ++ map fst cs) (sd ++ map snd cs) (length done) = Some r /\ sorted_result L r.

Lemma sorting_length L done cs : sorting L done cs -> (length cs <= length L)%nat.
Proof using Type. intros Hs. rewrite (Permutation_length (srt_perm _ _ _ Hs)), length_app, length_map. clear dep kept Hs. lia. Qed.

(** ++i and next_clear, with [z] at position i. *)
Lemma loop_advance L fuel done sd cs z l t s : loop_sorts L fuel -> sorting L done cs -> length sd = length done -> steps (length L) cs <= Z.of_nat (S fuel) ->
  Permutation (map fst cs) (z :: l) -> length s = length l -> l <> [] -> (NoDup L -> acyclic L -> kept z = false -> forall y, In y l -> ~ dep y z) ->
  exists r, sort_original_loop obj fuel for_fini (done ++ z :: l) (clear_from (S (length done)) (sd ++ t :: s)) (S (length done)) = Some r /\ sorted_result L r.
Proof using Type.
  intros IH Hs Hsd Hf P Hl Hne Hz. replace (clear_from (S (length done)) (sd ++ t :: s)) with ((sd ++ [t]) ++ repeat 0 (length l)) by (rewrite <- Hsd, clear_from_app, Hl; reflexivity).
  destruct (zero_counts l) as [E1 E2]. rewrite <- E2. pose proof (sorting_advance L done z l cs P Hs Hz) as Hs'. pose proof (Permutation_length P) as HP. rewrite length_map in HP.
  pose proof (steps_advance (length L) cs l (srt_bounded _ _ _ Hs) HP (sorting_length _ _ _ Hs)).
  destruct (IH (done ++ [z]) (sd ++ [t]) _ Hs') as (r & E & Hr); [rewrite !length_app; cbn; lia | destruct l; [congruence | discriminate] | lia|].
  exists r. split; [|exact Hr]. rewrite <- E, E1, <- !app_assoc, length_app. cbn [app length]. rewrite Nat.add_1_r. reflexivity.
Qed.

(** skip: nothing behind [x] depends on it. *)
Lemma loop_skip L fuel done sd x cx cs : loop_sorts L fuel -> sorting L done ((x, cx) :: cs) -> length sd = length done -> steps (length L) ((x, cx) :: cs) <= Z.of_nat (S fuel) ->
  (kept x = false -> forall y, In y (map fst cs) -> ~ dep y x) ->
  exists r, (if Nat.eqb (S (length done)) (length (done ++ x :: map fst cs)) then Some (done ++ x :: map fst cs)
    else sort_original_loop obj fuel for_fini (done ++ x :: map fst cs) (clear_from (S (length done)) (sd ++ (cx + 1) :: map snd cs)) (S (length done))) = Some r /\ sorted_result L r.
Proof using Type.
  intros IH Hs Hsd Hf Hlast. destruct (Nat.eqb_spec (S (length done)) (length (done ++ x :: map fst cs))) as [E|E]; rewrite length_app in E; cbn [length] in E; rewrite length_map in E.
  - assert (cs = []) as -> by (destruct cs; [reflexivity | cbn in E; lia]). exists (done ++ [x]). split; [reflexivity|].
    pose proof (sorting_advance L done x [] [(x, cx)] (Permutation_refl _) Hs (fun _ _ => Hlast)) as [H1 _ H3]. cbn [map] in H1, H3. rewrite app_nil_r in H1. split; [exact H1|]. intros Hnd Hac. apply (H3 Hnd Hac).
  - apply (loop_advance L fuel done sd ((x, cx) :: cs)); auto; [rewrite !length_map; reflexivity | destruct cs; [cbn in E; lia | discriminate]].
Qed.

(** The threshold is never passed without a cycle. *)
Lemma no_threshold L done cs p : sorting L done cs -> In p cs -> Z.of_nat (length cs) < snd p -> NoDup L -> acyclic L -> False.
Proof using Type.
  intros Hs Hin Hlt Hnd Hac. destruct (srt_acyclic _ _ _ Hs Hnd Hac) as (Hpc & Hm & _). destruct p as [q cq]. cbn [snd] in Hlt.
  enough (cq < Z.of_nat (length cs)) by lia. apply (count_small L cs q cq Hac); try assumption. intros w Hw. apply (Permutation_in _ (Permutation_sym (srt_perm _ _ _ Hs))), in_app_iff. auto.
Qed.

Lemma sort_original_loop_spec L fuel : Z.of_nat (length L) + 1 < 2 ^ 16 -> loop_sorts L fuel.
Proof using Type.
  intros Hn. induction fuel as [|fuel IH]; intros done sd cs Hs Hsd Hcs Hf; pose proof (sorting_length _ _ _ Hs) as HlenL.
  { exfalso. destruct Hs as [_ [Hb _] _]. pose proof (sum_bound cs _ Hb). unfold steps in Hf. destruct cs; [congruence|]. cbn [length] in *. nia. }
  destruct cs as [|[x cx] cs]; [congruence|]. clear Hcs. destruct (srt_bounded _ _ _ Hs) as [Hb Hb']. pose proof (Hb _ (or_introl eq_refl)) as Hx. specialize (Hb' _ eq_refl). cbn [snd length] in Hx, Hb', HlenL.
  cbn [sort_original_loop map fst snd]. rewrite nth_error_at, <- Hsd, nth_error_at, firstn_at, skipn_behind, Hsd, skipn_behind.
  replace (wrap 16 (cx + 1)) with (cx + 1) by (unfold wrap; rewrite Z.mod_small; lia).
  fold (kept x). destruct (kept x) eqn:Ek; [apply loop_skip; auto; congruence|]. destruct (last_dependent obj for_fini x (map fst cs) (S (length done))) as [k|] eqn:El.
  2: { apply loop_skip; auto. intros _. eapply last_dependent_none; eauto. }
  destruct (last_dependent_some _ _ _ _ El) as (b & y & c & Ecs & -> & Hdep & Hc). destruct (map_split _ _ _ _ _ Ecs) as (b' & [y' cy] & c' & -> & <- & <- & <-). cbn [fst] in *.
  replace (nth_error (sd ++ cx + 1 :: map snd (b' ++ (y', cy) :: c')) (S (length done))) with (nth_error (map snd (b' ++ (y', cy) :: c')) 0) by (rewrite <- Hsd; symmetry; apply nth_error_behind). replace (length (done ++ x :: map fst (b' ++ (y', cy) :: c')) - length done)%nat with (length ((x, cx) :: b' ++ (y', cy) :: c')) by (rewrite length_app; cbn [length]; rewrite length_map; lia).
  rewrite !map_app. cbn [map fst snd]. replace (S (length done) + length (map fst b'))%nat with (length done + S (length (map fst b')))%nat by lia. rewrite rotate_app.
  assert (Hfront : exists p, nth_error (b' ++ [(y', cy)]) 0 = Some p /\ nth_error (map snd b' ++ cy :: map snd c') 0 = Some (snd p)) by (destruct b' as [|p b']; [exists (y', cy) | exists p]; auto).
  destruct Hfront as (p & Hp & ->). destruct (Z.ltb_spec (Z.of_nat (length ((x, cx) :: b' ++ (y', cy) :: c'))) (snd p)) as [Hlt|Hge].
  - assert (Hz : exists z l, map fst b' ++ y' :: x :: map fst c' = z :: l /\ l <> []) by (destruct b' as [|q b']; cbn [map app]; do 2 eexists; (split; [reflexivity | destruct (map fst b') || idtac; discriminate])).
    destruct Hz as (z & l & E & Hne). rewrite E. assert (P : Permutation (x :: map fst (b' ++ (y', cy) :: c')) (z :: l)) by (rewrite <- E, map_app; cbn [map fst]; eapply perm_trans; [apply Permutation_middle | apply Permutation_app_head, perm_swap]).
    apply (loop_advance L fuel done sd ((x, cx) :: b' ++ (y', cy) :: c')); auto; [apply Permutation_length in P; cbn [length] in P; rewrite length_map, length_app in P; rewrite length_app; cbn [length] in *; rewrite !length_map; lia|].
    intros Hnd Hac. destruct (no_threshold L done _ p Hs) as []; auto. right. apply nth_error_In in Hp. apply in_app_iff in Hp as [Hp|[<-|[]]]; apply in_app_iff; [auto | right; left; reflexivity].
  - pose proof (sorting_move L done x cx b' y' cy c' Hs Hdep Hc) as Hmove. destruct (IH done sd (b' ++ (y', cy) :: (x, cx + 1) :: c')) as (r & E & Hr); [apply Hmove; intros p' Hp'; rewrite Hp in Hp'; injection Hp' as <-; exact Hge | exact Hsd | destruct b'; discriminate | |].
    + unfold steps in *. rewrite length_app in *. cbn [length] in *. rewrite length_app in *. cbn [length] in *. change (sum ((x, cx) :: b' ++ (y', cy) :: c')) with (cx + sum (b' ++ (y', cy) :: c')) in Hf. rewrite sum_app in *.
      change (sum ((y', cy) :: (x, cx + 1) :: c')) with (cy + (cx + 1 + sum c')). change (sum ((y', cy) :: c')) with (cy + sum c') in Hf. lia.
    + exists r. split; [|exact Hr]. rewrite <- E. f_equal; rewrite !map_app; cbn [map fst snd]; [reflexivity|]. rewrite <- Hsd. replace (length (map fst b')) with (length (map snd b')) by (rewrite !length_map; reflexivity). apply rotate_app.
Qed.
End Original.

Lemma settled_precedes obj for_fini l : settled obj for_fini l [] -> forall x y, In x l -> In y l -> x <> y ->
  for_fini && (negb (x =? l_real (obj x)) || (l_idx (obj x) =? -1)) = false -> depends_on obj for_fini y x = true -> precedes l y x.
Proof.
  intros H x y Hx Hy Hne Hk Hd. destruct (in_split x l Hx) as (a & b & ->). apply in_app_iff in Hy as [Hy|[Hy|Hy]]; [|congruence|].
  - destruct (in_split y a Hy) as (a1 & a2 & ->). exists a1, (a2 ++ x :: b). rewrite <- app_assoc. split; [reflexivity|]. apply in_app_iff. right. left. reflexivity.
  - destruct (H a x b eq_refl Hk y); [rewrite app_nil_r; exact Hy | exact Hd].
Qed.

Lemma settled_short obj for_fini l : (length l <= 1)%nat -> settled obj for_fini l [].
Proof. intros Hl a x b E _ y Hy. assert (length l = length a + S (length b))%nat by (rewrite E, length_app; reflexivity). destruct b; [destruct Hy | cbn in *; lia]. Qed.

Lemma original_sorts obj for_fini fuel maps : Z.of_nat (length maps) + 1 < 2 ^ 16 -> Z.of_nat (length maps) * (Z.of_nat (length maps) * (Z.of_nat (length maps) + 1) + 1) <= Z.of_nat fuel ->
  exists r, (if (length maps <=? 1)%nat then Some maps else sort_original_loop obj fuel for_fini maps (repeat 0 (length maps)) 0) = Some r /\ sorted_result obj for_fini maps r.
Proof.
  intros Hn Hf. destruct (Nat.leb_spec (length maps) 1) as [Hl|Hl]; [exists maps; split; [reflexivity|]; split; [apply Permutation_refl | intros _ _; apply settled_short, Hl]|].
  destruct (zero_counts maps) as [E1 E2]. destruct (sort_original_loop_spec obj for_fini maps fuel Hn [] [] (map (fun x => (x, 0)) maps)) as (r & E & Hr); [| reflexivity | destruct maps; [cbn in Hl; lia | discriminate] | rewrite steps_start; exact Hf |].
  - split; [rewrite E1; apply Permutation_refl | apply bounded_start | intros _ _]. split; [apply paced_start|]. split; [apply moved_back_start|]. intros a x b E. destruct a; discriminate.
  - exists r. split; [|exact Hr]. cbn [app] in E. rewrite E1, E2 in E. exact E.
Qed.

(** What the order must respect, in terms of the lists of dependencies: [y] comes before
    [x] if [x] is a link-time dependency of [y], or, for finalization, a relocation
    dependency of [y] which has not itself [y] as a link-time dependency. *)
Definition requires (obj : Z -> link_map) (for_fini : bool) (y x : Z) : Prop :=
  In x (deps_of obj false y) \/ (for_fini = true /\ In x (deps_of obj true y) /\ ~ In y (deps_of obj false x)).

(** Chains of these among the objects [l]. *)
Definition requires_chain (obj : Z -> link_map) (for_fini : bool) (l : list Z) : Z -> Z -> Prop :=
  clos_trans Z (fun y x => In y l /\ In x l /\ y <> x /\ requires obj for_fini y x).

Lemma initfini_deps obj x y : match l_initfini (obj y) with Some deps => memb x deps | None => false end = true <-> In x (deps_of obj false y).
Proof. unfold deps_of. rewrite app_nil_r. destruct (l_initfini (obj y)); [apply memb_In | cbn; split; [discriminate | contradiction]]. Qed.

Lemma reldeps_deps obj x y : In x (deps_of obj true y) <-> In x (deps_of obj false y) \/ match l_reldeps (obj y) with Some rel => memb x rel | None => false end = true.
Proof.
  unfold deps_of. rewrite app_nil_r, in_app_iff. destruct (l_reldeps (obj y)) as [rel|]; [rewrite <- in_rev, memb_In; reflexivity | cbn; split; intros [H|H]; auto; discriminate].
Qed.

(** The two searches of the code decide it. *)
Lemma depends_on_requires obj for_fini y x : depends_on obj for_fini y x = true <-> requires obj for_fini y x.
Proof.
  unfold depends_on, requires. rewrite reldeps_deps, <- !initfini_deps. destruct (match l_initfini (obj y) with Some deps => memb x deps | None => false end); [split; auto|].
  destruct for_fini; [|split; [discriminate | intros [H|[H _]]; discriminate]]. destruct (l_reldeps (obj y)) as [rel|]; [|split; [discriminate | intros [H|(_ & [H|H] & _)]; discriminate]].
  destruct (memb x rel); [|split; [discriminate | intros [H|(_ & [H|H] & _)]; discriminate]]. destruct (match l_initfini (obj x) with Some deps => memb y deps | None => false end); cbn [negb].
  - split; [discriminate | intros [H|(_ & _ & H)]; [discriminate | contradiction]].
  - split; [|reflexivity]. intros _. right. repeat split; auto.
Qed.

Lemma above_requires_chain obj for_fini l x y : above obj for_fini l x y -> requires_chain obj for_fini l y x.
Proof.
  intros H. induction H as [a b (H1 & H2 & H3 & H4)|a b c _ IH1 _ IH2]; [|eapply t_trans; eauto]. apply t_step. repeat split; auto. apply depends_on_requires, H4.
Qed.

(** C39: _dl_sort_maps with the original algorithm.  For fewer than 65535 objects it
    returns within a number of steps that is cubic in the number of objects, without its
    16-bit counters wrapping around, with a permutation of the maps in which a forced
    first object stays in its place.  If no objects require each other in a cycle, each
    object that is sorted comes behind all others that require it, by a link-time
    dependency or, for finalization, by a relocation dependency that no link-time
    dependency opposes: the counters never give up too early.  Not sorted are the forced
    first object and, for finalization, objects that are not removed and ld.so in
    secondary namespaces. *)
Theorem dl_sort_maps_original_correct obj fuel first_map rest force_first for_fini v : let maps := first_map :: rest in let n := Z.of_nat (length maps) in
  n + 1 < 2 ^ 16 -> n * (n * (n + 1) + 1) <= Z.of_nat fuel ->
  exists r, dl_sort_maps obj fuel true maps force_first for_fini v = Some r /\ Permutation maps r /\
    (force_first = true -> nth_error r 0 = Some first_map) /\
    (NoDup maps -> (forall x, ~ requires_chain obj for_fini maps x x) ->
     forall x y, In x maps -> In y maps -> x <> y -> requires obj for_fini y x ->
     (for_fini = true -> x = l_real (obj x) /\ l_idx (obj x) <> -1) -> (force_first = true -> x <> first_map) -> precedes r y x).
Proof.
  intros maps n Hn Hf. unfold dl_sort_maps, dl_sort_maps_original.
  assert (Hkept : forall x, (for_fini = true -> x = l_real (obj x) /\ l_idx (obj x) <> -1) -> for_fini && (negb (x =? l_real (obj x)) || (l_idx (obj x) =? -1)) = false).
  { intros x Hx. destruct for_fini; [|reflexivity]. destruct (Hx eq_refl) as [E1 E2]. rewrite <- E1, Z.eqb_refl. cbn. apply Z.eqb_neq, E2. }
  destruct force_first; cbv beta iota zeta.
  - change maps with ([first_map] ++ rest). cbn [app]. subst n maps. cbn [length] in Hn, Hf. destruct (original_sorts obj for_fini fuel rest) as (r & E & P & Ho); [lia | nia|].
    exists (first_map :: r). split; [destruct (_ <=? 1)%nat; [injection E as ->; reflexivity | rewrite E; reflexivity]|]. split; [constructor; exact P|]. split; [reflexivity|].
    intros Hnd Hno x y Hx Hy Hne Hd Hk Hf1. apply depends_on_requires in Hd. assert (Hac : acyclic obj for_fini (first_map :: rest)) by (intros z Hz; apply (Hno z), above_requires_chain, Hz). specialize (Hf1 eq_refl). destruct Hx as [Hx|Hx]; [congruence|]. destruct Hy as [<-|Hy]; [exists [], r; split; [reflexivity | apply (Permutation_in _ P), Hx]|].
    assert (Hs : settled obj for_fini r []).
    { apply Ho; [inversion Hnd; assumption|]. intros z Hz. apply (Hac z). revert Hz. generalize z at 1 3. intros w Hw. induction Hw as [a b (H1 & H2 & H3)|]; [apply t_step; split; [right; exact H1|]; split; [right; exact H2 | exact H3] | eapply t_trans; eauto]. }
    assert (Hp : precedes r y x) by (apply (settled_precedes obj for_fini r Hs); auto; apply (Permutation_in _ P); assumption). destruct Hp as (a & b & -> & Hb). exists (first_map :: a), b. auto.
  - destruct (original_sorts obj for_fini fuel maps Hn Hf) as (r & E & P & Ho). exists r. split; [destruct (_ <=? 1)%nat; [exact E | rewrite E; reflexivity]|]. split; [exact P|]. split; [discriminate|].
    intros Hnd Hno x y Hx Hy Hne Hd Hk _. apply depends_on_requires in Hd. assert (Hac : acyclic obj for_fini maps) by (intros z Hz; apply (Hno z), above_requires_chain, Hz). apply (settled_precedes obj for_fini r (Ho Hnd Hac)); auto; apply (Permutation_in _ P); assumption.
Qed.

(** A program 1 with the libraries 2 and 3, which both need 4. *)
Definition diamond (x : Z) : link_map :=
  {| l_initfini := Some (if x =? 1 then [2; 3] else if (x =? 2) || (x =? 3) then [4] else []);
     l_reldeps := None; l_main_map := x =? 1; l_faked := false; l_real := x; l_idx := 0 |}.

Lemma dl_sort_maps_dfs_correct_witness : exists r, dl_sort_maps diamond 5 false [1; 4; 3; 2] true false (fun _ => false) = Some r /\ precedes r 2 4 /\ precedes r 3 4.
Proof.
  destruct (dl_sort_maps_dfs_correct diamond 5 1 [4; 3; 2] true false (fun _ => false)) as (r & E & _ & _ & H & _).
  - repeat constructor; cbn; lia.
  - reflexivity.
  - intros x d Hx Hd. cbn in Hx. repeat (destruct Hx as [<-|Hx]; [cbn in Hd; left; cbn; lia|]). destruct Hx.
  - cbn; lia.
  - assert (Hr : forall y, ~ reach diamond false [1; 4; 3; 2] 4 y \/ y = 4).
    { intros y. destruct (Z.eq_dec y 4) as [|Hne]; [auto|]. left. intros Hr. apply clos_rt_rt1n_iff in Hr. inversion Hr as [|z ? Hz]; subst; [congruence|]. destruct Hz as [[] _]. }
    exists r. split; [exact E|]. split; (apply H; [cbn; auto 6 | repeat split; cbn; auto; lia | destruct (Hr 2) as [Hr2|]; [|discriminate]; destruct (Hr 3) as [Hr3|]; [|discriminate]; assumption | discriminate]).
Defined.

(** For finalization 2 depends on 3 by a relocation only. *)
Definition relocating (x : Z) : link_map :=
  {| l_initfini := Some (if x =? 1 then [2; 3] else []); l_reldeps := if x =? 2 then Some [3] else None;
     l_main_map := x =? 1; l_faked := false; l_real := x; l_idx := 0 |}.

Lemma dl_sort_maps_original_correct_witness : exists r, dl_sort_maps relocating 84 true [3; 2; 1] false true (fun _ => false) = Some r /\ precedes r 1 2 /\ precedes r 2 3.
Proof.
  destruct (dl_sort_maps_original_correct relocating 84 3 [2; 1] false true (fun _ => false)) as (r & E & _ & _ & H).
  - cbn. lia.
  - cbn. lia.
  - assert (Hac : forall x, ~ requires_chain relocating true [3; 2; 1] x x).
    { assert (Hlt : forall x y, requires_chain relocating true [3; 2; 1] x y -> x < y).
      { intros x y Hxy. induction Hxy as [a b (Ha & Hb & Hne & Hd)|]; [|lia]. apply depends_on_requires in Hd. cbn in Ha, Hb. repeat (destruct Ha as [<-|Ha]; [repeat (destruct Hb as [<-|Hb]; [first [lia | discriminate Hd]|]); destruct Hb|]). destruct Ha. }
      intros x Hx. apply Hlt in Hx. lia. }
    exists r. split; [exact E|]. split; (apply H; [repeat constructor; cbn; lia | exact Hac | cbn; auto 6 | cbn; auto 6 | lia | apply depends_on_requires; reflexivity | cbn; lia | discriminate]).
Defined.
